(* ===== verification/_CoqProject ===== *)
-Q . S2P
Prelude.v
Status.v
Utf8.v
Codec.v
CodecTheory.v
Codecs.v
CodecsFacts.v
Js.v
Binary.v
WireProps.v
Crypto.v
Auth.v
Storage.v
Bag.v
Server.v
ServerFacts.v
HostProps.v
Checksum.v
EntDB.v
EntMem.v
EntMemFacts.v
EntProps.v
Batch.v
Pool.v
Coalesce.v
State.v
Cursor.v
ClientProps.v
Stores.v
Sync.v
SyncFacts.v
SyncPull.v
SyncPush.v
Reconcile.v
Notif.v
SyncProps.v
ReconcileProps.v
NotifProps.v
Client.v
Devices.v
DevicesProps.v
Exim.v
EximProps.v
X25519.v
Enclave.v
EnclaveFacts.v
EnclaveProps.v
Blobs.v
Writer.v
WriterFacts.v
LocalApp.v
WriterProps.v
RecoveryProps.v
Facade.v
FacadeFacts.v
FacadeProps.v
Backup.v
BackupProps.v
Cached.v
CachedFacts.v
CachedInv.v
CachedChain.v
CachedProps.v
EntIdb.v
EntIdbFacts.v
EntIdbQuery.v
EntIdbProps.v
Threads.v
ThreadsProps.v
Worker.v
WorkerFacts.v
WorkerProps.v
Tables.v
Keyring.v
Accounts.v
AccountsProps.v
StoresIdb.v
StoresIdbProps.v
SqlStorage.v
SqlStorageProps.v
