(* ===== verification/Prelude.v ===== *)
(** * DIPLOMATIC: a model of the sync protocol, its host and its client database

    DIPLOMATIC keeps an application's data as end-to-end encrypted messages.
    A client turns each change into a message about one entity, seals it into
    a signed, encrypted bag and pushes the bag to hosts.  A host stores bags
    per user and realm under growing sequence numbers and never sees their
    contents.  Other clients of the same user peek at the new heads, pull the
    bodies, open the bags and apply the messages to a local entity database,
    where the last writer of each entity wins.

    ** Parts and files

    Wire format.
    - [Status]: the protocol constants and [Status] codes
      ([shared/consts.ts], [shared/valstat.ts]); [Res] is a [ValStat] or a
      thrown exception, [M] the state-and-result monad of stateful routines.
    - [Utf8]: [TextEncoder] and [TextDecoder].
    - [Codec]: [encodeVarInt], [decodeVarInt], [Decoder], [Encoder]
      ([shared/codec.ts]).  A decoder is its bytes and position, an encoder
      the bytes written; a codec is a pair of computations, [ICodecStruct].
    - [CodecTheory]: when a codec is [Lawful] (what it encodes decodes back,
      from any position), and when a decoder is safe, total and consuming.
    - [Codecs], [CodecsFacts]: every structure of [shared/codecs/], with its
      status on each branch, and its [Lawful] instance.
    - [Binary]: hex, base 128, base 64 and byte comparison
      ([shared/binary.ts], [shared/crypto/binary.ts]).
    - [Js]: insertion-ordered [Map] and [Set], and the stable [sort].

    Keys, bags, host.
    - [Crypto]: the third-party primitives (Ed25519, XSalsa20-Poly1305,
      BLAKE3, BLAKE2b) as the class [CryptoPrims], what the code relies on as
      [CryptoLaws]; key derivation, realms and [BagManager] above them
      ([shared/crypto/{noble,derivation,realms,bagman}.ts]).  [Toy] is a
      concrete instance, used by the witnesses.
    - [Auth]: signed timestamps and the clock offset ([shared/auth.ts],
      [shared/clock.ts]).
    - [Bag]: messages, sealing and opening ([shared/message.ts],
      [shared/bag.ts], [shared/sync.ts]).
    - [Storage]: the host storage interface [IStorage], the contract
      [StorageSpec] (per user and realm, an append-only log) and the in-memory
      implementation ([shared/storage/memory.ts]), which is proved to meet it.
    - [Server]: the four request handlers USER, PEEK, PULL, PUSH and the LPC,
      HTTP and web-socket entry points ([shared/api/], [shared/lpc/],
      [shared/http/]), over any storage of the class.  [ServerFacts]
      proves what each does from the contract alone.
    - [SqlStorage]: the storages of the Bun, Deno and Cloudflare hosts
      ([bun/src/storage/sqlite.ts], [deno/src/storage/sqlite.ts],
      [hosts/cloudflare/src/index.ts]): the statements over two tables, the
      transaction of a call on SQLite, the batches of a call on D1.

    Client.
    - [Checksum]: order-independent set checksums ([shared/checksum.ts]).
    - [EntDB]: ops, rows, tombstones, [applyOp], tag and date specs
      ([web/src/entdb/entdb.ts]) and [msgToOp]; the fold of ops over a row.
    - [EntMem]: the in-memory entity database and its indexes
      ([web/src/entdb/memory.ts]); [EntMemFacts] its invariant [inv], the
      equivalence of indexed queries and scans, and what [apply] leaves, reports
      and notifies.
    - [Cached]: the write-behind cache over a durable database
      ([web/src/entdb/cached.ts]) as events: calls, turns of the write chain,
      reads that arrive later, commits of another thread; the database below
      is the class [Durable] with its laws [DurableSpec].  [CachedFacts] says
      what one merge does, [CachedInv] carries the invariant over every event, [CachedChain] is the chain of writes alone.
    - [EntIdb]: the IndexedDB database ([web/src/entdb/idb.ts]) over an object
      store given as the class [ObjectStore]: stored rows, [apply] with the
      failures of its transaction, index queries.  [EntIdbFacts] proves what it
      stores and reports, [EntIdbQuery] what it answers.
    - [Batch]: request batches, newest-first order, progress ticks
      ([web/src/{batch,hlc,progress}.ts]).
    - [Pool]: [mapPool] ([web/src/mapPool.ts]) as a step relation.
    - [Coalesce]: [CoalesceTail] and [Debounced] ([web/src/coalesce.ts]) as
      event steps.
    - [State]: event emitter, [StateManager.apply], singleton manager
      ([shared/events.ts], [web/src/state.ts], [shared/singleton.ts]).
    - [Cursor]: realm counters, cursors, keys and labels
      ([web/src/stores/{cursor,realm,label}.ts]).
    - [Stores]: the in-memory archive, queues, realm rows and host cursors
      ([web/src/stores/memory/], [web/src/types.ts]) with their invariant
      [store_ok].
    - [Sync]: peek, push and pull ([web/src/sync.ts]) over those stores and
      any host behind the class [SyncNet].  [SyncFacts] says what one phase
      leaves in the stores and what no phase can undo on any outcome,
      [SyncPull] and [SyncPush] what the loops reach against a host that
      answers.
    - [Notif]: notifications ([handleNotif]); [Reconcile]:
      the full inventory of a host ([reconcileHost]) and what follows from it
      ([web/src/sync.ts]).
    - [Client]: the authenticated call of the host client
      ([shared/client.ts]) over the in-process transport, as the [SyncNet] of
      the sync phases, and what each call of it returns and leaves on the host;
      [Devices] what a push puts into the host's log and what another
      device's peek and pull take out of it.
    - [Blobs]: blobs as entities ([shared/blobs.ts]).
    - [Writer]: local writes, the apply queue, blobs and replay of
      [SyncClient] ([web/src/client.ts]), over the stores and any application
      behind the class [ClientApp]; [WriterFacts] what a write leaves in the
      stores, [LocalApp] the application of [State] and [EntMem] as an instance,
      [RecoveryProps] what draining and replaying leave.
    - [Facade]: the rest of [SyncClient]: accounts, connections and their
      managers, sync, rebuild, reconcile, import, export, wipe and links, over
      the class [Transports]; [FacadeFacts] what its calls keep on every
      outcome, [Backup] what an import leaves.
    - [Threads]: the worker's commits and posts and the main thread's cache over
      one entity database ([web/src/entdb/manager.ts], [web/src/worker/]);
      [Worker]: the worker's runtime and the client in front of it
      ([web/src/worker/{protocol,runtime,entry,client}.ts]) as turns of two
      event loops over shared stores, each running a client of [Facade].
      [WorkerFacts] reduces every turn to moves of the table of calls and the
      messages on their way, and shows what these moves keep.

    Keys at rest.
    - [X25519]: the Montgomery ladder of
      [shared/crypto/x25519.ts] and its reference.
    - [Enclave], [EnclaveFacts]: the master seed, its seals and bindings,
      managers and key tags ([shared/crypto/{enclave,prf}.ts],
      [shared/seed.ts], [web/src/stores/keyTag.ts]), and both sides of a pairing session
      ([shared/crypto/pairing.ts]).
    - [Exim]: export files ([shared/crypto/{export,exim}.ts]).
    - [Tables]: an IndexedDB object store as the class [Table] with its laws,
      and the untyped values kept in it, [jsval].
    - [StoresIdb]: the IndexedDB stores of a client
      ([web/src/stores/idb/{msgs,uplds,dnlds,realms,hosts,store}.ts]): the
      operations of [Stores] over six tables, the faults of a write, and
      [StoreOp], the interface of both kinds of store.
    - [Keyring]: the bindings of one account ([web/src/passkey/prf-store.ts]):
      entries, reading back what was stored, and the operations of
      [PrfSeedStore] over the class [KeyringHost].
    - [Accounts]: the account catalog ([web/src/stores/idb/{names,account}.ts]):
      a row per label with its database names, key tag and keyring.  A call is a
      [Task] of catalog transactions; [task_run] is a call nothing
      interrupts, [pages_run] any number of calls of several pages, one
      transaction at a time.  The catalog is the [KeyringHost] of
      [PrfSeedStore], as [openPrfStore] makes it.

    ** What is shown

    - [WireProps]: round trips of varints, messages, entities, push requests,
      export files and text encodings; no decoder reads outside its input,
      moves backwards or, except where a theorem says so, throws.
    - [HostProps]: PUSH stores exactly the bags whose signature verifies, in
      order and under fresh sequence numbers, and reports each; PEEK and PULL
      read back what was stored; a request acts only as the signer of its
      timestamp and changes no other user's data; a message sealed by a client
      opens again, and an opened bag was signed by the key it is checked
      against; the HTTP transport answers every request; the in-memory
      storage implements the log.
    - [EntProps]: last writer wins, convergence under any order of delivery
      without ties, redelivery, indexed queries, checksums, and the cases
      where last-writer-wins breaks (equal times, times that are no date).
    - [CachedProps]: the cache agrees with the database below it on every row
      no pending work touches; a write stays visible to its writer until a
      newer one replaces it; writes reach the database in the order they were
      made and the chain drains; and two events after which it stays wrong.
    - [EntIdbProps]: the IndexedDB database leaves, reports and answers what the
      in-memory one does, hence is a durable database for the cache; what it
      reports when the browser database fails.
    - [ClientProps]: batching, ordering, the concurrent map, coalescing and
      debouncing, status reports of the state manager, singletons, realm
      counters, download keys and cursors.
    - [SyncProps]: a peek queues or finds every head and moves its cursor past
      them; a pull archives every body that opens and dequeues what it
      handled; a push drains the queue in requests within the budget and
      forgets only what the host confirmed; no phase, even one that fails
      halfway, moves a cursor back or loses an archived message.
    - [NotifProps]: a handled notification loses no message (of those a host gives
      one number, the last is queued), moves cursors only without gaps, and asks for a sync whenever something is left to fetch.
    - [ReconcileProps]: a reconciliation reports the difference of host and
      archive as sets, queues exactly the difference, leaves other downloads as
      they are and ends on the host's cursors.
    - [DevicesProps]: the whole way, client to host to client: every message
      one device's push takes from its queue is in the archive of another
      device of the account after that device has peeked and pulled.

    - [WriterProps]: what a write leaves in the archive and the queues for
      every outcome; what an update from a known revision does on each branch
      of the clock test; a written blob reads back.
    - [RecoveryProps]: a write cut off by a crash is completed by the next
      drain, but for its uploads, which nothing queues; a replay ends and rebuilds the entities from the archive.
    - [FacadeProps]: no call of the client loses an archived message, whatever
      the outcome; connections hold only keys of the open account, until another
      account is opened, which leaves them; a label opens
      only for the master that first named it.
    - [BackupProps]: exporting and importing restores the archive on another
      client of the master.
    - [ThreadsProps]: what the worker writes reaches the main thread's cache once
      nothing is on its way; a clear the worker reports is carried out a second
      time and takes the rows written since with it.
    - [WorkerProps]: a call settles once, with the reply to its own command;
      the event loops come to rest and then no call waits, but for those whose
      worker was replaced, which wait on.
    - [X25519]: the ladder computes what the reference ladder does.
    - [EnclaveProps], [EximProps]: seals open with any of their bindings, a
      bind never mixes masters, pairing hands the enclave over intact, export
      files open again, and what an import accepts is the sections a signed directory
      vouches for.

    - [AccountsProps]: a label keeps its master however calls on the catalog
      interleave; the catalog does what the in-memory account store does; the
      keyrings of the catalog hold each one master through every operation; a passkey once bound
      opens its account again from the stored catalog; and the race in
      which the names of an account's databases change.
    - [StoresIdbProps]: the IndexedDB stores answer every list of calls as the
      in-memory ones do and keep the same rows, hosts by the text of their URL; what a failed write reports, and
      what a host write in two transactions undoes.
    - [SqlStorageProps]: the SQL storages keep the log of the contract; writers
      of one D1 database that interleave lose no bag and share no number; what a
      statement that fails leaves behind; whom D1 takes for registered.

    ** Conventions

    Each [async] function is the sequence of its effects: within one call the
    awaited callee runs to completion, which is what the code does unless it
    starts work it does not await.  Where interleaving is the point ([Pool],
    [Coalesce], [Cached], [Threads], [Worker], [Accounts],
    [SqlStorage]) a step is one turn of the event loop and the order of steps is
    arbitrary.  Integers the code keeps integral are [Z]; numbers that can be
    [NaN] (times of invalid dates) are [num]; [Number] rounds to a double.
    Fuel: [encode_loop] has one unit per binary digit ([encode_fuel_enough]),
    [decode_loop] has 8, after which the code itself has returned an error
    ([decodeVarInt_total]), and [dec_while] runs on the bytes left, which
    every turn shortens ([CodecTheory]); no result is an exhausted fuel.

    ** Not modelled

    Of the databases, opening, closing and upgrading connections.  Of the client, progress events, state emitters and the metadata a call
    writes to its host row are left out of [Facade]; [Client] has the latter.
    The passkey ceremonies [createPrfCred] and [evalPrf] and the transports are
    parameters.  Platform glue is left out for good: [fetch] and [WebSocket]
    objects, WebAuthn, large blobs, the terminal, the start of a worker from its
    bundle, the checks of untyped messages, React, and the
    servers of the Deno, Bun and Cloudflare hosts. *)
From stdpp Require Export prelude list strings gmap option.
From Stdlib Require Export ZArith Lia Strings.Byte.
From stdpp Require Export list_basics list_relations list_monad list.

#[global] Open Scope Z_scope.

Lemma list_filter_all {A} (P : A → Prop) `{∀ x, Decision (P x)} (l : list A) :
  (∀ x, x ∈ l → P x) → filter P l = l.
Proof.
  induction l as [|x l IH]; intros Hp; [done|]. rewrite filter_cons_True by (apply Hp; by left).
  f_equal. apply IH. intros; apply Hp; by right.
Qed.

(** ** Bytes

    A [Uint8Array] is a [list byte].  Storing a number into it keeps the
    number modulo 256, which is [Zbyte]. *)

Abbreviation bytes := (list byte).

Definition byteZ (b : byte) : Z := Z.of_N (Byte.to_N b).

Definition Zbyte (z : Z) : byte :=
  match Byte.of_N (Z.to_N (z mod 256)) with
  | Some b => b
  | None => x00
  end.

Lemma byteZ_range b : 0 <= byteZ b < 256.
Proof.
  unfold byteZ. pose proof (Byte.to_N_bounded b). lia.
Qed.

Lemma Zbyte_byteZ b : Zbyte (byteZ b) = b.
Proof.
  unfold Zbyte. rewrite Z.mod_small by apply byteZ_range.
  unfold byteZ. rewrite N2Z.id, Byte.of_to_N. done.
Qed.

Lemma byteZ_Zbyte z : byteZ (Zbyte z) = z mod 256.
Proof.
  unfold Zbyte, byteZ. pose proof (Z.mod_pos_bound z 256 eq_refl).
  destruct (Byte.of_N (Z.to_N (z mod 256))) as [b|] eqn:E.
  - apply Byte.to_of_N in E. rewrite E. lia.
  - apply Byte.of_N_None_iff in E. lia.
Qed.

Lemma byteZ_Zbyte_small z : 0 <= z < 256 → byteZ (Zbyte z) = z.
Proof. intros. rewrite byteZ_Zbyte. by apply Z.mod_small. Qed.

#[export] Instance byteZ_inj : Inj eq eq byteZ.
Proof. intros a b H. by rewrite <-(Zbyte_byteZ a), <-(Zbyte_byteZ b), H. Qed.

#[export] Instance byte_eq_dec : EqDecision byte.
Proof. intros a b. apply Byte.byte_eq_dec. Defined.

#[export] Program Instance byte_countable : Countable byte :=
  inj_countable' Byte.to_N (λ n, default x00 (Byte.of_N n)) _.
Next Obligation. intros b. cbv beta. by rewrite Byte.of_to_N. Qed.

(** ** JavaScript strings

    A string is its list of 16-bit code units, as [charCodeAt] sees it. *)

Abbreviation jsstr := (list Z).

Definition js (s : string) : jsstr :=
  (λ a, Z.of_N (Ascii.N_of_ascii a)) <$> String.list_ascii_of_string s.

Definition is_unit (c : Z) : Prop := 0 <= c < 65536.

(** ** Numbers and dates

    A [number] that the code keeps integral is a [Z].  A number that may be
    [NaN] (a difference of two [Date]s, one of which may be invalid) is a
    [num]: [None] is [NaN].  [Number z] rounds an exact integer to the nearest
    double, ties to even, as [Number(bigint)] and double addition do. *)

Abbreviation num := (option Z).

Definition round53 (z : Z) : Z :=
  let e := Z.log2 z - 52 in
  if e <=? 0 then z
  else
    let q := Z.shiftr z e in
    let r := z - Z.shiftl q e in
    let half := Z.shiftl 1 (e - 1) in
    if (r <? half) || ((r =? half) && Z.even q) then Z.shiftl q e
    else Z.shiftl (q + 1) e.

Definition Number (z : Z) : Z := if z <? 0 then - round53 (- z) else round53 z.

Definition maxSafe : Z := 2 ^ 53 - 1.

Lemma Number_safe z : Z.abs z <= maxSafe → Number z = z.
Proof.
  unfold Number, round53, maxSafe. intros Hz.
  assert (∀ w, 0 <= w <= 2 ^ 53 - 1 → Z.log2 w - 52 <= 0) as Hlog.
  { intros w Hw. destruct (decide (w = 0)) as [->|]; [done|].
    assert (Z.log2 w < 53); [apply Z.log2_lt_pow2; lia|lia]. }
  destruct (Z.ltb_spec z 0).
  - rewrite (proj2 (Z.leb_le _ _) (Hlog (- z) ltac:(lia))). lia.
  - by rewrite (proj2 (Z.leb_le _ _) (Hlog z ltac:(lia))).
Qed.

Definition fadd (a b : num) : num :=
  x ← a; y ← b; Some (Number (x + y)).
Definition fsub (a b : num) : num :=
  x ← a; y ← b; Some (Number (x - y)).

(** [a < b], [a <= b] on numbers: false when either side is [NaN]. *)
Definition flt (a b : num) : bool :=
  match a, b with Some x, Some y => x <? y | _, _ => false end.
Definition fle (a b : num) : bool :=
  match a, b with Some x, Some y => x <=? y | _, _ => false end.

(** A [Date] is its time value; [None] is an Invalid Date, whose [getTime()]
    is [NaN].  [new Date(v)] clips at 8.64e15 ms. *)
Abbreviation Date := (option Z).
Definition maxDate : Z := 8640000000000000.
Definition mkDate (v : num) : Date :=
  x ← v; if Z.abs x <=? maxDate then Some x else None.
Definition getTime (d : Date) : num := d.

Definition date_ok (d : Date) : Prop := ∃ t, d = Some t ∧ 0 <= t <= maxDate.

Lemma mkDate_ok t : 0 <= t <= maxDate → mkDate (Some t) = Some t.
Proof.
  intros. unfold mkDate; simpl.
  by rewrite (proj2 (Z.leb_le _ _)) by (unfold maxDate in *; lia).
Qed.

(** ** Bits *)

Lemma land_low_shiftl a b s :
  0 <= s → 0 <= a < 2 ^ s → Z.land a (Z.shiftl b s) = 0.
Proof.
  intros Hs Ha. apply Z.bits_inj'. intros n Hn.
  rewrite Z.land_spec, Z.bits_0, Z.shiftl_spec by done.
  destruct (decide (n < s)).
  - by rewrite (Z.testbit_neg_r b) by lia; rewrite andb_false_r.
  - destruct (decide (a = 0)) as [->|]; [by rewrite Z.bits_0|].
    rewrite (Z.bits_above_log2 a n); [done|lia|].
    assert (Z.log2 a < s) by (apply Z.log2_lt_pow2; lia). lia.
Qed.

Lemma lor_shiftl_add a b s :
  0 <= s → 0 <= a < 2 ^ s → Z.lor a (Z.shiftl b s) = a + b * 2 ^ s.
Proof.
  intros. rewrite <-Z.add_nocarry_lor by by apply land_low_shiftl.
  by rewrite Z.shiftl_mul_pow2.
Qed.

Lemma land_127 z : Z.land z 0x7f = z mod 128.
Proof. exact (Z.land_ones z 7 ltac:(done)). Qed.

Lemma lor_128 z : 0 <= z < 128 → Z.lor z 0x80 = z + 128.
Proof. intros. change 0x80 with (Z.shiftl 1 7). by rewrite lor_shiftl_add. Qed.

Lemma land_128_small z : 0 <= z < 128 → Z.land z 0x80 = 0.
Proof. intros. change 0x80 with (Z.shiftl 1 7). by rewrite land_low_shiftl. Qed.

Lemma land_128_large z : 128 <= z < 256 → Z.land z 0x80 = 0x80.
Proof.
  intros. rewrite Z.land_comm. change 0x80 with (Z.shiftl 1 7) at 1.
  replace z with (Z.lor (z - 128) 0x80) by (rewrite lor_128; lia).
  rewrite Z.land_lor_distr_r.
  rewrite (Z.land_comm _ (z - 128)), land_low_shiftl by lia. done.
Qed.
