(* ===== verification/Status.v ===== *)
(** * Status codes, results and the state-and-result monad

    Models [shared/consts.ts] (protocol constants, the [Status] and
    [APICallName] enums) and [shared/valstat.ts] ([ValStat], [ok], [err]).
    Every stateful routine of the development is a computation of the monad
    [M] defined here. *)
From S2P Require Export Prelude.

(** ** Protocol constants ([shared/consts.ts]) *)

Definition sigBytes : Z := 64.
Definition hashBytes : Z := 32.
Definition lenBytes : Z := 8.
Definition pubKeyBytes : Z := 32.
Definition kdmBytes : Z := 8.
Definition hshBytes : Z := 32.
Definition clockToleranceMs : Z := 30000.
Definition notifInlineBodyBytesThreshold : Z := 512.

(** ** [enum Status]

    A status read off the wire is an unchecked byte cast to [Status]; a byte
    that is no member of the enum is [UnknownStatus]. *)
Inductive Status :=
| Success
| InvalidSignature
| ClockOutOfSync
| UserNotRegistered
| ServerMisconfigured
| MissingBody
| ExtraBodyContent
| MissingParam
| InvalidParam
| InvalidRequest
| InternalError
| NotFound
| InvalidMessage
| NoChange
| DatabaseClosed
| StorageError
| DatabaseError
| HashMismatch
| DecryptionError
| NotImplemented
| MissingSeed
| OutOfBounds
| HostError
| CommunicationError
| VarLimitExceeded
| InvalidResponse
| ConnectionClosed
| CryptoError
| WebAuthnError
| UnknownStatus (code : Z).

#[export] Instance Status_eq_dec : EqDecision Status.
Proof. solve_decision. Defined.

Definition status_code (s : Status) : Z :=
  match s with
  | Success => 0
  | InvalidSignature => 3
  | ClockOutOfSync => 4
  | UserNotRegistered => 5
  | ServerMisconfigured => 6
  | MissingBody => 7
  | ExtraBodyContent => 8
  | MissingParam => 9
  | InvalidParam => 10
  | InvalidRequest => 11
  | InternalError => 12
  | NotFound => 13
  | InvalidMessage => 14
  | NoChange => 15
  | DatabaseClosed => 16
  | StorageError => 17
  | DatabaseError => 18
  | HashMismatch => 19
  | DecryptionError => 20
  | NotImplemented => 21
  | MissingSeed => 22
  | OutOfBounds => 23
  | HostError => 24
  | CommunicationError => 25
  | VarLimitExceeded => 26
  | InvalidResponse => 27
  | ConnectionClosed => 28
  | CryptoError => 29
  | WebAuthnError => 30
  | UnknownStatus c => c
  end.

Definition status_of_code (z : Z) : Status :=
  if z =? 0 then Success
  else if z =? 3 then InvalidSignature
  else if z =? 4 then ClockOutOfSync
  else if z =? 5 then UserNotRegistered
  else if z =? 6 then ServerMisconfigured
  else if z =? 7 then MissingBody
  else if z =? 8 then ExtraBodyContent
  else if z =? 9 then MissingParam
  else if z =? 10 then InvalidParam
  else if z =? 11 then InvalidRequest
  else if z =? 12 then InternalError
  else if z =? 13 then NotFound
  else if z =? 14 then InvalidMessage
  else if z =? 15 then NoChange
  else if z =? 16 then DatabaseClosed
  else if z =? 17 then StorageError
  else if z =? 18 then DatabaseError
  else if z =? 19 then HashMismatch
  else if z =? 20 then DecryptionError
  else if z =? 21 then NotImplemented
  else if z =? 22 then MissingSeed
  else if z =? 23 then OutOfBounds
  else if z =? 24 then HostError
  else if z =? 25 then CommunicationError
  else if z =? 26 then VarLimitExceeded
  else if z =? 27 then InvalidResponse
  else if z =? 28 then ConnectionClosed
  else if z =? 29 then CryptoError
  else if z =? 30 then WebAuthnError
  else UnknownStatus z.

Lemma status_of_code_code s :
  (∀ c, s ≠ UnknownStatus c) → status_of_code (status_code s) = s.
Proof. destruct s; try done. intros H. by destruct (H code). Qed.

Lemma status_code_of_code z : status_code (status_of_code z) = z.
Proof.
  unfold status_of_code.
  repeat (case_match; [by match goal with H : (_ =? _) = true |- _ =>
    apply Z.eqb_eq in H; subst end|]); done.
Qed.

(** ** [enum APICallName] *)
Inductive APICallName := CallUser | CallPeek | CallPush | CallPull.

#[export] Instance APICallName_eq_dec : EqDecision APICallName.
Proof. solve_decision. Defined.

(** ** [ValStat] and [Status] results

    [Ok a] is the pair [[a, Status.Success]], [Err s] is [[undefined, s]], and
    [Throw] is a raised exception (a rejected promise for an [async] call).
    A function whose return type is [Status] returns a [Res unit]. *)
Inductive Res (A : Type) := Ok (a : A) | Err (s : Status) | Throw.
Arguments Ok {A} a.
Arguments Err {A} s.
Arguments Throw {A}.

Definition res_map {A B} (f : A → B) (r : Res A) : Res B :=
  match r with Ok a => Ok (f a) | Err s => Err s | Throw => Throw end.

Definition res_bind {A B} (f : A → Res B) (r : Res A) : Res B :=
  match r with Ok a => f a | Err s => Err s | Throw => Throw end.

#[export] Instance Res_fmap : FMap Res := @res_map.
#[export] Instance Res_ret : MRet Res := λ A a, Ok a.
#[export] Instance Res_bind : MBind Res := @res_bind.

Definition is_ok {A} (r : Res A) : bool :=
  match r with Ok _ => true | _ => false end.

(** The [Status] component of a result that did not throw. *)
Definition res_status {A} (r : Res A) : Status :=
  match r with Ok _ => Success | Err s => s | Throw => InternalError end.

(** ** The monad of stateful calls

    A computation over state [S] yields a result and the state it leaves,
    also when it fails: the code's objects keep what was done to them before
    the early return. *)
Definition M (S A : Type) : Type := S → Res A * S.

Definition m_ret {S A} (a : A) : M S A := λ s, (Ok a, s).
Definition m_err {S A} (st : Status) : M S A := λ s, (Err st, s).
Definition m_throw {S A} : M S A := λ s, (Throw, s).
Definition m_bind {S A B} (f : A → M S B) (m : M S A) : M S B :=
  λ s, match m s with
       | (Ok a, s') => f a s'
       | (Err st, s') => (Err st, s')
       | (Throw, s') => (Throw, s')
       end.
Definition m_get {S} : M S S := λ s, (Ok s, s).
Definition m_put {S} (s : S) : M S unit := λ _, (Ok tt, s).
Definition m_lift {S A} (r : Res A) : M S A := λ s, (r, s).

(** A call whose returned status the code drops: an exception still
    propagates. *)
Definition m_ignore {S A} (m : M S A) : M S unit :=
  λ s, match m s with
       | (Throw, s') => (Throw, s')
       | (_, s') => (Ok tt, s')
       end.

(** A call whose result the code inspects. *)
Definition m_try {S A} (m : M S A) : M S (Res A) :=
  λ s, match m s with
       | (Throw, s') => (Throw, s')
       | (r, s') => (Ok r, s')
       end.

#[export] Instance M_ret {S} : MRet (M S) := λ A a, m_ret a.
#[export] Instance M_bind {S} : MBind (M S) := λ A B f m, m_bind f m.

(** [for (const x of xs) f(x)] with an early return on failure. *)
Fixpoint m_forM {S A} (xs : list A) (f : A → M S unit) : M S unit :=
  match xs with
  | [] => mret tt
  | x :: xs' => _ ← f x; m_forM xs' f
  end.

Lemma m_bind_ret {S A B} (a : A) (f : A → M S B) s : m_bind f (m_ret a) s = f a s.
Proof. done. Qed.

Lemma m_bind_Ok {S A B} (m : M S A) (f : A → M S B) s a s' :
  m s = (Ok a, s') → m_bind f m s = f a s'.
Proof. intros H. unfold m_bind. by rewrite H. Qed.

Lemma m_bind_Ok_inv {S A B} (m : M S A) (f : A → M S B) s b s'' :
  m_bind f m s = (Ok b, s'') →
  ∃ a s', m s = (Ok a, s') ∧ f a s' = (Ok b, s'').
Proof.
  unfold m_bind. destruct (m s) as [[a|st|] s'] eqn:E; try done. eauto.
Qed.

Lemma m_bind_assoc {S A B C} (m : M S A) (f : A → M S B) (g : B → M S C) s :
  m_bind g (m_bind f m) s = m_bind (λ a, m_bind g (f a)) m s.
Proof. unfold m_bind. by destruct (m s) as [[]]. Qed.

Lemma m_forM_app {S A} (xs ys : list A) (f : A → M S unit) s :
  m_forM (xs ++ ys) f s = m_bind (λ _, m_forM ys f) (m_forM xs f) s.
Proof.
  revert s. induction xs as [|x xs IH]; intros s; [done|]. simpl.
  unfold mbind, M_bind, m_bind. destruct (f x s) as [[[]| |] s']; [|done..].
  rewrite IH. unfold m_bind. done.
Qed.
