(* ===== verification/Utf8.v ===== *)
(** * The platform's text encoding

    [TextEncoder.encode] and [TextDecoder.decode], which [shared/codec.ts] uses
    for every string on the wire.  They belong to the platform, so nothing here
    is mapped to a source line; they are written out (rather than left as
    parameters) because the code relies on their exact behaviour: lone
    surrogates and malformed bytes become U+FFFD, and a leading byte order mark
    is dropped by the decoder.  The one result exported is
    [text_decode_encode]. *)
From S2P Require Export Status.

(** ** UTF-16 *)

Definition is_high (c : Z) : bool := (0xD800 <=? c) && (c <=? 0xDBFF).
Definition is_low (c : Z) : bool := (0xDC00 <=? c) && (c <=? 0xDFFF).

(** The scalar values of a string; a lone surrogate is U+FFFD. *)
Fixpoint to_scalars (s : jsstr) : list Z :=
  match s with
  | [] => []
  | c :: s' =>
      if is_high c then
        match s' with
        | d :: s'' =>
            if is_low d
            then 0x10000 + (c - 0xD800) * 1024 + (d - 0xDC00) :: to_scalars s''
            else 0xFFFD :: to_scalars s'
        | [] => [0xFFFD]
        end
      else if is_low c then 0xFFFD :: to_scalars s'
      else c :: to_scalars s'
  end.

Definition utf16_of (c : Z) : jsstr :=
  if c <? 0x10000 then [c]
  else [0xD800 + (c - 0x10000) / 1024; 0xDC00 + (c - 0x10000) mod 1024].

(** [String.prototype.isWellFormed], on 16-bit code units. *)
Fixpoint isWellFormed (s : jsstr) : bool :=
  match s with
  | [] => true
  | c :: s' =>
      (0 <=? c) && (c <? 0x10000) &&
      if is_high c then
        match s' with
        | d :: s'' => is_low d && isWellFormed s''
        | [] => false
        end
      else negb (is_low c) && isWellFormed s'
  end.

Definition is_scalar (c : Z) : Prop :=
  0 <= c < 0xD800 ∨ 0xE000 <= c < 0x110000.

Lemma string_pair_ind (P : jsstr → Prop) :
  P [] → (∀ c, P [c]) →
  (∀ c d s, P s → P (d :: s) → P (c :: d :: s)) → ∀ s, P s.
Proof.
  intros H0 H1 H2 s.
  enough (P s ∧ ∀ c, P (c :: s)) as [? _] by done.
  induction s as [|d s [IH1 IH2]]; split; auto.
Qed.

Lemma isWellFormed_cons2 c d s :
  isWellFormed (c :: d :: s) =
    (0 <=? c) && (c <? 0x10000) &&
    (if is_high c then is_low d && isWellFormed s
     else negb (is_low c) && isWellFormed (d :: s)).
Proof. done. Qed.

Lemma to_scalars_cons2 c d s :
  to_scalars (c :: d :: s) =
    if is_high c then
      if is_low d
      then 0x10000 + (c - 0xD800) * 1024 + (d - 0xDC00) :: to_scalars s
      else 0xFFFD :: to_scalars (d :: s)
    else if is_low c then 0xFFFD :: to_scalars (d :: s)
    else c :: to_scalars (d :: s).
Proof. done. Qed.

Lemma to_scalars_wf s :
  isWellFormed s = true →
  Forall is_scalar (to_scalars s) ∧ flat_map utf16_of (to_scalars s) = s.
Proof.
  induction s as [|c|c d s IH1 IH2] using string_pair_ind; [done|..].
  - simpl. unfold is_high, is_low. intros H.
    destruct (is_high c) eqn:Hc; unfold is_high in Hc; rewrite Hc in H |- *.
    { rewrite andb_false_r in H. done. }
    destruct ((0xDC00 <=? c) && (c <=? 0xDFFF)) eqn:Hl;
      [by rewrite andb_false_r in H|].
    simpl. unfold utf16_of. split.
    + constructor; [unfold is_scalar; lia|done].
    + rewrite (proj2 (Z.ltb_lt c 0x10000)) by lia. done.
  - rewrite isWellFormed_cons2, to_scalars_cons2. intros [Hr H]%andb_true_iff.
    destruct (is_high c) eqn:Hc.
    + apply andb_true_iff in H as [Hd H]. rewrite Hd.
      destruct (IH1 H) as [HF HE]. unfold is_high, is_low in *. split.
      * constructor; [unfold is_scalar; lia|done].
      * cbn [flat_map]. rewrite HE. unfold utf16_of.
        rewrite (proj2 (Z.ltb_ge _ 0x10000)) by lia.
        replace (65536 + (c - 55296) * 1024 + (d - 56320) - 65536)
          with ((d - 56320) + (c - 55296) * 1024) by lia.
        rewrite Z.div_add, Z.mod_add, Z.div_small, Z.mod_small by lia.
        cbn [app]. f_equal; [lia|]. f_equal. lia.
    + apply andb_true_iff in H as [Hl H]. apply negb_true_iff in Hl.
      rewrite Hl. destruct (IH2 H) as [HF HE].
      unfold is_high, is_low in *. split.
      * constructor; [unfold is_scalar; lia|done].
      * cbn [flat_map]. rewrite HE. unfold utf16_of.
        rewrite (proj2 (Z.ltb_lt c 0x10000)) by lia. done.
Qed.

(** ** UTF-8 *)

Definition utf8_of (c : Z) : bytes :=
  Zbyte <$>
  (if c <? 0x80 then [c]
   else if c <? 0x800 then [0xC0 + c / 64; 0x80 + c mod 64]
   else if c <? 0x10000 then
     [0xE0 + c / 4096; 0x80 + (c / 64) mod 64; 0x80 + c mod 64]
   else
     [0xF0 + c / 262144; 0x80 + (c / 4096) mod 64; 0x80 + (c / 64) mod 64;
      0x80 + c mod 64]).

Definition text_encode (s : jsstr) : bytes := flat_map utf8_of (to_scalars s).

(** The WHATWG decoder: code point so far, continuation bytes still needed,
    and the bounds of the next continuation byte. *)
Record utf8_state := mkU8 { u_cp : Z; u_need : nat; u_lo : Z; u_hi : Z }.
Definition u8_init : utf8_state := mkU8 0 0 0x80 0xBF.

Definition u8_lead (b : Z) : list Z * utf8_state :=
  if b <=? 0x7F then ([b], u8_init)
  else if (0xC2 <=? b) && (b <=? 0xDF) then ([], mkU8 (b - 0xC0) 1 0x80 0xBF)
  else if (0xE0 <=? b) && (b <=? 0xEF) then
    ([], mkU8 (b - 0xE0) 2 (if b =? 0xE0 then 0xA0 else 0x80)
              (if b =? 0xED then 0x9F else 0xBF))
  else if (0xF0 <=? b) && (b <=? 0xF4) then
    ([], mkU8 (b - 0xF0) 3 (if b =? 0xF0 then 0x90 else 0x80)
              (if b =? 0xF4 then 0x8F else 0xBF))
  else ([0xFFFD], u8_init).

Definition u8_step (st : utf8_state) (b : Z) : list Z * utf8_state :=
  match u_need st with
  | O => u8_lead b
  | S n =>
      if (u_lo st <=? b) && (b <=? u_hi st) then
        let cp := u_cp st * 64 + (b - 0x80) in
        match n with
        | O => ([cp], u8_init)
        | S _ => ([], mkU8 cp n 0x80 0xBF)
        end
      else let '(out, st') := u8_lead b in (0xFFFD :: out, st')
  end.

Fixpoint u8_run (st : utf8_state) (bs : bytes) : list Z :=
  match bs with
  | [] => match u_need st with O => [] | S _ => [0xFFFD] end
  | b :: bs' => let '(out, st') := u8_step st (byteZ b) in out ++ u8_run st' bs'
  end.

Definition strip_bom (bs : bytes) : bytes :=
  if decide (take 3 bs = [xef; xbb; xbf]) then drop 3 bs else bs.

Definition text_decode (bs : bytes) : jsstr :=
  flat_map utf16_of (u8_run u8_init (strip_bom bs)).

Ltac decide_leb :=
  repeat match goal with
  | |- context [?a <=? ?b] =>
      first [rewrite (proj2 (Z.leb_le a b)) by lia
            |rewrite (proj2 (Z.leb_gt a b)) by lia]
  | |- context [?a <? ?b] =>
      first [rewrite (proj2 (Z.ltb_lt a b)) by lia
            |rewrite (proj2 (Z.ltb_ge a b)) by lia]
  end; cbn [andb].

Lemma u8_run_scalar c bs :
  is_scalar c → u8_run u8_init (utf8_of c ++ bs) = c :: u8_run u8_init bs.
Proof.
  intros Hc. unfold utf8_of.
  assert (0 <= c mod 64 < 64) by (apply Z.mod_pos_bound; lia).
  assert (0 <= (c / 64) mod 64 < 64) by (apply Z.mod_pos_bound; lia).
  assert (0 <= (c / 4096) mod 64 < 64) by (apply Z.mod_pos_bound; lia).
  assert (c = 64 * (c / 64) + c mod 64) by (apply Z.div_mod; lia).
  assert (c / 64 = 64 * (c / 4096) + (c / 64) mod 64).
  { replace 4096 with (64 * 64) by lia. rewrite <-Z.div_div by lia.
    apply Z.div_mod; lia. }
  assert (c / 4096 = 64 * (c / 262144) + (c / 4096) mod 64).
  { replace 262144 with (4096 * 64) by lia. rewrite <-Z.div_div by lia.
    apply Z.div_mod; lia. }
  unfold is_scalar in Hc.
  destruct (Z.ltb_spec c 0x80); [|destruct (Z.ltb_spec c 0x800);
    [|destruct (Z.ltb_spec c 0x10000)]];
    cbn [fmap list_fmap app u8_run u8_init];
    unfold u8_step; cbn [u_need u8_init];
    rewrite !byteZ_Zbyte_small by lia; unfold u8_lead;
    repeat (progress (decide_leb; cbn [u_need u_lo u_hi u_cp u8_init app])).
  - done.
  - f_equal; lia.
  - destruct (Z.eqb_spec (224 + c / 4096) 224), (Z.eqb_spec (224 + c / 4096) 237);
      repeat (progress (decide_leb; cbn [u_need u_lo u_hi u_cp u8_init app]));
      f_equal; lia.
  - destruct (Z.eqb_spec (240 + c / 262144) 240), (Z.eqb_spec (240 + c / 262144) 244);
      repeat (progress (decide_leb; cbn [u_need u_lo u_hi u_cp u8_init app]));
      f_equal; lia.
Qed.

Lemma u8_run_scalars cs :
  Forall is_scalar cs → u8_run u8_init (flat_map utf8_of cs) = cs.
Proof.
  induction 1 as [|c cs Hc _ IH]; [done|]. cbn [flat_map].
  by rewrite u8_run_scalar, IH.
Qed.

(** A string the wire carries faithfully. *)
Definition text_ok (s : jsstr) : Prop :=
  isWellFormed s = true ∧ head s ≠ Some 0xFEFF.

#[export] Instance text_ok_dec s : Decision (text_ok s).
Proof. apply _. Defined.

(** No scalar other than U+FEFF encodes to a byte order mark. *)
Lemma strip_bom_utf8 c bs :
  is_scalar c → c ≠ 0xFEFF → strip_bom (utf8_of c ++ bs) = utf8_of c ++ bs.
Proof.
  intros Hc Hn.
  assert (∀ z b, 0 <= z < 256 → Zbyte z = b → z = byteZ b) as Hb.
  { intros z b Hz <-. by rewrite byteZ_Zbyte_small. }
  assert (0 <= c mod 64 < 64) by (apply Z.mod_pos_bound; lia).
  assert (0 <= (c / 64) mod 64 < 64) by (apply Z.mod_pos_bound; lia).
  assert (c = 64 * (c / 64) + c mod 64) by (apply Z.div_mod; lia).
  assert (c / 64 = 64 * (c / 4096) + (c / 64) mod 64).
  { replace 4096 with (64 * 64) by lia. rewrite <-Z.div_div by lia.
    apply Z.div_mod; lia. }
  assert (0 <= (c / 4096) mod 64 < 64) by (apply Z.mod_pos_bound; lia).
  assert (0 <= c / 262144 < 5).
  { unfold is_scalar in Hc.
    split; [apply Z.div_pos; lia|apply Z.div_lt_upper_bound; lia]. }
  assert (c < 0x80 → c = c mod 64 ∨ c = 64 + c mod 64) by (unfold is_scalar in Hc; lia).
  unfold strip_bom. case_decide as Ht; [exfalso|done].
  unfold utf8_of, is_scalar in *.
  destruct (Z.ltb_spec c 0x80); [|destruct (Z.ltb_spec c 0x800);
    [|destruct (Z.ltb_spec c 0x10000)]]; cbn [fmap list_fmap app] in Ht;
    repeat match goal with
    | H : take (S _) _ = _ |- _ => rewrite firstn_cons in H
    | H : Zbyte _ :: _ = _ :: _ |- _ => injection H; clear H; intros
    | H : Zbyte _ = _ |- _ =>
        apply Hb in H; [|lia];
        try change (byteZ xef) with 239 in H;
        try change (byteZ xbb) with 187 in H;
        try change (byteZ xbf) with 191 in H
    end; lia.
Qed.

Lemma head_to_scalars c s :
  isWellFormed s = true → head (to_scalars s) = Some c → c < 0x10000 → head s = Some c.
Proof.
  intros [HF HE]%to_scalars_wf Hh Hc.
  destruct (to_scalars s) as [|c' cs]; [done|]. injection Hh as ->.
  rewrite <-HE. cbn [flat_map]. unfold utf16_of.
  by rewrite (proj2 (Z.ltb_lt c 0x10000)) by lia.
Qed.

(** [new TextDecoder().decode(new TextEncoder().encode(s))] is [s] for every
    well-formed string that does not start with a byte order mark. *)
Lemma text_decode_encode s : text_ok s → text_decode (text_encode s) = s.
Proof.
  intros [Hwf Hbom]. unfold text_decode, text_encode.
  pose proof (to_scalars_wf s Hwf) as [HF HE].
  assert (strip_bom (flat_map utf8_of (to_scalars s)) =
          flat_map utf8_of (to_scalars s)) as ->.
  { destruct (to_scalars s) as [|c cs] eqn:E; [done|].
    pose proof (Forall_inv HF) as Hc. cbn [flat_map].
    apply strip_bom_utf8; [done|]. intros ->. apply Hbom.
    apply (head_to_scalars 0xFEFF s); [done|by rewrite E|lia]. }
  by rewrite u8_run_scalars.
Qed.

(** A leading byte order mark is lost, and a lone surrogate is replaced. *)
Example text_bom_lost : text_decode (text_encode [0xFEFF; 65]) = [65].
Proof. vm_compute. reflexivity. Qed.
Example text_lone_surrogate : text_decode (text_encode [0xD800]) = [0xFFFD].
Proof. vm_compute. reflexivity. Qed.
Example text_astral : text_decode (text_encode [0xD83D; 0xDE00; 233; 8364]) = [0xD83D; 0xDE00; 233; 8364].
Proof. vm_compute. reflexivity. Qed.
