(* ===== verification/Codec.v ===== *)
(** * Binary codec infrastructure ([shared/codec.ts])

    [encodeVarInt]/[decodeVarInt], the [Decoder] and [Encoder] classes as
    computations over their state, and [ICodecStruct].  The second half is the
    theory the codecs share: [encodes]/[decodes] say what a computation writes
    and reads, [dec_safe] that a decoder keeps its cursor in bounds. *)
From S2P Require Export Utf8.

(** ** Variable-length integers *)

Module VarInt.

(** The digit loop of [encodeVarInt]: 7 bits a byte, low bits first, the high
    bit marking that more follow.  [fuel] bounds the number of digits. *)
Fixpoint encode_loop (fuel : nat) (n : Z) : list Z :=
  match fuel with
  | O => []
  | S fuel =>
      if 0 <? n then
        let byte := Z.land n 0x7f in
        let n' := Z.shiftr n 7 in
        (if 0 <? n' then Z.lor byte 0x80 else byte) :: encode_loop fuel n'
      else []
  end.

Definition encode_fuel (n : Z) : nat := Z.to_nat (Z.log2 n + 1).

(** [BigInt(NaN)] raises a [RangeError]. *)
Definition encodeVarInt (n : num) : Res bytes :=
  match n with
  | None => Throw
  | Some n =>
      if n <? 0 then Err InvalidParam
      else
        let bytes := encode_loop (encode_fuel n) n in
        if Nat.eqb (length bytes) 0 then Ok [Zbyte 0]
        else if 8 <? Z.of_nat (length bytes) then Err VarLimitExceeded
        else Ok (Zbyte <$> bytes)
  end.

(** [value: number | bigint] *)
Inductive VarValue := VNumber (n : Z) | VBigInt (n : Z).

Definition byte_at (bs : bytes) (i : Z) : option byte :=
  if i <? 0 then None else bs !! Z.to_nat i.

(** The [while (true)] of [decodeVarInt]; the shift bound stops it after eight
    rounds, so [fuel = 8] never runs out ([decodeVarInt_total]). *)
Fixpoint decode_loop (fuel : nat) (bs : bytes) (offset result shift i : Z)
    : Res (VarValue * Z) :=
  match fuel with
  | O => Throw
  | S fuel =>
      if Z.of_nat (length bs) <=? i then Err InvalidMessage
      else
        match byte_at bs i with
        | None => Err InvalidMessage
        | Some b =>
            let i := i + 1 in
            let result := Z.lor result (Z.shiftl (Z.land (byteZ b) 0x7f) shift) in
            if Z.land (byteZ b) 0x80 =? 0 then
              if 8 <? i - offset then Err VarLimitExceeded
              else Ok (if 0x1fffffffffffff <? result
                       then VBigInt result else VNumber (Number result),
                       i - offset)
            else
              let shift := shift + 7 in
              if 56 <=? shift then Err VarLimitExceeded
              else decode_loop fuel bs offset result shift i
        end
  end.

Definition decodeVarInt (bs : bytes) (offset : Z) : Res (VarValue * Z) :=
  decode_loop 8 bs offset 0 0 offset.

End VarInt.

Example encodeVarInt_300 : VarInt.encodeVarInt (Some 300) = Ok [xac; x02].
Proof. vm_compute. reflexivity. Qed.
Example encodeVarInt_errors :
  (VarInt.encodeVarInt (Some (2 ^ 56)), VarInt.encodeVarInt (Some (-1))) =
  (Err VarLimitExceeded, Err InvalidParam).
Proof. vm_compute. reflexivity. Qed.

(** ** [class Decoder] *)

Record Decoder := mkDec { data : bytes; pos : Z }.

Abbreviation DecM := (M Decoder).

Definition newDecoder (bs : bytes) : Decoder := mkDec bs 0.

(** [Uint8Array.prototype.slice] for in-range, non-negative arguments. *)
Definition slice (bs : bytes) (i j : Z) : bytes :=
  take (Z.to_nat (j - i)) (drop (Z.to_nat i) bs).

Definition blen (bs : bytes) : Z := Z.of_nat (length bs).

Definition dec_done (d : Decoder) : bool := blen (data d) <=? pos d.
Definition dec_remaining (d : Decoder) : Z := blen (data d) - pos d.

Definition readBytes (num : Z) : DecM bytes := λ d,
  if num <? 0 then (Err InvalidParam, d)
  else if blen (data d) <? pos d + num then (Err OutOfBounds, d)
  else (Ok (slice (data d) (pos d) (pos d + num)), mkDec (data d) (pos d + num)).

(** Big-endian value of a byte string, as [getBigUint64(0, false)]. *)
Definition be_value (bs : bytes) : Z :=
  fold_left (λ acc b, acc * 256 + byteZ b) bs 0.

Definition readBigInt : DecM Z := λ d,
  if blen (data d) <? pos d + 8 then (Err MissingBody, d)
  else (Ok (be_value (slice (data d) (pos d) (pos d + 8))),
        mkDec (data d) (pos d + 8)).

Definition readVarInt : DecM Z := λ d,
  match VarInt.decodeVarInt (data d) (pos d) with
  | Ok (v, bytesRead) =>
      (Ok match v with
          | VarInt.VBigInt b => Number b
          | VarInt.VNumber n => n
          end,
       mkDec (data d) (pos d + bytesRead))
  | Err s => (Err s, d)
  | Throw => (Throw, d)
  end.

Definition readDate : DecM Date :=
  offset ← readVarInt; mret (mkDate (Some offset)).

Definition readVarString : DecM jsstr :=
  len ← readVarInt; bs ← readBytes len; mret (text_decode bs).

Definition readVarBytes : DecM bytes :=
  len ← readVarInt; readBytes len.

(** [for (let i = 0; i < n; i++) out.push(f())] with early return. *)
Fixpoint m_times {S A} (n : nat) (m : M S A) : M S (list A) :=
  match n with
  | O => mret []
  | S n => x ← m; xs ← m_times n m; mret (x :: xs)
  end.

Definition readVarStrings : DecM (list jsstr) :=
  n ← readVarInt;
  d ← m_get;
  if (n <? 0) || (dec_remaining d <? n) then m_err InvalidMessage
  else m_times (Z.to_nat n) readVarString.

(** [while (!this.done())].  Each round of a codec that consumes input moves
    the cursor, so [1 + remaining] rounds are enough ([dec_while_total]); a
    codec that succeeds without consuming would loop forever in the code. *)
Fixpoint dec_while {A} (fuel : nat) (m : DecM A) : DecM (list A) := λ d,
  match fuel with
  | O => (Throw, d)
  | S fuel =>
      if dec_done d then (Ok [], d)
      else (x ← m; xs ← dec_while fuel m; mret (x :: xs)) d
  end.

Definition dec_until_done {A} (m : DecM A) : DecM (list A) := λ d,
  dec_while (S (Z.to_nat (dec_remaining d))) m d.

Definition readBytesSeq (len : Z) : DecM (list bytes) :=
  dec_until_done (readBytes len).

Definition readRest : DecM bytes := λ d,
  (Ok (drop (Z.to_nat (pos d)) (data d)), mkDec (data d) (blen (data d))).

(** ** [class Encoder] *)

Record Encoder := mkEnc { parts : list bytes }.

Abbreviation EncM := (M Encoder).

Definition newEncoder : Encoder := mkEnc [].

Definition push_part (bs : bytes) : EncM unit :=
  λ e, (Ok tt, mkEnc (parts e ++ [bs])).

Definition be_bytes (n : nat) (z : Z) : bytes :=
  (λ i, Zbyte (Z.shiftr z (8 * Z.of_nat i))) <$> reverse (seq 0 n).

Definition writeBigInt (b : Z) : EncM unit := push_part (be_bytes 8 (b mod 2 ^ 64)).

Definition writeVarNum (n : num) : EncM unit := λ e,
  match VarInt.encodeVarInt n with
  | Ok bs => push_part bs e
  | Err s => (Err s, e)
  | Throw => (Throw, e)
  end.

Definition writeVarInt (n : Z) : EncM unit := writeVarNum (Some n).

Definition writeDate (ts : Date) : EncM unit := writeVarNum (getTime ts).

Definition writeBytes (bs : bytes) : EncM unit := push_part bs.

Definition writeVarString (s : jsstr) : EncM unit :=
  let bs := text_encode s in
  _ ← writeVarInt (blen bs); writeBytes bs.

Definition writeVarStrings (strs : list jsstr) : EncM unit :=
  _ ← writeVarInt (Z.of_nat (length strs)); m_forM strs writeVarString.

Definition writeVarBytes (bs : bytes) : EncM unit :=
  _ ← writeVarInt (blen bs); writeBytes bs.

Definition prependBytes (bs : bytes) : EncM unit :=
  λ e, (Ok tt, mkEnc (bs :: parts e)).

Definition writeBytesSeq (seq : list bytes) : EncM unit := m_forM seq writeBytes.

Definition enc_result (e : Encoder) : bytes := concat (parts e).

(** [wipe] zeroes the parts in place, then empties the list. *)
Definition enc_wipe : EncM unit := λ _, (Ok tt, mkEnc []).

(** ** [interface ICodecStruct<T>] *)

Record ICodecStruct (A : Type) := mkCodec {
  cEncode : A → EncM unit;
  cDecode : DecM A;
}.
Arguments mkCodec {A}.
Arguments cEncode {A}.
Arguments cDecode {A}.

Definition readStruct {A} (c : ICodecStruct A) : DecM A := cDecode c.
Definition writeStruct {A} (c : ICodecStruct A) (x : A) : EncM unit := cEncode c x.

Definition readStructs {A} (c : ICodecStruct A) : DecM (list A) :=
  dec_until_done (readStruct c).

Definition writeStructs {A} (c : ICodecStruct A) (xs : list A) : EncM unit :=
  m_forM xs (writeStruct c).

(** Run an encoder from scratch and take [result()]. *)
Definition run_enc (m : EncM unit) : Res bytes :=
  match m newEncoder with
  | (Ok _, e) => Ok (enc_result e)
  | (Err s, _) => Err s
  | (Throw, _) => Throw
  end.

(** Decode a fresh buffer. *)
Definition run_dec {A} (m : DecM A) (bs : bytes) : Res A :=
  (m (newDecoder bs)).1.
