(* ===== verification/CodecTheory.v ===== *)
(** * What encoders write and decoders read

    Shared theory of the wire format: the two judgements [encodes] and
    [decodes], their composition with [bind], the law class [Lawful] of a
    round-tripping codec, and [dec_safe], the cursor discipline every decoder
    keeps whatever bytes it is given. *)
From S2P Require Export Codec.

(** [encodes m bs]: [m] succeeds and appends parts whose concatenation is
    [bs].  [decodes m bs a]: at the start of [bs], wherever it lies in the
    buffer, [m] returns [a] and leaves the cursor just after [bs].
    [decodes_end] is the same for a decoder that reads to the end. *)
Definition encodes (m : EncM unit) (bs : bytes) : Prop :=
  ∃ ps, concat ps = bs ∧ ∀ p, m (mkEnc p) = (Ok tt, mkEnc (p ++ ps)).

Definition decodes {A} (m : DecM A) (bs : bytes) (a : A) : Prop :=
  ∀ pre rest,
    m (mkDec (pre ++ bs ++ rest) (blen pre)) =
    (Ok a, mkDec (pre ++ bs ++ rest) (blen pre + blen bs)).

Definition decodes_end {A} (m : DecM A) (bs : bytes) (a : A) : Prop :=
  ∀ pre, m (mkDec (pre ++ bs) (blen pre)) =
         (Ok a, mkDec (pre ++ bs) (blen pre + blen bs)).

Create Rewrite HintDb wire.

Lemma blen_app a b : blen (a ++ b) = blen a + blen b.
Proof. unfold blen. rewrite length_app. lia. Qed.
Lemma blen_cons b bs : blen (b :: bs) = 1 + blen bs.
Proof. unfold blen. simpl. lia. Qed.
Lemma blen_nil : blen [] = 0.
Proof. done. Qed.
Lemma blen_nonneg bs : 0 <= blen bs.
Proof. unfold blen. lia. Qed.
#[export] Hint Rewrite blen_app blen_cons blen_nil : wire.

(** ** Composition *)

Lemma encodes_ret : encodes (mret tt) [].
Proof. exists []. split; [done|]. intros p. by rewrite app_nil_r. Qed.

Lemma encodes_bind m k b1 b2 :
  encodes m b1 → encodes (k tt) b2 → encodes (m ≫= k) (b1 ++ b2).
Proof.
  intros (p1 & <- & H1) (p2 & <- & H2). exists (p1 ++ p2).
  split; [apply concat_app|]. intros p.
  unfold mbind, M_bind, m_bind. by rewrite H1, H2, app_assoc.
Qed.

Lemma encodes_last m b : encodes (m ≫= λ _, mret tt) b ↔ encodes m b.
Proof.
  split; intros (ps & Hc & H); exists ps; (split; [done|]); intros p;
    specialize (H p); revert H; unfold mbind, M_bind, m_bind, mret, M_ret, m_ret;
    destruct (m (mkEnc p)) as [[[]| |] ?]; simpl; congruence.
Qed.

Lemma encodes_ignore m b : encodes m b → encodes (m_ignore m) b.
Proof.
  intros (ps & Hc & H). exists ps. split; [done|]. intros p.
  unfold m_ignore. by rewrite H.
Qed.

Lemma encodes_inj m b b' : encodes m b → encodes m b' → b = b'.
Proof.
  intros (ps & <- & H) (ps' & <- & H'). specialize (H []). specialize (H' []).
  rewrite H in H'. by simplify_eq/=.
Qed.

Lemma encodes_run m b : encodes m b → run_enc m = Ok b.
Proof.
  intros (ps & <- & H). unfold run_enc, newEncoder. by rewrite H.
Qed.

Lemma encodes_forM {A} (xs : list A) (f : A → EncM unit) bss :
  Forall2 (λ x b, encodes (f x) b) xs bss → encodes (m_forM xs f) (concat bss).
Proof.
  induction 1 as [|x b xs bss Hx _ IH]; [apply encodes_ret|].
  cbn [m_forM concat]. by apply encodes_bind.
Qed.

Lemma decodes_ret {A} (a : A) : decodes (mret a) [] a.
Proof. intros pre rest. rewrite blen_nil, Z.add_0_r. done. Qed.

Lemma decodes_bind {A B} (m : DecM A) (k : A → DecM B) b1 b2 a b :
  decodes m b1 a → decodes (k a) b2 b → decodes (m ≫= k) (b1 ++ b2) b.
Proof.
  intros H1 H2 pre rest. unfold mbind, M_bind, m_bind.
  rewrite <-app_assoc, H1. specialize (H2 (pre ++ b1) rest).
  rewrite <-!app_assoc, blen_app in H2. rewrite H2, blen_app.
  by rewrite Z.add_assoc.
Qed.

Lemma decodes_bind_last {A B} (m : DecM A) (f : A → B) b1 a :
  decodes m b1 a → decodes (x ← m; mret (f x)) b1 (f a).
Proof.
  intros H. rewrite <-(app_nil_r b1).
  eapply decodes_bind; [done|apply decodes_ret].
Qed.

Lemma decodes_bind_end {A B} (m : DecM A) (k : A → DecM B) b1 b2 a b :
  decodes m b1 a → decodes_end (k a) b2 b → decodes_end (m ≫= k) (b1 ++ b2) b.
Proof.
  intros H1 H2 pre. unfold mbind, M_bind, m_bind.
  rewrite H1. specialize (H2 (pre ++ b1)).
  rewrite <-!app_assoc, blen_app in H2. rewrite H2, blen_app.
  by rewrite Z.add_assoc.
Qed.

Lemma decodes_to_end {A} (m : DecM A) bs a : decodes m bs a → decodes_end m bs a.
Proof. intros H pre. specialize (H pre []). by rewrite app_nil_r in H. Qed.

Lemma decodes_end_run {A} (m : DecM A) bs a :
  decodes_end m bs a → run_dec m bs = Ok a.
Proof. intros H. unfold run_dec, newDecoder. specialize (H []).
  rewrite app_nil_l, blen_nil in H. by rewrite H.
Qed.

Lemma decodes_run {A} (m : DecM A) bs a : decodes m bs a → run_dec m bs = Ok a.
Proof. intros H. by apply decodes_end_run, decodes_to_end. Qed.

Lemma decodes_times {A} (m : DecM A) (xs : list A) bss :
  Forall2 (λ x b, decodes m b x) xs bss →
  decodes (m_times (length xs) m) (concat bss) xs.
Proof.
  induction 1 as [|x b xs bss Hx _ IH]; [apply decodes_ret|].
  cbn [m_times length concat]. eapply decodes_bind; [done|].
  rewrite <-(app_nil_r (concat bss)). eapply decodes_bind; [done|].
  apply decodes_ret.
Qed.

(** ** Primitives *)

Definition varnum_ok (n : Z) : Prop := 0 <= n < 2 ^ 56 ∧ Number n = n.

Lemma varnum_ok_safe n : 0 <= n <= maxSafe → varnum_ok n.
Proof.
  intros. split; [unfold maxSafe in *; lia|]. apply Number_safe. lia.
Qed.

Lemma varnum_ok_len n : 0 <= n < 2 ^ 32 → varnum_ok n.
Proof. intros. apply varnum_ok_safe. unfold maxSafe. lia. Qed.

Module VarIntFacts.
Import VarInt.

Lemma byte_at_app pre b rest : byte_at (pre ++ b :: rest) (blen pre) = Some b.
Proof.
  unfold byte_at, blen. rewrite (proj2 (Z.ltb_ge _ _)) by lia.
  rewrite Nat2Z.id, lookup_app_r by done. by rewrite Nat.sub_diag.
Qed.

Lemma encode_loop_S f n :
  0 < n →
  encode_loop (S f) n =
    (if 0 <? n / 128 then n mod 128 + 128 else n mod 128)
      :: encode_loop f (n / 128).
Proof.
  intros Hn. simpl. rewrite (proj2 (Z.ltb_lt _ _)) by done.
  rewrite land_127, Z.shiftr_div_pow2 by done. change (2 ^ 7) with 128.
  rewrite lor_128 by (apply Z.mod_pos_bound; lia). done.
Qed.

Lemma encode_loop_0 f : encode_loop f 0 = [].
Proof. by destruct f. Qed.

(** The decode loop, started on the digits of [n] with [k] rounds left, adds
    [n] at the current shift and consumes exactly those digits. *)
Lemma decode_loop_encode k f n pre rest offset result :
  0 < n < 2 ^ (7 * Z.of_nat k) → (k <= f)%nat → (k <= 8)%nat →
  0 <= result < 2 ^ (56 - 7 * Z.of_nat k) →
  blen pre - offset = 8 - Z.of_nat k →
  let ds := Zbyte <$> encode_loop f n in
  let v := result + n * 2 ^ (56 - 7 * Z.of_nat k) in
  decode_loop k (pre ++ ds ++ rest) offset result (56 - 7 * Z.of_nat k) (blen pre)
    = Ok (if 0x1fffffffffffff <? v then VBigInt v else VNumber (Number v),
          blen pre + blen ds - offset).
Proof.
  revert f n pre result.
  induction k as [|k IH]; intros f n pre result Hn Hf Hk Hres Hoff; [simpl in Hn; lia|].
  destruct f as [|f]; [lia|]. rewrite encode_loop_S by lia. cbv zeta.
  set (sh := 56 - 7 * Z.of_nat (S k)) in *. assert (0 <= sh) by lia.
  assert (Hpow : 2 ^ (7 * Z.of_nat (S k)) = 128 * 2 ^ (7 * Z.of_nat k)).
  { replace (7 * Z.of_nat (S k)) with (7 + 7 * Z.of_nat k) by lia.
    by rewrite Z.pow_add_r by lia. }
  assert (Hsh : 2 ^ (sh + 7) = 128 * 2 ^ sh).
  { rewrite Z.pow_add_r by lia. change (2 ^ 7) with 128. lia. }
  pose proof (Z.mod_pos_bound n 128 ltac:(lia)) as Hm.
  pose proof (Z.div_mod n 128 ltac:(lia)) as Hdm.
  assert (0 < 2 ^ sh) by (apply Z.pow_pos_nonneg; lia).
  set (d := if 0 <? n / 128 then n mod 128 + 128 else n mod 128).
  assert (Hd : 0 <= d < 256) by (unfold d; destruct (0 <? n / 128); lia).
  cbn [fmap list_fmap decode_loop app].
  rewrite blen_cons, (proj2 (Z.leb_gt _ _)).
  2: { rewrite length_app. cbn [length]. unfold blen. lia. }
  rewrite byte_at_app, byteZ_Zbyte_small by done.
  assert (Hland : Z.land d 127 = n mod 128).
  { rewrite land_127. unfold d. destruct (0 <? n / 128).
    - rewrite Z.add_mod, Z.mod_same, Z.add_0_r, !Z.mod_mod by lia. done.
    - by rewrite Z.mod_mod by lia. }
  rewrite Hland, lor_shiftl_add by done.
  unfold d in *; clear d. destruct (Z.ltb_spec 0 (n / 128)) as [Hq|Hq].
  - rewrite land_128_large by lia. cbn [Z.eqb].
    assert (k <> 0%nat).
    { intros ->. cbn in Hn. assert (n / 128 = 0) by (apply Z.div_small; lia). lia. }
    rewrite (proj2 (Z.leb_gt 56 (sh + 7))) by lia.
    replace (sh + 7) with (56 - 7 * Z.of_nat k) in * by lia.
    set (x := Zbyte (n mod 128 + 128)).
    replace (pre ++ x :: (Zbyte <$> encode_loop f (n / 128)) ++ rest)
      with ((pre ++ [x]) ++ (Zbyte <$> encode_loop f (n / 128)) ++ rest)
      by by rewrite <-app_assoc.
    replace (blen pre + 1) with (blen (pre ++ [x])) by (rewrite blen_app; done).
    rewrite IH; [|split; [done|apply Z.div_lt_upper_bound; lia]|lia|lia| |].
    + rewrite blen_app, blen_cons, blen_nil. rewrite Hsh.
      replace (result + n mod 128 * 2 ^ sh + n / 128 * (128 * 2 ^ sh))
        with (result + n * 2 ^ sh) by nia.
      do 2 f_equal; lia.
    + rewrite Hsh. nia.
    + rewrite blen_app, blen_cons, blen_nil. lia.
  - assert (n / 128 = 0) as Hz by (pose proof (Z.div_pos n 128); lia).
    rewrite land_128_small by lia. cbn [Z.eqb].
    rewrite Hz, encode_loop_0, (proj2 (Z.ltb_ge 8 _)) by lia.
    cbn [fmap list_fmap]. rewrite blen_nil.
    assert (n mod 128 = n) as -> by lia.
    do 2 f_equal; lia.
Qed.

Lemma encode_loop_length f n k :
  0 <= n < 2 ^ (7 * Z.of_nat k) → (length (encode_loop f n) <= k)%nat.
Proof.
  revert n k. induction f as [|f IH]; intros n k Hn; [simpl; lia|].
  destruct (decide (n = 0)) as [->|]; [rewrite encode_loop_0; simpl; lia|].
  destruct k as [|k]; [simpl in Hn; lia|].
  rewrite encode_loop_S by lia. simpl. apply le_n_S, IH.
  split; [apply Z.div_pos; lia|].
  apply Z.div_lt_upper_bound; [lia|].
  replace (7 * Z.of_nat (S k)) with (7 + 7 * Z.of_nat k) in Hn by lia.
  rewrite Z.pow_add_r in Hn by lia. lia.
Qed.

Lemma encode_loop_ge f n k :
  2 ^ (7 * Z.of_nat k) <= n → (k < f)%nat → (k < length (encode_loop f n))%nat.
Proof.
  revert n k. induction f as [|f IH]; intros n k Hn Hf; [lia|].
  assert (0 < 2 ^ (7 * Z.of_nat k)) by (apply Z.pow_pos_nonneg; lia).
  rewrite encode_loop_S by lia. simpl.
  destruct k as [|k]; [lia|]. apply (proj1 (Nat.succ_lt_mono _ _)), IH; [|lia].
  apply Z.div_le_lower_bound; [lia|].
  replace (7 * Z.of_nat (S k)) with (7 + 7 * Z.of_nat k) in Hn by lia.
  rewrite Z.pow_add_r in Hn by lia. lia.
Qed.

Lemma encode_fuel_ge n k :
  2 ^ (7 * Z.of_nat k) <= n → (k < encode_fuel n)%nat.
Proof.
  intros Hn. unfold encode_fuel.
  assert (7 * Z.of_nat k <= Z.log2 n).
  { apply Z.log2_le_pow2; [|done].
    assert (0 < 2 ^ (7 * Z.of_nat k)) by (apply Z.pow_pos_nonneg; lia). lia. }
  lia.
Qed.

(** Extra fuel does not change the digits. *)
Lemma encode_loop_more f f' n :
  0 <= n < 2 ^ (7 * Z.of_nat f) → (f <= f')%nat → encode_loop f' n = encode_loop f n.
Proof.
  revert n f'. induction f as [|f IH]; intros n f' Hn Hf.
  - simpl in Hn. assert (n = 0) as -> by lia. by rewrite !encode_loop_0.
  - destruct f' as [|f']; [lia|].
    destruct (decide (n = 0)) as [->|]; [by rewrite !encode_loop_0|].
    rewrite !encode_loop_S by lia. f_equal. apply IH; [|lia].
    split; [apply Z.div_pos; lia|].
    apply Z.div_lt_upper_bound; [lia|].
    replace (7 * Z.of_nat (S f)) with (7 + 7 * Z.of_nat f) in Hn by lia.
    rewrite Z.pow_add_r in Hn by lia. lia.
Qed.

Lemma encode_fuel_enough n : 0 < n → n < 2 ^ (7 * Z.of_nat (encode_fuel n)).
Proof.
  intros Hn. unfold encode_fuel. pose proof (Z.log2_nonneg n).
  rewrite Z2Nat.id by lia.
  eapply Z.lt_le_trans; [apply (Z.log2_spec n Hn)|].
  apply Z.pow_le_mono_r; lia.
Qed.

(** Exactly the integers of [0, 2^56) are encodable. *)
Lemma encodeVarInt_Ok n :
  0 <= n < 2 ^ 56 → ∃ bs, encodeVarInt (Some n) = Ok bs ∧ 0 < blen bs <= 8.
Proof.
  intros Hn. unfold encodeVarInt. rewrite (proj2 (Z.ltb_ge n 0)) by lia.
  cbv zeta. set (ds := encode_loop _ _).
  assert (length ds <= 8)%nat by by apply encode_loop_length.
  destruct (Nat.eqb_spec (length ds) 0).
  - eexists; split; [done|]. rewrite blen_cons, blen_nil. lia.
  - rewrite (proj2 (Z.ltb_ge 8 _)) by lia.
    eexists; split; [done|]. unfold blen. rewrite length_fmap. lia.
Qed.

Lemma encodeVarInt_limit n :
  2 ^ 56 <= n → encodeVarInt (Some n) = Err VarLimitExceeded.
Proof.
  intros Hn. unfold encodeVarInt. rewrite (proj2 (Z.ltb_ge n 0)) by lia.
  cbv zeta.
  pose proof (encode_fuel_ge n 8 Hn) as Hf.
  pose proof (encode_loop_ge _ n 8 Hn Hf) as Hl.
  destruct (Nat.eqb_spec (length (encode_loop (encode_fuel n) n)) 0); [lia|].
  by rewrite (proj2 (Z.ltb_lt 8 _)) by lia.
Qed.

Lemma decodeVarInt_encode n bs pre rest :
  0 <= n < 2 ^ 56 → encodeVarInt (Some n) = Ok bs →
  decodeVarInt (pre ++ bs ++ rest) (blen pre) =
    Ok (if 0x1fffffffffffff <? n then VBigInt n else VNumber (Number n), blen bs).
Proof.
  intros Hn. unfold encodeVarInt. rewrite (proj2 (Z.ltb_ge n 0)) by lia.
  cbv zeta. pose proof (encode_loop_length (encode_fuel n) n 8 Hn).
  destruct (Nat.eqb_spec (length (encode_loop (encode_fuel n) n)) 0) as [Hz|Hz].
  - intros [= <-].
    assert (n = 0) as ->.
    { destruct (decide (n = 0)); [done|].
      exfalso. revert Hz. unfold encode_fuel.
      replace (Z.to_nat (Z.log2 n + 1)) with (S (Z.to_nat (Z.log2 n)))
        by (pose proof (Z.log2_nonneg n); lia).
      by rewrite encode_loop_S by lia. }
    unfold decodeVarInt. cbn [decode_loop app].
    rewrite (proj2 (Z.leb_gt _ _)) by (rewrite length_app; unfold blen; simpl; lia).
    rewrite byte_at_app. change (byteZ (Zbyte 0)) with 0. cbn.
    replace (blen pre + 1 - blen pre) with 1 by lia. done.
  - rewrite (proj2 (Z.ltb_ge 8 _)) by lia. intros [= <-].
    assert (0 < n).
    { destruct (decide (n = 0)) as [->|]; [|lia]. by rewrite encode_loop_0 in Hz. }
    rewrite <-(encode_loop_more _ (max 8 (encode_fuel n)) n) in Hz |- *
      by (try split; try lia; by apply encode_fuel_enough).
    unfold decodeVarInt.
    pose proof (decode_loop_encode 8 (max 8 (encode_fuel n)) n pre rest
                  (blen pre) 0 ltac:(change (7 * Z.of_nat 8) with 56; lia)
                  ltac:(lia) ltac:(lia) ltac:(vm_compute; done) ltac:(lia)) as Hdec.
    cbv zeta in Hdec. change (56 - 7 * Z.of_nat 8) with 0 in Hdec.
    rewrite Hdec. change (2 ^ 0) with 1. rewrite Z.mul_1_r, Z.add_0_l.
    do 2 f_equal; lia.
Qed.

End VarIntFacts.

(** ** Wire forms

    The bytes each primitive writes. *)
Definition varint_wire (n : Z) : bytes :=
  match VarInt.encodeVarInt (Some n) with Ok bs => bs | _ => [] end.
Definition varbytes_wire (bs : bytes) : bytes := varint_wire (blen bs) ++ bs.
Definition varstring_wire (s : jsstr) : bytes := varbytes_wire (text_encode s).

Definition bytes_ok (bs : bytes) : Prop := blen bs < 2 ^ 32.
Definition string_ok (s : jsstr) : Prop := text_ok s ∧ bytes_ok (text_encode s).

#[export] Instance bytes_ok_dec bs : Decision (bytes_ok bs).
Proof. unfold bytes_ok. apply _. Defined.
#[export] Instance string_ok_dec s : Decision (string_ok s).
Proof. unfold string_ok. apply _. Defined.

Create HintDb codec.

Lemma varint_wire_enc n :
  0 <= n < 2 ^ 56 → VarInt.encodeVarInt (Some n) = Ok (varint_wire n).
Proof.
  intros Hn. destruct (VarIntFacts.encodeVarInt_Ok n Hn) as (bs & H & _).
  unfold varint_wire. by rewrite H.
Qed.

Lemma varint_wire_len n : 0 <= n < 2 ^ 56 → 0 < blen (varint_wire n) <= 8.
Proof.
  intros Hn. destruct (VarIntFacts.encodeVarInt_Ok n Hn) as (bs & H & ?).
  unfold varint_wire. by rewrite H.
Qed.

Lemma encodes_push bs : encodes (push_part bs) bs.
Proof. exists [bs]. split; [by rewrite concat_cons, app_nil_r|done]. Qed.

Lemma encodes_writeBytes bs : encodes (writeBytes bs) bs.
Proof. apply encodes_push. Qed.

Lemma encodes_writeVarInt_range n :
  0 <= n < 2 ^ 56 → encodes (writeVarInt n) (varint_wire n).
Proof.
  intros Hn. destruct (encodes_push (varint_wire n)) as (ps & Hc & H).
  exists ps. split; [done|]. intros p. rewrite <-H.
  unfold writeVarInt, writeVarNum. by rewrite varint_wire_enc.
Qed.

Lemma encodes_writeVarInt n : varnum_ok n → encodes (writeVarInt n) (varint_wire n).
Proof. intros [Hn _]. by apply encodes_writeVarInt_range. Qed.

Lemma decodes_readVarInt n : varnum_ok n → decodes readVarInt (varint_wire n) n.
Proof.
  intros [Hn Hnum] pre rest. unfold readVarInt. cbn [data pos].
  rewrite (VarIntFacts.decodeVarInt_encode n (varint_wire n))
    by (done || by apply varint_wire_enc).
  destruct (0x1fffffffffffff <? n); by rewrite Hnum.
Qed.

Lemma slice_app pre bs rest :
  slice (pre ++ bs ++ rest) (blen pre) (blen pre + blen bs) = bs.
Proof.
  unfold slice, blen.
  replace (Z.of_nat (length pre) + Z.of_nat (length bs) - Z.of_nat (length pre))
    with (Z.of_nat (length bs)) by lia.
  rewrite !Nat2Z.id, drop_app_length, take_app_length. done.
Qed.

Lemma decodes_readBytes bs n : n = blen bs → decodes (readBytes n) bs bs.
Proof.
  intros -> pre rest. unfold readBytes. cbn [data pos].
  pose proof (blen_nonneg bs). pose proof (blen_nonneg rest).
  rewrite (proj2 (Z.ltb_ge _ 0)) by done.
  rewrite (proj2 (Z.ltb_ge _ _)) by (rewrite !blen_app; lia).
  by rewrite slice_app.
Qed.

Lemma encodes_writeVarBytes bs :
  bytes_ok bs → encodes (writeVarBytes bs) (varbytes_wire bs).
Proof.
  intros Hb. apply encodes_bind; [|apply encodes_writeBytes].
  apply encodes_writeVarInt, varnum_ok_len.
  unfold bytes_ok in Hb. pose proof (blen_nonneg bs). lia.
Qed.

Lemma decodes_readVarBytes bs :
  bytes_ok bs → decodes readVarBytes (varbytes_wire bs) bs.
Proof.
  intros Hb. eapply decodes_bind; [|by apply decodes_readBytes].
  apply decodes_readVarInt, varnum_ok_len.
  unfold bytes_ok in Hb. pose proof (blen_nonneg bs). lia.
Qed.

Lemma encodes_writeVarString s :
  string_ok s → encodes (writeVarString s) (varstring_wire s).
Proof. intros [_ Hb]. by apply encodes_writeVarBytes. Qed.

Lemma decodes_readVarString s :
  string_ok s → decodes readVarString (varstring_wire s) s.
Proof.
  intros [Ht Hb]. rewrite <-(text_decode_encode s Ht) at 2.
  unfold varstring_wire, varbytes_wire. eapply decodes_bind.
  - apply decodes_readVarInt, varnum_ok_len.
    unfold bytes_ok in Hb. pose proof (blen_nonneg (text_encode s)). lia.
  - apply (decodes_bind_last _ text_decode). by apply decodes_readBytes.
Qed.

Definition date_wire (d : Date) : bytes :=
  match d with Some t => varint_wire t | None => [] end.

Lemma date_ok_varnum d : date_ok d → ∃ t, d = Some t ∧ varnum_ok t ∧ mkDate (Some t) = d.
Proof.
  intros (t & -> & Ht). exists t. split_and!; [done| |by apply mkDate_ok].
  apply varnum_ok_safe. unfold maxDate, maxSafe in *. lia.
Qed.

Lemma encodes_writeDate d : date_ok d → encodes (writeDate d) (date_wire d).
Proof.
  intros (t & -> & Hv & _)%date_ok_varnum. by apply encodes_writeVarInt.
Qed.

Lemma decodes_readDate d : date_ok d → decodes readDate (date_wire d) d.
Proof.
  intros (t & -> & Hv & Hd)%date_ok_varnum. rewrite <-Hd at 2.
  apply (decodes_bind_last _ (λ o, mkDate (Some o))).
  by apply decodes_readVarInt.
Qed.

Lemma date_wire_len d : date_ok d → 0 < blen (date_wire d).
Proof. intros (t & -> & [Hv _] & _)%date_ok_varnum. by apply varint_wire_len. Qed.

Lemma be_bytes_S n z : be_bytes (S n) z = Zbyte (Z.shiftr z (8 * Z.of_nat n)) :: be_bytes n z.
Proof.
  unfold be_bytes. rewrite seq_S, reverse_app. done.
Qed.

Lemma be_value_bytes n z acc :
  0 <= z < 2 ^ (8 * Z.of_nat n) →
  fold_left (λ acc b, acc * 256 + byteZ b) (be_bytes n z) acc =
  acc * 2 ^ (8 * Z.of_nat n) + z.
Proof.
  revert z acc. induction n as [|n IH]; intros z acc Hz; [simpl in *; lia|].
  rewrite be_bytes_S. cbn [fold_left]. rewrite byteZ_Zbyte.
  rewrite Z.shiftr_div_pow2 by lia.
  assert (Hp : 2 ^ (8 * Z.of_nat (S n)) = 256 * 2 ^ (8 * Z.of_nat n)).
  { replace (8 * Z.of_nat (S n)) with (8 + 8 * Z.of_nat n) by lia.
    by rewrite Z.pow_add_r by lia. }
  set (p := 2 ^ (8 * Z.of_nat n)) in *.
  assert (0 < p) by (apply Z.pow_pos_nonneg; lia).
  assert (be_bytes n z = be_bytes n (z mod p)) as ->.
  { unfold be_bytes. apply list_fmap_ext. intros j i Hi.
    apply list_elem_of_lookup_2 in Hi. rewrite elem_of_reverse in Hi.
    apply elem_of_seq in Hi. unfold Zbyte. do 3 f_equal.
    rewrite !Z.shiftr_div_pow2 by lia. unfold p.
    replace (8 * Z.of_nat n) with (8 * Z.of_nat i + (8 + 8 * (Z.of_nat n - Z.of_nat i - 1))) by lia.
    rewrite Z.pow_add_r by lia.
    rewrite Z.rem_mul_r by (try apply Z.pow_pos_nonneg; lia).
    rewrite (Z.mul_comm (2 ^ (8 * Z.of_nat i)) (_ mod _)), Z.div_add by lia.
    rewrite (Z.div_small (z mod _)) by (apply Z.mod_pos_bound; lia).
    rewrite Z.add_0_l, (Z.pow_add_r 2 8) by lia. change (2 ^ 8) with 256.
    rewrite Z.rem_mul_r by (try apply Z.pow_pos_nonneg; lia).
    rewrite (Z.mul_comm 256), Z.mod_add, Z.mod_mod by lia. done. }
  rewrite IH by (apply Z.mod_pos_bound; lia).
  rewrite Z.mod_small.
  - pose proof (Z.div_mod z p ltac:(lia)). nia.
  - split; [apply Z.div_pos; lia|]. apply Z.div_lt_upper_bound; lia.
Qed.

Lemma be_bytes_len n z : blen (be_bytes n z) = Z.of_nat n.
Proof. unfold blen, be_bytes. by rewrite length_fmap, length_reverse, length_seq. Qed.

Lemma encodes_writeBigInt b : encodes (writeBigInt b) (be_bytes 8 (b mod 2 ^ 64)).
Proof. apply encodes_push. Qed.

Lemma decodes_readBigInt b :
  0 <= b < 2 ^ 64 → decodes readBigInt (be_bytes 8 b) b.
Proof.
  intros Hb pre rest. unfold readBigInt. cbn [data pos].
  pose proof (blen_nonneg rest). change 8 with (Z.of_nat 8).
  rewrite (proj2 (Z.ltb_ge _ _)) by (rewrite !blen_app, be_bytes_len; lia).
  rewrite <-(be_bytes_len 8 b), slice_app. unfold be_value.
  rewrite be_value_bytes by done. done.
Qed.

#[export] Hint Resolve encodes_ret encodes_writeBytes encodes_writeVarInt
  encodes_writeVarBytes encodes_writeVarString encodes_writeDate encodes_ignore
  decodes_ret decodes_readVarInt decodes_readVarBytes decodes_readVarString
  decodes_readDate decodes_readBytes : codec.

(** Walk down a codec's body: one [bind] per wire segment. *)
Ltac enc_walk :=
  repeat (eapply encodes_bind; [solve [eauto with codec]|]);
  try solve [eauto with codec].

Ltac dec_walk :=
  repeat (eapply decodes_bind; [solve [eauto with codec]|]; cbv beta);
  try solve [eauto with codec].

(** ** Round-tripping codecs

    [Lawful c ok norm wire]: a valid [x] is written as [wire x], and reading
    that back gives [norm x] and consumes exactly it.  [wire x] is not empty,
    so lists of such values are self-delimiting. *)
Class Lawful {A} (c : ICodecStruct A) (ok : A → Prop) (norm : A → A)
    (wire : A → bytes) : Prop := {
  lawful_enc x : ok x → encodes (cEncode c x) (wire x);
  lawful_dec x : ok x → decodes (cDecode c) (wire x) (norm x);
  lawful_len x : ok x → 0 < blen (wire x);
}.

(** ** Cursor safety

    Whatever the bytes, a decoder leaves the data alone, never moves the
    cursor back or past the end, and (for codecs read in a loop) a success
    consumes input. *)
Definition dec_wf (d : Decoder) : Prop := 0 <= pos d <= blen (data d).

Definition dec_safe {A} (m : DecM A) : Prop :=
  ∀ d, dec_wf d →
    let d' := (m d).2 in data d' = data d ∧ pos d <= pos d' ∧ dec_wf d'.

Definition dec_consumes {A} (m : DecM A) : Prop :=
  ∀ d a d', dec_wf d → m d = (Ok a, d') → pos d < pos d'.

(** [m] never raises an exception. *)
Definition no_throw {A} (m : DecM A) : Prop := ∀ d, dec_wf d → (m d).1 ≠ Throw.

Lemma dec_safe_ret {A} (a : A) : dec_safe (mret a).
Proof. intros d Hd. simpl. split_and!; done || lia. Qed.

Lemma dec_safe_err {A} s : dec_safe (m_err s : DecM A).
Proof. intros d Hd. simpl. split_and!; done || lia. Qed.

Lemma dec_safe_get : dec_safe m_get.
Proof. intros d Hd. simpl. split_and!; done || lia. Qed.

Lemma dec_safe_lift {A} (r : Res A) : dec_safe (m_lift r).
Proof. intros d Hd. simpl. split_and!; done || lia. Qed.

Lemma dec_safe_bind {A B} (m : DecM A) (k : A → DecM B) :
  dec_safe m → (∀ a, dec_safe (k a)) → dec_safe (m ≫= k).
Proof.
  intros Hm Hk d Hd. unfold mbind, M_bind, m_bind.
  destruct (Hm d Hd) as (H1 & H2 & H3).
  destruct (m d) as [[a| |] d1]; simpl in *; [|by split_and!..].
  destruct (Hk a d1 H3) as (H4 & H5 & H6). split_and!; [congruence|lia|done].
Qed.

Lemma dec_safe_if {A} (b : bool) (m1 m2 : DecM A) :
  dec_safe m1 → dec_safe m2 → dec_safe (if b then m1 else m2).
Proof. by destruct b. Qed.

Lemma dec_safe_readBytes n : dec_safe (readBytes n).
Proof.
  intros d Hd. unfold readBytes, dec_wf in *.
  destruct (Z.ltb_spec n 0); [simpl; split_and!; done || lia|].
  destruct (Z.ltb_spec (blen (data d)) (pos d + n)); simpl; split_and!; done || lia.
Qed.

Lemma decode_loop_bound k bs offset result shift i v n :
  VarInt.decode_loop k bs offset result shift i = Ok (v, n) →
  i - offset < n ∧ offset + n <= blen bs.
Proof.
  revert result shift i. induction k as [|k IH]; intros result shift i; [done|].
  cbn [VarInt.decode_loop]. destruct (Z.leb_spec (Z.of_nat (length bs)) i); [done|].
  destruct (VarInt.byte_at bs i); [|done].
  destruct (_ =? 0).
  - destruct (8 <? i + 1 - offset); [done|]. intros; simplify_eq. unfold blen. lia.
  - destruct (56 <=? shift + 7); [done|]. intros [? ?]%IH. lia.
Qed.

Lemma decode_loop_max k bs offset result shift i v n :
  VarInt.decode_loop k bs offset result shift i = Ok (v, n) → n <= 8.
Proof.
  revert result shift i. induction k as [|k IH]; intros result shift i; [done|].
  cbn [VarInt.decode_loop]. destruct (Z.of_nat (length bs) <=? i); [done|].
  destruct (VarInt.byte_at bs i); [|done]. destruct (_ =? 0).
  - destruct (Z.ltb_spec 8 (i + 1 - offset)); [done|]. intros; simplify_eq. lia.
  - destruct (56 <=? shift + 7); [done|]. apply IH.
Qed.

Lemma dec_safe_readVarInt : dec_safe readVarInt.
Proof.
  intros d Hd. unfold readVarInt, VarInt.decodeVarInt.
  destruct (VarInt.decode_loop _ _ _ _ _ _) as [[v n]| |] eqn:E; simpl;
    [|split_and!; done || lia..].
  apply decode_loop_bound in E. unfold dec_wf in *. simpl. split_and!; lia || done.
Qed.

Lemma dec_consumes_readVarInt : dec_consumes readVarInt.
Proof.
  intros d a d' Hd. unfold readVarInt, VarInt.decodeVarInt.
  destruct (VarInt.decode_loop _ _ _ _ _ _) as [[v n]| |] eqn:E; [|done..].
  intros; simplify_eq. apply decode_loop_bound in E. simpl. lia.
Qed.

#[export] Hint Resolve dec_safe_ret dec_safe_err dec_safe_get dec_safe_lift
  dec_safe_readBytes dec_safe_readVarInt : codec.

Ltac dec_safe_walk :=
  repeat first
    [ solve [eauto with codec]
    | apply dec_safe_bind; [|intros]
    | apply dec_safe_if ].

Lemma dec_safe_readDate : dec_safe readDate.
Proof. unfold readDate. dec_safe_walk. Qed.
Lemma dec_safe_readVarString : dec_safe readVarString.
Proof. unfold readVarString. dec_safe_walk. Qed.
Lemma dec_safe_readVarBytes : dec_safe readVarBytes.
Proof. unfold readVarBytes. dec_safe_walk. Qed.

Lemma dec_safe_times {A} (m : DecM A) n : dec_safe m → dec_safe (m_times n m).
Proof. intros Hm. induction n; cbn [m_times]; dec_safe_walk. Qed.

#[export] Hint Resolve dec_safe_readDate dec_safe_readVarString
  dec_safe_readVarBytes dec_safe_times : codec.

Lemma dec_safe_readVarStrings : dec_safe readVarStrings.
Proof. unfold readVarStrings. dec_safe_walk. Qed.

Lemma dec_safe_while {A} f (m : DecM A) : dec_safe m → dec_safe (dec_while f m).
Proof.
  intros Hm. induction f as [|f IH]; intros d Hd; cbn [dec_while].
  - simpl. split_and!; done || lia.
  - destruct (dec_done d); [simpl; split_and!; done || lia|].
    revert d Hd. change (dec_safe (x ← m; xs ← dec_while f m; mret (x :: xs))).
    dec_safe_walk.
Qed.

Lemma dec_safe_until_done {A} (m : DecM A) : dec_safe m → dec_safe (dec_until_done m).
Proof. intros Hm d Hd. by apply dec_safe_while. Qed.

Lemma dec_safe_readRest : dec_safe readRest.
Proof. intros d Hd. unfold dec_wf in *. simpl. split_and!; lia || done. Qed.

#[export] Hint Resolve dec_safe_readVarStrings dec_safe_until_done
  dec_safe_readRest : codec.

Lemma dec_consumes_bind_l {A B} (m : DecM A) (k : A → DecM B) :
  dec_safe m → dec_consumes m → (∀ a, dec_safe (k a)) → dec_consumes (m ≫= k).
Proof.
  intros Hs Hc Hk d b d'' Hd (a & d' & H1 & H2)%m_bind_Ok_inv.
  pose proof (Hc _ _ _ Hd H1). destruct (Hs d Hd) as (? & ? & Hd').
  rewrite H1 in Hd'. destruct (Hk a d' Hd') as (? & Hp & _).
  rewrite H2 in Hp. simpl in *. lia.
Qed.

Lemma dec_consumes_bind_r {A B} (m : DecM A) (k : A → DecM B) :
  dec_safe m → (∀ a, dec_consumes (k a)) → dec_consumes (m ≫= k).
Proof.
  intros Hs Hc d b d'' Hd (a & d' & H1 & H2)%m_bind_Ok_inv.
  destruct (Hs d Hd) as (? & Hp & Hd'). rewrite H1 in Hp, Hd'.
  pose proof (Hc a _ _ _ Hd' H2). simpl in *. lia.
Qed.

Lemma dec_consumes_readBytes n : 0 < n → dec_consumes (readBytes n).
Proof.
  intros Hn d a d' Hd. unfold readBytes.
  rewrite (proj2 (Z.ltb_ge _ _)) by lia.
  destruct (_ <? _); [done|]. intros; simplify_eq. simpl. lia.
Qed.

(** ** Termination of the read-until-done loops *)

(** The fuel of [dec_until_done] is enough: it never raises when the item
    decoder consumes on success and does not raise itself. *)
Lemma dec_while_total {A} (m : DecM A) f d :
  dec_safe m → dec_consumes m → no_throw m → dec_wf d →
  dec_remaining d < Z.of_nat f → (dec_while f m d).1 ≠ Throw.
Proof.
  intros Hs Hc Ht. revert d. induction f as [|f IH]; intros d Hd Hf.
  { unfold dec_remaining, dec_wf in *. lia. }
  cbn [dec_while]. destruct (dec_done d); [done|].
  unfold mbind, M_bind, m_bind.
  destruct (Hs d Hd) as (H1 & H2 & H3).
  pose proof (Ht d Hd). destruct (m d) as [[a| |] d'] eqn:E; [|done..].
  pose proof (Hc _ _ _ Hd E). simpl in *.
  specialize (IH d' H3). unfold dec_remaining in *. rewrite H1 in IH.
  specialize (IH ltac:(lia)).
  by destruct (dec_while f m d') as [[]].
Qed.

Lemma until_done_total {A} (m : DecM A) d :
  dec_safe m → dec_consumes m → no_throw m → dec_wf d →
  (dec_until_done m d).1 ≠ Throw.
Proof.
  intros. apply dec_while_total; try done.
  unfold dec_wf, dec_remaining in *. lia.
Qed.

(** ** Sequences of structs *)

Lemma decodes_while {A} (m : DecM A) xs bss f pre :
  Forall2 (λ x b, decodes m b x ∧ 0 < blen b) xs bss →
  (length xs < f)%nat →
  dec_while f m (mkDec (pre ++ concat bss) (blen pre)) =
  (Ok xs, mkDec (pre ++ concat bss) (blen pre + blen (concat bss))).
Proof.
  intros HF. revert f pre.
  induction HF as [|x b xs bss [Hx Hb] _ IH]; intros [|f] pre Hf;
    simpl in Hf; try lia; cbn [dec_while concat].
  - unfold dec_done. cbn [data pos]. rewrite app_nil_r, Z.leb_refl.
    by rewrite blen_nil, Z.add_0_r.
  - unfold dec_done. cbn [data pos].
    pose proof (blen_nonneg (concat bss)).
    rewrite (proj2 (Z.leb_gt _ _)) by (rewrite !blen_app; lia).
    unfold mbind, M_bind, m_bind. rewrite Hx.
    specialize (IH f (pre ++ b) ltac:(lia)).
    rewrite <-app_assoc, blen_app in IH. rewrite IH.
    rewrite blen_app, Z.add_assoc. done.
Qed.

Lemma Forall2_len_concat {A} (P : A → bytes → Prop) xs bss :
  Forall2 (λ x b, P x b ∧ 0 < blen b) xs bss →
  (length xs <= length (concat bss))%nat.
Proof.
  induction 1 as [|x b xs bss [_ Hb] _ IH]; [simpl; lia|].
  simpl. rewrite length_app. unfold blen in Hb. lia.
Qed.

Section structs.
Context {A} (c : ICodecStruct A) (ok : A → Prop) (norm : A → A) (wire : A → bytes).
Context {HL : Lawful c ok norm wire}.

Lemma lawful_Forall2 xs :
  Forall ok xs →
  Forall2 (λ x b, decodes (cDecode c) b x ∧ 0 < blen b) (norm <$> xs) (wire <$> xs).
Proof.
  induction 1 as [|x xs Hx _ IH]; constructor; [|done].
  split; [by apply lawful_dec|by apply (lawful_len x)].
Qed.

Lemma writeStructs_encodes xs :
  Forall ok xs → encodes (writeStructs c xs) (concat (wire <$> xs)).
Proof.
  intros Hok. apply encodes_forM.
  induction Hok as [|x xs Hx _ IH]; constructor; [|done].
  by apply lawful_enc.
Qed.

Lemma readStructs_decodes_end xs :
  Forall ok xs → decodes_end (readStructs c) (concat (wire <$> xs)) (norm <$> xs).
Proof.
  intros Hok%lawful_Forall2 pre. unfold readStructs, dec_until_done.
  apply decodes_while; [done|]. unfold dec_remaining. cbn [data pos].
  apply Forall2_len_concat in Hok. rewrite blen_app. unfold blen. lia.
Qed.

Lemma structs_roundtrip xs :
  Forall ok xs →
  ∃ bs, run_enc (writeStructs c xs) = Ok bs ∧
        run_dec (readStructs c) bs = Ok (norm <$> xs).
Proof.
  intros Hok. exists (concat (wire <$> xs)). split.
  - by apply encodes_run, writeStructs_encodes.
  - by apply decodes_end_run, readStructs_decodes_end.
Qed.

Lemma struct_roundtrip x :
  ok x → ∃ bs, run_enc (writeStruct c x) = Ok bs ∧
               run_dec (readStruct c) bs = Ok (norm x).
Proof.
  intros Hok. exists (wire x). split.
  - by apply encodes_run, lawful_enc.
  - by apply decodes_run, lawful_dec.
Qed.

(** Two valid values with the same wire form are the same up to [norm]. *)
Lemma lawful_wire_inj x y : ok x → ok y → wire x = wire y → norm x = norm y.
Proof.
  intros Hx Hy Hw. pose proof (lawful_dec x Hx [] []) as H1.
  pose proof (lawful_dec y Hy [] []) as H2. rewrite Hw in H1.
  rewrite H1 in H2. congruence.
Qed.
End structs.

(** ** No exceptions *)

Lemma no_throw_ret {A} (a : A) : no_throw (mret a).
Proof. done. Qed.
Lemma no_throw_err {A} s : no_throw (m_err s : DecM A).
Proof. done. Qed.
Lemma no_throw_get : no_throw m_get.
Proof. done. Qed.

Lemma no_throw_bind {A B} (m : DecM A) (k : A → DecM B) :
  dec_safe m → no_throw m → (∀ a, no_throw (k a)) → no_throw (m ≫= k).
Proof.
  intros Hs Hm Hk d Hd. unfold mbind, M_bind, m_bind.
  destruct (Hs d Hd) as (_ & _ & Hd'). specialize (Hm d Hd).
  destruct (m d) as [[a| |] d']; simpl in *; [by apply Hk|done..].
Qed.

Lemma no_throw_if {A} (b : bool) (m1 m2 : DecM A) :
  no_throw m1 → no_throw m2 → no_throw (if b then m1 else m2).
Proof. by destruct b. Qed.

Lemma no_throw_readBytes n : no_throw (readBytes n).
Proof. intros d Hd. unfold readBytes. by repeat case_match. Qed.

Lemma decode_loop_total k bs offset result shift i :
  56 <= shift + 7 * Z.of_nat k → 0 < Z.of_nat k →
  VarInt.decode_loop k bs offset result shift i ≠ Throw.
Proof.
  revert result shift i. induction k as [|k IH]; intros result shift i Hk H0; [lia|].
  cbn [VarInt.decode_loop].
  destruct (_ <=? i); [done|]. destruct (VarInt.byte_at bs i); [|done].
  destruct (_ =? 0); [by case_match|].
  destruct (Z.leb_spec 56 (shift + 7)); [done|]. apply IH; lia.
Qed.

(** [decodeVarInt] always returns: eight rounds suffice. *)
Lemma decodeVarInt_total bs offset : VarInt.decodeVarInt bs offset ≠ Throw.
Proof. by apply decode_loop_total. Qed.

Lemma no_throw_readVarInt : no_throw readVarInt.
Proof.
  intros d Hd. unfold readVarInt.
  pose proof (decodeVarInt_total (data d) (pos d)).
  by destruct (VarInt.decodeVarInt _ _) as [[]| |].
Qed.

#[export] Hint Resolve no_throw_ret no_throw_err no_throw_get no_throw_readBytes
  no_throw_readVarInt : codec.

Ltac no_throw_walk :=
  repeat first
    [ solve [eauto with codec]
    | apply no_throw_bind; [dec_safe_walk| |intros]
    | apply no_throw_if ].

Lemma no_throw_readDate : no_throw readDate.
Proof. unfold readDate. no_throw_walk. Qed.
Lemma no_throw_readVarString : no_throw readVarString.
Proof. unfold readVarString. no_throw_walk. Qed.
Lemma no_throw_readVarBytes : no_throw readVarBytes.
Proof. unfold readVarBytes. no_throw_walk. Qed.
Lemma no_throw_times {A} (m : DecM A) n : dec_safe m → no_throw m → no_throw (m_times n m).
Proof. intros Hs Hm. induction n; cbn [m_times]; no_throw_walk. Qed.

#[export] Hint Resolve no_throw_readDate no_throw_readVarString
  no_throw_readVarBytes no_throw_times : codec.

Lemma no_throw_readVarStrings : no_throw readVarStrings.
Proof. unfold readVarStrings. no_throw_walk. Qed.

#[export] Hint Resolve no_throw_readVarStrings : codec.

Lemma no_throw_until_done {A} (m : DecM A) :
  dec_safe m → dec_consumes m → no_throw m → no_throw (dec_until_done m).
Proof. intros ??? d Hd. by apply until_done_total. Qed.
