(* ===== verification/Codecs.v ===== *)
(** * The wire structures ([shared/codecs/*.ts], [shared/api/*.ts] requests)

    One record and one codec value per file of [shared/codecs], plus the two
    branding checks of [shared/crypto/derivation.ts] the codecs call, and the
    request codecs of [shared/api].  Field names carry a short prefix. *)
From S2P Require Export CodecTheory.

(** [f(); return Status.Success] when the boolean guard holds, else the
    failure status. *)
Definition guard_enc (b : bool) (s : Status) (k : EncM unit) : EncM unit :=
  if b then k else m_err s.

(** [bytes[0]] of a buffer the caller has checked to hold one byte. *)
Definition byte0 (bs : bytes) : byte := default x00 (head bs).

(** ** [crypto/derivation.ts]: branding 32-byte material *)

Definition asChildKey (bs : bytes) : Res bytes :=
  if negb (blen bs =? hashBytes) then Err InvalidParam else Ok bs.

Definition asHostRlm (bs : bytes) : Res bytes := asChildKey bs.

(** ** [codecs/kdm.ts] *)

Record IKDM := mkKDM { kdm_label : jsstr; kdm_index : Z }.

#[export] Instance IKDM_eq_dec : EqDecision IKDM.
Proof. solve_decision. Defined.

Definition kdmEq (k1 k2 : IKDM) : bool :=
  bool_decide (kdm_label k1 = kdm_label k2) && (kdm_index k1 =? kdm_index k2).

Definition nullKDM : IKDM := mkKDM [] 0.

Definition kdmCodec : ICodecStruct IKDM := {|
  cEncode kdm :=
    _ ← writeVarString (kdm_label kdm);
    writeVarInt (kdm_index kdm);
  cDecode :=
    label ← readVarString;
    index ← readVarInt;
    mret (mkKDM label index);
|}.

(** ** [codecs/eid.ts] *)

Record IEntityID := mkIEntityID { eid_id : bytes; eid_ts : Date }.

Definition eidCodec : ICodecStruct IEntityID := {|
  cEncode eid :=
    _ ← writeVarBytes (eid_id eid);
    writeDate (eid_ts eid);
  cDecode :=
    id ← readVarBytes;
    ts ← readDate;
    mret (mkIEntityID id ts);
|}.

Definition makeEID (eidObj : IEntityID) : Res bytes :=
  run_enc (writeStruct eidCodec eidObj).

Definition genSingletonEID (id : bytes) : Res bytes :=
  makeEID (mkIEntityID id (mkDate (Some 0))).

(** ** [codecs/authTimestamp.ts] *)

Record IAuthTimestamp := mkAuthTS {
  at_pubKey : bytes;
  at_sig : bytes;
  at_timestamp : Date;
}.

Definition authTimestampCodec : ICodecStruct IAuthTimestamp := {|
  cEncode item :=
    _ ← writeBytes (at_pubKey item);
    _ ← writeBytes (at_sig item);
    writeDate (at_timestamp item);
  cDecode :=
    pubKey ← readBytes pubKeyBytes;
    sig ← readBytes sigBytes;
    timestamp ← readDate;
    mret (mkAuthTS pubKey sig timestamp);
|}.

(** ** [codecs/bag.ts] *)

Record IBag := mkBag {
  bag_rlm : bytes;
  bag_sig : bytes;
  bag_kdm : bytes;
  bag_headCph : bytes;
  bag_bodyCph : bytes;
}.

Definition bagCodec : ICodecStruct IBag := {|
  cEncode bag :=
    guard_enc (blen (bag_rlm bag) =? hashBytes) InvalidParam (
    guard_enc (blen (bag_sig bag) =? sigBytes) InvalidParam (
    _ ← writeBytes (bag_sig bag);
    _ ← writeBytes (bag_rlm bag);
    _ ← writeBytes (bag_kdm bag);
    _ ← writeVarBytes (bag_headCph bag);
    writeVarBytes (bag_bodyCph bag)));
  cDecode :=
    sig ← readBytes sigBytes;
    raw ← readBytes hashBytes;
    rlm ← m_lift (asHostRlm raw);
    kdm ← readBytes kdmBytes;
    headCph ← readVarBytes;
    bodyCph ← readVarBytes;
    mret (mkBag rlm sig kdm headCph bodyCph);
|}.

(** ** [codecs/bundleHost.ts] and [codecs/identityBundle.ts] *)

Record BundleHost := mkBundleHost {
  bh_handle : jsstr;
  bh_label : jsstr;
  bh_idx : option Z;
}.

Definition bundleHostCodec : ICodecStruct BundleHost := {|
  cEncode h :=
    _ ← writeVarString (bh_handle h);
    _ ← writeVarString (bh_label h);
    writeVarInt (default 0 (bh_idx h));
  cDecode :=
    handle ← readVarString;
    label ← readVarString;
    idx ← readVarInt;
    mret (mkBundleHost handle label (Some idx));
|}.

Definition identityHostsCodec : ICodecStruct (list BundleHost) := {|
  cEncode hosts :=
    _ ← writeVarInt (Z.of_nat (length hosts));
    m_forM hosts (writeStruct bundleHostCodec);
  cDecode :=
    n ← readVarInt;
    if n <? 0 then m_err InvalidParam
    else m_times (Z.to_nat n) (readStruct bundleHostCodec);
|}.

(** ** [codecs/ent.ts] *)

Record IMsgEntBody := mkEnt {
  ent_pid : option bytes;
  ent_tags : option (list jsstr);
  ent_body : option bytes;
}.

(** The [instanceof Uint8Array] test of [encode] always passes here: [body] is
    bytes by type. *)
Definition entCodec : ICodecStruct IMsgEntBody := {|
  cEncode ent :=
    _ ← writeVarBytes (default [] (ent_pid ent));
    _ ← writeVarStrings (default [] (ent_tags ent));
    match ent_body ent with
    | Some body => if 0 <? blen body then writeBytes body else mret tt
    | None => mret tt
    end;
  cDecode :=
    pidBytes ← readVarBytes;
    pid ← (if 0 <? blen pidBytes then
             match readStruct eidCodec (newDecoder pidBytes) with
             | (Err sp, _) => m_err sp
             | (Throw, _) => m_throw
             | (Ok parsed, inner) =>
                 if negb (dec_done inner) then m_err InvalidMessage
                 else eid ← m_lift (makeEID parsed); mret (Some eid)
             end
           else mret None);
    tags ← readVarStrings;
    rest ← readRest;
    mret (mkEnt pid
            (if 0 <? Z.of_nat (length tags) then Some tags else None)
            (if 0 <? blen rest then Some rest else None));
|}.

Definition encodeEnt (ent : IMsgEntBody) : Res bytes :=
  run_enc (writeStruct entCodec ent).

(** ** [codecs/fileRealm.ts], [codecs/fileHead.ts], [codecs/fileIndexItem.ts],
    [codecs/file.ts] *)

Record IFileRealm := mkFileRealm {
  fr_realm : IKDM;
  fr_num : Z;
  fr_hsh : bytes;
}.

Definition fileRealmCodec : ICodecStruct IFileRealm := {|
  cEncode row :=
    guard_enc (1 <=? fr_num row) InvalidMessage (
    guard_enc (blen (fr_hsh row) =? hshBytes) InvalidParam (
    _ ← cEncode kdmCodec (fr_realm row);
    _ ← writeVarInt (fr_num row);
    writeBytes (fr_hsh row)));
  cDecode :=
    realm ← cDecode kdmCodec;
    num ← readVarInt;
    if num <? 1 then m_err InvalidMessage
    else
      hsh ← readBytes hshBytes;
      mret (mkFileRealm realm num hsh);
|}.

Record IFileHead := mkFileHead {
  fh_nonce : bytes;
  fh_realms : list IFileRealm;
  fh_hsh : bytes;
  fh_sig : bytes;
}.

Definition writeRealms (realms : list IFileRealm) : EncM unit :=
  _ ← writeVarInt (Z.of_nat (length realms));
  m_forM realms (cEncode fileRealmCodec).

Definition readRealms : DecM (list IFileRealm) :=
  n ← readVarInt;
  d ← m_get;
  if (n <? 0) || (dec_remaining d <? n) then m_err InvalidMessage
  else m_times (Z.to_nat n) (cDecode fileRealmCodec).

Definition fileHeadPreimage (nonce : bytes) (realms : list IFileRealm) : Res bytes :=
  if negb (blen nonce =? hashBytes) then Err InvalidParam
  else run_enc (_ ← writeBytes nonce; writeRealms realms).

Definition fileHeadCodec : ICodecStruct IFileHead := {|
  cEncode head :=
    guard_enc (blen (fh_nonce head) =? hashBytes) InvalidParam (
    guard_enc (blen (fh_hsh head) =? hshBytes) InvalidParam (
    guard_enc (blen (fh_sig head) =? sigBytes) InvalidParam (
    _ ← writeBytes (fh_nonce head);
    _ ← writeRealms (fh_realms head);
    _ ← writeBytes (fh_hsh head);
    writeBytes (fh_sig head))));
  cDecode :=
    nonce ← readBytes hashBytes;
    realms ← readRealms;
    hsh ← readBytes hshBytes;
    sig ← readBytes sigBytes;
    mret (mkFileHead nonce realms hsh sig);
|}.

Record IFileIndexItem := mkFileIndexItem {
  fi_kdm : bytes;
  fi_headCph : bytes;
  fi_lenBody : Z;
}.

Definition fileIndexItemCodec : ICodecStruct IFileIndexItem := {|
  cEncode item :=
    _ ← writeBytes (fi_kdm item);
    _ ← writeVarBytes (fi_headCph item);
    writeVarInt (fi_lenBody item);
  cDecode :=
    kdm ← readBytes kdmBytes;
    headCph ← readVarBytes;
    lenBody ← readVarInt;
    mret (mkFileIndexItem kdm headCph lenBody);
|}.

Record IFile := mkFile { file_head : IFileHead; file_chunks : bytes }.

Definition fileCodec : ICodecStruct IFile := {|
  cEncode file :=
    _ ← writeStruct fileHeadCodec (file_head file);
    writeBytes (file_chunks file);
  cDecode :=
    head ← readStruct fileHeadCodec;
    chunks ← readRest;
    mret (mkFile head chunks);
|}.

(** ** [codecs/messageHead.ts] *)

Record IMessageHead := mkHead {
  mh_typ : option jsstr;
  mh_eid : bytes;
  mh_off : num;
  mh_ctr : Z;
  mh_len : Z;
  mh_hsh : option bytes;
}.

Definition messageHeadCodec : ICodecStruct IMessageHead := {|
  cEncode msg :=
    _ ← writeVarString (default [] (mh_typ msg));
    _ ← writeVarBytes (mh_eid msg);
    _ ← writeVarNum (mh_off msg);
    _ ← writeVarInt (mh_ctr msg);
    _ ← writeVarInt (mh_len msg);
    match mh_hsh msg with
    | Some hsh => writeBytes hsh
    | None => mret tt
    end;
  cDecode :=
    typ ← readVarString;
    eid ← readVarBytes;
    _ ← m_lift (run_dec (cDecode eidCodec) eid);
    off ← readVarInt;
    ctr ← readVarInt;
    len ← readVarInt;
    if 0 <? len then
      h ← readBytes hshBytes;
      mret (mkHead (Some typ) eid (Some off) ctr len (Some h))
    else mret (mkHead (Some typ) eid (Some off) ctr len None);
|}.

Record IMinimalMessageHead := mkMinHead {
  mm_eid : bytes;
  mm_off : num;
  mm_ctr : Z;
}.

Definition minimalMessageHeadCodec : ICodecStruct IMinimalMessageHead := {|
  cEncode msg :=
    _ ← writeVarBytes (mm_eid msg);
    _ ← writeVarNum (mm_off msg);
    writeVarInt (mm_ctr msg);
  cDecode :=
    eid ← readVarBytes;
    _ ← m_lift (run_dec (cDecode eidCodec) eid);
    off ← readVarInt;
    ctr ← readVarInt;
    mret (mkMinHead eid (Some off) ctr);
|}.

(** ** [codecs/notifItem.ts] *)

Record IBagNotifItem := mkNotif {
  ni_seq : Z;
  ni_rlm : bytes;
  ni_headCph : bytes;
  ni_bodyCph : option bytes;
}.

Definition notifItemCodec : ICodecStruct IBagNotifItem := {|
  cEncode item :=
    _ ← writeVarInt (ni_seq item);
    guard_enc (blen (ni_rlm item) =? hashBytes) InvalidParam (
    _ ← writeBytes (ni_rlm item);
    _ ← writeVarBytes (ni_headCph item);
    let bodyLen := match ni_bodyCph item with Some b => blen b | None => 0 end in
    _ ← writeVarInt bodyLen;
    if 0 <? bodyLen then
      match ni_bodyCph item with
      | None => m_err InvalidParam
      | Some b => writeBytes b
      end
    else mret tt);
  cDecode :=
    seq ← readVarInt;
    raw ← readBytes hashBytes;
    rlm ← m_lift (asHostRlm raw);
    headCph ← readVarBytes;
    bodyLen ← readVarInt;
    if 0 <? bodyLen then
      body ← readBytes bodyLen;
      mret (mkNotif seq rlm headCph (Some body))
    else mret (mkNotif seq rlm headCph None);
|}.

(** ** [codecs/peekItem.ts], [codecs/peekItemHead.ts], [codecs/pullItem.ts] *)

Record IBagPeekItem := mkPeekItem { pk_seq : Z; pk_headCph : bytes }.

Definition peekItemCodec : ICodecStruct IBagPeekItem := {|
  cEncode item :=
    _ ← writeVarBytes (pk_headCph item);
    writeVarInt (pk_seq item);
  cDecode :=
    headCph ← readVarBytes;
    seq ← readVarInt;
    mret (mkPeekItem seq headCph);
|}.

Record IBagPeekItemHead := mkPeekItemHead {
  ph_sig : bytes;
  ph_kdm : bytes;
  ph_headCph : bytes;
}.

Definition peekItemHeadCodec : ICodecStruct IBagPeekItemHead := {|
  cEncode item :=
    _ ← writeBytes (ph_sig item);
    _ ← writeBytes (ph_kdm item);
    writeVarBytes (ph_headCph item);
  cDecode :=
    sig ← readBytes sigBytes;
    kdm ← readBytes kdmBytes;
    headCph ← readVarBytes;
    mret (mkPeekItemHead sig kdm headCph);
|}.

Record IBagPullItem := mkPullItem { pl_seq : Z; pl_bodyCph : bytes }.

(** [encode] drops the status of the seq write. *)
Definition pullItemCodec : ICodecStruct IBagPullItem := {|
  cEncode item :=
    _ ← m_ignore (writeVarInt (pl_seq item));
    writeVarBytes (pl_bodyCph item);
  cDecode :=
    seq ← readVarInt;
    bodyCph ← readVarBytes;
    mret (mkPullItem seq bodyCph);
|}.

(** ** [codecs/pushItem.ts] *)

Inductive IBagPushItem :=
| PushStored (idx seq : Z)
| PushFailed (idx : Z) (status : Status).

Definition pi_idx (item : IBagPushItem) : Z :=
  match item with PushStored idx _ | PushFailed idx _ => idx end.
Definition pi_status (item : IBagPushItem) : Status :=
  match item with PushStored _ _ => Success | PushFailed _ st => st end.

(** [encode] drops the status of both number writes. *)
Definition pushItemCodec : ICodecStruct IBagPushItem := {|
  cEncode item :=
    _ ← m_ignore (writeVarInt (pi_idx item));
    _ ← writeBytes [Zbyte (status_code (pi_status item))];
    match item with
    | PushStored _ seq => m_ignore (writeVarInt seq)
    | PushFailed _ _ => mret tt
    end;
  cDecode :=
    idx ← readVarInt;
    statusBytes ← readBytes 1;
    let status := status_of_code (byteZ (byte0 statusBytes)) in
    if negb (bool_decide (status = Success)) then mret (PushFailed idx status)
    else
      seq ← readVarInt;
      mret (PushStored idx seq);
|}.

(** ** [codecs/usageQuota.ts], [codecs/respHead.ts] *)

Record IUsageQuota := mkQuota { uq_quota : Z; uq_usage : option Z }.

(** [encode] drops the status of both number writes. *)
Definition usageQuotaCodec : ICodecStruct IUsageQuota := {|
  cEncode uq :=
    _ ← m_ignore (writeVarInt (uq_quota uq));
    if 0 <? uq_quota uq then
      match uq_usage uq with
      | None => m_err MissingParam
      | Some usage => m_ignore (writeVarInt usage)
      end
    else mret tt;
  cDecode :=
    quota ← readVarInt;
    if 0 <? quota then
      u ← readVarInt;
      mret (mkQuota quota (Some u))
    else mret (mkQuota quota None);
|}.

Record ISubscriptionMetadata := mkSubMeta {
  sm_term : Z;
  sm_elapsed : Z;
  sm_stat : IUsageQuota;
  sm_dyn : IUsageQuota;
}.

Definition nullSubMeta : ISubscriptionMetadata :=
  mkSubMeta 0 0 (mkQuota 0 None) (mkQuota 0 None).

Record IRespHead := mkRespHead {
  rh_status : Status;
  rh_timeRcvd : Date;
  rh_timeSent : Date;
  rh_subscription : ISubscriptionMetadata;
}.

Definition respHeadCodec : ICodecStruct IRespHead := {|
  cEncode head :=
    _ ← writeBytes [Zbyte (status_code (rh_status head))];
    _ ← writeDate (rh_timeRcvd head);
    _ ← writeDate (rh_timeSent head);
    _ ← writeVarInt (sm_term (rh_subscription head));
    _ ← writeVarInt (sm_elapsed (rh_subscription head));
    _ ← writeStruct usageQuotaCodec (sm_stat (rh_subscription head));
    writeStruct usageQuotaCodec (sm_dyn (rh_subscription head));
  cDecode :=
    bs ← readBytes 1;
    let status := status_of_code (byteZ (byte0 bs)) in
    timeRcvd ← readDate;
    timeSent ← readDate;
    term ← readVarInt;
    elapsed ← readVarInt;
    stat ← readStruct usageQuotaCodec;
    dyn ← readStruct usageQuotaCodec;
    mret (mkRespHead status timeRcvd timeSent (mkSubMeta term elapsed stat dyn));
|}.

(** ** Request structs of [shared/api] *)

Record IPeekCursor := mkPeekCursor { pc_rlm : bytes; pc_seq : Z }.

Definition peekCursorCodec : ICodecStruct IPeekCursor := {|
  cEncode cursor :=
    guard_enc (blen (pc_rlm cursor) =? hashBytes) InvalidParam (
    _ ← writeBytes (pc_rlm cursor);
    writeVarInt (pc_seq cursor));
  cDecode :=
    raw ← readBytes hashBytes;
    rlm ← m_lift (asHostRlm raw);
    seq ← readVarInt;
    mret (mkPeekCursor rlm seq);
|}.

Record IPullReq := mkPullReq { pr_rlm : bytes; pr_seqs : list Z }.

Definition pullReqCodec : ICodecStruct IPullReq := {|
  cEncode req :=
    guard_enc (blen (pr_rlm req) =? hashBytes) InvalidParam (
    _ ← writeBytes (pr_rlm req);
    m_forM (pr_seqs req) writeVarInt);
  cDecode :=
    raw ← readBytes hashBytes;
    rlm ← m_lift (asHostRlm raw);
    seqs ← dec_until_done readVarInt;
    mret (mkPullReq rlm seqs);
|}.

Definition pushReqCodec : ICodecStruct (list IBag) := {|
  cEncode bags := writeStructs bagCodec bags;
  cDecode := readStructs bagCodec;
|}.
