(* ===== verification/CodecsFacts.v ===== *)
(** * Laws of the wire structures

    For every codec of [Codecs]: its wire form as a function, the [Lawful]
    instance (round trip at any position of a buffer), cursor safety, and
    freedom from exceptions. *)
From S2P Require Export Codecs.

(** ** Automation *)

Lemma decodes_bind0 {A B} (m : DecM A) (k : A → DecM B) bs a b :
  decodes m [] a → decodes (k a) bs b → decodes (m ≫= k) bs b.
Proof. intros H1 H2. by apply (decodes_bind m k [] bs a b). Qed.

Lemma decodes_last {A B} (m : DecM A) (k : A → DecM B) bs a b :
  decodes m bs a → decodes (k a) [] b → decodes (m ≫= k) bs b.
Proof. intros H1 H2. rewrite <-(app_nil_r bs). by eapply decodes_bind. Qed.

Lemma decodes_lift {A} (r : Res A) a : r = Ok a → decodes (m_lift r) [] a.
Proof. intros -> pre rest. rewrite blen_nil, Z.add_0_r. done. Qed.

Lemma encodes_guard b s k bs : b = true → encodes k bs → encodes (guard_enc b s k) bs.
Proof. by intros ->. Qed.

Lemma asHostRlm_ok bs : blen bs = hashBytes → asHostRlm bs = Ok bs.
Proof. intros H. unfold asHostRlm, asChildKey. by rewrite H. Qed.

#[export] Hint Resolve asHostRlm_ok : codec.
#[export] Hint Extern 2 (decodes (readBytes _) _ _) =>
  apply decodes_readBytes; solve [symmetry; assumption | reflexivity] : codec.
#[export] Hint Extern 2 (decodes (m_lift _) _ _) =>
  apply decodes_lift; eauto with codec : codec.

Ltac enc_steps :=
  repeat first
    [ apply encodes_guard; [by apply Z.eqb_eq|]
    | apply encodes_bind; [solve [eauto with codec]|]
    | solve [eauto with codec] ].

Ltac dec_steps :=
  repeat first
    [ eapply decodes_bind; [solve [eauto with codec]|cbv beta]
    | eapply decodes_bind0; [solve [eauto with codec]|cbv beta]
    | eapply decodes_last; [solve [eauto with codec]|cbv beta]
    | solve [eauto with codec] ].

(** A first segment that is not empty makes the whole wire form not empty. *)
Lemma blen_pos_app_l a b : 0 < blen a → 0 < blen (a ++ b).
Proof. rewrite blen_app. pose proof (blen_nonneg b). lia. Qed.
Lemma blen_pos_app_r a b : 0 < blen b → 0 < blen (a ++ b).
Proof. rewrite blen_app. pose proof (blen_nonneg a). lia. Qed.
Lemma varint_wire_pos n : varnum_ok n → 0 < blen (varint_wire n).
Proof. intros [Hn _]. by apply varint_wire_len. Qed.
Lemma varbytes_wire_pos bs : bytes_ok bs → 0 < blen (varbytes_wire bs).
Proof.
  intros Hb. apply blen_pos_app_l, varint_wire_pos, varnum_ok_len.
  unfold bytes_ok in Hb. pose proof (blen_nonneg bs). lia.
Qed.
Lemma varstring_wire_pos s : string_ok s → 0 < blen (varstring_wire s).
Proof. intros [_ Hb]. by apply varbytes_wire_pos. Qed.
Lemma blen_pos_eq bs n : blen bs = n → 0 < n → 0 < blen bs.
Proof. by intros ->. Qed.

#[export] Hint Resolve varint_wire_pos varbytes_wire_pos varstring_wire_pos
  date_wire_len : codec.
#[export] Hint Extern 3 (0 < blen (_ ++ _)) =>
  first [ apply blen_pos_app_l; solve [eauto with codec]
        | apply blen_pos_app_r; solve [eauto with codec] ] : codec.
#[export] Hint Extern 4 (0 < blen _) =>
  eapply blen_pos_eq; [eassumption|done] : codec.

Ltac lawful_tac :=
  split; intros ? Hok; destruct_and? Hok;
  [ simpl; enc_steps | simpl; dec_steps | eauto with codec ].

(** ** Round trips *)

Definition kdm_ok (k : IKDM) : Prop := string_ok (kdm_label k) ∧ varnum_ok (kdm_index k).
Definition kdm_wire (k : IKDM) : bytes :=
  varstring_wire (kdm_label k) ++ varint_wire (kdm_index k).

#[export] Instance kdm_lawful : Lawful kdmCodec kdm_ok id kdm_wire.
Proof. split; intros [l i] [H1 H2]; cbn in *; [enc_steps|dec_steps|unfold kdm_wire; eauto with codec]. Qed.

Definition eid_ok (e : IEntityID) : Prop := bytes_ok (eid_id e) ∧ date_ok (eid_ts e).
Definition eid_wire (e : IEntityID) : bytes :=
  varbytes_wire (eid_id e) ++ date_wire (eid_ts e).

#[export] Instance eid_lawful : Lawful eidCodec eid_ok id eid_wire.
Proof. split; intros [i t] [H1 H2]; cbn in *; [enc_steps|dec_steps|unfold eid_wire; eauto with codec]. Qed.

Definition authTS_ok (a : IAuthTimestamp) : Prop :=
  blen (at_pubKey a) = pubKeyBytes ∧ blen (at_sig a) = sigBytes ∧ date_ok (at_timestamp a).
Definition authTS_wire (a : IAuthTimestamp) : bytes :=
  at_pubKey a ++ at_sig a ++ date_wire (at_timestamp a).

#[export] Instance authTS_lawful : Lawful authTimestampCodec authTS_ok id authTS_wire.
Proof.
  split; intros [p s t] (H1 & H2 & H3); cbn in *;
    [enc_steps|dec_steps|unfold authTS_wire; eauto with codec].
Qed.

Definition bag_ok (b : IBag) : Prop :=
  blen (bag_rlm b) = hashBytes ∧ blen (bag_sig b) = sigBytes ∧
  blen (bag_kdm b) = kdmBytes ∧ bytes_ok (bag_headCph b) ∧ bytes_ok (bag_bodyCph b).
(** Wire: sig (64), rlm (32), kdm (8), headCph, bodyCph. *)
Definition bag_wire (b : IBag) : bytes :=
  bag_sig b ++ bag_rlm b ++ bag_kdm b ++
  varbytes_wire (bag_headCph b) ++ varbytes_wire (bag_bodyCph b).

#[export] Instance bag_lawful : Lawful bagCodec bag_ok id bag_wire.
Proof.
  split; intros [r s k h b] (H1 & H2 & H3 & H4 & H5); cbn in *;
    [enc_steps|dec_steps|unfold bag_wire; eauto with codec].
Qed.

Definition bundleHost_ok (h : BundleHost) : Prop :=
  string_ok (bh_handle h) ∧ string_ok (bh_label h) ∧ varnum_ok (default 0 (bh_idx h)).
Definition bundleHost_norm (h : BundleHost) : BundleHost :=
  mkBundleHost (bh_handle h) (bh_label h) (Some (default 0 (bh_idx h))).
Definition bundleHost_wire (h : BundleHost) : bytes :=
  varstring_wire (bh_handle h) ++ varstring_wire (bh_label h) ++
  varint_wire (default 0 (bh_idx h)).

#[export] Instance bundleHost_lawful :
  Lawful bundleHostCodec bundleHost_ok bundleHost_norm bundleHost_wire.
Proof.
  split; intros [h l i] (H1 & H2 & H3); cbn in *;
    [enc_steps|dec_steps|unfold bundleHost_wire; eauto with codec].
Qed.

Section counted.
(** A count followed by that many items: the wire form shared by the host
    list, the realm directory and tag lists. *)
Context {A} (c : ICodecStruct A) (ok : A → Prop) (norm : A → A) (wire : A → bytes).
Context {HL : Lawful c ok norm wire}.

Definition counted_wire (xs : list A) : bytes :=
  varint_wire (Z.of_nat (length xs)) ++ concat (wire <$> xs).

Definition count_ok (xs : list A) : Prop := Z.of_nat (length xs) < 2 ^ 32.

Lemma count_varnum xs : count_ok xs → varnum_ok (Z.of_nat (length xs)).
Proof. intros H. apply varnum_ok_len. unfold count_ok in H. lia. Qed.

Lemma encodes_items xs :
  Forall ok xs → encodes (m_forM xs (cEncode c)) (concat (wire <$> xs)).
Proof. apply (writeStructs_encodes c ok norm wire). Qed.

Lemma decodes_items xs :
  Forall ok xs → decodes (m_times (length xs) (cDecode c)) (concat (wire <$> xs)) (norm <$> xs).
Proof.
  intros Hok. rewrite <-(length_fmap norm xs). apply decodes_times.
  induction Hok as [|x xs Hx _ IH]; constructor; [|done]. by apply lawful_dec.
Qed.

Lemma items_len xs : Forall ok xs → Z.of_nat (length xs) <= blen (concat (wire <$> xs)).
Proof.
  intros Hok%(lawful_Forall2 c ok norm wire).
  apply Forall2_len_concat in Hok. rewrite length_fmap in Hok. unfold blen. lia.
Qed.
End counted.

Definition identityHosts_ok (hs : list BundleHost) : Prop :=
  count_ok hs ∧ Forall bundleHost_ok hs.
Definition identityHosts_norm (hs : list BundleHost) : list BundleHost :=
  bundleHost_norm <$> hs.
Definition identityHosts_wire (hs : list BundleHost) : bytes :=
  counted_wire bundleHost_wire hs.

#[export] Instance identityHosts_lawful :
  Lawful identityHostsCodec identityHosts_ok identityHosts_norm identityHosts_wire.
Proof.
  split; intros hs [Hc Hf]; pose proof (count_varnum hs Hc) as Hn.
  - simpl. apply encodes_bind; [eauto with codec|].
    by apply (encodes_items bundleHostCodec bundleHost_ok bundleHost_norm _).
  - simpl. eapply decodes_bind; [eauto with codec|]. cbv beta.
    rewrite (proj2 (Z.ltb_ge _ _)) by lia. rewrite Nat2Z.id.
    by apply (decodes_items bundleHostCodec bundleHost_ok bundleHost_norm _).
  - apply blen_pos_app_l. eauto with codec.
Qed.

Definition fileRealm_ok (r : IFileRealm) : Prop :=
  kdm_ok (fr_realm r) ∧ 1 <= fr_num r ∧ varnum_ok (fr_num r) ∧ blen (fr_hsh r) = hshBytes.
Definition fileRealm_wire (r : IFileRealm) : bytes :=
  kdm_wire (fr_realm r) ++ varint_wire (fr_num r) ++ fr_hsh r.

Lemma kdm_enc k : kdm_ok k → encodes (cEncode kdmCodec k) (kdm_wire k).
Proof. apply lawful_enc. Qed.
Lemma kdm_dec k : kdm_ok k → decodes (cDecode kdmCodec) (kdm_wire k) k.
Proof. apply (lawful_dec (norm := id)). Qed.
#[export] Hint Resolve kdm_enc kdm_dec : codec.

#[export] Instance fileRealm_lawful : Lawful fileRealmCodec fileRealm_ok id fileRealm_wire.
Proof.
  split; intros [k n h] (H1 & H2 & H3 & H4); cbn [fr_realm fr_num fr_hsh] in *.
  - cbn -[kdmCodec]. apply encodes_guard; [by apply Z.leb_le|]. enc_steps.
  - cbn -[kdmCodec]. eapply decodes_bind; [eauto with codec|].
    eapply decodes_bind; [eauto with codec|].
    cbn [fr_realm fr_num fr_hsh]. rewrite (proj2 (Z.ltb_ge _ _)) by lia. dec_steps.
  - unfold fileRealm_wire. simpl. eauto with codec.
Qed.

Definition realms_ok (rs : list IFileRealm) : Prop := count_ok rs ∧ Forall fileRealm_ok rs.

Lemma writeRealms_encodes rs :
  realms_ok rs → encodes (writeRealms rs) (counted_wire fileRealm_wire rs).
Proof.
  intros [Hc Hf]. apply encodes_bind.
  - apply encodes_writeVarInt. by apply count_varnum.
  - by apply (encodes_items fileRealmCodec fileRealm_ok id _).
Qed.

Lemma readRealms_decodes rs :
  realms_ok rs → decodes readRealms (counted_wire fileRealm_wire rs) rs.
Proof.
  intros [Hc Hf]. unfold readRealms. eapply decodes_bind.
  { apply decodes_readVarInt. by apply count_varnum. }
  intros pre rest. unfold mbind at 1, M_bind, m_bind, m_get. cbn [data pos].
  pose proof (items_len fileRealmCodec fileRealm_ok id fileRealm_wire rs Hf) as Hl.
  unfold dec_remaining. cbn [data pos]. rewrite !blen_app.
  pose proof (blen_nonneg rest).
  rewrite (proj2 (Z.ltb_ge _ 0)), (proj2 (Z.ltb_ge _ _)) by lia. cbn [orb].
  rewrite Nat2Z.id.
  pose proof (decodes_items fileRealmCodec fileRealm_ok id fileRealm_wire rs Hf pre rest) as Hd.
  rewrite list_fmap_id in Hd. exact Hd.
Qed.

Definition fileHead_ok (h : IFileHead) : Prop :=
  blen (fh_nonce h) = hashBytes ∧ realms_ok (fh_realms h) ∧
  blen (fh_hsh h) = hshBytes ∧ blen (fh_sig h) = sigBytes.
Definition fileHead_wire (h : IFileHead) : bytes :=
  fh_nonce h ++ counted_wire fileRealm_wire (fh_realms h) ++ fh_hsh h ++ fh_sig h.

#[export] Hint Resolve writeRealms_encodes readRealms_decodes : codec.

#[export] Instance fileHead_lawful : Lawful fileHeadCodec fileHead_ok id fileHead_wire.
Proof.
  split; intros [n r h s] (H1 & H2 & H3 & H4); cbn in *;
    [enc_steps|dec_steps|unfold fileHead_wire; eauto with codec].
Qed.

(** The preimage the file hash covers is the head of the header. *)
Lemma fileHeadPreimage_wire nonce rs :
  blen nonce = hashBytes → realms_ok rs →
  fileHeadPreimage nonce rs = Ok (nonce ++ counted_wire fileRealm_wire rs).
Proof.
  intros Hn Hr. unfold fileHeadPreimage. rewrite Hn.
  apply encodes_run. enc_steps.
Qed.

Definition fileIndexItem_ok (i : IFileIndexItem) : Prop :=
  blen (fi_kdm i) = kdmBytes ∧ bytes_ok (fi_headCph i) ∧ varnum_ok (fi_lenBody i).
Definition fileIndexItem_wire (i : IFileIndexItem) : bytes :=
  fi_kdm i ++ varbytes_wire (fi_headCph i) ++ varint_wire (fi_lenBody i).

#[export] Instance fileIndexItem_lawful :
  Lawful fileIndexItemCodec fileIndexItem_ok id fileIndexItem_wire.
Proof.
  split; intros [k h l] (H1 & H2 & H3); cbn in *;
    [enc_steps|dec_steps|unfold fileIndexItem_wire; eauto with codec].
Qed.

Definition minHead_ok (m : IMinimalMessageHead) : Prop :=
  bytes_ok (mm_eid m) ∧ is_ok (run_dec (cDecode eidCodec) (mm_eid m)) = true ∧
  (∃ o, mm_off m = Some o ∧ varnum_ok o) ∧ varnum_ok (mm_ctr m).

Definition num_wire (n : num) : bytes :=
  match n with Some z => varint_wire z | None => [] end.

Definition minHead_wire (m : IMinimalMessageHead) : bytes :=
  varbytes_wire (mm_eid m) ++ num_wire (mm_off m) ++ varint_wire (mm_ctr m).

Lemma encodes_writeVarNum o : varnum_ok o → encodes (writeVarNum (Some o)) (varint_wire o).
Proof. apply encodes_writeVarInt. Qed.
#[export] Hint Resolve encodes_writeVarNum : codec.

Lemma eid_check eid :
  is_ok (run_dec (cDecode eidCodec) eid) = true →
  ∃ e, run_dec (cDecode eidCodec) eid = Ok e.
Proof. destruct (run_dec _ _); [eauto|done..]. Qed.

#[export] Instance minHead_lawful :
  Lawful minimalMessageHeadCodec minHead_ok id minHead_wire.
Proof.
  split; intros [e o c] (H1 & H2 & (o' & H3 & H4) & H5);
    cbn [mm_eid mm_off mm_ctr] in *; subst o.
  - simpl. enc_steps.
  - apply eid_check in H2 as [e' He]. cbn -[eidCodec]. unfold minHead_wire.
    cbn [mm_eid mm_off mm_ctr num_wire]. dec_steps.
  - unfold minHead_wire. simpl. eauto with codec.
Qed.

Definition head_ok (h : IMessageHead) : Prop :=
  string_ok (default [] (mh_typ h)) ∧ bytes_ok (mh_eid h) ∧
  is_ok (run_dec (cDecode eidCodec) (mh_eid h)) = true ∧
  (∃ o, mh_off h = Some o ∧ varnum_ok o) ∧
  varnum_ok (mh_ctr h) ∧ varnum_ok (mh_len h) ∧
  (if 0 <? mh_len h then ∃ hsh, mh_hsh h = Some hsh ∧ blen hsh = hshBytes
   else mh_hsh h = None).
Definition head_norm (h : IMessageHead) : IMessageHead :=
  mkHead (Some (default [] (mh_typ h))) (mh_eid h) (mh_off h) (mh_ctr h)
    (mh_len h) (mh_hsh h).
Definition head_wire (h : IMessageHead) : bytes :=
  varstring_wire (default [] (mh_typ h)) ++ varbytes_wire (mh_eid h) ++
  num_wire (mh_off h) ++ varint_wire (mh_ctr h) ++ varint_wire (mh_len h) ++
  default [] (mh_hsh h).

#[export] Instance head_lawful : Lawful messageHeadCodec head_ok head_norm head_wire.
Proof.
  split; intros [t e o c l h] (H1 & H2 & H3 & (o' & H4 & H5) & H6 & H7 & H8);
    cbn [mh_typ mh_eid mh_off mh_ctr mh_len mh_hsh] in *; subst o.
  - simpl. enc_steps.
    destruct (0 <? l); [destruct H8 as (hs & -> & _)|subst h]; simpl; eauto with codec.
  - apply eid_check in H3 as [e' He]. cbn -[eidCodec]. unfold head_wire, head_norm.
    cbn [mh_typ mh_eid mh_off mh_ctr mh_len mh_hsh num_wire].
    eapply decodes_bind; [eauto with codec|]. eapply decodes_bind; [eauto with codec|].
    eapply decodes_bind0; [eauto with codec|].
    do 3 (eapply decodes_bind; [eauto with codec|]). cbv beta.
    destruct (0 <? l); [destruct H8 as (hs & -> & Hh)|subst h]; simpl; dec_steps.
  - unfold head_wire. simpl. eauto with codec.
Qed.

Definition notif_ok (n : IBagNotifItem) : Prop :=
  varnum_ok (ni_seq n) ∧ blen (ni_rlm n) = hashBytes ∧ bytes_ok (ni_headCph n) ∧
  bytes_ok (default [] (ni_bodyCph n)).
(** An empty inline body reads back as no inline body. *)
Definition notif_norm (n : IBagNotifItem) : IBagNotifItem :=
  mkNotif (ni_seq n) (ni_rlm n) (ni_headCph n)
    (if 0 <? blen (default [] (ni_bodyCph n)) then ni_bodyCph n else None).
Definition notif_wire (n : IBagNotifItem) : bytes :=
  varint_wire (ni_seq n) ++ ni_rlm n ++ varbytes_wire (ni_headCph n) ++
  varbytes_wire (default [] (ni_bodyCph n)).

Lemma bytes_ok_varnum bs : bytes_ok bs → varnum_ok (blen bs).
Proof.
  intros H. apply varnum_ok_len. unfold bytes_ok in H.
  pose proof (blen_nonneg bs). lia.
Qed.
#[export] Hint Resolve bytes_ok_varnum : codec.

Lemma blen_0_nil bs : blen bs <= 0 → bs = [].
Proof. destruct bs; [done|]. rewrite blen_cons. pose proof (blen_nonneg bs). lia. Qed.

#[export] Instance notif_lawful : Lawful notifItemCodec notif_ok notif_norm notif_wire.
Proof.
  split; intros [s r h b] (H1 & H2 & H3 & H4);
    cbn [ni_seq ni_rlm ni_headCph ni_bodyCph] in *.
  - unfold notif_wire, varbytes_wire at 2. simpl.
    assert (Hb : match b with Some b0 => blen b0 | None => 0 end = blen (default [] b))
      by by destruct b.
    rewrite Hb. enc_steps.
    destruct (Z.ltb_spec 0 (blen (default [] b))) as [H|H].
    + destruct b as [b|]; [eauto with codec|done].
    + rewrite (blen_0_nil _ H). eauto with codec.
  - unfold notif_wire, notif_norm, varbytes_wire at 2. simpl.
    eapply decodes_bind; [eauto with codec|]. eapply decodes_bind; [eauto with codec|].
    eapply decodes_bind0; [eauto with codec|].
    eapply decodes_bind; [eauto with codec|]. eapply decodes_bind; [eauto with codec|].
    cbv beta. destruct (Z.ltb_spec 0 (blen (default [] b))) as [Hb|Hb].
    + destruct b as [b|]; [|done]. simpl in *. dec_steps.
    + rewrite (blen_0_nil _ Hb). eauto with codec.
  - unfold notif_wire. simpl. eauto with codec.
Qed.

Definition peekItem_ok (i : IBagPeekItem) : Prop :=
  varnum_ok (pk_seq i) ∧ bytes_ok (pk_headCph i).
Definition peekItem_wire (i : IBagPeekItem) : bytes :=
  varbytes_wire (pk_headCph i) ++ varint_wire (pk_seq i).

#[export] Instance peekItem_lawful : Lawful peekItemCodec peekItem_ok id peekItem_wire.
Proof.
  split; intros [s h] (H1 & H2); cbn in *;
    [enc_steps|dec_steps|unfold peekItem_wire; eauto with codec].
Qed.

Definition peekItemHead_ok (i : IBagPeekItemHead) : Prop :=
  blen (ph_sig i) = sigBytes ∧ blen (ph_kdm i) = kdmBytes ∧ bytes_ok (ph_headCph i).
Definition peekItemHead_wire (i : IBagPeekItemHead) : bytes :=
  ph_sig i ++ ph_kdm i ++ varbytes_wire (ph_headCph i).

#[export] Instance peekItemHead_lawful :
  Lawful peekItemHeadCodec peekItemHead_ok id peekItemHead_wire.
Proof.
  split; intros [s k h] (H1 & H2 & H3); cbn in *;
    [enc_steps|dec_steps|unfold peekItemHead_wire; eauto with codec].
Qed.

Definition pullItem_ok (i : IBagPullItem) : Prop :=
  varnum_ok (pl_seq i) ∧ bytes_ok (pl_bodyCph i).
Definition pullItem_wire (i : IBagPullItem) : bytes :=
  varint_wire (pl_seq i) ++ varbytes_wire (pl_bodyCph i).

#[export] Instance pullItem_lawful : Lawful pullItemCodec pullItem_ok id pullItem_wire.
Proof.
  split; intros [s h] (H1 & H2); cbn in *;
    [enc_steps|dec_steps|unfold pullItem_wire; eauto with codec].
Qed.

(** Statuses that survive the one-byte cast. *)
Definition status_ok (s : Status) : Prop :=
  status_of_code (status_code s mod 256) = s.
Definition pushItem_ok (i : IBagPushItem) : Prop :=
  match i with
  | PushStored idx seq => varnum_ok idx ∧ varnum_ok seq
  | PushFailed idx st => varnum_ok idx ∧ status_ok st ∧ st ≠ Success
  end.
Definition status_wire (s : Status) : bytes := [Zbyte (status_code s)].
Definition pushItem_wire (i : IBagPushItem) : bytes :=
  match i with
  | PushStored idx seq => varint_wire idx ++ status_wire Success ++ varint_wire seq
  | PushFailed idx st => varint_wire idx ++ status_wire st
  end.

Lemma status_wire_read s :
  status_ok s → status_of_code (byteZ (byte0 (status_wire s))) = s.
Proof. intros H. cbn. by rewrite byteZ_Zbyte. Qed.

Lemma blen_status_wire s : blen (status_wire s) = 1.
Proof. done. Qed.
#[export] Hint Resolve blen_status_wire : codec.

Lemma encodes_status s : encodes (writeBytes [Zbyte (status_code s)]) (status_wire s).
Proof. apply encodes_writeBytes. Qed.
Lemma decodes_status s : decodes (readBytes 1) (status_wire s) (status_wire s).
Proof. by apply decodes_readBytes. Qed.
#[export] Hint Resolve encodes_status decodes_status : codec.

#[export] Instance pushItem_lawful : Lawful pushItemCodec pushItem_ok id pushItem_wire.
Proof.
  split; intros [i s|i st]; cbn [pushItem_ok].
  - intros (H1 & H2). cbn -[status_code app]. unfold pushItem_wire. enc_steps.
  - intros (H1 & H2 & H3). cbn -[status_code app]. unfold pushItem_wire. rewrite <-(app_nil_r (status_wire st)). enc_steps.
  - intros (H1 & H2). cbn -[app status_wire status_of_code].
    eapply decodes_bind; [eauto with codec|]. eapply decodes_bind; [eauto with codec|].
    cbv beta. rewrite status_wire_read by done. dec_steps.
  - intros (H1 & H2 & H3). cbn -[app status_wire status_of_code].
    eapply decodes_bind; [eauto with codec|]. eapply decodes_last; [eauto with codec|].
    cbv beta. rewrite status_wire_read by done.
    rewrite bool_decide_false by done. cbn [negb]. dec_steps.
  - intros (H1 & H2). simpl. eauto with codec.
  - intros (H1 & H2 & H3). simpl. eauto with codec.
Qed.

Definition quota_ok (q : IUsageQuota) : Prop :=
  varnum_ok (uq_quota q) ∧
  (0 < uq_quota q → ∃ u, uq_usage q = Some u ∧ varnum_ok u).
(** No usage travels with a zero quota. *)
Definition quota_norm (q : IUsageQuota) : IUsageQuota :=
  mkQuota (uq_quota q) (if 0 <? uq_quota q then uq_usage q else None).
Definition quota_wire (q : IUsageQuota) : bytes :=
  varint_wire (uq_quota q) ++
  (if 0 <? uq_quota q then num_wire (uq_usage q) else []).

#[export] Instance quota_lawful : Lawful usageQuotaCodec quota_ok quota_norm quota_wire.
Proof.
  split; intros [q u] (H1 & H2); cbn [uq_quota uq_usage] in *;
    unfold quota_wire, quota_norm; cbn [uq_quota uq_usage].
  - simpl. apply encodes_bind; [eauto with codec|].
    destruct (Z.ltb_spec 0 q) as [Hq|Hq]; [|eauto with codec].
    destruct (H2 Hq) as (u' & -> & Hu). eauto with codec.
  - simpl. eapply decodes_bind; [eauto with codec|]. cbv beta.
    destruct (Z.ltb_spec 0 q) as [Hq|Hq]; [|eauto with codec].
    destruct (H2 Hq) as (u' & -> & Hu). simpl. dec_steps.
  - eauto with codec.
Qed.

Lemma quota_enc q : quota_ok q → encodes (cEncode usageQuotaCodec q) (quota_wire q).
Proof. apply lawful_enc. Qed.
Lemma quota_dec q : quota_ok q → decodes (cDecode usageQuotaCodec) (quota_wire q) (quota_norm q).
Proof. apply lawful_dec. Qed.
#[export] Hint Resolve quota_enc quota_dec : codec.

Definition sub_ok (s : ISubscriptionMetadata) : Prop :=
  varnum_ok (sm_term s) ∧ varnum_ok (sm_elapsed s) ∧
  quota_ok (sm_stat s) ∧ quota_ok (sm_dyn s).
Definition respHead_ok (h : IRespHead) : Prop :=
  status_ok (rh_status h) ∧ date_ok (rh_timeRcvd h) ∧ date_ok (rh_timeSent h) ∧
  sub_ok (rh_subscription h).
Definition sub_norm (s : ISubscriptionMetadata) : ISubscriptionMetadata :=
  mkSubMeta (sm_term s) (sm_elapsed s) (quota_norm (sm_stat s)) (quota_norm (sm_dyn s)).
Definition respHead_norm (h : IRespHead) : IRespHead :=
  mkRespHead (rh_status h) (rh_timeRcvd h) (rh_timeSent h) (sub_norm (rh_subscription h)).
Definition respHead_wire (h : IRespHead) : bytes :=
  status_wire (rh_status h) ++ date_wire (rh_timeRcvd h) ++ date_wire (rh_timeSent h) ++
  varint_wire (sm_term (rh_subscription h)) ++ varint_wire (sm_elapsed (rh_subscription h)) ++
  quota_wire (sm_stat (rh_subscription h)) ++ quota_wire (sm_dyn (rh_subscription h)).

#[export] Instance respHead_lawful :
  Lawful respHeadCodec respHead_ok respHead_norm respHead_wire.
Proof.
  split; intros [s r t [te el st dy]] (H1 & H2 & H3 & H4 & H5 & H6 & H7);
    cbn [rh_status rh_timeRcvd rh_timeSent rh_subscription sm_term sm_elapsed sm_stat sm_dyn] in *.
  - cbn -[usageQuotaCodec app status_code]. unfold writeStruct, respHead_wire. enc_steps.
  - cbn -[usageQuotaCodec app status_wire status_of_code]. unfold readStruct, respHead_wire.
    eapply decodes_bind; [eauto with codec|]. cbv beta zeta.
    rewrite status_wire_read by done.
    cbn [rh_status rh_timeRcvd rh_timeSent rh_subscription sm_term sm_elapsed sm_stat sm_dyn].
    dec_steps.
  - unfold respHead_wire. apply blen_pos_app_l. done.
Qed.

Definition peekCursor_ok (c : IPeekCursor) : Prop :=
  blen (pc_rlm c) = hashBytes ∧ varnum_ok (pc_seq c).
Definition peekCursor_wire (c : IPeekCursor) : bytes := pc_rlm c ++ varint_wire (pc_seq c).

#[export] Instance peekCursor_lawful :
  Lawful peekCursorCodec peekCursor_ok id peekCursor_wire.
Proof.
  split; intros [r s] (H1 & H2); cbn in *;
    [enc_steps|dec_steps|unfold peekCursor_wire; eauto with codec].
Qed.

(** ** Entity bodies *)

Definition pid_ok (p : bytes) : Prop := bytes_ok p ∧ ∃ e, eid_ok e ∧ p = eid_wire e.

Definition tags_ok (ts : list jsstr) : Prop := count_ok ts ∧ Forall string_ok ts.

Definition ent_ok (e : IMsgEntBody) : Prop :=
  (∀ p, ent_pid e = Some p → pid_ok p) ∧ tags_ok (default [] (ent_tags e)).

(** An empty tag list and an empty body read back as absent. *)
Definition nonempty {A} (o : option (list A)) : option (list A) :=
  match o with Some [] => None | _ => o end.
Definition ent_norm (e : IMsgEntBody) : IMsgEntBody :=
  mkEnt (ent_pid e) (nonempty (ent_tags e)) (nonempty (ent_body e)).

Definition ent_wire (e : IMsgEntBody) : bytes :=
  varbytes_wire (default [] (ent_pid e)) ++
  counted_wire varstring_wire (default [] (ent_tags e)) ++
  default [] (ent_body e).

Lemma makeEID_wire e : eid_ok e → makeEID e = Ok (eid_wire e).
Proof. intros H. by apply encodes_run, (lawful_enc (ok := eid_ok)). Qed.

Lemma eid_run e : eid_ok e → run_dec (cDecode eidCodec) (eid_wire e) = Ok e.
Proof. intros H. by apply decodes_run, (lawful_dec (norm := id) (ok := eid_ok)). Qed.

Lemma eid_wire_pos e : eid_ok e → 0 < blen (eid_wire e).
Proof. apply lawful_len. Qed.

(** Reading the bytes of an encoded entity id, alone, reads all of them. *)
Lemma eid_struct_run e :
  eid_ok e →
  readStruct eidCodec (newDecoder (eid_wire e)) =
    (Ok e, mkDec (eid_wire e) (blen (eid_wire e))).
Proof.
  intros H. pose proof (lawful_dec (norm := id) (ok := eid_ok) e H [] []) as Hd.
  by rewrite app_nil_r in Hd.
Qed.

Lemma writeVarStrings_encodes ts :
  tags_ok ts → encodes (writeVarStrings ts) (counted_wire varstring_wire ts).
Proof.
  intros [Hc Hf]. unfold writeVarStrings, counted_wire.
  apply encodes_bind; [apply encodes_writeVarInt; by apply count_varnum|].
  apply encodes_forM. clear Hc. induction Hf; constructor; eauto with codec.
Qed.

Lemma varstrings_len ts :
  Forall string_ok ts → Z.of_nat (length ts) <= blen (concat (varstring_wire <$> ts)).
Proof.
  induction 1 as [|t ts Ht _ IH]; [done|]. cbn [fmap list_fmap concat length].
  rewrite blen_app. pose proof (varstring_wire_pos t Ht). lia.
Qed.

Lemma readVarStrings_decodes ts :
  tags_ok ts → decodes readVarStrings (counted_wire varstring_wire ts) ts.
Proof.
  intros [Hc Hf]. unfold readVarStrings. eapply decodes_bind.
  { apply decodes_readVarInt. by apply count_varnum. }
  intros pre rest. unfold mbind at 1, M_bind, m_bind, m_get. cbn [data pos].
  pose proof (varstrings_len ts Hf). pose proof (blen_nonneg rest).
  unfold dec_remaining. cbn [data pos]. rewrite !blen_app.
  rewrite (proj2 (Z.ltb_ge _ 0)), (proj2 (Z.ltb_ge _ _)) by lia. cbn [orb].
  rewrite Nat2Z.id.
  assert (Hd : decodes (m_times (length ts) readVarString)
                 (concat (varstring_wire <$> ts)) ts).
  { apply decodes_times. clear -Hf. induction Hf; constructor; eauto with codec. }
  exact (Hd pre rest).
Qed.

#[export] Hint Resolve writeVarStrings_encodes readVarStrings_decodes : codec.

Lemma readRest_decodes_end bs : decodes_end readRest bs bs.
Proof.
  intros pre. unfold readRest. cbn [data pos]. unfold blen at 1.
  rewrite Nat2Z.id, drop_app_length, blen_app. done.
Qed.

Lemma decodes_end_ret {A B} (m : DecM A) (f : A → B) bs a :
  decodes_end m bs a → decodes_end (x ← m; mret (f x)) bs (f a).
Proof. intros H pre. unfold mbind, M_bind, m_bind. by rewrite H. Qed.

Lemma ent_encodes e : ent_ok e → encodes (cEncode entCodec e) (ent_wire e).
Proof.
  destruct e as [p t b]. intros [Hp Ht]. cbn [ent_pid ent_tags ent_body] in *.
  simpl. apply encodes_bind.
  - apply encodes_writeVarBytes. destruct p as [p|]; [by apply (Hp p)|done].
  - apply encodes_bind; [eauto with codec|].
    destruct b as [b|]; [|apply encodes_ret]. simpl.
    destruct (Z.ltb_spec 0 (blen b)) as [Hb|Hb]; [eauto with codec|].
    rewrite (blen_0_nil _ Hb). eauto with codec.
Qed.

Lemma pos_nonempty {A} (o : option (list A)) :
  (if 0 <? Z.of_nat (length (default [] o)) then Some (default [] o) else None) = nonempty o.
Proof. by destruct o as [[|]|]. Qed.

Lemma ent_decodes_end e :
  ent_ok e → decodes_end (cDecode entCodec) (ent_wire e) (ent_norm e).
Proof.
  destruct e as [p t b]. intros [Hp Ht]. cbn [ent_pid ent_tags ent_body] in *.
  unfold ent_wire, ent_norm. cbn [ent_pid ent_tags ent_body].
  cbn -[eidCodec readStruct]. eapply decodes_bind_end.
  { apply decodes_readVarBytes. destruct p as [p|]; [by apply (Hp p)|done]. }
  cbv beta. rewrite <-(app_nil_l (counted_wire _ _ ++ _)).
  apply (decodes_bind_end _ _ _ _ p).
  - destruct p as [p|]; [|apply decodes_ret]. destruct (Hp p eq_refl) as (_ & e & He & ->).
    cbn [default from_option id].
    rewrite (proj2 (Z.ltb_lt _ _)) by by apply eid_wire_pos.
    rewrite eid_struct_run by done. unfold dec_done at 1. cbn [data pos].
    rewrite Z.leb_refl. cbn [negb]. rewrite makeEID_wire by done. dec_steps.
  - eapply decodes_bind_end; [by apply readVarStrings_decodes|]. cbv beta.
    rewrite <-!pos_nonempty.
    apply (decodes_end_ret readRest (λ rest, mkEnt p _ _)), readRest_decodes_end.
Qed.

Lemma encodeEnt_wire e : ent_ok e → encodeEnt e = Ok (ent_wire e).
Proof. intros H. by apply encodes_run, ent_encodes. Qed.

(** ** Requests *)

Definition pullReq_ok (r : IPullReq) : Prop :=
  blen (pr_rlm r) = hashBytes ∧ Forall varnum_ok (pr_seqs r).
Definition pullReq_wire (r : IPullReq) : bytes :=
  pr_rlm r ++ concat (varint_wire <$> pr_seqs r).

Lemma varints_Forall2 ns :
  Forall varnum_ok ns →
  Forall2 (λ n b, decodes readVarInt b n ∧ 0 < blen b) ns (varint_wire <$> ns).
Proof. induction 1; constructor; eauto with codec. Qed.

Lemma pullReq_encodes r : pullReq_ok r → encodes (cEncode pullReqCodec r) (pullReq_wire r).
Proof.
  destruct r as [rlm ns]. intros [Hr Hn]. cbn [pr_rlm pr_seqs] in *. simpl.
  apply encodes_guard; [by apply Z.eqb_eq|]. apply encodes_bind; [eauto with codec|].
  apply encodes_forM. cbn [pr_seqs]. induction Hn; constructor; eauto with codec.
Qed.

Lemma pullReq_decodes_end r :
  pullReq_ok r → decodes_end (cDecode pullReqCodec) (pullReq_wire r) r.
Proof.
  destruct r as [rlm ns]. intros [Hr Hn]. cbn [pr_rlm pr_seqs] in *.
  unfold pullReq_wire. simpl. eapply decodes_bind_end; [by apply decodes_readBytes|].
  cbv beta. rewrite <-(app_nil_l (concat _)).
  eapply decodes_bind_end; [by apply decodes_lift, asHostRlm_ok|]. cbv beta.
  apply (decodes_end_ret _ (λ seqs, mkPullReq rlm seqs)).
  intros pre. unfold dec_until_done. apply decodes_while; [by apply varints_Forall2|].
  unfold dec_remaining. cbn [data pos].
  pose proof (Forall2_len_concat _ _ _ (varints_Forall2 ns Hn)).
  rewrite blen_app. unfold blen. lia.
Qed.

Lemma pushReq_decodes_end bags :
  Forall bag_ok bags →
  decodes_end (cDecode pushReqCodec) (concat (bag_wire <$> bags)) bags.
Proof.
  intros H. pose proof (readStructs_decodes_end bagCodec bag_ok id bag_wire bags H) as Hd.
  by rewrite list_fmap_id in Hd.
Qed.

(** ** Files *)

Definition file_ok (f : IFile) : Prop := fileHead_ok (file_head f).

Lemma file_encodes f :
  file_ok f → encodes (cEncode fileCodec f) (fileHead_wire (file_head f) ++ file_chunks f).
Proof.
  intros H. destruct f as [h c]. cbn [file_head file_chunks] in *.
  cbn -[fileHeadCodec]. apply encodes_bind; [by apply lawful_enc|eauto with codec].
Qed.

Lemma file_decodes_end f :
  file_ok f →
  decodes_end (cDecode fileCodec) (fileHead_wire (file_head f) ++ file_chunks f) f.
Proof.
  intros H. destruct f as [h c]. cbn [file_head file_chunks] in *.
  cbn -[fileHeadCodec]. eapply decodes_bind_end.
  - by apply (lawful_dec (norm := id) (ok := fileHead_ok)).
  - cbv beta. apply (decodes_end_ret readRest (mkFile h)), readRest_decodes_end.
Qed.

(** ** Decoders on arbitrary input

    Every request and storage decoder stays inside its buffer and, whatever
    the bytes, returns a value or a [Status]: none raises.  ([entCodec] is the
    exception; see [entCodec_throws].) *)

Definition dec_total {A} (m : DecM A) : Prop := dec_safe m ∧ no_throw m.

Lemma no_throw_lift {A} (r : Res A) : r ≠ Throw → no_throw (m_lift r).
Proof. intros H d Hd. done. Qed.

Lemma asHostRlm_total raw : asHostRlm raw ≠ Throw.
Proof. unfold asHostRlm, asChildKey. by case_match. Qed.

#[export] Hint Extern 2 (no_throw (m_lift _)) =>
  apply no_throw_lift; solve [eauto with codec] : codec.
#[export] Hint Resolve asHostRlm_total : codec.

Ltac total_tac :=
  split; [cbn -[m_lift]; dec_safe_walk|cbn -[m_lift]; no_throw_walk].

Lemma eid_total : dec_total (cDecode eidCodec).
Proof. total_tac. Qed.
Lemma kdm_total : dec_total (cDecode kdmCodec).
Proof. total_tac. Qed.
Lemma authTS_total : dec_total (cDecode authTimestampCodec).
Proof. total_tac. Qed.
Lemma bag_total : dec_total (cDecode bagCodec).
Proof. total_tac. Qed.
Lemma bundleHost_total : dec_total (cDecode bundleHostCodec).
Proof. total_tac. Qed.
Lemma notif_total : dec_total (cDecode notifItemCodec).
Proof. total_tac. Qed.
Lemma peekItem_total : dec_total (cDecode peekItemCodec).
Proof. total_tac. Qed.
Lemma peekItemHead_total : dec_total (cDecode peekItemHeadCodec).
Proof. total_tac. Qed.
Lemma pullItem_total : dec_total (cDecode pullItemCodec).
Proof. total_tac. Qed.
Lemma pushItem_total : dec_total (cDecode pushItemCodec).
Proof. total_tac. Qed.
Lemma quota_total : dec_total (cDecode usageQuotaCodec).
Proof. total_tac. Qed.
Lemma peekCursor_total : dec_total (cDecode peekCursorCodec).
Proof. total_tac. Qed.
Lemma fileIndexItem_total : dec_total (cDecode fileIndexItemCodec).
Proof. total_tac. Qed.

Lemma run_dec_total {A} (m : DecM A) bs : no_throw m → run_dec m bs ≠ Throw.
Proof.
  intros H. apply H. unfold dec_wf. cbn. pose proof (blen_nonneg bs). lia.
Qed.

Lemma eid_run_total bs : run_dec (cDecode eidCodec) bs ≠ Throw.
Proof. apply run_dec_total, eid_total. Qed.
#[export] Hint Resolve eid_run_total : codec.

Lemma dec_safe_total {A} (m : DecM A) : dec_total m → dec_safe m.
Proof. by intros []. Qed.
Lemma no_throw_total {A} (m : DecM A) : dec_total m → no_throw m.
Proof. by intros []. Qed.

#[export] Hint Resolve dec_safe_total no_throw_total : codec.
#[export] Hint Resolve eid_total kdm_total bag_total bundleHost_total quota_total
  peekItem_total peekItemHead_total pullItem_total pushItem_total
  peekCursor_total authTS_total notif_total : codec.

Lemma minHead_total : dec_total (cDecode minimalMessageHeadCodec).
Proof. split; cbn -[m_lift eidCodec]; [dec_safe_walk|no_throw_walk]. Qed.
Lemma head_total : dec_total (cDecode messageHeadCodec).
Proof. split; cbn -[m_lift eidCodec]; [dec_safe_walk|no_throw_walk]. Qed.
Lemma fileRealm_total : dec_total (cDecode fileRealmCodec).
Proof. split; cbn -[kdmCodec]; [dec_safe_walk|no_throw_walk]. Qed.
#[export] Hint Resolve minHead_total head_total fileRealm_total : codec.

Lemma readRealms_total : dec_total readRealms.
Proof. split; unfold readRealms; [dec_safe_walk|no_throw_walk]. Qed.
#[export] Hint Resolve readRealms_total : codec.

Lemma fileHead_total : dec_total (cDecode fileHeadCodec).
Proof. split; cbn -[readRealms]; [dec_safe_walk|no_throw_walk]. Qed.
Lemma identityHosts_total : dec_total (cDecode identityHostsCodec).
Proof.
  split; cbn -[bundleHostCodec]; unfold readStruct; [dec_safe_walk|no_throw_walk].
Qed.
Lemma respHead_total : dec_total (cDecode respHeadCodec).
Proof.
  split; cbn -[usageQuotaCodec status_of_code]; unfold readStruct;
    [dec_safe_walk|no_throw_walk].
Qed.
#[export] Hint Resolve fileHead_total identityHosts_total respHead_total : codec.

(** Item decoders consume input whenever they succeed, so the loops that read
    them to the end of a body terminate. *)
Ltac consumes_first := apply dec_consumes_bind_l; [dec_safe_walk| |intros; dec_safe_walk].

Lemma consumes_readVarBytes : dec_consumes readVarBytes.
Proof. unfold readVarBytes. consumes_first. apply dec_consumes_readVarInt. Qed.

Lemma bag_consumes : dec_consumes (cDecode bagCodec).
Proof. cbn -[m_lift]. consumes_first. by apply dec_consumes_readBytes. Qed.
Lemma peekItem_consumes : dec_consumes (cDecode peekItemCodec).
Proof. cbn -[m_lift]. consumes_first. apply consumes_readVarBytes. Qed.
Lemma peekItemHead_consumes : dec_consumes (cDecode peekItemHeadCodec).
Proof. cbn -[m_lift]. consumes_first. by apply dec_consumes_readBytes. Qed.
Lemma pullItem_consumes : dec_consumes (cDecode pullItemCodec).
Proof. cbn -[m_lift]. consumes_first. apply dec_consumes_readVarInt. Qed.
Lemma pushItem_consumes : dec_consumes (cDecode pushItemCodec).
Proof.
  cbn -[m_lift status_of_code]. consumes_first. apply dec_consumes_readVarInt.
Qed.
Lemma notif_consumes : dec_consumes (cDecode notifItemCodec).
Proof. cbn -[m_lift]. consumes_first. apply dec_consumes_readVarInt. Qed.
Lemma peekCursor_consumes : dec_consumes (cDecode peekCursorCodec).
Proof. cbn -[m_lift]. consumes_first. by apply dec_consumes_readBytes. Qed.

Lemma structs_total {A} (c : ICodecStruct A) :
  dec_total (cDecode c) → dec_consumes (cDecode c) → dec_total (readStructs c).
Proof.
  intros [Hs Ht] Hc. split; unfold readStructs, readStruct; [eauto with codec|].
  by apply no_throw_until_done.
Qed.

Lemma pushReq_total : dec_total (cDecode pushReqCodec).
Proof. apply structs_total; [apply bag_total|apply bag_consumes]. Qed.

Lemma pullReq_total : dec_total (cDecode pullReqCodec).
Proof.
  pose proof (no_throw_until_done readVarInt dec_safe_readVarInt
    dec_consumes_readVarInt no_throw_readVarInt).
  total_tac.
Qed.

(** An entity body whose parent id carries a timestamp past the [Date] range
    makes [entCodec.decode] raise a [RangeError] (the parsed date is invalid,
    and re-encoding it is [BigInt(NaN)]) where every other malformed parent id
    is an [Err]. *)
Definition ent_bad_pid : bytes :=
  let pid := x00 :: varint_wire (2 ^ 53) in varbytes_wire pid ++ [x00].

Lemma ent_bad_pid_throws : run_dec (cDecode entCodec) ent_bad_pid = Throw.
Proof. vm_compute. reflexivity. Qed.
