(* ===== verification/Js.v ===== *)
(** * JavaScript collections

    [Map] as an insertion-ordered association list, [Set] as an
    insertion-ordered list without duplicates, and the stable
    [Array.prototype.sort].  Every component that keeps a [Map], a [Set] or
    sorts is stated on these. *)
From S2P Require Export Status.
From stdpp Require Import sorting.

#[local] Open Scope Z_scope.

(** ** [Map<K, V>] *)

Definition jsmap (K V : Type) : Type := list (K * V).

Section jsmap.
Context {K V : Type} `{EqDecision K}.
Implicit Types m : jsmap K V.

Fixpoint map_get (k : K) m : option V :=
  match m with
  | [] => None
  | (k', v) :: m => if decide (k = k') then Some v else map_get k m
  end.

Definition map_has (k : K) m : bool := bool_decide (is_Some (map_get k m)).

(** A key already present keeps its place; a new one goes last. *)
Fixpoint map_set (k : K) (v : V) m : jsmap K V :=
  match m with
  | [] => [(k, v)]
  | (k', v') :: m =>
      if decide (k = k') then (k', v) :: m else (k', v') :: map_set k v m
  end.

Fixpoint map_delete (k : K) m : jsmap K V :=
  match m with
  | [] => []
  | (k', v') :: m => if decide (k = k') then m else (k', v') :: map_delete k m
  end.

Definition map_keys m : list K := m.*1.
Definition map_values m : list V := m.*2.

Definition map_wf m : Prop := NoDup (map_keys m).

Lemma map_get_set k k' v m :
  map_get k' (map_set k v m) = if decide (k' = k) then Some v else map_get k' m.
Proof.
  induction m as [|[k0 v0] m IH]; simpl.
  - done.
  - repeat (case_decide; subst; simpl; try congruence).
Qed.

Lemma map_get_set_eq k v m : map_get k (map_set k v m) = Some v.
Proof. rewrite map_get_set. by rewrite decide_True. Qed.

Lemma map_get_set_ne k k' v m : k' ≠ k → map_get k' (map_set k v m) = map_get k' m.
Proof. intros. rewrite map_get_set. by rewrite decide_False. Qed.

Lemma map_get_None k m : map_get k m = None ↔ k ∉ map_keys m.
Proof.
  induction m as [|[k0 v0] m IH]; simpl.
  - split; [intros _; apply not_elem_of_nil|done].
  - cbn [map_keys fmap list_fmap fst] in *. rewrite not_elem_of_cons.
    case_decide; subst.
    + split; [done|]. by intros [? _].
    + rewrite IH. by split; [split|intros [_ ?]].
Qed.

Lemma map_get_Some_in k v m : map_get k m = Some v → (k, v) ∈ m.
Proof.
  induction m as [|[k0 v0] m IH]; simpl; [done|]. case_decide.
  - intros [= ->]. subst. constructor.
  - intros. constructor. auto.
Qed.

Lemma map_get_in k v m : map_wf m → (k, v) ∈ m → map_get k m = Some v.
Proof.
  unfold map_wf. induction m as [|[k0 v0] m IH]; simpl; intros Hwf Hin.
  - by apply not_elem_of_nil in Hin.
  - apply NoDup_cons in Hwf as [Hni Hwf].
    apply elem_of_cons in Hin as [[= <- <-]|Hin].
    + by rewrite decide_True.
    + rewrite decide_False; [auto|]. intros ->. apply Hni.
      by apply (list_elem_of_fmap_2 fst) in Hin.
Qed.

Lemma map_set_keys k v m :
  map_keys (map_set k v m) =
  if decide (k ∈ map_keys m) then map_keys m else map_keys m ++ [k].
Proof.
  induction m as [|[k0 v0] m IH]; [done|]. cbn [map_set].
  unfold map_keys in *. destruct (decide (k = k0)) as [->|Hne].
  - cbn [fmap list_fmap fst]. by rewrite decide_True by constructor.
  - cbn [fmap list_fmap fst]. rewrite IH.
    destruct (decide (k ∈ m.*1)) as [Hin|Hni].
    + by rewrite decide_True by (by constructor).
    + rewrite decide_False; [done|]. by intros [?|?]%elem_of_cons.
Qed.

Lemma map_set_wf k v m : map_wf m → map_wf (map_set k v m).
Proof.
  unfold map_wf. rewrite map_set_keys. case_decide; [done|]. intros.
  apply NoDup_app. split_and!; [done| |apply NoDup_singleton]. set_solver.
Qed.

Lemma map_set_new k v m : k ∉ map_keys m → map_set k v m = m ++ [(k, v)].
Proof.
  induction m as [|[k0 v0] m IH]; simpl; [done|].
  rewrite not_elem_of_cons. intros [? ?]. rewrite decide_False by done.
  by rewrite IH.
Qed.

(** Replacing a value leaves the rest of the map in place. *)
Lemma map_set_split k v v' m : map_get k m = Some v →
  ∃ m1 m2, m = m1 ++ (k, v) :: m2 ∧ map_set k v' m = m1 ++ (k, v') :: m2.
Proof.
  induction m as [|[k0 v0] m IH]; simpl; [done|]. case_decide as Hk.
  - intros [= ->]. subst. by exists [], m.
  - intros (m1 & m2 & -> & ->)%IH. by exists ((k0, v0) :: m1), m2.
Qed.

Lemma map_delete_keys_sub k m x : x ∈ map_keys (map_delete k m) → x ∈ map_keys m.
Proof.
  induction m as [|[k0 v0] m IH]; simpl; [done|]. case_decide; set_solver.
Qed.

Lemma map_delete_wf k m : map_wf m → map_wf (map_delete k m).
Proof.
  unfold map_wf. induction m as [|[k0 v0] m IH]; simpl; [done|].
  intros [Hni Hnd]%NoDup_cons. case_decide; [done|]. simpl.
  apply NoDup_cons. split; [|auto]. intros H1%map_delete_keys_sub. done.
Qed.

Lemma map_get_delete k k' m :
  map_wf m →
  map_get k' (map_delete k m) = if decide (k' = k) then None else map_get k' m.
Proof.
  unfold map_wf. induction m as [|[k0 v0] m IH]; simpl; [by case_decide|].
  intros [Hni Hnd]%NoDup_cons. destruct (decide (k = k0)) as [<-|].
  - destruct (decide (k' = k)) as [->|]; [by apply map_get_None|done].
  - simpl. destruct (decide (k' = k0)) as [->|]; [by rewrite decide_False|auto].
Qed.

Lemma map_wf_nil : map_wf ([] : jsmap K V).
Proof. apply NoDup_nil_2. Qed.
End jsmap.

(** ** [Set<T>] *)

Section jsset.
Context {A : Type} `{EqDecision A}.

Definition set_add (x : A) (s : list A) : list A :=
  if decide (x ∈ s) then s else s ++ [x].
Definition set_has (x : A) (s : list A) : bool := bool_decide (x ∈ s).
Definition set_delete (x : A) (s : list A) : list A := filter (λ y, y ≠ x) s.

Lemma elem_of_set_add x y s : y ∈ set_add x s ↔ y = x ∨ y ∈ s.
Proof. unfold set_add. case_decide; set_solver. Qed.

Lemma set_add_NoDup x s : NoDup s → NoDup (set_add x s).
Proof.
  unfold set_add. case_decide; [done|]. intros. apply NoDup_app.
  split_and!; [done| |apply NoDup_singleton]. set_solver.
Qed.

Lemma elem_of_set_delete x y s : y ∈ set_delete x s ↔ y ∈ s ∧ y ≠ x.
Proof. unfold set_delete. rewrite list_elem_of_filter. naive_solver. Qed.
End jsset.

(** ** [Array.prototype.sort] *)

Section sort.
Context {A : Type} (cmp : A → A → Z).

(** [x] goes after the elements it does not precede. *)
Fixpoint sort_insert (x : A) (l : list A) : list A :=
  match l with
  | [] => [x]
  | y :: l' => if cmp y x <=? 0 then y :: sort_insert x l' else x :: l
  end.

Definition js_sort (l : list A) : list A := fold_left (λ acc x, sort_insert x acc) l [].

Definition cmp_le (x y : A) : Prop := cmp x y <= 0.

Lemma sort_insert_perm x l : sort_insert x l ≡ₚ x :: l.
Proof.
  induction l as [|y l IH]; simpl; [done|]. case_match; [|done].
  rewrite IH. by constructor.
Qed.

Lemma js_sort_perm l : js_sort l ≡ₚ l.
Proof.
  unfold js_sort. cut (∀ acc, fold_left (λ acc x, sort_insert x acc) l acc ≡ₚ acc ++ l).
  { intros H. apply (H []). }
  induction l as [|x l IH]; intros acc; simpl; [by rewrite app_nil_r|].
  rewrite IH, sort_insert_perm. apply Permutation_middle.
Qed.

(** What [sort] needs of a comparator. *)
Class SortCmp : Prop := {
  cmp_total x y : 0 < cmp x y → cmp y x <= 0;
  cmp_trans x y z : cmp x y <= 0 → cmp y z <= 0 → cmp x z <= 0;
}.

Context {HC : SortCmp}.

Lemma sort_insert_sorted x l :
  StronglySorted cmp_le l → StronglySorted cmp_le (sort_insert x l).
Proof.
  induction 1 as [|y l Hl IH Hy]; simpl; [by repeat constructor|].
  destruct (Z.leb_spec (cmp y x) 0) as [H|H].
  - constructor; [done|]. rewrite sort_insert_perm. by constructor.
  - apply cmp_total in H. constructor; [by constructor|].
    constructor; [done|]. eapply Forall_impl; [done|]. intros z Hz.
    by eapply cmp_trans.
Qed.

Lemma js_sort_sorted l : StronglySorted cmp_le (js_sort l).
Proof.
  unfold js_sort. cut (∀ acc, StronglySorted cmp_le acc →
    StronglySorted cmp_le (fold_left (λ acc x, sort_insert x acc) l acc)).
  { intros H. apply H. constructor. }
  induction l as [|x l IH]; intros acc Hacc; simpl; [done|].
  by apply IH, sort_insert_sorted.
Qed.

Lemma sort_insert_last x l : Forall (λ y, cmp y x <= 0) l → sort_insert x l = l ++ [x].
Proof.
  induction 1 as [|y l Hy _ IH]; simpl; [done|].
  rewrite (proj2 (Z.leb_le _ _)) by done. by rewrite IH.
Qed.

(** Sorting a sorted array leaves it as it is. *)
Lemma js_sort_id l : StronglySorted cmp_le l → js_sort l = l.
Proof.
  unfold js_sort. cut (∀ acc, StronglySorted cmp_le (acc ++ l) →
    fold_left (λ acc x, sort_insert x acc) l acc = acc ++ l).
  { intros H. apply (H []). }
  induction l as [|x l IH]; intros acc Hs; simpl; [by rewrite app_nil_r|].
  rewrite sort_insert_last.
  - rewrite IH; rewrite <-(assoc_L app); done.
  - clear IH. induction acc as [|y acc IHa]; [constructor|].
    simpl in Hs. inversion Hs as [|? ? Hs' Hy]; subst.
    constructor; [|by apply IHa]. rewrite Forall_app, Forall_cons in Hy. naive_solver.
Qed.

(** With an antisymmetric comparator the result depends on the elements
    only, not on their order. *)
Lemma js_sort_unique l l' :
  (∀ x y, cmp x y <= 0 → cmp y x <= 0 → x = y) → l ≡ₚ l' → js_sort l = js_sort l'.
Proof.
  intros Ha Hp.
  assert (AntiSymm (=) cmp_le) by (intros x y; apply Ha).
  apply (StronglySorted_unique cmp_le); try apply js_sort_sorted.
  by rewrite !js_sort_perm.
Qed.
End sort.

(** Sorting numbers with [(a, b) => a - b] on a key. *)
Definition by_key {A} (f : A → Z) (a b : A) : Z := f a - f b.

#[export] Instance by_key_cmp {A} (f : A → Z) : SortCmp (by_key f).
Proof. unfold by_key. split; intros; lia. Qed.
