(* ===== verification/Binary.v ===== *)
(** * Byte-string helpers ([shared/binary.ts], [shared/crypto/binary.ts])

    Hex transport, constant-time comparison, concatenation and base 128.  The
    base 128 coder is shown to be a lossless repacking of the bit stream. *)
From S2P Require Export Codec.

(** ** [bytesEqual] *)

(** The loop of [crypto/binary.ts]: no early exit, differences accumulate in
    [d]. *)
Fixpoint ct_diff (a b : bytes) (d : Z) : Z :=
  match a, b with
  | x :: a, y :: b => ct_diff a b (Z.lor d (Z.lxor (byteZ x) (byteZ y)))
  | _, _ => d
  end.

Definition bytesEqual (a b : bytes) : bool :=
  if negb (blen a =? blen b) then false else ct_diff a b 0 =? 0.

(** [res.set(a, 0); res.set(b, a.length)] *)
Definition bconcat (a b : bytes) : bytes := a ++ b.

(** ** Hex *)

(** [n.toString(16)] for one digit. *)
Definition hexdigit (n : Z) : Z := if n <? 10 then 48 + n else 87 + n.

(** [byte.toString(16).padStart(2, '0')] *)
Definition byte_hex (b : byte) : jsstr :=
  let s := if byteZ b <? 16 then [hexdigit (byteZ b)]
           else [hexdigit (byteZ b / 16); hexdigit (byteZ b mod 16)] in
  replicate (2 - length s) 48 ++ s.

Definition btoh (bs : bytes) : jsstr := concat (byte_hex <$> bs).

Definition hexval (c : Z) : option Z :=
  if (48 <=? c) && (c <=? 57) then Some (c - 48)
  else if (97 <=? c) && (c <=? 102) then Some (c - 87)
  else if (65 <=? c) && (c <=? 70) then Some (c - 55)
  else None.

Definition is_white (c : Z) : bool :=
  ((9 <=? c) && (c <=? 13)) || (c =? 32) || (c =? 160) || (c =? 0x1680)
  || ((0x2000 <=? c) && (c <=? 0x200a)) || (c =? 0x2028) || (c =? 0x2029)
  || (c =? 0x202f) || (c =? 0x205f) || (c =? 0x3000) || (c =? 0xfeff).

Fixpoint trim_start (s : jsstr) : jsstr :=
  match s with c :: s' => if is_white c then trim_start s' else s | [] => [] end.

Fixpoint hex_prefix (s : jsstr) (acc : num) : num :=
  match s with
  | [] => acc
  | c :: s' =>
      match hexval c with
      | Some d => hex_prefix s' (Some (default 0 acc * 16 + d))
      | None => acc
      end
  end.

(** [Number.parseInt(s, 16)]: white space, a sign and a [0x] prefix are
    skipped, parsing stops at the first non-digit, no digit at all is [NaN]. *)
Definition parseInt16 (s : jsstr) : num :=
  let s := trim_start s in
  let '(sign, s) :=
    match s with
    | c :: s' => if c =? 45 then (-1, s') else if c =? 43 then (1, s') else (1, s)
    | [] => (1, s)
    end in
  let s := match s with
           | a :: b :: s' => if (a =? 48) && ((b =? 120) || (b =? 88)) then s' else s
           | _ => s
           end in
  v ← hex_prefix s None; Some (sign * v).

(** Storing [NaN] in a [Uint8Array] stores 0. *)
Fixpoint htob_loop (hex : jsstr) : bytes :=
  match hex with
  | a :: b :: hex => Zbyte (default 0 (parseInt16 [a; b])) :: htob_loop hex
  | _ => []
  end.

Definition htob (hex : jsstr) : Res bytes :=
  if negb (Nat.even (length hex)) then Throw else Ok (htob_loop hex).

(** ** Base 128 *)

(** [while (bitCount >= w) { push(bits & mask); bits >>>= w; bitCount -= w }],
    shared by both directions; at most two rounds run. *)
Fixpoint drain (fuel : nat) (w bits cnt : Z) : list Z * Z * Z :=
  match fuel with
  | O => ([], bits, cnt)
  | S fuel =>
      if w <=? cnt then
        let '(out, bits', cnt') := drain fuel w (Z.shiftr bits w) (cnt - w) in
        (Z.land bits (Z.ones w) :: out, bits', cnt')
      else ([], bits, cnt)
  end.

(** [for (x of xs) { bits |= x << bitCount; bitCount += win; drain }] *)
Fixpoint repack (win wout : Z) (xs : list Z) (bits cnt : Z) : list Z * Z * Z :=
  match xs with
  | [] => ([], bits, cnt)
  | x :: xs =>
      let '(out1, bits, cnt) :=
        drain 2 wout (Z.lor bits (Z.shiftl x cnt)) (cnt + win) in
      let '(out2, bits, cnt) := repack win wout xs bits cnt in
      (out1 ++ out2, bits, cnt)
  end.

Definition btob128 (bs : bytes) : jsstr :=
  let '(codes, bits, bitCount) := repack 8 7 (byteZ <$> bs) 0 0 in
  codes ++ (if 0 <? bitCount then [Z.land bits 0x7f] else []).

Definition b128tob (str : jsstr) : Res bytes :=
  if existsb (λ c, 127 <? c) str then Throw
  else let '(out, _, _) := repack 7 8 str 0 0 in Ok (Zbyte <$> out).

(** ** Base 64

    [bytes.toBase64()], and [btoa] of the byte string where it is missing:
    RFC 4648 with padding. *)
Definition b64char (n : Z) : Z :=
  if n <? 26 then 65 + n else if n <? 52 then 71 + n else if n <? 62 then n - 4
  else if n =? 62 then 43 else 47.

Definition b64group (n : Z) : jsstr :=
  [b64char (n / 262144); b64char (n / 4096 mod 64);
   b64char (n / 64 mod 64); b64char (n mod 64)].

Fixpoint btob64 (bs : bytes) : jsstr :=
  match bs with
  | a :: b :: c :: bs =>
      b64group (byteZ a * 65536 + byteZ b * 256 + byteZ c) ++ btob64 bs
  | [a; b] => take 3 (b64group (byteZ a * 65536 + byteZ b * 256)) ++ [61]
  | [a] => take 2 (b64group (byteZ a * 65536)) ++ [61; 61]
  | [] => []
  end.

(** [replace(/\+/g, '-').replace(/\//g, '_').replace(/=+$/, '')] *)
Definition strip_pad (s : jsstr) : jsstr :=
  reverse ((fix go (s : jsstr) : jsstr :=
    match s with c :: s' => if c =? 61 then go s' else s | [] => [] end) (reverse s)).

Definition btob64url (bs : bytes) : jsstr :=
  strip_pad ((λ c, if c =? 43 then 45 else if c =? 47 then 95 else c) <$> btob64 bs).

Example btob64_example : btob64 [x4d; x61] = js "TWE=".
Proof. vm_compute. reflexivity. Qed.
Example btob64url_example : btob64url [xfb; xff] = js "-_8".
Proof. vm_compute. reflexivity. Qed.

Example btoh_ff0a : btoh [xff; x0a] = js "ff0a".
Proof. vm_compute. reflexivity. Qed.
Example htob_lenient : htob (js "0xg1-1 f") = Ok [x00; x00; xff; x0f].
Proof. vm_compute. reflexivity. Qed.
Example b128_example : b128tob (btob128 [xff; x80; x01]) = Ok [xff; x80; x01].
Proof. vm_compute. reflexivity. Qed.

(** ** Comparison decides equality *)

Lemma ct_diff_nonneg a b d : 0 <= d → 0 <= ct_diff a b d.
Proof.
  revert b d. induction a as [|x a IH]; intros [|y b] d Hd; simpl; try done.
  apply IH. apply Z.lor_nonneg. split; [done|].
  apply Z.lxor_nonneg. pose proof (byteZ_range x). pose proof (byteZ_range y). lia.
Qed.

Lemma ct_diff_zero a b d :
  length a = length b → ct_diff a b d = 0 ↔ d = 0 ∧ a = b.
Proof.
  revert b d. induction a as [|x a IH]; intros [|y b] d; simpl; intros Hl; try lia.
  - split; [done|by intros []].
  - rewrite IH by lia. rewrite Z.lor_eq_0_iff, Z.lxor_eq_0_iff.
    split.
    + intros [[-> Hx] ->]. by apply (inj byteZ) in Hx as ->.
    + intros [-> Hx]. by injection Hx as -> ->.
Qed.

Lemma bytesEqual_spec a b : bytesEqual a b = true ↔ a = b.
Proof.
  unfold bytesEqual, blen. destruct (Z.eqb_spec (Z.of_nat (length a)) (Z.of_nat (length b))) as [H|H];
    cbn [negb].
  - rewrite Z.eqb_eq, ct_diff_zero by lia. split; [by intros []|done].
  - split; [done|]. by intros ->.
Qed.

Lemma bytesEqual_refl a : bytesEqual a a = true.
Proof. by apply bytesEqual_spec. Qed.

Lemma bytesEqual_false a b : bytesEqual a b = false ↔ a ≠ b.
Proof.
  rewrite <-bytesEqual_spec. by destruct (bytesEqual a b).
Qed.

(** ** Hex round trip *)

Lemma byte_hex_case b :
  ∃ h l, byte_hex b = [h; l] ∧ Zbyte (default 0 (parseInt16 [h; l])) = b.
Proof.
  exists (nth 0 (byte_hex b) 0), (nth 1 (byte_hex b) 0).
  destruct b; vm_compute; split; reflexivity.
Qed.

Lemma btoh_cons b bs : btoh (b :: bs) = byte_hex b ++ btoh bs.
Proof. done. Qed.

Lemma btoh_length bs : length (btoh bs) = (2 * length bs)%nat.
Proof.
  induction bs as [|b bs IH]; [done|]. rewrite btoh_cons, length_app, IH.
  destruct (byte_hex_case b) as (h & l & -> & _). simpl. lia.
Qed.

Lemma htob_loop_btoh bs : htob_loop (btoh bs) = bs.
Proof.
  induction bs as [|b bs IH]; [done|]. rewrite btoh_cons.
  destruct (byte_hex_case b) as (h & l & -> & E). cbn [app htob_loop]. by rewrite E, IH.
Qed.

Lemma htob_btoh bs : htob (btoh bs) = Ok bs.
Proof.
  unfold htob. rewrite btoh_length, htob_loop_btoh.
  replace (Nat.even (2 * length bs)) with true; [done|].
  symmetry. apply Nat.even_spec. by exists (length bs).
Qed.

#[export] Instance btoh_inj : Inj eq eq btoh.
Proof. intros a b H. by rewrite <-(htob_loop_btoh a), <-(htob_loop_btoh b), H. Qed.

(** ** Base 128 round trip *)

(** The value of a little-endian digit string in base [2^w]. *)
Fixpoint val (w : Z) (ds : list Z) : Z :=
  match ds with [] => 0 | d :: ds => d + 2 ^ w * val w ds end.

Definition digits_ok (w : Z) (ds : list Z) : Prop := Forall (λ d, 0 <= d < 2 ^ w) ds.

Definition zlen (ds : list Z) : Z := Z.of_nat (length ds).

Lemma zlen_app a b : zlen (a ++ b) = zlen a + zlen b.
Proof. unfold zlen. rewrite length_app. lia. Qed.

Lemma zlen_cons a b : zlen (a :: b) = 1 + zlen b.
Proof. unfold zlen. simpl. lia. Qed.

Lemma zlen_nonneg a : 0 <= zlen a.
Proof. unfold zlen. lia. Qed.

Lemma pow_cons w n : 0 <= w → 0 <= n → 2 ^ (w * (1 + n)) = 2 ^ w * 2 ^ (w * n).
Proof. intros. rewrite <-Z.pow_add_r by nia. f_equal. ring. Qed.

Lemma val_app w a b :
  0 <= w → val w (a ++ b) = val w a + 2 ^ (w * zlen a) * val w b.
Proof.
  intros Hw. induction a as [|d a IH]; cbn [app val].
  - unfold zlen. simpl. rewrite Z.mul_0_r, Z.pow_0_r. lia.
  - rewrite IH, zlen_cons. pose proof (zlen_nonneg a).
    rewrite pow_cons by done. ring.
Qed.

Lemma val_bound w ds : 0 <= w → digits_ok w ds → 0 <= val w ds < 2 ^ (w * zlen ds).
Proof.
  intros Hw. induction 1 as [|d ds Hd _ IH]; [simpl; unfold zlen; simpl; rewrite Z.mul_0_r; done|].
  cbn [val]. rewrite zlen_cons. pose proof (zlen_nonneg ds).
  rewrite pow_cons by done. nia.
Qed.

Lemma val_inj w a b :
  0 <= w → digits_ok w a → digits_ok w b → length a = length b →
  val w a = val w b → a = b.
Proof.
  intros Hw Ha. revert b. induction Ha as [|d a Hd Ha IH]; intros b Hb Hl Hv.
  - by destruct b.
  - destruct b as [|e b]; [done|]. inversion Hb as [|? ? He Hb']; subst.
    cbn [val] in Hv. simpl in Hl.
    assert (0 < 2 ^ w) by (apply Z.pow_pos_nonneg; lia).
    destruct (Z.div_mod_unique (2 ^ w) (val w a) (val w b) d e) as [Hab ->];
      [lia|lia|lia|].
    f_equal. apply IH; [done|lia|done].
Qed.

(** One drain moves whole digits from the accumulator to the output. *)
Lemma drain_spec fuel w bits cnt :
  0 < w → 0 <= cnt < w * (Z.of_nat fuel + 1) → 0 <= bits < 2 ^ cnt →
  ∃ out bits' cnt', drain fuel w bits cnt = (out, bits', cnt') ∧
    digits_ok w out ∧ 0 <= cnt' < w ∧ 0 <= bits' < 2 ^ cnt' ∧
    w * zlen out + cnt' = cnt ∧
    val w out + 2 ^ (w * zlen out) * bits' = bits.
Proof.
  intros Hw. revert bits cnt. induction fuel as [|f IH]; intros bits cnt Hc Hb;
    cbn [drain].
  - do 3 eexists. split; [done|]. unfold zlen, digits_ok. simpl.
    rewrite Z.mul_0_r, Z.pow_0_r. split_and!; try done; lia.
  - destruct (Z.leb_spec w cnt) as [H|H].
    + assert (Hp : 2 ^ cnt = 2 ^ w * 2 ^ (cnt - w)).
      { rewrite <-Z.pow_add_r by lia. f_equal. lia. }
      assert (0 < 2 ^ w) by (apply Z.pow_pos_nonneg; lia).
      destruct (IH (Z.shiftr bits w) (cnt - w)) as (out & b' & c' & -> & H1 & H2 & H3 & H4 & H5);
        [lia| |].
      { rewrite Z.shiftr_div_pow2 by lia.
        split; [apply Z.div_pos; lia|]. apply Z.div_lt_upper_bound; lia. }
      do 3 eexists. split; [done|]. rewrite Z.land_ones, Z.shiftr_div_pow2 in * by lia.
      rewrite zlen_cons. cbn [val]. pose proof (zlen_nonneg out).
      split_and!; try lia.
      * constructor; [by apply Z.mod_pos_bound|done].
      * rewrite pow_cons by lia. pose proof (Z.div_mod bits (2 ^ w) ltac:(lia)).
        replace (bits mod 2 ^ w + 2 ^ w * val w out + 2 ^ w * 2 ^ (w * zlen out) * b')
          with (bits mod 2 ^ w + 2 ^ w * (val w out + 2 ^ (w * zlen out) * b')) by ring.
        rewrite H5. lia.
    + do 3 eexists. split; [done|]. unfold zlen, digits_ok. simpl.
      rewrite Z.mul_0_r, Z.pow_0_r. split_and!; try done; lia.
Qed.

(** Repacking keeps the value and the bit count. *)
Lemma repack_spec win wout xs bits cnt :
  0 < win → 0 < wout → win <= wout + 1 → 0 <= cnt < wout →
  wout + win <= wout * 3 →
  0 <= bits < 2 ^ cnt → digits_ok win xs →
  ∃ out bits' cnt', repack win wout xs bits cnt = (out, bits', cnt') ∧
    digits_ok wout out ∧ 0 <= cnt' < wout ∧ 0 <= bits' < 2 ^ cnt' ∧
    wout * zlen out + cnt' = cnt + win * zlen xs ∧
    val wout out + 2 ^ (wout * zlen out) * bits' = bits + 2 ^ cnt * val win xs.
Proof.
  intros Hwi Hwo Hle Hc H3 Hb Hx. revert bits cnt Hc Hb.
  induction Hx as [|x xs Hx _ IH]; intros bits cnt Hc Hb; cbn [repack].
  - do 3 eexists. split; [done|]. unfold zlen, digits_ok. simpl.
    rewrite Z.mul_0_r, Z.pow_0_r. split_and!; try done; lia.
  - rewrite lor_shiftl_add by lia.
    assert (0 < 2 ^ cnt) by (apply Z.pow_pos_nonneg; lia).
    destruct (drain_spec 2 wout (bits + x * 2 ^ cnt) (cnt + win))
      as (o1 & b1 & c1 & -> & D1 & D2 & D3 & D4 & D5); [done|lia| |].
    { rewrite Z.pow_add_r by lia. nia. }
    destruct (IH b1 c1 D2 D3) as (o2 & b2 & c2 & -> & E1 & E2 & E3 & E4 & E5).
    do 3 eexists. split; [done|]. rewrite !zlen_app, zlen_cons, val_app by lia.
    cbn [val]. pose proof (zlen_nonneg o1). pose proof (zlen_nonneg o2).
    split_and!; try lia.
    + by apply Forall_app.
    + rewrite Z.mul_add_distr_l, Z.pow_add_r by lia.
      replace (val wout o1 + 2 ^ (wout * zlen o1) * val wout o2 +
               2 ^ (wout * zlen o1) * 2 ^ (wout * zlen o2) * b2)
        with (val wout o1 + 2 ^ (wout * zlen o1) *
                (val wout o2 + 2 ^ (wout * zlen o2) * b2)) by ring.
      rewrite E5, Z.mul_add_distr_l, Z.add_assoc, D5, Z.mul_assoc.
      rewrite <-Z.pow_add_r by lia. rewrite D4, Z.pow_add_r by lia. ring.
Qed.

Lemma bytes_digits bs : digits_ok 8 (byteZ <$> bs).
Proof. induction bs; constructor; [apply byteZ_range|done]. Qed.

(** The encoder's output: 7-bit codes with the value of the bytes, and fewer
    than seven bits of padding. *)
Lemma btob128_val bs :
  digits_ok 7 (btob128 bs) ∧ val 7 (btob128 bs) = val 8 (byteZ <$> bs) ∧
  8 * zlen (byteZ <$> bs) <= 7 * zlen (btob128 bs) < 8 * zlen (byteZ <$> bs) + 7.
Proof.
  unfold btob128.
  destruct (repack_spec 8 7 (byteZ <$> bs) 0 0) as (o & b & c & -> & H1 & H2 & H3 & H4 & H5);
    try done; [apply bytes_digits|].
  change (2 ^ 0) with 1 in H5. rewrite Z.add_0_l, Z.mul_1_l in H5.
  destruct (Z.ltb_spec 0 c) as [Hc|Hc].
  - assert (Hl : Z.land b 127 = b).
    { rewrite land_127. apply Z.mod_small. split; [lia|].
      assert (2 ^ c <= 2 ^ 6) by (apply Z.pow_le_mono_r; lia). lia. }
    rewrite val_app, zlen_app, Hl by lia. cbn [val].
    assert (2 ^ c <= 2 ^ 6) by (apply Z.pow_le_mono_r; lia).
    replace (zlen [b]) with 1 by done.
    split_and!; [|nia|lia|lia].
    apply Forall_app. split; [done|]. constructor; [lia|constructor].
  - assert (c = 0) as -> by lia. rewrite app_nil_r. change (2 ^ 0) with 1 in H3.
    assert (b = 0) as -> by lia. split_and!; [done|lia|lia|lia].
Qed.

Lemma b128_codes_low str : digits_ok 7 str → existsb (λ c, 127 <? c) str = false.
Proof.
  induction 1 as [|c s Hc _ IH]; [done|]. simpl. rewrite IH.
  by rewrite (proj2 (Z.ltb_ge _ _)) by lia.
Qed.

Lemma zlen_length (a b : list Z) : zlen a = zlen b → length a = length b.
Proof. unfold zlen. lia. Qed.

Lemma b128tob_btob128 bs : b128tob (btob128 bs) = Ok bs.
Proof.
  destruct (btob128_val bs) as (H1 & H2 & H3). unfold b128tob.
  rewrite b128_codes_low by done.
  destruct (repack_spec 7 8 (btob128 bs) 0 0) as (o & b & c & -> & K1 & K2 & K3 & K4 & K5);
    try done.
  change (2 ^ 0) with 1 in K5. rewrite Z.add_0_l, Z.mul_1_l, H2 in K5.
  assert (Hlen : zlen o = zlen (byteZ <$> bs)) by lia.
  pose proof (val_bound 8 o ltac:(lia) K1) as Vo.
  pose proof (val_bound 8 _ ltac:(lia) (bytes_digits bs)) as Vb.
  rewrite <-Hlen in Vb.
  assert (b = 0) as -> by nia. rewrite Z.mul_0_r, Z.add_0_r in K5.
  assert (o = byteZ <$> bs) as ->.
  { apply (val_inj 8); try done; [apply bytes_digits|by apply zlen_length]. }
  f_equal. rewrite <-list_fmap_compose. rewrite <-(list_fmap_id bs) at 2.
  apply list_fmap_ext. intros i x _. apply Zbyte_byteZ.
Qed.

(** ** Base 64 keys are distinct *)

Definition b64val (c : Z) : Z :=
  if c =? 43 then 62 else if c =? 47 then 63 else if c <? 58 then c + 4
  else if c <? 91 then c - 65 else c - 71.

Lemma b64val_char n : 0 <= n < 64 → b64val (b64char n) = n ∧ b64char n ≠ 61.
Proof.
  intros. unfold b64val, b64char.
  repeat match goal with
  | |- context [?a <? ?b] => destruct (Z.ltb_spec a b)
  | |- context [?a =? ?b] => destruct (Z.eqb_spec a b)
  end; lia.
Qed.

(** Reads one group back. *)
Fixpoint unb64 (s : jsstr) : bytes :=
  match s with
  | p :: q :: r :: t :: s =>
      let hi := b64val p * 262144 + b64val q * 4096 in
      if r =? 61 then [Zbyte (hi / 65536)]
      else if t =? 61 then
        let n := hi + b64val r * 64 in [Zbyte (n / 65536); Zbyte (n / 256)]
      else
        let n := hi + b64val r * 64 + b64val t in
        Zbyte (n / 65536) :: Zbyte (n / 256) :: Zbyte n :: unb64 s
  | _ => []
  end.

Lemma sextets n :
  0 <= n < 16777216 →
  0 <= n / 262144 < 64 ∧ 0 <= n / 4096 mod 64 < 64 ∧ 0 <= n / 64 mod 64 < 64 ∧
  0 <= n mod 64 < 64 ∧
  n / 262144 * 262144 + n / 4096 mod 64 * 4096 + n / 64 mod 64 * 64 + n mod 64 = n.
Proof. intros. Z.div_mod_to_equations. lia. Qed.

Lemma Zbyte_of b z : z mod 256 = byteZ b → Zbyte z = b.
Proof.
  intros H. apply (inj byteZ). by rewrite byteZ_Zbyte.
Qed.

Lemma octets a b c (n := byteZ a * 65536 + byteZ b * 256 + byteZ c) :
  Zbyte (n / 65536) = a ∧ Zbyte (n / 256) = b ∧ Zbyte n = c ∧ 0 <= n < 16777216.
Proof.
  pose proof (byteZ_range a). pose proof (byteZ_range b). pose proof (byteZ_range c).
  subst n. split_and!; try (apply Zbyte_of; Z.div_mod_to_equations; lia); lia.
Qed.

Lemma unb64_btob64 bs : unb64 (btob64 bs) = bs.
Proof.
  remember (length bs) as k eqn:Hk. revert bs Hk.
  induction (lt_wf k) as [k _ IH]. intros bs ->.
  destruct bs as [|a [|b [|c bs]]]; [done| | |].
  - destruct (octets a x00 x00) as (Ha & _ & _ & Hn).
    change (byteZ x00 * 256) with 0 in *. change (byteZ x00) with 0 in *.
    rewrite !Z.add_0_r in *.
    destruct (sextets _ Hn) as (H1 & H2 & H3 & H4 & H5).
    cbn [btob64 b64group take app unb64]. change (61 =? 61) with true. cbv iota.
    rewrite (proj1 (b64val_char _ H1)), (proj1 (b64val_char _ H2)).
    set (n := byteZ a * 65536) in *.
    assert (Hm : n mod 64 = 0 ∧ n / 64 mod 64 = 0).
    { unfold n. replace (byteZ a * 65536) with (byteZ a * 1024 * 64) by ring.
      rewrite Z.mod_mul, Z.div_mul by lia.
      replace (byteZ a * 1024) with (byteZ a * 16 * 64) by ring.
      by rewrite Z.mod_mul by lia. }
    destruct Hm as [Hm1 Hm2]. rewrite Hm1, Hm2, Z.mul_0_l, !Z.add_0_r in H5.
    by rewrite H5, Ha.
  - destruct (octets a b x00) as (Ha & Hb & _ & Hn).
    change (byteZ x00) with 0 in *. rewrite !Z.add_0_r in *.
    destruct (sextets _ Hn) as (H1 & H2 & H3 & H4 & H5).
    cbn [btob64 b64group take app unb64].
    rewrite (proj2 (Z.eqb_neq _ _) (proj2 (b64val_char _ H3))).
    change (61 =? 61) with true. cbv iota zeta.
    rewrite (proj1 (b64val_char _ H1)), (proj1 (b64val_char _ H2)), (proj1 (b64val_char _ H3)).
    set (n := byteZ a * 65536 + byteZ b * 256) in *.
    assert (Hm : n mod 64 = 0).
    { unfold n. replace (byteZ a * 65536 + byteZ b * 256) with ((byteZ a * 1024 + byteZ b * 4) * 64) by ring.
      apply Z.mod_mul. lia. }
    rewrite Hm, Z.add_0_r in H5. by rewrite H5, Ha, Hb.
  - destruct (octets a b c) as (Ha & Hb & Hc & Hn).
    destruct (sextets _ Hn) as (H1 & H2 & H3 & H4 & H5).
    cbn [btob64 b64group app unb64].
    rewrite (proj2 (Z.eqb_neq _ _) (proj2 (b64val_char _ H3))).
    rewrite (proj2 (Z.eqb_neq _ _) (proj2 (b64val_char _ H4))). cbv zeta.
    rewrite (proj1 (b64val_char _ H1)), (proj1 (b64val_char _ H2)),
      (proj1 (b64val_char _ H3)), (proj1 (b64val_char _ H4)), H5, Ha, Hb, Hc.
    do 3 f_equal. apply (IH (length bs)); [simpl; lia|done].
Qed.

#[export] Instance btob64_inj : Inj eq eq btob64.
Proof. intros a b H. by rewrite <-(unb64_btob64 a), <-(unb64_btob64 b), H. Qed.
