(* ===== verification/WireProps.v ===== *)
(** * Properties of the wire format

    Round trips at any position of a buffer, the exact limits of the integer
    coder, cursor safety and absence of exceptions for every decoder of
    request, response and storage data. *)
From S2P Require Export CodecsFacts Binary.

(** Variable-length integers: every integer of [0, 2^56) is written as 1 to
    8 bytes, and reading them back at any position of any buffer gives the
    integer and the number of bytes (as a [bigint] above 2^53 - 1); no other
    integer is written: negative ones are [InvalidParam], larger ones
    [VarLimitExceeded]. *)
Theorem varint_roundtrip (n : Z) (pre rest : bytes) :
  (n < 0 ∧ VarInt.encodeVarInt (Some n) = Err InvalidParam) ∨
  (2 ^ 56 <= n ∧ VarInt.encodeVarInt (Some n) = Err VarLimitExceeded) ∨
  (∃ bs, VarInt.encodeVarInt (Some n) = Ok bs ∧ 0 < blen bs <= 8 ∧
     VarInt.decodeVarInt (pre ++ bs ++ rest) (blen pre) =
       Ok (if maxSafe <? n then VarInt.VBigInt n else VarInt.VNumber n, blen bs)).
Proof.
  destruct (Z.lt_ge_cases n 0) as [H|H].
  { left. split; [done|]. unfold VarInt.encodeVarInt. by rewrite (proj2 (Z.ltb_lt _ _)). }
  right. destruct (Z.le_gt_cases (2 ^ 56) n) as [H'|H'].
  { left. split; [done|]. by apply VarIntFacts.encodeVarInt_limit. }
  right. destruct (VarIntFacts.encodeVarInt_Ok n ltac:(lia)) as (bs & He & Hl).
  exists bs. split_and!; try done; try apply Hl.
  rewrite (VarIntFacts.decodeVarInt_encode n) by (lia || done).
  change 0x1fffffffffffff with maxSafe. destruct (Z.ltb_spec maxSafe n); [done|].
  rewrite Number_safe; [done|]. unfold maxSafe in *. lia.
Qed.

(** Reading a variable-length integer anywhere in any bytes terminates
    without raising; on success it consumed at least one byte, at most eight,
    all inside the buffer. *)
Theorem varint_decode_safe (bs : bytes) (offset : Z) :
  VarInt.decodeVarInt bs offset ≠ Throw ∧
  ∀ v n, VarInt.decodeVarInt bs offset = Ok (v, n) →
    0 < n <= 8 ∧ offset + n <= blen bs.
Proof.
  split; [apply decodeVarInt_total|]. intros v n H.
  pose proof (decode_loop_bound _ _ _ _ _ _ _ _ H) as [H1 H2].
  split; [|done]. split; [lia|]. by eapply decode_loop_max.
Qed.

Lemma varint_decode_safe_witness :
  VarInt.decodeVarInt [x00; xac; x02] 1 = Ok (VarInt.VNumber 300, 2) ∧ 0 < 2 <= 8 ∧ 1 + 2 <= 3.
Proof.
  split; [vm_compute; reflexivity|].
  exact (proj2 (varint_decode_safe [x00; xac; x02] 1) (VarInt.VNumber 300) 2 eq_refl).
Defined.

(** A sequence of bags: what [pushReqCodec.encode] writes, for bags whose
    fields have their fixed sizes, [pushReqCodec.decode] reads back exactly, in
    order. *)
Theorem push_request_roundtrip (bags : list IBag) (H : Forall bag_ok bags) :
  ∃ bs, run_enc (cEncode pushReqCodec bags) = Ok bs ∧
        run_dec (cDecode pushReqCodec) bs = Ok bags.
Proof.
  destruct (structs_roundtrip bagCodec bag_ok id bag_wire bags H) as (bs & H1 & H2).
  exists bs. by rewrite list_fmap_id in H2.
Qed.

Definition bag0 : IBag :=
  mkBag (be_bytes 32 1) (be_bytes 64 2) (be_bytes 8 3) [x01; x02] [].

Lemma push_request_roundtrip_witness :
  Forall bag_ok [bag0; bag0] ∧
  ∃ bs, run_enc (cEncode pushReqCodec [bag0; bag0]) = Ok bs ∧
        run_dec (cDecode pushReqCodec) bs = Ok [bag0; bag0].
Proof.
  assert (H : Forall bag_ok [bag0; bag0]).
  { repeat constructor; vm_compute; reflexivity. }
  split; [exact H|exact (push_request_roundtrip [bag0; bag0] H)].
Defined.

(** Message heads: a head whose entity id parses and whose hash is present
    exactly when its length is positive is read back as written, wherever it
    lies in a buffer (an absent type reads back as the empty one). *)
Theorem message_head_roundtrip (h : IMessageHead) (pre rest : bytes) (H : head_ok h) :
  ∃ bs, run_enc (cEncode messageHeadCodec h) = Ok bs ∧
    cDecode messageHeadCodec (mkDec (pre ++ bs ++ rest) (blen pre)) =
      (Ok (head_norm h), mkDec (pre ++ bs ++ rest) (blen pre + blen bs)).
Proof.
  exists (head_wire h). split.
  - by apply encodes_run, (lawful_enc (ok := head_ok)).
  - by apply (lawful_dec (ok := head_ok)).
Qed.

Definition eid0 : bytes := eid_wire (mkIEntityID (be_bytes 8 9) (Some 1700000000000)).
Definition head0 : IMessageHead := mkHead None eid0 (Some 5) 1 3 (Some (be_bytes 32 4)).

Lemma message_head_roundtrip_witness :
  head_ok head0 ∧
  ∃ bs, run_enc (cEncode messageHeadCodec head0) = Ok bs ∧
    cDecode messageHeadCodec (mkDec ([x07] ++ bs ++ [x08]) (blen [x07])) =
      (Ok (head_norm head0), mkDec ([x07] ++ bs ++ [x08]) (blen [x07] + blen bs)).
Proof.
  assert (H : head_ok head0).
  { unfold head_ok. split_and!.
    - by apply (bool_decide_unpack _).
    - vm_compute. reflexivity.
    - vm_compute. reflexivity.
    - exists 5. split; [reflexivity|by apply varnum_ok_len].
    - by apply varnum_ok_len.
    - by apply varnum_ok_len.
    - exists (be_bytes 32 4). split; vm_compute; reflexivity. }
  split; [exact H|exact (message_head_roundtrip head0 [x07] [x08] H)].
Defined.

(** Entity bodies: [encodeEnt] then [entCodec.decode] gives the parent id,
    the tags and the body back, an empty tag list or body reading back as
    absent. *)
Theorem ent_roundtrip (e : IMsgEntBody) (H : ent_ok e) :
  ∃ bs, encodeEnt e = Ok bs ∧ run_dec (cDecode entCodec) bs = Ok (ent_norm e).
Proof.
  exists (ent_wire e). split; [by apply encodeEnt_wire|].
  by apply decodes_end_run, ent_decodes_end.
Qed.

Definition ent0 : IMsgEntBody := mkEnt (Some eid0) (Some [js "a"; js "bc"]) (Some [x01; x00]).

Lemma ent_roundtrip_witness :
  ent_ok ent0 ∧
  ∃ bs, encodeEnt ent0 = Ok bs ∧ run_dec (cDecode entCodec) bs = Ok (ent_norm ent0).
Proof.
  assert (H : ent_ok ent0).
  { split.
    - intros p [= <-]. split; [vm_compute; reflexivity|].
      exists (mkIEntityID (be_bytes 8 9) (Some 1700000000000)). split; [|reflexivity].
      split; [vm_compute; reflexivity|]. exists 1700000000000. split; [reflexivity|].
      split; vm_compute; discriminate.
    - split; [vm_compute; reflexivity|].
      repeat constructor; by apply (bool_decide_unpack _). }
  split; [exact H|exact (ent_roundtrip ent0 H)].
Defined.

(** [C37] Every decoder of requests, responses and stored heads is safe on
    arbitrary bytes: it never raises, leaves the buffer alone and keeps its
    cursor inside it.  ([entCodec] is not in the list: see
    [ent_bad_pid_throws].) *)
Theorem decoders_safe (d : Decoder) (H : dec_wf d) :
  let safe {A} (m : DecM A) :=
    (m d).1 ≠ Throw ∧ data (m d).2 = data d ∧ pos d <= pos (m d).2 <= blen (data d) in
  safe (cDecode authTimestampCodec) ∧ safe (cDecode peekCursorCodec) ∧
  safe (cDecode pullReqCodec) ∧ safe (cDecode pushReqCodec) ∧
  safe (cDecode respHeadCodec) ∧ safe (readStructs peekItemCodec) ∧
  safe (readStructs pullItemCodec) ∧ safe (readStructs pushItemCodec) ∧
  safe (readStructs notifItemCodec) ∧ safe (cDecode peekItemHeadCodec) ∧
  safe (cDecode messageHeadCodec) ∧ safe (cDecode minimalMessageHeadCodec) ∧
  safe (cDecode fileHeadCodec) ∧ safe (cDecode identityHostsCodec).
Proof.
  assert (Hs : ∀ A (m : DecM A), dec_total m →
    (m d).1 ≠ Throw ∧ data (m d).2 = data d ∧ pos d <= pos (m d).2 <= blen (data d)).
  { intros A m [H1 H2]. destruct (H1 d H) as (H3 & H4 & H5). split; [by apply H2|].
    unfold dec_wf in H5. rewrite H3 in H5. split_and!; [done|done|lia]. }
  pose proof (structs_total peekItemCodec peekItem_total peekItem_consumes).
  pose proof (structs_total pullItemCodec pullItem_total pullItem_consumes).
  pose proof (structs_total pushItemCodec pushItem_total pushItem_consumes).
  pose proof (structs_total notifItemCodec notif_total notif_consumes).
  split_and!; apply Hs; eauto using pullReq_total, pushReq_total with codec.
Qed.

Lemma decoders_safe_witness :
  dec_wf (newDecoder [xff; xff]) ∧
  (cDecode messageHeadCodec (newDecoder [xff; xff])).1 ≠ Throw.
Proof.
  assert (H : dec_wf (newDecoder [xff; xff])) by (vm_compute; split; discriminate).
  split; [exact H|].
  destruct (decoders_safe (newDecoder [xff; xff]) H)
    as (_ & _ & _ & _ & _ & _ & _ & _ & _ & _ & Hh & _). exact (proj1 Hh).
Defined.

(** Export files: header with its realm directory, then the chunks, read
    back as written; and the bytes the header hash covers are exactly the ones
    the header starts with. *)
Theorem export_file_roundtrip (f : IFile) (H : file_ok f) :
  ∃ bs pre, run_enc (cEncode fileCodec f) = Ok bs ∧
    run_dec (cDecode fileCodec) bs = Ok f ∧
    fileHeadPreimage (fh_nonce (file_head f)) (fh_realms (file_head f)) = Ok pre ∧
    bs = pre ++ fh_hsh (file_head f) ++ fh_sig (file_head f) ++ file_chunks f.
Proof.
  destruct f as [[n r hs s] c]. destruct H as (H1 & H2 & H3 & H4).
  cbn [file_head file_chunks fh_nonce fh_realms fh_hsh fh_sig] in *.
  eexists _, (n ++ counted_wire fileRealm_wire r). split_and!.
  - by apply encodes_run, file_encodes.
  - by apply decodes_end_run, file_decodes_end.
  - by apply fileHeadPreimage_wire.
  - unfold fileHead_wire. cbn [file_head fh_nonce fh_realms fh_hsh fh_sig file_chunks].
    by rewrite <-!(assoc_L app).
Qed.

Definition file0 : IFile :=
  mkFile (mkFileHead (be_bytes 32 1) [mkFileRealm nullKDM 2 (be_bytes 32 7)]
    (be_bytes 32 2) (be_bytes 64 3)) [x01; x02].

Lemma export_file_roundtrip_witness :
  file_ok file0 ∧
  ∃ bs pre, run_enc (cEncode fileCodec file0) = Ok bs ∧
    run_dec (cDecode fileCodec) bs = Ok file0 ∧
    fileHeadPreimage (fh_nonce (file_head file0)) (fh_realms (file_head file0)) = Ok pre ∧
    bs = pre ++ fh_hsh (file_head file0) ++ fh_sig (file_head file0) ++ file_chunks file0.
Proof.
  assert (H : file_ok file0).
  { split; [vm_compute; reflexivity|]. split; [|split; vm_compute; reflexivity].
    split; [vm_compute; reflexivity|]. constructor; [|constructor].
    split; [split; [by apply (bool_decide_unpack _)|by apply varnum_ok_len]|].
    split; [vm_compute; discriminate|].
    split; [by apply varnum_ok_len|vm_compute; reflexivity]. }
  split; [exact H|exact (export_file_roundtrip file0 H)].
Defined.

(** Text transports of bytes: hex and base 128 are lossless, hex keys are
    distinct for distinct bytes, and base 128 uses 7-bit code units, as few as
    the bits need. *)
Theorem transports_lossless (bs : bytes) :
  htob (btoh bs) = Ok bs ∧ b128tob (btob128 bs) = Ok bs ∧
  Forall (λ c, 0 <= c < 128) (btob128 bs) ∧
  Z.of_nat (length (btob128 bs)) = (8 * blen bs + 6) / 7.
Proof.
  destruct (btob128_val bs) as (H1 & _ & H2).
  split_and!; [apply htob_btoh|apply b128tob_btob128|exact H1|].
  unfold zlen in H2. rewrite length_fmap in H2. unfold blen.
  apply Z.div_unique with (8 * Z.of_nat (length bs) + 6 - 7 * Z.of_nat (length (btob128 bs))); lia.
Qed.
