(* ===== verification/Crypto.v ===== *)
(** * Keys, ciphers and signatures ([shared/crypto])

    [CryptoPrims] lists the third-party primitives the code calls (WebCrypto's
    Ed25519, noble's BLAKE3 and XSalsa20-Poly1305); [CryptoLaws] is what their
    documentation promises and the proofs use.  On top of them: the wrappers of
    [noble.ts], the key tree of [derivation.ts] and [realms.ts], and the
    [BagManager] of [bagman.ts].  [Toy] is a concrete instance that satisfies
    the laws, used to evaluate the definitions. *)
From S2P Require Export Binary Js CodecsFacts.

(** ** Primitives *)

Class CryptoPrims := {
  CryptoKey : Type;
  (** [subtle.importKey('raw', pub, Ed25519, ..., ['verify'])] *)
  subtle_importVerify : bytes → Res CryptoKey;
  (** [subtle.verify] *)
  subtle_verify : CryptoKey → bytes → bytes → Res bool;
  (** public key of a 32-byte seed, through PKCS#8 import and JWK export *)
  ed_public : bytes → Res bytes;
  (** [subtle.sign] under a 32-byte seed *)
  ed_sign : bytes → bytes → Res bytes;
  (** BLAKE3: hash, keyed hash and key derivation *)
  blake3hash : bytes → bytes;
  blake3_keyed : bytes → bytes → Res bytes;
  blake3_context : bytes → jsstr → Res bytes;
  (** XSalsa20-Poly1305: key, nonce, text *)
  salsa_seal : bytes → bytes → bytes → Res bytes;
  salsa_open : bytes → bytes → bytes → Res bytes;
}.

Class CryptoLaws (C : CryptoPrims) : Prop := {
  ed_sign_verifies seed pub msg sig :
    ed_public seed = Ok pub → ed_sign seed msg = Ok sig →
    blen pub = pubKeyBytes ∧ blen sig = sigBytes ∧
    ∃ vk, subtle_importVerify pub = Ok vk ∧ subtle_verify vk sig msg = Ok true;
  salsa_open_seal key nonce txt cph :
    salsa_seal key nonce txt = Ok cph → salsa_open key nonce cph = Ok txt;
  blake3hash_len txt : blen (blake3hash txt) = hshBytes;
  blake3_keyed_len txt key h : blake3_keyed txt key = Ok h → blen h = hashBytes;
}.

Section crypto.
Context {C : CryptoPrims}.

(** ** [noble.ts] *)

(** [out.set(src, off)] on an [n]-byte array. *)
Definition u8set (dst src : bytes) (off : nat) : Res bytes :=
  if Nat.ltb (length dst) (off + length src) then Throw
  else Ok (take off dst ++ src ++ drop (off + length src) dst).

Definition zeros (n : nat) : bytes := replicate n x00.

(** [ed25519Pkcs8FromSeed]: the wrapped seed is the first 32 bytes, padded. *)
Definition pkcs8Seed (seed : bytes) : bytes := take 32 (take 32 seed ++ zeros 32).

Record KeyPair := mkKeyPair { publicKey : bytes; privateKey : bytes }.

Definition deriveEd25519KeyPair (seed : bytes) : Res KeyPair :=
  pub ← ed_public (pkcs8Seed seed);
  p1 ← u8set (zeros 64) seed 0;
  p2 ← u8set p1 pub 32;
  mret (mkKeyPair pub p2).

Definition signEd25519 (message secKey : bytes) : Res bytes :=
  ed_sign (pkcs8Seed secKey) message.

Definition importVerifyKey (pubKey : bytes) : Res CryptoKey :=
  subtle_importVerify pubKey.

Definition checkSigEd25519 (sig message : bytes) (verifyKey : CryptoKey) : bool :=
  match subtle_verify verifyKey sig message with Ok b => b | _ => false end.

(** [nonce] is the [randomBytes(24)] the call draws. *)
Definition encryptXSalsa20Poly1305Combined (nonce data key : bytes) : Res bytes :=
  ciphertext ← salsa_seal key nonce data;
  mret (nonce ++ ciphertext).

Definition decryptXSalsa20Poly1305Combined (data key : bytes) : Res bytes :=
  let nonce := take 24 data in
  let ciphertext := drop 24 data in
  salsa_open key nonce ciphertext.

(** ** [derivation.ts] *)

Inductive Purpose :=
| PIdentity | PCipher | PBind | PBindTag | PFingerprint | PPair | PBagKdm
| PRealmKey | PRealmID | PHostRLM | PExport.

Definition purpose_str (p : Purpose) : jsstr :=
  js match p with
     | PIdentity => "diplomatic.identity.v1"
     | PCipher => "diplomatic.cipher.v1"
     | PBind => "diplomatic.bind.v1"
     | PBindTag => "diplomatic.bindtag.v1"
     | PFingerprint => "diplomatic.fingerprint.v1"
     | PPair => "diplomatic.qrpair.v1"
     | PBagKdm => "diplomatic.bagkdm.v1"
     | PRealmKey => "diplomatic.realmKey.v1"
     | PRealmID => "diplomatic.realmID.v1"
     | PHostRLM => "diplomatic.hostRLM.v1"
     | PExport => "diplomatic.export.v1"
     end.

(** [Uint8Array | IKDM] *)
Inductive KDMArg := RawKDM (bs : bytes) | StructKDM (kdm : IKDM).

Definition kdm2bytes (kdm : KDMArg) : Res bytes :=
  match kdm with
  | RawKDM bs => Ok bs
  | StructKDM kdm => run_enc (cEncode kdmCodec kdm)
  end.

(** [try { return ok(f()) } catch { return err(st) }] *)
Definition catching {A} (st : Status) (r : Res A) : Res A :=
  match r with Ok a => Ok a | Err s => Err s | Throw => Err st end.

Definition derivePDK (parent : bytes) (purpose : Purpose) : Res bytes :=
  catching CryptoError (blake3_context parent (purpose_str purpose)).

Definition deriveChild (pdk : bytes) (kdm : KDMArg) : Res bytes :=
  bs ← kdm2bytes kdm;
  catching CryptoError (blake3_keyed bs pdk).

Definition deriveKey (parent : bytes) (purpose : Purpose) (kdm : KDMArg) : Res bytes :=
  pdk ← derivePDK parent purpose;
  deriveChild pdk kdm.

(** ** [realms.ts] *)

Definition deriveRealmKey (parent : bytes) (realmKDM : IKDM) : Res bytes :=
  deriveKey parent PRealmKey (StructKDM realmKDM).
Definition deriveRealmID (parent : bytes) (realmKDM : IKDM) : Res bytes :=
  deriveKey parent PRealmID (StructKDM realmKDM).
Definition deriveHostRLM (parent : bytes) (hostKDM : IKDM) : Res bytes :=
  deriveKey parent PHostRLM (StructKDM hostKDM).

(** ** [bagman.ts]

    Key wiping acts on buffers local to the call and is not modelled; a
    manager is the frozen record of its keys. *)
Record BagManager := mkBagManager {
  bm_publicKey : bytes;
  bm_idnt : bytes;
  bm_realm : bytes;
  bm_rlm : bytes;
  bm_idKDM : IKDM;
  bm_realmKDM : IKDM;
}.

Definition bm_init (idnt realm rlm : bytes) (idKDM realmKDM : IKDM) : Res BagManager :=
  catching CryptoError (
    keys ← deriveEd25519KeyPair idnt;
    mret (mkBagManager (publicKey keys) idnt realm rlm idKDM realmKDM)).

Definition bm_sign (m : BagManager) (message : bytes) : Res bytes :=
  keys ← catching CryptoError (deriveEd25519KeyPair (bm_idnt m));
  catching CryptoError (signEd25519 message (privateKey keys)).

Definition bm_bagKDM (m : BagManager) (msgHeadEnc : bytes) : Res bytes :=
  kdmPDK ← deriveKey (bm_idnt m) PBagKdm (RawKDM msgHeadEnc);
  mret (take (Z.to_nat kdmBytes) kdmPDK).

Definition bm_cipher (m : BagManager) (kdm : bytes) : Res bytes :=
  deriveKey (bm_realm m) PCipher (RawKDM kdm).

Definition bm_encrypt (m : BagManager) (nonce kdm data : bytes) : Res bytes :=
  key ← bm_cipher m kdm;
  catching CryptoError (encryptXSalsa20Poly1305Combined nonce data key).

Definition bm_decrypt (m : BagManager) (kdm data : bytes) : Res bytes :=
  key ← bm_cipher m kdm;
  catching DecryptionError (decryptXSalsa20Poly1305Combined data key).

(** A manager [bm_init] returned. *)
Definition bm_valid (m : BagManager) : Prop :=
  blen (bm_idnt m) = hashBytes ∧ blen (bm_rlm m) = hashBytes ∧
  bm_init (bm_idnt m) (bm_realm m) (bm_rlm m) (bm_idKDM m) (bm_realmKDM m) = Ok m.

(** ** Facts *)

Lemma bind_Ok {A B} (a : A) (k : A → Res B) : (Ok a : Res A) ≫= k = k a.
Proof. done. Qed.

Lemma res_bind_Ok_inv {A B} (r : Res A) (f : A → Res B) b :
  (a ← r; f a) = Ok b → ∃ a, r = Ok a ∧ f a = Ok b.
Proof. destruct r as [a| |]; simpl; [|done..]. eauto. Qed.

Lemma catching_Ok {A} st (r : Res A) a : catching st r = Ok a ↔ r = Ok a.
Proof. by destruct r. Qed.

Lemma catching_total {A} st (r : Res A) : catching st r ≠ Throw.
Proof. by destruct r. Qed.

Lemma res_bind_total {A B} (r : Res A) (f : A → Res B) :
  r ≠ Throw → (∀ a, f a ≠ Throw) → (a ← r; f a) ≠ Throw.
Proof. intros. by destruct r; simpl. Qed.

Context {L : CryptoLaws C}.

Lemma combined_roundtrip nonce data key cph :
  length nonce = 24%nat →
  encryptXSalsa20Poly1305Combined nonce data key = Ok cph →
  decryptXSalsa20Poly1305Combined cph key = Ok data.
Proof.
  intros Hn (ct & Hs & [= <-])%res_bind_Ok_inv.
  unfold decryptXSalsa20Poly1305Combined.
  rewrite <-Hn, take_app_length, drop_app_length. by apply salsa_open_seal.
Qed.

Lemma bm_decrypt_encrypt m nonce kdm data cph :
  length nonce = 24%nat →
  bm_encrypt m nonce kdm data = Ok cph → bm_decrypt m kdm cph = Ok data.
Proof.
  intros Hn (key & Hk & He%catching_Ok)%res_bind_Ok_inv.
  unfold bm_decrypt. rewrite Hk. simpl. apply catching_Ok.
  by apply combined_roundtrip with nonce.
Qed.

Lemma pkcs8Seed_32 seed : length seed = 32%nat → pkcs8Seed seed = seed.
Proof.
  intros H. unfold pkcs8Seed. rewrite (take_ge seed) by lia.
  by rewrite <-H, take_app_length.
Qed.

Lemma deriveEd25519KeyPair_ok seed pub :
  length seed = 32%nat → length pub = 32%nat → ed_public seed = Ok pub →
  deriveEd25519KeyPair seed = Ok (mkKeyPair pub (seed ++ pub)).
Proof.
  intros Hs Hp He. unfold deriveEd25519KeyPair. rewrite pkcs8Seed_32, He by done.
  assert (H1 : u8set (zeros 64) seed 0 = Ok (seed ++ zeros 32)).
  { unfold u8set. rewrite Hs. reflexivity. }
  simpl. rewrite H1. simpl.
  unfold u8set. rewrite Hp, length_app, Hs. simpl.
  rewrite <-Hs, take_app_length. rewrite drop_ge, app_nil_r; [done|].
  rewrite length_app, Hs. simpl. lia.
Qed.

Lemma ed_public_len seed pub msg sig :
  ed_public seed = Ok pub → ed_sign seed msg = Ok sig → length pub = 32%nat.
Proof.
  intros H1 H2. destruct (ed_sign_verifies seed pub msg sig H1 H2) as (H & _).
  unfold blen, pubKeyBytes in H. lia.
Qed.

Lemma blen_length bs n : blen bs = Z.of_nat n → length bs = n.
Proof. unfold blen. lia. Qed.

(** What a valid manager signs verifies under its public key. *)
Lemma bm_sign_verifies m msg sig :
  bm_valid m → bm_sign m msg = Ok sig →
  blen (bm_publicKey m) = pubKeyBytes ∧ blen sig = sigBytes ∧
  ∃ vk, importVerifyKey (bm_publicKey m) = Ok vk ∧ checkSigEd25519 sig msg vk = true.
Proof.
  intros (Hi & _ & Hm) (keys & Hk%catching_Ok & Hs%catching_Ok)%res_bind_Ok_inv.
  apply (blen_length _ 32) in Hi. unfold bm_init in Hm.
  apply catching_Ok in Hm. rewrite Hk in Hm. simpl in Hm. injection Hm as Hpk.
  unfold deriveEd25519KeyPair in Hk. rewrite pkcs8Seed_32 in Hk by done.
  apply res_bind_Ok_inv in Hk as (pub & Hpub & Hk).
  assert (H1 : u8set (zeros 64) (bm_idnt m) 0 = Ok (bm_idnt m ++ zeros 32)).
  { unfold u8set. rewrite Hi. reflexivity. }
  rewrite H1 in Hk. cbn [mbind Res_bind res_bind] in Hk.
  apply res_bind_Ok_inv in Hk as (p2 & Hp2 & [= <-]).
  unfold u8set in Hp2. case_match; [done|].
  injection Hp2 as <-. cbn [publicKey privateKey] in *.
  rewrite <-Hi, take_app_length in Hs. unfold signEd25519, pkcs8Seed in Hs.
  rewrite <-Hi, take_app_length, take_app_length in Hs.
  assert (Hpub' : bm_publicKey m = pub) by by rewrite <-Hpk. rewrite Hpub'.
  destruct (ed_sign_verifies _ _ _ _ Hpub Hs) as (H2 & H3 & vk & H4 & H5).
  split_and!; try done. exists vk. split; [done|].
  unfold checkSigEd25519. by rewrite H5.
Qed.

Lemma deriveKey_len parent p kdm k : deriveKey parent p kdm = Ok k → blen k = hashBytes.
Proof.
  intros (pdk & _ & H)%res_bind_Ok_inv.
  apply res_bind_Ok_inv in H as (bs & _ & H%catching_Ok).
  by apply (blake3_keyed_len (C := C)) in H.
Qed.

Lemma bm_bagKDM_len m head kdm : bm_bagKDM m head = Ok kdm → blen kdm = kdmBytes.
Proof.
  intros (k & H%deriveKey_len & [= <-])%res_bind_Ok_inv.
  unfold blen in *. rewrite length_take. unfold kdmBytes, hashBytes in *. lia.
Qed.

(** No key derivation, signature or cipher call raises. *)
Lemma run_enc_kdm_total k : run_enc (cEncode kdmCodec k) ≠ Throw.
Proof.
  assert (Hv : ∀ n e, (writeVarInt n e).1 ≠ Throw).
  { intros n e. unfold writeVarInt, writeVarNum, VarInt.encodeVarInt.
    by repeat case_match. }
  unfold run_enc. simpl. unfold writeVarString, mbind, M_bind, m_bind.
  set (n := blen _). pose proof (Hv n newEncoder).
  destruct (writeVarInt n newEncoder) as [[[]| |] e]; try done. simpl.
  pose proof (Hv (kdm_index k) (mkEnc (parts e ++ [text_encode (kdm_label k)]))).
  by destruct (writeVarInt (kdm_index k) _) as [[]].
Qed.

Lemma deriveKey_total parent p kdm : deriveKey parent p kdm ≠ Throw.
Proof.
  apply res_bind_total; [apply catching_total|]. intros pdk.
  apply res_bind_total; [|intros; apply catching_total].
  destruct kdm; [done|apply run_enc_kdm_total].
Qed.

Lemma bm_sign_total m msg : bm_sign m msg ≠ Throw.
Proof. apply res_bind_total; intros; apply catching_total. Qed.
Lemma bm_decrypt_total m kdm cph : bm_decrypt m kdm cph ≠ Throw.
Proof. apply res_bind_total; [apply deriveKey_total|]. intros; apply catching_total. Qed.
End crypto.

Arguments mkBagManager : clear implicits.

(** ** A concrete instance *)

Module Toy.

(** A key pair is a padded seed twice; a signature is the key with a hash of
    the message; the cipher is the identity; the hash is the length and the
    byte sum. *)
Definition toy_hash (bs : bytes) : bytes :=
  be_bytes 32 (fold_left (λ acc b, (acc * 257 + byteZ b + 1) mod 2 ^ 61) bs 7).
Definition toy_sig (pk msg : bytes) : bytes := toy_hash pk ++ toy_hash (pk ++ msg).

#[export] Instance toy : CryptoPrims := {|
  CryptoKey := bytes;
  subtle_importVerify pk := if blen pk =? pubKeyBytes then Ok pk else Throw;
  subtle_verify vk sig msg := Ok (bytesEqual sig (toy_sig vk msg));
  ed_public seed := if blen seed =? 32 then Ok seed else Throw;
  ed_sign seed msg := Ok (toy_sig seed msg);
  blake3hash := toy_hash;
  blake3_keyed txt key := Ok (toy_hash (key ++ txt));
  blake3_context txt ctx := Ok (toy_hash (text_encode ctx ++ txt));
  salsa_seal key nonce txt := Ok txt;
  salsa_open key nonce cph := Ok cph;
|}.

Lemma toy_hash_len bs : blen (toy_hash bs) = 32.
Proof. apply be_bytes_len. Qed.

#[export] Instance toy_laws : CryptoLaws toy.
Proof.
  split.
  - intros seed pub msg sig H1 [= <-]. simpl in *.
    destruct (Z.eqb_spec (blen seed) 32) as [E|]; [|done]. injection H1 as <-.
    split; [done|]. split; [unfold toy_sig; by rewrite blen_app, !toy_hash_len|].
    exists seed. simpl. rewrite E. by rewrite bytesEqual_refl.
  - intros key nonce txt cph [= <-]. done.
  - intros. apply toy_hash_len.
  - intros txt key h [= <-]. apply toy_hash_len.
Qed.

(** A manager over the toy primitives. *)
Definition toy_mgr : BagManager :=
  mkBagManager (be_bytes 32 5) (be_bytes 32 5) (be_bytes 32 6) (be_bytes 32 7)
    nullKDM nullKDM.

Lemma toy_mgr_valid : bm_valid toy_mgr.
Proof. vm_compute. done. Qed.

End Toy.
