(* ===== verification/Auth.v ===== *)
(** * Authenticated timestamps and clocks ([shared/auth.ts], [shared/clock.ts])

    A client proves control of its public key by signing a timestamp; the host
    accepts it when it is near the host's clock and the signature verifies. *)
From S2P Require Export Crypto.
From Stdlib Require Import QArith_base Qabs.

#[local] Open Scope Z_scope.
#[local] Abbreviation num := (option Z).

Section auth.
Context {C : CryptoPrims}.

Definition makeAuthTimestamp (identity : BagManager) (ts : Date) : Res IAuthTimestamp :=
  encodedTs ← run_enc (writeDate ts);
  sig ← bm_sign identity encodedTs;
  mret (mkAuthTS (bm_publicKey identity) sig ts).

(** [Math.abs] *)
Definition fabs (a : num) : num := x ← a; Some (Z.abs x).

(** [now] is the [clock.now()] the call reads.  The status of the date write
    is dropped, an exception it raises is not. *)
Definition validateAuthTimestamp (authTS : IAuthTimestamp) (now : Date) : Res unit :=
  let currentTime := getTime now in
  let tsTime := getTime (at_timestamp authTS) in
  let diff := fabs (fsub currentTime tsTime) in
  if flt (Some clockToleranceMs) diff then Err ClockOutOfSync
  else
    data ← run_enc (m_ignore (writeDate (at_timestamp authTS)));
    match importVerifyKey (at_pubKey authTS) with
    | Ok verifyKey =>
        if negb (checkSigEd25519 (at_sig authTS) data verifyKey)
        then Err InvalidSignature
        else Ok tt
    | _ => Err CryptoError
    end.

(** ** [clock.ts]: NTP-style offset, in half milliseconds *)

(** The division by two is exact on doubles of this size; the result is the
    rational [delays / 2]. *)
Definition offset (timeSentClient timeRcvdHost timeSentHost timeRcvdClient : Date)
    : option Q :=
  let delayHostRecv := fsub (getTime timeRcvdHost) (getTime timeSentClient) in
  let delayClientRecv := fsub (getTime timeSentHost) (getTime timeRcvdClient) in
  d ← fadd delayHostRecv delayClientRecv;
  Some (d # 2)%Q.

(** ** Facts *)

Lemma fsub_dates a b :
  date_ok (Some a) → date_ok (Some b) → fsub (Some a) (Some b) = Some (a - b).
Proof.
  intros (? & [= <-] & ?) (? & [= <-] & ?). unfold fsub. simpl.
  rewrite Number_safe; [done|]. unfold maxDate, maxSafe in *. lia.
Qed.

Lemma run_enc_date d : date_ok d → run_enc (m_ignore (writeDate d)) = Ok (date_wire d).
Proof. intros H. apply encodes_run. eauto with codec. Qed.

(** The accepting condition, spelled out for dates in range. *)
Definition auth_fresh (t now : Z) : bool := Z.abs (now - t) <=? clockToleranceMs.

Lemma validate_eq pk sig t n :
  date_ok (Some t) → date_ok (Some n) →
  validateAuthTimestamp (mkAuthTS pk sig (Some t)) (Some n) =
    if negb (auth_fresh t n) then Err ClockOutOfSync
    else match importVerifyKey pk with
         | Ok vk => if checkSigEd25519 sig (date_wire (Some t)) vk
                    then Ok tt else Err InvalidSignature
         | _ => Err CryptoError
         end.
Proof.
  intros Ht Hn. unfold validateAuthTimestamp, getTime. cbn [at_timestamp at_pubKey at_sig].
  rewrite fsub_dates by done. cbn [fabs flt mbind option_bind].
  unfold auth_fresh. destruct (Z.ltb_spec clockToleranceMs (Z.abs (n - t))) as [H|H].
  - by rewrite (proj2 (Z.leb_gt _ _)).
  - rewrite (proj2 (Z.leb_le _ _)) by done. rewrite run_enc_date by done. simpl.
    destruct (importVerifyKey pk); [|done..]. by destruct (checkSigEd25519 _ _ _).
Qed.

(** Only a date the decoder could not represent makes validation raise. *)
Lemma validate_total a now :
  is_Some (at_timestamp a) → validateAuthTimestamp a now ≠ Throw.
Proof.
  intros [t Ht]. unfold validateAuthTimestamp. rewrite Ht. case_match; [done|].
  apply res_bind_total.
  - unfold run_enc, m_ignore, writeDate, writeVarNum, getTime, VarInt.encodeVarInt.
    repeat case_match; simplify_eq; done.
  - intros d. by repeat case_match.
Qed.

Lemma validate_ok_inv a now :
  validateAuthTimestamp a now = Ok tt →
  ∃ data vk, run_enc (m_ignore (writeDate (at_timestamp a))) = Ok data ∧
    importVerifyKey (at_pubKey a) = Ok vk ∧ checkSigEd25519 (at_sig a) data vk = true ∧
    flt (Some clockToleranceMs) (fabs (fsub (getTime now) (getTime (at_timestamp a)))) = false.
Proof.
  unfold validateAuthTimestamp. case_match; [done|].
  intros (data & Hd & H1)%res_bind_Ok_inv. exists data.
  destruct (importVerifyKey _) as [vk| |]; [|done..]. exists vk.
  destruct (checkSigEd25519 _ _ _) eqn:E; [|done]. by split_and!.
Qed.

Lemma makeAuth_fields m ts a :
  makeAuthTimestamp m ts = Ok a → at_pubKey a = bm_publicKey m ∧ at_timestamp a = ts.
Proof.
  intros (e & _ & (s & _ & [= <-])%res_bind_Ok_inv)%res_bind_Ok_inv. done.
Qed.

Context {L : CryptoLaws C}.

Lemma makeAuth_ok m t a :
  bm_valid m → date_ok (Some t) → makeAuthTimestamp m (Some t) = Ok a →
  authTS_ok a ∧
  ∃ vk, importVerifyKey (at_pubKey a) = Ok vk ∧
        checkSigEd25519 (at_sig a) (date_wire (Some t)) vk = true.
Proof.
  intros Hm Ht (e & He & (s & Hs & [= <-])%res_bind_Ok_inv)%res_bind_Ok_inv.
  cbn [at_pubKey at_sig at_timestamp].
  rewrite (encodes_run (writeDate (Some t)) (date_wire (Some t))) in He by eauto with codec.
  injection He as <-.
  destruct (bm_sign_verifies m _ s Hm Hs) as (H1 & H2 & vk & H3 & H4).
  split; [by split_and!|eauto].
Qed.

(** A host accepts what a client signed, exactly while the two clocks agree to
    within the tolerance. *)
Lemma makeAuth_validates m t n a :
  bm_valid m → date_ok (Some t) → date_ok (Some n) →
  makeAuthTimestamp m (Some t) = Ok a →
  validateAuthTimestamp a (Some n) =
    if auth_fresh t n then Ok tt else Err ClockOutOfSync.
Proof.
  intros Hm Ht Hn Ha.
  destruct (makeAuth_ok m t a Hm Ht Ha) as (_ & vk & H1 & H2).
  destruct (makeAuth_fields _ _ _ Ha) as [Hp Hts].
  destruct a as [pk sig ts]. cbn [at_pubKey at_timestamp at_sig] in *. subst ts.
  rewrite validate_eq by done. rewrite H1, H2. by destruct (auth_fresh t n).
Qed.

End auth.

(** A timestamp past the [Date] range decodes to an Invalid Date: its distance
    to the clock is [NaN], which no tolerance rejects, and encoding it raises. *)
Example validate_invalid_date :
  validateAuthTimestamp (C := Toy.toy) (mkAuthTS [] [] (mkDate (Some (2 ^ 53)))) (Some 0) = Throw.
Proof. vm_compute. reflexivity. Qed.

(** ** The offset estimate *)

(** The host clock runs [theta] ahead of the client's; the request takes [d1]
    and the response [d2]. *)
Lemma offset_eq t1 theta d1 proc d2 :
  date_ok (Some t1) → date_ok (Some (t1 + theta + d1)) →
  date_ok (Some (t1 + theta + d1 + proc)) → date_ok (Some (t1 + d1 + proc + d2)) →
  Z.abs (2 * theta + d1 - d2) <= maxSafe →
  offset (Some t1) (Some (t1 + theta + d1)) (Some (t1 + theta + d1 + proc))
    (Some (t1 + d1 + proc + d2)) = Some ((2 * theta + d1 - d2) # 2)%Q.
Proof.
  intros H1 H2 H3 H4 H5. unfold offset, getTime. rewrite !fsub_dates by done.
  unfold fadd. simpl. rewrite Number_safe by (unfold maxSafe in *; lia).
  do 2 f_equal. lia.
Qed.

(** Estimate error: never more than half the round trip. *)
Definition offset_error (o : option Q) (theta : Z) : option Q :=
  q ← o; Some (Qabs (q - inject_Z theta))%Q.

Lemma offset_error_bound theta d1 d2 :
  0 <= d1 → 0 <= d2 →
  (Qabs ((2 * theta + d1 - d2 # 2) - inject_Z theta) <= (d1 + d2 # 2))%Q.
Proof.
  intros. apply Qabs_case; intros _; unfold Qle, Qminus, Qplus, Qopp, inject_Z; simpl; lia.
Qed.

(** Clock offset: for a host clock [theta] ahead of the client's, a
    request that takes [d1] and a response that takes [d2], the estimate is
    [theta + (d1 - d2) / 2]; it is exact for equal delays and never off by
    more than half the time on the wire. *)
Theorem clock_offset_estimate (t1 theta d1 proc d2 : Z)
    (H1 : date_ok (Some t1)) (H2 : date_ok (Some (t1 + theta + d1)))
    (H3 : date_ok (Some (t1 + theta + d1 + proc)))
    (H4 : date_ok (Some (t1 + d1 + proc + d2)))
    (H5 : Z.abs (2 * theta + d1 - d2) <= maxSafe) (Hd1 : 0 <= d1) (Hd2 : 0 <= d2) :
  ∃ q, offset (Some t1) (Some (t1 + theta + d1)) (Some (t1 + theta + d1 + proc))
         (Some (t1 + d1 + proc + d2)) = Some q ∧
    (Qabs (q - inject_Z theta) <= (d1 + d2) # 2)%Q ∧
    (d1 = d2 → (q == inject_Z theta)%Q).
Proof.
  exists ((2 * theta + d1 - d2) # 2)%Q. split; [by apply offset_eq|].
  split; [by apply offset_error_bound|]. intros ->.
  unfold Qeq, inject_Z. simpl. lia.
Qed.

Lemma clock_offset_estimate_witness :
  0 <= 40 ∧
  ∃ q, offset (Some 1000) (Some (1000 + 250 + 40)) (Some (1000 + 250 + 40 + 5))
         (Some (1000 + 40 + 5 + 40)) = Some q ∧
    (Qabs (q - inject_Z 250) <= (40 + 40) # 2)%Q ∧
    (40 = 40 → (q == inject_Z 250)%Q).
Proof.
  assert (Hd : ∀ z, 0 <= z <= maxDate → date_ok (Some z)) by (intros z ?; exists z; split; [reflexivity|assumption]).
  split; [lia|].
  apply (clock_offset_estimate 1000 250 40 5 40);
    first [ apply Hd; unfold maxDate; lia | unfold maxSafe; lia ].
Defined.
