(* ===== verification/Storage.v ===== *)
(** * Host storage: the contract and the in-memory implementation

    [IStorage] and [StorageSpec] are the interface of [shared/types.ts]
    ([IStorage]) and what it promises: per user and realm an append-only log,
    whose entries are numbered from 1 without gaps.  [Mem] models
    [shared/storage/memory.ts] and discharges the contract. *)
From S2P Require Export CodecsFacts Binary Js.

(** ** The operations *)

Inductive ISetBagResult := SetStored (seq : Z) | SetFailed (st : Status).

Class IStorage (S : Type) := {
  addUser : bytes → M S unit;
  hasUser : bytes → M S bool;
  subMeta : bytes → M S ISubscriptionMetadata;
  setBags : bytes → list IBag → M S (list ISetBagResult);
  getBodies : bytes → bytes → list Z → M S (list (Z * bytes));
  listHeads : bytes → bytes → Z → M S (list IBagPeekItem);
}.

(** ** The abstract log *)

Record Entry := mkEntry { en_headCph : bytes; en_bodyCph : bytes }.

(** What is stored for a bag: its head with signature and kdm in front. *)
Definition bag_peekHead (b : IBag) : IBagPeekItemHead :=
  mkPeekItemHead (bag_sig b) (bag_kdm b) (bag_headCph b).

Definition entry_of (b : IBag) : Entry :=
  mkEntry (peekItemHead_wire (bag_peekHead b)) (bag_bodyCph b).

Definition rlm_valid (rlm : bytes) : bool := blen rlm =? hashBytes.

(** The entries a batch adds to the log of one realm, in order. *)
Fixpoint bag_entries (rlm : bytes) (bags : list IBag) : list Entry :=
  match bags with
  | [] => []
  | b :: bags =>
      (if rlm_valid (bag_rlm b) && bool_decide (bag_rlm b = rlm) then [entry_of b] else [])
      ++ bag_entries rlm bags
  end.

(** The results of a batch, given the lengths of the logs before it. *)
Fixpoint set_results (len : bytes → Z) (bags : list IBag) : list ISetBagResult :=
  match bags with
  | [] => []
  | b :: bags =>
      if rlm_valid (bag_rlm b) then
        SetStored (len (bag_rlm b) + 1)
          :: set_results (λ r, len r + (if decide (r = bag_rlm b) then 1 else 0)) bags
      else SetFailed InvalidParam :: set_results len bags
  end.

Definition log_at (log : list Entry) (seq : Z) : option Entry :=
  if seq <? 1 then None else log !! Z.to_nat (seq - 1).

Definition log_bodies (log : list Entry) (seqs : list Z) : list (Z * bytes) :=
  omap (λ seq, e ← log_at log seq; Some (seq, en_bodyCph e)) seqs.

Fixpoint log_items (n : Z) (log : list Entry) : list IBagPeekItem :=
  match log with
  | [] => []
  | e :: log => mkPeekItem n (en_headCph e) :: log_items (n + 1) log
  end.

(** Heads numbered above [minSeq], in order. *)
Definition log_heads (log : list Entry) (minSeq : Z) : list IBagPeekItem :=
  filter (λ i, minSeq < pk_seq i) (log_items 1 log).

Definition storable (b : IBag) : Prop := bytes_ok (bag_headCph b).

(** ** The contract *)

Class StorageSpec (S : Type) {I : IStorage S} := {
  sto_wf : S → Prop;
  sto_user : S → bytes → bool;
  sto_log : S → bytes → bytes → list Entry;
  addUser_spec pk s : sto_wf s →
    ∃ s', addUser pk s = (Ok tt, s') ∧ sto_wf s' ∧
      (∀ pk', sto_user s' pk' = bool_decide (pk' = pk) || sto_user s pk') ∧
      (∀ pk' rlm, sto_log s' pk' rlm = sto_log s pk' rlm);
  hasUser_spec pk s : sto_wf s → hasUser pk s = (Ok (sto_user s pk), s);
  setBags_spec pk bags s : sto_wf s → Forall storable bags →
    ∃ s', setBags pk bags s =
        (Ok (set_results (λ rlm, Z.of_nat (length (sto_log s pk rlm))) bags), s') ∧
      sto_wf s' ∧
      (∀ pk', sto_user s' pk' = sto_user s pk') ∧
      (∀ pk' rlm, sto_log s' pk' rlm =
         sto_log s pk' rlm ++ if decide (pk' = pk) then bag_entries rlm bags else []);
  getBodies_spec pk rlm seqs s : sto_wf s →
    getBodies pk rlm seqs s =
      (if rlm_valid rlm then Ok (log_bodies (sto_log s pk rlm) seqs)
       else Err InvalidParam, s);
  listHeads_spec pk rlm minSeq s : sto_wf s →
    listHeads pk rlm minSeq s =
      (if rlm_valid rlm then Ok (log_heads (sto_log s pk rlm) minSeq)
       else Err InvalidParam, s);
}.

(** ** Facts about the log *)

Lemma bag_entries_app rlm b1 b2 :
  bag_entries rlm (b1 ++ b2) = bag_entries rlm b1 ++ bag_entries rlm b2.
Proof. induction b1; simpl; [done|]. by rewrite IHb1, (assoc_L app). Qed.

Lemma set_results_ext f g bags :
  (∀ r, f r = g r) → set_results f bags = set_results g bags.
Proof.
  revert f g. induction bags as [|b bags IH]; intros f g H; [done|]. cbn [set_results].
  rewrite H. case_match; [|by rewrite (IH f g)].
  f_equal. apply IH. intros r. by rewrite H.
Qed.

Lemma set_results_length f bags : length (set_results f bags) = length bags.
Proof.
  revert f. induction bags as [|b bags IH]; intros f; [done|]. simpl.
  case_match; simpl; by rewrite IH.
Qed.

Lemma log_items_lookup n log i :
  log_items n log !! i =
  e ← log !! i; Some (mkPeekItem (n + Z.of_nat i) (en_headCph e)).
Proof.
  revert n i. induction log as [|e log IH]; intros n [|i]; simpl; try done.
  - by rewrite Z.add_0_r.
  - rewrite IH. destruct (log !! i); [|done]. simpl. do 2 f_equal. lia.
Qed.

Lemma log_items_app n l1 l2 :
  log_items n (l1 ++ l2) = log_items n l1 ++ log_items (n + Z.of_nat (length l1)) l2.
Proof.
  revert n. induction l1 as [|e l1 IH]; intros n; simpl; [by rewrite Z.add_0_r|].
  rewrite IH. do 3 f_equal. lia.
Qed.

Lemma log_items_above n log m :
  m < n → filter (λ i, m < pk_seq i) (log_items n log) = log_items n log.
Proof.
  revert n. induction log as [|e log IH]; intros n Hn; [done|]. cbn [log_items].
  rewrite filter_cons_True by done. by rewrite IH by lia.
Qed.

Lemma log_items_below n log m :
  n + Z.of_nat (length log) <= m + 1 → filter (λ i, m < pk_seq i) (log_items n log) = [].
Proof.
  revert n. induction log as [|e log IH]; intros n Hn; [done|]. cbn [log_items length] in *.
  rewrite filter_cons_False by (simpl; lia). apply IH. lia.
Qed.

(** A cursor at the end of the old log sees exactly what was appended. *)
Lemma log_heads_app l1 l2 :
  log_heads (l1 ++ l2) (Z.of_nat (length l1)) = log_items (Z.of_nat (length l1) + 1) l2.
Proof.
  unfold log_heads. rewrite log_items_app, filter_app, log_items_below by lia.
  rewrite (Z.add_comm 1). by rewrite log_items_above by lia.
Qed.

Lemma log_items_seqs n log : Forall (λ i, n <= pk_seq i) (log_items n log).
Proof.
  revert n. induction log as [|e log IH]; intros n; constructor; [simpl; lia|].
  eapply Forall_impl; [apply IH|]. simpl. lia.
Qed.

Lemma log_at_app_l l1 l2 seq e : log_at l1 seq = Some e → log_at (l1 ++ l2) seq = Some e.
Proof. unfold log_at. case_match; [done|]. apply lookup_app_l_Some. Qed.

Lemma log_at_end l e : log_at (l ++ [e]) (Z.of_nat (length l) + 1) = Some e.
Proof.
  unfold log_at. rewrite (proj2 (Z.ltb_ge _ _)) by lia.
  replace (Z.to_nat (Z.of_nat (length l) + 1 - 1)) with (length l) by lia.
  by rewrite list_lookup_middle.
Qed.

(** ** [createMemoryStorage] *)

Module Mem.

Record Item := mkItem { it_headCph : bytes; it_bodyCph : bytes }.

Abbreviation Realm := (jsmap Z Item).
Abbreviation User := (jsmap jsstr Realm).

Record MemStorage := mkMem { ms_users : list jsstr; ms_bag : jsmap jsstr User }.

Definition createMemoryStorage : MemStorage := mkMem [] [].

Definition mem_addUser (pubKey : bytes) : M MemStorage unit := λ s,
  (Ok tt, mkMem (set_add (btoh pubKey) (ms_users s)) (ms_bag s)).

Definition mem_hasUser (pubKey : bytes) : M MemStorage bool := λ s,
  (Ok (set_has (btoh pubKey) (ms_users s)), s).

Definition mem_subMeta (_ : bytes) : M MemStorage ISubscriptionMetadata :=
  mret nullSubMeta.

(** [for (const seq of realm.keys()) if (seq > max) max = seq] *)
Definition max_key (realm : Realm) : Z :=
  fold_left (λ mx seq, if mx <? seq then seq else mx) (map_keys realm) 0.

(** One pass of the loop over the user's realms [userBags] and the running
    per-realm maxima [maxBy]. *)
Fixpoint setBags_loop (bags : list IBag) (userBags : User) (maxBy : jsmap jsstr Z)
    (out : list ISetBagResult) : Res (list ISetBagResult) * User :=
  match bags with
  | [] => (Ok out, userBags)
  | bag :: bags =>
      if negb (blen (bag_rlm bag) =? hashBytes) then
        setBags_loop bags userBags maxBy (out ++ [SetFailed InvalidParam])
      else
        let rlmHex := btoh (bag_rlm bag) in
        let realm := default [] (map_get rlmHex userBags) in
        let userBags :=
          match map_get rlmHex userBags with
          | Some _ => userBags
          | None => map_set rlmHex realm userBags
          end in
        let mx := match map_get rlmHex maxBy with
                  | Some mx => mx
                  | None => max_key realm
                  end in
        let mx := mx + 1 in
        let maxBy := map_set rlmHex mx maxBy in
        match run_enc (writeStruct peekItemHeadCodec (bag_peekHead bag)) with
        | Err status => (Err status, userBags)
        | Throw => (Throw, userBags)
        | Ok enc =>
            let realm := map_set mx (mkItem enc (bag_bodyCph bag)) realm in
            setBags_loop bags (map_set rlmHex realm userBags) maxBy
              (out ++ [SetStored mx])
        end
  end.

Definition mem_setBags (pubKey : bytes) (bags : list IBag)
    : M MemStorage (list ISetBagResult) := λ s,
  if Z.of_nat (length bags) <? 1 then (Ok [], s)
  else
    let pubKeyHex := btoh pubKey in
    let userBags := default [] (map_get pubKeyHex (ms_bag s)) in
    let '(res, userBags) := setBags_loop bags userBags [] [] in
    (res, mkMem (ms_users s) (map_set pubKeyHex userBags (ms_bag s))).

Definition mem_realm (s : MemStorage) (pubKey rlm : bytes) : option Realm :=
  u ← map_get (btoh pubKey) (ms_bag s); map_get (btoh rlm) u.

Definition mem_getBodies (pubKey rlm : bytes) (seqs : list Z)
    : M MemStorage (list (Z * bytes)) := λ s,
  if negb (blen rlm =? hashBytes) then (Err InvalidParam, s)
  else if Z.of_nat (length seqs) <? 1 then (Ok [], s)
  else match mem_realm s pubKey rlm with
       | None => (Ok [], s)
       | Some realm =>
           (Ok (omap (λ seq, item ← map_get seq realm; Some (seq, it_bodyCph item)) seqs), s)
       end.

Definition mem_listHeads (pubKey rlm : bytes) (minSeq : Z)
    : M MemStorage (list IBagPeekItem) := λ s,
  if negb (blen rlm =? hashBytes) then (Err InvalidParam, s)
  else
    let list :=
      match mem_realm s pubKey rlm with
      | None => []
      | Some realm =>
          omap (λ '(seq, item),
            if minSeq <? seq then Some (mkPeekItem seq (it_headCph item)) else None) realm
      end in
    (Ok (js_sort (by_key pk_seq) list), s).

#[export] Instance mem_storage : IStorage MemStorage := {|
  addUser := mem_addUser;
  hasUser := mem_hasUser;
  subMeta := mem_subMeta;
  setBags := mem_setBags;
  getBodies := mem_getBodies;
  listHeads := mem_listHeads;
|}.

(** ** Representation invariant

    A realm's map holds the entries of its log under 1, 2, 3, ... in order. *)

Definition item_of (e : Entry) : Item := mkItem (en_headCph e) (en_bodyCph e).
Definition entry_from (i : Item) : Entry := mkEntry (it_headCph i) (it_bodyCph i).

Fixpoint realm_from (n : Z) (log : list Entry) : Realm :=
  match log with [] => [] | e :: log => (n, item_of e) :: realm_from (n + 1) log end.

Definition realm_log (r : Realm) : list Entry := entry_from <$> map_values r.
Definition realm_wf (r : Realm) : Prop := r = realm_from 1 (realm_log r).

Definition user_log (u : User) (rlm : bytes) : list Entry :=
  realm_log (default [] (map_get (btoh rlm) u)).
Definition user_wf (u : User) : Prop := ∀ h r, map_get h u = Some r → realm_wf r.

Definition mem_log (s : MemStorage) (pk rlm : bytes) : list Entry :=
  user_log (default [] (map_get (btoh pk) (ms_bag s))) rlm.
Definition mem_wf (s : MemStorage) : Prop :=
  ∀ h u, map_get h (ms_bag s) = Some u → user_wf u.

Lemma realm_log_from n log : realm_log (realm_from n log) = log.
Proof.
  revert n. induction log as [|[h b] log IH]; intros n; [done|].
  unfold realm_log in *. simpl. by rewrite IH.
Qed.

Lemma realm_from_wf log : realm_wf (realm_from 1 log).
Proof. unfold realm_wf. by rewrite realm_log_from. Qed.

Lemma realm_from_app n l1 l2 :
  realm_from n (l1 ++ l2) = realm_from n l1 ++ realm_from (n + Z.of_nat (length l1)) l2.
Proof.
  revert n. induction l1 as [|e l1 IH]; intros n; cbn [realm_from app length];
    [by rewrite Z.add_0_r|].
  rewrite IH. do 3 f_equal. lia.
Qed.

Lemma realm_from_keys n log k :
  k ∈ map_keys (realm_from n log) → n <= k < n + Z.of_nat (length log).
Proof.
  revert n. induction log as [|e log IH]; intros n; simpl; [by intros ?%not_elem_of_nil|].
  intros [->|H]%elem_of_cons; [lia|]. apply IH in H. lia.
Qed.

Lemma realm_from_get n log k :
  map_get k (realm_from n log) =
  if k <? n then None else item_of <$> log !! Z.to_nat (k - n).
Proof.
  revert n. induction log as [|e log IH]; intros n; cbn [realm_from map_get].
  - rewrite lookup_nil. by case_match.
  - destruct (decide (k = n)) as [->|Hk].
    + rewrite Z.ltb_irrefl, Z.sub_diag. done.
    + rewrite IH. destruct (Z.ltb_spec k n), (Z.ltb_spec k (n + 1)); try lia; [done|].
      replace (Z.to_nat (k - n)) with (S (Z.to_nat (k - (n + 1)))) by lia. done.
Qed.

Lemma realm_from_push log e :
  map_set (Z.of_nat (length log) + 1) (item_of e) (realm_from 1 log) =
  realm_from 1 (log ++ [e]).
Proof.
  rewrite map_set_new.
  - rewrite realm_from_app. cbn [realm_from]. do 3 f_equal. lia.
  - intros H%realm_from_keys. lia.
Qed.

Lemma realm_push r e :
  realm_wf r →
  map_set (Z.of_nat (length (realm_log r)) + 1) (item_of e) r =
  realm_from 1 (realm_log r ++ [e]).
Proof. intros H. unfold realm_wf in H. rewrite H at 2. apply realm_from_push. Qed.

Lemma max_key_from n log mx :
  mx < n →
  fold_left (λ mx seq, if mx <? seq then seq else mx) (map_keys (realm_from n log)) mx =
  if decide (log = []) then mx else n + Z.of_nat (length log) - 1.
Proof.
  revert n mx. induction log as [|e log IH]; intros n mx Hn; [done|].
  cbn [realm_from map_keys fmap list_fmap fst fold_left].
  rewrite (proj2 (Z.ltb_lt _ _)) by done. unfold map_keys in IH. rewrite IH by lia.
  destruct log; simpl; lia.
Qed.

Lemma max_key_log r : realm_wf r → max_key r = Z.of_nat (length (realm_log r)).
Proof.
  intros H. unfold realm_wf in H. unfold max_key. rewrite H at 1.
  rewrite max_key_from by done.
  case_decide as E; [by rewrite E|lia].
Qed.

Lemma omap_items n log minSeq :
  omap (λ '(seq, item),
    if minSeq <? seq then Some (mkPeekItem seq (it_headCph item)) else None)
    (realm_from n log) =
  filter (λ i, minSeq < pk_seq i) (log_items n log).
Proof.
  revert n. induction log as [|e log IH]; intros n; [done|].
  cbn [realm_from log_items omap list_omap]. rewrite IH.
  destruct (Z.ltb_spec minSeq n).
  - by rewrite filter_cons_True.
  - rewrite filter_cons_False; [done|]. simpl. lia.
Qed.

Lemma realm_get r k : realm_wf r → map_get k r = item_of <$> log_at (realm_log r) k.
Proof.
  intros H. unfold realm_wf in H. rewrite H at 1. rewrite realm_from_get.
  unfold log_at. by case_match.
Qed.

Lemma realm_items r minSeq :
  realm_wf r →
  omap (λ '(seq, item),
    if minSeq <? seq then Some (mkPeekItem seq (it_headCph item)) else None) r =
  log_heads (realm_log r) minSeq.
Proof. intros H. unfold realm_wf in H. rewrite H at 1. apply omap_items. Qed.

Lemma log_items_sorted n log :
  Sorted.StronglySorted (cmp_le (by_key pk_seq)) (log_items n log).
Proof.
  revert n. induction log as [|e log IH]; intros n; constructor; [done|].
  eapply Forall_impl; [apply log_items_seqs|]. unfold cmp_le, by_key. simpl. lia.
Qed.

Lemma filter_sorted {A} (R : A → A → Prop) (P : A → Prop) `{∀ x, Decision (P x)} l :
  Sorted.StronglySorted R l → Sorted.StronglySorted R (filter P l).
Proof.
  induction 1 as [|x l Hl IH Hx]; [constructor|]. rewrite filter_cons.
  case_decide; [|done]. constructor; [done|].
  rewrite Forall_forall in *. intros y [_ Hy]%list_elem_of_filter. auto.
Qed.

(** ** The loop of [setBags] *)

Definition max_ok (maxBy : jsmap jsstr Z) (u : User) : Prop :=
  ∀ rlm mx, map_get (btoh rlm) maxBy = Some mx → mx = Z.of_nat (length (user_log u rlm)).

Lemma user_log_set u h r rlm :
  user_log (map_set h r u) rlm = if decide (btoh rlm = h) then realm_log r else user_log u rlm.
Proof. unfold user_log. rewrite map_get_set. by case_decide. Qed.

Lemma user_wf_set u h r : user_wf u → realm_wf r → user_wf (map_set h r u).
Proof. intros Hu Hr h' r'. rewrite map_get_set. case_decide; [by intros [= <-]|apply Hu]. Qed.

Lemma user_wf_default u h : user_wf u → realm_wf (default [] (map_get h u)).
Proof. intros Hu. destruct (map_get h u) eqn:E; [by eapply Hu|done]. Qed.

Lemma encode_entry b :
  storable b →
  run_enc (writeStruct peekItemHeadCodec (bag_peekHead b)) =
    Ok (peekItemHead_wire (bag_peekHead b)).
Proof.
  intros Hb. apply encodes_run. unfold storable in Hb. simpl. enc_steps.
Qed.

Lemma setBags_loop_spec bags u maxBy out :
  user_wf u → max_ok maxBy u → Forall storable bags →
  ∃ u', setBags_loop bags u maxBy out =
      (Ok (out ++ set_results (λ rlm, Z.of_nat (length (user_log u rlm))) bags), u') ∧
    user_wf u' ∧ ∀ rlm, user_log u' rlm = user_log u rlm ++ bag_entries rlm bags.
Proof.
  intros Hu Hm Hs. revert u maxBy out Hu Hm.
  induction Hs as [|b bags Hb _ IH]; intros u maxBy out Hu Hm.
  { exists u. simpl. rewrite app_nil_r. split_and!; [done..|].
    intros. by rewrite app_nil_r. }
  cbn [setBags_loop set_results bag_entries]. unfold rlm_valid.
  destruct (blen (bag_rlm b) =? hashBytes) eqn:Hrlm; cbn [negb andb].
  - set (h := btoh (bag_rlm b)). set (r := default [] (map_get h u)).
    assert (Hr : realm_wf r) by by apply user_wf_default.
    assert (Hlog : user_log u (bag_rlm b) = realm_log r) by done.
    set (mx := match map_get h maxBy with Some mx => mx | None => max_key r end).
    assert (Hmx : mx = Z.of_nat (length (realm_log r))).
    { unfold mx. destruct (map_get h maxBy) eqn:E; [by apply Hm in E|by apply max_key_log]. }
    rewrite encode_entry by done. rewrite Hmx. cbv zeta.
    change (mkItem _ _) with (item_of (entry_of b)). rewrite realm_push by done.
    set (r' := realm_from 1 (realm_log r ++ [entry_of b])).
    set (u1 := match map_get h u with Some _ => u | None => map_set h r u end).
    assert (Hu1 : user_wf u1).
    { unfold u1. destruct (map_get h u); [done|by apply user_wf_set]. }
    assert (Hl1 : ∀ rlm, user_log (map_set h r' u1) rlm =
      user_log u rlm ++ if decide (rlm = bag_rlm b) then [entry_of b] else []).
    { intros rlm. rewrite user_log_set. destruct (decide (rlm = bag_rlm b)) as [->|Hne].
      - rewrite decide_True by done. unfold r'. by rewrite realm_log_from.
      - rewrite decide_False by by intros ?%(inj btoh). rewrite app_nil_r.
        unfold u1. destruct (map_get h u); [done|]. rewrite user_log_set.
        by rewrite decide_False by by intros ?%(inj btoh). }
    destruct (IH (map_set h r' u1) (map_set h (Z.of_nat (length (realm_log r)) + 1) maxBy)
                (out ++ [SetStored (Z.of_nat (length (realm_log r)) + 1)]))
      as (u' & HE & Hu' & Hl').
    + apply user_wf_set; [done|apply realm_from_wf].
    + intros rlm m. rewrite map_get_set, Hl1, length_app.
      destruct (decide (rlm = bag_rlm b)) as [->|Hne].
      * rewrite decide_True by done. intros [= <-]. rewrite Hlog. simpl. lia.
      * rewrite decide_False by by intros ?%(inj btoh). intros ->%Hm. simpl. lia.
    + exists u'. rewrite HE. split_and!; [|done|].
      * do 2 f_equal. rewrite <-(assoc_L app). simpl. rewrite Hlog. do 2 f_equal.
        apply set_results_ext. intros rlm. rewrite Hl1, length_app.
        case_decide; simpl; lia.
      * intros rlm. rewrite Hl', Hl1, <-(assoc_L app). f_equal.
        f_equal. by repeat (case_decide || case_bool_decide); subst.
  - destruct (IH u maxBy (out ++ [SetFailed InvalidParam]) Hu Hm) as (u' & HE & Hu' & Hl').
    exists u'. rewrite HE. split_and!; [|done|done]. by rewrite <-(assoc_L app).
Qed.

Lemma mem_log_realm s pk rlm :
  mem_log s pk rlm = realm_log (default [] (mem_realm s pk rlm)).
Proof.
  unfold mem_log, user_log, mem_realm. by destruct (map_get (btoh pk) (ms_bag s)).
Qed.

Lemma mem_realm_wf s pk rlm r : mem_wf s → mem_realm s pk rlm = Some r → realm_wf r.
Proof.
  unfold mem_realm. intros Hw. destruct (map_get (btoh pk) (ms_bag s)) eqn:E; [|done].
  simpl. by apply (Hw _ _ E).
Qed.

#[export] Program Instance mem_spec : StorageSpec MemStorage := {|
  sto_wf := mem_wf;
  sto_user s pk := set_has (btoh pk) (ms_users s);
  sto_log := mem_log;
|}.
Next Obligation.
  intros pk s Hs. eexists. split; [done|]. split_and!; [done| |done].
  intros pk'. simpl. unfold set_has.
  apply Bool.eq_iff_eq_true. rewrite orb_true_iff, !bool_decide_eq_true, elem_of_set_add.
  split; (intros [H|H]; [left|right; done]); [by apply (inj btoh)|by subst].
Qed.
Next Obligation. done. Qed.
Next Obligation.
  intros pk bags s Hs Hb. simpl. unfold mem_setBags.
  destruct (Z.ltb_spec (Z.of_nat (length bags)) 1) as [H|H].
  - destruct bags; [|simpl in H; lia]. exists s. split_and!; [done..|].
    intros. case_decide; by rewrite app_nil_r.
  - set (u := default [] (map_get (btoh pk) (ms_bag s))).
    destruct (setBags_loop_spec bags u [] []) as (u' & -> & Hu' & Hl); [|done|done|].
    { unfold u. destruct (map_get (btoh pk) (ms_bag s)) eqn:E; [by eapply Hs|done]. }
    eexists. split; [done|]. split_and!; [|done|].
    + intros h v. simpl. rewrite map_get_set. case_decide; [by intros [= <-]|apply Hs].
    + intros pk' rlm. unfold mem_log. simpl. rewrite map_get_set.
      destruct (decide (pk' = pk)) as [->|Hne].
      * rewrite decide_True by done. apply Hl.
      * rewrite decide_False by by intros ?%(inj btoh). by rewrite app_nil_r.
Qed.
Next Obligation.
  intros pk rlm seqs s Hs. simpl. unfold mem_getBodies, rlm_valid.
  destruct (blen rlm =? hashBytes); [|done]. cbn [negb]. rewrite mem_log_realm.
  destruct (Z.ltb_spec (Z.of_nat (length seqs)) 1) as [H|H].
  { by destruct seqs; [|simpl in H; lia]. }
  assert (Hnil : log_bodies [] seqs = []).
  { clear H. induction seqs as [|q seqs IH]; [done|].
    unfold log_bodies in *. cbn [omap list_omap]. rewrite IH.
    unfold log_at. rewrite lookup_nil. by destruct (q <? 1). }
  destruct (mem_realm s pk rlm) as [r|] eqn:E; simpl; [|by rewrite (Hnil : log_bodies (realm_log []) seqs = [])].
  do 2 f_equal. apply mem_realm_wf in E; [|done]. unfold log_bodies.
  apply list_omap_ext. apply Forall_Forall2_diag, Forall_forall. intros q _.
  rewrite realm_get by done. by destruct (log_at _ q).
Qed.
Next Obligation.
  intros pk rlm minSeq s Hs. simpl. unfold mem_listHeads, rlm_valid.
  destruct (blen rlm =? hashBytes); [|done]. cbn [negb]. rewrite mem_log_realm.
  do 2 f_equal. destruct (mem_realm s pk rlm) as [r|] eqn:E; simpl; [|done].
  apply mem_realm_wf in E; [|done]. rewrite realm_items by done.
  apply js_sort_id, filter_sorted, log_items_sorted.
Qed.

Lemma createMemoryStorage_wf : sto_wf createMemoryStorage.
Proof. by intros h u. Qed.

End Mem.
