(* ===== verification/Bag.v ===== *)
(** * Messages and bags ([shared/message.ts], [shared/bag.ts], [shared/sync.ts])

    A message is sealed into a bag: its head and body are encrypted apart, and
    the realm tag with the encrypted head is signed.  [openBag] inverts
    [sealBag]; hosts store the bag in two parts, and [decryptPeekItem] with
    [openBagBody] open those. *)
From S2P Require Export Auth.

Record IMessage := mkMsg { msg_head : IMessageHead; msg_bod : option bytes }.

Record IMessageWithHash := mkMsgH {
  mwh_msg : IMessage;
  mwh_headHash : bytes;
}.

Section bag.
Context {C : CryptoPrims}.

(** ** [message.ts] *)

Definition genUpsertHead (now : Date) (eid : bytes) (ctr : Z) (typ : jsstr)
    (bod : option bytes) : Res IMessageHead :=
  eidParsed ← run_dec (cDecode eidCodec) eid;
  let off := fsub (getTime now) (getTime (eid_ts eidParsed)) in
  let len := match bod with Some b => blen b | None => 0 end in
  let hsh := match bod with
             | Some b => if 0 <? len then Some (blake3hash b) else None
             | None => None
             end in
  mret (mkHead (Some typ) eid off ctr len hsh).

(** [id] is the [genRandomBytes(8)] the call draws. *)
Definition genInsertHead (id : bytes) (now : Date) (bod : bytes) (typ : jsstr)
    : Res IMessageHead :=
  eid ← run_enc (writeStruct eidCodec (mkIEntityID id now));
  genUpsertHead now eid 0 typ (Some bod).

Definition genDeleteHead (now : Date) (eid : bytes) (ctr : Z) (typ : jsstr)
    : Res IMessageHead :=
  genUpsertHead now eid ctr typ None.

Definition genInsert (id : bytes) (now : Date) (bod : bytes) : Res IMessage :=
  head ← genInsertHead id now bod [];
  mret (mkMsg head (Some bod)).

Definition genDelete (now : Date) (eid : bytes) (ctr : Z) (typ : jsstr) : Res IMessage :=
  head ← genDeleteHead now eid ctr typ;
  mret (mkMsg (mkHead (mh_typ head) (mh_eid head) (mh_off head) (mh_ctr head) 0 None) None).

(** ** [bag.ts] *)

Definition bagSigMsg (rlm headCph : bytes) : bytes := bconcat rlm headCph.

Definition bagSigValid (bag : IBag) (verifyKey : CryptoKey) : bool :=
  if negb (blen (bag_rlm bag) =? hashBytes) then false
  else checkSigEd25519 (bag_sig bag) (bagSigMsg (bag_rlm bag) (bag_headCph bag)) verifyKey.

(** [{ ...msg, hsh }] *)
Definition with_hsh (h : IMessageHead) (hsh : option bytes) : IMessageHead :=
  mkHead (mh_typ h) (mh_eid h) (mh_off h) (mh_ctr h) (mh_len h) hsh.

Definition seal_hsh (msg : IMessage) : option bytes :=
  match msg_bod msg with
  | Some bod => if 0 <? mh_len (msg_head msg) then Some (blake3hash bod) else None
  | None => None
  end.

(** [nh] and [nb] are the nonces drawn for the head and the body. *)
Definition sealBag (msg : IMessage) (bagMgr : BagManager) (nh nb : bytes) : Res IBag :=
  headEnc ← run_enc (cEncode messageHeadCodec (with_hsh (msg_head msg) (seal_hsh msg)));
  kdm ← bm_bagKDM bagMgr headEnc;
  let rlm := bm_rlm bagMgr in
  headCph ← bm_encrypt bagMgr nh kdm headEnc;
  bodyCph ← match msg_bod msg with
            | Some bod => bm_encrypt bagMgr nb kdm bod
            | None => Ok []
            end;
  sig ← bm_sign bagMgr (bagSigMsg rlm headCph);
  mret (mkBag rlm sig kdm headCph bodyCph).

Record IOpenBag := mkOpenBag {
  ob_msgHead : IMessageHead;
  ob_bod : option bytes;
  ob_headHash : bytes;
}.

Definition openBagBody (headEnc : bytes) (bodyCph : option bytes)
    (decrypt : bytes → Res bytes) (headHashKnown : option bytes) : Res IOpenBag :=
  match run_dec (cDecode messageHeadCodec) headEnc with
  | Err _ => Err InvalidMessage
  | Throw => Throw
  | Ok msgHead =>
      msgBody ← match bodyCph with
                | Some cph =>
                    if 0 <? blen cph then bod ← decrypt cph; mret (Some bod) else Ok None
                | None => Ok None
                end;
      match mh_hsh msgHead, msgBody with
      | Some _, None | None, Some _ => Err HashMismatch
      | Some hsh, Some bod =>
          if negb (bytesEqual (blake3hash bod) hsh) then Err HashMismatch
          else mret (mkOpenBag msgHead msgBody (default (blake3hash headEnc) headHashKnown))
      | None, None =>
          mret (mkOpenBag msgHead msgBody (default (blake3hash headEnc) headHashKnown))
      end
  end.

Definition openBag (bag : IBag) (verifyKey : CryptoKey) (bagMgr : BagManager)
    : Res IMessageWithHash :=
  if negb (bagSigValid bag verifyKey) then Err InvalidSignature
  else if negb (bytesEqual (bm_rlm bagMgr) (bag_rlm bag)) then Err NotFound
  else
    msgHeadEnc ← bm_decrypt bagMgr (bag_kdm bag) (bag_headCph bag);
    contents ← openBagBody msgHeadEnc (Some (bag_bodyCph bag))
                 (bm_decrypt bagMgr (bag_kdm bag)) None;
    mret (mkMsgH (mkMsg (ob_msgHead contents) (ob_bod contents)) (ob_headHash contents)).

(** ** [sync.ts] *)

Record IDecryptedBagPeekItem := mkDecItem { di_kdm : bytes; di_headEnc : bytes }.

Definition decryptPeekItem (item : IBagPeekItem) (verifyKey : CryptoKey)
    (bagMgr : BagManager) : Res IDecryptedBagPeekItem :=
  let rlm := bm_rlm bagMgr in
  if negb (blen rlm =? hashBytes) then Err InvalidParam
  else
    peekItem ← run_dec (readStruct peekItemHeadCodec) (pk_headCph item);
    let valid := checkSigEd25519 (ph_sig peekItem) (bagSigMsg rlm (ph_headCph peekItem)) verifyKey in
    if negb valid then Err InvalidSignature
    else
      headEnc ← bm_decrypt bagMgr (ph_kdm peekItem) (ph_headCph peekItem);
      mret (mkDecItem (ph_kdm peekItem) headEnc).

(** ** Facts *)

(** A message the code can send: its head encodes, and it has either no body
    and length 0, or a non-empty body of that length. *)
Definition msg_ok (m : IMessage) : Prop :=
  string_ok (default [] (mh_typ (msg_head m))) ∧ bytes_ok (mh_eid (msg_head m)) ∧
  is_ok (run_dec (cDecode eidCodec) (mh_eid (msg_head m))) = true ∧
  (∃ o, mh_off (msg_head m) = Some o ∧ varnum_ok o) ∧
  varnum_ok (mh_ctr (msg_head m)) ∧
  match msg_bod m with
  | Some b => 0 < blen b ∧ bytes_ok b ∧ mh_len (msg_head m) = blen b
  | None => mh_len (msg_head m) = 0
  end.

(** The same with a body that may be empty. *)
Definition msg_wf (m : IMessage) : Prop :=
  string_ok (default [] (mh_typ (msg_head m))) ∧ bytes_ok (mh_eid (msg_head m)) ∧
  is_ok (run_dec (cDecode eidCodec) (mh_eid (msg_head m))) = true ∧
  (∃ o, mh_off (msg_head m) = Some o ∧ varnum_ok o) ∧
  varnum_ok (mh_ctr (msg_head m)) ∧
  bytes_ok (default [] (msg_bod m)) ∧ mh_len (msg_head m) = blen (default [] (msg_bod m)).

Lemma msg_ok_wf m : msg_ok m ↔ msg_wf m ∧ msg_bod m ≠ Some [].
Proof.
  unfold msg_ok, msg_wf. destruct (msg_bod m) as [[|x b]|]; cbn [default from_option id]; split.
  - intros (_ & _ & _ & _ & _ & ? & _). done.
  - by intros [_ []].
  - intros (? & ? & ? & ? & ? & ? & ? & ?). done.
  - intros ((? & ? & ? & ? & ? & ? & ?) & _). split_and!; try done.
  - intros (? & ? & ? & ? & ? & ->). done.
  - intros ((? & ? & ? & ? & ? & ? & ->) & _). done.
Qed.

Definition sealed_head (m : IMessage) : IMessageHead :=
  with_hsh (msg_head m) (seal_hsh m).

Context {L : CryptoLaws C}.

Lemma wf_head_ok m : msg_wf m → head_ok (sealed_head m).
Proof.
  destruct m as [[t e o c l h] b]. intros (H1 & H2 & H3 & H4 & H5 & H6 & H7).
  unfold sealed_head, with_hsh, seal_hsh.
  cbn [msg_head msg_bod mh_typ mh_eid mh_off mh_ctr mh_len mh_hsh] in *. subst l.
  unfold head_ok. cbn [mh_typ mh_eid mh_off mh_ctr mh_len mh_hsh].
  split_and!; try done; [by apply bytes_ok_varnum|]. destruct b as [[|x b]|]; [done| |done].
  rewrite (proj2 (Z.ltb_lt _ _)) by done. exists (blake3hash (x :: b)). split; [done|apply blake3hash_len].
Qed.

Lemma sealed_head_ok m : msg_ok m → head_ok (sealed_head m).
Proof. intros [? _]%msg_ok_wf. by apply wf_head_ok. Qed.

Lemma head_run h : head_ok h → run_dec (cDecode messageHeadCodec) (head_wire h) = Ok (head_norm h).
Proof. intros H. by apply decodes_run, (lawful_dec (ok := head_ok)). Qed.

Lemma head_run_enc h : head_ok h → run_enc (cEncode messageHeadCodec h) = Ok (head_wire h).
Proof. intros H. by apply encodes_run, (lawful_enc (ok := head_ok)). Qed.

(** What [sealBag] produced, piece by piece. *)
Record sealed (m : IMessage) (mgr : BagManager) (bag : IBag) : Prop := mkSealed {
  sealed_rlm : bag_rlm bag = bm_rlm mgr;
  sealed_kdm : bm_bagKDM mgr (head_wire (sealed_head m)) = Ok (bag_kdm bag);
  sealed_headCph : bm_decrypt mgr (bag_kdm bag) (bag_headCph bag) =
                   Ok (head_wire (sealed_head m));
  sealed_bodyCph : match msg_bod m with
                   | Some b => 0 < blen (bag_bodyCph bag) ∧
                       bm_decrypt mgr (bag_kdm bag) (bag_bodyCph bag) = Ok b
                   | None => bag_bodyCph bag = []
                   end;
  sealed_sig : bm_sign mgr (bagSigMsg (bm_rlm mgr) (bag_headCph bag)) = Ok (bag_sig bag);
}.

Lemma bm_encrypt_pos mgr n kdm data cph :
  length n = 24%nat → bm_encrypt mgr n kdm data = Ok cph → 0 < blen cph.
Proof.
  intros Hn (key & _ & He%catching_Ok)%res_bind_Ok_inv.
  apply res_bind_Ok_inv in He as (ct & _ & [= <-]).
  unfold blen. rewrite length_app, Hn. lia.
Qed.

Lemma sealBag_sealed m mgr nh nb bag :
  msg_wf m → length nh = 24%nat → length nb = 24%nat →
  sealBag m mgr nh nb = Ok bag → sealed m mgr bag.
Proof.
  intros Hm Hh Hb (he & H1 & H)%res_bind_Ok_inv.
  change (with_hsh _ _) with (sealed_head m) in H1.
  rewrite head_run_enc in H1 by by apply wf_head_ok.
  injection H1 as <-.
  apply res_bind_Ok_inv in H as (kdm & H2 & H).
  apply res_bind_Ok_inv in H as (hc & H3 & H).
  apply res_bind_Ok_inv in H as (bc & H4 & H).
  apply res_bind_Ok_inv in H as (sg & H5 & [= <-]).
  split; cbn [bag_rlm bag_kdm bag_headCph bag_bodyCph bag_sig]; try done.
  - exact (bm_decrypt_encrypt _ _ _ _ _ Hh H3).
  - destruct (msg_bod m); [|by injection H4].
    split; [exact (bm_encrypt_pos _ _ _ _ _ Hb H4)|exact (bm_decrypt_encrypt _ _ _ _ _ Hb H4)].
Qed.

Lemma sealed_sig_valid m mgr bag vk :
  bm_valid mgr → importVerifyKey (bm_publicKey mgr) = Ok vk → sealed m mgr bag →
  bagSigValid bag vk = true.
Proof.
  intros Hv Hk [Hr _ _ _ Hs]. unfold bagSigValid. rewrite Hr.
  rewrite (proj2 (Z.eqb_eq _ _)) by apply Hv. cbn [negb].
  destruct (bm_sign_verifies mgr _ _ Hv Hs) as (_ & _ & vk' & H1 & H2).
  rewrite Hk in H1. by injection H1 as <-.
Qed.

Lemma sealed_bag_ok m mgr bag :
  bm_valid mgr → sealed m mgr bag →
  bytes_ok (bag_headCph bag) → bytes_ok (bag_bodyCph bag) → bag_ok bag.
Proof.
  intros Hv [Hr Hk _ _ Hs] H1 H2. unfold bag_ok. rewrite Hr.
  destruct (bm_sign_verifies mgr _ _ Hv Hs) as (_ & Hl & _).
  split_and!; try done; [apply Hv|by eapply bm_bagKDM_len].
Qed.

(** The message as the receiver sees it. *)
Definition opened (m : IMessage) : IMessageWithHash :=
  mkMsgH (mkMsg (head_norm (sealed_head m)) (msg_bod m))
    (blake3hash (head_wire (sealed_head m))).

Lemma openBagBody_sealed_wf m mgr bag known :
  msg_wf m → sealed m mgr bag →
  openBagBody (head_wire (sealed_head m)) (Some (bag_bodyCph bag))
    (bm_decrypt mgr (bag_kdm bag)) known =
  if bool_decide (msg_bod m = Some []) then Err HashMismatch
  else Ok (mkOpenBag (head_norm (sealed_head m)) (msg_bod m)
        (default (blake3hash (head_wire (sealed_head m))) known)).
Proof.
  intros Hm Hs. destruct Hs as [_ _ _ Hb _]. unfold openBagBody.
  rewrite head_run by by apply wf_head_ok. destruct Hm as (_ & _ & _ & _ & _ & _ & H7).
  destruct m as [h b]. cbn [msg_bod] in *. unfold sealed_head, with_hsh, seal_hsh.
  cbn [msg_head msg_bod head_norm mh_hsh mh_len] in *. rewrite H7. destruct b as [[|x b]|].
  - destruct Hb as [Hpos Hb]. by rewrite (proj2 (Z.ltb_lt _ _) Hpos), Hb.
  - destruct Hb as [Hpos Hb]. rewrite (proj2 (Z.ltb_lt _ _) Hpos), Hb. cbn [mbind Res_bind res_bind mret].
    cbn [default from_option id]. rewrite (proj2 (Z.ltb_lt 0 (blen (x :: b)))) by done. cbn. by rewrite bytesEqual_refl.
  - rewrite Hb. done.
Qed.

Lemma openBagBody_sealed m mgr bag known :
  msg_ok m → sealed m mgr bag →
  openBagBody (head_wire (sealed_head m)) (Some (bag_bodyCph bag))
    (bm_decrypt mgr (bag_kdm bag)) known =
  Ok (mkOpenBag (head_norm (sealed_head m)) (msg_bod m)
        (default (blake3hash (head_wire (sealed_head m))) known)).
Proof. intros [Hm Hb]%msg_ok_wf Hs. rewrite (openBagBody_sealed_wf m mgr bag known Hm Hs). by rewrite bool_decide_false. Qed.

Lemma openBag_sealed m mgr bag vk :
  bm_valid mgr → importVerifyKey (bm_publicKey mgr) = Ok vk →
  msg_wf m → sealed m mgr bag →
  openBag bag vk mgr = if bool_decide (msg_bod m = Some []) then Err HashMismatch else Ok (opened m).
Proof.
  intros Hv Hk Hm Hs. unfold openBag.
  rewrite (sealed_sig_valid m mgr bag vk) by done. cbn [negb].
  rewrite (sealed_rlm _ _ _ Hs), bytesEqual_refl. cbn [negb].
  rewrite (sealed_headCph _ _ _ Hs). simpl.
  rewrite (openBagBody_sealed_wf m mgr bag None Hm Hs). by case_bool_decide.
Qed.

Lemma openBagBody_total headEnc bodyCph dec known :
  (∀ cph, dec cph ≠ Throw) → openBagBody headEnc bodyCph dec known ≠ Throw.
Proof.
  intros Hdec. unfold openBagBody.
  pose proof (run_dec_total _ headEnc (no_throw_total _ head_total)).
  destruct (run_dec _ headEnc); try done.
  apply res_bind_total.
  - case_match; [|done]. case_match; [|done]. by apply res_bind_total.
  - intros b. by repeat case_match.
Qed.

Lemma openBag_total bag vk mgr : openBag bag vk mgr ≠ Throw.
Proof.
  unfold openBag. case_match; [done|]. case_match; [done|].
  apply res_bind_total; [apply bm_decrypt_total|]. intros he.
  apply res_bind_total; [|done]. apply openBagBody_total, bm_decrypt_total.
Qed.

(** Nothing opens without a valid signature for the manager's own realm. *)
Lemma openBag_auth bag vk mgr m :
  openBag bag vk mgr = Ok m →
  bagSigValid bag vk = true ∧ bag_rlm bag = bm_rlm mgr.
Proof.
  unfold openBag. destruct (bagSigValid bag vk); [|done]. cbn [negb].
  destruct (bytesEqual _ _) eqn:E; [|done]. by apply bytesEqual_spec in E.
Qed.

Lemma openBagBody_hash headEnc bodyCph dec known o :
  openBagBody headEnc bodyCph dec known = Ok o →
  match ob_bod o with
  | Some b => mh_hsh (ob_msgHead o) = Some (blake3hash b)
  | None => mh_hsh (ob_msgHead o) = None
  end.
Proof.
  unfold openBagBody. destruct (run_dec _ _) as [h| |]; [|done..].
  intros (b & _ & H)%res_bind_Ok_inv.
  destruct (mh_hsh h) as [hs|] eqn:E, b as [b|]; simplify_eq/=; try done.
  - destruct (bytesEqual (blake3hash b) hs) eqn:Eq; [|done].
    apply bytesEqual_spec in Eq. injection H as <-. simpl. congruence.
  - by injection H as <-.
Qed.

(** The stored half of a sealed bag opens to its encoded head. *)
Lemma decryptPeekItem_sealed m mgr bag vk n :
  bm_valid mgr → importVerifyKey (bm_publicKey mgr) = Ok vk →
  sealed m mgr bag → bytes_ok (bag_headCph bag) →
  decryptPeekItem (mkPeekItem n (peekItemHead_wire
    (mkPeekItemHead (bag_sig bag) (bag_kdm bag) (bag_headCph bag)))) vk mgr =
  Ok (mkDecItem (bag_kdm bag) (head_wire (sealed_head m))).
Proof.
  intros Hv Hk Hs Hc. unfold decryptPeekItem.
  rewrite (proj2 (Z.eqb_eq _ _)) by apply Hv. cbn [negb pk_headCph].
  destruct (bm_sign_verifies mgr _ _ Hv (sealed_sig _ _ _ Hs)) as (_ & Hl & vk' & H1 & H2).
  rewrite Hk in H1. injection H1 as <-.
  pose proof (bm_bagKDM_len _ _ _ (sealed_kdm _ _ _ Hs)) as Hkl.
  rewrite (decodes_run (readStruct peekItemHeadCodec) _
    (mkPeekItemHead (bag_sig bag) (bag_kdm bag) (bag_headCph bag))).
  2: { by apply (lawful_dec (norm := id) (ok := peekItemHead_ok)). }
  simpl. rewrite H2. simpl. by rewrite (sealed_headCph _ _ _ Hs).
Qed.

End bag.
