(* ===== verification/Server.v ===== *)
(** * The host ([shared/api], [shared/lpc], [shared/http])

    The four request handlers over any storage that meets [StorageSpec] and any
    notifier, the in-process ([lpc/server.ts]) and HTTP ([http/server.ts])
    transports around them, and the callback notifier of [lpc/pusher.ts].  The
    theorems give the response bytes and the new logs of every authenticated
    request, and that a request which fails authentication has no effect. *)
From S2P Require Export Storage Bag.

(** ** Notifiers *)

Class IPushNotifier (N : Type) := { n_push : bytes → bytes → N → N }.

(** ** One request in progress *)

Record Ctx (S N : Type) := mkCtx {
  rq_dec : Decoder;
  rq_enc : Encoder;
  rq_sto : S;
  rq_ntf : N;
}.
Arguments mkCtx {S N}.
Arguments rq_dec {S N}.
Arguments rq_enc {S N}.
Arguments rq_sto {S N}.
Arguments rq_ntf {S N}.

Section host.
Context {C : CryptoPrims} {S N : Type} {I : IStorage S} {PN : IPushNotifier N}.

Abbreviation Handler := (M (Ctx S N)).

Definition on_dec {A} (m : DecM A) : Handler A := λ c,
  let '(r, d) := m (rq_dec c) in (r, mkCtx d (rq_enc c) (rq_sto c) (rq_ntf c)).
Definition on_enc {A} (m : EncM A) : Handler A := λ c,
  let '(r, e) := m (rq_enc c) in (r, mkCtx (rq_dec c) e (rq_sto c) (rq_ntf c)).
Definition on_sto {A} (m : M S A) : Handler A := λ c,
  let '(r, s) := m (rq_sto c) in (r, mkCtx (rq_dec c) (rq_enc c) s (rq_ntf c)).
Definition notify (pubKey data : bytes) : Handler unit := λ c,
  (Ok tt, mkCtx (rq_dec c) (rq_enc c) (rq_sto c) (n_push pubKey data (rq_ntf c))).
Definition reqDone : Handler bool := λ c, (Ok (dec_done (rq_dec c)), c).

(** ** [api/user.ts]; [now] is the clock reading of the call *)

Definition user_handleReq (now : Date) : Handler unit :=
  authTS ← on_dec (readStruct authTimestampCodec);
  _ ← m_lift (validateAuthTimestamp authTS now);
  done ← reqDone;
  if negb done then m_err ExtraBodyContent
  else on_sto (addUser (at_pubKey authTS)).

(** ** [api/peek.ts] *)

Definition peek_handleReq (now : Date) : Handler unit :=
  authTS ← on_dec (readStruct authTimestampCodec);
  _ ← m_lift (validateAuthTimestamp authTS now);
  has ← on_sto (hasUser (at_pubKey authTS));
  if negb has then m_err UserNotRegistered
  else
    cursor ← on_dec (readStruct peekCursorCodec);
    done ← reqDone;
    if negb done then m_err ExtraBodyContent
    else
      items ← on_sto (listHeads (at_pubKey authTS) (pc_rlm cursor) (pc_seq cursor));
      on_enc (writeStructs peekItemCodec items).

(** ** [api/pull.ts] *)

Definition pull_handleReq (now : Date) : Handler unit :=
  authTS ← on_dec (readStruct authTimestampCodec);
  _ ← m_lift (validateAuthTimestamp authTS now);
  has ← on_sto (hasUser (at_pubKey authTS));
  if negb has then m_err UserNotRegistered
  else
    req ← on_dec (readStruct pullReqCodec);
    bodies ← on_sto (getBodies (at_pubKey authTS) (pr_rlm req) (pr_seqs req));
    m_forM bodies (λ '(seq, bodyCph),
      on_enc (writeStruct pullItemCodec (mkPullItem seq bodyCph))).

(** ** [api/push.ts] *)

(** First loop: report bad signatures, keep the rest with their index. *)
Fixpoint push_verify (vk : CryptoKey) (idx : Z) (bags : list IBag)
    : Handler (list (Z * IBag)) :=
  match bags with
  | [] => mret []
  | bag :: bags =>
      if negb (bagSigValid bag vk) then
        _ ← on_enc (writeStruct pushItemCodec (PushFailed idx InvalidSignature));
        push_verify vk (idx + 1) bags
      else
        rest ← push_verify vk (idx + 1) bags;
        mret ((idx, bag) :: rest)
  end.

Definition notif_for (single : bool) (bag : IBag) (seq : Z) (headCph : bytes)
    : IBagNotifItem :=
  mkNotif seq (bag_rlm bag) headCph
    (if single && (blen (bag_bodyCph bag) <=? notifInlineBodyBytesThreshold)
     then Some (bag_bodyCph bag) else None).

(** Second loop: report each stored bag and collect its notification. *)
Fixpoint push_report (single : bool) (l : list ((Z * IBag) * ISetBagResult))
    : Handler (list IBagNotifItem) :=
  match l with
  | [] => mret []
  | ((idx, bag), SetFailed st) :: l =>
      _ ← on_enc (writeStruct pushItemCodec (PushFailed idx st));
      push_report single l
  | ((idx, bag), SetStored seq) :: l =>
      headCph ← m_lift (run_enc (writeStruct peekItemHeadCodec (bag_peekHead bag)));
      _ ← on_enc (writeStruct pushItemCodec (PushStored idx seq));
      notifs ← push_report single l;
      mret (notif_for single bag seq headCph :: notifs)
  end.

Definition push_handleReq (now : Date) : Handler unit :=
  authTS ← on_dec (readStruct authTimestampCodec);
  _ ← m_lift (validateAuthTimestamp authTS now);
  let pubKey := at_pubKey authTS in
  has ← on_sto (hasUser pubKey);
  if negb has then m_err UserNotRegistered
  else
    bags ← on_dec (readStruct pushReqCodec);
    match importVerifyKey pubKey with
    | Ok vk =>
        valid ← push_verify vk 0 bags;
        stored ← on_sto (setBags pubKey valid.*2);
        if negb (Nat.eqb (length stored) (length valid)) then m_err StorageError
        else
          notifs ← push_report (Nat.eqb (length bags) 1) (zip valid stored);
          if 0 <? Z.of_nat (length notifs) then
            batch ← m_lift (run_enc (writeStructs notifItemCodec notifs));
            notify pubKey batch
          else mret tt
    | _ => m_err CryptoError
    end.

Definition handleReq (name : APICallName) (now : Date) : Handler unit :=
  match name with
  | CallUser => user_handleReq now
  | CallPeek => peek_handleReq now
  | CallPush => push_handleReq now
  | CallPull => pull_handleReq now
  end.

(** ** Client half of the endpoints *)

Definition user_encodeReq (a : IAuthTimestamp) : EncM unit := writeStruct authTimestampCodec a.
Definition peek_encodeReq (a : IAuthTimestamp) (cursor : IPeekCursor) : EncM unit :=
  _ ← writeStruct authTimestampCodec a; writeStruct peekCursorCodec cursor.
Definition pull_encodeReq (a : IAuthTimestamp) (req : IPullReq) : EncM unit :=
  _ ← writeStruct authTimestampCodec a; writeStruct pullReqCodec req.
Definition push_encodeReq (a : IAuthTimestamp) (bags : list IBag) : EncM unit :=
  _ ← writeStruct authTimestampCodec a; writeStruct pushReqCodec bags.

Definition peek_decodeResp : DecM (list IBagPeekItem) := readStructs peekItemCodec.
Definition pull_decodeResp : DecM (list IBagPullItem) := readStructs pullItemCodec.
Definition push_decodeResp : DecM (list IBagPushItem) := readStructs pushItemCodec.

(** ** [lpc/server.ts] *)

Record Host := mkHost { h_sto : S; h_ntf : N }.

(** The clock is read on arrival, inside the handler and before the reply. *)
Definition lpc_call (name : APICallName) (reqBody : bytes)
    (timeRcvd now timeSent : Date) (h : Host) : Res bytes * Host :=
  let c := mkCtx (newDecoder reqBody) newEncoder (h_sto h) (h_ntf h) in
  let '(r, c') := handleReq name now c in
  let h' := mkHost (rq_sto c') (rq_ntf c') in
  match r with
  | Throw => (Throw, h')
  | _ =>
      let head := mkRespHead (res_status r) timeRcvd timeSent nullSubMeta in
      (headEnc ← run_enc (writeStruct respHeadCodec head);
       mret (headEnc ++ enc_result (rq_enc c')), h')
  end.

(** ** [http.ts] and [http/server.ts] *)

Inductive Response := RespBin (data : bytes) | Resp500.

Definition errResp (head : IRespHead) : Res Response :=
  match run_enc (writeStruct respHeadCodec head) with
  | Ok bs => Ok (RespBin bs)
  | Err _ => Ok Resp500
  | Throw => Throw
  end.

Definition callPaths (path : string) : option APICallName :=
  if String.eqb path "/user" then Some CallUser
  else if String.eqb path "/push" then Some CallPush
  else if String.eqb path "/peek" then Some CallPeek
  else if String.eqb path "/pull" then Some CallPull
  else None.

Record Request := mkRequest {
  rq_method : string;
  rq_path : string;
  rq_body : option bytes;
}.

(** The body of the [try]: [inl] is its result, [inr tt] an exception. *)
Definition http_try (name : APICallName) (data : bytes)
    (timeRcvd now t1 timeSent : Date) (h : Host) : Res Response * Host :=
  let c := mkCtx (newDecoder data) newEncoder (h_sto h) (h_ntf h) in
  let '(r, c') := handleReq name now c in
  let h' := mkHost (rq_sto c') (rq_ntf c') in
  match r with
  | Throw => (Throw, h')
  | _ =>
      let status := res_status r in
      let head := mkRespHead status timeRcvd t1 nullSubMeta in
      (match run_enc (writeStruct respHeadCodec head) with
       | Throw => Throw
       | Err _ => Ok Resp500
       | Ok encHead =>
           if negb (bool_decide (status = Success))
           then errResp (mkRespHead status timeRcvd timeSent nullSubMeta)
           else Ok (RespBin (encHead ++ enc_result (rq_enc c')))
       end, h')
  end.

Definition http_handler (req : Request) (timeRcvd now t1 timeSent : Date) (h : Host)
    : Res Response * Host :=
  let fail st := errResp (mkRespHead st timeRcvd timeSent nullSubMeta) in
  if negb (String.eqb (rq_method req) "POST") then (fail NotFound, h)
  else
    match rq_body req with
    | None => (fail MissingBody, h)
    | Some data =>
        match callPaths (rq_path req) with
        | None => (fail NotFound, h)
        | Some name =>
            match http_try name data timeRcvd now t1 timeSent h with
            | (Throw, h') => (fail InternalError, h')
            | (r, h') => (r, h')
            end
        end
    end.

(** [validateWebSocketAuth]: the [t] parameter of the URL, in hex.  [htob]
    raises on an odd number of digits. *)
Definition validateWebSocketAuth (authTSHex : option jsstr) (now : Date)
    : Res IAuthTimestamp :=
  match authTSHex with
  | None | Some [] => Err InvalidRequest
  | Some hex =>
      authTSEnc ← htob hex;
      match run_dec (readStruct authTimestampCodec) authTSEnc with
      | Err _ => Err InvalidRequest
      | Throw => Throw
      | Ok authTS =>
          _ ← validateAuthTimestamp authTS now;
          mret authTS
      end
  end.

End host.

Arguments mkHost {S N}.
Arguments h_sto {S N}.
Arguments h_ntf {S N}.

(** ** [lpc/pusher.ts]: receivers per public key

    A receiver is a name; what it is called with is appended to [cn_sent]. *)
Record CallbackNotifier := mkNotifier {
  cn_recvs : jsmap jsstr (list nat);
  cn_sent : list (nat * bytes);
}.

Section notifier.
Context {C : CryptoPrims}.

Definition cn_open (authTS : IAuthTimestamp) (recv : nat) (now : Date)
    : M CallbackNotifier unit := λ n,
  match validateAuthTimestamp authTS now with
  | Err st => (Err st, n)
  | Throw => (Throw, n)
  | Ok _ =>
      let h := btoh (at_pubKey authTS) in
      let set := default [] (map_get h (cn_recvs n)) in
      (Ok tt, mkNotifier (map_set h (set_add recv set) (cn_recvs n)) (cn_sent n))
  end.
End notifier.

Definition cn_push (pubKey data : bytes) (n : CallbackNotifier) : CallbackNotifier :=
  match map_get (btoh pubKey) (cn_recvs n) with
  | None => n
  | Some recvs => mkNotifier (cn_recvs n) (cn_sent n ++ ((λ r, (r, data)) <$> recvs))
  end.

(** The [shut] of an opened connection. *)
Definition cn_shut (pubKey : bytes) (recv : nat) (n : CallbackNotifier) : CallbackNotifier :=
  match map_get (btoh pubKey) (cn_recvs n) with
  | None => n
  | Some recvs =>
      mkNotifier (map_set (btoh pubKey) (set_delete recv recvs) (cn_recvs n)) (cn_sent n)
  end.

#[export] Instance cn_notifier : IPushNotifier CallbackNotifier := {| n_push := cn_push |}.
