(* ===== verification/ServerFacts.v ===== *)
(** * What the host does with a request

    Response bytes and new logs of every authenticated call, against the
    storage contract [StorageSpec]; absence of effects otherwise; totality of
    the HTTP transport; a client's push seen through a later peek; and that no
    request touches another user's data. *)
From S2P Require Export Server.

Section host.
Context {C : CryptoPrims} {S N : Type} {I : IStorage S} {Sp : StorageSpec S}
{PN : IPushNotifier N}.
Implicit Types c : Ctx S N.

Definition set_enc (bs : bytes) (c c' : Ctx S N) : Prop :=
rq_dec c' = rq_dec c ∧ rq_sto c' = rq_sto c ∧ rq_ntf c' = rq_ntf c ∧
enc_result (rq_enc c') = enc_result (rq_enc c) ++ bs.

Lemma set_enc_refl c : set_enc [] c c.
Proof. unfold set_enc. by rewrite app_nil_r. Qed.

Lemma set_enc_trans b1 b2 c1 c2 c3 :
set_enc b1 c1 c2 → set_enc b2 c2 c3 → set_enc (b1 ++ b2) c1 c3.
Proof.
intros (H1 & H2 & H3 & H4) (K1 & K2 & K3 & K4). unfold set_enc.
rewrite K1, K2, K3, K4, H4, (assoc_L app). done.
Qed.

Lemma on_enc_spec m bs c :
encodes m bs → ∃ c', on_enc m c = (Ok tt, c') ∧ set_enc bs c c'.
Proof.
intros (ps & Hc & H). destruct c as [d [p] s n].
exists (mkCtx d (mkEnc (p ++ ps)) s n). unfold on_enc. cbn [rq_enc]. rewrite H.
split; [done|]. unfold set_enc. cbn. unfold enc_result. cbn.
by rewrite concat_app, Hc.
Qed.

Lemma on_dec_spec {A} (m : DecM A) pre bs rest a c :
decodes m bs a → rq_dec c = mkDec (pre ++ bs ++ rest) (blen pre) →
on_dec m c = (Ok a, mkCtx (mkDec (pre ++ bs ++ rest) (blen pre + blen bs))
                      (rq_enc c) (rq_sto c) (rq_ntf c)).
Proof. intros Hm Hd. unfold on_dec. by rewrite Hd, Hm. Qed.

Lemma on_dec_end {A} (m : DecM A) pre bs a c :
decodes_end m bs a → rq_dec c = mkDec (pre ++ bs) (blen pre) →
on_dec m c = (Ok a, mkCtx (mkDec (pre ++ bs) (blen pre + blen bs))
                      (rq_enc c) (rq_sto c) (rq_ntf c)).
Proof. intros Hm Hd. unfold on_dec. by rewrite Hd, Hm. Qed.

(** ** Authentication prefix *)

(** The request [data] carries [a] and validates at [now]. *)
Definition authed (data : bytes) (now : Date) : option (IAuthTimestamp * Decoder) :=
match readStruct authTimestampCodec (newDecoder data) with
| (Ok a, d) => if is_ok (validateAuthTimestamp a now) then Some (a, d) else None
| _ => None
end.

Definition start (data : bytes) (h : Host (S := S) (N := N)) : Ctx S N :=
mkCtx (newDecoder data) newEncoder (h_sto h) (h_ntf h).

Lemma auth_prefix_fail {B} data now h (k : IAuthTimestamp → M (Ctx S N) B) :
authed data now = None →
∃ r d, (authTS ← on_dec (readStruct authTimestampCodec);
        _ ← m_lift (validateAuthTimestamp authTS now); k authTS) (start data h)
  = (r, mkCtx d newEncoder (h_sto h) (h_ntf h)) ∧ is_ok r = false.
Proof.
unfold authed, mbind, M_bind, m_bind, on_dec, start. cbn [rq_dec].
destruct (readStruct authTimestampCodec (newDecoder data)) as [[a| |] d] eqn:E;
  simpl; intros H; [|by eauto..].
unfold m_lift. destruct (validateAuthTimestamp a now) as [[]| |]; [done|by eauto..].
Qed.

Lemma handleReq_unauth name data now h :
authed data now = None →
∃ r d, handleReq name now (start data h) = (r, mkCtx d newEncoder (h_sto h) (h_ntf h)) ∧
  is_ok r = false.
Proof.
intros H. destruct name; unfold handleReq;
  apply (auth_prefix_fail data now h _ H).
Qed.

(** A well-formed request: an encoded timestamp that validates, then [body]. *)
Lemma auth_prefix_ok {B} a body now c (k : IAuthTimestamp → M (Ctx S N) B) :
authTS_ok a → validateAuthTimestamp a now = Ok tt →
rq_dec c = newDecoder (authTS_wire a ++ body) →
(authTS ← on_dec (readStruct authTimestampCodec);
 _ ← m_lift (validateAuthTimestamp authTS now); k authTS) c
= k a (mkCtx (mkDec (authTS_wire a ++ body) (blen (authTS_wire a)))
         (rq_enc c) (rq_sto c) (rq_ntf c)).
Proof.
intros Ha Hv Hd. unfold mbind, M_bind, m_bind.
rewrite (on_dec_spec _ [] (authTS_wire a) body a).
- unfold m_lift. by rewrite Hv.
- by apply (lawful_dec (norm := id) (ok := authTS_ok)).
- done.
Qed.

(** The membership test every call but USER makes. *)
Lemma has_user_ok {B} pk c (k : M (Ctx S N) B) :
sto_wf (rq_sto c) → sto_user (rq_sto c) pk = true →
(has ← on_sto (hasUser pk); if negb has then m_err UserNotRegistered else k) c = k c.
Proof.
intros Hw Hu. unfold mbind, M_bind, m_bind, on_sto. rewrite hasUser_spec by done.
rewrite Hu. by destruct c.
Qed.

Lemma has_user_no {B} pk c (k : M (Ctx S N) B) :
sto_wf (rq_sto c) → sto_user (rq_sto c) pk = false →
(has ← on_sto (hasUser pk); if negb has then m_err UserNotRegistered else k) c
= (Err UserNotRegistered, c).
Proof.
intros Hw Hu. unfold mbind, M_bind, m_bind, on_sto. rewrite hasUser_spec by done.
rewrite Hu. by destruct c.
Qed.

(** ** PEEK and PULL *)

Definition log_fits (log : list Entry) : Prop :=
Z.of_nat (length log) <= maxSafe ∧ Forall (λ e, bytes_ok (en_headCph e) ∧ bytes_ok (en_bodyCph e)) log.

Lemma log_items_ok n log :
0 <= n → n + Z.of_nat (length log) <= maxSafe + 1 →
Forall (λ e, bytes_ok (en_headCph e) ∧ bytes_ok (en_bodyCph e)) log →
Forall peekItem_ok (log_items n log).
Proof.
intros H0 Hn Hf. revert n H0 Hn. induction Hf as [|e log [He _] _ IH]; intros n H0 Hn;
  [constructor|]. cbn [log_items length] in *. constructor.
- split; [apply varnum_ok_safe; simpl; lia|done].
- apply IH; lia.
Qed.

Lemma log_heads_ok log m : log_fits log → Forall peekItem_ok (log_heads log m).
Proof.
intros [Hl Hf]. pose proof (log_items_ok 1 log ltac:(lia) ltac:(lia) Hf) as H.
rewrite Forall_forall in H |- *. intros x [_ Hx]%list_elem_of_filter. auto.
Qed.

Lemma peek_spec a cur now h :
authTS_ok a → validateAuthTimestamp a now = Ok tt → peekCursor_ok cur →
sto_wf (h_sto h) → sto_user (h_sto h) (at_pubKey a) = true →
log_fits (sto_log (h_sto h) (at_pubKey a) (pc_rlm cur)) →
∃ c', peek_handleReq now (start (authTS_wire a ++ peekCursor_wire cur) h) = (Ok tt, c') ∧
  rq_sto c' = h_sto h ∧ rq_ntf c' = h_ntf h ∧
  enc_result (rq_enc c') =
    concat (peekItem_wire <$>
      log_heads (sto_log (h_sto h) (at_pubKey a) (pc_rlm cur)) (pc_seq cur)).
Proof.
intros Ha Hv Hc Hw Hu Hf. unfold peek_handleReq.
rewrite (auth_prefix_ok a (peekCursor_wire cur)) by done. cbn [rq_enc rq_sto rq_ntf start].
rewrite has_user_ok by done. unfold mbind at 1, M_bind, m_bind.
rewrite (on_dec_end _ (authTS_wire a) (peekCursor_wire cur) cur).
2: { apply decodes_to_end. by apply (lawful_dec (norm := id) (ok := peekCursor_ok)). }
2: done.
cbn [rq_enc rq_sto rq_ntf]. unfold reqDone. unfold mbind at 1, M_bind, m_bind.
unfold dec_done. cbn [rq_dec data pos]. rewrite blen_app, Z.leb_refl. cbn [negb].
unfold on_sto. unfold mbind, M_bind, m_bind. cbn [rq_sto].
rewrite listHeads_spec by done. destruct Hc as [Hr _].
unfold rlm_valid. rewrite Hr, Z.eqb_refl.
edestruct (on_enc_spec (writeStructs peekItemCodec
   (log_heads (sto_log (h_sto h) (at_pubKey a) (pc_rlm cur)) (pc_seq cur))))
  as (c' & -> & H1 & H2 & H3 & H4).
{ apply (writeStructs_encodes peekItemCodec peekItem_ok id peekItem_wire).
  by apply log_heads_ok. }
exists c'. split_and!; [done|by rewrite H2|by rewrite H3|by rewrite H4].
Qed.

Lemma log_bodies_ok log seqs :
log_fits log → Forall varnum_ok seqs →
Forall pullItem_ok ((λ '(q, b), mkPullItem q b) <$> log_bodies log seqs).
Proof.
intros [Hl Hf] Hs. unfold log_bodies. induction Hs as [|q seqs Hq _ IH]; [constructor|].
cbn [omap list_omap]. destruct (log_at log q) as [e|] eqn:E; simpl; [|done].
constructor; [|done]. split; [done|].
unfold log_at in E. destruct (q <? 1); [done|].
rewrite Forall_lookup in Hf. by apply (Hf _ _ E).
Qed.

Lemma pull_spec a req now h :
authTS_ok a → validateAuthTimestamp a now = Ok tt → pullReq_ok req →
sto_wf (h_sto h) → sto_user (h_sto h) (at_pubKey a) = true →
log_fits (sto_log (h_sto h) (at_pubKey a) (pr_rlm req)) →
∃ c', pull_handleReq now (start (authTS_wire a ++ pullReq_wire req) h) = (Ok tt, c') ∧
  rq_sto c' = h_sto h ∧ rq_ntf c' = h_ntf h ∧
  enc_result (rq_enc c') =
    concat (pullItem_wire <$> ((λ '(q, b), mkPullItem q b) <$>
      log_bodies (sto_log (h_sto h) (at_pubKey a) (pr_rlm req)) (pr_seqs req))).
Proof.
intros Ha Hv Hc Hw Hu Hf. unfold pull_handleReq.
rewrite (auth_prefix_ok a (pullReq_wire req)) by done. cbn [rq_enc rq_sto rq_ntf start].
rewrite has_user_ok by done. unfold mbind at 1, M_bind, m_bind.
rewrite (on_dec_end _ (authTS_wire a) (pullReq_wire req) req).
2: { by apply pullReq_decodes_end. }
2: done.
cbn [rq_enc rq_sto rq_ntf]. unfold on_sto. unfold mbind, M_bind, m_bind. cbn [rq_sto].
rewrite getBodies_spec by done. destruct Hc as [Hr Hs].
unfold rlm_valid. rewrite Hr, Z.eqb_refl.
pose proof (log_bodies_ok _ _ Hf Hs) as Hok.
set (bodies := log_bodies _ _) in *. cbn [rq_enc rq_sto rq_ntf].
set (c0 := mkCtx _ _ _ _).
cut (∃ c', m_forM bodies (λ '(seq, bodyCph),
        on_enc (writeStruct pullItemCodec (mkPullItem seq bodyCph))) c0 = (Ok tt, c') ∧
      set_enc (concat (pullItem_wire <$> ((λ '(q, b), mkPullItem q b) <$> bodies))) c0 c').
{ intros (c' & H0 & H1 & H2 & H3 & H4). exists c'. rewrite H0.
  split_and!; [done|by rewrite H2|by rewrite H3|by rewrite H4]. }
clearbody c0 bodies. clear -Hok. revert c0.
induction bodies as [|[q b] bodies IH]; intros c0.
{ exists c0. split; [done|apply set_enc_refl]. }
apply Forall_cons in Hok as [Hi Hok]. cbn [m_forM].
destruct (on_enc_spec (writeStruct pullItemCodec (mkPullItem q b))
            (pullItem_wire (mkPullItem q b)) c0) as (c1 & E1 & S1).
{ by apply (lawful_enc (ok := pullItem_ok)). }
destruct (IH Hok c1) as (c2 & E2 & S2). exists c2.
unfold mbind, M_bind, m_bind. rewrite E1. split; [done|].
cbn [fmap list_fmap concat]. by eapply set_enc_trans.
Qed.
(** ** PUSH *)

Fixpoint invalid_items (vk : CryptoKey) (idx : Z) (bags : list IBag) : list IBagPushItem :=
match bags with
| [] => []
| b :: bags =>
    (if bagSigValid b vk then [] else [PushFailed idx InvalidSignature])
    ++ invalid_items vk (idx + 1) bags
end.

Fixpoint valid_bags (vk : CryptoKey) (idx : Z) (bags : list IBag) : list (Z * IBag) :=
match bags with
| [] => []
| b :: bags =>
    (if bagSigValid b vk then [(idx, b)] else []) ++ valid_bags vk (idx + 1) bags
end.

Definition stored_item (x : (Z * IBag) * ISetBagResult) : IBagPushItem :=
match x.2 with
| SetStored seq => PushStored x.1.1 seq
| SetFailed st => PushFailed x.1.1 st
end.

Fixpoint stored_notifs (single : bool) (l : list ((Z * IBag) * ISetBagResult))
  : list IBagNotifItem :=
match l with
| [] => []
| ((_, bag), SetFailed _) :: l => stored_notifs single l
| ((_, bag), SetStored seq) :: l =>
    notif_for single bag seq (peekItemHead_wire (bag_peekHead bag))
      :: stored_notifs single l
end.

Definition stored_pairs (vk : CryptoKey) (len : bytes → Z) (bags : list IBag) :=
zip (valid_bags vk 0 bags) (set_results len (valid_bags vk 0 bags).*2).

(** The response list: bad signatures first, then the stored bags. *)
Definition push_items (vk : CryptoKey) (len : bytes → Z) (bags : list IBag)
  : list IBagPushItem :=
invalid_items vk 0 bags ++ (stored_item <$> stored_pairs vk len bags).

Definition push_notifs (vk : CryptoKey) (len : bytes → Z) (bags : list IBag) :=
stored_notifs (Nat.eqb (length bags) 1) (stored_pairs vk len bags).

(** A bag that fits the wire both as sent and as listed. *)
Definition bag_fits (b : IBag) : Prop :=
bag_ok b ∧ bytes_ok (peekItemHead_wire (bag_peekHead b)).

Definition idx_ok (idx : Z) (bags : list IBag) : Prop :=
0 <= idx ∧ idx + Z.of_nat (length bags) <= 2 ^ 32.

Lemma invalid_ok idx : varnum_ok idx → pushItem_ok (PushFailed idx InvalidSignature).
Proof. intros. by split. Qed.

Lemma push_verify_spec vk idx bags c :
idx_ok idx bags →
∃ c', push_verify vk idx bags c = (Ok (valid_bags vk idx bags), c') ∧
  set_enc (concat (pushItem_wire <$> invalid_items vk idx bags)) c c'.
Proof.
revert idx c. induction bags as [|b bags IH]; intros idx c [H0 H1]; cbn [length] in H1.
{ exists c. split; [done|apply set_enc_refl]. }
cbn [push_verify valid_bags invalid_items]. destruct (bagSigValid b vk); cbn [negb app].
- destruct (IH (idx + 1) c) as (c1 & E1 & S1); [split; lia|].
  exists c1. unfold mbind, M_bind, m_bind. by rewrite E1.
- destruct (on_enc_spec (writeStruct pushItemCodec (PushFailed idx InvalidSignature))
              (pushItem_wire (PushFailed idx InvalidSignature)) c) as (c1 & E1 & S1).
  { apply (lawful_enc (ok := pushItem_ok)), invalid_ok, varnum_ok_len. lia. }
  destruct (IH (idx + 1) c1) as (c2 & E2 & S2); [split; lia|].
  exists c2. unfold mbind, M_bind, m_bind. rewrite E1. split; [done|].
  cbn [fmap list_fmap concat]. by eapply set_enc_trans.
Qed.

Lemma valid_bags_Forall vk idx bags (P : IBag → Prop) :
idx_ok idx bags → Forall P bags →
Forall (λ x, varnum_ok x.1 ∧ P x.2) (valid_bags vk idx bags).
Proof.
intros Hi HP. revert idx Hi. induction HP as [|b bags Hb _ IH]; intros idx [H0 H1];
  [constructor|]. cbn [valid_bags length] in *. apply Forall_app. split.
- case_match; [|constructor]. constructor; [|constructor].
  split; [apply varnum_ok_len; simpl; lia|done].
- apply IH. split; lia.
Qed.

Definition result_ok (hi : Z) (r : ISetBagResult) : Prop :=
match r with SetStored q => 1 <= q <= hi | SetFailed st => st = InvalidParam end.

Lemma set_results_ok len bags hi :
(∀ r, 0 <= len r <= hi) →
Forall (result_ok (hi + Z.of_nat (length bags))) (set_results len bags).
Proof.
revert len hi. induction bags as [|b bags IH]; intros len hi H; [constructor|].
cbn [set_results length]. case_match; constructor.
- simpl. specialize (H (bag_rlm b)). lia.
- replace (hi + Z.of_nat (Datatypes.S (length bags)))
    with (hi + 1 + Z.of_nat (length bags)) by lia.
  apply IH. intros r. specialize (H r). case_decide; lia.
- done.
- eapply Forall_impl; [by apply (IH len hi)|]. intros []; simpl; lia || done.
Qed.

Definition pair_ok (x : (Z * IBag) * ISetBagResult) : Prop :=
varnum_ok x.1.1 ∧ bag_fits x.1.2 ∧
match x.2 with SetStored q => varnum_ok q | SetFailed st => st = InvalidParam end.

Lemma stored_item_ok x : pair_ok x → pushItem_ok (stored_item x).
Proof.
destruct x as [[i b] [q|st]]; intros (H1 & H2 & H3); cbn in *; [by split|].
subst. by split.
Qed.

Lemma bag_head_enc b :
bag_ok b →
run_enc (writeStruct peekItemHeadCodec (bag_peekHead b)) =
  Ok (peekItemHead_wire (bag_peekHead b)).
Proof.
intros (H1 & H2 & H3 & H4 & H5). apply encodes_run.
by apply (lawful_enc (ok := peekItemHead_ok)).
Qed.

Lemma push_report_spec single l c :
Forall pair_ok l →
∃ c', push_report single l c = (Ok (stored_notifs single l), c') ∧
  set_enc (concat (pushItem_wire <$> (stored_item <$> l))) c c'.
Proof.
intros Hl. revert c. induction Hl as [|x l Hx _ IH]; intros c.
{ exists c. split; [done|apply set_enc_refl]. }
pose proof (stored_item_ok x Hx) as Hi.
destruct (on_enc_spec (writeStruct pushItemCodec (stored_item x))
            (pushItem_wire (stored_item x)) c) as (c1 & E1 & S1).
{ by apply (lawful_enc (ok := pushItem_ok)). }
destruct (IH c1) as (c2 & E2 & S2). exists c2.
destruct x as [[i b] [q|st]]; cbn [push_report stored_notifs fmap list_fmap concat].
- unfold mbind, M_bind, m_bind, m_lift. rewrite bag_head_enc by apply Hx.
  unfold stored_item in E1. cbn [fst snd] in E1.
  rewrite E1, E2. split; [done|by eapply set_enc_trans].
- unfold mbind, M_bind, m_bind.
  unfold stored_item in E1. cbn [fst snd] in E1. rewrite E1, E2.
  split; [done|by eapply set_enc_trans].
Qed.

Lemma notif_for_ok single b q :
bag_fits b → varnum_ok q →
notif_ok (notif_for single b q (peekItemHead_wire (bag_peekHead b))).
Proof.
intros [(H1 & H2 & H3 & H4 & H5) H6] Hq. unfold notif_for, notif_ok.
cbn [ni_seq ni_rlm ni_headCph ni_bodyCph]. split_and!; try done. by case_match.
Qed.

Lemma stored_notifs_ok single l : Forall pair_ok l → Forall notif_ok (stored_notifs single l).
Proof.
induction 1 as [|[[i b] [q|st]] l (H1 & H2 & H3) _ IH]; cbn [stored_notifs]; [constructor| |done].
constructor; [by apply notif_for_ok|done].
Qed.

Lemma zip_Forall {A B} (P : A → Prop) (Q : B → Prop) xs ys :
Forall P xs → Forall Q ys → Forall (λ x, P x.1 ∧ Q x.2) (zip xs ys).
Proof.
intros HP. revert ys. induction HP as [|x xs Hx _ IH]; intros ys HQ; [constructor|].
destruct HQ; constructor; [done|]. by apply IH.
Qed.

Lemma stored_pairs_ok vk len bags :
Forall bag_fits bags → Z.of_nat (length bags) <= 2 ^ 32 →
(∀ r, 0 <= len r <= maxSafe - 2 ^ 32) →
Forall pair_ok (stored_pairs vk len bags).
Proof.
intros Hb Hn Hlen. unfold stored_pairs.
assert (Hv : Forall (λ x, varnum_ok x.1 ∧ bag_fits x.2) (valid_bags vk 0 bags))
  by by apply valid_bags_Forall.
pose proof (set_results_ok len (valid_bags vk 0 bags).*2 _ Hlen) as Hr.
eapply Forall_impl; [apply (zip_Forall _ _ _ _ Hv Hr)|].
assert (Hle : ∀ idx, (length (valid_bags vk idx bags) <= length bags)%nat).
{ clear. induction bags as [|b bags IH]; intros idx; cbn [valid_bags length]; [lia|].
  rewrite length_app. specialize (IH (idx + 1)). case_match; simpl; lia. }
specialize (Hle 0). rewrite length_fmap.
intros [[i b] [q|st]] [[H1 H2] H3]; simpl in *; split_and!; try done.
apply varnum_ok_safe. simpl. lia.
Qed.

Definition log_lens (s : S) (pk rlm : bytes) : Z := Z.of_nat (length (sto_log s pk rlm)).

Definition push_pre (a : IAuthTimestamp) (now : Date) (bags : list IBag)
  (h : Host (S := S) (N := N)) : Prop :=
authTS_ok a ∧ validateAuthTimestamp a now = Ok tt ∧
Forall bag_fits bags ∧ Z.of_nat (length bags) <= 2 ^ 32 ∧
sto_wf (h_sto h) ∧ sto_user (h_sto h) (at_pubKey a) = true ∧
(∀ r, log_lens (h_sto h) (at_pubKey a) r <= maxSafe - 2 ^ 32).

Lemma validate_key a now :
validateAuthTimestamp a now = Ok tt → ∃ vk, importVerifyKey (at_pubKey a) = Ok vk.
Proof. intros (_ & vk & _ & H & _)%validate_ok_inv. eauto. Qed.

Lemma push_spec a vk bags now h :
push_pre a now bags h → importVerifyKey (at_pubKey a) = Ok vk →
let len := log_lens (h_sto h) (at_pubKey a) in
let notifs := push_notifs vk len bags in
∃ c', push_handleReq now (start (authTS_wire a ++ concat (bag_wire <$> bags)) h)
    = (Ok tt, c') ∧
  enc_result (rq_enc c') = concat (pushItem_wire <$> push_items vk len bags) ∧
  rq_ntf c' = (if 0 <? Z.of_nat (length notifs)
               then n_push (at_pubKey a) (concat (notif_wire <$> notifs)) (h_ntf h)
               else h_ntf h) ∧
  sto_wf (rq_sto c') ∧
  (∀ pk, sto_user (rq_sto c') pk = sto_user (h_sto h) pk) ∧
  (∀ pk rlm, sto_log (rq_sto c') pk rlm = sto_log (h_sto h) pk rlm ++
     if decide (pk = at_pubKey a) then bag_entries rlm (valid_bags vk 0 bags).*2 else []).
Proof.
intros (Ha & Hv & Hb & Hn & Hw & Hu & Hlen) Hk len notifs. unfold push_handleReq.
rewrite (auth_prefix_ok a (concat (bag_wire <$> bags))) by done. cbn [rq_enc rq_sto rq_ntf start].
rewrite has_user_ok by done. unfold mbind at 1, M_bind, m_bind.
rewrite (on_dec_end _ (authTS_wire a) (concat (bag_wire <$> bags)) bags).
2: { apply pushReq_decodes_end. eapply Forall_impl; [done|]. by intros ? []. }
2: done.
cbn [rq_enc rq_sto rq_ntf]. rewrite Hk.
set (c0 := mkCtx _ _ _ _). unfold mbind at 1, M_bind, m_bind.
destruct (push_verify_spec vk 0 bags c0) as (c1 & -> & D1 & D2 & D3 & D4); [by split|].
unfold mbind at 1, M_bind, m_bind, on_sto.
assert (Hst : Forall storable (valid_bags vk 0 bags).*2).
{ apply Forall_fmap. eapply Forall_impl; [by apply (valid_bags_Forall vk 0 bags bag_fits)|].
  intros x (_ & (_ & _ & _ & H & _) & _). exact H. }
destruct (setBags_spec (at_pubKey a) (valid_bags vk 0 bags).*2 (rq_sto c1))
  as (s' & -> & Hw' & Hu' & Hl'); [by rewrite D2|done|].
rewrite D2 in *. cbn [rq_sto rq_enc rq_ntf c0] in *.
rewrite set_results_length, length_fmap, Nat.eqb_refl. cbn [negb].
set (c2 := mkCtx _ _ _ _). unfold mbind at 1, M_bind, m_bind.
pose proof (stored_pairs_ok vk len bags Hb Hn) as Hp.
assert (Hlen' : ∀ r, 0 <= len r <= maxSafe - 2 ^ 32).
{ intros r. split; [unfold len, log_lens; lia|apply Hlen]. }
specialize (Hp Hlen'). change (zip _ _) with (stored_pairs vk len bags).
destruct (push_report_spec (Nat.eqb (length bags) 1) (stored_pairs vk len bags) c2 Hp)
  as (c3 & -> & E1 & E2 & E3 & E4).
change (stored_notifs _ _) with notifs.
assert (Henc : enc_result (rq_enc c3) = concat (pushItem_wire <$> push_items vk len bags)).
{ rewrite E4. cbn [c2 rq_enc]. rewrite D4. unfold push_items.
  by rewrite fmap_app, concat_app. }
assert (Hn3 : rq_ntf c3 = h_ntf h) by by rewrite E3.
assert (Hs3 : rq_sto c3 = s') by by rewrite E2.
destruct (0 <? Z.of_nat (length notifs)).
- unfold mbind, M_bind, m_bind, m_lift.
  rewrite (encodes_run _ (concat (notif_wire <$> notifs))).
  2: { apply (writeStructs_encodes notifItemCodec notif_ok notif_norm notif_wire).
       by apply stored_notifs_ok. }
  eexists. split; [done|]. cbn [rq_enc rq_ntf rq_sto]. rewrite Hn3, Hs3.
  split_and!; done.
- exists c3. rewrite Hn3, Hs3. split_and!; done.
Qed.

(** ** USER *)

Lemma user_spec a now h :
authTS_ok a → validateAuthTimestamp a now = Ok tt → sto_wf (h_sto h) →
∃ c', user_handleReq now (start (authTS_wire a) h) = (Ok tt, c') ∧
  enc_result (rq_enc c') = [] ∧ rq_ntf c' = h_ntf h ∧ sto_wf (rq_sto c') ∧
  sto_user (rq_sto c') (at_pubKey a) = true ∧
  (∀ pk, sto_user (h_sto h) pk = true → sto_user (rq_sto c') pk = true) ∧
  (∀ pk rlm, sto_log (rq_sto c') pk rlm = sto_log (h_sto h) pk rlm).
Proof.
intros Ha Hv Hw. unfold user_handleReq. rewrite <-(app_nil_r (authTS_wire a)).
rewrite (auth_prefix_ok a []) by done. cbn [rq_enc rq_sto rq_ntf start].
unfold mbind, M_bind, m_bind, reqDone, dec_done. cbn [rq_dec data pos].
rewrite app_nil_r, Z.leb_refl. cbn [negb]. unfold on_sto. cbn [rq_sto].
destruct (addUser_spec (at_pubKey a) (h_sto h) Hw) as (s' & -> & H1 & H2 & H3).
eexists. split; [done|]. cbn [rq_enc rq_sto rq_ntf].
split_and!; try done.
- rewrite H2. by rewrite bool_decide_true.
- intros pk Hpk. rewrite H2, Hpk. apply orb_true_r.
Qed.

(** ** Index accounting of a push response *)

Lemma valid_invalid_idx vk idx bags :
(pi_idx <$> invalid_items vk idx bags) ++ (valid_bags vk idx bags).*1 ≡ₚ
(λ i, idx + Z.of_nat i) <$> seq 0 (length bags).
Proof.
revert idx. induction bags as [|b bags IH]; intros idx; [done|].
cbn [invalid_items valid_bags length seq fmap list_fmap].
rewrite Z.add_0_r, <-fmap_S_seq, <-list_fmap_compose.
assert (Hs : ((λ i, idx + Z.of_nat i) ∘ Datatypes.S <$> seq 0 (length bags)) =
        ((λ i, (idx + 1) + Z.of_nat i) <$> seq 0 (length bags))).
{ apply list_fmap_ext. intros ? i _. simpl. lia. }
rewrite Hs, <-(IH (idx + 1)). clear.
destruct (bagSigValid b vk); cbn [app fmap list_fmap fst pi_idx]; [|done].
by rewrite Permutation_middle.
Qed.

Lemma stored_item_idx (l : list (Z * IBag)) rs :
length l = length rs → pi_idx <$> (stored_item <$> zip l rs) = l.*1.
Proof.
revert rs. induction l as [|x l IH]; intros [|r rs] H; simplify_eq/=; [done..|].
rewrite IH by done. by destruct r.
Qed.

Lemma push_items_idx vk len bags :
pi_idx <$> push_items vk len bags ≡ₚ Z.of_nat <$> seq 0 (length bags).
Proof.
unfold push_items, stored_pairs. rewrite fmap_app, stored_item_idx.
- rewrite valid_invalid_idx. apply reflexive_eq.
  apply list_fmap_ext. intros ? i _. lia.
- by rewrite set_results_length, length_fmap.
Qed.

Lemma push_items_ok vk len bags :
Forall bag_fits bags → Z.of_nat (length bags) <= 2 ^ 32 →
(∀ r, 0 <= len r <= maxSafe - 2 ^ 32) →
Forall pushItem_ok (push_items vk len bags).
Proof.
intros Hb Hn Hl. apply Forall_app. split.
- assert (Hi : idx_ok 0 bags) by done. clear -Hi. revert Hi. generalize 0 as idx.
  induction bags as [|b bags IH]; intros idx [H0 H1]; [constructor|].
  cbn [invalid_items length] in *. apply Forall_app. split.
  + case_match; [constructor|]. constructor; [|constructor].
    apply invalid_ok, varnum_ok_len. lia.
  + apply IH. split; lia.
- apply Forall_fmap. eapply Forall_impl; [by apply stored_pairs_ok|].
  apply stored_item_ok.
Qed.

(** ** The response reaches the client *)

Lemma push_decodeResp_spec items :
Forall pushItem_ok items →
run_dec push_decodeResp (concat (pushItem_wire <$> items)) = Ok items.
Proof.
intros H. pose proof (readStructs_decodes_end pushItemCodec pushItem_ok id pushItem_wire items H) as Hd.
rewrite list_fmap_id in Hd. by apply decodes_end_run.
Qed.

Lemma peek_decodeResp_spec items :
Forall peekItem_ok items →
run_dec peek_decodeResp (concat (peekItem_wire <$> items)) = Ok items.
Proof.
intros H. pose proof (readStructs_decodes_end peekItemCodec peekItem_ok id peekItem_wire items H) as Hd.
rewrite list_fmap_id in Hd. by apply decodes_end_run.
Qed.

Lemma pull_decodeResp_spec items :
Forall pullItem_ok items →
run_dec pull_decodeResp (concat (pullItem_wire <$> items)) = Ok items.
Proof.
intros H. pose proof (readStructs_decodes_end pullItemCodec pullItem_ok id pullItem_wire items H) as Hd.
rewrite list_fmap_id in Hd. by apply decodes_end_run.
Qed.

(** ** Sealed messages through the host *)

Section through.
Context {L : CryptoLaws C} (mgr : BagManager) (vk : CryptoKey).
Context (Hm : bm_valid mgr) (Hk : importVerifyKey (bm_publicKey mgr) = Ok vk).

Lemma sealed_valid_bags msgs bags idx :
  Forall2 (λ m b, sealed m mgr b) msgs bags → (valid_bags vk idx bags).*2 = bags.
Proof.
  intros H. revert idx. induction H as [|m b msgs bags Hb _ IH]; intros idx; [done|].
  cbn [valid_bags]. rewrite (sealed_sig_valid m mgr b vk) by done.
  cbn [app fmap list_fmap snd]. unfold fmap in IH. by rewrite IH.
Qed.

Lemma sealed_entries msgs bags :
  Forall2 (λ m b, sealed m mgr b) msgs bags →
  bag_entries (bm_rlm mgr) bags = entry_of <$> bags.
Proof.
  induction 1 as [|m b msgs bags Hb _ IH]; [done|]. cbn [bag_entries fmap list_fmap].
  rewrite (sealed_rlm _ _ _ Hb). unfold rlm_valid.
  rewrite (proj2 (Z.eqb_eq _ _)) by apply Hm. rewrite bool_decide_true by done.
  by rewrite IH.
Qed.

Lemma sealed_items msgs bags n :
  Forall2 (λ m b, sealed m mgr b) msgs bags → Forall bag_fits bags →
  Forall2 (λ m it, res_map di_headEnc (decryptPeekItem it vk mgr) =
                   Ok (head_wire (sealed_head m)))
    msgs (log_items n (entry_of <$> bags)).
Proof.
  intros H Hf. revert n. induction H as [|m b msgs bags Hb _ IH]; intros n; [constructor|].
  apply Forall_cons in Hf as [[Hbo _] Hf]. cbn [fmap list_fmap log_items].
  constructor; [|by apply IH]. unfold entry_of, bag_peekHead. cbn [en_headCph].
  rewrite (decryptPeekItem_sealed m mgr b vk n) by (try done; by destruct Hbo as (_&_&_&?&_)).
  done.
Qed.
End through.

(** ** Transports *)

Lemma respHead_any st t1 t2 :
date_ok t1 → date_ok t2 →
∃ bs, run_enc (writeStruct respHeadCodec (mkRespHead st t1 t2 nullSubMeta)) = Ok bs ∧
  ∀ rest, readStruct respHeadCodec (newDecoder (bs ++ rest)) =
    (Ok (mkRespHead (status_of_code (status_code st mod 256)) t1 t2 nullSubMeta),
     mkDec (bs ++ rest) (blen bs)).
Proof.
intros H1 H2. set (st' := status_of_code (status_code st mod 256)).
set (hd := mkRespHead st' t1 t2 nullSubMeta).
assert (Hok : respHead_ok hd).
{ unfold respHead_ok, sub_ok, quota_ok. cbn.
  assert (varnum_ok 0) by by apply varnum_ok_len.
  split_and!; try done; [|lia..]. unfold status_ok, st'.
  by rewrite status_code_of_code, Z.mod_mod by lia. }
assert (Hw : Zbyte (status_code st) = Zbyte (status_code st')).
{ unfold st'. rewrite status_code_of_code. unfold Zbyte. by rewrite Z.mod_mod by lia. }
exists (respHead_wire hd). split.
- rewrite <-(encodes_run _ _ (lawful_enc (ok := respHead_ok) hd Hok)).
  unfold writeStruct, respHeadCodec. cbn [cEncode rh_status rh_timeRcvd rh_timeSent
    rh_subscription hd]. by rewrite Hw.
- intros rest. exact (lawful_dec (ok := respHead_ok) (norm := respHead_norm) hd Hok [] rest).
Qed.

Lemma errResp_ok st t1 t2 :
date_ok t1 → date_ok t2 →
∃ bs, errResp (mkRespHead st t1 t2 nullSubMeta) = Ok (RespBin bs) ∧
  ∀ rest, readStruct respHeadCodec (newDecoder (bs ++ rest)) =
    (Ok (mkRespHead (status_of_code (status_code st mod 256)) t1 t2 nullSubMeta),
     mkDec (bs ++ rest) (blen bs)).
Proof.
intros H1 H2. destruct (respHead_any st t1 t2 H1 H2) as (bs & Hb & Hd).
exists bs. unfold errResp. by rewrite Hb.
Qed.

(** What a client reads off a response: the head, and the body after it. *)
Definition resp_head (r : Res Response) : option IRespHead :=
match r with
| Ok (RespBin bs) =>
    match readStruct respHeadCodec (newDecoder bs) with (Ok hd, _) => Some hd | _ => None end
| _ => None
end.

Lemma errResp_head st t1 t2 :
date_ok t1 → date_ok t2 →
resp_head (errResp (mkRespHead st t1 t2 nullSubMeta)) =
  Some (mkRespHead (status_of_code (status_code st mod 256)) t1 t2 nullSubMeta).
Proof.
intros H1 H2. destruct (errResp_ok st t1 t2 H1 H2) as (bs & -> & Hd).
specialize (Hd []). rewrite app_nil_r in Hd. cbn [resp_head]. by rewrite Hd.
Qed.

Lemma http_try_head name data timeRcvd now t1 timeSent h :
date_ok timeRcvd → date_ok t1 → date_ok timeSent →
(http_try name data timeRcvd now t1 timeSent h).1 = Throw ∨
∃ hd, resp_head (http_try name data timeRcvd now t1 timeSent h).1 = Some hd ∧
      rh_timeRcvd hd = timeRcvd.
Proof.
intros H1 H2 H3. unfold http_try.
destruct (handleReq name now _) as [r c']. destruct r as [u|st|]; cbn [fst];
  [right|right|by left].
- destruct (respHead_any Success timeRcvd t1 H1 H2) as (bs & Hb & Hd).
  cbn [res_status]. rewrite Hb, bool_decide_true by done. cbn [negb resp_head].
  rewrite Hd. by eexists.
- destruct (respHead_any st timeRcvd t1 H1 H2) as (bs & Hb & Hd). cbn [res_status].
  rewrite Hb. destruct (decide (st = Success)) as [->|Hne].
  + rewrite bool_decide_true by done. cbn [negb resp_head]. rewrite Hd. by eexists.
  + rewrite bool_decide_false by done. cbn [negb]. rewrite errResp_head by done.
    by eexists.
Qed.

Lemma http_handler_head req timeRcvd now t1 timeSent h :
date_ok timeRcvd → date_ok t1 → date_ok timeSent →
∃ hd, resp_head (http_handler req timeRcvd now t1 timeSent h).1 = Some hd ∧
      rh_timeRcvd hd = timeRcvd.
Proof.
intros H1 H2 H3. unfold http_handler.
case_match; [cbn [fst]; rewrite errResp_head by done; by eexists|].
case_match; [|cbn [fst]; rewrite errResp_head by done; by eexists].
case_match; [|cbn [fst]; rewrite errResp_head by done; by eexists].
match goal with |- context [http_try ?n ?d _ _ _ _ _] =>
  destruct (http_try_head n d timeRcvd now t1 timeSent h H1 H2 H3) as [Ht|Ht];
  destruct (http_try n d timeRcvd now t1 timeSent h) as [r h'] end; cbn [fst] in *.
- subst r. cbn [fst]. rewrite errResp_head by done. by eexists.
- destruct r; [exact Ht..|]. by destruct Ht as (? & ? & _).
Qed.

End host.

(** ** Isolation of users on the host

    Whatever bytes arrive, a request can only append to the logs of the key
    that signed its timestamp, and can only register that key. *)

(** ** Sizes of decoded values *)

Definition dec_post {A} (D : bytes) (m : DecM A) (P : A → Prop) : Prop :=
  ∀ d a d', dec_wf d → data d = D → m d = (Ok a, d') → P a.

Lemma dec_post_bind {A B} D (m : DecM A) (k : A → DecM B) P Q :
  dec_safe m → dec_post D m P → (∀ a, P a → dec_post D (k a) Q) → dec_post D (m ≫= k) Q.
Proof.
  intros Hs Hm Hk d b d'' Hd HD (a & d' & H1 & H2)%m_bind_Ok_inv.
  destruct (Hs d Hd) as (Hdat & _ & Hw). rewrite H1 in Hdat, Hw. simpl in *.
  exact (Hk a (Hm _ _ _ Hd HD H1) _ _ _ Hw (eq_trans Hdat HD) H2).
Qed.

Lemma dec_post_any {A} D (m : DecM A) : dec_post D m (λ _, True).
Proof. by intros d a d'. Qed.

Lemma dec_post_ret {A} D (a : A) (P : A → Prop) : P a → dec_post D (mret a) P.
Proof. by intros H d b d' _ _ [= <- <-]. Qed.

Lemma dec_post_readBytes D n : dec_post D (readBytes n) (λ bs, blen bs <= blen D).
Proof.
  intros d a d' Hd <-. unfold readBytes. case_match; [done|]. case_match; [done|].
  intros [= <- <-]. unfold slice, blen. rewrite length_take, length_drop. lia.
Qed.

Lemma dec_post_readVarBytes D : dec_post D readVarBytes (λ bs, blen bs <= blen D).
Proof.
  unfold readVarBytes. eapply dec_post_bind; [eauto with codec|apply dec_post_any|].
  intros. apply dec_post_readBytes.
Qed.

Lemma bag_post D : dec_post D (cDecode bagCodec) (λ b, blen (bag_headCph b) <= blen D).
Proof.
  cbn -[m_lift]. do 4 (eapply dec_post_bind; [dec_safe_walk|apply dec_post_any|intros]).
  eapply dec_post_bind; [dec_safe_walk|apply dec_post_readVarBytes|intros].
  eapply dec_post_bind; [dec_safe_walk|apply dec_post_any|intros].
  by apply dec_post_ret.
Qed.

Lemma dec_post_while {A} D f (m : DecM A) P :
  dec_safe m → dec_post D m P → dec_post D (dec_while f m) (Forall P).
Proof.
  intros Hs Hm. induction f as [|f IH]; intros d a d' Hd HD; cbn [dec_while]; [done|].
  case_match; [by intros [= <- <-]|].
  revert d a d' Hd HD H. cut (dec_post D (x ← m; xs ← dec_while f m; mret (x :: xs)) (Forall P)).
  { intros Hc d a d' Hd HD _. by apply Hc. }
  eapply dec_post_bind; [done|done|]. intros x Hx.
  eapply dec_post_bind; [by apply dec_safe_while|exact IH|]. intros xs Hxs.
  apply dec_post_ret. by constructor.
Qed.

Lemma pushReq_post D :
  dec_post D (cDecode pushReqCodec) (Forall (λ b, blen (bag_headCph b) <= blen D)).
Proof.
  intros d a d' Hd HD. apply (dec_post_while D _ (cDecode bagCodec)); [|apply bag_post|done|done].
  eauto with codec.
Qed.

(** ** Effects *)

Section host.
Context {C : CryptoPrims} {S N : Type} {I : IStorage S} {Sp : StorageSpec S}
{PN : IPushNotifier N}.

(** What a request signed by [pk0] may do to the storage. *)
Definition only_user (pk0 : bytes) (s s' : S) : Prop :=
(∀ pk, sto_user s' pk = true → sto_user s pk = true ∨ pk = pk0) ∧
(∀ pk, sto_user s pk = true → sto_user s' pk = true) ∧
(∀ pk rlm, ∃ new, sto_log s' pk rlm = sto_log s pk rlm ++ new ∧ (pk ≠ pk0 → new = [])).

Lemma only_user_refl pk s : only_user pk s s.
Proof. split_and!; [auto|auto|]. intros. exists []. by rewrite app_nil_r. Qed.

Lemma only_user_trans pk s1 s2 s3 :
only_user pk s1 s2 → only_user pk s2 s3 → only_user pk s1 s3.
Proof.
intros (A1 & B1 & C1) (A2 & B2 & C2). split_and!; [|auto|].
- intros k Hk. destruct (A2 k Hk); auto.
- intros k r. destruct (C1 k r) as (n1 & E1 & F1), (C2 k r) as (n2 & E2 & F2).
  exists (n1 ++ n2). rewrite E2, E1, (assoc_L app). split; [done|].
  intros Hk. by rewrite F1, F2.
Qed.

Section one.
Context (pk0 D : bytes) (s0 : S).

Definition inv (c : Ctx S N) : Prop :=
  dec_wf (rq_dec c) ∧ data (rq_dec c) = D ∧ sto_wf (rq_sto c) ∧
  only_user pk0 s0 (rq_sto c).

(** Handlers that keep [inv] and return values satisfying [Q]. *)
Definition keeps {A} (m : M (Ctx S N) A) (Q : A → Prop) : Prop :=
  ∀ c, inv c → inv (m c).2 ∧ ∀ a c', m c = (Ok a, c') → Q a.

Lemma keeps_bind {A B} (m : M (Ctx S N) A) (k : A → M (Ctx S N) B) P Q :
  keeps m P → (∀ a, P a → keeps (k a) Q) → keeps (m ≫= k) Q.
Proof.
  intros Hm Hk c Hc. destruct (Hm c Hc) as [H1 H2].
  unfold mbind, M_bind, m_bind. destruct (m c) as [[a| |] c1] eqn:E; simpl in *.
  - exact (Hk a (H2 _ _ eq_refl) _ H1).
  - done.
  - done.
Qed.

Lemma keeps_any {A} (m : M (Ctx S N) A) Q : keeps m Q → keeps m (λ _, True).
Proof. intros H c Hc. by destruct (H c Hc). Qed.

Lemma keeps_ret {A} (a : A) (Q : A → Prop) : Q a → keeps (mret a) Q.
Proof. intros H c Hc. split; [done|]. by intros ? ? [= <- <-]. Qed.

Lemma keeps_err {A} st (Q : A → Prop) : keeps (m_err st) Q.
Proof. by intros c Hc. Qed.

Lemma keeps_lift {A} (r : Res A) (Q : A → Prop) :
  (∀ a, r = Ok a → Q a) → keeps (m_lift r) Q.
Proof. intros H c Hc. split; [done|]. intros a c' [= -> <-]. auto. Qed.

Lemma keeps_if {A} (b : bool) (m1 m2 : M (Ctx S N) A) Q :
  keeps m1 Q → keeps m2 Q → keeps (if b then m1 else m2) Q.
Proof. by destruct b. Qed.

Lemma keeps_enc {A} (m : EncM A) : keeps (on_enc m) (λ _, True).
Proof. intros c Hc. unfold on_enc. by destruct (m (rq_enc c)). Qed.

Lemma keeps_done : keeps reqDone (λ _, True).
Proof. by intros c Hc. Qed.

Lemma keeps_notify pk d : keeps (notify pk d) (λ _, True).
Proof. by intros c Hc. Qed.

Lemma keeps_dec {A} (m : DecM A) P :
  dec_safe m → dec_post D m P → keeps (on_dec m) P.
Proof.
  intros Hs Hm c (Hd & HD & Hw & Ho). unfold on_dec.
  destruct (Hs _ Hd) as (H1 & _ & H3).
  destruct (m (rq_dec c)) as [r d] eqn:E. simpl in *. split.
  - unfold inv. cbn [rq_dec rq_sto]. by rewrite H1.
  - intros a c' [= -> <-]. exact (Hm _ _ _ Hd HD E).
Qed.

Lemma keeps_sto {A} (m : M S A) :
  (∀ s, sto_wf s → sto_wf (m s).2 ∧ only_user pk0 s (m s).2) →
  keeps (on_sto m) (λ _, True).
Proof.
  intros H c (Hd & HD & Hw & Ho). unfold on_sto.
  destruct (H _ Hw) as [H1 H2]. destruct (m (rq_sto c)) as [r s]. simpl in *.
  split; [|done]. split_and!; try done. by eapply only_user_trans.
Qed.

Lemma keeps_addUser : keeps (on_sto (addUser pk0)) (λ _, True).
Proof.
  apply keeps_sto. intros s Hs.
  destruct (addUser_spec pk0 s Hs) as (s' & -> & H1 & H2 & H3). split; [done|].
  split_and!.
  - intros pk. simpl. rewrite H2, orb_true_iff, bool_decide_eq_true. naive_solver.
  - intros pk Hpk. simpl. by rewrite H2, Hpk, orb_true_r.
  - intros pk r. exists []. simpl. by rewrite H3, app_nil_r.
Qed.

Lemma keeps_hasUser pk : keeps (on_sto (hasUser pk)) (λ _, True).
Proof.
  apply keeps_sto. intros s Hs. rewrite hasUser_spec by done.
  split; [done|apply only_user_refl].
Qed.

Lemma keeps_listHeads pk r n : keeps (on_sto (listHeads pk r n)) (λ _, True).
Proof.
  apply keeps_sto. intros s Hs. rewrite listHeads_spec by done.
  split; [done|apply only_user_refl].
Qed.

Lemma keeps_getBodies pk r q : keeps (on_sto (getBodies pk r q)) (λ _, True).
Proof.
  apply keeps_sto. intros s Hs. rewrite getBodies_spec by done.
  split; [done|apply only_user_refl].
Qed.

Lemma keeps_setBags bags :
  Forall storable bags → keeps (on_sto (setBags pk0 bags)) (λ _, True).
Proof.
  intros Hb. apply keeps_sto. intros s Hs.
  destruct (setBags_spec pk0 bags s Hs Hb) as (s' & -> & H1 & H2 & H3). split; [done|].
  split_and!.
  - intros pk. simpl. rewrite H2. auto.
  - intros pk. simpl. by rewrite H2.
  - intros pk r. simpl. rewrite H3. eexists. split; [done|].
    intros Hne. by rewrite decide_False.
Qed.

Lemma keeps_forM {A} (xs : list A) (f : A → M (Ctx S N) unit) :
  (∀ x, keeps (f x) (λ _, True)) → keeps (m_forM xs f) (λ _, True).
Proof.
  intros Hf. induction xs as [|x xs IH]; cbn [m_forM]; [by apply keeps_ret|].
  eapply keeps_bind; [apply Hf|done].
Qed.

Lemma keeps_verify vk idx bags P :
  Forall P bags → keeps (push_verify vk idx bags) (λ l, Forall P l.*2).
Proof.
  intros H. revert idx. induction H as [|b bags Hb _ IH]; intros idx; cbn [push_verify].
  { apply keeps_ret. constructor. }
  apply keeps_if.
  - eapply keeps_bind; [apply keeps_enc|]. intros. apply IH.
  - eapply keeps_bind; [apply IH|]. intros l Hl. apply keeps_ret. by constructor.
Qed.

Lemma keeps_report single l : keeps (push_report single l) (λ _, True).
Proof.
  induction l as [|[[i b] [q|st]] l IH]; cbn [push_report]; [by apply keeps_ret| |].
  - eapply keeps_bind; [by apply (keeps_lift _ (λ _, True))|]. intros.
    eapply keeps_bind; [apply keeps_enc|]. intros.
    eapply keeps_bind; [apply IH|]. intros. by apply keeps_ret.
  - eapply keeps_bind; [apply keeps_enc|]. intros. apply IH.
Qed.
End one.

(** The handler after authentication, as a computation of the claimed key. *)
Definition after_auth (name : APICallName) (a : IAuthTimestamp) : M (Ctx S N) unit :=
match name with
| CallUser =>
    done ← reqDone;
    if negb done then m_err ExtraBodyContent else on_sto (addUser (at_pubKey a))
| CallPeek =>
    has ← on_sto (hasUser (at_pubKey a));
    if negb has then m_err UserNotRegistered
    else
      cursor ← on_dec (readStruct peekCursorCodec);
      done ← reqDone;
      if negb done then m_err ExtraBodyContent
      else
        items ← on_sto (listHeads (at_pubKey a) (pc_rlm cursor) (pc_seq cursor));
        on_enc (writeStructs peekItemCodec items)
| CallPull =>
    has ← on_sto (hasUser (at_pubKey a));
    if negb has then m_err UserNotRegistered
    else
      req ← on_dec (readStruct pullReqCodec);
      bodies ← on_sto (getBodies (at_pubKey a) (pr_rlm req) (pr_seqs req));
      m_forM bodies (λ '(seq, bodyCph),
        on_enc (writeStruct pullItemCodec (mkPullItem seq bodyCph)))
| CallPush =>
    has ← on_sto (hasUser (at_pubKey a));
    if negb has then m_err UserNotRegistered
    else
      bags ← on_dec (readStruct pushReqCodec);
      match importVerifyKey (at_pubKey a) with
      | Ok vk =>
          valid ← push_verify vk 0 bags;
          stored ← on_sto (setBags (at_pubKey a) valid.*2);
          if negb (Nat.eqb (length stored) (length valid)) then m_err StorageError
          else
            notifs ← push_report (Nat.eqb (length bags) 1) (zip valid stored);
            if 0 <? Z.of_nat (length notifs) then
              batch ← m_lift (run_enc (writeStructs notifItemCodec notifs));
              notify (at_pubKey a) batch
            else mret tt
      | _ => m_err CryptoError
      end
end.

Lemma handleReq_after name now :
handleReq name now =
(authTS ← on_dec (readStruct authTimestampCodec);
 _ ← m_lift (validateAuthTimestamp authTS now); after_auth name authTS).
Proof. by destruct name. Qed.

Lemma after_auth_keeps name a D s0 :
blen D < 2 ^ 32 → keeps (at_pubKey a) D s0 (after_auth name a) (λ _, True).
Proof.
intros HD. destruct name; cbn [after_auth].
- eapply keeps_bind; [apply keeps_done|]. intros.
  apply keeps_if; [apply keeps_err|apply keeps_addUser].
- eapply keeps_bind; [apply keeps_hasUser|]. intros. apply keeps_if; [apply keeps_err|].
  eapply keeps_bind; [apply keeps_dec; [eauto with codec|apply dec_post_any]|]. intros.
  eapply keeps_bind; [apply keeps_done|]. intros. apply keeps_if; [apply keeps_err|].
  eapply keeps_bind; [apply keeps_listHeads|]. intros. apply keeps_enc.
- eapply keeps_bind; [apply keeps_hasUser|]. intros. apply keeps_if; [apply keeps_err|].
  eapply keeps_bind.
  { apply keeps_dec; [apply dec_safe_total, pushReq_total|apply pushReq_post]. }
  intros bags Hb. destruct (importVerifyKey _) as [vk| |]; [|apply keeps_err..].
  eapply keeps_bind; [by apply keeps_verify|]. intros valid Hvalid.
  eapply keeps_bind.
  { apply keeps_setBags. eapply Forall_impl; [exact Hvalid|].
    intros b Hle. unfold storable, bytes_ok. cbv beta in Hle. lia. }
  intros. apply keeps_if; [apply keeps_err|].
  eapply keeps_bind; [apply keeps_report|]. intros. apply keeps_if; [|by apply keeps_ret].
  eapply keeps_bind; [by apply (keeps_lift _ _ _ _ (λ _, True))|]. intros. apply keeps_notify.
- eapply keeps_bind; [apply keeps_hasUser|]. intros. apply keeps_if; [apply keeps_err|].
  eapply keeps_bind.
  { apply keeps_dec; [apply dec_safe_total, pullReq_total|apply dec_post_any]. }
  intros. eapply keeps_bind; [apply keeps_getBodies|]. intros.
  apply keeps_forM. intros [q b]. apply keeps_enc.
Qed.

Lemma authed_split name data now h a d :
authed data now = Some (a, d) →
handleReq name now (start data h) =
  after_auth name a (mkCtx d newEncoder (h_sto h) (h_ntf h)) ∧
dec_wf d ∧ Codec.data d = data.
Proof.
rewrite handleReq_after. unfold authed, mbind, M_bind, m_bind, on_dec, m_lift.
cbn [start rq_dec].
assert (Hs : dec_safe (readStruct authTimestampCodec)) by eauto with codec.
assert (Hwf : dec_wf (newDecoder data)).
{ unfold dec_wf. simpl. pose proof (blen_nonneg data). lia. }
destruct (Hs _ Hwf) as (H1 & _ & H3).
destruct (readStruct authTimestampCodec (newDecoder data)) as [[a'| |] d']; [|done..].
destruct (validateAuthTimestamp a' now) as [[]| |] eqn:Ev; [|done..].
cbn [is_ok]. by intros [= <- <-].
Qed.

(** The effect of any request on the storage. *)
Lemma handleReq_effect name data now h :
sto_wf (h_sto h) → blen data < 2 ^ 32 →
let c' := (handleReq name now (start data h)).2 in
sto_wf (rq_sto c') ∧
match authed data now with
| None => rq_sto c' = h_sto h ∧ rq_ntf c' = h_ntf h ∧ enc_result (rq_enc c') = []
| Some (a, _) => only_user (at_pubKey a) (h_sto h) (rq_sto c')
end.
Proof.
intros Hw HD c'. destruct (authed data now) as [[a d]|] eqn:E.
- subst c'. destruct (authed_split name data now h a d E) as (-> & Hd & Hdat).
  set (c1 := mkCtx _ _ _ _).
  destruct (after_auth_keeps name a data (h_sto h) HD c1) as [(_ & _ & H4 & H5) _].
  { split_and!; try done. apply only_user_refl. }
  exact (conj H4 H5).
- destruct (handleReq_unauth name data now h E) as (r & dd & H & _).
  subst c'. by rewrite H.
Qed.

End host.
