(* ===== verification/HostProps.v ===== *)
(** * Properties of the host

    Functional behaviour of the four calls, isolation of users, totality of
    the HTTP transport, the in-memory storage as an implementation of the
    storage contract, and sealed messages seen through a host. *)
From S2P Require Export ServerFacts.
Import Toy Mem.

(** ** A concrete host *)

Module Demo.

Definition ts0 : Z := 1700000000000.
Definition pk0 : bytes := bm_publicKey toy_mgr.
Definition auth0 : IAuthTimestamp :=
  mkAuthTS pk0 (toy_sig pk0 (date_wire (Some ts0))) (Some ts0).

Lemma auth0_ok : authTS_ok auth0.
Proof.
  split_and!; [vm_compute; reflexivity|vm_compute; reflexivity|].
  exists ts0. split; [reflexivity|]. split; vm_compute; discriminate.
Qed.

Lemma auth0_valid : validateAuthTimestamp auth0 (Some ts0) = Ok tt.
Proof. vm_compute. reflexivity. Qed.

(** A storage where [pk0] is registered. *)
Definition sto0 : MemStorage := mkMem [btoh pk0] [].
Definition host0 : Host (S := MemStorage) (N := CallbackNotifier) :=
  mkHost sto0 (mkNotifier [(btoh pk0, [7%nat])] []).

Lemma sto0_wf : sto_wf sto0.
Proof. by intros h u. Qed.

Definition eid0 : bytes := eid_wire (mkIEntityID (be_bytes 8 9) (Some ts0)).
Definition msg0 : IMessage :=
  mkMsg (mkHead None eid0 (Some 0) 0 2 None) (Some [x68; x69]).
Definition nonce0 : bytes := be_bytes 24 11.

Definition bag1 : IBag :=
  match sealBag msg0 toy_mgr nonce0 nonce0 with
  | Ok b => b
  | _ => mkBag [] [] [] [] []
  end.
(** The same bag with a broken signature. *)
Definition bag2 : IBag :=
  mkBag (bag_rlm bag1) (be_bytes 64 0) (bag_kdm bag1) (bag_headCph bag1) (bag_bodyCph bag1).

Lemma msg0_ok : msg_ok msg0.
Proof.
  split; [by apply (bool_decide_unpack _)|]. split; [vm_compute; reflexivity|].
  split; [vm_compute; reflexivity|].
  split; [exists 0; split; [reflexivity|by apply varnum_ok_len]|].
  split; [by apply varnum_ok_len|]. split; [vm_compute; reflexivity|].
  split; vm_compute; reflexivity.
Qed.

Lemma bag1_seal : sealBag msg0 toy_mgr nonce0 nonce0 = Ok bag1.
Proof. vm_compute. reflexivity. Qed.

(** What inserting a content of no bytes seals. *)
Definition empty_body : IMessage := mkMsg (mkHead None eid0 (Some 0) 0 0 None) (Some []).
Lemma empty_body_wf : msg_wf empty_body.
Proof.
  split; [by apply (bool_decide_unpack _)|]. split; [vm_compute; reflexivity|].
  split; [vm_compute; reflexivity|].
  split; [exists 0; split; [reflexivity|by apply varnum_ok_len]|].
  split; [by apply varnum_ok_len|]. split; vm_compute; reflexivity.
Qed.
Lemma empty_body_seal : ∃ bag, sealBag empty_body toy_mgr nonce0 nonce0 = Ok bag.
Proof. eexists. vm_compute. reflexivity. Qed.

Lemma bag1_fits : bag_fits bag1.
Proof. unfold bag_fits, bag_ok, bytes_ok. split_and!; vm_compute; reflexivity. Qed.
Lemma bag2_fits : bag_fits bag2.
Proof. unfold bag_fits, bag_ok, bytes_ok. split_and!; vm_compute; reflexivity. Qed.

Lemma push_pre0 bags :
  Forall bag_fits bags → Z.of_nat (length bags) <= 2 ^ 32 →
  push_pre auth0 (Some ts0) bags host0.
Proof.
  intros. split; [exact auth0_ok|]. split; [exact auth0_valid|].
  split; [done|]. split; [done|]. split; [exact sto0_wf|].
  split; [vm_compute; reflexivity|].
  intros r. unfold log_lens, sto_log. simpl. unfold mem_log, user_log. simpl.
  unfold maxSafe. lia.
Qed.
End Demo.

(** ** Storage *)

(** The in-memory storage implements the append-only log: on a well-formed
    storage [setBags] succeeds with one result per bag, in order, numbering
    the bags of each realm consecutively from the end of that realm's log
    (a realm tag of the wrong size is [InvalidParam] for that bag alone), and
    appends exactly those bags to exactly those logs of exactly that user. *)
Theorem memory_setBags_refines_log (s : Mem.MemStorage) (pk : bytes) (bags : list IBag)
    (Hwf : Mem.mem_wf s) (Hb : Forall storable bags) :
  ∃ s', Mem.mem_setBags pk bags s =
      (Ok (set_results (λ rlm, Z.of_nat (length (Mem.mem_log s pk rlm))) bags), s') ∧
    Mem.mem_wf s' ∧ Mem.ms_users s' = Mem.ms_users s ∧
    ∀ pk' rlm, Mem.mem_log s' pk' rlm =
      Mem.mem_log s pk' rlm ++ if decide (pk' = pk) then bag_entries rlm bags else [].
Proof.
  destruct (setBags_spec (StorageSpec := Mem.mem_spec) pk bags s Hwf Hb)
    as (s' & H1 & H2 & _ & H4).
  exists s'. split; [exact H1|]. split; [exact H2|]. split; [|exact H4].
  cbn in H1. unfold Mem.mem_setBags in H1. case_match; [by simplify_eq|].
  destruct (Mem.setBags_loop _ _ _ _). by simplify_eq.
Qed.

Lemma memory_setBags_refines_log_witness :
  Mem.mem_wf Demo.sto0 ∧ Forall storable [Demo.bag1; Demo.bag1] ∧
  ∃ s', Mem.mem_setBags Demo.pk0 [Demo.bag1; Demo.bag1] Demo.sto0 =
      (Ok (set_results (λ rlm, Z.of_nat (length (Mem.mem_log Demo.sto0 Demo.pk0 rlm)))
             [Demo.bag1; Demo.bag1]), s') ∧
    Mem.mem_wf s' ∧ Mem.ms_users s' = Mem.ms_users Demo.sto0 ∧
    ∀ pk' rlm, Mem.mem_log s' pk' rlm =
      Mem.mem_log Demo.sto0 pk' rlm ++
      if decide (pk' = Demo.pk0) then bag_entries rlm [Demo.bag1; Demo.bag1] else [].
Proof.
  assert (Hb : Forall storable [Demo.bag1; Demo.bag1]).
  { repeat constructor; vm_compute; reflexivity. }
  split; [exact Demo.sto0_wf|]. split; [exact Hb|].
  exact (memory_setBags_refines_log Demo.sto0 Demo.pk0 _ Demo.sto0_wf Hb).
Defined.

(** Reading the in-memory storage back: [listHeads] gives the heads of the
    realm's log above the cursor, in sequence order, and [getBodies] the
    bodies of the requested numbers that exist, in the order asked for; a
    realm tag of the wrong size is [InvalidParam]. *)
Theorem memory_reads_log (s : Mem.MemStorage) (pk rlm : bytes) (minSeq : Z) (seqs : list Z)
    (Hwf : Mem.mem_wf s) :
  Mem.mem_listHeads pk rlm minSeq s =
    (if rlm_valid rlm then Ok (log_heads (Mem.mem_log s pk rlm) minSeq)
     else Err InvalidParam, s) ∧
  Mem.mem_getBodies pk rlm seqs s =
    (if rlm_valid rlm then Ok (log_bodies (Mem.mem_log s pk rlm) seqs)
     else Err InvalidParam, s).
Proof.
  split; [exact (listHeads_spec (StorageSpec := Mem.mem_spec) pk rlm minSeq s Hwf)|].
  exact (getBodies_spec (StorageSpec := Mem.mem_spec) pk rlm seqs s Hwf).
Qed.

Lemma memory_reads_log_witness :
  Mem.mem_wf Demo.sto0 ∧
  Mem.mem_listHeads Demo.pk0 [] 0 Demo.sto0 = (Err InvalidParam, Demo.sto0).
Proof.
  split; [exact Demo.sto0_wf|].
  exact (proj1 (memory_reads_log Demo.sto0 Demo.pk0 [] 0 [] Demo.sto0_wf)).
Defined.

(** ** The calls *)

Section calls.
Context {C : CryptoPrims} {S N : Type} {I : IStorage S} {Sp : StorageSpec S}
  {PN : IPushNotifier N}.

(** [C1] PUSH, for a registered user with a valid timestamp: the handler
    succeeds; its response lists every bag of the request exactly once, bad
    signatures as [InvalidSignature] and the rest with their new sequence
    number; exactly the bags whose signature verifies are appended to the
    user's logs; and listeners get one batch for them (none if there are
    none). *)
Theorem push_stores_valid_bags (a : IAuthTimestamp) (vk : CryptoKey) (bags : list IBag)
    (now : Date) (h : Host (S := S) (N := N))
    (Hpre : push_pre a now bags h) (Hk : importVerifyKey (at_pubKey a) = Ok vk) :
  let len := log_lens (h_sto h) (at_pubKey a) in
  let items := push_items vk len bags in
  let notifs := push_notifs vk len bags in
  ∃ c', push_handleReq now (start (authTS_wire a ++ concat (bag_wire <$> bags)) h)
      = (Ok tt, c') ∧
    run_dec push_decodeResp (enc_result (rq_enc c')) = Ok items ∧
    pi_idx <$> items ≡ₚ Z.of_nat <$> seq 0 (length bags) ∧
    rq_ntf c' = (if 0 <? Z.of_nat (length notifs)
                 then n_push (at_pubKey a) (concat (notif_wire <$> notifs)) (h_ntf h)
                 else h_ntf h) ∧
    (∀ pk, sto_user (rq_sto c') pk = sto_user (h_sto h) pk) ∧
    (∀ pk rlm, sto_log (rq_sto c') pk rlm = sto_log (h_sto h) pk rlm ++
       if decide (pk = at_pubKey a) then bag_entries rlm (valid_bags vk 0 bags).*2 else []).
Proof.
  intros len items notifs.
  destruct (push_spec a vk bags now h Hpre Hk) as (c' & H1 & H2 & H3 & H4 & H5 & H6).
  exists c'. split; [exact H1|]. split.
  - rewrite H2. apply push_decodeResp_spec, push_items_ok; [apply Hpre..|].
    intros r. split; [unfold len, log_lens; lia|apply Hpre].
  - split; [apply push_items_idx|]. by split_and!.
Qed.

(** PEEK, for a registered user with a valid timestamp: the response reads
    back as the heads of that user's realm numbered above the cursor, in
    order; nothing changes on the host. *)
Theorem peek_lists_new_heads (a : IAuthTimestamp) (cur : IPeekCursor) (now : Date)
    (h : Host (S := S) (N := N))
    (Ha : authTS_ok a) (Hv : validateAuthTimestamp a now = Ok tt) (Hc : peekCursor_ok cur)
    (Hw : sto_wf (h_sto h)) (Hu : sto_user (h_sto h) (at_pubKey a) = true)
    (Hf : log_fits (sto_log (h_sto h) (at_pubKey a) (pc_rlm cur))) :
  ∃ c', peek_handleReq now (start (authTS_wire a ++ peekCursor_wire cur) h) = (Ok tt, c') ∧
    rq_sto c' = h_sto h ∧ rq_ntf c' = h_ntf h ∧
    run_dec peek_decodeResp (enc_result (rq_enc c')) =
      Ok (log_heads (sto_log (h_sto h) (at_pubKey a) (pc_rlm cur)) (pc_seq cur)).
Proof.
  destruct (peek_spec a cur now h Ha Hv Hc Hw Hu Hf) as (c' & H1 & H2 & H3 & H4).
  exists c'. split_and!; try done. rewrite H4. by apply peek_decodeResp_spec, log_heads_ok.
Qed.

(** PULL, for a registered user with a valid timestamp: the response reads
    back as the stored bodies of the requested numbers, in the order asked
    for, unknown numbers left out; nothing changes on the host. *)
Theorem pull_returns_bodies (a : IAuthTimestamp) (req : IPullReq) (now : Date)
    (h : Host (S := S) (N := N))
    (Ha : authTS_ok a) (Hv : validateAuthTimestamp a now = Ok tt) (Hr : pullReq_ok req)
    (Hw : sto_wf (h_sto h)) (Hu : sto_user (h_sto h) (at_pubKey a) = true)
    (Hf : log_fits (sto_log (h_sto h) (at_pubKey a) (pr_rlm req))) :
  ∃ c', pull_handleReq now (start (authTS_wire a ++ pullReq_wire req) h) = (Ok tt, c') ∧
    rq_sto c' = h_sto h ∧ rq_ntf c' = h_ntf h ∧
    run_dec pull_decodeResp (enc_result (rq_enc c')) =
      Ok ((λ '(q, b), mkPullItem q b) <$>
            log_bodies (sto_log (h_sto h) (at_pubKey a) (pr_rlm req)) (pr_seqs req)).
Proof.
  destruct (pull_spec a req now h Ha Hv Hr Hw Hu Hf) as (c' & H1 & H2 & H3 & H4).
  exists c'. split_and!; try done. rewrite H4. apply pull_decodeResp_spec.
  apply log_bodies_ok; [done|apply Hr].
Qed.

(** [C2] Isolation.  Whatever bytes a request consists of and whatever call it
    names: without a timestamp that decodes and validates, the storage, the
    notifier and the response are untouched; with one, the request can only
    append to logs of the key that signed it and only register that key. *)
Theorem requests_act_as_their_signer (name : APICallName) (data : bytes) (now : Date)
    (h : Host (S := S) (N := N)) (Hw : sto_wf (h_sto h)) (HD : blen data < 2 ^ 32) :
  let c' := (handleReq name now (start data h)).2 in
  sto_wf (rq_sto c') ∧
  match authed data now with
  | None => rq_sto c' = h_sto h ∧ rq_ntf c' = h_ntf h ∧ enc_result (rq_enc c') = []
  | Some (a, _) => only_user (at_pubKey a) (h_sto h) (rq_sto c')
  end.
Proof. exact (handleReq_effect name data now h Hw HD). Qed.

(** The HTTP transport answers everything: for any method, path and body,
    whatever the handlers do (including raising), the response is a binary one
    whose head decodes and carries the time of receipt. *)
Theorem http_always_answers (req : Request) (timeRcvd now t1 timeSent : Date)
    (h : Host (S := S) (N := N))
    (H1 : date_ok timeRcvd) (H2 : date_ok t1) (H3 : date_ok timeSent) :
  ∃ hd, resp_head (http_handler req timeRcvd now t1 timeSent h).1 = Some hd ∧
        rh_timeRcvd hd = timeRcvd.
Proof. exact (http_handler_head req timeRcvd now t1 timeSent h H1 H2 H3). Qed.

(** End to end: messages sealed by a realm's manager and pushed to a host
    are listed by a later peek from the old end of the log, once each, in push
    order, and each listed head decrypts, under the manager's key, to the
    encoded head of its message. *)
Theorem pushed_messages_peek_back {L : CryptoLaws C} (mgr : BagManager) (vk : CryptoKey)
    (msgs : list IMessage) (bags : list IBag) (a : IAuthTimestamp) (now : Date)
    (h : Host (S := S) (N := N))
    (Hm : bm_valid mgr) (Hk : importVerifyKey (bm_publicKey mgr) = Ok vk)
    (Hpk : at_pubKey a = bm_publicKey mgr)
    (Hs : Forall2 (λ m b, sealed m mgr b) msgs bags)
    (Hpre : push_pre a now bags h) :
  let n0 := log_lens (h_sto h) (at_pubKey a) (bm_rlm mgr) in
  ∃ c' items, push_handleReq now (start (authTS_wire a ++ concat (bag_wire <$> bags)) h)
      = (Ok tt, c') ∧
    listHeads (at_pubKey a) (bm_rlm mgr) n0 (rq_sto c') = (Ok items, rq_sto c') ∧
    pk_seq <$> items = (λ i, n0 + 1 + Z.of_nat i) <$> seq 0 (length msgs) ∧
    Forall2 (λ m it, res_map di_headEnc (decryptPeekItem it vk mgr) =
                     Ok (head_wire (sealed_head m))) msgs items.
Proof.
  intros n0. rewrite <-Hpk in Hk.
  destruct (push_spec a vk bags now h Hpre Hk) as (c' & H1 & _ & _ & H4 & _ & H6).
  specialize (H6 (at_pubKey a) (bm_rlm mgr)). rewrite decide_True in H6 by done.
  rewrite Hpk in Hk.
  rewrite (sealed_valid_bags mgr vk Hm Hk msgs bags 0 Hs) in H6.
  rewrite (sealed_entries mgr Hm msgs bags Hs) in H6.
  exists c', (log_items (n0 + 1) (entry_of <$> bags)). split; [exact H1|]. split.
  { rewrite listHeads_spec by exact H4. unfold rlm_valid.
    rewrite (proj2 (Z.eqb_eq _ _)) by apply Hm. rewrite H6. unfold n0, log_lens.
    by rewrite log_heads_app. }
  split.
  - rewrite (Forall2_length _ _ _ Hs). clear. generalize (n0 + 1) as n. intros n.
    revert n. induction bags as [|b bags IH]; intros n; [done|].
    cbn [fmap list_fmap log_items length seq]. rewrite Z.add_0_r. f_equal.
    unfold fmap in IH. rewrite IH, <-fmap_S_seq.
    change (list_fmap nat nat ?f ?l) with (f <$> l). unfold fmap. rewrite <-list_fmap_compose.
    apply list_fmap_ext. intros ? i _. simpl. lia.
  - apply (sealed_items mgr vk Hm Hk msgs bags); [exact Hs|apply Hpre].
Qed.
End calls.

(** ** The calls on the concrete host *)

Lemma push_stores_valid_bags_witness :
  push_pre Demo.auth0 (Some Demo.ts0) [Demo.bag2; Demo.bag1] Demo.host0 ∧
  ∃ c', push_handleReq (C := Toy.toy) (Some Demo.ts0)
          (start (authTS_wire Demo.auth0 ++ concat (bag_wire <$> [Demo.bag2; Demo.bag1])) Demo.host0)
      = (Ok tt, c') ∧
    run_dec push_decodeResp (enc_result (rq_enc c')) =
      Ok [PushFailed 0 InvalidSignature; PushStored 1 1].
Proof.
  assert (Hp : push_pre Demo.auth0 (Some Demo.ts0) [Demo.bag2; Demo.bag1] Demo.host0).
  { apply Demo.push_pre0; [|vm_compute; discriminate].
    constructor; [exact Demo.bag2_fits|]. constructor; [exact Demo.bag1_fits|constructor]. }
  split; [exact Hp|].
  destruct (push_stores_valid_bags (C := Toy.toy) Demo.auth0 Demo.pk0 [Demo.bag2; Demo.bag1]
    (Some Demo.ts0) Demo.host0 Hp eq_refl) as (c' & H1 & H2 & _).
  exists c'. split; [exact H1|]. rewrite H2. vm_compute. reflexivity.
Defined.

Lemma sto_log_empty pk rlm : sto_log Demo.sto0 pk rlm = [].
Proof. reflexivity. Qed.

Lemma log_fits_nil : log_fits [].
Proof. split; [unfold maxSafe; simpl; lia|constructor]. Qed.

Definition cursor0 : IPeekCursor := mkPeekCursor (be_bytes 32 7) 0.
Definition pullReq0 : IPullReq := mkPullReq (be_bytes 32 7) [1; 2].

Lemma peek_lists_new_heads_witness :
  validateAuthTimestamp (C := Toy.toy) Demo.auth0 (Some Demo.ts0) = Ok tt ∧
  ∃ c', peek_handleReq (C := Toy.toy) (Some Demo.ts0)
          (start (authTS_wire Demo.auth0 ++ peekCursor_wire cursor0) Demo.host0) = (Ok tt, c') ∧
    run_dec peek_decodeResp (enc_result (rq_enc c')) = Ok [].
Proof.
  assert (Hc : peekCursor_ok cursor0) by (split; [vm_compute; reflexivity|by apply varnum_ok_len]).
  split; [exact Demo.auth0_valid|].
  destruct (peek_lists_new_heads Demo.auth0 cursor0 (Some Demo.ts0) Demo.host0
    Demo.auth0_ok Demo.auth0_valid Hc Demo.sto0_wf eq_refl log_fits_nil)
    as (c' & H1 & _ & _ & H4).
  exists c'. split; [exact H1|exact H4].
Defined.

Lemma pull_returns_bodies_witness :
  validateAuthTimestamp (C := Toy.toy) Demo.auth0 (Some Demo.ts0) = Ok tt ∧
  ∃ c', pull_handleReq (C := Toy.toy) (Some Demo.ts0)
          (start (authTS_wire Demo.auth0 ++ pullReq_wire pullReq0) Demo.host0) = (Ok tt, c') ∧
    run_dec pull_decodeResp (enc_result (rq_enc c')) = Ok [].
Proof.
  assert (Hr : pullReq_ok pullReq0).
  { split; [vm_compute; reflexivity|].
    constructor; [by apply varnum_ok_len|]. constructor; [by apply varnum_ok_len|constructor]. }
  split; [exact Demo.auth0_valid|].
  destruct (pull_returns_bodies Demo.auth0 pullReq0 (Some Demo.ts0) Demo.host0
    Demo.auth0_ok Demo.auth0_valid Hr Demo.sto0_wf eq_refl log_fits_nil)
    as (c' & H1 & _ & _ & H4).
  exists c'. split; [exact H1|exact H4].
Defined.

Lemma requests_act_as_their_signer_witness :
  sto_wf (h_sto Demo.host0) ∧ blen [x01; x02] < 2 ^ 32 ∧
  rq_sto (handleReq (C := Toy.toy) CallPush (Some 0) (start [x01; x02] Demo.host0)).2 = Demo.sto0.
Proof.
  split; [exact Demo.sto0_wf|]. split; [vm_compute; reflexivity|].
  exact (proj1 (proj2 (requests_act_as_their_signer (C := Toy.toy) CallPush [x01; x02] (Some 0) Demo.host0
    Demo.sto0_wf ltac:(vm_compute; reflexivity)))).
Defined.

Lemma date_ok_ts0 : date_ok (Some Demo.ts0).
Proof. exists Demo.ts0. split; [reflexivity|]. split; vm_compute; discriminate. Qed.

Lemma http_always_answers_witness :
  date_ok (Some Demo.ts0) ∧
  ∃ hd, resp_head (http_handler (C := Toy.toy) (mkRequest "POST" "/push" (Some []))
          (Some Demo.ts0) None (Some Demo.ts0) (Some Demo.ts0) Demo.host0).1 = Some hd ∧
        rh_timeRcvd hd = Some Demo.ts0.
Proof.
  split; [exact date_ok_ts0|].
  exact (http_always_answers (mkRequest "POST" "/push" (Some [])) (Some Demo.ts0) None
    (Some Demo.ts0) (Some Demo.ts0) Demo.host0 date_ok_ts0 date_ok_ts0 date_ok_ts0).
Defined.

Lemma pushed_messages_peek_back_witness :
  push_pre Demo.auth0 (Some Demo.ts0) [Demo.bag1] Demo.host0 ∧
  ∃ c' items, push_handleReq (C := Toy.toy) (Some Demo.ts0)
        (start (authTS_wire Demo.auth0 ++ concat (bag_wire <$> [Demo.bag1])) Demo.host0)
      = (Ok tt, c') ∧
    listHeads Demo.pk0 (be_bytes 32 7) 0 (rq_sto c') = (Ok items, rq_sto c') ∧
    pk_seq <$> items = [1] ∧
    Forall2 (λ m it, res_map di_headEnc (decryptPeekItem (C := Toy.toy) it Demo.pk0 Toy.toy_mgr) =
                     Ok (head_wire (sealed_head m))) [Demo.msg0] items.
Proof.
  assert (Hp : push_pre Demo.auth0 (Some Demo.ts0) [Demo.bag1] Demo.host0).
  { apply Demo.push_pre0; [|vm_compute; discriminate].
    constructor; [exact Demo.bag1_fits|constructor]. }
  assert (Hs : Forall2 (λ m b, sealed m Toy.toy_mgr b) [Demo.msg0] [Demo.bag1]).
  { constructor; [|constructor].
    exact (sealBag_sealed Demo.msg0 Toy.toy_mgr Demo.nonce0 Demo.nonce0 Demo.bag1
             (proj1 (proj1 (msg_ok_wf _) Demo.msg0_ok)) eq_refl eq_refl Demo.bag1_seal). }
  split; [exact Hp|].
  exact (pushed_messages_peek_back (C := Toy.toy) Toy.toy_mgr Demo.pk0 [Demo.msg0] [Demo.bag1]
    Demo.auth0 (Some Demo.ts0) Demo.host0 Toy.toy_mgr_valid eq_refl eq_refl Hs Hp).
Defined.

(** ** Messages and bags *)

Section bags.
Context {C : CryptoPrims} {L : CryptoLaws C}.

(** [C14] Opening what was sealed: take a message whose head encodes (a type of
    whole characters, an entity id that decodes, an offset and a counter in the
    range of the coder, the length of its body).  A bag sealed from it by a
    realm's manager opens, under the manager's public key, to the message that
    went in (its absent type read as empty), with the hash of its body in the
    head and the hash of its encoded head beside it; but one sealed from a
    message with a body of no bytes is refused as [HashMismatch], since sealing
    leaves the hash of such a body out and encrypts it all the same. *)
Theorem open_sealed_bag (m : IMessage) (mgr : BagManager) (nh nb : bytes) (bag : IBag)
    (vk : CryptoKey)
    (Hv : bm_valid mgr) (Hk : importVerifyKey (bm_publicKey mgr) = Ok vk)
    (Hm : msg_wf m) (Hh : length nh = 24%nat) (Hb : length nb = 24%nat)
    (Hs : sealBag m mgr nh nb = Ok bag) :
  openBag bag vk mgr = if bool_decide (msg_bod m = Some []) then Err HashMismatch else Ok (opened m).
Proof. eapply openBag_sealed; [done..|]. exact (sealBag_sealed m mgr nh nb bag Hm Hh Hb Hs). Qed.

(** What opens is authentic: opening any bag whatever never raises, and
    succeeds only with a signature valid for the key over the bag's realm tag
    and encrypted head, in the manager's own realm, and with a body that
    hashes to what the signed head says (or none when it says none). *)
Theorem opened_bag_is_authentic (bag : IBag) (vk : CryptoKey) (mgr : BagManager) :
  openBag bag vk mgr ≠ Throw ∧
  ∀ m, openBag bag vk mgr = Ok m →
    bagSigValid bag vk = true ∧ bag_rlm bag = bm_rlm mgr ∧
    match msg_bod (mwh_msg m) with
    | Some b => mh_hsh (msg_head (mwh_msg m)) = Some (blake3hash b)
    | None => mh_hsh (msg_head (mwh_msg m)) = None
    end.
Proof.
  split; [apply openBag_total|]. intros m H.
  destruct (openBag_auth bag vk mgr m H) as [H1 H2]. split; [done|]. split; [done|].
  unfold openBag in H. rewrite H1, H2, bytesEqual_refl in H. cbn [negb] in H.
  apply res_bind_Ok_inv in H as (he & _ & H).
  apply res_bind_Ok_inv in H as (o & Ho & [= <-]).
  cbn [mwh_msg msg_bod msg_head]. exact (openBagBody_hash _ _ _ _ _ Ho).
Qed.

(** Authentication: what a client signs for its clock's time is accepted
    by a host whose clock is within 30 s, and refused as [ClockOutOfSync]
    beyond; in general, for a timestamp in [Date] range, the host accepts
    exactly when the clocks agree, the key imports and the signature of the
    encoded date verifies. *)
Theorem auth_timestamp_accepted (m : BagManager) (t n : Z) (a : IAuthTimestamp)
    (Hm : bm_valid m) (Ht : date_ok (Some t)) (Hn : date_ok (Some n))
    (Ha : makeAuthTimestamp m (Some t) = Ok a) :
  authTS_ok a ∧
  validateAuthTimestamp a (Some n) =
    (if Z.abs (n - t) <=? 30000 then Ok tt else Err ClockOutOfSync) ∧
  ∀ pk sig, validateAuthTimestamp (mkAuthTS pk sig (Some t)) (Some n) = Ok tt ↔
    Z.abs (n - t) <= 30000 ∧
    ∃ vk, importVerifyKey pk = Ok vk ∧ checkSigEd25519 sig (date_wire (Some t)) vk = true.
Proof.
  split; [by apply (makeAuth_ok m t a)|]. split; [by apply (makeAuth_validates m t n a)|].
  intros pk sig. rewrite validate_eq by done. unfold auth_fresh, clockToleranceMs.
  destruct (Z.leb_spec (Z.abs (n - t)) 30000) as [Hle|Hgt]; cbn [negb].
  - destruct (importVerifyKey pk) as [vk| |].
    + destruct (checkSigEd25519 sig (date_wire (Some t)) vk) eqn:E.
      * split; [intros _; split; [done|]; by exists vk|done].
      * split; [done|]. intros (_ & vk' & [= <-] & H). congruence.
    + split; [done|]. by intros (_ & ? & ? & _).
    + split; [done|]. by intros (_ & ? & ? & _).
  - split; [done|]. intros [? _]. lia.
Qed.
End bags.

Lemma open_sealed_bag_witness :
  msg_wf Demo.msg0 ∧ sealBag Demo.msg0 Toy.toy_mgr Demo.nonce0 Demo.nonce0 = Ok Demo.bag1 ∧
  openBag (C := Toy.toy) Demo.bag1 Demo.pk0 Toy.toy_mgr = Ok (opened Demo.msg0) ∧
  ∃ bag, sealBag Demo.empty_body Toy.toy_mgr Demo.nonce0 Demo.nonce0 = Ok bag ∧
    openBag (C := Toy.toy) bag Demo.pk0 Toy.toy_mgr = Err HashMismatch.
Proof.
  pose proof (proj1 (proj1 (msg_ok_wf _) Demo.msg0_ok)) as Hwf. split; [exact Hwf|]. split; [exact Demo.bag1_seal|]. split.
  - exact (open_sealed_bag (C := Toy.toy) Demo.msg0 Toy.toy_mgr Demo.nonce0 Demo.nonce0 Demo.bag1 Demo.pk0
      Toy.toy_mgr_valid eq_refl Hwf eq_refl eq_refl Demo.bag1_seal).
  - destruct Demo.empty_body_seal as [bag Hbag]. exists bag. split; [exact Hbag|].
    exact (open_sealed_bag (C := Toy.toy) Demo.empty_body Toy.toy_mgr Demo.nonce0 Demo.nonce0 bag Demo.pk0
      Toy.toy_mgr_valid eq_refl Demo.empty_body_wf eq_refl eq_refl Hbag).
Defined.

Lemma opened_bag_is_authentic_witness :
  openBag (C := Toy.toy) Demo.bag2 Demo.pk0 Toy.toy_mgr ≠ Throw ∧
  openBag (C := Toy.toy) Demo.bag2 Demo.pk0 Toy.toy_mgr = Err InvalidSignature ∧
  bagSigValid (C := Toy.toy) Demo.bag1 Demo.pk0 = true.
Proof.
  split; [exact (proj1 (opened_bag_is_authentic (C := Toy.toy) Demo.bag2 Demo.pk0 Toy.toy_mgr))|].
  split; [vm_compute; reflexivity|].
  exact (proj1 (proj2 (opened_bag_is_authentic (C := Toy.toy) Demo.bag1 Demo.pk0 Toy.toy_mgr)
    (opened (C := Toy.toy) Demo.msg0) eq_refl)).
Defined.

Lemma auth_timestamp_accepted_witness :
  bm_valid Toy.toy_mgr ∧ makeAuthTimestamp Toy.toy_mgr (Some Demo.ts0) = Ok Demo.auth0 ∧
  validateAuthTimestamp Demo.auth0 (Some (Demo.ts0 + 30001)) = Err ClockOutOfSync.
Proof.
  assert (Ha : makeAuthTimestamp Toy.toy_mgr (Some Demo.ts0) = Ok Demo.auth0)
    by (vm_compute; reflexivity).
  assert (Hn : date_ok (Some (Demo.ts0 + 30001))).
  { exists (Demo.ts0 + 30001). split; [reflexivity|]. split; vm_compute; discriminate. }
  split; [exact Toy.toy_mgr_valid|]. split; [exact Ha|].
  exact (proj1 (proj2 (auth_timestamp_accepted Toy.toy_mgr Demo.ts0 (Demo.ts0 + 30001)
    Demo.auth0 Toy.toy_mgr_valid date_ok_ts0 Hn Ha))).
Defined.
