(* ===== verification/Checksum.v ===== *)
(** * Set checksums ([shared/checksum.ts])

    The checksum of a set of records hashes their sorted concatenation: it
    does not depend on the order of the records, and for entity revisions the
    hashed bytes determine the set. *)
From S2P Require Export Crypto.

(** [a[i] - b[i]] at the first difference within the shorter length, else
    [a.length - b.length]. *)
Fixpoint cmpBytes_from (a b : bytes) : option Z :=
  match a, b with
  | x :: a, y :: b =>
      if bool_decide (x = y) then cmpBytes_from a b else Some (byteZ x - byteZ y)
  | _, _ => None
  end.

Definition cmpBytes (a b : bytes) : Z :=
  default (blen a - blen b) (cmpBytes_from a b).

Record IEntRev := mkRev { rev_eid : bytes; rev_ctr : Z; rev_updatedAt : Date }.

Definition encodeEntRev (rev : IEntRev) : Res bytes :=
  run_enc (
    _ ← writeVarBytes (rev_eid rev);
    _ ← writeDate (rev_updatedAt rev);
    writeVarInt (rev_ctr rev)).

(** [for (const x of xs) { const [y, st] = f(x); if (st) return err(st); out.push(y) }] *)
Fixpoint res_mapM {A B} (f : A → Res B) (xs : list A) : Res (list B) :=
  match xs with
  | [] => Ok []
  | x :: xs => y ← f x; ys ← res_mapM f xs; Ok (y :: ys)
  end.

(** The bytes a set checksum hashes. *)
Definition checksum_preimage (items : list bytes) : bytes :=
  concat (js_sort cmpBytes items).

Section checksum.
Context {C : CryptoPrims}.

Definition checksumSet (items : list bytes) : bytes := blake3hash (checksum_preimage items).

Definition checksumEntRevs (revs : list IEntRev) : Res bytes :=
  recs ← res_mapM encodeEntRev revs;
  Ok (checksumSet recs).
End checksum.

Example cmpBytes_examples :
  (cmpBytes [x01; x02] [x01; x03] <? 0) && (0 <? cmpBytes [x01; x00] [x01]) = true.
Proof. vm_compute. reflexivity. Qed.

(** ** The comparator is a total order *)

Lemma cmpBytes_cons x y a b :
  cmpBytes (x :: a) (y :: b) = if bool_decide (x = y) then cmpBytes a b else byteZ x - byteZ y.
Proof.
  unfold cmpBytes. cbn [cmpBytes_from]. case_bool_decide; [|done].
  rewrite !blen_cons. destruct (cmpBytes_from a b); [done|]. simpl. lia.
Qed.

Lemma cmpBytes_nil_l b : cmpBytes [] b = - blen b.
Proof. unfold cmpBytes. simpl. rewrite blen_nil. lia. Qed.
Lemma cmpBytes_nil_r a : cmpBytes a [] = blen a.
Proof. unfold cmpBytes. destruct a; simpl; rewrite blen_nil; lia. Qed.

Lemma byteZ_ne x y : x ≠ y → byteZ x ≠ byteZ y.
Proof. intros H E. by apply H, (inj byteZ). Qed.

Lemma cmpBytes_opp a b : cmpBytes b a = - cmpBytes a b.
Proof.
  revert b. induction a as [|x a IH]; intros [|y b].
  - done.
  - rewrite cmpBytes_nil_l, cmpBytes_nil_r. lia.
  - rewrite cmpBytes_nil_l, cmpBytes_nil_r. lia.
  - rewrite !cmpBytes_cons. destruct (decide (x = y)) as [->|Hne].
    + rewrite !bool_decide_true by done. apply IH.
    + rewrite !bool_decide_false by congruence. lia.
Qed.

Lemma cmpBytes_zero a b : cmpBytes a b = 0 → a = b.
Proof.
  revert b. induction a as [|x a IH]; intros [|y b].
  - done.
  - rewrite cmpBytes_nil_l, blen_cons. pose proof (blen_nonneg b). lia.
  - rewrite cmpBytes_nil_r, blen_cons. pose proof (blen_nonneg a). lia.
  - rewrite cmpBytes_cons. case_bool_decide as H; [subst; intros ?%IH; by subst|].
    apply byteZ_ne in H. lia.
Qed.

#[export] Instance cmpBytes_order : SortCmp cmpBytes.
Proof.
  split; [intros x y; rewrite (cmpBytes_opp x y); lia|].
  intros a. induction a as [|x a IH]; intros b c.
  - intros _ _. rewrite cmpBytes_nil_l. pose proof (blen_nonneg c). lia.
  - destruct b as [|y b].
    { rewrite cmpBytes_nil_r, blen_cons. pose proof (blen_nonneg a). lia. }
    destruct c as [|z c].
    { intros _. rewrite cmpBytes_nil_r, blen_cons. pose proof (blen_nonneg b). lia. }
    rewrite !cmpBytes_cons.
    destruct (decide (x = y)) as [->|H1]; [rewrite (bool_decide_true (y = y)) by done|
      rewrite (bool_decide_false (x = y)) by done; apply byteZ_ne in H1 as H1'].
    + destruct (decide (y = z)) as [->|H2].
      * rewrite !bool_decide_true by done. apply IH.
      * rewrite !bool_decide_false by done. lia.
    + destruct (decide (y = z)) as [->|H2].
      * rewrite (bool_decide_true (z = z)), (bool_decide_false (x = z)) by done. lia.
      * rewrite (bool_decide_false (y = z)) by done. apply byteZ_ne in H2 as H2'.
        case_bool_decide; [subst; lia|lia].
Qed.

Lemma cmpBytes_antisym a b : cmpBytes a b <= 0 → cmpBytes b a <= 0 → a = b.
Proof. rewrite (cmpBytes_opp a b). intros. apply cmpBytes_zero. lia. Qed.

(** ** Order independence *)

Lemma preimage_perm xs ys : xs ≡ₚ ys → checksum_preimage xs = checksum_preimage ys.
Proof.
  intros H. unfold checksum_preimage. f_equal. apply js_sort_unique; [apply _| |done].
  intros x y. apply cmpBytes_antisym.
Qed.

Lemma res_mapM_cons {A B} (f : A → Res B) x xs zs :
  res_mapM f (x :: xs) = Ok zs ↔
  ∃ y ys, f x = Ok y ∧ res_mapM f xs = Ok ys ∧ zs = y :: ys.
Proof.
  split.
  - intros (y & Hy & (ys & Hys & [= <-])%res_bind_Ok_inv)%res_bind_Ok_inv. by exists y, ys.
  - intros (y & ys & Hy & Hys & ->). simpl. rewrite Hy. simpl.
    unfold mbind, Res_bind, res_bind. by rewrite Hys.
Qed.

Lemma res_mapM_perm {A B} (f : A → Res B) xs ys zs :
  xs ≡ₚ ys → res_mapM f xs = Ok zs → ∃ zs', res_mapM f ys = Ok zs' ∧ zs ≡ₚ zs'.
Proof.
  intros H. revert zs. induction H as [|x xs ys H IH|x y xs|xs ys ws H1 IH1 H2 IH2]; intros zs.
  - intros [= <-]. by exists [].
  - intros (b & bs & Hb & Hbs & ->)%res_mapM_cons. destruct (IH _ Hbs) as (bs' & E & Hp).
    exists (b :: bs'). split; [apply res_mapM_cons; by exists b, bs'|by constructor].
  - intros (b & bs & Hb & Hbs & ->)%res_mapM_cons.
    apply res_mapM_cons in Hbs as (c & cs & Hc & Hcs & ->).
    exists (c :: b :: cs). split; [|constructor].
    apply res_mapM_cons. exists c, (b :: cs). split_and!; [done| |done].
    apply res_mapM_cons. by exists b, cs.
  - intros Hz. destruct (IH1 _ Hz) as (z1 & E1 & P1). destruct (IH2 _ E1) as (z2 & E2 & P2).
    exists z2. split; [done|by rewrite P1].
Qed.

(** ** The hashed bytes determine the revisions *)

Definition rev_ok (r : IEntRev) : Prop :=
  bytes_ok (rev_eid r) ∧ date_ok (rev_updatedAt r) ∧ varnum_ok (rev_ctr r).
Definition rev_wire (r : IEntRev) : bytes :=
  varbytes_wire (rev_eid r) ++ date_wire (rev_updatedAt r) ++ varint_wire (rev_ctr r).

(** The reader of one record, used to show records are self-delimiting. *)
Definition revCodec : ICodecStruct IEntRev := {|
  cEncode rev :=
    _ ← writeVarBytes (rev_eid rev);
    _ ← writeDate (rev_updatedAt rev);
    writeVarInt (rev_ctr rev);
  cDecode :=
    eid ← readVarBytes;
    updatedAt ← readDate;
    ctr ← readVarInt;
    mret (mkRev eid ctr updatedAt);
|}.

#[export] Instance rev_lawful : Lawful revCodec rev_ok id rev_wire.
Proof.
  split; intros [e c d] (H1 & H2 & H3); cbn in *;
    [enc_steps|dec_steps|unfold rev_wire; eauto with codec].
Qed.

Lemma encodeEntRev_wire r : rev_ok r → encodeEntRev r = Ok (rev_wire r).
Proof. intros H. apply encodes_run. exact (lawful_enc (c := revCodec) r H). Qed.

Lemma encode_revs rs : Forall rev_ok rs → res_mapM encodeEntRev rs = Ok (rev_wire <$> rs).
Proof.
  induction 1 as [|r rs Hr _ IH]; [done|]. apply res_mapM_cons.
  exists (rev_wire r), (rev_wire <$> rs). by rewrite encodeEntRev_wire.
Qed.

Lemma sorted_wires rs :
  ∃ rs', rs ≡ₚ rs' ∧ js_sort cmpBytes (rev_wire <$> rs) = rev_wire <$> rs'.
Proof.
  destruct (Permutation_map_inv rev_wire rs (js_sort_perm cmpBytes (rev_wire <$> rs)))
    as (rs' & E & Hp).
  exists rs'. split; [done|]. exact E.
Qed.

Lemma preimage_inj rs ss :
  Forall rev_ok rs → Forall rev_ok ss →
  checksum_preimage (rev_wire <$> rs) = checksum_preimage (rev_wire <$> ss) → rs ≡ₚ ss.
Proof.
  intros Hr Hs H. unfold checksum_preimage in H.
  destruct (sorted_wires rs) as (rs' & Pr & Er), (sorted_wires ss) as (ss' & Ps & Es).
  rewrite Er, Es in H. rewrite Pr in Hr. rewrite Ps in Hs.
  pose proof (readStructs_decodes_end revCodec rev_ok id rev_wire rs' Hr []) as D1.
  pose proof (readStructs_decodes_end revCodec rev_ok id rev_wire ss' Hs []) as D2.
  rewrite H, D2 in D1. rewrite !list_fmap_id in D1. injection D1 as <-.
  by rewrite Pr, Ps.
Qed.

(** ** Records of one length: the hashed bytes determine the set *)

Lemma concat_blocks_inj (k : Z) (xs ys : list bytes) :
  0 < k → Forall (λ x, blen x = k) xs → Forall (λ y, blen y = k) ys → concat xs = concat ys → xs = ys.
Proof.
  intros Hk Hx. revert ys. induction Hx as [|x xs Hx _ IH]; intros ys [|y ys' Hy Hys] H; cbn in H; [done|..].
  - symmetry in H. apply app_eq_nil in H as [-> _]. rewrite blen_nil in *. lia.
  - apply app_eq_nil in H as [-> _]. rewrite blen_nil in *. lia.
  - apply app_inj_1 in H as [-> H]; [by f_equal; apply IH|]. unfold blen in *. lia.
Qed.

Lemma preimage_blocks_inj (k : Z) (xs ys : list bytes) :
  0 < k → Forall (λ x, blen x = k) xs → Forall (λ y, blen y = k) ys →
  checksum_preimage xs = checksum_preimage ys → xs ≡ₚ ys.
Proof.
  intros Hk Hx Hy H. rewrite <-(js_sort_perm cmpBytes xs), <-(js_sort_perm cmpBytes ys).
  unfold checksum_preimage in H. apply (concat_blocks_inj k) in H; [by rewrite H|done|by rewrite js_sort_perm..].
Qed.
