(* ===== verification/EntDB.v ===== *)
(** * Entity rows and last-writer-wins ([web/src/entdb/entdb.ts], [web/src/state.ts])

    Ops, rows and tombstones, [applyOp], tag and date specs, and [msgToOp].
    The theory here is about one row: what a sequence of ops leaves in it. *)
From S2P Require Export Bag Checksum.

(** ** Ops ([shared/types.ts]) *)

Record OpHead := mkOpHead { op_eid : bytes; op_off : num; op_ctr : Z }.

Record MutateBody := mkMutate {
  mu_type : jsstr;
  mu_pid : option bytes;
  mu_tags : option (list jsstr);
  mu_body : option bytes;
}.

(** An op with a [type] is a mutation, one without is a deletion. *)
Record IOp := mkOp { op_head : OpHead; op_mut : option MutateBody }.

#[export] Instance OpHead_eq_dec : EqDecision OpHead.
Proof. solve_decision. Defined.
#[export] Instance MutateBody_eq_dec : EqDecision MutateBody.
Proof. solve_decision. Defined.
#[export] Instance IOp_eq_dec : EqDecision IOp.
Proof. solve_decision. Defined.

Definition isMutateOp (op : IOp) : bool := bool_decide (is_Some (op_mut op)).
Definition isDeleteOp (op : IOp) : bool := negb (isMutateOp op).

(** ** Rows *)

Record IEntity := mkEntity {
  e_eid : bytes;
  e_pid : option bytes;
  e_tags : option (list jsstr);
  e_type : jsstr;
  e_createdAt : Date;
  e_updatedAt : Date;
  e_ctr : Z;
  e_body : option bytes;
  e_rlm : option jsstr;
}.

Record ITombstone := mkTomb { t_eid : bytes; t_updatedAt : Date; t_ctr : Z }.

Inductive IEntRow := Live (e : IEntity) | Tomb (t : ITombstone).

#[export] Instance IEntity_eq_dec : EqDecision IEntity.
Proof. solve_decision. Defined.
#[export] Instance ITombstone_eq_dec : EqDecision ITombstone.
Proof. solve_decision. Defined.
#[export] Instance IEntRow_eq_dec : EqDecision IEntRow.
Proof. solve_decision. Defined.

Definition isLiveEnt (row : IEntRow) : bool :=
  match row with Live _ => true | Tomb _ => false end.
Definition isTombstone (row : IEntRow) : bool := negb (isLiveEnt row).

Definition row_eid (row : IEntRow) : bytes :=
  match row with Live e => e_eid e | Tomb t => t_eid t end.
Definition row_updatedAt (row : IEntRow) : Date :=
  match row with Live e => e_updatedAt e | Tomb t => t_updatedAt t end.
Definition row_ctr (row : IEntRow) : Z :=
  match row with Live e => e_ctr e | Tomb t => t_ctr t end.

Definition revFromEntity (row : IEntRow) : IEntRev :=
  mkRev (row_eid row) (row_ctr row) (row_updatedAt row).

Definition revFromHead (head : IMessageHead) : Res IEntRev :=
  parsed ← run_dec (readStruct eidCodec) (mh_eid head);
  mret (mkRev (mh_eid head) (mh_ctr head)
    (mkDate (fadd (getTime (eid_ts parsed)) (mh_off head)))).

(** ** Specs *)

Record IDateRange := mkDateRange {
  dr_start : Date; dr_end : Date; dr_excludeStart : bool; dr_excludeEnd : bool;
}.
Inductive DateSpec := DateExact (d : Date) | DateRange (r : IDateRange).

Record ITagRange := mkTagRange {
  tr_start : jsstr; tr_end : jsstr; tr_excludeStart : bool; tr_excludeEnd : bool;
}.
Inductive TagSpec := TagExact (t : jsstr) | TagRange (r : ITagRange) | TagPrefix (p : jsstr).

Inductive EntitiesQuery :=
| QType (type : jsstr)
| QPid (type : jsstr) (pid : bytes)
| QTag (type : jsstr) (tag : TagSpec)
| QDate (type : jsstr) (updatedAt : DateSpec).

(** Comparing [Date]s compares their time values. *)
Definition dateInRange (t : Date) (r : IDateRange) : bool :=
  let ge := if dr_excludeStart r then flt (getTime (dr_start r)) (getTime t)
            else fle (getTime (dr_start r)) (getTime t) in
  let le := if dr_excludeEnd r then flt (getTime t) (getTime (dr_end r))
            else fle (getTime t) (getTime (dr_end r)) in
  ge && le.

Definition dateSpecMayMatch (spec : DateSpec) : Res bool :=
  match spec with
  | DateExact _ => Ok true
  | DateRange r =>
      if flt (getTime (dr_end r)) (getTime (dr_start r)) then Err InvalidParam else Ok true
  end.

Definition feq (a b : num) : bool :=
  match a, b with Some x, Some y => x =? y | _, _ => false end.

Definition dateMatches (t : Date) (spec : DateSpec) : bool :=
  match spec with
  | DateExact d => feq (getTime t) (getTime d)
  | DateRange r => dateInRange t r
  end.

(** [a < b] on strings: lexicographic on code units. *)
Fixpoint str_lt (a b : jsstr) : bool :=
  match a, b with
  | [], _ :: _ => true
  | x :: a, y :: b => if x =? y then str_lt a b else x <? y
  | _, [] => false
  end.

Definition tagInRange (tag : jsstr) (r : ITagRange) : bool :=
  let ge := if tr_excludeStart r then str_lt (tr_start r) tag
            else negb (str_lt tag (tr_start r)) in
  let le := if tr_excludeEnd r then str_lt tag (tr_end r)
            else negb (str_lt (tr_end r) tag) in
  ge && le.

Definition tagSpecMayMatch (spec : TagSpec) : Res bool :=
  match spec with
  | TagExact t => Ok (0 <? Z.of_nat (length t))
  | TagRange r => if str_lt (tr_end r) (tr_start r) then Err InvalidParam else Ok true
  | TagPrefix p => Ok (0 <? Z.of_nat (length p))
  end.

(** [tag.startsWith(prefix)] *)
Fixpoint startsWith (tag prefix : jsstr) : bool :=
  match prefix, tag with
  | [], _ => true
  | p :: prefix, t :: tag => (p =? t) && startsWith tag prefix
  | _ :: _, [] => false
  end.

Definition tagMatches (tag : jsstr) (spec : TagSpec) : bool :=
  match spec with
  | TagExact t => bool_decide (tag = t)
  | TagRange r => tagInRange tag r
  | TagPrefix p => if Nat.eqb (length p) 0 then false else startsWith tag p
  end.

(** The loop of [normalizeTags]; [seen] holds what [out] holds. *)
Fixpoint normalize_loop (tags out : list jsstr) : list jsstr :=
  match tags with
  | [] => out
  | t :: tags =>
      if Nat.eqb (length t) 0 then normalize_loop tags out
      else if set_has t out then normalize_loop tags out
      else normalize_loop tags (out ++ [t])
  end.

Definition normalizeTags (tags : option (list jsstr)) : option (list jsstr) :=
  match tags with
  | None => None
  | Some tags =>
      let out := normalize_loop tags [] in
      if Nat.eqb (length out) 0 then None else Some out
  end.

(** ** [applyOp] *)

Definition op_time (ts : Date) (op : IOp) : Date :=
  mkDate (fadd (getTime ts) (op_off (op_head op))).

(** The row an op that wins leaves. *)
Definition op_row (ts : Date) (op : IOp) : IEntRow :=
  let h := op_head op in
  match op_mut op with
  | Some m =>
      Live (mkEntity (op_eid h) (mu_pid m) (normalizeTags (mu_tags m)) (mu_type m)
        ts (op_time ts op) (op_ctr h) (mu_body m) None)
  | None => Tomb (mkTomb (op_eid h) (op_time ts op) (op_ctr h))
  end.

Definition applyOp (curr : option IEntRow) (op : IOp) : Res IEntRow :=
  opEID ← run_dec (readStruct eidCodec) (op_eid (op_head op));
  let obsolete := match curr with
                  | Some row => fle (getTime (op_time (eid_ts opEID) op))
                                  (getTime (row_updatedAt row))
                  | None => false
                  end in
  if obsolete then Err NoChange else Ok (op_row (eid_ts opEID) op).

Definition typesChanged (curr : option IEntRow) (next : IEntRow) : list jsstr :=
  let types := match curr with Some (Live e) => set_add (e_type e) [] | _ => [] end in
  match next with Live e => set_add (e_type e) types | Tomb _ => types end.

(** ** [state.ts]: messages to ops *)

Definition msgToOp (msg : IMessage) : Res IOp :=
  let h := msg_head msg in
  let oh := mkOpHead (mh_eid h) (mh_off h) (mh_ctr h) in
  match msg_bod msg with
  | Some bod =>
      if blen bod =? 0 then Ok (mkOp oh None)
      else
        ent ← run_dec (readStruct entCodec) bod;
        Ok (mkOp oh (Some (mkMutate (default [] (mh_typ h)) (ent_pid ent) (ent_tags ent)
                             (ent_body ent))))
  | None => Ok (mkOp oh None)
  end.

(** ** Facts about tags *)

Lemma normalize_loop_spec tags out :
  NoDup out → (∀ t, t ∈ out → t ≠ []) →
  NoDup (normalize_loop tags out) ∧
  ∀ t, t ∈ normalize_loop tags out ↔ t ∈ out ∨ (t ∈ tags ∧ t ≠ []).
Proof.
  revert out. induction tags as [|t tags IH]; intros out Hn Hne; cbn [normalize_loop].
  { split; [done|]. intros t. set_solver. }
  destruct (Nat.eqb_spec (length t) 0) as [H|H].
  { destruct t; [|done]. destruct (IH out Hn Hne) as [H1 H2]. split; [done|].
    intros u. rewrite H2. set_solver. }
  unfold set_has. case_bool_decide as Hin.
  { destruct (IH out Hn Hne) as [H1 H2]. split; [done|]. intros u. rewrite H2. set_solver. }
  destruct (IH (out ++ [t])) as [H1 H2].
  { apply NoDup_app. split_and!; [done| |apply NoDup_singleton]. set_solver. }
  { intros u [Hu|Hu]%elem_of_app; [auto|]. apply list_elem_of_singleton in Hu as ->.
    by intros ->. }
  split; [done|]. intros u. rewrite H2, elem_of_app, list_elem_of_singleton, elem_of_cons.
  assert (t ≠ []) by (by intros ->). naive_solver.
Qed.

Lemma normalizeTags_elem tags t :
  t ∈ default [] (normalizeTags tags) ↔ t ∈ default [] tags ∧ t ≠ [].
Proof.
  destruct tags as [tags|]; [|simpl; set_solver]. unfold normalizeTags. cbn [default from_option id].
  destruct (normalize_loop_spec tags [] NoDup_nil_2 ltac:(set_solver)) as [_ H].
  specialize (H t). destruct (Nat.eqb_spec (length (normalize_loop tags [])) 0) as [E|E].
  - destruct (normalize_loop tags []); [|done]. simpl. set_solver.
  - simpl. rewrite H. set_solver.
Qed.

(** ** One row under a sequence of ops *)

(** The creation time in the op's entity id, and the op's time, where both parse. *)
Definition op_stamp (op : IOp) : option (Date * Z) :=
  match run_dec (readStruct eidCodec) (op_eid (op_head op)) with
  | Ok e => t ← op_time (eid_ts e) op; Some (eid_ts e, t)
  | _ => None
  end.

Definition op_ms (op : IOp) : Z := match op_stamp op with Some (_, t) => t | None => 0 end.
Definition op_ts (op : IOp) : Date := match op_stamp op with Some (d, _) => d | None => None end.
Definition op_ok (op : IOp) : Prop := is_Some (op_stamp op).

#[export] Instance op_ok_dec op : Decision (op_ok op).
Proof. unfold op_ok. apply _. Defined.

Definition row_of (op : IOp) : IEntRow := op_row (op_ts op) op.

(** What [EntDBMemory.apply] does to the row of one entity: a failed op leaves
    it alone. *)
Definition step_row (curr : option IEntRow) (op : IOp) : option IEntRow :=
  match applyOp curr op with Ok next => Some next | _ => curr end.

Lemma row_of_time op : op_ok op → row_updatedAt (row_of op) = Some (op_ms op).
Proof.
  intros [[d t] H]. unfold row_of, op_ms, op_ts. rewrite H.
  unfold op_stamp in H. destruct (run_dec _ _) as [e| |]; [|done..].
  destruct (op_time (eid_ts e) op) as [t'|] eqn:E; [|done]. simpl in H. injection H as <- <-.
  unfold op_row. by destruct (op_mut op).
Qed.

Lemma row_of_eid op : row_eid (row_of op) = op_eid (op_head op).
Proof. unfold row_of, op_row. by destruct (op_mut op). Qed.

Lemma applyOp_ok curr op :
  op_ok op →
  applyOp curr op =
    match curr with
    | Some row => if fle (Some (op_ms op)) (row_updatedAt row) then Err NoChange
                  else Ok (row_of op)
    | None => Ok (row_of op)
    end.
Proof.
  intros [[d t] H]. unfold applyOp, row_of, op_ms, op_ts. rewrite H.
  unfold op_stamp in H. destruct (run_dec _ _) as [e| |]; [|done..].
  destruct (op_time (eid_ts e) op) as [t'|] eqn:E; [|done]. simpl in H. injection H as <- <-.
  simpl. rewrite E. by destruct curr.
Qed.

(** The first of the latest ops. *)
Fixpoint latest (ops : list IOp) : option IOp :=
  match ops with
  | [] => None
  | op :: ops =>
      match latest ops with
      | Some best => Some (if op_ms op <? op_ms best then best else op)
      | None => Some op
      end
  end.

Lemma latest_in ops op : latest ops = Some op → op ∈ ops.
Proof.
  revert op. induction ops as [|o ops IH]; intros op; [done|]. simpl.
  destruct (latest ops) as [b|]; intros [= <-]; [|by constructor].
  case_match; [|by constructor]. constructor. auto.
Qed.

Lemma latest_None ops : latest ops = None ↔ ops = [].
Proof. destruct ops as [|o ops]; [done|]. simpl. by destruct (latest ops). Qed.

Lemma latest_max ops op o : latest ops = Some op → o ∈ ops → op_ms o <= op_ms op.
Proof.
  revert op. induction ops as [|x ops IH]; intros op; [done|]. simpl.
  intros H [->|Hin]%elem_of_cons.
  - destruct (latest ops) as [b|]; injection H as <-; [|lia]. case_match; lia.
  - destruct (latest ops) as [b|] eqn:E.
    + injection H as <-. specialize (IH b eq_refl Hin). case_match; lia.
    + apply latest_None in E as ->. by apply not_elem_of_nil in Hin.
Qed.

(** One row after any sequence of ops: the op with the latest time wins, the
    first of them on a tie; a current row wins against ops not after it. *)
Lemma fold_rows ops curr :
  Forall op_ok ops → (∀ r, curr = Some r → is_Some (row_updatedAt r)) →
  fold_left step_row ops curr =
    match latest ops with
    | None => curr
    | Some op =>
        match curr with
        | Some r => if fle (Some (op_ms op)) (row_updatedAt r) then curr else Some (row_of op)
        | None => Some (row_of op)
        end
    end.
Proof.
  intros Hok. revert curr. induction Hok as [|op ops Hop _ IH]; intros curr Hc; [done|].
  assert (Hs : step_row curr op =
    match curr with
    | Some r => if fle (Some (op_ms op)) (row_updatedAt r) then curr else Some (row_of op)
    | None => Some (row_of op)
    end).
  { unfold step_row. rewrite applyOp_ok by done. destruct curr; [|done]. by destruct (fle _ _). }
  cbn [fold_left]. rewrite Hs. pose proof (row_of_time op Hop) as Ht. cbn [latest].
  rewrite IH.
  - destruct curr as [r|].
    + destruct (Hc r eq_refl) as [tr Hr]. rewrite Hr. cbn [fle].
      repeat (case_match; cbn [fle] in *; rewrite ?Hr, ?Ht in *; cbn [fle] in *;
        simplify_eq); try done; lia.
    + destruct (latest ops) as [b|]; [|done]. rewrite Ht. cbn [fle].
      destruct (Z.leb_spec (op_ms b) (op_ms op)).
      * by rewrite (proj2 (Z.ltb_ge _ _)) by lia.
      * by rewrite (proj2 (Z.ltb_lt _ _)) by lia.
  - intros r Hr. destruct curr as [r0|].
    + destruct (Hc r0 eq_refl) as [tr Hr0]. case_match; injection Hr as <-; [eauto|].
      by rewrite Ht.
    + injection Hr as <-. by rewrite Ht.
Qed.

(** No two different ops of the list share a time. *)
Definition distinct_times (ops : list IOp) : Prop :=
  ∀ o1 o2, o1 ∈ ops → o2 ∈ ops → op_ms o1 = op_ms o2 → o1 = o2.

Lemma latest_perm ops ops' :
  distinct_times ops → ops ≡ₚ ops' → latest ops = latest ops'.
Proof.
  intros Hd Hp. destruct (latest ops) as [a|] eqn:Ea, (latest ops') as [b|] eqn:Eb.
  - f_equal. pose proof (latest_in _ _ Ea) as Ha. pose proof (latest_in _ _ Eb) as Hb.
    assert (b ∈ ops) by by rewrite Hp. assert (a ∈ ops') by by rewrite <-Hp.
    apply Hd; [done|done|]. pose proof (latest_max _ _ b Ea). pose proof (latest_max _ _ a Eb).
    specialize (H1 ltac:(done)). specialize (H2 ltac:(done)). lia.
  - apply latest_None in Eb as ->. symmetry in Hp. apply Permutation_nil in Hp as ->. done.
  - apply latest_None in Ea as ->. apply Permutation_nil in Hp as ->. done.
  - done.
Qed.
