(* ===== verification/EntMem.v ===== *)
(** * The in-memory entity database ([web/src/entdb/memory.ts])

    [EntDBMemory] keeps the rows by entity id and three secondary indexes.
    The invariant [inv] ties the indexes to the rows; the indexed queries are
    then shown to return what a full scan returns, and [apply] to leave in
    each row the last writer of its ops. *)
From S2P Require Export EntDB.
From S2P Require Export Js.

(** ** Nested maps

    [sub m t] is the inner map at [t], empty where there is none.  Writers
    create the inner map on demand, deleters drop it once empty. *)
Section nested.
Context {A K V : Type} `{EqDecision A, EqDecision K}.
Implicit Types m : jsmap A (jsmap K V).

Definition sub (m : jsmap A (jsmap K V)) (t : A) : jsmap K V := default [] (map_get t m).

Definition upd_sub (m : jsmap A (jsmap K V)) (t : A) (f : jsmap K V → jsmap K V) :=
  map_set t (f (sub m t)) m.

Definition drop_sub (m : jsmap A (jsmap K V)) (t : A) (f : jsmap K V → jsmap K V) :=
  match map_get t m with
  | None => m
  | Some b =>
      let b' := f b in
      if Nat.eqb (length b') 0 then map_delete t m else map_set t b' m
  end.

Lemma sub_upd m t f t' : sub (upd_sub m t f) t' = if decide (t' = t) then f (sub m t) else sub m t'.
Proof. unfold sub at 1, upd_sub. rewrite map_get_set. by case_decide. Qed.

Lemma sub_drop m t f t' :
  map_wf m → f [] = [] →
  sub (drop_sub m t f) t' = if decide (t' = t) then f (sub m t) else sub m t'.
Proof.
  intros Hm Hf. unfold drop_sub. destruct (map_get t m) as [b|] eqn:E.
  - assert (Es : sub m t = b) by (unfold sub; by rewrite E). rewrite Es.
    destruct (Nat.eqb_spec (length (f b)) 0) as [H|H]; unfold sub.
    + rewrite map_get_delete by done. case_decide; [|done]. by destruct (f b).
    + rewrite map_get_set. by case_decide.
  - case_decide as Ht; [|done]. subst. unfold sub. rewrite E. simpl. by rewrite Hf.
Qed.

Lemma upd_sub_wf m t f : map_wf m → map_wf (upd_sub m t f).
Proof. apply map_set_wf. Qed.
Lemma drop_sub_wf m t f : map_wf m → map_wf (drop_sub m t f).
Proof.
  intros. unfold drop_sub. destruct (map_get t m); [|done].
  case_match; [by apply map_delete_wf|by apply map_set_wf].
Qed.

(** Well-formed at both levels. *)
Definition wf2 m : Prop := map_wf m ∧ ∀ t, map_wf (sub m t).

Lemma wf2_nil : wf2 [].
Proof. split; [apply map_wf_nil|]. intros. apply map_wf_nil. Qed.

Lemma wf2_upd m t f : wf2 m → (map_wf (sub m t) → map_wf (f (sub m t))) → wf2 (upd_sub m t f).
Proof.
  intros [H1 H2] Hf. split; [by apply upd_sub_wf|]. intros t'. rewrite sub_upd.
  case_decide; [by apply Hf|done].
Qed.
Lemma wf2_drop m t f :
  wf2 m → f [] = [] → (map_wf (sub m t) → map_wf (f (sub m t))) → wf2 (drop_sub m t f).
Proof.
  intros [H1 H2] Hn Hf. split; [by apply drop_sub_wf|]. intros t'. rewrite sub_drop by done.
  case_decide; [by apply Hf|done].
Qed.
End nested.

(** Three levels: type, then parent or tag, then entity key. *)
Definition index3 (V : Type) : Type := jsmap jsstr (jsmap jsstr (jsmap jsstr V)).

Definition wf3 {V} (m : index3 V) : Prop := map_wf m ∧ ∀ t, wf2 (sub m t).

(** The indexed value for a type, a group and a key. *)
Definition look3 {V} (m : index3 V) (t g k : jsstr) : option V := map_get k (sub (sub m t) g).
Definition look2 {V} (m : jsmap jsstr (jsmap jsstr V)) (t k : jsstr) : option V :=
  map_get k (sub m t).

Lemma wf3_nil {V} : wf3 ([] : index3 V).
Proof. split; [apply map_wf_nil|]. intros. apply wf2_nil. Qed.

Lemma wf3_upd {V} (m : index3 V) t f : wf3 m → (wf2 (sub m t) → wf2 (f (sub m t))) → wf3 (upd_sub m t f).
Proof.
  intros [H1 H2] Hf. split; [by apply upd_sub_wf|]. intros t'. rewrite sub_upd.
  case_decide; [by apply Hf|done].
Qed.
Lemma wf3_drop {V} (m : index3 V) t f :
  wf3 m → f [] = [] → (wf2 (sub m t) → wf2 (f (sub m t))) → wf3 (drop_sub m t f).
Proof.
  intros [H1 H2] Hn Hf. split; [by apply drop_sub_wf|]. intros t'. rewrite sub_drop by done.
  case_decide; [by apply Hf|done].
Qed.

(** ** [omitDefaultRealm] ([web/src/stores/realm.ts]) *)

Definition omitDefaultRealm (row : IEntity) : IEntity :=
  match e_rlm row with
  | Some [] =>
      mkEntity (e_eid row) (e_pid row) (e_tags row) (e_type row) (e_createdAt row)
        (e_updatedAt row) (e_ctr row) (e_body row) None
  | _ => row
  end.

Module EntDBMemory.

Abbreviation bucket := (jsmap jsstr IEntity).

Record db := mkDB {
  ents : jsmap jsstr IEntRow;
  useIndex : bool;
  byType : jsmap jsstr bucket;
  byTypePid : index3 IEntity;
  byTypeTag : index3 IEntity;
}.

Definition index_tags (key : jsstr) (ent : IEntity) (tags : list jsstr)
    (byTag : jsmap jsstr bucket) : jsmap jsstr bucket :=
  fold_left (λ bt tag, upd_sub bt tag (map_set key ent)) tags byTag.
Definition unindex_tags (key : jsstr) (tags : list jsstr)
    (byTag : jsmap jsstr bucket) : jsmap jsstr bucket :=
  fold_left (λ bt tag, drop_sub bt tag (map_delete key)) tags byTag.

Definition index (d : db) (key : jsstr) (ent : IEntity) : db :=
  if useIndex d then
    mkDB (ents d) (useIndex d)
      (upd_sub (byType d) (e_type ent) (map_set key ent))
      (match e_pid ent with
       | Some pid => upd_sub (byTypePid d) (e_type ent)
                       (λ byPid, upd_sub byPid (btob64 pid) (map_set key ent))
       | None => byTypePid d
       end)
      (match e_tags ent with
       | Some tags => upd_sub (byTypeTag d) (e_type ent) (index_tags key ent tags)
       | None => byTypeTag d
       end)
  else d.

Definition unindex (d : db) (key : jsstr) (ent : IEntity) : db :=
  if useIndex d then
    mkDB (ents d) (useIndex d)
      (drop_sub (byType d) (e_type ent) (map_delete key))
      (match e_pid ent with
       | Some pid => drop_sub (byTypePid d) (e_type ent)
                       (λ byPid, drop_sub byPid (btob64 pid) (map_delete key))
       | None => byTypePid d
       end)
      (match e_tags ent with
       | Some tags => drop_sub (byTypeTag d) (e_type ent) (unindex_tags key tags)
       | None => byTypeTag d
       end)
  else d.

Definition with_ents (d : db) (m : jsmap jsstr IEntRow) : db :=
  mkDB m (useIndex d) (byType d) (byTypePid d) (byTypeTag d).

Definition put (d : db) (row : IEntRow) : db :=
  let next := match row with Live e => Live (omitDefaultRealm e) | Tomb t => Tomb t end in
  let key := btob64 (row_eid next) in
  let d := match map_get key (ents d) with
           | Some (Live prev) => unindex d key prev
           | _ => d
           end in
  let d := with_ents d (map_set key next (ents d)) in
  match next with Live e => index d key e | Tomb _ => d end.

Definition del (d : db) (key : jsstr) : db :=
  match map_get key (ents d) with
  | None => d
  | Some prev =>
      let d := match prev with Live e => unindex d key e | Tomb _ => d end in
      with_ents d (map_delete key (ents d))
  end.

Definition clear (d : db) : db := mkDB [] (useIndex d) [] [] [].

(** The constructor. *)
Definition make (initEnts : list IEntity) (indexes : bool) : db :=
  fold_left (λ d e, put d (Live e)) initEnts (mkDB [] indexes [] [] []).

(** [apply]: the statuses, the changed types and the applied ids. *)
Record applied := mkApplied { stats : list Status; types : list jsstr; eids : list bytes }.

Fixpoint apply_loop (d : db) (out : applied) (ops : list IOp) : db * Res applied :=
  match ops with
  | [] => (d, Ok out)
  | op :: ops =>
      let key := btob64 (op_eid (op_head op)) in
      let curr := map_get key (ents d) in
      match applyOp curr op with
      | Throw => (d, Throw)
      | Err stat => apply_loop d (mkApplied (stats out ++ [stat]) (types out) (eids out)) ops
      | Ok next =>
          apply_loop (put d next)
            (mkApplied (stats out ++ [Success])
               (fold_left (λ ts t, set_add t ts) (typesChanged curr next) (types out))
               (eids out ++ [op_eid (op_head op)])) ops
      end
  end.

Definition apply (d : db) (ops : list IOp) : db * Res applied :=
  apply_loop d (mkApplied [] [] []) ops.

Definition getRow (d : db) (eid : bytes) : option IEntRow := map_get (btob64 eid) (ents d).

Definition getEnt (d : db) (eid : bytes) : option IEntity :=
  match getRow d eid with Some (Live e) => Some e | _ => None end.

Definition bucketList (b : option bucket) : list IEntity :=
  match b with Some b => map_values b | None => [] end.

(** The inner loop over a bucket: entities not yet [seen]. *)
Definition collect (acc : list jsstr * list IEntity) (b : bucket) : list jsstr * list IEntity :=
  fold_left (λ '(seen, out) '(key, ent),
    if set_has key seen then (seen, out) else (set_add key seen, out ++ [ent])) b acc.

Definition byTagSpec (d : db) (type : jsstr) (spec : TagSpec) : Res (list IEntity) :=
  may ← tagSpecMayMatch spec;
  if negb may then Ok []
  else match spec with
  | TagExact t => Ok (bucketList (byTag ← map_get type (byTypeTag d); map_get t byTag))
  | _ =>
      match map_get type (byTypeTag d) with
      | None => Ok []
      | Some byTag =>
          Ok (fold_left (λ acc '(tag, b), if tagMatches tag spec then collect acc b else acc)
                byTag ([], [])).2
      end
  end.

Definition byDateSpec (d : db) (type : jsstr) (spec : DateSpec) : Res (list IEntity) :=
  may ← dateSpecMayMatch spec;
  if negb may then Ok []
  else match map_get type (byType d) with
  | None => Ok []
  | Some b => Ok (filter (λ e, dateMatches (e_updatedAt e) spec = true) (map_values b))
  end.

(** The live rows, in [Map] order, that satisfy a test. *)
Definition scan (d : db) (test : IEntity → bool) : list IEntity :=
  omap (λ row, match row with
               | Live e => if test e then Some e else None
               | Tomb _ => None
               end) (map_values (ents d)).

Definition has_type (type : jsstr) (e : IEntity) : bool := bool_decide (e_type e = type).

Definition fullScan (d : db) (query : EntitiesQuery) : Res (list IEntity) :=
  match query with
  | QPid type pid => Ok (scan d (λ e, has_type type e &&
      match e_pid e with Some p => bytesEqual p pid | None => false end))
  | QTag type spec =>
      may ← tagSpecMayMatch spec;
      if negb may then Ok []
      else Ok (scan d (λ e, has_type type e &&
        match e_tags e with Some tags => existsb (λ t, tagMatches t spec) tags | None => false end))
  | QDate type spec =>
      may ← dateSpecMayMatch spec;
      if negb may then Ok []
      else Ok (scan d (λ e, has_type type e && dateMatches (e_updatedAt e) spec))
  | QType type => Ok (scan d (has_type type))
  end.

Definition getAllEntities (d : db) (query : EntitiesQuery) : Res (list IEntity) :=
  if useIndex d then
    match query with
    | QPid type pid =>
        Ok (bucketList (byPid ← map_get type (byTypePid d); map_get (btob64 pid) byPid))
    | QTag type spec => byTagSpec d type spec
    | QDate type spec => byDateSpec d type spec
    | QType type => Ok (bucketList (map_get type (byType d)))
    end
  else fullScan d query.

Definition getEntities (d : db) (query : EntitiesQuery) : Res (list IEntity) :=
  ents ← getAllEntities d query; Ok ents.

Definition countEntities (d : db) (type : jsstr) : Z :=
  if useIndex d then Z.of_nat (length (sub (byType d) type))
  else Z.of_nat (length (scan d (has_type type))).

Section checksum.
Context {C : CryptoPrims}.
Definition checksum (d : db) : Res bytes :=
  checksumEntRevs (revFromEntity <$> map_values (ents d)).
End checksum.
End EntDBMemory.
