(* ===== verification/EntMemFacts.v ===== *)
(** * The invariant of the in-memory entity database

    The indexes hold exactly the live rows, under their type, parent and
    tags ([inv]); every operation keeps it. *)
From S2P Require Export EntMem.
Import EntDBMemory.

#[local] Arguments sub : simpl never.
#[local] Arguments upd_sub : simpl never.
#[local] Arguments drop_sub : simpl never.

(** ** An index over rows *)

(** [look i k] is the entity indexed under [i] at key [k]; the index holds
    the live rows that satisfy [P i]. *)
Definition indexes {I} (look : I → jsstr → option IEntity) (P : I → IEntity → Prop)
    (rows : jsmap jsstr IEntRow) : Prop :=
  ∀ i k e, look i k = Some e ↔ map_get k rows = Some (Live e) ∧ P i e.

Definition same_elsewhere (key : jsstr) (rows rows' : jsmap jsstr IEntRow) : Prop :=
  ∀ k, k ≠ key → map_get k rows' = map_get k rows.
Definition not_live (key : jsstr) (rows : jsmap jsstr IEntRow) : Prop :=
  ∀ e, map_get key rows ≠ Some (Live e).

Lemma indexes_insert {I} look look' (P : I → IEntity → Prop) `{∀ i e, Decision (P i e)} key ent rows rows' :
  indexes look P rows → not_live key rows → same_elsewhere key rows rows' →
  map_get key rows' = Some (Live ent) →
  (∀ i k, look' i k = if decide (P i ent ∧ k = key) then Some ent else look i k) →
  indexes look' P rows'.
Proof.
  intros Hi Hn Hs Hk Hl i k e. rewrite Hl. destruct (decide (k = key)) as [->|Hne].
  - rewrite Hk. case_decide as Hd; [naive_solver|].
    rewrite (Hi i key e). pose proof (Hn e). naive_solver.
  - rewrite decide_False by tauto. rewrite (Hs k Hne). apply Hi.
Qed.

Lemma indexes_remove {I} look look' (P : I → IEntity → Prop) `{∀ i e, Decision (P i e)} key ent rows rows' :
  indexes look P rows → map_get key rows = Some (Live ent) → same_elsewhere key rows rows' →
  not_live key rows' →
  (∀ i k, look' i k = if decide (P i ent ∧ k = key) then None else look i k) →
  indexes look' P rows'.
Proof.
  intros Hi Hk Hs Hn Hl i k e. rewrite Hl. destruct (decide (k = key)) as [->|Hne].
  - pose proof (Hn e). case_decide as Hd; [naive_solver|].
    rewrite (Hi i key e), Hk. naive_solver.
  - rewrite decide_False by tauto. rewrite (Hs k Hne). apply Hi.
Qed.

Lemma indexes_same {I} look (P : I → IEntity → Prop) key rows rows' :
  indexes look P rows → not_live key rows → not_live key rows' →
  same_elsewhere key rows rows' → indexes look P rows'.
Proof.
  intros Hi H1 H2 Hs i k e. rewrite (Hi i k e). destruct (decide (k = key)) as [->|Hne].
  - pose proof (H1 e). pose proof (H2 e). naive_solver.
  - by rewrite (Hs k Hne).
Qed.

(** ** The three indexes *)

Definition at_type (t : jsstr) (e : IEntity) : Prop := e_type e = t.
Definition at_pid (i : jsstr * jsstr) (e : IEntity) : Prop :=
  e_type e = i.1 ∧ btob64 <$> e_pid e = Some i.2.
Definition at_tag (i : jsstr * jsstr) (e : IEntity) : Prop :=
  e_type e = i.1 ∧ i.2 ∈ default [] (e_tags e).

#[export] Instance at_type_dec t e : Decision (at_type t e).
Proof. unfold at_type. apply _. Defined.
#[export] Instance at_pid_dec i e : Decision (at_pid i e).
Proof. unfold at_pid. apply _. Defined.
#[export] Instance at_tag_dec i e : Decision (at_tag i e).
Proof. unfold at_tag. apply _. Defined.

Definition lookup_type (d : db) := look2 (byType d).
Definition lookup_pid (d : db) (i : jsstr * jsstr) := look3 (byTypePid d) i.1 i.2.
Definition lookup_tag (d : db) (i : jsstr * jsstr) := look3 (byTypeTag d) i.1 i.2.

Record idx_wf (d : db) : Prop := {
  wf_type : wf2 (byType d);
  wf_pid : wf3 (byTypePid d);
  wf_tag : wf3 (byTypeTag d);
}.

Lemma index_tags_sub key ent tags bt g k :
  map_get k (sub (index_tags key ent tags bt) g) =
  if decide (g ∈ tags ∧ k = key) then Some ent else map_get k (sub bt g).
Proof.
  unfold index_tags. revert bt. induction tags as [|t tags IH]; intros bt; cbn [fold_left].
  { rewrite decide_False; [done|]. intros [H _]. by apply not_elem_of_nil in H. }
  rewrite IH, sub_upd. repeat case_decide; subst; rewrite ?map_get_set; repeat case_decide; set_solver.
Qed.

Lemma index_tags_wf key ent tags bt : wf2 bt → wf2 (index_tags key ent tags bt).
Proof.
  unfold index_tags. revert bt. induction tags as [|t tags IH]; intros bt H; [done|].
  apply IH, wf2_upd; [done|]. apply map_set_wf.
Qed.

Lemma unindex_tags_wf key tags bt : wf2 bt → wf2 (unindex_tags key tags bt).
Proof.
  unfold unindex_tags. revert bt. induction tags as [|t tags IH]; intros bt H; [done|].
  apply IH, wf2_drop; [done|done|]. apply map_delete_wf.
Qed.

Lemma unindex_tags_nil key tags : unindex_tags key tags [] = [].
Proof. unfold unindex_tags. by induction tags. Qed.

Lemma unindex_tags_sub key tags bt g k :
  wf2 bt →
  map_get k (sub (unindex_tags key tags bt) g) =
  if decide (g ∈ tags ∧ k = key) then None else map_get k (sub bt g).
Proof.
  unfold unindex_tags. revert bt. induction tags as [|t tags IH]; intros bt Hw; cbn [fold_left].
  { rewrite decide_False; [done|]. intros [H _]. by apply not_elem_of_nil in H. }
  rewrite IH by (apply wf2_drop; [done|done|apply map_delete_wf]).
  rewrite sub_drop by (done || apply Hw).
  repeat case_decide; subst; rewrite ?map_get_delete by apply Hw; repeat case_decide; set_solver.
Qed.

Section index.
Context (d : db) (key : jsstr) (ent : IEntity) (Hu : useIndex d = true).

Lemma index_type i k :
  lookup_type (index d key ent) i k =
  if decide (at_type i ent ∧ k = key) then Some ent else lookup_type d i k.
Proof.
  unfold index, lookup_type, look2, at_type. rewrite Hu. cbn. rewrite sub_upd.
  repeat case_decide; subst; rewrite ?map_get_set; repeat case_decide; naive_solver.
Qed.

Lemma index_pid i k :
  lookup_pid (index d key ent) i k =
  if decide (at_pid i ent ∧ k = key) then Some ent else lookup_pid d i k.
Proof.
  destruct i as [t p]. destruct (decide (at_pid (t, p) ent ∧ k = key)) as [Hd|Hd];
    unfold at_pid in Hd; unfold index, lookup_pid, look3; rewrite Hu; cbn in *;
    destruct (e_pid ent) as [pid|]; cbn in *; try set_solver.
  all: rewrite sub_upd; case_decide; subst; rewrite ?sub_upd, ?index_tags_sub;
    repeat case_decide; subst; rewrite ?map_get_set; repeat case_decide; naive_solver.
Qed.

Lemma index_tag i k :
  lookup_tag (index d key ent) i k =
  if decide (at_tag i ent ∧ k = key) then Some ent else lookup_tag d i k.
Proof.
  destruct i as [t p]. destruct (decide (at_tag (t, p) ent ∧ k = key)) as [Hd|Hd];
    unfold at_tag in Hd; unfold index, lookup_tag, look3; rewrite Hu; cbn in *;
    destruct (e_tags ent) as [tags|]; cbn in *; try set_solver.
  all: rewrite sub_upd; case_decide; subst; rewrite ?sub_upd, ?index_tags_sub;
    repeat case_decide; subst; rewrite ?map_get_set; repeat case_decide; naive_solver.
Qed.

Lemma index_wf : idx_wf d → idx_wf (index d key ent).
Proof.
  intros [H1 H2 H3]. unfold index. rewrite Hu. split; cbn.
  - apply wf2_upd; [done|apply map_set_wf].
  - destruct (e_pid ent); [|done]. apply wf3_upd; [done|]. intros.
    apply wf2_upd; [done|apply map_set_wf].
  - destruct (e_tags ent); [|done]. apply wf3_upd; [done|]. apply index_tags_wf.
Qed.

Context (Hw : idx_wf d).

Lemma unindex_type i k :
  lookup_type (unindex d key ent) i k =
  if decide (at_type i ent ∧ k = key) then None else lookup_type d i k.
Proof.
  destruct Hw as [[H1 H1'] _ _].
  unfold unindex, lookup_type, look2, at_type. rewrite Hu. cbn. rewrite sub_drop by done.
  repeat case_decide; subst; rewrite ?map_get_delete by done; repeat case_decide; naive_solver.
Qed.

Lemma unindex_pid i k :
  lookup_pid (unindex d key ent) i k =
  if decide (at_pid i ent ∧ k = key) then None else lookup_pid d i k.
Proof.
  destruct Hw as [_ [H1 H1'] _].
  destruct i as [t p]. destruct (decide (at_pid (t, p) ent ∧ k = key)) as [Hd|Hd];
    unfold at_pid in Hd; unfold unindex, lookup_pid, look3; rewrite Hu; cbn in *;
    destruct (e_pid ent) as [pid|]; cbn in *; try set_solver.
  all: rewrite sub_drop by (done || apply unindex_tags_nil); case_decide; subst;
    rewrite ?unindex_tags_sub by apply H1'; rewrite ?sub_drop by (done || apply H1');
    repeat case_decide; subst; rewrite ?map_get_delete by apply H1'; repeat case_decide; naive_solver.
Qed.

Lemma unindex_tag i k :
  lookup_tag (unindex d key ent) i k =
  if decide (at_tag i ent ∧ k = key) then None else lookup_tag d i k.
Proof.
  destruct Hw as [_ _ [H1 H1']].
  destruct i as [t p]. destruct (decide (at_tag (t, p) ent ∧ k = key)) as [Hd|Hd];
    unfold at_tag in Hd; unfold unindex, lookup_tag, look3; rewrite Hu; cbn in *;
    destruct (e_tags ent) as [tags|]; cbn in *; try set_solver.
  all: rewrite sub_drop by (done || apply unindex_tags_nil); case_decide; subst;
    rewrite ?unindex_tags_sub by apply H1'; rewrite ?sub_drop by (done || apply H1');
    repeat case_decide; subst; rewrite ?map_get_delete by apply H1'; repeat case_decide; naive_solver.
Qed.

Lemma unindex_wf : idx_wf (unindex d key ent).
Proof.
  destruct Hw as [H1 H2 H3]. unfold unindex. rewrite Hu. split; cbn.
  - apply wf2_drop; [done|done|apply map_delete_wf].
  - destruct (e_pid ent); [|done]. apply wf3_drop; [done|done|]. intros.
    apply wf2_drop; [done|done|apply map_delete_wf].
  - destruct (e_tags ent); [|done]. apply wf3_drop; [done|apply unindex_tags_nil|].
    apply unindex_tags_wf.
Qed.
End index.

(** ** The invariant *)

Record idx_ok (d : db) (rows : jsmap jsstr IEntRow) : Prop := {
  idx_shape : idx_wf d;
  idx_type : indexes (lookup_type d) at_type rows;
  idx_pid : indexes (lookup_pid d) at_pid rows;
  idx_tag : indexes (lookup_tag d) at_tag rows;
}.

Record inv (d : db) : Prop := {
  rows_wf : map_wf (ents d);
  rows_key : ∀ k row, map_get k (ents d) = Some row → k = btob64 (row_eid row);
  rows_idx : useIndex d = true → idx_ok d (ents d);
}.

Lemma index_ents d key e : ents (index d key e) = ents d.
Proof. unfold index. by destruct (useIndex d). Qed.
Lemma unindex_ents d key e : ents (unindex d key e) = ents d.
Proof. unfold unindex. by destruct (useIndex d). Qed.
Lemma index_use d key e : useIndex (index d key e) = useIndex d.
Proof. unfold index. by destruct (useIndex d) eqn:E. Qed.
Lemma unindex_use d key e : useIndex (unindex d key e) = useIndex d.
Proof. unfold unindex. by destruct (useIndex d) eqn:E. Qed.

Lemma idx_ok_index d key e rows rows' :
  useIndex d = true → idx_ok d rows → not_live key rows → same_elsewhere key rows rows' →
  map_get key rows' = Some (Live e) → idx_ok (index d key e) rows'.
Proof.
  intros Hu [Hw H1 H2 H3] Hn Hs Hk. split; [by apply index_wf|..];
    (eapply indexes_insert; [done|done|done|done|]); intros.
  - by apply index_type. - by apply index_pid. - by apply index_tag.
Qed.

Lemma idx_ok_unindex d key e rows rows' :
  useIndex d = true → idx_ok d rows → map_get key rows = Some (Live e) →
  same_elsewhere key rows rows' → not_live key rows' → idx_ok (unindex d key e) rows'.
Proof.
  intros Hu [Hw H1 H2 H3] Hk Hs Hn. split; [by apply unindex_wf|..];
    (eapply indexes_remove; [done|done|done|done|]); intros.
  - by apply unindex_type. - by apply unindex_pid. - by apply unindex_tag.
Qed.

Lemma idx_ok_same d key rows rows' :
  idx_ok d rows → not_live key rows → not_live key rows' → same_elsewhere key rows rows' →
  idx_ok d rows'.
Proof.
  intros [Hw H1 H2 H3] Hn Hn' Hs. split; [done|..]; by eapply indexes_same.
Qed.

Lemma same_delete key (rows : jsmap jsstr IEntRow) :
  map_wf rows → same_elsewhere key rows (map_delete key rows).
Proof. intros Hw k Hk. by rewrite map_get_delete, decide_False. Qed.
Lemma not_live_delete key (rows : jsmap jsstr IEntRow) :
  map_wf rows → not_live key (map_delete key rows).
Proof. intros Hw e. by rewrite map_get_delete, decide_True. Qed.

(** Removing the row at [key] from the indexes, as [put] and [del] start. *)
Lemma idx_ok_clear d key :
  inv d → useIndex d = true →
  idx_ok (match map_get key (ents d) with Some (Live e) => unindex d key e | _ => d end)
    (map_delete key (ents d)).
Proof.
  intros [Hw _ Hi] Hu. specialize (Hi Hu).
  pose proof (same_delete key (ents d) Hw). pose proof (not_live_delete key (ents d) Hw).
  destruct (map_get key (ents d)) as [[e|t]|] eqn:E; [by eapply idx_ok_unindex|..];
    (eapply idx_ok_same; [done| |done|done]); intros e; by rewrite E.
Qed.

Lemma idx_ok_with_ents d m rows : idx_ok d rows → idx_ok (with_ents d m) rows.
Proof. intros [[H1 H1' H1a] H2 H3 H4]. split; [by split|exact H2|exact H3|exact H4]. Qed.

(** The row [put] stores. *)
Definition stored (row : IEntRow) : IEntRow :=
  match row with Live e => Live (omitDefaultRealm e) | Tomb t => Tomb t end.

Lemma stored_eid row : row_eid (stored row) = row_eid row.
Proof. destruct row as [e|t]; [|done]. simpl. unfold omitDefaultRealm. by repeat case_match. Qed.

Lemma put_ents d row :
  ents (put d row) = map_set (btob64 (row_eid row)) (stored row) (ents d).
Proof.
  unfold put. change (match row with Live e => _ | Tomb t => _ end) with (stored row).
  rewrite stored_eid.
  destruct (stored row); rewrite ?index_ents; cbn; repeat case_match; by rewrite ?unindex_ents.
Qed.

Lemma put_use d row : useIndex (put d row) = useIndex d.
Proof.
  unfold put. repeat case_match; rewrite ?index_use; cbn; by rewrite ?unindex_use.
Qed.

Lemma put_inv d row : inv d → inv (put d row).
Proof.
  intros Hd. pose proof Hd as [Hw Hk Hi]. split.
  - rewrite put_ents. by apply map_set_wf.
  - intros k r. rewrite put_ents, map_get_set. case_decide; [|apply Hk].
    intros [= <-]. by rewrite stored_eid.
  - rewrite put_use. intros Hu. pose proof (idx_ok_clear d (btob64 (row_eid row)) Hd Hu) as Hc.
    rewrite put_ents. unfold put.
    change (match row with Live e => _ | Tomb t => _ end) with (stored row). rewrite stored_eid.
    set (key := btob64 (row_eid row)) in *.
    set (d1 := match map_get key (ents d) with Some (Live e) => unindex d key e | _ => d end) in *.
    assert (Hu1 : useIndex d1 = true) by (unfold d1; repeat case_match; by rewrite ?unindex_use).
    assert (Hs : same_elsewhere key (map_delete key (ents d)) (map_set key (stored row) (ents d))).
    { intros k Hne. rewrite map_get_set_ne by done. symmetry. by apply same_delete. }
    pose proof (not_live_delete key (ents d) Hw) as Hn.
    destruct (stored row) as [e|t] eqn:E.
    + eapply idx_ok_index; [exact Hu1|by apply idx_ok_with_ents|done|done|apply map_get_set_eq].
    + apply idx_ok_with_ents. eapply idx_ok_same; [done|done| |done].
      intros e. by rewrite map_get_set_eq.
Qed.

Lemma del_inv d key : inv d → inv (del d key).
Proof.
  intros Hd. pose proof Hd as [Hw Hk Hi]. unfold del.
  destruct (map_get key (ents d)) as [prev|] eqn:E; [|done].
  assert (He : ents (match prev with Live e => unindex d key e | Tomb _ => d end) = ents d)
    by (destruct prev; by rewrite ?unindex_ents).
  split; cbn; rewrite ?He.
  - by apply map_delete_wf.
  - intros k r. rewrite map_get_delete by done. case_decide; [done|apply Hk].
  - intros Hu. apply idx_ok_with_ents.
    assert (Hu' : useIndex d = true) by (destruct prev; by rewrite ?unindex_use in Hu).
    pose proof (idx_ok_clear d key Hd Hu') as Hc. rewrite E in Hc. by destruct prev.
Qed.

Lemma empty_inv b : inv (mkDB [] b [] [] []).
Proof.
  split; cbn; [apply map_wf_nil|done|]. intros _. split.
  - split; [apply wf2_nil|apply wf3_nil|apply wf3_nil].
  - intros i k e. split; [done|naive_solver].
  - intros i k e. split; [done|naive_solver].
  - intros i k e. split; [done|naive_solver].
Qed.

Lemma clear_inv d : inv (clear d).
Proof. apply empty_inv. Qed.

Lemma make_inv initEnts b : inv (make initEnts b).
Proof.
  unfold make. generalize (empty_inv b). generalize (mkDB [] b [] [] []).
  induction initEnts as [|e es IH]; intros d Hd; [done|]. by apply IH, put_inv.
Qed.

Lemma apply_loop_inv ops d out : inv d → inv (apply_loop d out ops).1.
Proof.
  revert d out. induction ops as [|op ops IH]; intros d out Hd; [done|]. cbn [apply_loop].
  destruct (applyOp _ op); [apply IH, put_inv|apply IH|]; done.
Qed.

Lemma apply_inv d ops : inv d → inv (apply d ops).1.
Proof. apply apply_loop_inv. Qed.

(** ** Queries *)

(** [l] lists the live rows that satisfy [P], each once. *)
Definition live_at (d : db) (e : IEntity) : Prop :=
  map_get (btob64 (e_eid e)) (ents d) = Some (Live e).
Definition lists (d : db) (P : IEntity → Prop) (l : list IEntity) : Prop :=
  NoDup l ∧ ∀ e, e ∈ l ↔ live_at d e ∧ P e.

Lemma lists_perm d P l l' : lists d P l → lists d P l' → l ≡ₚ l'.
Proof.
  intros [H1 H2] [H1' H2']. apply NoDup_Permutation; [done|done|]. intros e.
  by rewrite H2, H2'.
Qed.

Lemma lists_iff d (P Q : IEntity → Prop) l : (∀ e, P e ↔ Q e) → lists d P l → lists d Q l.
Proof. intros HPQ [H1 H2]. split; [done|]. intros e. by rewrite H2, HPQ. Qed.

Lemma keyed_NoDup {V B} (m : jsmap jsstr V) (g : V → option B) (key : B → jsstr) :
  map_wf m → (∀ k v b, (k, v) ∈ m → g v = Some b → key b = k) → NoDup (omap g (map_values m)).
Proof.
  unfold map_wf. induction m as [|[k v] m IH]; intros Hw Hk; [constructor|].
  apply NoDup_cons in Hw as [Hni Hw]. cbn.
  assert (NoDup (omap g (map_values m))) as Hn.
  { apply IH; [done|]. intros. eapply Hk; [|done]. by right. }
  destruct (g v) as [b|] eqn:E; [|exact Hn]. constructor; [|exact Hn].
  intros Hin. apply list_elem_of_omap in Hin as (v' & Hv' & E').
  apply list_elem_of_fmap in Hv' as ([k' v''] & -> & Hin). apply Hni.
  assert (key b = k) as <- by (eapply Hk; [by left|done]).
  assert (key b = k') as -> by (eapply Hk; [right; exact Hin|exact E']).
  by apply (list_elem_of_fmap_2 fst) in Hin.
Qed.

Lemma omap_Some_id {A} (l : list A) : omap Some l = l.
Proof. induction l as [|x l IH]; [done|]. cbn. by f_equal. Qed.

Lemma map_get_elem {V} (m : jsmap jsstr V) k v : map_wf m → map_get k m = Some v ↔ (k, v) ∈ m.
Proof. intros Hw. split; [apply map_get_Some_in|by apply map_get_in]. Qed.

Lemma elem_of_map_values {V} (m : jsmap jsstr V) v : v ∈ map_values m ↔ ∃ k, (k, v) ∈ m.
Proof.
  unfold map_values. rewrite list_elem_of_fmap. split.
  - intros ([k v'] & -> & H). eauto.
  - intros [k H]. by exists (k, v).
Qed.

Section queries.
Context (d : db) (Hd : inv d).

Lemma live_at_iff k e : map_get k (ents d) = Some (Live e) ↔ live_at d e ∧ k = btob64 (e_eid e).
Proof.
  unfold live_at. split.
  - intros H. assert (k = btob64 (e_eid e)) as -> by (by apply (rows_key d Hd) in H). done.
  - by intros [H ->].
Qed.

Lemma scan_lists test : lists d (λ e, test e = true) (scan d test).
Proof.
  pose proof (rows_wf d Hd) as Hw. split.
  - unfold scan. apply (keyed_NoDup _ _ (λ e, btob64 (e_eid e))); [done|].
    intros k [e|t] b Hin; [|done]. case_match; [|done]. intros [= <-].
    apply map_get_in in Hin; [|done]. by apply live_at_iff in Hin as [_ ->].
  - intros e. unfold scan. rewrite list_elem_of_omap. split.
    + intros ([e'|t] & Hin & H); [|done]. case_match; [|done]. injection H as ->.
      apply elem_of_map_values in Hin as [k Hin]. apply map_get_in in Hin; [|done].
      by apply live_at_iff in Hin as [? _].
    + intros [Hl Ht]. exists (Live e). rewrite Ht. split; [|done].
      apply elem_of_map_values. exists (btob64 (e_eid e)). by apply map_get_Some_in.
Qed.

(** A bucket of an index lists the rows it stands for. *)
Lemma bucket_lists (b : bucket) P :
  map_wf b → (∀ k e, map_get k b = Some e ↔ map_get k (ents d) = Some (Live e) ∧ P e) →
  lists d P (map_values b).
Proof.
  intros Hw Hb. split.
  - rewrite <-(omap_Some_id (map_values b)).
    apply (keyed_NoDup _ _ (λ e, btob64 (e_eid e))); [done|].
    intros k e e' Hin [= <-]. apply map_get_in in Hin; [|done].
    apply Hb in Hin as [Hin _]. by apply live_at_iff in Hin as [_ ->].
  - intros e. rewrite elem_of_map_values. split.
    + intros [k Hin]. apply map_get_in in Hin; [|done]. apply Hb in Hin as [Hin HP].
      by apply live_at_iff in Hin as [? _].
    + intros [Hl HP]. exists (btob64 (e_eid e)). apply map_get_Some_in, Hb. by split.
Qed.

(** *** The nested loops of [byTagSpec] *)

Definition acc_ok (acc : list jsstr * list IEntity) : Prop :=
  NoDup acc.2 ∧ (∀ e, e ∈ acc.2 → live_at d e) ∧
  ∀ k, k ∈ acc.1 ↔ ∃ e, e ∈ acc.2 ∧ btob64 (e_eid e) = k.

Lemma collect_ok b acc :
  acc_ok acc → (∀ k e, (k, e) ∈ b → live_at d e ∧ k = btob64 (e_eid e)) →
  acc_ok (collect acc b) ∧ ∀ e, e ∈ (collect acc b).2 ↔ e ∈ acc.2 ∨ e ∈ map_values b.
Proof.
  revert acc. induction b as [|[k e] b IH]; intros [seen out] Ha Hb; cbn [collect fold_left].
  { split; [done|]. set_solver. }
  assert (Hb' : ∀ k e, (k, e) ∈ b → live_at d e ∧ k = btob64 (e_eid e))
    by (intros; apply Hb; by right).
  destruct (Hb k e ltac:(by left)) as [Hl ->]. destruct Ha as (Hn & Hlive & Hs).
  cbn [fst snd] in *. unfold set_has. case_bool_decide as Hin.
  - destruct (IH (seen, out)) as [H1 H2]; [by split_and!|done|]. split; [done|].
    intros x. rewrite H2. cbn. rewrite elem_of_cons.
    apply Hs in Hin as (e' & He' & Hk). apply Hlive in He' as Hl'.
    assert (e' = e) as -> by (unfold live_at in *; congruence). naive_solver.
  - destruct (IH (set_add (btob64 (e_eid e)) seen, out ++ [e])) as [H1 H2]; [|done|].
    + split_and!; cbn.
      * apply NoDup_app. split_and!; [done| |apply NoDup_singleton].
        intros x Hx ->%list_elem_of_singleton. apply Hin, Hs. eauto.
      * intros x [?| ->%list_elem_of_singleton]%elem_of_app; auto.
      * intros k. rewrite elem_of_set_add, Hs. set_solver.
    + split; [done|]. intros x. rewrite H2. cbn. set_solver.
Qed.

Definition tag_step (spec : TagSpec) (acc : list jsstr * list IEntity) (tb : jsstr * bucket) :=
  let '(tag, b) := tb in if tagMatches tag spec then collect acc b else acc.

Lemma tag_fold_ok spec (bt : jsmap jsstr bucket) acc :
  acc_ok acc →
  (∀ g b k e, (g, b) ∈ bt → (k, e) ∈ b → live_at d e ∧ k = btob64 (e_eid e)) →
  acc_ok (fold_left (tag_step spec) bt acc) ∧
  ∀ e, e ∈ (fold_left (tag_step spec) bt acc).2 ↔
    e ∈ acc.2 ∨ ∃ g b, (g, b) ∈ bt ∧ tagMatches g spec = true ∧ e ∈ map_values b.
Proof.
  revert acc. induction bt as [|[g b] bt IH]; intros acc Ha Hb; cbn [fold_left].
  { split; [done|]. set_solver. }
  assert (Hb' : ∀ g b k e, (g, b) ∈ bt → (k, e) ∈ b → live_at d e ∧ k = btob64 (e_eid e))
    by (intros; eapply Hb; [by right|done]).
  cbn [tag_step]. destruct (tagMatches g spec) eqn:E.
  - destruct (collect_ok b acc Ha) as [H1 H2]; [intros; eapply Hb; [by left|done]|].
    destruct (IH _ H1 Hb') as [H3 H4]. split; [done|]. intros e. rewrite H4, H2. split.
    + intros [[?|?]|(g' & b' & ? & ? & ?)]; [by left|right; exists g, b|right; exists g', b'];
        split_and!; try done; [by left|by right].
    + intros [?|(g' & b' & [[= -> ->]|?]%elem_of_cons & ? & ?)]; [tauto|tauto|right; eauto].
  - destruct (IH _ Ha Hb') as [H3 H4]. split; [done|]. intros e. rewrite H4. split.
    + intros [?|(g' & b' & ? & ? & ?)]; [by left|right; exists g', b'].
      split_and!; try done. by right.
    + intros [?|(g' & b' & [[= -> ->]|?]%elem_of_cons & ? & ?)]; [tauto|congruence|right; eauto].
Qed.
End queries.

(** ** Indexed queries are full scans *)

(** The test a query stands for. *)
Definition query_test (q : EntitiesQuery) (e : IEntity) : bool :=
  match q with
  | QType type => has_type type e
  | QPid type pid =>
      has_type type e && match e_pid e with Some p => bytesEqual p pid | None => false end
  | QTag type spec =>
      has_type type e &&
      match e_tags e with Some tags => existsb (λ t, tagMatches t spec) tags | None => false end
  | QDate type spec => has_type type e && dateMatches (e_updatedAt e) spec
  end.

(** Whether a query's spec can match at all, or is in error. *)
Definition query_may (q : EntitiesQuery) : Res bool :=
  match q with
  | QTag _ spec => tagSpecMayMatch spec
  | QDate _ spec => dateSpecMayMatch spec
  | _ => Ok true
  end.

Lemma has_type_true type e : has_type type e = true ↔ e_type e = type.
Proof. unfold has_type. by rewrite bool_decide_eq_true. Qed.

Lemma fullScan_eq d q :
  fullScan d q = (may ← query_may q; Ok (if negb may then [] else scan d (query_test q))).
Proof.
  destruct q; simpl; try done; [destruct (tagSpecMayMatch tag) as [[]| |]
    |destruct (dateSpecMayMatch updatedAt) as [[]| |]]; done.
Qed.

Section indexed.
Context (d : db) (Hd : inv d) (Hu : useIndex d = true).

Lemma idx : idx_ok d (ents d).
Proof. by apply (rows_idx d Hd). Qed.

Lemma type_bucket type : lists d (λ e, e_type e = type) (map_values (sub (byType d) type)).
Proof.
  destruct idx as [[[_ H] _ _] Ht _ _]. apply bucket_lists; [done|apply H|].
  intros k e. apply (Ht type k e).
Qed.

Lemma pid_bucket type pk :
  lists d (at_pid (type, pk)) (map_values (sub (sub (byTypePid d) type) pk)).
Proof.
  destruct idx as [[_ [_ H] _] _ Hp _]. apply bucket_lists; [done|apply H|].
  intros k e. apply (Hp (type, pk) k e).
Qed.

Lemma tag_bucket type tag :
  lists d (at_tag (type, tag)) (map_values (sub (sub (byTypeTag d) type) tag)).
Proof.
  destruct idx as [[_ _ [_ H]] _ _ Hp]. apply bucket_lists; [done|apply H|].
  intros k e. apply (Hp (type, tag) k e).
Qed.

Lemma bucketList_sub (m : jsmap jsstr bucket) t : bucketList (map_get t m) = map_values (sub m t).
Proof. unfold sub in *. by destruct (map_get t m). Qed.

Lemma bucketList_sub2 (m : index3 IEntity) t g :
  bucketList (b ← map_get t m; map_get g b) = map_values (sub (sub m t) g).
Proof. unfold sub at 2. destruct (map_get t m); simpl; [apply bucketList_sub|done]. Qed.

Lemma bytesEqual_pid type pid e :
  query_test (QPid type pid) e = true ↔ at_pid (type, btob64 pid) e.
Proof.
  unfold at_pid. cbn. rewrite andb_true_iff, has_type_true. f_equiv.
  destruct (e_pid e) as [p|]; [|done]. rewrite bytesEqual_spec. cbn. naive_solver.
Qed.

Lemma tag_query type spec l :
  lists d (λ e, e_type e = type ∧ ∃ g, g ∈ default [] (e_tags e) ∧ tagMatches g spec = true) l →
  lists d (λ e, query_test (QTag type spec) e = true) l.
Proof.
  apply lists_iff. intros e. cbn. rewrite andb_true_iff, has_type_true. f_equiv.
  destruct (e_tags e) as [tags|]; cbn; [|set_solver]. rewrite existsb_exists.
  by setoid_rewrite list_elem_of_In.
Qed.

Lemma tag_scan type spec :
  lists d (λ e, e_type e = type ∧ ∃ g, g ∈ default [] (e_tags e) ∧ tagMatches g spec = true)
    (fold_left (tag_step spec) (sub (byTypeTag d) type) ([], [])).2.
Proof.
  destruct idx as [[_ _ [_ H]] _ _ Hp].
  assert (Hb : ∀ g b, (g, b) ∈ sub (byTypeTag d) type → sub (sub (byTypeTag d) type) g = b).
  { intros g b Hin. unfold sub at 1. apply map_get_in in Hin; [by rewrite Hin|apply H]. }
  assert (Hv : ∀ g b k e, (g, b) ∈ sub (byTypeTag d) type → (k, e) ∈ b →
    (live_at d e ∧ k = btob64 (e_eid e)) ∧ at_tag (type, g) e).
  { intros g b k e Hg Hk. specialize (Hb g b Hg). subst b.
    apply map_get_in in Hk; [|apply H].
    apply (Hp (type, g) k e) in Hk as [Hk Ht]. split; [|done]. by apply live_at_iff. }
  destruct (tag_fold_ok d Hd spec (sub (byTypeTag d) type) ([], [])) as [(Hn & Hl & _) He].
  { split_and!; cbn; [constructor|set_solver|set_solver]. }
  { intros. by eapply Hv. }
  split; [exact Hn|]. intros e. rewrite He. cbn. split.
  - intros [?|(g & b & Hg & Hm & [k Hk]%elem_of_map_values)]; [set_solver|].
    destruct (Hv g b k e Hg Hk) as [[? _] [? ?]]. cbn in *. eauto.
  - intros (Hlive & Ht & g & Hg & Hm). right.
    destruct (tag_bucket type g) as [_ Hin]. specialize (proj2 (Hin e)) as Hin'.
    specialize (Hin' (conj Hlive (conj Ht Hg))).
    destruct (map_get g (sub (byTypeTag d) type)) as [b|] eqn:E.
    + exists g, b. split_and!; [by apply map_get_Some_in|done|].
      unfold sub at 1 in Hin'. by rewrite E in Hin'.
    + unfold sub at 1 in Hin'. rewrite E in Hin'. by apply not_elem_of_nil in Hin'.
Qed.

Lemma indexed_eq q :
  match query_may q with
  | Ok may => ∃ l, getAllEntities d q = Ok l ∧
                if may then lists d (λ e, query_test q e = true) l else l = []
  | Err s => getAllEntities d q = Err s
  | Throw => getAllEntities d q = Throw
  end.
Proof.
  unfold getAllEntities. rewrite Hu. destruct q as [type|type pid|type spec|type spec]; cbn [query_may].
  - rewrite bucketList_sub. eexists. split; [done|].
    eapply lists_iff; [|apply type_bucket]. intros e. by rewrite <-has_type_true.
  - rewrite bucketList_sub2. eexists. split; [done|].
    eapply lists_iff; [|apply pid_bucket]. intros e. by rewrite bytesEqual_pid.
  - unfold byTagSpec. destruct (tagSpecMayMatch spec) as [[]| |]; simpl; try done; [|eauto].
    destruct spec as [t|r|p].
    + rewrite bucketList_sub2. eexists. split; [done|]. apply tag_query.
      eapply lists_iff; [|apply tag_bucket]. intros e. unfold at_tag. cbn. f_equiv.
      setoid_rewrite bool_decide_eq_true. naive_solver.
    + pose proof (tag_query _ _ _ (tag_scan type (TagRange r))) as H. unfold sub in H.
      destruct (map_get type (byTypeTag d)); eauto.
    + pose proof (tag_query _ _ _ (tag_scan type (TagPrefix p))) as H. unfold sub in H.
      destruct (map_get type (byTypeTag d)); eauto.
  - unfold byDateSpec. destruct (dateSpecMayMatch spec) as [[]| |]; simpl; try done; [|eauto].
    assert (H : lists d (λ e, query_test (QDate type spec) e = true)
      (filter (λ e, dateMatches (e_updatedAt e) spec = true) (map_values (sub (byType d) type)))).
    { destruct (type_bucket type) as [H1 H2]. split; [by apply NoDup_filter|].
      intros e. rewrite list_elem_of_filter, H2. cbn. rewrite andb_true_iff, has_type_true. tauto. }
    unfold sub in *. destruct (map_get type (byType d)); (eexists; split; [reflexivity|exact H]).
Qed.

(** Same answer, up to order. *)
Definition same_answer (r r' : Res (list IEntity)) : Prop :=
  match r, r' with
  | Ok l, Ok l' => l ≡ₚ l'
  | Err s, Err s' => s = s'
  | Throw, Throw => True
  | _, _ => False
  end.

Lemma indexed_fullScan q : same_answer (getAllEntities d q) (fullScan d q).
Proof.
  pose proof (indexed_eq q) as H. rewrite fullScan_eq.
  destruct (query_may q) as [may|s|]; simpl.
  - destruct H as (l & -> & H). simpl. destruct may; [|by subst].
    eapply lists_perm; [exact H|by apply scan_lists].
  - by rewrite H.
  - by rewrite H.
Qed.

Lemma count_fullScan type : countEntities d type = Z.of_nat (length (scan d (has_type type))).
Proof.
  unfold countEntities. rewrite Hu. f_equal.
  transitivity (length (map_values (sub (byType d) type))).
  { unfold map_values. by rewrite length_fmap. }
  apply Permutation_length. eapply lists_perm; [apply type_bucket|].
  eapply lists_iff; [|by apply scan_lists]. intros e. apply has_type_true.
Qed.
End indexed.

(** * What [apply] leaves in the database

    One row after a sequence of ops is a fold over the ops on its entity
    ([apply_row]); with the theory of [EntDB] that is the last writer. *)

Lemma applyOp_no_throw curr op : applyOp curr op ≠ Throw.
Proof.
  unfold applyOp. pose proof (proj2 eid_total) as Ht.
  destruct (run_dec (readStruct eidCodec) (op_eid (op_head op))) as [e|s|] eqn:E; simpl.
  - by repeat case_match.
  - done.
  - exfalso. eapply (Ht (newDecoder (op_eid (op_head op)))); [|exact E]. unfold dec_wf; cbn. pose proof (blen_nonneg (op_eid (op_head op))). lia.
Qed.

Lemma applyOp_stored curr op next : applyOp curr op = Ok next → stored next = next.
Proof.
  unfold applyOp. destruct (run_dec _ _) as [e| |]; [|done..]. simpl.
  case_match; [done|]. intros [= <-]. unfold op_row. by destruct (op_mut op).
Qed.

Lemma applyOp_eid curr op next : applyOp curr op = Ok next → row_eid next = op_eid (op_head op).
Proof.
  unfold applyOp. destruct (run_dec _ _) as [e| |]; [|done..]. simpl.
  case_match; [done|]. intros [= <-]. unfold op_row. by destruct (op_mut op).
Qed.

(** The ops of a list on one entity key. *)
Definition op_key (op : IOp) : jsstr := btob64 (op_eid (op_head op)).
Definition ops_at (k : jsstr) (ops : list IOp) : list IOp := filter (λ op, op_key op = k) ops.

Lemma apply_loop_row d out ops k :
  map_get k (ents (apply_loop d out ops).1) = fold_left step_row (ops_at k ops) (map_get k (ents d)).
Proof.
  revert d out. induction ops as [|op ops IH]; intros d out; [done|]. cbn [apply_loop].
  unfold ops_at. rewrite filter_cons. fold (op_key op).
  destruct (applyOp (map_get (op_key op) (ents d)) op) as [next|s|] eqn:E.
  - rewrite IH, put_ents, (applyOp_stored _ _ _ E), (applyOp_eid _ _ _ E), map_get_set.
    fold (op_key op). destruct (decide (op_key op = k)) as [<-|Hne].
    + rewrite decide_True by done. cbn [fold_left]. unfold step_row at 3. by rewrite E.
    + by rewrite decide_False by congruence.
  - rewrite IH. case_decide as Hk; [|done]. subst. cbn [fold_left].
    unfold step_row at 3. by rewrite E.
  - by apply applyOp_no_throw in E.
Qed.

Lemma apply_row d ops k :
  map_get k (ents (apply d ops).1) = fold_left step_row (ops_at k ops) (map_get k (ents d)).
Proof. apply apply_loop_row. Qed.

Lemma apply_loop_use d out ops : useIndex (apply_loop d out ops).1 = useIndex d.
Proof.
  revert d out. induction ops as [|op ops IH]; intros d out; [done|]. cbn [apply_loop].
  destruct (applyOp _ op); rewrite ?IH, ?put_use; done.
Qed.

(** The statuses: one per op, each the outcome of that op on the row the ops
    before it left. *)
Fixpoint op_stats (d : db) (ops : list IOp) : list Status :=
  match ops with
  | [] => []
  | op :: ops =>
      match applyOp (map_get (op_key op) (ents d)) op with
      | Ok next => Success :: op_stats (put d next) ops
      | Err s => s :: op_stats d ops
      | Throw => []
      end
  end.

Lemma apply_loop_stats d out ops :
  ∃ out', (apply_loop d out ops).2 = Ok out' ∧ stats out' = stats out ++ op_stats d ops.
Proof.
  revert d out. induction ops as [|op ops IH]; intros d out; cbn [apply_loop op_stats].
  { exists out. by rewrite app_nil_r. }
  fold (op_key op). destruct (applyOp _ op) as [next|s|] eqn:E.
  - edestruct IH as (out' & -> & Hs). exists out'. rewrite Hs. cbn. by rewrite <-(assoc_L app).
  - edestruct IH as (out' & -> & Hs). exists out'. rewrite Hs. cbn. by rewrite <-(assoc_L app).
  - by apply applyOp_no_throw in E.
Qed.

Lemma apply_stats d ops : ∃ out, (apply d ops).2 = Ok out ∧ stats out = op_stats d ops.
Proof. destruct (apply_loop_stats d (mkApplied [] [] []) ops) as (out & H1 & H2). eauto. Qed.

Lemma op_stats_length d ops : length (op_stats d ops) = length ops.
Proof.
  revert d. induction ops as [|op ops IH]; intros d; [done|]. cbn [op_stats length].
  destruct (applyOp _ op) eqn:E; cbn; [by rewrite IH..|]. by apply applyOp_no_throw in E.
Qed.

(** ** Rows with a valid time *)

Definition row_dated (d : db) (k : jsstr) : Prop :=
  ∀ r, map_get k (ents d) = Some r → is_Some (row_updatedAt r).

(** The row the last of the writers leaves against a current row. *)
Definition winner (curr : option IEntRow) (ops : list IOp) : option IEntRow :=
  match latest ops with
  | None => curr
  | Some op =>
      match curr with
      | Some r => if fle (Some (op_ms op)) (row_updatedAt r) then curr else Some (row_of op)
      | None => Some (row_of op)
      end
  end.

Lemma ops_at_ok k ops : Forall op_ok ops → Forall op_ok (ops_at k ops).
Proof. rewrite !Forall_forall. intros H op Hop%list_elem_of_filter. naive_solver. Qed.

Lemma apply_winner d ops k :
  Forall op_ok ops → row_dated d k →
  map_get k (ents (apply d ops).1) = winner (map_get k (ents d)) (ops_at k ops).
Proof.
  intros Hok Hr. rewrite apply_row, fold_rows by (done || by apply ops_at_ok). done.
Qed.

Lemma winner_perm curr ops ops' :
  distinct_times ops → ops ≡ₚ ops' → winner curr ops = winner curr ops'.
Proof. intros Hd Hp. unfold winner. by rewrite (latest_perm _ _ Hd Hp). Qed.

Lemma ops_at_perm k ops ops' : ops ≡ₚ ops' → ops_at k ops ≡ₚ ops_at k ops'.
Proof. intros H. unfold ops_at. by rewrite H. Qed.

(** Two databases with the same rows answer alike. *)
Definition same_rows (d d' : db) : Prop := ∀ k, map_get k (ents d) = map_get k (ents d').

Lemma same_rows_perm d d' :
  inv d → inv d' → same_rows d d' → map_values (ents d) ≡ₚ map_values (ents d').
Proof.
  intros [Hw _ _] [Hw' _ _] H. unfold map_values. f_equiv.
  apply NoDup_Permutation; [by eapply NoDup_fmap_1..|].
  intros [k r]. by rewrite <-!map_get_elem, H.
Qed.

Lemma scan_perm d d' test :
  map_values (ents d) ≡ₚ map_values (ents d') → scan d test ≡ₚ scan d' test.
Proof. intros H. unfold scan. by rewrite H. Qed.

Lemma fullScan_same d d' q :
  map_values (ents d) ≡ₚ map_values (ents d') → same_answer (fullScan d q) (fullScan d' q).
Proof.
  intros H. rewrite !fullScan_eq. destruct (query_may q) as [[]| |]; simpl; [|done..].
  by apply scan_perm.
Qed.

Lemma same_answer_trans r1 r2 r3 : same_answer r1 r2 → same_answer r2 r3 → same_answer r1 r3.
Proof. destruct r1, r2, r3; simpl; try done; [by intros -> ->|by intros -> ->]. Qed.
Lemma same_answer_sym r1 r2 : same_answer r1 r2 → same_answer r2 r1.
Proof. by destruct r1, r2; simpl. Qed.

Lemma query_fullScan d q : inv d → same_answer (getEntities d q) (fullScan d q).
Proof.
  intros Hd. assert (getEntities d q = getAllEntities d q) as ->.
  { unfold getEntities. by destruct (getAllEntities d q). }
  destruct (useIndex d) eqn:Hu; [by apply indexed_fullScan|].
  unfold getAllEntities. rewrite Hu. by destruct (fullScan d q); simpl.
Qed.

Lemma same_rows_query d d' q :
  inv d → inv d' → same_rows d d' → same_answer (getEntities d q) (getEntities d' q).
Proof.
  intros H1 H2 H. eapply same_answer_trans; [by apply query_fullScan|].
  eapply same_answer_trans; [|apply same_answer_sym; by apply query_fullScan].
  by apply fullScan_same, same_rows_perm.
Qed.

Section checksum.
Context {C : CryptoPrims}.

Lemma checksum_perm d d' h :
  map_values (ents d) ≡ₚ map_values (ents d') → checksum d = Ok h → checksum d' = Ok h.
Proof.
  intros Hp. unfold checksum, checksumEntRevs.
  intros (recs & Hr & [= <-])%res_bind_Ok_inv.
  destruct (res_mapM_perm encodeEntRev (revFromEntity <$> map_values (ents d))
    (revFromEntity <$> map_values (ents d')) recs) as (recs' & -> & Hp').
  { by apply Permutation_map. } { done. }
  simpl. unfold checksumSet. by rewrite (preimage_perm _ _ Hp').
Qed.
End checksum.

(** ** Errors of the id decoder are errors *)

Definition err_real {A} (m : DecM A) : Prop := ∀ d, (m d).1 ≠ Err Success.

Lemma err_real_bind {A B} (m : DecM A) (k : A → DecM B) :
  err_real m → (∀ a, err_real (k a)) → err_real (m ≫= k).
Proof.
  intros Hm Hk d. unfold mbind, M_bind, m_bind. specialize (Hm d).
  destruct (m d) as [[a|s|] d']; simpl in *; [apply Hk|congruence|done].
Qed.

Lemma err_real_varint : err_real readVarInt.
Proof.
  intros d. unfold readVarInt, VarInt.decodeVarInt.
  assert (H : ∀ fuel bs o r sh i, VarInt.decode_loop fuel bs o r sh i ≠ Err Success).
  { induction fuel as [|fuel IH]; intros; cbn [VarInt.decode_loop]; [done|].
    repeat case_match; done || apply IH. }
  specialize (H 8%nat (data d) (pos d) 0 0 (pos d)).
  destruct (VarInt.decode_loop _ _ _ _ _ _) as [[]| |]; cbn; congruence.
Qed.

Lemma err_real_bytes n : err_real (readBytes n).
Proof. intros d. unfold readBytes. by repeat case_match. Qed.

Lemma eid_no_success bs : run_dec (readStruct eidCodec) bs ≠ Err Success.
Proof.
  unfold run_dec. apply err_real_bind; [|intros id; apply err_real_bind; [|by intros ? ?]].
  - apply err_real_bind; [apply err_real_varint|]. intros n. apply err_real_bytes.
  - apply err_real_bind; [apply err_real_varint|]. by intros ? ?.
Qed.

(** ** Changed types and applied ids *)

Lemma fold_set_add_in (ts ns : list jsstr) t :
  t ∈ fold_left (λ ts t, set_add t ts) ns ts ↔ t ∈ ts ∨ t ∈ ns.
Proof.
  revert ts. induction ns as [|x ns IH]; intros ts; cbn [fold_left]; [set_solver|].
  rewrite IH, elem_of_set_add. set_solver.
Qed.

Lemma typesChanged_in curr next e :
  curr = Some (Live e) ∨ next = Live e → e_type e ∈ typesChanged curr next.
Proof.
  unfold typesChanged. intros [->| ->].
  - destruct next; rewrite ?elem_of_set_add; set_solver.
  - rewrite elem_of_set_add. by left.
Qed.

Lemma apply_loop_types d out ops d' out' :
  apply_loop d out ops = (d', Ok out') →
  types out ⊆ types out' ∧
  ∀ k e, e_type e ∉ types out' →
    map_get k (ents d') = Some (Live e) ↔ map_get k (ents d) = Some (Live e).
Proof.
  revert d out. induction ops as [|op ops IH]; intros d out; cbn [apply_loop].
  { intros [= <- <-]. by split. }
  fold (op_key op). destruct (applyOp _ op) as [next|s|] eqn:E; intros H; [|by apply IH in H|done].
  apply IH in H as [Hsub Hrow]. cbn [types] in Hsub.
  assert (Hin : ∀ t, t ∈ types out ∨ t ∈ typesChanged (map_get (op_key op) (ents d)) next → t ∈ types out').
  { intros t Ht. apply Hsub, fold_set_add_in, Ht. }
  split; [intros t Ht; apply Hin; by left|].
  intros k e Hni. rewrite (Hrow k e Hni).
  rewrite put_ents, (applyOp_stored _ _ _ E), (applyOp_eid _ _ _ E), map_get_set.
  fold (op_key op). case_decide as Hk; [subst k|done]. split; intros H; exfalso; apply Hni, Hin; right;
    apply typesChanged_in; [right|by left]. by injection H as ->.
Qed.

(** The ids of the ops that were applied. *)
Definition applied_eids (ops : list IOp) (sts : list Status) : list bytes :=
  omap (λ '(op, st), if decide (st = Success) then Some (op_eid (op_head op)) else None) (zip ops sts).

Lemma applyOp_err_ne curr op s : applyOp curr op = Err s → s ≠ Success.
Proof.
  unfold applyOp. destruct (run_dec _ _) as [e|s'|] eqn:E; simpl; [by case_match; intros [= <-]| |done].
  intros [= <-] ->. by apply eid_no_success in E.
Qed.

Lemma apply_loop_eids d out ops d' out' :
  apply_loop d out ops = (d', Ok out') → eids out' = eids out ++ applied_eids ops (op_stats d ops).
Proof.
  revert d out. induction ops as [|op ops IH]; intros d out; cbn [apply_loop op_stats].
  { intros [= <- <-]. by rewrite app_nil_r. }
  fold (op_key op). destruct (applyOp _ op) as [next|s|] eqn:E; [| |done].
  - intros ->%IH. cbn. by rewrite <-(assoc_L app).
  - intros ->%IH. unfold applied_eids. cbn. apply applyOp_err_ne in E. by rewrite decide_False.
Qed.
