(* ===== verification/EntProps.v ===== *)
(** * Properties of the entity database

    Indexed queries against full scans, last writer wins, order independence
    and redelivery, checksums of two replicas, and where the rule breaks:
    equal times and times that are no date. *)
From S2P Require Import EntMemFacts.
Import EntDBMemory Toy.

(** ** Histories of a database *)

Inductive dbop :=
| OpPut (row : IEntRow)
| OpDel (key : jsstr)
| OpClear
| OpApply (ops : list IOp).

Definition run_dbop (d : db) (o : dbop) : db :=
  match o with
  | OpPut row => put d row
  | OpDel key => del d key
  | OpClear => clear d
  | OpApply ops => (apply d ops).1
  end.

Lemma history_inv history d : inv d → inv (fold_left run_dbop history d).
Proof.
  revert d. induction history as [|o os IH]; intros d Hd; [done|]. apply IH.
  destruct o; [by apply put_inv|by apply del_inv|apply clear_inv|by apply apply_inv].
Qed.

(** [C31] After any history of puts, deletes, clears and applied ops, with or
    without indexes, [getEntities] answers what a scan of all live rows
    answers: the same entities, each once, or the same error, for type,
    parent, tag (exact, range, prefix) and date queries; [countEntities]
    counts the rows of the type. *)
Theorem indexed_queries_match_scan init indexed history q type :
  let d := fold_left run_dbop history (make init indexed) in
  same_answer (getEntities d q) (fullScan d q) ∧
  countEntities d type = Z.of_nat (length (scan d (has_type type))).
Proof.
  intros d. assert (Hd : inv d) by apply history_inv, make_inv. split; [by apply query_fullScan|].
  destruct (useIndex d) eqn:Hu; [by apply count_fullScan|]. unfold countEntities. by rewrite Hu.
Qed.

(** ** Last writer wins *)

Lemma ops_at_eid eid ops op : op ∈ ops_at (btob64 eid) ops ↔ op ∈ ops ∧ op_eid (op_head op) = eid.
Proof.
  unfold ops_at, op_key. rewrite list_elem_of_filter. split.
  - intros [H%(inj btob64) ?]. done.
  - intros [? <-]. done.
Qed.

(** [C4] Last writer wins: of the ops on an entity, the one with the strictly
    latest time, if it is also later than the stored row, is what [apply]
    leaves in the row, wherever it stands among the ops; a delete leaves a
    tombstone.  Ops none of which is later than the stored row leave it as
    it was. *)
Theorem apply_last_writer_wins d ops eid :
  Forall op_ok ops →
  (∀ r, getRow d eid = Some r → is_Some (row_updatedAt r)) →
  (∀ op, op ∈ ops → op_eid (op_head op) = eid →
    (∀ o, o ∈ ops → op_eid (op_head o) = eid → o ≠ op → op_ms o < op_ms op) →
    (∀ r t, getRow d eid = Some r → row_updatedAt r = Some t → t < op_ms op) →
    getRow (apply d ops).1 eid = Some (row_of op)) ∧
  (∀ r t, getRow d eid = Some r → row_updatedAt r = Some t →
    (∀ o, o ∈ ops → op_eid (op_head o) = eid → op_ms o <= t) →
    getRow (apply d ops).1 eid = Some r).
Proof.
  intros Hok Hr. unfold getRow in *. rewrite apply_winner by done. unfold winner.
  set (l := ops_at (btob64 eid) ops). split.
  - intros op Hin He Hmax Hcur. destruct (latest l) as [b|] eqn:E.
    + assert (b = op) as ->.
      { pose proof (latest_in _ _ E) as [Hb Hbe]%ops_at_eid.
        destruct (decide (b = op)) as [|Hne]; [done|]. specialize (Hmax b Hb Hbe Hne).
        pose proof (latest_max l b op E (proj2 (ops_at_eid _ _ _) (conj Hin He))). lia. }
      destruct (map_get _ _) as [r|]; [|done]. destruct (Hr r eq_refl) as [t Ht].
      specialize (Hcur r t eq_refl Ht). rewrite Ht. cbn.
      by rewrite (proj2 (Z.leb_gt _ _)) by lia.
    + apply latest_None in E. assert (op ∈ l) as H by by apply ops_at_eid.
      rewrite E in H. by apply not_elem_of_nil in H.
  - intros r t Hg Ht Hle. rewrite Hg. destruct (latest l) as [b|] eqn:E; [|done].
    pose proof (latest_in _ _ E) as [Hb Hbe]%ops_at_eid. rewrite Ht. cbn.
    by rewrite (proj2 (Z.leb_le _ _)) by auto.
Qed.

(** ** Order and redelivery *)

(** Ops on one entity never share a time unless they are the same op. *)
Definition no_ties (ops : list IOp) : Prop :=
  ∀ o1 o2, o1 ∈ ops → o2 ∈ ops → op_eid (op_head o1) = op_eid (op_head o2) →
    op_ms o1 = op_ms o2 → o1 = o2.

Lemma no_ties_at k ops : no_ties ops → distinct_times (ops_at k ops).
Proof.
  intros H o1 o2 [H1 ?]%list_elem_of_filter [H2 ?]%list_elem_of_filter ?.
  apply H; [done|done| |done]. unfold op_key in *. apply (inj btob64). congruence.
Qed.

Lemma apply_same_rows d ops ops' :
  Forall op_ok ops → (∀ k, row_dated d k) → no_ties ops → ops ≡ₚ ops' →
  same_rows (apply d ops).1 (apply d ops').1.
Proof.
  intros Hok Hr Ht Hp k. rewrite !apply_winner; [|by rewrite <-Hp|done..].
  apply winner_perm; [by apply no_ties_at|by apply ops_at_perm].
Qed.

(** [C5] Convergence: two replicas that start from the same database and
    apply the same ops in different orders end with the same rows, answer
    every query alike and have the same checksum, provided no two ops on one
    entity share a time. *)
Theorem apply_converges `{CryptoPrims} d ops ops' :
  inv d → (∀ k, row_dated d k) → Forall op_ok ops → no_ties ops → ops ≡ₚ ops' →
  let d1 := (apply d ops).1 in let d2 := (apply d ops').1 in
  (∀ eid, getRow d1 eid = getRow d2 eid) ∧
  (∀ q, same_answer (getEntities d1 q) (getEntities d2 q)) ∧
  (∀ h, checksum d1 = Ok h ↔ checksum d2 = Ok h).
Proof.
  intros Hd Hr Hok Ht Hp d1 d2. pose proof (apply_same_rows d ops ops' Hok Hr Ht Hp) as Hs.
  assert (inv d1) by by apply apply_inv. assert (inv d2) by by apply apply_inv.
  assert (Hv : map_values (ents d1) ≡ₚ map_values (ents d2)) by by apply same_rows_perm.
  split_and!; [intros eid; apply Hs|intros q; by apply same_rows_query|].
  intros h. split; apply checksum_perm; [done|by symmetry].
Qed.

Lemma row_after d ops op :
  Forall op_ok ops → (∀ k, row_dated d k) → op ∈ ops →
  ∃ r t, map_get (op_key op) (ents (apply d ops).1) = Some r ∧
         row_updatedAt r = Some t ∧ op_ms op <= t.
Proof.
  intros Hok Hr Hin. rewrite apply_winner by done. unfold winner.
  assert (Hat : op ∈ ops_at (op_key op) ops) by by apply list_elem_of_filter.
  destruct (latest (ops_at (op_key op) ops)) as [b|] eqn:E.
  - pose proof (latest_max _ _ _ E Hat) as Hle.
    pose proof (latest_in _ _ E) as [_ Hb]%list_elem_of_filter.
    assert (op_ok b) as Hbok by (by eapply Forall_forall in Hok).
    pose proof (row_of_time b Hbok) as Hbt.
    destruct (map_get _ _) as [r|] eqn:Er; [|by exists (row_of b), (op_ms b)].
    destruct (Hr _ r Er) as [t Htr]. rewrite Htr. cbn. destruct (Z.leb_spec (op_ms b) t).
    + exists r, t. split_and!; [done|done|lia].
    + by exists (row_of b), (op_ms b).
  - apply latest_None in E. rewrite E in Hat. by apply not_elem_of_nil in Hat.
Qed.

Lemma apply_loop_stale d out ops :
  (∀ op, op ∈ ops → op_ok op ∧ ∃ r t, map_get (op_key op) (ents d) = Some r ∧
    row_updatedAt r = Some t ∧ op_ms op <= t) →
  apply_loop d out ops =
    (d, Ok (mkApplied (stats out ++ ((λ _, NoChange) <$> ops)) (types out) (eids out))).
Proof.
  revert out. induction ops as [|op ops IH]; intros out H; cbn [apply_loop].
  { destruct out. cbn. by rewrite app_nil_r. }
  destruct (H op ltac:(by left)) as (Hok & r & t & Hg & Ht & Hle).
  fold (op_key op). rewrite Hg, (applyOp_ok _ _ Hok), Ht. cbn [fle].
  rewrite (proj2 (Z.leb_le _ _)) by done.
  rewrite IH by (intros; apply H; by right). cbn. by rewrite <-(assoc_L app).
Qed.

(** Redelivery: once a database has applied some ops, applying any of
    them again, in any order and any number of times, changes nothing and
    reports [NoChange] for each. *)
Theorem apply_redelivery d ops again :
  (∀ k, row_dated d k) → Forall op_ok ops → again ⊆ ops →
  apply (apply d ops).1 again =
    ((apply d ops).1, Ok (mkApplied ((λ _, NoChange) <$> again) [] [])).
Proof.
  intros Hr Hok Hsub. unfold apply at 1. rewrite apply_loop_stale; [done|].
  intros op Hin%Hsub. split; [by eapply Forall_forall in Hok|by apply row_after].
Qed.

(** ** Where last-writer-wins breaks *)

(** An op whose time is no date (the id's time plus the offset leaves
    the range of [Date]) is never obsolete, whatever the row holds, and the
    row it leaves is overwritten by any op on the entity, however old. *)
Theorem invalid_time_breaks_lww ts op id :
  run_dec (readStruct eidCodec) (op_eid (op_head op)) = Ok (mkIEntityID id ts) →
  op_time ts op = None →
  (∀ curr, applyOp curr op = Ok (op_row ts op)) ∧
  (∀ op' id' ts', run_dec (readStruct eidCodec) (op_eid (op_head op')) = Ok (mkIEntityID id' ts') →
    applyOp (Some (op_row ts op)) op' = Ok (op_row ts' op')).
Proof.
  intros He Ht. split.
  - intros curr. unfold applyOp. rewrite He. simpl. rewrite Ht. by destruct curr.
  - intros op' id' ts' He'. unfold applyOp. rewrite He'. simpl.
    assert (row_updatedAt (op_row ts op) = None) as ->.
    { unfold op_row. by destruct (op_mut op). }
    simpl. by destruct (op_time ts' op').
Qed.

(** ** Checksums of two replicas *)

(** Equal checksums mean equal revisions: two databases with the same
    checksum hold the same revisions (id, counter and time of every row,
    tombstones included), or the bytes hashed are a collision of the hash. *)
Theorem checksum_compares_revisions `{CryptoPrims} d d' h :
  let revs d := revFromEntity <$> map_values (ents d) in
  Forall rev_ok (revs d) → Forall rev_ok (revs d') →
  checksum d = Ok h → checksum d' = Ok h →
  revs d ≡ₚ revs d' ∨
  let pre d := checksum_preimage (rev_wire <$> revs d) in
  pre d ≠ pre d' ∧ blake3hash (pre d) = blake3hash (pre d').
Proof.
  intros revs H1 H2. unfold checksum, checksumEntRevs. fold (revs d) (revs d').
  rewrite !encode_revs by done. simpl. unfold checksumSet. intros [= <-] [= Hh].
  destruct (decide (checksum_preimage (rev_wire <$> revs d) = checksum_preimage (rev_wire <$> revs d')))
    as [He|Hne]; [left; by apply preimage_inj|right; by split].
Qed.

(** ** Concrete databases *)

Module Sample.
Definition eid (n : Byte.byte) (ms : Z) : bytes :=
  match run_enc (writeStruct eidCodec (mkIEntityID [n; x00; x00; x00; x00; x00; x00; x07] (Some ms))) with
  | Ok bs => bs
  | _ => []
  end.

Definition note (e : bytes) (off : Z) (tags : list jsstr) (body : bytes) : IOp :=
  mkOp (mkOpHead e (Some off) 1) (Some (mkMutate (js "note") None (Some tags) (Some body))).
Definition delete (e : bytes) (off : Z) : IOp := mkOp (mkOpHead e (Some off) 2) None.

Definition a : bytes := eid x01 1000.
Definition b : bytes := eid x02 2000.

Definition ops : list IOp :=
  [note a 0 [js "x"; js "y"] [x0a]; note b 0 [js "x"] [x0b]; note a 5 [js "y"] [x0c]; delete b 9].
Definition empty : db := make [] true.
Definition full : db := (apply empty ops).1.
End Sample.
Import Sample.

Example sample_query :
  getEntities full (QTag (js "note") (TagExact (js "y"))) =
    Ok [mkEntity a None (Some [js "y"]) (js "note") (Some 1000) (Some 1005) 1 (Some [x0c]) None].
Proof. vm_compute. reflexivity. Qed.

Lemma sample_ok : Forall op_ok ops.
Proof. by apply (bool_decide_unpack _). Qed.

Lemma sample_no_ties : no_ties ops.
Proof.
  assert (H : Forall (λ o1, Forall (λ o2, op_eid (op_head o1) = op_eid (op_head o2) →
    op_ms o1 = op_ms o2 → o1 = o2) ops) ops) by (by apply (bool_decide_unpack _)).
  intros o1 o2 H1 H2. eapply Forall_forall in H; [|exact H1]. by eapply Forall_forall in H.
Qed.

Lemma empty_dated k : row_dated empty k.
Proof. by intros r. Qed.

Lemma sample_latest o :
  o ∈ ops → op_eid (op_head o) = a → o ≠ note a 5 [js "y"] [x0c] → op_ms o < 1005.
Proof.
  assert (H : Forall (λ o, op_eid (op_head o) = a → o ≠ note a 5 [js "y"] [x0c] → op_ms o < 1005) ops)
    by (by apply (bool_decide_unpack _)).
  intros Ho. by eapply Forall_forall in H.
Qed.

Lemma apply_last_writer_wins_witness :
  getRow full a = Some (row_of (note a 5 [js "y"] [x0c])).
Proof.
  apply (apply_last_writer_wins empty ops a sample_ok (λ r, empty_dated _ r)).
  - right. right. left.
  - reflexivity.
  - intros o Ho He Hne. apply (Z.lt_le_trans _ 1005); [by apply sample_latest|by vm_compute].
  - intros r t H. discriminate H.
Defined.

Lemma apply_converges_witness :
  let d2 := (apply empty (reverse ops)).1 in
  (∀ eid, getRow full eid = getRow d2 eid) ∧
  (∀ q, same_answer (getEntities full q) (getEntities d2 q)) ∧
  (∀ h, checksum full = Ok h ↔ checksum d2 = Ok h).
Proof.
  apply (apply_converges empty ops (reverse ops) (make_inv _ _) empty_dated sample_ok sample_no_ties).
  symmetry. apply reverse_Permutation.
Defined.

Lemma apply_redelivery_witness :
  apply full [delete b 9; note a 0 [js "x"; js "y"] [x0a]] =
    (full, Ok (mkApplied [NoChange; NoChange] [] [])).
Proof.
  assert (H : Forall (λ o, o ∈ ops) [delete b 9; note a 0 [js "x"; js "y"] [x0a]])
    by (by apply (bool_decide_unpack _)).
  refine (apply_redelivery empty ops [delete b 9; note a 0 [js "x"; js "y"] [x0a]]
    empty_dated sample_ok _).
  intros o Ho. by eapply Forall_forall in H.
Defined.

(** On equal times the first op to arrive stays: two replicas that
    receive the same two ops in opposite orders keep different rows, so the
    condition of convergence on ties is needed. *)
Theorem ties_do_not_converge :
  let o1 := note a 0 [js "x"] [x0a] in let o2 := note a 0 [js "x"] [x0b] in
  getRow (apply empty [o1; o2]).1 a ≠ getRow (apply empty [o2; o1]).1 a ∧
  checksum (apply empty [o1; o2]).1 = checksum (apply empty [o2; o1]).1.
Proof. vm_compute. split; [discriminate|reflexivity]. Qed.

(** An id at the last date, and an op one millisecond after it. *)
Lemma invalid_time_breaks_lww_witness :
  let late := note (eid x01 maxDate) 1 [] [x0a] in
  applyOp (Some (op_row (Some maxDate) late)) (note (eid x01 maxDate) 0 [] [x0b]) =
    Ok (op_row (Some maxDate) (note (eid x01 maxDate) 0 [] [x0b])).
Proof.
  intros late.
  eapply (proj2 (invalid_time_breaks_lww (Some maxDate) late
    [x01; x00; x00; x00; x00; x00; x00; x07] ltac:(vm_compute; reflexivity) ltac:(vm_compute; reflexivity))).
  vm_compute. reflexivity.
Defined.

(** A test for [rev_ok] that evaluates. *)
Definition rev_test (r : IEntRev) : bool :=
  bool_decide (bytes_ok (rev_eid r)) && (0 <=? rev_ctr r) && (rev_ctr r <=? maxSafe) &&
  match rev_updatedAt r with Some t => (0 <=? t) && (t <=? maxDate) | None => false end.

Lemma rev_test_ok rs : forallb rev_test rs = true → Forall rev_ok rs.
Proof.
  rewrite forallb_forall, Forall_forall. intros H r Hr%list_elem_of_In%H.
  unfold rev_test in Hr. destruct r as [e c [t|]]; cbn in Hr; [|by rewrite andb_false_r in Hr].
  rewrite !andb_true_iff, bool_decide_eq_true, !Z.leb_le in Hr.
  destruct Hr as [[[? ?] ?] [? ?]].
  split; [done|]. split; [by exists t|]. by apply varnum_ok_safe.
Qed.

Lemma checksum_compares_revisions_witness :
  let revs d := revFromEntity <$> map_values (ents d) in
  let d2 := (apply empty (reverse ops)).1 in
  revs full ≡ₚ revs d2 ∨
  let pre d := checksum_preimage (rev_wire <$> revs d) in
  pre full ≠ pre d2 ∧ blake3hash (pre full) = blake3hash (pre d2).
Proof.
  intros revs d2.
  apply (checksum_compares_revisions full d2 (match checksum full with Ok h => h | _ => [] end)).
  - by apply rev_test_ok.
  - by apply rev_test_ok.
  - vm_compute. reflexivity.
  - vm_compute. reflexivity.
Defined.
