(* ===== verification/Batch.v ===== *)
(** * Batches, recency order and progress ticks

    [web/src/batch.ts] (request batches under a soft byte budget),
    [web/src/hlc.ts] (newest-first order of message heads) and the tick test
    of [web/src/progress.ts]. *)
From S2P Require Export Bag.
From stdpp Require Import sorting.
From S2P Require Export Js.

(** ** [batchByBytes] *)

Section batch.
Context {T : Type} (sizeOf : T → Z) (limit : Z).

Definition size_sum (b : list T) : Z := foldr (λ x n, sizeOf x + n) 0 b.

(** The loop with its three variables; the flush before an item, the flush
    after it, and the last partial batch. *)
Fixpoint batch_loop (items : list T) (batches : list (list T)) (batch : list T) (bytes : Z)
    : list (list T) :=
  match items with
  | [] => if Nat.eqb (length batch) 0 then batches else batches ++ [batch]
  | item :: items =>
      let size := sizeOf item in
      let '(batches, batch, bytes) :=
        if negb (Nat.eqb (length batch) 0) && (limit <? bytes + size)
        then (batches ++ [batch], [], 0) else (batches, batch, bytes) in
      let batch := batch ++ [item] in
      let bytes := bytes + size in
      if limit <=? bytes then batch_loop items (batches ++ [batch]) [] 0
      else batch_loop items batches batch bytes
  end.

Definition batchByBytes (items : list T) : list (list T) := batch_loop items [] [] 0.

Lemma size_sum_app a b : size_sum (a ++ b) = size_sum a + size_sum b.
Proof. unfold size_sum. induction a as [|x a IH]; simpl; [done|]. rewrite IH. lia. Qed.

(** A batch is within the budget, or a single item. *)
Definition batch_fits (b : list T) : Prop := b ≠ [] ∧ (size_sum b <= limit ∨ length b = 1%nat).

Lemma batch_loop_spec items batches batch bytes :
  bytes = size_sum batch → (batch = [] ∨ bytes < limit) → Forall batch_fits batches →
  let r := batch_loop items batches batch bytes in
  concat r = concat batches ++ batch ++ items ∧ Forall batch_fits r.
Proof.
  revert batches batch bytes.
  induction items as [|x items IH]; intros batches batch bytes Hb Hlt Hf; cbn [batch_loop].
  - rewrite app_nil_r. destruct (Nat.eqb_spec (length batch) 0) as [E|E].
    { destruct batch; [|done]. by rewrite app_nil_r. }
    rewrite concat_app. simpl. rewrite app_nil_r. split; [done|].
    apply Forall_app. split; [done|]. constructor; [|done]. split; [by intros ->|].
    destruct Hlt as [->|?]; [done|left; lia].
  - assert (Hlen : length batch = 0%nat → batch = []) by (by destruct batch).
    destruct (Nat.eqb_spec (length batch) 0) as [E|E]; cbn [negb andb].
    + rewrite (Hlen E) in *. subst bytes. cbn [app].
      destruct (Z.leb_spec limit (size_sum [] + sizeOf x)) as [Hl|Hl].
      * destruct (IH (batches ++ [[x]]) [] 0) as [H1 H2]; [done|by left| |].
        { apply Forall_app. split; [done|]. constructor; [|done]. split; [done|by right]. }
        split; [|exact H2]. rewrite H1, concat_app. simpl. by rewrite <-!(assoc_L app).
      * destruct (IH batches [x] (size_sum [] + sizeOf x)) as [H1 H2]; [simpl; lia|by right|done|].
        split; [|exact H2]. by rewrite H1.
    + destruct Hlt as [->|Hlt]; [done|].
      destruct (Z.ltb_spec limit (bytes + sizeOf x)) as [Ho|Ho].
      * assert (Hf' : Forall batch_fits (batches ++ [batch])).
        { apply Forall_app. split; [done|]. constructor; [|done].
          split; [by intros ->|left; lia]. }
        cbn [app]. destruct (Z.leb_spec limit (0 + sizeOf x)) as [Hl|Hl].
        -- destruct (IH ((batches ++ [batch]) ++ [[x]]) [] 0) as [H1 H2]; [done|by left| |].
           { apply Forall_app. split; [done|]. constructor; [|done]. split; [done|by right]. }
           split; [|exact H2]. rewrite H1, !concat_app. simpl.
           by rewrite !app_nil_r, <-!(assoc_L app).
        -- destruct (IH (batches ++ [batch]) [x] (0 + sizeOf x)) as [H1 H2]; [simpl; lia|by right|done|].
           split; [|exact H2]. rewrite H1, concat_app. simpl.
           by rewrite !app_nil_r, <-!(assoc_L app).
      * assert (Hs : bytes + sizeOf x = size_sum (batch ++ [x])).
        { rewrite size_sum_app. simpl. lia. }
        destruct (Z.leb_spec limit (bytes + sizeOf x)) as [Hl|Hl].
        -- destruct (IH (batches ++ [batch ++ [x]]) [] 0) as [H1 H2]; [done|by left| |].
           { apply Forall_app. split; [done|]. constructor; [|done].
             split; [by destruct batch|left; lia]. }
           split; [|exact H2]. rewrite H1, concat_app. simpl.
           by rewrite !app_nil_r, <-!(assoc_L app).
        -- destruct (IH batches (batch ++ [x]) (bytes + sizeOf x)) as [H1 H2]; [done|by right|done|].
           split; [|exact H2]. rewrite H1. by rewrite <-!(assoc_L app).
Qed.

(** The first item of a batch would not have fitted the batch before it. *)
Fixpoint no_room (bs : list (list T)) : Prop :=
  match bs with
  | [] => True
  | b :: bs' =>
      match bs' with
      | (x :: _) :: _ => limit <= size_sum b ∨ limit < size_sum b + sizeOf x
      | _ => True
      end ∧ no_room bs'
  end.

Lemma no_room_split bs b1 b2 :
  b1 ≠ [] → (limit <= size_sum b1 ∨ ∀ x r, b2 = x :: r → limit < size_sum b1 + sizeOf x) →
  no_room (bs ++ [b1 ++ b2]) → no_room ((bs ++ [b1]) ++ [b2]).
Proof.
  intros Hne Hc. induction bs as [|b bs IH].
  - intros _. cbn. split; [|done]. destruct b2 as [|x r]; [done|]. destruct Hc; eauto.
  - destruct bs as [|b' bs].
    + cbn in *. intros [H1 H2]. split; [|by apply IH]. by destruct b1.
    + cbn in *. intros [H1 H2]. split; [done|by apply IH].
Qed.

Lemma no_room_init bs b : no_room (bs ++ [b]) → no_room bs.
Proof.
  induction bs as [|b0 bs IH]; [done|]. rewrite <-app_comm_cons.
  intros [H1 H2]. split; [|by apply IH]. by destruct bs.
Qed.

Lemma batch_loop_full items batches batch bytes :
  bytes = size_sum batch → no_room (batches ++ [batch ++ items]) →
  no_room (batch_loop items batches batch bytes).
Proof.
  revert batches batch bytes.
  induction items as [|x items IH]; intros batches batch bytes Hb Hn; cbn [batch_loop].
  { rewrite app_nil_r in Hn. case_match; [by eapply no_room_init|done]. }
  set (flush := negb (Nat.eqb (length batch) 0) && (limit <? bytes + sizeOf x)).
  assert (Hs : ∃ batches' batch' bytes',
    (if flush then (batches ++ [batch], [], 0) else (batches, batch, bytes)) =
      (batches', batch', bytes') ∧ bytes' = size_sum batch' ∧
    no_room (batches' ++ [batch' ++ x :: items])).
  { destruct flush eqn:E; [|by exists batches, batch, bytes].
    exists (batches ++ [batch]), [], 0. split_and!; [done|done|].
    apply andb_true_iff in E as [E1 E2%Z.ltb_lt]. apply no_room_split; [|right|done].
    - intros ->. done.
    - intros y r [= <- <-]. lia. }
  destruct Hs as (batches' & batch' & bytes' & -> & -> & Hn').
  assert (Hsum : size_sum batch' + sizeOf x = size_sum (batch' ++ [x])).
  { rewrite size_sum_app. simpl. lia. }
  replace (batch' ++ x :: items) with ((batch' ++ [x]) ++ items) in Hn' by by rewrite <-(assoc_L app).
  destruct (Z.leb_spec limit (size_sum batch' + sizeOf x)) as [Hl|Hl]; apply IH; try done.
  apply no_room_split; [by destruct batch'|left; lia|done].
Qed.
End batch.

(** ** Newest-first order ([hlc.ts]) *)

Record IHlcHead := mkHlc { hlc_eid : bytes; hlc_off : num; hlc_ctr : Z }.

Definition hlc_of (h : IMessageHead) : IHlcHead := mkHlc (mh_eid h) (mh_off h) (mh_ctr h).

(** [None]: the id does not parse.  [Some None]: the time is [NaN]. *)
Definition headUpdatedAtMs (head : IHlcHead) : option num :=
  match run_dec (cDecode eidCodec) (hlc_eid head) with
  | Ok parsed => Some (fadd (getTime (eid_ts parsed)) (hlc_off head))
  | _ => None
  end.

(** [sort] takes a [NaN] result as 0; [NaN !== x] for every [x]. *)
Definition compareHeadHlcDesc (a b : IHlcHead) : Z :=
  match headUpdatedAtMs a, headUpdatedAtMs b with
  | None, None => 0
  | None, Some _ => 1
  | Some _, None => -1
  | Some ta, Some tb =>
      match ta, tb with
      | Some x, Some y => if negb (y =? x) then y - x else hlc_ctr b - hlc_ctr a
      | _, _ => 0
      end
  end.

Definition sortByHlcDesc {T} (headOf : T → IHlcHead) (items : list T) : list T :=
  js_sort (λ x y, compareHeadHlcDesc (headOf x) (headOf y)) items.

(** The head's time, when known, is a number. *)
Definition hlc_dated (h : IHlcHead) : Prop := headUpdatedAtMs h ≠ Some None.

(** [a] may stand before [b]: the later time first, then the higher counter;
    unknown times last. *)
Definition newer (a b : IHlcHead) : Prop :=
  match headUpdatedAtMs a, headUpdatedAtMs b with
  | Some (Some x), Some (Some y) => y < x ∨ (x = y ∧ hlc_ctr b <= hlc_ctr a)
  | _, None => True
  | _, _ => False
  end.

Lemma compare_newer a b :
  hlc_dated a → hlc_dated b → compareHeadHlcDesc a b <= 0 ↔ newer a b.
Proof.
  unfold hlc_dated, compareHeadHlcDesc, newer.
  destruct (headUpdatedAtMs a) as [[x|]|], (headUpdatedAtMs b) as [[y|]|]; intros; try done.
  destruct (Z.eqb_spec y x); simpl; lia.
Qed.

(** Agreeing comparators sort alike. *)
Lemma sort_insert_ext {A} (c c' : A → A → Z) x l :
  (∀ y, y ∈ l → c y x = c' y x) → sort_insert c x l = sort_insert c' x l.
Proof.
  induction l as [|y l IH]; intros H; [done|]. cbn [sort_insert].
  rewrite (H y) by left. case_match; [|done]. f_equal. apply IH. intros. apply H. by right.
Qed.

Lemma js_sort_ext {A} (c c' : A → A → Z) l :
  (∀ x y, x ∈ l → y ∈ l → c x y = c' x y) → js_sort c l = js_sort c' l.
Proof.
  unfold js_sort. cut (∀ acc, (∀ x y, x ∈ acc ++ l → y ∈ acc ++ l → c x y = c' x y) →
    fold_left (λ acc x, sort_insert c x acc) l acc = fold_left (λ acc x, sort_insert c' x acc) l acc).
  { intros H. apply (H []). }
  induction l as [|x l IH]; intros acc H; [done|]. cbn [fold_left].
  rewrite (sort_insert_ext c c') by set_solver. apply IH.
  intros y z Hy Hz. apply H.
  - rewrite elem_of_app, (sort_insert_perm c') in Hy. set_solver.
  - rewrite elem_of_app, (sort_insert_perm c') in Hz. set_solver.
Qed.

(** The comparator with [NaN] times taken as unknown: a preorder. *)
Definition hlc_key (h : IHlcHead) : option Z := default None (headUpdatedAtMs h).
Definition hlc_total (a b : IHlcHead) : Z :=
  match hlc_key a, hlc_key b with
  | None, None => 0
  | None, Some _ => 1
  | Some _, None => -1
  | Some x, Some y => if negb (y =? x) then y - x else hlc_ctr b - hlc_ctr a
  end.

#[export] Instance hlc_total_cmp {T} (f : T → IHlcHead) : SortCmp (λ x y, hlc_total (f x) (f y)).
Proof.
  unfold hlc_total. split.
  - intros x y. destruct (hlc_key (f x)) as [a|], (hlc_key (f y)) as [b|]; try lia.
    destruct (Z.eqb_spec b a), (Z.eqb_spec a b); simpl; lia.
  - intros x y z. destruct (hlc_key (f x)) as [a|], (hlc_key (f y)) as [b|], (hlc_key (f z)) as [c|]; try lia.
    destruct (Z.eqb_spec b a), (Z.eqb_spec c b), (Z.eqb_spec c a); simpl; lia.
Qed.

Lemma compare_total a b : hlc_dated a → hlc_dated b → compareHeadHlcDesc a b = hlc_total a b.
Proof.
  unfold hlc_dated, compareHeadHlcDesc, hlc_total, hlc_key.
  by destruct (headUpdatedAtMs a) as [[x|]|], (headUpdatedAtMs b) as [[y|]|].
Qed.

Lemma sortByHlc_sorted {T} (headOf : T → IHlcHead) items :
  Forall (λ x, hlc_dated (headOf x)) items →
  StronglySorted (λ x y, newer (headOf x) (headOf y)) (sortByHlcDesc headOf items).
Proof.
  intros Hd. unfold sortByHlcDesc. rewrite Forall_forall in Hd.
  rewrite (js_sort_ext _ (λ x y, hlc_total (headOf x) (headOf y)))
    by (intros; apply compare_total; auto).
  set (l := js_sort _ _). assert (Hl : ∀ x, x ∈ l → hlc_dated (headOf x)).
  { intros x. unfold l. rewrite js_sort_perm. apply Hd. }
  assert (Hs : StronglySorted (cmp_le (λ x y, hlc_total (headOf x) (headOf y))) l)
    by exact (js_sort_sorted _ (HC := hlc_total_cmp headOf) items).
  clearbody l. clear Hd. induction Hs as [|x l Hs IH Hx]; constructor.
  - apply IH. intros. apply Hl. by right.
  - rewrite Forall_forall in *. intros y Hy. apply compare_newer; [apply Hl; by left|apply Hl; by right|].
    rewrite compare_total; [by apply Hx|apply Hl; by left|apply Hl; by right].
Qed.

(** ** Progress ticks ([progress.ts]) *)

(** JavaScript's [%]: the remainder has the sign of the dividend; modulo 0 is
    [NaN], which equals nothing. *)
Definition js_rem_is0 (a b : Z) : bool := if b =? 0 then false else Z.rem a b =? 0.

Definition shouldEmitItemProgress (done total every : Z) : bool :=
  if (done <=? 0) || (total <=? 0) then false
  else if (done =? 1) || (done =? total) then true
  else js_rem_is0 done every.
