(* ===== verification/Pool.v ===== *)
(** * The concurrent map ([web/src/mapPool.ts])

    [mapPool] starts a few workers that share a [next] counter.  A worker runs
    without interruption up to the [await] of its call, so the state between
    two turns of the event loop is the counter, the result array and what each
    worker awaits; a step is the settling of one awaited call, in any order. *)
From S2P Require Export Prelude.
From stdpp Require Import relations.

Section pool.
Context {T R : Type} (items : list T) (concurrency : Z).

(** What [fn(items[i], i)] settles to; [None] when it rejects. *)
Context (fn : T → nat → option R).

Definition n : nat := length items.

Definition call (i : nat) : option R := x ← items !! i; fn x i.

Inductive worker := Awaiting (i : nat) | Returned | Rejected (i : nat).

Record pool := mkPool {
  next : nat;
  out : list (option R);
  jobs : list worker;
}.

(** One turn of the loop of [run]: take an index, return past the end, else
    call [fn] and wait. *)
Definition turn (i : nat) : worker := if decide (n <= i)%nat then Returned else Awaiting i.

Definition workers : nat := Z.to_nat (Z.min (Z.max 1 concurrency) (Z.of_nat n)).

Definition pool_start : pool := mkPool workers (replicate n None) (turn <$> seq 0 workers).

(** The call worker [w] awaits settles. *)
Definition settle (s : pool) (w : nat) : option pool :=
  match jobs s !! w with
  | Some (Awaiting i) =>
      match call i with
      | Some r => Some (mkPool (S (next s)) (<[i := Some r]> (out s)) (<[w := turn (next s)]> (jobs s)))
      | None => Some (mkPool (next s) (out s) (<[w := Rejected i]> (jobs s)))
      end
  | _ => None
  end.

Inductive pstep (s s' : pool) : Prop :=
| pstep_settle w : settle s w = Some s' → pstep s s'.

(** [Promise.all(jobs)]: rejected as soon as one job is, resolved when all
    have returned. *)
Definition any_rejected (s : pool) : bool :=
  existsb (λ j, match j with Rejected _ => true | _ => false end) (jobs s).
Definition all_returned (s : pool) : bool :=
  forallb (λ j, match j with Returned => true | _ => false end) (jobs s).

Inductive promise := Pending | Resolved (rs : list (option R)) | RejectedP.

Definition mapPool (s : pool) : promise :=
  if Nat.eqb n 0 then Resolved []
  else if any_rejected s then RejectedP
  else if all_returned s then Resolved (out s) else Pending.

(** ** The invariant *)

Definition weight (j : worker) : nat := match j with Awaiting _ => 1 | _ => 0 end.

(** The calls in flight. *)
Definition awaiting (s : pool) : nat := sum_list_with weight (jobs s).

Record pool_ok (s : pool) : Prop := {
  ok_len : length (out s) = n;
  ok_jobs : length (jobs s) = workers;
  ok_taken : ∀ i, (i < next s)%nat → (i < n)%nat →
    (∃ w, jobs s !! w = Some (Awaiting i)) ∨ (∃ w, jobs s !! w = Some (Rejected i)) ∨
    ∃ r, out s !! i = Some (Some r);
  ok_fresh : ∀ w i, jobs s !! w = Some (Awaiting i) → (i < next s)%nat ∧ (i < n)%nat;
  ok_single : ∀ w w' i, jobs s !! w = Some (Awaiting i) → jobs s !! w' = Some (Awaiting i) → w = w';
  ok_rejected : ∀ w i, jobs s !! w = Some (Rejected i) → (i < n)%nat ∧ call i = None;
  ok_out : ∀ i r, out s !! i = Some (Some r) → call i = Some r;
  ok_returned : ∀ w, jobs s !! w = Some Returned → (n <= next s)%nat;
}.

Lemma awaiting_le_jobs s : (awaiting s <= length (jobs s))%nat.
Proof.
  unfold awaiting. induction (jobs s) as [|j js IH]; [done|]. cbn. destruct j; cbn; lia.
Qed.

Lemma workers_n : (workers <= n)%nat.
Proof. unfold workers. lia. Qed.

Lemma turn_awaiting i j : turn i = Awaiting j → i = j ∧ (i < n)%nat.
Proof. unfold turn. case_decide; [done|]. intros [= <-]. lia. Qed.

Lemma pool_start_ok : pool_ok pool_start.
Proof.
  pose proof workers_n as Hw.
  assert (Hj : ∀ w, jobs pool_start !! w = if decide (w < workers)%nat then Some (Awaiting w) else None).
  { intros w. cbn. rewrite list_lookup_fmap. case_decide.
    - rewrite (lookup_seq_lt _ _ _) by done. cbn. unfold turn. rewrite decide_False by lia. done.
    - rewrite lookup_seq_ge by lia. done. }
  split.
  - unfold pool_start. cbn [out]. by rewrite length_replicate.
  - cbn. by rewrite length_fmap, length_seq.
  - intros i H1 H2. left. exists i. rewrite Hj. by rewrite decide_True.
  - intros w i. rewrite Hj. case_decide; [|done]. intros [= <-]. cbn. lia.
  - intros w w' i. rewrite !Hj. case_decide; [|done]. intros [= <-]. case_decide; [|done].
    by intros [= <-].
  - intros w i. rewrite Hj. by case_decide.
  - intros i r H%lookup_replicate. naive_solver.
  - intros w. rewrite Hj. by case_decide.
Qed.

Lemma settle_ok s w s' : pool_ok s → settle s w = Some s' → pool_ok s'.
Proof.
  intros [Hl Hj Ht Hf Hs Hx Ho Hr]. unfold settle.
  destruct (jobs s !! w) as [[i| |]|] eqn:E; [|done..].
  pose proof (lookup_lt_Some _ _ _ E) as Hw. destruct (Hf w i E) as [Hi Hin].
  destruct (call i) as [r|] eqn:Ec; intros [= <-]; split; cbn.
  - by rewrite length_insert.
  - by rewrite length_insert.
  - intros k Hk Hkn. destruct (decide (k = i)) as [->|Hki].
    { right. right. exists r. apply list_lookup_insert_eq. by rewrite Hl. }
    rewrite list_lookup_insert_ne by done. destruct (decide (k = next s)) as [->|Hkx].
    { left. exists w. rewrite list_lookup_insert_eq by done. unfold turn. by rewrite decide_False by lia. }
    destruct (Ht k) as [[w' H]|[[w' H]|H]]; [lia|done|left|right; left|by right; right];
      exists w'; by rewrite list_lookup_insert_ne by (intros ->; congruence).
  - intros w' k. destruct (decide (w = w')) as [<-|Hne].
    + rewrite list_lookup_insert_eq by done. intros [= Hk]. apply turn_awaiting in Hk. lia.
    + rewrite list_lookup_insert_ne by done. intros H%Hf. lia.
  - intros w1 w2 k. destruct (decide (w = w1)) as [<-|Hne1], (decide (w = w2)) as [<-|Hne2].
    + done.
    + rewrite list_lookup_insert_eq, list_lookup_insert_ne by done.
      intros [= Hk] H%Hf. apply turn_awaiting in Hk. lia.
    + rewrite list_lookup_insert_ne, list_lookup_insert_eq by done.
      intros H%Hf [= Hk]. apply turn_awaiting in Hk. lia.
    + rewrite !list_lookup_insert_ne by done. apply Hs.
  - intros w' k. destruct (decide (w = w')) as [<-|Hne].
    + rewrite list_lookup_insert_eq by done. unfold turn. by case_decide.
    + rewrite list_lookup_insert_ne by done. apply Hx.
  - intros k r'. destruct (decide (k = i)) as [->|Hki].
    + rewrite list_lookup_insert_eq by (by rewrite Hl). by intros [= <-].
    + rewrite list_lookup_insert_ne by done. apply Ho.
  - intros w'. destruct (decide (w = w')) as [<-|Hne].
    + rewrite list_lookup_insert_eq by done. unfold turn. case_decide; [lia|done].
    + rewrite list_lookup_insert_ne by done. intros H%Hr. lia.
  - done.
  - by rewrite length_insert.
  - intros k Hk Hkn. destruct (decide (k = i)) as [->|Hki].
    { right. left. exists w. by rewrite list_lookup_insert_eq. }
    destruct (Ht k) as [[w' H]|[[w' H]|H]]; [done|done|left|right; left|by right; right];
      exists w'; by rewrite list_lookup_insert_ne by (intros ->; congruence).
  - intros w' k. destruct (decide (w = w')) as [<-|Hne].
    + by rewrite list_lookup_insert_eq.
    + rewrite list_lookup_insert_ne by done. apply Hf.
  - intros w1 w2 k. destruct (decide (w = w1)) as [<-|Hne1]; [by rewrite list_lookup_insert_eq|].
    destruct (decide (w = w2)) as [<-|Hne2]; [by rewrite (list_lookup_insert_eq _ w)|].
    rewrite !list_lookup_insert_ne by done. apply Hs.
  - intros w' k. destruct (decide (w = w')) as [<-|Hne].
    + rewrite list_lookup_insert_eq by done. by intros [= <-].
    + rewrite list_lookup_insert_ne by done. apply Hx.
  - done.
  - intros w'. destruct (decide (w = w')) as [<-|Hne].
    + by rewrite list_lookup_insert_eq.
    + rewrite list_lookup_insert_ne by done. apply Hr.
Qed.

Lemma reachable_ok s : rtc pstep pool_start s → pool_ok s.
Proof.
  intros H. remember pool_start as s0. assert (H0 : pool_ok s0) by (subst; apply pool_start_ok).
  clear Heqs0. induction H as [|s1 s2 s3 [w Hw] _ IH]; [done|]. by eapply IH, settle_ok.
Qed.

(** ** Every execution settles *)

(** Steps left at most. *)
Definition fuel (s : pool) : nat := (awaiting s + (n - next s))%nat.

Lemma sum_insert (js : list worker) w j j' :
  js !! w = Some j →
  (sum_list_with weight (<[w := j']> js) + weight j = sum_list_with weight js + weight j')%nat.
Proof.
  revert w. induction js as [|x js IH]; intros [|w]; cbn; [done..| |].
  - intros [= ->]. lia.
  - intros H. specialize (IH w H). unfold insert in *. lia.
Qed.

Lemma settle_fuel s w s' : settle s w = Some s' → (fuel s' < fuel s)%nat.
Proof.
  unfold settle, fuel. destruct (jobs s !! w) as [[i| |]|] eqn:E; [|done..].
  destruct (call i); intros [= <-]; unfold awaiting; cbn [jobs next].
  - pose proof (sum_insert _ _ _ (turn (next s)) E) as H. revert H. unfold turn.
    case_decide; cbn [weight]; lia.
  - pose proof (sum_insert _ _ _ (Rejected i) E) as H. cbn [weight] in H. lia.
Qed.

Lemma start_fuel : fuel pool_start = n.
Proof.
  unfold fuel, awaiting. cbn. pose proof workers_n.
  enough (sum_list_with weight (turn <$> seq 0 workers) = workers) by lia.
  assert (H' : ∀ k m, (m + k <= n)%nat → sum_list_with weight (turn <$> seq m k) = k).
  { induction k as [|k IH]; intros m Hm; [done|]. cbn. unfold turn at 1.
    rewrite decide_False by lia. cbn. rewrite IH by lia. done. }
  apply H'. lia.
Qed.

Lemma steps_bound k s : nsteps pstep k pool_start s → (k + fuel s <= n)%nat.
Proof.
  rewrite <-start_fuel. generalize pool_start. intros s0 H.
  induction H as [s0|k s0 s1 s2 [w Hw] _ IH]; [lia|]. apply settle_fuel in Hw. lia.
Qed.

(** No step is possible only once no worker waits. *)
Lemma stuck_settled s :
  (∀ s', ¬ pstep s s') → ∀ w i, jobs s !! w ≠ Some (Awaiting i).
Proof.
  intros Hs w i E. destruct (call i) as [r|] eqn:Ec.
  - eapply Hs. apply (pstep_settle _ _ w). unfold settle. by rewrite E, Ec.
  - eapply Hs. apply (pstep_settle _ _ w). unfold settle. by rewrite E, Ec.
Qed.

Lemma stuck_result s :
  pool_ok s → (∀ s', ¬ pstep s s') → (0 < n)%nat →
  (any_rejected s = true ∧ mapPool s = RejectedP) ∨
  (mapPool s = Resolved (out s) ∧ ∀ i, (i < n)%nat → out s !! i = Some (call i) ∧ is_Some (call i)).
Proof.
  intros [Hl Hj Ht Hf Hs Hx Ho Hr] Hstuck Hn. pose proof (stuck_settled s Hstuck) as Ha.
  unfold mapPool. destruct (Nat.eqb_spec n 0) as [|_]; [lia|].
  destruct (any_rejected s) eqn:Ej; [by left|]. right.
  assert (Hret : ∀ w j, jobs s !! w = Some j → j = Returned).
  { intros w j E. destruct j as [i| |i]; [by apply Ha in E|done|].
    assert (any_rejected s = true); [|congruence]. unfold any_rejected. apply existsb_exists.
    exists (Rejected i). split; [|done]. apply list_elem_of_In. by apply list_elem_of_lookup_2 in E. }
  assert (all_returned s = true) as ->.
  { unfold all_returned. apply forallb_forall. intros j Hin%list_elem_of_In.
    apply list_elem_of_lookup_1 in Hin as [w E]. by rewrite (Hret w j E). }
  split; [done|]. intros i Hi.
  assert (Hnext : (n <= next s)%nat).
  { destruct (jobs s) as [|j js] eqn:E.
    - cbn in Hj. unfold workers in Hj. lia.
    - apply (Hr 0%nat). by rewrite <-(Hret 0%nat j). }
  destruct (Ht i) as [[w H]|[[w H]|[r H]]]; [lia|done|by apply Hret in H|by apply Hret in H|].
  rewrite H, (Ho i r H). eauto.
Qed.
Lemma rejected_call s :
  pool_ok s → any_rejected s = true → ∃ i, (i < n)%nat ∧ call i = None.
Proof.
  intros Hok H. apply existsb_exists in H as (j & Hin & Hj). destruct j as [| |i]; [done|done|].
  apply list_elem_of_In, list_elem_of_lookup_1 in Hin as [w E].
  apply (ok_rejected _ Hok) in E. eauto.
Qed.
End pool.
