(* ===== verification/Coalesce.v ===== *)
(** * Coalescing and debouncing of async work ([web/src/coalesce.ts])

    [CoalesceTail] runs at most one pass of the work at a time and one
    trailing pass for the callers that arrive during a pass.  A [run] call and
    the settling of a pass are the turns of the event loop; the model keeps
    which promise each caller got and how many passes had started by then. *)
From S2P Require Export Prelude.

(** What a drain's promise settles to: the value of the pass that ended it,
    or a rejection. *)
Inductive outcome := Fulfilled (pass : nat) | Failed.

Record tail := mkTail {
  inflight : option nat;        (* the shared promise *)
  again : bool;
  drains : list (nat * nat);    (* promise of the drain, pass it awaits *)
  passes : nat;                 (* passes started so far, numbered from 1 *)
  promises : nat;               (* promises created so far *)
  settled : list (nat * outcome);
  callers : list (nat * nat);   (* promise a [run] returned, passes started before it *)
}.

Definition newTail : tail := mkTail None false [] 0 0 [] [].

(** What calling [work()] does at once: return a promise, or throw.  A thrown
    error is caught by the async [drain], whose promise is then rejected. *)
Inductive start_mode := Returns | Throws.

Definition tail_run (s : tail) (m : start_mode) : tail :=
  match inflight s with
  | Some p =>
      mkTail (Some p) true (drains s) (passes s) (promises s) (settled s)
        (callers s ++ [(p, passes s)])
  | None =>
      let p := promises s in
      match m with
      | Returns =>
          mkTail (Some p) false (drains s ++ [(p, S (passes s))]) (S (passes s)) (S p) (settled s)
            (callers s ++ [(p, passes s)])
      | Throws =>
          (* [finally] clears [inflight] before [run] assigns it. *)
          mkTail (Some p) false (drains s) (passes s) (S p) (settled s ++ [(p, Failed)])
            (callers s ++ [(p, passes s)])
      end
  end.

Definition tail_finish (s : tail) (p : nat) (o : outcome) (rest : list (nat * nat)) (ag : bool) : tail :=
  mkTail None ag rest (passes s) (promises s) (settled s ++ [(p, o)]) (callers s).

(** The oldest drain's pass settles; [m] is what starting the trailing pass
    does, if there is one. *)
Definition tail_settle (s : tail) (ok : bool) (m : start_mode) : option tail :=
  match drains s with
  | [] => None
  | (p, k) :: rest =>
      if ok then
        if again s then
          match m with
          | Returns =>
              Some (mkTail (inflight s) false ((p, S (passes s)) :: rest) (S (passes s))
                (promises s) (settled s) (callers s))
          | Throws => Some (tail_finish s p Failed rest false)
          end
        else Some (tail_finish s p (Fulfilled k) rest (again s))
      else Some (tail_finish s p Failed rest (again s))
  end.

(** [flush()] awaits the shared promise, if there is one. *)
Definition tail_flush (s : tail) : option nat := inflight s.

Inductive tail_event := Run (m : start_mode) | Settle (ok : bool) (m : start_mode).

Definition tail_step (s : tail) (e : tail_event) : tail :=
  match e with
  | Run m => tail_run s m
  | Settle ok m => default s (tail_settle s ok m)
  end.

(** The work never throws synchronously (it is an async function). *)
Definition async_event (e : tail_event) : Prop := e = Run Returns ∨ ∃ ok, e = Settle ok Returns.

(** ** The invariant *)

Record tail_ok (s : tail) : Prop := {
  tl_drains : match inflight s with
    | Some p => drains s = [(p, passes s)] ∧ (p < promises s)%nat
    | None => drains s = []
    end;
  tl_callers : ∀ p n, (p, n) ∈ callers s → (n <= passes s)%nat ∧ (p < promises s)%nat ∧
    ((inflight s = Some p ∧ (again s = true ∨ (n < passes s)%nat)) ∨ ∃ o, (p, o) ∈ settled s);
  tl_fresh : ∀ p n k, (p, n) ∈ callers s → (p, Fulfilled k) ∈ settled s → (n < k)%nat;
  tl_settled : ∀ p o, (p, o) ∈ settled s → (p < promises s)%nat ∧ inflight s ≠ Some p;
  tl_once : ∀ p o o', (p, o) ∈ settled s → (p, o') ∈ settled s → o = o';
  tl_count : (passes s + (if inflight s is Some _ then if again s then 1 else 0 else 0) <= length (callers s))%nat;
}.

Lemma newTail_ok : tail_ok newTail.
Proof. by split; intros; set_solver. Qed.

Lemma run_ok s : tail_ok s → tail_ok (tail_run s Returns).
Proof.
  intros [H1 H2 H3 H4 H5 H6]. unfold tail_run. destruct (inflight s) as [p|] eqn:E.
  - destruct H1 as [Hd Hp]. split; cbn.
    + done.
    + intros q n [Hq|[= -> ->]%list_elem_of_singleton]%elem_of_app.
      * destruct (H2 q n Hq) as (? & ? & [[? ?]|?]); split_and!; auto.
      * split_and!; auto.
    + intros q n k [Hq|[= -> ->]%list_elem_of_singleton]%elem_of_app Hs; [by eapply H3|].
      by apply H4 in Hs as [_ ?].
    + done.
    + done.
    + rewrite length_app. cbn. destruct (again s); lia.
  - split; cbn.
    + rewrite H1. cbn. split; [done|lia].
    + intros q n [Hq|[= -> ->]%list_elem_of_singleton]%elem_of_app.
      * destruct (H2 q n Hq) as (? & ? & [[? ?]|?]); [done|split_and!; [lia|lia|by right]].
      * split_and!; [lia|lia|left; split; [done|right; lia]].
    + intros q n k [Hq|[= -> ->]%list_elem_of_singleton]%elem_of_app Hs; [by eapply H3|].
      apply H4 in Hs as [? _]. lia.
    + intros q o Hs%H4. split; [lia|]. intros ?; simplify_eq; lia.
    + done.
    + rewrite length_app. cbn. lia.
Qed.

(** The drain of [p] ends with [o]. *)
Lemma finish_ok s p o :
  tail_ok s → inflight s = Some p →
  (∀ k, o = Fulfilled k → again s = false ∧ k = passes s) →
  ∀ ag, tail_ok (tail_finish s p o [] ag).
Proof.
  intros [H1 H2 H3 H4 H5 H6] E Ho ag. rewrite E in H1, H6. destruct H1 as [Hd Hp].
  split; cbn.
  - done.
  - intros q n Hq. destruct (H2 q n Hq) as (? & ? & [[He ?]|[o' ?]]); split_and!; try done; right.
    + rewrite E in He. injection He as ->. exists o. set_solver.
    + exists o'. set_solver.
  - intros q n k Hq [Hs|[= -> Ek]%list_elem_of_singleton]%elem_of_app; [by eapply H3|].
    destruct (Ho k (eq_sym Ek)) as [Ha ->]. destruct (H2 p n Hq) as (_ & _ & [[_ [?|?]]|[o' Hs]]);
      [congruence|done|]. by apply H4 in Hs as [_ ?].
  - intros q o' [Hs|[= -> ->]%list_elem_of_singleton]%elem_of_app; [|done].
    by apply H4 in Hs as [? _].
  - assert (Hn : ∀ o', (p, o') ∉ settled s) by (intros o' Hs%H4; naive_solver).
    intros q o1 o2. rewrite !elem_of_app, !list_elem_of_singleton.
    intros [Ha|Ha] [Hb|Hb]; simplify_eq; [by eapply H5|by apply Hn in Ha|by apply Hn in Hb|done].
  - lia.
Qed.

Lemma tail_settle_ok s ok s' : tail_ok s → tail_settle s ok Returns = Some s' → tail_ok s'.
Proof.
  intros Hok. pose proof Hok as [H1 H2 H3 H4 H5 H6]. unfold tail_settle.
  destruct (inflight s) as [p|] eqn:E; [|by rewrite H1].
  destruct H1 as [-> Hp]. destruct ok; [destruct (again s) eqn:Ea|]; intros [= <-].
  - split; cbn; rewrite ?E.
    + done.
    + intros q n Hq. destruct (H2 q n Hq) as (? & ? & [[He _]|?]); split_and!; try lia; [left|by right].
      split; [done|right; lia].
    + done.
    + intros q o Hs. by apply (H4 q o).
    + done.
    + lia.
  - apply finish_ok; [done|done|]. intros k [= <-]. by rewrite Ea.
  - by apply finish_ok.
Qed.

Lemma tail_step_ok s e : tail_ok s → async_event e → tail_ok (tail_step s e).
Proof.
  intros Hs [->|[ok ->]]; cbn; [by apply run_ok|].
  destruct (tail_settle s ok Returns) eqn:E; [by eapply tail_settle_ok|done].
Qed.

Lemma reach_ok es s : tail_ok s → Forall async_event es → tail_ok (fold_left tail_step es s).
Proof.
  intros Hs H. revert s Hs. induction H as [|e es He _ IH]; intros s Hs; [done|].
  by apply IH, tail_step_ok.
Qed.

(** ** A synchronous throw

    [run] then stores a promise that is already rejected and that no drain
    will ever clear. *)
Definition wedged (p : nat) (s : tail) : Prop :=
  inflight s = Some p ∧ drains s = [] ∧ (p, Failed) ∈ settled s.

Lemma wedged_step p s e : wedged p s → wedged p (tail_step s e) ∧ passes (tail_step s e) = passes s.
Proof.
  intros (H1 & H2 & H3). destruct e as [m|ok m]; cbn.
  - unfold tail_run. rewrite H1. by repeat split.
  - unfold tail_settle. rewrite H2. by repeat split.
Qed.

(** ** [Debounced] *)

Record debounced := mkDeb { timer : bool; dtail : tail }.

Definition newDebounced : debounced := mkDeb false newTail.

Definition fire (d : debounced) : debounced := mkDeb (timer d) (tail_run (dtail d) Returns).

(** [schedule()]: a positive delay sets the timer anew. *)
Definition schedule (delayMs : Z) (d : debounced) : debounced :=
  if delayMs <=? 0 then fire d else mkDeb true (dtail d).

(** The timer elapses. *)
Definition elapse (d : debounced) : debounced :=
  if timer d then fire (mkDeb false (dtail d)) else d.

(** [flush()]: the state it leaves and the promise it awaits. *)
Definition deb_flush (d : debounced) : debounced * option nat :=
  let d := if timer d then fire (mkDeb false (dtail d)) else d in (d, tail_flush (dtail d)).

Definition cancel (d : debounced) : debounced := mkDeb false (dtail d).

Inductive deb_event := Schedule | Elapse | Flush | Cancel | PassSettles (ok : bool).

Definition deb_step (delayMs : Z) (d : debounced) (e : deb_event) : debounced :=
  match e with
  | Schedule => schedule delayMs d
  | Elapse => elapse d
  | Flush => (deb_flush d).1
  | Cancel => cancel d
  | PassSettles ok => mkDeb (timer d) (tail_step (dtail d) (Settle ok Returns))
  end.

#[export] Instance deb_event_eq_dec : EqDecision deb_event.
Proof. solve_decision. Defined.

Definition schedules (es : list deb_event) : nat :=
  length (filter (λ e, e = Schedule) es).

(** Passes started and passes owed. *)
Definition owed (s : tail) : nat :=
  (passes s + (if inflight s is Some _ then if again s then 1 else 0 else 0))%nat.

(** These and a running timer are paid for by [schedule] calls. *)
Definition deb_credit (d : debounced) : nat :=
  (owed (dtail d) + (if timer d then 1 else 0))%nat.

Lemma run_credit s : (owed (tail_run s Returns) <= S (owed s))%nat.
Proof. unfold owed, tail_run. destruct (inflight s); cbn; [destruct (again s)|]; lia. Qed.

Lemma settle_credit s ok s' :
  tail_ok s → tail_settle s ok Returns = Some s' → (owed s' <= owed s)%nat.
Proof.
  intros [H1 _ _ _ _ _]. unfold tail_settle, owed.
  destruct (inflight s) eqn:E; [|by rewrite H1]. destruct H1 as [-> _].
  destruct ok; [destruct (again s) eqn:Ea|]; intros [= <-]; cbn; rewrite ?E; try lia.
Qed.

Lemma deb_step_ok delayMs d e : tail_ok (dtail d) → tail_ok (dtail (deb_step delayMs d e)).
Proof.
  intros H. destruct e; cbn.
  - unfold schedule. case_match; [by apply run_ok|done].
  - unfold elapse. case_match; [by apply run_ok|done].
  - unfold deb_flush. case_match; [by apply run_ok|done].
  - done.
  - destruct (tail_settle (dtail d) ok Returns) eqn:E; [by eapply tail_settle_ok|done].
Qed.

Lemma deb_step_credit delayMs d e :
  tail_ok (dtail d) →
  (deb_credit (deb_step delayMs d e) <= deb_credit d + schedules [e])%nat.
Proof.
  intros H. pose proof (run_credit (dtail d)) as Hr. unfold deb_credit.
  assert (schedules [e] = match e with Schedule => 1%nat | _ => 0%nat end) as -> by (by destruct e).
  destruct e; cbn [deb_step].
  - unfold schedule, fire. destruct (delayMs <=? 0); cbn; destruct (timer d); lia.
  - unfold elapse, fire. destruct (timer d) eqn:E; cbn; rewrite ?E; lia.
  - unfold deb_flush, fire. destruct (timer d) eqn:E; cbn; rewrite ?E; lia.
  - cbn. destruct (timer d); lia.
  - destruct (tail_settle (dtail d) ok Returns) eqn:E; cbn; rewrite ?E; cbn; [|lia].
    pose proof (settle_credit _ _ _ H E). lia.
Qed.

Lemma deb_credit_bound delayMs es d :
  tail_ok (dtail d) →
  (deb_credit (fold_left (deb_step delayMs) es d) <= deb_credit d + schedules es)%nat.
Proof.
  revert d. induction es as [|e es IH]; intros d H; cbn [fold_left]; [unfold schedules; cbn; lia|].
  pose proof (IH _ (deb_step_ok delayMs d e H)) as Hi.
  pose proof (deb_step_credit delayMs d e H) as Hs. assert (schedules (e :: es) = (schedules [e] + schedules es)%nat) as ->; [|lia].
  by destruct e.
Qed.
