(* ===== verification/State.v ===== *)
(** * State managers ([web/src/state.ts], [shared/singleton.ts], [shared/events.ts])

    [TypedEventEmitter], [StateManager.apply] over any applier, and the
    singleton manager that keeps one latest body.  A listener is a number;
    emitting returns the listeners called, in order. *)
From S2P Require Export EntMemFacts.
From S2P Require Export Js.

(** ** [TypedEventEmitter] *)

Definition listener : Type := nat.
Definition emitter : Type := jsmap jsstr (list listener).

Definition addEventListener (em : emitter) (eventType : jsstr) (l : listener) : emitter :=
  map_set eventType (set_add l (default [] (map_get eventType em))) em.

Definition removeEventListener (em : emitter) (eventType : jsstr) (l : listener) : emitter :=
  match map_get eventType em with
  | None => em
  | Some set =>
      let set := set_delete l set in
      if Nat.eqb (length set) 0 then map_delete eventType em else map_set eventType set em
  end.

(** The listeners [emit] calls: a snapshot of the set. *)
Definition emit (em : emitter) (eventType : jsstr) : list listener :=
  default [] (map_get eventType em).

Definition emitAll (em : emitter) : list listener := concat (emit em <$> map_keys em).

(** ** [StateManager] *)

Section manager.
(** The applier ([EntDB.apply] of some database) and its state. *)
Context {A : Type} (applier : A → list IOp → A * Res EntDBMemory.applied).

Record sm_result := mkSmResult {
  sr_results : list (option Status);
  sr_calls : list listener;           (* listeners notified *)
  sr_dirty : option (list bytes);     (* argument of [onDirtyEids] *)
}.

(** The parse loop: the ops, and one status per message. *)
Fixpoint parse_msgs (msgs : list IMessage) : Res (list IOp * list Status) :=
  match msgs with
  | [] => Ok ([], [])
  | msg :: msgs =>
      match msgToOp msg with
      | Throw => Throw
      | Err s => '(ops, sts) ← parse_msgs msgs; Ok (ops, s :: sts)
      | Ok op => '(ops, sts) ← parse_msgs msgs; Ok (op :: ops, Success :: sts)
      end
  end.

(** The result loop: [applyStats[i]] is [undefined] past the end. *)
Definition merge_stats (parseStats applyStats : list Status) : list (option Status) :=
  imap (λ i parseStat,
    if bool_decide (parseStat ≠ Success) then Some parseStat
    else match applyStats !! i with
         | Some Success => Some Success
         | applyStat => applyStat
         end) parseStats.

Definition sm_apply (cacheDriven : bool) (em : emitter) (a : A) (msgs : list IMessage)
    : A * Res sm_result :=
  match parse_msgs msgs with
  | Throw => (a, Throw)
  | Err s => (a, Err s)
  | Ok (ops, parseStats) =>
      match applier a ops with
      | (a, Ok out) =>
          (a, Ok (mkSmResult (merge_stats parseStats (EntDBMemory.stats out))
                    (if cacheDriven then [] else concat (emit em <$> EntDBMemory.types out))
                    (if Nat.eqb (length (EntDBMemory.eids out)) 0 then None
                     else Some (EntDBMemory.eids out))))
      | (a, Err s) => (a, Err s)
      | (a, Throw) => (a, Throw)
      end
  end.

Lemma merge_all_parsed sts :
  merge_stats (replicate (length sts) Success) sts = Some <$> sts.
Proof.
  unfold merge_stats. apply list_eq. intros i. rewrite list_lookup_imap, list_lookup_fmap.
  destruct (sts !! i) as [s|] eqn:E.
  - rewrite (proj2 (lookup_replicate _ _ _ _)) by (split; [done|]; by eapply lookup_lt_Some).
    cbn. by destruct s.
  - apply lookup_ge_None in E. rewrite lookup_ge_None_2; [done|]. by rewrite length_replicate.
Qed.

(** When every message parses. *)
Lemma parse_all msgs ops :
  Forall2 (λ msg op, msgToOp msg = Ok op) msgs ops →
  parse_msgs msgs = Ok (ops, replicate (length msgs) Success).
Proof. induction 1 as [|msg op msgs ops H _ IH]; [done|]. simpl. by rewrite H, IH. Qed.
End manager.

(** ** The singleton manager *)

Record singleton := mkSingleton {
  sg_type : jsstr;
  sg_latest : option bytes;
  sg_latestOff : num;
}.

Definition newSingleton (type : jsstr) : singleton := mkSingleton type None (Some (-1)).

(** The id bytes of the type: [writeVarString] into a fresh encoder, its
    status ignored. *)
Definition sg_typeBytes (type : jsstr) : Res bytes :=
  match run_enc (writeVarString type) with
  | Throw => Throw
  | Ok bs => Ok bs
  | Err _ => Ok []
  end.

(** One message; [true] when the update event is emitted. *)
Definition sg_step (s : singleton) (msg : IMessage) : Res (singleton * bool) :=
  match run_dec (readStruct eidCodec) (mh_eid (msg_head msg)) with
  | Throw => Throw
  | Err _ => Ok (s, false)
  | Ok eidDec =>
      typeBytes ← sg_typeBytes (sg_type s);
      if bool_decide (eid_id eidDec = typeBytes) then
        if negb (bool_decide (is_Some (sg_latest s))) || flt (sg_latestOff s) (mh_off (msg_head msg))
        then Ok (mkSingleton (sg_type s) (msg_bod msg) (mh_off (msg_head msg)), true)
        else Ok (s, false)
      else Ok (s, false)
  end.

Fixpoint sg_apply (s : singleton) (msgs : list IMessage) : Res (singleton * nat) :=
  match msgs with
  | [] => Ok (s, 0%nat)
  | msg :: msgs =>
      '(s, e) ← sg_step s msg;
      '(s, n) ← sg_apply s msgs;
      Ok (s, ((if e : bool then 1 else 0) + n)%nat)
  end.

Definition sg_clear (s : singleton) : singleton := mkSingleton (sg_type s) None (Some (-1)).

(** [genSingletonUpsert] *)
Definition genSingletonUpsert (type : jsstr) (now : Date) (content : bytes) (ctr : Z) : Res IMessage :=
  textBytes ← run_enc (writeVarString type);
  eid ← makeEID (mkIEntityID textBytes (mkDate (Some 0)));
  Ok (mkMsg (mkHead (Some []) eid (fsub (getTime now) (getTime (mkDate (Some 0)))) ctr
               (blen content) None) (Some content)).

(** ** One latest body *)

(** The message names the singleton type; [off] is its time. *)
Definition sg_target (type : jsstr) (msg : IMessage) : Prop :=
  ∃ eid bs, run_dec (readStruct eidCodec) (mh_eid (msg_head msg)) = Ok eid ∧
    sg_typeBytes type = Ok bs ∧ eid_id eid = bs.
Definition sg_other (type : jsstr) (msg : IMessage) : Prop :=
  (∃ e, run_dec (readStruct eidCodec) (mh_eid (msg_head msg)) = Err e) ∨
  ∃ eid bs, run_dec (readStruct eidCodec) (mh_eid (msg_head msg)) = Ok eid ∧
    sg_typeBytes type = Ok bs ∧ eid_id eid ≠ bs.

(** A message that writes the singleton at time [t]. *)
Definition sg_write (type : jsstr) (t : Z) (msg : IMessage) : Prop :=
  sg_target type msg ∧ is_Some (msg_bod msg) ∧ mh_off (msg_head msg) = Some t.

Lemma sg_step_other s msg : sg_other (sg_type s) msg → sg_step s msg = Ok (s, false).
Proof.
  unfold sg_step. intros [[e ->]|(eid & bs & -> & Hb & Hne)]; [done|]. rewrite Hb. simpl.
  by rewrite bool_decide_false.
Qed.

Lemma sg_step_write s msg t :
  sg_write (sg_type s) t msg →
  sg_step s msg =
    Ok (if negb (bool_decide (is_Some (sg_latest s))) || flt (sg_latestOff s) (Some t)
        then (mkSingleton (sg_type s) (msg_bod msg) (Some t), true) else (s, false)).
Proof.
  intros [(eid & bs & He & Hb & <-) [_ Ht]]. unfold sg_step. rewrite He, Hb, Ht. simpl.
  rewrite bool_decide_true by done. by case_match.
Qed.

(** What the manager holds: the body of a message no other written message
    is later than. *)
Definition sg_holds (s : singleton) (msgs : list IMessage) : Prop :=
  ∃ msg t, msg ∈ msgs ∧ sg_write (sg_type s) t msg ∧ sg_latest s = msg_bod msg ∧
    sg_latestOff s = Some t ∧
    ∀ m t', m ∈ msgs → sg_write (sg_type s) t' m → t' <= t.

Lemma sg_write_fun type t t' msg : sg_write type t msg → sg_write type t' msg → t = t'.
Proof. intros (_ & _ & H1) (_ & _ & H2). congruence. Qed.

Lemma sg_write_not_other type t msg : sg_write type t msg → ¬ sg_other type msg.
Proof. intros [(e & b & H1 & H2 & H3) _] [[e' H]|(e' & b' & H4 & H5 & H6)]; congruence. Qed.

Definition sg_state (s : singleton) (seen : list IMessage) : Prop :=
  (sg_latest s = None ∧ ∀ m t, m ∈ seen → ¬ sg_write (sg_type s) t m) ∨ sg_holds s seen.

Lemma sg_step_state s seen msg :
  sg_state s seen → sg_other (sg_type s) msg ∨ (∃ t, sg_write (sg_type s) t msg) →
  ∃ s' e, sg_step s msg = Ok (s', e) ∧ sg_type s' = sg_type s ∧ sg_state s' (seen ++ [msg]).
Proof.
  intros Hs [Ho|[t Hw]].
  - exists s, false. split; [by apply sg_step_other|]. split; [done|].
    destruct Hs as [[H1 H2]|(m & t & Hm & Hw & Hl & Hf & Hmax)]; [left|right].
    + split; [done|]. intros m t [?| ->%list_elem_of_singleton]%elem_of_app; [by apply H2|].
      intros Hw. by apply sg_write_not_other in Hw.
    + exists m, t. split_and!; try done; [set_solver|].
      intros m' t' [?| ->%list_elem_of_singleton]%elem_of_app Hw'; [by eapply Hmax|].
      by apply sg_write_not_other in Hw'.
  - rewrite (sg_step_write s msg t Hw).
    assert (Hnew : sg_holds (mkSingleton (sg_type s) (msg_bod msg) (Some t)) (seen ++ [msg]) ∨
      ∃ m t0, m ∈ seen ∧ sg_write (sg_type s) t0 m ∧ t < t0).
    { destruct Hs as [[H1 H2]|(m & t0 & Hm & Hw0 & Hl & Hf & Hmax)].
      - left. exists msg, t. split_and!; try done; [set_solver|].
        intros m' t' [Hin| ->%list_elem_of_singleton]%elem_of_app Hw'; [by apply H2 in Hw'|].
        by rewrite (sg_write_fun _ _ _ _ Hw Hw').
      - destruct (decide (t < t0)); [right; by exists m, t0|left].
        exists msg, t. split_and!; try done; [set_solver|].
        intros m' t' [Hin| ->%list_elem_of_singleton]%elem_of_app Hw'; [|].
        + specialize (Hmax m' t' Hin Hw'). lia.
        + by rewrite (sg_write_fun _ _ _ _ Hw Hw'). }
    destruct Hs as [[H1 H2]|Hh].
    + rewrite H1. cbn. do 2 eexists. split; [done|]. split; [done|right].
      destruct Hnew as [?|(m & t0 & Hm & Hw0 & _)]; [done|]. by apply H2 in Hw0.
    + pose proof Hh as (m & t0 & Hm & Hw0 & Hl & Hf & Hmax).
      pose proof Hw0 as (_ & [b Hb] & _). rewrite Hl, Hb, Hf. cbn.
      destruct (Z.ltb_spec t0 t).
      * do 2 eexists. split; [done|]. split; [done|right].
        destruct Hnew as [?|(m1 & t1 & Hm1 & Hw1 & Hlt)]; [done|].
        specialize (Hmax m1 t1 Hm1 Hw1). lia.
      * exists s, false. split; [done|]. split; [done|right].
        exists m, t0. split_and!; try done; [set_solver|].
        intros m' t' [Hin| ->%list_elem_of_singleton]%elem_of_app Hw'; [by eapply Hmax|].
        by rewrite <-(sg_write_fun _ _ _ _ Hw Hw').
Qed.

Lemma sg_apply_state msgs s seen :
  sg_state s seen →
  Forall (λ m, sg_other (sg_type s) m ∨ ∃ t, sg_write (sg_type s) t m) msgs →
  ∃ s' n, sg_apply s msgs = Ok (s', n) ∧ sg_type s' = sg_type s ∧ sg_state s' (seen ++ msgs).
Proof.
  revert s seen. induction msgs as [|msg msgs IH]; intros s seen Hs Hf; simpl.
  { exists s, 0%nat. by rewrite app_nil_r. }
  apply Forall_cons in Hf as [Hm Hf].
  destruct (sg_step_state s seen msg Hs Hm) as (s1 & e & -> & Ht & Hs1). simpl.
  rewrite <-Ht in Hf. destruct (IH s1 _ Hs1 Hf) as (s2 & n & -> & Ht2 & Hs2). simpl.
  do 2 eexists. split; [done|]. split; [congruence|]. by rewrite <-(assoc_L app) in Hs2.
Qed.
