(* ===== verification/Cursor.v ===== *)
(** * Realm rows and host cursors ([web/src/stores/{cursor,realm,label}.ts])

    Realm counters and the keys built from them: which realm keys a client
    tries, where it stands on each host, and the key of a queued download. *)
From S2P Require Export Codecs.
From stdpp Require Import pretty.
From S2P Require Export Js.

(** [`${n}`] for an integer below [10^21]. *)
Definition num_str (n : Z) : jsstr := js (pretty n).

Record RealmCursor := mkCursor { rc_kdm : IKDM; rc_lastSeq : Z }.

(** A host row as far as cursors go. *)
Record CursorRow := mkRow { cr_lastSeq : Z; cr_seqs : option (list RealmCursor) }.

Definition isDefaultRealm (realm : option IKDM) : bool :=
  match realm with
  | None => true
  | Some r => bool_decide (kdm_label r = kdm_label nullKDM) && (kdm_index r =? kdm_index nullKDM)
  end.

Definition sameRealm (a b : IKDM) : bool :=
  bool_decide (kdm_label a = kdm_label b) && (kdm_index a =? kdm_index b).

(** [`${label}\0${index}`] *)
Definition realmKey (realm : IKDM) : jsstr := kdm_label realm ++ [0] ++ num_str (kdm_index realm).

Definition cursorOf (row : CursorRow) (realm : IKDM) : Z :=
  if isDefaultRealm (Some realm) then cr_lastSeq row
  else match list_find (λ s, sameRealm (rc_kdm s) realm = true) (default [] (cr_seqs row)) with
       | Some (_, hit) => rc_lastSeq hit
       | None => 0
       end.

(** ** Realm rows ([realm.ts]) *)

Record IRealm := mkRealm { rl_label : jsstr; rl_index : Z; rl_prior : option (list Z) }.

Definition isIndex (n : Z) : bool := 0 <=? n.

Definition advanceRealm (label : jsstr) (prev : option IRealm) (index : Z) : Res IRealm :=
  if negb (isIndex index) then Err InvalidParam
  else match prev with
  | None => Ok (mkRealm label index None)
  | Some p =>
      if index <? rl_index p then Err InvalidParam
      else if rl_index p <? index
      then Ok (mkRealm label index (Some (default [] (rl_prior p) ++ [rl_index p])))
      else Ok (mkRealm label index (rl_prior p))
  end.

(** ** Realm keys to try *)

(** [add] of [realmKDMs]: the seen keys and the list. *)
Definition add_kdm (acc : list jsstr * list IKDM) (label : jsstr) (index : Z)
    : list jsstr * list IKDM :=
  let realm := if bool_decide (label = []) && (index =? 0) then nullKDM else mkKDM label index in
  let key := realmKey realm in
  if set_has key acc.1 then acc else (set_add key acc.1, acc.2 ++ [realm]).

Definition realmKDMs_row (acc : list jsstr * list IKDM) (row : IRealm) : list jsstr * list IKDM :=
  let acc := add_kdm acc (rl_label row) (rl_index row) in
  match rl_prior row with
  | None => acc
  | Some prior => fold_left (λ acc index, add_kdm acc (rl_label row) index) prior acc
  end.

Definition realmKDMs (rows : list IRealm) : list IKDM :=
  (fold_left realmKDMs_row rows ([realmKey nullKDM], [nullKDM])).2.

Definition realmKDM (label : option jsstr) (rows : list IRealm) : IKDM :=
  match label with
  | None | Some [] => nullKDM
  | Some label =>
      match list_find (λ row, rl_label row = label) rows with
      | Some (_, row) => mkKDM (rl_label row) (rl_index row)
      | None => mkKDM label 0
      end
  end.

Definition storedRealm (realm : IKDM) : option IKDM :=
  if isDefaultRealm (Some realm) then None else Some realm.

(** [`${host}:${seq}`], with the realm between where it is not the default. *)
Definition downloadKey (host : jsstr) (seq : Z) (realm : option IKDM) : jsstr :=
  let r := default nullKDM realm in
  if isDefaultRealm (Some r) then host ++ js ":" ++ num_str seq
  else host ++ js ":" ++ kdm_label r ++ js ":" ++ num_str (kdm_index r) ++ js ":" ++ num_str seq.

Record HostSeqsUpdate := mkSeqs { hs_lastSeq : option Z; hs_setLastSeq : option Z }.

Definition nextCursor (cur : Z) (u : HostSeqsUpdate) : option Z :=
  match hs_setLastSeq u with
  | Some s => Some s
  | None =>
      match hs_lastSeq u with
      | Some s => if cur <? s then Some s else None
      | None => None
      end
  end.

Definition projectCursors (cursors : list RealmCursor) : CursorRow :=
  let '(lastSeq, seqs) := fold_left (λ '(lastSeq, seqs) c,
    if isDefaultRealm (Some (rc_kdm c)) then (rc_lastSeq c, seqs) else (lastSeq, seqs ++ [c]))
    cursors (0, []) in
  if Nat.eqb (length seqs) 0 then mkRow lastSeq None else mkRow lastSeq (Some seqs).

(** ** Account labels ([label.ts]) *)

(** The white space [trim] removes. *)
Definition is_space (c : Z) : bool :=
  bool_decide (c ∈ [9; 10; 11; 12; 13; 32; 160; 5760; 8232; 8233; 8239; 8287; 12288; 65279]) ||
  ((8192 <=? c) && (c <=? 8202)).

Fixpoint trim_start (s : jsstr) : jsstr :=
  match s with c :: s' => if is_space c then trim_start s' else s | [] => [] end.
Definition js_trim (s : jsstr) : jsstr := reverse (trim_start (reverse (trim_start s))).

Definition accountLabel (raw : option jsstr) : jsstr :=
  match raw with None => [] | Some raw => js_trim raw end.

Definition singleAccountLabel (current raw : option jsstr) (occupied : bool) : Res jsstr :=
  let label := accountLabel raw in
  match current with
  | Some current =>
      if occupied && negb (bool_decide (current = label)) then Err InvalidParam else Ok label
  | None => Ok label
  end.

(** ** Keys are unambiguous *)

Definition colon : Z := 58.

Lemma pretty_N_go_digits x s :
  (∀ c, c ∈ js s → 48 <= c <= 57) → ∀ c, c ∈ js (pretty_N_go x s) → 48 <= c <= 57.
Proof.
  revert s. induction (N.lt_wf_0 x) as [x _ IH]. intros s Hs.
  destruct (decide (x = 0%N)) as [->|Hx]; [by rewrite pretty_N_go_0|].
  rewrite pretty_N_go_step by lia. apply IH; [apply N.div_lt; lia|].
  unfold js. cbn. intros c [->|Hc]%elem_of_cons; [|by apply Hs].
  assert (x mod 10 < 10)%N by (by apply N.mod_lt).
  unfold pretty_N_char. destruct (x mod 10)%N as [|p]; [by vm_compute|].
  do 4 (destruct p as [p|p|]; try lia; try by vm_compute).
Qed.

Lemma pretty_N_digits x c : c ∈ js (pretty (x : N)) → 48 <= c <= 57.
Proof.
  unfold pretty, pretty_N. case_decide.
  - intros H0. unfold js in H0. cbn in H0. apply list_elem_of_singleton in H0 as ->. by vm_compute.
  - apply pretty_N_go_digits. intros ?. unfold js. cbn. by intros ?%not_elem_of_nil.
Qed.

Lemma num_str_chars n c : c ∈ num_str n → c = 45 ∨ 48 <= c <= 57.
Proof.
  unfold num_str. destruct n as [|p|p]; unfold pretty, pretty_Z.
  - intros H. unfold js in H. cbn in H. apply list_elem_of_singleton in H as ->. right. by vm_compute.
  - unfold pretty, pretty_positive. intros H%pretty_N_digits. by right.
  - unfold js. cbn. intros [->|H]%elem_of_cons; [by left; vm_compute|right].
    by apply (pretty_N_digits (Npos p)).
Qed.

#[export] Instance js_inj : Inj eq eq js.
Proof.
  intros s t H. unfold js in H.
  rewrite <-(String.string_of_list_ascii_of_string s), <-(String.string_of_list_ascii_of_string t). f_equal.
  revert H. generalize (String.list_ascii_of_string s), (String.list_ascii_of_string t). clear.
  induction l as [|a l IH]; intros [|b l']; cbn; [done..|]. intros [= H1 H2].
  f_equal; [|by apply IH]. apply (inj Z.of_N), (f_equal Ascii.ascii_of_N) in H1.
  by rewrite !Ascii.ascii_N_embedding in H1.
Qed.

#[export] Instance num_str_inj : Inj eq eq num_str.
Proof. intros a b H. unfold num_str in H. by apply (inj js), (inj pretty) in H. Qed.

(** Split at the last separator. *)
Lemma split_last {A} (c : A) a a' d d' :
  c ∉ d → c ∉ d' → a ++ [c] ++ d = a' ++ [c] ++ d' → a = a' ∧ d = d'.
Proof.
  intros Hd Hd' H. apply app_eq_inv in H as [(k & -> & H)|(k & -> & H)];
    (destruct k as [|x k]; cbn in H; simplify_eq; [by rewrite app_nil_r|set_solver]).
Qed.

(** Split at the first separator. *)
Lemma split_first {A} (c : A) a a' d d' :
  c ∉ a → c ∉ a' → a ++ [c] ++ d = a' ++ [c] ++ d' → a = a' ∧ d = d'.
Proof.
  intros Hd Hd' H. apply app_eq_inv in H as [(k & -> & H)|(k & -> & H)];
    (destruct k as [|x k]; cbn in H; simplify_eq; [by rewrite app_nil_r|set_solver]).
Qed.

Lemma realmKey_inj a b : realmKey a = realmKey b → a = b.
Proof.
  unfold realmKey. intros H. apply split_last in H as [H1 H2].
  - apply (inj num_str) in H2. destruct a, b. cbn in *. by subst.
  - by intros [?|[? ?]]%num_str_chars.
  - by intros [?|[? ?]]%num_str_chars.
Qed.

Lemma colon_num n : colon ∉ num_str n.
Proof. unfold colon. intros [?|?]%num_str_chars; lia. Qed.

Lemma isDefaultRealm_spec r : isDefaultRealm (Some r) = true ↔ r = nullKDM.
Proof.
  unfold isDefaultRealm. rewrite andb_true_iff, bool_decide_eq_true, Z.eqb_eq.
  destruct r as [l i]. cbn. split; [by intros [-> ->]|by intros [= -> ->]].
Qed.

(** Where no host label holds a colon. *)
Lemma downloadKey_parts host host' seq seq' r r' :
  colon ∉ host → colon ∉ host' →
  downloadKey host seq r = downloadKey host' seq' r' →
  host = host' ∧ seq = seq' ∧ default nullKDM r = default nullKDM r'.
Proof.
  intros Hh Hh'. unfold downloadKey.
  set (k := default nullKDM r). set (k' := default nullKDM r').
  change (js ":") with [colon].
  destruct (isDefaultRealm (Some k)) eqn:E, (isDefaultRealm (Some k')) eqn:E'; intros H.
  - apply isDefaultRealm_spec in E, E'. apply split_first in H as [-> H]; [|done..].
    apply (inj num_str) in H. split_and!; congruence.
  - apply split_first in H as [-> H]; [|done..]. exfalso. eapply (colon_num seq). rewrite H. set_solver.
  - apply split_first in H as [-> H]; [|done..]. exfalso. eapply (colon_num seq'). rewrite <-H. set_solver.
  - apply split_first in H as [-> H]; [|done..].
    rewrite !(assoc_L app (kdm_label _) [colon]), !(assoc_L app _ (num_str _)) in H.
    apply split_last in H as [H Hs]; [|apply colon_num..].
    rewrite <-!(assoc_L app) in H. apply split_last in H as [Hl Hi]; [|apply colon_num..].
    apply (inj num_str) in Hs, Hi. split_and!; [done|done|]. destruct k, k'. cbn in *. congruence.
Qed.

(** ** The keys to try cover every counter *)

Definition kdms_ok (acc : list jsstr * list IKDM) : Prop :=
  NoDup acc.2 ∧ ∀ k, k ∈ acc.1 ↔ ∃ r, r ∈ acc.2 ∧ realmKey r = k.

Lemma add_kdm_ok acc label index :
  kdms_ok acc →
  kdms_ok (add_kdm acc label index) ∧
  ∀ r, r ∈ (add_kdm acc label index).2 ↔ r ∈ acc.2 ∨ r = mkKDM label index.
Proof.
  intros [Hn Hk]. unfold add_kdm.
  assert ((if bool_decide (label = []) && (index =? 0) then nullKDM else mkKDM label index) =
    mkKDM label index) as ->.
  { case_bool_decide; [|done]. simpl. destruct (Z.eqb_spec index 0); [by subst|done]. }
  unfold set_has. case_bool_decide as Hin.
  - split; [done|]. apply Hk in Hin as (r & Hr & ->%realmKey_inj). set_solver.
  - assert (Hni : mkKDM label index ∉ acc.2) by (intros H; apply Hin, Hk; eauto).
    split; [|cbn; set_solver]. split; cbn.
    + apply NoDup_app. split_and!; [done| |apply NoDup_singleton]. set_solver.
    + intros k. rewrite elem_of_set_add, Hk. set_solver.
Qed.

Definition row_kdms (row : IRealm) : list IKDM :=
  mkKDM (rl_label row) <$> (rl_index row :: default [] (rl_prior row)).

Lemma realmKDMs_row_ok acc row :
  kdms_ok acc →
  kdms_ok (realmKDMs_row acc row) ∧
  ∀ r, r ∈ (realmKDMs_row acc row).2 ↔ r ∈ acc.2 ∨ r ∈ row_kdms row.
Proof.
  intros Ha. unfold realmKDMs_row, row_kdms.
  destruct (add_kdm_ok acc (rl_label row) (rl_index row) Ha) as [H1 H2].
  assert (Hp : ∀ ps acc0, kdms_ok acc0 →
    kdms_ok (fold_left (λ acc index, add_kdm acc (rl_label row) index) ps acc0) ∧
    ∀ r, r ∈ (fold_left (λ acc index, add_kdm acc (rl_label row) index) ps acc0).2 ↔
      r ∈ acc0.2 ∨ r ∈ mkKDM (rl_label row) <$> ps).
  { induction ps as [|p ps IH]; intros acc0 Ha0; cbn [fold_left].
    { split; [done|]. set_solver. }
    destruct (add_kdm_ok acc0 (rl_label row) p Ha0) as [H3 H4].
    destruct (IH _ H3) as [H5 H6]. split; [done|]. intros r. rewrite H6, H4, fmap_cons, elem_of_cons. tauto. }
  destruct (rl_prior row) as [ps|]; cbn [default from_option id].
  - destruct (Hp ps _ H1) as [H3 H4]. split; [done|]. intros r.
    rewrite H4, H2, fmap_cons, elem_of_cons. tauto.
  - split; [done|]. intros r. rewrite H2, fmap_cons, elem_of_cons. set_solver.
Qed.

Lemma realmKDMs_ok rows acc :
  kdms_ok acc →
  kdms_ok (fold_left realmKDMs_row rows acc) ∧
  ∀ r, r ∈ (fold_left realmKDMs_row rows acc).2 ↔ r ∈ acc.2 ∨ ∃ row, row ∈ rows ∧ r ∈ row_kdms row.
Proof.
  revert acc. induction rows as [|row rows IH]; intros acc Ha; cbn [fold_left].
  { split; [done|]. set_solver. }
  destruct (realmKDMs_row_ok acc row Ha) as [H1 H2]. destruct (IH _ H1) as [H3 H4].
  split; [done|]. intros r. rewrite H4, H2. set_solver.
Qed.

Lemma realmKDMs_start : kdms_ok ([realmKey nullKDM], [nullKDM]).
Proof. split; [apply NoDup_singleton|]. intros k. cbn. set_solver. Qed.

(** ** Counters *)

(** The counters a realm row knows. *)
Definition known (row : IRealm) : list Z := rl_index row :: default [] (rl_prior row).

(** [put] of the realm store: a rejected index leaves the row. *)
Definition advance_step (label : jsstr) (row : option IRealm) (index : Z) : option IRealm :=
  match advanceRealm label row index with Ok row' => Some row' | _ => row end.

Lemma advance_known label row index row' :
  advanceRealm label row index = Ok row' →
  rl_index row' = index ∧ rl_label row' = label ∧
  match row with
  | Some p => rl_index p <= index ∧ known p ⊆ known row'
  | None => known row' = [index]
  end.
Proof.
  unfold advanceRealm, known. case_match; [done|]. destruct row as [p|]; [|by intros [= <-]].
  destruct (Z.ltb_spec index (rl_index p)); [done|].
  destruct (Z.ltb_spec (rl_index p) index); intros [= <-]; cbn; split_and!; try done; try lia.
  - set_solver.
  - assert (index = rl_index p) as -> by lia. done.
Qed.

(** The indexes a sequence of [put]s accepts. *)
Fixpoint accepted (label : jsstr) (row : option IRealm) (indexes : list Z) : list Z :=
  match indexes with
  | [] => []
  | i :: indexes =>
      match advanceRealm label row i with
      | Ok row' => i :: accepted label (Some row') indexes
      | _ => accepted label row indexes
      end
  end.

Lemma advance_keeps label indexes r :
  rl_label r = label →
  ∃ r', fold_left (advance_step label) indexes (Some r) = Some r' ∧ rl_label r' = label ∧
    known r ⊆ known r' ∧ rl_index r <= rl_index r'.
Proof.
  revert r. induction indexes as [|i indexes IH]; intros r Hr; cbn [fold_left].
  { exists r. split_and!; done || lia. }
  unfold advance_step at 2. destruct (advanceRealm label (Some r) i) as [r1| |] eqn:E; [|by apply IH..].
  apply advance_known in E as (H1 & H2 & H3 & H4).
  destruct (IH r1 H2) as (r' & -> & H5 & H6 & H7). exists r'. split_and!; try done; [set_solver|lia].
Qed.

Lemma accepted_known label indexes row i :
  (∀ r, row = Some r → rl_label r = label) → i ∈ accepted label row indexes →
  ∃ r, fold_left (advance_step label) indexes row = Some r ∧ i ∈ known r ∧ rl_label r = label ∧
    i <= rl_index r.
Proof.
  revert row. induction indexes as [|j indexes IH]; intros row Hl; cbn [accepted fold_left].
  { by intros ?%not_elem_of_nil. }
  unfold advance_step at 2. destruct (advanceRealm label row j) as [r1| |] eqn:E; [|by apply IH..].
  apply advance_known in E as (H1 & H2 & H3).
  intros [->|Hi]%elem_of_cons; [|apply IH; [by intros ? [= <-]|done]].
  destruct (advance_keeps label indexes r1 H2) as (r' & -> & H5 & H6 & H7).
  exists r'. split_and!; try done; [|lia]. apply H6. unfold known. rewrite H1. by left.
Qed.

Lemma realmKDMs_head rows : head (realmKDMs rows) = Some nullKDM.
Proof.
  unfold realmKDMs.
  assert (H : ∀ acc l i, head acc.2 = Some nullKDM → head (add_kdm acc l i).2 = Some nullKDM).
  { intros [seen out] l i Hh. unfold add_kdm. case_match; [done|]. cbn in *. by destruct out. }
  assert (Hr : ∀ acc row, head acc.2 = Some nullKDM → head (realmKDMs_row acc row).2 = Some nullKDM).
  { intros acc row Hh. unfold realmKDMs_row. apply (H _ (rl_label row) (rl_index row)) in Hh.
    destruct (rl_prior row) as [ps|]; [|done]. revert Hh. generalize (add_kdm acc (rl_label row) (rl_index row)).
    induction ps as [|p ps IH]; intros acc' Hh; [done|]. by apply IH, H. }
  generalize (eq_refl : head (([realmKey nullKDM], [nullKDM]) : list jsstr * list IKDM).2 = Some nullKDM).
  generalize (([realmKey nullKDM], [nullKDM]) : list jsstr * list IKDM).
  induction rows as [|row rows IH]; intros acc Hh; [done|]. by apply IH, Hr.
Qed.

(** ** Cursors *)

Definition other_cursor (c : RealmCursor) : bool := negb (isDefaultRealm (Some (rc_kdm c))).

Lemma project_fold cs l seqs :
  fold_left (λ '(lastSeq, seqs) c,
    if isDefaultRealm (Some (rc_kdm c)) then (rc_lastSeq c, seqs) else (lastSeq, seqs ++ [c]))
    cs (l, seqs) =
  (default l (rc_lastSeq <$> last (filter (λ c, other_cursor c = false) cs)),
   seqs ++ filter (λ c, other_cursor c = true) cs).
Proof.
  revert l seqs. induction cs as [|c cs IH]; intros l seqs; cbn [fold_left].
  { by rewrite app_nil_r. }
  assert (Ho : other_cursor c = negb (isDefaultRealm (Some (rc_kdm c)))) by done.
  rewrite !filter_cons. destruct (isDefaultRealm (Some (rc_kdm c))); rewrite IH, Ho.
  - rewrite decide_True, decide_False by done. rewrite last_cons. by destruct (last _).
  - rewrite decide_False, decide_True by done. by rewrite <-(assoc_L app).
Qed.

Lemma project_default cs :
  cr_lastSeq (projectCursors cs) = default 0 (rc_lastSeq <$> last (filter (λ c, other_cursor c = false) cs)).
Proof. unfold projectCursors. rewrite project_fold. by case_match. Qed.

Lemma project_seqs cs :
  default [] (cr_seqs (projectCursors cs)) = filter (λ c, other_cursor c = true) cs.
Proof.
  unfold projectCursors. rewrite project_fold. cbn.
  by destruct (filter _ cs) as [|c l].
Qed.

Lemma cursors_unique cs c c' :
  NoDup (rc_kdm <$> cs) → c ∈ cs → c' ∈ cs → rc_kdm c = rc_kdm c' → c = c'.
Proof.
  intros Hn [i Hi]%list_elem_of_lookup_1 [j Hj]%list_elem_of_lookup_1 He.
  assert (i = j) as ->; [|congruence].
  eapply (NoDup_lookup (rc_kdm <$> cs)); [done| |]; rewrite list_lookup_fmap;
    [by rewrite Hi|by rewrite Hj, He].
Qed.

Lemma sameRealm_spec a b : sameRealm a b = true ↔ a = b.
Proof.
  unfold sameRealm. rewrite andb_true_iff, bool_decide_eq_true, Z.eqb_eq.
  destruct a, b. cbn. split; [by intros [-> ->]|by intros [= -> ->]].
Qed.

Lemma project_hit cs c :
  NoDup (rc_kdm <$> cs) → c ∈ cs → cursorOf (projectCursors cs) (rc_kdm c) = rc_lastSeq c.
Proof.
  intros Hn Hc. unfold cursorOf. destruct (isDefaultRealm (Some (rc_kdm c))) eqn:E.
  - rewrite (project_default cs).
    assert (Hin : c ∈ filter (λ c, other_cursor c = false) cs).
    { apply list_elem_of_filter. unfold other_cursor. by rewrite E. }
    destruct (last (filter (λ c, other_cursor c = false) cs)) as [c'|] eqn:El.
    + cbn. apply last_Some_elem_of in El. apply list_elem_of_filter in El as [Ho Hc'].
      f_equal. symmetry. apply (cursors_unique cs); [done|done|done|].
      unfold other_cursor in Ho. apply negb_false_iff in Ho.
      apply isDefaultRealm_spec in E, Ho. congruence.
    + apply last_None in El. rewrite El in Hin. by apply not_elem_of_nil in Hin.
  - rewrite project_seqs.
    destruct (list_find _ _) as [[i hit]|] eqn:El.
    + apply list_find_Some in El as (Hl & Hs & _). apply sameRealm_spec in Hs.
      apply list_elem_of_lookup_2, list_elem_of_filter in Hl as [_ Hl].
      f_equal. by apply (cursors_unique cs).
    + apply list_find_None in El. rewrite Forall_forall in El. exfalso. apply (El c).
      * apply list_elem_of_filter. unfold other_cursor. by rewrite E.
      * by apply sameRealm_spec.
Qed.

Lemma project_miss cs realm :
  realm ∉ rc_kdm <$> cs → cursorOf (projectCursors cs) realm = 0.
Proof.
  intros Hn. unfold cursorOf. destruct (isDefaultRealm (Some realm)) eqn:E.
  - rewrite (project_default cs).
    destruct (last (filter (λ c, other_cursor c = false) cs)) as [c'|] eqn:El; [|done].
    apply last_Some_elem_of in El. apply list_elem_of_filter in El as [Ho Hc'].
    exfalso. apply Hn, list_elem_of_fmap. exists c'. split; [|done].
    unfold other_cursor in Ho. apply negb_false_iff in Ho.
    apply isDefaultRealm_spec in E, Ho. congruence.
  - rewrite project_seqs. destruct (list_find _ _) as [[i hit]|] eqn:El; [|done].
    apply list_find_Some in El as (Hl & Hs & _). apply sameRealm_spec in Hs.
    apply list_elem_of_lookup_2, list_elem_of_filter in Hl as [_ Hl].
    exfalso. apply Hn, list_elem_of_fmap. by exists hit.
Qed.
