(* ===== verification/ClientProps.v ===== *)
(** * Properties of the client's scheduling, ordering and state managers

    Batches, newest-first order, the concurrent map, coalesced work, the state
    managers, realm counters and cursors. *)
From S2P Require Import Batch Pool Coalesce State Cursor EntProps.
From stdpp Require Import sorting relations.
Import EntDBMemory.
#[local] Open Scope Z_scope.

(** ** Batches *)

(** [batchByBytes] keeps every item once and in order; each batch is
    within the budget or a single item; and it is greedy: the first item of a
    batch would not have fitted the batch before it (or that one was full). *)
Theorem batches_cover_and_fill {T} (sizeOf : T → Z) limit items :
  let bs := batchByBytes sizeOf limit items in
  concat bs = items ∧ Forall (batch_fits sizeOf limit) bs ∧ no_room sizeOf limit bs.
Proof.
  intros bs. destruct (batch_loop_spec sizeOf limit items [] [] 0) as [H1 H2];
    [done|by left|done|].
  split_and!; [exact H1|exact H2|]. by apply batch_loop_full.
Qed.

(** ** Newest first *)

(** [sortByHlcDesc] returns the same heads newest first: a later time
    stands before an earlier one, on equal times the higher counter first, and
    heads whose id does not parse last. *)
Theorem hlc_sort_newest_first {T} (headOf : T → IHlcHead) items :
  Forall (λ x, hlc_dated (headOf x)) items →
  sortByHlcDesc headOf items ≡ₚ items ∧
  StronglySorted (λ x y, newer (headOf x) (headOf y)) (sortByHlcDesc headOf items).
Proof. intros H. split; [apply js_sort_perm|by apply sortByHlc_sorted]. Qed.

Lemma hlc_sort_newest_first_witness :
  let hs := [mkHlc [] (Some 0) 0; mkHlc Sample.a (Some 0) 1; mkHlc Sample.a (Some 7) 0;
             mkHlc Sample.a (Some 7) 3] in
  sortByHlcDesc id hs ≡ₚ hs ∧ StronglySorted (λ x y, newer x y) (sortByHlcDesc id hs).
Proof.
  intros hs. apply (hlc_sort_newest_first id hs).
  repeat (constructor; [vm_compute; discriminate|]). constructor.
Defined.

(** ** The concurrent map *)

(** [C36] [mapPool], whatever the order in which calls settle: at most
    [max(1, concurrency)] calls are in flight and no two are for the same
    item; every run ends within one step per item; and once no call is in
    flight it has rejected because a call did, or has resolved with the result
    of each item in input order. *)
Theorem mapPool_bounded_and_ordered {T R} (items : list T) concurrency (fn : T → nat → option R) s :
  rtc (pstep items fn) (pool_start items concurrency) s →
  Z.of_nat (awaiting s) <= Z.max 1 concurrency ∧
  (∀ w w' i, jobs s !! w = Some (Awaiting i) → jobs s !! w' = Some (Awaiting i) → w = w') ∧
  (∀ k s', nsteps (pstep items fn) k (pool_start items concurrency) s' → (k <= length items)%nat) ∧
  ((∀ s', ¬ pstep items fn s s') →
    (mapPool items s = RejectedP ∧ ∃ i, (i < length items)%nat ∧ call items fn i = None) ∨
    mapPool items s = Resolved (imap (λ i x, fn x i) items) ∧
    ∀ i, (i < length items)%nat → is_Some (call items fn i)).
Proof.
  intros Hr. pose proof (reachable_ok _ _ _ _ Hr) as Hok. split_and!.
  - pose proof (ok_jobs _ _ _ _ Hok) as Hj. pose proof (awaiting_le_jobs s) as Hle.
    unfold workers in Hj. lia.
  - apply (ok_single _ _ _ _ Hok).
  - intros k s' Hk%steps_bound. unfold n in Hk. lia.
  - intros Hstuck. destruct (decide (length items = 0%nat)) as [Hz|Hnz].
    { right. destruct items; [|done]. split; [done|]. cbn. lia. }
    destruct (stuck_result _ _ _ _ Hok Hstuck) as [[Hrej ->]|[-> Hall]]; [unfold n; lia|left|right].
    + split; [done|]. by eapply rejected_call.
    + split; [|intros i Hi; by apply Hall]. f_equal. apply list_eq. intros i.
      rewrite list_lookup_imap. destruct (decide (i < length items)%nat) as [Hi|Hi].
      * destruct (Hall i Hi) as [-> _]. unfold call.
        destruct (lookup_lt_is_Some_2 items i Hi) as [x ->]. done.
      * rewrite !lookup_ge_None_2; [done|lia|]. rewrite (ok_len _ _ _ _ Hok). unfold n. lia.
Qed.

Lemma mapPool_bounded_and_ordered_witness :
  let items := [10; 20; 30] in let fn x (i : nat) := Some (x + Z.of_nat i) in
  ∃ s, rtc (pstep items fn) (pool_start items 2) s ∧
    ((mapPool items s = RejectedP ∧ ∃ i, (i < length items)%nat ∧ call items fn i = None) ∨
     mapPool items s = Resolved (imap (λ i x, fn x i) items)).
Proof.
  intros items fn.
  pose (go s w := default s (settle items fn s w)).
  pose (s1 := go (pool_start items 2) 1%nat). pose (s2 := go s1 1%nat). pose (s3 := go s2 0%nat).
  assert (Hr : rtc (pstep items fn) (pool_start items 2) s3).
  { apply (rtc_l _ _ s1); [by apply (pstep_settle _ _ _ _ 1)|].
    apply (rtc_l _ _ s2); [by apply (pstep_settle _ _ _ _ 1)|].
    apply (rtc_l _ _ s3); [by apply (pstep_settle _ _ _ _ 0)|]. constructor. }
  exists s3. split; [exact Hr|].
  destruct (mapPool_bounded_and_ordered items 2 fn s3 Hr) as (_ & _ & _ & H).
  destruct H as [H|[H _]]; [|by left|by right].
  intros s' [w Hw]. destruct w as [|[|w]]; vm_compute in Hw; discriminate Hw.
Defined.

(** ** Coalesced work *)

(** [CoalesceTail] over work that does not throw synchronously: at most
    one pass runs at a time and nothing runs once the runner is unlocked; a
    caller whose promise is fulfilled gets the value of a pass that started
    after its call; no caller is left without a promise that is in flight or
    settled; and there are at most as many passes as calls. *)
Theorem coalesce_serial_and_fresh es :
  Forall async_event es →
  let s := fold_left tail_step es newTail in
  (length (drains s) <= 1)%nat ∧ (inflight s = None ↔ drains s = []) ∧
  (∀ p n k, (p, n) ∈ callers s → (p, Fulfilled k) ∈ settled s → (n < k)%nat) ∧
  (∀ p n, (p, n) ∈ callers s → inflight s = Some p ∨ ∃ o, (p, o) ∈ settled s) ∧
  (passes s <= length (callers s))%nat.
Proof.
  intros Hes s. pose proof (reach_ok es newTail newTail_ok Hes) as [H1 H2 H3 H4 H5 H6].
  fold s in H1, H2, H3, H4, H5, H6.
  split; [|split; [|split_and!]].
  - destruct (inflight s); [destruct H1 as [-> _]|rewrite H1]; cbn; lia.
  - destruct (inflight s); [destruct H1 as [-> _]|rewrite H1]; by split.
  - exact H3.
  - intros p n Hp. apply H2 in Hp as (_ & _ & [[? _]|?]); auto.
  - lia.
Qed.

Lemma coalesce_serial_and_fresh_witness :
  let es := [Run Returns; Run Returns; Run Returns; Settle true Returns; Settle true Returns] in
  let s := fold_left tail_step es newTail in
  passes s = 2%nat ∧ (passes s <= length (callers s))%nat.
Proof.
  intros es s. split; [reflexivity|].
  apply (coalesce_serial_and_fresh es). unfold es, async_event.
  repeat (constructor; [naive_solver|]). constructor.
Defined.

(** A trailing pass takes two turns at most: once no more calls come,
    the runner is unlocked after the current pass and one more. *)
Theorem coalesce_drains es ok1 ok2 :
  Forall async_event es →
  let s := fold_left tail_step es newTail in
  let s' := tail_step (tail_step s (Settle ok1 Returns)) (Settle ok2 Returns) in
  inflight s' = None ∧ drains s' = [] ∧ (passes s' <= S (passes s))%nat.
Proof.
  intros Hes s s'. pose proof (reach_ok es newTail newTail_ok Hes) as [H1 _ _ _ _ _].
  fold s in H1. subst s'. unfold tail_step, tail_settle.
  destruct (inflight s) as [p|] eqn:E; [destruct H1 as [Hd _]|rename H1 into Hd]; rewrite Hd.
  - destruct ok1; [destruct (again s) eqn:Ea|]; cbn; rewrite ?Ea, ?E; cbn;
      [destruct ok2; cbn| |]; split_and!; done || lia.
  - cbn. rewrite Hd. cbn. split_and!; done || lia.
Qed.

Lemma coalesce_drains_witness :
  let s := fold_left tail_step [Run Returns; Run Returns] newTail in
  let s' := tail_step (tail_step s (Settle true Returns)) (Settle false Returns) in
  inflight s' = None ∧ drains s' = [] ∧ (passes s' <= S (passes s))%nat.
Proof.
  apply (coalesce_drains [Run Returns; Run Returns] true false). unfold async_event.
  repeat (constructor; [naive_solver|]). constructor.
Defined.

(** If [work] throws synchronously on the call that starts a drain, the
    runner keeps a rejected promise for ever: whatever follows, no pass starts
    and every later caller gets that promise. *)
Theorem coalesce_sync_throw_wedges s es :
  inflight s = None → drains s = [] →
  let s0 := tail_run s Throws in
  let s' := fold_left tail_step es s0 in
  wedged (promises s) s' ∧ passes s' = passes s ∧
  ∀ m, callers (tail_run s' m) = callers s' ++ [(promises s, passes s)].
Proof.
  intros Hi Hd s0 s'.
  assert (Hw : wedged (promises s) s' ∧ passes s' = passes s0).
  { assert (H0 : wedged (promises s) s0).
    { subst s0. unfold tail_run. rewrite Hi. cbn. split_and!; [done|done|set_solver]. }
    subst s'. generalize s0, H0. clear. intros s0. revert s0.
    induction es as [|e es IH]; intros s0 H0; [done|]. cbn [fold_left].
    destruct (wedged_step _ _ e H0) as [H1 H2]. destruct (IH _ H1) as [H3 H4].
    split; [done|congruence]. }
  destruct Hw as [Hw Hp].
  assert (passes s0 = passes s) as Hp0 by (subst s0; unfold tail_run; by rewrite Hi).
  split_and!; [done|congruence|]. intros m. unfold tail_run at 1.
  destruct Hw as (-> & _). cbn. congruence.
Qed.

Lemma coalesce_sync_throw_wedges_witness :
  wedged 0 (fold_left tail_step [Run Returns; Settle true Returns] (tail_run newTail Throws)).
Proof. by apply (coalesce_sync_throw_wedges newTail [Run Returns; Settle true Returns]). Defined.

(** [Debounced]: in any history of schedules, timer ticks, flushes,
    cancels and settling passes, at most one pass runs at a time and no more
    passes start than [schedule] was called; a burst of schedules costs one. *)
Theorem debounce_bounds_passes delayMs es :
  let d := fold_left (deb_step delayMs) es newDebounced in
  (length (drains (dtail d)) <= 1)%nat ∧ (passes (dtail d) <= schedules es)%nat.
Proof.
  intros d. assert (Hok : tail_ok (dtail d)).
  { subst d. assert (H : tail_ok (dtail newDebounced)) by apply newTail_ok.
    revert H. generalize newDebounced. induction es as [|e es IH]; intros d0 H; [done|].
    cbn [fold_left]. by apply IH, deb_step_ok. }
  split.
  - destruct Hok as [H1 _ _ _ _ _]. destruct (inflight _); [destruct H1 as [-> _]|rewrite H1]; cbn; lia.
  - pose proof (deb_credit_bound delayMs es newDebounced newTail_ok) as H.
    fold d in H. revert H. unfold deb_credit, owed. cbn. lia.
Qed.

Example debounce_burst :
  passes (dtail (fold_left (deb_step 100) [Schedule; Schedule; Schedule; Elapse; Elapse; Flush]
    newDebounced)) = 1%nat.
Proof. reflexivity. Qed.

(** ** [StateManager] *)

(** When every message parses, [StateManager.apply] over the in-memory
    database applies their ops in order, reports for each message the outcome
    of its own op, hands on exactly the ids that were applied, and (without a
    cache) notifies the listeners of every type whose live rows changed. *)
Theorem state_apply_reports cacheDriven em d msgs ops :
  Forall2 (λ msg op, msgToOp msg = Ok op) msgs ops →
  ∃ out res,
    apply d ops = ((apply d ops).1, Ok out) ∧
    sm_apply apply cacheDriven em d msgs = ((apply d ops).1, Ok res) ∧
    sr_results res = Some <$> op_stats d ops ∧ length (sr_results res) = length msgs ∧
    default [] (sr_dirty res) = applied_eids ops (op_stats d ops) ∧
    (cacheDriven = false → ∀ k e l,
      let was := map_get k (ents d) = Some (Live e) in
      let now := map_get k (ents (apply d ops).1) = Some (Live e) in
      (was ∧ ¬ now) ∨ (now ∧ ¬ was) →
      l ∈ emit em (e_type e) → l ∈ sr_calls res).
Proof.
  intros H. pose proof (Forall2_length _ _ _ H) as Hlen. destruct (apply_stats d ops) as (out & Ho & Hst).
  assert (Ha : apply d ops = ((apply d ops).1, Ok out)).
  { rewrite <-Ho. by destruct (apply d ops). }
  destruct (apply_loop_types _ _ _ _ _ Ha) as [_ Htypes].
  pose proof (apply_loop_eids _ _ _ _ _ Ha) as Heids. cbn in Heids.
  exists out. eexists. split; [exact Ha|]. split.
  { unfold sm_apply. rewrite (parse_all _ _ H), Ha. reflexivity. }
  cbn. rewrite Hst. split_and!.
  - rewrite Hlen, <-(op_stats_length d ops). apply merge_all_parsed.
  - rewrite Hlen, <-(op_stats_length d ops), merge_all_parsed, length_fmap. done.
  - rewrite <-Heids. destruct (eids out); done.
  - intros -> k e l Hch Hl. apply list_elem_of_In, in_concat.
    exists (emit em (e_type e)). split; [|by apply list_elem_of_In].
    apply list_elem_of_In, list_elem_of_fmap. exists (e_type e). split; [done|].
    destruct (decide (e_type e ∈ types out)) as [|Hni]; [done|exfalso].
    specialize (Htypes k e Hni). tauto.
Qed.

(** A message that writes a note, and the op it becomes. *)
Definition note_msg (e : bytes) (off : Z) (body : bytes) : IMessage :=
  let bod := match encodeEnt (mkEnt None None (Some body)) with Ok b => b | _ => [] end in
  mkMsg (mkHead (Some (js "note")) e (Some off) 1 (blen bod) None) (Some bod).
Definition note_op (e : bytes) (off : Z) (body : bytes) : IOp :=
  mkOp (mkOpHead e (Some off) 1) (Some (mkMutate (js "note") None None (Some body))).

Lemma state_apply_reports_witness :
  let msgs := [note_msg Sample.a 0 [x0a]; note_msg Sample.a 0 [x0b]] in
  let ops := [note_op Sample.a 0 [x0a]; note_op Sample.a 0 [x0b]] in
  let em := [(js "note", [4%nat])] in
  ∃ res, (sm_apply apply false em Sample.empty msgs).2 = Ok res ∧
    sr_results res = [Some Success; Some NoChange].
Proof.
  intros msgs ops em.
  destruct (state_apply_reports false em Sample.empty msgs ops) as (out & res & _ & H1 & H2 & _).
  - constructor; [vm_compute; reflexivity|]. constructor; [vm_compute; reflexivity|constructor].
  - exists res. split; [exact (f_equal snd H1)|]. rewrite H2. vm_compute. reflexivity.
Defined.

(** The statuses are indexed by message but come from the parsed ops
    only: when a message that does not parse stands before one that does, the
    good message is applied, yet it is reported with the status of the op
    after its own, or with none at all. *)
Theorem state_apply_misaligned cacheDriven em d bad good op s :
  msgToOp bad = Err s → s ≠ Success → msgToOp good = Ok op →
  applyOp (getRow d (op_eid (op_head op))) op = Ok (row_of op) →
  ∃ res, sm_apply apply cacheDriven em d [bad; good] = (put d (row_of op), Ok res) ∧
    sr_results res = [Some s; None].
Proof.
  intros Hb Hs Hg Ha. unfold sm_apply, parse_msgs. rewrite Hb, Hg. simpl.
  unfold apply, apply_loop. unfold getRow in Ha. rewrite Ha. eexists. split; [reflexivity|].
  cbn. by rewrite bool_decide_true.
Qed.

Lemma state_apply_misaligned_witness :
  let bad := mkMsg (mkHead (Some []) Sample.a (Some 0) 0 1 None) (Some [xff]) in
  ∃ s res, sm_apply apply false [] Sample.empty [bad; note_msg Sample.a 0 [x0a]] =
    (put Sample.empty (row_of (note_op Sample.a 0 [x0a])), Ok res) ∧ sr_results res = [Some s; None].
Proof.
  intros bad. destruct (msgToOp bad) as [o|s|] eqn:E; [by vm_compute in E| |by vm_compute in E].
  exists s. apply (state_apply_misaligned false [] Sample.empty bad _ (note_op Sample.a 0 [x0a]) s E);
    [|vm_compute; reflexivity..].
  intros ->. by vm_compute in E.
Defined.

(** ** The singleton manager *)

(** The singleton manager keeps the latest write: after any messages,
    each of them a write of its type at some time or about something else, it
    holds the body of a write no other is later than, or nothing when there
    was none; and it never fails. *)
Theorem singleton_keeps_latest type msgs :
  Forall (λ m, sg_other type m ∨ ∃ t, sg_write type t m) msgs →
  ∃ s n, sg_apply (newSingleton type) msgs = Ok (s, n) ∧
    ((sg_latest s = None ∧ ∀ m t, m ∈ msgs → ¬ sg_write type t m) ∨
     ∃ msg t, msg ∈ msgs ∧ sg_write type t msg ∧ sg_latest s = msg_bod msg ∧
       sg_latestOff s = Some t ∧ ∀ m t', m ∈ msgs → sg_write type t' m → t' <= t).
Proof.
  intros H. destruct (sg_apply_state msgs (newSingleton type) []) as (s & n & H1 & H2 & H3).
  { left. split; [done|]. intros m t Hm. by apply not_elem_of_nil in Hm. }
  { done. }
  exists s, n. split; [done|]. cbn in H2, H3. unfold sg_state, sg_holds in H3. by rewrite H2 in H3.
Qed.

(** A write of the singleton "prefs", a delete, and what they say. *)
Definition prefs_msg (off : Z) (bod : option bytes) : IMessage :=
  match genSingletonUpsert (js "prefs") (Some 0) [] 0 with
  | Ok m => mkMsg (mkHead (Some []) (mh_eid (msg_head m)) (Some off) 0 0 None) bod
  | _ => mkMsg (mkHead None [] None 0 0 None) None
  end.

Lemma prefs_write off b : sg_write (js "prefs") off (prefs_msg off (Some b)).
Proof.
  split; [|by split]. do 2 eexists. split; [vm_compute; reflexivity|].
  split; [vm_compute; reflexivity|]. reflexivity.
Qed.

Lemma singleton_keeps_latest_witness :
  let msgs := [prefs_msg 5 (Some [x0a]); prefs_msg 9 (Some [x0b]); prefs_msg 7 (Some [x0c])] in
  ∃ s n, sg_apply (newSingleton (js "prefs")) msgs = Ok (s, n) ∧ sg_latest s = Some [x0b].
Proof.
  intros msgs. destruct (singleton_keeps_latest (js "prefs") msgs) as (s & n & H & _).
  - unfold msgs. repeat (constructor; [right; eexists; apply prefs_write|]). constructor.
  - exists s, n. split; [exact H|]. vm_compute in H. injection H as <- _. reflexivity.
Defined.

(** A delete leaves [latest] undefined, which the next message takes for
    nothing written yet: an older write that arrives after it comes back. *)
Lemma singleton_delete_forgets :
  match sg_apply (newSingleton (js "prefs"))
      [prefs_msg 10 (Some [x0a]); prefs_msg 20 None; prefs_msg 5 (Some [x0b])] with
  | Ok (s, _) => sg_latest s = Some [x0b] ∧ sg_latestOff s = Some 5
  | _ => False
  end.
Proof. vm_compute. split; reflexivity. Qed.

(** ** Realm counters and keys *)

(** No counter is forgotten: after any attempts to advance a realm,
    accepted or not, the stored index is the highest accepted one, and
    [realmKDMs] over the rows of the store lists the key of every accepted
    index of every row, with the default key first and no key twice. *)
Theorem realm_counters_all_tried label indexes others :
  let row := fold_left (advance_step label) indexes None in
  let rows := option_list row ++ others in
  (∀ i, i ∈ accepted label None indexes →
    mkKDM label i ∈ realmKDMs rows ∧ ∃ r, row = Some r ∧ i <= rl_index r) ∧
  (∀ r, r ∈ others → mkKDM (rl_label r) (rl_index r) ∈ realmKDMs rows) ∧
  NoDup (realmKDMs rows) ∧ head (realmKDMs rows) = Some nullKDM.
Proof.
  intros row rows. destruct (realmKDMs_ok rows _ realmKDMs_start) as [[Hn _] Hin].
  fold (realmKDMs rows) in Hn, Hin. split_and!.
  - intros i Hi. destruct (accepted_known label indexes None i) as (r & Hr & Hk & Hl & Hmax); [done|done|].
    fold row in Hr. split; [|eauto]. apply Hin. right. exists r. split.
    + unfold rows. rewrite Hr. set_solver.
    + unfold row_kdms. rewrite Hl. by apply list_elem_of_fmap_2.
  - intros r Hr. apply Hin. right. exists r. split; [set_solver|]. unfold row_kdms. set_solver.
  - exact Hn.
  - apply realmKDMs_head.
Qed.

(** Queued downloads do not collide: where no host label holds a colon,
    equal download keys mean the same host, sequence number and realm, the
    missing realm being the default one. *)
Theorem download_keys_distinct host host' seq seq' r r' :
  colon ∉ host → colon ∉ host' →
  downloadKey host seq r = downloadKey host' seq' r' →
  host = host' ∧ seq = seq' ∧ default nullKDM r = default nullKDM r'.
Proof. apply downloadKey_parts. Qed.

Lemma download_keys_distinct_witness :
  js "h" = js "h" ∧ 5 = 5 ∧ default nullKDM None = default nullKDM (Some nullKDM).
Proof.
  apply (download_keys_distinct (js "h") (js "h") 5 5 None (Some nullKDM)).
  - by apply (bool_decide_unpack _).
  - by apply (bool_decide_unpack _).
  - reflexivity.
Defined.

(** With a colon in a host label they can: two hosts share a key. *)
Lemma download_keys_collide :
  downloadKey (js "h") 5 (Some (mkKDM (js "x") 1)) = downloadKey (js "h:x:1") 5 None.
Proof. vm_compute. reflexivity. Qed.

(** [projectCursors] loses no cursor: on the row made from a list of
    cursors, one per realm, [cursorOf] answers each cursor's own sequence
    number, and 0 for a realm without one. *)
Theorem cursors_projected cursors realm :
  NoDup (rc_kdm <$> cursors) →
  (∀ c, c ∈ cursors → cursorOf (projectCursors cursors) (rc_kdm c) = rc_lastSeq c) ∧
  (realm ∉ rc_kdm <$> cursors → cursorOf (projectCursors cursors) realm = 0).
Proof. intros H. split; [intros c Hc; by apply project_hit|apply project_miss]. Qed.

Lemma cursors_projected_witness :
  let cs := [mkCursor (mkKDM (js "work") 2) 7; mkCursor nullKDM 5] in
  cursorOf (projectCursors cs) nullKDM = 5.
Proof.
  intros cs.
  assert (Hn : NoDup (rc_kdm <$> cs)) by (by apply (bool_decide_unpack _)).
  refine (proj1 (cursors_projected cs nullKDM Hn) (mkCursor nullKDM 5) _).
  right. left.
Defined.
