(* ===== verification/Stores.v ===== *)
(** * The client's in-memory stores ([web/src/stores/memory/], [web/src/types.ts])

    The message archive, the upload and download queues, realm rows, host rows
    and their cursors, as one record.  The archive is keyed by the base 64 of
    the head hash, the upload queue by its hex, the download queue by
    [downloadKey]. *)
From Stdlib Require Import QArith_base.
From S2P Require Export Bag Cursor.
From S2P Require Export Js.
#[local] Open Scope Z_scope.

(** ** Archive rows *)

Inductive ApldState := APLD_PENDING | APLD_APPLIED | APLD_ERROR.
#[export] Instance ApldState_eq_dec : EqDecision ApldState.
Proof. solve_decision. Defined.

(** A row; zero offsets and counters, empty types and the default realm are
    left out when it is written.  Rows enter these stores through [add] with
    one of the three states, on which [apldFromStored] is the identity. *)
Record IStoredMessageData := mkStored {
  sd_eid : bytes;
  sd_off : option num;
  sd_ctr : option Z;
  sd_typ : option jsstr;
  sd_body : option bytes;
  sd_apld : ApldState;
  sd_err : option Status;
  sd_rlm : option jsstr;
}.

Record IStoredMessage := mkStoredMsg {
  sm_hash : bytes;
  sm_head : IMessageHead;
  sm_body : option bytes;
  sm_apld : ApldState;
  sm_err : option Status;
  sm_rlm : option jsstr;
}.

Definition isPendingApply (d : IStoredMessageData) : bool :=
  bool_decide (sd_apld d = APLD_PENDING).

Definition isTerminalApplyFailure (st : Status) : bool :=
  negb (bool_decide (st = Success)) && negb (bool_decide (st = NoChange)) &&
  negb (bool_decide (st = DatabaseError)) && negb (bool_decide (st = StorageError)).

Definition setApld (d : IStoredMessageData) (apld : ApldState) (err : option Status)
    : IStoredMessageData :=
  mkStored (sd_eid d) (sd_off d) (sd_ctr d) (sd_typ d) (sd_body d) apld
    (match apld with APLD_ERROR => err | _ => None end) (sd_rlm d).

(** [realmLabel]: a non-empty string. *)
Definition realmLabel (raw : option jsstr) : option jsstr :=
  match raw with Some [] | None => None | Some l => Some l end.

Definition omit_rlm (d : IStoredMessageData) : IStoredMessageData :=
  match sd_rlm d with
  | Some [] => mkStored (sd_eid d) (sd_off d) (sd_ctr d) (sd_typ d) (sd_body d) (sd_apld d) (sd_err d) None
  | _ => d
  end.

Section stored.
Context {C : CryptoPrims}.

(** [toStoredMessage] with the body included. *)
Definition toStoredMessage (hash : bytes) (d : IStoredMessageData) : IStoredMessage :=
  let len := match sd_body d with Some b => blen b | None => 0 end in
  let hsh := match sd_body d with
             | Some b => if 0 <? len then Some (blake3hash b) else None
             | None => None
             end in
  mkStoredMsg hash
    (mkHead (Some (default [] (sd_typ d))) (sd_eid d) (default (Some 0) (sd_off d))
       (default 0 (sd_ctr d)) len hsh)
    (sd_body d) (sd_apld d)
    (match sd_apld d with APLD_ERROR => sd_err d | _ => None end)
    (realmLabel (sd_rlm d)).
End stored.

Record IMsgParts := mkParts { mp_head : IMessageHead; mp_body : option bytes }.

(** [msg2StoredMsgData] ([web/src/sync.ts]); [NaN !== 0]. *)
Definition msg2StoredMsgData (p : IMsgParts) (realm : option IKDM) : IStoredMessageData :=
  let h := mp_head p in
  mkStored (mh_eid h)
    (if bool_decide (mh_off h = Some 0) then None else Some (mh_off h))
    (if mh_ctr h =? 0 then None else Some (mh_ctr h))
    (match mh_typ h with Some [] | None => None | Some t => Some t end)
    (mp_body p) APLD_PENDING None
    (realmLabel (kdm_label <$> realm)).

(** ** Queued downloads *)

Record IDownloadMessage := mkDownload {
  dl_kdm : bytes;
  dl_seq : Z;
  dl_head : IMessageHead;
  dl_host : jsstr;
  dl_headEnc : option bytes;
  dl_headEncHash : option bytes;
  dl_realm : option IKDM;
}.

Definition dl_key (d : IDownloadMessage) : jsstr := downloadKey (dl_host d) (dl_seq d) (dl_realm d).

(** ** Host rows

    A handle is a URL or a host object, compared by identity; the cursors of
    [IHostRow] are joined on every read, so the stored row has none. *)

Record IHostMetadata := mkMeta { hm_subscription : ISubscriptionMetadata; hm_clockOffset : option Q }.

Record IHostConnectionInfo := mkHostInfo { hi_label : jsstr; hi_handle : nat; hi_idx : option Z }.

Record IHostRow := mkHostRow { hr_info : IHostConnectionInfo; hr_meta : option IHostMetadata }.

(** ** The stores *)

Record Store := mkStore {
  st_realms : jsmap jsstr IRealm;
  st_hostRows : jsmap jsstr IHostRow;
  st_cursors : jsmap jsstr (jsmap jsstr RealmCursor);
  st_uploads : jsmap jsstr (list jsstr);
  st_downloads : jsmap jsstr IDownloadMessage;
  st_messages : jsmap jsstr IStoredMessageData;
}.

(** The labels with a row. *)
Definition st_hosts (s : Store) : list jsstr := map_keys (st_hostRows s).

Definition set_cursors (s : Store) c := mkStore (st_realms s) (st_hostRows s) c (st_uploads s) (st_downloads s) (st_messages s).
Definition set_uploads (s : Store) u := mkStore (st_realms s) (st_hostRows s) (st_cursors s) u (st_downloads s) (st_messages s).
Definition set_downloads (s : Store) d := mkStore (st_realms s) (st_hostRows s) (st_cursors s) (st_uploads s) d (st_messages s).
Definition set_messages (s : Store) m := mkStore (st_realms s) (st_hostRows s) (st_cursors s) (st_uploads s) (st_downloads s) m.
Definition set_hosts (s : Store) h := mkStore (st_realms s) h (st_cursors s) (st_uploads s) (st_downloads s) (st_messages s).
Definition set_realms (s : Store) r := mkStore r (st_hostRows s) (st_cursors s) (st_uploads s) (st_downloads s) (st_messages s).

(** *** Archive *)

Definition msgs_add (msgs : list (bytes * IStoredMessageData)) (s : Store) : Store :=
  set_messages s (fold_left (λ m '(key, data), map_set (btob64 key) (omit_rlm data) m) msgs (st_messages s)).

Definition msgs_del (keys : list bytes) (s : Store) : Store :=
  set_messages s (fold_left (λ m key, map_delete (btob64 key) m) keys (st_messages s)).

Definition msgs_has (key : bytes) (s : Store) : bool := map_has (btob64 key) (st_messages s).

Definition msgs_get `{CryptoPrims} (key : bytes) (s : Store) : option IStoredMessage :=
  toStoredMessage key <$> map_get (btob64 key) (st_messages s).

Definition mark (f : IStoredMessageData → IStoredMessageData) (key : bytes) (s : Store) : Store :=
  match map_get (btob64 key) (st_messages s) with
  | Some d => set_messages s (map_set (btob64 key) (f d) (st_messages s))
  | None => s
  end.
Definition markApplied (keys : list bytes) (s : Store) : Store :=
  fold_left (λ s key, mark (λ d, setApld d APLD_APPLIED None) key s) keys s.
Definition markFailed (entries : list (bytes * Status)) (s : Store) : Store :=
  fold_left (λ s '(key, err), mark (λ d, setApld d APLD_ERROR (Some err)) key s) entries s.

Definition msgs_count (apld : option ApldState) (s : Store) : Z :=
  match apld with
  | None => Z.of_nat (length (st_messages s))
  | Some a => Z.of_nat (length (filter (λ d, sd_apld d = a) (map_values (st_messages s))))
  end.

(** [listKeys]: the keys are the base 64 of the hashes, read back. *)
Definition msgs_listKeys (s : Store) : list bytes := unb64 <$> map_keys (st_messages s).

(** [list], with the bodies. *)
Definition msgs_list `{CryptoPrims} (apld : option ApldState) (s : Store) : list IStoredMessage :=
  omap (λ '(key, data),
    if match apld with Some a => bool_decide (sd_apld data = a) | None => true end
    then Some (toStoredMessage (unb64 key) data) else None) (st_messages s).

Definition msgs_wipe (s : Store) : Store := set_messages s [].

(** [last]: the row of the entity with the highest counter, then offset;
    the first found of equals. *)
Definition later_row (d best : IStoredMessageData) : bool :=
  (default 0 (sd_ctr best) <? default 0 (sd_ctr d)) ||
  ((default 0 (sd_ctr d) =? default 0 (sd_ctr best)) &&
   flt (default (Some 0) (sd_off best)) (default (Some 0) (sd_off d))).

Definition msgs_last (eid : bytes) (s : Store) : option (jsstr * IStoredMessageData) :=
  fold_left (λ latest '(key, data),
    if negb (bytesEqual eid (sd_eid data)) then latest
    else match latest with
         | None => Some (key, data)
         | Some (_, best) => if later_row data best then Some (key, data) else latest
         end) (st_messages s) None.

(** *** Queues *)

Definition upl_enq (host : jsstr) (hshs : list bytes) (s : Store) : Store :=
  let set := default [] (map_get host (st_uploads s)) in
  set_uploads s (map_set host (fold_left (λ set h, set_add (btoh h) set) hshs set) (st_uploads s)).

Definition upl_deq (host : jsstr) (hshs : list bytes) (s : Store) : Store :=
  match map_get host (st_uploads s) with
  | Some set =>
      set_uploads s (map_set host (fold_left (λ set h, set_delete (btoh h) set) hshs set) (st_uploads s))
  | None => s
  end.

(** Hex of even length, so [htob] does not fail. *)
Definition upl_list (host : jsstr) (s : Store) : list bytes :=
  omap (λ hex, match htob hex with Ok h => Some h | _ => None end)
    (default [] (map_get host (st_uploads s))).

Definition upl_count (s : Store) : Z :=
  fold_left (λ total set, total + Z.of_nat (length set)) (map_values (st_uploads s)) 0.
Definition upl_wipe (s : Store) : Store := set_uploads s [].

Definition dnl_enq (msgs : list IDownloadMessage) (s : Store) : Store :=
  set_downloads s (fold_left (λ q msg, map_set (dl_key msg) msg q) msgs (st_downloads s)).

Definition dnl_deq (host : jsstr) (seqs : list Z) (realm : option IKDM) (s : Store) : Store :=
  set_downloads s (fold_left (λ q seq, map_delete (downloadKey host seq realm) q) seqs (st_downloads s)).

Definition dnl_list (s : Store) : list IDownloadMessage := map_values (st_downloads s).
Definition dnl_count (s : Store) : Z := Z.of_nat (length (st_downloads s)).
Definition dnl_wipe (s : Store) : Store := set_downloads s [].

(** *** Realms

    [decodeRealm] keeps the rows [advanceRealm] makes, and only those are put. *)

Definition realms_list (s : Store) : list IRealm := map_values (st_realms s).

Definition realms_put (label : jsstr) (index : Z) (s : Store) : Res unit * Store :=
  match advanceRealm label (map_get label (st_realms s)) index with
  | Ok next => (Ok tt, set_realms s (map_set label next (st_realms s)))
  | Err st => (Err st, s)
  | Throw => (Throw, s)
  end.

(** *** Host cursors *)

Definition recordSeqs (label : jsstr) (u : HostSeqsUpdate) (realm : option IKDM) (s : Store) : Store :=
  if negb (bool_decide (label ∈ st_hosts s)) then s
  else
    let r := default nullKDM realm in
    let key := realmKey r in
    let bucket := map_get label (st_cursors s) in
    let cur := match bucket with
               | Some b => match map_get key b with Some c => rc_lastSeq c | None => 0 end
               | None => 0
               end in
    match nextCursor cur u with
    | None => s
    | Some next =>
        set_cursors s (map_set label (map_set key (mkCursor r next) (default [] bucket)) (st_cursors s))
    end.

Definition touch (label : jsstr) (seq : Z) (realm : option IKDM) (s : Store) : Store :=
  recordSeqs label (mkSeqs (Some seq) None) realm s.

(** [get]: the row's cursors, projected. *)
Definition hosts_get (label : jsstr) (s : Store) : option CursorRow :=
  if bool_decide (label ∈ st_hosts s)
  then Some (projectCursors (map_values (default [] (map_get label (st_cursors s)))))
  else None.

(** [list]: the rows, each with its cursors. *)
Definition hosts_list (s : Store) : list (IHostRow * CursorRow) :=
  (λ '(label, row), (row, projectCursors (map_values (default [] (map_get label (st_cursors s))))))
    <$> st_hostRows s.

Definition same_link (prev : IHostRow) (info : IHostConnectionInfo) : bool :=
  Nat.eqb (hi_handle (hr_info prev)) (hi_handle info) &&
  (default 0 (hi_idx (hr_info prev)) =? default 0 (hi_idx info)).

(** [add]: linking the same handle again keeps cursors and metadata. *)
Definition hosts_add (info : IHostConnectionInfo) (s : Store) : Store :=
  match map_get (hi_label info) (st_hostRows s) with
  | Some prev =>
      if same_link prev info
      then set_hosts s (map_set (hi_label info) (mkHostRow info (hr_meta prev)) (st_hostRows s))
      else set_hosts (set_cursors s (map_delete (hi_label info) (st_cursors s)))
             (map_set (hi_label info) (mkHostRow info None) (st_hostRows s))
  | None =>
      set_hosts (set_cursors s (map_delete (hi_label info) (st_cursors s)))
        (map_set (hi_label info) (mkHostRow info None) (st_hostRows s))
  end.

Definition hosts_set (label : jsstr) (meta : IHostMetadata) (s : Store) : Status * Store :=
  match map_get label (st_hostRows s) with
  | None => (NotFound, s)
  | Some row => (Success, set_hosts s (map_set label (mkHostRow (hr_info row) (Some meta)) (st_hostRows s)))
  end.

Definition hosts_del (label : jsstr) (s : Store) : Store :=
  set_hosts (set_cursors s (map_delete label (st_cursors s))) (map_delete label (st_hostRows s)).

Definition hosts_wipe (s : Store) : Store := set_hosts (set_cursors s []) [].
Definition realms_wipe (s : Store) : Store := set_realms s [].

(** [MemoryStore.wipe] *)
Definition wipe (s : Store) : Store := msgs_wipe (dnl_wipe (upl_wipe (hosts_wipe s))).

(** ** The invariant of the stores *)

Record store_ok (s : Store) : Prop := {
  so_dl_wf : map_wf (st_downloads s);
  so_dl_key : ∀ k d, map_get k (st_downloads s) = Some d → k = dl_key d;
  so_cur_wf : map_wf (st_cursors s);
  so_cur_key : ∀ l b, map_get l (st_cursors s) = Some b →
    map_wf b ∧ ∀ k c, map_get k b = Some c → k = realmKey (rc_kdm c);
}.

(** The cursor a host row shows for a realm. *)
Definition cursor (s : Store) (label : jsstr) (realm : IKDM) : Z :=
  match map_get label (st_cursors s) with
  | Some b => match map_get (realmKey realm) b with Some c => rc_lastSeq c | None => 0 end
  | None => 0
  end.

Lemma bucket_kdms (b : jsmap jsstr RealmCursor) :
  map_wf b → (∀ k c, map_get k b = Some c → k = realmKey (rc_kdm c)) →
  NoDup (rc_kdm <$> map_values b).
Proof.
  unfold map_wf. intros Hw Hk. unfold map_values.
  assert (Hk' : ∀ k c, (k, c) ∈ b → k = realmKey (rc_kdm c)).
  { intros k c Hin. by apply Hk, map_get_in. }
  clear Hk. induction b as [|[k c] b IH]; [constructor|].
  apply NoDup_cons in Hw as [Hni Hw]. cbn. constructor.
  - intros Hin. rewrite <-list_fmap_compose in Hin.
    apply list_elem_of_fmap in Hin as ([k' c'] & He & Hin). cbn in He. apply Hni.
    assert (k = k') as ->.
    { rewrite (Hk' k c) by by left. rewrite (Hk' k' c') by by right. congruence. }
    by apply (list_elem_of_fmap_2 fst) in Hin.
  - apply IH; [done|]. intros. apply Hk'. by right.
Qed.

(** What [hosts.get] shows is the recorded cursor. *)
Lemma hosts_get_cursor s label row realm :
  store_ok s → hosts_get label s = Some row → cursorOf row realm = cursor s label realm.
Proof.
  intros [_ _ _ Hc]. unfold hosts_get. case_bool_decide; [|done]. intros [= <-].
  unfold cursor. destruct (map_get label (st_cursors s)) as [b|] eqn:E; cbn [default from_option id].
  - destruct (Hc label b E) as [Hw Hk]. pose proof (bucket_kdms b Hw Hk) as Hn.
    destruct (map_get (realmKey realm) b) as [c|] eqn:Ec.
    + pose proof (Hk _ _ Ec) as Hr%realmKey_inj. subst realm.
      apply project_hit; [done|]. apply map_get_Some_in in Ec.
      unfold map_values. by apply (list_elem_of_fmap_2 snd) in Ec.
    + apply project_miss. intros Hin. apply list_elem_of_fmap in Hin as (c & -> & Hin).
      unfold map_values in Hin. apply list_elem_of_fmap in Hin as ([k c'] & -> & Hin).
      apply map_get_in in Hin; [|done]. cbn in Ec. rewrite (Hk _ _ Hin) in Hin. congruence.
  - apply (project_miss [] realm). set_solver.
Qed.

Lemma recordSeqs_cursor s label u realm label' realm' :
  cursor (recordSeqs label u realm s) label' realm' =
    if decide (label' = label ∧ realm' = default nullKDM realm ∧ label ∈ st_hosts s)
    then default (cursor s label' realm') (nextCursor (cursor s label' realm') u)
    else cursor s label' realm'.
Proof.
  unfold recordSeqs. case_bool_decide as Hin; cbn [negb]; [|rewrite decide_False; tauto].
  set (r := default nullKDM realm).
  assert (Hcur : match map_get label (st_cursors s) with
    | Some b => match map_get (realmKey r) b with Some c => rc_lastSeq c | None => 0 end
    | None => 0 end = cursor s label r) by done.
  cbv zeta. rewrite Hcur. destruct (nextCursor (cursor s label r) u) as [next|] eqn:E.
  - unfold cursor at 1. cbn. rewrite map_get_set. destruct (decide (label' = label)) as [->|Hl].
    + rewrite map_get_set. destruct (decide (realmKey realm' = realmKey r)) as [Hr|Hr].
      * apply realmKey_inj in Hr as ->. rewrite decide_True by done. by rewrite E.
      * rewrite decide_False by (intros (_ & -> & _); done).
        unfold cursor. by destruct (map_get label (st_cursors s)).
    + rewrite decide_False by tauto. done.
  - case_decide as Hd; [|done]. destruct Hd as (-> & -> & _). by rewrite E.
Qed.

Lemma recordSeqs_rest label u realm s :
  st_downloads (recordSeqs label u realm s) = st_downloads s ∧
  st_messages (recordSeqs label u realm s) = st_messages s ∧
  st_uploads (recordSeqs label u realm s) = st_uploads s ∧
  st_hostRows (recordSeqs label u realm s) = st_hostRows s ∧
  st_realms (recordSeqs label u realm s) = st_realms s.
Proof.
  unfold recordSeqs. destruct (negb _); [done|]. cbv zeta. by destruct (nextCursor _ _).
Qed.

(** ** The archive's keys *)

Record archive_ok (s : Store) : Prop := {
  ao_wf : map_wf (st_messages s);
  ao_key : ∀ k, k ∈ map_keys (st_messages s) → ∃ h, k = btob64 h ∧ blen h = hshBytes;
}.

Lemma listKeys_keys s : archive_ok s → btob64 <$> msgs_listKeys s = map_keys (st_messages s).
Proof.
  intros [_ Hk]. unfold msgs_listKeys. rewrite <-list_fmap_compose.
  transitivity (id <$> map_keys (st_messages s)); [|apply list_fmap_id].
  apply list_fmap_ext. intros i k Hi%list_elem_of_lookup_2. destruct (Hk k Hi) as (h & -> & _).
  cbn. by rewrite unb64_btob64.
Qed.

Lemma listKeys_NoDup s : archive_ok s → NoDup (msgs_listKeys s).
Proof.
  intros Hok. apply (NoDup_fmap_1 btob64). rewrite listKeys_keys by done. apply Hok.
Qed.

Lemma elem_of_listKeys s h : archive_ok s → h ∈ msgs_listKeys s ↔ msgs_has h s = true.
Proof.
  intros Hok. rewrite <-(list_elem_of_fmap_inj btob64), listKeys_keys by done.
  unfold msgs_has, map_has. rewrite bool_decide_eq_true, <-not_eq_None_Some, map_get_None.
  by destruct (decide (btob64 h ∈ map_keys (st_messages s))); naive_solver.
Qed.

Lemma listKeys_len s h : archive_ok s → h ∈ msgs_listKeys s → blen h = hshBytes.
Proof.
  intros Hok Hin. apply (list_elem_of_fmap_2 btob64) in Hin. rewrite listKeys_keys in Hin by done.
  destruct (ao_key s Hok _ Hin) as (h' & ->%(inj btob64) & ?). done.
Qed.
