(* ===== verification/Sync.v ===== *)
(** * The client's sync phases ([web/src/sync.ts])

    Peek, pull, open and push of one host over the in-memory stores.  The
    state is the stores and the other end; what the connection does is the
    interface [SyncNet], so the phases are proved against any host. *)
From S2P Require Export Stores Batch Checksum.
From S2P Require Export Js.

(** The calls of [DiplomaticClientAPI] the phases make ([shared/client.ts]),
    and the random nonces sealing draws. *)
Class SyncNet (N : Type) := {
  net_peek : Z → IKDM → M N (list IBagPeekItem);
  net_pull : list Z → IKDM → M N (list IBagPullItem);
  net_push : list IBag → M N (list IBagPushItem);
  net_nonce : M N bytes;
}.

(** A downloaded body, before it is opened. *)
Record IPulled := mkPulled { pu_dl : IDownloadMessage; pu_bodyCph : option bytes }.

Section sync.
Context {C : CryptoPrims} {N : Type} {NC : SyncNet N}.
(** The managers of the connection. *)
Context (bagMgrs : list BagManager).

Definition SM (A : Type) : Type := M (Store * N) A.

Definition on_st (f : Store → Store) : SM unit := λ '(s, n), (Ok tt, (f s, n)).
Definition rd {A} (f : Store → A) : SM A := λ '(s, n), (Ok (f s), (s, n)).
Definition on_net {A} (m : M N A) : SM A := λ '(s, n), let '(r, n') := m n in (r, (s, n')).

(** A promise awaited later: its outcome, also when it rejects. *)
Definition m_settle {A} (m : SM A) : SM (Res A) := λ st, let '(r, st') := m st in (Ok r, st').

Definition bagMgrFor (realm : IKDM) : option BagManager :=
  snd <$> list_find (λ m, kdmEq realm (bm_realmKDM m) = true) bagMgrs.

Definition identity : Res BagManager :=
  match bagMgrFor nullKDM with
  | Some m => Ok m
  | None => match bagMgrs with m :: _ => Ok m | [] => Err NotFound end
  end.

Definition conn_seal (msg : IMessage) (realm : IKDM) : SM IBag :=
  match bagMgrFor realm with
  | None => m_err NotFound
  | Some mgr =>
      nh ← on_net net_nonce;
      nb ← on_net net_nonce;
      m_lift (sealBag msg mgr nh nb)
  end.

(** ** Peek *)

(** Phase 1, per item: verify and open the head, hash it. *)
Record PeekCryptoOk := mkPeekOk {
  pc_seq' : Z; pc_kdm : bytes; pc_headEnc : bytes; pc_headEncHash : bytes;
}.
Inductive PeekCryptoResult := PeekOk (r : PeekCryptoOk) | PeekFail (seq : Z) (stat : Status).

Definition peek_crypto (vk : CryptoKey) (mgr : BagManager) (item : IBagPeekItem)
    : Res PeekCryptoResult :=
  match decryptPeekItem item vk mgr with
  | Ok d => Ok (PeekOk (mkPeekOk (pk_seq item) (di_kdm d) (di_headEnc d) (blake3hash (di_headEnc d))))
  | Err st => Ok (PeekFail (pk_seq item) st)
  | Throw => Throw
  end.

Definition download_of (label : jsstr) (realm : IKDM) (r : PeekCryptoOk) (head : IMessageHead)
    : IDownloadMessage :=
  mkDownload (pc_kdm r) (pc_seq' r) head label (Some (pc_headEnc r)) (Some (pc_headEncHash r))
    (storedRealm realm).

(** Phase 2: skip what is archived or already queued by this batch. *)
Fixpoint peek_loop (label : jsstr) (realm : IKDM) (results : list PeekCryptoResult)
    (enqMsgs : list jsstr) (dls : list IDownloadMessage) : SM (list IDownloadMessage) :=
  match results with
  | [] => mret dls
  | PeekFail _ _ :: results => peek_loop label realm results enqMsgs dls
  | PeekOk r :: results =>
      let msgKey := btob64 (pc_headEncHash r) in
      msgExists ← rd (msgs_has (pc_headEncHash r));
      if msgExists : bool then
        _ ← on_st (upl_deq label [pc_headEncHash r]);
        _ ← on_st (dnl_deq label [pc_seq' r] (Some realm));
        peek_loop label realm results enqMsgs dls
      else if set_has msgKey enqMsgs then
        _ ← on_st (dnl_deq label [pc_seq' r] (Some realm));
        peek_loop label realm results enqMsgs dls
      else
        match run_dec (readStruct messageHeadCodec) (pc_headEnc r) with
        | Throw => m_throw
        | Err _ => peek_loop label realm results enqMsgs dls
        | Ok head =>
            peek_loop label realm results (set_add msgKey enqMsgs)
              (dls ++ [download_of label realm r head])
        end
  end.

Definition max_seq (items : list IBagPeekItem) : Z :=
  match items with
  | [] => 0
  | i :: items => fold_left Z.max (pk_seq <$> items) (pk_seq i)
  end.

Definition syncPeek (label : jsstr) (row : CursorRow) (realm : IKDM) : SM unit :=
  match bagMgrFor realm with
  | None => m_err NotFound
  | Some mgr =>
      hostIdnt ← m_lift identity;
      vk ← m_lift (catching CryptoError (importVerifyKey (bm_publicKey hostIdnt)));
      items ← on_net (net_peek (cursorOf row realm) realm);
      cryptoResults ← m_lift (res_mapM (peek_crypto vk mgr) items);
      dls ← peek_loop label realm cryptoResults [] [];
      _ ← on_st (dnl_enq dls);
      if Nat.eqb (length items) 0 then mret tt
      else on_st (recordSeqs label (mkSeqs (Some (max_seq items)) None) (Some realm))
  end.

(** ** Push *)

Definition bagBytes (bag : IBag) : Z :=
  blen (bag_sig bag) + blen (bag_kdm bag) + blen (bag_headCph bag) + blen (bag_bodyCph bag).

(** [hashes[idx]] *)
Definition at_idx {A} (xs : list A) (idx : Z) : option A :=
  if idx <? 0 then None else xs !! Z.to_nat idx.

Fixpoint deq_pushed (label : jsstr) (hashes : list bytes) (results : list IBagPushItem) : SM unit :=
  match results with
  | [] => mret tt
  | PushFailed _ _ :: results => deq_pushed label hashes results
  | PushStored idx _ :: results =>
      match at_idx hashes idx with
      | None => deq_pushed label hashes results
      | Some hash => _ ← on_st (upl_deq label [hash]); deq_pushed label hashes results
      end
  end.

(** The end of the run of successes that starts right after the cursor. *)
Definition contiguous (currentMax : Z) (results : list IBagPushItem) : Z :=
  let successfulSeqs := omap (λ item, match item with
    | PushStored _ seq => Some seq | PushFailed _ _ => None end) results in
  fold_left (λ mx seq, if seq =? mx + 1 then seq else mx)
    (js_sort (by_key id) successfulSeqs) currentMax.

Definition pushBatch (label : jsstr) (bags : list IBag) (hashes : list bytes) (realm : IKDM) : SM unit :=
  if Nat.eqb (length bags) 0 then mret tt
  else
    results ← on_net (net_push bags);
    _ ← deq_pushed label hashes results;
    row ← rd (hosts_get label);
    match row with
    | None => mret tt
    | Some row =>
        let start := cursorOf row realm in
        let currentMax := contiguous start results in
        if start <? currentMax then on_st (touch label currentMax (Some realm)) else mret tt
    end.

Record Ready := mkReady { rdy_hash : bytes; rdy_realm : IKDM; rdy_msg : IMessage }.

(** [a.label < b.label ? -1 : a.label > b.label ? 1 : a.index - b.index] *)
Fixpoint jsstr_lt (a b : jsstr) : bool :=
  match a, b with
  | [], _ :: _ => true
  | x :: a, y :: b => if x =? y then jsstr_lt a b else x <? y
  | _, [] => false
  end.
Definition ready_cmp (a b : Ready) : Z :=
  if jsstr_lt (kdm_label (rdy_realm a)) (kdm_label (rdy_realm b)) then -1
  else if jsstr_lt (kdm_label (rdy_realm b)) (kdm_label (rdy_realm a)) then 1
  else kdm_index (rdy_realm a) - kdm_index (rdy_realm b).

Definition ready_of (realmRows : list IRealm) (s : Store) (hash : bytes) : option Ready :=
  match msgs_get hash s with
  | None => None
  | Some m => Some (mkReady hash (realmKDM (sm_rlm m) realmRows) (mkMsg (sm_head m) (sm_body m)))
  end.

(** The batch under construction. *)
Record PushAcc := mkAcc { pa_bags : list IBag; pa_hashes : list bytes; pa_bytes : Z; pa_realm : IKDM }.

Definition emptyAcc (realm : IKDM) : PushAcc := mkAcc [] [] 0 realm.

Definition push_flush (label : jsstr) (a : PushAcc) : SM PushAcc :=
  _ ← pushBatch label (pa_bags a) (pa_hashes a) (pa_realm a);
  mret (emptyAcc (pa_realm a)).

Definition acc_empty (a : PushAcc) : bool := Nat.eqb (length (pa_bags a)) 0.

Fixpoint push_loop (label : jsstr) (limit : Z) (ready : list Ready) (a : PushAcc) : SM PushAcc :=
  match ready with
  | [] => push_flush label a
  | item :: ready =>
      a ← (if negb (acc_empty a) && negb (sameRealm (pa_realm a) (rdy_realm item))
           then push_flush label a else mret a);
      bag ← conn_seal (rdy_msg item) (rdy_realm item);
      let size := bagBytes bag in
      a ← (if negb (acc_empty a) && (limit <? pa_bytes a + size)
           then push_flush label a else mret a);
      let a := mkAcc (pa_bags a ++ [bag]) (pa_hashes a ++ [rdy_hash item]) (pa_bytes a + size)
                 (if acc_empty a then rdy_realm item else pa_realm a) in
      a ← (if limit <=? pa_bytes a then push_flush label a else mret a);
      push_loop label limit ready a
  end.

Definition syncPush (label : jsstr) (limit : Z) : SM unit :=
  pending ← rd (upl_list label);
  ready ← rd (λ s, omap (ready_of (realms_list s) s) pending);
  _ ← push_loop label limit (js_sort ready_cmp ready) (emptyAcc nullKDM);
  mret tt.

(** ** Pull *)

Record RealmPull := mkRealmPull {
  rp_realm : IKDM; rp_dls : jsmap Z IDownloadMessage; rp_seqs : list Z;
}.

Definition group_pull (byRealm : jsmap jsstr RealmPull) (item : IDownloadMessage) : jsmap jsstr RealmPull :=
  let realm := default nullKDM (dl_realm item) in
  let key := realmKey realm in
  let pull := default (mkRealmPull realm [] []) (map_get key byRealm) in
  map_set key (mkRealmPull (rp_realm pull) (map_set (dl_seq item) item (rp_dls pull))
    (rp_seqs pull ++ [dl_seq item])) byRealm.

Fixpoint pull_groups (pulls : list RealmPull) : SM (list IPulled) :=
  match pulls with
  | [] => mret []
  | pull :: pulls =>
      result ← on_net (net_pull (rp_seqs pull) (rp_realm pull));
      rest ← pull_groups pulls;
      mret (omap (λ it, dl ← map_get (pl_seq it) (rp_dls pull); Some (mkPulled dl (Some (pl_bodyCph it))))
              result ++ rest)
  end.

Definition pullBodies (items : list IDownloadMessage) : SM (list IPulled) :=
  pull_groups (map_values (fold_left group_pull items [])).

(** ** Open *)

Definition resolveHeadEnc (dl : IDownloadMessage) : Res (bytes * bytes) :=
  headEnc ← match dl_headEnc dl with
            | Some e => Ok e
            | None => run_enc (writeStruct messageHeadCodec (dl_head dl))
            end;
  Ok (headEnc, default (blake3hash headEnc) (dl_headEncHash dl)).

Record DeqGroup := mkDeqGroup { dg_host : jsstr; dg_realm : option IKDM; dg_seqs : list Z }.

Definition noteDeq (groups : jsmap jsstr DeqGroup) (dl : IDownloadMessage) : jsmap jsstr DeqGroup :=
  let key := dl_host dl ++ [0] ++ realmKey (default nullKDM (dl_realm dl)) in
  match map_get key groups with
  | Some g => map_set key (mkDeqGroup (dg_host g) (dg_realm g) (dg_seqs g ++ [dl_seq dl])) groups
  | None => map_set key (mkDeqGroup (dl_host dl) (dl_realm dl) [dl_seq dl]) groups
  end.

Definition flushDeq (groups : jsmap jsstr DeqGroup) : Store → Store := λ s,
  fold_left (λ s g, dnl_deq (dg_host g) (dg_seqs g) (dg_realm g) s) (map_values groups) s.

(** One pulled item: the archive row it opens to, or [None] when it is dropped. *)
Definition open_item (it : IPulled) : Res (option (bytes * IMsgParts)) :=
  let dl := pu_dl it in
  let realm := default nullKDM (dl_realm dl) in
  match resolveHeadEnc dl with
  | Throw => Throw
  | Err _ => Ok None
  | Ok (headEnc, headEncHash) =>
      match bagMgrFor realm with
      | None => Ok None
      | Some mgr =>
          match openBagBody headEnc (pu_bodyCph it) (bm_decrypt mgr (dl_kdm dl)) (Some headEncHash) with
          | Throw => Throw
          | Err _ => Ok None
          | Ok contents => Ok (Some (ob_headHash contents, mkParts (dl_head dl) (ob_bod contents)))
          end
      end
  end.

(** The parts and hashes it returns, which [syncPull] ignores, are left out. *)
Definition openPulled (items : list IPulled) : SM unit :=
  opened ← m_lift (res_mapM open_item items);
  let toStore := omap (λ '(it, o),
    '(key, p) ← o; Some (key, msg2StoredMsgData p (Some (default nullKDM (dl_realm (pu_dl it))))))
    (zip items opened) in
  _ ← on_st (msgs_add toStore);
  on_st (flushDeq (fold_left noteDeq (pu_dl <$> items) [])).

(** ** The pull pipeline *)

(** [nextPull] is the pull of [batch], already sent; the pull of the batch
    after it goes out before this one is opened. *)
Fixpoint pull_pipeline (afterOpen : SM unit) (nextPull : list IPulled)
    (rest : list (list IDownloadMessage)) : SM unit :=
  match rest with
  | [] =>
      _ ← openPulled (sortByHlcDesc (λ p, hlc_of (dl_head (pu_dl p))) nextPull);
      afterOpen
  | nxt :: rest =>
      pulled ← m_settle (pullBodies nxt);
      _ ← openPulled (sortByHlcDesc (λ p, hlc_of (dl_head (pu_dl p))) nextPull);
      _ ← afterOpen;
      pulled ← m_lift pulled;
      pull_pipeline afterOpen pulled rest
  end.

Definition syncPull (label : jsstr) (limit : Z) (afterOpen : SM unit) : SM unit :=
  allItems ← rd dnl_list;
  let hostItems := filter (λ i, dl_host i = label) allItems in
  if Nat.eqb (length hostItems) 0 then m_err NoChange
  else
    let items := sortByHlcDesc (λ d, hlc_of (dl_head d)) hostItems in
    match batchByBytes (λ d, mh_len (dl_head d)) limit items with
    | [] => mret tt
    | b :: rest => pulled ← pullBodies b; pull_pipeline afterOpen pulled rest
    end.
End sync.
