(* ===== verification/SyncFacts.v ===== *)
(** * What the sync phases do to the stores

    Peek loses no head, open archives what it removes from the queue, push
    removes only what the host confirmed and moves the cursor only over its
    own confirmed bags. *)
From S2P Require Export Sync.
From S2P Require Export Js.

(** ** Queues *)

Lemma dnl_enq_get msgs s k :
  map_get k (st_downloads (dnl_enq msgs s)) =
    match last (filter (λ d, dl_key d = k) msgs) with
    | Some d => Some d
    | None => map_get k (st_downloads s)
    end.
Proof.
  unfold dnl_enq. cbn. generalize (st_downloads s). induction msgs as [|m msgs IH]; intros q; [done|].
  cbn [fold_left]. rewrite IH, filter_cons. case_decide as Hk.
  - rewrite last_cons. destruct (last (filter _ msgs)); [done|]. by rewrite Hk, map_get_set_eq.
  - destruct (last (filter _ msgs)); [done|]. by rewrite map_get_set_ne by congruence.
Qed.

Lemma dnl_enq_wf msgs s : map_wf (st_downloads s) → map_wf (st_downloads (dnl_enq msgs s)).
Proof.
  unfold dnl_enq. cbn. generalize (st_downloads s). induction msgs as [|m msgs IH]; intros q Hq; [done|].
  cbn [fold_left]. by apply IH, map_set_wf.
Qed.

Lemma dnl_enq_in msgs s d :
  NoDup (dl_key <$> msgs) → d ∈ msgs → map_get (dl_key d) (st_downloads (dnl_enq msgs s)) = Some d.
Proof.
  intros Hn Hd. rewrite dnl_enq_get.
  destruct (last (filter (λ d', dl_key d' = dl_key d) msgs)) as [d'|] eqn:E.
  - apply last_Some_elem_of, list_elem_of_filter in E as [Hk Hin]. f_equal.
    apply list_elem_of_lookup_1 in Hd as [i Hi]. apply list_elem_of_lookup_1 in Hin as [j Hj].
    assert (i = j) as ->; [|congruence].
    eapply (NoDup_lookup (dl_key <$> msgs)); [done| |]; rewrite list_lookup_fmap;
      [by rewrite Hi|by rewrite Hj, <-Hk].
  - apply last_None in E. assert (d ∈ filter (λ d', dl_key d' = dl_key d) msgs) as H.
    { by apply list_elem_of_filter. }
    rewrite E in H. by apply not_elem_of_nil in H.
Qed.

Lemma dnl_deq_get host seqs realm s k :
  map_wf (st_downloads s) →
  map_wf (st_downloads (dnl_deq host seqs realm s)) ∧
  map_get k (st_downloads (dnl_deq host seqs realm s)) =
    if decide (k ∈ (λ seq, downloadKey host seq realm) <$> seqs) then None
    else map_get k (st_downloads s).
Proof.
  unfold dnl_deq. cbn. generalize (st_downloads s).
  induction seqs as [|q seqs IH]; intros m Hm; cbn [fold_left]; [done|].
  destruct (IH (map_delete (downloadKey host q realm) m)) as [H1 H2]; [by apply map_delete_wf|].
  split; [done|]. rewrite H2, map_get_delete by done. rewrite fmap_cons.
  repeat case_decide; set_solver.
Qed.

Lemma downloadKey_seq host seq seq' r :
  downloadKey host seq r = downloadKey host seq' r → seq = seq'.
Proof.
  unfold downloadKey. destruct (isDefaultRealm _); intros H.
  - apply app_inv_head, app_inv_head in H. by apply (inj num_str) in H.
  - do 6 apply app_inv_head in H. by apply (inj num_str) in H.
Qed.

Lemma storedRealm_key host seq realm :
  downloadKey host seq (storedRealm realm) = downloadKey host seq (Some realm).
Proof.
  unfold storedRealm. destruct (isDefaultRealm (Some realm)) eqn:E; [|done].
  apply isDefaultRealm_spec in E as ->. done.
Qed.

(** *** The archive *)

Lemma msgs_has_iff key s : msgs_has key s = true ↔ is_Some (map_get (btob64 key) (st_messages s)).
Proof. unfold msgs_has, map_has. by rewrite bool_decide_eq_true. Qed.

Lemma msgs_add_get msgs s key :
  map_get (btob64 key) (st_messages (msgs_add msgs s)) =
    match last (filter (λ m, m.1 = key) msgs) with
    | Some (_, d) => Some (omit_rlm d)
    | None => map_get (btob64 key) (st_messages s)
    end.
Proof.
  unfold msgs_add. cbn. generalize (st_messages s).
  induction msgs as [|[k d] msgs IH]; intros m; [done|]. cbn [fold_left]. rewrite IH, filter_cons.
  case_decide as Hk; cbn in Hk.
  - rewrite last_cons. destruct (last (filter _ msgs)) as [[]|]; [done|]. by rewrite Hk, map_get_set_eq.
  - destruct (last (filter _ msgs)) as [[]|]; [done|]. rewrite map_get_set_ne; [done|].
    intros He%(inj btob64). congruence.
Qed.

Section facts.
Context {C : CryptoPrims} {N : Type} {NC : SyncNet N} (bagMgrs : list BagManager).

(** ** Steps of the monad *)

Lemma rd_bind {A B} (f : Store → A) (k : A → SM B) (s : Store) (n : N) :
  (rd f ≫= k) (s, n) = k (f s) (s, n).
Proof. done. Qed.
Lemma st_bind {B} (f : Store → Store) (k : unit → SM B) (s : Store) (n : N) :
  (on_st f ≫= k) (s, n) = k tt (f s, n).
Proof. done. Qed.
Lemma ok_bind {A B} (m : SM A) (k : A → SM B) (st : Store * N) a st' :
  m st = (Ok a, st') → (m ≫= k) st = k a st'.
Proof. intros Hm. unfold mbind, M_bind, m_bind. by rewrite Hm. Qed.
Lemma lift_bind {A B} (r : Res A) (k : A → SM B) (st : Store * N) :
  (m_lift r ≫= k) st = match r with Ok a => k a st | Err e => (Err e, st) | Throw => (Throw, st) end.
Proof. done. Qed.
Lemma net_bind {A B} (m : M N A) (k : A → SM B) (s : Store) (n : N) b st' :
  (on_net m ≫= k) (s, n) = (Ok b, st') →
  ∃ a n', m n = (Ok a, n') ∧ k a (s, n') = (Ok b, st').
Proof.
  unfold mbind, M_bind, m_bind, on_net. destruct (m n) as [[a| |] n'] eqn:E; try done. eauto.
Qed.

(** ** Peek *)

Definition peek_key (label : jsstr) (realm : IKDM) (seq : Z) : jsstr := downloadKey label seq (Some realm).

(** What phase 2 leaves; [new] is what it queues. *)
Record peek_post (label : jsstr) (realm : IKDM) (rs : list PeekCryptoResult) (enq : list jsstr)
    (s s' : Store) (new : list IDownloadMessage) : Prop := {
  pp_messages : st_messages s' = st_messages s;
  pp_hosts : st_hosts s' = st_hosts s;
  pp_cursors : st_cursors s' = st_cursors s;
  pp_realms : st_realms s' = st_realms s;
  pp_wf : map_wf (st_downloads s');
  pp_shrinks : ∀ k d, map_get k (st_downloads s') = Some d → map_get k (st_downloads s) = Some d;
  pp_others : ∀ k, (∀ r, PeekOk r ∈ rs → k ≠ peek_key label realm (pc_seq' r)) →
    map_get k (st_downloads s') = map_get k (st_downloads s);
  pp_new : ∀ d, d ∈ new → ∃ r head, PeekOk r ∈ rs ∧
    run_dec (readStruct messageHeadCodec) (pc_headEnc r) = Ok head ∧ d = download_of label realm r head;
  pp_sub : sublist (dl_seq <$> new) (omap (λ r, match r with PeekOk r => Some (pc_seq' r) | _ => None end) rs);
  pp_cover : ∀ r head, PeekOk r ∈ rs →
    run_dec (readStruct messageHeadCodec) (pc_headEnc r) = Ok head →
    msgs_has (pc_headEncHash r) s = true ∨ btob64 (pc_headEncHash r) ∈ enq ∨
    ∃ d, d ∈ new ∧ dl_headEncHash d = Some (pc_headEncHash r);
}.

(** Results before the rest, over a store the first step left. *)
Lemma peek_post_skip label realm x rs enq s s1 s' new :
  st_messages s1 = st_messages s → st_hosts s1 = st_hosts s → st_cursors s1 = st_cursors s →
  st_realms s1 = st_realms s →
  (∀ k, (∀ r, x = PeekOk r → k ≠ peek_key label realm (pc_seq' r)) →
    map_get k (st_downloads s1) = map_get k (st_downloads s)) →
  (∀ k d, map_get k (st_downloads s1) = Some d → map_get k (st_downloads s) = Some d) →
  (∀ r head, x = PeekOk r → run_dec (readStruct messageHeadCodec) (pc_headEnc r) = Ok head →
    msgs_has (pc_headEncHash r) s = true ∨ btob64 (pc_headEncHash r) ∈ enq) →
  peek_post label realm rs enq s1 s' new → peek_post label realm (x :: rs) enq s s' new.
Proof.
  intros Hm Hh Hc Hr Hd Hsh Hx [P1 P2 P3 P4 P5 Ps P6 P7 P8 P9].
  assert (Hhas : ∀ k, msgs_has k s1 = msgs_has k s) by (intros k; unfold msgs_has; by rewrite Hm).
  split; try congruence.
  - intros k d Hk. by apply Hsh, Ps.
  - intros k Hk. rewrite P6 by (intros; apply Hk; by right). apply Hd. intros r ->. apply Hk. by left.
  - intros d Hin. destruct (P7 d Hin) as (r & head & H1 & H2 & H3). exists r, head.
    split_and!; [by right|done|done].
  - cbn. destruct x; [by apply sublist_cons|done].
  - intros r head [<-|Hin]%elem_of_cons Hh'; [destruct (Hx r head eq_refl Hh'); auto|].
    rewrite <-Hhas. by eapply P9.
Qed.

Lemma peek_loop_post label realm rs enq dls (s : Store) (n : N) dls' st' :
  map_wf (st_downloads s) →
  peek_loop label realm rs enq dls (s, n) = (Ok dls', st') →
  ∃ s' new, st' = (s', n) ∧ dls' = dls ++ new ∧ peek_post label realm rs enq s s' new.
Proof.
  revert enq dls s. induction rs as [|x rs IH]; intros enq dls s Hw.
  { intros [= <- <-]. exists s, []. rewrite app_nil_r. split_and!; [done|done|].
    split; try done; intros; set_solver. }
  destruct x as [r|q st]; cbn [peek_loop].
  2:{ intros H. destruct (IH _ _ _ Hw H) as (s' & new & -> & -> & P). exists s', new.
      split_and!; [done|done|]. eapply peek_post_skip; [..|exact P]; done. }
  rewrite rd_bind. destruct (msgs_has (pc_headEncHash r) s) eqn:Eh.
  - rewrite !st_bind. intros H. set (s1 := dnl_deq label [pc_seq' r] (Some realm) (upl_deq label [pc_headEncHash r] s)) in H.
    assert (Hu : st_downloads (upl_deq label [pc_headEncHash r] s) = st_downloads s)
      by (unfold upl_deq; by destruct (map_get _ _)).
    assert (Hw1 : map_wf (st_downloads s1)).
    { unfold s1. apply (dnl_deq_get _ _ _ _ []). by rewrite Hu. }
    destruct (IH _ _ _ Hw1 H) as (s' & new & -> & -> & P). exists s', new. split_and!; [done|done|].
    eapply peek_post_skip; [..|exact P]; try (unfold s1, dnl_deq, upl_deq; by destruct (map_get _ (st_uploads s))).
    + intros k Hk. unfold s1. destruct (dnl_deq_get label [pc_seq' r] (Some realm)
        (upl_deq label [pc_headEncHash r] s) k) as [_ ->]; [by rewrite Hu|]. rewrite Hu.
      rewrite decide_False; [done|]. cbn. rewrite list_elem_of_singleton. by apply Hk.
    + intros k d. unfold s1. destruct (dnl_deq_get label [pc_seq' r] (Some realm)
        (upl_deq label [pc_headEncHash r] s) k) as [_ ->]; [by rewrite Hu|]. rewrite Hu. by case_decide.
    + intros r' head [= <-] _. by left.
  - unfold set_has. case_bool_decide as Hin.
    + rewrite st_bind. intros H. set (s1 := dnl_deq label [pc_seq' r] (Some realm) s) in H.
      assert (Hw1 : map_wf (st_downloads s1)) by (by apply (dnl_deq_get _ _ _ _ [])).
      destruct (IH _ _ _ Hw1 H) as (s' & new & -> & -> & P). exists s', new. split_and!; [done|done|].
      eapply peek_post_skip; [..|exact P]; try done.
      * intros k Hk. unfold s1. destruct (dnl_deq_get label [pc_seq' r] (Some realm) s k Hw) as [_ ->].
        rewrite decide_False; [done|]. cbn. rewrite list_elem_of_singleton. by apply Hk.
      * intros k d. unfold s1. destruct (dnl_deq_get label [pc_seq' r] (Some realm) s k Hw) as [_ ->].
        by case_decide.
      * intros r' head [= <-] _. by right.
    + destruct (run_dec (readStruct messageHeadCodec) (pc_headEnc r)) as [head| |] eqn:Ed; [| |done].
      * intros H. destruct (IH _ _ _ Hw H) as (s' & new & -> & -> & P).
        exists s', (download_of label realm r head :: new). rewrite <-(assoc_L app). split_and!; [done|done|].
        destruct P as [P1 P2 P3 P4 P5 Ps P6 P7 P8 P9]. split; try done.
        -- intros k Hk. apply P6. intros; apply Hk; by right.
        -- intros d [->|Hd]%elem_of_cons; [exists r, head; split_and!; [by left|done|done]|].
           destruct (P7 d Hd) as (r' & h' & H1 & H2 & H3). exists r', h'. split_and!; [by right|done|done].
        -- cbn. by apply sublist_skip.
        -- intros r' h' [[= ->]|Hr']%elem_of_cons Hh'.
           { right. right. exists (download_of label realm r head). split; [by left|done]. }
           destruct (P9 r' h' Hr' Hh') as [?|[He|(d & Hd & He)]]; [by left| |].
           ++ apply elem_of_set_add in He as [He|He]; [|by right; left].
              right. right. exists (download_of label realm r head). split; [by left|].
              apply (inj btob64) in He. cbn. congruence.
           ++ right. right. exists d. split; [by right|done].
      * intros H. destruct (IH _ _ _ Hw H) as (s' & new & -> & -> & P). exists s', new.
        split_and!; [done|done|]. destruct P as [P1 P2 P3 P4 P5 Ps P6 P7 P8 P9]. split; try done.
        -- intros k Hk. apply P6. intros; apply Hk; by right.
        -- intros d Hd. destruct (P7 d Hd) as (r' & h' & H1 & H2 & H3). exists r', h'.
           split_and!; [by right|done|done].
        -- cbn. by apply sublist_cons.
        -- intros r' h' [[= ->]|Hr']%elem_of_cons Hh'; [congruence|by eapply P9].
Qed.

Lemma res_mapM_elem {A B} (f : A → Res B) xs ys x :
  res_mapM f xs = Ok ys → x ∈ xs → ∃ y, f x = Ok y ∧ y ∈ ys.
Proof.
  revert ys. induction xs as [|x0 xs IH]; intros ys; [by intros _ ?%not_elem_of_nil|].
  intros (y & ys' & Hy & Hys & ->)%res_mapM_cons [->|Hx]%elem_of_cons; [exists y; split; [done|by left]|].
  destruct (IH ys' Hys Hx) as (y' & ? & ?). exists y'. split; [done|by right].
Qed.

Lemma peek_results_seqs vk mgr items rs :
  res_mapM (peek_crypto vk mgr) items = Ok rs →
  sublist (omap (λ r, match r with PeekOk r => Some (pc_seq' r) | _ => None end) rs) (pk_seq <$> items).
Proof.
  revert rs. induction items as [|i items IH]; intros rs; [by intros [= <-]|].
  intros (y & ys & Hy & Hys & ->)%res_mapM_cons. specialize (IH ys Hys).
  unfold peek_crypto in Hy. destruct (decryptPeekItem i vk mgr); [..|done]; injection Hy as <-; cbn.
  - by apply sublist_skip.
  - by apply sublist_cons.
Qed.

Lemma max_seq_le items i : i ∈ items → pk_seq i <= max_seq items.
Proof.
  destruct items as [|i0 items]; [by intros ?%not_elem_of_nil|]. cbn.
  assert (Hm : ∀ l m x, x = m ∨ x ∈ l → x <= fold_left Z.max l m).
  { induction l as [|y l IH]; intros m x; cbn; [intros [->|H]; [lia|by apply not_elem_of_nil in H]|].
    intros [->|[->|Hx]%elem_of_cons].
    - transitivity (Z.max m y); [lia|apply IH; by left].
    - transitivity (Z.max m y); [lia|apply IH; by left].
    - apply IH. by right. }
  intros [->|H]%elem_of_cons; apply Hm; [by left|right].
  by apply (list_elem_of_fmap_2 pk_seq) in H.
Qed.

(** What a completed peek did: the items the host listed, the key and manager
    they were checked with, and what is queued. *)
Lemma syncPeek_spec label row realm s n st' :
  map_wf (st_downloads s) →
  syncPeek bagMgrs label row realm (s, n) = (Ok tt, st') →
  ∃ items n' mgr idm vk rs s1 new,
    bagMgrFor bagMgrs realm = Some mgr ∧ identity bagMgrs = Ok idm ∧
    importVerifyKey (bm_publicKey idm) = Ok vk ∧
    net_peek (cursorOf row realm) realm n = (Ok items, n') ∧
    res_mapM (peek_crypto vk mgr) items = Ok rs ∧
    peek_post label realm rs [] s s1 new ∧
    st' = (if Nat.eqb (length items) 0 then dnl_enq new s1
           else recordSeqs label (mkSeqs (Some (max_seq items)) None) (Some realm) (dnl_enq new s1), n').
Proof.
  intros Hw. unfold syncPeek. destruct (bagMgrFor bagMgrs realm) as [mgr|]; [|done].
  rewrite lift_bind. destruct (identity bagMgrs) as [idm| |]; [|done..].
  rewrite lift_bind. destruct (importVerifyKey (bm_publicKey idm)) as [vk| |] eqn:Ek; [|done..]. cbn [catching].
  intros (items & n' & Hp & H)%net_bind. rewrite lift_bind in H.
  destruct (res_mapM (peek_crypto vk mgr) items) as [rs| |] eqn:Er; [|done..].
  unfold mbind at 1, M_bind, m_bind in H.
  destruct (peek_loop label realm rs [] [] (s, n')) as [[dls| |] st1] eqn:El; [|done..].
  destruct (peek_loop_post _ _ _ _ _ _ _ _ _ Hw El) as (s1 & new & -> & -> & P).
  change ((on_st (dnl_enq new) ≫= λ _ : (), if Nat.eqb (length items) 0 then mret tt else
    on_st (recordSeqs label (mkSeqs (Some (max_seq items)) None) (Some realm))) (s1, n') = (Ok tt, st')) in H.
  rewrite st_bind in H. exists items, n', mgr, idm, vk, rs, s1, new.
  split_and!; try done. destruct (Nat.eqb (length items) 0); by injection H as <-.
Qed.

Lemma new_keys_NoDup label realm rs s s1 new :
  peek_post label realm rs [] s s1 new →
  NoDup (omap (λ r, match r with PeekOk r => Some (pc_seq' r) | _ => None end) rs) →
  NoDup (dl_key <$> new).
Proof.
  intros P Hn. eapply sublist_NoDup in Hn; [|exact (pp_sub _ _ _ _ _ _ _ P)].
  assert (Hk : dl_key <$> new = peek_key label realm <$> (dl_seq <$> new)).
  { rewrite <-list_fmap_compose. apply list_fmap_ext. intros i d Hi.
    apply list_elem_of_lookup_2 in Hi. destruct (pp_new _ _ _ _ _ _ _ P d Hi) as (r & head & _ & _ & ->).
    unfold dl_key, peek_key. cbn. apply storedRealm_key. }
  rewrite Hk. apply NoDup_fmap_2_strong; [|done]. intros x y _ _. apply downloadKey_seq.
Qed.

(** ** Open *)

Definition group_keys (g : DeqGroup) : list jsstr :=
  (λ seq, downloadKey (dg_host g) seq (dg_realm g)) <$> dg_seqs g.

Definition queued_in (groups : jsmap jsstr DeqGroup) (k : jsstr) : Prop :=
  ∃ gk g, map_get gk groups = Some g ∧ k ∈ group_keys g.

Definition groups_ok (groups : jsmap jsstr DeqGroup) : Prop :=
  map_wf groups ∧ ∀ gk g, map_get gk groups = Some g →
    gk = dg_host g ++ [0] ++ realmKey (default nullKDM (dg_realm g)) ∧ 0 ∉ dg_host g.

Lemma downloadKey_default host seq r r' :
  default nullKDM r = default nullKDM r' → downloadKey host seq r = downloadKey host seq r'.
Proof. intros H. unfold downloadKey. by rewrite H. Qed.

Lemma noteDeq_ok groups dl :
  groups_ok groups → 0 ∉ dl_host dl →
  groups_ok (noteDeq groups dl) ∧
  ∀ k, queued_in (noteDeq groups dl) k ↔ queued_in groups k ∨ k = dl_key dl.
Proof.
  intros [Hw Hg] H0. unfold noteDeq. set (gk := dl_host dl ++ [0] ++ realmKey (default nullKDM (dl_realm dl))).
  destruct (map_get gk groups) as [g|] eqn:E.
  - destruct (Hg _ _ E) as [He Hz]. apply split_first in He as [Hh Hr]; [|done..].
    apply realmKey_inj in Hr. split.
    + split; [by apply map_set_wf|]. intros k g'. rewrite map_get_set. case_decide as Hk; [|apply Hg].
      intros [= <-]. cbn. split; [|done]. subst k. unfold gk. by rewrite Hh, Hr.
    + assert (Hkey : downloadKey (dg_host g) (dl_seq dl) (dg_realm g) = dl_key dl).
      { unfold dl_key. rewrite Hh. by apply downloadKey_default. }
      intros k. unfold queued_in. setoid_rewrite map_get_set. split.
      * intros (k' & g' & H & Hin). case_decide; [|left; eauto]. injection H as <-.
        unfold group_keys in Hin. cbn in Hin. rewrite fmap_app, elem_of_app in Hin.
        destruct Hin as [Hin|Hin]; [left; eauto|right].
        cbn in Hin. apply list_elem_of_singleton in Hin. congruence.
      * intros [(k' & g' & H & Hin)| ->].
        -- destruct (decide (k' = gk)) as [->|Hne].
           ++ eexists gk, _. rewrite decide_True by done. split; [done|].
              rewrite E in H. injection H as <-. unfold group_keys. cbn. rewrite fmap_app. set_solver.
           ++ exists k', g'. by rewrite decide_False.
        -- eexists gk, _. rewrite decide_True by done. split; [done|].
           unfold group_keys. cbn. rewrite fmap_app, elem_of_app. right. cbn. rewrite Hkey. set_solver.
  - split.
    + split; [by apply map_set_wf|]. intros k g'. rewrite map_get_set. case_decide as Hk; [|apply Hg].
      intros [= <-]. by subst k.
    + intros k. unfold queued_in. setoid_rewrite map_get_set. split.
      * intros (k' & g' & H & Hin). case_decide; [|left; eauto]. injection H as <-. right.
        unfold group_keys in Hin. cbn in Hin. by apply list_elem_of_singleton in Hin.
      * intros [(k' & g' & H & Hin)| ->].
        -- exists k', g'. rewrite decide_False by (intros ->; congruence). done.
        -- eexists gk, _. rewrite decide_True by done. split; [done|]. cbn. set_solver.
Qed.

Lemma noteDeqs_ok dls groups :
  groups_ok groups → Forall (λ d, 0 ∉ dl_host d) dls →
  groups_ok (fold_left noteDeq dls groups) ∧
  ∀ k, queued_in (fold_left noteDeq dls groups) k ↔ queued_in groups k ∨ k ∈ dl_key <$> dls.
Proof.
  intros Hg Hz. revert groups Hg. induction Hz as [|d dls Hd _ IH]; intros groups Hg; cbn [fold_left].
  { split; [done|]. set_solver. }
  destruct (noteDeq_ok groups d Hg Hd) as [H1 H2]. destruct (IH _ H1) as [H3 H4].
  split; [done|]. intros k. rewrite H4, H2, fmap_cons, elem_of_cons. tauto.
Qed.

Lemma deq_groups_get gs s k :
  map_wf (st_downloads s) →
  let s' := fold_left (λ s g, dnl_deq (dg_host g) (dg_seqs g) (dg_realm g) s) gs s in
  ((∃ g, g ∈ gs ∧ k ∈ group_keys g) → map_get k (st_downloads s') = None) ∧
  ((∀ g, g ∈ gs → k ∉ group_keys g) → map_get k (st_downloads s') = map_get k (st_downloads s)).
Proof.
  revert s. induction gs as [|g gs IH]; intros s Hw; cbn [fold_left].
  { split; [|done]. intros (g & H & _). by apply not_elem_of_nil in H. }
  destruct (dnl_deq_get (dg_host g) (dg_seqs g) (dg_realm g) s k Hw) as [Hw' Hg].
  fold (group_keys g) in Hg. destruct (IH _ Hw') as [H1 H2]. cbv zeta in *. split.
  - intros (g' & [->|Hin]%elem_of_cons & Hk); [|apply H1; eauto].
    destruct (decide (Exists (λ g0, k ∈ group_keys g0) gs)) as [He|Hne].
    + apply H1. apply Exists_exists in He. destruct He as (g0 & ? & ?). eauto.
    + rewrite H2, Hg; [by rewrite decide_True|]. intros g0 H0 H0k. apply Hne, Exists_exists. eauto.
  - intros Hn. rewrite H2, Hg; [|intros; apply Hn; by right].
    rewrite decide_False; [done|]. apply Hn. by left.
Qed.

Lemma in_groups groups k :
  groups_ok groups → (∃ g, g ∈ map_values groups ∧ k ∈ group_keys g) ↔ queued_in groups k.
Proof.
  intros [Hg _]. unfold queued_in. split.
  - intros (g & Hin & Hk). unfold map_values in Hin.
    apply list_elem_of_fmap in Hin as ([gk g'] & -> & Hin). exists gk, g'. split; [|done].
    by apply map_get_in.
  - intros (gk & g & Hget & Hk). exists g. split; [|done]. apply map_get_Some_in in Hget.
    unfold map_values. by apply (list_elem_of_fmap_2 snd) in Hget.
Qed.

(** The queue after [flushDeq]: exactly the noted rows are gone. *)
Lemma flushDeq_get dls s k :
  map_wf (st_downloads s) → Forall (λ d, 0 ∉ dl_host d) dls →
  map_get k (st_downloads (flushDeq (fold_left noteDeq dls []) s)) =
    if decide (k ∈ dl_key <$> dls) then None else map_get k (st_downloads s).
Proof.
  intros Hw Hz. assert (H0 : groups_ok []) by (split; [apply map_wf_nil|done]).
  destruct (noteDeqs_ok dls [] H0 Hz) as [Hg Hq].
  destruct (deq_groups_get (map_values (fold_left noteDeq dls [])) s k Hw) as [H1 H2].
  unfold flushDeq. case_decide as Hk.
  - apply H1, in_groups, Hq; [done|]. by right.
  - apply H2. intros g Hin Hkg. apply Hk.
    destruct (proj1 (Hq k)) as [(gk & g' & Hn & _)|]; [|done|done].
    apply in_groups; [done|]. eauto.
Qed.

Lemma flushDeq_rest groups s :
  st_messages (flushDeq groups s) = st_messages s ∧ st_uploads (flushDeq groups s) = st_uploads s ∧
  st_cursors (flushDeq groups s) = st_cursors s ∧ st_hosts (flushDeq groups s) = st_hosts s.
Proof.
  unfold flushDeq. generalize (map_values groups). intros gs. revert s.
  induction gs as [|g gs IH]; intros s; cbn [fold_left]; [done|].
  destruct (IH (dnl_deq (dg_host g) (dg_seqs g) (dg_realm g) s)) as (-> & -> & -> & ->). done.
Qed.

(** The archive rows of opened items. *)
Definition opened_rows (items : list IPulled) (opened : list (option (bytes * IMsgParts)))
    : list (bytes * IStoredMessageData) :=
  omap (λ '(it, o),
    '(key, p) ← o; Some (key, msg2StoredMsgData p (Some (default nullKDM (dl_realm (pu_dl it))))))
    (zip items opened).

Lemma openPulled_spec items (s : Store) (n : N) r st' :
  openPulled bagMgrs items (s, n) = (r, st') →
  match r with
  | Ok _ => ∃ opened, res_mapM (open_item bagMgrs) items = Ok opened ∧
      st' = (flushDeq (fold_left noteDeq (pu_dl <$> items) []) (msgs_add (opened_rows items opened) s), n)
  | _ => st' = (s, n)
  end.
Proof.
  unfold openPulled. rewrite lift_bind.
  destruct (res_mapM (open_item bagMgrs) items) as [opened| |]; [|by intros [= <- <-]..].
  rewrite st_bind. intros [= <- <-]. by exists opened.
Qed.

Lemma opened_rows_in items opened it key p :
  res_mapM (open_item bagMgrs) items = Ok opened → it ∈ items →
  open_item bagMgrs it = Ok (Some (key, p)) →
  (key, msg2StoredMsgData p (Some (default nullKDM (dl_realm (pu_dl it))))) ∈ opened_rows items opened.
Proof.
  unfold opened_rows. revert opened. induction items as [|i items IH]; intros opened.
  { by intros _ ?%not_elem_of_nil. }
  intros (y & ys & Hy & Hys & ->)%res_mapM_cons Hin Ho. cbn.
  apply elem_of_cons in Hin as [->|Hin].
  - rewrite Ho in Hy. injection Hy as <-. cbn. by left.
  - specialize (IH ys Hys Hin Ho). destruct y as [[k p']|]; cbn; [by right|done].
Qed.

Lemma opened_rows_from items opened key d :
  res_mapM (open_item bagMgrs) items = Ok opened → (key, d) ∈ opened_rows items opened →
  ∃ it p, it ∈ items ∧ open_item bagMgrs it = Ok (Some (key, p)) ∧
    d = msg2StoredMsgData p (Some (default nullKDM (dl_realm (pu_dl it)))).
Proof.
  unfold opened_rows. revert opened. induction items as [|i items IH]; intros opened.
  { intros [= <-] Hin. by apply not_elem_of_nil in Hin. }
  intros (y & ys & Hy & Hys & ->)%res_mapM_cons. cbn.
  destruct y as [[k p]|]; cbn.
  - intros [[= -> ->]|Hin]%elem_of_cons; [exists i, p; split_and!; [by left|done|done]|].
    destruct (IH ys Hys Hin) as (it & p' & ? & ? & ?). exists it, p'. split_and!; [by right|done|done].
  - intros Hin. destruct (IH ys Hys Hin) as (it & p' & ? & ? & ?). exists it, p'.
    split_and!; [by right|done|done].
Qed.

(** ** Push *)

Lemma upl_deq_get host hshs s h :
  map_get h (st_uploads (upl_deq host hshs s)) =
    if decide (h = host)
    then (λ set, filter (λ x, x ∉ btoh <$> hshs) set) <$> map_get h (st_uploads s)
    else map_get h (st_uploads s).
Proof.
  unfold upl_deq. destruct (map_get host (st_uploads s)) as [set|] eqn:E.
  - cbn. rewrite map_get_set. case_decide as Hh; [|done]. subst. rewrite E. cbn. f_equal.
    clear E. revert set. induction hshs as [|x hshs IH]; intros set; cbn [fold_left].
    + symmetry. apply list_filter_all. intros. set_solver.
    + rewrite IH. unfold set_delete. rewrite list_filter_filter. apply list_filter_iff.
      intros y. rewrite fmap_cons, not_elem_of_cons. tauto.
  - case_decide as Hh; [subst; by rewrite E|done].
Qed.

(** The hashes a host's answers confirm. *)
Definition confirmed (hashes : list bytes) (results : list IBagPushItem) : list bytes :=
  omap (λ item, match item with PushStored idx _ => at_idx hashes idx | PushFailed _ _ => None end) results.

Lemma deq_pushed_spec label hashes results (s : Store) (n : N) :
  deq_pushed label hashes results (s, n) =
    (Ok tt, (fold_left (λ s h, upl_deq label [h] s) (confirmed hashes results) s, n)).
Proof.
  revert s. induction results as [|[idx seq|idx st] results IH]; intros s; [done| |apply IH].
  cbn [deq_pushed confirmed omap list_omap]. destruct (at_idx hashes idx) as [h|]; [|apply IH].
  rewrite st_bind, IH. done.
Qed.

Lemma deq_all label hs s :
  let s' := fold_left (λ s h, upl_deq label [h] s) hs s in
  (∀ h, map_get h (st_uploads s') =
    if decide (h = label) then (λ set, filter (λ x, x ∉ btoh <$> hs) set) <$> map_get h (st_uploads s)
    else map_get h (st_uploads s)) ∧
  st_messages s' = st_messages s ∧ st_downloads s' = st_downloads s ∧
  st_cursors s' = st_cursors s ∧ st_hosts s' = st_hosts s ∧ st_realms s' = st_realms s.
Proof.
  revert s. induction hs as [|x hs IH]; intros s; cbn [fold_left].
  { split_and!; try done. intros h. case_decide; [|done].
    destruct (map_get h (st_uploads s)) as [set|]; [|done]. cbn. f_equal. symmetry.
    apply list_filter_all. intros. set_solver. }
  destruct (IH (upl_deq label [x] s)) as (H1 & H2 & H3 & H4 & H5 & H6). cbv zeta in *.
  split; [|rewrite H2, H3, H4, H5, H6; unfold upl_deq; by destruct (map_get label (st_uploads s))].
  intros h. rewrite H1, upl_deq_get. repeat case_decide; try done.
  destruct (map_get h (st_uploads s)) as [set|]; [|done]. cbn. f_equal.
  rewrite list_filter_filter. apply list_filter_iff.
  intros y. cbn. rewrite !not_elem_of_cons. pose proof (not_elem_of_nil y). tauto.
Qed.

(** The cursor moves to the end of a run of confirmed sequence numbers. *)
Lemma contiguous_spec c results :
  let c' := contiguous c results in
  c <= c' ∧ ∀ seq, c < seq <= c' → ∃ idx, PushStored idx seq ∈ results.
Proof.
  unfold contiguous. set (seqs := omap _ results).
  assert (Hs : ∀ q, q ∈ js_sort (by_key id) seqs → ∃ idx, PushStored idx q ∈ results).
  { intros q. rewrite js_sort_perm. unfold seqs. rewrite list_elem_of_omap.
    intros ([idx q'|] & Hin & [= ->]). eauto. }
  revert Hs. generalize (js_sort (by_key id) seqs). intros l. clear seqs. revert c.
  induction l as [|q l IH]; intros c Hl; cbn [fold_left]; [split; [lia|intros; lia]|].
  destruct (Z.eqb_spec q (c + 1)) as [->|Hne].
  - destruct (IH (c + 1)) as [H1 H2]; [intros; apply Hl; by right|]. split; [lia|].
    intros seq Hseq. destruct (decide (seq = c + 1)) as [->|]; [apply Hl; by left|].
    apply H2. lia.
  - apply IH. intros; apply Hl; by right.
Qed.
End facts.

(** * What no sync phase can do, whatever its outcome

    [grows] relates the stores before and after: the keys stay in step with
    the rows, no cursor moves back, no archived message is lost.  [safe]
    computations relate their stores by it on every outcome, also when they
    fail halfway; the combinators preserve it, as they do any preorder
    ([always]), and so do the phases. *)

Record grows (s s' : Store) : Prop := {
  gr_ok : store_ok s → store_ok s';
  gr_cursor : ∀ l r, cursor s l r <= cursor s' l r;
  gr_archive : ∀ key, msgs_has key s = true → msgs_has key s' = true;
  gr_hosts : st_hosts s' = st_hosts s;
}.

#[export] Instance grows_preorder : PreOrder grows.
Proof.
  split.
  - intros s. split; auto; intros; lia.
  - intros a b c [H1 H2 H3 H4] [I1 I2 I3 I4]. split; auto; [|congruence].
    intros l r. specialize (H2 l r). specialize (I2 l r). lia.
Qed.

(** Steps that leave cursors, hosts and archive alone. *)
Lemma grows_queues s s' :
  st_cursors s' = st_cursors s → st_messages s' = st_messages s → st_hosts s' = st_hosts s →
  (store_ok s → map_wf (st_downloads s') ∧
    ∀ k d, map_get k (st_downloads s') = Some d → k = dl_key d) →
  grows s s'.
Proof.
  intros Hc Hm Hh Hd. split.
  - intros Hok. destruct (Hd Hok). destruct Hok. split; by rewrite ?Hc.
  - intros l r. unfold cursor. rewrite Hc. lia.
  - intros key. unfold msgs_has. by rewrite Hm.
  - done.
Qed.

Lemma grows_upl_deq host hshs s : grows s (upl_deq host hshs s).
Proof.
  apply grows_queues; unfold upl_deq; case_match; try done; intros [? ? ? ?]; done.
Qed.
Lemma grows_upl_enq host hshs s : grows s (upl_enq host hshs s).
Proof. apply grows_queues; try done. by intros [? ? ? ?]. Qed.

Lemma grows_dnl_deq host seqs realm s : grows s (dnl_deq host seqs realm s).
Proof.
  apply grows_queues; try done. intros [Hw Hk _ _]. split.
  - exact (proj1 (dnl_deq_get host seqs realm s [] Hw)).
  - intros k d. rewrite (proj2 (dnl_deq_get host seqs realm s k Hw)). case_decide; [done|apply Hk].
Qed.

Lemma grows_dnl_enq msgs s : grows s (dnl_enq msgs s).
Proof.
  apply grows_queues; try done. intros [Hw Hk _ _]. split; [by apply dnl_enq_wf|].
  intros k d. rewrite dnl_enq_get. destruct (last _) as [d'|] eqn:E; [|apply Hk].
  intros [= <-]. by apply last_Some_elem_of, list_elem_of_filter in E as [<- _].
Qed.

Lemma grows_flushDeq groups s : grows s (flushDeq groups s).
Proof.
  unfold flushDeq. generalize (map_values groups). intros gs. revert s.
  induction gs as [|g gs IH]; intros s; cbn [fold_left]; [done|].
  etransitivity; [apply grows_dnl_deq|apply IH].
Qed.

Lemma grows_msgs_add rows s : grows s (msgs_add rows s).
Proof.
  split; [by intros [? ? ? ?]| |intros key; rewrite !msgs_has_iff, msgs_add_get|done].
  - intros. unfold cursor. cbn. lia.
  - destruct (last _) as [[]|]; eauto.
Qed.

Lemma nextCursor_ge cur seq next : nextCursor cur (mkSeqs (Some seq) None) = Some next → cur <= next.
Proof. unfold nextCursor. cbn. destruct (Z.ltb_spec cur seq); [|done]. intros [= <-]. lia. Qed.

Lemma recordSeqs_ok label u realm s : store_ok s → store_ok (recordSeqs label u realm s).
Proof.
  intros [Hw Hk Hcw Hck]. unfold recordSeqs. destruct (negb _); [done|]. cbv zeta.
  destruct (nextCursor _ u) as [next|]; [|done]. split; [done|done| |]; cbn.
  - by apply map_set_wf.
  - intros l b. rewrite map_get_set. case_decide; [|apply Hck]. intros [= <-].
    assert (Hb : map_wf (default [] (map_get label (st_cursors s))) ∧
      ∀ k c, map_get k (default [] (map_get label (st_cursors s))) = Some c → k = realmKey (rc_kdm c)).
    { destruct (map_get label (st_cursors s)) as [b|] eqn:E; [by apply (Hck label)|].
      split; [apply map_wf_nil|done]. }
    destruct Hb as [Hb1 Hb2]. split; [by apply map_set_wf|].
    intros k c. rewrite map_get_set. case_decide; [|apply Hb2]. by intros [= <-].
Qed.

Lemma grows_recordSeqs label seq realm s : grows s (recordSeqs label (mkSeqs (Some seq) None) realm s).
Proof.
  destruct (recordSeqs_rest label (mkSeqs (Some seq) None) realm s) as (_ & Hm & _ & Hh & _).
  split; [apply recordSeqs_ok| |intros key; unfold msgs_has; by rewrite Hm|by unfold st_hosts; rewrite Hh].
  intros l r. rewrite recordSeqs_cursor. case_decide; [|lia].
  destruct (nextCursor _ _) as [next|] eqn:E; cbn; [|lia]. by eapply nextCursor_ge.
Qed.
Create HintDb grow.
#[export] Hint Resolve grows_upl_deq grows_upl_enq grows_dnl_deq grows_dnl_enq grows_flushDeq
  grows_msgs_add grows_recordSeqs : grow.

(** ** Computations that relate their stores on every outcome *)

Section always.
Context {N : Type} (R : Store → Store → Prop) `{!PreOrder R}.

Definition always {A} (m : SM (N := N) A) : Prop :=
  ∀ s n r s' n', m (s, n) = (r, (s', n')) → R s s'.

Lemma always_ret {A} (a : A) : always (mret a).
Proof. by intros s n r s' n' [= <- <- <-]. Qed.
Lemma always_lift {A} (r : Res A) : always (m_lift r).
Proof. by intros s n r' s' n' [= <- <- <-]. Qed.
Lemma always_err {A} st : always (A := A) (m_err st).
Proof. by intros s n r' s' n' [= <- <- <-]. Qed.
Lemma always_throw {A} : always (A := A) m_throw.
Proof. by intros s n r' s' n' [= <- <- <-]. Qed.
Lemma always_rd {A} (f : Store → A) : always (rd f).
Proof. by intros s n r s' n' [= <- <- <-]. Qed.
Lemma always_st f : (∀ s, R s (f s)) → always (on_st f).
Proof using. clear. intros H s n r s' n' [= <- <- <-]. apply H. Qed.
Lemma always_net {A} (m : M N A) : always (on_net m).
Proof. intros s n r s' n'. unfold on_net. destruct (m n). by intros [= <- <- <-]. Qed.
Lemma always_settle {A} (m : SM A) : always m → always (m_settle m).
Proof using.
  clear. intros Hm s n r s' n'. unfold m_settle. destruct (m (s, n)) as [r0 [s0 n0]] eqn:E.
  intros [= <- <- <-]. by eapply Hm.
Qed.
Lemma always_bind {A B} (m : SM A) (k : A → SM B) : always m → (∀ a, always (k a)) → always (m ≫= k).
Proof.
  intros Hm Hk s n r s' n'. unfold mbind, M_bind, m_bind.
  destruct (m (s, n)) as [[a| |] [s1 n1]] eqn:E; intros H.
  - etransitivity; [by eapply Hm|by eapply Hk].
  - injection H as <- <- <-. by eapply Hm.
  - injection H as <- <- <-. by eapply Hm.
Qed.
End always.
Abbreviation safe := (always grows).
Create HintDb safe.
#[export] Hint Resolve always_ret always_lift always_err always_throw always_rd always_net always_settle : safe.
#[export] Hint Extern 0 (PreOrder _) => apply _ : safe.

(** Splits a phase at its binds and tests. *)
Ltac safe := repeat (intros; match goal with
  | |- always _ (_ ≫= _) => apply always_bind; [apply _| |]
  | |- always _ (on_st _) => apply always_st
  | |- always _ (if ?b then _ else _) => destruct b
  | |- always _ (match ?x with _ => _ end) => destruct x
  | |- _ => solve [eauto with safe grow]
  end).

Section phases.
Context {C : CryptoPrims} {N : Type} {NC : SyncNet N} (bagMgrs : list BagManager).

Lemma peek_loop_safe label realm rs enq dls : always grows (N := N) (peek_loop label realm rs enq dls).
Proof. revert enq dls. induction rs as [|[]]; intros; cbn [peek_loop]; safe. Qed.
Hint Resolve peek_loop_safe : safe.

Lemma syncPeek_safe label row realm : safe (syncPeek bagMgrs label row realm).
Proof. unfold syncPeek. safe. Qed.

Lemma deq_pushed_safe label hashes results : always grows (N := N) (deq_pushed label hashes results).
Proof. induction results as [|[]]; cbn [deq_pushed]; safe. Qed.
Hint Resolve deq_pushed_safe : safe.

Lemma pushBatch_safe label bags hashes realm : safe (pushBatch label bags hashes realm).
Proof. unfold pushBatch, touch. safe. Qed.
Hint Resolve pushBatch_safe : safe.

Lemma push_flush_safe label a : safe (push_flush label a).
Proof. unfold push_flush. safe. Qed.
Lemma conn_seal_safe msg realm : safe (conn_seal bagMgrs msg realm).
Proof. unfold conn_seal. safe. Qed.
Hint Resolve push_flush_safe conn_seal_safe : safe.

Lemma push_loop_safe label limit ready a : safe (push_loop bagMgrs label limit ready a).
Proof. revert a. induction ready; intros; cbn [push_loop]; safe. Qed.
Hint Resolve push_loop_safe : safe.

Lemma syncPush_safe label limit : safe (syncPush bagMgrs label limit).
Proof. unfold syncPush. safe. Qed.

Lemma pull_groups_safe pulls : safe (pull_groups pulls).
Proof. induction pulls; cbn [pull_groups]; safe. Qed.
Lemma pullBodies_safe items : safe (pullBodies items).
Proof. apply pull_groups_safe. Qed.
Lemma openPulled_safe items : always grows (N := N) (openPulled bagMgrs items).
Proof. unfold openPulled. safe. Qed.
Hint Resolve pullBodies_safe openPulled_safe : safe.

Lemma pull_pipeline_safe afterOpen nextPull rest :
  safe afterOpen → safe (pull_pipeline bagMgrs afterOpen nextPull rest).
Proof. intros Ha. revert nextPull. induction rest; intros; cbn [pull_pipeline]; safe. Qed.
Hint Resolve pull_pipeline_safe : safe.

Lemma syncPull_safe label limit afterOpen :
  safe afterOpen → safe (syncPull bagMgrs label limit afterOpen).
Proof. intros Ha. unfold syncPull. safe. Qed.
End phases.
#[export] Hint Resolve syncPeek_safe syncPush_safe syncPull_safe pushBatch_safe openPulled_safe : safe.
