(* ===== verification/SyncPull.v ===== *)
(** * The pull phase

    What one opened batch does to the stores ([openPulled_effect]), what
    [pullBodies] delivers of an answering host, and the pipeline of batches. *)
From S2P Require Export SyncFacts.
From S2P Require Import Js.

Section opened.
Context {C : CryptoPrims} {N : Type} {NC : SyncNet N} (bagMgrs : list BagManager).

Lemma openPulled_effect items s (n : N) s' n' :
  store_ok s → Forall (λ it, 0 ∉ dl_host (pu_dl it)) items →
  openPulled bagMgrs items (s, n) = (Ok tt, (s', n')) →
  (∀ it key p, it ∈ items → open_item bagMgrs it = Ok (Some (key, p)) → msgs_has key s' = true) ∧
  (∀ key d, map_get (btob64 key) (st_messages s') = Some d →
    map_get (btob64 key) (st_messages s) = Some d ∨
    ∃ it p, it ∈ items ∧ open_item bagMgrs it = Ok (Some (key, p)) ∧
      d = omit_rlm (msg2StoredMsgData p (Some (default nullKDM (dl_realm (pu_dl it)))))) ∧
  (∀ key, msgs_has key s = true → msgs_has key s' = true) ∧
  (∀ k, map_get k (st_downloads s') =
    if decide (k ∈ dl_key <$> (pu_dl <$> items)) then None else map_get k (st_downloads s)) ∧
  st_uploads s' = st_uploads s ∧ st_cursors s' = st_cursors s ∧ n' = n.
Proof.
  intros Hok Hz Hrun. apply openPulled_spec in Hrun as (opened & Ho & Hst). injection Hst as -> ->.
  set (s1 := msgs_add (opened_rows items opened) s).
  destruct (flushDeq_rest (fold_left noteDeq (pu_dl <$> items) []) s1) as (Hm & Hu & Hc & _).
  assert (Hhas : ∀ key, msgs_has key (flushDeq (fold_left noteDeq (pu_dl <$> items) []) s1) = msgs_has key s1)
    by (intros key; unfold msgs_has; by rewrite Hm).
  split_and!; [| | | |rewrite Hu; done|rewrite Hc; done|done].
  - intros it key p Hin Hop. rewrite Hhas. apply msgs_has_iff. unfold s1. rewrite msgs_add_get.
    pose proof (opened_rows_in bagMgrs items opened it key p Ho Hin Hop) as Hrow.
    destruct (last (filter (λ m, m.1 = key) (opened_rows items opened))) as [[]|] eqn:E; [eauto|].
    apply last_None in E. exfalso. apply (not_elem_of_nil (key, msg2StoredMsgData p
      (Some (default nullKDM (dl_realm (pu_dl it)))))). rewrite <-E. by apply list_elem_of_filter.
  - intros key d. rewrite Hm. unfold s1. rewrite msgs_add_get.
    destruct (last (filter (λ m, m.1 = key) (opened_rows items opened))) as [[k d']|] eqn:E; [|by left].
    intros [= <-]. right. apply last_Some_elem_of, list_elem_of_filter in E as [Hk Hin].
    cbn in Hk. subst k.
    destruct (opened_rows_from bagMgrs items opened key d' Ho Hin) as (it & p & ? & ? & ->). eauto.
  - intros key Hk. rewrite Hhas. apply msgs_has_iff in Hk. apply msgs_has_iff. unfold s1.
    rewrite msgs_add_get. destruct (last _) as [[]|]; [eauto|done].
  - intros k. rewrite flushDeq_get; [done|apply Hok|]. by apply Forall_fmap.
Qed.
End opened.

(** ** Grouping by realm *)

Definition dl_kdmOf (d : IDownloadMessage) : IKDM := default nullKDM (dl_realm d).
Definition dl_slot (d : IDownloadMessage) : IKDM * Z := (dl_kdmOf d, dl_seq d).

(** [pull] asks for the rows of [items] in its realm, by number. *)
Definition pull_of (items : list IDownloadMessage) (pull : RealmPull) : Prop :=
  (∀ seq d, map_get seq (rp_dls pull) = Some d ↔ d ∈ items ∧ dl_slot d = (rp_realm pull, seq)) ∧
  (∀ seq, is_Some (map_get seq (rp_dls pull)) ↔ seq ∈ rp_seqs pull).

Definition pulls_ok (items : list IDownloadMessage) (m : jsmap jsstr RealmPull) : Prop :=
  map_wf m ∧
  (∀ key p, map_get key m = Some p →
    key = realmKey (rp_realm p) ∧ pull_of items p ∧ rp_seqs p ≠ []) ∧
  (∀ d, d ∈ items → is_Some (map_get (realmKey (dl_kdmOf d)) m)).

Lemma group_pull_ok items d m :
  pulls_ok items m → dl_slot d ∉ dl_slot <$> items → pulls_ok (items ++ [d]) (group_pull m d).
Proof.
  intros (Hw & Hm & Hc) Hd. unfold group_pull. fold (dl_kdmOf d). cbv zeta.
  set (key := realmKey (dl_kdmOf d)). set (p0 := default (mkRealmPull (dl_kdmOf d) [] []) (map_get key m)).
  assert (Hp0 : rp_realm p0 = dl_kdmOf d ∧ pull_of items p0).
  { unfold p0. destruct (map_get key m) as [p|] eqn:E; cbn.
    - destruct (Hm _ _ E) as (Hk & Hp & _). by apply realmKey_inj in Hk as <-.
    - split; [done|]. split; [|intros seq; split; [by intros [? ?]|by intros ?%not_elem_of_nil]].
      intros seq d'. split; [done|]. intros [Hin Hs]. unfold dl_slot in Hs. injection Hs as Hr _. cbn in Hr.
      destruct (Hc d' Hin) as [p Hp]. rewrite Hr in Hp. fold key in Hp. congruence. }
  destruct Hp0 as (Hr & Hp & Hq). split_and!; [by apply map_set_wf| |].
  - intros k p. rewrite map_get_set. case_decide as Hk.
    + intros [= <-]. cbn. rewrite Hr. split; [done|]. split; [|by destruct (rp_seqs p0)]. split; cbn.
      * intros seq d'. rewrite map_get_set, elem_of_app, list_elem_of_singleton. rewrite Hr in *.
        case_decide as Hs; [subst seq|rewrite Hp].
        -- split; [intros [= <-]; by auto|]. intros [[Hin| ->] Hsl]; [|done].
           exfalso. apply Hd. change (dl_slot d) with (dl_kdmOf d, dl_seq d). rewrite <-Hsl.
           by apply list_elem_of_fmap_2.
        -- split; [naive_solver|]. intros [[Hin| ->] Hsl]; [done|]. unfold dl_slot in Hsl. congruence.
      * intros seq. rewrite map_get_set, elem_of_app, list_elem_of_singleton.
        case_decide; [subst|rewrite Hq]; naive_solver.
    + intros E. destruct (Hm _ _ E) as (Hk' & [Hp1 Hq1] & Hne). split; [done|]. split; [|done]. split; [|done].
      intros seq d'. rewrite Hp1, elem_of_app, list_elem_of_singleton. split; [naive_solver|].
      intros [[Hin| ->] Hsl]; [done|]. exfalso. apply Hk. rewrite Hk'.
      unfold dl_slot in Hsl. injection Hsl as <- _. done.
  - intros d' [Hin| ->%list_elem_of_singleton]%elem_of_app; rewrite map_get_set; fold key;
      case_decide; eauto. done.
Qed.

Lemma group_pulls_ok items :
  NoDup (dl_slot <$> items) → pulls_ok items (fold_left group_pull items []).
Proof.
  induction items as [|d items IH] using rev_ind; intros Hn.
  - split_and!; [apply map_wf_nil|done|]. by intros d ?%not_elem_of_nil.
  - rewrite fmap_app in Hn. apply NoDup_app in Hn as (Hn & Hd & _).
    rewrite fold_left_app. apply group_pull_ok; [by apply IH|].
    intros Hin. apply (Hd _ Hin). by left.
Qed.

(** ** An answering host *)

Section pull.
Context {C : CryptoPrims} {N : Type} {NC : SyncNet N} (bagMgrs : list BagManager).
(** While [I] holds of it, the host answers each pull of the numbers it may be
    asked for with the bodies it has. *)
Context (I : N → Prop) (asks : IKDM → Z → Prop) (bodies : IKDM → Z → option bytes).
Hypothesis host_pulls : ∀ seqs realm n, I n → seqs ≠ [] →
  (∀ seq, seq ∈ seqs → asks realm seq) → ∃ items n',
  net_pull seqs realm n = (Ok items, n') ∧ I n' ∧
  (∀ it, it ∈ items → bodies realm (pl_seq it) = Some (pl_bodyCph it)) ∧
  (∀ seq b, seq ∈ seqs → bodies realm seq = Some b → mkPullItem seq b ∈ items).

Lemma net_ok_bind {A B} (m : M N A) (k : A → SM B) (s : Store) (n : N) a n' :
  m n = (Ok a, n') → (on_net m ≫= k) (s, n) = k a (s, n').
Proof. intros Hm. apply ok_bind. unfold on_net. by rewrite Hm. Qed.

Definition asked (d : IDownloadMessage) : Prop := asks (dl_kdmOf d) (dl_seq d).

Lemma pull_groups_spec items pulls s n :
  I n → (∀ p, p ∈ pulls → pull_of items p ∧ rp_seqs p ≠ []) → Forall asked items →
  ∃ ps n', pull_groups pulls (s, n) = (Ok ps, (s, n')) ∧ I n' ∧
    ∀ x, x ∈ ps ↔ ∃ p seq d b, p ∈ pulls ∧ map_get seq (rp_dls p) = Some d ∧
      bodies (rp_realm p) seq = Some b ∧ x = mkPulled d (Some b).
Proof.
  revert n. induction pulls as [|p pulls IH]; intros n Hn Hp Hq; cbn [pull_groups].
  { exists [], n. split_and!; [done|done|]. intros x. split; [by intros ?%not_elem_of_nil|].
    intros (? & ? & ? & ? & ?%not_elem_of_nil & _). done. }
  destruct (Hp p) as [[Hget Hin] Hne]; [by left|].
  destruct (host_pulls (rp_seqs p) (rp_realm p) n Hn) as (its & n1 & E1 & Hn1 & Hs & Hcm); [done| |].
  { intros seq [d [Hd Hsl]%Hget]%Hin. rewrite Forall_forall in Hq. specialize (Hq d Hd).
    unfold asked in Hq. unfold dl_slot in Hsl. by injection Hsl as <- <-. }
  rewrite (net_ok_bind _ _ _ _ _ _ E1).
  destruct (IH n1 Hn1) as (ps & n2 & E2 & Hn2 & Hps); [intros; apply Hp; by right|done|].
  rewrite (ok_bind _ _ _ _ _ E2). eexists _, n2. split_and!; [done|done|].
  intros x. rewrite elem_of_app, list_elem_of_omap, Hps. split.
  - intros [(it & Hit & H)|(p' & seq & d & b & H1 & H2)].
    + destruct (map_get (pl_seq it) (rp_dls p)) as [d|] eqn:E; [|done]. injection H as <-.
      exists p, (pl_seq it), d, (pl_bodyCph it). split_and!; [by left|done|by apply Hs|done].
    + exists p', seq, d, b. split; [by right|done].
  - intros (p' & seq & d & b & [->|Hp']%elem_of_cons & Hd & Hb & ->).
    + left. exists (mkPullItem seq b). split; [apply Hcm; [|done]|].
      * apply Hin. eauto.
      * cbn. by rewrite Hd.
    + right. by exists p', seq, d, b.
Qed.

(** What is delivered: a body for each row the host has one for. *)
Lemma pullBodies_spec items s n :
  I n → NoDup (dl_slot <$> items) → Forall asked items →
  ∃ ps n', pullBodies items (s, n) = (Ok ps, (s, n')) ∧ I n' ∧
    ∀ x, x ∈ ps ↔ ∃ d b, d ∈ items ∧ bodies (dl_kdmOf d) (dl_seq d) = Some b ∧ x = mkPulled d (Some b).
Proof.
  intros Hn Hd Hask. destruct (group_pulls_ok items Hd) as (Hw & Hm & Hc).
  set (m := fold_left group_pull items []) in *.
  assert (Hp : ∀ p, p ∈ map_values m → ∃ k, map_get k m = Some p).
  { intros p Hin. unfold map_values in Hin. apply list_elem_of_fmap in Hin as ([k q] & -> & Hin).
    exists k. by apply map_get_in. }
  destruct (pull_groups_spec items (map_values m) s n Hn) as (ps & n' & E & Hn' & Hps).
  { intros p Hin. destruct (Hp p Hin) as [k Hk]. by apply (Hm k p). } { done. }
  exists ps, n'. split_and!; [done|done|]. intros x. rewrite Hps. split.
  - intros (p & seq & d & b & Hin & Hg & Hb & ->). destruct (Hp p Hin) as [k Hk].
    destruct (Hm k p Hk) as (_ & [Hget _] & _). apply Hget in Hg as [Hi Hs]. unfold dl_slot in Hs.
    injection Hs as Hr Hq. exists d, b. rewrite Hr, Hq. done.
  - intros (d & b & Hi & Hb & ->). destruct (Hc d Hi) as [p Hpg].
    destruct (Hm _ _ Hpg) as (Hr & [Hget _] & _). apply realmKey_inj in Hr.
    exists p, (dl_seq d), d, b. rewrite <-Hr. split_and!; [|apply Hget|done|done].
    + apply map_get_Some_in in Hpg. by apply (list_elem_of_fmap_2 snd) in Hpg.
    + split; [done|]. unfold dl_slot. by rewrite Hr.
Qed.

(** ** The pipeline *)

Lemma open_item_total d b : is_Some (dl_headEnc d) →
  ∃ o, open_item bagMgrs (mkPulled d b) = Ok o.
Proof.
  intros [e He]. unfold open_item, resolveHeadEnc. cbn. rewrite He. cbn.
  destruct (bagMgrFor bagMgrs _) as [mgr|]; [|by eexists].
  destruct (openBagBody e b _ _) eqn:E; [by eexists..|].
  exfalso. revert E. apply openBagBody_total. intros cph. apply bm_decrypt_total.
Qed.

Lemma res_mapM_total {A B} (f : A → Res B) xs :
  (∀ x, x ∈ xs → ∃ y, f x = Ok y) → ∃ ys, res_mapM f xs = Ok ys.
Proof.
  induction xs as [|x xs IH]; intros H; [by eexists|].
  destruct (H x) as [y Hy]; [by left|]. destruct IH as [ys Hys]; [intros; apply H; by right|].
  exists (y :: ys). apply res_mapM_cons. eauto.
Qed.

Definition served (d : IDownloadMessage) : Prop := is_Some (bodies (dl_kdmOf d) (dl_seq d)).
#[local] Instance served_dec d : Decision (served d) := _.

(** The rows of [ds] the host has a body for left the queue, those that open
    for the archive; other rows stay. *)
Record drained (ds : list IDownloadMessage) (s s' : Store) : Prop := {
  dr_gone : ∀ d, d ∈ ds → served d → map_get (dl_key d) (st_downloads s') = None;
  dr_kept : ∀ k, (∀ d, d ∈ ds → served d → k ≠ dl_key d) →
    map_get k (st_downloads s') = map_get k (st_downloads s);
  dr_archived : ∀ d b key p, d ∈ ds → bodies (dl_kdmOf d) (dl_seq d) = Some b →
    open_item bagMgrs (mkPulled d (Some b)) = Ok (Some (key, p)) → msgs_has key s' = true;
  dr_grows : grows s s';
}.

Lemma drained_nil s s' : st_downloads s' = st_downloads s → grows s s' → drained [] s s'.
Proof. intros H ?. split; [by intros ? ?%not_elem_of_nil|by rewrite H|by intros ? ? ? ? ?%not_elem_of_nil|done]. Qed.

Lemma drained_app ds es s s1 s2 : drained ds s s1 → drained es s1 s2 → drained (ds ++ es) s s2.
Proof.
  intros D E. split.
  - intros d [Hd|Hd]%elem_of_app Hs; [|by apply (dr_gone _ _ _ E)].
    destruct (decide (Exists (λ e, served e ∧ dl_key d = dl_key e) es)) as [(e & He & Hse & ->)%Exists_exists|Hn].
    + by apply (dr_gone _ _ _ E).
    + rewrite (dr_kept _ _ _ E); [by apply (dr_gone _ _ _ D)|].
      intros e He Hse Hk. apply Hn, Exists_exists. eauto.
  - intros k Hk. rewrite (dr_kept _ _ _ E), (dr_kept _ _ _ D); [done|..];
      intros d Hd; apply Hk, elem_of_app; auto.
  - intros d b key p [Hd|Hd]%elem_of_app Hb Ho; [|by eapply (dr_archived _ _ _ E)].
    apply (gr_archive _ _ (dr_grows _ _ _ E)). by eapply (dr_archived _ _ _ D).
  - etransitivity; [apply D|apply E].
Qed.

Definition delivers (ds : list IDownloadMessage) (ps : list IPulled) : Prop :=
  ∀ x, x ∈ ps ↔ ∃ d b, d ∈ ds ∧ bodies (dl_kdmOf d) (dl_seq d) = Some b ∧ x = mkPulled d (Some b).

Definition row_ok (d : IDownloadMessage) : Prop :=
  is_Some (dl_headEnc d) ∧ (0 ∉ dl_host d) ∧ asked d.

Lemma open_batch ds ps ps' s (n : N) :
  store_ok s → Forall row_ok ds → delivers ds ps → ps' ≡ₚ ps →
  ∃ s', openPulled (N := N) bagMgrs ps' (s, n) = (Ok tt, (s', n)) ∧ drained ds s s'.
Proof.
  intros Hok Hrow Hps Hperm. rewrite Forall_forall in Hrow.
  assert (Hps' : delivers ds ps') by (intros x; by rewrite Hperm).
  destruct (openPulled bagMgrs ps' (s, n)) as [r [s' n']] eqn:E.
  pose proof (openPulled_spec _ _ _ _ _ _ E) as Hspec.
  destruct (res_mapM_total (open_item bagMgrs) ps') as [os Hos].
  { intros x (d & b & Hd & _ & ->)%Hps'. apply open_item_total, (Hrow d Hd). }
  assert (r = Ok tt) as ->.
  { clear Hspec. unfold openPulled in E. rewrite lift_bind, Hos, st_bind in E. by injection E as <- _. }
  destruct (openPulled_effect bagMgrs ps' s n s' n' Hok) as (H1 & _ & _ & H4 & _ & _ & ->); [|done|].
  { apply Forall_forall. intros x (d & b & Hd & _ & ->)%Hps'. apply (Hrow d Hd). }
  exists s'. split; [done|]. split.
  - intros d Hd [b Hb]. rewrite H4, decide_True; [done|].
    apply list_elem_of_fmap. exists d. split; [done|]. apply list_elem_of_fmap.
    exists (mkPulled d (Some b)). split; [done|]. apply Hps'. eauto.
  - intros k Hk. rewrite H4, decide_False; [done|].
    intros (d0 & -> & (x & -> & (d & b & Hd & Hb & ->)%Hps')%list_elem_of_fmap)%list_elem_of_fmap.
    by apply (Hk d Hd); [eexists|].
  - intros d b key p Hd Hb. apply H1, Hps'. eauto.
  - by eapply openPulled_safe.
Qed.

Context (afterOpen : SM (N := N) unit).
Hypothesis after_ok : ∀ s n, I n → ∃ s' n',
  afterOpen (s, n) = (Ok tt, (s', n')) ∧ I n' ∧ st_downloads s' = st_downloads s ∧ grows s s'.

(** One batch opened and its follow-up run. *)
Lemma open_after ds ps ps' s n :
  I n → store_ok s → Forall row_ok ds → delivers ds ps → ps' ≡ₚ ps →
  ∃ s1 s' n', openPulled bagMgrs ps' (s, n) = (Ok tt, (s1, n)) ∧
    afterOpen (s1, n) = (Ok tt, (s', n')) ∧ I n' ∧ drained ds s s'.
Proof.
  intros Hn Hok Hrow Hps Hp. destruct (open_batch ds ps ps' s n Hok Hrow Hps Hp) as (s1 & E1 & D1).
  destruct (after_ok s1 n Hn) as (s2 & n2 & E2 & Hn2 & Hd & Hg).
  exists s1, s2, n2. split_and!; [done..|]. rewrite <-(app_nil_r ds).
  eapply drained_app; [done|]. by apply drained_nil.
Qed.

Lemma pull_pipeline_spec batch rest ps s n :
  I n → store_ok s → NoDup (dl_slot <$> batch ++ concat rest) →
  Forall row_ok (batch ++ concat rest) → delivers batch ps →
  ∃ s' n', pull_pipeline bagMgrs afterOpen ps rest (s, n) = (Ok tt, (s', n')) ∧ I n' ∧
    drained (batch ++ concat rest) s s'.
Proof.
  revert batch ps s n. induction rest as [|nxt rest IH]; intros batch ps s n Hn Hok Hnd Hrow Hps;
    cbn [pull_pipeline concat]; set (ps' := sortByHlcDesc _ ps); apply Forall_app in Hrow as [Hr1 Hr2].
  - destruct (open_after batch ps ps' s n Hn Hok Hr1 Hps (js_sort_perm _ _))
      as (s1 & s2 & n2 & E1 & E2 & Hn2 & D).
    exists s2, n2. rewrite (ok_bind _ _ _ _ _ E1), E2, app_nil_r. done.
  - rewrite fmap_app in Hnd. apply NoDup_app in Hnd as (_ & _ & Hnd).
    assert (Hnx : NoDup (dl_slot <$> nxt)).
    { cbn [concat] in Hnd. rewrite fmap_app in Hnd. by apply NoDup_app in Hnd as (? & _). }
    assert (Hask : Forall asked nxt).
    { cbn [concat] in Hr2. apply Forall_app in Hr2 as [Hr2 _]. eapply Forall_impl; [done|]. by intros ? (_ & _ & ?). }
    destruct (pullBodies_spec nxt s n Hn Hnx Hask) as (ps2 & n1 & Ep & Hn1 & Hps2).
    rewrite (ok_bind _ _ _ (Ok ps2) (s, n1)) by (unfold m_settle; by rewrite Ep).
    destruct (open_after batch ps ps' s n1 Hn1 Hok Hr1 Hps (js_sort_perm _ _))
      as (s1 & s2 & n2 & E1 & E2 & Hn2 & D).
    rewrite (ok_bind _ _ _ _ _ E1), (ok_bind _ _ _ _ _ E2), lift_bind.
    destruct (IH nxt ps2 s2 n2 Hn2 (gr_ok _ _ (dr_grows _ _ _ D) Hok) Hnd Hr2 Hps2)
      as (s3 & n3 & E3 & Hn3 & D3).
    exists s3, n3. split_and!; [done|done|]. by eapply drained_app.
Qed.

Lemma rows_slots label s :
  store_ok s → NoDup (dl_slot <$> filter (λ d, dl_host d = label) (dnl_list s)).
Proof.
  intros [Hw Hk _ _]. apply (NoDup_fmap_1 (λ '(r, q), downloadKey label q (Some r))).
  rewrite <-list_fmap_compose.
  rewrite (list_fmap_ext _ dl_key); last first.
  { intros i d Hi%list_elem_of_lookup_2. apply list_elem_of_filter in Hi as [<- _]. done. }
  eapply sublist_NoDup; [|apply fmap_sublist, sublist_filter].
  unfold dnl_list, map_values. rewrite <-list_fmap_compose.
  rewrite (list_fmap_ext _ fst); [exact Hw|].
  intros i [k d] Hi%list_elem_of_lookup_2. cbn. symmetry. by apply Hk, map_get_in.
Qed.

Lemma syncPull_spec label limit s n :
  I n → store_ok s → 0 ∉ label →
  (∀ d, d ∈ dnl_list s → dl_host d = label → is_Some (dl_headEnc d) ∧ asked d) →
  (∃ d, d ∈ dnl_list s ∧ dl_host d = label) →
  ∃ s' n', syncPull bagMgrs label limit afterOpen (s, n) = (Ok tt, (s', n')) ∧ I n' ∧
    drained (filter (λ d, dl_host d = label) (dnl_list s)) s s'.
Proof.
  intros Hn Hok Hz He (d0 & Hd0 & Hl0). unfold syncPull. rewrite (ok_bind (rd dnl_list) _ (s, n) (dnl_list s) (s, n) eq_refl).
  set (rows := filter _ (dnl_list s)).
  assert (Hin0 : d0 ∈ rows) by by apply list_elem_of_filter.
  destruct (Nat.eqb_spec (length rows) 0) as [E|_].
  { destruct rows; [|done]. by apply not_elem_of_nil in Hin0. }
  set (items := sortByHlcDesc _ rows). assert (Hp : items ≡ₚ rows) by apply js_sort_perm.
  pose proof (proj1 (batch_loop_spec (λ d, mh_len (dl_head d)) limit items [] [] 0
    eq_refl (or_introl eq_refl) (Forall_nil_2 _))) as Hb. cbn [concat app] in Hb.
  assert (Hslots : NoDup (dl_slot <$> items)).
  { rewrite Hp. by apply rows_slots. }
  assert (Hrow : Forall row_ok items).
  { apply Forall_forall. intros d. rewrite Hp. intros [<- Hd]%list_elem_of_filter. destruct (He d Hd eq_refl). done. }
  assert (Hdr : ∀ s', drained items s s' → drained rows s s').
  { intros s' [H1 H2 H3 H4]. split; [..|done].
    - intros d Hd. apply H1. by rewrite Hp.
    - intros k Hk. apply H2. intros d. rewrite Hp. apply Hk.
    - intros d b key p Hd. apply H3. by rewrite Hp. }
  unfold batchByBytes. destruct (batch_loop _ limit items [] [] 0) as [|b rest]; cbn [concat] in Hb.
  { rewrite <-Hb in Hp. apply Permutation_nil in Hp. rewrite Hp in Hin0.
    by apply not_elem_of_nil in Hin0. }
  rewrite <-Hb in Hslots, Hrow. assert (Hbn : NoDup (dl_slot <$> b)).
  { rewrite fmap_app in Hslots. by apply NoDup_app in Hslots as (? & _). }
  assert (Hask : Forall asked b).
  { apply Forall_app in Hrow as [Hrow _]. eapply Forall_impl; [done|]. by intros ? (_ & _ & ?). }
  destruct (pullBodies_spec b s n Hn Hbn Hask) as (ps & n1 & Ep & Hn1 & Hps).
  rewrite (ok_bind _ _ _ _ _ Ep).
  destruct (pull_pipeline_spec b rest ps s n1 Hn1 Hok Hslots Hrow Hps) as (s2 & n2 & E2 & Hn2 & D).
  exists s2, n2. split_and!; [done|done|]. apply Hdr. by rewrite <-Hb.
Qed.
End pull.
