(* ===== verification/SyncPush.v ===== *)
(** * The push phase

    What a run of [syncPush] may ask of the host ([push_loop_requests]), and
    what it leaves in the upload queue of a host that accepts. *)
From S2P Require Export SyncFacts.
From S2P Require Import Js.

Section push.
Context {C : CryptoPrims} {N : Type} {NC : SyncNet N} (bagMgrs : list BagManager).

Definition bags_bytes (bags : list IBag) : Z := foldr (λ b n, bagBytes b + n) 0 bags.

Lemma bags_bytes_snoc bags b : bags_bytes (bags ++ [b]) = bags_bytes bags + bagBytes b.
Proof. induction bags as [|x bags IH]; cbn; [lia|]. unfold bags_bytes in *. cbn. rewrite IH. lia. Qed.

(** The bags were sealed by the manager of one realm. *)
Definition sealed_for (realm : IKDM) (bags : list IBag) : Prop :=
  ∀ b, b ∈ bags → ∃ mgr msg nh nb,
    bagMgrFor bagMgrs realm = Some mgr ∧ sealBag msg mgr nh nb = Ok b.

Definition request_ok (limit : Z) (bags : list IBag) : Prop :=
  bags ≠ [] ∧ (bags_bytes bags <= limit ∨ length bags = 1%nat) ∧ ∃ realm, sealed_for realm bags.

Record acc_ok (limit : Z) (a : PushAcc) : Prop := {
  ao_bytes : pa_bytes a = bags_bytes (pa_bags a);
  ao_fits : pa_bags a = [] ∨ pa_bytes a <= limit ∨ length (pa_bags a) = 1%nat;
  ao_sealed : sealed_for (pa_realm a) (pa_bags a);
  ao_hashes : length (pa_bags a) = length (pa_hashes a);
}.

Lemma emptyAcc_ok limit realm : acc_ok limit (emptyAcc realm).
Proof. split; [done|by left|by intros ? ?%not_elem_of_nil|done]. Qed.

Lemma acc_empty_spec a : acc_empty a = true ↔ pa_bags a = [].
Proof. unfold acc_empty. rewrite Nat.eqb_eq. destruct (pa_bags a); naive_solver. Qed.

(** The accumulator after one more bag, whatever flushes came before. *)
Definition acc_add (a : PushAcc) (item : Ready) (bag : IBag) : PushAcc :=
  mkAcc (pa_bags a ++ [bag]) (pa_hashes a ++ [rdy_hash item]) (pa_bytes a + bagBytes bag)
    (if acc_empty a then rdy_realm item else pa_realm a).

Lemma acc_add_ok limit a item bag :
  acc_ok limit a → (pa_bags a = [] ∨ pa_realm a = rdy_realm item) →
  (pa_bags a = [] ∨ pa_bytes a + bagBytes bag <= limit) →
  sealed_for (rdy_realm item) [bag] → acc_ok limit (acc_add a item bag).
Proof.
  intros [Hb Hf Hs Hh] Hr Hl Hbag. split; cbn.
  - by rewrite bags_bytes_snoc, Hb.
  - right. destruct Hl as [->|Hl]; [by right|by left].
  - destruct (acc_empty a) eqn:E.
    + apply acc_empty_spec in E as ->. done.
    + destruct Hr as [Hr|Hr]; [apply acc_empty_spec in Hr; congruence|].
      intros b [Hin|Hin]%elem_of_app; [by apply Hs|]. rewrite Hr. by apply Hbag.
  - rewrite !length_app, Hh. done.
Qed.

Lemma acc_request limit a : acc_ok limit a → length (pa_bags a) ≠ 0%nat → request_ok limit (pa_bags a).
Proof.
  intros [Hb Hf Hs _] Hne. split; [by intros E; rewrite E in Hne|]. split; [|by eexists].
  destruct Hf as [E|Hf]; [by rewrite E in Hne|]. by rewrite <-Hb.
Qed.

(** One turn of the loop: flush on another realm, seal, flush when full, add. *)
Lemma acc_step limit a a1 a2 item bag :
  a1 = (if negb (acc_empty a) && negb (sameRealm (pa_realm a) (rdy_realm item))
        then emptyAcc (pa_realm a) else a) →
  a2 = (if negb (acc_empty a1) && (limit <? pa_bytes a1 + bagBytes bag)
        then emptyAcc (pa_realm a1) else a1) →
  acc_ok limit a2 → sealed_for (rdy_realm item) [bag] → acc_ok limit (acc_add a2 item bag).
Proof.
  intros E1 E2 Ha2 Hbag.
  assert (Hr : pa_bags a1 = [] ∨ pa_realm a1 = rdy_realm item).
  { subst a1. destruct (acc_empty a) eqn:E; cbn [negb andb]; [by left; apply acc_empty_spec|].
    destruct (sameRealm (pa_realm a) (rdy_realm item)) eqn:Es; cbn [negb]; [|by left].
    right. by apply sameRealm_spec. }
  clear E1. apply acc_add_ok; [done| |..|done]; subst a2.
  - destruct (_ && _); [by left|done].
  - destruct (acc_empty a1) eqn:E; cbn [negb andb]; [by left; apply acc_empty_spec|].
    destruct (Z.ltb_spec limit (pa_bytes a1 + bagBytes bag)); [by left|right; lia].
Qed.

(** ** Requests *)

Section requests.
Context (limit : Z) (P : N → Prop).
Hypothesis P_nonce : ∀ n, P n → P (net_nonce n).2.
Hypothesis P_push : ∀ bags n, request_ok limit bags → P n → P (net_push bags n).2.

Definition keepsP {A} (m : SM A) (Q : A → Prop) : Prop :=
  ∀ s n r s' n', P n → m (s, n) = (r, (s', n')) → P n' ∧ ∀ a, r = Ok a → Q a.

Lemma keepsP_bind {A B} (m : SM A) (k : A → SM B) Q R :
  keepsP m Q → (∀ a, Q a → keepsP (k a) R) → keepsP (m ≫= k) R.
Proof.
  intros Hm Hk s n r s' n' Hn. unfold mbind, M_bind, m_bind.
  destruct (m (s, n)) as [r0 [s1 n1]] eqn:E. destruct (Hm _ _ _ _ _ Hn E) as [Hn1 Hq].
  destruct r0 as [a| |]; [by apply (Hk a (Hq a eq_refl))|by intros [= <- <- <-]..].
Qed.
Lemma keepsP_ret {A} (a : A) (Q : A → Prop) : Q a → keepsP (mret a) Q.
Proof. intros Hq s n r s' n' Hn [= <- <- <-]. split; [done|]. by intros ? [= <-]. Qed.
Lemma keepsP_weaken {A} (m : SM A) (Q R : A → Prop) : (∀ a, Q a → R a) → keepsP m Q → keepsP m R.
Proof. intros H Hm s n r s' n' Hn E. destruct (Hm _ _ _ _ _ Hn E) as [? Hq]. split; [done|]. intros a Ha. by apply H, Hq. Qed.
Lemma keepsP_net {A} (m : M N A) : (∀ n, P n → P (m n).2) → keepsP (on_net m) (λ _, True).
Proof. intros H s n r s' n' Hn. unfold on_net. specialize (H n Hn). destruct (m n). by intros [= <- <- <-]. Qed.
Lemma keepsP_local {A} (m : SM A) Q :
  (∀ s n, (m (s, n)).2.2 = n ∧ ∀ a, (m (s, n)).1 = Ok a → Q a) → keepsP m Q.
Proof. intros H s n r s' n' Hn E. destruct (H s n) as [H1 H2]. rewrite E in H1, H2. cbn in *. by subst. Qed.

Lemma pushBatch_requests label a :
  acc_ok limit a → keepsP (pushBatch label (pa_bags a) (pa_hashes a) (pa_realm a)) (λ _, True).
Proof.
  intros Ha. unfold pushBatch.
  destruct (Nat.eqb_spec (length (pa_bags a)) 0) as [|Hne]; [by apply keepsP_ret|].
  eapply keepsP_bind; [apply keepsP_net; intros; apply P_push; [by apply acc_request|done]|]. intros results _.
  apply keepsP_local. intros s n. split; [|done].
  rewrite (ok_bind _ _ _ _ _ (deq_pushed_spec label (pa_hashes a) results s n)), rd_bind.
  destruct (hosts_get label _); [|done]. by destruct (_ <? _).
Qed.

Lemma push_flush_requests label a :
  acc_ok limit a → keepsP (push_flush label a) (λ a', a' = emptyAcc (pa_realm a)).
Proof.
  intros Ha. unfold push_flush. eapply keepsP_bind; [by apply pushBatch_requests|].
  intros _ _. by apply keepsP_ret.
Qed.

(** A conditional flush. *)
Lemma flush_if_requests label a (b : bool) :
  acc_ok limit a →
  keepsP (if b then push_flush label a else mret a)
    (λ a', acc_ok limit a' ∧ a' = if b then emptyAcc (pa_realm a) else a).
Proof.
  intros Ha. destruct b; [|by apply keepsP_ret].
  eapply keepsP_weaken; [|by apply push_flush_requests].
  intros a' ->. split; [apply emptyAcc_ok|done].
Qed.

Lemma conn_seal_requests msg realm :
  keepsP (conn_seal bagMgrs msg realm) (λ bag, sealed_for realm [bag]).
Proof.
  unfold conn_seal. destruct (bagMgrFor bagMgrs realm) as [mgr|] eqn:E.
  - eapply keepsP_bind; [by apply keepsP_net|]. intros nh _.
    eapply keepsP_bind; [by apply keepsP_net|]. intros nb _.
    apply keepsP_local. intros s n. split; [done|]. intros bag Hb b ->%list_elem_of_singleton.
    by exists mgr, msg, nh, nb.
  - by apply keepsP_local.
Qed.

Lemma push_loop_requests label ready a :
  acc_ok limit a → keepsP (push_loop bagMgrs label limit ready a) (λ _, True).
Proof.
  revert a. induction ready as [|item ready IH]; intros a Ha; cbn [push_loop].
  { eapply keepsP_weaken; [|by apply push_flush_requests]. done. }
  eapply keepsP_bind; [by apply flush_if_requests|]. intros a1 [Ha1 E1].
  eapply keepsP_bind; [apply conn_seal_requests|]. intros bag Hbag. cbv zeta.
  eapply keepsP_bind; [by apply flush_if_requests|]. intros a2 [Ha2 E2].
  assert (Ha3 : acc_ok limit (acc_add a2 item bag)) by (by apply (acc_step limit a a1 a2)).
  eapply keepsP_bind; [by apply (flush_if_requests label (acc_add a2 item bag))|].
  intros a3 [Ha3' _]. by apply IH.
Qed.

Lemma syncPush_requests label : keepsP (syncPush bagMgrs label limit) (λ _, True).
Proof.
  unfold syncPush. eapply keepsP_bind; [by apply (keepsP_local _ (λ _, True))|]. intros pending _.
  eapply keepsP_bind; [by apply (keepsP_local _ (λ _, True))|]. intros ready _.
  eapply keepsP_bind; [apply push_loop_requests, emptyAcc_ok|]. intros. by apply keepsP_ret.
Qed.
End requests.

(** ** An accepting host *)

Section drain.
Context (limit : Z) (cap : nat) (J : list IBag → N → Prop) (nonce : bytes → Prop) (good : IBag → Prop).
(** [J bags n]: the host is [n] after it was sent [bags], at most [cap] of them. *)
Hypothesis host_nonce : ∀ bs n, J bs n → ∃ b n', net_nonce n = (Ok b, n') ∧ J bs n' ∧ nonce b.
Hypothesis host_accepts : ∀ bs bags n, J bs n → request_ok limit bags → Forall good bags →
  (length (bs ++ bags) ≤ cap)%nat → ∃ results n', net_push bags n = (Ok results, n') ∧ J (bs ++ bags) n' ∧
    ∀ i, (i < length bags)%nat → ∃ seq, PushStored (Z.of_nat i) seq ∈ results.

(** The item as sealed by its realm's manager. *)
Definition sealed_item (item : Ready) (bag : IBag) : Prop :=
  ∃ mgr nh nb, bagMgrFor bagMgrs (rdy_realm item) = Some mgr ∧ nonce nh ∧ nonce nb ∧
    sealBag (rdy_msg item) mgr nh nb = Ok bag.

(** The item's realm has a manager that seals it. *)
Definition seals (item : Ready) : Prop :=
  ∃ mgr, bagMgrFor bagMgrs (rdy_realm item) = Some mgr ∧
    ∀ nh nb, nonce nh → nonce nb → ∃ bag, sealBag (rdy_msg item) mgr nh nb = Ok bag ∧ good bag.

(** [hs] left the queue of [label], and only they. *)
Record pushed (label : jsstr) (hs : list bytes) (s s' : Store) : Prop := {
  ps_queue : ∀ h, map_get h (st_uploads s') =
    if decide (h = label) then (λ set, filter (λ x, x ∉ btoh <$> hs) set) <$> map_get h (st_uploads s)
    else map_get h (st_uploads s);
  ps_messages : st_messages s' = st_messages s;
  ps_downloads : st_downloads s' = st_downloads s;
}.

Lemma pushed_nil label s : pushed label [] s s.
Proof.
  split; [|done..]. intros h. case_decide; [|done]. destruct (map_get h _); [|done].
  cbn. f_equal. symmetry. apply list_filter_all. intros. apply not_elem_of_nil.
Qed.

Lemma pushed_app label hs hs' s s1 s2 :
  pushed label hs s s1 → pushed label hs' s1 s2 → pushed label (hs ++ hs') s s2.
Proof.
  intros [P1 P2 P3] [Q1 Q2 Q3]. split; [|congruence..]. intros h. rewrite Q1, P1.
  case_decide; [|done]. destruct (map_get h (st_uploads s)) as [set|]; [|done]. cbn. f_equal.
  rewrite list_filter_filter. apply list_filter_iff. intros x. rewrite fmap_app, not_elem_of_app. tauto.
Qed.

Lemma confirmed_all hashes results :
  (∀ i, (i < length hashes)%nat → ∃ seq, PushStored (Z.of_nat i) seq ∈ results) →
  ∀ h, h ∈ confirmed hashes results ↔ h ∈ hashes.
Proof.
  intros Hall h. unfold confirmed. rewrite list_elem_of_omap. split.
  - intros ([idx seq|] & _ & H); [|done]. unfold at_idx in H. destruct (idx <? 0); [done|].
    by apply list_elem_of_lookup_2 in H.
  - intros [i Hi]%list_elem_of_lookup_1. destruct (Hall i) as [seq Hseq]; [by apply lookup_lt_Some in Hi|].
    exists (PushStored (Z.of_nat i) seq). split; [done|]. unfold at_idx.
    destruct (Z.ltb_spec (Z.of_nat i) 0); [lia|]. by rewrite Nat2Z.id.
Qed.

Lemma pushBatch_accepted label a bs s n :
  J bs n → acc_ok limit a → Forall good (pa_bags a) → (length (bs ++ pa_bags a) ≤ cap)%nat → ∃ s' n',
    pushBatch label (pa_bags a) (pa_hashes a) (pa_realm a) (s, n) = (Ok tt, (s', n')) ∧
    J (bs ++ pa_bags a) n' ∧ pushed label (pa_hashes a) s s'.
Proof.
  intros Hn Ha Hg Hcap. unfold pushBatch. destruct (Nat.eqb_spec (length (pa_bags a)) 0) as [E|Hne].
  { exists s, n. pose proof E as E'. rewrite (ao_hashes _ _ Ha) in E'.
    apply nil_length_inv in E as ->. apply nil_length_inv in E' as ->. rewrite app_nil_r.
    split_and!; [done|done|apply pushed_nil]. }
  destruct (host_accepts bs (pa_bags a) n Hn) as (results & n1 & En & Hn1 & Hall); [by apply acc_request|done|done|].
  rewrite (ok_bind _ _ (s, n) results (s, n1)) by (unfold on_net; by rewrite En).
  rewrite (ok_bind _ _ _ _ _ (deq_pushed_spec label (pa_hashes a) results s n1)), rd_bind.
  set (s1 := fold_left _ _ s).
  destruct (deq_all label (confirmed (pa_hashes a) results) s) as (Hu & Hm & Hd & _).
  fold s1 in Hu, Hm, Hd.
  assert (HP : pushed label (pa_hashes a) s s1).
  { split; [|done..]. intros h. rewrite Hu. case_decide; [|done].
    destruct (map_get h (st_uploads s)); [|done]. cbn. f_equal. apply list_filter_iff. intros x.
    rewrite (ao_hashes _ _ Ha) in Hall. pose proof (confirmed_all _ _ Hall) as Hc.
    by setoid_rewrite list_elem_of_fmap; setoid_rewrite Hc. }
  destruct (hosts_get label s1) as [row|]; [|by exists s1, n1].
  cbv zeta. destruct (_ <? _); [|by exists s1, n1].
  eexists _, n1. split_and!; [done|done|]. unfold touch.
  destruct (recordSeqs_rest label (mkSeqs (Some (contiguous (cursorOf row (pa_realm a)) results)) None)
    (Some (pa_realm a)) s1) as (Hd' & Hm' & Hu' & _). destruct HP.
  split; [intros h; by rewrite Hu'|congruence..].
Qed.

Lemma push_flush_accepted label a bs s n :
  J bs n → acc_ok limit a → Forall good (pa_bags a) → (length (bs ++ pa_bags a) ≤ cap)%nat → ∃ s' n',
    push_flush label a (s, n) = (Ok (emptyAcc (pa_realm a)), (s', n')) ∧ J (bs ++ pa_bags a) n' ∧
    pushed label (pa_hashes a) s s'.
Proof.
  intros Hn Ha Hg Hcap. destruct (pushBatch_accepted label a bs s n Hn Ha Hg Hcap) as (s' & n' & E & ? & ?).
  exists s', n'. unfold push_flush. by rewrite (ok_bind _ _ _ _ _ E).
Qed.

(** A conditional flush: what is gone and what is kept make up what there was. *)
Lemma flush_if_accepted label a (b : bool) bs s n :
  J bs n → acc_ok limit a → Forall good (pa_bags a) → (length (bs ++ pa_bags a) ≤ cap)%nat →
  ∃ a' s' n' gone sent,
    (if b then push_flush label a else mret a) (s, n) = (Ok a', (s', n')) ∧ J (bs ++ sent) n' ∧
    a' = (if b then emptyAcc (pa_realm a) else a) ∧ acc_ok limit a' ∧ Forall good (pa_bags a') ∧
    pushed label gone s s' ∧ gone ++ pa_hashes a' = pa_hashes a ∧ sent ++ pa_bags a' = pa_bags a.
Proof.
  intros Hn Ha Hg Hcap. destruct b.
  - destruct (push_flush_accepted label a bs s n Hn Ha Hg Hcap) as (s' & n' & E & ? & ?).
    exists (emptyAcc (pa_realm a)), s', n', (pa_hashes a), (pa_bags a).
    split_and!; try done; [apply emptyAcc_ok|apply app_nil_r..].
  - exists a, s, n, [], []. rewrite app_nil_r. split_and!; try done. apply pushed_nil.
Qed.

Lemma conn_seal_accepted item bs (s : Store) n :
  J bs n → seals item → ∃ bag n',
    conn_seal bagMgrs (rdy_msg item) (rdy_realm item) (s, n) = (Ok bag, (s, n')) ∧ J bs n' ∧
    sealed_for (rdy_realm item) [bag] ∧ sealed_item item bag ∧ good bag.
Proof.
  intros Hn (mgr & Hmgr & Hseal). unfold conn_seal. rewrite Hmgr.
  destruct (host_nonce bs n Hn) as (nh & n1 & E1 & Hn1 & Hh).
  rewrite (ok_bind _ _ (s, n) nh (s, n1)) by (unfold on_net; by rewrite E1).
  destruct (host_nonce bs n1 Hn1) as (nb & n2 & E2 & Hn2 & Hb).
  rewrite (ok_bind _ _ (s, n1) nb (s, n2)) by (unfold on_net; by rewrite E2).
  destruct (Hseal nh nb Hh Hb) as (bag & Hbag & Hg). exists bag, n2. unfold m_lift. rewrite Hbag.
  split_and!; [done|done| |by exists mgr, nh, nb|done].
  intros b ->%list_elem_of_singleton. by exists mgr, (rdy_msg item), nh, nb.
Qed.

Lemma push_loop_accepted label ready a bs s n :
  J bs n → acc_ok limit a → Forall good (pa_bags a) → Forall seals ready →
  (length (bs ++ pa_bags a) + length ready ≤ cap)%nat → ∃ a' s' n' bags,
    push_loop bagMgrs label limit ready a (s, n) = (Ok a', (s', n')) ∧
    J (bs ++ pa_bags a ++ bags) n' ∧ Forall2 sealed_item ready bags ∧
    pushed label (pa_hashes a ++ (rdy_hash <$> ready)) s s'.
Proof.
  intros Hn Ha Hg Hs. revert a bs s n Hn Ha Hg.
  induction Hs as [|item ready Hi _ IH]; intros a bs s n Hn Ha Hg Hcap; cbn [push_loop length] in *;
    rewrite ?length_app in Hcap.
  { destruct (push_flush_accepted label a bs s n Hn Ha Hg) as (s' & n' & E & ? & ?);
      [rewrite length_app; lia|].
    eexists _, s', n', []. cbn. by rewrite !app_nil_r. }
  destruct (flush_if_accepted label a (negb (acc_empty a) && negb (sameRealm (pa_realm a) (rdy_realm item)))
    bs s n Hn Ha Hg) as (a1 & s1 & n1 & g1 & b1 & E1 & Hn1 & D1 & Ha1 & Hg1 & P1 & G1 & B1);
    [rewrite length_app; lia|]. pose proof (f_equal length B1) as L1. rewrite length_app in L1.
  rewrite (ok_bind _ _ _ _ _ E1). clear E1.
  destruct (conn_seal_accepted item _ s1 n1 Hn1 Hi) as (bag & n2 & E2 & Hn2 & Hbag & Hsi & Hgb).
  rewrite (ok_bind _ _ _ _ _ E2). cbv zeta. clear E2.
  destruct (flush_if_accepted label a1 (negb (acc_empty a1) && (limit <? pa_bytes a1 + bagBytes bag))
    _ s1 n2 Hn2 Ha1 Hg1) as (a2 & s2 & n3 & g2 & b2 & E3 & Hn3 & D2 & Ha2 & Hg2 & P2 & G2 & B2);
    [rewrite !length_app; lia|]. pose proof (f_equal length B2) as L2. rewrite length_app in L2.
  rewrite (ok_bind _ _ _ _ _ E3). clear E3.
  assert (Ha3 : acc_ok limit (acc_add a2 item bag)) by (by apply (acc_step limit a a1 a2)).
  assert (Hg3 : Forall good (pa_bags (acc_add a2 item bag))) by (apply Forall_app; split; [done|by constructor]).
  destruct (flush_if_accepted label (acc_add a2 item bag) (limit <=? pa_bytes (acc_add a2 item bag))
    _ s2 n3 Hn3 Ha3 Hg3) as (a3 & s3 & n4 & g3 & b3 & E4 & Hn4 & _ & Ha3' & Hg3' & P3 & G3 & B3);
    [cbn; rewrite !length_app; cbn; lia|]. pose proof (f_equal length B3) as L3.
  cbn in L3. rewrite !length_app in L3. cbn in L3.
  rewrite (ok_bind _ _ _ _ _ E4). clear E4.
  destruct (IH a3 _ s3 n4 Hn4 Ha3' Hg3') as (a' & s' & n' & bags & E5 & Hn' & Hbs & P4);
    [rewrite !length_app; lia|].
  exists a', s', n', (bag :: bags). split_and!; [done| |by constructor|].
  - replace (bs ++ pa_bags a ++ bag :: bags)
      with ((((bs ++ b1) ++ b2) ++ b3) ++ pa_bags a3 ++ bags); [done|].
    rewrite <-!(assoc_L app). f_equal. rewrite (assoc_L app b3), B3. cbn.
    by rewrite <-B1, <-B2, <-!(assoc_L app).
  - replace (pa_hashes a ++ (rdy_hash <$> item :: ready))
      with (g1 ++ g2 ++ g3 ++ pa_hashes a3 ++ (rdy_hash <$> ready)).
    + eauto using pushed_app.
    + rewrite (assoc_L app g3), G3. cbn. rewrite <-G1, <-G2, <-!(assoc_L app). done.
Qed.

(** The whole phase: what is archived leaves the queue. *)
Definition hex_queue (label : jsstr) (s : Store) : Prop :=
  ∀ set, map_get label (st_uploads s) = Some set → ∀ x, x ∈ set → ∃ h, x = btoh h.

Lemma ready_hash realms s hash item :
  ready_of realms s hash = Some item → rdy_hash item = hash.
Proof. unfold ready_of. destruct (msgs_get hash s); [|done]. by intros [= <-]. Qed.

Lemma ready_iff realms s hash : is_Some (ready_of realms s hash) ↔ msgs_has hash s = true.
Proof.
  rewrite msgs_has_iff. unfold ready_of, msgs_get. destruct (map_get _ (st_messages s)); cbn.
  - split; eauto.
  - split; intros [? [=]].
Qed.

Lemma ready_hashes realms s (pending : list bytes) h :
  h ∈ rdy_hash <$> omap (ready_of realms s) pending ↔ h ∈ pending ∧ msgs_has h s = true.
Proof.
  rewrite list_elem_of_fmap. setoid_rewrite list_elem_of_omap. split.
  - intros (item & -> & x & Hx & Hr). rewrite (ready_hash _ _ _ _ Hr). split; [done|].
    apply (ready_iff realms). eauto.
  - intros [Hin [item Hr]%(ready_iff realms)]. exists item. split; [by rewrite (ready_hash _ _ _ _ Hr)|eauto].
Qed.

Lemma list_filter_ext_in {A} (P Q : A → Prop) `{∀ x, Decision (P x), ∀ x, Decision (Q x)} (l : list A) :
  (∀ x, x ∈ l → P x ↔ Q x) → filter P l = filter Q l.
Proof.
  induction l as [|x l IH]; intros Hl; [done|]. rewrite !filter_cons.
  rewrite IH by (intros; apply Hl; by right).
  pose proof (Hl x (list_elem_of_here x l)). repeat case_decide; tauto.
Qed.

Lemma pushed_list label hs s s' h :
  hex_queue label s → pushed label hs s s' →
  upl_list h s' = if decide (h = label) then filter (λ x, x ∉ hs) (upl_list h s) else upl_list h s.
Proof.
  intros Hx P. unfold upl_list. rewrite (ps_queue _ _ _ _ P). case_decide as Hl; [subst h|done].
  unfold hex_queue in Hx.
  destruct (map_get label (st_uploads s)) as [set|]; [cbn|done]. specialize (Hx set eq_refl).
  induction set as [|x set IH]; [done|]. destruct (Hx x) as [y ->]; [by left|].
  rewrite filter_cons. cbn [omap list_omap]. rewrite htob_btoh, filter_cons.
  assert (Hiff : btoh y ∈ btoh <$> hs ↔ y ∈ hs) by (apply list_elem_of_fmap_inj; apply btoh_inj).
  assert (Hset : ∀ x, x ∈ set → ∃ h, x = btoh h) by (intros; apply Hx; by right).
  destruct (decide (y ∈ hs)) as [Hy|Hy].
  - rewrite !decide_False by tauto. by apply IH.
  - rewrite !decide_True by tauto. cbn [omap list_omap]. rewrite htob_btoh. f_equal. by apply IH.
Qed.

Lemma syncPush_accepted label s n :
  let ready := omap (ready_of (realms_list s) s) (upl_list label s) in
  J [] n → hex_queue label s → Forall seals ready → (length ready ≤ cap)%nat →
  ∃ s' n' bags, syncPush bagMgrs label limit (s, n) = (Ok tt, (s', n')) ∧
    J bags n' ∧ Forall2 sealed_item (js_sort ready_cmp ready) bags ∧
    upl_list label s' = filter (λ h, msgs_has h s = false) (upl_list label s) ∧
    (∀ h, h ≠ label → upl_list h s' = upl_list h s) ∧
    st_messages s' = st_messages s ∧ st_downloads s' = st_downloads s.
Proof.
  intros ready Hn Hx Hs Hcap. unfold syncPush.
  rewrite (ok_bind (rd (upl_list label)) _ (s, n) (upl_list label s) (s, n) eq_refl).
  rewrite (ok_bind (rd (λ s0, omap (ready_of (realms_list s0) s0) (upl_list label s))) _ (s, n) ready (s, n) eq_refl).
  destruct (push_loop_accepted label (js_sort ready_cmp ready) (emptyAcc nullKDM) [] s n Hn)
    as (a' & s' & n' & bags & E & Hn' & Hb & P).
  { apply emptyAcc_ok. } { apply Forall_nil_2. } { by rewrite js_sort_perm. }
  { cbn. by rewrite js_sort_perm. }
  exists s', n', bags. rewrite (ok_bind _ _ _ _ _ E). cbn [emptyAcc pa_hashes pa_bags app] in *.
  split_and!; [done|done|done| |intros h Hh|apply P|apply P].
  - rewrite (pushed_list _ _ _ _ label Hx P), decide_True by done.
    apply list_filter_ext_in. intros h Hh. rewrite js_sort_perm. unfold ready. rewrite ready_hashes.
    destruct (msgs_has h s); naive_solver.
  - by rewrite (pushed_list _ _ _ _ h Hx P), decide_False.
Qed.
End drain.
End push.
