(* ===== verification/Reconcile.v ===== *)
(** * Reconciliation with a host ([web/src/sync.ts])

    [reconcileHost] takes the full inventory of a host, sets the cursors to
    it, reports how archive and host differ, and queues the differences.
    [deqDownloadsForHeadHashes] drops downloads of messages just archived. *)
From S2P Require Export SyncFacts SyncPush.
From S2P Require Import Js.

Record ReconcileOpts := mkRecOpts { ro_pull : option bool; ro_push : option bool }.

Record ReconcileResult := mkRecResult {
  rr_msgcheck : bytes;
  rr_numBags : Z;
  rr_uniqueMsgs : Z;
  rr_numDupes : Z;
  rr_missingLocal : Z;
  rr_missingHost : Z;
}.

(** One message of the inventory: its first bag and how many there are. *)
Record MsgAgg := mkAgg { ag_hash : bytes; ag_count : Z; ag_sample : PeekCryptoOk; ag_realm : IKDM }.

Section defs.
Context {C : CryptoPrims} {N : Type} {NC : SyncNet N} (bagMgrs : list BagManager).

(** ** Queued downloads of archived messages *)

Definition dl_hash (d : IDownloadMessage) : Res bytes :=
  match dl_headEncHash d with
  | Some h => Ok h
  | None => '(_, h) ← resolveHeadEnc d; Ok h
  end.

Fixpoint deq_scan (want : list jsstr) (dls : list IDownloadMessage) (groups : jsmap jsstr DeqGroup)
    : Res (jsmap jsstr DeqGroup) :=
  match dls with
  | [] => Ok groups
  | d :: dls =>
      match dl_hash d with
      | Throw => Throw
      | Err _ => deq_scan want dls groups
      | Ok h => deq_scan want dls (if set_has (btob64 h) want then noteDeq groups d else groups)
      end
  end.

Definition deqDownloadsForHeadHashes (hashes : list bytes) : SM (N := N) unit :=
  let want := fold_left (λ set h, set_add (btob64 h) set) hashes [] in
  if Nat.eqb (length want) 0 then mret tt
  else
    dls ← rd dnl_list;
    if Nat.eqb (length dls) 0 then mret tt
    else
      deqGroups ← m_lift (deq_scan want dls []);
      on_st (flushDeq deqGroups).

(** ** Inventory *)

Definition tally (realm : IKDM) (byMsg : jsmap jsstr MsgAgg) (result : PeekCryptoResult)
    : jsmap jsstr MsgAgg :=
  match result with
  | PeekFail _ _ => byMsg
  | PeekOk r =>
      let k := btob64 (pc_headEncHash r) in
      match map_get k byMsg with
      | Some cur => map_set k (mkAgg (ag_hash cur) (ag_count cur + 1) (ag_sample cur) (ag_realm cur)) byMsg
      | None => map_set k (mkAgg (pc_headEncHash r) 1 r realm) byMsg
      end
  end.

Fixpoint reconcile_realms (label : jsstr) (vk : CryptoKey) (realms : list IKDM)
    (byMsg : jsmap jsstr MsgAgg) (numBags : Z) : SM (jsmap jsstr MsgAgg * Z) :=
  match realms with
  | [] => mret (byMsg, numBags)
  | realm :: realms =>
      match bagMgrFor bagMgrs realm with
      | None => m_err NotFound
      | Some mgr =>
          items ← on_net (net_peek 0 realm);
          cryptoResults ← m_lift (res_mapM (peek_crypto vk mgr) items);
          _ ← on_st (recordSeqs label (mkSeqs None (Some (max_seq items))) (Some realm));
          reconcile_realms label vk realms (fold_left (tally realm) cryptoResults byMsg)
            (numBags + Z.of_nat (length items))
      end
  end.

(** Messages of the host that the archive lacks, and their downloads. *)
Fixpoint missing_local (label : jsstr) (pull : bool) (aggs : list MsgAgg) (missingLocal : Z)
    (dls : list IDownloadMessage) : SM (N := N) (Z * list IDownloadMessage) :=
  match aggs with
  | [] => mret (missingLocal, dls)
  | agg :: aggs =>
      exists' ← rd (msgs_has (ag_hash agg));
      if exists' : bool then
        _ ← on_st (upl_deq label [ag_hash agg]);
        missing_local label pull aggs missingLocal dls
      else if negb pull then missing_local label pull aggs (missingLocal + 1) dls
      else
        match run_dec (readStruct messageHeadCodec) (pc_headEnc (ag_sample agg)) with
        | Throw => m_throw
        | Err _ => missing_local label pull aggs (missingLocal + 1) dls
        | Ok head =>
            missing_local label pull aggs (missingLocal + 1)
              (dls ++ [download_of label (ag_realm agg) (ag_sample agg) head])
        end
  end.

Definition num_dupes (aggs : list MsgAgg) : Z :=
  fold_left (λ n agg, if 1 <? ag_count agg then n + (ag_count agg - 1) else n) aggs 0.

(** Archived messages the host lacks. *)
Definition absent (byMsg : jsmap jsstr MsgAgg) (localKeys : list bytes) : list bytes :=
  filter (λ key, btob64 key ∉ map_keys byMsg) localKeys.

Definition reconcileHost (label : jsstr) (opts : ReconcileOpts) : SM ReconcileResult :=
  let pull := negb (bool_decide (ro_pull opts = Some false)) in
  let push := bool_decide (ro_push opts = Some true) in
  hostIdnt ← m_lift (identity bagMgrs);
  vk ← m_lift (catching CryptoError (importVerifyKey (bm_publicKey hostIdnt)));
  realms ← rd (λ s, realmKDMs (realms_list s));
  '(byMsg, numBags) ← reconcile_realms label vk realms [] 0;
  let aggs := map_values byMsg in
  '(missingLocal, dls) ← missing_local label pull aggs 0 [];
  _ ← (if Nat.eqb (length dls) 0 then mret tt else on_st (dnl_enq dls));
  localKeys ← rd msgs_listKeys;
  let toUpload := absent byMsg localKeys in
  _ ← (if push && negb (Nat.eqb (length toUpload) 0) then on_st (upl_enq label toUpload) else mret tt);
  mret (mkRecResult (checksumSet (ag_hash <$> aggs)) numBags (Z.of_nat (length byMsg)) (num_dupes aggs)
          missingLocal (Z.of_nat (length toUpload))).
End defs.

(** * What a reconciliation finds and leaves

    [inventory] is what a host listed and what of it opened; the tally of an
    inventory has one entry per distinct message; the report and the queues
    follow from it. *)

(** ** The tally *)

Abbreviation heads := (list (IKDM * PeekCryptoOk)).
Definition head_hash (x : IKDM * PeekCryptoOk) : bytes := pc_headEncHash x.2.

Definition opened_heads (realm : IKDM) (rs : list PeekCryptoResult) : heads :=
  omap (λ r, match r with PeekOk r => Some (realm, r) | PeekFail _ _ => None end) rs.

Definition counts (m : jsmap jsstr MsgAgg) : Z := fold_right (λ a n, ag_count a + n) 0 (map_values m).

Record tallied (L : heads) (m : jsmap jsstr MsgAgg) : Prop := {
  ta_wf : map_wf m;
  ta_agg : ∀ k a, (k, a) ∈ m → k = btob64 (ag_hash a) ∧ ag_hash a = pc_headEncHash (ag_sample a) ∧
    (ag_realm a, ag_sample a) ∈ L ∧ 1 <= ag_count a;
  ta_all : ∀ x, x ∈ L → ∃ a, map_get (btob64 (head_hash x)) m = Some a;
  ta_counts : counts m = Z.of_nat (length L);
}.

Lemma tallied_nil : tallied [] [].
Proof. split; [apply map_wf_nil| | |done]; intros; by apply not_elem_of_nil in H || by apply not_elem_of_nil in H. Qed.

Lemma counts_app m1 m2 : counts (m1 ++ m2) = counts m1 + counts m2.
Proof. unfold counts, map_values. induction m1 as [|x m1 IH]; [done|]. cbn in *. lia. Qed.
Lemma counts_cons k a m : counts ((k, a) :: m) = ag_count a + counts m.
Proof. done. Qed.

Lemma tally_ok realm L m r :
  tallied L m → tallied (L ++ [(realm, r)]) (tally realm m (PeekOk r)).
Proof.
  intros [Hw Ha Hl Hc]. unfold tally. set (k := btob64 (pc_headEncHash r)).
  destruct (map_get k m) as [cur|] eqn:E.
  - set (new := mkAgg _ _ _ _). destruct (map_set_split k cur new m E) as (m1 & m2 & Em & Es).
    assert (Hin : (k, cur) ∈ m) by (rewrite Em; set_solver).
    destruct (Ha k cur Hin) as (H1 & H2 & H3 & H4). split.
    + by apply map_set_wf.
    + intros k' a Hka. rewrite Es in Hka.
      assert ((k', a) ∈ m ∨ (k', a) = (k, new)) as [Hka'|[= -> ->]] by (rewrite Em; set_solver).
      * destruct (Ha k' a Hka') as (? & ? & ? & ?). split_and!; [done|done|set_solver|done].
      * unfold new. cbn. split_and!; [done|done|set_solver|lia].
    + intros x Hx. rewrite map_get_set. case_decide; [by exists new|].
      apply elem_of_app in Hx as [Hx| ->%list_elem_of_singleton]; [by apply Hl|done].
    + rewrite Es, length_app. rewrite Em in Hc. rewrite counts_app, counts_cons in *.
      unfold new. cbn. lia.
  - split.
    + by apply map_set_wf.
    + intros k' a. rewrite map_set_new by (by apply map_get_None).
      intros [Hka|[= -> ->]%list_elem_of_singleton]%elem_of_app.
      * destruct (Ha k' a Hka) as (? & ? & ? & ?). split_and!; [done|done|set_solver|done].
      * cbn. split_and!; [done|done|set_solver|done].
    + intros x Hx. rewrite map_get_set. case_decide; [by eexists|].
      apply elem_of_app in Hx as [Hx| ->%list_elem_of_singleton]; [by apply Hl|done].
    + rewrite map_set_new by (by apply map_get_None). rewrite counts_app, length_app, Hc. cbn. lia.
Qed.

Lemma tally_realm realm rs L m :
  tallied L m → tallied (L ++ opened_heads realm rs) (fold_left (tally realm) rs m).
Proof.
  revert L m. induction rs as [|[r|q st] rs IH]; intros L m Hm; cbn [fold_left].
  - by rewrite app_nil_r.
  - change (opened_heads realm (PeekOk r :: rs)) with ([(realm, r)] ++ opened_heads realm rs).
    rewrite (assoc_L app). by apply IH, tally_ok.
  - by apply IH.
Qed.

(** The distinct hashes of the inventory, in order of first appearance. *)
Lemma tallied_hashes L m : tallied L m →
  NoDup (ag_hash <$> map_values m) ∧
  (∀ h, h ∈ ag_hash <$> map_values m ↔ h ∈ head_hash <$> L) ∧
  map_keys m = btob64 <$> (ag_hash <$> map_values m).
Proof.
  intros [Hw Ha Hl _].
  assert (Hk : map_keys m = btob64 <$> (ag_hash <$> map_values m)).
  { unfold map_keys, map_values. rewrite <-!list_fmap_compose. apply list_fmap_ext.
    intros i [k a] Hi%list_elem_of_lookup_2. by destruct (Ha k a Hi) as [-> _]. }
  split_and!; [..|done].
  - unfold map_wf in Hw. rewrite Hk in Hw. by apply NoDup_fmap_1 in Hw.
  - intros h. split.
    + intros (a & -> & Hin)%list_elem_of_fmap. apply list_elem_of_fmap in Hin as ([k a'] & -> & Hin).
      destruct (Ha _ _ Hin) as (_ & He & Hx & _). cbn. rewrite He.
      by apply (list_elem_of_fmap_2 head_hash) in Hx.
    + intros (x & -> & Hx)%list_elem_of_fmap. destruct (Hl x Hx) as [a Hg].
      apply map_get_Some_in in Hg. destruct (Ha _ _ Hg) as (He & _).
      apply (inj btob64) in He. rewrite He. apply list_elem_of_fmap_2.
      by apply (list_elem_of_fmap_2 snd) in Hg.
Qed.

(** Every bag beyond the first of its message is a duplicate. *)
Lemma tallied_dupes L m : tallied L m →
  num_dupes (map_values m) = Z.of_nat (length L) - Z.of_nat (length m).
Proof.
  intros [_ Ha _ Hc]. rewrite <-Hc. clear Hc. unfold num_dupes.
  assert (∀ z, fold_left (λ n agg, if 1 <? ag_count agg then n + (ag_count agg - 1) else n) (map_values m) z =
    z + (counts m - Z.of_nat (length m))); [|rewrite H; lia].
  induction m as [|[k a] m IH]; intros z; cbn [map_values fmap list_fmap fold_left].
  { unfold counts. cbn. lia. }
  rewrite counts_cons. unfold map_values in IH. rewrite IH by (intros k' a' Hin; apply (Ha k' a'); by right).
  destruct (Ha k a) as (_ & _ & _ & H1); [by left|]. cbn [snd length].
  destruct (Z.ltb_spec 1 (ag_count a)); lia.
Qed.

(** ** The inventory *)

Section facts.
Context {C : CryptoPrims} {N : Type} {NC : SyncNet N} (bagMgrs : list BagManager).

(** What the host lists for each realm from sequence number 0, and the heads
    that open under the realm's manager. *)
Inductive inventory (vk : CryptoKey) : N → list IKDM → list (list IBagPeekItem) → heads → N → Prop :=
| inventory_nil n : inventory vk n [] [] [] n
| inventory_cons n n1 n2 realm realms mgr items rs lists L :
    bagMgrFor bagMgrs realm = Some mgr →
    net_peek 0 realm n = (Ok items, n1) →
    res_mapM (peek_crypto vk mgr) items = Ok rs →
    inventory vk n1 realms lists L n2 →
    inventory vk n (realm :: realms) (items :: lists) (opened_heads realm rs ++ L) n2.

Definition listed_bags (lists : list (list IBagPeekItem)) : Z :=
  fold_right (λ items n, Z.of_nat (length items) + n) 0 lists.

Definition set_cursors_to (label : jsstr) (seen : list (IKDM * list IBagPeekItem)) (s : Store) : Store :=
  fold_left (λ s '(realm, items),
    recordSeqs label (mkSeqs None (Some (max_seq items))) (Some realm) s) seen s.

Lemma reconcile_realms_spec label vk realms L0 byMsg numBags s n r st' :
  tallied L0 byMsg →
  reconcile_realms bagMgrs label vk realms byMsg numBags (s, n) = (Ok r, st') →
  ∃ lists L n', inventory vk n realms lists L n' ∧ tallied (L0 ++ L) r.1 ∧
    r.2 = numBags + listed_bags lists ∧ st' = (set_cursors_to label (zip realms lists) s, n').
Proof.
  revert L0 byMsg numBags s n. induction realms as [|realm realms IH]; intros L0 byMsg numBags s n Ht;
    cbn [reconcile_realms].
  - intros [= <- <-]. exists [], [], n. rewrite app_nil_r. cbn.
    split_and!; [constructor|done|lia|done].
  - destruct (bagMgrFor bagMgrs realm) as [mgr|] eqn:Em; [|done].
    intros (items & n1 & Hp & H)%net_bind. rewrite lift_bind in H.
    destruct (res_mapM (peek_crypto vk mgr) items) as [rs| |] eqn:Er; [|done..].
    rewrite st_bind in H. apply (IH (L0 ++ opened_heads realm rs)) in H; [|by apply tally_realm].
    destruct H as (lists & L & n' & Hi & Hta & Hn & ->).
    exists (items :: lists), (opened_heads realm rs ++ L), n'. rewrite (assoc_L app). cbn [listed_bags fold_right].
    split_and!; [by econstructor|done|unfold listed_bags in Hn; lia|done].
Qed.

Lemma set_cursors_rest label seen s :
  st_downloads (set_cursors_to label seen s) = st_downloads s ∧
  st_messages (set_cursors_to label seen s) = st_messages s ∧
  st_uploads (set_cursors_to label seen s) = st_uploads s ∧
  st_hostRows (set_cursors_to label seen s) = st_hostRows s ∧
  st_realms (set_cursors_to label seen s) = st_realms s ∧
  (store_ok s → store_ok (set_cursors_to label seen s)).
Proof.
  unfold set_cursors_to. revert s. induction seen as [|[realm items] seen IH]; intros s; [done|]. cbn [fold_left].
  set (u := mkSeqs None (Some (max_seq items))).
  destruct (IH (recordSeqs label u (Some realm) s)) as (-> & -> & -> & -> & -> & Hok).
  destruct (recordSeqs_rest label u (Some realm) s) as (-> & -> & -> & -> & ->).
  split_and!; try done. intros Hs. by apply Hok, recordSeqs_ok.
Qed.

(** Each inventoried realm's cursor is its highest listed number, also when
    that moves it back; no other cursor moves. *)
Lemma set_cursors_cursor label seen s l r :
  label ∈ st_hosts s → NoDup (seen.*1) →
  cursor (set_cursors_to label seen s) l r =
    if decide (l = label) then match map_get r seen with
      | Some items => max_seq items | None => cursor s l r end
    else cursor s l r.
Proof.
  unfold set_cursors_to. revert s. induction seen as [|[realm items] seen IH]; intros s Hh Hn; cbn [fold_left map_get].
  { by case_decide. }
  apply NoDup_cons in Hn as [Hni Hn]. set (u := mkSeqs None (Some (max_seq items))).
  destruct (recordSeqs_rest label u (Some realm) s) as (_ & _ & _ & Hrows & _).
  rewrite IH; [|unfold st_hosts in *; by rewrite Hrows|done].
  rewrite recordSeqs_cursor. cbn [default from_option id]. destruct (decide (l = label)) as [->|Hl].
  - destruct (decide (r = realm)) as [->|Hr].
    + replace (map_get realm seen) with (@None (list IBagPeekItem)) by (symmetry; by apply map_get_None).
      by rewrite decide_True.
    + by rewrite (decide_False (P := label = label ∧ _)) by tauto.
  - by rewrite (decide_False (P := l = label ∧ _)) by tauto.
Qed.

(** ** The differences *)

(** The download one message of the inventory asks for. *)
Definition agg_download (label : jsstr) (s : Store) (agg : MsgAgg) : option IDownloadMessage :=
  if msgs_has (ag_hash agg) s then None
  else match run_dec (readStruct messageHeadCodec) (pc_headEnc (ag_sample agg)) with
       | Ok head => Some (download_of label (ag_realm agg) (ag_sample agg) head)
       | _ => None
       end.

Definition drop_uploads (label : jsstr) (hs : list bytes) (s : Store) : Store :=
  fold_left (λ s h, upl_deq label [h] s) hs s.

Lemma upl_deq_rest label hs s :
  st_downloads (upl_deq label hs s) = st_downloads s ∧ st_messages (upl_deq label hs s) = st_messages s ∧
  st_hostRows (upl_deq label hs s) = st_hostRows s ∧ st_cursors (upl_deq label hs s) = st_cursors s ∧
  st_realms (upl_deq label hs s) = st_realms s.
Proof. unfold upl_deq. by destruct (map_get label (st_uploads s)). Qed.

Lemma drop_uploads_rest label hs s :
  st_downloads (drop_uploads label hs s) = st_downloads s ∧ st_messages (drop_uploads label hs s) = st_messages s ∧
  st_hostRows (drop_uploads label hs s) = st_hostRows s ∧ st_cursors (drop_uploads label hs s) = st_cursors s ∧
  st_realms (drop_uploads label hs s) = st_realms s.
Proof.
  revert s. induction hs as [|h hs IH]; intros s; [done|]. unfold drop_uploads in *. cbn [fold_left].
  destruct (IH (upl_deq label [h] s)) as (-> & -> & -> & -> & ->). apply upl_deq_rest.
Qed.

Lemma missing_local_spec label pull aggs k dls s n r st' :
  missing_local (N := N) label pull aggs k dls (s, n) = (Ok r, st') →
  r.1 = k + Z.of_nat (length (filter (λ h, msgs_has h s = false) (ag_hash <$> aggs))) ∧
  r.2 = dls ++ (if pull : bool then omap (agg_download label s) aggs else []) ∧
  st' = (drop_uploads label (filter (λ h, msgs_has h s = true) (ag_hash <$> aggs)) s, n).
Proof.
  revert k dls s. induction aggs as [|agg aggs IH]; intros k dls s; cbn [missing_local].
  { intros [= <- <-]. cbn. rewrite Z.add_0_r. by destruct pull; rewrite ?app_nil_r. }
  rewrite rd_bind. cbn [fmap list_fmap omap list_omap]. rewrite !filter_cons.
  assert (Hd : agg_download label s agg = if msgs_has (ag_hash agg) s then None
    else match run_dec (readStruct messageHeadCodec) (pc_headEnc (ag_sample agg)) with
         | Ok head => Some (download_of label (ag_realm agg) (ag_sample agg) head) | _ => None end) by done.
  rewrite Hd. clear Hd. destruct (msgs_has (ag_hash agg) s) eqn:Eh.
  - rewrite st_bind. intros (H1 & H2 & ->)%IH.
    assert (Hhas : ∀ h, msgs_has h (upl_deq label [ag_hash agg] s) = msgs_has h s).
    { intros h. unfold msgs_has. destruct (upl_deq_rest label [ag_hash agg] s) as (_ & -> & _). done. }
    rewrite decide_False, decide_True by done. split_and!.
    + rewrite H1. do 3 f_equal. apply list_filter_ext_in. intros h _. by rewrite Hhas.
    + rewrite H2. destruct pull; [|done]. f_equal. apply list_omap_ext, Forall_Forall2_diag, Forall_forall.
      intros a _. unfold agg_download. by rewrite Hhas.
    + f_equal. unfold drop_uploads. cbn [fold_left]. f_equal. apply list_filter_ext_in.
      intros h _. by rewrite Hhas.
  - rewrite decide_True, decide_False by done. cbn [length]. destruct pull; cbn [negb].
    + destruct (run_dec (readStruct messageHeadCodec) (pc_headEnc (ag_sample agg))) as [head| |] eqn:Ed; [| |done];
        intros (H1 & H2 & ->)%IH; (split_and!; [lia| |done]); rewrite H2; [by rewrite <-(assoc_L app)|done].
    + intros (H1 & H2 & ->)%IH. split_and!; [lia|done|done].
Qed.

(** The stores a completed reconciliation leaves, and its report. *)
Definition reconciled (label : jsstr) (opts : ReconcileOpts) (s : Store) (seen : list (IKDM * list IBagPeekItem))
    (m : jsmap jsstr MsgAgg) : Store :=
  let s1 := set_cursors_to label seen s in
  let s2 := drop_uploads label (filter (λ h, msgs_has h s = true) (ag_hash <$> map_values m)) s1 in
  let s3 := dnl_enq (if bool_decide (ro_pull opts = Some false) then [] else omap (agg_download label s) (map_values m)) s2 in
  let up := absent m (msgs_listKeys s) in
  if bool_decide (ro_push opts = Some true) && negb (Nat.eqb (length up) 0) then upl_enq label up s3 else s3.

Lemma dnl_enq_nil s : dnl_enq [] s = s.
Proof. by destruct s. Qed.

Lemma reconcileHost_spec label opts s n rep st' :
  reconcileHost bagMgrs label opts (s, n) = (Ok rep, st') →
  ∃ home vk lists L m n',
    identity bagMgrs = Ok home ∧ importVerifyKey (bm_publicKey home) = Ok vk ∧
    inventory vk n (realmKDMs (realms_list s)) lists L n' ∧ tallied L m ∧
    st' = (reconciled label opts s (zip (realmKDMs (realms_list s)) lists) m, n') ∧
    rep = mkRecResult (checksumSet (ag_hash <$> map_values m)) (listed_bags lists) (Z.of_nat (length m))
      (num_dupes (map_values m))
      (Z.of_nat (length (filter (λ h, msgs_has h s = false) (ag_hash <$> map_values m))))
      (Z.of_nat (length (absent m (msgs_listKeys s)))).
Proof.
  unfold reconcileHost. rewrite lift_bind. destruct (identity bagMgrs) as [home| |]; [|done..].
  rewrite lift_bind. destruct (importVerifyKey (bm_publicKey home)) as [vk| |] eqn:Ek; [|done..]. cbn [catching].
  rewrite rd_bind. unfold mbind at 1, M_bind, m_bind at 1.
  destruct (reconcile_realms bagMgrs label vk (realmKDMs (realms_list s)) [] 0 (s, n)) as [[[m k]| |] st1] eqn:E1; [|done..].
  apply (reconcile_realms_spec _ _ _ []) in E1 as (lists & L & n' & Hi & Ht & Hk & ->); [|apply tallied_nil].
  cbn [fst snd app] in *. set (s1 := set_cursors_to label _ s).
  destruct (set_cursors_rest label (zip (realmKDMs (realms_list s)) lists) s) as (_ & Hm1 & _). fold s1 in Hm1.
  assert (Hhas : ∀ h, msgs_has h s1 = msgs_has h s) by (intros h; unfold msgs_has; by rewrite Hm1).
  unfold mbind at 1, M_bind, m_bind at 1.
  destruct (missing_local _ _ _ _ _ (s1, n')) as [[[ml dls]| |] st2] eqn:E2; [|done..].
  apply missing_local_spec in E2 as (Hml & Hdls & ->). cbn [fst snd app] in *.
  set (s2 := drop_uploads label _ s1). intros H.
  assert (H' : (let up := absent m (msgs_listKeys s) in
    _ ← (if bool_decide (ro_push opts = Some true) && negb (Nat.eqb (length up) 0)
         then on_st (upl_enq label up) else mret tt);
    mret (mkRecResult (checksumSet (ag_hash <$> map_values m)) k (Z.of_nat (length m)) (num_dupes (map_values m))
      ml (Z.of_nat (length up)))) (dnl_enq dls s2, n') = (Ok rep, st')).
  { replace (msgs_listKeys s) with (msgs_listKeys (dnl_enq dls s2)).
    2:{ unfold msgs_listKeys. change (st_messages (dnl_enq dls s2)) with (st_messages s2). unfold s2.
        destruct (drop_uploads_rest label (filter (λ h, msgs_has h s1 = true) (ag_hash <$> map_values m)) s1)
          as (_ & -> & _). by rewrite Hm1. }
    destruct dls as [|d dls]; [|exact H]. rewrite dnl_enq_nil. exact H. }
  clear H. exists home, vk, lists, L, m, n'. do 4 (split; [done|]).
  assert (Hs2 : s2 = drop_uploads label (filter (λ h, msgs_has h s = true) (ag_hash <$> map_values m)) s1).
  { unfold s2. f_equal. apply list_filter_ext_in. intros h _. by rewrite Hhas. }
  assert (Hd : dls = if bool_decide (ro_pull opts = Some false) then [] else omap (agg_download label s) (map_values m)).
  { rewrite Hdls. destruct (bool_decide (ro_pull opts = Some false)); [done|]. cbn [negb]. apply list_omap_ext, Forall_Forall2_diag, Forall_forall.
    intros a _. unfold agg_download. by rewrite Hhas. }
  assert (Hml' : ml = Z.of_nat (length (filter (λ h, msgs_has h s = false) (ag_hash <$> map_values m)))).
  { rewrite Hml, Z.add_0_l. do 2 f_equal. apply list_filter_ext_in. intros h _. by rewrite Hhas. }
  unfold reconciled. fold s1. rewrite <-Hs2, <-Hd, <-Hml'. cbv zeta in *.
  replace k with (listed_bags lists) in H' by lia.
  destruct (bool_decide (ro_push opts = Some true) && negb (Nat.eqb (length (absent m (msgs_listKeys s))) 0));
    by injection H' as <- <-.
Qed.

(** *** Distinct messages have distinct download keys *)

Lemma downloadKey_same_host host seq seq' r r' :
  downloadKey host seq (Some r) = downloadKey host seq' (Some r') → seq = seq' ∧ r = r'.
Proof.
  unfold downloadKey. cbn [default from_option id]. change (js ":") with [colon].
  destruct (isDefaultRealm (Some r)) eqn:E, (isDefaultRealm (Some r')) eqn:E'; intros H;
    do 2 apply app_inv_head in H.
  - apply isDefaultRealm_spec in E, E'. apply (inj num_str) in H. split; congruence.
  - exfalso. eapply (colon_num seq). rewrite H. set_solver.
  - exfalso. eapply (colon_num seq'). rewrite <-H. set_solver.
  - rewrite !(assoc_L app (kdm_label _) [colon]), !(assoc_L app _ (num_str _)) in H.
    apply split_last in H as [H Hs]; [|apply colon_num..].
    rewrite <-!(assoc_L app) in H. apply split_last in H as [Hl Hi]; [|apply colon_num..].
    apply (inj num_str) in Hs, Hi. split; [done|]. destruct r, r'. cbn in *. congruence.
Qed.

Definition head_slot (x : IKDM * PeekCryptoOk) : IKDM * Z := (x.1, pc_seq' x.2).

Lemma opened_heads_slots vk mgr realm items rs :
  res_mapM (peek_crypto vk mgr) items = Ok rs → NoDup (pk_seq <$> items) →
  NoDup (head_slot <$> opened_heads realm rs) ∧ ∀ x, x ∈ opened_heads realm rs → x.1 = realm.
Proof.
  intros Hr Hn. split.
  - eapply sublist_NoDup in Hn; [|exact (peek_results_seqs _ _ _ _ Hr)].
    apply (NoDup_fmap_2 (pair realm)) in Hn.
    assert (head_slot <$> opened_heads realm rs = pair realm <$> omap (λ r, match r with
      | PeekOk r => Some (pc_seq' r) | _ => None end) rs) as ->; [|done].
    clear. induction rs as [|[]]; [done| |done]. cbn. by f_equal.
  - intros x (r & _ & Hx)%list_elem_of_omap. destruct r; [|done]. by injection Hx as <-.
Qed.

Lemma inventory_realms vk n realms lists hs n' x :
  inventory vk n realms lists hs n' → x ∈ hs → x.1 ∈ realms.
Proof.
  induction 1 as [|n n1 n2 realm realms mgr items rs lists hs Hm Hp Hr _ IH]; [by intros ?%not_elem_of_nil|].
  intros [Hx|Hx]%elem_of_app; [|right; by apply IH].
  apply list_elem_of_omap in Hx as (r & _ & Hx). destruct r; [|done]. injection Hx as <-. by left.
Qed.

Lemma inventory_slots vk n realms lists hs n' :
  inventory vk n realms lists hs n' → NoDup realms → Forall (λ items, NoDup (pk_seq <$> items)) lists →
  NoDup (head_slot <$> hs).
Proof.
  induction 1 as [|n n1 n2 realm realms mgr items rs lists hs Hm Hp Hr Hi IH]; [constructor|].
  intros [Hni Hn]%NoDup_cons [Hl Hls]%Forall_cons.
  destruct (opened_heads_slots _ _ realm _ _ Hr Hl) as [H1 H2].
  rewrite fmap_app. apply NoDup_app. split_and!; [done| |by apply IH].
  intros sl (x & -> & Hx)%list_elem_of_fmap (y & Hy & Hin)%list_elem_of_fmap.
  apply Hni. rewrite <-(H2 x Hx). injection Hy as -> _. by eapply inventory_realms.
Qed.

Lemma inventory_lists vk n realms lists hs n' :
  inventory vk n realms lists hs n' → length lists = length realms.
Proof. induction 1; cbn; congruence. Qed.

Lemma agg_downloads_keys label s hs m :
  tallied hs m → NoDup (head_slot <$> hs) → NoDup (dl_key <$> omap (agg_download label s) (map_values m)).
Proof.
  intros Ht Hn.
  assert (Hk : ∀ l, (∀ a, a ∈ l → ag_hash a = pc_headEncHash (ag_sample a) ∧ (ag_realm a, ag_sample a) ∈ hs) →
    NoDup (ag_hash <$> l) → NoDup (dl_key <$> omap (agg_download label s) l)).
  { induction l as [|a l IH]; intros Ha Hl; [constructor|].
    cbn [fmap list_fmap] in Hl. apply NoDup_cons in Hl as [Hni Hl].
    cbn [omap list_omap]. destruct (agg_download label s a) as [d|] eqn:Ed.
    2:{ apply IH; [|done]. intros; apply Ha; by right. }
    cbn [fmap list_fmap]. apply NoDup_cons. split; [|apply IH; [|done]; intros; apply Ha; by right].
    intros (d' & He & (a' & Ha' & Ed')%list_elem_of_omap)%list_elem_of_fmap.
    unfold agg_download in Ed, Ed'. repeat case_match; simplify_eq.
    unfold dl_key, download_of in He. cbn in He. rewrite !storedRealm_key in He.
    apply downloadKey_same_host in He as [Hs Hr]. apply Hni.
    destruct (Ha a) as [-> Hin]; [by left|]. destruct (Ha a') as [Hh' Hin']; [by right|].
    apply list_elem_of_lookup_1 in Hin as [i Hi]. apply list_elem_of_lookup_1 in Hin' as [j Hj].
    assert (i = j) as <-.
    { eapply (NoDup_lookup (head_slot <$> hs)); [done|by rewrite list_lookup_fmap, Hi|].
      rewrite list_lookup_fmap, Hj. cbn. unfold head_slot. cbn. congruence. }
    rewrite Hi in Hj. injection Hj as _ Hsmp. rewrite Hsmp, <-Hh'. by apply list_elem_of_fmap_2. }
  apply Hk; [|apply (tallied_hashes _ _ Ht)].
  intros a Hin. apply list_elem_of_fmap in Hin as ([k a'] & -> & Hin).
  destruct (ta_agg _ _ Ht _ _ Hin) as (_ & ? & ? & _). done.
Qed.

(** *** Uploads *)

Lemma upl_list_deq label hs h s : hex_queue label s →
  h ∈ upl_list label (upl_deq label hs s) ↔ h ∈ upl_list label s ∧ h ∉ hs.
Proof.
  intros Hx. unfold upl_list, upl_deq, hex_queue in *. destruct (map_get label (st_uploads s)) as [set|] eqn:E; cbn.
  2:{ rewrite E. split; [by intros ?%not_elem_of_nil|by intros [?%not_elem_of_nil _]]. }
  rewrite map_get_set_eq. cbn. specialize (Hx set eq_refl).
  assert (Hd : ∀ hs st y, y ∈ fold_left (λ set h, set_delete (btoh h) set) hs st ↔ y ∈ st ∧ y ∉ btoh <$> hs).
  { clear. induction hs as [|x hs IH]; intros st y; cbn [fold_left fmap list_fmap].
    - split; [intros ?; split; [done|apply not_elem_of_nil]|by intros [? _]].
    - rewrite IH, elem_of_set_delete, not_elem_of_cons. tauto. }
  rewrite !list_elem_of_omap. setoid_rewrite Hd. split.
  - intros (x & [Hin Hni] & Hh). destruct (Hx x Hin) as [y ->]. rewrite htob_btoh in Hh. injection Hh as ->.
    split; [exists (btoh h); by rewrite htob_btoh|]. intros Hc. apply Hni. by apply list_elem_of_fmap_2.
  - intros [(x & Hin & Hh) Hni]. destruct (Hx x Hin) as [y ->]. rewrite htob_btoh in Hh. injection Hh as ->.
    exists (btoh h). rewrite htob_btoh. split_and!; [done| |done].
    intros (z & ->%(inj btoh) & Hz)%list_elem_of_fmap. done.
Qed.

Lemma upl_list_enq label hs h s :
  h ∈ upl_list label (upl_enq label hs s) ↔ h ∈ upl_list label s ∨ h ∈ hs.
Proof.
  unfold upl_list, upl_enq. cbn. rewrite map_get_set_eq. cbn.
  assert (Ha : ∀ hs st y, y ∈ fold_left (λ set h, set_add (btoh h) set) hs st ↔ y ∈ st ∨ y ∈ btoh <$> hs).
  { clear. induction hs as [|x hs IH]; intros st y; cbn [fold_left fmap list_fmap].
    - split; [by left|intros [?|?%not_elem_of_nil]; done].
    - rewrite IH, elem_of_set_add, elem_of_cons. tauto. }
  rewrite !list_elem_of_omap. setoid_rewrite Ha. split.
  - intros (x & [Hin|(y & -> & Hy)%list_elem_of_fmap] & Hh); [left; eauto|right].
    rewrite htob_btoh in Hh. by injection Hh as ->.
  - intros [(x & Hin & Hh)|Hin]; [exists x; split; [by left|done]|].
    exists (btoh h). split; [right; by apply list_elem_of_fmap_2|by rewrite htob_btoh].
Qed.

Lemma upl_deq_hex label hs s : hex_queue label s → hex_queue label (upl_deq label hs s).
Proof.
  unfold hex_queue, upl_deq. intros Hx. destruct (map_get label (st_uploads s)) as [set|] eqn:E; [|by rewrite E].
  cbn. rewrite map_get_set_eq. intros set' [= <-] x Hin. apply (Hx set eq_refl).
  revert Hin. generalize set. clear. induction hs as [|h hs IH]; intros st; [done|]. cbn [fold_left].
  intros [? _]%IH%elem_of_set_delete. done.
Qed.

Lemma drop_uploads_list label hs h s : hex_queue label s →
  h ∈ upl_list label (drop_uploads label hs s) ↔ h ∈ upl_list label s ∧ h ∉ hs.
Proof.
  unfold drop_uploads. revert s. induction hs as [|x hs IH]; intros s Hx; cbn [fold_left].
  - split; [intros ?; split; [done|apply not_elem_of_nil]|by intros [? _]].
  - rewrite IH by (by apply upl_deq_hex). rewrite upl_list_deq by done. set_solver.
Qed.

(** The upload queue after a reconciliation. *)
Lemma reconciled_uploads label opts s seen hs m h :
  hex_queue label s → tallied hs m →
  h ∈ upl_list label (reconciled label opts s seen m) ↔
    (h ∈ upl_list label s ∧ ¬ (h ∈ head_hash <$> hs ∧ msgs_has h s = true)) ∨
    (ro_push opts = Some true ∧ h ∈ msgs_listKeys s ∧ h ∉ head_hash <$> hs).
Proof.
  intros Hx Ht. destruct (tallied_hashes _ _ Ht) as (_ & Hin & Hk). unfold reconciled.
  set (s1 := set_cursors_to label seen s). set (s2 := drop_uploads label _ s1). set (s3 := dnl_enq _ s2).
  destruct (set_cursors_rest label seen s) as (_ & _ & Hu & _). fold s1 in Hu.
  assert (Hl : ∀ h, h ∈ upl_list label s3 ↔
    h ∈ upl_list label s ∧ ¬ (h ∈ head_hash <$> hs ∧ msgs_has h s = true)).
  { intros h'. change (upl_list label s3) with (upl_list label s2). unfold s2.
    rewrite drop_uploads_list by (unfold hex_queue; by rewrite Hu).
    rewrite list_elem_of_filter, Hin. unfold upl_list. rewrite Hu. tauto. }
  assert (Ha : h ∈ absent m (msgs_listKeys s) ↔ h ∈ msgs_listKeys s ∧ h ∉ head_hash <$> hs).
  { unfold absent. rewrite list_elem_of_filter, Hk, list_elem_of_fmap_inj by apply _. rewrite Hin. tauto. }
  case_bool_decide as Hp; cbn [andb].
  - destruct (absent m (msgs_listKeys s)) as [|x up] eqn:E; cbn [length Nat.eqb negb].
    + rewrite Hl. split; [by left|]. intros [?|(_ & H1)]; [done|].
      by apply Ha, not_elem_of_nil in H1.
    + rewrite upl_list_enq, Hl, Ha. tauto.
  - rewrite Hl. tauto.
Qed.

(** The archive and the cursors. *)
Lemma reconciled_rest label opts s seen m :
  st_messages (reconciled label opts s seen m) = st_messages s ∧
  (∀ l r, cursor (reconciled label opts s seen m) l r = cursor (set_cursors_to label seen s) l r) ∧
  st_downloads (reconciled label opts s seen m) = st_downloads (dnl_enq
    (if bool_decide (ro_pull opts = Some false) then [] else omap (agg_download label s) (map_values m)) s).
Proof.
  unfold reconciled. set (s1 := set_cursors_to label seen s). set (s2 := drop_uploads label _ s1).
  destruct (set_cursors_rest label seen s) as (Hd1 & Hm1 & _). fold s1 in Hd1, Hm1.
  destruct (drop_uploads_rest label (filter (λ h, msgs_has h s = true) (ag_hash <$> map_values m)) s1)
    as (Hd2 & Hm2 & _ & Hc2 & _). fold s2 in Hd2, Hm2, Hc2.
  set (dls := if bool_decide (ro_pull opts = Some false) then [] else _).
  assert (Hend : ∀ s', s' = dnl_enq dls s2 ∨ s' = upl_enq label (absent m (msgs_listKeys s)) (dnl_enq dls s2) →
    st_messages s' = st_messages s ∧ (∀ l r, cursor s' l r = cursor s1 l r) ∧
    st_downloads s' = st_downloads (dnl_enq dls s)).
  { intros s' Hs'. assert (st_messages s' = st_messages s2 ∧ st_cursors s' = st_cursors s2 ∧
      st_downloads s' = st_downloads (dnl_enq dls s2)) as (-> & Hc & ->) by (by destruct Hs' as [->| ->]).
    split_and!; [congruence| |].
    - intros l r. unfold cursor. by rewrite Hc, Hc2.
    - unfold dnl_enq. cbn. by rewrite Hd2, Hd1. }
  apply Hend. case_match; [by right|by left].
Qed.

(** ** Downloads of archived messages *)

Definition wanted (hashes : list bytes) (d : IDownloadMessage) : Prop := ∃ h, dl_hash d = Ok h ∧ h ∈ hashes.
#[export] Instance wanted_dec hashes d : Decision (wanted hashes d).
Proof.
  unfold wanted. destruct (dl_hash d) as [h| |]; [|right; by intros (? & ? & _)..].
  destruct (decide (h ∈ hashes)); [left; eauto|right; by intros (? & [= <-] & ?)].
Defined.

Definition want_set (hashes : list bytes) : list jsstr :=
  fold_left (λ set h, set_add (btob64 h) set) hashes [].

Lemma elem_of_want hashes x : x ∈ want_set hashes ↔ x ∈ btob64 <$> hashes.
Proof.
  unfold want_set. assert (H : ∀ hs st, x ∈ fold_left (λ set h, set_add (btob64 h) set) hs st ↔
    x ∈ st ∨ x ∈ btob64 <$> hs).
  { induction hs as [|h hs IH]; intros st; cbn [fold_left fmap list_fmap].
    - split; [by left|by intros [?|?%not_elem_of_nil]].
    - rewrite IH, elem_of_set_add, elem_of_cons. tauto. }
  rewrite H. split; [by intros [?%not_elem_of_nil|?]|by right].
Qed.

Lemma deq_scan_spec hashes dls groups groups' :
  deq_scan (want_set hashes) dls groups = Ok groups' →
  groups' = fold_left noteDeq (filter (wanted hashes) dls) groups.
Proof.
  revert groups. induction dls as [|d dls IH]; intros groups; cbn [deq_scan]; [by intros [= <-]|].
  rewrite filter_cons.
  destruct (dl_hash d) as [h| |] eqn:Eh; [| |done].
  - assert (Hw : wanted hashes d ↔ h ∈ hashes).
    { unfold wanted. rewrite Eh. split; [by intros (? & [= <-] & ?)|eauto]. }
    assert (Hs : set_has (btob64 h) (want_set hashes) = bool_decide (h ∈ hashes)).
    { unfold set_has. apply bool_decide_ext. rewrite elem_of_want. apply list_elem_of_fmap_inj. apply _. }
    rewrite Hs. case_bool_decide as Hin; intros ->%IH.
    + by rewrite decide_True by by apply Hw.
    + by rewrite decide_False by by rewrite Hw.
  - intros ->%IH. rewrite decide_False; [done|]. unfold wanted. rewrite Eh. by intros (? & ? & _).
Qed.

Lemma deqDownloads_spec hashes s (n : N) st' :
  map_wf (st_downloads s) → Forall (λ d, 0 ∉ dl_host d) (dnl_list s) →
  (∀ k d, map_get k (st_downloads s) = Some d → k = dl_key d) →
  deqDownloadsForHeadHashes hashes (s, n) = (Ok tt, st') →
  ∃ s', st' = (s', n) ∧ st_messages s' = st_messages s ∧ st_uploads s' = st_uploads s ∧
    st_cursors s' = st_cursors s ∧ st_hosts s' = st_hosts s ∧
    ∀ k, map_get k (st_downloads s') =
      match map_get k (st_downloads s) with
      | Some d => if decide (wanted hashes d) then None else Some d
      | None => None
      end.
Proof.
  intros Hw Hz Hk. unfold deqDownloadsForHeadHashes. fold (want_set hashes).
  destruct (Nat.eqb_spec (length (want_set hashes)) 0) as [Hn|_].
  { intros [= <-]. exists s. split_and!; try done. intros k.
    destruct (map_get k _) as [d|]; [|done]. rewrite decide_False; [done|].
    intros (h & _ & Hh%(list_elem_of_fmap_2 btob64)%elem_of_want).
    apply length_zero_iff_nil in Hn. rewrite Hn in Hh. by apply not_elem_of_nil in Hh. }
  rewrite rd_bind. destruct (Nat.eqb_spec (length (dnl_list s)) 0) as [Hn|_].
  { intros [= <-]. exists s. split_and!; try done. intros k.
    destruct (map_get k _) as [d|] eqn:E; [|done]. exfalso. apply map_get_Some_in in E.
    apply (list_elem_of_fmap_2 snd) in E. apply length_zero_iff_nil in Hn.
    unfold dnl_list, map_values in Hn. rewrite Hn in E. by apply not_elem_of_nil in E. }
  rewrite lift_bind. destruct (deq_scan _ _ _) as [g| |] eqn:Eg; [|done..].
  apply deq_scan_spec in Eg as ->. intros [= <-]. eexists. split; [done|].
  destruct (flushDeq_rest (fold_left noteDeq (filter (wanted hashes) (dnl_list s)) []) s) as (-> & -> & -> & ->).
  split_and!; try done. intros k. rewrite flushDeq_get; [|done|].
  2:{ rewrite Forall_forall in *. intros d [_ Hd]%list_elem_of_filter. by apply Hz. }
  assert (Hin : k ∈ dl_key <$> filter (wanted hashes) (dnl_list s) ↔
    ∃ d, map_get k (st_downloads s) = Some d ∧ wanted hashes d).
  { rewrite list_elem_of_fmap. setoid_rewrite list_elem_of_filter. split.
    - intros (d & -> & Hwd & Hd). exists d. split; [|done]. unfold dnl_list, map_values in Hd.
      apply list_elem_of_fmap in Hd as ([k d'] & -> & Hd). apply (map_get_in _ _ _ Hw) in Hd.
      cbn. by rewrite <-(Hk _ _ Hd).
    - intros (d & Hg & Hwd). exists d. split_and!; [by apply Hk|done|].
      apply map_get_Some_in in Hg. by apply (list_elem_of_fmap_2 snd) in Hg. }
  destruct (map_get k (st_downloads s)) as [d|]; repeat case_decide; naive_solver.
Qed.
End facts.
