(* ===== verification/Notif.v ===== *)
(** * Notifications ([web/src/sync.ts])

    [handleNotif]: a host pushes the heads of new bags, small bodies inline.
    Heads are verified and opened; bags that came whole are archived at once,
    the others queued for download; the cursor moves over gapless runs; the
    result says whether a sync is scheduled. *)
From S2P Require Export SyncFacts.
From S2P Require Import Js.

(** A new message of the notification. *)
Record NotifBag := mkNotifBag {
  nb_seq : Z;
  nb_head : IMessageHead;
  nb_headEnc : bytes;
  nb_headEncHash : bytes;
  nb_bodyCph : option bytes;
  nb_kdm : bytes;
  nb_mgr : BagManager;
}.

Definition nb_realm (b : NotifBag) : IKDM := bm_realmKDM (nb_mgr b).

(** What the loop over the items gathers. *)
Record NotifAcc := mkNotifAcc {
  na_outOfSeq : bool;
  na_runs : jsmap jsstr (IKDM * Z);
  na_bags : list NotifBag;
  na_needPull : bool;
}.

Section defs.
Context {C : CryptoPrims} {N : Type} (bagMgrs : list BagManager).

Definition mgr_of_rlm (rlm : bytes) : option BagManager :=
  snd <$> list_find (λ m, bytesEqual (bm_rlm m) rlm = true) bagMgrs.

(** One item, up to its head: [None] when it is skipped. *)
Definition notif_bag (vk : CryptoKey) (has : bytes → bool) (item : IBagNotifItem) : Res (option NotifBag) :=
  match mgr_of_rlm (ni_rlm item) with
  | None => Ok None
  | Some mgr =>
      match decryptPeekItem (mkPeekItem (ni_seq item) (ni_headCph item)) vk mgr with
      | Throw => Throw
      | Err _ => Ok None
      | Ok peekItem =>
          let headEncHash := blake3hash (di_headEnc peekItem) in
          if has headEncHash then Ok None
          else
            match run_dec (readStruct messageHeadCodec) (di_headEnc peekItem) with
            | Throw => Throw
            | Err _ => Ok None
            | Ok head => Ok (Some (mkNotifBag (ni_seq item) head (di_headEnc peekItem) headEncHash
                               (ni_bodyCph item) (di_kdm peekItem) mgr))
            end
      end
  end.

(** No inline body where there is one. *)
Definition needs_pull (b : NotifBag) : bool :=
  negb (bool_decide (is_Some (nb_bodyCph b))) && (0 <? mh_len (nb_head b)).

Definition notif_download (label : jsstr) (b : NotifBag) : IDownloadMessage :=
  mkDownload (nb_kdm b) (nb_seq b) (nb_head b) label (Some (nb_headEnc b)) (Some (nb_headEncHash b))
    (storedRealm (nb_realm b)).

(** The rest of the loop body: the bag, and the run of its realm. *)
Definition notif_count (currHost : option CursorRow) (a : NotifAcc) (b : NotifBag) : NotifAcc :=
  let bags := if needs_pull b then na_bags a else na_bags a ++ [b] in
  let needPull := needs_pull b || na_needPull a in
  match currHost with
  | None => mkNotifAcc true (na_runs a) bags needPull
  | Some row =>
      let key := realmKey (nb_realm b) in
      let run := default (nb_realm b, cursorOf row (nb_realm b)) (map_get key (na_runs a)) in
      if negb (nb_seq b =? run.2 + 1)
      then mkNotifAcc true (map_set key run (na_runs a)) bags needPull
      else mkNotifAcc (na_outOfSeq a) (map_set key (run.1, nb_seq b) (na_runs a)) bags needPull
  end.

Fixpoint notif_scan (label : jsstr) (vk : CryptoKey) (currHost : option CursorRow)
    (items : list IBagNotifItem) (a : NotifAcc) : SM (N := N) NotifAcc :=
  match items with
  | [] => mret a
  | item :: items =>
      has ← rd (λ s h, msgs_has h s);
      b ← m_lift (notif_bag vk has item);
      match b with
      | None => notif_scan label vk currHost items a
      | Some b =>
          _ ← (if needs_pull b then on_st (dnl_enq [notif_download label b]) else mret tt);
          notif_scan label vk currHost items (notif_count currHost a b)
      end
  end.

Definition touch_run (label : jsstr) (row : CursorRow) (s : Store) (run : IKDM * Z) : Store :=
  if cursorOf row run.1 <? run.2 then touch label run.2 (Some run.1) s else s.

(** A complete bag: its archive row, [None] when the body does not open. *)
Definition notif_open (b : NotifBag) : Res (option (bytes * IStoredMessageData)) :=
  match openBagBody (nb_headEnc b) (nb_bodyCph b) (bm_decrypt (nb_mgr b) (nb_kdm b)) None with
  | Throw => Throw
  | Err _ => Ok None
  | Ok contents =>
      Ok (Some (nb_headEncHash b,
        msg2StoredMsgData (mkParts (nb_head b) (ob_bod contents)) (Some (nb_realm b))))
  end.

(** [true] when [scheduleSync] is called. *)
Definition notif_items (label : jsstr) (vk : CryptoKey) (items : list IBagNotifItem) : SM bool :=
  currHost ← rd (hosts_get label);
  a ← notif_scan label vk currHost items (mkNotifAcc false [] [] false);
  _ ← on_st (λ s, match currHost with
    | Some row => fold_left (touch_run label row) (map_values (na_runs a)) s
    | None => s
    end);
  opened ← m_lift (res_mapM notif_open (na_bags a));
  let toStore := omap id opened in
  _ ← on_st (msgs_add toStore);
  mret (na_outOfSeq a || na_needPull a || negb (Nat.eqb (length toStore) 0)).

Definition handleNotif (data : bytes) (label : jsstr) : SM bool :=
  match identity bagMgrs with
  | Throw => m_throw
  | Err _ => mret false
  | Ok hostIdnt =>
      match importVerifyKey (bm_publicKey hostIdnt) with
      | Ok vk =>
          match run_dec (readStructs notifItemCodec) data with
          | Throw => m_throw
          | Err _ => mret false
          | Ok items => notif_items label vk items
          end
      | _ => mret false
      end
  end.
End defs.

(** ** Every outcome *)

Section facts.
Context {C : CryptoPrims} {N : Type} (bagMgrs : list BagManager).

Lemma notif_scan_safe label vk currHost items a :
  always grows (N := N) (notif_scan bagMgrs label vk currHost items a).
Proof. revert a. induction items; intros; cbn [notif_scan]; safe. Qed.

Lemma grows_touch_runs label row runs s : grows s (fold_left (touch_run label row) runs s).
Proof.
  revert s. induction runs as [|run runs IH]; intros s; cbn [fold_left]; [done|].
  etransitivity; [|apply IH]. unfold touch_run, touch. case_match; [apply grows_recordSeqs|done].
Qed.
Hint Resolve notif_scan_safe grows_touch_runs : safe grow.

Lemma notif_items_safe label vk items : always grows (N := N) (notif_items bagMgrs label vk items).
Proof. unfold notif_items. safe. intros s. case_match; [apply grows_touch_runs|done]. Qed.
Hint Resolve notif_items_safe : safe.

Lemma handleNotif_safe data label : always grows (N := N) (handleNotif bagMgrs data label).
Proof. unfold handleNotif. safe. Qed.

(** ** The scan *)

Definition notif_queue (label : jsstr) (news : list NotifBag) (s : Store) : Store :=
  fold_left (λ s b, if needs_pull b then dnl_enq [notif_download label b] s else s) news s.

Lemma notif_scan_spec label vk currHost items a s (n : N) a' st' :
  notif_scan bagMgrs label vk currHost items a (s, n) = (Ok a', st') →
  ∃ bs, res_mapM (notif_bag bagMgrs vk (λ h, msgs_has h s)) items = Ok bs ∧
    a' = fold_left (notif_count currHost) (omap id bs) a ∧
    st' = (notif_queue label (omap id bs) s, n).
Proof.
  revert a s. induction items as [|item items IH]; intros a s; cbn [notif_scan res_mapM].
  { intros [= <- <-]. by exists []. }
  rewrite rd_bind, lift_bind.
  destruct (notif_bag bagMgrs vk (λ h, msgs_has h s) item) as [[b|]| |]; [| |done..].
  - intros H.
    assert (H' : notif_scan bagMgrs label vk currHost items (notif_count currHost a b)
      ((if needs_pull b then dnl_enq [notif_download label b] s else s), n) = (Ok a', st'))
      by (by destruct (needs_pull b)).
    apply IH in H' as (bs & Hbs & -> & ->). exists (Some b :: bs). split_and!; [|done|done].
    replace (λ h, msgs_has h s) with (λ h, msgs_has h (if needs_pull b then dnl_enq [notif_download label b] s else s))
      by (by destruct (needs_pull b)).
    by rewrite Hbs.
  - intros (bs & Hbs & -> & ->)%IH. exists (None :: bs). by rewrite Hbs.
Qed.

Lemma notif_queue_rest label news s :
  st_messages (notif_queue label news s) = st_messages s ∧
  st_cursors (notif_queue label news s) = st_cursors s ∧
  st_hostRows (notif_queue label news s) = st_hostRows s ∧
  st_uploads (notif_queue label news s) = st_uploads s.
Proof.
  unfold notif_queue. revert s. induction news as [|b news IH]; intros s; cbn [fold_left]; [done|].
  destruct (IH (if needs_pull b then dnl_enq [notif_download label b] s else s)) as (-> & -> & -> & ->).
  by destruct (needs_pull b).
Qed.

(** What is queued: the pending bags, each in a slot of its own. *)
Definition nb_slot (b : NotifBag) : IKDM * Z := (nb_realm b, nb_seq b).

Lemma notif_download_key label b : dl_key (notif_download label b) = downloadKey label (nb_seq b) (Some (nb_realm b)).
Proof. unfold dl_key, notif_download. cbn. apply storedRealm_key. Qed.

Lemma notif_queue_enq label news s :
  st_downloads (notif_queue label news s) =
    st_downloads (dnl_enq (notif_download label <$> filter (λ b, needs_pull b = true) news) s).
Proof.
  unfold notif_queue, dnl_enq. cbn. revert s. induction news as [|b news IH]; intros s; cbn [fold_left]; [done|].
  rewrite IH, filter_cons. destruct (needs_pull b); [rewrite decide_True by done|rewrite decide_False by done]; done.
Qed.

(** The bags of a scan. *)
Lemma notif_fold_bags currHost news a :
  na_bags (fold_left (notif_count currHost) news a) = na_bags a ++ filter (λ b, needs_pull b = false) news ∧
  na_needPull (fold_left (notif_count currHost) news a) = na_needPull a || existsb needs_pull news.
Proof.
  revert a. induction news as [|b news IH]; intros a; cbn [fold_left existsb].
  { by rewrite app_nil_r, orb_false_r. }
  destruct (IH (notif_count currHost a b)) as [-> ->].
  assert (na_bags (notif_count currHost a b) = (if needs_pull b then na_bags a else na_bags a ++ [b]) ∧
    na_needPull (notif_count currHost a b) = needs_pull b || na_needPull a) as [-> ->].
  { unfold notif_count. destruct currHost; [case_match|]; done. }
  rewrite filter_cons. destruct (needs_pull b); cbn.
  - by rewrite orb_true_r.
  - by rewrite <-(assoc_L app).
Qed.

(** ** Runs *)

(** A run ends past the cursor only over messages of the notification. *)
Definition runs_ok (row : CursorRow) (news : list NotifBag) (runs : jsmap jsstr (IKDM * Z)) : Prop :=
  ∀ k r q, map_get k runs = Some (r, q) → k = realmKey r ∧ cursorOf row r <= q ∧
    ∀ seq, cursorOf row r < seq <= q → ∃ b, b ∈ news ∧ nb_realm b = r ∧ nb_seq b = seq.

Definition run_reached (runs : jsmap jsstr (IKDM * Z)) (b : NotifBag) : Prop :=
  ∃ q, map_get (realmKey (nb_realm b)) runs = Some (nb_realm b, q) ∧ nb_seq b <= q.

Lemma notif_count_runs row news a b :
  map_wf (na_runs a) → runs_ok row news (na_runs a) →
  let a' := notif_count (Some row) a b in
  map_wf (na_runs a') ∧ runs_ok row (news ++ [b]) (na_runs a') ∧
  (∀ b', run_reached (na_runs a) b' → run_reached (na_runs a') b') ∧
  (na_outOfSeq a' = false → na_outOfSeq a = false ∧ run_reached (na_runs a') b).
Proof.
  intros Hw Hr. cbv zeta. unfold notif_count. set (key := realmKey (nb_realm b)).
  set (run := default (nb_realm b, cursorOf row (nb_realm b)) (map_get key (na_runs a))).
  assert (Hrun : run.1 = nb_realm b ∧ cursorOf row (nb_realm b) <= run.2 ∧
    ∀ seq, cursorOf row (nb_realm b) < seq <= run.2 →
      ∃ b', b' ∈ news ∧ nb_realm b' = nb_realm b ∧ nb_seq b' = seq).
  { unfold run. destruct (map_get key (na_runs a)) as [[r q]|] eqn:E; cbn.
    - destruct (Hr _ _ _ E) as (Hk & H1 & H2). apply realmKey_inj in Hk as <-. done.
    - split_and!; [done|lia|intros; lia]. }
  destruct Hrun as (Hrun1 & Hrun2 & Hrun3).
  assert (Hset : ∀ q, run.2 <= q → (∀ seq, run.2 < seq <= q → seq = nb_seq b) →
    runs_ok row (news ++ [b]) (map_set key (nb_realm b, q) (na_runs a)) ∧
    ∀ b', run_reached (na_runs a) b' → run_reached (map_set key (nb_realm b, q) (na_runs a)) b').
  { intros q Hq Hseq. split.
    - intros k r q'. rewrite map_get_set. case_decide.
      + intros [= <- <-]. split_and!; [done|lia|]. intros seq Hs.
        destruct (Z.le_gt_cases seq run.2) as [Hle|Hgt].
        * destruct (Hrun3 seq) as (b' & ? & ? & ?); [lia|]. exists b'. split_and!; [set_solver|done|done].
        * exists b. rewrite (Hseq seq) by lia. split_and!; [set_solver|done|done].
      + intros Hg. destruct (Hr _ _ _ Hg) as (? & ? & H3). split_and!; [done|done|].
        intros seq (b' & ? & ? & ?)%H3. exists b'. split_and!; [set_solver|done|done].
    - intros b' (q' & Hg & Hle). unfold run_reached. rewrite map_get_set. case_decide as Hk; [|eauto].
      assert (Hkey : map_get key (na_runs a) = Some (nb_realm b', q')) by (by rewrite <-Hk).
      apply realmKey_inj in Hk as Hk'. exists q. split; [by rewrite Hk'|].
      unfold run in Hq. rewrite Hkey in Hq. cbn in Hq. lia. }
  assert (Er : (nb_realm b, run.2) = run) by (by rewrite <-Hrun1; destruct run).
  destruct (Z.eqb_spec (nb_seq b) (run.2 + 1)) as [He|He]; cbn [negb na_runs na_outOfSeq].
  - rewrite Hrun1. destruct (Hset (nb_seq b)) as [H1 H2]; [lia|intros; lia|].
    split_and!; [by apply map_set_wf|done|done|]. intros Ho. split; [done|].
    exists (nb_seq b). split; [apply map_get_set_eq|done].
  - rewrite <-Er. destruct (Hset run.2) as [H1 H2]; [lia|intros; lia|].
    split_and!; [by apply map_set_wf|done|done|done].
Qed.

Lemma notif_fold_runs row news0 news a :
  map_wf (na_runs a) → runs_ok row news0 (na_runs a) →
  let a' := fold_left (notif_count (Some row)) news a in
  map_wf (na_runs a') ∧ runs_ok row (news0 ++ news) (na_runs a') ∧
  (∀ b', run_reached (na_runs a) b' → run_reached (na_runs a') b') ∧
  (na_outOfSeq a' = false → na_outOfSeq a = false ∧ ∀ b, b ∈ news → run_reached (na_runs a') b).
Proof.
  revert news0 a. induction news as [|b news IH]; intros news0 a Hw Hr; cbv zeta; cbn [fold_left].
  { rewrite app_nil_r. split_and!; try done. intros Ho. split; [done|]. by intros ? ?%not_elem_of_nil. }
  destruct (notif_count_runs row news0 a b Hw Hr) as (H1 & H2 & H3 & H4).
  destruct (IH (news0 ++ [b]) _ H1 H2) as (I1 & I2 & I3 & I4).
  rewrite <-(assoc_L app) in I2. split_and!; [done|done|auto|].
  intros Ho. destruct (I4 Ho) as [Ho1 Hall]. destruct (H4 Ho1) as [Ho2 Hb]. split; [done|].
  intros b' [->|Hin]%elem_of_cons; auto.
Qed.

Lemma notif_fold_nohost news a :
  na_runs (fold_left (notif_count None) news a) = na_runs a ∧
  na_outOfSeq (fold_left (notif_count None) news a) = na_outOfSeq a || negb (Nat.eqb (length news) 0).
Proof.
  revert a. induction news as [|b news IH]; intros a; cbn [fold_left length Nat.eqb negb].
  { by rewrite orb_false_r. }
  destruct (IH (notif_count None a b)) as [-> ->]. cbn. by rewrite orb_true_r.
Qed.

(** What the touches reach. *)
Lemma touch_runs_cursor label row runs s l r :
  let s' := fold_left (touch_run label row) runs s in
  cursor s l r <= cursor s' l r ∧
  (∀ seq, cursor s l r < seq <= cursor s' l r → l = label ∧ ∃ q, (r, q) ∈ runs ∧ seq <= q) ∧
  (label ∈ st_hosts s → ∀ q, l = label → (r, q) ∈ runs → cursorOf row r < q → q <= cursor s' l r).
Proof.
  revert s. induction runs as [|[r1 q1] runs IH]; intros s; cbv zeta; cbn [fold_left].
  { split_and!; [lia|intros; lia|]. intros _ q _ Hq. by apply not_elem_of_nil in Hq. }
  set (s1 := touch_run label row s (r1, q1)). destruct (IH s1) as (H1 & H2 & H3).
  assert (Hs1 : cursor s l r <= cursor s1 l r ∧ st_hosts s1 = st_hosts s ∧
    (∀ seq, cursor s l r < seq <= cursor s1 l r → l = label ∧ r = r1 ∧ seq <= q1) ∧
    (label ∈ st_hosts s → l = label → r = r1 → cursorOf row r < q1 → q1 <= cursor s1 l r)).
  { unfold s1, touch_run, touch. cbn [fst snd]. destruct (Z.ltb_spec (cursorOf row r1) q1).
    - destruct (recordSeqs_rest label (mkSeqs (Some q1) None) (Some r1) s) as (_ & _ & _ & Hh & _).
      rewrite recordSeqs_cursor. unfold st_hosts. rewrite Hh. cbn [default from_option id].
      unfold nextCursor. cbn [hs_setLastSeq hs_lastSeq]. fold (st_hosts s).
      destruct (Z.ltb_spec (cursor s l r) q1); cbn [default from_option id];
        (case_decide as Hd; split_and!; try tauto; try lia; intros; try lia; tauto).
    - split_and!; [lia|done|intros; lia|]. intros _ _ -> ?. lia. }
  destruct Hs1 as (G1 & G2 & G3 & G4). split_and!.
  - lia.
  - intros seq Hseq. destruct (Z.le_gt_cases seq (cursor s1 l r)) as [Hle|Hgt].
    + destruct (G3 seq) as (-> & -> & ?); [lia|]. split; [done|]. exists q1. split; [by left|done].
    + destruct (H2 seq) as (-> & q & ? & ?); [lia|]. split; [done|]. exists q. split; [by right|done].
  - intros Hl q Hll [[= -> ->]|Hin]%elem_of_cons Hq.
    + etransitivity; [by apply G4|done].
    + apply H3; try done. by rewrite G2.
Qed.

(** ** The whole handler *)

Lemma mapM_omap_elem {A B} (f : A → Res (option B)) xs ys y :
  res_mapM f xs = Ok ys → y ∈ omap id ys ↔ ∃ x, x ∈ xs ∧ f x = Ok (Some y).
Proof.
  revert ys. induction xs as [|x xs IH]; intros ys.
  { intros [= <-]. split; [by intros ?%not_elem_of_nil|by intros (? & ?%not_elem_of_nil & _)]. }
  intros (z & zs & Hz & Hzs & ->)%res_mapM_cons. cbn [omap list_omap].
  specialize (IH zs Hzs). destruct z as [z|]; cbn [id].
  - rewrite elem_of_cons, IH. split.
    + intros [->|(x' & ? & ?)]; [exists x; split; [by left|done]|exists x'; split; [by right|done]].
    + intros (x' & [->|Hin]%elem_of_cons & Hf); [left; congruence|right; eauto].
  - rewrite IH. split; intros (x' & Hin & Hf); exists x'; (split; [|done]).
    + by right.
    + apply elem_of_cons in Hin as [->|]; [congruence|done].
Qed.

(** The stores between the cursor write and the archive write. *)
Definition notif_touched (label : jsstr) (news : list NotifBag) (s : Store) : Store :=
  let s1 := notif_queue label news s in
  match hosts_get label s with
  | Some row => fold_left (touch_run label row)
      (map_values (na_runs (fold_left (notif_count (Some row)) news (mkNotifAcc false [] [] false)))) s1
  | None => s1
  end.

Lemma notif_items_spec label vk items s (n : N) sched st' :
  notif_items bagMgrs label vk items (s, n) = (Ok sched, st') →
  ∃ bs opened, res_mapM (notif_bag bagMgrs vk (λ h, msgs_has h s)) items = Ok bs ∧
    res_mapM notif_open (filter (λ b, needs_pull b = false) (omap id bs)) = Ok opened ∧
    st' = (msgs_add (omap id opened) (notif_touched label (omap id bs) s), n) ∧
    sched = na_outOfSeq (fold_left (notif_count (hosts_get label s)) (omap id bs) (mkNotifAcc false [] [] false))
      || existsb needs_pull (omap id bs) || negb (Nat.eqb (length (omap id opened)) 0).
Proof.
  unfold notif_items. rewrite rd_bind. unfold mbind at 1, M_bind, m_bind at 1.
  destruct (notif_scan bagMgrs label vk (hosts_get label s) items (mkNotifAcc false [] [] false) (s, n))
    as [[a| |] [s1 n1]] eqn:E; [|done..].
  apply notif_scan_spec in E as (bs & Hbs & Ha & [= -> ->]).
  destruct (notif_fold_bags (hosts_get label s) (omap id bs) (mkNotifAcc false [] [] false)) as [Hb Hp].
  rewrite <-Ha in Hb, Hp. cbn [na_bags na_needPull app orb] in Hb, Hp.
  rewrite st_bind, lift_bind, Hb. destruct (res_mapM notif_open _) as [opened| |] eqn:Eo; [|done..].
  rewrite st_bind. intros [= <- <-]. exists bs, opened. split_and!; [done|done| |].
  - unfold notif_touched. f_equal. f_equal. rewrite Ha. by destruct (hosts_get label s).
  - by rewrite Hp, <-Ha.
Qed.

Lemma notif_touched_rest label news s :
  st_messages (notif_touched label news s) = st_messages s ∧
  st_downloads (notif_touched label news s) = st_downloads (notif_queue label news s).
Proof.
  unfold notif_touched. destruct (notif_queue_rest label news s) as (Hm & _). rewrite <-Hm.
  destruct (hosts_get label s) as [row|]; [|done]. generalize (notif_queue label news s).
  generalize (map_values (na_runs (fold_left (notif_count (Some row)) news (mkNotifAcc false [] [] false)))).
  induction l as [|run l IH]; intros s1; [done|]. cbn [fold_left].
  destruct (IH (touch_run label row s1 run)) as [-> ->]. unfold touch_run, touch.
  case_match; [|done]. by destruct (recordSeqs_rest label (mkSeqs (Some run.2) None) (Some run.1) s1) as (-> & -> & _).
Qed.

Lemma cursors_eq s s' l r : st_cursors s' = st_cursors s → cursor s' l r = cursor s l r.
Proof. intros H. unfold cursor. by rewrite H. Qed.

(** The cursors move over gapless runs of new messages, and not past one when
    nothing is out of sequence. *)
Lemma notif_touched_cursor label news s :
  store_ok s →
  (∀ l r seq, cursor s l r < seq <= cursor (notif_touched label news s) l r →
    l = label ∧ ∃ b, b ∈ news ∧ nb_realm b = r ∧ nb_seq b = seq) ∧
  (na_outOfSeq (fold_left (notif_count (hosts_get label s)) news (mkNotifAcc false [] [] false)) = false →
    ∀ b, b ∈ news → nb_seq b <= cursor (notif_touched label news s) label (nb_realm b)).
Proof.
  intros Hok. destruct (notif_queue_rest label news s) as (_ & Hc & Hr & _).
  set (s1 := notif_queue label news s) in *.
  assert (Hc1 : ∀ l r, cursor s1 l r = cursor s l r) by (intros; by apply cursors_eq).
  unfold notif_touched. fold s1. destruct (hosts_get label s) as [row|] eqn:Eg.
  - assert (Hrow : ∀ r, cursorOf row r = cursor s label r) by (intros; by apply hosts_get_cursor).
    assert (Hh : label ∈ st_hosts s1).
    { unfold st_hosts. rewrite Hr. unfold hosts_get in Eg. by case_bool_decide. }
    set (a0 := mkNotifAcc false [] [] false).
    destruct (notif_fold_runs row [] news a0) as (Hw & Hruns & _ & Hreach); [apply map_wf_nil|done|].
    cbv zeta in *. cbn [app] in Hruns. set (a := fold_left _ news a0) in *. split.
    + intros l r seq Hseq.
      destruct (touch_runs_cursor label row (map_values (na_runs a)) s1 l r) as (_ & H2 & _).
      destruct (H2 seq) as (-> & q & Hin & Hle); [rewrite Hc1; lia|]. split; [done|].
      apply list_elem_of_fmap in Hin as ([k [r' q']] & He & Hin). cbn in He. injection He as <- <-.
      apply map_get_in in Hin; [|done]. destruct (Hruns _ _ _ Hin) as (_ & _ & H3).
      apply H3. rewrite Hrow. lia.
    + intros Ho b Hb. destruct (Hreach Ho) as [_ Hall]. destruct (Hall b Hb) as (q & Hg & Hle).
      destruct (Hruns _ _ _ Hg) as (_ & Hge & _). apply map_get_Some_in in Hg.
      apply (list_elem_of_fmap_2 snd) in Hg. cbn in Hg.
      destruct (touch_runs_cursor label row (map_values (na_runs a)) s1 label (nb_realm b)) as (H1 & _ & H3).
      destruct (Z.lt_ge_cases (cursorOf row (nb_realm b)) q) as [Hlt|].
      * specialize (H3 Hh q eq_refl Hg Hlt). lia.
      * rewrite Hrow in *. rewrite Hc1 in H1. lia.
  - split; [intros l r seq; rewrite Hc1; lia|].
    destruct (notif_fold_nohost news (mkNotifAcc false [] [] false)) as [_ ->].
    destruct news; [by intros _ ? ?%not_elem_of_nil|done].
Qed.
End facts.
#[export] Hint Resolve handleNotif_safe : safe.
