(* ===== verification/SyncProps.v ===== *)
(** * Properties of the client's sync phases

    What a completed peek, pull and push leave in the client's stores, against
    any host behind [SyncNet]. *)
From S2P Require Import SyncPull SyncPush HostProps.
From S2P Require Import Js.
Import Toy.

Section props.
Context {C : CryptoPrims} {N : Type} {NC : SyncNet N} (bagMgrs : list BagManager).

(** The store a completed peek leaves, given what its loop left. *)
Definition peek_end (label : jsstr) (realm : IKDM) (items : list IBagPeekItem) (new : list IDownloadMessage) (s1 : Store) : Store :=
  if Nat.eqb (length items) 0 then dnl_enq new s1
  else recordSeqs label (mkSeqs (Some (max_seq items)) None) (Some realm) (dnl_enq new s1).

Lemma peek_end_rest label realm items new s1 :
  st_downloads (peek_end label realm items new s1) = st_downloads (dnl_enq new s1) ∧
  st_messages (peek_end label realm items new s1) = st_messages s1.
Proof.
  unfold peek_end. case_match; [done|]. split; [apply recordSeqs_rest|].
  exact (proj1 (proj2 (recordSeqs_rest _ _ _ (dnl_enq new s1)))).
Qed.

Lemma peek_end_cursor label realm items rs s s1 new l r :
  peek_post label realm rs [] s s1 new →
  cursor (peek_end label realm items new s1) l r =
    if decide (l = label ∧ r = realm ∧ label ∈ st_hosts s ∧ items ≠ [])
    then Z.max (cursor s l r) (max_seq items) else cursor s l r.
Proof.
  intros P. assert (Hcur : cursor s1 l r = cursor s l r) by (unfold cursor; by rewrite (pp_cursors _ _ _ _ _ _ _ P)).
  unfold peek_end. destruct items as [|i items]; cbn [length Nat.eqb].
  - rewrite decide_False by tauto. apply Hcur.
  - rewrite recordSeqs_cursor. cbn [default from_option id].
    change (cursor (dnl_enq new s1) l r) with (cursor s1 l r). rewrite Hcur.
    change (st_hosts (dnl_enq new s1)) with (st_hosts s1). rewrite (pp_hosts _ _ _ _ _ _ _ P).
    unfold nextCursor. cbn [hs_setLastSeq hs_lastSeq].
    repeat case_decide; try tauto; [|naive_solver].
    destruct (Z.ltb_spec (cursor s l r) (max_seq (i :: items))); cbn [default from_option id]; lia.
Qed.

(** A result that opened was listed. *)
Lemma peek_results_item vk mgr items rs r :
  res_mapM (peek_crypto vk mgr) items = Ok rs → PeekOk r ∈ rs → ∃ item, item ∈ items ∧ pc_seq' r = pk_seq item.
Proof.
  intros Hsub%peek_results_seqs Hr. assert (pc_seq' r ∈ pk_seq <$> items) as Hq.
  { eapply elem_of_submseteq; [|by apply sublist_submseteq]. apply list_elem_of_omap. by exists (PeekOk r). }
  apply list_elem_of_fmap in Hq as (item & ? & ?). eauto.
Qed.

(** What is queued under the key of a bag that was not listed stays. *)
Lemma peek_keeps_queued vk mgr label realm items rs s s1 new k dl :
  res_mapM (peek_crypto vk mgr) items = Ok rs → peek_post label realm rs [] s s1 new →
  (∀ item, item ∈ items → k ≠ downloadKey label (pk_seq item) (Some realm)) →
  map_get k (st_downloads s) = Some dl → map_get k (st_downloads (dnl_enq new s1)) = Some dl.
Proof.
  intros Hrs P Hk Hget. rewrite dnl_enq_get. pose proof (λ r, peek_results_item vk mgr items rs r Hrs) as Hseq.
  destruct (last (filter (λ d, dl_key d = k) new)) as [d|] eqn:E.
  - exfalso. apply last_Some_elem_of, list_elem_of_filter in E as [Hdk Hin].
    destruct (pp_new _ _ _ _ _ _ _ P d Hin) as (r & hd & Hr & _ & ->).
    destruct (Hseq r Hr) as (item & Hitem & Hsq). apply (Hk item Hitem).
    rewrite <-Hdk, <-Hsq. unfold dl_key. cbn. apply storedRealm_key.
  - rewrite (pp_others _ _ _ _ _ _ _ P); [done|]. intros r Hr.
    destruct (Hseq r Hr) as (item & Hitem & Hsq). rewrite Hsq. by apply Hk.
Qed.

(** A head that opened is archived or queued. *)
Lemma peek_covers vk mgr label realm items rs s s1 new item d head :
  res_mapM (peek_crypto vk mgr) items = Ok rs → peek_post label realm rs [] s s1 new → NoDup (pk_seq <$> items) →
  item ∈ items → decryptPeekItem item vk mgr = Ok d → run_dec (readStruct messageHeadCodec) (di_headEnc d) = Ok head →
  msgs_has (blake3hash (di_headEnc d)) s = true ∨
  ∃ dl, dl ∈ dnl_list (dnl_enq new s1) ∧ dl_headEncHash dl = Some (blake3hash (di_headEnc d)) ∧ dl_host dl = label.
Proof.
  intros Hrs P Hn Hin Hd Hh. destruct (res_mapM_elem _ _ _ _ Hrs Hin) as (res & Hres & Hresin).
  unfold peek_crypto in Hres. rewrite Hd in Hres. injection Hres as <-.
  destruct (pp_cover _ _ _ _ _ _ _ P _ head Hresin Hh) as [Hhas|[Hq|(dl & Hdl & Hhash)]]; [by left|by apply not_elem_of_nil in Hq|].
  right. exists dl. split_and!; [|done|].
  - assert (Hkeys : NoDup (dl_key <$> new)).
    { eapply new_keys_NoDup; [exact P|]. eapply sublist_NoDup; [done|]. by eapply peek_results_seqs. }
    pose proof (dnl_enq_in new s1 dl Hkeys Hdl) as Hget. apply map_get_Some_in in Hget. unfold dnl_list, map_values.
    by apply (list_elem_of_fmap_2 snd) in Hget.
  - by destruct (pp_new _ _ _ _ _ _ _ P dl Hdl) as (r & hd & _ & _ & ->).
Qed.

(** [C15] No head is lost: after a completed peek of a host whose sequence
    numbers are distinct, every listed head that opens and parses is archived
    or in the download queue; the archive is untouched, queued downloads of
    other bags stay; the cursor of this host and realm is at or past every
    listed bag, it never moves back, and no other cursor moves. *)
Theorem peek_loses_no_head label row realm s n s' n' :
  store_ok s → syncPeek bagMgrs label row realm (s, n) = (Ok tt, (s', n')) →
  ∃ items mgr home vk, net_peek (cursorOf row realm) realm n = (Ok items, n') ∧
    bagMgrFor bagMgrs realm = Some mgr ∧ identity bagMgrs = Ok home ∧
    importVerifyKey (bm_publicKey home) = Ok vk ∧
    (NoDup (pk_seq <$> items) → ∀ item d head, item ∈ items →
      decryptPeekItem item vk mgr = Ok d →
      run_dec (readStruct messageHeadCodec) (di_headEnc d) = Ok head →
      let h := blake3hash (di_headEnc d) in
      msgs_has h s' = true ∨
      ∃ dl, dl ∈ dnl_list s' ∧ dl_headEncHash dl = Some h ∧ dl_host dl = label) ∧
    st_messages s' = st_messages s ∧
    (∀ k dl, (∀ item, item ∈ items → k ≠ downloadKey label (pk_seq item) (Some realm)) →
      map_get k (st_downloads s) = Some dl → map_get k (st_downloads s') = Some dl) ∧
    (∀ label' realm', cursor s label' realm' <= cursor s' label' realm') ∧
    (∀ label' realm', ¬ (label' = label ∧ realm' = realm) →
      cursor s' label' realm' = cursor s label' realm') ∧
    (label ∈ st_hosts s → ∀ item, item ∈ items → pk_seq item <= cursor s' label realm).
Proof.
  intros Hok Hrun. destruct (syncPeek_spec bagMgrs label row realm s n _ (so_dl_wf _ Hok) Hrun)
    as (items & n1 & mgr & idm & vk & rs & s1 & new & Hmgr & Hidm & Hvk & Hnet & Hrs & P & Hst).
  change ((Ok tt : Res unit, (s', n')).2 = (peek_end label realm items new s1, n1)) in Hst. injection Hst as Hs' <-.
  exists items, mgr, idm, vk. do 4 (split; [done|]).
  destruct (peek_end_rest label realm items new s1) as [Hs'd Hs'm]. rewrite (pp_messages _ _ _ _ _ _ _ P) in Hs'm.
  pose proof (λ l r, peek_end_cursor label realm items rs s s1 new l r P) as Hcur. rewrite <-Hs' in *. split_and!.
  - intros Hn item d head Hin Hd Hh h. destruct (peek_covers vk mgr label realm items rs s s1 new item d head) as [?|?]; try done.
    + left. unfold msgs_has in *. by rewrite Hs'm.
    + right. unfold dnl_list. by rewrite Hs'd.
  - done.
  - intros k dl Hk Hget. rewrite Hs'd. by eapply peek_keeps_queued.
  - intros l r. rewrite Hcur. destruct (decide (l = label ∧ r = realm ∧ label ∈ st_hosts s ∧ items ≠ [])); lia.
  - intros l r Hne. rewrite Hcur. rewrite decide_False; [done|]. tauto.
  - intros Hh item Hin. rewrite Hcur. rewrite decide_True.
    + pose proof (max_seq_le items item Hin). lia.
    + split_and!; try done. intros ->. by apply not_elem_of_nil in Hin.
Qed.

(** Opening a pulled batch archives before it forgets: every item whose
    body opens has a row in the archive under its head's hash; an archive row
    is either the one there was or the body of such an item; the download
    rows of the batch are gone and no others; an archived message is never
    lost, and uploads and cursors stay. *)
Theorem open_archives_and_dequeues items s (n : N) s' n' :
  store_ok s → Forall (λ it, 0 ∉ dl_host (pu_dl it)) items →
  openPulled bagMgrs items (s, n) = (Ok tt, (s', n')) →
  (∀ it key p, it ∈ items → open_item bagMgrs it = Ok (Some (key, p)) → msgs_has key s' = true) ∧
  (∀ key d, map_get (btob64 key) (st_messages s') = Some d →
    map_get (btob64 key) (st_messages s) = Some d ∨
    ∃ it p, it ∈ items ∧ open_item bagMgrs it = Ok (Some (key, p)) ∧
      d = omit_rlm (msg2StoredMsgData p (Some (default nullKDM (dl_realm (pu_dl it)))))) ∧
  (∀ key, msgs_has key s = true → msgs_has key s' = true) ∧
  (∀ k, map_get k (st_downloads s') =
    if decide (k ∈ dl_key <$> (pu_dl <$> items)) then None else map_get k (st_downloads s)) ∧
  st_uploads s' = st_uploads s ∧ st_cursors s' = st_cursors s ∧ n' = n.
Proof. apply openPulled_effect. Qed.

(** Push forgets only what the host confirmed: after a batch the upload
    queue of the host has lost exactly the hashes answered with success; the
    archive and downloads stay; the cursor of this host and realm moves only
    over a gapless run of the batch's own confirmed sequence numbers, so a bag
    another device stored in between is still peeked; no other cursor moves. *)
Theorem push_dequeues_confirmed label bags hashes realm s n s' n' :
  store_ok s → bags ≠ [] →
  pushBatch label bags hashes realm (s, n) = (Ok tt, (s', n')) →
  ∃ results, net_push bags n = (Ok results, n') ∧
    (∀ h, map_get h (st_uploads s') =
      if decide (h = label)
      then (λ set, filter (λ x, x ∉ btoh <$> confirmed hashes results) set) <$> map_get h (st_uploads s)
      else map_get h (st_uploads s)) ∧
    st_messages s' = st_messages s ∧ st_downloads s' = st_downloads s ∧
    cursor s label realm <= cursor s' label realm ∧
    (∀ seq, cursor s label realm < seq <= cursor s' label realm →
      ∃ idx, PushStored idx seq ∈ results) ∧
    (∀ label' realm', ¬ (label' = label ∧ realm' = realm) →
      cursor s' label' realm' = cursor s label' realm').
Proof.
  intros Hok Hb. unfold pushBatch. destruct (Nat.eqb_spec (length bags) 0); [by destruct bags|].
  intros (results & n1 & Hp & H)%net_bind. exists results.
  rewrite (ok_bind _ _ _ _ _ (deq_pushed_spec label hashes results s n1)) in H.
  set (s1 := fold_left (λ s h, upl_deq label [h] s) (confirmed hashes results) s) in H.
  destruct (deq_all label (confirmed hashes results) s) as (Hu & Hm & Hd & Hc & Hh & _).
  fold s1 in Hu, Hm, Hd, Hc, Hh.
  assert (Hok1 : store_ok s1) by (destruct Hok; split; by rewrite ?Hd, ?Hc).
  assert (Hcur : ∀ l r, cursor s1 l r = cursor s l r) by (intros; unfold cursor; by rewrite Hc).
  destruct (contiguous_spec (cursor s label realm) results) as [Hge Hrun].
  rewrite rd_bind in H. destruct (hosts_get label s1) as [row|] eqn:Er.
  - rewrite (hosts_get_cursor s1 label row realm Hok1 Er), Hcur in H.
    assert (Hin : label ∈ st_hosts s1) by (unfold hosts_get in Er; by case_bool_decide).
    destruct (Z.ltb_spec (cursor s label realm) (contiguous (cursor s label realm) results)) as [Hlt|Hlt].
    + injection H as <- <-. unfold touch.
      destruct (recordSeqs_rest label (mkSeqs (Some (contiguous (cursor s label realm) results)) None)
        (Some realm) s1) as (-> & -> & -> & _ & _).
      assert (Hnew : cursor (recordSeqs label (mkSeqs (Some (contiguous (cursor s label realm) results)) None)
        (Some realm) s1) label realm = contiguous (cursor s label realm) results).
      { rewrite recordSeqs_cursor, decide_True by done. unfold nextCursor.
        cbn [hs_setLastSeq hs_lastSeq]. rewrite Hcur. by rewrite (proj2 (Z.ltb_lt _ _)). }
      rewrite Hnew. split_and!; try done.
      intros l r Hne. rewrite recordSeqs_cursor, decide_False; [by apply Hcur|]. cbn. tauto.
    + injection H as <- <-. rewrite Hcur. split_and!; try done; intros; lia.
  - injection H as <- <-. rewrite Hcur. split_and!; try done; intros; lia.
Qed.
(** Nothing goes backwards: whatever the host answers, and also when a
    phase fails halfway, peek, push, pull (with any follow-up that keeps to
    the same) and one opened batch keep the stores' keys in step with their
    rows, move no cursor back, and lose no archived message and no host. *)
Theorem sync_never_loses label row realm limit items (afterOpen : SM (N := N) unit) (m : SM (N := N) unit) s n r s' n' :
  safe afterOpen →
  m ∈ [syncPeek bagMgrs label row realm; syncPush bagMgrs label limit;
       syncPull bagMgrs label limit afterOpen; openPulled bagMgrs items] →
  m (s, n) = (r, (s', n')) →
  (store_ok s → store_ok s') ∧
  (∀ label' realm', cursor s label' realm' <= cursor s' label' realm') ∧
  (∀ key, msgs_has key s = true → msgs_has key s' = true) ∧
  st_hosts s' = st_hosts s.
Proof.
  intros Ha Hm E.
  assert (Hsafe : safe m).
  { repeat (apply elem_of_cons in Hm as [->|Hm]; [eauto with safe|]). by apply not_elem_of_nil in Hm. }
  by destruct (Hsafe _ _ _ _ _ E).
Qed.

(** [C16] A pull brings the bodies in: with rows queued for a host that answers
    each pull with the bodies it has, and a follow-up that succeeds and leaves
    the queue alone, [syncPull] succeeds; every row whose body the host has is
    gone from the queue, and if the body opens it is in the archive; every
    other row, of this host or another, is still queued. *)
Theorem pull_archives_bodies (I : N → Prop) (bodies : IKDM → Z → option bytes) afterOpen label limit s n :
  (∀ seqs realm n, I n → ∃ items n', net_pull seqs realm n = (Ok items, n') ∧ I n' ∧
    (∀ it, it ∈ items → bodies realm (pl_seq it) = Some (pl_bodyCph it)) ∧
    (∀ seq b, seq ∈ seqs → bodies realm seq = Some b → mkPullItem seq b ∈ items)) →
  (∀ s n, I n → ∃ s' n', afterOpen (s, n) = (Ok tt, (s', n')) ∧ I n' ∧
    st_downloads s' = st_downloads s ∧ grows s s') →
  I n → store_ok s → 0 ∉ label →
  (∀ d, d ∈ dnl_list s → dl_host d = label → is_Some (dl_headEnc d)) →
  (∃ d, d ∈ dnl_list s ∧ dl_host d = label) →
  ∃ s' n', syncPull bagMgrs label limit afterOpen (s, n) = (Ok tt, (s', n')) ∧
    (∀ d b, d ∈ dnl_list s → dl_host d = label →
      bodies (default nullKDM (dl_realm d)) (dl_seq d) = Some b →
      map_get (dl_key d) (st_downloads s') = None ∧
      ∀ key p, open_item bagMgrs (mkPulled d (Some b)) = Ok (Some (key, p)) → msgs_has key s' = true) ∧
    (∀ k, (∀ d, d ∈ dnl_list s → dl_host d = label →
        is_Some (bodies (default nullKDM (dl_realm d)) (dl_seq d)) → k ≠ dl_key d) →
      map_get k (st_downloads s') = map_get k (st_downloads s)).
Proof.
  intros Hh Ha Hn Hok Hz He Hex.
  destruct (syncPull_spec bagMgrs I (λ _ _, True) bodies (λ seqs realm n Hi _ _, Hh seqs realm n Hi)
    afterOpen Ha label limit s n Hn Hok Hz (λ d Hd Hl, conj (He d Hd Hl) Logic.I) Hex)
    as (s' & n' & E & _ & [D1 D2 D3 _]).
  exists s', n'. split; [done|]. split.
  - intros d b Hd Hl Hb.
    assert (Hin : d ∈ filter (λ d, dl_host d = label) (dnl_list s)) by by apply list_elem_of_filter.
    split; [by apply D1; [|eexists]|]. intros key p. by apply D3.
  - intros k Hk. apply D2. intros d [Hl Hd]%list_elem_of_filter. by apply Hk.
Qed.

(** What a push may ask: every request of a run of [syncPush] is a
    non-empty list of bags sealed by the manager of one realm, within the byte
    budget or a single bag; so whatever such requests and the drawing of
    nonces keep true of the host is true after the run, however it ends. *)
Theorem push_requests_bounded (P : N → Prop) label limit s n r s' n' :
  (∀ n, P n → P (net_nonce n).2) →
  (∀ bags n, bags ≠ [] → (bags_bytes bags <= limit ∨ length bags = 1%nat) →
    (∃ realm, sealed_for bagMgrs realm bags) → P n → P (net_push bags n).2) →
  P n → syncPush bagMgrs label limit (s, n) = (r, (s', n')) → P n'.
Proof.
  intros Hn Hp H0 E. refine (proj1 (syncPush_requests bagMgrs limit P Hn _ label _ _ _ _ _ H0 E)).
  intros bags n0 (? & ? & ?). by apply Hp.
Qed.

(** [C28] A push drains the queue: against a host that stores every bag of such
    a request, with managers that seal the queued messages, [syncPush]
    succeeds and leaves of this host's queue the hashes without an archived
    message, in their order; other queues, archive and downloads stay. *)
Theorem push_drains_queue (I : N → Prop) (nonce : bytes → Prop) label limit s n :
  (∀ n, I n → ∃ b n', net_nonce n = (Ok b, n') ∧ I n' ∧ nonce b) →
  (∀ bags n, I n → request_ok bagMgrs limit bags → ∃ results n',
    net_push bags n = (Ok results, n') ∧ I n' ∧
    ∀ i, (i < length bags)%nat → ∃ seq, PushStored (Z.of_nat i) seq ∈ results) →
  I n → hex_queue label s →
  Forall (seals bagMgrs nonce (λ _, True)) (omap (ready_of (realms_list s) s) (upl_list label s)) →
  ∃ s' n', syncPush bagMgrs label limit (s, n) = (Ok tt, (s', n')) ∧
    upl_list label s' = filter (λ h, msgs_has h s = false) (upl_list label s) ∧
    (∀ h, h ≠ label → upl_list h s' = upl_list h s) ∧
    st_messages s' = st_messages s ∧ st_downloads s' = st_downloads s.
Proof.
  intros Hno Hp Hn Hx Hs.
  destruct (syncPush_accepted bagMgrs limit _ (λ _, I) nonce (λ _, True) (λ _, Hno)
    (λ _ bags n Hi Hr _ _, Hp bags n Hi Hr) label s n Hn Hx Hs (Nat.le_refl _))
    as (s' & n' & bags & E & _ & _ & R). by exists s', n'.
Qed.
End props.

(** ** A concrete client and host *)

Module Peer.
Definition head_item : IBagPeekItem :=
  mkPeekItem 1 (match run_enc (writeStruct peekItemHeadCodec (bag_peekHead Demo.bag1)) with
                | Ok e => e | _ => [] end).

(** A host that holds one bag and stores what it is given. *)
#[export] Instance net : SyncNet unit := {|
  net_peek _ _ := λ n, (Ok [head_item], n);
  net_pull _ _ := λ n, (Ok [mkPullItem 1 (bag_bodyCph Demo.bag1)], n);
  net_push bags := λ n, (Ok (imap (λ i _, PushStored (Z.of_nat i) (Z.of_nat i + 1)) bags), n);
  net_nonce := λ n, (Ok Demo.nonce0, n);
|}.

(** The same host, which also remembers the requests it was sent. *)
#[export] Instance log_net : SyncNet (list (list IBag)) := {|
  net_peek _ _ := λ n, (Ok [head_item], n);
  net_pull _ _ := λ n, (Ok [mkPullItem 1 (bag_bodyCph Demo.bag1)], n);
  net_push bags := λ n, (Ok (imap (λ i _, PushStored (Z.of_nat i) (Z.of_nat i + 1)) bags), n ++ [bags]);
  net_nonce := λ n, (Ok Demo.nonce0, n);
|}.

Definition mgrs : list BagManager := [toy_mgr].
Definition host : jsstr := js "h".
Definition empty : Store := mkStore [] [(host, mkHostRow (mkHostInfo host 0 None) None)] [] [] [] [].
Definition after : SM (N := unit) unit := mret tt.
Definition row0 : CursorRow := mkRow 0 None.

Lemma empty_ok : store_ok empty.
Proof. split; done || apply map_wf_nil. Qed.

(** After the peek. *)
Definition peeked : Store :=
  Eval vm_compute in (syncPeek mgrs host row0 nullKDM (empty, tt)).2.1.
Lemma peeked_run : syncPeek mgrs host row0 nullKDM (empty, tt) = (Ok tt, (peeked, tt)).
Proof. vm_compute. reflexivity. Qed.
Lemma peeked_ok : store_ok peeked.
Proof. exact (gr_ok _ _ (syncPeek_safe mgrs host row0 nullKDM _ _ _ _ _ peeked_run) empty_ok). Qed.
Definition dl1 : IDownloadMessage := Eval vm_compute in
  match dnl_list peeked with d :: _ => d | [] => mkDownload [] 0 (mkHead None [] None 0 0 None) [] None None None end.
Definition pulled1 : IPulled := mkPulled dl1 (Some (bag_bodyCph Demo.bag1)).
Definition key1 : bytes := Eval vm_compute in default [] (dl_headEncHash dl1).

(** A client with the hash of a message queued for upload. *)
Definition waiting : Store := upl_enq host [key1; be_bytes 32 3] empty.
Lemma waiting_ok : store_ok waiting.
Proof. split; done || apply map_wf_nil. Qed.

(** The client after peek and pull, with two hashes to push; only the first
    has an archived message. *)
Definition outbox : Store := Eval vm_compute in
  upl_enq host [key1; be_bytes 32 3] (syncPull mgrs host 100 after (peeked, tt)).2.1.
Definition held (_ : IKDM) (seq : Z) : option bytes :=
  if seq =? 1 then Some (bag_bodyCph Demo.bag1) else None.
End Peer.
Import Peer.

Lemma ok_pair_inj {A B} (a a' : A) (b b' : B) : (Ok a, b) = (Ok a', b') → a = a'.
Proof. by intros [= ->]. Qed.

Example whole_sync :
  let s1 := (syncPeek mgrs host row0 nullKDM (empty, tt)).2 in
  let s2 := (syncPull mgrs host 100 after s1).2.1 in
  (dnl_list s2, msgs_has key1 s2, cursor s2 host nullKDM) = ([], true, 1) ∧
  (sm_body <$> msgs_get key1 s2) = Some (msg_bod Demo.msg0).
Proof. vm_compute. split; reflexivity. Qed.

Lemma peek_loses_no_head_witness :
  ∃ items mgr vk, items = [head_item] ∧ mgr = toy_mgr ∧
    ∀ item d head, item ∈ items → decryptPeekItem item vk mgr = Ok d →
      run_dec (readStruct messageHeadCodec) (di_headEnc d) = Ok head →
      let h := blake3hash (di_headEnc d) in
      msgs_has h peeked = true ∨
      ∃ dl, dl ∈ dnl_list peeked ∧ dl_headEncHash dl = Some h ∧ dl_host dl = host.
Proof.
  assert (Hrun : syncPeek mgrs host row0 nullKDM (empty, tt) = (Ok tt, (peeked, tt)))
    by (vm_compute; reflexivity).
  destruct (peek_loses_no_head mgrs host row0 nullKDM empty tt peeked tt empty_ok Hrun)
    as (items & mgr & home & vk & H1 & H2 & _ & _ & H3 & _).
  exists items, mgr, vk.
  assert (items = [head_item]) as ->.
  { symmetry. exact (ok_pair_inj _ _ _ _ H1). }
  assert (mgr = toy_mgr) as ->.
  { assert (bagMgrFor mgrs nullKDM = Some toy_mgr) as E by (vm_compute; reflexivity).
  rewrite E in H2. injection H2 as <-. reflexivity. }
  split; [reflexivity|]. split; [reflexivity|].
  apply H3. apply NoDup_singleton.
Defined.

Lemma open_archives_and_dequeues_witness :
  let s' := (openPulled (N := unit) mgrs [pulled1] (peeked, tt)).2.1 in
  msgs_has key1 s' = true ∧ map_get (dl_key dl1) (st_downloads s') = None.
Proof.
  intros s'.
  assert (Hrun : openPulled (N := unit) mgrs [pulled1] (peeked, tt) = (Ok tt, (s', tt)))
    by (vm_compute; reflexivity).
  assert (Hok : store_ok peeked) by exact peeked_ok.
  assert (Hz : Forall (λ it, 0 ∉ dl_host (pu_dl it)) [pulled1]) by (by apply (bool_decide_unpack _)).
  destruct (open_archives_and_dequeues mgrs [pulled1] peeked tt s' tt Hok Hz Hrun) as (H1 & _ & _ & H4 & _).
  split.
  - destruct (open_item mgrs pulled1) as [[[key p]|]| |] eqn:E; [|by vm_compute in E..].
    assert (key = key1) as <- by (vm_compute in E; injection E as <- _; vm_compute; reflexivity).
    apply (H1 pulled1 key p); [by left|exact E].
  - rewrite H4. by rewrite decide_True by (by left).
Defined.

Lemma push_dequeues_confirmed_witness :
  let s' := (pushBatch host [Demo.bag1] [key1] nullKDM (waiting, tt)).2.1 in
  st_messages s' = st_messages waiting ∧ cursor s' host nullKDM = 1 ∧
  upl_list host s' = [be_bytes 32 3] ∧
  ∃ results, net_push [Demo.bag1] tt = (Ok results, tt) ∧
    ∀ seq, 0 < seq <= 1 → ∃ idx, PushStored idx seq ∈ results.
Proof.
  intros s'.
  assert (Hrun : pushBatch host [Demo.bag1] [key1] nullKDM (waiting, tt) = (Ok tt, (s', tt)))
    by (vm_compute; reflexivity).
  destruct (push_dequeues_confirmed host [Demo.bag1] [key1] nullKDM waiting tt s' tt waiting_ok
    ltac:(done) Hrun) as (results & H1 & _ & H3 & _ & _ & H6 & _).
  split; [exact H3|]. split; [vm_compute; reflexivity|]. split; [vm_compute; reflexivity|].
  exists results. split; [exact H1|].
  assert (E0 : cursor waiting host nullKDM = 0) by (vm_compute; reflexivity).
  assert (E1 : cursor s' host nullKDM = 1) by (vm_compute; reflexivity).
  intros seq Hseq. apply H6. rewrite E0, E1. exact Hseq.
Defined.

Lemma sync_never_loses_witness :
  let s' := (syncPull mgrs host 100 after (peeked, tt)).2.1 in
  store_ok s' ∧ cursor peeked host nullKDM <= cursor s' host nullKDM.
Proof.
  intros s'.
  assert (Hrun : syncPull mgrs host 100 after (peeked, tt) = (Ok tt, (s', tt)))
    by (vm_compute; reflexivity).
  destruct (sync_never_loses mgrs host row0 nullKDM 100 [] after
    (syncPull mgrs host 100 after) peeked tt (Ok tt) s' tt) as (H1 & H2 & _).
  - apply always_ret; apply _.
  - right. right. by left.
  - exact Hrun.
  - split; [apply H1, peeked_ok|apply H2].
Defined.

Lemma pull_archives_bodies_witness :
  ∃ s' n', syncPull mgrs host 100 after (peeked, tt) = (Ok tt, (s', n')) ∧
    map_get (dl_key dl1) (st_downloads s') = None ∧ msgs_has key1 s' = true.
Proof.
  destruct (pull_archives_bodies mgrs (λ _, True) held after host 100 peeked tt)
    as (s' & n' & E & H1 & _).
  - intros seqs realm []  _. eexists _, tt. split; [reflexivity|]. split; [done|]. split.
    + intros it ->%list_elem_of_singleton. reflexivity.
    + intros seq b _. unfold held. destruct (Z.eqb_spec seq 1) as [->|]; [|done].
      intros [= <-]. by left.
  - intros s n _. exists s, n. split_and!; [done|done|done|reflexivity].
  - done.
  - exact peeked_ok.
  - by apply (bool_decide_unpack _).
  - intros d Hd _. apply list_elem_of_singleton in Hd as ->. by eexists.
  - exists dl1. split; [by left|reflexivity].
  - exists s', n'. split; [exact E|].
    destruct (H1 dl1 (bag_bodyCph Demo.bag1)) as [H2 H3]; [by left|reflexivity|reflexivity|].
    split; [exact H2|].
    assert (Ho : ∃ p, open_item mgrs (mkPulled dl1 (Some (bag_bodyCph Demo.bag1))) = Ok (Some (key1, p)))
      by (eexists; vm_compute; reflexivity).
    destruct Ho as [p Ho]. exact (H3 key1 p Ho).
Defined.

Lemma push_requests_bounded_witness :
  let log := (syncPush mgrs host 100 (outbox, [])).2.2 in
  length log = 1%nat ∧ Forall (λ bags, bags_bytes bags <= 100 ∨ length bags = 1%nat) log.
Proof.
  intros log. split; [vm_compute; reflexivity|].
  apply (push_requests_bounded mgrs (Forall (λ bags, bags_bytes bags <= 100 ∨ length bags = 1%nat))
    host 100 outbox [] (syncPush mgrs host 100 (outbox, [])).1
    (syncPush mgrs host 100 (outbox, [])).2.1).
  - done.
  - intros bags n _ Hb _ Hn. cbn. apply Forall_app. split; [exact Hn|]. by constructor; [exact Hb|constructor].
  - constructor.
  - unfold log. by destruct (syncPush mgrs host 100 (outbox, [])) as [? [? ?]].
Defined.

Lemma push_drains_queue_witness :
  ∃ s' n', syncPush mgrs host 100 (outbox, tt) = (Ok tt, (s', n')) ∧
    upl_list host s' = [be_bytes 32 3].
Proof.
  destruct (push_drains_queue mgrs (λ _, True) (λ b, b = Demo.nonce0) host 100 outbox tt)
    as (s' & n' & E & H & _).
  - intros [] _. by exists Demo.nonce0, tt.
  - intros bags [] _ _. eexists _, tt. split; [reflexivity|]. split; [done|].
    intros i Hi. apply lookup_lt_is_Some in Hi as [b Hb]. exists (Z.of_nat i + 1).
    apply list_elem_of_lookup. exists i. rewrite list_lookup_imap, Hb. done.
  - done.
  - intros set Hset x Hx. vm_compute in Hset. injection Hset as <-.
    exists (match htob x with Ok h => h | _ => [] end).
    revert x Hx. apply Forall_forall. by apply (bool_decide_unpack _).
  - assert (Hr : ∃ m, omap (ready_of (realms_list outbox) outbox) (upl_list host outbox) =
      [mkReady key1 nullKDM m] ∧ ∃ bag, sealBag m toy_mgr Demo.nonce0 Demo.nonce0 = Ok bag).
    { eexists. split; [vm_compute; reflexivity|]. eexists. vm_compute. reflexivity. }
    destruct Hr as (m & -> & bag & Hbag). constructor; [|constructor].
    exists toy_mgr. split; [reflexivity|]. intros nh nb -> ->. exists bag. by split.
  - exists s', n'. split; [exact E|]. rewrite H. vm_compute. reflexivity.
Defined.
