(* ===== verification/ReconcileProps.v ===== *)
(** * Properties of reconciliation

    The report compares the host's messages with the archive as sets, the
    queues get exactly the differences, and the cursors end on the inventory. *)
From S2P Require Import Reconcile SyncProps.
From S2P Require Import Js.
Import Toy Peer.

Section props.
Context {C : CryptoPrims} {L : CryptoLaws C} {N : Type} {NC : SyncNet N} (bagMgrs : list BagManager).

Lemma opened_hash vk mgr items rs realm x :
  res_mapM (peek_crypto vk mgr) items = Ok rs → x ∈ opened_heads realm rs →
  x.1 = realm ∧ pc_headEncHash x.2 = blake3hash (pc_headEnc x.2) ∧
  pc_seq' x.2 ∈ pk_seq <$> items.
Proof.
  revert rs. induction items as [|it items IH]; intros rs; [by intros [= <-] ?%not_elem_of_nil|].
  intros (y & ys & Hy & Hys & ->)%res_mapM_cons. unfold peek_crypto in Hy.
  destruct (decryptPeekItem it vk mgr) as [d| |]; [..|done]; injection Hy as <-; cbn [opened_heads omap list_omap].
  - intros [->|Hx]%elem_of_cons; [cbn; split_and!; [done|done|by left]|].
    destruct (IH ys Hys Hx) as (? & ? & ?). split_and!; [done|done|by right].
  - intros Hx. destruct (IH ys Hys Hx) as (? & ? & ?). split_and!; [done|done|by right].
Qed.

Lemma inventory_hash vk n realms lists hs n' x :
  inventory bagMgrs vk n realms lists hs n' → x ∈ hs → blen (head_hash x) = hshBytes.
Proof.
  induction 1 as [|n n1 n2 realm realms mgr items rs lists hs Hm Hp Hr _ IH]; [by intros ?%not_elem_of_nil|].
  intros [Hx|Hx]%elem_of_app; [|by apply IH].
  destruct (opened_hash _ _ _ _ _ _ Hr Hx) as (_ & Hh & _). unfold head_hash. rewrite Hh. apply L.
Qed.

Lemma filter_empty_len {A} (P : A → Prop) `{∀ x, Decision (P x)} (l : list A) :
  Z.of_nat (length (filter P l)) = 0 ↔ ∀ x, x ∈ l → ¬ P x.
Proof.
  rewrite (Nat2Z.inj_iff _ 0), length_zero_iff_nil. split.
  - intros Hf x Hx Hp. assert (x ∈ filter P l) as Hin by (by apply list_elem_of_filter).
    rewrite Hf in Hin. by apply not_elem_of_nil in Hin.
  - intros Hn. destruct (filter P l) as [|x l'] eqn:E; [done|].
    assert (x ∈ filter P l) as [Hp Hx]%list_elem_of_filter by (rewrite E; by left). by destruct (Hn x Hx).
Qed.

(** The report of a completed reconciliation compares sets.  [hashes]
    lists each message of the host once; the counts are those of its bags, its
    messages, the bags beyond the first of each message, the messages the
    archive lacks and the archived messages the host lacks; the check value is
    the checksum of the host's messages.  Both differences are zero exactly if
    the bytes hashed for the host are those [msgcheck] hashes for the archive. *)
Theorem reconcile_reports_difference label opts s n rep s' n' :
  archive_ok s → reconcileHost bagMgrs label opts (s, n) = (Ok rep, (s', n')) →
  ∃ home vk lists hs hashes,
    identity bagMgrs = Ok home ∧ importVerifyKey (bm_publicKey home) = Ok vk ∧
    inventory bagMgrs vk n (realmKDMs (realms_list s)) lists hs n' ∧
    NoDup hashes ∧ (∀ h, h ∈ hashes ↔ h ∈ head_hash <$> hs) ∧
    rr_msgcheck rep = checksumSet hashes ∧
    rr_numBags rep = listed_bags lists ∧
    rr_uniqueMsgs rep = Z.of_nat (length hashes) ∧
    rr_numDupes rep = Z.of_nat (length hs) - Z.of_nat (length hashes) ∧
    rr_missingLocal rep = Z.of_nat (length (filter (λ h, msgs_has h s = false) hashes)) ∧
    rr_missingHost rep = Z.of_nat (length (filter (λ h, h ∉ hashes) (msgs_listKeys s))) ∧
    (rr_missingLocal rep = 0 ∧ rr_missingHost rep = 0 ↔
      checksum_preimage hashes = checksum_preimage (msgs_listKeys s)).
Proof.
  intros Hok (home & vk & lists & hs & m & n1 & Hid & Hvk & Hinv & Ht & Hst & ->)%reconcileHost_spec.
  injection Hst as -> ->. set (hashes := ag_hash <$> map_values m).
  destruct (tallied_hashes _ _ Ht) as (Hn & Hin & Hkeys). fold hashes in Hn, Hin, Hkeys.
  assert (Hlen : length m = length hashes) by (unfold hashes, map_values; by rewrite !length_fmap).
  assert (Habs : absent m (msgs_listKeys s) = filter (λ h, h ∉ hashes) (msgs_listKeys s)).
  { unfold absent. apply list_filter_ext_in. intros h _. by rewrite Hkeys, list_elem_of_fmap_inj by apply _. }
  exists home, vk, lists, hs, hashes. cbn [rr_msgcheck rr_numBags rr_uniqueMsgs rr_numDupes rr_missingLocal rr_missingHost].
  rewrite Habs. split_and!; try done; [by rewrite Hlen|by rewrite (tallied_dupes _ _ Ht), Hlen|].
  rewrite !filter_empty_len. split.
  - intros [H1 H2]. apply preimage_perm, NoDup_Permutation; [done|by apply listKeys_NoDup|].
    intros h. rewrite elem_of_listKeys by done. split.
    + intros Hh. specialize (H1 h Hh). by destruct (msgs_has h s).
    + intros Hh. apply elem_of_listKeys in Hh; [|done]. specialize (H2 h Hh).
      by destruct (decide (h ∈ hashes)).
  - intros He. apply (preimage_blocks_inj hshBytes) in He; [|done|..].
    + split; intros h Hh.
      * rewrite He, elem_of_listKeys in Hh by done. by rewrite Hh.
      * rewrite He. tauto.
    + apply Forall_forall. intros h (x & -> & Hx)%Hin%list_elem_of_fmap. by eapply inventory_hash.
    + apply Forall_forall. intros h. by apply listKeys_len.
Qed.

(** The download slot of a listed message. *)
Definition head_key (label : jsstr) (x : IKDM * PeekCryptoOk) : jsstr := downloadKey label (pc_seq' x.2) (Some x.1).

(** What queueing the differences makes of the downloads. *)
Lemma queued_slots label hs m s k :
  tallied hs m →
  let q := st_downloads (dnl_enq (omap (agg_download label s) (map_values m)) s) in
  map_get k q = map_get k (st_downloads s) ∨
  ∃ x dl, x ∈ hs ∧ k = head_key label x ∧ msgs_has (head_hash x) s = false ∧
    map_get k q = Some dl ∧ dl_headEncHash dl = Some (head_hash x).
Proof.
  intros Ht. cbv zeta. rewrite dnl_enq_get. destruct (last _) as [d|] eqn:E; [right|by left].
  apply last_Some_elem_of, list_elem_of_filter in E as [<- (a & Ha & Ed)%list_elem_of_omap].
  apply list_elem_of_fmap in Ha as ([k a'] & -> & Hin). cbn [snd] in Ed.
  destruct (ta_agg _ _ Ht _ _ Hin) as (_ & Hh & Hs & _). exists (ag_realm a', ag_sample a'), d.
  unfold agg_download in Ed. repeat case_match; simplify_eq. split; [done|].
  split; [by unfold dl_key, download_of, head_key; cbn; rewrite storedRealm_key|].
  unfold head_hash. cbn. by rewrite <-Hh.
Qed.

(** [C30] A completed reconciliation of a linked host, on stores whose keys match
    their rows, leaves the archive as it is and puts the
    cursor of every inventoried realm at its highest listed number, forward or
    back, and no other cursor.  Unless [pull] is off, every message of the host
    whose bags all parse is then archived or queued for download, when the host
    lists each number of a realm once (two messages it gives one number share
    the slot of one download).  Downloads of other slots than the inventory's
    stay, and what is queued in those is as before or of a listed message the
    archive lacks.  The upload queue of the host loses the messages the host
    already has, and with [push] on it gains exactly the archived messages the
    host lacks. *)
Theorem reconcile_queues_difference label opts s n rep s' n' :
  store_ok s → archive_ok s → hex_queue label s → label ∈ st_hosts s →
  reconcileHost bagMgrs label opts (s, n) = (Ok rep, (s', n')) →
  ∃ vk lists hs, let realms := realmKDMs (realms_list s) in
    inventory bagMgrs vk n realms lists hs n' ∧
    st_messages s' = st_messages s ∧
    (∀ realm items, (realm, items) ∈ zip realms lists → cursor s' label realm = max_seq items) ∧
    (∀ l r, l ≠ label ∨ r ∉ realms → cursor s' l r = cursor s l r) ∧
    (ro_pull opts = Some false → st_downloads s' = st_downloads s) ∧
    (ro_pull opts ≠ Some false → Forall (λ items, NoDup (pk_seq <$> items)) lists →
      ∀ x, x ∈ hs →
      (∀ y, y ∈ hs → head_hash y = head_hash x →
        ∃ head, run_dec (readStruct messageHeadCodec) (pc_headEnc y.2) = Ok head) →
      msgs_has (head_hash x) s' = true ∨
      ∃ dl, dl ∈ dnl_list s' ∧ dl_headEncHash dl = Some (head_hash x) ∧ dl_host dl = label) ∧
    (∀ k, (∀ x, x ∈ hs → k ≠ head_key label x) → map_get k (st_downloads s') = map_get k (st_downloads s)) ∧
    (∀ k dl, map_get k (st_downloads s') = Some dl → map_get k (st_downloads s) = Some dl ∨
      ∃ x, x ∈ hs ∧ k = head_key label x ∧ msgs_has (head_hash x) s = false ∧ dl_headEncHash dl = Some (head_hash x)) ∧
    (∀ h, h ∈ upl_list label s' ↔
      (h ∈ upl_list label s ∧ ¬ (h ∈ head_hash <$> hs ∧ msgs_has h s = true)) ∨
      (ro_push opts = Some true ∧ msgs_has h s = true ∧ h ∉ head_hash <$> hs)).
Proof.
  intros Hok Hao Hx Hh (home & vk & lists & hs & m & n1 & _ & _ & Hinv & Ht & Hst & _)%reconcileHost_spec.
  injection Hst as -> ->. exists vk, lists, hs. cbv zeta.
  set (realms := realmKDMs (realms_list s)) in *.
  assert (Hnr : NoDup realms) by apply (realmKDMs_ok _ _ realmKDMs_start).
  pose proof (inventory_lists _ _ _ _ _ _ _ Hinv) as Hlen.
  assert (Hfst : (zip realms lists).*1 = realms) by (apply fst_zip; lia).
  destruct (reconciled_rest label opts s (zip realms lists) m) as (Hm & Hc & Hd).
  split_and!; try done.
  - intros realm items Hin. rewrite Hc, set_cursors_cursor, decide_True by (done || by rewrite Hfst).
    apply map_get_in in Hin; [by rewrite Hin|]. unfold map_wf, map_keys. by rewrite Hfst.
  - intros l r Hlr. rewrite Hc, set_cursors_cursor by (done || by rewrite Hfst).
    destruct (decide (l = label)) as [->|]; [|done]. replace (map_get r (zip realms lists)) with (@None (list IBagPeekItem)); [done|].
    symmetry. apply map_get_None. unfold map_keys. rewrite Hfst. by destruct Hlr as [[]|].
  - intros Hp. by rewrite Hd, bool_decide_true, dnl_enq_nil by done.
  - intros Hp Hseqs x Hin Hparse.
    destruct (ta_all _ _ Ht x Hin) as [a Ha]. apply map_get_Some_in in Ha.
    destruct (ta_agg _ _ Ht _ _ Ha) as (He & Hah & Hsin & _). apply (inj btob64) in He.
    destruct (Hparse (ag_realm a, ag_sample a) Hsin) as [head Hhead]; [change (pc_headEncHash (ag_sample a) = head_hash x); congruence|].
    destruct (msgs_has (head_hash x) s) eqn:Ehas; [left; unfold msgs_has in *; by rewrite Hm|right].
    set (dl := download_of label (ag_realm a) (ag_sample a) head).
    assert (Hdl : dl ∈ omap (agg_download label s) (map_values m)).
    { apply list_elem_of_omap. exists a. split; [by apply (list_elem_of_fmap_2 snd) in Ha|].
      unfold agg_download. cbn [snd] in Hhead. by rewrite <-He, Ehas, Hhead. }
    exists dl. split_and!; [|unfold dl; cbn; congruence|done].
    unfold dnl_list. rewrite Hd, bool_decide_false by done.
    change dl with (dl_key dl, dl).2. apply (list_elem_of_fmap_2 snd), map_get_Some_in, dnl_enq_in; [|done].
    eapply agg_downloads_keys; [exact Ht|]. by eapply inventory_slots.
  - intros k Hk. rewrite Hd. case_bool_decide; [done|].
    destruct (queued_slots label hs m s k Ht) as [->|(x & dl & Hin & -> & _)]; [done|]. by destruct (Hk x Hin).
  - intros k dl. rewrite Hd. case_bool_decide; [by left|].
    destruct (queued_slots label hs m s k Ht) as [->|(x & dl' & Hin & Hk & Hn & -> & Hq)]; [by left|].
    intros [= <-]. right. by exists x.
  - intros h. rewrite (reconciled_uploads _ _ _ _ hs) by done. by rewrite elem_of_listKeys.
Qed.

(** After messages are archived by a local write or an import, exactly
    the queued downloads of those messages are dropped, so a later sync does
    not fetch them again; every other queued download stays, and so do archive,
    uploads and cursors. *)
Theorem archived_downloads_dropped hashes s (n : N) s' n' :
  store_ok s → Forall (λ d, 0 ∉ dl_host d) (dnl_list s) →
  deqDownloadsForHeadHashes hashes (s, n) = (Ok tt, (s', n')) →
  (∀ k d, map_get k (st_downloads s') = Some d ↔
    map_get k (st_downloads s) = Some d ∧ ¬ ∃ h, dl_hash d = Ok h ∧ h ∈ hashes) ∧
  st_messages s' = st_messages s ∧ st_uploads s' = st_uploads s ∧ st_cursors s' = st_cursors s ∧ n' = n.
Proof.
  intros [Hw Hk _ _] Hz Hrun. destruct (deqDownloads_spec hashes s n _ Hw Hz Hk Hrun)
    as (s1 & [= -> ->] & Hm & Hu & Hc & _ & Hd).
  split_and!; try done. intros k d. rewrite Hd. fold (wanted hashes d).
  destruct (map_get k (st_downloads s)) as [d'|]; [|naive_solver].
  case_decide; naive_solver.
Qed.
End props.

(** ** Witnesses: a host with one bag, an archive with one other message *)

Module Local.
Definition key3 : bytes := be_bytes 32 3.
Definition row3 : IStoredMessageData := mkStored [] None None None (Some [x2a]) APLD_APPLIED None None.
Definition local : Store := msgs_add [(key3, row3)] empty.
Definition opts : ReconcileOpts := mkRecOpts None (Some true).
Definition ran : Res ReconcileResult * (Store * unit) :=
  Eval vm_compute in reconcileHost mgrs host opts (local, tt).
Definition after' : Store := ran.2.1.
Definition rep : ReconcileResult :=
  match ran.1 with Ok r => r | _ => mkRecResult [] 0 0 0 0 0 end.

Lemma local_ok : store_ok local.
Proof. split; done || apply map_wf_nil. Qed.
Lemma local_archive : archive_ok local.
Proof. split; [apply NoDup_singleton|]. intros k ->%list_elem_of_singleton. by exists key3. Qed.
Lemma ran_eq : reconcileHost mgrs host opts (local, tt) = (Ok rep, (after', tt)).
Proof. vm_compute. reflexivity. Qed.
End Local.
Import Local.

Example reconcile_both_ways :
  (rr_missingLocal rep, rr_missingHost rep, upl_list host after', dl_headEncHash <$> dnl_list after') =
  (1, 1, [key3], [Some key1]).
Proof. vm_compute. reflexivity. Qed.

Lemma reconcile_reports_difference_witness :
  ∃ hashes, NoDup hashes ∧ rr_msgcheck rep = checksumSet hashes ∧ rr_uniqueMsgs rep = Z.of_nat (length hashes) ∧
    (rr_missingLocal rep = 0 ∧ rr_missingHost rep = 0 ↔
      checksum_preimage hashes = checksum_preimage (msgs_listKeys local)).
Proof.
  destruct (reconcile_reports_difference mgrs host opts local tt rep after' tt local_archive ran_eq)
    as (home & vk & lists & hs & hashes & _ & _ & _ & H1 & _ & H2 & _ & H3 & _ & _ & _ & H4).
  exists hashes. split; [exact H1|]. split; [exact H2|]. split; [exact H3|exact H4].
Defined.

Lemma reconcile_queues_difference_witness :
  st_messages after' = st_messages local ∧ cursor after' host nullKDM = 1 ∧
  ∃ hs : heads, ∀ h, h ∈ upl_list host after' ↔
    (h ∈ upl_list host local ∧ ¬ (h ∈ head_hash <$> hs ∧ msgs_has h local = true)) ∨
    (ro_push opts = Some true ∧ msgs_has h local = true ∧ h ∉ head_hash <$> hs).
Proof.
  assert (Hx : hex_queue host local) by (intros set Hs; vm_compute in Hs; discriminate Hs).
  assert (Hh : host ∈ st_hosts local) by (vm_compute; left).
  destruct (reconcile_queues_difference mgrs host opts local tt rep after' tt local_ok local_archive Hx Hh ran_eq)
    as (vk & lists & hs & _ & H1 & _ & _ & _ & _ & _ & _ & H2).
  split; [exact H1|]. split; [vm_compute; reflexivity|]. exists hs. exact H2.
Defined.

Lemma archived_downloads_dropped_witness :
  let s' := (deqDownloadsForHeadHashes (N := unit) [key1] (peeked, tt)).2.1 in
  dnl_list s' = [] ∧ ∀ k d, map_get k (st_downloads s') = Some d ↔
    map_get k (st_downloads peeked) = Some d ∧ ¬ ∃ h, dl_hash d = Ok h ∧ h ∈ [key1].
Proof.
  intros s'.
  assert (Hrun : deqDownloadsForHeadHashes (N := unit) [key1] (peeked, tt) = (Ok tt, (s', tt)))
    by (vm_compute; reflexivity).
  assert (Hz : Forall (λ d, 0 ∉ dl_host d) (dnl_list peeked)).
  { apply Forall_forall. intros d Hd. apply list_elem_of_singleton in Hd. rewrite Hd.
    intros Hc. vm_compute in Hc. inversion Hc as [|? ? ? Hc']. inversion Hc'. }
  destruct (archived_downloads_dropped [key1] peeked tt s' tt peeked_ok Hz Hrun) as (H1 & _).
  split; [vm_compute; reflexivity|exact H1].
Defined.
