(* ===== verification/NotifProps.v ===== *)
(** * Properties of notifications

    What a handled notification leaves: no message of it is lost, the cursor
    moves only over what it brought, and a sync is scheduled whenever
    something is left to fetch. *)
From S2P Require Import Notif Reconcile HostProps SyncProps.
From S2P Require Import Js.
Import Toy Peer.

Section props.
Context {C : CryptoPrims} {N : Type} (bagMgrs : list BagManager).

(** The last message of a slot that waits for its body. *)
Definition last_pulled (slot : IKDM * Z) (news : list NotifBag) : option NotifBag :=
  last (filter (λ b, needs_pull b = true ∧ nb_slot b = slot) news).

Lemma last_pulled_in slot b news : last_pulled slot news = Some b → b ∈ news ∧ nb_slot b = slot.
Proof. intros [[_ Hs] Hin]%last_Some_elem_of%list_elem_of_filter. done. Qed.

Lemma notif_queue_last label news s b :
  b ∈ news → needs_pull b = true →
  ∃ b', last_pulled (nb_slot b) news = Some b' ∧
    map_get (dl_key (notif_download label b)) (st_downloads (notif_queue label news s)) = Some (notif_download label b').
Proof.
  intros Hb Hp. rewrite notif_queue_enq, dnl_enq_get.
  assert (filter (λ d, dl_key d = dl_key (notif_download label b)) (notif_download label <$> filter (λ b, needs_pull b = true) news) =
    notif_download label <$> filter (λ x, needs_pull x = true ∧ nb_slot x = nb_slot b) news) as ->.
  { clear Hb. induction news as [|x news IH]; [done|]. rewrite !filter_cons. destruct (needs_pull x) eqn:Ex.
    2: { rewrite !decide_False by naive_solver. done. }
    rewrite (decide_True (P := true = true)) by done. cbn [fmap list_fmap]. rewrite filter_cons, !notif_download_key.
    destruct (decide (nb_slot x = nb_slot b)) as [Hs|Hs].
    - injection Hs as Hr Hs. rewrite decide_True by (by rewrite Hr, Hs). rewrite decide_True by (unfold nb_slot; by rewrite Hr, Hs).
      rewrite notif_download_key in IH. cbn [fmap list_fmap]. by rewrite <-IH.
    - rewrite decide_False by (intros [H1 H2]%downloadKey_same_host; apply Hs; unfold nb_slot; by rewrite H1, H2).
      rewrite decide_False by naive_solver. rewrite notif_download_key in IH. done. }
  rewrite fmap_last. unfold last_pulled. destruct (last _) as [b'|] eqn:E; [by exists b'|].
  apply last_None in E. exfalso. eapply (not_elem_of_nil b). rewrite <-E. by apply list_elem_of_filter.
Qed.

(** [C29] Handling a notification loses no message: every new message, that
    is one of a known realm that verifies, parses and is not archived, is
    archived if its body came inline and opens; without its body it is queued
    for download, if it is the only new message with its number in its realm (of
    those without a body that a host gives one number of one realm, the last is
    queued).  A cursor moves only over messages of the notification,
    without a gap, and a sync is scheduled whenever a new message is archived,
    queued, or not reached by the cursor.  Cursors never move back and archived
    messages stay. *)
Theorem notif_keeps_messages data label s (n : N) sched s' n' home vk items :
  store_ok s → identity bagMgrs = Ok home → importVerifyKey (bm_publicKey home) = Ok vk →
  run_dec (readStructs notifItemCodec) data = Ok items →
  handleNotif bagMgrs data label (s, n) = (Ok sched, (s', n')) →
  ∃ news, (∀ b, b ∈ news ↔ ∃ item, item ∈ items ∧
      notif_bag bagMgrs vk (λ h, msgs_has h s) item = Ok (Some b)) ∧
    (∀ b row, b ∈ news → needs_pull b = false → notif_open b = Ok (Some row) →
      msgs_has (nb_headEncHash b) s' = true ∧ sched = true) ∧
    (∀ b, b ∈ news → needs_pull b = true → sched = true ∧
      ∃ b', last_pulled (nb_slot b) news = Some b' ∧ ((∀ x, x ∈ news → nb_slot x = nb_slot b → x = b) → b' = b) ∧
        ∃ dl, dl ∈ dnl_list s' ∧ dl_headEncHash dl = Some (nb_headEncHash b') ∧ dl_host dl = label) ∧
    (∀ b, b ∈ news → cursor s' label (nb_realm b) < nb_seq b → sched = true) ∧
    (∀ l r seq, cursor s l r < seq <= cursor s' l r →
      l = label ∧ ∃ b, b ∈ news ∧ nb_realm b = r ∧ nb_seq b = seq) ∧
    grows s s' ∧ n' = n.
Proof.
  intros Hok Hid Hvk Hdec Hrun. pose proof (handleNotif_safe bagMgrs data label _ _ _ _ _ Hrun) as Hg.
  unfold handleNotif in Hrun. rewrite Hid, Hvk, Hdec in Hrun.
  apply notif_items_spec in Hrun as (bs & opened & Hbs & Hop & [= -> ->] & ->).
  set (news := omap id bs) in *. exists news.
  destruct (notif_touched_rest label news s) as [_ Hd]. destruct (notif_touched_cursor label news s Hok) as [Hc Ho].
  split_and!; try done.
  - intros b. by apply mapM_omap_elem.
  - intros b row Hb Hp Hrow.
    assert (Hin : row ∈ omap id opened).
    { eapply mapM_omap_elem; [exact Hop|]. exists b. split; [by apply list_elem_of_filter|done]. }
    assert (Hkey : row.1 = nb_headEncHash b).
    { unfold notif_open in Hrow. by destruct (openBagBody _ _ _ _); simplify_eq. }
    split.
    + apply msgs_has_iff. rewrite msgs_add_get.
      destruct (last _) as [[k d]|] eqn:E; [by eexists|]. apply last_None in E. exfalso.
      assert (Hf : row ∈ filter (λ m, m.1 = nb_headEncHash b) (omap id opened)) by (by apply list_elem_of_filter).
      rewrite E in Hf. by apply not_elem_of_nil in Hf.
    + destruct (omap id opened); [by apply not_elem_of_nil in Hin|]. apply orb_true_r.
  - intros b Hb Hp. split.
    { assert (existsb needs_pull news = true) as ->; [|by rewrite orb_true_r].
      apply existsb_exists. exists b. split; [by apply list_elem_of_In|done]. }
    destruct (notif_queue_last label news s b Hb Hp) as (b' & Hl & Hget). exists b'. split; [done|]. split.
    { intros Hn. apply last_pulled_in in Hl as [Hin Hs]. by apply Hn. }
    exists (notif_download label b'). split_and!; [|done|done].
    unfold dnl_list. cbn [msgs_add set_messages st_downloads]. rewrite Hd. apply map_get_Some_in in Hget.
    by apply (list_elem_of_fmap_2 snd) in Hget.
  - intros b Hb Hlt. destruct (na_outOfSeq _) eqn:E; [done|].
    specialize (Ho eq_refl b Hb). change (cursor (msgs_add _ ?s1) ?l ?r) with (cursor s1 l r) in Hlt. lia.
Qed.

(** The cursors are written before the archive: between the two writes the
    archive is the old one while the cursors are final, so a message whose
    archive write is cut off is neither archived, nor queued, nor listed by a
    later peek. *)
Lemma notif_cursor_moves_first label vk items s (n : N) sched s' n' :
  notif_items bagMgrs label vk items (s, n) = (Ok sched, (s', n')) →
  ∃ mid rows, s' = msgs_add rows mid ∧ st_messages mid = st_messages s ∧
    ∀ l r, cursor mid l r = cursor s' l r.
Proof.
  intros (bs & opened & _ & _ & [= -> ->] & _)%notif_items_spec.
  exists (notif_touched label (omap id bs) s), (omap id opened).
  split_and!; [done|apply notif_touched_rest|done].
Qed.
End props.

(** ** Witnesses: a notification of the first bag, its body inline *)

Module Notice.
Definition item1 : IBagNotifItem :=
  mkNotif 1 (bm_rlm toy_mgr) (pk_headCph head_item) (Some (bag_bodyCph Demo.bag1)).
Definition data1 : bytes :=
  Eval vm_compute in match run_enc (writeStruct notifItemCodec item1) with Ok bs => bs | _ => [] end.
Definition items1 : list IBagNotifItem :=
  Eval vm_compute in match run_dec (readStructs notifItemCodec) data1 with Ok l => l | _ => [] end.
Definition told : Store := Eval vm_compute in (handleNotif (N := unit) mgrs data1 host (empty, tt)).2.1.
Definition vk1 : CryptoKey := Eval vm_compute in
  match importVerifyKey (bm_publicKey toy_mgr) with Ok k => k | _ => [] end.
End Notice.
Import Notice.

Lemma notif_keeps_messages_witness :
  msgs_has key1 told = true ∧ cursor told host nullKDM = 1 ∧ grows empty told ∧
  ∃ news : list NotifBag, (∀ b row, b ∈ news → needs_pull b = false → notif_open b = Ok (Some row) →
    msgs_has (nb_headEncHash b) told = true ∧ true = true) ∧
    ∀ b, b ∈ news ↔ ∃ item, item ∈ items1 ∧ notif_bag mgrs vk1 (λ h, msgs_has h empty) item = Ok (Some b).
Proof.
  assert (Hid : identity mgrs = Ok toy_mgr) by (vm_compute; reflexivity).
  assert (Hvk : importVerifyKey (bm_publicKey toy_mgr) = Ok vk1) by (vm_compute; reflexivity).
  assert (Hdec : run_dec (readStructs notifItemCodec) data1 = Ok items1) by (vm_compute; reflexivity).
  assert (Hrun : handleNotif (N := unit) mgrs data1 host (empty, tt) = (Ok true, (told, tt)))
    by (vm_compute; reflexivity).
  destruct (notif_keeps_messages mgrs data1 host empty tt true told tt toy_mgr vk1 items1
    empty_ok Hid Hvk Hdec Hrun) as (news & H1 & H2 & _ & _ & _ & H3 & _).
  split; [vm_compute; reflexivity|]. split; [vm_compute; reflexivity|]. split; [exact H3|].
  exists news. split; [exact H2|exact H1].
Defined.
