(* ===== verification/Client.v ===== *)
(** * The host client ([shared/client.ts]) over the in-process transport

    One authenticated call: sign a timestamp, encode, send, read the response
    head, report the clock estimate, read the response.  [client_net] is the
    client as the [SyncNet] of the sync phases, with a real host behind it. *)
From S2P Require Export Sync ServerFacts.
From Stdlib Require Import QArith_base.
#[local] Open Scope Z_scope.

(** What the two clocks show during one call: the client signing, sending and
    receiving; the host on arrival, in the handler and before the reply. *)
Record Readings := mkReadings {
  rd_now : Date; rd_sent : Date; rd_rcvd : Date;
  rd_hostRcvd : Date; rd_hostNow : Date; rd_hostSent : Date;
}.

Section client.
Context {C : CryptoPrims} {S H : Type} {I : IStorage S} {PN : IPushNotifier H}.
Context (bagMgrs : list BagManager).
(** The clocks at each call, the random draws, and the callback that keeps the
    host's metadata. *)
Context (clocks : nat → Readings) (randoms : nat → bytes) (updateHostMeta : IHostMetadata → Status).

Record World := mkWorld {
  w_host : Host (S := S) (N := H);
  w_calls : nat;                                  (* calls made so far *)
  w_draws : nat;                                  (* random draws so far *)
  w_metas : list IHostMetadata;                   (* metadata reported so far *)
}.

Definition w_clock : M World Readings := λ w,
  (Ok (clocks (w_calls w)), mkWorld (w_host w) (w_calls w + 1) (w_draws w) (w_metas w)).
Definition w_random : M World bytes := λ w,
  (Ok (randoms (w_draws w)), mkWorld (w_host w) (w_calls w) (w_draws w + 1) (w_metas w)).
Definition w_update (meta : IHostMetadata) : M World unit := λ w,
  (match updateHostMeta meta with Success => Ok tt | st => Err st end,
   mkWorld (w_host w) (w_calls w) (w_draws w) (w_metas w ++ [meta])).

(** [transport.call]. *)
Definition w_send (name : APICallName) (req : bytes) (rd : Readings) : M World bytes := λ w,
  let '(r, h) := lpc_call name req (rd_hostRcvd rd) (rd_hostNow rd) (rd_hostSent rd) (w_host w) in
  (r, mkWorld h (w_calls w) (w_draws w) (w_metas w)).

Definition call {R} (name : APICallName) (encodeReq : IAuthTimestamp → EncM unit)
    (decodeResp : DecM R) : M World R :=
  id ← m_lift (identity bagMgrs);
  rd ← w_clock;
  authTS ← m_lift (makeAuthTimestamp id (rd_now rd));
  req ← m_lift (run_enc (encodeReq authTS));
  resp ← w_send name req rd;
  match readStruct respHeadCodec (newDecoder resp) with
  | (Throw, _) => m_throw
  | (Err st, _) => m_err st
  | (Ok head, dec) =>
      match rh_status head with
      | Success =>
          _ ← w_update (mkMeta (rh_subscription head)
                (offset (rd_sent rd) (rh_timeRcvd head) (rh_timeSent head) (rd_rcvd rd)));
          m_lift (decodeResp dec).1
      | st => m_err st
      end
  end.

Definition hostRlm (realm : IKDM) : Res bytes :=
  match bagMgrFor bagMgrs realm with
  | None => Err NotFound
  | Some mgr => Ok (bm_rlm mgr)
  end.

Definition client_register : M World unit := call CallUser user_encodeReq (mret tt).
Definition client_peek (lastSeq : Z) (realm : IKDM) : M World (list IBagPeekItem) :=
  rlm ← m_lift (hostRlm realm);
  call CallPeek (λ a, peek_encodeReq a (mkPeekCursor rlm lastSeq)) peek_decodeResp.
Definition client_pull (seqs : list Z) (realm : IKDM) : M World (list IBagPullItem) :=
  rlm ← m_lift (hostRlm realm);
  call CallPull (λ a, pull_encodeReq a (mkPullReq rlm seqs)) pull_decodeResp.
Definition client_push (bags : list IBag) : M World (list IBagPushItem) :=
  call CallPush (λ a, push_encodeReq a bags) push_decodeResp.

Definition client_net : SyncNet World := {|
  net_peek := client_peek;
  net_pull := client_pull;
  net_push := client_push;
  net_nonce := w_random;
|}.
End client.

(** * A registered client's calls, answered by a real host

    What [client_peek], [client_pull] and [client_push] return and leave,
    from the host's contract ([ServerFacts]): the host log is read, or
    extended by the bags. *)
#[local] Open Scope Z_scope.

Section facts.
Context {C : CryptoPrims} {L : CryptoLaws C} {S H : Type} {I : IStorage S} {SP : StorageSpec S}
  {PN : IPushNotifier H}.
Context (bagMgrs : list BagManager) (clocks : nat → Readings) (randoms : nat → bytes)
  (updateHostMeta : IHostMetadata → Status).

Abbreviation World := (World (S := S) (H := H)).

(** The clocks read dates within the tolerance of each other. *)
Definition in_step (rd : Readings) : Prop :=
  ∃ t n, rd_now rd = Some t ∧ rd_hostNow rd = Some n ∧ date_ok (Some t) ∧ date_ok (Some n) ∧
    Z.abs (n - t) <= clockToleranceMs ∧ date_ok (rd_hostRcvd rd) ∧ date_ok (rd_hostSent rd).

(** The connection has an identity that signs. *)
Record connected (home : BagManager) : Prop := {
  cn_home : identity bagMgrs = Ok home;
  cn_valid : bm_valid home;
  cn_signs : ∀ msg, ∃ sig, bm_sign home msg = Ok sig;
  cn_clocks : ∀ k, in_step (clocks k);
  cn_update : ∀ m, updateHostMeta m = Success;
}.

Context (home : BagManager) (Hc : connected home).

Lemma signs_auth rd : in_step rd → ∃ a,
  makeAuthTimestamp home (rd_now rd) = Ok a ∧ authTS_ok a ∧ at_pubKey a = bm_publicKey home ∧
  validateAuthTimestamp a (rd_hostNow rd) = Ok tt.
Proof.
  intros (t & n & Et & En & Ht & Hn & Hd & _). rewrite Et, En.
  destruct (cn_signs _ Hc (date_wire (Some t))) as [sig Hsig].
  assert (Ha : makeAuthTimestamp home (Some t) = Ok (mkAuthTS (bm_publicKey home) sig (Some t))).
  { unfold makeAuthTimestamp. rewrite (encodes_run (writeDate (Some t)) (date_wire (Some t)))
      by eauto with codec. cbn [mbind Res_bind res_bind]. by rewrite Hsig. }
  eexists. split; [exact Ha|]. pose proof (cn_valid _ Hc) as Hv.
  split; [by apply (makeAuth_ok home t)|]. split; [done|].
  rewrite (makeAuth_validates home t n) by done. unfold auth_fresh.
  by rewrite (proj2 (Z.leb_le _ _)).
Qed.

(** One call, given what the handler does with it. *)
Lemma call_ok {R} name (encodeReq : IAuthTimestamp → EncM unit) (decodeResp : DecM R)
    (body : bytes) (r : R) (w : World) (P : Host → Prop) :
  (∀ a, authTS_ok a → encodes (encodeReq a) (authTS_wire a ++ body)) →
  (∀ a now, authTS_ok a → at_pubKey a = bm_publicKey home → validateAuthTimestamp a now = Ok tt →
    ∃ c' out, handleReq name now (start (authTS_wire a ++ body) (w_host w)) = (Ok tt, c') ∧
      enc_result (rq_enc c') = out ∧ decodes_end decodeResp out r ∧
      P (mkHost (rq_sto c') (rq_ntf c'))) →
  ∃ w', call bagMgrs clocks updateHostMeta name encodeReq decodeResp w = (Ok r, w') ∧
    P (w_host w') ∧ w_draws w' = w_draws w ∧ w_calls w' = (w_calls w + 1)%nat.
Proof.
  intros Henc Hh. unfold call. rewrite (cn_home _ Hc).
  unfold mbind, M_bind, m_bind, m_lift at 1, w_clock at 1.
  pose proof (cn_clocks _ Hc (w_calls w)) as Hrd. set (rd := clocks (w_calls w)) in *.
  destruct (signs_auth rd Hrd) as (a & Ha & Hok & Hpk & Hv). rewrite Ha. unfold m_lift at 1.
  rewrite (encodes_run _ _ (Henc a Hok)). unfold m_lift at 1.
  unfold w_send, lpc_call. cbn [w_host].
  destruct (Hh a (rd_hostNow rd) Hok Hpk Hv) as (c' & out & Eh & Eo & Hdec & HP).
  fold (start (authTS_wire a ++ body) (w_host w)). rewrite Eh. cbn [res_status].
  destruct Hrd as (t & n & _ & _ & _ & _ & _ & H1 & H2).
  destruct (respHead_any Success _ _ H1 H2) as (hb & Hb & Hrh). rewrite Hb.
  cbn [mbind Res_bind res_bind mret Res_ret].
  rewrite Eo, Hrh. cbn [rh_status]. change (status_of_code (status_code Success mod 256)) with Success.
  cbn [rh_status]. unfold w_update. rewrite (cn_update _ Hc).
  rewrite (Hdec hb). cbn [fst m_lift]. eexists. split; [reflexivity|]. done.
Qed.

(** ** The three calls *)

Definition log_of (w : World) (rlm : bytes) : list Entry :=
  sto_log (h_sto (w_host w)) (bm_publicKey home) rlm.

Record hosted (w : World) : Prop := {
  ho_wf : sto_wf (h_sto (w_host w));
  ho_user : sto_user (h_sto (w_host w)) (bm_publicKey home) = true;
}.

Lemma host_same (h h' : Host (S := S) (N := H)) :
  h_sto h' = h_sto h → h_ntf h' = h_ntf h → h' = h.
Proof. destruct h, h'. cbn. by intros -> ->. Qed.

Lemma encodes_auth a (m : EncM unit) bs :
  authTS_ok a → encodes m bs → encodes (_ ← writeStruct authTimestampCodec a; m) (authTS_wire a ++ bs).
Proof.
  intros Ha Hm. apply encodes_bind; [|done]. by apply (lawful_enc (ok := authTS_ok)).
Qed.

Lemma client_peek_ok lastSeq realm mgr (w : World) :
  bagMgrFor bagMgrs realm = Some mgr → blen (bm_rlm mgr) = hashBytes → varnum_ok lastSeq →
  hosted w → log_fits (log_of w (bm_rlm mgr)) →
  ∃ w', client_peek bagMgrs clocks updateHostMeta lastSeq realm w =
      (Ok (log_heads (log_of w (bm_rlm mgr)) lastSeq), w') ∧
    w_host w' = w_host w ∧ w_draws w' = w_draws w.
Proof.
  intros Hm Hr Hq [Hw Hu] Hf. unfold client_peek, hostRlm. rewrite Hm.
  set (cur := mkPeekCursor (bm_rlm mgr) lastSeq). assert (Hcur : peekCursor_ok cur) by done.
  destruct (call_ok CallPeek (λ a, peek_encodeReq a cur) peek_decodeResp (peekCursor_wire cur)
    (log_heads (log_of w (bm_rlm mgr)) lastSeq) w (λ h, h = w_host w)) as (w' & E & Hh & Hd & _).
  - intros a Ha. apply encodes_auth; [done|]. by apply (lawful_enc (ok := peekCursor_ok)).
  - intros a now Ha Hpk Hv. unfold handleReq.
    destruct (peek_spec a cur now (w_host w) Ha Hv Hcur Hw) as (c' & E & E1 & E2 & E3);
      [by rewrite Hpk|by rewrite Hpk|].
    eexists c', _. split_and!; [exact E|reflexivity| |by apply host_same].
    rewrite E3, Hpk. rewrite <-(list_fmap_id (log_heads (log_of w (bm_rlm mgr)) lastSeq)).
    apply (readStructs_decodes_end peekItemCodec peekItem_ok id peekItem_wire). by apply log_heads_ok.
  - exists w'. done.
Qed.

Lemma client_pull_ok seqs realm mgr (w : World) :
  bagMgrFor bagMgrs realm = Some mgr → blen (bm_rlm mgr) = hashBytes → Forall varnum_ok seqs →
  hosted w → log_fits (log_of w (bm_rlm mgr)) →
  ∃ w', client_pull bagMgrs clocks updateHostMeta seqs realm w =
      (Ok ((λ '(q, b), mkPullItem q b) <$> log_bodies (log_of w (bm_rlm mgr)) seqs), w') ∧
    w_host w' = w_host w ∧ w_draws w' = w_draws w.
Proof.
  intros Hm Hr Hq [Hw Hu] Hf. unfold client_pull, hostRlm. rewrite Hm.
  set (req := mkPullReq (bm_rlm mgr) seqs). assert (Hreq : pullReq_ok req) by done.
  destruct (call_ok CallPull (λ a, pull_encodeReq a req) pull_decodeResp (pullReq_wire req)
    ((λ '(q, b), mkPullItem q b) <$> log_bodies (log_of w (bm_rlm mgr)) seqs) w
    (λ h, h = w_host w)) as (w' & E & Hh & Hd & _).
  - intros a Ha. apply encodes_auth; [done|]. by apply pullReq_encodes.
  - intros a now Ha Hpk Hv. unfold handleReq.
    destruct (pull_spec a req now (w_host w) Ha Hv Hreq Hw) as (c' & E & E1 & E2 & E3);
      [by rewrite Hpk|by rewrite Hpk|].
    eexists c', _. split_and!; [exact E|reflexivity| |by apply host_same].
    rewrite E3, Hpk. set (items := _ <$> log_bodies _ _).
    rewrite <-(list_fmap_id items) at 2.
    apply (readStructs_decodes_end pullItemCodec pullItem_ok id pullItem_wire).
    apply log_bodies_ok; [done|apply Hreq].
  - exists w'. done.
Qed.

Definition roomy (w : World) : Prop :=
  ∀ r, Z.of_nat (length (log_of w r)) <= maxSafe - 2 ^ 32.

Lemma client_push_ok vk bags (w : World) :
  importVerifyKey (bm_publicKey home) = Ok vk →
  Forall bag_fits bags → Z.of_nat (length bags) <= 2 ^ 32 → hosted w → roomy w →
  let items := push_items vk (λ r, Z.of_nat (length (log_of w r))) bags in
  ∃ w', client_push bagMgrs clocks updateHostMeta bags w = (Ok items, w') ∧
    hosted w' ∧ w_draws w' = w_draws w ∧
    (∀ pk r, sto_log (h_sto (w_host w')) pk r = sto_log (h_sto (w_host w)) pk r ++
       if decide (pk = bm_publicKey home) then bag_entries r (valid_bags vk 0 bags).*2 else []).
Proof.
  intros Hk Hb Hn [Hw Hu] Hroom items. unfold client_push.
  destruct (call_ok CallPush (λ a, push_encodeReq a bags) push_decodeResp (concat (bag_wire <$> bags))
    items w (λ h, sto_wf (h_sto h) ∧ (∀ pk, sto_user (h_sto h) pk = sto_user (h_sto (w_host w)) pk) ∧
      ∀ pk r, sto_log (h_sto h) pk r = sto_log (h_sto (w_host w)) pk r ++
       if decide (pk = bm_publicKey home) then bag_entries r (valid_bags vk 0 bags).*2 else []))
    as (w' & E & (H1 & H2 & H3) & Hd & _).
  - intros a Ha. apply encodes_auth; [done|]. apply (writeStructs_encodes bagCodec bag_ok id bag_wire).
    eapply Forall_impl; [done|]. by intros ? [].
  - intros a now Ha Hpk Hv. unfold handleReq.
    destruct (push_spec a vk bags now (w_host w)) as (c' & E & E1 & _ & E2 & E3 & E4).
    { split_and!; try done; rewrite Hpk; [done|]. exact Hroom. }
    { by rewrite Hpk. }
    eexists c', _. split_and!; [exact E|reflexivity| |done|done|by rewrite <-Hpk].
    rewrite E1, Hpk. unfold log_lens. fold (log_of w).
    change (push_items _ _ _) with items. rewrite <-(list_fmap_id items) at 2.
    apply (readStructs_decodes_end pushItemCodec pushItem_ok id pushItem_wire).
    apply push_items_ok; [done..|]. intros r. split; [lia|apply Hroom].
  - exists w'. split_and!; [done| |done|done]. split; [done|]. by rewrite H2.
Qed.
End facts.
