(* ===== verification/Devices.v ===== *)
(** * Two devices and a host

    The sync phases with a real host behind them ([client_net]): a push
    extends the host's logs by the sealed messages, and another device of the
    same account peeks and pulls them into its archive. *)
From S2P Require Export Client SyncPull SyncPush.
From S2P Require Import Js.

(** ** A peek completes *)

Section peek_total.
Context {C : CryptoPrims} {N : Type} {NC : SyncNet N} (bagMgrs : list BagManager).

Lemma decryptPeekItem_total item vk mgr : decryptPeekItem item vk mgr ≠ Throw.
Proof.
  unfold decryptPeekItem. case_match; [done|].
  apply res_bind_total; [by apply run_dec_total, no_throw_total, peekItemHead_total|].
  intros p. case_match; [done|]. apply res_bind_total; [apply bm_decrypt_total|done].
Qed.

Lemma peek_crypto_ok vk mgr item : ∃ r, peek_crypto vk mgr item = Ok r.
Proof.
  unfold peek_crypto. pose proof (decryptPeekItem_total item vk mgr).
  destruct (decryptPeekItem item vk mgr); [by eexists..|done].
Qed.

Lemma peek_loop_total label realm rs enq dls (s : Store) (n : N) :
  ∃ dls' s', peek_loop label realm rs enq dls (s, n) = (Ok dls', (s', n)).
Proof.
  revert enq dls s. induction rs as [|[r|q st] rs IH]; intros enq dls s; cbn [peek_loop];
    [by eexists _, _| |apply IH].
  rewrite rd_bind. case_match; [rewrite !st_bind; apply IH|].
  case_match; [rewrite st_bind; apply IH|].
  pose proof (run_dec_total (readStruct messageHeadCodec) (pc_headEnc r) (no_throw_total _ head_total)).
  destruct (run_dec (readStruct messageHeadCodec) (pc_headEnc r)); [apply IH..|done].
Qed.

Lemma syncPeek_ok label row realm mgr home vk items s n n' :
  bagMgrFor bagMgrs realm = Some mgr → identity bagMgrs = Ok home →
  importVerifyKey (bm_publicKey home) = Ok vk →
  net_peek (cursorOf row realm) realm n = (Ok items, n') →
  ∃ s', syncPeek bagMgrs label row realm (s, n) = (Ok tt, (s', n')).
Proof.
  intros Hm Hh Hk Hp. unfold syncPeek. rewrite Hm, lift_bind, Hh, lift_bind, Hk. cbn [catching].
  rewrite (net_ok_bind _ _ _ _ _ _ Hp), lift_bind.
  destruct (res_mapM_total (peek_crypto vk mgr) items) as [rs ->]; [intros; apply peek_crypto_ok|].
  destruct (peek_loop_total label realm rs [] [] s n') as (dls & s1 & E).
  rewrite (ok_bind _ _ _ _ _ E), st_bind. destruct (Nat.eqb (length items) 0); by eexists.
Qed.
End peek_total.

(** ** The sending device *)

Section devices.
Context {C : CryptoPrims} {L : CryptoLaws C} {S H : Type} {I : IStorage S} {SP : StorageSpec S}
  {PN : IPushNotifier H}.
Context (bagMgrs : list BagManager) (home : BagManager) (vk : CryptoKey).

Abbreviation World := (World (S := S) (H := H)).
Abbreviation pk := (bm_publicKey home).

(** The managers of one account: valid, under the account's key, one per realm
    tag. *)
Record managed : Prop := {
  mg_key : importVerifyKey pk = Ok vk;
  mg_valid : ∀ m, m ∈ bagMgrs → bm_valid m ∧ bm_publicKey m = pk;
  mg_rlm : ∀ m m', m ∈ bagMgrs → m' ∈ bagMgrs → bm_rlm m = bm_rlm m' → m = m';
}.
Context (Hmg : managed).

Lemma bagMgrFor_in realm mgr : bagMgrFor bagMgrs realm = Some mgr → mgr ∈ bagMgrs.
Proof.
  unfold bagMgrFor. destruct (list_find _ _) as [[i m]|] eqn:E; [|done]. intros [= <-].
  apply list_find_Some in E as (E & _). by apply list_elem_of_lookup_2 in E.
Qed.

(** A bag the host stores. *)
Definition storable_bag (b : IBag) : Prop :=
  bag_fits b ∧ bagSigValid b vk = true ∧ rlm_valid (bag_rlm b) = true.

Lemma valid_bags_all idx bags : Forall storable_bag bags → (valid_bags vk idx bags).*2 = bags.
Proof.
  intros Hb. revert idx. induction Hb as [|b bags (_ & Hv & _) _ IH]; intros idx; [done|].
  cbn [valid_bags]. rewrite Hv. cbn [app fmap list_fmap snd]. unfold fmap in IH. by rewrite IH.
Qed.

Lemma invalid_items_none idx bags : Forall storable_bag bags → invalid_items vk idx bags = [].
Proof.
  intros Hb. revert idx. induction Hb as [|b bags (_ & Hv & _) _ IH]; intros idx; [done|].
  cbn [invalid_items]. by rewrite Hv, IH.
Qed.

Lemma set_results_stored len bags r :
  Forall storable_bag bags → r ∈ set_results len bags → ∃ q, r = SetStored q.
Proof.
  intros Hb. revert len. induction Hb as [|b bags (_ & _ & Hr) _ IH]; intros len; cbn [set_results];
    [by intros ?%not_elem_of_nil|].
  rewrite Hr. intros [->|Hin]%elem_of_cons; [by eexists|by eapply IH].
Qed.

Lemma push_items_stored len bags i :
  Forall storable_bag bags → (i < length bags)%nat →
  ∃ seq, PushStored (Z.of_nat i) seq ∈ push_items vk len bags.
Proof.
  intros Hb Hi.
  assert (Hin : Z.of_nat i ∈ pi_idx <$> push_items vk len bags).
  { rewrite push_items_idx. apply list_elem_of_fmap_2, elem_of_seq. lia. }
  apply list_elem_of_fmap in Hin as (it & Hit & Hin). exists (match it with PushStored _ q => q | _ => 0 end).
  destruct it as [idx q|idx st]; cbn in Hit; [by subst|]. exfalso.
  unfold push_items in Hin. rewrite invalid_items_none in Hin by done. cbn [app] in Hin.
  apply list_elem_of_fmap in Hin as ([[j b] r] & Heq & Hz).
  unfold stored_pairs in Hz. apply elem_of_zip_r in Hz. rewrite valid_bags_all in Hz by done.
  destruct (set_results_stored _ _ _ Hb Hz) as [q ->]. done.
Qed.

Section sender.
Context (clocks : nat → Readings) (randoms : nat → bytes) (updateHostMeta : IHostMetadata → Status).
Context (Hcn : connected bagMgrs clocks updateHostMeta home).
#[local] Instance send_net : SyncNet World := client_net bagMgrs clocks randoms updateHostMeta.

(** The world after [bags] were pushed into [w0]. *)
Definition pushed_into (w0 : World) (bags : list IBag) (w : World) : Prop :=
  hosted home w ∧
  ∀ pk' r, sto_log (h_sto (w_host w)) pk' r = sto_log (h_sto (w_host w0)) pk' r ++
    if decide (pk' = pk) then bag_entries r bags else [].

Lemma bag_entries_len r bags : (length (bag_entries r bags) ≤ length bags)%nat.
Proof.
  induction bags as [|b bags IH]; cbn [bag_entries length]; [lia|].
  rewrite length_app. case_match; cbn; lia.
Qed.

(** The host contract of [SyncPush], met by the host. *)
Lemma send_nonce w0 bs w : pushed_into w0 bs w → ∃ b w',
  net_nonce w = (Ok b, w') ∧ pushed_into w0 bs w' ∧ ∃ k, b = randoms k.
Proof.
  intros [[H1 H2] H3]. eexists _, _. split; [reflexivity|]. split; [by split; [split|]|by eexists].
Qed.

Lemma send_accepts w0 cap limit bs bags w :
  (∀ r, Z.of_nat (length (log_of home w0 r)) + Z.of_nat cap <= maxSafe - 2 ^ 32) →
  Z.of_nat cap <= 2 ^ 32 →
  pushed_into w0 bs w → request_ok bagMgrs limit bags → Forall storable_bag bags →
  (length (bs ++ bags) ≤ cap)%nat →
  ∃ results w', net_push bags w = (Ok results, w') ∧ pushed_into w0 (bs ++ bags) w' ∧
    ∀ i, (i < length bags)%nat → ∃ seq, PushStored (Z.of_nat i) seq ∈ results.
Proof.
  intros Hroom Hcap [Hh Hl] _ Hb Hlen. rewrite length_app in Hlen.
  destruct (client_push_ok bagMgrs clocks updateHostMeta home Hcn vk bags w)
    as (w' & E & Hh' & _ & Hl'); [apply Hmg| | |done| |].
  - eapply Forall_impl; [done|]. by intros ? [? _].
  - lia.
  - intros r. unfold log_of. rewrite Hl, decide_True, length_app by done.
    specialize (Hroom r). unfold log_of in Hroom. pose proof (bag_entries_len r bs). lia.
  - eexists _, w'. split; [exact E|]. split.
    + split; [done|]. intros pk' r. rewrite Hl', Hl, valid_bags_all by done.
      case_decide; rewrite ?app_nil_r, <-?(assoc_L app), <-?bag_entries_app; done.
    + intros i Hi. by apply push_items_stored.
Qed.
End sender.

(** ** The receiving device *)

(** An entry the account's own devices stored. *)
Definition honest (mgr : BagManager) (e : Entry) : Prop :=
  ∃ m bag, msg_ok m ∧ sealed m mgr bag ∧ bag_fits bag ∧ e = entry_of bag.

Lemma log_heads_elem log c item :
  item ∈ log_heads log c ↔ ∃ seq e, log_at log seq = Some e ∧ c < seq ∧ item = mkPeekItem seq (en_headCph e).
Proof.
  unfold log_heads. rewrite list_elem_of_filter, list_elem_of_lookup. split.
  - intros [Hc [i Hi]]. rewrite log_items_lookup in Hi.
    destruct (log !! i) as [e|] eqn:E; [|done]. injection Hi as <-. cbn in Hc.
    exists (1 + Z.of_nat i), e. split_and!; [|lia|done]. unfold log_at.
    destruct (Z.ltb_spec (1 + Z.of_nat i) 1); [lia|].
    by replace (Z.to_nat (1 + Z.of_nat i - 1)) with i by lia.
  - intros (seq & e & Hl & Hc & ->). split; [done|]. unfold log_at in Hl.
    destruct (Z.ltb_spec seq 1); [done|]. exists (Z.to_nat (seq - 1)). rewrite log_items_lookup, Hl.
    cbn. do 2 f_equal. lia.
Qed.

Lemma log_items_nodup n log : NoDup (pk_seq <$> log_items n log).
Proof.
  revert n. induction log as [|e log IH]; intros n; [constructor|]. cbn. constructor; [|apply IH].
  intros (i & Hi & Hin)%list_elem_of_fmap. pose proof (log_items_seqs (n + 1) log) as Hf.
  rewrite Forall_forall in Hf. specialize (Hf i Hin). lia.
Qed.

Lemma log_heads_nodup log c : NoDup (pk_seq <$> log_heads log c).
Proof.
  eapply sublist_NoDup; [apply (log_items_nodup 1 log)|]. apply fmap_sublist, sublist_filter.
Qed.

Lemma res_mapM_from {A B} (f : A → Res B) xs ys y :
  res_mapM f xs = Ok ys → y ∈ ys → ∃ x, x ∈ xs ∧ f x = Ok y.
Proof.
  revert ys. induction xs as [|x xs IH]; intros ys; [by intros [= <-] ?%not_elem_of_nil|].
  intros (z & zs & Hz & Hzs & ->)%res_mapM_cons [->|Hin]%elem_of_cons; [exists x; split; [by left|done]|].
  destruct (IH zs Hzs Hin) as (x' & ? & ?). exists x'. split; [by right|done].
Qed.

Lemma log_at_drop log c seq e : 0 <= c → log_at log seq = Some e → c < seq → e ∈ drop (Z.to_nat c) log.
Proof.
  unfold log_at. intros Hc Hl Hlt. destruct (Z.ltb_spec seq 1); [done|].
  apply list_elem_of_lookup. exists (Z.to_nat (seq - 1) - Z.to_nat c)%nat. rewrite lookup_drop.
  by replace (Z.to_nat c + (Z.to_nat (seq - 1) - Z.to_nat c))%nat with (Z.to_nat (seq - 1)) by lia.
Qed.

Lemma drop_log_at log c e : 0 <= c → e ∈ drop (Z.to_nat c) log → ∃ seq, log_at log seq = Some e ∧ c < seq.
Proof.
  intros Hc [i Hi]%list_elem_of_lookup. rewrite lookup_drop in Hi.
  exists (Z.of_nat (Z.to_nat c + i) + 1). split; [|lia]. unfold log_at.
  destruct (Z.ltb_spec (Z.of_nat (Z.to_nat c + i) + 1) 1); [lia|].
  by replace (Z.to_nat (Z.of_nat (Z.to_nat c + i) + 1 - 1)) with (Z.to_nat c + i)%nat by lia.
Qed.

Definition head_hash (m : IMessage) : bytes := blake3hash (head_wire (sealed_head m)).

(** The row a peek queues for a sealed message. *)
Definition received (label : jsstr) (realm : IKDM) (seq : Z) (bag : IBag) (m : IMessage) : IDownloadMessage :=
  download_of label realm (mkPeekOk seq (bag_kdm bag) (head_wire (sealed_head m)) (head_hash m))
    (head_norm (sealed_head m)).

Section receiver.
Context (clocks : nat → Readings) (randoms : nat → bytes) (updateHostMeta : IHostMetadata → Status).
Context (Hcn : connected bagMgrs clocks updateHostMeta home).
#[local] Instance recv_net : SyncNet World := client_net bagMgrs clocks randoms updateHostMeta.
Context (label : jsstr) (realm : IKDM) (mgr : BagManager).
Context (Hmgr : bagMgrFor bagMgrs realm = Some mgr).

Lemma peek_honest seq m bag :
  sealed m mgr bag → bag_fits bag →
  peek_crypto vk mgr (mkPeekItem seq (en_headCph (entry_of bag))) =
    Ok (PeekOk (mkPeekOk seq (bag_kdm bag) (head_wire (sealed_head m)) (head_hash m))).
Proof.
  intros Hs [(_ & _ & _ & Hb & _) _]. destruct (mg_valid Hmg mgr) as [Hv Hp]; [by eapply bagMgrFor_in|].
  unfold peek_crypto, entry_of, bag_peekHead. cbn [en_headCph].
  rewrite (decryptPeekItem_sealed m mgr bag vk seq); [done|done|rewrite Hp; apply Hmg|done|done].
Qed.

Lemma peek_receives row s w :
  let log := log_of home w (bm_rlm mgr) in
  let c := cursor s label realm in
  hosted home w → log_fits log → varnum_ok c → 0 <= c → store_ok s → hosts_get label s = Some row →
  Forall (honest mgr) (drop (Z.to_nat c) log) →
  (∀ d, d ∈ dnl_list s → dl_host d ≠ label) →
  ∃ s' w', syncPeek bagMgrs label row realm (s, w) = (Ok tt, (s', w')) ∧ w_host w' = w_host w ∧
    (∀ d, d ∈ dnl_list s' → dl_host d = label → ∃ seq m bag, msg_ok m ∧ sealed m mgr bag ∧
      log_at log seq = Some (entry_of bag) ∧ d = received label realm seq bag m) ∧
    (∀ e m bag, e ∈ drop (Z.to_nat c) log → msg_ok m → sealed m mgr bag → bag_fits bag → e = entry_of bag →
      msgs_has (head_hash m) s = true ∨
      ∃ d, d ∈ dnl_list s' ∧ dl_host d = label ∧ dl_headEncHash d = Some (head_hash m)) ∧
    st_messages s' = st_messages s.
Proof.
  intros log c Hho Hfit Hcv Hc0 Hok Hrow Hhon Hnone.
  destruct (mg_valid Hmg mgr) as [Hv Hp]; [by eapply bagMgrFor_in|].
  assert (Hcur : cursorOf row realm = c) by (by apply hosts_get_cursor).
  destruct (client_peek_ok bagMgrs clocks updateHostMeta home Hcn c realm mgr w)
    as (w' & Ep & Hw' & _); [done|apply Hv|done|done|done|]. fold log in Ep.
  destruct (syncPeek_ok bagMgrs label row realm mgr home vk (log_heads log c) s w w')
    as [s' E]; [done|apply Hcn|apply Hmg|by rewrite Hcur|].
  exists s', w'. split; [exact E|]. split; [done|].
  destruct (syncPeek_spec bagMgrs label row realm s w _ (so_dl_wf _ Hok) E)
    as (items & n1 & mgr' & idm & vk' & rs & s1 & new & Hm' & Hid & Hvk & Hnet & Hrs & P & Hst).
  rewrite Hmgr in Hm'. injection Hm' as <-. rewrite (cn_home _ _ _ _ Hcn) in Hid. injection Hid as <-.
  rewrite (mg_key Hmg) in Hvk. injection Hvk as <-. rewrite Hcur in Hnet.
  change (net_peek c realm w) with (client_peek bagMgrs clocks updateHostMeta c realm w) in Hnet.
  rewrite Ep in Hnet. injection Hnet as <- _. injection Hst as Hs' _.
  assert (Hd' : st_downloads s' = st_downloads (dnl_enq new s1)).
  { subst s'. case_match; [done|]. apply recordSeqs_rest. }
  assert (Hm' : st_messages s' = st_messages s).
  { rewrite <-(pp_messages _ _ _ _ _ _ _ P). subst s'. case_match; [done|].
    exact (proj1 (proj2 (recordSeqs_rest _ _ _ (dnl_enq new s1)))). }
  assert (Hnew : ∀ d, d ∈ new → ∃ seq m bag, msg_ok m ∧ sealed m mgr bag ∧
      log_at log seq = Some (entry_of bag) ∧ d = received label realm seq bag m).
  { intros d Hd. destruct (pp_new _ _ _ _ _ _ _ P d Hd) as (r & head & Hr & Hhd & ->).
    destruct (res_mapM_from _ _ _ _ Hrs Hr) as (item & Hitem & Hcr).
    apply log_heads_elem in Hitem as (seq & e & Hl & Hlt & ->).
    pose proof (log_at_drop _ _ _ _ Hc0 Hl Hlt) as He. rewrite Forall_forall in Hhon.
    destruct (Hhon e He) as (m & bag & Hmok & Hsl & Hf & ->).
    rewrite (peek_honest seq m bag Hsl Hf) in Hcr. injection Hcr as <-.
    exists seq, m, bag. split_and!; [done|done|done|]. cbn [pc_headEnc] in Hhd.
    rewrite head_run in Hhd by by apply sealed_head_ok. by injection Hhd as <-. }
  split_and!; [| |done].
  - intros d Hd Hl. apply Hnew. unfold dnl_list in Hd. rewrite Hd' in Hd.
    unfold map_values in Hd. apply list_elem_of_fmap in Hd as ([k d0] & -> & Hd). cbn [snd] in *.
    apply map_get_in in Hd; [|apply dnl_enq_wf, (pp_wf _ _ _ _ _ _ _ P)].
    rewrite dnl_enq_get in Hd. destruct (last _) as [d'|] eqn:El.
    + injection Hd as ->. by apply last_Some_elem_of, list_elem_of_filter in El as [_ ?].
    + exfalso. apply (Hnone d0); [|done]. apply (pp_shrinks _ _ _ _ _ _ _ P) in Hd.
      apply map_get_Some_in in Hd. unfold dnl_list, map_values. by apply (list_elem_of_fmap_2 snd) in Hd.
  - intros e m bag He Hmok Hsl Hf ->. apply drop_log_at in He as (seq & Hl & Hlt); [|done].
    assert (Hitem : mkPeekItem seq (en_headCph (entry_of bag)) ∈ log_heads log c)
      by (apply log_heads_elem; eauto).
    destruct (res_mapM_elem _ _ _ _ Hrs Hitem) as (r & Hr & Hin).
    rewrite (peek_honest seq m bag Hsl Hf) in Hr. injection Hr as <-.
    destruct (pp_cover _ _ _ _ _ _ _ P _ (head_norm (sealed_head m)) Hin) as [Hhas|[Hq|(d & Hd & Hh)]].
    + cbn. apply head_run. by apply sealed_head_ok.
    + left. exact Hhas.
    + by apply not_elem_of_nil in Hq.
    + right. exists d. destruct (Hnew d Hd) as (seq' & m' & bag' & _ & _ & _ & ->).
      split_and!; [|done|done]. unfold dnl_list, map_values. rewrite Hd'.
      assert (Hkeys : NoDup (dl_key <$> new)).
      { eapply new_keys_NoDup; [exact P|]. eapply sublist_NoDup; [|by eapply peek_results_seqs].
        apply log_heads_nodup. }
      pose proof (dnl_enq_in new s1 _ Hkeys Hd) as Hget. apply map_get_Some_in in Hget.
      by apply (list_elem_of_fmap_2 snd) in Hget.
Qed.

Lemma storedRealm_default r : default nullKDM (storedRealm r) = r.
Proof.
  unfold storedRealm. destruct (isDefaultRealm (Some r)) eqn:E; [|done].
  by apply isDefaultRealm_spec in E as ->.
Qed.

(** A received row's body opens to an archive row under the head's hash. *)
Lemma received_opens seq bag m :
  msg_ok m → sealed m mgr bag →
  open_item bagMgrs (mkPulled (received label realm seq bag m) (Some (bag_bodyCph bag))) =
    Ok (Some (head_hash m, mkParts (head_norm (sealed_head m)) (msg_bod m))).
Proof.
  intros Hm Hs. unfold open_item, resolveHeadEnc. cbn [pu_dl pu_bodyCph received download_of
    dl_headEnc dl_headEncHash dl_realm dl_kdm dl_head pc_headEnc pc_headEncHash pc_kdm].
  rewrite storedRealm_default, Hmgr. cbn [mbind Res_bind res_bind default from_option id].
  rewrite (openBagBody_sealed m mgr bag (Some (head_hash m)) Hm Hs). done.
Qed.

Context (limit : Z) (afterOpen : SM (N := World) unit).

Lemma pull_receives s w :
  let log := log_of home w (bm_rlm mgr) in
  (∀ s w', w_host w' = w_host w → ∃ s' w'', afterOpen (s, w') = (Ok tt, (s', w'')) ∧
    w_host w'' = w_host w ∧ st_downloads s' = st_downloads s ∧ grows s s') →
  hosted home w → log_fits log → store_ok s → 0 ∉ label →
  (∀ d, d ∈ dnl_list s → dl_host d = label → ∃ seq m bag, msg_ok m ∧ sealed m mgr bag ∧
    log_at log seq = Some (entry_of bag) ∧ d = received label realm seq bag m) →
  ∃ r s' w', syncPull bagMgrs label limit afterOpen (s, w) = (r, (s', w')) ∧
    (r = Ok tt ∨ r = Err NoChange) ∧ grows s s' ∧
    ∀ d h, d ∈ dnl_list s → dl_host d = label → dl_headEncHash d = Some h → msgs_has h s' = true.
Proof.
  intros log Hafter Hho Hfit Hok Hz Hrows.
  destruct (mg_valid Hmg mgr) as [Hv _]; [by eapply bagMgrFor_in|].
  assert (Hseq : ∀ seq e, log_at log seq = Some e → varnum_ok seq).
  { intros seq e He. apply varnum_ok_safe. unfold log_at in He.
    destruct (Z.ltb_spec seq 1); [done|]. apply lookup_lt_Some in He. destruct Hfit as [Hl _]. lia. }
  destruct (decide (filter (λ d, dl_host d = label) (dnl_list s) = [])) as [Hnil|Hne].
  { exists (Err NoChange), s, w. split_and!; [|by right|done|].
    - unfold syncPull. rewrite (ok_bind (rd dnl_list) _ (s, w) (dnl_list s) (s, w) eq_refl).
      by rewrite Hnil.
    - intros d h Hd Hl. exfalso. apply (not_elem_of_nil d). rewrite <-Hnil.
      by apply list_elem_of_filter. }
  destruct (syncPull_spec bagMgrs (λ w', w_host w' = w_host w) (λ r seq, r = realm ∧ varnum_ok seq)
    (λ _ seq, en_bodyCph <$> log_at log seq)) with (afterOpen := afterOpen) (label := label)
    (limit := limit) (s := s) (n := w) as (s' & w' & E & _ & D); try done.
  - intros seqs r w1 Hw1 Hne' Hask. destruct seqs as [|q0 seqs]; [done|].
    destruct (Hask q0) as [-> _]; [by left|].
    destruct (client_pull_ok bagMgrs clocks updateHostMeta home Hcn (q0 :: seqs) realm mgr w1)
      as (w2 & E & Hw2 & _); [done|apply Hv| | | |].
    + apply Forall_forall. intros q Hq. by apply Hask.
    + destruct Hho. split; by rewrite Hw1.
    + unfold log_of. by rewrite Hw1.
    + unfold log_of in E. rewrite Hw1 in E. change (sto_log (h_sto (w_host w)) pk (bm_rlm mgr)) with log in E.
      eexists _, w2. split; [exact E|]. split; [congruence|]. split.
      * intros it ([q b] & -> & Hin)%list_elem_of_fmap. cbn.
        unfold log_bodies in Hin. apply list_elem_of_omap in Hin as (q' & _ & Hq').
        destruct (log_at log q') as [e|] eqn:El; [|done]. cbn in Hq'. injection Hq' as -> <-.
        by rewrite El.
      * intros seq b Hin Hb. destruct (log_at log seq) as [e|] eqn:El; [|done]. cbn in Hb.
        injection Hb as <-. apply list_elem_of_fmap. exists (seq, en_bodyCph e). split; [done|].
        unfold log_bodies. apply list_elem_of_omap. exists seq. split; [done|]. by rewrite El.
  - intros d Hd Hl. destruct (Hrows d Hd Hl) as (seq & m & bag & _ & _ & Hat & ->).
    split; [by eexists|]. split; [apply storedRealm_default|by eapply Hseq].
  - destruct (filter (λ d, dl_host d = label) (dnl_list s)) as [|d ds] eqn:Ef; [done|]. exists d.
    assert (Hin : d ∈ d :: ds) by by left. rewrite <-Ef in Hin. by apply list_elem_of_filter in Hin as [? ?].
  - exists (Ok tt), s', w'. split_and!; [done|by left|by apply D|].
    intros d h Hd Hl Hh. destruct (Hrows d Hd Hl) as (seq & m & bag & Hm & Hs & Hat & ->).
    cbn in Hh. injection Hh as <-. eapply (dr_archived _ _ _ _ _ D).
    + by apply list_elem_of_filter.
    + cbn. by rewrite Hat.
    + by apply received_opens.
Qed.
End receiver.
End devices.
