(* ===== verification/DevicesProps.v ===== *)
(** * Queued messages reach the other device

    The composition of the sync phases, the host client, the host and its
    storage: what one device of an account pushes, another peeks, pulls, opens
    and archives. *)
From S2P Require Import Devices HostProps SyncProps.
From S2P Require Import Js.
Import Toy Mem.
#[local] Open Scope Z_scope.

Section props.
Context {C : CryptoPrims} {L : CryptoLaws C} {S H : Type} {I : IStorage S} {SP : StorageSpec S}
  {PN : IPushNotifier H}.
Context (bagMgrs : list BagManager) (home : BagManager) (vk : CryptoKey).
Abbreviation World := (World (S := S) (H := H)).

Lemma bag_entries_elem r bags e :
  e ∈ bag_entries r bags ↔ ∃ b, b ∈ bags ∧ rlm_valid (bag_rlm b) = true ∧ bag_rlm b = r ∧ e = entry_of b.
Proof.
  induction bags as [|b bags IH]; cbn [bag_entries].
  - split; [by intros ?%not_elem_of_nil|]. by intros (? & ?%not_elem_of_nil & _).
  - rewrite elem_of_app, IH. split.
    + intros [Hin|(b' & ? & ?)]; [|exists b'; split; [by right|done]].
      destruct (rlm_valid (bag_rlm b) && bool_decide (bag_rlm b = r)) eqn:E; [|by apply not_elem_of_nil in Hin].
      apply list_elem_of_singleton in Hin as ->.
      apply andb_true_iff in E as [? E%bool_decide_eq_true]. exists b. split_and!; [by left|done..].
    + intros (b' & [->|Hin]%elem_of_cons & Hv & Hr & ->); [left|right; by exists b'].
      rewrite Hv, bool_decide_true by done. by left.
Qed.

(** An item its realm's manager seals, under the nonces that may be drawn, into
    a bag that fits the wire. *)
Definition sends (nonce : bytes → Prop) (item : Ready) : Prop :=
  msg_ok (rdy_msg item) ∧ rdy_hash item = head_hash (rdy_msg item) ∧
  ∃ mgr, bagMgrFor bagMgrs (rdy_realm item) = Some mgr ∧
    ∀ nh nb, nonce nh → nonce nb → ∃ bag, sealBag (rdy_msg item) mgr nh nb = Ok bag ∧ bag_fits bag.

Context (Hmg : managed bagMgrs home vk).
Context (nonce : bytes → Prop) (Hnonce : ∀ b, nonce b → length b = 24%nat).

Lemma sends_seals item : sends nonce item → seals bagMgrs nonce (storable_bag vk) item.
Proof.
  intros (Hm & _ & mgr & Hmgr & Hs). destruct (mg_valid _ _ _ Hmg mgr) as [Hv Hp]; [by eapply bagMgrFor_in|].
  exists mgr. split; [done|]. intros nh nb Hh Hb. destruct (Hs nh nb Hh Hb) as (bag & Hbag & Hf).
  exists bag. split; [done|]. pose proof (sealBag_sealed _ _ _ _ _ (proj1 (proj1 (msg_ok_wf _) Hm)) (Hnonce _ Hh) (Hnonce _ Hb) Hbag) as Hsl.
  split; [done|]. split.
  - apply (sealed_sig_valid (rdy_msg item) mgr); [done|rewrite Hp; apply Hmg|done].
  - rewrite (sealed_rlm _ _ _ Hsl). apply Z.eqb_eq, Hv.
Qed.

(** The bags a push of [ready] put into the log of [mgr]'s realm. *)
Lemma pushed_entries ready bags mgr :
  mgr ∈ bagMgrs → Forall (sends nonce) ready →
  Forall2 (sealed_item bagMgrs nonce) ready bags →
  (∀ e, e ∈ bag_entries (bm_rlm mgr) bags → honest mgr e ∧ bytes_ok (en_headCph e) ∧ bytes_ok (en_bodyCph e)) ∧
  (∀ item, item ∈ ready → bagMgrFor bagMgrs (rdy_realm item) = Some mgr → ∃ bag,
    sealed (rdy_msg item) mgr bag ∧ bag_fits bag ∧ entry_of bag ∈ bag_entries (bm_rlm mgr) bags).
Proof.
  intros Hin Hsends Hall. rewrite Forall_forall in Hsends.
  assert (Hone : ∀ item bag, item ∈ ready → sealed_item bagMgrs nonce item bag →
    ∃ mgr', mgr' ∈ bagMgrs ∧ bagMgrFor bagMgrs (rdy_realm item) = Some mgr' ∧
      sealed (rdy_msg item) mgr' bag ∧ bag_fits bag).
  { intros item bag Hi (mgr' & nh & nb & Hm' & Hh & Hb & Hs).
    destruct (Hsends item Hi) as (Hm & _ & mgr2 & Hm2 & Hs2). rewrite Hm' in Hm2. injection Hm2 as <-.
    destruct (Hs2 nh nb Hh Hb) as (bag2 & E & Hf). rewrite Hs in E. injection E as <-.
    exists mgr'. split_and!; [by eapply bagMgrFor_in|done|exact (sealBag_sealed _ _ _ _ _ (proj1 (proj1 (msg_ok_wf _) Hm)) (Hnonce _ Hh) (Hnonce _ Hb) Hs)|done]. }
  split.
  - intros e (b & Hb & _ & Hr & ->)%bag_entries_elem.
    apply list_elem_of_lookup in Hb as [i Hi].
    destruct (Forall2_lookup_r _ _ _ _ _ Hall Hi) as (item & Hit & Hs).
    apply list_elem_of_lookup_2 in Hit.
    destruct (Hone item b Hit Hs) as (mgr' & Hin' & _ & Hsl & Hf).
    rewrite (sealed_rlm _ _ _ Hsl) in Hr. rewrite (mg_rlm _ _ _ Hmg mgr' mgr Hin' Hin Hr) in Hsl.
    split; [|split; [apply Hf|apply Hf]]. exists (rdy_msg item), b. split_and!; [by apply Hsends|done..].
  - intros item Hit Hmgr. pose proof Hit as Hit'. apply list_elem_of_lookup in Hit as [i Hi].
    destruct (Forall2_lookup_l _ _ _ _ _ Hall Hi) as (bag & Hb & Hs).
    destruct (Hone item bag Hit' Hs) as (mgr' & _ & Hm' & Hsl & Hf).
    rewrite Hmgr in Hm'. injection Hm' as <-. exists bag. split_and!; [done..|].
    apply bag_entries_elem. exists bag. split_and!; [by apply list_elem_of_lookup_2 in Hb| |by apply Hsl|done].
    rewrite (sealed_rlm _ _ _ Hsl). apply Z.eqb_eq. by apply (mg_valid _ _ _ Hmg).
Qed.
End props.

Section devices.
Context {C : CryptoPrims} {L : CryptoLaws C} {S H : Type} {I : IStorage S} {SP : StorageSpec S}
  {PN : IPushNotifier H}.
Context (bagMgrs : list BagManager) (home : BagManager) (vk : CryptoKey).
Context (Hmg : managed bagMgrs home vk).
Abbreviation World := (World (S := S) (H := H)).

(** What a host's log holds past a device's cursor is in its archive after a peek
    and a pull. *)
Lemma peek_then_pull clocks (randoms : nat → bytes) update label limit (afterOpen : SM (N := World) unit) s row realm mgr w :
  let log := log_of home w (bm_rlm mgr) in
  let c := cursor s label realm in
  connected bagMgrs clocks update home → bagMgrFor bagMgrs realm = Some mgr → hosted home w → log_fits log →
  store_ok s → hosts_get label s = Some row → 0 ∉ label → 0 <= c <= Z.of_nat (length log) →
  Forall (honest mgr) (drop (Z.to_nat c) log) → (∀ d, d ∈ dnl_list s → dl_host d ≠ label) →
  (∀ s w, ∃ s' w', afterOpen (s, w) = (Ok tt, (s', w')) ∧
    w_host w' = w_host w ∧ st_downloads s' = st_downloads s ∧ grows s s') →
  let net := client_net bagMgrs clocks randoms update in
  ∃ s1 w1 r s2 w2, syncPeek (NC := net) bagMgrs label row realm (s, w) = (Ok tt, (s1, w1)) ∧
    syncPull (NC := net) bagMgrs label limit afterOpen (s1, w1) = (r, (s2, w2)) ∧ (r = Ok tt ∨ r = Err NoChange) ∧
    ∀ m bag, entry_of bag ∈ drop (Z.to_nat c) log → msg_ok m → sealed m mgr bag → bag_fits bag → msgs_has (head_hash m) s2 = true.
Proof.
  intros log c Hc Hmgr Hho Hfit Hok Hrow Hz Hcur Hhon Hnone Haft net.
  destruct (peek_receives bagMgrs home vk Hmg clocks randoms update Hc label realm mgr Hmgr row s w)
    as (s1 & w1 & E1 & Hw1 & Hrows & Hcover & _); try done.
  { apply varnum_ok_safe. destruct Hfit. lia. } { apply Hcur. }
  assert (Hgr : grows s s1) by (by eapply syncPeek_safe).
  destruct (pull_receives bagMgrs home vk Hmg clocks randoms update Hc label realm mgr Hmgr limit afterOpen s1 w1)
    as (r & s2 & w2 & E2 & Hr & Hgr2 & Hgot); try done.
  { intros s' w' Hw'. destruct (Haft s' w') as (s'' & w'' & ? & Hsame & ? & ?).
    exists s'', w''. split_and!; [done|by rewrite Hsame|done|done]. }
  { destruct Hho; split; by rewrite Hw1. } { unfold log, log_of in *. by rewrite Hw1. } { by apply Hgr. }
  { unfold log, log_of in *. by rewrite Hw1. }
  exists s1, w1, r, s2, w2. split_and!; [exact E1|exact E2|done|]. intros m bag Hin Hm Hs Hf.
  destruct (Hcover (entry_of bag) m bag) as [Hhas|(d & Hd & Hl & Hh)]; try done.
  - by apply (gr_archive _ _ Hgr2), (gr_archive _ _ Hgr).
  - by eapply Hgot.
Qed.

(** [C3] Queued messages reach the other device.  Two devices of one account
    are connected to a host with clocks in step, and the log has room for the
    queue.  Every queued message is under the hash of its head and seals: the
    head encodes, its realm has a manager, and it has no body or one that is not
    empty (a body of no bytes seals, but does not open, see [open_sealed_bag]).
    The second device's label of the host has no NUL character.  When the first device pushes its
    queue, the phase succeeds and leaves only hashes without an archived message.
    When the other then peeks a realm and pulls, from a cursor no later than the
    log the push found, past which every bag there was sealed by a device of the
    account from such a message, with nothing queued for this host, and with a
    follow-up of the opened messages that succeeds, both phases succeed (or there
    is nothing to pull), and every message the first device had queued in that
    realm is in the other's archive, under the hash of its head, which commits to
    the body. *)
Theorem queued_messages_reach_other_device
    clocksA (randomsA : nat → bytes) updateA lA limitA sA w0
    clocksB (randomsB : nat → bytes) updateB lB limitB (afterOpen : SM (N := World) unit) sB row realm mgr :
  let ready : list Ready := omap (ready_of (realms_list sA) sA) (upl_list lA sA) in
  let log := log_of home w0 (bm_rlm mgr) in
  let c := cursor sB lB realm in
  connected bagMgrs clocksA updateA home → (∀ k, length (randomsA k) = 24%nat) →
  connected bagMgrs clocksB updateB home →
  hosted home w0 → log_fits log → Z.of_nat (length ready) <= 2 ^ 32 →
  (∀ r, Z.of_nat (length (log_of home w0 r)) + Z.of_nat (length ready) <= maxSafe - 2 ^ 32) →
  hex_queue lA sA → Forall (sends bagMgrs (λ b, ∃ k, b = randomsA k)) ready → bagMgrFor bagMgrs realm = Some mgr →
  store_ok sB → hosts_get lB sB = Some row → 0 ∉ lB → 0 <= c <= Z.of_nat (length log) →
  Forall (honest mgr) (drop (Z.to_nat c) log) → (∀ d, d ∈ dnl_list sB → dl_host d ≠ lB) →
  (∀ s w, ∃ s' w', afterOpen (s, w) = (Ok tt, (s', w')) ∧
    w_host w' = w_host w ∧ st_downloads s' = st_downloads s ∧ grows s s') →
  let netA := client_net bagMgrs clocksA randomsA updateA in
  let netB := client_net bagMgrs clocksB randomsB updateB in
  ∃ sA' w1, syncPush (NC := netA) bagMgrs lA limitA (sA, w0) = (Ok tt, (sA', w1)) ∧
    upl_list lA sA' = filter (λ h, msgs_has h sA = false) (upl_list lA sA) ∧
    ∀ w2, w_host w2 = w_host w1 → ∃ s1 w3 r s2 w4,
      syncPeek (NC := netB) bagMgrs lB row realm (sB, w2) = (Ok tt, (s1, w3)) ∧
      syncPull (NC := netB) bagMgrs lB limitB afterOpen (s1, w3) = (r, (s2, w4)) ∧
      (r = Ok tt ∨ r = Err NoChange) ∧
      ∀ item, item ∈ ready → rdy_realm item = realm → msgs_has (rdy_hash item) s2 = true.
Proof.
  intros ready log c HcA HrA HcB Hho Hfit Hcap Hroom Hx Hsends Hmgr Hok Hrow Hz Hc Hhon Hnone Haft netA netB.
  pose proof (bagMgrFor_in bagMgrs realm mgr Hmgr) as Hin.
  destruct (syncPush_accepted (NC := netA) bagMgrs limitA (length ready) (pushed_into home w0)
    (λ b, ∃ k, b = randomsA k) (storable_bag vk)) with (label := lA) (s := sA) (n := w0)
    as (sA' & w1 & bags & EA & [Hho1 Hlog1] & Hbags & Hq & _).
  - intros bs n. by apply send_nonce.
  - intros bs bags n. by apply (send_accepts bagMgrs home vk Hmg clocksA randomsA updateA HcA w0).
  - split; [done|]. intros pk' r. case_decide; by rewrite app_nil_r.
  - done.
  - eapply Forall_impl; [done|]. intros item. apply (sends_seals bagMgrs home vk Hmg). by intros ? [k ->].
  - done.
  - exists sA', w1. split; [exact EA|]. split; [done|]. intros w2 Hw2.
    destruct (pushed_entries bagMgrs home vk Hmg (λ b, ∃ k, b = randomsA k)) with (mgr := mgr)
      (ready := js_sort ready_cmp ready) (bags := bags) as [Hent Hitem];
      [by intros ? [k ->]|done|by rewrite js_sort_perm|done|].
    assert (Hlog2 : log_of home w2 (bm_rlm mgr) = log ++ bag_entries (bm_rlm mgr) bags).
    { unfold log_of. by rewrite Hw2, Hlog1, decide_True. }
    assert (Hho2 : hosted home w2) by (destruct Hho1; split; by rewrite Hw2).
    assert (Hfit2 : log_fits (log_of home w2 (bm_rlm mgr))).
    { rewrite Hlog2. destruct Hfit as [Hl Hf]. split.
      - rewrite length_app. pose proof (bag_entries_len (bm_rlm mgr) bags).
        pose proof (Forall2_length _ _ _ Hbags) as Hlen. rewrite (Permutation_length (js_sort_perm _ _)) in Hlen.
        change (length ready = length bags) in Hlen.
        specialize (Hroom (bm_rlm mgr)). fold log in Hroom. lia.
      - apply Forall_app. split; [done|]. apply Forall_forall. intros e He. by apply Hent. }
    assert (Hdrop : drop (Z.to_nat c) (log_of home w2 (bm_rlm mgr)) =
      drop (Z.to_nat c) log ++ bag_entries (bm_rlm mgr) bags).
    { rewrite Hlog2. apply drop_app_le. lia. }
    destruct (peek_then_pull clocksB randomsB updateB lB limitB afterOpen sB row realm mgr w2)
      as (s1 & w3 & r & s2 & w4 & E1 & E2 & Hr & Hgot); try done.
    { fold c. rewrite Hlog2, length_app. lia. }
    { fold c. rewrite Hdrop. apply Forall_app. split; [done|]. apply Forall_forall. intros e He. by apply Hent. }
    exists s1, w3, r, s2, w4. split_and!; [exact E1|exact E2|done|].
    intros item Hit <-. destruct (Hitem item) as (bag & Hsl & Hf & He); [by rewrite js_sort_perm|done|].
    rewrite Forall_forall in Hsends. destruct (Hsends item Hit) as (Hm & -> & _).
    apply (Hgot _ bag); [|done..]. fold c. rewrite Hdrop. apply elem_of_app. by right.
Qed.
End devices.

(** ** Two concrete devices *)

Module Pair.
Definition clock0 (_ : nat) : Readings :=
  mkReadings (Some Demo.ts0) (Some Demo.ts0) (Some Demo.ts0) (Some Demo.ts0) (Some Demo.ts0) (Some Demo.ts0).
Definition random0 (_ : nat) : bytes := Demo.nonce0.
Definition kept (_ : IHostMetadata) : Status := Success.
Definition world0 : Client.World (S := MemStorage) (H := CallbackNotifier) := mkWorld Demo.host0 0 0 [].
Definition vk0 : bytes := bm_publicKey toy_mgr.
Definition skip : SM (N := Client.World (S := MemStorage) (H := CallbackNotifier)) unit := mret tt.

Lemma ts0_ok : date_ok (Some Demo.ts0).
Proof. exists Demo.ts0. split; [done|]. split; vm_compute; discriminate. Qed.

Lemma connected0 : connected Peer.mgrs clock0 kept toy_mgr.
Proof.
  split; [done|exact toy_mgr_valid|by eexists| |done].
  intros k. pose proof ts0_ok. exists Demo.ts0, Demo.ts0. split_and!; try done.
Qed.

Lemma managed0 : managed (C := toy) Peer.mgrs toy_mgr vk0.
Proof.
  split; [done| |].
  - intros m ->%list_elem_of_singleton. split; [exact toy_mgr_valid|done].
  - by intros m m' ->%list_elem_of_singleton ->%list_elem_of_singleton.
Qed.

(** The queued message, as [syncPush] finds it. *)
Definition item0 : Ready := Eval vm_compute in
  match omap (ready_of (realms_list Peer.outbox) Peer.outbox) (upl_list Peer.host Peer.outbox) with
  | i :: _ => i
  | [] => mkReady [] nullKDM Demo.msg0
  end.

Lemma ready0 : omap (ready_of (realms_list Peer.outbox) Peer.outbox) (upl_list Peer.host Peer.outbox) = [item0].
Proof. vm_compute. reflexivity. Qed.

Lemma sends0 : sends Peer.mgrs (λ b, ∃ k, b = random0 k) item0.
Proof.
  split; [|split].
  - split; [by apply (bool_decide_unpack _)|]. split; [vm_compute; reflexivity|].
    split; [vm_compute; reflexivity|].
    split; [exists 0; split; [reflexivity|by apply varnum_ok_len]|].
    split; [by apply varnum_ok_len|]. split; [vm_compute; reflexivity|].
    split; vm_compute; reflexivity.
  - vm_compute. reflexivity.
  - exists toy_mgr. split; [reflexivity|]. intros nh nb [k ->] [k' ->].
    eexists. split; [vm_compute; reflexivity|]. split; [|vm_compute; reflexivity].
    split_and!; vm_compute; reflexivity.
Qed.
End Pair.
Import Pair.

Lemma queued_messages_reach_other_device_witness :
  let netA := client_net Peer.mgrs clock0 random0 kept in
  ∃ sA' w1, syncPush (NC := netA) Peer.mgrs Peer.host 100 (Peer.outbox, world0) = (Ok tt, (sA', w1)) ∧
    ∃ s1 w3 r s2 w4,
      syncPeek (NC := netA) Peer.mgrs Peer.host Peer.row0 nullKDM (Peer.empty, w1) = (Ok tt, (s1, w3)) ∧
      syncPull (NC := netA) Peer.mgrs Peer.host 100 skip (s1, w3) = (r, (s2, w4)) ∧
      msgs_has Peer.key1 s2 = true.
Proof.
  intros netA.
  destruct (queued_messages_reach_other_device (L := toy_laws) Peer.mgrs toy_mgr vk0 managed0
    clock0 random0 kept Peer.host 100 Peer.outbox world0
    clock0 random0 kept Peer.host 100 skip Peer.empty Peer.row0 nullKDM toy_mgr)
    as (sA' & w1 & EA & _ & HB).
  - exact connected0.
  - done.
  - exact connected0.
  - split; [exact Demo.sto0_wf|vm_compute; reflexivity].
  - split; [vm_compute; discriminate|constructor].
  - rewrite ready0. done.
  - intros r. rewrite ready0. vm_compute. discriminate.
  - intros set Hset x Hx. vm_compute in Hset. injection Hset as <-.
    exists (match htob x with Ok h => h | _ => [] end).
    revert x Hx. apply Forall_forall. by apply (bool_decide_unpack _).
  - rewrite ready0. constructor; [exact sends0|constructor].
  - reflexivity.
  - exact Peer.empty_ok.
  - reflexivity.
  - by apply (bool_decide_unpack _).
  - split; vm_compute; discriminate.
  - constructor.
  - by intros d ?%not_elem_of_nil.
  - intros s w. exists s, w. split_and!; [done|done|done|reflexivity].
  - exists sA', w1. split; [exact EA|].
    destruct (HB w1 eq_refl) as (s1 & w3 & r & s2 & w4 & E1 & E2 & _ & Hall).
    exists s1, w3, r, s2, w4. split; [exact E1|]. split; [exact E2|].
    apply (Hall item0); [|reflexivity]. rewrite ready0. by left.
Defined.
