(* ===== verification/Exim.v ===== *)
(** * Export files ([shared/crypto/{exim,export}.ts])

    An export file holds messages of several realms: a signed directory, then
    per realm a head section and the body ciphertexts.  The file key is a child
    of the master seed; realm keys are children of the file key. *)
From S2P Require Export Bag.
From S2P Require Import Js.

Record IExportMsg := mkExMsg { xm_head : IMessageHead; xm_body : option bytes }.
Record IExportRealm := mkExRealm { xr_realm : IKDM; xr_msgs : list IExportMsg }.

Section exim.
Context {C : CryptoPrims}.

(** ** Keys ([export.ts]) *)

Definition bagmanForExport (key : bytes) (realmKDM : IKDM) : Res BagManager :=
  idnt ← deriveKey key PIdentity (StructKDM nullKDM);
  realm ← deriveKey key PRealmKey (StructKDM realmKDM);
  rid ← deriveKey key PRealmID (StructKDM realmKDM);
  rlm ← deriveHostRLM rid nullKDM;
  bm_init idnt realm rlm nullKDM realmKDM.

(** The managers derived so far. *)
Definition mgr_cache : Type := list (IKDM * BagManager).

Definition realmBagMgrs (key : bytes) (realm : IKDM) (cache : mgr_cache) : Res (BagManager * mgr_cache) :=
  match list_find (λ row, kdmEq row.1 realm = true) cache with
  | Some (_, row) => Ok (row.2, cache)
  | None =>
      bagMgr ← bagmanForExport key realm;
      Ok (bagMgr, cache ++ [(realm, bagMgr)])
  end.

(** ** Sealing

    State: the file's encoder and how many nonces were drawn. *)
Context (nonces : nat → bytes).

Abbreviation SealM := (M (Encoder * nat)).
Definition on_file {A} (m : EncM A) : SealM A := λ '(e, k), let '(r, e) := m e in (r, (e, k)).
Definition draw : SealM bytes := λ '(e, k), (Ok (nonces k), (e, S k)).

(** 24-byte nonce and 16-byte tag. *)
Definition boxOver : Z := 24 + 16.

Definition no_body (msg : IExportMsg) : bool :=
  negb (bool_decide (is_Some (xm_body msg))) || (mh_len (xm_head msg) <=? 0) ||
  negb (bool_decide (is_Some (mh_hsh (xm_head msg)))).

Definition boxedLen (msg : IExportMsg) : Z :=
  if no_body msg then 0 else blen (default [] (xm_body msg)) + boxOver.

(** The head section, written apart, and the key of each bag. *)
Fixpoint seal_heads (bagMgr : BagManager) (msgs : list IExportMsg) (heads : bytes) (kdms : list bytes)
    : SealM (bytes * list bytes) :=
  match msgs with
  | [] => mret (heads, kdms)
  | msg :: msgs =>
      headEnc ← m_lift (run_enc (writeStruct messageHeadCodec (xm_head msg)));
      kdm ← m_lift (bm_bagKDM bagMgr headEnc);
      n ← draw;
      headCph ← m_lift (bm_encrypt bagMgr n kdm headEnc);
      item ← m_lift (run_enc (writeStruct fileIndexItemCodec (mkFileIndexItem kdm headCph (boxedLen msg))));
      seal_heads bagMgr msgs (heads ++ item) (kdms ++ [kdm])
  end.

Fixpoint seal_bodies (bagMgr : BagManager) (msgs : list (IExportMsg * bytes)) : SealM unit :=
  match msgs with
  | [] => mret tt
  | (msg, kdm) :: msgs =>
      if no_body msg then seal_bodies bagMgr msgs
      else
        n ← draw;
        cph ← m_lift (bm_encrypt bagMgr n kdm (default [] (xm_body msg)));
        _ ← on_file (writeBytes cph);
        seal_bodies bagMgr msgs
  end.

(** Returns the head section. *)
Definition sealChunk (part : IExportRealm) (bagMgr : BagManager) : SealM bytes :=
  if Nat.ltb (length (xr_msgs part)) 1 then m_err InvalidMessage
  else
    '(heads, kdms) ← seal_heads bagMgr (xr_msgs part) [] [];
    _ ← on_file (writeBytes heads);
    _ ← seal_bodies bagMgr (zip (xr_msgs part) kdms);
    mret heads.

Fixpoint seal_realms (key : bytes) (realms : list IExportRealm) (cache : mgr_cache) (dir : list IFileRealm)
    : SealM (list IFileRealm) :=
  match realms with
  | [] => mret dir
  | part :: realms =>
      if Nat.ltb (length (xr_msgs part)) 1 then m_err InvalidMessage
      else
        '(bagMgr, cache) ← m_lift (realmBagMgrs key (xr_realm part) cache);
        heads ← sealChunk part bagMgr;
        seal_realms key realms cache
          (dir ++ [mkFileRealm (xr_realm part) (Z.of_nat (length (xr_msgs part))) (blake3hash heads)])
  end.

Definition encode_file (realms : list IExportRealm) (key nonce : bytes) : SealM unit :=
  if negb (blen nonce =? hashBytes) then m_err InvalidParam
  else
    '(signer, cache) ← m_lift (realmBagMgrs key nullKDM []);
    dir ← seal_realms key realms cache [];
    pre ← m_lift (fileHeadPreimage nonce dir);
    let hsh := blake3hash pre in
    sig ← m_lift (bm_sign signer hsh);
    encHead ← m_lift (run_enc (writeStruct fileHeadCodec (mkFileHead nonce dir hsh sig)));
    on_file (prependBytes encHead).

Definition encodeFile (realms : list IExportRealm) (key nonce : bytes) : Res bytes :=
  match encode_file realms key nonce (newEncoder, 0%nat) with
  | (Ok _, (e, _)) => Ok (enc_result e)
  | (Err st, _) => Err st
  | (Throw, _) => Throw
  end.

(** ** Opening *)

Definition exportNonce (file : bytes) : Res bytes :=
  head ← run_dec (cDecode fileHeadCodec) file;
  Ok (fh_nonce head).

Definition open_msg (bagMgr : BagManager) (item : IFileIndexItem) : DecM IExportMsg :=
  headEnc ← m_lift (bm_decrypt bagMgr (fi_kdm item) (fi_headCph item));
  msgHead ← m_lift (run_dec (cDecode messageHeadCodec) headEnc);
  if fi_lenBody item <? 0 then m_err InvalidMessage
  else if fi_lenBody item =? 0 then mret (mkExMsg msgHead None)
  else
    match mh_hsh msgHead with
    | None => m_err InvalidMessage
    | Some hsh =>
        cph ← readBytes (fi_lenBody item);
        bod ← m_lift (bm_decrypt bagMgr (fi_kdm item) cph);
        if negb (bytesEqual (blake3hash bod) hsh) then m_err HashMismatch
        else mret (mkExMsg msgHead (Some bod))
    end.

Fixpoint open_msgs (bagMgr : BagManager) (items : list IFileIndexItem) : DecM (list IExportMsg) :=
  match items with
  | [] => mret []
  | item :: items => m ← open_msg bagMgr item; ms ← open_msgs bagMgr items; mret (m :: ms)
  end.

Definition openChunk (chunks : bytes) (row : IFileRealm) (bagMgr : BagManager) : DecM (list IExportMsg) :=
  d0 ← m_get;
  items ← m_times (Z.to_nat (fr_num row)) (readStruct fileIndexItemCodec);
  d1 ← m_get;
  if negb (bytesEqual (blake3hash (slice chunks (pos d0) (pos d1))) (fr_hsh row)) then m_err HashMismatch
  else open_msgs bagMgr items.

Fixpoint open_realms (key chunks : bytes) (rows : list IFileRealm) (cache : mgr_cache)
    : DecM (list IExportRealm) :=
  match rows with
  | [] => mret []
  | row :: rows =>
      '(bagMgr, cache) ← m_lift (realmBagMgrs key (fr_realm row) cache);
      msgs ← openChunk chunks row bagMgr;
      rest ← open_realms key chunks rows cache;
      mret (mkExRealm (fr_realm row) msgs :: rest)
  end.

Definition decodeFile (file key : bytes) : Res (list IExportRealm) :=
  fileStruct ← run_dec (cDecode fileCodec) file;
  let head := file_head fileStruct in
  let chunks := file_chunks fileStruct in
  '(signer, cache) ← realmBagMgrs key nullKDM [];
  verifyKey ← catching CryptoError (importVerifyKey (bm_publicKey signer));
  if negb (checkSigEd25519 (fh_sig head) (fh_hsh head) verifyKey) then Err InvalidSignature
  else
    pre ← fileHeadPreimage (fh_nonce head) (fh_realms head);
    if negb (bytesEqual (blake3hash pre) (fh_hsh head)) then Err HashMismatch
    else run_dec (realms ← open_realms key chunks (fh_realms head) cache;
                  d ← m_get;
                  if negb (dec_done d) then m_err InvalidMessage else mret realms) chunks.

Definition migrateFile (file keyIn keyOut nonce : bytes)
    (transform : list IExportRealm → list IExportRealm) : Res bytes :=
  realms ← decodeFile file keyIn;
  encodeFile (transform realms) keyOut nonce.
End exim.

(** * What an export file holds, piece by piece

    A sealed realm is a head section and bodies that open again under the
    realm's manager; the managers do not depend on what was derived before. *)

(** XSalsa20-Poly1305 adds a 16-byte tag. *)
Class BoxLaw (C : CryptoPrims) : Prop :=
  salsa_seal_len key nonce txt cph : salsa_seal key nonce txt = Ok cph → blen cph = blen txt + 16.

Section facts.
Context {C : CryptoPrims} {L : CryptoLaws C} {BX : BoxLaw C} (nonces : nat → bytes).
Context (Hnonces : ∀ k, length (nonces k) = 24%nat).

(** ** Managers *)

Lemma kdmEq_spec a b : kdmEq a b = true ↔ a = b.
Proof.
  unfold kdmEq. rewrite andb_true_iff, Z.eqb_eq, bool_decide_eq_true.
  destruct a, b; cbn. split; [by intros [-> ->]|by intros [= -> ->]].
Qed.

Definition cache_ok (key : bytes) (cache : mgr_cache) : Prop :=
  Forall (λ row, bagmanForExport key row.1 = Ok row.2) cache.

(** The cache is invisible: a resolved manager is the derived one. *)
Lemma realmBagMgrs_derives key realm cache :
  cache_ok key cache →
  match realmBagMgrs key realm cache with
  | Ok (m, cache') => bagmanForExport key realm = Ok m ∧ cache_ok key cache'
  | Err st => bagmanForExport key realm = Err st
  | Throw => bagmanForExport key realm = Throw
  end.
Proof.
  intros Hc. unfold realmBagMgrs. destruct (list_find _ cache) as [[i row]|] eqn:E.
  - apply list_find_Some in E as (Hi & He & _). apply kdmEq_spec in He. split; [|done].
    rewrite <-He. by apply (Forall_lookup_1 _ _ _ _ Hc Hi).
  - destruct (bagmanForExport key realm) as [m| |] eqn:Em; cbn; try done.
    split; [done|]. apply Forall_app. split; [done|]. by apply Forall_singleton.
Qed.

Lemma bagmanForExport_valid key realm m :
  bagmanForExport key realm = Ok m → bm_valid m ∧ bm_realmKDM m = realm.
Proof.
  unfold bagmanForExport. intros (idnt & Hi & H)%res_bind_Ok_inv.
  apply res_bind_Ok_inv in H as (rk & Hr & H). apply res_bind_Ok_inv in H as (rid & Hrid & H).
  apply res_bind_Ok_inv in H as (rlm & Hl & H).
  apply deriveKey_len in Hi. apply deriveKey_len in Hl. pose proof H as Hm.
  unfold bm_init in H. apply catching_Ok in H. apply res_bind_Ok_inv in H as (keys & _ & [= <-]).
  by unfold bm_valid.
Qed.

(** ** One message *)

Definition exportable (m : IExportMsg) : Prop :=
  head_ok (xm_head m) ∧ blen (head_wire (xm_head m)) + boxOver < 2 ^ 32 ∧
  match xm_body m with
  | Some b => 0 < blen b ∧ blen b + boxOver < 2 ^ 32 ∧ mh_len (xm_head m) = blen b ∧
      mh_hsh (xm_head m) = Some (blake3hash b)
  | None => True
  end.

(** The message as the importer sees it. *)
Definition exported (m : IExportMsg) : IExportMsg := mkExMsg (head_norm (xm_head m)) (xm_body m).

Lemma exportable_body m : exportable m → no_body m = negb (bool_decide (is_Some (xm_body m))).
Proof.
  intros (_ & _ & H). unfold no_body. destruct (xm_body m) as [b|]; cbn; [|done].
  destruct H as (H1 & _ & H3 & H4). rewrite H3, H4. cbn. by rewrite (proj2 (Z.leb_gt _ _)).
Qed.

Lemma bm_encrypt_len mgr n kdm data cph :
  length n = 24%nat → bm_encrypt mgr n kdm data = Ok cph → blen cph = blen data + boxOver.
Proof.
  intros Hn (key & _ & He%catching_Ok)%res_bind_Ok_inv.
  apply res_bind_Ok_inv in He as (ct & Hs & [= <-]). apply salsa_seal_len in Hs.
  rewrite blen_app, Hs. unfold boxOver, blen. rewrite Hn. lia.
Qed.

Record boxed_head (mgr : BagManager) (m : IExportMsg) (item : IFileIndexItem) : Prop := {
  bx_ok : fileIndexItem_ok item;
  bx_head : bm_decrypt mgr (fi_kdm item) (fi_headCph item) = Ok (head_wire (xm_head m));
  bx_len : fi_lenBody item = boxedLen m;
}.

Definition boxed_body (mgr : BagManager) (m : IExportMsg) (kdm body : bytes) : Prop :=
  match xm_body m with
  | Some b => bm_decrypt mgr kdm body = Ok b ∧ blen body = boxedLen m
  | None => body = []
  end.

Lemma boxedLen_range m : exportable m → 0 <= boxedLen m < 2 ^ 32.
Proof.
  intros Hm. unfold boxedLen. rewrite exportable_body by done. destruct Hm as (_ & _ & H).
  destruct (xm_body m) as [b|]; cbn; [|lia]. unfold boxOver in *. pose proof (blen_nonneg b). lia.
Qed.

(** ** The head section *)

Lemma seal_heads_spec mgr msgs heads kdms st r st' :
  Forall exportable msgs →
  seal_heads nonces mgr msgs heads kdms st = (Ok r, st') →
  ∃ items, r = (heads ++ concat (fileIndexItem_wire <$> items), kdms ++ (fi_kdm <$> items)) ∧
    Forall2 (boxed_head mgr) msgs items ∧ st'.1 = st.1.
Proof.
  intros Hm. revert heads kdms st. induction Hm as [|m msgs Hm _ IH]; intros heads kdms [e k]; cbn [seal_heads].
  { intros [= <- <-]. exists []. cbn. by rewrite !app_nil_r. }
  intros H. unfold m_lift, mbind, M_bind, m_bind in H.
  change (writeStruct messageHeadCodec (xm_head m)) with (cEncode messageHeadCodec (xm_head m)) in H.
  rewrite head_run_enc in H by apply Hm.
  destruct (bm_bagKDM mgr (head_wire (xm_head m))) as [kdm| |] eqn:Ek; [|done..].
  cbn [draw] in H.
  destruct (bm_encrypt mgr (nonces k) kdm (head_wire (xm_head m))) as [headCph| |] eqn:Ec; [|done..].
  set (item := mkFileIndexItem kdm headCph (boxedLen m)) in *.
  assert (Hok : fileIndexItem_ok item).
  { unfold fileIndexItem_ok. cbn [fi_kdm fi_headCph fi_lenBody item]. split_and!.
    - by eapply bm_bagKDM_len.
    - unfold bytes_ok. rewrite (bm_encrypt_len _ _ _ _ _ (Hnonces k) Ec). apply Hm.
    - apply varnum_ok_len. by apply boxedLen_range. }
  assert (Hw : run_enc (writeStruct fileIndexItemCodec item) = Ok (fileIndexItem_wire item))
    by (apply encodes_run, (lawful_enc (ok := fileIndexItem_ok)), Hok).
  rewrite Hw in H. apply IH in H as (items & -> & Hall & Hst). exists (item :: items). split_and!.
  - cbn [fmap list_fmap concat]. by rewrite <-!(assoc_L app).
  - constructor; [|done]. split; [done| |done]. by apply (bm_decrypt_encrypt _ _ _ _ _ (Hnonces k)).
  - done.
Qed.

Lemma seal_bodies_spec mgr msgs items st st' :
  Forall exportable msgs → Forall2 (boxed_head mgr) msgs items →
  seal_bodies nonces mgr (zip msgs (fi_kdm <$> items)) st = (Ok tt, st') →
  ∃ bodies, enc_result st'.1 = enc_result st.1 ++ concat bodies ∧
    Forall2 (λ mi body, boxed_body mgr mi.1 (fi_kdm mi.2) body) (zip msgs items) bodies.
Proof.
  intros Hm Hall. revert Hm st. induction Hall as [|m item msgs items Hb _ IH]; intros Hm [e k].
  { intros [= <-]. exists []. cbn. by rewrite app_nil_r. }
  apply Forall_cons in Hm as [Hm Hms]. cbn [zip fmap list_fmap seal_bodies]. rewrite exportable_body by done.
  intros H. destruct (xm_body m) as [b|] eqn:Eb.
  - rewrite bool_decide_true in H by eauto. cbn [negb] in H.
    unfold m_lift, mbind, M_bind, m_bind in H. cbn [draw default from_option id] in H.
    destruct (bm_encrypt mgr (nonces k) (fi_kdm item) b) as [cph| |] eqn:Ec; [|done..].
    cbn [on_file] in H. unfold writeBytes, push_part in H.
    apply IH in H as (bodies & He & Hbod); [|done]. exists (cph :: bodies). split.
    + rewrite He. unfold enc_result. cbn. rewrite concat_app. cbn. by rewrite app_nil_r, <-(assoc_L app).
    + constructor; [|done]. unfold boxed_body. cbn [fst snd]. rewrite Eb. split.
      * by apply (bm_decrypt_encrypt _ _ _ _ _ (Hnonces k)).
      * rewrite (bm_encrypt_len _ _ _ _ _ (Hnonces k) Ec). unfold boxedLen.
        rewrite exportable_body by done. by rewrite Eb.
  - rewrite bool_decide_false in H by (by intros [? [=]]). cbn [negb] in H.
    apply IH in H as (bodies & He & Hbod); [|done]. exists ([] :: bodies). split; [done|].
    constructor; [|done]. unfold boxed_body. cbn. by rewrite Eb.
Qed.

(** One sealed realm: the head section and what follows. *)
Record sealed_chunk (mgr : BagManager) (msgs : list IExportMsg) (heads chunk : bytes) : Prop := {
  sc_parts : ∃ items bodies, heads = concat (fileIndexItem_wire <$> items) ∧
    chunk = heads ++ concat bodies ∧ Forall2 (boxed_head mgr) msgs items ∧
    Forall2 (λ mi body, boxed_body mgr mi.1 (fi_kdm mi.2) body) (zip msgs items) bodies;
  sc_msgs : Forall exportable msgs;
  sc_some : (0 < length msgs)%nat;
}.

Lemma sealChunk_spec part mgr st heads st' :
  Forall exportable (xr_msgs part) →
  sealChunk nonces part mgr st = (Ok heads, st') →
  ∃ chunk, enc_result st'.1 = enc_result st.1 ++ chunk ∧ sealed_chunk mgr (xr_msgs part) heads chunk.
Proof.
  intros Hm. unfold sealChunk. destruct (Nat.ltb_spec (length (xr_msgs part)) 1); [done|].
  unfold mbind at 1, M_bind, m_bind at 1.
  destruct (seal_heads nonces mgr (xr_msgs part) [] [] st) as [[[hs kdms]| |] st1] eqn:E1; [|done..].
  apply seal_heads_spec in E1 as (items & [= -> ->] & Hall & Hst1); [|done]. cbn [app].
  destruct st1 as [e1 k1]. cbn in Hst1. subst e1.
  unfold mbind at 1, M_bind, m_bind at 1. cbn [on_file]. unfold writeBytes, push_part.
  set (heads' := concat _). unfold mbind, M_bind, m_bind.
  destruct (seal_bodies _ _ _ _) as [[[]| |] st2] eqn:E2; [|done..]. intros [= <- <-].
  eapply seal_bodies_spec in E2 as (bodies & He & Hb); [|done|done].
  exists (heads' ++ concat bodies). split.
  - rewrite He. unfold enc_result. cbn. rewrite concat_app. cbn. by rewrite app_nil_r, <-(assoc_L app).
  - split; [|done|lia]. exists items, bodies. done.
Qed.

(** ** Opening a sealed realm *)

Lemma decodes_lift_bind {A B} (r : Res A) (k : A → DecM B) a bs b :
  r = Ok a → decodes (k a) bs b → decodes (m_lift r ≫= k) bs b.
Proof. intros -> H pre rest. exact (H pre rest). Qed.

Lemma open_msg_decodes mgr m item body :
  exportable m → boxed_head mgr m item → boxed_body mgr m (fi_kdm item) body →
  decodes (open_msg mgr item) body (exported m).
Proof.
  intros Hm [Hok Hh Hl] Hb. unfold open_msg. eapply decodes_lift_bind; [exact Hh|].
  eapply decodes_lift_bind; [apply head_run, Hm|]. cbv beta. rewrite Hl.
  pose proof (boxedLen_range m Hm) as Hr. rewrite (proj2 (Z.ltb_ge _ _)) by lia.
  unfold boxed_body in Hb. destruct (Hm) as (_ & _ & Hbody). unfold exported.
  assert (Hlen : boxedLen m = match xm_body m with Some b => blen b + boxOver | None => 0 end).
  { unfold boxedLen. rewrite exportable_body by done. by destruct (xm_body m). }
  destruct (xm_body m) as [b|].
  - destruct Hb as [Hd Hlb], Hbody as (Hpos & _ & _ & Hhsh).
    rewrite (proj2 (Z.eqb_neq _ _)) by (rewrite Hlen; unfold boxOver; lia).
    assert (Hn : mh_hsh (head_norm (xm_head m)) = Some (blake3hash b)) by done. rewrite Hn.
    rewrite <-(app_nil_r body). eapply decodes_bind; [by apply decodes_readBytes|].
    eapply decodes_lift_bind; [exact Hd|]. cbv beta. rewrite bytesEqual_refl. apply decodes_ret.
  - rewrite Hlen, Hb. apply decodes_ret.
Qed.

Lemma open_msgs_decodes mgr msgs items bodies :
  Forall exportable msgs → Forall2 (boxed_head mgr) msgs items →
  Forall2 (λ mi body, boxed_body mgr mi.1 (fi_kdm mi.2) body) (zip msgs items) bodies →
  decodes (open_msgs mgr items) (concat bodies) (exported <$> msgs).
Proof.
  intros Hm Hh. revert bodies Hm. induction Hh as [|m item msgs items Hb _ IH]; intros bodies Hm Hbod.
  { inversion Hbod. apply decodes_ret. }
  apply Forall_cons in Hm as [Hm Hms]. cbn [zip] in Hbod.
  apply Forall2_cons_inv_l in Hbod as (body & bodies' & Hbd & Hbods & ->).
  cbn [open_msgs fmap list_fmap concat]. eapply decodes_bind; [by apply open_msg_decodes|].
  apply (decodes_bind_last _ (λ ms, exported m :: ms)). by apply IH.
Qed.

(** At its place in the chunks of the file. *)
Lemma openChunk_run mgr msgs heads chunk realm pre rest :
  sealed_chunk mgr msgs heads chunk → Z.of_nat (length msgs) < 2 ^ 32 →
  let chunks := pre ++ chunk ++ rest in
  openChunk chunks (mkFileRealm realm (Z.of_nat (length msgs)) (blake3hash heads)) mgr (mkDec chunks (blen pre)) =
    (Ok (exported <$> msgs), mkDec chunks (blen (pre ++ chunk))).
Proof.
  intros [(items & bodies & -> & -> & Hh & Hb) Hm _] _. cbv zeta. unfold openChunk.
  cbn [fr_num fr_hsh]. rewrite Nat2Z.id, (Forall2_length _ _ _ Hh).
  set (hw := concat (fileIndexItem_wire <$> items)). set (bw := concat bodies).
  set (chunks := pre ++ (hw ++ bw) ++ rest).
  assert (Hitems : m_times (length items) (readStruct fileIndexItemCodec) (mkDec chunks (blen pre)) =
    (Ok items, mkDec chunks (blen (pre ++ hw)))).
  { assert (Hd : decodes (m_times (length items) (cDecode fileIndexItemCodec)) hw items).
    { apply decodes_times. unfold hw. clear -Hh. induction Hh as [|m0 it ms0 its Hb _ IH]; [constructor|].
      constructor; [|done]. apply (lawful_dec (norm := id)), Hb. }
    specialize (Hd pre (bw ++ rest)). unfold chunks. rewrite <-(assoc_L app), blen_app. exact Hd. }
  unfold mbind at 1, M_bind, m_bind at 1, m_get at 1. cbn [pos].
  unfold mbind at 1, M_bind, m_bind at 1. rewrite Hitems.
  unfold mbind at 1, M_bind, m_bind at 1, m_get at 1. cbn [pos].
  assert (Hs : slice chunks (blen pre) (blen (pre ++ hw)) = hw).
  { unfold chunks. rewrite <-(assoc_L app hw), blen_app. apply slice_app. }
  rewrite Hs, bytesEqual_refl. cbn [negb].
  pose proof (open_msgs_decodes mgr msgs items bodies Hm Hh Hb (pre ++ hw) rest) as Ho.
  fold bw in Ho. unfold chunks. rewrite !(assoc_L app) in *.
  rewrite (blen_app (pre ++ hw) bw). exact Ho.
Qed.

(** ** All realms *)

(** A realm of the export, its directory row and its part of the chunks. *)
Definition sealed_realm (key : bytes) (part : IExportRealm) (row : IFileRealm) (chunk : bytes) : Prop :=
  ∃ mgr heads, bagmanForExport key (xr_realm part) = Ok mgr ∧
    row = mkFileRealm (xr_realm part) (Z.of_nat (length (xr_msgs part))) (blake3hash heads) ∧
    sealed_chunk mgr (xr_msgs part) heads chunk.

Definition realm_ok (part : IExportRealm) : Prop :=
  kdm_ok (xr_realm part) ∧ Forall exportable (xr_msgs part) ∧ Z.of_nat (length (xr_msgs part)) < 2 ^ 32.

Lemma seal_realms_spec key realms cache dir st r st' :
  cache_ok key cache → Forall realm_ok realms →
  seal_realms nonces key realms cache dir st = (Ok r, st') →
  ∃ rows chunks, r = dir ++ rows ∧ enc_result st'.1 = enc_result st.1 ++ concat chunks ∧
    Forall2 (λ pr chunk, sealed_realm key pr.1 pr.2 chunk) (zip realms rows) chunks ∧
    length rows = length realms.
Proof.
  intros Hc Hr. revert cache Hc dir st. induction Hr as [|part realms Hp _ IH]; intros cache Hc dir st; cbn [seal_realms].
  { intros [= <- <-]. exists [], []. cbn. by rewrite !app_nil_r. }
  destruct (Nat.ltb (length (xr_msgs part)) 1); [done|].
  unfold mbind at 1, M_bind, m_bind at 1, m_lift at 1.
  pose proof (realmBagMgrs_derives key (xr_realm part) cache Hc) as Hmg.
  destruct (realmBagMgrs key (xr_realm part) cache) as [[mgr cache']| |]; [|done..].
  destruct Hmg as [Hmgr Hc'].
  unfold mbind at 1, M_bind, m_bind at 1. destruct (sealChunk nonces part mgr st) as [[heads| |] st1] eqn:E1; [|done..].
  apply sealChunk_spec in E1 as (chunk & He & Hsc); [|apply Hp].
  intros (rows & chunks & -> & He2 & Hall & Hlen)%IH; [|done].
  set (row := mkFileRealm (xr_realm part) (Z.of_nat (length (xr_msgs part))) (blake3hash heads)).
  exists (row :: rows), (chunk :: chunks). split_and!.
  - by rewrite <-(assoc_L app).
  - rewrite He2, He. cbn. by rewrite <-(assoc_L app).
  - cbn [zip]. constructor; [|done]. exists mgr, heads. done.
  - cbn. lia.
Qed.

Lemma open_realms_run key realms rows cache parts pre :
  cache_ok key cache → Forall realm_ok realms → length rows = length realms →
  Forall2 (λ pr chunk, sealed_realm key pr.1 pr.2 chunk) (zip realms rows) parts →
  let chunks := pre ++ concat parts in
  open_realms key chunks rows cache (mkDec chunks (blen pre)) =
    (Ok ((λ p, mkExRealm (xr_realm p) (exported <$> xr_msgs p)) <$> realms), mkDec chunks (blen chunks)).
Proof.
  intros Hc Hr. revert rows cache parts pre Hc. induction Hr as [|part realms Hp _ IH];
    intros [|row rows] cache parts pre Hc Hlen Hall; cbn in Hlen; try lia; cbn [zip] in Hall; cbv zeta.
  { inversion Hall. cbn. by rewrite app_nil_r. }
  apply Forall2_cons_inv_l in Hall as (chunk & parts' & (mgr & heads & Hmgr & Hrow & Hsc) & Hall & ->).
  cbn [fst snd] in *. subst row. cbn [open_realms fr_realm concat].
  unfold mbind at 1, M_bind, m_bind at 1, m_lift at 1.
  pose proof (realmBagMgrs_derives key (xr_realm part) cache Hc) as Hmg.
  destruct (realmBagMgrs key (xr_realm part) cache) as [[mgr' cache']| |]; [|congruence..].
  destruct Hmg as [Hmgr' Hc']. assert (mgr' = mgr) as -> by congruence.
  pose proof (openChunk_run mgr (xr_msgs part) heads chunk (xr_realm part) pre (concat parts') Hsc) as Ho.
  unfold mbind at 1, M_bind, m_bind at 1. rewrite Ho by apply Hp.
  unfold mbind at 1, M_bind, m_bind at 1.
  specialize (IH rows cache' parts' (pre ++ chunk) Hc' ltac:(lia) Hall). cbv zeta in IH.
  rewrite <-!(assoc_L app) in IH. rewrite IH. done.
Qed.
End facts.
