(* ===== verification/EximProps.v ===== *)
(** * Export files round-trip and are authenticated *)
From S2P Require Export Exim.

Section props.
Context {C : CryptoPrims} {L : CryptoLaws C} {BX : BoxLaw C}.

Definition exported_realm (p : IExportRealm) : IExportRealm :=
  mkExRealm (xr_realm p) (exported <$> xr_msgs p).

Lemma sealed_realms_ok key realms rows chunks :
  Forall realm_ok realms → length rows = length realms →
  Forall2 (λ pr chunk, sealed_realm key pr.1 pr.2 chunk) (zip realms rows) chunks →
  Forall fileRealm_ok rows.
Proof.
  intros Hr. revert rows chunks. induction Hr as [|part realms Hp _ IH];
    intros [|row rows] chunks Hlen Hall; cbn in Hlen; try lia; [constructor|].
  cbn [zip] in Hall. apply Forall2_cons_inv_l in Hall as (c & cs & (mgr & heads & _ & Hrow & Hsc) & Hall & ->).
  constructor; [|apply (IH rows cs); [lia|done]]. cbn [fst snd] in *. subst row.
  destruct Hp as (Hk & _ & Hn), Hsc as [_ _ Hs]. unfold fileRealm_ok. cbn [fr_realm fr_num fr_hsh].
  split_and!; [done|lia|apply varnum_ok_len; lia|apply blake3hash_len].
Qed.

(** What [encodeFile] wrote: a signed header, then the chunks. *)
Lemma encodeFile_spec nonces realms key nonce file :
  (∀ k, length (nonces k) = 24%nat) → Forall realm_ok realms →
  encodeFile nonces realms key nonce = Ok file →
  ∃ signer rows chunks pre sig,
    blen nonce = hashBytes ∧ bagmanForExport key nullKDM = Ok signer ∧
    fileHeadPreimage nonce rows = Ok pre ∧ bm_sign signer (blake3hash pre) = Ok sig ∧
    length rows = length realms ∧
    Forall2 (λ pr chunk, sealed_realm key pr.1 pr.2 chunk) (zip realms rows) chunks ∧
    ∃ encHead, run_enc (writeStruct fileHeadCodec (mkFileHead nonce rows (blake3hash pre) sig)) = Ok encHead ∧
      file = encHead ++ concat chunks.
Proof.
  intros Hn Hr. unfold encodeFile, encode_file.
  destruct (Z.eqb_spec (blen nonce) hashBytes) as [Hb|]; [cbn [negb]|done].
  unfold mbind, M_bind, m_bind, m_lift.
  pose proof (realmBagMgrs_derives key nullKDM [] ltac:(constructor)) as Hs.
  destruct (realmBagMgrs key nullKDM []) as [[signer cache]| |]; [|done..]. destruct Hs as [Hsig Hc].
  destruct (seal_realms _ _ _ _ _ _) as [[rows| |] st] eqn:Es; [|done..].
  eapply seal_realms_spec in Es as (rows' & chunks & -> & He & Hall & Hlen); [|done..]. cbn [app] in *.
  destruct (fileHeadPreimage nonce rows') as [pre| |] eqn:Ep; [|done..].
  destruct (bm_sign signer (blake3hash pre)) as [sig| |] eqn:Esig; [|done..].
  destruct (run_enc _) as [encHead| |] eqn:Eh; [|done..].
  destruct st as [e k]. cbn [on_file] in *. unfold prependBytes.
  intros [= <-]. exists signer, rows', chunks, pre, sig. split_and!; try done.
  exists encHead. split; [done|]. unfold enc_result in *. cbn in *. by rewrite He.
Qed.

Lemma export_decodes nonces realms key nonce file :
  (∀ k, length (nonces k) = 24%nat) → Forall realm_ok realms → Z.of_nat (length realms) < 2 ^ 32 →
  encodeFile nonces realms key nonce = Ok file →
  exportNonce file = Ok nonce ∧ decodeFile file key = Ok (exported_realm <$> realms).
Proof.
  intros Hn Hr Hlen (signer & rows & chunks & pre & sig & Hb & Hsg & Hp & Hs & Hrl & Hall & encHead & Hh & ->)%encodeFile_spec; [|done..].
  assert (Hrows : realms_ok rows).
  { split; [unfold count_ok; lia|]. by eapply sealed_realms_ok. }
  pose proof (bagmanForExport_valid _ _ _ Hsg) as [Hv _].
  destruct (bm_sign_verifies _ _ _ Hv Hs) as (_ & Hsl & vk & Hvk & Hck).
  assert (Hhd : fileHead_ok (mkFileHead nonce rows (blake3hash pre) sig)).
  { split_and!; cbn; [done|done|apply blake3hash_len|done]. }
  assert (encHead = fileHead_wire (mkFileHead nonce rows (blake3hash pre) sig)) as ->.
  { pose proof (lawful_enc (ok := fileHead_ok) _ Hhd) as He%encodes_run. unfold writeStruct in Hh. rewrite He in Hh. by injection Hh. }
  split.
  { unfold exportNonce.
    pose proof (lawful_dec (norm := id) (ok := fileHead_ok) _ Hhd [] (concat chunks)) as Hd.
    cbn [app] in Hd. unfold run_dec, newDecoder. change (blen []) with 0 in Hd. rewrite Hd. done. }
  pose proof (decodes_end_run _ _ _ (file_decodes_end (mkFile (mkFileHead nonce rows (blake3hash pre) sig) (concat chunks)) Hhd)) as Hf.
  cbn [file_head file_chunks] in Hf. unfold decodeFile. rewrite Hf, bind_Ok. cbn [file_head file_chunks].
  pose proof (realmBagMgrs_derives key nullKDM [] ltac:(constructor)) as Hm. rewrite Hsg in Hm.
  destruct (realmBagMgrs key nullKDM []) as [[s cache]| |]; [|done..]. destruct Hm as [[= <-] Hc].
  rewrite bind_Ok, Hvk. cbn [catching]. rewrite bind_Ok. cbn [fh_sig fh_hsh fh_nonce fh_realms].
  rewrite Hck. cbn [negb]. rewrite Hp, bind_Ok, bytesEqual_refl. cbn [negb].
  pose proof (open_realms_run key realms rows cache chunks [] Hc Hr Hrl Hall) as Ho. cbn [app] in Ho.
  unfold run_dec, mbind, M_bind, m_bind, newDecoder. change (blen []) with 0 in Ho. rewrite Ho. cbn [m_get].
  unfold dec_done. cbn [data pos]. rewrite (proj2 (Z.leb_le _ _)) by lia. done.
Qed.

(** ** What an accepted file vouches for *)

(** Parts laid out one after another: [P p a b q] says that [b] is what [a] reads
    from position [p] up to [q]. *)
Inductive laid_out {A B} (P : Z → A → B → Z → Prop) : Z → list A → list B → Z → Prop :=
  | laid_nil p : laid_out P p [] [] p
  | laid_cons p q r a b rows bs : P p a b q → laid_out P q rows bs r → laid_out P p (a :: rows) (b :: bs) r.

(** [m] is what the index item [item] opens to, its body the sealed bytes of
    [chunks] from [o] to [o']. *)
Definition opened (mgr : BagManager) (chunks : bytes) (o : Z) (item : IFileIndexItem) (m : IExportMsg) (o' : Z) : Prop :=
  o' = o + fi_lenBody item ∧ o <= o' <= blen chunks ∧
  ∃ headEnc, bm_decrypt mgr (fi_kdm item) (fi_headCph item) = Ok headEnc ∧
    run_dec (cDecode messageHeadCodec) headEnc = Ok (xm_head m) ∧
    match xm_body m with
    | Some b => mh_hsh (xm_head m) = Some (blake3hash b) ∧ bm_decrypt mgr (fi_kdm item) (slice chunks o o') = Ok b
    | None => fi_lenBody item = 0
    end.

Lemma open_msg_opened mgr chunks item o m d' :
  0 <= o <= blen chunks → open_msg mgr item (mkDec chunks o) = (Ok m, d') →
  ∃ o', d' = mkDec chunks o' ∧ opened mgr chunks o item m o'.
Proof.
  intros Ho. unfold open_msg. intros (headEnc & d1 & [= Hd <-] & H)%m_bind_Ok_inv.
  apply m_bind_Ok_inv in H as (h & d2 & [= Hh <-] & H).
  destruct (Z.ltb_spec (fi_lenBody item) 0); [done|].
  destruct (Z.eqb_spec (fi_lenBody item) 0) as [E|].
  { injection H as <- <-. exists o. split; [done|]. split; [lia|]. split; [lia|]. by exists headEnc. }
  destruct (mh_hsh h) as [hsh|] eqn:Eh; [|done].
  apply m_bind_Ok_inv in H as (cph & d3 & Hr & H). apply m_bind_Ok_inv in H as (bod & d4 & [= Hb <-] & H).
  destruct (bytesEqual _ _) eqn:Eq; [|done]. apply bytesEqual_spec in Eq.
  unfold readBytes in Hr. cbn [data pos] in Hr. rewrite (proj2 (Z.ltb_ge _ _)) in Hr by lia.
  destruct (Z.ltb_spec (blen chunks) (o + fi_lenBody item)); [done|]. injection Hr as <- <-.
  injection H as <- <-. exists (o + fi_lenBody item). split; [done|]. split; [done|]. split; [lia|].
  exists headEnc. cbn [xm_body xm_head]. by rewrite Eh, Eq.
Qed.

Lemma open_msgs_opened mgr chunks items o ms d' :
  0 <= o <= blen chunks → open_msgs mgr items (mkDec chunks o) = (Ok ms, d') →
  ∃ o', o <= o' <= blen chunks ∧ d' = mkDec chunks o' ∧ laid_out (opened mgr chunks) o items ms o'.
Proof.
  revert o ms d'. induction items as [|item items IH]; intros o ms d' Ho.
  { intros [= <- <-]. exists o. split; [lia|]. split; [done|constructor]. }
  intros (m & d1 & (o1 & -> & Hm)%open_msg_opened & H)%m_bind_Ok_inv; [|done]. pose proof Hm as (_ & Hb & _).
  apply m_bind_Ok_inv in H as (ms' & d2 & Hms & [= <- <-]). apply IH in Hms as (o' & Ho' & -> & Hl); [|lia].
  exists o'. split; [lia|]. split; [done|]. by econstructor.
Qed.

(** The section of a realm, from [p] to [r]: the index items that its directory
    row counts are read from [p] to [q], which is the part of the file that has
    the hash of the row, and the bodies of its messages follow from [q] to [r],
    each message what its item opens to. *)
Definition vouched (key chunks : bytes) (p : Z) (row : IFileRealm) (realm : IExportRealm) (r : Z) : Prop :=
  xr_realm realm = fr_realm row ∧
  ∃ mgr items q, bagmanForExport key (fr_realm row) = Ok mgr ∧ p <= q <= r ∧
    m_times (Z.to_nat (fr_num row)) (readStruct fileIndexItemCodec) (mkDec chunks p) = (Ok items, mkDec chunks q) ∧
    blake3hash (slice chunks p q) = fr_hsh row ∧
    laid_out (opened mgr chunks) q items (xr_msgs realm) r.

Lemma open_realms_vouched key chunks rows cache p rs d' :
  cache_ok key cache → 0 <= p <= blen chunks → open_realms key chunks rows cache (mkDec chunks p) = (Ok rs, d') →
  ∃ r, r <= blen chunks ∧ d' = mkDec chunks r ∧ laid_out (vouched key chunks) p rows rs r.
Proof.
  revert cache p rs d'. induction rows as [|row rows IH]; intros cache p rs d' Hc Hp.
  { intros [= <- <-]. exists p. split; [lia|]. split; [done|constructor]. }
  intros ([mgr cache'] & d1 & [= Hm <-] & H)%m_bind_Ok_inv.
  pose proof (realmBagMgrs_derives key (fr_realm row) cache Hc) as Hd. rewrite Hm in Hd. destruct Hd as [Hd Hc'].
  apply m_bind_Ok_inv in H as (msgs & d2 & Ho & H).
  apply m_bind_Ok_inv in H as (rest & d3 & Hr & [= <- <-]).
  unfold openChunk in Ho. apply m_bind_Ok_inv in Ho as (d0 & ? & [= <- <-] & Ho).
  apply m_bind_Ok_inv in Ho as (items & [chunks' q] & Hi & Ho). apply m_bind_Ok_inv in Ho as (? & ? & [= <- <-] & Ho).
  destruct (dec_safe_times _ (Z.to_nat (fr_num row)) (proj1 fileIndexItem_total) (mkDec chunks p) Hp) as (Hda & Hpq & Hw).
  change (m_times _ (cDecode fileIndexItemCodec) _) with (m_times (Z.to_nat (fr_num row)) (readStruct fileIndexItemCodec) (mkDec chunks p)) in Hda, Hpq, Hw.
  rewrite Hi in Hda, Hpq, Hw. unfold dec_wf in Hw. cbn [snd data pos] in *. subst chunks'.
  destruct (bytesEqual _ _) eqn:Eq; [|done]. apply bytesEqual_spec in Eq.
  apply open_msgs_opened in Ho as (r1 & Hr1 & -> & Hl); [|done].
  destruct (IH cache' r1 rest d3 Hc' ltac:(lia) Hr) as (r & Hrb & -> & Hrest).
  exists r. split; [done|]. split; [done|]. econstructor; [|exact Hrest]. split; [done|].
  exists mgr, items, q. split_and!; try done; lia.
Qed.

(** [C32] An accepted file is vouched for: its header is signed by the file key's
    identity over the nonce and the directory, and the rest of the file is,
    from its first byte to its last, the sections of the directory's realms, in
    order and with nothing between.  The realms of the result are these: each has
    the index items read from the head section whose bytes hash to its row,
    each message the head its item opens to, and the body that the sealed bytes
    at its place open to, which matches the hash in the head. *)
Theorem import_is_vouched file key realms :
  decodeFile file key = Ok realms →
  ∃ f signer vk pre, run_dec (cDecode fileCodec) file = Ok f ∧
    bagmanForExport key nullKDM = Ok signer ∧ importVerifyKey (bm_publicKey signer) = Ok vk ∧
    checkSigEd25519 (fh_sig (file_head f)) (blake3hash pre) vk = true ∧
    fileHeadPreimage (fh_nonce (file_head f)) (fh_realms (file_head f)) = Ok pre ∧
    laid_out (vouched key (file_chunks f)) 0 (fh_realms (file_head f)) realms (blen (file_chunks f)).
Proof.
  unfold decodeFile. intros (f & Hf & H)%res_bind_Ok_inv. apply res_bind_Ok_inv in H as ([signer cache] & Hs & H).
  pose proof (realmBagMgrs_derives key nullKDM [] ltac:(constructor)) as Hm. rewrite Hs in Hm. destruct Hm as [Hm Hc].
  apply res_bind_Ok_inv in H as (vk & Hvk%catching_Ok & H).
  destruct (checkSigEd25519 _ _ vk) eqn:Esig; [|done].
  apply res_bind_Ok_inv in H as (pre & Hp & H).
  destruct (bytesEqual _ _) eqn:Eq; [|done]. apply bytesEqual_spec in Eq. rewrite <-Eq in Esig.
  exists f, signer, vk, pre. split_and!; try done. cbn [negb] in H.
  unfold run_dec in H.
  match type of H with (?m).1 = _ => destruct m as [r d'] eqn:E; cbn [fst] in H; subst r end.
  apply m_bind_Ok_inv in E as (rs & d1 & Hrs & E). apply m_bind_Ok_inv in E as (? & ? & [= <- <-] & E).
  destruct (open_realms_vouched key (file_chunks f) (fh_realms (file_head f)) cache 0 rs d1 Hc) as (r & Hr & -> & Hl); [unfold blen; lia|exact Hrs|].
  unfold dec_done in E. cbn [data pos] in E. destruct (Z.leb_spec (blen (file_chunks f)) r); [|done]. injection E as <- _.
  by replace (blen (file_chunks f)) with r by lia.
Qed.

(** What an import yields can be exported again. *)
Lemma exported_idem m : exported (exported m) = exported m.
Proof.
  unfold exported, head_norm. destruct m as [h b]; cbn. do 2 f_equal.
Qed.

Lemma exported_ok m : exportable m → exportable (exported m).
Proof.
  intros (Hh & Hl & Hb). destruct m as [h b]; cbn in *. unfold exportable, exported. cbn [xm_head xm_body].
  assert (Hw : head_wire (head_norm h) = head_wire h) by (by destruct h as [[]]).
  rewrite Hw. split_and!; [by destruct Hh as (H1 & H2 & H3 & H4 & H5 & H6 & H7)|done|done].
Qed.

Lemma exported_realm_ok p : realm_ok p → realm_ok (exported_realm p).
Proof.
  intros (Hk & Hm & Hn). unfold realm_ok. cbn [exported_realm xr_realm xr_msgs].
  split_and!; [done| |by rewrite length_fmap]. apply Forall_fmap. eapply Forall_impl; [exact Hm|]. intros m. apply exported_ok.
Qed.

Lemma exported_realm_idem (realms : list IExportRealm) :
  exported_realm <$> (exported_realm <$> realms) = exported_realm <$> realms.
Proof.
  rewrite <-list_fmap_compose. apply list_fmap_ext. intros i p _. unfold exported_realm. cbn. f_equal.
  rewrite <-list_fmap_compose. apply list_fmap_ext. intros ? m _. apply exported_idem.
Qed.

(** An export file opens again: decoding what [encodeFile] sealed gives the
    same realms and messages (heads as their coder normalises them), the nonce
    the file key was derived from can be read without a key, and re-encoding
    the file under another key ([migrateFile]) keeps its realms. *)
Theorem export_roundtrip nonces realms key nonce file :
  (∀ k, length (nonces k) = 24%nat) → Forall realm_ok realms → Z.of_nat (length realms) < 2 ^ 32 →
  encodeFile nonces realms key nonce = Ok file →
  exportNonce file = Ok nonce ∧ decodeFile file key = Ok (exported_realm <$> realms) ∧
  ∀ nonces' key' nonce' file', (∀ k, length (nonces' k) = 24%nat) →
    migrateFile nonces' file key key' nonce' id = Ok file' →
    exportNonce file' = Ok nonce' ∧ decodeFile file' key' = decodeFile file key.
Proof.
  intros Hn Hr Hlen He. pose proof (export_decodes nonces realms key nonce file Hn Hr Hlen He) as [Hno Hd].
  split_and!; [done..|]. intros nonces' key' nonce' file' Hn' Hm. unfold migrateFile in Hm.
  rewrite Hd, bind_Ok in Hm. unfold id in Hm. rewrite Hd.
  apply export_decodes in Hm as [Hno' Hd'];
    [|done|by apply Forall_fmap, (Forall_impl _ _ _ Hr), exported_realm_ok|by rewrite length_fmap].
  split; [done|]. by rewrite Hd', exported_realm_idem.
Qed.
End props.

(** ** A concrete file *)
Module Box.
Import Toy.

Definition tag (key nonce : bytes) : bytes := be_bytes 16 (fold_left (λ acc b, acc * 31 + byteZ b) (key ++ nonce) 1).

Lemma tag_len key nonce : length (tag key nonce) = 16%nat.
Proof. pose proof (be_bytes_len 16 (fold_left (λ acc b, acc * 31 + byteZ b) (key ++ nonce) 1)) as H. unfold blen in H. unfold tag. lia. Qed.

(** The toy primitives with a 16-byte tag. *)
#[export] Instance box : CryptoPrims := {|
  CryptoKey := @CryptoKey toy;
  subtle_importVerify := @subtle_importVerify toy;
  subtle_verify := @subtle_verify toy;
  ed_public := @ed_public toy;
  ed_sign := @ed_sign toy;
  blake3hash := @blake3hash toy;
  blake3_keyed := @blake3_keyed toy;
  blake3_context := @blake3_context toy;
  salsa_seal key nonce txt := Ok (txt ++ tag key nonce);
  salsa_open key nonce cph := Ok (take (length cph - 16) cph);
|}.

#[export] Instance box_laws : CryptoLaws box.
Proof.
  destruct toy_laws as [H1 _ H3 H4]. split; [exact H1| |exact H3|exact H4].
  intros key nonce txt cph H. cbn [salsa_open salsa_seal box] in *. injection H as <-. f_equal.
  rewrite length_app, tag_len. replace (length txt + 16 - 16)%nat with (length txt) by lia. apply take_app_length.
Qed.

#[export] Instance box_box : BoxLaw box.
Proof.
  intros key nonce txt cph H. cbn [salsa_seal box] in H. injection H as <-.
  unfold blen. rewrite length_app, tag_len. lia.
Qed.

Definition key0 : bytes := be_bytes 32 77.
Definition nonce0 : bytes := be_bytes 32 78.
Definition draws (k : nat) : bytes := be_bytes 24 (Z.of_nat k).
Definition eid0 : bytes := eid_wire (mkIEntityID (be_bytes 8 9) (Some 1700000000000)).
Definition body0 : bytes := [x68; x69].
Definition realms0 : list IExportRealm := [
  mkExRealm nullKDM [
    mkExMsg (mkHead None eid0 (Some 0) 0 2 (Some (toy_hash body0))) (Some body0);
    mkExMsg (mkHead None eid0 (Some 5) 1 0 None) None]].

Lemma head0_ok o c l h :
  varnum_ok o → varnum_ok c → varnum_ok l →
  (if 0 <? l then ∃ hsh, h = Some hsh ∧ blen hsh = hshBytes else h = None) →
  head_ok (mkHead None eid0 (Some o) c l h).
Proof.
  intros Ho Hc Hl Hh. split_and!; [by apply (bool_decide_unpack _)|by vm_compute|by vm_compute|by exists o|done..].
Qed.

Lemma realms0_ok : Forall realm_ok realms0.
Proof.
  constructor; [|constructor]. split_and!; [by apply (bool_decide_unpack _)| |vm_compute; reflexivity].
  constructor; [|constructor; [|constructor]].
  - split; [apply head0_ok; [by apply varnum_ok_len..|by exists (toy_hash body0)]|].
    vm_compute. split_and!; reflexivity.
  - split; [apply head0_ok; [by apply varnum_ok_len..|done]|]. vm_compute. split_and!; reflexivity.
Qed.

Definition file0 : bytes := default [] (match encodeFile draws realms0 key0 nonce0 with Ok f => Some f | _ => None end).

Lemma file0_seals : encodeFile draws realms0 key0 nonce0 = Ok file0.
Proof. vm_compute. reflexivity. Qed.

Lemma draws_len k : length (draws k) = 24%nat.
Proof. pose proof (be_bytes_len 24 (Z.of_nat k)) as H. unfold blen in H. unfold draws. lia. Qed.

Lemma export_roundtrip_witness :
  exportNonce file0 = Ok nonce0 ∧ decodeFile file0 key0 = Ok (exported_realm <$> realms0).
Proof.
  destruct (export_roundtrip draws realms0 key0 nonce0 file0 draws_len realms0_ok ltac:(done) file0_seals)
    as (H1 & H2 & _). exact (conj H1 H2).
Defined.

Lemma import_is_vouched_witness :
  ∃ f, run_dec (cDecode fileCodec) file0 = Ok f ∧
    laid_out (vouched key0 (file_chunks f)) 0 (fh_realms (file_head f)) (exported_realm <$> realms0) (blen (file_chunks f)).
Proof.
  assert (H : decodeFile file0 key0 = Ok (exported_realm <$> realms0)) by (vm_compute; reflexivity).
  destruct (import_is_vouched file0 key0 _ H) as (f & _ & _ & _ & Hf & _ & _ & _ & _ & Hv).
  exists f. exact (conj Hf Hv).
Defined.
End Box.
