(* ===== verification/X25519.v ===== *)
(** * X25519 ([shared/crypto/x25519.ts], and its callers in [noble.ts])

    The RFC 7748 ladder on 255-bit field elements, written with masked swaps as
    the code has it, and the reference ladder it computes.  WebCrypto's X25519
    is a parameter. *)
From S2P Require Export Crypto.
From Stdlib Require Import ZArith.Zdiv.

(** ** Field elements and bytes *)

Definition X25519_SK_LEN : Z := 32.
Definition P : Z := 2 ^ 255 - 19.
Definition A24 : Z := 121665.
Definition BASE : bytes := x09 :: replicate 31 x00.

Definition asX25519Sk (bs : bytes) : Res bytes :=
  if negb (blen bs =? X25519_SK_LEN) then Err InvalidParam else Ok bs.

(** [for (i = b.length - 1; i >= 0; i--) n = (n << 8) | b[i]] *)
Definition leToN (b : bytes) : Z :=
  fold_right (λ b n, Z.lor (Z.shiftl n 8) (byteZ b)) 0 b.

Fixpoint le_loop (n : nat) (x : Z) : bytes :=
  match n with
  | O => []
  | S n => Zbyte (Z.land x 0xff) :: le_loop n (Z.shiftr x 8)
  end.

(** BigInt [%] truncates. *)
Definition nToLe (n : Z) : bytes := le_loop 32 (Z.rem (Z.rem n P + P) P).

(** [b[i] = f(b[i])] on a byte array. *)
Definition byte_map (i : nat) (f : Z → Z) (b : bytes) : bytes := alter (λ x, Zbyte (f (byteZ x))) i b.

Definition decodeU (u : bytes) : Z := leToN (byte_map 31 (Z.land 127) u).

Definition clamp (sk : bytes) : bytes :=
  byte_map 31 (Z.lor 64) (byte_map 31 (Z.land 127) (byte_map 0 (Z.land 248) sk)).

Definition cswap (swap a b : Z) : Z * Z :=
  let mask := - swap in
  let d := Z.land (Z.lxor a b) mask in
  (Z.lxor a d, Z.lxor b d).

(** [while (e > 0n)]: 255 bits of [P - 2]. *)
Fixpoint inv_loop (n : nat) (e b r : Z) : Z :=
  match n with
  | O => r
  | S n =>
      if negb (0 <? e) then r
      else
        let r := if Z.land e 1 =? 0 then r else Z.rem (r * b) P in
        inv_loop n (Z.shiftr e 1) (Z.rem (b * b) P) r
  end.

Definition modInv (z : Z) : Z := inv_loop 255 (P - 2) (Z.rem (Z.rem z P + P) P) 1.

(** ** The ladder *)

Record Ladder := mkLadder { l_x2 : Z; l_z2 : Z; l_x3 : Z; l_z3 : Z }.

(** The body of the loop after the swaps. *)
Definition ladder_step (x1 : Z) (s : Ladder) : Ladder :=
  let '(mkLadder x2 z2 x3 z3) := s in
  let a := Z.rem (x2 + z2) P in
  let aa := Z.rem (a * a) P in
  let b := Z.rem (x2 - z2 + P) P in
  let bb := Z.rem (b * b) P in
  let e := Z.rem (aa - bb + P) P in
  let c := Z.rem (x3 + z3) P in
  let d := Z.rem (x3 - z3 + P) P in
  let da := Z.rem (d * a) P in
  let cb := Z.rem (c * b) P in
  let dacb := Z.rem (da + cb) P in
  let dacbm := Z.rem (da - cb + P) P in
  mkLadder (Z.rem (aa * bb) P) (Z.rem (e * (aa + A24 * e)) P)
           (Z.rem (dacb * dacb) P) (Z.rem (x1 * dacbm * dacbm) P).

Definition swap_state (swap : Z) (s : Ladder) : Ladder :=
  let '(x2, x3) := cswap swap (l_x2 s) (l_x3 s) in
  let '(z2, z3) := cswap swap (l_z2 s) (l_z3 s) in
  mkLadder x2 z2 x3 z3.

(** [for (t = 254; t >= 0; t--)]: [t] bits are left. *)
Fixpoint ladder_loop (bits x1 : Z) (t : nat) (swap : Z) (s : Ladder) : Z * Ladder :=
  match t with
  | O => (swap, s)
  | S t =>
      let kt := Z.land (Z.shiftr bits (Z.of_nat t)) 1 in
      let swap := Z.lxor swap kt in
      ladder_loop bits x1 t kt (ladder_step x1 (swap_state swap s))
  end.

Definition x25519 (sk u : bytes) : bytes :=
  let k := clamp sk in
  let x1 := decodeU u in
  let bits := leToN k in
  let '(swap, s) := ladder_loop bits x1 255 0 (mkLadder 1 0 x1 1) in
  let s := swap_state swap s in
  nToLe (Z.rem (l_x2 s * modInv (l_z2 s)) P).

Definition x25519Pub (sk : bytes) : bytes := x25519 sk BASE.

(** ** [noble.ts] *)

(** WebCrypto: the public key of an imported scalar (its JWK [x]) and the bits
    derived with a peer's key.  Either may be unsupported and throw. *)
Class X25519Prims := {
  subtle_x25519_pub : bytes → Res bytes;
  subtle_x25519_bits : bytes → bytes → Res bytes;
}.

Section noble.
Context {X : X25519Prims}.

(** [raw] is the [randomBytes(32)] the call draws. *)
Definition genX25519 (raw : bytes) : Res (bytes * bytes) :=
  let raw := clamp raw in
  match asX25519Sk raw with
  | Ok priv =>
      let want := x25519Pub priv in
      got ← subtle_x25519_pub priv;
      if negb (bytesEqual got want) then Throw else Ok (priv, want)
  | _ => Throw
  end.

Definition x25519Shared (priv peerPub : bytes) : Res bytes :=
  match subtle_x25519_bits priv peerPub with
  | Ok bits => Ok bits
  | _ => Ok (x25519 priv peerPub)
  end.
End noble.

(** * X25519 is the Montgomery ladder of Curve25519

    The masked swaps, the square-and-multiply inverse and the reduced
    arithmetic of the code against textbook formulas over the integers
    modulo [2^255 - 19]. *)

Lemma P_pos : 0 < P.
Proof. done. Qed.

Lemma rem_mod n : 0 <= n → Z.rem n P = n mod P.
Proof. intros. apply Z.rem_mod_nonneg; [done|apply P_pos]. Qed.

Lemma mod_range n : 0 <= n mod P < P.
Proof. apply Z.mod_pos_bound, P_pos. Qed.

Lemma norm_mod n : Z.rem (Z.rem n P + P) P = n mod P.
Proof.
  pose proof (Z.rem_bound_abs n P ltac:(done)). pose proof P_pos.
  rewrite rem_mod by lia.
  rewrite Z.rem_eq by done. replace (n - P * (n ÷ P) + P) with (n + (1 - n ÷ P) * P) by lia.
  by rewrite Z_mod_plus_full.
Qed.

(** ** Little-endian bytes *)

Lemma leToN_cons b bs : leToN (b :: bs) = byteZ b + leToN bs * 2 ^ 8.
Proof.
  cbn [leToN fold_right]. fold (leToN bs). rewrite Z.lor_comm.
  apply lor_shiftl_add; [done|apply byteZ_range].
Qed.

Lemma leToN_range bs : 0 <= leToN bs < 2 ^ (8 * Z.of_nat (length bs)).
Proof.
  induction bs as [|b bs IH]; [done|]. rewrite leToN_cons. pose proof (byteZ_range b).
  cbn [length]. replace (8 * Z.of_nat (S (length bs))) with (8 + 8 * Z.of_nat (length bs)) by lia.
  rewrite Z.pow_add_r by lia. lia.
Qed.

Lemma le_loop_len n x : length (le_loop n x) = n.
Proof. revert x. induction n as [|n IH]; intros x; cbn; [done|]. by rewrite IH. Qed.

Lemma le_loop_value n x : 0 <= x → leToN (le_loop n x) = x mod 2 ^ (8 * Z.of_nat n).
Proof.
  revert x. induction n as [|n IH]; intros x Hx; [by rewrite Z.mod_1_r|].
  cbn [le_loop]. rewrite leToN_cons, IH by (apply Z.shiftr_nonneg; lia).
  change 0xff with (Z.ones 8). rewrite Z.land_ones, Z.shiftr_div_pow2 by lia.
  rewrite byteZ_Zbyte, Zmod_mod.
  replace (8 * Z.of_nat (S n)) with (8 + 8 * Z.of_nat n) by lia.
  rewrite Z.pow_add_r, Z.rem_mul_r by lia. change (2 ^ 8) with 256. lia.
Qed.

Lemma nToLe_value n : leToN (nToLe n) = n mod P.
Proof.
  unfold nToLe. rewrite norm_mod. pose proof (mod_range n). rewrite le_loop_value by lia.
  apply Z.mod_small. assert (P < 2 ^ (8 * Z.of_nat 32)) by done. lia.
Qed.

(** ** Masked swap *)

Lemma cswap_spec swap a b :
  swap = 0 ∨ swap = 1 → cswap swap a b = if swap =? 0 then (a, b) else (b, a).
Proof.
  intros [-> | ->]; unfold cswap; cbn [Z.opp Z.eqb].
  - by rewrite Z.land_0_r, !Z.lxor_0_r.
  - change (-1) with (-(1)). rewrite Z.land_m1_r. f_equal.
    + by rewrite <-Z.lxor_assoc, Z.lxor_nilpotent, Z.lxor_0_l.
    + by rewrite (Z.lxor_comm a b), <-Z.lxor_assoc, Z.lxor_nilpotent, Z.lxor_0_l.
Qed.

Definition flip (s : Ladder) : Ladder := mkLadder (l_x3 s) (l_z3 s) (l_x2 s) (l_z2 s).

Lemma swap_state_spec (b : bool) s : swap_state (Z.b2z b) s = if b then flip s else s.
Proof.
  unfold swap_state. rewrite !cswap_spec by (destruct b; auto). by destruct b, s.
Qed.

(** ** Inverse *)

(** Square and multiply, with fuel for every bit of the exponent. *)
Lemma inv_loop_spec n e b r :
  0 <= e < 2 ^ Z.of_nat n → 0 <= b → 0 <= r < P → inv_loop n e b r = (r * b ^ e) mod P.
Proof.
  revert e b r. induction n as [|n IH]; intros e b r He Hb Hr; cbn [inv_loop].
  { change (2 ^ Z.of_nat 0) with 1 in He. replace e with 0 by lia.
    rewrite Z.pow_0_r, Z.mul_1_r. symmetry. by apply Z.mod_small. }
  destruct (Z.ltb_spec 0 e) as [Hp|]; cbn [negb].
  2:{ replace e with 0 by lia. rewrite Z.pow_0_r, Z.mul_1_r. symmetry. by apply Z.mod_small. }
  assert (Hsh : Z.shiftr e 1 = e / 2) by (by rewrite Z.shiftr_div_pow2).
  assert (Hla : Z.land e 1 = e mod 2) by (change 1 with (Z.ones 1); by rewrite Z.land_ones).
  assert (Hn : 2 ^ Z.of_nat (S n) = 2 * 2 ^ Z.of_nat n) by (rewrite Nat2Z.inj_succ, Z.pow_succ_r; lia).
  pose proof (Z.mod_pos_bound e 2 eq_refl). pose proof (Z_div_mod_eq_full e 2) as Hdm.
  rewrite Hla, Hsh, (rem_mod (b * b)) by lia. rewrite IH.
  - rewrite <-Zmult_mod_idemp_r, Z.mod_pow_l, Zmult_mod_idemp_r.
    assert (Hbb : (b * b) ^ (e / 2) * b ^ (e mod 2) = b ^ e).
    { rewrite <-Z.pow_2_r, <-Z.pow_mul_r, <-Z.pow_add_r by lia. f_equal. lia. }
    destruct (Z.eqb_spec (e mod 2) 0) as [E|E].
    + rewrite <-Hbb, E, Z.pow_0_r. f_equal. lia.
    + replace (e mod 2) with 1 in Hbb by lia. rewrite Z.pow_1_r in Hbb.
      rewrite rem_mod, Zmult_mod_idemp_l by nia. rewrite <-Hbb. f_equal. lia.
  - lia.
  - apply mod_range.
  - destruct (e mod 2 =? 0); [done|]. rewrite rem_mod by nia. apply mod_range.
Qed.

Lemma modInv_spec z : modInv z = (z mod P) ^ (P - 2) mod P.
Proof.
  unfold modInv. rewrite norm_mod, inv_loop_spec; [by rewrite Z.mul_1_l| |apply mod_range|done].
  split; [done|]. change (2 ^ Z.of_nat 255) with (2 ^ 255). unfold P. lia.
Qed.

(** ** The ladder over the curve [v^2 = u^3 + 486662 u^2 + u]

    Points as [X : Z].  [dbl] doubles; [dadd x1] adds two points whose
    difference has [u]-coordinate [x1]. *)
Definition curveA : Z := 486662.
Definition modP '((x, z) : Z * Z) : Z * Z := (x mod P, z mod P).
Definition dbl '((x, z) : Z * Z) : Z * Z :=
  modP ((x * x - z * z) ^ 2, 4 * x * z * (x * x + curveA * x * z + z * z)).
Definition dadd (x1 : Z) '((x2, z2) : Z * Z) '((x3, z3) : Z * Z) : Z * Z :=
  modP (4 * (x2 * x3 - z2 * z3) ^ 2, 4 * x1 * (x2 * z3 - z2 * x3) ^ 2).

(** The ladder for the [t] low bits of [bits]. *)
Fixpoint mladder (bits x1 : Z) (t : nat) (R0 R1 : Z * Z) : Z * Z :=
  match t with
  | O => R0
  | S t =>
      if Z.testbit bits (Z.of_nat t) then mladder bits x1 t (dadd x1 R0 R1) (dbl R1)
      else mladder bits x1 t (dbl R0) (dadd x1 R0 R1)
  end.

(** What the step needs of its operands; [u] itself may be at least [P]. *)
Definition reduced (s : Ladder) : Prop :=
  0 <= l_x2 s ∧ 0 <= l_z2 s < P ∧ 0 <= l_x3 s ∧ 0 <= l_z3 s < P.

Lemma mod_eqm a b : eqm P a b → a mod P = b mod P.
Proof. done. Qed.

(** Reduction steps vanish modulo [P]. *)
Lemma eqm_mod a : eqm P (a mod P) a.
Proof. apply Zmod_eqm. Qed.
Lemma eqm_add_P a : eqm P (a + P) a.
Proof. unfold eqm. replace (a + P) with (a + 1 * P) by lia. apply Z_mod_plus_full. Qed.

#[local] Existing Instance eqm_setoid.
#[local] Instance add_proper : Proper (eqm P ==> eqm P ==> eqm P) Z.add := Zplus_eqm P.
#[local] Instance sub_proper : Proper (eqm P ==> eqm P ==> eqm P) Z.sub := Zminus_eqm P.
#[local] Instance mul_proper : Proper (eqm P ==> eqm P ==> eqm P) Z.mul := Zmult_eqm P.

Lemma eqm_same a b : a = b → eqm P a b.
Proof. intros ->. apply eqm_refl. Qed.

Lemma ladder_step_spec x1 s :
  0 <= x1 → reduced s →
  let R0 := (l_x2 s, l_z2 s) in let R1 := (l_x3 s, l_z3 s) in
  let s' := ladder_step x1 s in
  (l_x2 s', l_z2 s') = dbl R0 ∧ (l_x3 s', l_z3 s') = dadd x1 R0 R1 ∧ reduced s'.
Proof.
  destruct s as [x2 z2 x3 z3]. intros Hx (H1 & H2 & H3 & H4). cbn in H1, H2, H3, H4. cbv zeta.
  cbn [l_x2 l_z2 l_x3 l_z3]. unfold ladder_step. cbv zeta. unfold A24.
  rewrite (rem_mod (x2 + z2)), (rem_mod (x2 - z2 + P)), (rem_mod (x3 + z3)), (rem_mod (x3 - z3 + P)) by lia.
  set (a := (x2 + z2) mod P). set (b := (x2 - z2 + P) mod P).
  set (c := (x3 + z3) mod P). set (d := (x3 - z3 + P) mod P).
  assert (Ha : 0 <= a) by apply mod_range. assert (Hb : 0 <= b) by apply mod_range.
  assert (Hc : 0 <= c) by apply mod_range. assert (Hd : 0 <= d) by apply mod_range.
  assert (Ea : eqm P a (x2 + z2)) by apply eqm_mod.
  assert (Eb : eqm P b (x2 - z2)) by (unfold b; rewrite eqm_mod; apply eqm_add_P).
  assert (Ec : eqm P c (x3 + z3)) by apply eqm_mod.
  assert (Ed : eqm P d (x3 - z3)) by (unfold d; rewrite eqm_mod; apply eqm_add_P).
  clearbody a b c d.
  rewrite (rem_mod (a * a)), (rem_mod (b * b)), (rem_mod (d * a)), (rem_mod (c * b)) by nia.
  assert (Haa := mod_range (a * a)). assert (Hbb := mod_range (b * b)).
  assert (Hda := mod_range (d * a)). assert (Hcb := mod_range (c * b)).
  assert (Eaa := eqm_mod (a * a)). assert (Ebb := eqm_mod (b * b)).
  assert (Eda := eqm_mod (d * a)). assert (Ecb := eqm_mod (c * b)).
  set (aa := (a * a) mod P) in *. set (bb := (b * b) mod P) in *.
  set (da := (d * a) mod P) in *. set (cb := (c * b) mod P) in *. clearbody aa bb da cb.
  rewrite (rem_mod (aa - bb + P)), (rem_mod (da + cb)), (rem_mod (da - cb + P)) by lia.
  assert (He := mod_range (aa - bb + P)). assert (Hs := mod_range (da + cb)). assert (Hm := mod_range (da - cb + P)).
  assert (Ee : eqm P ((aa - bb + P) mod P) (aa - bb)) by (rewrite eqm_mod; apply eqm_add_P).
  assert (Es := eqm_mod (da + cb)).
  assert (Em : eqm P ((da - cb + P) mod P) (da - cb)) by (rewrite eqm_mod; apply eqm_add_P).
  set (e := (aa - bb + P) mod P) in *. set (dacb := (da + cb) mod P) in *.
  set (dacbm := (da - cb + P) mod P) in *. clearbody e dacb dacbm.
  cbn [l_x2 l_z2 l_x3 l_z3]. rewrite !rem_mod by nia. unfold dbl, dadd, modP, curveA.
  split_and!; [f_equal; apply mod_eqm|f_equal; apply mod_eqm|].
  - rewrite Eaa, Ebb, Ea, Eb. apply eqm_same. ring.
  - rewrite Ee, Eaa, Ebb, Ea, Eb. apply eqm_same. ring.
  - rewrite Es, Eda, Ecb, Ea, Eb, Ec, Ed. apply eqm_same. ring.
  - rewrite Em, Eda, Ecb, Ea, Eb, Ec, Ed. apply eqm_same. ring.
  - split_and!; cbn; apply mod_range.
Qed.


Lemma dadd_flip x1 R0 R1 : dadd x1 R1 R0 = dadd x1 R0 R1.
Proof. destruct R0, R1. unfold dadd, modP. f_equal; f_equal; ring. Qed.

Lemma flip_reduced s : reduced s → reduced (flip s).
Proof. unfold reduced, flip. cbn. tauto. Qed.

Lemma land_bit n t : Z.land (Z.shiftr n (Z.of_nat t)) 1 = Z.b2z (Z.testbit n (Z.of_nat t)).
Proof.
  change 1 with (Z.ones 1) at 1. rewrite Z.land_ones by lia. change (2 ^ 1) with 2.
  rewrite <-Z.bit0_mod, Z.shiftr_spec by lia. by rewrite Z.add_0_l.
Qed.

(** Undoing the pending swap, the loop is the ladder. *)
Lemma ladder_loop_spec bits x1 t (sw : bool) s :
  0 <= x1 → reduced s →
  let r := swap_state (Z.b2z sw) s in
  let '(sw', s') := ladder_loop bits x1 t (Z.b2z sw) s in
  ∃ b : bool, sw' = Z.b2z b ∧ reduced s' ∧
    let r' := swap_state sw' s' in
    (l_x2 r', l_z2 r') = mladder bits x1 t (l_x2 r, l_z2 r) (l_x3 r, l_z3 r).
Proof.
  intros Hx. revert sw s. induction t as [|t IH]; intros sw s Hs; cbv zeta; [by exists sw; split_and!|].
  cbn [ladder_loop]. rewrite land_bit. set (kt := Z.testbit bits (Z.of_nat t)).
  replace (Z.lxor (Z.b2z sw) (Z.b2z kt)) with (Z.b2z (xorb sw kt)) by (by destruct sw, kt).
  set (r := swap_state (Z.b2z sw) s).
  assert (Hr : reduced r) by (unfold r; rewrite swap_state_spec; destruct sw; [by apply flip_reduced|done]).
  assert (Hsw : swap_state (Z.b2z (xorb sw kt)) s = if kt then flip r else r).
  { unfold r. rewrite !swap_state_spec. by destruct sw, kt, s. }
  rewrite Hsw. set (s1 := ladder_step x1 _).
  assert (Hs1 : (l_x2 s1, l_z2 s1) = dbl (if kt then (l_x3 r, l_z3 r) else (l_x2 r, l_z2 r)) ∧
                (l_x3 s1, l_z3 s1) = dadd x1 (l_x2 r, l_z2 r) (l_x3 r, l_z3 r) ∧ reduced s1).
  { unfold s1. destruct kt.
    - destruct (ladder_step_spec x1 (flip r) Hx (flip_reduced _ Hr)) as (E1 & E2 & E3).
      split_and!; [exact E1| |exact E3]. rewrite <-dadd_flip. exact E2.
    - exact (ladder_step_spec x1 r Hx Hr). }
  destruct Hs1 as (E1 & E2 & E3). specialize (IH kt s1 E3). cbv zeta in IH.
  destruct (ladder_loop bits x1 t (Z.b2z kt) s1) as [sw' s'].
  destruct IH as (b & -> & Hs' & IH). exists b. split_and!; [done|done|].
  cbn [mladder]. fold kt. rewrite IH, (swap_state_spec kt). clearbody kt.
  destruct kt; cbn [flip l_x2 l_z2 l_x3 l_z3]; by rewrite E1, E2.
Qed.

(** ** Scalars *)

Lemma byte_map_cons i f b bs : byte_map (S i) f (b :: bs) = b :: byte_map i f bs.
Proof. done. Qed.

Lemma byte_map_len i f bs : length (byte_map i f bs) = length bs.
Proof. apply length_alter. Qed.

Lemma decodeU_range u : 0 <= decodeU u.
Proof. apply leToN_range. Qed.

Lemma nToLe_len n : blen (nToLe n) = 32.
Proof. unfold blen, nToLe. by rewrite le_loop_len. Qed.

Lemma x25519_len sk u : blen (x25519 sk u) = 32.
Proof. unfold x25519. destruct (ladder_loop _ _ _ _ _). apply nToLe_len. Qed.

Lemma clamp_len sk : length (clamp sk) = length sk.
Proof. unfold clamp. by rewrite !byte_map_len. Qed.

(** The [u]-coordinate [x25519] returns: the ladder's, as a quotient. *)
Definition montgomery_u (bits u : Z) : Z :=
  let '(x, z) := mladder bits u 255 (1, 0) (u, 1) in
  x * (z ^ (P - 2)) mod P.

Lemma leToN_app a b : leToN (a ++ b) = leToN a + leToN b * 2 ^ (8 * Z.of_nat (length a)).
Proof.
  induction a as [|x a IH]; [change (leToN b = 0 + leToN b * 1); lia|]. cbn [app length]. rewrite !leToN_cons, IH.
  replace (8 * Z.of_nat (S (length a))) with (8 * Z.of_nat (length a) + 8) by lia.
  rewrite Z.pow_add_r by lia. ring.
Qed.

Lemma byte_map_app l f b r : byte_map (length l) f (l ++ b :: r) = l ++ Zbyte (f (byteZ b)) :: r.
Proof. induction l as [|x l IH]; cbn; [done|]. f_equal. exact IH. Qed.

Lemma bytes32_split bs : blen bs = 32 → ∃ b0 mid b31, bs = b0 :: mid ++ [b31] ∧ length mid = 30%nat.
Proof.
  intros H. destruct bs as [|b0 bs]; [done|].
  destruct bs as [|b31 mid _] using rev_ind; [done|]. exists b0, mid, b31. split; [done|].
  unfold blen in H. cbn in H. rewrite length_app in H. cbn in H. lia.
Qed.

Lemma land_low z n : 0 <= n → Z.land (Z.ones n) z = z mod 2 ^ n.
Proof. intros. by rewrite Z.land_comm, Z.land_ones. Qed.


(** A byte fact holds if it holds of all 256 bytes. *)
Definition all_bytes (f : Z → bool) : bool := forallb f (Z.of_nat <$> seq 0 256).
Lemma all_bytes_spec f z : all_bytes f = true → 0 <= z < 256 → f z = true.
Proof.
  intros H Hz. unfold all_bytes in H. rewrite forallb_forall in H. apply H.
  apply list_elem_of_In, list_elem_of_fmap. exists (Z.to_nat z). split; [lia|]. apply elem_of_seq. lia.
Qed.

Lemma byte_248 b : byteZ (Zbyte (Z.land 248 (byteZ b))) = byteZ b / 8 * 8.
Proof.
  pose proof (byteZ_range b) as Hb. apply Z.eqb_eq.
  exact (all_bytes_spec (λ z, byteZ (Zbyte (Z.land 248 z)) =? z / 8 * 8) _ eq_refl Hb).
Qed.
Lemma byte_clamp_high b :
  byteZ (Zbyte (Z.lor 64 (byteZ (Zbyte (Z.land 127 (byteZ b)))))) = 64 + byteZ b mod 64.
Proof.
  pose proof (byteZ_range b) as Hb. apply Z.eqb_eq.
  exact (all_bytes_spec (λ z, byteZ (Zbyte (Z.lor 64 (byteZ (Zbyte (Z.land 127 z))))) =? 64 + z mod 64) _ eq_refl Hb).
Qed.
Lemma byte_127 b : byteZ (Zbyte (Z.land 127 (byteZ b))) = byteZ b mod 128.
Proof.
  pose proof (byteZ_range b) as Hb. apply Z.eqb_eq.
  exact (all_bytes_spec (λ z, byteZ (Zbyte (Z.land 127 z)) =? z mod 128) _ eq_refl Hb).
Qed.

(** The clamped scalar: [2^254] plus a multiple of 8 below it. *)
Lemma clamp_value sk : blen sk = 32 → leToN (clamp sk) = 2 ^ 254 + (leToN sk mod 2 ^ 254) / 8 * 8.
Proof.
  intros (b0 & mid & b31 & -> & Hm)%bytes32_split. unfold clamp.
  change (byte_map 0 (Z.land 248) (b0 :: mid ++ [b31])) with (Zbyte (Z.land 248 (byteZ b0)) :: mid ++ [b31]).
  set (c0 := Zbyte (Z.land 248 (byteZ b0))).
  change (c0 :: mid ++ [b31]) with ((c0 :: mid) ++ [b31]).
  replace 31%nat with (length (c0 :: mid)) by (cbn; lia). rewrite !byte_map_app.
  change (b0 :: mid ++ [b31]) with ((b0 :: mid) ++ [b31]). rewrite !leToN_app, !leToN_cons.
  unfold c0. rewrite byte_248, byte_clamp_high. cbn [leToN fold_right length]. rewrite Hm.
  change (8 * Z.of_nat 31) with 248. pose proof (byteZ_range b0). pose proof (byteZ_range b31).
  pose proof (leToN_range mid) as Hr. rewrite Hm in Hr. change (8 * Z.of_nat 30) with 240 in Hr.
  set (m := leToN mid) in *. set (x := byteZ b0) in *. set (y := byteZ b31) in *.
  rewrite !Z.mul_0_l, !Z.add_0_r.
  assert (E : (x + m * 2 ^ 8 + y * 2 ^ 248) mod 2 ^ 254 = x + m * 2 ^ 8 + (y mod 64) * 2 ^ 248).
  { symmetry. apply (Zmod_unique _ _ (y / 64)); [|pose proof (Z_div_mod_eq_full y 64); lia].
    pose proof (Z.mod_pos_bound y 64 eq_refl). lia. }
  rewrite E. replace (x + m * 2 ^ 8 + y mod 64 * 2 ^ 248) with (x + (m * 32 + y mod 64 * 2 ^ 245) * 8) by lia.
  rewrite Z.div_add by done. lia.
Qed.

Lemma decodeU_value u : blen u = 32 → decodeU u = leToN u mod 2 ^ 255.
Proof.
  intros (b0 & mid & b31 & -> & Hm)%bytes32_split. unfold decodeU.
  change (b0 :: mid ++ [b31]) with ((b0 :: mid) ++ [b31]).
  replace 31%nat with (length (b0 :: mid)) by (cbn; lia). rewrite byte_map_app.
  rewrite !leToN_app, !leToN_cons, byte_127. cbn [leToN fold_right length]. rewrite Hm.
  change (8 * Z.of_nat 31) with 248. pose proof (byteZ_range b0). pose proof (byteZ_range b31).
  pose proof (leToN_range mid) as Hr. rewrite Hm in Hr. change (8 * Z.of_nat 30) with 240 in Hr.
  set (m := leToN mid) in *. set (x := byteZ b0) in *. set (y := byteZ b31) in *.
  rewrite !Z.mul_0_l, !Z.add_0_r. apply (Zmod_unique _ _ (y / 128)).
  - pose proof (Z.mod_pos_bound y 128 eq_refl). lia.
  - pose proof (Z_div_mod_eq_full y 128). lia.
Qed.

(** [C35] X25519 is the Montgomery ladder of Curve25519: for a 32-byte scalar and
    a 32-byte coordinate the code's result is 32 bytes whose little-endian value
    is the ladder's [X * Z^(p-2) mod p] for the scalar clamped to
    [2^254 + 8k] and the coordinate without its top bit, where every masked
    swap and every step of the code is one doubling and one differential
    addition on [v^2 = u^3 + 486662 u^2 + u]. *)
Theorem x25519_is_montgomery_ladder sk u :
  blen sk = 32 → blen u = 32 →
  blen (x25519 sk u) = 32 ∧
  leToN (x25519 sk u) = montgomery_u (2 ^ 254 + (leToN sk mod 2 ^ 254) / 8 * 8) (leToN u mod 2 ^ 255).
Proof.
  intros Hs Hu. rewrite <-clamp_value, <-decodeU_value by done. unfold x25519, montgomery_u.
  pose proof (decodeU_range u) as Hx. set (x1 := decodeU u) in *. set (bits := leToN (clamp sk)).
  assert (H0 : reduced (mkLadder 1 0 x1 1)) by (unfold reduced, P; cbn; lia).
  pose proof (ladder_loop_spec bits x1 255 false (mkLadder 1 0 x1 1) Hx H0) as H. cbv zeta in H.
  rewrite swap_state_spec in H. cbn [Z.b2z l_x2 l_z2 l_x3 l_z3] in H.
  destruct (ladder_loop _ _ _ _ _) as [sw s]. destruct H as (b & -> & Hr & H).
  split; [apply nToLe_len|]. rewrite <-H, nToLe_value, modInv_spec.
  set (r := swap_state _ s).
  assert (Hrr : reduced r) by (unfold r; rewrite swap_state_spec; destruct b; [by apply flip_reduced|done]).
  destruct Hrr as (H1 & H2 & _). rewrite (rem_mod (l_x2 r * _)).
  - by rewrite Zmod_mod, Zmult_mod_idemp_r, <-Zmult_mod_idemp_r, Z.mod_pow_l, Zmult_mod_idemp_r.
  - apply Z.mul_nonneg_nonneg; [lia|apply mod_range].
Qed.

Lemma x25519_is_montgomery_ladder_witness :
  let sk := be_bytes 32 5 in
  leToN (x25519 sk BASE) = montgomery_u (2 ^ 254 + (leToN sk mod 2 ^ 254) / 8 * 8) (leToN BASE mod 2 ^ 255).
Proof.
  exact (proj2 (x25519_is_montgomery_ladder (be_bytes 32 5) BASE (be_bytes_len 32 5) eq_refl)).
Defined.
