(* ===== verification/Enclave.v ===== *)
(** * The enclave ([shared/crypto/enclave.ts], [shared/seed.ts],
    [shared/crypto/prf.ts], [web/src/stores/keyTag.ts])

    The master seed and everything derived from it.  Random draws and the
    answers of the passkey ceremonies are arguments.  Buffers a caller hands in
    are part of the result where the code wipes them. *)
From S2P Require Export X25519.

(** ** [seed.ts] *)

Definition MASTER_SEED_LEN : Z := 32.
Definition SEALED_MASTER_KEY_LEN : Z := 24 + MASTER_SEED_LEN + 16.

Definition asSealedMasterKey (bs : bytes) : Res bytes :=
  if negb (blen bs =? SEALED_MASTER_KEY_LEN) then Err InvalidParam else Ok bs.

Definition asMasterSeed (bs : bytes) : Res bytes :=
  if negb (blen bs =? MASTER_SEED_LEN) then Err InvalidParam else Ok bs.

Definition BIND_TAG_LEN : Z := 32.
Definition SEAL_PRF_MIN_LEN : Z := 16.
Definition MUSEC_MIN_LEN : Z := 32.

(** [buf.every((b) => b === 0)] *)
Definition all_zero (bs : bytes) : bool := forallb (λ b, byteZ b =? 0) bs.

(** [buf.fill(0)] *)
Definition wiped (bs : bytes) : bytes := zeros (length bs).

(** [InnerEnclave]: the master seed.  [OuterEnclave] holds one. *)
Record Enclave := mkEnclave { seed : bytes }.

Section enclave.
Context {C : CryptoPrims}.

(** ** [InnerEnclave] *)

Definition sealKeyFromPRF (prf : bytes) : Res bytes :=
  if blen prf <? SEAL_PRF_MIN_LEN then Err InvalidParam
  else deriveKey prf PBind (StructKDM nullKDM).

(** [os] is the [gen256BitSecureRandomSeed()] the call draws, nothing where the
    draw throws. *)
Definition mix (os : option bytes) (musec : bytes) : Res Enclave :=
  if blen musec <? MUSEC_MIN_LEN then Err InvalidParam
  else
    match os with
    | None => Throw
    | Some os =>
        let hashed := blake3hash (os ++ musec) in
        seed ← asMasterSeed hashed;
        Ok (mkEnclave seed)
    end.

Definition importSeed (bs : bytes) : Res Enclave :=
  seed ← asMasterSeed bs;
  owned ← asMasterSeed seed;
  Ok (mkEnclave owned).

Definition inner_unseal (sealed ikm : bytes) : Res Enclave :=
  _ ← asSealedMasterKey sealed;
  key ← sealKeyFromPRF ikm;
  plain ← catching DecryptionError (decryptXSalsa20Poly1305Combined sealed key);
  importSeed plain.

Definition idnt (e : Enclave) (kdm : IKDM) : Res bytes := deriveKey (seed e) PIdentity (StructKDM kdm).
Definition enc_realmKey (e : Enclave) (kdm : IKDM) : Res bytes := deriveRealmKey (seed e) kdm.
Definition realmID (e : Enclave) (kdm : IKDM) : Res bytes := deriveRealmID (seed e) kdm.
Definition exportFileKey (e : Enclave) (nonce : bytes) : Res bytes := deriveKey (seed e) PExport (RawKDM nonce).
Definition fingerprint (e : Enclave) (kdm : KDMArg) : Res bytes := deriveKey (seed e) PFingerprint kdm.
Definition bindTag (e : Enclave) (credId : bytes) : Res bytes := deriveKey (seed e) PBindTag (RawKDM credId).

(** [nonce] is the draw of the cipher. *)
Definition inner_seal (e : Enclave) (nonce ikm : bytes) : Res bytes :=
  key ← sealKeyFromPRF ikm;
  sealed ← catching InternalError (encryptXSalsa20Poly1305Combined nonce (seed e) key);
  asSealedMasterKey sealed.

Definition exportSeedHosts (e : Enclave) (hosts : list BundleHost) : Res bytes :=
  hostsEnc ← run_enc (cEncode identityHostsCodec
    ((λ h, mkBundleHost (bh_handle h) (bh_label h) (Some (default 0 (bh_idx h)))) <$> hosts));
  out ← u8set (zeros (Z.to_nat MASTER_SEED_LEN + length hostsEnc)) (seed e) 0;
  u8set out hostsEnc (Z.to_nat MASTER_SEED_LEN).

Definition sealSeedHosts (e : Enclave) (nonce wrapKey : bytes) (hosts : list BundleHost) : Res bytes :=
  plain ← exportSeedHosts e hosts;
  catching InternalError (encryptXSalsa20Poly1305Combined nonce plain wrapKey).

Definition fromSeedHosts (buf : bytes) : Res (Enclave * list BundleHost) :=
  if (blen buf =? 0) || all_zero buf then Err MissingSeed
  else if blen buf <? MASTER_SEED_LEN + 1 then Err InvalidMessage
  else
    let seedRaw := take (Z.to_nat MASTER_SEED_LEN) buf in
    if all_zero seedRaw then Err MissingSeed
    else
      '(hosts, extra) ← run_dec (hosts ← readStruct identityHostsCodec; d ← m_get; mret (hosts, negb (dec_done d)))
                 (drop (Z.to_nat MASTER_SEED_LEN) buf);
      if (extra : bool) then Err InvalidMessage
      else
        enclave ← importSeed seedRaw;
        Ok (enclave, hosts).

(** ** [OuterEnclave]: results, with the caller's buffer as it is left *)

(** The buffer is wiped in [finally], on the path of a throw too. *)
Definition fromRandom (os : option bytes) (musec : bytes) : Res Enclave * bytes := (mix os musec, wiped musec).
Definition fromBytes (bs : bytes) : Res Enclave := importSeed bs.
Definition sealWithIKM (e : Enclave) (nonce ikm : bytes) : Res bytes * bytes := (inner_seal e nonce ikm, wiped ikm).
Definition unsealWithIKM (sealed ikm : bytes) : Res Enclave * bytes := (inner_unseal sealed ikm, wiped ikm).

Definition exportKey (e : Enclave) (nonce : bytes) : Res bytes :=
  if negb (blen nonce =? hashBytes) then Err InvalidParam else exportFileKey e nonce.

Definition bagman (e : Enclave) (idKDM realmKDM : IKDM) : Res BagManager :=
  idn ← idnt e idKDM;
  realm ← enc_realmKey e realmKDM;
  rid ← realmID e realmKDM;
  rlm ← deriveHostRLM rid idKDM;
  bm_init idn realm rlm idKDM realmKDM.

(** ** Passkeys ([prf.ts]) *)

Record PrfCeremony := mkCeremony {
  pc_credId : bytes; pc_userId : option bytes; pc_attachment : option jsstr;
  pc_transports : option (list jsstr); pc_aaguid : option bytes;
}.
Record PrfBinding := mkBinding { pb_sealed : bytes; pb_credId : bytes; pb_salt : option bytes }.
Record BindPrior := mkPrior { bp_credId : bytes; bp_tag : bytes }.
Record PrfSealedMaster := mkSealedMaster { sm_sealed : bytes; sm_salt : bytes; sm_ceremony : PrfCeremony }.

(** [createPrfCred] and [evalPrf], the two browser ceremonies: what they are
    asked and what they answer. *)
Record PrfCreated := mkCreated { pr_ceremony : PrfCeremony; pr_enabled : bool; pr_prf : option bytes }.
Record PrfEvalReq := mkEvalReq {
  ev_credIds : list bytes; ev_salt : bytes; ev_salts : option (list (bytes * bytes));
}.
Class Passkeys := {
  createPrfCred : bytes → Res PrfCreated;
  evalPrf : PrfEvalReq → Res (bytes * PrfCeremony);
}.
Context {K : Passkeys}.

(** [opts.credId]: one id, or a list. *)
Inductive CredIdOpt := NoCred | OneCred (id : bytes) | SomeCreds (ids : list bytes).
Record PasskeyPrfOpts := mkPrfOpts { po_salt : option bytes; po_credId : CredIdOpt; po_create : bool }.

Definition credIdList (id : CredIdOpt) : list bytes :=
  match id with
  | NoCred => []
  | OneCred id => [id]
  | SomeCreds ids => filter (λ c, (0 <? blen c) = true) ids
  end.

(** ["diplomatic.prf.v1"] in UTF-8. *)
Definition DEFAULT_PRF_SALT : bytes := text_encode (js "diplomatic.prf.v1").

(** The PRF output, the salt, and the public facts. *)
Definition sealPRF (opts : PasskeyPrfOpts) : Res (bytes * bytes * PrfCeremony) :=
  let salt := default DEFAULT_PRF_SALT (po_salt opts) in
  let needCreate := po_create opts &&
    match po_credId opts with NoCred => true | SomeCreds [] => true | _ => false end in
  created ← (if needCreate then
      c ← createPrfCred salt;
      if negb (pr_enabled c) then Err WebAuthnError else Ok (Some c)
    else Ok None);
  let credId := match created with Some c => OneCred (pc_credId (pr_ceremony c)) | None => po_credId opts end in
  let meta := pr_ceremony <$> created in
  let pack prf (ev : PrfCeremony) :=
    (prf, salt, mkCeremony (pc_credId ev) (meta ≫= pc_userId)
       (match pc_attachment ev with Some a => Some a | None => meta ≫= pc_attachment end)
       (match pc_transports ev with Some t => Some t | None => meta ≫= pc_transports end)
       (meta ≫= pc_aaguid)) in
  match (created ≫= pr_prf), created with
  | Some prf, Some c => Ok (pack prf (pr_ceremony c))
  | _, _ =>
      '(prf, ev) ← evalPrf (mkEvalReq (credIdList credId) salt None);
      Ok (pack prf ev)
  end.

(** The matching binding first.  Bindings are told apart by their place. *)
Definition unseal_order (bindings : list PrfBinding) (credId : bytes) : list PrfBinding :=
  match list_find (λ w, bytesEqual (pb_credId w) credId = true) bindings with
  | None => bindings
  | Some (i, w) => w :: delete i bindings
  end.

(** The salts of [unsealPRF]: of every binding that names a credential. *)
Definition prf_salts (bindings : list PrfBinding) (salt : bytes) : list (bytes * bytes) :=
  omap (λ w, if blen (pb_credId w) =? 0 then None
             else Some (pb_credId w, default salt (pb_salt w))) bindings.

Definition unsealPRF (bindings : list PrfBinding) (salt : bytes) : Res (bytes * bytes * list PrfBinding) :=
  let salts := prf_salts bindings salt in
  let mixed := existsb (λ s, negb (bytesEqual s.2 salt)) salts in
  '(prf, ev) ← evalPrf (mkEvalReq salts.*1 salt (if mixed then Some salts else None));
  Ok (prf, pc_credId ev, unseal_order bindings (pc_credId ev)).

Definition sealWithPasskey (e : Enclave) (nonce : bytes) (opts : PasskeyPrfOpts) : Res PrfSealedMaster :=
  '(prf, salt, cer) ← sealPRF opts;
  sealedMaster ← inner_seal e nonce prf;
  Ok (mkSealedMaster sealedMaster salt cer).

Fixpoint check_priors (e : Enclave) (prior : list BindPrior) : Res unit :=
  match prior with
  | [] => Ok tt
  | p :: prior =>
      if negb (blen (bp_tag p) =? BIND_TAG_LEN) then Err InvalidParam
      else
        got ← bindTag e (bp_credId p);
        if negb (bytesEqual got (bp_tag p)) then Err InvalidParam
        else check_priors e prior
  end.

Definition bind (e : Enclave) (nonce : bytes) (opts : PasskeyPrfOpts) (prior : list BindPrior)
    : Res (PrfSealedMaster * bytes) :=
  _ ← check_priors e prior;
  sealed ← sealWithPasskey e nonce opts;
  tag ← bindTag e (pc_credId (sm_ceremony sealed));
  Ok (sealed, tag).

(** The loop over the bindings: a seal that does not open is skipped. *)
Fixpoint try_unseal (prf : bytes) (order : list PrfBinding) : Res Enclave :=
  match order with
  | [] => Err DecryptionError
  | w :: order =>
      match inner_unseal (pb_sealed w) prf with
      | Ok inner => Ok inner
      | Err _ => try_unseal prf order
      | Throw => Throw
      end
  end.

Definition unsealWithPasskey (bindings : list PrfBinding) (salt : bytes) : Res (Enclave * bytes) :=
  match bindings with
  | [] => Err MissingSeed
  | _ =>
      '(prf, credId, order) ← unsealPRF bindings salt;
      enclave ← try_unseal prf order;
      Ok (enclave, credId)
  end.

(** ** [keyTag.ts] *)

Record KeyTag := mkKeyTag { kt_n : bytes; kt_h : bytes }.

Definition keyTagDigest (e : Enclave) (nonce : bytes) : Res bytes :=
  child ← fingerprint e (RawKDM nonce);
  asChildKey child.

(** [n] is the [gen256BitSecureRandomSeed()] the call draws. *)
Definition makeKeyTag (n : bytes) (e : Enclave) : Res KeyTag :=
  h ← keyTagDigest e n;
  Ok (mkKeyTag n h).

Definition keyTagMatches (e : Enclave) (tag : KeyTag) : Res bool :=
  match keyTagDigest e (kt_n tag) with
  | Ok h => Ok (bytesEqual h (kt_h tag))
  | Err _ => Ok false
  | Throw => Throw
  end.
End enclave.

(** * Pairing two devices ([shared/crypto/pairing.ts], [pairAccept] of
    [enclave.ts])

    The enrollee makes a request, the enroller answers with its seed and hosts
    encrypted under a fresh Diffie-Hellman key, the enrollee opens the answer. *)

Section pairing.
Context {C : CryptoPrims} {X : X25519Prims}.

Definition X25519_PUB_LEN : Z := 32.
Definition DHKE_RESP_MIN : Z := X25519_PUB_LEN + 24 + 16.

Definition asDHKEReq (bs : bytes) : Res bytes :=
  if negb (blen bs =? X25519_PUB_LEN) then Err InvalidParam else Ok bs.
Definition asDHKEResp (bs : bytes) : Res bytes :=
  if blen bs <? DHKE_RESP_MIN then Err InvalidParam else Ok bs.

Definition pairKey (sk peer reqPub respPub : bytes) : Res bytes :=
  if negb (blen peer =? X25519_PUB_LEN) then Err InvalidParam
  else
    shared ← catching CryptoError (x25519Shared sk peer);
    if negb (blen shared =? X25519_PUB_LEN) || all_zero shared then Err InvalidParam
    else deriveKey shared PPair (RawKDM (reqPub ++ respPub)).

(** [raw] is the draw of [genX25519]. *)
Definition sealPair (raw dhkeReq : bytes) : Res (bytes * bytes) :=
  '(priv, pub) ← catching CryptoError (genX25519 raw);
  key ← pairKey priv dhkeReq dhkeReq pub;
  Ok (key, pub).

(** [raw] and [nonce]: the draws of the key pair and of the cipher. *)
Definition pairAccept (e : Enclave) (raw nonce dhkeReq : bytes) (hosts : list BundleHost)
    (userControlsBothSidesOfPair : bool) : Res bytes :=
  if negb userControlsBothSidesOfPair then Err InvalidParam
  else
    '(key, pub) ← sealPair raw dhkeReq;
    body ← sealSeedHosts e nonce key hosts;
    asDHKEResp (pub ++ body).

(** The enrollee's session. *)
Record PairRequest := mkPairRequest { pq_priv : bytes; pq_req : bytes }.

(** Statuses inside [create] are returned, exceptions are caught. *)
Definition create (raw : bytes) : Res PairRequest :=
  '(priv, pub) ← catching CryptoError (genX25519 raw);
  dhkeReq ← asDHKEReq pub;
  Ok (mkPairRequest priv dhkeReq).

Definition pq_wipe (q : PairRequest) : PairRequest := mkPairRequest (wiped (pq_priv q)) (pq_req q).

Definition dhkeReq (q : PairRequest) : Res bytes := asDHKEReq (pq_req q).

Definition finish (dhkeResp : bytes) : M PairRequest (Enclave * list BundleHost) := λ q,
  let respPub := take (Z.to_nat X25519_PUB_LEN) dhkeResp in
  let body := drop (Z.to_nat X25519_PUB_LEN) dhkeResp in
  match (key ← pairKey (pq_priv q) respPub (pq_req q) respPub;
         plain ← catching DecryptionError (decryptXSalsa20Poly1305Combined body key);
         fromSeedHosts plain) with
  | Ok out => (Ok out, pq_wipe q)
  | Err st => (Err st, q)
  | Throw => (Throw, q)
  end.
End pairing.
