(* ===== verification/EnclaveFacts.v ===== *)
(** * The enclave keeps its seed: round trips of every sealed form *)
From S2P Require Export Enclave X25519.

Definition enclave_ok (e : Enclave) : Prop := blen (seed e) = MASTER_SEED_LEN.

Lemma u8set_into_zeros a b :
  (out ← u8set (zeros (length a + length b)) a 0; u8set out b (length a)) = Ok (a ++ b).
Proof.
  unfold u8set. cbn [Nat.add]. unfold zeros. rewrite length_replicate.
  destruct (Nat.ltb_spec (length a + length b) (length a)); [lia|].
  cbn [mbind Res_bind res_bind]. rewrite take_0, drop_replicate. cbn [app].
  rewrite length_app, length_replicate.
  destruct (Nat.ltb_spec (length a + (length a + length b - length a)) (length a + length b)); [lia|].
  f_equal. rewrite take_app_length. f_equal.
  rewrite drop_ge by (rewrite length_app, length_replicate; lia). apply app_nil_r.
Qed.

Lemma all_zero_app_false a b : all_zero a = false → all_zero (a ++ b) = false.
Proof. intros H. unfold all_zero in *. by rewrite forallb_app, H. Qed.

Lemma all_zero_wiped bs : all_zero (wiped bs) = true.
Proof. unfold wiped, zeros. by induction (length bs). Qed.

Section facts.
Context {C : CryptoPrims} {L : CryptoLaws C}.

(** ** Factories *)

Lemma asMasterSeed_ok bs s : asMasterSeed bs = Ok s → s = bs ∧ blen bs = MASTER_SEED_LEN.
Proof. unfold asMasterSeed. destruct (Z.eqb_spec (blen bs) MASTER_SEED_LEN); cbn; [by intros [= ->]|done]. Qed.

Lemma importSeed_spec bs :
  importSeed bs = if blen bs =? MASTER_SEED_LEN then Ok (mkEnclave bs) else Err InvalidParam.
Proof. unfold importSeed, asMasterSeed. by destruct (blen bs =? MASTER_SEED_LEN) eqn:E; cbn; rewrite ?E. Qed.

Lemma importSeed_Ok bs e : importSeed bs = Ok e → seed e = bs ∧ enclave_ok e.
Proof. rewrite importSeed_spec. destruct (Z.eqb_spec (blen bs) MASTER_SEED_LEN); [by intros [= <-]|done]. Qed.

Lemma importSeed_seed e : enclave_ok e → importSeed (seed e) = Ok e.
Proof. intros H. rewrite importSeed_spec, H, Z.eqb_refl. by destruct e. Qed.

Lemma mix_ok os musec e :
  mix os musec = Ok e → (∃ bs, os = Some bs ∧ seed e = blake3hash (bs ++ musec)) ∧ enclave_ok e ∧ MUSEC_MIN_LEN <= blen musec.
Proof.
  unfold mix. destruct (Z.ltb_spec (blen musec) MUSEC_MIN_LEN); [done|].
  destruct os as [bs|]; [|done]. intros (s & [-> Hl]%asMasterSeed_ok & [= <-])%res_bind_Ok_inv. split_and!; [by exists bs|done..].
Qed.

(** ** Sealing *)

Lemma sealed_opens nonce data key cph :
  length nonce = 24%nat → encryptXSalsa20Poly1305Combined nonce data key = Ok cph →
  decryptXSalsa20Poly1305Combined cph key = Ok data.
Proof.
  intros Hn (ct & Hs & [= <-])%res_bind_Ok_inv. unfold decryptXSalsa20Poly1305Combined.
  rewrite take_app_length', drop_app_length' by done. by eapply salsa_open_seal.
Qed.

Lemma seal_len e nonce ikm s : inner_seal e nonce ikm = Ok s → blen s = SEALED_MASTER_KEY_LEN.
Proof.
  intros (key & _ & H)%res_bind_Ok_inv. apply res_bind_Ok_inv in H as (cph & _ & H).
  unfold asSealedMasterKey in H. destruct (Z.eqb_spec (blen cph) SEALED_MASTER_KEY_LEN); [|done].
  by injection H as <-.
Qed.

Lemma unseal_seal e nonce ikm s :
  enclave_ok e → length nonce = 24%nat → inner_seal e nonce ikm = Ok s → inner_unseal s ikm = Ok e.
Proof.
  intros He Hn Hs. pose proof (seal_len _ _ _ _ Hs) as Hl.
  unfold inner_seal in Hs. apply res_bind_Ok_inv in Hs as (key & Hk & H).
  apply res_bind_Ok_inv in H as (cph & Hc%catching_Ok & H).
  unfold inner_unseal, asSealedMasterKey in *.
  destruct (Z.eqb_spec (blen cph) SEALED_MASTER_KEY_LEN); [|done]. injection H as <-.
  rewrite Hl, Z.eqb_refl. cbn [negb mbind Res_bind res_bind]. rewrite Hk. cbn [mbind Res_bind res_bind].
  rewrite (sealed_opens _ _ _ _ Hn Hc). cbn [catching mbind Res_bind res_bind]. by apply importSeed_seed.
Qed.

Lemma unseal_ok s ikm e : inner_unseal s ikm = Ok e → enclave_ok e.
Proof.
  intros (? & _ & H)%res_bind_Ok_inv. apply res_bind_Ok_inv in H as (key & _ & H).
  apply res_bind_Ok_inv in H as (plain & _ & H). by apply importSeed_Ok in H as [_ ?].
Qed.

Lemma unseal_total s ikm : inner_unseal s ikm ≠ Throw.
Proof.
  unfold inner_unseal, asSealedMasterKey. destruct (negb _); [done|]. cbn [mbind Res_bind res_bind].
  unfold sealKeyFromPRF. destruct (_ <? _); [done|].
  pose proof (deriveKey_total ikm PBind (StructKDM nullKDM)). destruct (deriveKey _ _ _); [|done..].
  cbn [mbind Res_bind res_bind]. pose proof (catching_total DecryptionError (decryptXSalsa20Poly1305Combined s a)).
  destruct (catching _ _); [|done..]. cbn. rewrite importSeed_spec. by destruct (_ =? _).
Qed.

(** ** Seed and hosts *)

Definition host_row (h : BundleHost) : BundleHost :=
  mkBundleHost (bh_handle h) (bh_label h) (Some (default 0 (bh_idx h))).

Definition hosts_ok (hosts : list BundleHost) : Prop := identityHosts_ok (host_row <$> hosts).

Lemma exportSeedHosts_wire e hosts :
  enclave_ok e → hosts_ok hosts →
  exportSeedHosts e hosts = Ok (seed e ++ identityHosts_wire (host_row <$> hosts)).
Proof.
  intros He Hh. unfold exportSeedHosts.
  assert (Hw : run_enc (cEncode identityHostsCodec (host_row <$> hosts)) = Ok (identityHosts_wire (host_row <$> hosts)))
    by apply encodes_run, (lawful_enc (ok := identityHosts_ok)), Hh.
  unfold host_row in Hw at 1. rewrite Hw. cbn [mbind Res_bind res_bind].
  unfold enclave_ok, blen in He. replace (Z.to_nat MASTER_SEED_LEN) with (length (seed e)) by lia.
  apply u8set_into_zeros.
Qed.

Lemma fromSeedHosts_wire e hosts :
  enclave_ok e → all_zero (seed e) = false → identityHosts_ok hosts →
  fromSeedHosts (seed e ++ identityHosts_wire hosts) = Ok (e, identityHosts_norm hosts).
Proof.
  intros He Hz Hh. unfold fromSeedHosts. pose proof He as Hl. unfold enclave_ok in Hl.
  set (hw := identityHosts_wire hosts).
  assert (Hw1 : 1 <= blen hw).
  { unfold hw, identityHosts_wire, counted_wire. rewrite blen_app.
    pose proof (varint_wire_pos (Z.of_nat (length hosts)) (count_varnum _ (proj1 Hh))).
    pose proof (blen_nonneg (concat (bundleHost_wire <$> hosts))). lia. }
  rewrite blen_app, Hl, all_zero_app_false by done. change MASTER_SEED_LEN with 32 in *.
  rewrite (proj2 (Z.eqb_neq _ _)), (proj2 (Z.ltb_ge _ _)) by lia. cbn [orb].
  unfold blen in Hl. rewrite take_app_length', drop_app_length', Hz by lia.
  pose proof (lawful_dec (norm := identityHosts_norm) (ok := identityHosts_ok) hosts Hh [] []) as Hd.
  cbn [app] in Hd. rewrite app_nil_r in Hd. change (blen []) with 0 in Hd.
  fold hw in Hd.
  assert (Hr : run_dec (hosts ← readStruct identityHostsCodec; d ← m_get; mret (hosts, negb (dec_done d))) hw =
               Ok (identityHosts_norm hosts, false)).
  { unfold run_dec, newDecoder, mbind, M_bind, m_bind, readStruct. rewrite Hd. cbn [m_get].
    unfold dec_done. cbn [data pos]. by rewrite (proj2 (Z.leb_le _ _)) by lia. }
  rewrite Hr. cbn [mbind Res_bind res_bind]. by rewrite importSeed_seed.
Qed.

(** ** Pairing *)

Context {X : X25519Prims}.

Lemma genX25519_len raw priv pub :
  genX25519 raw = Ok (priv, pub) → blen pub = 32 ∧ blen priv = 32.
Proof.
  unfold genX25519, asX25519Sk. destruct (Z.eqb_spec (blen (clamp raw)) X25519_SK_LEN) as [E|]; cbn [negb]; [|done].
  intros (got & _ & H)%res_bind_Ok_inv. destruct (bytesEqual _ _); [|done]. injection H as <- <-.
  split; [apply nToLe_len|exact E].
Qed.

(** X25519's symmetry, at the two key pairs of a session. *)
Definition agree (privA pubA privB pubB : bytes) : Prop := x25519Shared privA pubB = x25519Shared privB pubA.

Lemma pairKey_agree privA pubA privB pubB reqPub respPub :
  blen pubA = 32 → blen pubB = 32 → agree privA pubA privB pubB →
  pairKey privA pubB reqPub respPub = pairKey privB pubA reqPub respPub.
Proof. intros HA HB Hag. unfold pairKey. by rewrite HA, HB, Hag. Qed.

Lemma sealSeedHosts_opens e nonce key hosts body :
  enclave_ok e → all_zero (seed e) = false → hosts_ok hosts → length nonce = 24%nat →
  sealSeedHosts e nonce key hosts = Ok body →
  ∃ plain, decryptXSalsa20Poly1305Combined body key = Ok plain ∧
    fromSeedHosts plain = Ok (e, host_row <$> hosts).
Proof.
  intros He Hz Hh Hn. unfold sealSeedHosts. rewrite exportSeedHosts_wire by done.
  cbn [mbind Res_bind res_bind]. intros Hc%catching_Ok. exists (seed e ++ identityHosts_wire (host_row <$> hosts)).
  split; [by apply (sealed_opens nonce)|]. rewrite fromSeedHosts_wire by done. do 2 f_equal.
  unfold identityHosts_norm. rewrite <-list_fmap_compose. apply list_fmap_ext. by intros i [h l [x|]].
Qed.
End facts.
