(* ===== verification/EnclaveProps.v ===== *)
(** * Properties of the enclave, its seals and the pairing of devices *)
From S2P Require Export EnclaveFacts EximProps.

(** What BLAKE3 and XSalsa20-Poly1305 promise on well-sized keys: they answer. *)
Class CryptoRuns (C : CryptoPrims) : Prop := {
  blake3_context_runs txt ctx : ∃ k, blake3_context txt ctx = Ok k ∧ blen k = 32;
  blake3_keyed_runs txt key : blen key = 32 → ∃ h, blake3_keyed txt key = Ok h;
  salsa_seal_runs key nonce txt : blen key = 32 → blen nonce = 24 → ∃ cph, salsa_seal key nonce txt = Ok cph;
}.

Section props.
Context {C : CryptoPrims} {L : CryptoLaws C}.

(** ** Passkey bindings *)

Lemma unseal_order_perm bindings credId : unseal_order bindings credId ≡ₚ bindings.
Proof.
  unfold unseal_order. destruct (list_find _ bindings) as [[i w]|] eqn:E; [|done].
  apply list_find_Some in E as (Hi & _). symmetry. by apply delete_Permutation.
Qed.

Lemma try_unseal_first prf w e order : inner_unseal (pb_sealed w) prf = Ok e → try_unseal prf (w :: order) = Ok e.
Proof. intros H. cbn. by rewrite H. Qed.

(** The loop succeeds exactly when a binding opens, and never raises. *)
Lemma try_unseal_spec prf order :
  match try_unseal prf order with
  | Ok e => ∃ w, w ∈ order ∧ inner_unseal (pb_sealed w) prf = Ok e
  | Err st => st = DecryptionError ∧ ∀ w, w ∈ order → is_ok (inner_unseal (pb_sealed w) prf) = false
  | Throw => False
  end.
Proof.
  induction order as [|w order IH]; cbn [try_unseal]; [split; [done|]; by intros w ?%elem_of_nil|].
  destruct (inner_unseal (pb_sealed w) prf) as [e| |] eqn:E.
  - exists w. split; [by left|done].
  - destruct (try_unseal prf order) as [e| |].
    + destruct IH as (w' & Hw & He). exists w'. split; [by right|done].
    + destruct IH as [-> IH]. split; [done|]. intros w' [->|Hw]%elem_of_cons; [by rewrite E|by apply IH].
    + done.
  - by apply (unseal_total (pb_sealed w) prf) in E.
Qed.

Lemma check_priors_spec e prior :
  check_priors e prior = Ok tt ↔ Forall (λ p, bindTag e (bp_credId p) = Ok (bp_tag p)) prior.
Proof.
  induction prior as [|p prior IH]; cbn [check_priors]; [by split; [constructor|]|].
  rewrite Forall_cons, <-IH. destruct (Z.eqb_spec (blen (bp_tag p)) BIND_TAG_LEN) as [Hl|Hl]; cbn [negb].
  - destruct (bindTag e (bp_credId p)) as [got| |] eqn:Eg; cbn [mbind Res_bind res_bind].
    + destruct (bytesEqual got (bp_tag p)) eqn:E; cbn [negb].
      * apply bytesEqual_spec in E as ->. split; [done|by intros [_ ?]].
      * apply bytesEqual_false in E. split; [done|]. by intros [[= ->] _].
    + split; [done|by intros [? _]].
    + split; [done|by intros [? _]].
  - split; [done|]. intros [Hb _]. by apply deriveKey_len in Hb.
Qed.

Context {K : Passkeys}.

(** Seals open: the master that [inner_seal] encrypted comes back under the
    same key material, alone ([unsealWithIKM], which wipes that material) or as
    the binding of the passkey that answers a ceremony ([unsealWithPasskey]).
    With no binding that opens, the answer is [DecryptionError], never an
    exception, and an enclave it returns is one that a binding holds. *)
Theorem seals_open e nonce ikm sealed :
  enclave_ok e → length nonce = 24%nat → inner_seal e nonce ikm = Ok sealed →
  blen sealed = SEALED_MASTER_KEY_LEN ∧
  unsealWithIKM sealed ikm = (Ok e, wiped ikm) ∧
  (∀ bindings salt credId order, unsealPRF bindings salt = Ok (ikm, credId, order) →
     (∃ i w, list_find (λ w, bytesEqual (pb_credId w) credId = true) bindings = Some (i, w) ∧ pb_sealed w = sealed) →
     unsealWithPasskey bindings salt = Ok (e, credId)) ∧
  (∀ bindings salt prf credId order, bindings ≠ [] → unsealPRF bindings salt = Ok (prf, credId, order) →
     order ≡ₚ bindings ∧
     match unsealWithPasskey bindings salt with
     | Ok (e', credId') => credId' = credId ∧ ∃ w, w ∈ bindings ∧ inner_unseal (pb_sealed w) prf = Ok e'
     | Err st => st = DecryptionError ∧ ∀ w, w ∈ bindings → is_ok (inner_unseal (pb_sealed w) prf) = false
     | Throw => False
     end).
Proof.
  intros He Hn Hs. pose proof (unseal_seal _ _ _ _ He Hn Hs) as Hu. split_and!.
  - by eapply seal_len.
  - unfold unsealWithIKM. by rewrite Hu.
  - intros bindings salt credId order Hp (i & w & Hf & Hw).
    assert (bindings ≠ []) by (by intros ->).
    assert (Ho : order = w :: delete i bindings).
    { unfold unsealPRF in Hp. apply res_bind_Ok_inv in Hp as ([prf ev] & _ & [= -> <- <-]).
      unfold unseal_order. by rewrite Hf. }
    unfold unsealWithPasskey. destruct bindings as [|b bs]; [done|]. rewrite Hp, bind_Ok. subst order.
    rewrite (try_unseal_first ikm w e) by (by rewrite Hw). done.
  - intros bindings salt prf credId order Hne Hp.
    assert (Ho : order ≡ₚ bindings).
    { unfold unsealPRF in Hp. apply res_bind_Ok_inv in Hp as ([p ev] & _ & [= <- <- <-]). apply unseal_order_perm. }
    split; [done|]. unfold unsealWithPasskey. destruct bindings as [|b bs]; [done|]. rewrite Hp, bind_Ok.
    pose proof (try_unseal_spec prf order) as Ht. destruct (try_unseal prf order) as [e'| |]; cbn.
    + destruct Ht as (w & Hw & Hu'). split; [done|]. exists w. by rewrite <-Ho.
    + destruct Ht as [-> Ht]. split; [done|]. intros w Hw. apply Ht. by rewrite Ho.
    + done.
Qed.

(** One keyring, one master: [bind] succeeds only if every earlier member's
    tag is this master's tag for its credential; the new member then passes
    the same check, and its seal opens to this master under the key material of
    its ceremony. *)
Theorem bind_keeps_one_master e nonce opts prior sealed tag :
  enclave_ok e → length nonce = 24%nat →
  bind e nonce opts prior = Ok (sealed, tag) →
  Forall (λ p, bindTag e (bp_credId p) = Ok (bp_tag p)) prior ∧
  check_priors e (prior ++ [mkPrior (pc_credId (sm_ceremony sealed)) tag]) = Ok tt ∧
  ∃ prf, sealPRF opts = Ok (prf, sm_salt sealed, sm_ceremony sealed) ∧ inner_unseal (sm_sealed sealed) prf = Ok e.
Proof.
  intros He Hn ([] & Hp%check_priors_spec & H)%res_bind_Ok_inv.
  apply res_bind_Ok_inv in H as (s & Hs & H). apply res_bind_Ok_inv in H as (t & Ht & [= <- <-]).
  apply res_bind_Ok_inv in Hs as ([[prf salt] cer] & Hc & Hs). apply res_bind_Ok_inv in Hs as (sm & Hse & [= <-]).
  cbn in *. split_and!; [done| |].
  - apply check_priors_spec, Forall_app. split; [done|]. by apply Forall_singleton.
  - exists prf. split; [done|]. by eapply unseal_seal.
Qed.

(** ** What the factories give *)

Lemma bagman_valid e idKDM realmKDM m :
  bagman e idKDM realmKDM = Ok m → bm_valid m ∧ bm_idKDM m = idKDM ∧ bm_realmKDM m = realmKDM.
Proof.
  intros (idn & Hi%deriveKey_len & H)%res_bind_Ok_inv. apply res_bind_Ok_inv in H as (rk & _ & H).
  apply res_bind_Ok_inv in H as (rid & _ & H). apply res_bind_Ok_inv in H as (rlm & Hl%deriveKey_len & H).
  pose proof H as Hm. unfold bm_init in H. apply catching_Ok in H. apply res_bind_Ok_inv in H as (keys & _ & [= <-]).
  by unfold bm_valid.
Qed.

Lemma fromSeedHosts_enclave buf e hosts :
  fromSeedHosts buf = Ok (e, hosts) → enclave_ok e ∧ all_zero (seed e) = false ∧ seed e = take 32 buf.
Proof.
  unfold fromSeedHosts. destruct (_ || _); [done|]. destruct (_ <? _); [done|].
  destruct (all_zero (take _ buf)) eqn:Ez; [done|].
  intros ([hs []] & _ & H)%res_bind_Ok_inv; [done|].
  apply res_bind_Ok_inv in H as (e' & [Hs Hok]%importSeed_Ok & [= <- <-]). by rewrite Hs in *.
Qed.

(** [C34] Whatever its source, an enclave holds a 32-byte master: random
    ([fromRandom], where it is the digest of the system's bytes and the
    user's, and the user's buffer is zeros on every path, the one where the
    system's generator throws included), imported, unsealed
    or received; seals are 72 bytes; derived export keys and key tags are 32
    bytes; and every manager it hands out is a valid one for the identity and
    realm asked for. *)
Theorem enclave_well_typed :
  (∀ os musec, let '(r, musec') := fromRandom os musec in
     musec' = wiped musec ∧ (os = None → MUSEC_MIN_LEN <= blen musec → r = Throw) ∧
     ∀ e, r = Ok e → enclave_ok e ∧ ∃ bs, os = Some bs ∧ seed e = blake3hash (bs ++ musec)) ∧
  (∀ bs e, fromBytes bs = Ok e → enclave_ok e ∧ seed e = bs) ∧
  (∀ sealed ikm e, inner_unseal sealed ikm = Ok e → enclave_ok e) ∧
  (∀ buf e hosts, fromSeedHosts buf = Ok (e, hosts) → enclave_ok e ∧ all_zero (seed e) = false) ∧
  (∀ e nonce ikm sealed, inner_seal e nonce ikm = Ok sealed → blen sealed = SEALED_MASTER_KEY_LEN) ∧
  (∀ e nonce key, exportKey e nonce = Ok key → blen key = 32 ∧ blen nonce = 32) ∧
  (∀ e idKDM realmKDM m, bagman e idKDM realmKDM = Ok m →
     bm_valid m ∧ bm_idKDM m = idKDM ∧ bm_realmKDM m = realmKDM) ∧
  (∀ e n tag, makeKeyTag n e = Ok tag → blen (kt_h tag) = 32 ∧ keyTagMatches e tag = Ok true).
Proof.
  split_and!.
  - intros os musec. cbn. split; [done|]. split; [|by intros e (Hs & He & _)%mix_ok].
    intros -> Hl. unfold mix. by rewrite (proj2 (Z.ltb_ge _ _) Hl).
  - intros bs e [Hs He]%importSeed_Ok. done.
  - apply unseal_ok.
  - intros buf e hosts (H1 & H2 & _)%fromSeedHosts_enclave. done.
  - apply seal_len.
  - intros e nonce key. unfold exportKey. destruct (Z.eqb_spec (blen nonce) hashBytes) as [Hl|]; [|done].
    by intros H%deriveKey_len.
  - apply bagman_valid.
  - intros e n tag (h & Hh & [= <-])%res_bind_Ok_inv. unfold keyTagMatches. cbn [kt_n kt_h]. rewrite Hh, bytesEqual_refl.
    split; [|done]. unfold keyTagDigest in Hh. apply res_bind_Ok_inv in Hh as (ch & Hc%deriveKey_len & Hh).
    unfold asChildKey in Hh. rewrite Hc in Hh. by injection Hh as <-.
Qed.
End props.

(** ** Pairing *)
Section pairing_props.
Context {C : CryptoPrims} {L : CryptoLaws C} {BX : BoxLaw C} {R : CryptoRuns C} {X : X25519Prims}.

Lemma deriveKey_raw_runs parent p kdm : ∃ k, deriveKey parent p (RawKDM kdm) = Ok k ∧ blen k = 32.
Proof.
  destruct (blake3_context_runs parent (purpose_str p)) as (pdk & Hp & Hl).
  destruct (blake3_keyed_runs kdm pdk Hl) as (k & Hk).
  assert (H : deriveKey parent p (RawKDM kdm) = Ok k).
  { unfold deriveKey, derivePDK. rewrite Hp. cbn [catching mbind Res_bind res_bind]. unfold deriveChild. cbn.
    by rewrite Hk. }
  exists k. split; [done|]. by apply deriveKey_len in H.
Qed.

Lemma encrypt_runs nonce data key :
  blen key = 32 → length nonce = 24%nat →
  ∃ cph, encryptXSalsa20Poly1305Combined nonce data key = Ok cph ∧ blen cph = 24 + blen data + 16.
Proof.
  intros Hk Hn. destruct (salsa_seal_runs key nonce data Hk ltac:(unfold blen; lia)) as (ct & Hc).
  exists (nonce ++ ct). unfold encryptXSalsa20Poly1305Combined. rewrite Hc. split; [done|].
  apply salsa_seal_len in Hc. rewrite blen_app, Hc. unfold blen. lia.
Qed.

(** [C33] Pairing hands the enclave over.  The enrollee's request is answered by
    the enroller (whose user affirmed the pairing) with a message the enrollee
    opens to the enroller's master and its hosts, after which the enrollee's
    scalar is zeros: for key pairs on which X25519 agrees with a non-zero
    secret, and any master but the all-zero one.  The answer always comes when
    BLAKE3 and the cipher run.  Without the affirmation there is no answer. *)
Theorem pairing_hands_over_enclave e rawA rawB nonce hosts q privB pubB shared :
  enclave_ok e → all_zero (seed e) = false → hosts_ok hosts → length nonce = 24%nat →
  create rawA = Ok q → genX25519 rawB = Ok (privB, pubB) →
  agree privB pubB (pq_priv q) (pq_req q) →
  x25519Shared privB (pq_req q) = Ok shared → blen shared = 32 → all_zero shared = false →
  pairAccept e rawB nonce (pq_req q) hosts false = Err InvalidParam ∧
  dhkeReq q = Ok (pq_req q) ∧
  ∃ resp, pairAccept e rawB nonce (pq_req q) hosts true = Ok resp ∧
    finish resp q = (Ok (e, host_row <$> hosts), pq_wipe q) ∧ all_zero (pq_priv (pq_wipe q)) = true.
Proof.
  intros He Hz Hh Hn Hq HB Hag Hsh Hsl Hsz.
  unfold create in Hq. apply res_bind_Ok_inv in Hq as ([privA pubA] & HA%catching_Ok & Hq).
  apply res_bind_Ok_inv in Hq as (req & Hreq & [= <-]). cbn [pq_priv pq_req] in *.
  pose proof (genX25519_len _ _ _ HA) as [HlA _]. pose proof (genX25519_len _ _ _ HB) as [HlB _].
  unfold asDHKEReq in Hreq. rewrite HlA in Hreq. injection Hreq as <-.
  split; [done|]. split; [unfold dhkeReq, asDHKEReq; cbn; by rewrite HlA|].
  destruct (deriveKey_raw_runs shared PPair (pubA ++ pubB)) as (key & Hk & Hkl).
  assert (HkB : pairKey privB pubA pubA pubB = Ok key).
  { unfold pairKey. rewrite HlA, Hsh. cbn [negb]. change (32 =? X25519_PUB_LEN) with true. cbn [negb catching].
    rewrite bind_Ok, Hsl, Hsz. exact Hk. }
  assert (HkA : pairKey privA pubB pubA pubB = Ok key).
  { rewrite <-HkB. symmetry. by apply pairKey_agree. }
  assert (Hplain := exportSeedHosts_wire e hosts He Hh).
  destruct (encrypt_runs nonce (seed e ++ identityHosts_wire (host_row <$> hosts)) key Hkl Hn) as (body & Hb & Hbl).
  assert (Hbody : sealSeedHosts e nonce key hosts = Ok body) by (unfold sealSeedHosts; rewrite Hplain, bind_Ok, Hb; done).
  exists (pubB ++ body). split_and!.
  - unfold pairAccept. cbn [negb]. unfold sealPair. rewrite HB. cbn [catching]. rewrite bind_Ok. cbv beta iota.
    rewrite HkB, !bind_Ok, Hbody, bind_Ok. unfold asDHKEResp. rewrite blen_app, HlB, Hbl.
    rewrite (proj2 (Z.ltb_ge _ _)); [done|]. unfold DHKE_RESP_MIN, X25519_PUB_LEN.
    pose proof (blen_nonneg (seed e ++ identityHosts_wire (host_row <$> hosts))). lia.
  - unfold finish. cbn [pq_priv pq_req]. unfold blen in HlB.
    rewrite take_app_length', drop_app_length' by (unfold X25519_PUB_LEN; lia). rewrite HkA, bind_Ok.
    destruct (sealSeedHosts_opens e nonce key hosts body He Hz Hh Hn Hbody) as (plain & Hd & Hf).
    rewrite Hd. cbn [catching]. by rewrite bind_Ok, Hf.
  - apply all_zero_wiped.
Qed.
End pairing_props.

(** ** A concrete pairing *)
Module PairDemo.
Import Box.

(** WebCrypto's key pairs are RFC 7748's; its shared secrets are a constant,
    which is symmetric. *)
#[export] Instance demoX : X25519Prims := {|
  subtle_x25519_pub sk := Ok (x25519Pub sk);
  subtle_x25519_bits _ _ := Ok (be_bytes 32 1);
|}.

#[export] Instance box_runs : CryptoRuns box.
Proof.
  split.
  - intros txt ctx. eexists. split; [reflexivity|]. apply Toy.toy_hash_len.
  - intros txt key _. eexists. reflexivity.
  - intros key nonce txt _ _. eexists. reflexivity.
Qed.

Lemma genX25519_demo raw : blen raw = 32 → genX25519 raw = Ok (clamp raw, x25519Pub (clamp raw)).
Proof.
  intros H. unfold genX25519, asX25519Sk. unfold blen in *. rewrite clamp_len, H, Z.eqb_refl.
  cbn [negb subtle_x25519_pub demoX]. by rewrite bind_Ok, bytesEqual_refl.
Qed.

Lemma shared_demo priv pub : x25519Shared priv pub = Ok (be_bytes 32 1).
Proof. done. Qed.
Lemma agree_demo privA pubA privB pubB : agree privA pubA privB pubB.
Proof. unfold agree. by rewrite !shared_demo. Qed.

Definition e0 : Enclave := mkEnclave (be_bytes 32 9).
Definition nonce24 : bytes := be_bytes 24 8.
Lemma nonce24_len : length nonce24 = 24%nat.
Proof. pose proof (be_bytes_len 24 8) as H. unfold blen in H. unfold nonce24. lia. Qed.

Definition rawA : bytes := be_bytes 32 3.
Definition rawB : bytes := be_bytes 32 4.
Definition hosts0 : list BundleHost := [mkBundleHost (js "alice") (js "home") None].
Definition q0 : PairRequest := mkPairRequest (clamp rawA) (x25519Pub (clamp rawA)).

Lemma create0 : create rawA = Ok q0.
Proof.
  unfold create. rewrite genX25519_demo by apply be_bytes_len. cbn [catching]. rewrite bind_Ok. cbv beta iota.
  unfold asDHKEReq, x25519Pub at 1. by rewrite x25519_len.
Qed.

Lemma hosts0_ok : hosts_ok hosts0.
Proof.
  split; [done|]. constructor; [|constructor].
  split_and!; [by apply (bool_decide_unpack _)..|by apply varnum_ok_len].
Qed.

Lemma pairing_hands_over_enclave_witness :
  ∃ resp, pairAccept e0 rawB nonce24 (pq_req q0) hosts0 true = Ok resp ∧
    finish resp q0 = (Ok (e0, host_row <$> hosts0), pq_wipe q0).
Proof.
  destruct (pairing_hands_over_enclave e0 rawA rawB nonce24 hosts0 q0 _ _ (be_bytes 32 1)
    eq_refl eq_refl hosts0_ok nonce24_len create0 (genX25519_demo rawB (be_bytes_len 32 4)) (agree_demo _ _ _ _)
    (shared_demo _ _) eq_refl eq_refl) as (_ & _ & resp & H1 & H2 & _).
  exists resp. exact (conj H1 H2).
Defined.

(** A passkey that always answers with the same material. *)
Definition ikm0 : bytes := be_bytes 32 2.
Definition cer0 : PrfCeremony := mkCeremony [x01] None None None None.
#[export] Instance demoK : Passkeys := {|
  createPrfCred _ := Ok (mkCreated cer0 true (Some ikm0));
  evalPrf _ := Ok (ikm0, cer0);
|}.

Definition sealed0 : bytes := match inner_seal e0 nonce24 ikm0 with Ok s => s | _ => [] end.
Lemma sealed0_ok : inner_seal e0 nonce24 ikm0 = Ok sealed0.
Proof. vm_compute. reflexivity. Qed.

Definition bindings0 : list PrfBinding :=
  [mkBinding (replicate 72 x00) [x02] None; mkBinding sealed0 [x01] None].

Lemma seals_open_witness :
  unsealWithIKM sealed0 ikm0 = (Ok e0, wiped ikm0) ∧
  unsealWithPasskey bindings0 DEFAULT_PRF_SALT = Ok (e0, [x01]).
Proof.
  destruct (seals_open e0 nonce24 ikm0 sealed0 eq_refl nonce24_len sealed0_ok) as (_ & H1 & H2 & _).
  split; [exact H1|]. eapply H2; [reflexivity|]. eexists _, _. split; [vm_compute; reflexivity|reflexivity].
Defined.

Lemma enclave_well_typed_witness :
  let musec := be_bytes 40 6 in
  (fromRandom (Some [x07]) musec).2 = wiped musec ∧ blen (seed (mkEnclave (Toy.toy_hash (x07 :: musec)))) = 32 ∧
  fromRandom None musec = (Throw, wiped musec).
Proof.
  intros musec. destruct enclave_well_typed as (H & _). pose proof (H None musec) as HN. specialize (H (Some [x07]) musec).
  destruct (fromRandom (Some [x07]) musec) as [r m] eqn:E, (fromRandom None musec) as [r0 m0] eqn:E0.
  destruct H as (Hm & _ & Hr), HN as (Hm0 & HN & _). split; [exact Hm|]. split.
  - apply (Hr (mkEnclave (Toy.toy_hash (x07 :: musec)))). transitivity (fst (fromRandom (Some [x07]) musec)); [by rewrite E|vm_compute; reflexivity].
  - rewrite Hm0, HN; [reflexivity|reflexivity|vm_compute; discriminate].
Defined.

Definition opts0 : PasskeyPrfOpts := mkPrfOpts None NoCred true.
Definition tag0 : bytes := match bindTag e0 [x02] with Ok t => t | _ => [] end.
Definition bound0 : PrfSealedMaster * bytes :=
  match bind e0 nonce24 opts0 [mkPrior [x02] tag0] with Ok b => b | _ => (mkSealedMaster [] [] cer0, []) end.

Lemma bind_keeps_one_master_witness :
  bindTag e0 [x02] = Ok tag0 ∧
  check_priors e0 ([mkPrior [x02] tag0] ++ [mkPrior (pc_credId (sm_ceremony bound0.1)) bound0.2]) = Ok tt.
Proof.
  assert (H : bind e0 nonce24 opts0 [mkPrior [x02] tag0] = Ok (bound0.1, bound0.2)) by (vm_compute; reflexivity).
  destruct (bind_keeps_one_master e0 nonce24 opts0 [mkPrior [x02] tag0] _ _ eq_refl nonce24_len H) as (H1 & H2 & _).
  split; [exact (proj1 (Forall_singleton _ _) H1)|exact H2].
Defined.
End PairDemo.
