(* ===== verification/Blobs.v ===== *)
(** * Blobs ([shared/blobs.ts])

    A blob is an entity whose type is ["blob:"] and a mime and whose body is
    the bytes. *)
From S2P Require Export EntDB.

Definition blobPrefix : jsstr := js "blob:".
Definition blobTyp (mime : jsstr) : jsstr := blobPrefix ++ mime.

Definition isBlobTyp (typ : option jsstr) : bool :=
  match typ with Some t => startsWith t blobPrefix | None => false end.

Definition mimeOf (typ : option jsstr) : option jsstr :=
  match typ with
  | Some t =>
      if negb (isBlobTyp typ) then None
      else
        let mime := drop (length blobPrefix) t in
        if Nat.eqb (length mime) 0 then None else Some mime
  | None => None
  end.

Record IBlobWrite := mkBlobWrite { bw_tags : option (list jsstr); bw_pid : option bytes }.

(** A key that is absent, or present with a value that may be [undefined]. *)
Record IBlobUpdate := mkBlobUpdate {
  bu_tags : option (option (list jsstr)); bu_pid : option (option bytes); bu_mime : option jsstr;
}.

Definition openBlob (bod : bytes) : Res IMsgEntBody := run_dec (readStruct entCodec) bod.

Definition blob_body (bs : bytes) : option bytes := if 0 <? blen bs then Some bs else None.
Definition some_tags (tags : option (list jsstr)) : option (list jsstr) :=
  match tags with Some (_ :: _) => tags | _ => None end.

Definition entOf (opts : option IBlobWrite) (bs : bytes) : IMsgEntBody :=
  mkEnt (opts ≫= bw_pid) (some_tags (opts ≫= bw_tags)) (blob_body bs).

Definition entFromUpdate (prev : IMsgEntBody) (bs : bytes) (opts : option IBlobUpdate) : IMsgEntBody :=
  let pid := default (ent_pid prev) (opts ≫= bu_pid) in
  let tags := default (ent_tags prev) (opts ≫= bu_tags) in
  mkEnt pid (some_tags tags) (blob_body bs).

Definition revOf (head : IMessageHead) : Res IEntRev :=
  parsed ← run_dec (readStruct eidCodec) (mh_eid head);
  Ok (mkRev (mh_eid head) (mh_ctr head) (mkDate (fadd (getTime (eid_ts parsed)) (mh_off head)))).

(** The head type and the entity body. *)
Definition insertBlobMsg (mime : jsstr) (bs : bytes) (opts : option IBlobWrite) : Res (jsstr * bytes) :=
  if Nat.eqb (length mime) 0 then Err InvalidParam
  else
    bod ← encodeEnt (entOf opts bs);
    Ok (blobTyp mime, bod).

Definition updateBlobMsg (prev : option IMessage) (bs : bytes) (opts : option IBlobUpdate)
    : Res (jsstr * bytes * IEntRev) :=
  match prev with
  | None => Err NotFound
  | Some prev =>
      match msg_bod prev with
      | None => Err NotFound
      | Some prevBod =>
          if blen prevBod =? 0 then Err NotFound
          else
            match mimeOf (mh_typ (msg_head prev)) with
            | None => Err InvalidParam
            | Some prevMime =>
                prior ← revOf (msg_head prev);
                opened ← openBlob prevBod;
                let mime := default prevMime (opts ≫= bu_mime) in
                if Nat.eqb (length mime) 0 then Err InvalidParam
                else
                  bod ← encodeEnt (entFromUpdate opened bs opts);
                  Ok (blobTyp mime, bod, prior)
            end
      end
  end.

Definition blobBytes (msg : option IMessage) : Res bytes :=
  match msg with
  | None => Err NotFound
  | Some msg =>
      match msg_bod msg with
      | None => Err NotFound
      | Some bod =>
          if blen bod =? 0 then Err NotFound
          else if negb (isBlobTyp (mh_typ (msg_head msg))) then Err NotFound
          else
            opened ← openBlob bod;
            Ok (default [] (ent_body opened))
      end
  end.

(** ** A blob reads back *)

Lemma startsWith_app p t : startsWith (p ++ t) p = true.
Proof. induction p as [|c p IH]; [by destruct t|]. cbn. by rewrite Z.eqb_refl. Qed.

Lemma blobTyp_is mime : isBlobTyp (Some (blobTyp mime)) = true.
Proof. apply startsWith_app. Qed.

Lemma mimeOf_blobTyp mime : mime ≠ [] → mimeOf (Some (blobTyp mime)) = Some mime.
Proof.
  intros Hm. unfold mimeOf. rewrite blobTyp_is. cbn [negb]. unfold blobTyp. rewrite drop_app_length.
  by destruct mime.
Qed.

Lemma blob_body_bytes bs : default [] (blob_body bs) = bs.
Proof.
  unfold blob_body. destruct (Z.ltb_spec 0 (blen bs)); [done|]. cbn.
  destruct bs; [done|]. unfold blen in *. cbn in *. lia.
Qed.

Lemma nonempty_blob bs : nonempty (blob_body bs) = blob_body bs.
Proof. unfold blob_body. destruct (Z.ltb_spec 0 (blen bs)); [|done]. by destruct bs. Qed.

Lemma nonempty_some_tags tags : nonempty (some_tags tags) = some_tags tags.
Proof. by destruct tags as [[|]|]. Qed.

Lemma openBlob_wire e : ent_ok e → openBlob (ent_wire e) = Ok (ent_norm e).
Proof. intros H. unfold openBlob, readStruct. by apply decodes_end_run, ent_decodes_end. Qed.

Lemma ent_wire_nonempty e : ent_ok e → 0 < blen (ent_wire e).
Proof.
  intros [Hp _]. unfold ent_wire. rewrite blen_app. unfold varbytes_wire at 1. rewrite blen_app.
  assert (Hn : bytes_ok (default [] (ent_pid e))).
  { destruct (ent_pid e) as [p|]; [by destruct (Hp p eq_refl)|by vm_compute]. }
  pose proof (varint_wire_pos (blen (default [] (ent_pid e))) ltac:(apply varnum_ok_len; unfold bytes_ok in Hn; pose proof (blen_nonneg (default [] (ent_pid e))); lia)).
  pose proof (blen_nonneg (default [] (ent_pid e))).
  match goal with |- 0 < _ + _ + blen ?x => pose proof (blen_nonneg x) end. lia.
Qed.

(** An inserted blob reads back: the bytes, the mime, the tags and the parent. *)
Lemma insertBlob_reads mime bs opts typ bod head :
  ent_ok (entOf opts bs) → insertBlobMsg mime bs opts = Ok (typ, bod) → mh_typ head = Some typ →
  let msg := mkMsg head (Some bod) in
  blobBytes (Some msg) = Ok bs ∧ mimeOf (mh_typ head) = Some mime ∧ openBlob bod = Ok (entOf opts bs).
Proof.
  intros Hok. unfold insertBlobMsg. destruct (Nat.eqb_spec (length mime) 0) as [|Hm]; [done|].
  rewrite encodeEnt_wire by done. intros [= <- <-] Ht. cbv zeta.
  assert (Hopen : openBlob (ent_wire (entOf opts bs)) = Ok (entOf opts bs)).
  { rewrite openBlob_wire by done. unfold ent_norm, entOf. cbn. by rewrite nonempty_some_tags, nonempty_blob. }
  split_and!; [|rewrite Ht; apply mimeOf_blobTyp; by destruct mime|done].
  unfold blobBytes. cbn [msg_bod msg_head]. pose proof (ent_wire_nonempty _ Hok).
  rewrite (proj2 (Z.eqb_neq _ _)), Ht, blobTyp_is by lia. cbn [negb]. rewrite Hopen. cbn. by rewrite blob_body_bytes.
Qed.

(** An update keeps what the caller does not name, and replaces the bytes. *)
Lemma updateBlob_keeps prev bs opts typ bod prior head :
  updateBlobMsg (Some prev) bs opts = Ok (typ, bod, prior) → mh_typ head = Some typ →
  ∃ prevBod prevMime opened, msg_bod prev = Some prevBod ∧ mimeOf (mh_typ (msg_head prev)) = Some prevMime ∧
    openBlob prevBod = Ok opened ∧ revOf (msg_head prev) = Ok prior ∧
    (ent_ok (entFromUpdate opened bs opts) →
     blobBytes (Some (mkMsg head (Some bod))) = Ok bs ∧
     mimeOf (mh_typ head) = Some (default prevMime (opts ≫= bu_mime)) ∧
     ∃ ent, openBlob bod = Ok ent ∧ ent_pid ent = default (ent_pid opened) (opts ≫= bu_pid) ∧
       ent_tags ent = some_tags (default (ent_tags opened) (opts ≫= bu_tags))).
Proof.
  unfold updateBlobMsg. destruct (msg_bod prev) as [prevBod|]; [|done]. destruct (_ =? 0); [done|].
  destruct (mimeOf (mh_typ (msg_head prev))) as [prevMime|]; [|done].
  intros (prior' & Hr & H)%res_bind_Ok_inv. apply res_bind_Ok_inv in H as (opened & Ho & H).
  destruct (Nat.eqb_spec (length (default prevMime (opts ≫= bu_mime))) 0) as [|Hm]; [done|].
  apply res_bind_Ok_inv in H as (bod' & He & [= <- <- <-]). intros Ht.
  exists prevBod, prevMime, opened. split_and!; [done..|]. intros Hok.
  rewrite encodeEnt_wire in He by done. injection He as <-.
  set (e := entFromUpdate opened bs opts) in *.
  assert (Hopen : openBlob (ent_wire e) = Ok e).
  { rewrite openBlob_wire by done. unfold e, ent_norm, entFromUpdate. cbn. by rewrite nonempty_some_tags, nonempty_blob. }
  split_and!; [|rewrite Ht; apply mimeOf_blobTyp; by destruct (default _ _)|by exists e].
  unfold blobBytes. cbn [msg_bod msg_head]. pose proof (ent_wire_nonempty _ Hok).
  rewrite (proj2 (Z.eqb_neq _ _)), Ht, blobTyp_is by lia. cbn [negb]. rewrite Hopen. cbn. by rewrite blob_body_bytes.
Qed.
