(* ===== verification/Writer.v ===== *)
(** * Local writes and the apply queue ([web/src/client.ts])

    The client archives a message, applies it to the application's state,
    marks the outcome and queues the upload.  The state is the stores and the
    rest of the client; what the writer asks of the rest is [ClientApp].
    Calls run one at a time, as [applyChain] runs their jobs. *)
From S2P Require Export Reconcile Blobs State.
From S2P Require Import Js.

(** [IStateManager.apply] and [clear], and [scheduleSync]. *)
Class ClientApp (N : Type) := {
  app_apply : list IMessage → M N (list (option Status));
  app_clear : M N Status;
  app_schedule : M N unit;
}.

Record ApplyOpts := mkApplyOpts { ao_enqueueUpload : bool; ao_triggerUpload : bool; ao_realm : option IKDM }.
Definition defaultApply : ApplyOpts := mkApplyOpts true true None.

Section writer.
Context {C : CryptoPrims} {N : Type} {AC : ClientApp N}.

Definition msgsFromParts (parts : list IMsgParts) : list IMessage :=
  (λ p, mkMsg (mp_head p) (mp_body p)) <$> parts.

(** The archive key of a head; the status of the encoder is ignored. *)
Definition archiveKey (head : IMessageHead) : Res bytes :=
  match writeStruct messageHeadCodec head newEncoder with
  | (Throw, _) => Throw
  | (_, e) => Ok (blake3hash (enc_result e))
  end.

Fixpoint storables (parts : list IMsgParts) (realm : option IKDM) : Res (list (bytes * IStoredMessageData)) :=
  match parts with
  | [] => Ok []
  | part :: parts =>
      hash ← archiveKey (mp_head part);
      rest ← storables parts realm;
      Ok ((hash, msg2StoredMsgData part realm) :: rest)
  end.

Definition is_done (st : option Status) : bool :=
  match st with Some Success | Some NoChange => true | _ => false end.

(** [stats[i]] for each key; past the end it is [undefined]. *)
Definition outcomes {A} (keys : list A) (stats : list (option Status)) : list (A * option Status) :=
  imap (λ i k, (k, default None (stats !! i))) keys.

Definition done_keys {A} (os : list (A * option Status)) : list A :=
  omap (λ o, if is_done o.2 then Some o.1 else None) os.
Definition failed_keys {A} (os : list (A * option Status)) : list (A * Status) :=
  omap (λ o, if is_done o.2 then None
             else match o.2 with
                  | Some st => if isTerminalApplyFailure st then Some (o.1, st) else None
                  | None => None
                  end) os.

Definition markApplyStats (keys : list bytes) (stats : list (option Status)) : SM (N := N) unit :=
  let done := done_keys (outcomes keys stats) in
  let failed := failed_keys (outcomes keys stats) in
  _ ← (if 0 <? Z.of_nat (length done) then on_st (markApplied done) else mret tt);
  if 0 <? Z.of_nat (length failed) then on_st (markFailed failed) else mret tt.

(** [for (const host of hosts) await uploads.enq(host.label, toUpload)] *)
Definition enq_hosts (hosts : list (IHostRow * CursorRow)) (toUpload : list bytes) (s : Store) : Store :=
  fold_left (λ s host, upl_enq (hi_label (hr_info host.1)) toUpload s) hosts s.

(** [applyP]: the outcome of the pre-kicked [state.apply], awaited after the
    archive is written. *)
Definition doApply (parts : list IMsgParts) (options : ApplyOpts) (applyP : Res (list (option Status)))
    : SM (N := N) (list (option Status)) :=
  rows ← m_lift (storables parts (ao_realm options));
  let hashes := rows.*1 in
  _ ← on_st (msgs_add rows);
  _ ← deqDownloadsForHeadHashes hashes;
  stats ← m_lift applyP;
  _ ← markApplyStats hashes stats;
  _ ← (if ao_enqueueUpload options then
         let toUpload := done_keys (outcomes hashes stats) in
         if 0 <? Z.of_nat (length toUpload) then
           hosts ← rd hosts_list;
           on_st (enq_hosts hosts toUpload)
         else mret tt
       else mret tt);
  _ ← (if ao_triggerUpload options then on_net app_schedule else mret tt);
  mret stats.

(** [state.apply] runs first; the job follows on the chain. *)
Definition write (parts : list IMsgParts) (options : ApplyOpts) : SM (N := N) (list (option Status)) :=
  applyP ← m_settle (on_net (app_apply (msgsFromParts parts)));
  doApply parts options applyP.

(** ** The queue of unapplied messages *)

Definition applyStored (stored : list IStoredMessage) : SM (N := N) (list (option Status)) :=
  match stored with
  | [] => mret []
  | _ =>
      stats ← on_net (app_apply ((λ m, mkMsg (sm_head m) (sm_body m)) <$> stored));
      _ ← markApplyStats (sm_hash <$> stored) stats;
      mret stats
  end.

Definition drainApplyQueue : SM (N := N) (list (option Status)) :=
  pending ← rd (msgs_list (Some APLD_PENDING));
  if Z.of_nat (length pending) <? 1 then mret []
  else applyStored (sortByHlcDesc (λ m, hlc_of (sm_head m)) pending).

(** Reading one row at a time; [byHash] keeps the last status of a hash. *)
Definition applyHashes (hashes : list bytes) : SM (N := N) (list Status) :=
  loaded ← rd (λ s, omap (λ h, msgs_get h s) hashes);
  applied ← applyStored loaded;
  let byHash := fold_left (λ m o, map_set (btob64 o.1) (default InternalError o.2) m)
                  (outcomes (sm_hash <$> loaded) applied) [] in
  mret ((λ h, default NotFound (map_get (btob64 h) byHash)) <$> hashes).

(** ** Writes *)

(** The status of a one-message write. *)
Definition write_one (head : IMessageHead) (body : option bytes) : SM (N := N) IMessageHead :=
  stats ← write [mkParts head body] defaultApply;
  let st := default None (stats !! 0%nat) in
  if is_done st then mret head else m_err (default InternalError st).

(** [now]: a reading of the clock; [id]: the random id bytes. *)
Definition insertRaw (id : bytes) (now : Date) (bod : bytes) (typ : jsstr) : SM (N := N) IMessageHead :=
  head ← m_lift (genInsertHead id now bod typ);
  write_one head (Some bod).

Definition makeUpdate (now : Date) (prior : IEntRev) (bod : option bytes) (typ : jsstr) : Res IMsgParts :=
  if flt (getTime now) (getTime (rev_updatedAt prior)) then Err ClockOutOfSync
  else
    head ← genUpsertHead now (rev_eid prior) (rev_ctr prior + 1) typ bod;
    Ok (mkParts head bod).

Definition skew_delete (prior : IEntRev) (ts : Date) : IMessageHead :=
  mkHead (Some []) (rev_eid prior)
    (fadd (fsub (getTime (rev_updatedAt prior)) (getTime ts)) (Some 1)) (rev_ctr prior + 1) 0 None.

Definition updateWithSkew (now : Date) (prior : IEntRev) (bod : option bytes) (force : bool) (typ : jsstr)
    : SM (N := N) IMessageHead :=
  if negb force then m_err ClockOutOfSync
  else
    eidDec ← m_lift (run_dec (readStruct eidCodec) (rev_eid prior));
    delHead ← write_one (skew_delete prior (eid_ts eidDec)) None;
    match bod with
    | None => mret delHead
    | Some _ =>
        replEID ← m_lift (makeEID (mkIEntityID (eid_id eidDec) now));
        repl ← m_lift (genUpsertHead now replEID 0 typ bod);
        write_one repl bod
    end.

(** The clock is read again by the call it makes. *)
Definition updateRaw (now now' : Date) (prior : IEntRev) (bod : option bytes) (force : bool) (typ : jsstr)
    : SM (N := N) IMessageHead :=
  if flt (getTime now) (getTime (rev_updatedAt prior)) then updateWithSkew now' prior bod force typ
  else
    parts ← m_lift (makeUpdate now' prior bod typ);
    write_one (mp_head parts) (mp_body parts).

Definition insert (id : bytes) (now : Date) (type : jsstr) (op : IMsgEntBody) : SM (N := N) IMessageHead :=
  bod ← m_lift (encodeEnt op);
  insertRaw id now bod type.

Definition update (now now' : Date) (prior : IEntRev) (type : jsstr) (op : IMsgEntBody) (force : bool)
    : SM (N := N) IMessageHead :=
  bod ← m_lift (encodeEnt op);
  updateRaw now now' prior (Some bod) force type.

Definition last_stored (eid : bytes) (s : Store) : option IStoredMessage :=
  (λ row, toStoredMessage (unb64 row.1) row.2) <$> msgs_last eid s.

Definition lastMsg (eid : bytes) : SM (N := N) (option IMessage) :=
  stored ← rd (last_stored eid);
  mret ((λ m, mkMsg (sm_head m) (sm_body m)) <$> stored).

Definition revFromArchive (eid : bytes) : SM (N := N) IEntRev :=
  last ← rd (last_stored eid);
  match last with
  | Some m => m_lift (revFromHead (sm_head m))
  | None =>
      parsed ← m_lift (run_dec (readStruct eidCodec) eid);
      mret (mkRev eid (-1) (eid_ts parsed))
  end.

(** By a prior revision, or by entity id. *)
Definition delete (now now' : Date) (op : IEntRev + bytes) (force : bool) : SM (N := N) IMessageHead :=
  match op with
  | inl prior => updateRaw now now' prior None force []
  | inr eid => prior ← revFromArchive eid; updateRaw now now' prior None force []
  end.

Definition insertBlob (id : bytes) (now : Date) (mime : jsstr) (bs : bytes) (opts : option IBlobWrite)
    : SM (N := N) IMessageHead :=
  '(typ, bod) ← m_lift (insertBlobMsg mime bs opts);
  insertRaw id now bod typ.

Definition updateBlob (now now' : Date) (force : bool) (eid bs : bytes) (opts : option IBlobUpdate)
    : SM (N := N) IMessageHead :=
  prev ← lastMsg eid;
  '(typ, bod, prior) ← m_lift (updateBlobMsg prev bs opts);
  updateRaw now now' prior (Some bod) force typ.

Definition deleteBlob (now now' : Date) (eid : bytes) : SM (N := N) IMessageHead :=
  delete now now' (inr eid) true.

Definition readBlob (eid : bytes) : SM (N := N) bytes :=
  prev ← lastMsg eid;
  m_lift (blobBytes prev).

(** Given id bytes, or the random ones drawn. *)
Definition genEID (now : Date) (id : option bytes) (draw : bytes) : Res bytes :=
  makeEID (mkIEntityID (default draw id) now).

(** ** Replay *)

(** One batch: up to 100 messages, until their bodies reach 100 KiB. *)
Fixpoint take_batch {A} (len : A → Z) (items : list A) (count : nat) (totalBytes : Z) : list A * list A :=
  match items with
  | [] => ([], [])
  | x :: rest =>
      if Nat.ltb count 100 && (totalBytes <? 100 * 1024) then
        let '(b, others) := take_batch len rest (S count) (totalBytes + len x) in (x :: b, others)
      else ([], items)
  end.

(** [while (processed < ordered.length)]: each pass takes at least one. *)
Fixpoint batches {A} (len : A → Z) (fuel : nat) (items : list A) : list (list A) :=
  match fuel, items with
  | _, [] => []
  | O, _ => []
  | S fuel, _ => let '(b, others) := take_batch len items 0 0 in b :: batches len fuel others
  end.

Definition apply_batches (bs : list (list IStoredMessage)) : SM (N := N) unit :=
  m_forM bs (λ batch, _ ← applyStored batch; mret tt).

Definition replay : SM (N := N) unit :=
  clearStat ← on_net app_clear;
  if negb (bool_decide (clearStat = Success)) then m_err clearStat
  else
    all ← rd (msgs_list None);
    let ordered := sortByHlcDesc (λ m, hlc_of (sm_head m)) all in
    apply_batches (batches (λ m, mh_len (sm_head m)) (length ordered) ordered).

Definition msgcheck : SM (N := N) bytes :=
  keys ← rd msgs_listKeys;
  mret (checksumSet keys).
End writer.
