(* ===== verification/WriterFacts.v ===== *)
(** * What a local write leaves in the stores *)
From S2P Require Export Writer Reconcile.
From S2P Require Import Js.

(** ** Marking archive rows *)

Lemma mark_get f key s k :
  map_get k (st_messages (mark f key s)) =
    if decide (k = btob64 key) then f <$> map_get k (st_messages s) else map_get k (st_messages s).
Proof.
  unfold mark. destruct (map_get (btob64 key) (st_messages s)) as [d|] eqn:E.
  - cbn. rewrite map_get_set. case_decide; [|done]. subst. by rewrite E.
  - case_decide; [|done]. subst. by rewrite E.
Qed.

(** Only archive rows differ, and their keys are the same. *)
Record only_rows (s s' : Store) : Prop := {
  or_downloads : st_downloads s' = st_downloads s;
  or_uploads : st_uploads s' = st_uploads s;
  or_cursors : st_cursors s' = st_cursors s;
  or_hosts : st_hostRows s' = st_hostRows s;
  or_realms : st_realms s' = st_realms s;
  or_keys : map_keys (st_messages s') = map_keys (st_messages s);
}.

#[export] Instance only_rows_preorder : PreOrder only_rows.
Proof.
  split; [by intros s|]. intros a b c [] []. split; congruence.
Qed.

Lemma mark_rest f key s : only_rows s (mark f key s).
Proof.
  unfold mark. destruct (map_get _ _) eqn:E; [|done]. split; try done.
  cbn [st_messages set_messages]. rewrite map_set_keys, decide_True; [done|]. apply map_get_Some_in in E. by apply (list_elem_of_fmap_2 fst) in E.
Qed.

Section folds.
Context {A : Type} (f : A → IStoredMessageData → IStoredMessageData) (key : A → bytes).

Definition marks (l : list A) (s : Store) : Store := fold_left (λ s x, mark (f x) (key x) s) l s.

Lemma marks_miss l s k : k ∉ btob64 <$> (key <$> l) → map_get k (st_messages (marks l s)) = map_get k (st_messages s).
Proof.
  revert s. induction l as [|x l IH]; intros s Hk; [done|]. cbn in Hk.
  apply not_elem_of_cons in Hk as [Hx Hk]. unfold marks. cbn [fold_left]. rewrite IH by done.
  by rewrite mark_get, decide_False.
Qed.

Lemma marks_hit l s x :
  NoDup (key <$> l) → x ∈ l →
  map_get (btob64 (key x)) (st_messages (marks l s)) = f x <$> map_get (btob64 (key x)) (st_messages s).
Proof.
  revert s. induction l as [|y l IH]; intros s Hn Hx; [by apply not_elem_of_nil in Hx|].
  cbn in Hn. apply NoDup_cons in Hn as [Hy Hn]. unfold marks. cbn [fold_left].
  apply elem_of_cons in Hx as [->|Hx].
  - fold (marks l (mark (f y) (key y) s)). rewrite marks_miss.
    + by rewrite mark_get, decide_True.
    + by rewrite (list_elem_of_fmap_inj btob64).
  - fold (marks l (mark (f y) (key y) s)). rewrite IH by done. rewrite mark_get, decide_False; [done|].
    intros He%(inj btob64). apply Hy. rewrite <-He. by apply list_elem_of_fmap_2.
Qed.

Lemma marks_rest l s : only_rows s (marks l s).
Proof.
  revert s. induction l as [|x l IH]; intros s; [done|]. unfold marks. cbn [fold_left].
  etransitivity; [apply mark_rest|apply IH].
Qed.
End folds.

(** A row after its outcome is known. *)
Definition settled (st : option Status) (d : IStoredMessageData) : IStoredMessageData :=
  if is_done st then setApld d APLD_APPLIED None
  else match st with
       | Some e => if isTerminalApplyFailure e then setApld d APLD_ERROR (Some e) else d
       | None => d
       end.

Lemma outcomes_keys {A} (keys : list A) stats : (outcomes keys stats).*1 = keys.
Proof.
  apply list_eq. intros i. unfold outcomes. rewrite list_lookup_fmap, list_lookup_imap.
  by destruct (keys !! i).
Qed.

Lemma outcomes_lookup {A} (keys : list A) stats i k :
  keys !! i = Some k → outcomes keys stats !! i = Some (k, default None (stats !! i)).
Proof. intros H. unfold outcomes. by rewrite list_lookup_imap, H. Qed.

Lemma omap_keys {A B K} (f : A → option B) (ka : A → K) (kb : B → K) l :
  (∀ x y, f x = Some y → kb y = ka x) → NoDup (ka <$> l) → NoDup (kb <$> omap f l).
Proof.
  intros Hf. induction l as [|x l IH]; intros Hn; cbn; [constructor|]. cbn in Hn.
  apply NoDup_cons in Hn as [Hx Hn]. destruct (f x) as [y|] eqn:E; [|by apply IH].
  cbn. constructor; [|by apply IH]. rewrite (Hf _ _ E). intros Hin. apply Hx.
  apply list_elem_of_fmap in Hin as (y' & He & (x' & Hx' & Hfx)%list_elem_of_omap).
  rewrite He, (Hf _ _ Hfx). by apply list_elem_of_fmap_2.
Qed.

Section facts.
Context {C : CryptoPrims} {N : Type}.

Lemma key_unique (keys : list bytes) stats o o' :
  NoDup keys → o ∈ outcomes keys stats → o' ∈ outcomes keys stats → o.1 = o'.1 → o = o'.
Proof.
  intros Hn Ho Ho' He. rewrite <-(outcomes_keys keys stats) in Hn.
  apply list_elem_of_lookup_1 in Ho as [i Hi]. apply list_elem_of_lookup_1 in Ho' as [j Hj].
  assert (i = j) as ->; [|congruence].
  eapply (NoDup_lookup _ i j o.1 Hn); rewrite list_lookup_fmap; [by rewrite Hi|by rewrite Hj, He].
Qed.

Section outcome.
Context (keys : list bytes) (stats : list (option Status)) (Hn : NoDup keys).

Lemma elem_of_done key st :
  (key, st) ∈ outcomes keys stats → key ∈ done_keys (outcomes keys stats) ↔ is_done st = true.
Proof.
  intros Ho. unfold done_keys. rewrite list_elem_of_omap. split.
  - intros ([k st'] & Hin & He). cbn in He. destruct (is_done st') eqn:Ed; [|done]. injection He as ->.
    by pose proof (key_unique keys stats _ _ Hn Ho Hin eq_refl) as [= ->].
  - intros Hd. exists (key, st). split; [done|]. cbn. by rewrite Hd.
Qed.

Lemma elem_of_failed key st e :
  (key, st) ∈ outcomes keys stats →
  (key, e) ∈ failed_keys (outcomes keys stats) ↔ is_done st = false ∧ st = Some e ∧ isTerminalApplyFailure e = true.
Proof.
  intros Ho. unfold failed_keys. rewrite list_elem_of_omap. split.
  - intros ([k st'] & Hin & He). cbn in He. destruct (is_done st') eqn:Ed; [done|].
    destruct st' as [e'|]; [|done]. destruct (isTerminalApplyFailure e') eqn:Et; [|done]. injection He as -> ->.
    pose proof (key_unique keys stats _ _ Hn Ho Hin eq_refl) as [= ->]. done.
  - intros (Hd' & He & Ht). exists (key, st). split; [done|]. cbn [fst snd]. rewrite Hd', He. by rewrite Ht.
Qed.

Lemma done_NoDup : NoDup (id <$> done_keys (outcomes keys stats)).
Proof.
  apply (omap_keys _ fst id); [|by rewrite outcomes_keys].
  intros [k st] y. cbn. by destruct (is_done st); [intros [= <-]|].
Qed.

Lemma failed_NoDup : NoDup (failed_keys (outcomes keys stats)).*1.
Proof.
  apply (omap_keys _ fst fst); [|by rewrite outcomes_keys]. intros [k [st|]] y; cbn [fst snd]; [|done].
  destruct (is_done (Some st)); [done|]. by destruct (isTerminalApplyFailure st); [intros [= <-]|].
Qed.

Lemma outcome_key o : o ∈ outcomes keys stats → o.1 ∈ keys.
Proof. intros Ho%(list_elem_of_fmap_2 fst). by rewrite (outcomes_keys keys stats) in Ho. Qed.

Lemma done_sub key : key ∈ done_keys (outcomes keys stats) → key ∈ keys.
Proof.
  intros (o & Ho & He)%list_elem_of_omap. destruct (is_done o.2); [|done]. injection He as <-. by apply outcome_key.
Qed.

Lemma failed_sub e : e ∈ failed_keys (outcomes keys stats) → e.1 ∈ keys.
Proof.
  intros ([k st] & Ho & He)%list_elem_of_omap. cbn in He. destruct (is_done st); [done|].
  destruct st as [st|]; [|done]. destruct (isTerminalApplyFailure st); [|done]. injection He as <-.
  by apply outcome_key in Ho.
Qed.

Definition mark_done : list bytes → Store → Store := marks (λ _ d, setApld d APLD_APPLIED None) id.
Definition mark_failed : list (bytes * Status) → Store → Store :=
  marks (λ e d, setApld d APLD_ERROR (Some e.2)) fst.

Definition mark_outcomes (s : Store) : Store :=
  mark_failed (failed_keys (outcomes keys stats)) (mark_done (done_keys (outcomes keys stats)) s).

Lemma if_nonempty {A} (F : list A → Store → Store) (l : list A) s (n : N) :
  F [] s = s →
  (if 0 <? Z.of_nat (length l) then on_st (N := N) (F l) else mret tt) (s, n) = (Ok tt, (F l s, n)).
Proof. intros HF. destruct l as [|x l]; [by rewrite HF|]. done. Qed.

Lemma markFailed_marks entries s : markFailed entries s = mark_failed entries s.
Proof. revert s. induction entries as [|[k e] l IH]; intros s; [done|]. apply IH. Qed.

Lemma markApplyStats_run s (n : N) : markApplyStats keys stats (s, n) = (Ok tt, (mark_outcomes s, n)).
Proof.
  unfold markApplyStats, mark_outcomes. rewrite (ok_bind _ _ _ _ _ (if_nonempty markApplied _ s n eq_refl)).
  rewrite if_nonempty by done. by rewrite markFailed_marks.
Qed.

Lemma mark_outcomes_miss s k :
  k ∉ btob64 <$> keys → map_get k (st_messages (mark_outcomes s)) = map_get k (st_messages s).
Proof.
  intros Hk. unfold mark_outcomes, mark_failed, mark_done. rewrite !marks_miss; [done| |].
  - intros (k' & -> & Hin)%list_elem_of_fmap. apply Hk, list_elem_of_fmap_2. rewrite list_fmap_id in Hin. by apply done_sub.
  - intros (k' & -> & (e & -> & Hin)%list_elem_of_fmap)%list_elem_of_fmap. by apply Hk, list_elem_of_fmap_2, failed_sub.
Qed.

Lemma mark_outcomes_hit s i key :
  keys !! i = Some key →
  map_get (btob64 key) (st_messages (mark_outcomes s)) =
    settled (default None (stats !! i)) <$> map_get (btob64 key) (st_messages s).
Proof.
  intros Hi. set (st := default None (stats !! i)).
  assert (Ho : (key, st) ∈ outcomes keys stats) by (eapply list_elem_of_lookup_2, outcomes_lookup, Hi).
  pose proof (elem_of_done key st Ho) as Hd. pose proof (λ e, elem_of_failed key st e Ho) as Hf.
  unfold mark_outcomes, mark_failed, mark_done, settled. set (s1 := marks _ id _ s).
  destruct (is_done st) eqn:Ed.
  - rewrite marks_miss; [by apply (marks_hit _ id _ s key done_NoDup), Hd|].
    rewrite (list_elem_of_fmap_inj btob64). intros ([k e] & Hk & Hin)%list_elem_of_fmap. cbn in Hk. subst k.
    by apply Hf in Hin as [? _].
  - assert (Hs1 : map_get (btob64 key) (st_messages s1) = map_get (btob64 key) (st_messages s)).
    { apply marks_miss. rewrite list_fmap_id, (list_elem_of_fmap_inj btob64), Hd. done. }
    rewrite <-Hs1. destruct (decide (key ∈ (failed_keys (outcomes keys stats)).*1)) as [Hin|Hin].
    + apply list_elem_of_fmap in Hin as ([k e] & Hk & Hin). cbn in Hk. subst k.
      rewrite (marks_hit _ fst _ s1 (key, e) failed_NoDup Hin). by apply Hf in Hin as (_ & -> & ->).
    + rewrite marks_miss by by rewrite (list_elem_of_fmap_inj btob64).
      destruct st as [e|]; [|by destruct (map_get _ (st_messages s1))].
      destruct (isTerminalApplyFailure e) eqn:Et; [|by destruct (map_get _ (st_messages s1))].
      destruct Hin. apply (list_elem_of_fmap_2 fst _ (key, e)). by apply Hf.
Qed.

Lemma mark_outcomes_rest s : only_rows s (mark_outcomes s).
Proof. unfold mark_outcomes, mark_failed, mark_done. etransitivity; [|apply marks_rest]. apply marks_rest. Qed.
End outcome.
End facts.

(** ** Queues *)

Lemma flushDeq_hosts groups s : st_hostRows (flushDeq groups s) = st_hostRows s.
Proof.
  unfold flushDeq. generalize (map_values groups). intros gs. revert s.
  induction gs as [|g gs IH]; intros s; [done|]. cbn [fold_left]. by rewrite IH.
Qed.

Lemma flushDeq_wf groups s : map_wf (st_downloads s) → map_wf (st_downloads (flushDeq groups s)).
Proof.
  unfold flushDeq. generalize (map_values groups). intros gs. revert s.
  induction gs as [|g gs IH]; intros s Hw; [done|]. cbn [fold_left]. apply IH. by apply (dnl_deq_get _ _ _ s []).
Qed.

Section queues.
Context {C : CryptoPrims} {N : Type}.

Lemma deq_scan_total want dls groups :
  Forall (λ d, dl_hash d ≠ Throw) dls → ∃ g, deq_scan want dls groups = Ok g.
Proof.
  intros H. revert groups. induction H as [|d dls Hd _ IH]; intros groups; cbn [deq_scan]; [eauto|].
  destruct (dl_hash d); [apply IH|apply IH|done].
Qed.

Lemma deqDownloads_total hashes s (n : N) :
  Forall (λ d, dl_hash d ≠ Throw) (dnl_list s) →
  ∃ s', deqDownloadsForHeadHashes hashes (s, n) = (Ok tt, (s', n)) ∧ st_hostRows s' = st_hostRows s ∧
    (map_wf (st_downloads s) → map_wf (st_downloads s')).
Proof.
  intros H. unfold deqDownloadsForHeadHashes. destruct (Nat.eqb _ 0); [by exists s|].
  rewrite rd_bind. destruct (Nat.eqb _ 0); [by exists s|].
  destruct (deq_scan_total (fold_left (λ set h, set_add (btob64 h) set) hashes []) _ [] H) as (g & Hg).
  rewrite Hg. exists (flushDeq g s). split_and!; [done|apply flushDeq_hosts|apply flushDeq_wf].
Qed.

(** The host rows are filed under their labels. *)
Definition rows_filed (s : Store) : Prop :=
  ∀ label row, (label, row) ∈ st_hostRows s → hi_label (hr_info row) = label.

Lemma upl_list_enq_other label label' hs s :
  label' ≠ label → upl_list label' (upl_enq label hs s) = upl_list label' s.
Proof. intros Hne. unfold upl_list, upl_enq. cbn. by rewrite map_get_set_ne. Qed.

Lemma enq_hosts_uploads rows toUpload s label h :
  h ∈ upl_list label (enq_hosts rows toUpload s) ↔
    h ∈ upl_list label s ∨ (label ∈ (λ r, hi_label (hr_info r.1)) <$> rows ∧ h ∈ toUpload).
Proof.
  unfold enq_hosts. revert s. induction rows as [|r rows IH]; intros s; cbn [fold_left fmap list_fmap].
  { set_solver. }
  rewrite IH, elem_of_cons. destruct (decide (label = hi_label (hr_info r.1))) as [->|Hne].
  - rewrite upl_list_enq. tauto.
  - rewrite upl_list_enq_other by done. tauto.
Qed.

Lemma enq_hosts_rest rows toUpload s :
  let s' := enq_hosts rows toUpload s in
  st_messages s' = st_messages s ∧ st_downloads s' = st_downloads s ∧ st_cursors s' = st_cursors s ∧
  st_hostRows s' = st_hostRows s.
Proof.
  cbv zeta. unfold enq_hosts. revert s. induction rows as [|r rows IH]; intros s; [done|]. cbn [fold_left].
  destruct (IH (upl_enq (hi_label (hr_info r.1)) toUpload s)) as (H1 & H2 & H3 & H4). by rewrite H1, H2, H3, H4.
Qed.

Lemma hosts_list_labels s :
  rows_filed s → (λ r, hi_label (hr_info r.1)) <$> hosts_list s = st_hosts s.
Proof.
  intros Hh. unfold hosts_list, st_hosts, map_keys. rewrite <-list_fmap_compose. apply list_fmap_ext.
  intros i [label row] Hi%list_elem_of_lookup_2. cbn. by apply Hh.
Qed.

Lemma storables_rows parts realm rows :
  storables parts realm = Ok rows →
  Forall2 (λ p row, archiveKey (mp_head p) = Ok row.1 ∧ row.2 = msg2StoredMsgData p realm) parts rows.
Proof.
  revert rows. induction parts as [|p parts IH]; intros rows; cbn [storables]; [intros [= <-]; constructor|].
  intros (hash & Hh & H)%res_bind_Ok_inv. apply res_bind_Ok_inv in H as (rest & Hr & [= <-]).
  constructor; [done|]. by apply IH.
Qed.

Lemma msgs_add_row rows s i hash data :
  NoDup rows.*1 → rows !! i = Some (hash, data) →
  map_get (btob64 hash) (st_messages (msgs_add rows s)) = Some (omit_rlm data).
Proof.
  intros Hn Hi. rewrite msgs_add_get.
  destruct (last (filter (λ m, m.1 = hash) rows)) as [[h d]|] eqn:E.
  - apply last_Some_elem_of, list_elem_of_filter in E as [Hk Hin]. cbn in Hk. subst h.
    apply list_elem_of_lookup_1 in Hin as [j Hj]. assert (i = j) as ->; [|congruence].
    eapply (NoDup_lookup rows.*1 i j hash Hn); rewrite list_lookup_fmap; [by rewrite Hi|by rewrite Hj].
  - apply last_None in E. assert (Hin : (hash, data) ∈ filter (λ m, m.1 = hash) rows).
    { apply list_elem_of_filter. split; [done|]. by eapply list_elem_of_lookup_2. }
    rewrite E in Hin. by apply not_elem_of_nil in Hin.
Qed.

Lemma msgs_add_miss rows s k :
  k ∉ btob64 <$> rows.*1 → map_get k (st_messages (msgs_add rows s)) = map_get k (st_messages s).
Proof.
  unfold msgs_add. cbn. generalize (st_messages s). induction rows as [|[h d] rows IH]; intros m Hk; [done|].
  cbn in Hk. apply not_elem_of_cons in Hk as [Hne Hk]. cbn [fold_left]. rewrite IH by done.
  by rewrite map_get_set_ne.
Qed.

Lemma msgs_add_wf rows s : map_wf (st_messages s) → map_wf (st_messages (msgs_add rows s)).
Proof.
  unfold msgs_add. cbn. generalize (st_messages s). induction rows as [|[h d] rows IH]; intros m Hw; [done|].
  cbn [fold_left]. by apply IH, map_set_wf.
Qed.
End queues.

(** ** A whole write *)
Section whole.
Context {C : CryptoPrims} {N : Type} {AC : ClientApp N}.

(** What the writer needs of the stores it finds. *)
Record writer_ok (s : Store) : Prop := {
  wo_dl_wf : map_wf (st_downloads s);
  wo_dl_key : ∀ k d, map_get k (st_downloads s) = Some d → k = dl_key d;
  wo_dl_host : Forall (λ d, 0 ∉ dl_host d) (dnl_list s);
  wo_dl_hash : Forall (λ d, dl_hash d ≠ Throw) (dnl_list s);
  wo_hosts : rows_filed s;
}.

Record written (rows : list (bytes * IStoredMessageData)) (options : ApplyOpts) (stats : list (option Status))
    (s s' : Store) : Prop := {
  wr_rows : ∀ i hash data, rows !! i = Some (hash, data) →
    map_get (btob64 hash) (st_messages s') = Some (settled (default None (stats !! i)) (omit_rlm data));
  wr_other : ∀ k, k ∉ btob64 <$> rows.*1 → map_get k (st_messages s') = map_get k (st_messages s);
  wr_downloads : ∀ k d, map_get k (st_downloads s') = Some d ↔
    map_get k (st_downloads s) = Some d ∧ ¬ wanted rows.*1 d;
  wr_uploads : ∀ label h, h ∈ upl_list label s' ↔ h ∈ upl_list label s ∨
    (ao_enqueueUpload options = true ∧ label ∈ st_hosts s ∧
     ∃ i, rows.*1 !! i = Some h ∧ is_done (default None (stats !! i)) = true);
  wr_cursors : st_cursors s' = st_cursors s;
  wr_hosts : st_hostRows s' = st_hostRows s;
  wr_wf : map_wf (st_messages s) → map_wf (st_messages s');
  wr_ok : writer_ok s';
}.

(** Fewer downloads and the same hosts: still fit to write to. *)
Lemma writer_ok_sub s s' :
  writer_ok s → map_wf (st_downloads s') →
  (∀ k d, map_get k (st_downloads s') = Some d → map_get k (st_downloads s) = Some d) →
  st_hostRows s' = st_hostRows s → writer_ok s'.
Proof.
  intros [Hw Hk Hz Ht Hh] Hw' Hd Hr.
  assert (Hin : ∀ d, d ∈ dnl_list s' → d ∈ dnl_list s).
  { intros d (k & Hin)%elem_of_map_values. apply (elem_of_map_values _ d). exists k.
    apply map_get_elem; [done|]. apply Hd. by apply map_get_elem. }
  split; [done|eauto|..|by unfold rows_filed; rewrite Hr]; apply Forall_forall; intros d Hd'%Hin;
    [by eapply Forall_forall in Hz|by eapply Forall_forall in Ht].
Qed.

Lemma elem_of_done_keys (keys : list bytes) stats h :
  h ∈ done_keys (outcomes keys stats) ↔ ∃ i, keys !! i = Some h ∧ is_done (default None (stats !! i)) = true.
Proof.
  unfold done_keys. rewrite list_elem_of_omap. split.
  - intros ([k st] & Hin & He). cbn in He. destruct (is_done st) eqn:Ed; [|done]. injection He as ->.
    apply list_elem_of_lookup_1 in Hin as [i Hi]. exists i. unfold outcomes in Hi.
    rewrite list_lookup_imap in Hi. destruct (keys !! i) as [k|] eqn:Ek; [|done]. cbn in Hi. by injection Hi as -> ->.
  - intros (i & Hi & Hd). exists (h, default None (stats !! i)). split.
    + eapply list_elem_of_lookup_2, outcomes_lookup, Hi.
    + cbn [fst snd]. by rewrite Hd.
Qed.

(** The upload step of a write. *)
Definition queue_uploads (options : ApplyOpts) (up : list bytes) (s : Store) : Store :=
  if ao_enqueueUpload options && (0 <? Z.of_nat (length up)) then enq_hosts (hosts_list s) up s else s.

Lemma queue_uploads_run options up s (n : N) :
  (if ao_enqueueUpload options
   then if 0 <? Z.of_nat (length up) then hosts ← rd hosts_list; on_st (enq_hosts hosts up) else mret tt
   else mret tt) (s, n) = (Ok tt, (queue_uploads options up s, n)).
Proof. unfold queue_uploads. destruct (ao_enqueueUpload options); [|done]. by destruct (0 <? _). Qed.

Lemma queue_uploads_list options up s label h :
  rows_filed s →
  h ∈ upl_list label (queue_uploads options up s) ↔
    h ∈ upl_list label s ∨ (ao_enqueueUpload options = true ∧ label ∈ st_hosts s ∧ h ∈ up).
Proof.
  intros Hf. unfold queue_uploads. destruct (ao_enqueueUpload options); cbn [andb]; [|naive_solver].
  destruct (Z.ltb_spec 0 (Z.of_nat (length up))) as [_|Hz].
  - rewrite enq_hosts_uploads, hosts_list_labels by done. tauto.
  - destruct up; [|cbn in Hz; lia]. split; [by left|]. intros [?|(_ & _ & ?%not_elem_of_nil)]; done.
Qed.

Lemma queue_uploads_rest options up s :
  let s' := queue_uploads options up s in
  st_messages s' = st_messages s ∧ st_downloads s' = st_downloads s ∧ st_cursors s' = st_cursors s ∧
  st_hostRows s' = st_hostRows s.
Proof. unfold queue_uploads. destruct (_ && _); [apply enq_hosts_rest|done]. Qed.

Lemma doApply_spec parts options rows stats s n n' :
  writer_ok s → storables parts (ao_realm options) = Ok rows → NoDup rows.*1 →
  (if ao_triggerUpload options then app_schedule n = (Ok tt, n') else n' = n) →
  ∃ s', doApply parts options (Ok stats) (s, n) = (Ok stats, (s', n')) ∧ written rows options stats s s'.
Proof.
  intros Hwo Hrows Hn Htr. destruct (Hwo) as [Hw Hk Hz Ht Hh]. unfold doApply. rewrite Hrows, lift_bind, st_bind.
  set (s1 := msgs_add rows s).
  destruct (deqDownloads_total rows.*1 s1 n Ht) as (s2 & Hdq & Hh2 & Hw2). rewrite (ok_bind _ _ _ _ _ Hdq), lift_bind.
  destruct (deqDownloads_spec rows.*1 s1 n _ Hw Hz Hk Hdq) as (s2' & [= <-] & Hm2 & Hu2 & Hc2 & _ & Hd2).
  change (st_cursors s1) with (st_cursors s) in Hc2. change (st_hostRows s1) with (st_hostRows s) in Hh2.
  rewrite (ok_bind _ _ _ _ _ (markApplyStats_run rows.*1 stats s2 n)).
  pose proof (mark_outcomes_miss rows.*1 stats s2) as Hmiss. pose proof (mark_outcomes_hit rows.*1 stats Hn s2) as Hhit.
  destruct (mark_outcomes_rest rows.*1 stats s2) as [Hd3 Hu3 Hc3 Hh3 _ Hkeys].
  set (s3 := mark_outcomes rows.*1 stats s2) in *.
  set (up := done_keys (outcomes rows.*1 stats)).
  rewrite (ok_bind _ _ _ _ _ (queue_uploads_run options up s3 n)).
  assert (Hf3 : rows_filed s3) by (unfold rows_filed; rewrite Hh3, Hh2; exact Hh).
  assert (Hlab : st_hosts s3 = st_hosts s) by (unfold st_hosts; by rewrite Hh3, Hh2).
  destruct (queue_uploads_rest options up s3) as (Hm4 & Hd4 & Hc4 & Hh4).
  pose proof (λ label h, queue_uploads_list options up s3 label h Hf3) as Hu4.
  set (s4 := queue_uploads options up s3) in *. exists s4. split.
  - assert (Hs : (if ao_triggerUpload options then on_net app_schedule else mret tt) (s4, n) = (Ok tt, (s4, n'))).
    { destruct (ao_triggerUpload options); [|by rewrite Htr]. cbn. by rewrite Htr. }
    by rewrite (ok_bind _ _ _ _ _ Hs).
  - assert (Hdl : ∀ k d, map_get k (st_downloads s4) = Some d ↔
      map_get k (st_downloads s) = Some d ∧ ¬ wanted rows.*1 d).
    { intros k d. rewrite Hd4, Hd3, Hd2. change (st_downloads s1) with (st_downloads s).
      destruct (map_get k (st_downloads s)) as [d'|]; [|naive_solver]. case_decide; naive_solver. }
    split; [| |exact Hdl| |congruence|congruence| |].
    + intros i hash data Hi. rewrite Hm4, (Hhit i hash) by (by rewrite list_lookup_fmap, Hi).
      rewrite Hm2. unfold s1. by rewrite (msgs_add_row rows s i hash data Hn Hi).
    + intros k Hk'. rewrite Hm4, Hmiss, Hm2 by done. by apply msgs_add_miss.
    + intros label h. rewrite Hu4, Hlab. unfold up. rewrite elem_of_done_keys.
      unfold upl_list. by rewrite Hu3, Hu2.
    + intros Hwm. unfold map_wf. rewrite Hm4, Hkeys, Hm2. by apply msgs_add_wf.
    + apply (writer_ok_sub s); [done|rewrite Hd4, Hd3; by apply Hw2|by intros k d [? _]%Hdl|congruence].
Qed.

Lemma write_spec parts options rows stats s n n1 n' :
  writer_ok s → storables parts (ao_realm options) = Ok rows → NoDup rows.*1 →
  app_apply (msgsFromParts parts) n = (Ok stats, n1) →
  (if ao_triggerUpload options then app_schedule n1 = (Ok tt, n') else n' = n1) →
  ∃ s', write parts options (s, n) = (Ok stats, (s', n')) ∧ written rows options stats s s'.
Proof.
  intros Hok Hrows Hn Ha Htr. destruct (doApply_spec parts options rows stats s n1 n' Hok Hrows Hn Htr) as (s' & Hd & Hwr).
  exists s'. split; [|done]. unfold write.
  assert (Hs : m_settle (on_net (app_apply (msgsFromParts parts))) (s, n) = (Ok (Ok stats), (s, n1))).
  { unfold m_settle, on_net. by rewrite Ha. }
  by rewrite (ok_bind _ _ _ _ _ Hs).
Qed.
End whole.
