(* ===== verification/LocalApp.v ===== *)
(** * A client over the in-memory entity database

    [StateManager] over [EntDBMemory] as the application of the writer, and
    what one local write does to both the stores and the entities. *)
From S2P Require Export WriterFacts EntProps.
From S2P Require Import Js.
Import EntDBMemory.

Record LocalApp := mkLocal { la_db : db; la_em : emitter; la_sched : nat }.

(** [StateManager.apply] and [clear], and a count of the scheduled syncs. *)
#[export] Instance local_app : ClientApp LocalApp := {|
  app_apply msgs a :=
    let '(d, r) := sm_apply apply false (la_em a) (la_db a) msgs in
    (res_map sr_results r, mkLocal d (la_em a) (la_sched a));
  app_clear a := (Ok Success, mkLocal (clear (la_db a)) (la_em a) (la_sched a));
  app_schedule a := (Ok tt, mkLocal (la_db a) (la_em a) (S (la_sched a)));
|}.

Definition msg_of (m : IMsgParts) : IMessage := mkMsg (mp_head m) (mp_body m).

(** The status of an op against the stored row. *)
Definition op_status (d : db) (op : IOp) : Status :=
  match applyOp (getRow d (op_eid (op_head op))) op with Ok _ => Success | Err e => e | Throw => InternalError end.

Section local.
Context {C : CryptoPrims}.

(** Encoders of heads with a valid offset raise nothing. *)
Definition no_raise {A} (m : EncM A) : Prop := ∀ e, (m e).1 ≠ Throw.

Lemma no_raise_bind {A B} (m : EncM A) (k : A → EncM B) :
  no_raise m → (∀ a, no_raise (k a)) → no_raise (m ≫= k).
Proof.
  intros Hm Hk e. specialize (Hm e). unfold mbind, M_bind, m_bind.
  destruct (m e) as [[a| |] e']; [apply Hk|done..].
Qed.

Lemma no_raise_num n : no_raise (writeVarNum (Some n)).
Proof. intros e. unfold writeVarNum, VarInt.encodeVarInt. by repeat case_match. Qed.

Lemma archiveKey_total head o : mh_off head = Some o → ∃ h, archiveKey head = Ok h.
Proof.
  intros Ho.
  assert (H : no_raise (writeStruct messageHeadCodec head)).
  { unfold writeStruct, messageHeadCodec, cEncode, writeVarInt. rewrite Ho.
    repeat (apply no_raise_bind; [|intros _]); try apply no_raise_num; try by intros e.
    by destruct (mh_hsh head). }
  unfold archiveKey. specialize (H newEncoder).
  destruct (writeStruct messageHeadCodec head newEncoder) as [[| |] e]; [eauto|eauto|done].
Qed.

Lemma local_apply_one msg op a :
  msgToOp msg = Ok op →
  app_apply [msg] a = (Ok [Some (op_status (la_db a) op)], mkLocal (apply (la_db a) [op]).1 (la_em a) (la_sched a)).
Proof.
  intros Hop. unfold app_apply, local_app, sm_apply. cbn [parse_msgs]. rewrite Hop, bind_Ok. cbv beta iota.
  destruct (apply_stats (la_db a) [op]) as (out & Ho & Hs).
  destruct (apply (la_db a) [op]) as [d' r]. cbn [snd] in Ho. subst r. cbn [fst res_map sr_results]. rewrite Hs.
  assert (Hst : op_stats (la_db a) [op] = [op_status (la_db a) op]).
  { unfold op_status, getRow. cbn [op_stats]. fold (op_key op). destruct (applyOp _ op) eqn:E; try done.
    by apply applyOp_no_throw in E. }
  rewrite Hst. do 2 f_equal. exact (merge_all_parsed [op_status (la_db a) op]).
Qed.

(** One local write: the row of the entity, the archive row, the queues. *)
Lemma write_one_local head body op h s a :
  writer_ok s → msgToOp (mkMsg head body) = Ok op → archiveKey head = Ok h →
  let st := op_status (la_db a) op in
  ∃ s', write_one head body (s, a) =
      (if is_done (Some st) then Ok head else Err st,
       (s', mkLocal (apply (la_db a) [op]).1 (la_em a) (S (la_sched a)))) ∧
    written [(h, msg2StoredMsgData (mkParts head body) None)] defaultApply [Some st] s s'.
Proof.
  intros Hok Hop Hh st.
  destruct (write_spec [mkParts head body] defaultApply [(h, msg2StoredMsgData (mkParts head body) None)]
    [Some st] s a (mkLocal (apply (la_db a) [op]).1 (la_em a) (la_sched a)) (mkLocal (apply (la_db a) [op]).1 (la_em a) (S (la_sched a))) Hok) as (s' & Hw & Hwr).
  - cbn. by rewrite Hh.
  - apply NoDup_singleton.
  - by apply local_apply_one.
  - done.
  - exists s'. split; [|done]. unfold write_one. rewrite (ok_bind _ _ _ _ _ Hw). cbn [lookup list_lookup default from_option id].
    by destruct (is_done (Some st)).
Qed.
End local.

(** ** Writes against a stored row *)
Section revisions.
Context {C : CryptoPrims}.

Definition valid_ms (t : Z) : Prop := 0 <= t <= maxDate.

Lemma off_back c t : valid_ms c → valid_ms t → fadd (Some c) (Some (t - c)) = Some t.
Proof.
  unfold valid_ms, maxDate. intros Hc Ht. cbn. f_equal. replace (c + (t - c)) with t by lia.
  apply Number_safe. unfold maxSafe. lia.
Qed.

Lemma off_of c t : valid_ms c → valid_ms t → fsub (Some t) (Some c) = Some (t - c).
Proof. unfold valid_ms, maxDate. intros Hc Ht. cbn. f_equal. apply Number_safe. unfold maxSafe. lia. Qed.

(** An op whose offset leads from its creation time [c] to [t]. *)
Lemma op_at op e c t :
  run_dec (readStruct eidCodec) (op_eid (op_head op)) = Ok e → eid_ts e = Some c →
  op_off (op_head op) = Some (t - c) → valid_ms c → valid_ms t →
  op_ok op ∧ op_ms op = t ∧ op_ts op = Some c.
Proof.
  intros He Hc Ho Hvc Hvt. unfold op_ok, op_ms, op_ts, op_stamp. rewrite He, Hc. unfold op_time.
  rewrite Ho. unfold getTime. rewrite off_back by done. rewrite mkDate_ok by done. by eauto.
Qed.

(** The status and the rows after one op with a valid time. *)
Lemma one_op d op :
  op_ok op →
  let stale := match getRow d (op_eid (op_head op)) with
               | Some r => fle (Some (op_ms op)) (row_updatedAt r) | None => false end in
  op_status d op = (if stale then NoChange else Success) ∧
  getRow (apply d [op]).1 (op_eid (op_head op)) = (if stale then getRow d (op_eid (op_head op)) else Some (row_of op)) ∧
  ∀ eid, eid ≠ op_eid (op_head op) → getRow (apply d [op]).1 eid = getRow d eid.
Proof.
  intros Hok. cbv zeta. pose proof (applyOp_ok (getRow d (op_eid (op_head op))) op Hok) as Ha.
  assert (Hrow : ∀ eid, getRow (apply d [op]).1 eid =
    if decide (eid = op_eid (op_head op)) then step_row (getRow d eid) op else getRow d eid).
  { intros eid. unfold getRow. rewrite apply_row. unfold ops_at. rewrite filter_cons. case_decide as Hk.
    - unfold op_key in Hk. apply (inj btob64) in Hk. by rewrite decide_True.
    - rewrite decide_False; [done|]. intros ->. by apply Hk. }
  unfold op_status. rewrite Hrow, decide_True by done. unfold step_row. rewrite Ha. split_and!.
  - destruct (getRow d _) as [r|]; [|done]. by destruct (fle _ _).
  - destruct (getRow d _) as [r|]; [|done]. by destruct (fle _ _).
  - intros eid Hne. by rewrite Hrow, decide_False.
Qed.

Definition body_opens (bod : option bytes) : Prop :=
  match bod with Some b => is_ok (run_dec (readStruct entCodec) b) = true | None => True end.

Lemma msgToOp_head head bod :
  body_opens bod → ∃ op, msgToOp (mkMsg head bod) = Ok op ∧ op_head op = mkOpHead (mh_eid head) (mh_off head) (mh_ctr head).
Proof.
  intros Hb. unfold msgToOp. cbn [msg_bod msg_head]. destruct bod as [b|]; [|eauto].
  destruct (blen b =? 0); [eauto|]. cbn in Hb. destruct (run_dec _ b) as [ent| |]; [|done..].
  eexists. split; [reflexivity|done].
Qed.

Lemma genUpsertHead_valid t c eid e ctr typ bod :
  run_dec (cDecode eidCodec) eid = Ok e → eid_ts e = Some c → valid_ms c → valid_ms t →
  ∃ head, genUpsertHead (Some t) eid ctr typ bod = Ok head ∧
    mh_eid head = eid ∧ mh_off head = Some (t - c) ∧ mh_ctr head = ctr ∧ mh_typ head = Some typ.
Proof.
  intros He Hc Hvc Hvt. unfold genUpsertHead. rewrite He, bind_Ok, Hc. unfold getTime. rewrite off_of by done.
  eexists. split; [reflexivity|done].
Qed.
End revisions.
