(* ===== verification/WriterProps.v ===== *)
(** * Properties of local writes and of blobs *)
From S2P Require Export LocalApp.
From S2P Require Import Js.
Import EntDBMemory.

Section props.
Context {C : CryptoPrims}.

(** A revision read off a stored row, at times a clock can show. *)
Record prior_of (d : db) (prior : IEntRev) (e : IEntityID) (c u : Z) : Prop := {
  po_row : ∃ r, getRow d (rev_eid prior) = Some r ∧ row_updatedAt r = rev_updatedAt prior;
  po_eid : run_dec (readStruct eidCodec) (rev_eid prior) = Ok e;
  po_created : eid_ts e = Some c;
  po_updated : rev_updatedAt prior = Some u;
  po_valid : valid_ms c ∧ valid_ms u;
}.

(** One write at time [t] against the row the revision was read from. *)
Lemma write_at head bod c e eid t u ctr typ s a r :
  writer_ok s → body_opens bod → run_dec (readStruct eidCodec) eid = Ok e → eid_ts e = Some c →
  valid_ms c → valid_ms t →
  mh_eid head = eid → mh_off head = Some (t - c) → mh_ctr head = ctr → mh_typ head = Some typ →
  getRow (la_db a) eid = r → (∀ r0, r = Some r0 → row_updatedAt r0 = Some u) →
  let stale := match r with Some _ => t <=? u | None => false end in
  ∃ s' h op, archiveKey head = Ok h ∧ msgToOp (mkMsg head bod) = Ok op ∧
    write_one head bod (s, a) = (Ok head, (s', mkLocal (apply (la_db a) [op]).1 (la_em a) (S (la_sched a)))) ∧
    written [(h, msg2StoredMsgData (mkParts head bod) None)] defaultApply
      [Some (if stale then NoChange else Success)] s s' ∧
    getRow (apply (la_db a) [op]).1 eid = (if stale then r else Some (row_of op)) ∧
    row_updatedAt (row_of op) = Some t ∧ row_ctr (row_of op) = ctr ∧
    (∀ eid', eid' ≠ eid → getRow (apply (la_db a) [op]).1 eid' = getRow (la_db a) eid').
Proof.
  intros Hok Hb He Hc Hvc Hvt Hme Hmo Hmc Hmt Hr Hu stale.
  destruct (msgToOp_head head bod Hb) as (op & Hop & Hhd). rewrite Hme, Hmo, Hmc in Hhd.
  assert (Hoe : op_eid (op_head op) = eid) by by rewrite Hhd.
  destruct (op_at op e c t) as (Hoo & Hms & _); [by rewrite Hoe|done|by rewrite Hhd|done..|].
  destruct (archiveKey_total head _ Hmo) as (h & Hh).
  destruct (one_op (la_db a) op Hoo) as (Hst & Hrow & Hoth). rewrite Hoe, Hr, Hms in *.
  assert (Hstale : match r with Some r => fle (Some t) (row_updatedAt r) | None => false end = stale).
  { unfold stale. destruct r as [r|]; [|done]. by rewrite (Hu r eq_refl). }
  rewrite Hstale in Hst, Hrow.
  destruct (write_one_local head bod op h s a Hok Hop Hh) as (s' & Hw & Hwr). rewrite Hst in Hw, Hwr.
  exists s', h, op. split_and!; try done.
  - rewrite Hw. by destruct stale.
  - by rewrite row_of_time, Hms.
  - unfold row_of, op_row. rewrite Hhd. by destruct (op_mut op).
Qed.

(** The delete that makes a row from the future lose. *)
Lemma skew_delete_at prior e c u s a :
  writer_ok s → prior_of (la_db a) prior e c u → u < maxDate →
  ∃ s' op, write_one (skew_delete prior (eid_ts e)) None (s, a) =
      (Ok (skew_delete prior (eid_ts e)),
       (s', mkLocal (apply (la_db a) [op]).1 (la_em a) (S (la_sched a)))) ∧
    writer_ok s' ∧
    (∃ row, getRow (apply (la_db a) [op]).1 (rev_eid prior) = Some row ∧ isTombstone row = true ∧
       row_updatedAt row = Some (u + 1)) ∧
    (∀ eid, eid ≠ rev_eid prior → getRow (apply (la_db a) [op]).1 eid = getRow (la_db a) eid).
Proof.
  intros Hok [(r0 & Hr0 & Hu0) He Hc Hu [Hvc Hvu]] Hmax.
  assert (Hoff : mh_off (skew_delete prior (eid_ts e)) = Some (u + 1 - c)).
  { cbn. rewrite Hu, Hc. unfold getTime. rewrite off_of by done. cbn. f_equal.
    replace (u - c + 1) with (u + 1 - c) by lia. apply Number_safe. unfold valid_ms, maxDate, maxSafe in *. lia. }
  destruct (write_at (skew_delete prior (eid_ts e)) None c e (rev_eid prior) (u + 1) u (rev_ctr prior + 1) [] s a (Some r0)
    Hok I He Hc Hvc ltac:(unfold valid_ms in *; lia) eq_refl Hoff eq_refl eq_refl Hr0)
    as (s1 & h & op & _ & Hop & Hw & Hwr & Hrow & Hrt & _ & Hoth); [intros r1 [= <-]; congruence|].
  rewrite (proj2 (Z.leb_gt _ _)) in Hrow by lia. exists s1, op. split_and!; [done|apply Hwr| |done].
  exists (row_of op). split_and!; [done| |done]. by injection Hop as <-.
Qed.

(** Updating from the revision the application last saw.  Against a row
    written before now, [updateRaw] leaves the new version in the row: dated
    now, with the next counter; the message is archived as applied and queued
    for every host, and a sync is scheduled.  Against a row written in this same
    millisecond the call reports success but leaves the entity as it was, since
    an op that is not strictly later is obsolete.  Against a row from the future
    it does nothing unless forced; then the row becomes a tombstone one
    millisecond later than it was, and an update continues as a new entity with
    the same id bytes. *)
Theorem update_from_prior prior bod force typ e c u t s a :
  writer_ok s → body_opens bod → prior_of (la_db a) prior e c u → valid_ms t → u < maxDate →
  t ≠ c → bytes_ok (eid_id e) → getRow (la_db a) (eid_wire (mkIEntityID (eid_id e) (Some t))) = None →
  let eid := rev_eid prior in
  let '(r, (s', a')) := updateRaw (Some t) (Some t) prior bod force typ (s, a) in
  (u <= t → ∃ head h, r = Ok head ∧ archiveKey head = Ok h ∧ mh_eid head = eid ∧ la_sched a' = S (la_sched a) ∧
     written [(h, msg2StoredMsgData (mkParts head bod) None)] defaultApply
       [Some (if t <=? u then NoChange else Success)] s s' ∧
     (u < t → ∃ row, getRow (la_db a') eid = Some row ∧ row_updatedAt row = Some t ∧ row_ctr row = rev_ctr prior + 1) ∧
     (u = t → ∀ eid', getRow (la_db a') eid' = getRow (la_db a) eid')) ∧
  (t < u → force = false → r = Err ClockOutOfSync ∧ s' = s ∧ a' = a) ∧
  (t < u → force = true → ∃ head,
     r = Ok head ∧
     (∃ row, getRow (la_db a') eid = Some row ∧ isTombstone row = true ∧ row_updatedAt row = Some (u + 1)) ∧
     match bod with
     | None => mh_eid head = eid
     | Some _ => mh_eid head = eid_wire (mkIEntityID (eid_id e) (Some t)) ∧
         ∃ row, getRow (la_db a') (mh_eid head) = Some row ∧ row_updatedAt row = Some t ∧ row_ctr row = 0
     end).
Proof.
  intros Hok Hb Hpr Hvt Hmax Hne Hid Hnew eid. destruct (Hpr) as [(r0 & Hr0 & Hu0) He Hc Hu [Hvc Hvu]].
  destruct (updateRaw _ _ _ _ _ _ _) as [r [s' a']] eqn:E. unfold updateRaw in E.
  rewrite Hu in *. unfold getTime, flt in E. destruct (Z.ltb_spec t u) as [Hlt|Hge].
  - split; [lia|]. unfold updateWithSkew in E. split.
    + intros _ ->. cbn in E. by injection E as <- <- <-.
    + intros _ ->. cbn [negb] in E. rewrite He, lift_bind in E.
      destruct (skew_delete_at prior e c u s a Hok Hpr Hmax) as (s1 & op & Hw & Hok1 & Htomb & Hoth).
      rewrite (ok_bind _ _ _ _ _ Hw) in E. set (a1 := mkLocal _ _ _) in E.
      destruct bod as [b|]; [|cbn in E; injection E as <- <- <-; by eexists].
      set (repl := mkIEntityID (eid_id e) (Some t)) in *.
      assert (Hrep : eid_ok repl) by (split; [done|by exists t]).
      rewrite (makeEID_wire repl Hrep), lift_bind in E.
      pose proof (eid_run repl Hrep) as Hdec.
      destruct (genUpsertHead_valid t t (eid_wire repl) repl 0 typ (Some b) Hdec eq_refl Hvt Hvt) as (head & Hh & H1 & H2 & H3 & H4).
      rewrite Hh, lift_bind in E.
      assert (Hdiff : eid_wire repl ≠ eid).
      { intros Heq. change eid with (rev_eid prior) in Heq. rewrite <-Heq in He. unfold readStruct in He. rewrite Hdec in He.
        assert (Some t = Some c) as [= ->]; [|done]. rewrite <-Hc. assert (e = repl) as Her by congruence. by rewrite Her. }
      destruct (write_at head (Some b) t repl (eid_wire repl) t 0 0 typ s1 a1 None Hok1 Hb Hdec eq_refl Hvt Hvt H1 H2 H3 H4)
        as (s2 & h & op2 & _ & _ & Hw2 & _ & Hrow & Hrt & Hrc & Hoth2); [cbn; by rewrite Hoth|done|].
      rewrite Hw2 in E. injection E as <- <- <-. exists head. split_and!; [done| |done|].
      * destruct Htomb as (row & Hg & Ht1 & Ht2). exists row. cbn [la_db]. by rewrite Hoth2 by done.
      * rewrite H1. by exists (row_of op2).
  - split; [|by split; intros; lia]. intros _.
    destruct (genUpsertHead_valid t c eid e (rev_ctr prior + 1) typ bod He Hc Hvc Hvt) as (head & Hh & H1 & H2 & H3 & H4).
    unfold makeUpdate in E. rewrite Hu in E. unfold getTime, flt in E. rewrite (proj2 (Z.ltb_ge _ _)) in E by done.
    fold eid in E. rewrite Hh, bind_Ok, lift_bind in E. cbn [mp_head mp_body] in E.
    destruct (write_at head bod c e eid t u (rev_ctr prior + 1) typ s a (Some r0) Hok Hb He Hc Hvc Hvt H1 H2 H3 H4 Hr0)
      as (s1 & h & op & Hk & Hop & Hw & Hwr & Hrow & Hrt & Hrc & Hoth); [by intros r1 [= <-]|].
    rewrite Hw in E. injection E as <- <- <-. exists head, h. split_and!; try done.
    + intros Hlt. rewrite (proj2 (Z.leb_gt _ _)) in Hrow by lia. by exists (row_of op).
    + intros ->. rewrite Z.leb_refl in Hrow. intros eid'. cbn [la_db].
      destruct (decide (eid' = eid)) as [->|Hneq]; [by etransitivity; [exact Hrow|symmetry; exact Hr0]|by apply Hoth].
Qed.

Lemma fold_left_only {A B} (f : option B → A → option B) (P : A → Prop) `{∀ x, Decision (P x)} y b l :
  y ∈ l → (∀ x, x ∈ l → P x → x = y) → P y → (∀ x acc, ¬ P x → f acc x = acc) →
  f None y = Some b → f (Some b) y = Some b → fold_left f l None = Some b.
Proof.
  intros Hy Hl HP Hskip H0 H1. cut ((y ∈ l → fold_left f l None = Some b) ∧ fold_left f l (Some b) = Some b); [by intros [? _]; auto|].
  clear Hy. induction l as [|x l IH]; [by split; [intros ?%not_elem_of_nil|]|]. cbn [fold_left].
  destruct IH as [IH1 IH2]; [by intros z Hz; apply Hl; right|]. destruct (decide (P x)) as [Hx|Hx].
  - pose proof (Hl x ltac:(by left) Hx) as ->. by rewrite H0, H1.
  - rewrite !Hskip by done. split; [|done]. intros [-> |?]%elem_of_cons; [done|auto].
Qed.

(** The only row of an entity is the last one. *)
Lemma msgs_last_only eid s k d :
  map_wf (st_messages s) → map_get k (st_messages s) = Some d → sd_eid d = eid →
  (∀ k' d', map_get k' (st_messages s) = Some d' → sd_eid d' = eid → k' = k) →
  msgs_last eid s = Some (k, d).
Proof.
  unfold msgs_last. intros Hw Hg He Hu.
  assert (Hin : (k, d) ∈ st_messages s) by by apply map_get_elem.
  assert (Hall : ∀ x, x ∈ st_messages s → sd_eid x.2 = eid → x = (k, d)).
  { intros [k' d'] Hx Hx'. apply map_get_elem in Hx; [|done]. cbn in Hx'. pose proof (Hu k' d' Hx Hx') as ->. congruence. }
  clear Hw Hg Hu. eapply (fold_left_only _ (λ x, sd_eid x.2 = eid)); [exact Hin|exact Hall|done|..].
  - intros [k' d'] acc Hx. cbn in Hx. destruct (bytesEqual eid (sd_eid d')) eqn:E; [|done].
    apply bytesEqual_spec in E. congruence.
  - cbn. by rewrite He, bytesEqual_refl.
  - cbn. rewrite He, bytesEqual_refl. cbn. by destruct (later_row d d).
Qed.

Lemma last_run eid (s : Store) (a : LocalApp) m :
  last_stored eid s = Some m → lastMsg eid (s, a) = (Ok (Some (mkMsg (sm_head m) (sm_body m))), (s, a)).
Proof. intros Hl. unfold lastMsg. by rewrite rd_bind, Hl. Qed.

(** A blob the client writes reads back from its archive: [readBlob]
    gives the bytes, the archived message has the mime, and its body holds the
    parent and the tags given. *)
Theorem blob_reads_back id mime bs opts t s a :
  let eid := eid_wire (mkIEntityID id (Some t)) in
  writer_ok s → map_wf (st_messages s) → valid_ms t → bytes_ok id → mime ≠ [] → ent_ok (entOf opts bs) →
  (∀ k d, map_get k (st_messages s) = Some d → sd_eid d ≠ eid) → getRow (la_db a) eid = None →
  ∃ head s' a' m bod,
    insertBlob id (Some t) mime bs opts (s, a) = (Ok head, (s', a')) ∧ mh_eid head = eid ∧
    readBlob eid (s', a') = (Ok bs, (s', a')) ∧
    lastMsg eid (s', a') = (Ok (Some m), (s', a')) ∧ mimeOf (mh_typ (msg_head m)) = Some mime ∧
    msg_bod m = Some bod ∧ openBlob bod = Ok (entOf opts bs).
Proof.
  intros eid Hok Hwf Hvt Hid Hm He Hnone Hrow. set (e := mkIEntityID id (Some t)) in *.
  assert (Hee : eid_ok e) by (split; [done|by exists t]). pose proof (eid_run e Hee) as Hdec.
  set (bod := ent_wire (entOf opts bs)).
  assert (Hins : insertBlobMsg mime bs opts = Ok (blobTyp mime, bod)).
  { unfold insertBlobMsg. destruct (Nat.eqb_spec (length mime) 0) as [Hz|]; [by destruct mime|]. by rewrite encodeEnt_wire. }
  assert (Hopen : body_opens (Some bod)).
  { unfold body_opens, bod. pose proof (openBlob_wire _ He) as Ho. unfold openBlob in Ho. by rewrite Ho. }
  destruct (genUpsertHead_valid t t eid e 0 (blobTyp mime) (Some bod) Hdec eq_refl Hvt Hvt) as (head & Hh & H1 & H2 & H3 & H4).
  destruct (write_at head (Some bod) t e eid t 0 0 (blobTyp mime) s a None Hok Hopen Hdec eq_refl Hvt Hvt H1 H2 H3 H4 Hrow)
    as (s' & h & op & Hk & _ & Hw & [Hwr Hot _ _ _ _ Hwf' _] & _); [done|].
  set (d := msg2StoredMsgData (mkParts head (Some bod)) None) in *.
  pose proof (Hwr 0%nat h d eq_refl) as Hd. set (d' := settled _ _) in Hd.
  assert (Hde : sd_eid d' = eid ∧ sd_body d' = Some bod ∧ sd_typ d' = Some (blobTyp mime)).
  { cbn in d'. unfold d', d, settled, msg2StoredMsgData. cbn. rewrite H4. done. }
  destruct Hde as (Hde & Hdb & Hdt). clearbody d'.
  assert (Hlast : last_stored eid s' = Some (toStoredMessage h d')).
  { unfold last_stored. rewrite (msgs_last_only eid s' (btob64 h) d'); [by cbn; rewrite unb64_btob64|by apply Hwf'|done..|].
    intros k' x Hx Hxe. destruct (decide (k' = btob64 h)); [done|]. destruct (Hnone k' x); [|done].
    rewrite <-Hx. symmetry. apply Hot. cbn. set_solver. }
  assert (Hty : mh_typ (sm_head (toStoredMessage h d')) = Some (blobTyp mime)) by (cbn; by rewrite Hdt).
  assert (Hbo : sm_body (toStoredMessage h d') = Some bod) by exact Hdb.
  pose proof (insertBlob_reads mime bs opts _ _ _ He Hins Hty) as Hreads. revert Hlast Hty Hbo Hreads.
  generalize (toStoredMessage h d'). intros m Hlast Hty Hbo Hreads.
  eexists head, s', _, _, bod. split_and!; [|done| | | | |].
  - unfold insertBlob. rewrite Hins, lift_bind. unfold insertRaw, genInsertHead.
    fold e. pose proof (makeEID_wire e Hee) as Hme. unfold makeEID in Hme. rewrite Hme, bind_Ok. change (eid_wire e) with eid. rewrite Hh, lift_bind. exact Hw.
  - unfold readBlob. rewrite (ok_bind _ _ _ _ _ (last_run _ _ _ _ Hlast)).
    unfold m_lift. rewrite Hbo. by rewrite (proj1 Hreads).
  - by apply (last_run _ _ _ _ Hlast).
  - apply Hreads.
  - done.
  - apply Hreads.
Qed.
End props.

Section writes.
Context {C : CryptoPrims} {N : Type} {AC : ClientApp N}.

(** [C18] A write archives its messages before it learns what the application
    made of them: queued downloads of the same messages are dropped either way.
    When the application answers, a message it took (or had already) is marked
    applied and queued for every host, one it refused for good is marked failed
    with its status, and any other stays pending.  When the application fails
    the write fails the same way, with all its messages archived as pending and
    no upload queued. *)
Theorem write_archives_then_settles parts options rows s n r n1 n' :
  writer_ok s → storables parts (ao_realm options) = Ok rows → NoDup rows.*1 →
  app_apply (msgsFromParts parts) n = (r, n1) →
  (if ao_triggerUpload options then app_schedule n1 = (Ok tt, n') else n' = n1) →
  ∃ s', write parts options (s, n) = (r, (s', if is_ok r then n' else n1)) ∧
    (∀ i hash data, rows !! i = Some (hash, data) → map_get (btob64 hash) (st_messages s') =
       Some (match r with Ok stats => settled (default None (stats !! i)) (omit_rlm data) | _ => omit_rlm data end)) ∧
    (∀ k, k ∉ btob64 <$> rows.*1 → map_get k (st_messages s') = map_get k (st_messages s)) ∧
    (∀ k d, map_get k (st_downloads s') = Some d ↔ map_get k (st_downloads s) = Some d ∧ ¬ wanted rows.*1 d) ∧
    (∀ label h, h ∈ upl_list label s' ↔ h ∈ upl_list label s ∨
       (ao_enqueueUpload options = true ∧ label ∈ st_hosts s ∧
        ∃ stats i, r = Ok stats ∧ rows.*1 !! i = Some h ∧ is_done (default None (stats !! i)) = true)).
Proof.
  intros Hok Hr Hn Ha Htr. destruct (is_ok r) eqn:Er.
  - destruct r as [stats| |]; [|done..].
    destruct (write_spec parts options rows stats s n n1 n' Hok Hr Hn Ha Htr) as (s' & Hw & [H1 H2 H3 H4 _ _ _ _]).
    exists s'. split_and!; try done. intros label h. rewrite H4.
    split; (intros [?|(? & ? & H)]; [by left|right; split_and!; try done]).
    + destruct H as (i & ? & ?). by exists stats, i.
    + destruct H as (stats' & i & [= <-] & ? & ?). by exists i.
  - destruct (Hok) as [Hw Hk Hz Ht Hh]. destruct (deqDownloads_total rows.*1 (msgs_add rows s) n1 Ht) as (s2 & Hdq & _).
    destruct (deqDownloads_spec rows.*1 (msgs_add rows s) n1 _ Hw Hz Hk Hdq) as (s2' & [= <-] & Hm2 & Hu2 & _ & _ & Hd2).
    exists s2. split_and!.
    + unfold write.
      assert (Hs : m_settle (on_net (app_apply (msgsFromParts parts))) (s, n) = (Ok r, (s, n1))) by (unfold m_settle, on_net; by rewrite Ha).
      rewrite (ok_bind _ _ _ _ _ Hs). unfold doApply. rewrite Hr, lift_bind, st_bind, (ok_bind _ _ _ _ _ Hdq), lift_bind.
      by destruct r.
    + intros i hash data Hi. rewrite Hm2, (msgs_add_row rows s i hash data Hn Hi). by destruct r.
    + intros k Hk'. rewrite Hm2. by apply msgs_add_miss.
    + intros k d. rewrite Hd2. change (st_downloads (msgs_add rows s)) with (st_downloads s).
      destruct (map_get k (st_downloads s)) as [d'|]; [|naive_solver]. case_decide; naive_solver.
    + intros label h. unfold upl_list. rewrite Hu2. split; [by left|]. intros [?|(_ & _ & stats & i & -> & _)]; done.
Qed.
End writes.

(** ** Witnesses: one linked host, and the entities of [EntProps] *)

Import Toy.

Module WriterDemo.
Definition home : jsstr := js "h".
Definition s0 : Store := mkStore [] [(home, mkHostRow (mkHostInfo home 0 None) None)] [] [] [] [].
Definition a0 : LocalApp := mkLocal Sample.full [] 0.
Definition ida : bytes := [x01; x00; x00; x00; x00; x00; x00; x07].
Definition prior : IEntRev := mkRev Sample.a 1 (Some 1005).
Definition body : bytes := match encodeEnt (mkEnt None None (Some [x2a])) with Ok b => b | _ => [] end.
Definition head : IMessageHead := mkHead (Some (js "note")) Sample.a (Some 9) 2 (blen body) (Some (blake3hash body)).
Definition rows : list (bytes * IStoredMessageData) :=
  match storables [mkParts head (Some body)] None with Ok rows => rows | _ => [] end.
Definition app_run : M LocalApp (list (option Status)) := app_apply [mkMsg head (Some body)].

Lemma s0_ok : writer_ok s0.
Proof.
  split; try (by constructor); try (by intros ?). intros label row [= -> ->]%list_elem_of_singleton. done.
Qed.

Lemma prior_ok : prior_of (la_db a0) prior (mkIEntityID ida (Some 1000)) 1000 1005.
Proof.
  split; try (vm_compute; reflexivity); [|by vm_compute].
  eexists. split; vm_compute; reflexivity.
Qed.
End WriterDemo.
Import WriterDemo.

(** Two later writes from the same revision, one of them in its own
    millisecond. *)
Lemma update_from_prior_witness :
  let at_ms t := updateRaw (N := LocalApp) (Some t) (Some t) prior (Some body) false (js "note") (s0, a0) in
  (∃ row, getRow (la_db (at_ms 2000).2.2) Sample.a = Some row ∧ row_updatedAt row = Some 2000) ∧
  getRow (la_db (at_ms 1005).2.2) Sample.a = getRow (la_db a0) Sample.a.
Proof.
  intros at_ms.
  pose proof (λ t, update_from_prior prior (Some body) false (js "note") (mkIEntityID ida (Some 1000)) 1000 1005 t s0 a0 s0_ok) as H. unfold at_ms. split.
  - specialize (H 2000). destruct (updateRaw _ _ _ _ _ _ _) as [r [s' a']].
    destruct H as [H _]; [done|exact prior_ok|by vm_compute..|].
    destruct H as (head & h & _ & _ & _ & _ & _ & H & _); [lia|]. destruct H as (row & ? & ? & _); [lia|]. by exists row.
  - specialize (H 1005). destruct (updateRaw _ _ _ _ _ _ _) as [r [s' a']].
    destruct H as [H _]; [done|exact prior_ok|by vm_compute..|].
    destruct H as (head & h & _ & _ & _ & _ & _ & _ & H); [lia|]. by apply H.
Defined.

Lemma blob_reads_back_witness :
  ∃ head s' a', insertBlob ida (Some 3000) (js "image/png") [x2a; x00] None (s0, a0) = (Ok head, (s', a')) ∧
    readBlob (mh_eid head) (s', a') = (Ok [x2a; x00], (s', a')).
Proof.
  destruct (blob_reads_back ida (js "image/png") [x2a; x00] None 3000 s0 a0 s0_ok)
    as (head & s' & a' & m & bod & H1 & H2 & H3 & _).
  - constructor.
  - done.
  - by vm_compute.
  - done.
  - split; [done|]. split; [done|constructor].
  - done.
  - vm_compute. reflexivity.
  - exists head, s', a'. split; [exact H1|]. by rewrite H2.
Defined.

Lemma write_archives_then_settles_witness :
  ∃ s' key row, (write [mkParts head (Some body)] defaultApply (s0, a0)).2.1 = s' ∧
    map_get key (st_messages s') = Some row ∧ sd_apld row = APLD_APPLIED ∧
    length (upl_list home s') = 1%nat.
Proof.
  destruct (write_archives_then_settles [mkParts head (Some body)] defaultApply rows s0 a0 (app_run a0).1 (app_run a0).2
    (app_schedule (app_run a0).2).2) as (s' & Hw & Hr & _).
  - exact s0_ok.
  - vm_compute. reflexivity.
  - apply NoDup_singleton.
  - exact (surjective_pairing _).
  - reflexivity.
  - destruct rows as [|[h d] rest] eqn:E; [vm_compute in E; discriminate E|].
    eexists s', (btob64 h), _. split; [by rewrite Hw|]. split; [by apply (Hr 0%nat h d)|].
    assert (Hs : s' = (write [mkParts head (Some body)] defaultApply (s0, a0)).2.1) by by rewrite Hw.
    split; [|rewrite Hs; vm_compute; reflexivity].
    vm_compute in E. injection E as <- <- <-. vm_compute. reflexivity.
Defined.
