(* ===== verification/RecoveryProps.v ===== *)
(** * Crash recovery and replay of the archive

    What [drainApplyQueue] and [replay] of [Writer] leave in the archive and in
    the entities of [LocalApp], and the properties that follow. *)
From S2P Require Export LocalApp WriterProps.
From S2P Require Import Js.
Import EntDBMemory.

Lemma net_ok {N A B} (m : M N A) (k : A → SM (N := N) B) (s : Store) (n : N) a n' :
  m n = (Ok a, n') → (on_net m ≫= k) (s, n) = k a (s, n').
Proof. intros Hm. unfold mbind, M_bind, m_bind, on_net. by rewrite Hm. Qed.

Section rows.
Context {C : CryptoPrims}.

Definition stored_msg (m : IStoredMessage) : IMessage := mkMsg (sm_head m) (sm_body m).

(** The op of an archived message, if it is one that can be applied. *)
Definition stored_op (m : IStoredMessage) : option IOp :=
  match msgToOp (stored_msg m) with Ok op => Some op | _ => None end.

Definition applicable (m : IStoredMessage) : Prop := ∃ op, stored_op m = Some op ∧ op_ok op.

Lemma applicable_ops l :
  Forall applicable l →
  Forall2 (λ msg op, msgToOp msg = Ok op) (stored_msg <$> l) (omap stored_op l) ∧ Forall op_ok (omap stored_op l).
Proof.
  induction 1 as [|m l (op & Ho & Hok) _ [IH1 IH2]]; [by split; constructor|]. cbn. rewrite Ho.
  split; [|by constructor]. constructor; [|done]. unfold stored_op in Ho.
  destruct (msgToOp (stored_msg m)); [by injection Ho as ->|done..].
Qed.

(** Ops with valid times are applied or obsolete. *)
Lemma op_stats_done d ops : Forall op_ok ops → Forall (λ st, is_done (Some st) = true) (op_stats d ops).
Proof.
  intros H. revert d. induction H as [|op ops Hok _ IH]; intros d; cbn [op_stats]; [constructor|].
  rewrite applyOp_ok by done. destruct (map_get (op_key op) (ents d)) as [r|]; [|by constructor].
  by destruct (fle _ _); constructor.
Qed.

(** Rows of the archive by status, as messages. *)
Lemma elem_of_msgs_list s f m :
  archive_ok s →
  m ∈ msgs_list f s ↔ ∃ h d, m = toStoredMessage h d ∧ map_get (btob64 h) (st_messages s) = Some d ∧
    match f with Some x => sd_apld d = x | None => True end.
Proof.
  intros [Hw Hk]. unfold msgs_list. rewrite list_elem_of_omap. split.
  - intros ([k d] & Hin & He). destruct (Hk k) as (h & -> & _); [by apply (list_elem_of_fmap_2 fst) in Hin|].
    exists h, d. rewrite unb64_btob64 in He. rewrite map_get_elem by done.
    destruct f as [x|]; [|by injection He as <-]. case_bool_decide; [|done]. by injection He as <-.
  - intros (h & d & -> & Hg & Hf). exists (btob64 h, d). split; [by apply map_get_elem|].
    rewrite unb64_btob64. destruct f; [|done]. by rewrite bool_decide_eq_true_2.
Qed.

Lemma msgs_list_NoDup s f : archive_ok s → NoDup (sm_hash <$> msgs_list f s).
Proof.
  intros [Hw Hk]. apply (NoDup_fmap_1 btob64). rewrite <-list_fmap_compose. unfold msgs_list.
  unfold map_wf, map_keys in *. revert Hw Hk. generalize (st_messages s). intros m Hw Hk.
  assert (Hg : ∀ x y, x ∈ m → (let '(key, data) := x in
    if match f with Some a => bool_decide (sd_apld data = a) | None => true end
    then Some (toStoredMessage (unb64 key) data) else None) = Some y → btob64 (sm_hash y) = x.1).
  { intros [k d] y Hin He. destruct (Hk k) as (h & -> & _); [by apply (list_elem_of_fmap_2 fst) in Hin|].
    destruct (match f with Some _ => _ | None => _ end); [|done]. injection He as <-. cbn. by rewrite unb64_btob64. }
  clear Hk. induction m as [|x m IH]; [constructor|]. cbn in Hw. apply NoDup_cons in Hw as [Hx Hw].
  assert (IHm := IH Hw (λ y z Hy, Hg y z (list_elem_of_further _ _ _ Hy))). cbn [omap list_omap].
  destruct (let '(key, data) := x in _) as [y|] eqn:E; [|exact IHm]. cbn. constructor; [|exact IHm].
  rewrite (Hg x y ltac:(by left) E). intros (z & He & (w & Hin & Hz)%list_elem_of_omap)%list_elem_of_fmap.
  apply Hx. cbn in He. rewrite He, (Hg w z ltac:(by right) Hz). by apply list_elem_of_fmap_2.
Qed.

Definition applied_row (d : IStoredMessageData) : IStoredMessageData := setApld d APLD_APPLIED None.

(** The rows with the keys of [l] are marked applied, the others are as before. *)
Definition rows_applied (l : list IStoredMessage) (s s' : Store) : Prop :=
  only_rows s s' ∧
  ∀ k, map_get k (st_messages s') =
    if decide (k ∈ btob64 ∘ sm_hash <$> l) then applied_row <$> map_get k (st_messages s)
    else map_get k (st_messages s).

Lemma archive_ok_rows s s' : only_rows s s' → archive_ok s → archive_ok s'.
Proof. intros [_ _ _ _ _ Hk] [Hw H]. split; [unfold map_wf; by rewrite Hk|by rewrite Hk]. Qed.

Lemma app_apply_local msgs ops (a : LocalApp) :
  Forall2 (λ msg op, msgToOp msg = Ok op) msgs ops →
  app_apply msgs a = (Ok (Some <$> op_stats (la_db a) ops), mkLocal (apply (la_db a) ops).1 (la_em a) (la_sched a)).
Proof.
  intros Hops. unfold app_apply, local_app, sm_apply. rewrite (parse_all _ _ Hops).
  destruct (apply_stats (la_db a) ops) as (out & Ho & Hst). destruct (apply (la_db a) ops) as [d' r].
  cbn [snd] in Ho. subst r. cbn [fst res_map sr_results]. rewrite Hst. do 2 f_equal.
  rewrite (Forall2_length _ _ _ Hops), <-(op_stats_length (la_db a) ops). apply merge_all_parsed.
Qed.

(** One batch of messages, all of which can be applied. *)
Lemma applyStored_local l s a :
  NoDup (sm_hash <$> l) → Forall applicable l →
  let ops := omap stored_op l in
  ∃ s', applyStored l (s, a) =
      (Ok (Some <$> op_stats (la_db a) ops), (s', mkLocal (apply (la_db a) ops).1 (la_em a) (la_sched a))) ∧
    rows_applied l s s'.
Proof.
  intros Hn Hl ops. destruct (applicable_ops l Hl) as [Hops Hok]. fold ops in Hops, Hok.
  destruct l as [|m l].
  { exists s. split; [by destruct a|]. split; [done|]. intros k. by rewrite decide_False by (cbn; apply not_elem_of_nil). }
  set (ms := m :: l) in *. set (sts := Some <$> op_stats (la_db a) ops).
  pose proof (app_apply_local _ _ a Hops) as Ha. fold sts in Ha.
  exists (mark_outcomes (sm_hash <$> ms) sts s). split.
  - unfold ms in *. cbn [applyStored]. rewrite (net_ok _ _ _ _ _ _ Ha).
    by rewrite (ok_bind _ _ _ _ _ (markApplyStats_run _ sts s _)).
  - split; [by apply mark_outcomes_rest|]. intros k. rewrite list_fmap_compose. case_decide as Hk.
    + apply list_elem_of_fmap in Hk as (h & -> & Hh). apply list_elem_of_lookup_1 in Hh as [i Hi].
      rewrite (mark_outcomes_hit _ _ Hn s i h Hi). f_equal. unfold settled.
      assert (Hd : is_done (default None (sts !! i)) = true); [|by rewrite Hd].
      assert (Hlt : (i < length sts)%nat).
      { apply lookup_lt_Some in Hi. unfold sts. rewrite length_fmap, op_stats_length.
        rewrite <-(Forall2_length _ _ _ Hops), length_fmap. by rewrite length_fmap in Hi. }
      apply lookup_lt_is_Some in Hlt as [st Hst]. rewrite Hst. cbn. unfold sts in Hst.
      apply list_lookup_fmap_Some in Hst as (st' & -> & Hst).
      pose proof (op_stats_done (la_db a) ops Hok) as Hf. by eapply Forall_lookup in Hf.
    + by apply mark_outcomes_miss.
Qed.
End rows.

(** ** Draining the apply queue *)
Section drain.
Context {C : CryptoPrims}.

Definition pending (s : Store) : list IStoredMessage := msgs_list (Some APLD_PENDING) s.
Definition newest_first (l : list IStoredMessage) : list IStoredMessage := sortByHlcDesc (λ m, hlc_of (sm_head m)) l.

Lemma newest_first_perm l : newest_first l ≡ₚ l.
Proof. apply js_sort_perm. Qed.

Lemma drain_run s a :
  archive_ok s → Forall applicable (pending s) →
  let ops := omap stored_op (newest_first (pending s)) in
  ∃ s', drainApplyQueue (s, a) =
      (Ok (Some <$> op_stats (la_db a) ops), (s', mkLocal (apply (la_db a) ops).1 (la_em a) (la_sched a))) ∧
    rows_applied (pending s) s s'.
Proof.
  intros Hs Hp ops. pose proof (newest_first_perm (pending s)) as Hperm.
  destruct (applyStored_local (newest_first (pending s)) s a) as (s' & Hr & Hrows & Hk).
  - rewrite Hperm. by apply msgs_list_NoDup.
  - by rewrite Hperm.
  - exists s'. split; [|split; [done|]].
    + unfold drainApplyQueue. rewrite rd_bind. fold (pending s). fold (newest_first (pending s)).
      destruct (Z.ltb_spec (Z.of_nat (length (pending s))) 1) as [Hz|]; [|exact Hr].
      destruct (pending s) as [|m l] eqn:E; [|cbn in Hz; lia]. unfold ops, newest_first. cbn.
      cbn in Hr. by rewrite Hr.
    + intros k. rewrite Hk. apply decide_ext. by rewrite Hperm.
Qed.

(** The archive rows whose keys are pending are exactly the rows marked. *)
Lemma pending_keys s k :
  archive_ok s → k ∈ btob64 ∘ sm_hash <$> pending s ↔
    ∃ d, map_get k (st_messages s) = Some d ∧ sd_apld d = APLD_PENDING.
Proof.
  intros Hs. rewrite list_elem_of_fmap. split.
  - intros (m & -> & (h & d & -> & Hg & Hd)%elem_of_msgs_list); [|done]. by exists d.
  - intros (d & Hg & Hd). destruct (ao_key s Hs k) as (h & -> & _).
    { apply map_get_Some_in in Hg. by apply (list_elem_of_fmap_2 fst) in Hg. }
    exists (toStoredMessage h d). split; [done|]. apply elem_of_msgs_list; [done|]. by exists h, d.
Qed.

Definition drained (d : IStoredMessageData) : IStoredMessageData :=
  if bool_decide (sd_apld d = APLD_PENDING) then applied_row d else d.

Lemma drained_rows s s' k :
  archive_ok s → rows_applied (pending s) s s' →
  map_get k (st_messages s') = drained <$> map_get k (st_messages s).
Proof.
  intros Hs [_ Hk]. rewrite Hk. case_decide as Hin.
  - apply pending_keys in Hin as (d & -> & Hd); [|done]. cbn. unfold drained. by rewrite bool_decide_eq_true_2.
  - destruct (map_get k (st_messages s)) as [d|] eqn:E; [|done]. cbn. unfold drained.
    rewrite bool_decide_eq_false_2; [done|]. intros Hd. apply Hin, pending_keys; [done|]. by exists d.
Qed.

Lemma no_pending s s' : archive_ok s → rows_applied (pending s) s s' → pending s' = [].
Proof.
  intros Hs Hr. pose proof (archive_ok_rows s s' (proj1 Hr) Hs) as Hs'.
  destruct (pending s') as [|m l] eqn:E; [done|]. exfalso.
  assert (Hm : m ∈ pending s') by (rewrite E; left).
  apply elem_of_msgs_list in Hm as (h & d & -> & Hg & Hd); [|done].
  rewrite (drained_rows s s' _ Hs Hr) in Hg. destruct (map_get _ (st_messages s)) as [d0|]; [|done].
  injection Hg as <-. unfold drained in Hd. case_bool_decide; [|done]. by unfold applied_row in Hd.
Qed.
End drain.

(** ** Batches of a replay *)
Section batches.
Context {A : Type} (len : A → Z).

Definition bytes_of (l : list A) : Z := foldr (λ x n, len x + n) 0 l.

Lemma take_batch_split items count total b others :
  take_batch len items count total = (b, others) →
  b ++ others = items ∧ (count <= 100 → length b + count <= 100)%nat ∧
  (∀ b' x, b = b' ++ [x] → total + bytes_of b' < 100 * 1024).
Proof.
  revert count total b. induction items as [|x items IH]; intros count total b; cbn [take_batch].
  { intros [= <- <-]. split_and!; [done|cbn; lia|by intros []]. }
  destruct (Nat.ltb_spec count 100); [|intros [= <- <-]; split_and!; [done|cbn; lia|by intros []]].
  destruct (Z.ltb_spec total (100 * 1024)); cbn [andb]; [|intros [= <- <-]; split_and!; [done|cbn; lia|by intros []]].
  destruct (take_batch len items (S count) (total + len x)) as [b0 others0] eqn:E.
  intros [= <- <-]. destruct (IH _ _ _ E) as (H1 & H2 & H3). split_and!; [by rewrite <-H1|cbn; lia|].
  intros [|y b'] z [= Hx Hb]; unfold bytes_of; cbn [foldr]; [lia|]. subst y.
  specialize (H3 b' z Hb). unfold bytes_of in H3. lia.
Qed.

Lemma take_batch_some x items : ∃ b others, take_batch len (x :: items) 0 0 = (x :: b, others).
Proof. cbn [take_batch]. cbn. destruct (take_batch len items 1 _) as [b others]. by exists b, others. Qed.

Lemma batches_cover fuel items :
  (length items <= fuel)%nat →
  concat (batches len fuel items) = items ∧
  Forall (λ b, b ≠ [] ∧ (length b <= 100)%nat ∧ ∀ b' x, b = b' ++ [x] → bytes_of b' < 100 * 1024)
    (batches len fuel items).
Proof.
  revert items. induction fuel as [|fuel IH]; intros [|x items] Hf; cbn in Hf; try (by split; [|constructor]); [lia|].
  cbn [batches]. destruct (take_batch_some x items) as (b & others & Hb). rewrite Hb.
  destruct (take_batch_split _ _ _ _ _ Hb) as (H1 & H2 & H3).
  destruct (IH others) as [Hc Hall].
  { apply (f_equal length) in H1. rewrite length_app in H1. cbn in H1. lia. }
  cbn [concat]. rewrite Hc. split; [done|]. constructor; [|done].
  split_and!; [done|cbn in *; lia|]. intros b' y Hy. specialize (H3 b' y Hy). lia.
Qed.

(** Fuel past the number of items changes nothing. *)
Lemma batches_enough fuel items :
  (length items <= fuel)%nat → batches len fuel items = batches len (length items) items.
Proof.
  remember (length items) as n eqn:En. assert (Hn : (length items <= n)%nat) by lia. clear En.
  revert n items Hn. induction fuel as [|fuel IH]; intros [|n] [|x items] Hn Hf; cbn in Hn; try done; try lia.
  cbn [batches]. destruct (take_batch_some x items) as (b & others & Hb). rewrite Hb. f_equal.
  destruct (take_batch_split _ _ _ _ _ Hb) as (H1 & _).
  apply (f_equal length) in H1. rewrite length_app in H1. cbn in H1. apply IH; lia.
Qed.
End batches.

(** ** Rows of the archive after several marks *)
Section several.
Context {C : CryptoPrims}.

Lemma rows_applied_app l1 l2 s s1 s2 :
  rows_applied l1 s s1 → rows_applied l2 s1 s2 → rows_applied (l1 ++ l2) s s2.
Proof.
  intros [Ho1 H1] [Ho2 H2]. split; [by etransitivity|]. intros k. rewrite H2, H1, fmap_app.
  destruct (decide (k ∈ btob64 ∘ sm_hash <$> l1)), (decide (k ∈ btob64 ∘ sm_hash <$> l2)).
  - rewrite decide_True by set_solver. by destruct (map_get k (st_messages s)).
  - by rewrite decide_True by set_solver.
  - by rewrite decide_True by set_solver.
  - by rewrite decide_False by set_solver.
Qed.

Lemma apply_app d d' o1 o2 :
  same_rows d' (apply d o1).1 → same_rows (apply d' o2).1 (apply d (o1 ++ o2)).1.
Proof.
  intros H k. rewrite !apply_row. unfold ops_at. rewrite filter_app, fold_left_app.
  rewrite (H k), apply_row. done.
Qed.

Lemma apply_batches_local bs s a :
  NoDup (sm_hash <$> concat bs) → Forall applicable (concat bs) →
  ∃ s' d', apply_batches bs (s, a) = (Ok tt, (s', mkLocal d' (la_em a) (la_sched a))) ∧
    rows_applied (concat bs) s s' ∧ same_rows d' (apply (la_db a) (omap stored_op (concat bs))).1.
Proof.
  revert s a. induction bs as [|b bs IH]; intros s a Hn Ha.
  { exists s, (la_db a). split; [by destruct a|]. split; [|done]. split; [done|].
    intros k. by rewrite decide_False by (cbn; apply not_elem_of_nil). }
  cbn [concat] in *. rewrite fmap_app in Hn. apply NoDup_app in Hn as (Hn1 & _ & Hn2).
  apply Forall_app in Ha as [Ha1 Ha2].
  destruct (applyStored_local b s a Hn1 Ha1) as (s1 & Hr & Hrows). set (a1 := mkLocal _ _ _) in Hr.
  destruct (IH s1 a1 Hn2 Ha2) as (s2 & d2 & Hr2 & Hrows2 & Hd2). exists s2, d2. split_and!.
  - unfold apply_batches in *. cbn [m_forM]. rewrite (ok_bind _ _ (s, a) tt (s1, a1)); [done|].
    by rewrite (ok_bind _ _ _ _ _ Hr).
  - by eapply rows_applied_app.
  - rewrite omap_app. intros k. rewrite (Hd2 k). by apply apply_app.
Qed.

(** The op of a message is the op of its archived row. *)
Lemma stored_part_op hash p realm :
  stored_op (toStoredMessage hash (omit_rlm (msg2StoredMsgData p realm))) =
    match msgToOp (msg_of p) with Ok op => Some op | _ => None end.
Proof.
  unfold stored_op, stored_msg, msg_of, omit_rlm, msg2StoredMsgData, msgToOp. destruct p as [[typ eid off ctr len hsh] bod].
  cbn. assert (Ho : default (Some 0) (if bool_decide (off = Some 0) then None else Some off) = off) by (by case_bool_decide).
  assert (Hc : default 0 (if ctr =? 0 then None else Some ctr) = ctr) by (by destruct (Z.eqb_spec ctr 0)).
  assert (Ht : default [] (match typ with Some [] | None => None | Some t => Some t end) = default [] typ) by (by destruct typ as [[]|]).
  destruct (realmLabel (kdm_label <$> realm)) as [[|]|]; cbn; by rewrite Ho, Hc, Ht.
Qed.
End several.

(** ** Writes cut off, and replay *)

Section props.
Context {C : CryptoPrims}.

(** What a write leaves in the archive before its outcome is known. *)
Lemma stored_rows parts realm rows ops :
  storables parts realm = Ok rows → Forall2 (λ p op, msgToOp (msg_of p) = Ok op) parts ops →
  omap stored_op ((λ row, toStoredMessage row.1 (omit_rlm row.2)) <$> rows) = ops ∧
  Forall (λ row, sd_apld row.2 = APLD_PENDING) rows.
Proof.
  intros Hr%storables_rows. revert ops.
  induction Hr as [|p [h d] parts rows [_ Hd] _ IH]; intros ops Ho; [by inversion_clear Ho|].
  inversion Ho as [|? op ? ops' H1 H2]; subst. cbn [snd] in Hd. subst d. destruct (IH _ H2) as [<- ?]. split.
  - cbn. by rewrite stored_part_op, H1.
  - by constructor.
Qed.

Lemma archive_ok_add `{!CryptoLaws C} parts realm rows s :
  storables parts realm = Ok rows → archive_ok s → archive_ok (msgs_add rows s).
Proof.
  intros Hr%storables_rows. assert (Hl : Forall (λ row, blen row.1 = hshBytes) rows).
  { induction Hr as [|p row parts rows [Ha _] _ IH]; constructor; [|done]. unfold archiveKey in Ha.
    destruct (writeStruct _ _ _) as [[| |] e]; try done; injection Ha as <-; apply blake3hash_len. }
  clear Hr. unfold msgs_add. cbn. intros [Hw Hk].
  cut (map_wf (fold_left (λ m '(key, data), map_set (btob64 key) (omit_rlm data) m) rows (st_messages s)) ∧
    ∀ k, k ∈ map_keys (fold_left (λ m '(key, data), map_set (btob64 key) (omit_rlm data) m) rows (st_messages s)) →
      ∃ h, k = btob64 h ∧ blen h = hshBytes).
  { intros [H1 H2]. by split. }
  revert Hw Hk. generalize (st_messages s). induction Hl as [|[h d] rows Hh _ IH]; intros m Hw Hk; [done|].
  cbn [fold_left]. apply IH; [by apply map_set_wf|]. intros k. rewrite map_set_keys.
  case_decide; [apply Hk|]. rewrite elem_of_app, list_elem_of_singleton. intros [?| ->]; [by apply Hk|by exists h].
Qed.

(** The older waiting rows wait on, beside the new ones. *)
Lemma pending_after_add `{!CryptoLaws C} parts realm rows s :
  archive_ok s → (∀ m, m ∈ pending s → sm_hash m ∉ rows.*1) → storables parts realm = Ok rows → NoDup rows.*1 →
  Forall (λ row, sd_apld row.2 = APLD_PENDING) rows →
  pending (msgs_add rows s) ≡ₚ pending s ++ ((λ row, toStoredMessage row.1 (omit_rlm row.2)) <$> rows).
Proof.
  intros Hs Hnew Hr Hn Hp. pose proof (archive_ok_add _ _ _ _ Hr Hs) as Hs1.
  assert (Hom : ∀ d, sd_apld (omit_rlm d) = sd_apld d).
  { intros d. unfold omit_rlm. by destruct (sd_rlm d) as [[|]|]. }
  apply NoDup_Permutation.
  - apply (NoDup_fmap_1 sm_hash). by apply msgs_list_NoDup.
  - apply (NoDup_fmap_1 sm_hash). rewrite fmap_app. apply NoDup_app. split_and!; [by apply msgs_list_NoDup| |by rewrite <-list_fmap_compose].
    intros h (m & -> & Hm)%list_elem_of_fmap Hin. apply (Hnew m Hm). by rewrite <-list_fmap_compose in Hin.
  - intros m. rewrite elem_of_app, list_elem_of_fmap. unfold pending. rewrite !elem_of_msgs_list by done. split.
    + intros (h & d & -> & Hg & Hd). destruct (decide (h ∈ rows.*1)) as [Hin|Hin].
      * right. apply list_elem_of_fmap in Hin as ([h' d'] & -> & Hin). exists (h', d'). split; [|done].
        apply list_elem_of_lookup_1 in Hin as [i Hi]. cbn [fst] in Hg. rewrite (msgs_add_row rows s i h' d' Hn Hi) in Hg. by injection Hg as <-.
      * left. exists h, d. rewrite msgs_add_miss in Hg by by rewrite (list_elem_of_fmap_inj btob64). done.
    + intros [(h & d & -> & Hg & Hd)|([h d] & -> & Hin)].
      * exists h, d. split; [done|]. split; [|done]. rewrite msgs_add_miss; [done|]. rewrite (list_elem_of_fmap_inj btob64).
        apply (Hnew (toStoredMessage h d)). apply elem_of_msgs_list; [done|]. by exists h, d.
      * exists h, (omit_rlm d). split; [done|]. split.
        -- apply list_elem_of_lookup_1 in Hin as [i Hi]. by apply (msgs_add_row rows s i h d Hn Hi).
        -- rewrite Hom. by eapply (proj1 (Forall_forall _ _) Hp (h, d)).
Qed.

Lemma parts_applicable parts realm rows ops :
  storables parts realm = Ok rows → Forall2 (λ p op, msgToOp (msg_of p) = Ok op) parts ops → Forall op_ok ops →
  Forall applicable ((λ row, toStoredMessage row.1 (omit_rlm row.2)) <$> rows).
Proof.
  intros Hr%storables_rows. rewrite Forall_fmap. revert ops.
  induction Hr as [|p [h d] parts rows [_ Hd] _ IH]; intros ops Ho Hok; [constructor|].
  inversion Ho as [|? op ? ops' H1 H2]; subst. apply Forall_cons in Hok as [? ?]. constructor; [|by eapply IH].
  exists op. cbn [fst snd] in *. by rewrite Hd, stored_part_op, H1.
Qed.

(** Applying ops and then, in any order, the same ones and others. *)
Lemma apply_again d ops old again :
  (∀ k, row_dated d k) → Forall op_ok (ops ++ old) → no_ties (ops ++ old) → again ≡ₚ ops ++ old →
  same_rows (apply (apply d ops).1 again).1 (apply d (ops ++ old)).1.
Proof.
  intros Hd Hok Ht Hp k. pose proof (proj1 (proj1 (Forall_app _ _ _) Hok)) as Hok1.
  assert (Hd1 : ∀ k, row_dated (apply d ops).1 k).
  { intros k' r. rewrite apply_winner by done. unfold winner. destruct (latest (ops_at k' ops)) as [o|] eqn:E; [|apply Hd].
    apply latest_in, list_elem_of_filter in E as [_ Ho]. assert (op_ok o) by (by eapply Forall_forall in Hok1).
    destruct (map_get k' (ents d)) as [r0|] eqn:E0; [case_match; [intros [= <-]; by apply (Hd k')|]|]; intros [= <-]; rewrite row_of_time by done; by eexists. }
  rewrite (apply_same_rows (apply d ops).1 again (ops ++ old)); [|by rewrite Hp|done| |done].
  2: { intros o1 o2. rewrite Hp. apply Ht. }
  transitivity (map_get k (ents (apply (apply d ops).1 old).1)); [symmetry; apply apply_app|by apply apply_app].
  by rewrite apply_redelivery.
Qed.

(** [C17] A write that a crash cuts off after its messages are archived, before
    or after the application has applied them, is completed by
    [drainApplyQueue]: every message is marked applied and nothing is left
    pending; rows that waited from before are applied and marked with them, and
    no other row of the archive changes; each entity has the row the
    uninterrupted write would have left once those older rows were applied too.
    The application keeps its entities in the in-memory database; the messages
    are valid, distinct and not archived as waiting already, the rows that waited
    hold valid operations too, and the stored rows and all waiting messages are
    dated, no two of an entity at the same time.  What is not completed is the upload: the queues stay as they were,
    although the uninterrupted write would have queued its messages. *)
Theorem interrupted_write_recovers `{!CryptoLaws C} parts realm rows ops (applied : bool) s a :
  let old := omap stored_op (pending s) in
  archive_ok s → Forall applicable (pending s) → (∀ m, m ∈ pending s → sm_hash m ∉ rows.*1) →
  (∀ k, row_dated (la_db a) k) →
  storables parts realm = Ok rows → NoDup rows.*1 →
  Forall2 (λ p op, msgToOp (msg_of p) = Ok op) parts ops → Forall op_ok ops → no_ties (ops ++ old) →
  let a1 := if applied then mkLocal (apply (la_db a) ops).1 (la_em a) (la_sched a) else a in
  let '(r, (s', a')) := drainApplyQueue (msgs_add rows s, a1) in
  is_ok r = true ∧ pending s' = [] ∧
  (∀ i hash data, rows !! i = Some (hash, data) →
     map_get (btob64 hash) (st_messages s') = Some (applied_row (omit_rlm data))) ∧
  (∀ k, k ∉ btob64 <$> rows.*1 → map_get k (st_messages s') = drained <$> map_get k (st_messages s)) ∧
  (∀ eid, getRow (la_db a') eid = getRow (apply (la_db a) (ops ++ old)).1 eid) ∧
  st_uploads s' = st_uploads s.
Proof.
  intros old Hs Hold Hnew Hd Hr Hn Hops Hok Ht a1. pose proof (archive_ok_add _ _ _ _ Hr Hs) as Hs1.
  destruct (stored_rows _ _ _ _ Hr Hops) as [Hst Hpend].
  pose proof (pending_after_add _ _ _ _ Hs Hnew Hr Hn Hpend) as Hperm.
  set (s1 := msgs_add rows s) in *. pose proof (parts_applicable _ _ _ _ Hr Hops Hok) as Hap.
  destruct (drain_run s1 a1 Hs1) as (s' & Hrun & Hrows); [rewrite Hperm; by apply Forall_app|]. rewrite Hrun.
  assert (Hp2 : omap stored_op (newest_first (pending s1)) ≡ₚ ops ++ old).
  { rewrite newest_first_perm, Hperm, omap_app, Hst. apply Permutation_app_comm. }
  assert (Hoks : Forall op_ok (ops ++ old)).
  { apply Forall_app. split; [done|]. apply Forall_forall. intros o (m & Hm & Ho)%list_elem_of_omap.
    destruct (proj1 (Forall_forall _ _) Hold m Hm) as (o' & Ho' & ?). rewrite Ho in Ho'. by injection Ho' as <-. }
  split_and!; [done|by eapply no_pending|..].
  - intros i hash data Hi. rewrite (drained_rows s1 s' _ Hs1 Hrows). unfold s1.
    rewrite (msgs_add_row rows s i hash data Hn Hi). cbn. unfold drained. rewrite bool_decide_eq_true_2; [done|].
    pose proof Hpend as Hpi. eapply Forall_lookup in Hpi; [|exact Hi]. unfold omit_rlm. by destruct (sd_rlm data) as [[|]|].
  - intros k Hk. rewrite (drained_rows s1 s' _ Hs1 Hrows). unfold s1. by rewrite msgs_add_miss.
  - intros eid. cbn [la_db]. unfold getRow. unfold a1. destruct applied; cbn [la_db]; [by apply apply_again|].
    apply apply_same_rows; [by rewrite Hp2|done| |done]. intros o1 o2. rewrite Hp2. apply Ht.
  - by rewrite (or_uploads _ _ (proj1 Hrows)).
Qed.

(** [replay] rebuilds the entities from the archive: it ends, every
    archived message is marked applied (those that had failed too), no other
    part of the store changes, and the rows are those of the archive's messages
    applied, in any order, to an empty database. *)
Theorem replay_rebuilds s a :
  archive_ok s → Forall applicable (msgs_list None s) → no_ties (omap stored_op (msgs_list None s)) →
  ∃ s' a', replay (s, a) = (Ok tt, (s', a')) ∧ only_rows s s' ∧
    (∀ k, map_get k (st_messages s') = applied_row <$> map_get k (st_messages s)) ∧
    (∀ ops eid, ops ≡ₚ omap stored_op (msgs_list None s) →
       getRow (la_db a') eid = getRow (apply (clear (la_db a)) ops).1 eid).
Proof.
  intros Hs Hap Ht. set (all := msgs_list None s) in *. set (ordered := newest_first all).
  assert (Hperm : ordered ≡ₚ all) by apply newest_first_perm.
  set (bs := batches (λ m, mh_len (sm_head m)) (length ordered) ordered).
  assert (Hc : concat bs = ordered) by (by apply batches_cover).
  set (a0 := mkLocal (clear (la_db a)) (la_em a) (la_sched a)).
  destruct (apply_batches_local bs s a0) as (s' & d' & Hr & [Ho Hk] & Hd).
  { rewrite Hc, Hperm. by apply msgs_list_NoDup. }
  { by rewrite Hc, Hperm. }
  exists s', (mkLocal d' (la_em a) (la_sched a)). split_and!; [exact Hr|done|..].
  - intros k. rewrite Hk, Hc. destruct (map_get k (st_messages s)) as [d|] eqn:E; [|by case_decide].
    rewrite decide_True; [done|]. rewrite Hperm. destruct (ao_key s Hs k) as (h & -> & _).
    { apply map_get_Some_in in E. by apply (list_elem_of_fmap_2 fst) in E. }
    apply list_elem_of_fmap. exists (toStoredMessage h d). split; [done|]. apply elem_of_msgs_list; [done|]. by exists h, d.
  - intros ops eid Hops. cbn [la_db]. unfold getRow. rewrite (Hd (btob64 eid)), Hc.
    assert (Hp2 : ops ≡ₚ omap stored_op ordered) by (by rewrite Hops, Hperm). symmetry.
    apply apply_same_rows; [|done| |done].
    + rewrite Hops. by apply applicable_ops.
    + intros o1 o2. rewrite Hops. apply Ht.
Qed.

(** The batches of a replay end and miss nothing: every pass takes at
    least one message and at most 100, only its last message may carry the
    bodies over 100 KiB, and as many passes as there are messages are enough to
    apply them all, in order. *)
Theorem replay_batches_end (ordered : list IStoredMessage) (fuel : nat) :
  let len m := mh_len (sm_head m) in
  (length ordered <= fuel)%nat →
  concat (batches len fuel ordered) = ordered ∧ batches len fuel ordered = batches len (length ordered) ordered ∧
  Forall (λ b, b ≠ [] ∧ (length b <= 100)%nat ∧ ∀ b' m, b = b' ++ [m] → bytes_of len b' < 100 * 1024)
    (batches len fuel ordered).
Proof.
  intros len Hf. destruct (batches_cover len fuel ordered Hf) as [H1 H2]. split_and!; [done| |done].
  by apply batches_enough.
Qed.
End props.

(** ** Witnesses: the write of [WriterDemo] cut off, then replayed *)

Import Toy WriterDemo.

Module RecoveryDemo.
Definition parts : list IMsgParts := [mkParts head (Some body)].
Definition op : IOp := match msgToOp (mkMsg head (Some body)) with Ok op => op | _ => Sample.delete [] 0 end.
Definition cut : Store := msgs_add rows s0.

Lemma s0_archive : archive_ok s0.
Proof. split; [constructor|]. intros k []%not_elem_of_nil. Qed.
Lemma rows_eq : storables parts None = Ok rows.
Proof. vm_compute. reflexivity. Qed.
Lemma op_eq : Forall2 (λ p o, msgToOp (msg_of p) = Ok o) parts [op].
Proof. constructor; [vm_compute; reflexivity|constructor]. Qed.
Lemma op_valid : Forall op_ok [op].
Proof. by apply (bool_decide_unpack _). Qed.
Lemma one_no_ties o : no_ties [o].
Proof. intros o1 o2 ->%list_elem_of_singleton ->%list_elem_of_singleton. done. Qed.
Lemma full_dated k : row_dated (la_db a0) k.
Proof.
  assert (H : Forall (λ x : jsstr * IEntRow, is_Some (row_updatedAt x.2)) (ents (la_db a0))).
  { apply (bool_decide_unpack _). vm_compute. exact I. }
  intros r Hr. apply map_get_Some_in in Hr. by apply (proj1 (Forall_forall _ _) H (k, r)).
Qed.
Lemma cut_applicable : Forall applicable (msgs_list None cut).
Proof. constructor; [|constructor]. exists op. split; [vm_compute; reflexivity|]. by apply (bool_decide_unpack _). Qed.
Lemma cut_ops : omap stored_op (msgs_list None cut) = [op].
Proof. vm_compute. reflexivity. Qed.
End RecoveryDemo.
Import RecoveryDemo.

Lemma interrupted_write_recovers_witness :
  let healed := drainApplyQueue (cut, a0) in
  pending healed.2.1 = [] ∧ getRow (la_db healed.2.2) Sample.a = getRow (apply (la_db a0) [op]).1 Sample.a ∧
  st_uploads healed.2.1 = st_uploads s0.
Proof.
  intros healed. unfold healed, cut.
  pose proof (interrupted_write_recovers parts None rows [op] false s0 a0 s0_archive ltac:(constructor) ltac:(by intros ? ?%not_elem_of_nil) full_dated
    rows_eq (NoDup_singleton _) op_eq op_valid (one_no_ties _)) as H.
  cbv zeta iota in H.
  destruct (drainApplyQueue _) as [r [s' a']]. destruct H as (_ & H1 & _ & _ & H2 & H3). split; [exact H1|]. split; [apply H2|exact H3].
Defined.

Lemma replay_rebuilds_witness :
  ∃ s' a', replay (cut, a0) = (Ok tt, (s', a')) ∧
    getRow (la_db a') Sample.a = getRow (apply (clear (la_db a0)) [op]).1 Sample.a.
Proof.
  destruct (replay_rebuilds cut a0) as (s' & a' & H1 & _ & _ & H2).
  - exact (archive_ok_add parts None rows s0 rows_eq s0_archive).
  - exact cut_applicable.
  - rewrite cut_ops. apply one_no_ties.
  - exists s', a'. split; [exact H1|]. apply (H2 [op]). by rewrite cut_ops.
Defined.

Lemma replay_batches_end_witness :
  concat (batches (λ m, mh_len (sm_head m)) 1 (msgs_list None cut)) = msgs_list None cut.
Proof. apply (replay_batches_end (msgs_list None cut) 1). vm_compute. constructor. Defined.
