(* ===== verification/Facade.v ===== *)
(** * The client as an application drives it ([web/src/client.ts])

    The open account, the live connections and their managers, over the stores
    of [Stores], the phases of [Sync] and [Reconcile] and the writes of
    [Writer].  [FC W] keeps what [SyncClient] keeps besides its stores, with
    the rest of the world in [W]: the application's state, the hosts behind
    their transports and the debounced sync.  Calls run one at a time, as the
    apply chain and the coalesced sync run them; progress events and state
    emitters, which only inform listeners, are left out, and so is the metadata
    each call reports about its host ([Client]). *)
From S2P Require Export Writer Enclave Exim.
From S2P Require Import Js.

Record OpenAccount := mkAccount {
  oa_label : jsstr; oa_enclave : Enclave; oa_hosts : list (IHostRow * CursorRow); oa_realms : list IRealm;
}.

Record FC (W : Type) := mkFC {
  fc_account : option OpenAccount;
  fc_conns : jsmap jsstr (list BagManager);       (* [connections]: a manager list each *)
  fc_slots : jsmap jsstr KeyTag;                  (* the account store *)
  fc_world : W;
}.
Arguments mkFC {W}.
Arguments fc_account {W}.
Arguments fc_conns {W}.
Arguments fc_slots {W}.
Arguments fc_world {W}.

(** The transport a host row leads to, with [DiplomaticClientAPI] on it. *)
Class Transports (W : Type) := {
  tr_net : jsstr → list BagManager → SyncNet W;
  tr_register : jsstr → list BagManager → M W unit;
  tr_listen : jsstr → list BagManager → M W unit;
  tr_connected : jsstr → W → bool;                (* [isConnected] *)
  tr_close : jsstr → W → W;                       (* [closeListener]; what it throws is ignored *)
  tr_cancel : W → W;                              (* [scheduledSync.cancel] *)
}.

Section facade.
Context {C : CryptoPrims} {W : Type} {AC : ClientApp W} {TR : Transports W}.
Context (maxPushBytes maxPullBytes : Z).

Definition in_world {A} (m : M W A) : M (FC W) A := λ f,
  let '(r, w) := m (fc_world f) in (r, mkFC (fc_account f) (fc_conns f) (fc_slots f) w).
Definition upd_world (g : W → W) (f : FC W) : FC W := mkFC (fc_account f) (fc_conns f) (fc_slots f) (g (fc_world f)).
Definition upd_account (a : option OpenAccount) (f : FC W) : FC W := mkFC a (fc_conns f) (fc_slots f) (fc_world f).
Definition upd_conns (cs : jsmap jsstr (list BagManager)) (f : FC W) : FC W := mkFC (fc_account f) cs (fc_slots f) (fc_world f).
Definition upd_slots (sl : jsmap jsstr KeyTag) (f : FC W) : FC W := mkFC (fc_account f) (fc_conns f) sl (fc_world f).

#[export] Instance fc_app : ClientApp (FC W) := {|
  app_apply msgs := in_world (app_apply msgs);
  app_clear := in_world app_clear;
  app_schedule := in_world app_schedule;
|}.

Definition conn_net (label : jsstr) (mgrs : list BagManager) : SyncNet (FC W) :=
  let net := tr_net label mgrs in {|
    net_peek seq realm := in_world (net_peek seq realm);
    net_pull seqs realm := in_world (net_pull seqs realm);
    net_push bags := in_world (net_push bags);
    net_nonce := in_world net_nonce;
  |}.

Definition CM (A : Type) : Type := SM (N := FC W) A.

(** Reading and changing the client's own fields. *)
Definition ask {A} (g : FC W → A) : CM A := λ '(s, f), (Ok (g f), (s, f)).
Definition tell (g : FC W → FC W) : CM unit := λ '(s, f), (Ok tt, (s, g f)).

(** A settled outcome: a status is dropped, an exception is not. *)
Definition ignore_status {A} (m : CM A) : CM unit :=
  r ← m_settle m;
  match r with Throw => m_throw | _ => mret tt end.

(** ** The open account *)

Definition pullHosts : CM unit :=
  acc ← ask fc_account;
  match acc with
  | None => mret tt
  | Some a =>
      rows ← rd hosts_list;
      tell (upd_account (Some (mkAccount (oa_label a) (oa_enclave a) rows (oa_realms a))))
  end.

Definition pullRealms : CM unit :=
  acc ← ask fc_account;
  match acc with
  | None => mret tt
  | Some a =>
      rows ← rd realms_list;
      tell (upd_account (Some (mkAccount (oa_label a) (oa_enclave a) (oa_hosts a) rows)))
  end.

(** [#open]; the in-memory store's [bind] always succeeds. *)
Definition open_account (label : jsstr) (e : Enclave) : CM unit :=
  hosts ← rd hosts_list;
  realms ← rd realms_list;
  tell (upd_account (Some (mkAccount label e hosts realms))).

(** [MemoryAccountStore.save]; [n]: the random seed drawn for a new tag. *)
Definition account_save (n : bytes) (e : Enclave) (raw : option jsstr) : CM Enclave :=
  let label := accountLabel raw in
  slots ← ask fc_slots;
  match map_get label slots with
  | Some tag =>
      hit ← m_lift (keyTagMatches e tag);
      if negb hit then m_err HashMismatch
      else _ ← tell (upd_slots (map_set label tag slots)); mret e
  | None =>
      tag ← m_lift (makeKeyTag n e);
      _ ← tell (upd_slots (map_set label tag slots));
      mret e
  end.

Definition setSeed (n : bytes) (e : Enclave) (raw : option jsstr) : CM unit :=
  let label := accountLabel raw in
  _ ← account_save n e raw;
  open_account label e.

Definition adopt (e : Enclave) (label : jsstr) : CM unit := open_account label e.

Definition the_enclave : CM (option Enclave) := ask (λ f, oa_enclave <$> fc_account f).

Record ClientState := mkClientState { cs_hasSeed : bool; cs_hasHost : bool; cs_connected : bool }.

Definition getClientState : CM ClientState :=
  e ← the_enclave;
  hosts ← rd hosts_list;
  connected ← ask (λ f, existsb (λ label, tr_connected label (fc_world f)) (map_keys (fc_conns f)));
  mret (mkClientState (match e with Some _ => true | None => false end)
          (0 <? Z.of_nat (length hosts)) connected).

(** [numDownloads] and [numUploads]. *)
Definition getXferState : CM (Z * Z) :=
  numUploads ← rd upl_count;
  numDownloads ← rd dnl_count;
  mret (numDownloads, numUploads).

(** ** Connections *)

Definition host_row (label : jsstr) (s : Store) : option (IHostRow * CursorRow) :=
  (λ row, (row, projectCursors (map_values (default [] (map_get label (st_cursors s))))))
    <$> map_get label (st_hostRows s).

Definition host_idKDM (row : IHostRow) : IKDM :=
  mkKDM (hi_label (hr_info row)) (default 0 (hi_idx (hr_info row))).

(** [DiplomaticClientAPI.add]. *)
Definition add_mgr (mgrs : list BagManager) (m : BagManager) : list BagManager :=
  match bagMgrFor mgrs (bm_realmKDM m) with Some _ => mgrs | None => mgrs ++ [m] end.

(** The loop of [#ensureBagMgrs]: what it added stays when a later realm fails. *)
Fixpoint add_realms (e : Enclave) (idKDM : IKDM) (realms : list IKDM) (mgrs : list BagManager)
    : list BagManager * Res unit :=
  match realms with
  | [] => (mgrs, Ok tt)
  | realm :: realms =>
      match bagMgrFor mgrs realm with
      | Some _ => add_realms e idKDM realms mgrs
      | None =>
          match bagman e idKDM realm with
          | Ok m => add_realms e idKDM realms (add_mgr mgrs m)
          | Err st => (mgrs, Err st)
          | Throw => (mgrs, Throw)
          end
      end
  end.

Definition ensureBagMgrs (row : IHostRow) (mgrs : list BagManager) : CM (list BagManager * Res unit) :=
  e ← the_enclave;
  match e with
  | None => mret (mgrs, Err MissingSeed)
  | Some e => rows ← rd realms_list; mret (add_realms e (host_idKDM row) (realmKDMs rows) mgrs)
  end.

(** The same on a live connection. *)
Definition ensureConn (label : jsstr) (row : IHostRow) (mgrs : list BagManager) : CM (list BagManager) :=
  '(mgrs, st) ← ensureBagMgrs row mgrs;
  _ ← tell (λ f, upd_conns (map_set label mgrs (fc_conns f)) f);
  _ ← m_lift st;
  mret mgrs.

Definition drop_conn (label : jsstr) : CM unit :=
  tell (λ f, upd_conns (map_delete label (fc_conns f)) (upd_world (tr_close label) f)).

Definition is_connected (label : jsstr) : CM bool :=
  ask (λ f, map_has label (fc_conns f) && tr_connected label (fc_world f)).

Definition connectToHost (row : IHostRow) (listen sync : bool) : CM unit :=
  let label := hi_label (hr_info row) in
  live ← is_connected label;
  if (live : bool) then mret tt
  else
    existing ← ask (λ f, map_has label (fc_conns f));
    _ ← (if (existing : bool) then drop_conn label else mret tt);
    e ← the_enclave;
    match e with
    | None => mret tt
    | Some _ =>
        '(mgrs, st) ← ensureBagMgrs row [];
        match st with
        | Throw => m_throw
        | Err _ => mret tt
        | Ok _ =>
            _ ← ignore_status (on_net (in_world (tr_register label mgrs)));
            _ ← (if listen then ignore_status (on_net (in_world (tr_listen label mgrs))) else mret tt);
            _ ← tell (λ f, upd_conns (map_set label mgrs (fc_conns f)) f);
            if sync then on_net app_schedule else mret tt
        end
    end.

Definition connect (listen sync : bool) : CM unit :=
  e ← the_enclave;
  match e with
  | None => mret tt
  | Some _ =>
      _ ← drainApplyQueue;
      hosts ← rd hosts_list;
      _ ← m_forM hosts (λ host, connectToHost host.1 listen false);
      if sync then on_net app_schedule else mret tt
  end.

Definition disconnect : CM unit :=
  tell (λ f, upd_conns [] (upd_world (λ w, fold_left (λ w label, tr_close label w) (map_keys (fc_conns f)) w) f)).

Definition link (host : IHostConnectionInfo) (connect : bool) : CM unit :=
  _ ← on_st (hosts_add host);
  _ ← pullHosts;
  _ ← pullRealms;
  if connect then
    row ← rd (host_row (hi_label host));
    match row with Some (row, _) => connectToHost row true true | None => mret tt end
  else mret tt.

Definition unlink (label : jsstr) : CM unit :=
  _ ← on_st (hosts_del label);
  _ ← pullHosts;
  pullRealms.

(** ** Sync *)

(** [pullStat !== Success && pullStat !== NoChange] *)
Definition accept_NoChange (m : CM unit) : CM unit :=
  r ← m_settle m;
  match r with Ok _ | Err NoChange => mret tt | Err st => m_err st | Throw => m_throw end.

(** The peeks of one host: its row is read once, before the first. *)
Definition peek_realms (label : jsstr) (mgrs : list BagManager) (row : CursorRow) (realms : list IKDM) : CM unit :=
  m_forM realms (λ realm, syncPeek (NC := conn_net label mgrs) mgrs label row realm).

Definition drain_unit : CM unit := _ ← drainApplyQueue; mret tt.

Definition sync_host (realms : list IKDM) (conn : jsstr * list BagManager) : CM unit :=
  let label := conn.1 in
  host ← rd (host_row label);
  match host with
  | None => mret tt
  | Some (info, row) =>
      mgrs ← ensureConn label info conn.2;
      _ ← peek_realms label mgrs row realms;
      _ ← syncPush (NC := conn_net label mgrs) mgrs label maxPushBytes;
      accept_NoChange (syncPull (NC := conn_net label mgrs) mgrs label maxPullBytes drain_unit)
  end.

Definition doSync : CM unit :=
  e ← the_enclave;
  match e with
  | None => m_err MissingSeed
  | Some _ =>
      _ ← drainApplyQueue;
      _ ← pullRealms;
      realms ← ask (λ f, realmKDMs (match fc_account f with Some a => oa_realms a | None => [] end));
      conns ← ask fc_conns;
      m_forM conns (sync_host realms)
  end.

(** ** Rebuild *)

Definition zero_row : CursorRow := mkRow 0 None.

Definition repull_host (realms : list IKDM) (conn : jsstr * list BagManager) : CM unit :=
  let label := conn.1 in
  host ← rd (host_row label);
  match host with
  | None => mret tt
  | Some (info, _) =>
      mgrs ← ensureConn label info conn.2;
      _ ← peek_realms label mgrs zero_row realms;
      accept_NoChange (syncPull (NC := conn_net label mgrs) mgrs label maxPullBytes (mret tt))
  end.

Definition repull : CM unit :=
  e ← the_enclave;
  match e with
  | None => m_err MissingSeed
  | Some _ =>
      hosts ← rd hosts_list;
      match hosts with
      | [] => mret tt
      | _ =>
          _ ← pullRealms;
          realms ← ask (λ f, realmKDMs (match fc_account f with Some a => oa_realms a | None => [] end));
          _ ← m_forM hosts (λ host, connectToHost host.1 false false);
          conns ← ask fc_conns;
          m_forM conns (repull_host realms)
      end
  end.

Definition cancelSync : CM unit := tell (upd_world tr_cancel).

Definition rebuild (checkHost : bool) : CM unit :=
  _ ← cancelSync;
  _ ← (if checkHost then repull else mret tt);
  replay.

(** ** Reconcile *)

(** The inventory; [reconcileHost] always has a report when it succeeds. *)
Definition take_inventory (label : jsstr) (mgrs : list BagManager) (opts : ReconcileOpts) : CM ReconcileResult :=
  reconcileHost (NC := conn_net label mgrs) mgrs label opts.

Definition conn_of (label : jsstr) : CM (option (list BagManager)) := ask (λ f, map_get label (fc_conns f)).

(** [sync]: the option to drain the queues and take stock again. *)
Definition reconcile (label : jsstr) (opts : ReconcileOpts) (sync : bool) : CM ReconcileResult :=
  _ ← cancelSync;
  e ← the_enclave;
  match e with
  | None => m_err MissingSeed
  | Some _ =>
      host ← rd (host_row label);
      match host with
      | None => m_err NotFound
      | Some (info, _) =>
          live ← is_connected label;
          _ ← (if (live : bool) then mret tt else connectToHost info false false);
          host ← rd (host_row label);
          match host with
          | None => m_err NotFound
          | Some (info, _) =>
              conn ← conn_of label;
              match conn with
              | None => m_err InternalError
              | Some mgrs =>
                  mgrs ← ensureConn label info mgrs;
                  report ← take_inventory label mgrs opts;
                  if negb sync then mret report
                  else
                    _ ← doSync;
                    after ← rd (host_row label);
                    match after with
                    | None => m_err NotFound
                    | Some _ => take_inventory label mgrs (mkRecOpts (Some false) (Some false))
                    end
              end
          end
      end
  end.

(** ** Wipe *)

Record WipeOpts := mkWipeOpts { wo_msgs : bool; wo_ents : bool; wo_meta : bool; wo_seed : bool }.

Definition wipe_meta (s : Store) : Store := dnl_wipe (upl_wipe (hosts_wipe s)).

Definition wipe_client (opts : WipeOpts) : CM unit :=
  _ ← cancelSync;
  _ ← disconnect;
  _ ← (if wo_meta opts then on_st wipe_meta else mret tt);
  _ ← (if wo_msgs opts then on_st msgs_wipe else mret tt);
  _ ← (if wo_ents opts then ignore_status (on_net app_clear) else mret tt);
  if wo_seed opts then
    _ ← tell (upd_slots []);
    _ ← on_st realms_wipe;
    tell (upd_account None)
  else if wo_meta opts then _ ← pullHosts; pullRealms
  else mret tt.

(** ** Import and export *)

(** Realms in first-seen order, each with its messages. *)
Fixpoint add_export (realm : IKDM) (msg : IExportMsg) (parts : list IExportRealm) : list IExportRealm :=
  match parts with
  | [] => [mkExRealm realm [msg]]
  | part :: parts =>
      if kdmEq (xr_realm part) realm then mkExRealm (xr_realm part) (xr_msgs part ++ [msg]) :: parts
      else part :: add_export realm msg parts
  end.

Definition exportRealms (stored : list IStoredMessage) (rows : list IRealm) : list IExportRealm :=
  fold_left (λ parts m, add_export (realmKDM (sm_rlm m) rows) (mkExMsg (sm_head m) (sm_body m)) parts) stored [].

(** [nonce] and [nonces]: the random draws of the export. *)
Definition exportFile (e : Enclave) (nonce : bytes) (nonces : nat → bytes) (realms : list IExportRealm) : Res bytes :=
  key ← exportKey e nonce;
  encodeFile nonces realms key nonce.

Definition exportBytes (nonce : bytes) (nonces : nat → bytes) : CM bytes :=
  e ← the_enclave;
  match e with
  | None => m_err MissingSeed
  | Some e =>
      rows ← rd realms_list;
      stored ← rd (msgs_list None);
      m_lift (exportFile e nonce nonces (exportRealms stored rows))
  end.

(** The highest index of each named realm, in first-seen order. *)
Definition note_index (maxIndex : jsmap jsstr Z) (part : IExportRealm) : jsmap jsstr Z :=
  match kdm_label (xr_realm part) with
  | [] => maxIndex
  | label =>
      let index := kdm_index (xr_realm part) in
      match map_get label maxIndex with
      | Some prev => if prev <? index then map_set label index maxIndex else maxIndex
      | None => map_set label index maxIndex
      end
  end.

(** [store.realms.put], going on when the row is already ahead. *)
Definition put_realm (entry : jsstr * Z) : CM unit := λ '(s, f),
  let '(r, s') := realms_put entry.1 entry.2 s in
  (match r with Err InvalidParam => Ok tt | r => r end, (s', f)).

Definition import_batch (realm : IKDM) (batch : list IExportMsg) : CM unit :=
  _ ← write ((λ m, mkParts (xm_head m) (xm_body m)) <$> batch) (mkApplyOpts true false (Some realm));
  mret tt.

Definition import_part (part : IExportRealm) : CM unit :=
  m_forM (batches (λ m, mh_len (xm_head m)) (length (xr_msgs part)) (xr_msgs part)) (import_batch (xr_realm part)).

Definition import (file : bytes) : CM unit :=
  e ← the_enclave;
  match e with
  | None => m_err MissingSeed
  | Some e =>
      nonce ← m_lift (exportNonce file);
      key ← m_lift (exportKey e nonce);
      realms ← m_lift (decodeFile file key);
      let maxIndex := fold_left note_index realms [] in
      _ ← m_forM maxIndex put_realm;
      _ ← (if 0 <? Z.of_nat (length maxIndex) then pullRealms else mret tt);
      _ ← m_forM realms import_part;
      on_net app_schedule
  end.
End facade.
