(* ===== verification/FacadeFacts.v ===== *)
(** * Facts about the client facade *)
From S2P Require Export Facade SyncFacts RecoveryProps Exim.
From S2P Require Import Js.

(** ** What the writer and the apply queue keep *)

Lemma grows_only_rows s s' : only_rows s s' → grows s s'.
Proof.
  intros [Hd Hu Hc Hh _ Hk]. split.
  - intros [H1 H2 H3 H4]. split; by rewrite ?Hd, ?Hc.
  - intros l r. unfold cursor. rewrite Hc. lia.
  - intros key. unfold msgs_has, map_has. rewrite !bool_decide_eq_true, <-!not_eq_None_Some, !map_get_None, Hk. done.
  - unfold st_hosts. by rewrite Hh.
Qed.

Lemma forM_safe {N A} (l : list A) (f : A → SM (N := N) unit) :
  (∀ x, always grows (f x)) → always grows (m_forM l f).
Proof. intros Hf. induction l as [|x l IH]; cbn [m_forM]; safe. Qed.

(** [safe], through loops. *)
Ltac safer := repeat first [progress safe | intros; apply forM_safe].

Section writes.
Context {C : CryptoPrims} {N : Type} {AC : ClientApp N}.

Lemma markApplyStats_safe keys stats : always grows (N := N) (markApplyStats keys stats).
Proof.
  intros s n r s' n'. rewrite markApplyStats_run. intros [= <- <- <-]. apply grows_only_rows, mark_outcomes_rest.
Qed.
#[local] Hint Resolve markApplyStats_safe : safe.

Lemma deqDownloads_safe hashes : always grows (N := N) (deqDownloadsForHeadHashes hashes).
Proof. unfold deqDownloadsForHeadHashes. safe. Qed.

Lemma enq_hosts_grows hosts up s : grows s (enq_hosts hosts up s).
Proof.
  unfold enq_hosts. revert s. induction hosts as [|h hosts IH]; intros s; [done|]. cbn [fold_left].
  etransitivity; [apply grows_upl_enq|apply IH].
Qed.
#[local] Hint Resolve deqDownloads_safe enq_hosts_grows : safe grow.

Lemma doApply_safe parts options applyP : always grows (N := N) (doApply parts options applyP).
Proof. unfold doApply. safe. Qed.
#[local] Hint Resolve doApply_safe : safe.
Lemma write_safe parts options : always grows (N := N) (write parts options).
Proof. unfold write. safe. Qed.
#[local] Hint Resolve write_safe : safe.

Lemma applyStored_safe stored : always grows (N := N) (applyStored stored).
Proof. unfold applyStored. safe. Qed.
#[local] Hint Resolve applyStored_safe : safe.
Lemma drainApplyQueue_safe : always grows (N := N) drainApplyQueue.
Proof. unfold drainApplyQueue. safe. Qed.
Lemma replay_safe : always grows (N := N) replay.
Proof. unfold replay, apply_batches. safer. Qed.
Lemma write_one_safe head body : always grows (N := N) (write_one head body).
Proof. unfold write_one. safer. Qed.
#[local] Hint Resolve write_one_safe : safe.
Lemma updateWithSkew_safe now prior bod force typ : always grows (N := N) (updateWithSkew now prior bod force typ).
Proof. unfold updateWithSkew. safer. Qed.
#[local] Hint Resolve updateWithSkew_safe : safe.
Lemma updateRaw_safe now now' prior bod force typ : always grows (N := N) (updateRaw now now' prior bod force typ).
Proof. unfold updateRaw. safer. Qed.
Lemma insertRaw_safe id now bod typ : always grows (N := N) (insertRaw id now bod typ).
Proof. unfold insertRaw. safer. Qed.
End writes.
#[export] Hint Resolve write_safe drainApplyQueue_safe replay_safe updateRaw_safe insertRaw_safe : safe.

(** ** What the client's own calls keep *)
Section facade.
Context {C : CryptoPrims} {W : Type} {AC : ClientApp W} {TR : Transports W} (maxPush maxPull : Z).

Lemma ask_safe {A} (g : FC W → A) : always grows (ask g).
Proof. by intros s n r s' n' [= <- <- <-]. Qed.
Lemma tell_safe g : always grows (N := FC W) (tell g).
Proof. by intros s n r s' n' [= <- <- <-]. Qed.
#[local] Hint Resolve ask_safe tell_safe : safe.

Lemma ignore_status_safe {A} (m : CM (W := W) A) : always grows m → always grows (ignore_status m).
Proof. intros Hm. unfold ignore_status. safer. Qed.
Lemma accept_NoChange_safe (m : CM (W := W) unit) : always grows m → always grows (accept_NoChange m).
Proof. intros Hm. unfold accept_NoChange. safer. Qed.
#[local] Hint Resolve ignore_status_safe accept_NoChange_safe : safe.

Lemma pullHosts_safe : always grows (N := FC W) pullHosts.
Proof. unfold pullHosts. safer. Qed.
Lemma pullRealms_safe : always grows (N := FC W) pullRealms.
Proof. unfold pullRealms. safer. Qed.
Lemma the_enclave_safe : always grows (N := FC W) the_enclave.
Proof. apply ask_safe. Qed.
#[local] Hint Resolve pullHosts_safe pullRealms_safe the_enclave_safe : safe.

Lemma ensureConn_safe label row mgrs : always grows (N := FC W) (ensureConn label row mgrs).
Proof. unfold ensureConn, ensureBagMgrs. safer. Qed.
Lemma peek_realms_safe label mgrs row realms : always grows (N := FC W) (peek_realms label mgrs row realms).
Proof. unfold peek_realms. safer. Qed.
Lemma drain_unit_safe : always grows (N := FC W) drain_unit.
Proof. unfold drain_unit. safer. Qed.
#[local] Hint Resolve ensureConn_safe peek_realms_safe drain_unit_safe : safe.

Lemma sync_host_safe realms conn : always grows (sync_host maxPush maxPull realms conn).
Proof. unfold sync_host. safer. Qed.
#[local] Hint Resolve sync_host_safe : safe.
Lemma doSync_safe : always grows (doSync maxPush maxPull).
Proof. unfold doSync. safer. Qed.

Lemma connectToHost_safe row listen sync : always grows (N := FC W) (connectToHost row listen sync).
Proof. unfold connectToHost, is_connected, drop_conn, ensureBagMgrs. safer. Qed.
#[local] Hint Resolve connectToHost_safe : safe.
Lemma connect_safe listen sync : always grows (N := FC W) (connect listen sync).
Proof. unfold connect. safer. Qed.
Lemma repull_host_safe realms conn : always grows (repull_host maxPull realms conn).
Proof. unfold repull_host. safer. Qed.
#[local] Hint Resolve repull_host_safe : safe.
Lemma repull_safe : always grows (repull maxPull).
Proof. unfold repull. safer. Qed.
#[local] Hint Resolve repull_safe : safe.
Lemma rebuild_safe b : always grows (rebuild maxPull b).
Proof. unfold rebuild, cancelSync. safer. Qed.

Lemma put_realm_safe entry : always grows (N := FC W) (put_realm entry).
Proof.
  intros s n r s' n'. unfold put_realm, realms_put. destruct (advanceRealm _ _ _); intros [= <- <- <-]; try done.
  split; try done. by intros [].
Qed.
#[local] Hint Resolve put_realm_safe : safe.
Lemma import_batch_safe realm batch : always grows (N := FC W) (import_batch realm batch).
Proof. unfold import_batch. safer. Qed.
#[local] Hint Resolve import_batch_safe : safe.
Lemma import_part_safe part : always grows (N := FC W) (import_part part).
Proof. unfold import_part. safer. Qed.
#[local] Hint Resolve import_part_safe : safe.
Lemma import_safe file : always grows (N := FC W) (import file).
Proof. unfold import. safer. Qed.
End facade.
#[export] Hint Resolve doSync_safe connect_safe rebuild_safe import_safe connectToHost_safe : safe.

(** * Whose managers the connections hold

    An invariant of the client's own fields through every phase: [keeps P m]
    when [m] keeps [P] on every outcome. *)

Section keeps.
Context {N : Type} (P : N → Prop).

Definition keeps {A} (m : SM (N := N) A) : Prop := ∀ s n r s' n', P n → m (s, n) = (r, (s', n')) → P n'.

Lemma kept_ret {A} (a : A) : keeps (mret a).
Proof. by intros s n r s' n' H [= <- <- <-]. Qed.
Lemma kept_lift {A} (r : Res A) : keeps (m_lift r).
Proof. by intros s n r' s' n' H [= <- <- <-]. Qed.
Lemma kept_err {A} st : keeps (A := A) (m_err st).
Proof. by intros s n r s' n' H [= <- <- <-]. Qed.
Lemma kept_throw {A} : keeps (A := A) m_throw.
Proof. by intros s n r s' n' H [= <- <- <-]. Qed.
Lemma kept_rd {A} (f : Store → A) : keeps (rd f).
Proof. by intros s n r s' n' H [= <- <- <-]. Qed.
Lemma kept_st f : keeps (on_st f).
Proof. by intros s n r s' n' H [= <- <- <-]. Qed.
Lemma kept_net {A} (m : M N A) : (∀ n, P n → P (m n).2) → keeps (on_net m).
Proof. intros Hm s n r s' n' H. specialize (Hm n H). unfold on_net. destruct (m n). by intros [= <- <- <-]. Qed.
Lemma kept_settle {A} (m : SM A) : keeps m → keeps (m_settle m).
Proof.
  intros Hm s n r s' n' H. unfold m_settle. destruct (m (s, n)) as [r0 [s0 n0]] eqn:E.
  intros [= <- <- <-]. by eapply Hm.
Qed.
Lemma kept_bind {A B} (m : SM A) (k : A → SM B) : keeps m → (∀ a, keeps (k a)) → keeps (m ≫= k).
Proof.
  intros Hm Hk s n r s' n' H. unfold mbind, M_bind, m_bind.
  destruct (m (s, n)) as [[a| |] [s1 n1]] eqn:E; [intros E2|intros [= <- <- <-]..]; try by eapply Hm.
  eapply Hk; [by eapply Hm|exact E2].
Qed.
Lemma kept_forM {A} (l : list A) (f : A → SM unit) : (∀ x, x ∈ l → keeps (f x)) → keeps (m_forM l f).
Proof.
  induction l as [|x l IH]; intros Hf; cbn [m_forM]; [apply kept_ret|].
  apply kept_bind; [apply Hf; left|intros _; apply IH; intros y Hy; apply Hf; by right].
Qed.

(** What a connection's calls must keep. *)
Record net_keeps (NC : SyncNet N) : Prop := {
  nk_peek c r n : P n → P (net_peek c r n).2;
  nk_pull c r n : P n → P (net_pull c r n).2;
  nk_push bs n : P n → P (net_push bs n).2;
  nk_nonce n : P n → P (net_nonce n).2;
}.
Record app_keeps (AC : ClientApp N) : Prop := {
  ak_apply msgs n : P n → P (app_apply msgs n).2;
  ak_clear n : P n → P (app_clear n).2;
  ak_schedule n : P n → P (app_schedule n).2;
}.

Lemma kept_peek {NC : SyncNet N} c r : net_keeps NC → keeps (on_net (net_peek c r)).
Proof. intros H. apply kept_net. intros n. apply H. Qed.
Lemma kept_pull {NC : SyncNet N} c r : net_keeps NC → keeps (on_net (net_pull c r)).
Proof. intros H. apply kept_net. intros n. apply H. Qed.
Lemma kept_push {NC : SyncNet N} bs : net_keeps NC → keeps (on_net (net_push bs)).
Proof. intros H. apply kept_net. intros n. apply H. Qed.
Lemma kept_nonce {NC : SyncNet N} : net_keeps NC → keeps (on_net net_nonce).
Proof. intros H. apply kept_net. intros n. apply H. Qed.
Lemma kept_apply {AC : ClientApp N} msgs : app_keeps AC → keeps (on_net (app_apply msgs)).
Proof. intros H. apply kept_net. intros n. apply H. Qed.
Lemma kept_clear {AC : ClientApp N} : app_keeps AC → keeps (on_net app_clear).
Proof. intros H. apply kept_net. intros n. apply H. Qed.
Lemma kept_schedule {AC : ClientApp N} : app_keeps AC → keeps (on_net app_schedule).
Proof. intros H. apply kept_net. intros n. apply H. Qed.
End keeps.

Create HintDb kept.
#[export] Hint Resolve kept_ret kept_lift kept_err kept_throw kept_rd kept_st kept_settle
  kept_peek kept_pull kept_push kept_nonce kept_apply kept_clear kept_schedule : kept.

(** Splits a computation at its binds, loops and tests. *)
Ltac kept := repeat (intros; match goal with
  | |- keeps _ (_ ≫= _) => apply kept_bind
  | |- keeps _ (m_forM _ _) => apply kept_forM
  | |- keeps _ (if ?b then _ else _) => destruct b
  | |- keeps _ (match ?x with _ => _ end) => destruct x
  | |- _ => solve [eauto with kept]
  end).

Section phases.
Context {C : CryptoPrims} {N : Type} {NC : SyncNet N} (bagMgrs : list BagManager) (P : N → Prop) (HN : net_keeps P NC).
#[local] Hint Resolve HN : kept.

Lemma peek_loop_keeps label realm rs enq dls : keeps P (peek_loop label realm rs enq dls).
Proof. revert enq dls. induction rs as [|[]]; intros; cbn [peek_loop]; kept. Qed.
#[local] Hint Resolve peek_loop_keeps : kept.
Lemma syncPeek_keeps label row realm : keeps P (syncPeek bagMgrs label row realm).
Proof. unfold syncPeek. kept. Qed.
Lemma deq_pushed_keeps label hashes results : keeps P (deq_pushed label hashes results).
Proof. induction results as [|[]]; cbn [deq_pushed]; kept. Qed.
#[local] Hint Resolve deq_pushed_keeps : kept.
Lemma pushBatch_keeps label bags hashes realm : keeps P (pushBatch label bags hashes realm).
Proof. unfold pushBatch. kept. Qed.
#[local] Hint Resolve pushBatch_keeps : kept.
Lemma push_flush_keeps label a : keeps P (push_flush label a).
Proof. unfold push_flush. kept. Qed.
Lemma conn_seal_keeps msg realm : keeps P (conn_seal bagMgrs msg realm).
Proof. unfold conn_seal. kept. Qed.
#[local] Hint Resolve push_flush_keeps conn_seal_keeps : kept.
Lemma push_loop_keeps label limit ready a : keeps P (push_loop bagMgrs label limit ready a).
Proof. revert a. induction ready; intros; cbn [push_loop]; kept. Qed.
#[local] Hint Resolve push_loop_keeps : kept.
Lemma syncPush_keeps label limit : keeps P (syncPush bagMgrs label limit).
Proof. unfold syncPush. kept. Qed.
Lemma pull_groups_keeps pulls : keeps P (pull_groups pulls).
Proof. induction pulls; cbn [pull_groups]; kept. Qed.
Lemma openPulled_keeps items : keeps P (openPulled bagMgrs items).
Proof. unfold openPulled. kept. Qed.
#[local] Hint Resolve pull_groups_keeps openPulled_keeps : kept.
Lemma pull_pipeline_keeps afterOpen nextPull rest :
  keeps P afterOpen → keeps P (pull_pipeline bagMgrs afterOpen nextPull rest).
Proof. intros Ha. revert nextPull. induction rest; intros; cbn [pull_pipeline]; unfold pullBodies; kept. Qed.
#[local] Hint Resolve pull_pipeline_keeps : kept.
Lemma syncPull_keeps label limit afterOpen : keeps P afterOpen → keeps P (syncPull bagMgrs label limit afterOpen).
Proof. intros Ha. unfold syncPull, pullBodies. kept. Qed.

Lemma reconcile_realms_keeps label vk realms byMsg n : keeps P (reconcile_realms bagMgrs label vk realms byMsg n).
Proof. revert byMsg n. induction realms; intros; cbn [reconcile_realms]; kept. Qed.
#[local] Hint Resolve reconcile_realms_keeps : kept.
Lemma missing_local_keeps label pull aggs n dls : keeps P (missing_local label pull aggs n dls).
Proof. revert n dls. induction aggs; intros; cbn [missing_local]; kept. Qed.
#[local] Hint Resolve missing_local_keeps : kept.
Lemma reconcileHost_keeps label opts : keeps P (reconcileHost bagMgrs label opts).
Proof. unfold reconcileHost. kept. Qed.
End phases.

(** ** The client's own calls *)
Section facade.
Context {C : CryptoPrims} {W : Type} {AC : ClientApp W} {TR : Transports W} (maxPush maxPull : Z).

Lemma in_world_keeps (P : FC W → Prop) {A} (m : M W A) (f : FC W) :
  (∀ f w, P f → P (upd_world (λ _, w) f)) → P f → P (in_world m f).2.
Proof. intros HP Hf. unfold in_world. destruct (m (fc_world f)) as [r w]. by apply (HP f w). Qed.

(** One manager per realm, each derived from the master [e]. *)
Definition derived (e : Enclave) (mgrs : list BagManager) : Prop :=
  Forall (λ m, ∃ idKDM realm, bagman e idKDM realm = Ok m) mgrs ∧ NoDup (bm_realmKDM <$> mgrs).

(** The open account, if any, is of master [e], and so is every connection. *)
Record owned (e : Enclave) (f : FC W) : Prop := {
  ow_account : ∀ a, fc_account f = Some a → oa_enclave a = e;
  ow_conns : Forall (λ x, derived e x.2) (fc_conns f);
}.

Lemma add_mgr_derived e mgrs idKDM realm m :
  bagman e idKDM realm = Ok m → derived e mgrs → derived e (add_mgr mgrs m).
Proof.
  intros Hm [H1 H2]. unfold add_mgr, bagMgrFor. destruct (list_find _ mgrs) as [[i x]|] eqn:E; [by split|]. cbn.
  apply list_find_None in E. split.
  - apply Forall_app. split; [done|]. apply Forall_singleton. by exists idKDM, realm.
  - rewrite fmap_app. apply NoDup_app. split_and!; [done| |apply NoDup_singleton].
    intros r (y & -> & Hy)%list_elem_of_fmap. cbn. rewrite list_elem_of_singleton. intros Hr.
    apply (proj1 (Forall_forall _ _) E y Hy). apply kdmEq_spec. by symmetry.
Qed.

Lemma add_realms_derived e idKDM realms mgrs : derived e mgrs → derived e (add_realms e idKDM realms mgrs).1.
Proof.
  revert mgrs. induction realms as [|r realms IH]; intros mgrs Hd; [done|]. cbn [add_realms].
  destruct (bagMgrFor mgrs r); [by apply IH|]. destruct (bagman e idKDM r) as [m| |] eqn:E; [|done..].
  apply IH. by eapply add_mgr_derived.
Qed.

Lemma Forall_map_set {K V} `{EqDecision K} (P : K * V → Prop) k v (m : jsmap K V) :
  Forall P m → (∀ k', P (k', v)) → Forall P (map_set k v m).
Proof.
  intros Hm Hv. induction Hm as [|[k' v'] m Hx Hm IH]; cbn [map_set]; [by constructor|].
  case_decide; constructor; auto.
Qed.
Lemma Forall_map_delete {K V} `{EqDecision K} (P : K * V → Prop) k (m : jsmap K V) :
  Forall P m → Forall P (map_delete k m).
Proof. intros Hm. induction Hm as [|[k' v'] m Hx Hm IH]; cbn [map_delete]; [done|]. case_decide; [done|by constructor]. Qed.

Section owner.
Context (e : Enclave).
#[local] Abbreviation P := (owned e).

Lemma owned_world f w : P f → P (upd_world (λ _, w) f).
Proof. by intros [H1 H2]. Qed.
Lemma fc_app_keeps : app_keeps P fc_app.
Proof. split; intros; by apply (in_world_keeps P _ _ owned_world). Qed.
Lemma conn_net_keeps label mgrs : net_keeps P (conn_net label mgrs).
Proof. split; intros; by apply (in_world_keeps P _ _ owned_world). Qed.
Lemma in_world_net {A} (m : M W A) : keeps P (on_net (in_world m)).
Proof. apply kept_net. intros f Hf. by apply (in_world_keeps P _ _ owned_world). Qed.
#[local] Hint Resolve fc_app_keeps conn_net_keeps in_world_net : kept.
#[local] Hint Extern 1 (keeps _ (syncPeek _ _ _ _)) => apply syncPeek_keeps : kept.
#[local] Hint Extern 1 (keeps _ (syncPush _ _ _)) => apply syncPush_keeps : kept.
#[local] Hint Extern 1 (keeps _ (syncPull _ _ _ _)) => apply syncPull_keeps : kept.
#[local] Hint Extern 1 (keeps _ (reconcileHost _ _ _)) => apply reconcileHost_keeps : kept.

Lemma ask_keeps {A} (g : FC W → A) : keeps P (ask g).
Proof. by intros s f r s' f' H [= <- <- <-]. Qed.
Lemma tell_keeps g : (∀ f, P f → P (g f)) → keeps P (tell g).
Proof. intros Hg s f r s' f' H [= <- <- <-]. by apply Hg. Qed.
Lemma ask_bind_keeps {A B} (g : FC W → A) (k : A → CM (W := W) B) : (∀ f, P f → keeps P (k (g f))) → keeps P (ask g ≫= k).
Proof. intros Hk s f r s' f' H E. by eapply (Hk f H s f). Qed.
#[local] Hint Resolve ask_keeps : kept.

Lemma ignore_status_keeps {A} (m : CM (W := W) A) : keeps P m → keeps P (ignore_status m).
Proof. intros Hm. unfold ignore_status. kept. Qed.
Lemma accept_NoChange_keeps (m : CM (W := W) unit) : keeps P m → keeps P (accept_NoChange m).
Proof. intros Hm. unfold accept_NoChange. kept. Qed.
#[local] Hint Resolve ignore_status_keeps accept_NoChange_keeps : kept.

(** Writes and the apply queue. *)
Lemma markApplyStats_keeps keys stats : keeps P (markApplyStats keys stats).
Proof. unfold markApplyStats. kept. Qed.
#[local] Hint Resolve markApplyStats_keeps : kept.
Lemma applyStored_keeps stored : keeps P (applyStored stored).
Proof. unfold applyStored. kept. Qed.
#[local] Hint Resolve applyStored_keeps : kept.
Lemma drain_keeps : keeps P drainApplyQueue.
Proof. unfold drainApplyQueue. kept. Qed.
Lemma deqDownloads_keeps hashes : keeps P (deqDownloadsForHeadHashes hashes).
Proof. unfold deqDownloadsForHeadHashes. kept. Qed.
#[local] Hint Resolve drain_keeps deqDownloads_keeps : kept.
Lemma write_keeps parts options : keeps P (write parts options).
Proof. unfold write, doApply. kept. Qed.
Lemma replay_keeps : keeps P replay.
Proof. unfold replay, apply_batches. kept. Qed.
#[local] Hint Resolve write_keeps replay_keeps : kept.

Lemma pullHosts_keeps : keeps P pullHosts.
Proof.
  unfold pullHosts. apply ask_bind_keeps. intros f [H1 H2]. destruct (fc_account f) as [a|] eqn:E; [|kept].
  apply kept_bind; [kept|]. intros rows. apply tell_keeps. intros f' [H1' H2']. split; [|done]. intros a' [= <-]. by apply (H1 a).
Qed.
Lemma pullRealms_keeps : keeps P pullRealms.
Proof.
  unfold pullRealms. apply ask_bind_keeps. intros f [H1 H2]. destruct (fc_account f) as [a|] eqn:E; [|kept].
  apply kept_bind; [kept|]. intros rows. apply tell_keeps. intros f' [H1' H2']. split; [|done]. intros a' [= <-]. by apply (H1 a).
Qed.
#[local] Hint Resolve pullHosts_keeps pullRealms_keeps : kept.

(** The managers a connection is left with. *)
Lemma ensureBagMgrs_derived row mgrs s f r s' f' :
  P f → derived e mgrs → ensureBagMgrs row mgrs (s, f) = (r, (s', f')) →
  f' = f ∧ s' = s ∧ ∃ x, r = Ok x ∧ derived e x.1.
Proof.
  intros [H1 _] Hd. unfold ensureBagMgrs, the_enclave, ask. unfold mbind, M_bind, m_bind. cbv beta iota.
  destruct (fc_account f) as [a|] eqn:E; cbn.
  - intros [= <- <- <-]. split_and!; [done..|]. eexists. split; [done|].
    rewrite (H1 a eq_refl). by apply add_realms_derived.
  - intros [= <- <- <-]. split_and!; [done..|]. by eexists.
Qed.

Lemma set_conn_owned f label mgrs : P f → derived e mgrs → P (upd_conns (map_set label mgrs (fc_conns f)) f).
Proof. intros [H1 H2] Hd. split; [done|]. cbn. by apply Forall_map_set. Qed.

Lemma ensureConn_keeps label row mgrs : derived e mgrs → keeps P (ensureConn label row mgrs).
Proof.
  intros Hd s f r s' f' Hf. unfold ensureConn. unfold mbind at 1, M_bind at 1, m_bind at 1.
  destruct (ensureBagMgrs row mgrs (s, f)) as [r0 [s0 f0]] eqn:E.
  destruct (ensureBagMgrs_derived _ _ _ _ _ _ _ Hf Hd E) as (-> & -> & [mgrs' st] & -> & Hd').
  cbn in Hd'. intros H. revert H. apply (kept_bind P _ _ (tell_keeps _ (λ f Hf, set_conn_owned f label mgrs' Hf Hd'))); [kept|done].
Qed.

Lemma connectToHost_keeps row listen sync : keeps P (connectToHost row listen sync).
Proof.
  unfold connectToHost, is_connected. apply kept_bind; [kept|]. intros live. destruct live; [kept|].
  apply kept_bind; [kept|]. intros existing.
  apply kept_bind.
  { destruct existing; [|kept]. apply tell_keeps. intros f [H1 H2]. split; [done|]. cbn. by apply Forall_map_delete. }
  intros _. apply kept_bind; [kept|]. intros [e'|]; [|kept]. intros s f r s' f' Hf.
  unfold mbind at 1, M_bind at 1, m_bind at 1. destruct (ensureBagMgrs row [] (s, f)) as [r0 [s0 f0]] eqn:E.
  destruct (ensureBagMgrs_derived _ _ _ _ _ _ _ Hf ltac:(split; constructor) E) as (-> & -> & [mgrs st] & -> & Hd).
  cbn in Hd. cbv iota beta.
  match goal with |- ?m (s, f) = _ → _ => assert (Hk : keeps P m); [|by apply Hk] end.
  destruct st as [|st|]; [|kept..].
  apply kept_bind; [kept|]. intros _. apply kept_bind; [kept|]. intros _.
  apply kept_bind; [|kept]. apply tell_keeps. intros f0 Hf0. by apply set_conn_owned.
Qed.
#[local] Hint Resolve connectToHost_keeps : kept.
#[local] Hint Extern 1 (keeps _ (ensureConn _ _ _)) => apply ensureConn_keeps; assumption : kept.

Lemma snapshot_derived f conn : P f → conn ∈ fc_conns f → derived e conn.2.
Proof. intros [_ H] Hc. by apply (proj1 (Forall_forall _ _) H conn). Qed.

Lemma sync_host_keeps realms conn : derived e conn.2 → keeps P (sync_host maxPush maxPull realms conn).
Proof. intros Hd. unfold sync_host, peek_realms, drain_unit. kept; intros; apply accept_NoChange_keeps, syncPull_keeps; kept. Qed.
Lemma repull_host_keeps realms conn : derived e conn.2 → keeps P (repull_host maxPull realms conn).
Proof. intros Hd. unfold repull_host, peek_realms. kept; intros; apply accept_NoChange_keeps, syncPull_keeps; kept. Qed.

Lemma doSync_keeps : keeps P (doSync maxPush maxPull).
Proof.
  unfold doSync, the_enclave. apply kept_bind; [kept|]. intros [e'|]; [|kept].
  do 2 (apply kept_bind; [kept|]; intros _). apply kept_bind; [kept|]. intros realms.
  apply ask_bind_keeps. intros f Hf. apply kept_forM. intros conn Hc. apply sync_host_keeps. by eapply snapshot_derived.
Qed.

Lemma repull_keeps : keeps P (repull maxPull).
Proof.
  unfold repull, the_enclave. apply kept_bind; [kept|]. intros [e'|]; [|kept].
  apply kept_bind; [kept|]. intros [|h hosts]; [kept|].
  apply kept_bind; [kept|]. intros _. apply kept_bind; [kept|]. intros realms.
  apply kept_bind; [kept|]. intros _.
  apply ask_bind_keeps. intros f Hf. apply kept_forM. intros conn Hc. apply repull_host_keeps. by eapply snapshot_derived.
Qed.

Lemma cancel_keeps : keeps P cancelSync.
Proof. apply tell_keeps. intros f. by apply (owned_world f (tr_cancel (fc_world f))). Qed.
#[local] Hint Resolve doSync_keeps repull_keeps cancel_keeps : kept.

Lemma rebuild_keeps b : keeps P (rebuild maxPull b).
Proof. unfold rebuild. kept. Qed.

Lemma connect_keeps listen sync : keeps P (connect listen sync).
Proof. unfold connect, the_enclave. kept. Qed.

Lemma reconcile_keeps label opts sync : keeps P (reconcile maxPush maxPull label opts sync).
Proof.
  unfold reconcile, the_enclave, is_connected, take_inventory. apply kept_bind; [kept|]. intros _.
  apply kept_bind; [kept|]. intros [e'|]; [|kept]. apply kept_bind; [kept|]. intros [[info ?]|]; [|kept].
  apply kept_bind; [kept|]. intros live. apply kept_bind; [kept|]. intros _. apply kept_bind; [kept|].
  intros [[info' ?]|]; [|kept]. unfold conn_of. apply ask_bind_keeps. intros f Hf.
  destruct (map_get label (fc_conns f)) as [mgrs|] eqn:E; [|kept].
  apply map_get_Some_in, (snapshot_derived f _ Hf) in E. cbn in E.
  apply kept_bind; [by apply ensureConn_keeps|]. kept.
Qed.

Lemma disconnect_keeps : keeps P disconnect.
Proof. apply tell_keeps. intros f [H1 _]. split; [done|]. constructor. Qed.
Lemma link_keeps host b : keeps P (link host b).
Proof. unfold link. kept. Qed.
Lemma unlink_keeps label : keeps P (unlink label).
Proof. unfold unlink. kept. Qed.
#[local] Hint Resolve disconnect_keeps : kept.

Lemma wipe_keeps opts : keeps P (wipe_client opts).
Proof.
  unfold wipe_client. do 5 (apply kept_bind; [kept|]; intros ?). destruct (wo_seed opts); [|kept].
  apply kept_bind; [by apply tell_keeps; intros f []|]. intros _. apply kept_bind; [kept|]. intros _.
  apply tell_keeps. intros f [_ H]. by split.
Qed.

Lemma put_realm_keeps entry : keeps P (put_realm (W := W) entry).
Proof. intros s f r s' f' Hf. unfold put_realm. destruct (realms_put _ _ _) as [r0 s0]. by intros [= <- <- <-]. Qed.
#[local] Hint Resolve put_realm_keeps : kept.
Lemma import_keeps file : keeps P (import file).
Proof. unfold import, the_enclave, import_part, import_batch. kept. Qed.

(** A new account with no connections left over. *)
Lemma setSeed_owned n raw s f r s' f' :
  fc_conns f = [] → (∀ a, fc_account f = Some a → oa_enclave a = e) →
  setSeed (W := W) n e raw (s, f) = (r, (s', f')) → P f'.
Proof.
  intros Hc Ha. unfold setSeed, account_save. unfold mbind, M_bind, m_bind, ask, tell, m_lift. cbv beta iota.
  destruct (map_get _ (fc_slots f)) as [tag|].
  - destruct (keyTagMatches e tag) as [[]| |]; cbn; intros [= <- <- <-]; (split; [try done|by cbn; rewrite Hc]).
    by intros a [= <-].
  - destruct (makeKeyTag n e) as [tag| |]; cbn; intros [= <- <- <-]; (split; [try done|by cbn; rewrite Hc]).
    by intros a [= <-].
Qed.
End owner.
End facade.
