(* ===== verification/FacadeProps.v ===== *)
(** * Properties of the client facade *)
From S2P Require Export FacadeFacts.
From S2P Require Import Js.

(** Unfolds one run of the client's monad. *)
Ltac run := unfold mbind, M_bind, m_bind, ask, tell, m_lift; cbv beta iota.

Section props.
Context {C : CryptoPrims} {W : Type} {AC : ClientApp W} {TR : Transports W} (maxPush maxPull : Z).

(** [C25] Whatever the hosts and the application answer, and wherever a call
    fails, no call of the client that talks to a host, writes, imports, drains
    or replays loses an archived message or a linked host or moves a cursor
    back, and each keeps the stores' keys in step with their rows.  (Wiping,
    linking and reconciling are the calls that may.) *)
Theorem client_never_loses (m : CM (W := W) unit) parts options now now' prior bod force typ id ins row listen sync
    checkHost file s f r s' f' :
  m ∈ [doSync maxPush maxPull; connect listen sync; connectToHost row listen sync; rebuild maxPull checkHost;
       import file; replay; (drainApplyQueue ≫= λ _, mret tt); (write parts options ≫= λ _, mret tt);
       (updateRaw now now' prior bod force typ ≫= λ _, mret tt); (insertRaw id now ins typ ≫= λ _, mret tt)] →
  m (s, f) = (r, (s', f')) →
  (store_ok s → store_ok s') ∧
  (∀ label realm, cursor s label realm <= cursor s' label realm) ∧
  (∀ key, msgs_has key s = true → msgs_has key s' = true) ∧
  st_hosts s' = st_hosts s.
Proof.
  intros Hm E. assert (Hsafe : always grows m).
  { repeat (apply elem_of_cons in Hm as [->|Hm]; [safe|]). by apply not_elem_of_nil in Hm. }
  by destruct (Hsafe _ _ _ _ _ E).
Qed.

(** An account label opens only for the master it was first opened with.
    Opening a new label records a key tag and opens the account under the
    trimmed label with the stores' hosts and realms.  From then on [setSeed] on
    that label succeeds exactly for a master with the same tag digest, and then
    keeps the tag; for any other it fails and changes nothing. *)
Theorem setSeed_guards_label n e raw s (f : FC W) tag :
  let label := accountLabel raw in
  map_get label (fc_slots f) = None → makeKeyTag n e = Ok tag →
  ∃ f1, setSeed (W := W) n e raw (s, f) = (Ok tt, (s, f1)) ∧
    fc_account f1 = Some (mkAccount label e (hosts_list s) (realms_list s)) ∧
    (∀ l, l ≠ label → map_get l (fc_slots f1) = map_get l (fc_slots f)) ∧
    ∀ f2 s2 n' e' raw', map_get label (fc_slots f2) = map_get label (fc_slots f1) → accountLabel raw' = label →
      (keyTagDigest e' n = keyTagDigest e n →
         ∃ f3, setSeed (W := W) n' e' raw' (s2, f2) = (Ok tt, (s2, f3)) ∧
           fc_account f3 = Some (mkAccount label e' (hosts_list s2) (realms_list s2)) ∧
           ∀ l, map_get l (fc_slots f3) = map_get l (fc_slots f2)) ∧
      (keyTagDigest e' n ≠ keyTagDigest e n → keyTagDigest e' n ≠ Throw →
         setSeed (W := W) n' e' raw' (s2, f2) = (Err HashMismatch, (s2, f2))).
Proof.
  intros label Hnone Htag. unfold makeKeyTag in Htag. apply res_bind_Ok_inv in Htag as (h & Hh & [= <-]).
  set (f1 := upd_account (Some (mkAccount label e (hosts_list s) (realms_list s)))
    (upd_slots (map_set label (mkKeyTag n h) (fc_slots f)) f)).
  exists f1. split_and!.
  - unfold setSeed, account_save, makeKeyTag. fold label. run. rewrite Hnone. cbv beta iota. by rewrite Hh.
  - done.
  - intros l Hl. cbn. by rewrite map_get_set_ne.
  - intros f2 s2 n' e' raw' Hf2 Hraw'. cbn in Hf2. rewrite map_get_set, decide_True in Hf2 by done.
    unfold setSeed, account_save. rewrite Hraw'. run. rewrite Hf2. unfold keyTagMatches. cbn [kt_n kt_h]. split.
    + intros Hd. rewrite Hh in Hd. eexists. split; [|split].
      * rewrite Hd, bytesEqual_refl. reflexivity.
      * done.
      * intros l. cbn. rewrite map_get_set. case_decide; [by subst|done].
    + intros Hd Hnt. destruct (keyTagDigest e' n) as [h'| |] eqn:E; try done.
      destruct (bytesEqual h' h) eqn:Eb; [|done]. apply bytesEqual_spec in Eb. congruence.
Qed.

(** Opening an account leaves the live connections as they are. *)
Lemma setSeed_keeps_connections n e raw s (f : FC W) r s' f' :
  setSeed (W := W) n e raw (s, f) = (r, (s', f')) → fc_conns f' = fc_conns f.
Proof.
  unfold setSeed, account_save. run. destruct (map_get _ (fc_slots f)) as [tag|].
  - destruct (keyTagMatches e tag) as [[]| |]; cbn; by intros [= <- <- <-].
  - destruct (makeKeyTag n e) as [tag| |]; cbn; by intros [= <- <- <-].
Qed.

Lemma bagman_realm e idKDM realm m : bagman e idKDM realm = Ok m → bm_realmKDM m = realm.
Proof.
  intros (idn & _ & H)%res_bind_Ok_inv. apply res_bind_Ok_inv in H as (rk & _ & H).
  apply res_bind_Ok_inv in H as (rid & _ & H). apply res_bind_Ok_inv in H as (rlm & _ & H).
  unfold bm_init in H. apply catching_Ok in H. by apply res_bind_Ok_inv in H as (keys & _ & [= <-]).
Qed.

(** The calls of the client that open no account, as [setSeed] and [adopt] do. *)
Definition within_account (m : CM (W := W) unit) : Prop :=
  ∃ parts options row listen sync host label opts ropts checkHost file,
  m ∈ [doSync maxPush maxPull; connect listen sync; connectToHost row listen sync; rebuild maxPull checkHost;
       (reconcile maxPush maxPull label ropts sync ≫= λ _, mret tt); import file; link host sync; unlink label;
       disconnect; wipe_client opts; replay; (drainApplyQueue ≫= λ _, mret tt); (write parts options ≫= λ _, mret tt)].

Definition calls_run (ms : list (CM (W := W) unit)) (sf : Store * FC W) : Store * FC W :=
  fold_left (λ sf m, (m sf).2) ms sf.

Lemma within_account_keeps e m : within_account m → keeps (owned e) m.
Proof.
  intros (parts & options & row & listen & sync & host & label & opts & ropts & checkHost & file & Hm).
  repeat (apply elem_of_cons in Hm as [->|Hm];
    [eauto using doSync_keeps, connect_keeps, connectToHost_keeps, rebuild_keeps, import_keeps, link_keeps,
       unlink_keeps, disconnect_keeps, wipe_keeps, replay_keeps, reconcile_keeps, drain_keeps, write_keeps,
       kept_bind, kept_ret|]).
  by apply not_elem_of_nil in Hm.
Qed.

Lemma calls_keep e ms s f : Forall within_account ms → owned e f → owned e (calls_run ms (s, f)).2.
Proof.
  intros Hms. revert s f. induction Hms as [|m ms Hm _ IH]; intros s f Hf; [done|]. unfold calls_run. cbn [fold_left].
  destruct (m (s, f)) as [r [s1 f1]] eqn:E. by apply IH, (within_account_keeps e m Hm _ _ _ _ _ Hf E).
Qed.

(** [C27] While one account is open, the keys of a connection are that account's.
    A client that opens an account with no connection live keeps, through every
    later list of syncs, connects, rebuilds, reconciles, imports, links, unlinks,
    disconnects, wipes, replays, drains and writes, whatever their outcomes, on
    each connection at most one manager per realm, each derived from the
    account's master, for the realm it is found under; so what it seals, signs and opens for a realm it
    does with that master's keys for that realm.  The calls that open another account are
    excepted, and must be: [setSeed] and [adopt] leave the connections, and so
    the former master's managers, as they are, whatever the new master. *)
Theorem connections_belong_to_account (e : Enclave) ms s f s' f' :
  (∀ a, fc_account f = Some a → oa_enclave a = e) →
  (fc_conns f = [] ∨ owned e f) →
  Forall within_account ms →
  calls_run ms (s, f) = (s', f') →
  owned e f' ∧
  (∀ conn mgrs realm mgr, map_get conn (fc_conns f') = Some mgrs → bagMgrFor mgrs realm = Some mgr →
    ∃ idKDM, bagman e idKDM realm = Ok mgr) ∧
  ∀ n e2 raw label,
    fc_conns (setSeed (W := W) n e2 raw (s', f')).2.2 = fc_conns f' ∧ fc_conns (adopt (W := W) e2 label (s', f')).2.2 = fc_conns f'.
Proof.
  intros Ha Hc Hm E. assert (Hf : owned e f) by (destruct Hc as [Hc|]; [split; [done|by rewrite Hc]|done]).
  pose proof (calls_keep e ms s f Hm Hf) as Hf'. rewrite E in Hf'. cbn [snd] in Hf'. split; [done|]. split.
  2: { intros n e2 raw label. split; [|done]. destruct (setSeed n e2 raw (s', f')) as [r [s2 f2]] eqn:E2. by eapply setSeed_keeps_connections. }
  intros conn mgrs realm mgr Hg Hb.
  apply map_get_Some_in, (snapshot_derived e f' _ Hf') in Hg as [Hd _]. cbn in Hd.
  unfold bagMgrFor in Hb. destruct (list_find _ mgrs) as [[i x]|] eqn:El; [|done]. injection Hb as ->.
  apply list_find_Some in El as (Hx & Hk & _). apply kdmEq_spec in Hk. apply list_elem_of_lookup_2 in Hx.
  apply (proj1 (Forall_forall _ _) Hd) in Hx as (idKDM & realm' & Hm'). exists idKDM.
  rewrite Hk. by rewrite (bagman_realm _ _ _ _ Hm').
Qed.

(** A manager a connection has is never replaced, whatever account is open. *)
Lemma ensure_keeps_managers e idKDM realms mgrs realm m :
  bagMgrFor mgrs realm = Some m → bagMgrFor (add_realms e idKDM realms mgrs).1 realm = Some m.
Proof.
  revert mgrs. induction realms as [|r realms IH]; intros mgrs Hm; [done|]. cbn [add_realms].
  destruct (bagMgrFor mgrs r); [by apply IH|]. destruct (bagman e idKDM r) as [x| |]; [|done..]. apply IH.
  unfold add_mgr. destruct (bagMgrFor mgrs (bm_realmKDM x)); [done|]. unfold bagMgrFor in *.
  destruct (list_find _ mgrs) as [[i y]|] eqn:E; [|done]. by rewrite (list_find_app_l _ _ _ _ _ E).
Qed.
End props.

(** ** Witnesses: a client without hosts *)
Module NoHosts.
Definition silent : SyncNet LocalApp := {|
  net_peek _ _ := mret []; net_pull _ _ := mret []; net_push _ := mret []; net_nonce := mret (be_bytes 24 1);
|}.
#[export] Instance no_hosts : Transports LocalApp := {|
  tr_net _ _ := silent; tr_register _ _ := mret tt; tr_listen _ _ := mret tt;
  tr_connected _ _ := false; tr_close _ w := w; tr_cancel w := w;
|}.
Definition master : Enclave := mkEnclave (be_bytes 32 5).
Definition bare : Store := mkStore [] [] [] [] [] [].
Definition client : FC LocalApp := mkFC (Some (mkAccount [] master [] [])) [] [] (mkLocal (EntDBMemory.make [] true) [] 0).
End NoHosts.
Import Toy NoHosts WriterDemo.

Lemma bare_ok : store_ok bare.
Proof. split; done || apply map_wf_nil. Qed.

Definition linked : Store := (link (W := LocalApp) (mkHostInfo home 0 None) true (bare, client)).2.1.
Definition online : FC LocalApp := (link (W := LocalApp) (mkHostInfo home 0 None) true (bare, client)).2.2.

Lemma client_never_loses_witness :
  let m : CM (W := LocalApp) unit := doSync 100 100 in
  st_hosts (m (linked, online)).2.1 = st_hosts linked.
Proof.
  intros m. destruct (m (linked, online)) as [r [s' f']] eqn:E.
  destruct (client_never_loses 100 100 m [] defaultApply None None prior None false [] [] []
    (mkHostRow (mkHostInfo home 0 None) None) false false false [] linked online r s' f') as (_ & _ & _ & H).
  - left.
  - exact E.
  - exact H.
Defined.

Lemma setSeed_guards_label_witness :
  ∃ f1 : FC LocalApp, setSeed (be_bytes 32 8) master (Some (js " work ")) (bare, client) = (Ok tt, (bare, f1)) ∧
    setSeed [] (mkEnclave (be_bytes 32 6)) (Some (js "work")) (bare, f1) = (Err HashMismatch, (bare, f1)).
Proof.
  destruct (makeKeyTag (be_bytes 32 8) master) as [tag| |] eqn:Et; [|vm_compute in Et; discriminate Et..].
  destruct (setSeed_guards_label (be_bytes 32 8) master (Some (js " work ")) bare client tag eq_refl Et)
    as (f1 & H1 & _ & _ & H2).
  exists f1. split; [exact H1|].
  destruct (H2 f1 bare [] (mkEnclave (be_bytes 32 6)) (Some (js "work")) eq_refl eq_refl) as [_ H3].
  apply H3; vm_compute; discriminate.
Defined.

(** A link and a sync, then another master: the connection keeps its managers. *)
Lemma connections_belong_to_account_witness :
  let ms : list (CM (W := LocalApp) unit) := [link (mkHostInfo home 0 None) true; doSync 100 100] in
  let sf := calls_run ms (bare, client) in
  owned master sf.2 ∧ fc_conns sf.2 ≠ [] ∧ fc_conns (adopt (mkEnclave (be_bytes 32 6)) [] sf).2.2 = fc_conns sf.2.
Proof.
  intros ms sf. destruct sf as [s' f'] eqn:E.
  destruct (connections_belong_to_account 100 100 master ms bare client s' f') as (H & _ & H2).
  - by intros a [= <-].
  - by left.
  - repeat constructor; exists [], defaultApply, (mkHostRow (mkHostInfo home 0 None) None), false, true,
      (mkHostInfo home 0 None), home, (mkWipeOpts true true true true), (mkRecOpts None None), true, [].
    + do 6 right. left.
    + left.
  - exact E.
  - split; [exact H|]. split; [|apply (H2 [] (mkEnclave (be_bytes 32 6)) None [])].
    vm_compute in E. injection E as <- <-. discriminate.
Defined.
