(* ===== verification/Backup.v ===== *)
(** * Restoring an archive from a backup file

    What [import] leaves in the stores, and which messages [exportRealms] puts
    in the file. *)
From S2P Require Export FacadeFacts EximProps.
From S2P Require Import Js.

(** ** The parts of an export *)

Definition pairs_of (parts : list IExportRealm) : list (IKDM * IExportMsg) :=
  concat ((λ p, pair (xr_realm p) <$> xr_msgs p) <$> parts).

Lemma pairs_add realm msg parts :
  pairs_of (add_export realm msg parts) ≡ₚ pairs_of parts ++ [(realm, msg)].
Proof.
  unfold pairs_of. induction parts as [|p parts IH]; [done|]. cbn [add_export].
  destruct (kdmEq (xr_realm p) realm) eqn:E; cbn.
  - apply kdmEq_spec in E. subst realm. rewrite fmap_app, <-!(assoc_L app). f_equiv. apply Permutation_app_comm.
  - rewrite IH. by rewrite (assoc_L app).
Qed.

Definition export_pair (rows : list IRealm) (m : IStoredMessage) : IKDM * IExportMsg :=
  (realmKDM (sm_rlm m) rows, mkExMsg (sm_head m) (sm_body m)).

Lemma exportRealms_pairs stored rows : pairs_of (exportRealms stored rows) ≡ₚ export_pair rows <$> stored.
Proof.
  unfold exportRealms. cut (∀ parts, pairs_of (fold_left (λ parts m, add_export (realmKDM (sm_rlm m) rows)
    (mkExMsg (sm_head m) (sm_body m)) parts) stored parts) ≡ₚ pairs_of parts ++ (export_pair rows <$> stored)).
  { intros H. apply (H []). }
  induction stored as [|m stored IH]; intros parts; cbn [fold_left fmap list_fmap]; [by rewrite app_nil_r|].
  rewrite IH, pairs_add, <-(assoc_L app). done.
Qed.

(** ** What an import leaves *)
Section import.
Context {C : CryptoPrims}.

(** The archive key of a head that fits the wire format. *)
Definition hkey (h : IMessageHead) : bytes := blake3hash (head_wire h).

Lemma archiveKey_hkey h : head_ok h → archiveKey h = Ok (hkey h).
Proof.
  intros Hh. pose proof (lawful_enc (ok := head_ok) h Hh) as He. unfold archiveKey, hkey.
  apply encodes_run in He. unfold run_enc in He. unfold writeStruct. destruct (cEncode messageHeadCodec h newEncoder) as [[| |] e]; try done.
  by injection He as <-.
Qed.

Definition pair_key (x : IKDM * IExportMsg) : bytes := hkey (xm_head x.2).
Definition pair_data (x : IKDM * IExportMsg) : IStoredMessageData :=
  applied_row (omit_rlm (msg2StoredMsgData (mkParts (xm_head x.2) (xm_body x.2)) (Some x.1))).

(** The messages are in the archive, applied, and queued for every host. *)
Record restored (rows : list (IKDM * IExportMsg)) (s s' : Store) : Prop := {
  rs_rows : ∀ x, x ∈ rows → map_get (btob64 (pair_key x)) (st_messages s') = Some (pair_data x);
  rs_other : ∀ k, k ∉ btob64 ∘ pair_key <$> rows → map_get k (st_messages s') = map_get k (st_messages s);
  rs_uploads : ∀ label h, h ∈ upl_list label s' ↔ h ∈ upl_list label s ∨ (label ∈ st_hosts s ∧ h ∈ pair_key <$> rows);
  rs_hosts : st_hostRows s' = st_hostRows s;
  rs_ok : writer_ok s → writer_ok s';
}.

Lemma restored_nil s : restored [] s s.
Proof.
  split; try done; [by intros ? ?%not_elem_of_nil|]. intros label h. split; [by left|].
  by intros [?|[_ ?%not_elem_of_nil]].
Qed.

Lemma restored_app r1 r2 s s1 s2 :
  NoDup (pair_key <$> r1 ++ r2) → restored r1 s s1 → restored r2 s1 s2 → restored (r1 ++ r2) s s2.
Proof.
  intros Hn [A1 A2 A3 A4 A5] [B1 B2 B3 B4 B5]. rewrite fmap_app in Hn. apply NoDup_app in Hn as (_ & Hd & _).
  split; [| | |congruence|auto].
  - intros x [Hx|Hx]%elem_of_app; [|by apply B1]. rewrite B2; [by apply A1|].
    rewrite list_fmap_compose, (list_elem_of_fmap_inj btob64). apply Hd. by apply list_elem_of_fmap_2.
  - intros k Hk. rewrite fmap_app, not_elem_of_app in Hk. destruct Hk. by rewrite B2, A2.
  - intros label h. rewrite B3, A3, fmap_app, elem_of_app. unfold st_hosts. rewrite A4. tauto.
Qed.

Context {W : Type} {AC : ClientApp W} {TR : Transports W}.

(** An application that takes every message of a kind. *)
Context (I : W → Prop) (good : IMessage → Prop).
Context (Htakes : ∀ msgs w, I w → Forall good msgs → ∃ stats w', app_apply msgs w = (Ok stats, w') ∧ I w' ∧
  length stats = length msgs ∧ Forall (λ st, is_done st = true) stats).

Definition xmsg (m : IExportMsg) : IMessage := mkMsg (xm_head m) (xm_body m).
Definition importable (m : IExportMsg) : Prop := head_ok (xm_head m) ∧ good (xmsg m).

Lemma import_batch_restores realm batch s (f : FC W) :
  writer_ok s → I (fc_world f) → Forall importable batch → NoDup (pair_key <$> (pair realm <$> batch)) →
  ∃ s' w', import_batch realm batch (s, f) = (Ok tt, (s', upd_world (λ _, w') f)) ∧ I w' ∧
    restored (pair realm <$> batch) s s'.
Proof.
  intros Hok HI Hb Hn. set (parts := (λ m, mkParts (xm_head m) (xm_body m)) <$> batch).
  set (rows := (λ x, (pair_key x, msg2StoredMsgData (mkParts (xm_head x.2) (xm_body x.2)) (Some x.1))) <$> (pair realm <$> batch)).
  assert (Hr : storables parts (Some realm) = Ok rows).
  { unfold parts, rows. clear -Hb. induction Hb as [|m batch [Hm _] _ IH]; [done|].
    cbn [fmap list_fmap storables mp_head]. by rewrite (archiveKey_hkey _ Hm), bind_Ok, IH. }
  assert (Hkeys : rows.*1 = pair_key <$> (pair realm <$> batch)) by (unfold rows; by rewrite <-list_fmap_compose).
  assert (Hmsgs : msgsFromParts parts = xmsg <$> batch) by (unfold msgsFromParts, parts; by rewrite <-list_fmap_compose).
  destruct (Htakes (xmsg <$> batch) (fc_world f) HI) as (stats & w' & Ha & HI' & Hlen & Hdone).
  { apply Forall_fmap. eapply Forall_impl; [exact Hb|]. by intros m [_ ?]. }
  destruct (write_spec parts (mkApplyOpts true false (Some realm)) rows stats s f (upd_world (λ _, w') f) (upd_world (λ _, w') f) Hok)
    as (s' & Hw & [H1 H2 H3 H4 _ H6 _ H8]); [done|by rewrite Hkeys| |done|].
  { rewrite Hmsgs. unfold app_apply, fc_app, in_world. by rewrite Ha. }
  assert (Hst : ∀ i, (i < length batch)%nat → is_done (default None (stats !! i)) = true).
  { intros i Hi. rewrite <-(length_fmap xmsg batch), <-Hlen in Hi. apply lookup_lt_is_Some in Hi as [st Hst]. rewrite Hst.
    by eapply Forall_lookup in Hdone. }
  assert (Hnth : ∀ i x, (pair realm <$> batch) !! i = Some x → (i < length batch)%nat).
  { intros i x Hi%lookup_lt_Some. by rewrite length_fmap in Hi. }
  exists s', w'. split; [|split; [done|split]].
  - unfold import_batch. fold parts. by rewrite (ok_bind _ _ _ _ _ Hw).
  - intros x [i Hi]%list_elem_of_lookup_1. unfold pair_data.
    rewrite (H1 i (pair_key x) (msg2StoredMsgData (mkParts (xm_head x.2) (xm_body x.2)) (Some x.1))) by (unfold rows; by rewrite list_lookup_fmap, Hi).
    unfold settled. by rewrite Hst by by eapply Hnth.
  - intros k Hk. apply H2. by rewrite Hkeys, <-list_fmap_compose.
  - intros label h. rewrite H4, Hkeys. cbn. f_equiv. split; [intros (_ & ? & i & Hi & _)|intros (? & [i Hi]%list_elem_of_lookup_1)].
    + split; [done|]. by eapply list_elem_of_lookup_2.
    + split_and!; [done..|]. exists i. split; [done|]. apply Hst. apply lookup_lt_Some in Hi. by rewrite !length_fmap in Hi.
  - done.
  - done.
Qed.

(** A loop of imports, each of its own rows. *)
Lemma import_loop {A} (rows_of : A → list (IKDM * IExportMsg)) (body : A → CM (W := W) unit) l s (f : FC W) :
  (∀ x s f, x ∈ l → writer_ok s → I (fc_world f) → ∃ s' w',
     body x (s, f) = (Ok tt, (s', upd_world (λ _, w') f)) ∧ I w' ∧ restored (rows_of x) s s') →
  writer_ok s → I (fc_world f) → NoDup (pair_key <$> concat (rows_of <$> l)) →
  ∃ s' w', m_forM l body (s, f) = (Ok tt, (s', upd_world (λ _, w') f)) ∧ I w' ∧ restored (concat (rows_of <$> l)) s s'.
Proof.
  revert s f. induction l as [|x l IH]; intros s f Hb Hok HI Hn.
  { exists s, (fc_world f). split; [by destruct f|]. split; [done|apply restored_nil]. }
  cbn [fmap list_fmap concat] in *. destruct (Hb x s f ltac:(by left) Hok HI) as (s1 & w1 & Hr1 & HI1 & Hrs1).
  pose proof Hn as Hn'. rewrite fmap_app in Hn'. apply NoDup_app in Hn' as (_ & _ & Hn2).
  destruct (IH s1 (upd_world (λ _, w1) f)) as (s2 & w2 & Hr2 & HI2 & Hrs2); [|by eapply rs_ok|done..|].
  { intros y s' f' Hy. apply Hb. by right. }
  exists s2, w2. split; [|split; [done|by eapply restored_app]].
  cbn [m_forM]. by rewrite (ok_bind _ _ _ _ _ Hr1).
Qed.

Lemma import_part_restores part s (f : FC W) :
  writer_ok s → I (fc_world f) → Forall importable (xr_msgs part) → NoDup (pair_key <$> (pair (xr_realm part) <$> xr_msgs part)) →
  ∃ s' w', import_part part (s, f) = (Ok tt, (s', upd_world (λ _, w') f)) ∧ I w' ∧
    restored (pair (xr_realm part) <$> xr_msgs part) s s'.
Proof.
  intros Hok HI Hm Hn. unfold import_part.
  destruct (batches_cover (λ m, mh_len (xm_head m)) (length (xr_msgs part)) (xr_msgs part) (le_n _)) as [Hc _].
  set (bs := batches _ _ _) in *.
  assert (Hrows : concat ((λ b : list IExportMsg, pair (xr_realm part) <$> b) <$> bs) = pair (xr_realm part) <$> xr_msgs part).
  { rewrite <-Hc. clear. induction bs as [|b bs IH]; [done|]. cbn. by rewrite IH, fmap_app. }
  rewrite <-Hrows. apply import_loop; [|done|done|by rewrite Hrows].
  intros b s1 f1 Hb Hok1 HI1. apply import_batch_restores; [done|done| |].
  - rewrite <-Hc in Hm. apply Forall_concat in Hm. by eapply Forall_forall in Hm.
  - eapply (sublist_NoDup _ _ Hn). rewrite <-Hrows. apply fmap_sublist. clear -Hb.
    induction bs as [|b' bs IH]; [by apply not_elem_of_nil in Hb|]. cbn.
    apply elem_of_cons in Hb as [->|Hb]; [by apply sublist_inserts_r|]. apply sublist_inserts_l. by apply IH.
Qed.
End import.
