(* ===== verification/BackupProps.v ===== *)
(** * A backup restores the archive *)
From S2P Require Export Backup FacadeProps.
From S2P Require Import Js.

Section props.
Context {C : CryptoPrims} {L : CryptoLaws C} {BX : BoxLaw C} {W : Type} {AC : ClientApp W} {TR : Transports W}.

Lemma put_realms_run l s (f : FC W) : ∃ rs, m_forM l put_realm (s, f) = (Ok tt, (set_realms s rs, f)).
Proof.
  revert s. induction l as [|[label index] l IH]; intros s; [exists (st_realms s); by destruct s|].
  cbn [m_forM].
  assert (H : ∃ rs, put_realm (label, index) (s, f) = (Ok tt, (set_realms s rs, f))).
  { unfold put_realm, realms_put, advanceRealm. cbn [fst snd].
    assert (Hs : (Ok tt, (s, f)) = (Ok tt : Res unit, (set_realms s (st_realms s), f))) by by destruct s.
    destruct (negb _); [by eexists|]. destruct (map_get label (st_realms s)) as [p|]; [|by eexists].
    destruct (index <? rl_index p); [by eexists|]. destruct (rl_index p <? index); by eexists. }
  destruct H as (rs & H). rewrite (ok_bind _ _ _ _ _ H). destruct (IH (set_realms s rs)) as (rs' & H').
  exists rs'. rewrite H'. done.
Qed.

Lemma restored_realms rows s rs s' : restored rows (set_realms s rs) s' → restored rows s s'.
Proof.
  intros [H1 H2 H3 H4 H5]. split; try done. intros [? ? ? ? ?]. apply H5. by split.
Qed.

(** The realm label of a message survives the trip through a file. *)
Lemma realmKDM_label rlm rows : realmLabel (Some (kdm_label (realmKDM rlm rows))) = realmLabel rlm.
Proof.
  unfold realmKDM. destruct rlm as [[|c l]|]; try done.
  destruct (list_find _ rows) as [[i row]|] eqn:E; [|done].
  apply list_find_Some in E as (_ & E & _). cbn. by rewrite E.
Qed.

Lemma stored_norm s f m : archive_ok s → m ∈ msgs_list f s → head_norm (sm_head m) = sm_head m.
Proof. by intros Hs (h & d & -> & _)%elem_of_msgs_list. Qed.

Lemma part_in_pairs parts p x : p ∈ parts → x ∈ xr_msgs p → (xr_realm p, x) ∈ pairs_of parts.
Proof.
  intros Hp Hx. unfold pairs_of. apply list_elem_of_In, in_concat.
  eexists. split; [|apply list_elem_of_In, (list_elem_of_fmap_2 (pair (xr_realm p))), Hx].
  apply list_elem_of_In, list_elem_of_fmap. by exists p.
Qed.

Lemma exported_parts s rows :
  archive_ok s → exported_realm <$> exportRealms (msgs_list None s) rows = exportRealms (msgs_list None s) rows.
Proof.
  intros Hs. rewrite <-(list_fmap_id (exportRealms _ _)) at 2. apply list_fmap_ext. intros i p Hp.
  unfold exported_realm. destruct p as [realm msgs]. cbn. f_equal. rewrite <-(list_fmap_id msgs) at 2.
  apply list_fmap_ext. intros j m Hm%list_elem_of_lookup_2.
  pose proof (part_in_pairs _ (mkExRealm realm msgs) m (list_elem_of_lookup_2 _ _ _ Hp) Hm) as Hin.
  rewrite exportRealms_pairs in Hin. apply list_elem_of_fmap in Hin as (sm & [= _ ->] & Hsm).
  unfold exported, id. cbn. by rewrite (stored_norm s None sm Hs Hsm).
Qed.

(** A restored row reads back as the message it was exported from. *)
Lemma pair_data_reads s rows m :
  archive_ok s → m ∈ msgs_list None s →
  let m' := toStoredMessage (sm_hash m) (pair_data (export_pair rows m)) in
  sm_head m' = sm_head m ∧ sm_body m' = sm_body m ∧ sm_apld m' = APLD_APPLIED ∧ sm_rlm m' = sm_rlm m.
Proof.
  intros Hs (h & d & -> & _)%elem_of_msgs_list; [|done]. unfold pair_data, export_pair, applied_row, msg2StoredMsgData. cbn -[realmLabel omit_rlm].
  set (rl := realmLabel (Some (kdm_label (realmKDM (realmLabel (sd_rlm d)) rows)))).
  assert (Hrl : rl = realmLabel (realmLabel (sd_rlm d))) by apply realmKDM_label.
  assert (Hid : realmLabel (realmLabel (sd_rlm d)) = realmLabel (sd_rlm d)) by (by destruct (sd_rlm d) as [[|]|]).
  assert (Hne : rl ≠ Some []) by (rewrite Hrl, Hid; by destruct (sd_rlm d) as [[|]|]).
  assert (Hom : ∀ x, sd_rlm x = rl → omit_rlm x = x) by (intros x Hx; unfold omit_rlm; rewrite Hx; by destruct rl as [[|]|]).
  fold rl. rewrite Hom by done. cbn -[realmLabel]. split_and!; [|done|done|].
  2: { rewrite Hrl. by rewrite !Hid. }
  f_equal.
  - by destruct (sd_typ d) as [[|]|].
  - case_bool_decide as Ho; [done|]. done.
  - by destruct (Z.eqb_spec (default 0 (sd_ctr d)) 0).
Qed.

(** A file a client exported opens, with the same enclave, to its archive by realm. *)
Lemma export_opens e nonce nonces s (f : FC W) file :
  let parts := exportRealms (msgs_list None s) (realms_list s) in
  oa_enclave <$> fc_account f = Some e → (∀ k, length (nonces k) = 24%nat) → archive_ok s →
  Forall realm_ok parts → Z.of_nat (length parts) < 2 ^ 32 → exportBytes nonce nonces (s, f) = (Ok file, (s, f)) →
  ∃ key, exportNonce file = Ok nonce ∧ exportKey e nonce = Ok key ∧ decodeFile file key = Ok parts.
Proof.
  intros parts He Hn Hs Hparts Hlen Hex. assert (Hfile : ∃ key, exportKey e nonce = Ok key ∧ encodeFile nonces parts key nonce = Ok file).
  { unfold exportBytes, the_enclave in Hex. revert Hex. run. rewrite He. unfold rd. cbn. fold parts.
    unfold exportFile. intros [= Hex%res_bind_Ok_inv]. exact Hex. }
  destruct Hfile as (key & Hkey & Henc). exists key.
  destruct (export_roundtrip nonces parts key nonce file Hn Hparts Hlen Henc) as (Hno & Hde & _).
  unfold parts in Hde |- *. by rewrite exported_parts in Hde by done.
Qed.

(** Each exported message, with its realm, is one of the archive. *)
Lemma export_pairs_keys stored rows :
  Forall (λ m, hkey (sm_head m) = sm_hash m) stored → pair_key <$> (export_pair rows <$> stored) = sm_hash <$> stored.
Proof.
  intros Hst. rewrite <-list_fmap_compose. apply list_fmap_ext. intros i m Hm%list_elem_of_lookup_2.
  by apply (proj1 (Forall_forall _ _) Hst m Hm).
Qed.

Lemma part_pairs_once parts p : NoDup (pair_key <$> pairs_of parts) → p ∈ parts → NoDup (pair_key <$> (pair (xr_realm p) <$> xr_msgs p)).
Proof.
  intros Hnd Hp. eapply (sublist_NoDup _ _ Hnd). apply fmap_sublist. unfold pairs_of. clear -Hp.
  induction parts as [|p' parts IH]; [by apply not_elem_of_nil in Hp|]. cbn.
  apply elem_of_cons in Hp as [->|Hp]; [by apply sublist_inserts_r|]. apply sublist_inserts_l. by apply IH.
Qed.

Lemma pull_after_put (b : bool) s (f : FC W) :
  ∃ f', (if b then pullRealms else mret tt) (s, f) = (Ok tt, (s, f')) ∧ fc_world f' = fc_world f.
Proof.
  destruct b; [|by exists f]. unfold pullRealms. run. destruct (fc_account f) as [a|]; [|by exists f].
  unfold rd. eexists. split; [reflexivity|done].
Qed.

Context (I : W → Prop) (good : IMessage → Prop).
Context (Htakes : ∀ msgs w, I w → Forall good msgs → ∃ stats w', app_apply msgs w = (Ok stats, w') ∧ I w' ∧
  length stats = length msgs ∧ Forall (λ st, is_done st = true) stats).
Context (Hsched : ∀ w, I w → ∃ w', app_schedule w = (Ok tt, w')).

(** [C26] A backup restores the archive.  A client exports its archive; another
    client of the same master, whose application takes the messages, imports
    the file.  The import succeeds: every message of the first archive is in the
    second under the same hash, with the same head, body and realm, marked
    applied and queued for each of its hosts, and no other row of the second
    archive has changed. *)
Theorem backup_restores e nonce nonces sA (fA : FC W) file sB (fB : FC W) :
  oa_enclave <$> fc_account fA = Some e → oa_enclave <$> fc_account fB = Some e →
  (∀ k, length (nonces k) = 24%nat) → archive_ok sA →
  let stored := msgs_list None sA in
  let parts := exportRealms stored (realms_list sA) in
  Forall (λ m, hkey (sm_head m) = sm_hash m ∧ good (stored_msg m)) stored →
  Forall realm_ok parts → Z.of_nat (length parts) < 2 ^ 32 →
  exportBytes nonce nonces (sA, fA) = (Ok file, (sA, fA)) →
  writer_ok sB → I (fc_world fB) →
  ∃ sB' fB', import file (sB, fB) = (Ok tt, (sB', fB')) ∧
    (∀ m, m ∈ stored → ∃ d, map_get (btob64 (sm_hash m)) (st_messages sB') = Some d ∧
       let m' := toStoredMessage (sm_hash m) d in
       sm_head m' = sm_head m ∧ sm_body m' = sm_body m ∧ sm_apld m' = APLD_APPLIED ∧ sm_rlm m' = sm_rlm m) ∧
    (∀ h, h ∉ sm_hash <$> stored → map_get (btob64 h) (st_messages sB') = map_get (btob64 h) (st_messages sB)) ∧
    (∀ label h, h ∈ upl_list label sB' ↔ h ∈ upl_list label sB ∨ (label ∈ st_hosts sB ∧ h ∈ sm_hash <$> stored)).
Proof.
  intros HeA HeB Hn HsA stored parts Hst Hparts Hlen Hex HokB HIB.
  destruct (export_opens e nonce nonces sA fA file HeA Hn HsA Hparts Hlen Hex) as (key & Hno & Hkey & Hde). fold stored parts in Hde.
  pose proof (exportRealms_pairs stored (realms_list sA)) as Hpairs. fold parts in Hpairs.
  assert (Hpk := export_pairs_keys stored (realms_list sA) (Forall_impl _ _ _ Hst (λ m, @proj1 _ _))).
  assert (Hnd : NoDup (pair_key <$> pairs_of parts)) by (rewrite Hpairs, Hpk; by apply msgs_list_NoDup).
  assert (Himp : ∀ p, p ∈ parts → Forall (importable good) (xr_msgs p)).
  { intros p Hp. apply Forall_forall. intros x Hx. pose proof (proj1 (Forall_forall _ _) Hparts p Hp) as (_ & Hexp & _).
    split; [by apply (proj1 (Forall_forall _ _) Hexp x Hx)|]. pose proof (part_in_pairs parts p x Hp Hx) as Hin.
    rewrite Hpairs in Hin. apply list_elem_of_fmap in Hin as (m & [= _ ->] & Hm). by apply (proj1 (Forall_forall _ _) Hst m Hm). }
  set (maxIndex := fold_left note_index parts []).
  destruct (put_realms_run maxIndex sB fB) as (rs & Hput). set (s1 := set_realms sB rs) in *.
  destruct (pull_after_put (0 <? Z.of_nat (length maxIndex)) s1 fB) as (f1 & Hpull & Hw1).
  destruct (import_loop I (λ p, pair (xr_realm p) <$> xr_msgs p) import_part parts s1 f1) as (s2 & w2 & Hrun & HI2 & Hrs);
    [|by destruct HokB; split|by rewrite Hw1|exact Hnd|].
  { intros p s f Hp Hok HI. apply (import_part_restores I good Htakes); [done|done|by apply Himp|by eapply part_pairs_once]. }
  apply restored_realms in Hrs. fold (pairs_of parts) in Hrs.
  destruct (Hsched w2 HI2) as (w3 & Hs3).
  exists s2, (upd_world (λ _, w3) (upd_world (λ _, w2) f1)). destruct Hrs as [R1 R2 R3 _ _]. split_and!.
  - assert (Hen : the_enclave (sB, fB) = (Ok (Some e), (sB, fB))) by (unfold the_enclave, ask; by rewrite HeB).
    unfold import. rewrite (ok_bind _ _ _ _ _ Hen), lift_bind, Hno, lift_bind, Hkey, lift_bind, Hde.
    fold maxIndex. rewrite (ok_bind _ _ _ _ _ Hput), (ok_bind _ _ _ _ _ Hpull), (ok_bind _ _ _ _ _ Hrun).
    unfold on_net, app_schedule, fc_app, in_world. cbn. by rewrite Hs3.
  - intros m Hm. exists (pair_data (export_pair (realms_list sA) m)).
    assert (Hmk : pair_key (export_pair (realms_list sA) m) = sm_hash m) by by apply (proj1 (Forall_forall _ _) Hst m Hm).
    split; [rewrite <-Hmk; apply R1; rewrite Hpairs; by apply list_elem_of_fmap_2|]. by apply (pair_data_reads sA).
  - intros h Hh. apply R2. rewrite list_fmap_compose, (list_elem_of_fmap_inj btob64), Hpairs, Hpk. done.
  - intros label h. rewrite R3, Hpairs, Hpk. done.
Qed.
End props.

(** ** The in-memory client takes every message that parses to a dated op *)
Section local.
Context {C : CryptoPrims}.

Definition op_message (msg : IMessage) : Prop := ∃ op, msgToOp msg = Ok op ∧ op_ok op.

Lemma local_takes msgs (a : LocalApp) :
  Forall op_message msgs → ∃ stats a', app_apply msgs a = (Ok stats, a') ∧ True ∧
    length stats = length msgs ∧ Forall (λ st, is_done st = true) stats.
Proof.
  intros Hm. assert (H : ∃ ops, Forall2 (λ msg op, msgToOp msg = Ok op) msgs ops ∧ Forall op_ok ops).
  { induction Hm as [|m msgs (op & Ho & Hok) _ (ops & IH1 & IH2)]; [by exists []|]. exists (op :: ops). by split; constructor. }
  destruct H as (ops & Hops & Hok). pose proof (app_apply_local msgs ops a Hops) as Ha.
  eexists _, _. split; [exact Ha|]. split; [done|]. split.
  - by rewrite length_fmap, op_stats_length, (Forall2_length _ _ _ Hops).
  - apply Forall_fmap. eapply Forall_impl; [by apply op_stats_done|done].
Qed.
End local.

(** ** Witness: one note, backed up and restored *)
Module BackupDemo.
Import Box NoHosts.

Definition e0 : Enclave := master.
Definition body1 : bytes := ent_wire (mkEnt None None (Some [x2a])).
Definition head1 : IMessageHead := mkHead (Some (js "note")) eid0 (Some 0) 0 (blen body1) (Some (blake3hash body1)).
Definition key1 : bytes := hkey head1.

Definition sA : Store := msgs_add [(key1, msg2StoredMsgData (mkParts head1 (Some body1)) None)] bare.
Definition file1 : bytes := default [] (match exportBytes nonce0 draws (sA, client) with (Ok f, _) => Some f | _ => None end).

Lemma file1_exported : exportBytes nonce0 draws (sA, client) = (Ok file1, (sA, client)).
Proof. vm_compute. reflexivity. Qed.

Lemma sA_ok : archive_ok sA.
Proof. split; [apply NoDup_singleton|]. intros k ->%list_elem_of_singleton. exists key1. split; [done|]. by vm_compute. Qed.

Lemma stored_ok : Forall (λ m, hkey (sm_head m) = sm_hash m ∧ op_message (stored_msg m)) (msgs_list None sA).
Proof.
  constructor; [|constructor]. split; [vm_compute; reflexivity|].
  eexists. split; [vm_compute; reflexivity|]. apply (bool_decide_unpack _). vm_compute. exact I.
Qed.

Lemma parts_eq : exportRealms (msgs_list None sA) (realms_list sA) = [mkExRealm nullKDM [mkExMsg head1 (Some body1)]].
Proof. vm_compute. reflexivity. Qed.

Lemma part_ok : realm_ok (mkExRealm nullKDM [mkExMsg head1 (Some body1)]).
Proof.
  split_and!; [by apply (bool_decide_unpack _)| |vm_compute; reflexivity]. constructor; [|constructor]. split.
  - split_and!; [by apply (bool_decide_unpack _)|by vm_compute|by vm_compute|by exists 0; split; [|apply varnum_ok_len]|..];
      [by apply varnum_ok_len..|by exists (blake3hash body1)].
  - vm_compute. split_and!; reflexivity.
Qed.
Lemma empty_writer : writer_ok bare.
Proof. split; try (by constructor); try (by intros ?). intros label row []%not_elem_of_nil. Qed.

Lemma backup_restores_witness :
  ∃ sB fB d, import file1 (bare, client) = (Ok tt, (sB, fB)) ∧
    map_get (btob64 key1) (st_messages sB) = Some d ∧ sm_head (toStoredMessage key1 d) = head1.
Proof.
  destruct (backup_restores (λ _, True) op_message (λ msgs a _, local_takes msgs a) (λ a _, ex_intro _ _ eq_refl)
    e0 nonce0 draws sA client file1 bare client eq_refl eq_refl draws_len sA_ok stored_ok)
    as (sB & fB & H1 & H2 & _).
  - rewrite parts_eq. constructor; [exact part_ok|constructor].
  - rewrite parts_eq. vm_compute. reflexivity.
  - exact file1_exported.
  - exact empty_writer.
  - exact I.
  - destruct (H2 (toStoredMessage key1 (msg2StoredMsgData (mkParts head1 (Some body1)) None))) as (d & Hd & Hh & _).
    { apply list_elem_of_singleton. reflexivity. }
    exists sB, fB, d. split; [exact H1|]. split; [exact Hd|]. etransitivity; [exact Hh|reflexivity].
Defined.
End BackupDemo.
