(* ===== verification/Cached.v ===== *)
(** * The cached entity database ([web/src/entdb/cached.ts])

    [CachedEntDB] keeps an [EntDBMemory] in front of a durable database.  Calls
    and the turns of their continuations are events; a read of the durable
    database is answered in one event and merged into memory in a later one, so
    that any of the others can come in between.  Writes by another thread to
    the durable database are an event of their own.  Trace output is left out. *)
From S2P Require Export EntMemFacts.
Import EntDBMemory.

(** What the cache asks of [IEntDB]; [du_row] is its contents by key. *)
Class Durable (D : Type) := {
  du_row : D → jsstr → option IEntRow;
  du_apply : D → list IOp → D * Res applied;
  du_getRow : D → bytes → Res (option IEntRow);
  du_getEntities : D → jsstr → Res (list IEntity);
  du_clear : D → D * Status;
}.

(** ** Rows *)

Definition rowWins (a b : IEntRow) : bool :=
  let ta := getTime (row_updatedAt a) in
  let tb := getTime (row_updatedAt b) in
  if negb (feq ta tb) then flt tb ta else row_ctr b <? row_ctr a.

Record RowStamp := mkStamp { rs_t : num; rs_ctr : Z }.

Definition rowStamp (row : option IEntRow) : option RowStamp :=
  match row with None => None | Some row => Some (mkStamp (getTime (row_updatedAt row)) (row_ctr row)) end.

Definition stampEq (a b : option RowStamp) : bool :=
  match a, b with
  | Some a, Some b => feq (rs_t a) (rs_t b) && (rs_ctr a =? rs_ctr b)
  | None, None => true
  | _, _ => false
  end.

Definition sameTags (a b : option (list jsstr)) : bool :=
  match a, b with
  | None, None => true
  | Some a, Some b => Nat.eqb (length a) (length b) && bool_decide (a = b)
  | _, _ => false
  end.

Definition optBytesEqual (a b : option bytes) : bool :=
  match a, b with
  | None, None => true
  | Some a, Some b => bytesEqual a b
  | _, _ => false
  end.

(** [sameBody]: bodies are bytes or absent. *)
Definition sameBody (a b : option bytes) : bool := optBytesEqual a b.

Definition sameRow (a b : IEntRow) : bool :=
  if negb (Bool.eqb (isLiveEnt a) (isLiveEnt b)) then false
  else if negb (row_ctr a =? row_ctr b) then false
  else if negb (feq (getTime (row_updatedAt a)) (getTime (row_updatedAt b))) then false
  else if negb (bytesEqual (row_eid a) (row_eid b)) then false
  else match a, b with
  | Live a, Live b =>
      if negb (feq (getTime (e_createdAt a)) (getTime (e_createdAt b))) then false
      else if negb (bool_decide (e_type a = e_type b)) then false
      else if negb (optBytesEqual (e_pid a) (e_pid b)) then false
      else if negb (sameTags (e_tags a) (e_tags b)) then false
      else sameBody (e_body a) (e_body b)
  | _, _ => true
  end.

(** [applyOps]: the rows and the changed types; the statuses are not used. *)
Fixpoint applyOps (mem : db) (types : list jsstr) (ops : list IOp) : db * list jsstr :=
  match ops with
  | [] => (mem, types)
  | op :: ops =>
      let curr := map_get (op_key op) (ents mem) in
      match applyOp curr op with
      | Ok next => applyOps (put mem next) (fold_left (λ ts t, set_add t ts) (typesChanged curr next) types) ops
      | _ => applyOps mem types ops
      end
  end.

(** ** State *)

Definition Snap := jsmap jsstr (option RowStamp).

(** Work given to [run] that has not started. *)
Inductive Job := JPersist (ops : list IOp) (snap : option Snap) | JIngest (eids : list bytes) | JClear.

(** What the job that runs does when its pulls are done. *)
Inductive Fin :=
  | FinPersist (ops : list IOp) (res : Res applied)
  | FinIngest
  | FinClear (st : Status).

(** The job that runs, between its turns: ids to pull, keys seen, changed
    types, and the answer to the read it waits for. *)
Record Pull := mkPull {
  pl_todo : list bytes; pl_seen : list jsstr; pl_snap : option Snap; pl_changed : list jsstr;
  pl_read : option (Res (option IEntRow)); pl_fin : Fin;
}.

(** The write chain; [inflight] counts persists, [settled] keeps the outcome of
    every job done. *)
Record Chain := mkChain {
  ch_queue : list Job; ch_run : option Pull; ch_inflight : Z; ch_settled : list (Res (list Status));
}.

(** Reads off the chain: warm types; for each type being warmed, what the
    durable database answered and how many callers are to be notified; the
    [getRow] calls that wait to merge. *)
Record Reads := mkReads {
  rd_warmed : list jsstr; rd_warmP : jsmap jsstr (Res (list IEntity) * nat);
  rd_gets : list (bytes * Res (option IEntRow));
}.

(** Types to emit after the next paint, and those emitted. *)
Record Emits := mkEmits { em_paint : list (list jsstr); em_out : list (list jsstr) }.

Record Cache (D : Type) := mkCache {
  c_mem : db; c_durable : D; c_optimistic : bool; c_chain : Chain; c_reads : Reads; c_emits : Emits;
}.
Arguments mkCache {D}.
Arguments c_mem {D}.
Arguments c_durable {D}.
Arguments c_optimistic {D}.
Arguments c_chain {D}.
Arguments c_reads {D}.
Arguments c_emits {D}.

Definition emit_types (types : list jsstr) (e : Emits) : Emits :=
  if Nat.ltb (length types) 1 then e else mkEmits (em_paint e) (em_out e ++ [types]).

(** [rejected]: the ids whose op the durable database did not take. *)
Fixpoint rejected (ops : list IOp) (sts : list Status) : list bytes :=
  match ops with
  | [] => []
  | op :: ops =>
      if bool_decide (head sts = Some Success) then rejected ops (tail sts)
      else op_eid (op_head op) :: rejected ops (tail sts)
  end.

(** The loop body of [pullEids] once the row is read: memory, changed types. *)
Definition merge_row (mem : db) (snap : option Snap) (changed : list jsstr) (key : jsstr) (row : option IEntRow)
    : db * list jsstr :=
  let curr := map_get key (ents mem) in
  if match curr, row with Some curr, Some row => rowWins curr row | _, _ => false end then (mem, changed)
  else if match snap with
          | Some snap => negb (stampEq (rowStamp curr) (default None (map_get key snap)))
          | None => false
          end then (mem, changed)
  else match row with
  | Some row =>
      (put mem row,
       if match curr with Some curr => sameRow curr row | None => false end then changed
       else
         let changed := match row with Live e => set_add (e_type e) changed | Tomb _ => changed end in
         match curr with Some (Live e) => set_add (e_type e) changed | _ => changed end)
  | None =>
      match curr with
      | Some curr => (del mem key, match curr with Live e => set_add (e_type e) changed | Tomb _ => changed end)
      | None => (mem, changed)
      end
  end.

(** A row loaded by [warmType] or [getRow]. *)
Definition merge_newer (mem : db) (row : IEntRow) : db :=
  match map_get (btob64 (row_eid row)) (ents mem) with
  | Some curr => if rowWins row curr then put mem row else mem
  | None => put mem row
  end.

(** The stamps of the ops' rows right after they were applied. *)
Definition snapshot (mem : db) (ops : list IOp) : Snap :=
  fold_left (λ snap op, map_set (op_key op) (rowStamp (map_get (op_key op) (ents mem))) snap) ops [].

Section cached.
Context {D : Type} {DU : Durable D}.

Definition openCache (durable : D) (init : list IEntity) (indexes optimistic : bool) : Cache D :=
  mkCache (make init indexes) durable optimistic (mkChain [] None 0 [])
    (mkReads (fold_left (λ w e, set_add (e_type e) w) init []) [] []) (mkEmits [] []).

Definition with_chain (ch : Chain) (c : Cache D) : Cache D :=
  mkCache (c_mem c) (c_durable c) (c_optimistic c) ch (c_reads c) (c_emits c).
Definition with_run (mem : db) (run : option Pull) (c : Cache D) : Cache D :=
  let ch := c_chain c in
  mkCache mem (c_durable c) (c_optimistic c) (mkChain (ch_queue ch) run (ch_inflight ch) (ch_settled ch))
    (c_reads c) (c_emits c).
Definition with_reads (mem : db) (rd : Reads) (c : Cache D) : Cache D :=
  mkCache mem (c_durable c) (c_optimistic c) (c_chain c) rd (c_emits c).
Definition with_emits (em : Emits) (c : Cache D) : Cache D :=
  mkCache (c_mem c) (c_durable c) (c_optimistic c) (c_chain c) (c_reads c) em.

(** [run]: a job goes to the end of the chain. *)
Definition enqueue (job : Job) (c : Cache D) : Cache D :=
  let ch := c_chain c in
  with_chain (mkChain (ch_queue ch ++ [job]) (ch_run ch) (ch_inflight ch) (ch_settled ch)) c.

(** [apply]: memory first, then the job, then the paint. *)
Definition cache_apply (ops : list IOp) (c : Cache D) : Cache D :=
  if c_optimistic c then
    let '(mem, types) := applyOps (c_mem c) [] ops in
    let ch := c_chain c in
    enqueue (JPersist ops (Some (snapshot mem ops)))
      (mkCache mem (c_durable c) (c_optimistic c)
        (mkChain (ch_queue ch) (ch_run ch) (ch_inflight ch + 1) (ch_settled ch)) (c_reads c)
        (mkEmits (em_paint (c_emits c) ++ [types]) (em_out (c_emits c))))
  else enqueue (JPersist ops None) c.

Definition ingestFromDurable (eids : list bytes) (c : Cache D) : Cache D := enqueue (JIngest eids) c.
Definition cache_clear (c : Cache D) : Cache D := enqueue JClear c.

(** The end of the job that runs: its outcome, what it emits, and the
    [finally] of a persist. *)
Definition settle_job (changed : list jsstr) (out : Res (list Status)) (p : Pull) (c : Cache D) : Cache D :=
  let ch := c_chain c in
  let persist := match pl_fin p with FinPersist _ _ => true | _ => false end in
  mkCache (c_mem c) (c_durable c) (c_optimistic c)
    (mkChain (ch_queue ch) None (if persist && c_optimistic c then ch_inflight ch - 1 else ch_inflight ch)
       (ch_settled ch ++ [out]))
    (c_reads c) (emit_types changed (c_emits c)).

(** The first turn of a job, up to its first [await] on the durable database
    or past it. *)
Definition start_job (c : Cache D) : Cache D :=
  let ch := c_chain c in
  match ch_run ch, ch_queue ch with
  | None, job :: queue =>
      let c1 (d : D) (p : Pull) :=
        mkCache (c_mem c) d (c_optimistic c) (mkChain queue (Some p) (ch_inflight ch) (ch_settled ch))
          (c_reads c) (c_emits c) in
      match job with
      | JPersist ops snap =>
          let '(d, res) := du_apply (c_durable c) ops in
          let pull := match res with
                      | Ok res => if c_optimistic c then rejected ops (stats res) else op_eid ∘ op_head <$> ops
                      | _ => []
                      end in
          c1 d (mkPull pull [] snap [] None (FinPersist ops res))
      | JIngest eids => c1 (c_durable c) (mkPull eids [] None [] None FinIngest)
      | JClear =>
          let '(d, st) := du_clear (c_durable c) in c1 d (mkPull [] [] None [] None (FinClear st))
      end
  | _, _ => c
  end.

(** What follows [pullEids], which ended with [status]. *)
Definition finish_job (p : Pull) (status : Status) (c : Cache D) : Cache D :=
  match pl_fin p with
  | FinPersist ops (Ok res) =>
      settle_job (pl_changed p) (Ok (if bool_decide (status = Success) then stats res else (λ _, status) <$> ops)) p c
  | FinPersist ops _ => settle_job [] Throw p c
  | FinIngest => settle_job (pl_changed p) (Ok [status]) p c
  | FinClear st =>
      settle_job [] (Ok [st]) p
        (if bool_decide (st = Success) then
           with_reads (EntDBMemory.clear (c_mem c)) (mkReads [] (rd_warmP (c_reads c)) (rd_gets (c_reads c))) c
         else c)
  end.

(** A turn of the job that runs: skip an id already seen, ask for the next row,
    merge the row read, or end. *)
Definition run_turn (c : Cache D) : Cache D :=
  match ch_run (c_chain c) with
  | None => c
  | Some p =>
      match pl_todo p with
      | [] => finish_job p Success c
      | eid :: todo =>
          let key := btob64 eid in
          if set_has key (pl_seen p) then
            with_run (c_mem c) (Some (mkPull todo (pl_seen p) (pl_snap p) (pl_changed p) None (pl_fin p))) c
          else match pl_read p with
          | None =>
              with_run (c_mem c) (Some (mkPull (eid :: todo) (pl_seen p) (pl_snap p) (pl_changed p)
                (Some (du_getRow (c_durable c) eid)) (pl_fin p))) c
          | Some (Ok row) =>
              let '(mem, changed) := merge_row (c_mem c) (pl_snap p) (pl_changed p) key row in
              with_run mem (Some (mkPull todo (set_add key (pl_seen p)) (pl_snap p) changed None (pl_fin p))) c
          | Some (Err st) => finish_job p st c
          | Some Throw => settle_job [] Throw p c
          end
      end
  end.

(** [beginWarm] up to the answer of the durable database. *)
Definition beginWarm (type : jsstr) (c : Cache D) : Cache D :=
  let rd := c_reads c in
  if set_has type (rd_warmed rd) || map_has type (rd_warmP rd) then c
  else with_reads (c_mem c)
    (mkReads (rd_warmed rd) (map_set type (du_getEntities (c_durable c) type, 0%nat) (rd_warmP rd)) (rd_gets rd)) c.

(** [ensureWarm]: the same, and a notification when the rows are in. *)
Definition ensureWarm (type : jsstr) (c : Cache D) : Cache D :=
  if set_has type (rd_warmed (c_reads c)) then c
  else
    let c := beginWarm type c in
    let rd := c_reads c in
    match map_get type (rd_warmP rd) with
    | Some (r, n) =>
        with_reads (c_mem c) (mkReads (rd_warmed rd) (map_set type (r, S n) (rd_warmP rd)) (rd_gets rd)) c
    | None => c
    end.

(** The rest of [warmType], then of its callers. *)
Definition endWarm (type : jsstr) (c : Cache D) : Cache D :=
  let rd := c_reads c in
  match map_get type (rd_warmP rd) with
  | None => c
  | Some (Ok es, n) =>
      with_emits (Nat.iter n (emit_types [type]) (c_emits c))
        (with_reads (fold_left (λ mem e, merge_newer mem (Live e)) es (c_mem c))
          (mkReads (set_add type (rd_warmed rd)) (map_delete type (rd_warmP rd)) (rd_gets rd)) c)
  | Some _ => with_reads (c_mem c) (mkReads (rd_warmed rd) (map_delete type (rd_warmP rd)) (rd_gets rd)) c
  end.

(** [getRow] where memory lacks the row: the read, then the merge. *)
Definition beginGet (eid : bytes) (c : Cache D) : Cache D :=
  let rd := c_reads c in
  if map_has (btob64 eid) (ents (c_mem c)) then c
  else with_reads (c_mem c)
    (mkReads (rd_warmed rd) (rd_warmP rd) (rd_gets rd ++ [(eid, du_getRow (c_durable c) eid)])) c.

Definition endGet (i : nat) (c : Cache D) : Cache D :=
  let rd := c_reads c in
  match rd_gets rd !! i with
  | None => c
  | Some (_, r) =>
      with_reads (match r with Ok (Some row) => merge_newer (c_mem c) row | _ => c_mem c end)
        (mkReads (rd_warmed rd) (rd_warmP rd) (list_delete i (rd_gets rd))) c
  end.

(** The front half of [getEntities] and [countEntities]: [true] when memory
    answers now, [false] when the call waits for [endWarm]. *)
Definition list_front (type : jsstr) (c : Cache D) : Cache D * bool :=
  if set_has type (rd_warmed (c_reads c)) then (c, true)
  else if 0 <? ch_inflight (c_chain c) then (ensureWarm type c, true)
  else (beginWarm type c, false).

Definition query_type (q : EntitiesQuery) : jsstr :=
  match q with QType t | QPid t _ | QTag t _ | QDate t _ => t end.

Definition cache_getEntities (query : EntitiesQuery) (c : Cache D) : Cache D * option (Res (list IEntity)) :=
  let '(c, now) := list_front (query_type query) c in
  (c, if now then Some (EntDBMemory.getEntities (c_mem c) query) else None).

Definition cache_countEntities (type : jsstr) (c : Cache D) : Cache D * option Z :=
  let '(c, now) := list_front type c in (c, if now then Some (EntDBMemory.countEntities (c_mem c) type) else None).

Definition paint (c : Cache D) : Cache D :=
  with_emits (mkEmits [] (em_out (fold_left (λ em ts, emit_types ts em) (em_paint (c_emits c)) (c_emits c)))) c.

Inductive Event :=
  | EApply (ops : list IOp) | EIngest (eids : list bytes) | EClear | EStart | ETurn | EPaint
  | EList (type : jsstr) | EWarmed (type : jsstr) | EGet (eid : bytes) | EGot (i : nat)
  | EWorker (ops : list IOp).                     (* another thread's commit *)

Definition cache_step (ev : Event) (c : Cache D) : Cache D :=
  match ev with
  | EApply ops => cache_apply ops c
  | EIngest eids => ingestFromDurable eids c
  | EClear => cache_clear c
  | EStart => start_job c
  | ETurn => run_turn c
  | EPaint => paint c
  | EList type => (list_front type c).1
  | EWarmed type => endWarm type c
  | EGet eid => beginGet eid c
  | EGot i => endGet i c
  | EWorker ops =>
      mkCache (c_mem c) (du_apply (c_durable c) ops).1 (c_optimistic c) (c_chain c) (c_reads c) (c_emits c)
  end.
End cached.

(** The in-memory database as a durable one. *)
#[export] Instance mem_durable : Durable db := {|
  du_row d k := map_get k (ents d);
  du_apply := EntDBMemory.apply;
  du_getRow d eid := Ok (getRow d eid);
  du_getEntities d t := EntDBMemory.getEntities d (QType t);
  du_clear d := (EntDBMemory.clear d, Success);
|}.
