(* ===== verification/CachedFacts.v ===== *)
(** * Rows of the cached entity database

    Where no two writes of an entity share a time, a row is known by its time.
    [tm] orders the states of a row, with the absent row least; every way the
    cache changes a row is then a maximum. *)
From S2P Require Export Cached.
Import EntDBMemory.

Definition bot : Z := - maxDate - 1.

Definition tm (o : option IEntRow) : Z :=
  match o with Some r => default bot (row_updatedAt r) | None => bot end.

Lemma op_ms_bot op : op_ok op → bot < op_ms op.
Proof.
  intros [[d t] H]. unfold op_ms. rewrite H. unfold op_stamp in H.
  destruct (run_dec _ _) as [e| |]; [|done..]. unfold op_time in H.
  destruct (mkDate _) as [z|] eqn:E; [|done]. cbn in H. injection H as _ <-.
  unfold mkDate in E. destruct (fadd _ _) as [x|]; [|done]. cbn in E.
  destruct (Z.leb_spec (Z.abs x) maxDate); [|done]. injection E as <-.
  unfold bot. lia.
Qed.

(** ** Rows by key *)

Lemma put_row d r k :
  stored r = r → map_get k (ents (put d r)) = if decide (k = btob64 (row_eid r)) then Some r else map_get k (ents d).
Proof. intros Hs. rewrite put_ents, Hs, map_get_set. done. Qed.

Lemma del_row d k k' :
  map_wf (ents d) → map_get k' (ents (del d k)) = if decide (k' = k) then None else map_get k' (ents d).
Proof.
  intros Hw. unfold del. destruct (map_get k (ents d)) as [r|] eqn:E.
  - transitivity (map_get k' (map_delete k (ents d))); [by destruct r; cbn; rewrite ?unindex_ents|].
    by apply map_get_delete.
  - case_decide; [by subst|done].
Qed.

(** ** Ops on memory *)

Lemma applyOps_row mem ts ops k : map_get k (ents (applyOps mem ts ops).1) = fold_left step_row (ops_at k ops) (map_get k (ents mem)).
Proof.
  revert mem ts. induction ops as [|op ops IH]; intros mem ts; [done|]. cbn [applyOps].
  unfold ops_at. rewrite filter_cons. fold (ops_at k ops).
  destruct (applyOp (map_get (op_key op) (ents mem)) op) as [next|s|] eqn:E.
  - rewrite IH, put_row, (applyOp_eid _ _ _ E) by (by eapply applyOp_stored). fold (op_key op).
    destruct (decide (op_key op = k)) as [<-|Hne].
    + rewrite decide_True by done. cbn [fold_left]. unfold step_row at 3. by rewrite E.
    + by rewrite decide_False by congruence.
  - rewrite IH. case_decide as Hk; [|done]. subst. cbn [fold_left]. unfold step_row at 3. by rewrite E.
  - by apply applyOp_no_throw in E.
Qed.

Lemma applyOps_inv mem ts ops : inv mem → inv (applyOps mem ts ops).1.
Proof.
  revert mem ts. induction ops as [|op ops IH]; intros mem ts H; [done|]. cbn [applyOps].
  case_match; apply IH; by try apply put_inv.
Qed.

Lemma snapshot_get mem ops op :
  op ∈ ops → map_get (op_key op) (snapshot mem ops) = Some (rowStamp (map_get (op_key op) (ents mem))).
Proof.
  unfold snapshot. generalize ([] : Snap). induction ops as [|x ops IH] using rev_ind; intros s Hin; [set_solver|].
  rewrite fold_left_app. cbn [fold_left]. rewrite map_get_set. case_decide as Hk; [by rewrite Hk|].
  apply IH. apply elem_of_app in Hin as [?|Hin]; [done|]. by apply list_elem_of_singleton in Hin as ->.
Qed.

(** Rows after a sequence of ops, and what each op reports. *)
Fixpoint row_stats (rows : jsstr → option IEntRow) (ops : list IOp) : list Status :=
  match ops with
  | [] => []
  | op :: ops =>
      match applyOp (rows (op_key op)) op with
      | Ok next => Success :: row_stats (λ k, if decide (k = op_key op) then Some next else rows k) ops
      | Err s => s :: row_stats rows ops
      | Throw => []
      end
  end.

Lemma row_stats_ext rows rows' ops : (∀ k, rows k = rows' k) → row_stats rows ops = row_stats rows' ops.
Proof.
  revert rows rows'. induction ops as [|op ops IH]; intros rows rows' H; [done|]. cbn [row_stats].
  rewrite H. destruct (applyOp _ op); [|f_equal; auto|done]. f_equal. apply IH. intros k. by case_decide.
Qed.

Lemma op_stats_rows d ops : op_stats d ops = row_stats (λ k, map_get k (ents d)) ops.
Proof.
  revert d. induction ops as [|op ops IH]; intros d; [done|]. cbn [op_stats row_stats].
  destruct (applyOp _ op) as [next|s|] eqn:E; [|f_equal; auto|done]. f_equal. rewrite IH.
  apply row_stats_ext. intros k. rewrite put_row by (by eapply applyOp_stored).
  by rewrite (applyOp_eid _ _ _ E).
Qed.

(** Whether any op of the sequence is applied. *)
Fixpoint any_applied (curr : option IEntRow) (ops : list IOp) : bool :=
  match ops with
  | [] => false
  | op :: ops => match applyOp curr op with Ok _ => true | _ => any_applied curr ops end
  end.

Lemma none_applied curr ops : any_applied curr ops = false → fold_left step_row ops curr = curr.
Proof.
  induction ops as [|op ops IH]; [done|]. cbn. unfold step_row at 2. by destruct (applyOp curr op) eqn:E.
Qed.

Lemma fold_some row ops : is_Some (fold_left step_row ops (Some row)).
Proof. revert row. induction ops as [|op ops IH]; intros row; [done|]. cbn. unfold step_row at 2. by destruct (applyOp _ op). Qed.

Lemma some_applied curr ops : any_applied curr ops = true → is_Some (fold_left step_row ops curr).
Proof.
  induction ops as [|op ops IH]; [done|]. cbn. unfold step_row at 2.
  destruct (applyOp curr op) as [next|s|] eqn:E; intros H; [apply fold_some|by apply IH..].
Qed.

Lemma omap_cons_list {A B} (f : A → option B) x l :
  omap f (x :: l) = match f x with Some y => y :: omap f l | None => omap f l end.
Proof. done. Qed.

Lemma applied_keys d ops k :
  k ∈ btob64 <$> applied_eids ops (op_stats d ops) ↔ any_applied (map_get k (ents d)) (ops_at k ops) = true.
Proof.
  revert d. induction ops as [|op ops IH]; intros d; [by split; [set_solver|]|].
  unfold ops_at. rewrite filter_cons. fold (ops_at k ops). cbn [op_stats]. unfold applied_eids. cbn.
  assert (Hput : ∀ next, applyOp (map_get (op_key op) (ents d)) op = Ok next → op_key op ≠ k →
    map_get k (ents (put d next)) = map_get k (ents d)).
  { intros next E Hk. rewrite put_row by (by eapply applyOp_stored). rewrite (applyOp_eid _ _ _ E).
    by rewrite decide_False by (intros Hk'; apply Hk; symmetry; exact Hk'). }
  destruct (applyOp (map_get (op_key op) (ents d)) op) as [next|s|] eqn:E; [| |by apply applyOp_no_throw in E].
  - rewrite omap_cons_list, decide_True by done. fold (applied_eids ops (op_stats (put d next) ops)).
    rewrite fmap_cons, elem_of_cons, IH. fold (op_key op).
    case_decide as Hk; [cbn; subst k; rewrite E; naive_solver|]. rewrite Hput by done. split; [|by right].
    intros [He|?]; [|done]. by destruct Hk.
  - rewrite omap_cons_list, decide_False by (by eapply applyOp_err_ne). fold (applied_eids ops (op_stats d ops)). rewrite IH.
    case_decide as Hk; [|done]. cbn. subst k. by rewrite E.
Qed.

(** ** What the cache relies on in the durable database

    [IEntDB]: ops it takes are folded into rows as [EntDBMemory] does, each
    reporting its status, and the ids of the rows changed are answered; reads
    answer with the rows; a clear leaves none. *)
Class DurableSpec (D : Type) {DU : Durable D} := {
  du_wf : D → Prop;
  du_takes : IOp → Prop;
  du_apply_ok d ops : du_wf d → Forall du_takes ops →
    ∃ d' res, du_apply d ops = (d', Ok res) ∧ du_wf d' ∧
      (∀ k, du_row d' k = fold_left step_row (ops_at k ops) (du_row d k)) ∧
      stats res = row_stats (du_row d) ops;
  du_eids_ok d ops d' res k : du_wf d → Forall du_takes ops → du_apply d ops = (d', Ok res) →
    k ∈ btob64 <$> eids res ↔ any_applied (du_row d k) (ops_at k ops) = true;
  du_clear_ok d : du_wf d → ∃ d', du_clear d = (d', Success) ∧ du_wf d' ∧ ∀ k, du_row d' k = None;
  du_getRow_ok d eid : du_wf d → du_getRow d eid = Ok (du_row d (btob64 eid));
  du_getEntities_ok d t : du_wf d →
    ∃ es, du_getEntities d t = Ok es ∧ NoDup es ∧
      ∀ e, e ∈ es ↔ du_row d (btob64 (e_eid e)) = Some (Live e) ∧ e_type e = t;
}.

Lemma same_answer_lists d P r l : same_answer r (Ok l) → lists d P l → ∃ l', r = Ok l' ∧ lists d P l'.
Proof.
  destruct r as [l'| |]; simpl; [|done..]. intros Hp [Hn Hl]. exists l'. split; [done|].
  split; [by rewrite Hp|]. intros e. by rewrite Hp.
Qed.

(** What a query by type answers. *)
Lemma type_lists d t : inv d → ∃ l, getEntities d (QType t) = Ok l ∧ lists d (λ e, e_type e = t) l.
Proof.
  intros Hd. apply (same_answer_lists d _ _ (scan d (has_type t))); [apply (query_fullScan d (QType t) Hd)|].
  eapply lists_iff; [|apply scan_lists, Hd]. intros e. apply has_type_true.
Qed.

#[export] Instance mem_durable_spec : DurableSpec db.
Proof.
  refine {| du_wf := inv; du_takes _ := True |}.
  - intros d ops Hd _. destruct (apply_stats d ops) as (out & Ho & Hs).
    exists (EntDBMemory.apply d ops).1, out. split_and!.
    + cbn. by rewrite (surjective_pairing (EntDBMemory.apply d ops)), Ho.
    + by apply apply_inv.
    + intros k. apply apply_row.
    + by rewrite Hs, op_stats_rows.
  - intros d ops d' res k _ _ Ha. cbn in Ha |- *. unfold EntDBMemory.apply in Ha. rewrite (apply_loop_eids _ _ _ _ _ Ha). apply applied_keys.
  - intros d Hd. eexists. split; [done|]. split; [by apply clear_inv|done].
  - done.
  - intros d t Hd. destruct (type_lists d t Hd) as (l & Hl & Hn & Hi). by exists l.
Defined.

(** The database takes the writes. *)
Class Takes (D : Type) `{DurableSpec D} (U : IOp → Prop) := takes op : U op → du_takes op.

#[export] Instance mem_takes U : Takes db U.
Proof. done. Defined.

(** ** Writes *)

(** All writes of an entity have a time, and no two that differ share it. *)
Class Writes (U : IOp → Prop) := {
  w_ok op : U op → op_ok op;
  w_ties o1 o2 : U o1 → U o2 → op_key o1 = op_key o2 → op_ms o1 = op_ms o2 → row_of o1 = row_of o2;
}.

Section rows.
Context (U : IOp → Prop) {W : Writes U}.
Implicit Types o : option IEntRow.

(** The row of a write at [k], or none. *)
Definition good (k : jsstr) (o : option IEntRow) : Prop :=
  match o with Some r => ∃ op, U op ∧ op_key op = k ∧ r = row_of op | None => True end.

Lemma good_op op : U op → good (op_key op) (Some (row_of op)).
Proof. by exists op. Qed.

Lemma tm_row_of op : U op → tm (Some (row_of op)) = op_ms op.
Proof. intros H%w_ok. cbn. by rewrite row_of_time. Qed.

Lemma tm_bot k o : good k o → bot <= tm o ∧ (tm o = bot ↔ o = None).
Proof.
  destruct o as [r|]; [|done]. intros (op & HU & _ & ->). rewrite tm_row_of by done.
  pose proof (op_ms_bot op (w_ok _ HU)). split; [lia|]. split; [lia|done].
Qed.

Lemma good_eq k o o' : good k o → good k o' → tm o = tm o' → o = o'.
Proof.
  intros H H' Ht. pose proof (tm_bot _ _ H) as [_ Hb]. pose proof (tm_bot _ _ H') as [_ Hb'].
  destruct o as [r|], o' as [r'|]; [|by apply Hb| |done].
  - destruct H as (op & HU & Hk & ->), H' as (op' & HU' & Hk' & ->).
    rewrite !tm_row_of in Ht by done. f_equal. apply w_ties; [done|done|congruence|done].
  - symmetry. by apply Hb'.
Qed.

Lemma good_stored k r : good k (Some r) → stored r = r ∧ btob64 (row_eid r) = k.
Proof.
  intros (op & HU & Hk & ->). rewrite row_of_eid. split; [|done].
  eapply (applyOp_stored None op). by rewrite applyOp_ok by (by apply w_ok).
Qed.

Lemma good_dated k r : good k (Some r) → row_updatedAt r = Some (tm (Some r)).
Proof. intros (op & HU & _ & ->). rewrite tm_row_of by done. by apply row_of_time, w_ok. Qed.

Lemma step_good k o op : good k o → U op → op_key op = k → good k (step_row o op) ∧ tm (step_row o op) = Z.max (tm o) (op_ms op).
Proof.
  intros H HU Hk. unfold step_row. rewrite applyOp_ok by (by apply w_ok).
  pose proof (op_ms_bot op (w_ok _ HU)) as Hb. pose proof (tm_row_of op HU) as Ht. destruct o as [r|].
  - rewrite (good_dated _ _ H). cbn [fle].
    destruct (Z.leb_spec (op_ms op) (tm (Some r))); [split; [done|lia]|].
    split; [by subst k; apply good_op|]. lia.
  - split; [by subst k; apply good_op|]. rewrite Ht. cbn. lia.
Qed.

Lemma fold_good k o ops :
  good k o → Forall U ops → (∀ op, op ∈ ops → op_key op = k) →
  good k (fold_left step_row ops o) ∧ tm o <= tm (fold_left step_row ops o) ∧
  (∀ op, op ∈ ops → op_ms op <= tm (fold_left step_row ops o)) ∧
  (tm (fold_left step_row ops o) = tm o ∨ ∃ op, op ∈ ops ∧ tm (fold_left step_row ops o) = op_ms op).
Proof.
  revert o. induction ops as [|op ops IH]; intros o H HU Hk.
  { cbn. split_and!; [done|lia|set_solver|by left]. }
  apply Forall_cons in HU as [HUo HU]. destruct (step_good k o op H HUo (Hk op ltac:(left))) as [Hg Ht].
  cbn [fold_left]. destruct (IH _ Hg HU) as (H1 & H2 & H3 & H4); [intros; apply Hk; by right|].
  split_and!; [done|lia| |].
  - intros op' [->|Hin]%elem_of_cons; [lia|by apply H3].
  - destruct H4 as [H4|(op' & Hin & H4)].
    + destruct (Z.max_spec (tm o) (op_ms op)) as [[? Hm]|[? Hm]]; rewrite Hm in Ht.
      * right. exists op. split; [by left|lia].
      * left. lia.
    + right. exists op'. split; [by right|done].
Qed.

(** The rows of every key after a sequence of writes. *)
Lemma writes_good k o ops :
  good k o → Forall U ops →
  let o' := fold_left step_row (ops_at k ops) o in
  good k o' ∧ tm o <= tm o' ∧ (∀ op, op ∈ ops → op_key op = k → op_ms op <= tm o') ∧
  (tm o' = tm o ∨ ∃ op, op ∈ ops ∧ op_key op = k ∧ tm o' = op_ms op).
Proof.
  intros H HU. destruct (fold_good k o (ops_at k ops) H) as (H1 & H2 & H3 & H4).
  - apply Forall_forall. intros op [_ Hop]%list_elem_of_filter. by eapply Forall_forall in HU.
  - by intros op [? _]%list_elem_of_filter.
  - cbn zeta. split_and!; [done|done| |].
    + intros op Hin Hk. apply H3, list_elem_of_filter. done.
    + destruct H4 as [?|(op & [? ?]%list_elem_of_filter & ?)]; [by left|right; eauto].
Qed.

(** An op that a row not older than any op on its key turns away is one of
    the rejected. *)
Lemma rejected_stale rows ops op :
  Forall U ops → (∀ k, good k (rows k)) → op ∈ ops →
  (∀ x, x ∈ ops → op_key x = op_key op → op_ms x <= tm (rows (op_key op))) →
  op_eid (op_head op) ∈ rejected ops (row_stats rows ops).
Proof.
  revert rows. induction ops as [|x ops IH]; intros rows HU Hg Hin Hle; [set_solver|].
  apply Forall_cons in HU as [HUx HU]. cbn [row_stats rejected].
  rewrite applyOp_ok by (by apply w_ok).
  destruct (decide (op_key x = op_key op)) as [Hx|Hx].
  - specialize (Hle x ltac:(left) Hx) as Hxl. rewrite <-Hx in Hxl. specialize (Hg (op_key x)) as Hgx.
    pose proof (op_ms_bot x (w_ok _ HUx)).
    destruct (rows (op_key x)) as [r|] eqn:Er; [|cbn in Hxl; lia].
    rewrite (good_dated _ _ Hgx). cbn [fle]. rewrite (proj2 (Z.leb_le _ _)) by done. cbn.
    apply elem_of_cons in Hin as [->|Hin]; [by left|]. right. apply IH; [done|done|done|].
    intros o Ho. apply Hle. by right.
  - assert (op ∈ ops) as Hin' by (apply elem_of_cons in Hin as [->|?]; done).
    assert (Hgo : ∀ next, good (op_key x) (Some next) →
      op_eid (op_head op) ∈ rejected ops (row_stats (λ k, if decide (k = op_key x) then Some next else rows k) ops)).
    { intros next Hn. apply IH; [done| |done|].
      - intros k. case_decide as Hk; [by subst|done].
      - rewrite decide_False by done. intros o Ho. apply Hle. by right. }
    destruct (rows (op_key x)) as [r|] eqn:Er; [destruct (fle _ _)|]; cbn.
    + right. apply IH; [done|done|done|]. intros o Ho. apply Hle. by right.
    + apply Hgo. by apply good_op.
    + apply Hgo. by apply good_op.
Qed.

(** *** Comparing rows *)

Lemma rowWins_tm k r r' : good k (Some r) → good k (Some r') → rowWins r r' = (tm (Some r') <? tm (Some r)).
Proof.
  intros H H'. unfold rowWins, getTime. rewrite (good_dated _ _ H), (good_dated _ _ H'). cbn [feq flt].
  destruct (Z.eqb_spec (tm (Some r)) (tm (Some r'))) as [E|E]; cbn [negb]; [|done].
  pose proof (good_eq _ _ _ H H' E) as [= ->]. by rewrite !Z.ltb_irrefl.
Qed.

Lemma stampEq_good k o o' : good k o → good k o' → stampEq (rowStamp o) (rowStamp o') = true ↔ o = o'.
Proof.
  intros H H'. destruct o as [r|], o' as [r'|]; cbn -[tm]; [|done..].
  unfold getTime. rewrite (good_dated _ _ H), (good_dated _ _ H'). cbn -[tm].
  rewrite andb_true_iff, !Z.eqb_eq. split; [|by intros [= ->]].
  intros [E _]. by eapply good_eq.
Qed.

(** ** Merges are maxima *)

Lemma put_good d k r k' :
  good k (Some r) → map_get k' (ents (put d r)) = if decide (k' = k) then Some r else map_get k' (ents d).
Proof. intros [Hs Hk]%good_stored. rewrite put_row by done. by rewrite Hk. Qed.

Definition later o o' : option IEntRow := if tm o <? tm o' then o' else o.

Lemma later_good k o o' : good k o → good k o' → good k (later o o').
Proof. unfold later. by destruct (_ <? _). Qed.

Lemma merge_newer_row d k r k' :
  good k (Some r) → good k (map_get k (ents d)) →
  map_get k' (ents (merge_newer d r)) = if decide (k' = k) then later (map_get k (ents d)) (Some r) else map_get k' (ents d).
Proof.
  intros H Hd. unfold merge_newer. destruct (good_stored _ _ H) as [_ Hk]. rewrite Hk. unfold later.
  destruct (map_get k (ents d)) as [c|] eqn:E.
  - rewrite (rowWins_tm k) by done. case_match; [by apply put_good|]. case_decide; [by subst|done].
  - rewrite (put_good d k) by done. case_decide; [|done].
    destruct (tm_bot _ _ H) as [Hb Hn].
    destruct (Z.ltb_spec (tm None) (tm (Some r))) as [|Hge]; [done|]. cbn [tm] in Hge.
    destruct Hn as [Hn _]. discriminate Hn. cbn [tm]. cbn [tm] in Hb. lia.
Qed.

Lemma merge_newer_inv d r : inv d → inv (merge_newer d r).
Proof. intros H. unfold merge_newer. repeat case_match; first [done|by apply put_inv]. Qed.

(** The row a pull installs, by the stamp it expects. *)
Lemma merge_row_row d snap ch k row :
  good k (Some row) → good k (map_get k (ents d)) →
  let m := map_get k (ents d) in
  let d' := (merge_row d snap ch k (Some row)).1 in
  (∀ k', k' ≠ k → map_get k' (ents d') = map_get k' (ents d)) ∧
  (map_get k (ents d') = later m (Some row) ∨
   map_get k (ents d') = m ∧ ∃ s, snap = Some s ∧ stampEq (rowStamp m) (default None (map_get k s)) = false).
Proof.
  intros H Hd m d'. subst d'. unfold merge_row. fold m.
  assert (Hput : ∀ k', map_get k' (ents (put d row)) = if decide (k' = k) then Some row else map_get k' (ents d))
    by (intros; by apply put_good).
  assert (Hnew : (match m with Some c => rowWins c row | None => false end) = (tm (Some row) <? tm m)).
  { fold m in Hd. destruct m as [c|]; [by rewrite (rowWins_tm k)|].
    destruct (tm_bot _ _ H). symmetry. apply Z.ltb_ge. done. }
  rewrite Hnew. unfold later. destruct (Z.ltb_spec (tm (Some row)) (tm m)) as [Hlt|Hge]; cbn [fst].
  { split; [done|]. left. by rewrite (proj2 (Z.ltb_ge _ _)) by lia. }
  assert (Hl : map_get k (ents (put d row)) = if tm m <? tm (Some row) then Some row else m).
  { rewrite Hput, decide_True by done. destruct (Z.ltb_spec (tm m) (tm (Some row))); [done|].
    apply (good_eq k); [done|done|lia]. }
  destruct snap as [s|]; [destruct (stampEq _ _) eqn:Es|]; cbn [negb fst].
  - split; [|by left]. intros k' Hk. by rewrite Hput, decide_False.
  - split; [done|]. right. split; [done|]. by exists s.
  - split; [|by left]. intros k' Hk. by rewrite Hput, decide_False.
Qed.

Lemma merge_row_inv d snap ch k row : inv d → inv (merge_row d snap ch k row).1.
Proof. intros H. unfold merge_row. repeat case_match; first [done|by apply put_inv|by apply del_inv]. Qed.

(** *** Several rows loaded *)

Lemma merge_all_rows es d :
  (∀ e, e ∈ es → good (btob64 (e_eid e)) (Some (Live e))) → (∀ k, good k (map_get k (ents d))) →
  let d' := fold_left (λ mem e, merge_newer mem (Live e)) es d in
  ∀ k, good k (map_get k (ents d')) ∧
    (map_get k (ents d') = map_get k (ents d) ∨
     ∃ e, e ∈ es ∧ btob64 (e_eid e) = k ∧ map_get k (ents d') = Some (Live e)) ∧
    tm (map_get k (ents d)) <= tm (map_get k (ents d')) ∧
    ∀ e, e ∈ es → btob64 (e_eid e) = k → tm (Some (Live e)) <= tm (map_get k (ents d')).
Proof.
  revert d. induction es as [|e es IH]; intros d He Hd d' k; subst d'; cbn [fold_left].
  { split_and!; [apply Hd|by left|lia|set_solver]. }
  pose proof (He e ltac:(left)) as Hge.
  assert (Hrow : ∀ k', map_get k' (ents (merge_newer d (Live e))) =
      if decide (k' = btob64 (e_eid e)) then later (map_get (btob64 (e_eid e)) (ents d)) (Some (Live e)) else map_get k' (ents d))
    by (intros; by apply merge_newer_row).
  destruct (IH (merge_newer d (Live e))) with (k := k) as (H1 & H2 & H3 & H4).
  { intros e' Hin. apply He. by right. }
  { intros k'. rewrite Hrow. case_decide; [subst|done]. by apply later_good. }
  rewrite Hrow in H2, H3. split_and!; [done| | |].
  - destruct H2 as [H2|(e' & ? & ? & ?)]; [|right; exists e'; split; [by right|done]].
    rewrite H2. case_decide as Hk; [subst k|by left]. unfold later. destruct (_ <? _); [|by left].
    right. exists e. split; [by left|done].
  - case_decide as Hk; [subst k|done]. unfold later in H3.
    destruct (Z.ltb_spec (tm (map_get (btob64 (e_eid e)) (ents d))) (tm (Some (Live e)))); lia.
  - intros e' [->|Hin]%elem_of_cons Hk; [|by apply H4].
    rewrite decide_True in H3 by done. unfold later in H3.
    destruct (Z.ltb_spec (tm (map_get (btob64 (e_eid e)) (ents d))) (tm (Some (Live e)))); subst k; lia.
Qed.

Lemma merge_all_inv es d : inv d → inv (fold_left (λ mem e, merge_newer mem (Live e)) es d).
Proof. revert d. induction es as [|e es IH]; intros d H; [done|]. apply IH. by apply merge_newer_inv. Qed.
End rows.
