(* ===== verification/CachedInv.v ===== *)
(** * The invariant of the cached entity database

    At each key the memory row, the durable row and what is still to come: jobs
    on the chain, pulls not done, reads not merged, and ids that another thread
    wrote and has not announced.  [key_ok] says that a memory row behind the
    durable one is due to be pulled, and one ahead of it due to be persisted;
    every event keeps it ([step_coherent]). *)
From S2P Require Export CachedFacts.
Import EntDBMemory.

Section invariant.
Context {D : Type} {DU : Durable D} {DS : DurableSpec D}.
Context (U : IOp → Prop) {W : Writes U} {T : Takes D U}.
Implicit Types (c : Cache D) (owed : gset jsstr) (k : jsstr).

Definition mrow c k := map_get k (ents (c_mem c)).
Definition drow c k := du_row (c_durable c) k.
Definition queue c := ch_queue (c_chain c).
Definition idle c : Prop := queue c = [] ∧ ch_run (c_chain c) = None.

(** ** What is still to come at a key *)

(** An ingest of the key is announced, or is owed. *)
Definition pledged (q : list Job) owed k : Prop :=
  k ∈ owed ∨ ∃ eids, JIngest eids ∈ q ∧ k ∈ btob64 <$> eids.

(** The job that runs is to pull the key. *)
Definition pulling (run : option Pull) k (snap : option Snap) : Prop :=
  ∃ p, run = Some p ∧ pl_snap p = snap ∧ k ∈ btob64 <$> pl_todo p ∧ k ∉ pl_seen p.

Definition forced (ch : Chain) owed k : Prop :=
  pledged (ch_queue ch) owed k ∨ pulling (ch_run ch) k None.

(** A persist will pull the key if its row still has this stamp. *)
Definition awaits (ch : Chain) k (st : option RowStamp) : Prop :=
  (∃ ops s op, JPersist ops (Some s) ∈ ch_queue ch ∧ op ∈ ops ∧ op_key op = k ∧ map_get k s = Some st) ∨
  (∃ s, pulling (ch_run ch) k (Some s) ∧ map_get k s = Some st).

Definition queued (q : list Job) k (op : IOp) : Prop :=
  ∃ ops snap, JPersist ops snap ∈ q ∧ op ∈ ops ∧ op_key op = k.

(** ** One key *)

(** A row read: not newer than the durable row, and if older, harmless. *)
Record fresh k (m d : option IEntRow) (F : Prop) (R : option IEntRow) : Prop := {
  fr_good : good U k R;
  fr_le : tm R <= tm d;
  fr_old : R = d ∨ tm R <= tm m ∨ F;
}.

Record reads_ok k (m d : option IEntRow) (F : Prop) (rd : Reads) : Prop := {
  ro_wf : map_wf (rd_warmP rd);
  ro_warm e : d = Some (Live e) → e_type e ∈ rd_warmed rd → m ≠ None ∨ F;
  ro_gets eid r : (eid, r) ∈ rd_gets rd → btob64 eid = k → ∃ R, r = Ok R ∧ fresh k m d F R;
  ro_warming t r n : map_get t (rd_warmP rd) = Some (r, n) →
    ∃ es, r = Ok es ∧
      (∀ e, e ∈ es → btob64 (e_eid e) = k → fresh k m d F (Some (Live e))) ∧
      (∀ e, d = Some (Live e) → e_type e = t → (∃ e', e' ∈ es ∧ btob64 (e_eid e') = k) ∨ m ≠ None ∨ F);
}.

Record key_ok (opt : bool) k (m d : option IEntRow) (ch : Chain) owed (rd : Reads) : Prop := {
  ko_m : good U k m;
  ko_d : good U k d;
  ko_ahead : tm m <= tm d ∨ opt = true ∧ ∃ op, queued (ch_queue ch) k op ∧ tm m <= op_ms op;
  ko_behind : tm d <= tm m ∨ m = None ∨ forced ch owed k ∨ awaits ch k (rowStamp m);
  ko_reads : reads_ok k m d (forced ch owed k) rd;
}.

(** ** Jobs *)

Definition job_ok (opt : bool) (m d : jsstr → option IEntRow) (j : Job) : Prop :=
  match j with
  | JPersist ops snap =>
      Forall U ops ∧
      if opt then is_Some snap ∧ ∀ op, op ∈ ops → op_ms op <= tm (m (op_key op)) else snap = None
  | JIngest eids => ∀ eid, eid ∈ eids → d (btob64 eid) ≠ None
  | JClear => False
  end.

Record pull_ok (d : jsstr → option IEntRow) (q : list Job) owed (p : Pull) : Prop := {
  po_todo eid : eid ∈ pl_todo p → d (btob64 eid) ≠ None;
  po_read eid todo r : pl_todo p = eid :: todo → pl_read p = Some r →
    ∃ R, r = Ok (Some R) ∧ good U (btob64 eid) (Some R) ∧ tm (Some R) <= tm (d (btob64 eid)) ∧
      (Some R = d (btob64 eid) ∨ pledged q owed (btob64 eid));
  po_fin : match pl_fin p with FinClear _ => False | _ => True end;
}.

Record coherent c owed : Prop := {
  co_inv : inv (c_mem c);
  co_wf : du_wf (c_durable c);
  co_key k : key_ok (c_optimistic c) k (mrow c k) (drow c k) (c_chain c) owed (c_reads c);
  co_jobs : Forall (job_ok (c_optimistic c) (mrow c) (drow c)) (queue c);
  co_run p : ch_run (c_chain c) = Some p → pull_ok (drow c) (queue c) owed p;
}.

(** A step that keeps the invariant and makes no memory row older. *)
Definition advance c c' owed : Prop := coherent c' owed ∧ ∀ k, tm (mrow c k) <= tm (mrow c' k).

Lemma advance_refl c owed : coherent c owed → advance c c owed.
Proof. by split. Qed.

Lemma advance_trans c c1 owed1 c2 owed2 :
  advance c c1 owed1 → (coherent c1 owed1 → advance c1 c2 owed2) → advance c c2 owed2.
Proof.
  intros [H1 Hm1] H. destruct (H H1) as [H2 Hm2]. split; [done|]. intros k. by etransitivity; [apply Hm1|].
Qed.

(** ** Rows grow *)

Lemma tm_None k d d' : good U k d → good U k d' → tm d <= tm d' → d ≠ None → d' ≠ None.
Proof.
  intros H H' Hle Hd ->. pose proof (tm_bot _ _ _ H) as [? Hb]. apply Hd, Hb. cbn in Hle. lia.
Qed.

(** Both rows may grow where what was due stays due or the memory row catches
    up. *)
Lemma reads_grow k m d m' d' (F F' : Prop) rd :
  good U k m → good U k d → good U k m' → good U k d' →
  tm m <= tm m' → tm d <= tm d' →
  (F → F' ∨ tm d' <= tm m') → (d' = d ∨ F' ∨ tm d' <= tm m') →
  reads_ok k m d F rd → reads_ok k m' d' F' rd.
Proof.
  intros Hm Hd Hm' Hd' Hmm Hdd HF Hch [H0 H1 H2 H3].
  assert (Hfr : ∀ R, fresh k m d F R → fresh k m' d' F' R).
  { intros R [Hg Hle Ho]. split; [done|lia|].
    destruct Ho as [-> |[Ho|Ho%HF]]; [|right; left; lia|destruct Ho; [by right; right|right; left; lia]].
    destruct Hch as [->|[?|?]]; [by left|by right; right|right; left; lia]. }
  assert (Hne : m ≠ None ∨ F → d' ≠ None → m' ≠ None ∨ F').
  { intros [H|H%HF] Hn; [left; by apply (tm_None k m m')|]. destruct H; [by right|left]. by apply (tm_None k d' m'). }
  assert (Hlive : d' ≠ None → d' = d ∨ m' ≠ None ∨ F').
  { intros Hn. destruct Hch as [?|[?|?]]; [by left|by right; right|]. right; left. by eapply tm_None. }
  split; [done| | |].
  - intros e -> Ht. destruct (Hlive ltac:(done)) as [<-|?]; [|done]. apply Hne; [|done]. by eapply H1.
  - intros eid r Hin He. destruct (H2 eid r Hin He) as (R & -> & HR). eauto.
  - intros t r n Hg. destruct (H3 t r n Hg) as (es & -> & Hes & Hcov). exists es. split_and!; [done|eauto|].
    intros e -> Ht. destruct (Hlive ltac:(done)) as [<-|?]; [|by right].
    destruct (Hcov e eq_refl Ht) as [?|?]; [by left|right]. by apply Hne.
Qed.

Lemma jobs_grow opt m d m' d' q :
  (∀ k, good U k (d k)) → (∀ k, good U k (d' k)) →
  (∀ k, tm (m k) <= tm (m' k)) → (∀ k, tm (d k) <= tm (d' k)) →
  Forall (job_ok opt m d) q → Forall (job_ok opt m' d') q.
Proof.
  intros Hg Hg' Hm Hd Hq. eapply Forall_impl; [exact Hq|]. intros [ops snap|eids|]; cbn.
  - intros [HU Hj]. split; [done|]. destruct opt; [|done]. destruct Hj as [? Hj]. split; [done|].
    intros op Hin%Hj. specialize (Hm (op_key op)). lia.
  - intros Hj eid Hin%Hj. by apply (tm_None (btob64 eid) (d (btob64 eid))).
  - done.
Qed.

Lemma pull_grow d d' q q' owed owed' p :
  (∀ k, good U k (d k)) → (∀ k, good U k (d' k)) → (∀ k, tm (d k) <= tm (d' k)) →
  (∀ k, pledged q owed k → pledged q' owed' k) → (∀ k, d' k = d k ∨ pledged q' owed' k) →
  pull_ok d q owed p → pull_ok d' q' owed' p.
Proof.
  intros Hg Hg' Hd Hp Hch [H1 H2 H3]. split; [|clear H1|done].
  - intros eid Hin%H1. by apply (tm_None (btob64 eid) (d (btob64 eid))).
  - intros eid todo r Ht Hr. destruct (H2 eid todo r Ht Hr) as (R & -> & HR & Hle & Ho).
    exists R. split_and!; [done|done|specialize (Hd (btob64 eid)); lia|].
    destruct Ho as [Ho|Ho]; [|by right; apply Hp]. destruct (Hch (btob64 eid)) as [->|?]; [by left|by right].
Qed.

Lemma forced_mono ch ch' owed owed' k :
  (pledged (ch_queue ch) owed k → pledged (ch_queue ch') owed' k) → ch_run ch' = ch_run ch →
  forced ch owed k → forced ch' owed' k.
Proof. unfold forced. intros H ->. naive_solver. Qed.

Lemma awaits_mono ch ch' k st :
  (∀ j, j ∈ ch_queue ch → j ∈ ch_queue ch') → ch_run ch' = ch_run ch → awaits ch k st → awaits ch' k st.
Proof. unfold awaits. intros H ->. naive_solver. Qed.

Lemma pledged_mono q q' owed k : (∀ j, j ∈ q → j ∈ q') → pledged q owed k → pledged q' owed k.
Proof. unfold pledged. naive_solver. Qed.

Lemma queued_mono q q' k op : (∀ j, j ∈ q → j ∈ q') → queued q k op → queued q' k op.
Proof. unfold queued. naive_solver. Qed.

Lemma jobs_in opt m d q j : Forall (job_ok opt m d) q → j ∈ q → job_ok opt m d j.
Proof. rewrite Forall_forall. auto. Qed.

(** ** Events that add to the chain, or to the rows behind it *)

Lemma coherent_grow c c' owed owed' :
  coherent c owed →
  c_optimistic c' = c_optimistic c → c_reads c' = c_reads c → ch_run (c_chain c') = ch_run (c_chain c) →
  (∀ j, j ∈ queue c → j ∈ queue c') →
  inv (c_mem c') → du_wf (c_durable c') →
  (∀ k, good U k (mrow c' k) ∧ good U k (drow c' k)) →
  (∀ k, tm (mrow c k) <= tm (mrow c' k)) → (∀ k, tm (drow c k) <= tm (drow c' k)) →
  (∀ k, pledged (queue c) owed k → pledged (queue c') owed' k) →
  (∀ k, drow c' k = drow c k ∨ pledged (queue c') owed' k) →
  (∀ k, mrow c' k = mrow c k ∨
    (c_optimistic c = true ∧ ∃ op, queued (queue c') k op ∧ tm (mrow c' k) <= op_ms op) ∧
    awaits (c_chain c') k (rowStamp (mrow c' k))) →
  Forall (job_ok (c_optimistic c) (mrow c') (drow c')) (queue c') →
  advance c c' owed'.
Proof.
  intros [Hi Hw Hk Hj Hr] Ho Hrd Hrun Hq Hi' Hw' Hg Hm Hd Hp Hdc Hmc Hj'. split; [|exact Hm].
  split; [done|done| |by rewrite Ho|].
  - intros k. rewrite Ho, Hrd. destruct (Hk k) as [Gm Gd Ha Hb Hro]. destruct (Hg k) as [Gm' Gd'].
    assert (HF : forced (c_chain c) owed k → forced (c_chain c') owed' k) by (apply forced_mono; [apply Hp|done]).
    assert (HP : pledged (queue c') owed' k → forced (c_chain c') owed' k) by (by left).
    specialize (Hm k) as Hmk. specialize (Hd k) as Hdk. split; [done|done| | |].
    + destruct (Hmc k) as [->|[[? (op & Hop & Hle)] _]]; [|right; eauto].
      destruct Ha as [?|[? (op & Hop & Hle)]]; [left; lia|right]. split; [done|]. exists op. split; [|done].
      by eapply queued_mono.
    + destruct (Hmc k) as [->|[_ ?]]; [|by right; right; right].
      destruct (Hdc k) as [->|?]; [|right; right; left; auto].
      destruct Hb as [?|[?|[?|?]]]; [by left|by right; left|right; right; left; auto|].
      right; right; right. by eapply awaits_mono.
    + eapply reads_grow; [exact Gm|exact Gd|done..| | |exact Hro]; [auto|].
      destruct (Hdc k) as [?|?]; [by left|right; left; auto].
  - intros p. rewrite Hrun. intros Hp'. apply (pull_grow (drow c) (drow c') (queue c) (queue c') owed owed'); [..|by apply Hr]; try done;
      intros k; [apply Hk|apply Hg].
Qed.

Lemma enqueue_in c j : queue (enqueue j c) = queue c ++ [j].
Proof. done. Qed.

Lemma apply_coherent c owed ops : coherent c owed → Forall U ops → advance c (cache_apply ops c) owed.
Proof.
  intros Hc HU. pose proof Hc as [Hi Hw Hk Hj Hr]. unfold cache_apply. destruct (c_optimistic c) eqn:Ho.
  - pose proof (applyOps_row (c_mem c) [] ops) as Hrow. pose proof (applyOps_inv (c_mem c) [] ops Hi) as Hi'.
    destruct (applyOps (c_mem c) [] ops) as [mem types] eqn:E. cbn [fst] in Hrow, Hi'.
    assert (Hgr : ∀ k, _) by (intros k; apply (writes_good U k (mrow c k) ops (ko_m _ _ _ _ _ _ _ (Hk k)) HU)).
    cbn zeta in Hgr. apply (coherent_grow c _ owed); try done.
    + intros j Hj'. rewrite enqueue_in. set_solver.
    + intros k. split; [unfold mrow; cbn; rewrite Hrow; apply Hgr|apply Hk].
    + intros k. unfold mrow at 2. cbn. rewrite Hrow. apply Hgr.
    + intros k. apply pledged_mono. rewrite enqueue_in. set_solver.
    + by left.
    + intros k. destruct (Hgr k) as (Hg' & Hle & _ & [Heq|(op & Hin & Hko & Heq)]).
      { left. unfold mrow. cbn. rewrite Hrow. apply (good_eq U k); [done|apply Hk|done]. }
      right. unfold mrow. cbn. rewrite Hrow.
      split.
      * split; [done|]. exists op. split; [|by apply Z.eq_le_incl].
        exists ops, (Some (snapshot mem ops)). split; [set_solver|done].
      * left. exists ops, (snapshot mem ops), op. split_and!; [cbn; set_solver|done|done|].
        subst k. rewrite <-Hrow. by apply snapshot_get.
    + rewrite Ho. apply Forall_app. split.
      * apply (jobs_grow true (mrow c) (drow c)); try done; try (intros k; apply Hk).
        intros k. unfold mrow at 2. cbn. rewrite Hrow. apply Hgr.
      * apply Forall_singleton. cbn. split; [done|]. split; [done|]. intros op Hin.
        unfold mrow. cbn. rewrite Hrow. by apply Hgr.
  - apply (coherent_grow c _ owed); try done.
    + intros j Hj'. rewrite enqueue_in. set_solver.
    + intros k. split; apply Hk.
    + intros k. apply pledged_mono. rewrite enqueue_in. set_solver.
    + by left.
    + by left.
    + rewrite Ho. apply Forall_app. split; [done|]. by apply Forall_singleton.
Qed.

Lemma ingest_coherent c owed eids :
  coherent c owed → (∀ eid, eid ∈ eids → drow c (btob64 eid) ≠ None) →
  advance c (ingestFromDurable eids c) (owed ∖ list_to_set (btob64 <$> eids)).
Proof.
  intros Hc He. pose proof Hc as [Hi Hw Hk Hj Hr]. unfold ingestFromDurable. apply (coherent_grow c _ owed); try done.
  - intros j Hj'. rewrite enqueue_in. set_solver.
  - intros k. split; apply Hk.
  - intros k. unfold pledged. rewrite enqueue_in. intros [Ho|(es & ? & ?)].
    + destruct (decide (k ∈ btob64 <$> eids)) as [Hin|Hni].
      * right. exists eids. set_solver.
      * left. apply elem_of_difference. split; [done|]. by rewrite elem_of_list_to_set.
    + right. exists es. set_solver.
  - by left.
  - by left.
  - apply Forall_app. split; [done|]. by apply Forall_singleton.
Qed.

(** The keys of the rows that a commit of these ops changes, as its answer
    tells. *)
Definition written (d : D) (ops : list IOp) : list jsstr :=
  match du_apply d ops with (_, Ok res) => btob64 <$> eids res | _ => [] end.

Lemma worker_coherent c owed ops :
  coherent c owed → Forall U ops →
  advance c (cache_step (EWorker ops) c) (owed ∪ list_to_set (written (c_durable c) ops)).
Proof.
  intros Hc HU. pose proof Hc as [Hi Hw Hk Hj Hr].
  destruct (du_apply_ok (c_durable c) ops Hw (Forall_impl _ _ _ HU takes)) as (d' & res & Hd & Hw' & Hrow & _).
  assert (Hgr : ∀ k, _) by (intros k; apply (writes_good U k (drow c k) ops (ko_d _ _ _ _ _ _ _ (Hk k)) HU)).
  cbn zeta in Hgr. unfold cache_step. rewrite Hd. cbn [fst].
  assert (Hgd : ∀ k, good U k (du_row d' k)) by (intros k; rewrite Hrow; apply Hgr).
  assert (Hle : ∀ k, tm (drow c k) <= tm (du_row d' k)) by (intros k; rewrite Hrow; apply Hgr).
  apply (coherent_grow c _ owed); try done.
  - intros k. split; [apply Hk|apply Hgd].
  - intros k. unfold pledged. set_solver.
  - intros k. unfold drow at 1. cbn. destruct (decide (k ∈ btob64 <$> eids res)) as [Hin|Hni].
    + right. left. apply elem_of_union_r. rewrite elem_of_list_to_set. unfold written. by rewrite Hd.
    + left. rewrite Hrow. apply none_applied. destruct (any_applied _ _) eqn:Ha; [|done].
      destruct Hni. by eapply (du_eids_ok _ _ _ _ k Hw (Forall_impl _ _ _ HU takes) Hd).
  - by left.
  - apply (jobs_grow _ (mrow c) (drow c)); try done. intros k. apply Hk.
Qed.
End invariant.

(** * Every event keeps the invariant of the cache

    Reads off the chain, then the turns of the chain; [coherent] along a run. *)

Section steps.
Context {D : Type} {DU : Durable D} {DS : DurableSpec D}.
Context (U : IOp → Prop) {W : Writes U} {T : Takes D U}.
Implicit Types (c : Cache D) (owed : gset jsstr) (k : jsstr).

(** ** Reads off the chain *)

Lemma key_absorb opt k m m' d ch owed rd :
  key_ok U opt k m d ch owed rd → good U k m' → tm m <= tm m' →
  m' = m ∨ fresh U k m d (forced ch owed k) m' → key_ok U opt k m' d ch owed rd.
Proof.
  intros Hk Hg Hle [->|[_ Hd Ho]]; [done|]. destruct Hk as [Gm Gd Ha Hb Hr].
  assert (Hb' : tm d <= tm m' ∨ m' = None ∨ forced ch owed k ∨ awaits ch k (rowStamp m')).
  { destruct Ho as [->|[Ho|?]]; [left; lia| |by right; right; left].
    rewrite (good_eq U k m' m) by (done || lia). done. }
  split; [done|done|by left|done|].
  apply (reads_grow U k m d m' d (forced ch owed k)); try done; [auto|by left].
Qed.

Lemma reads_sub k m d F rd rd' :
  map_wf (rd_warmP rd') →
  (∀ t, t ∈ rd_warmed rd' → t ∈ rd_warmed rd) → (∀ g, g ∈ rd_gets rd' → g ∈ rd_gets rd) →
  (∀ t r n, map_get t (rd_warmP rd') = Some (r, n) → ∃ n', map_get t (rd_warmP rd) = Some (r, n')) →
  reads_ok U k m d F rd → reads_ok U k m d F rd'.
Proof.
  intros Hwf Hw Hg Hp [_ H1 H2 H3]. split; [done|eauto|eauto|].
  intros t r n Ht. destruct (Hp t r n Ht) as [n' Hn]. by eapply H3.
Qed.

(** A step that leaves the chain and the durable rows alone. *)
Lemma coherent_same c c' owed :
  coherent U c owed →
  c_optimistic c' = c_optimistic c → c_durable c' = c_durable c → c_chain c' = c_chain c →
  inv (c_mem c') → (∀ k, tm (mrow c k) <= tm (mrow c' k)) →
  (∀ k, key_ok U (c_optimistic c) k (mrow c' k) (drow c k) (c_chain c) owed (c_reads c')) →
  advance U c c' owed.
Proof.
  intros [Hi Hw Hk Hj Hr] Ho Hd Hch Hi' Hm Hk'. split; [|exact Hm]. split.
  - done.
  - by rewrite Hd.
  - intros k. unfold drow. rewrite Ho, Hd, Hch. apply Hk'.
  - unfold queue, drow. rewrite Ho, Hd, Hch. apply (jobs_grow U _ (mrow c) (drow c)); try done; intros k; apply Hk.
  - intros p. unfold queue, drow. rewrite Hd, Hch. apply Hr.
Qed.

Lemma with_reads_coherent c owed rd :
  coherent U c owed →
  (∀ k, reads_ok U k (mrow c k) (drow c k) (forced (c_chain c) owed k) rd) →
  advance U c (with_reads (c_mem c) rd c) owed.
Proof.
  intros Hc Hrd. pose proof Hc as [Hi Hw Hk Hj Hr]. apply (coherent_same c); try done.
  intros k. destruct (Hk k). by split.
Qed.

Lemma beginWarm_coherent c owed t : coherent U c owed → advance U c (beginWarm t c) owed.
Proof.
  intros Hc. pose proof Hc as [Hi Hw Hk Hj Hr]. unfold beginWarm. destruct (_ || _); [by apply advance_refl|].
  apply with_reads_coherent; [done|]. intros k. destruct (Hk k) as [_ Gd _ _ [H0 H1 H2 H3]].
  split; [by apply map_set_wf|done|done|].
  intros t' r n. cbn. rewrite map_get_set. case_decide as Ht; [subst t'|apply H3].
  destruct (du_getEntities_ok (c_durable c) t Hw) as (es & -> & _ & Hes). intros [= <- <-].
  exists es. split; [done|]. split.
  - intros e [He _]%Hes <-. fold (drow c (btob64 (e_eid e))) in He. rewrite <-He.
    split; [done|lia|by left].
  - intros e He Hte. left. exists e. rewrite He in Gd. destruct (good_stored U _ _ Gd) as [_ Hkey]. cbn in Hkey.
    split; [|done]. apply Hes. rewrite Hkey. done.
Qed.

Lemma ensureWarm_coherent c owed t : coherent U c owed → advance U c (ensureWarm t c) owed.
Proof.
  intros Hc. unfold ensureWarm. destruct (set_has t _); [by apply advance_refl|].
  cbv zeta. apply (advance_trans U c (beginWarm t c) owed); [by apply beginWarm_coherent|].
  generalize (beginWarm t c). clear c Hc. intros c Hc.
  destruct (map_get t _) as [[r n]|] eqn:E; [|by apply advance_refl].
  apply with_reads_coherent; [done|]. intros k. destruct (co_key _ _ _ Hc k) as [_ _ _ _ Hr].
  eapply reads_sub; [..|exact Hr]; [apply map_set_wf, Hr|done|done|].
  intros t' r' n'. cbn. rewrite map_get_set. case_decide as Ht; [subst t'|eauto]. intros [= <- <-]. eauto.
Qed.

Lemma list_coherent c owed t : coherent U c owed → advance U c (list_front t c).1 owed.
Proof.
  intros Hc. unfold list_front. repeat case_match; cbn;
    [by apply advance_refl|by apply ensureWarm_coherent|by apply beginWarm_coherent].
Qed.

Lemma endWarm_coherent c owed t : coherent U c owed → advance U c (endWarm t c) owed.
Proof.
  intros Hc. pose proof Hc as [Hi Hw Hk Hj Hr]. unfold endWarm.
  destruct (map_get t _) as [[r n]|] eqn:E; [|by apply advance_refl].
  assert (Hwf : map_wf (rd_warmP (c_reads c))) by apply (ko_reads _ _ _ _ _ _ _ _ (Hk [])).
  assert (Hdel : ∀ t' r' n', map_get t' (map_delete t (rd_warmP (c_reads c))) = Some (r', n') →
      map_get t' (rd_warmP (c_reads c)) = Some (r', n')).
  { intros t' r' n'. rewrite map_get_delete by done. by case_decide. }
  destruct (ro_warming _ _ _ _ _ _ (ko_reads _ _ _ _ _ _ _ _ (Hk [])) t r n E) as (es & -> & _).
  assert (Hes : ∀ k, (∀ e, e ∈ es → btob64 (e_eid e) = k → fresh U k (mrow c k) (drow c k) (forced (c_chain c) owed k) (Some (Live e))) ∧
      ∀ e, drow c k = Some (Live e) → e_type e = t → (∃ e', e' ∈ es ∧ btob64 (e_eid e') = k) ∨ mrow c k ≠ None ∨ forced (c_chain c) owed k).
  { intros k. destruct (ro_warming _ _ _ _ _ _ (ko_reads _ _ _ _ _ _ _ _ (Hk k)) t (Ok es) n E) as (es' & [= <-] & H). done. }
  assert (Hm : ∀ k, _) by (apply (merge_all_rows U es (c_mem c)); [|intros k; apply Hk];
    intros e He; by apply (fr_good _ _ _ _ _ _ (proj1 (Hes _) e He eq_refl))).
  cbn zeta in Hm. apply (coherent_same c); try done.
  { by apply merge_all_inv. }
  { intros k. apply Hm. }
  intros k. destruct (Hm k) as (Hg & Hor & Hle & Hmax). destruct (Hes k) as [Hfr Hcov].
  assert (Hk' : key_ok U (c_optimistic c) k (map_get k (ents (fold_left (λ mem e, merge_newer mem (Live e)) es (c_mem c))))
      (drow c k) (c_chain c) owed (c_reads c)).
  { eapply key_absorb; [apply Hk|done|done|]. destruct Hor as [?|(e & He & Hek & ->)]; [by left|right; auto]. }
  destruct Hk' as [Gm Gd Ha Hb Hro]. split; [done|done|done|done|]. clear Ha Hb.
  assert (Hsub : reads_ok U k (map_get k (ents (fold_left (λ mem e, merge_newer mem (Live e)) es (c_mem c)))) (drow c k)
      (forced (c_chain c) owed k) (mkReads (rd_warmed (c_reads c)) (map_delete t (rd_warmP (c_reads c))) (rd_gets (c_reads c)))).
  { eapply reads_sub; [..|exact Hro]; [by apply map_delete_wf|done|done|eauto]. }
  destruct Hsub as [R0 R1 R2 R3]. split; [done| |done|done].
  intros e Hd [Ht|Ht]%elem_of_set_add; [|by eapply R1].
  destruct (Hcov e Hd Ht) as [(e' & He' & Hek)|[Hne|?]]; [left|left|by right].
  - specialize (Hmax e' He' Hek). eapply (tm_None U k (Some (Live e'))); [by apply Hfr|done|done|done].
  - by eapply (tm_None U k (mrow c k)); [apply Hk|..].
Qed.

Lemma beginGet_coherent c owed eid : coherent U c owed → advance U c (beginGet eid c) owed.
Proof.
  intros Hc. pose proof Hc as [Hi Hw Hk Hj Hr]. unfold beginGet. case_match; [by apply advance_refl|].
  apply with_reads_coherent; [done|]. intros k. destruct (Hk k) as [_ Gd _ _ [R0 R1 R2 R3]].
  split; [done|done| |done]. intros eid' r [Hin|Hin]%elem_of_app He; [eauto|].
  apply list_elem_of_singleton in Hin as [= -> ->]. rewrite du_getRow_ok by done. eexists. split; [done|].
  rewrite He. split; [done|done|by left].
Qed.

Lemma endGet_coherent c owed i : coherent U c owed → advance U c (endGet i c) owed.
Proof.
  intros Hc. pose proof Hc as [Hi Hw Hk Hj Hr]. unfold endGet.
  destruct (rd_gets (c_reads c) !! i) as [[eid r]|] eqn:E; [|by apply advance_refl].
  assert (Hin : (eid, r) ∈ rd_gets (c_reads c)) by by eapply list_elem_of_lookup_2.
  destruct (ro_gets _ _ _ _ _ _ (ko_reads _ _ _ _ _ _ _ _ (Hk (btob64 eid))) eid r Hin eq_refl) as (R & -> & Hfr).
  assert (Hsub : ∀ k m F, reads_ok U k m (drow c k) F (c_reads c) → reads_ok U k m (drow c k) F
      (mkReads (rd_warmed (c_reads c)) (rd_warmP (c_reads c)) (list_delete i (rd_gets (c_reads c))))).
  { intros k m F H. apply (reads_sub k m _ F (c_reads c)); [apply H|done| |eauto|done].
    intros g Hg. by eapply elem_of_sublist, sublist_delete. }
  destruct R as [row|]; [|apply with_reads_coherent; [done|]; intros k; apply Hsub, Hk].
  assert (Hrow : ∀ k, map_get k (ents (merge_newer (c_mem c) row)) =
      if decide (k = btob64 eid) then later (mrow c (btob64 eid)) (Some row) else mrow c k).
  { intros k. apply merge_newer_row with U; [done|apply Hfr|apply Hk]. }
  apply (coherent_same c); try done.
  - by apply merge_newer_inv.
  - intros k. unfold mrow at 2. cbn. rewrite Hrow. case_decide as Hke; [subst k|done]. unfold later.
    destruct (Z.ltb_spec (tm (mrow c (btob64 eid))) (tm (Some row))); lia.
  - intros k. unfold mrow. cbn [with_reads c_mem c_reads]. rewrite Hrow. case_decide as Hke.
    + subst k. destruct (key_absorb _ _ _ (later (mrow c (btob64 eid)) (Some row)) _ _ _ _ (Hk (btob64 eid))) as [? ? ? ? ?].
      * apply later_good; [apply Hk|apply Hfr].
      * unfold later. destruct (Z.ltb_spec (tm (mrow c (btob64 eid))) (tm (Some row))); lia.
      * unfold later. destruct (_ <? _); [by right|by left].
      * split; try done. by apply Hsub.
    + destruct (Hk k) as [? ? ? ? ?]. split; try done. by apply Hsub.
Qed.

(** ** Turns of the chain *)

Lemma coherent_chain c c' owed :
  coherent U c owed →
  c_optimistic c' = c_optimistic c → c_mem c' = c_mem c → c_reads c' = c_reads c →
  du_wf (c_durable c') → (∀ k, good U k (drow c' k)) → (∀ k, tm (drow c k) <= tm (drow c' k)) →
  (∀ j, j ∈ queue c' → j ∈ queue c) →
  (∀ k, forced (c_chain c) owed k → forced (c_chain c') owed k) →
  (∀ k, drow c' k = drow c k ∨ forced (c_chain c') owed k ∨ tm (drow c' k) <= tm (mrow c k)) →
  (∀ k op, queued (queue c) k op → queued (queue c') k op ∨ op_ms op <= tm (drow c' k)) →
  (∀ k, awaits (c_chain c) k (rowStamp (mrow c k)) →
    awaits (c_chain c') k (rowStamp (mrow c k)) ∨ forced (c_chain c') owed k ∨ tm (drow c' k) <= tm (mrow c k)) →
  (∀ p, ch_run (c_chain c') = Some p → pull_ok U (drow c') (queue c') owed p) →
  advance U c c' owed.
Proof.
  intros [Hi Hw Hk Hj Hr] Ho Hm Hrd Hw' Hg' Hd Hq HF Hdc Hqd Haw Hr'.
  assert (Hmr : ∀ k, mrow c' k = mrow c k) by (intros k; unfold mrow; by rewrite Hm).
  split; [|intros k; by rewrite Hmr]. split; [by rewrite Hm|done| | |done].
  - intros k. rewrite Hmr, Ho, Hrd. destruct (Hk k) as [Gm Gd Ha Hb Hro]. specialize (Hd k) as Hdk.
    split; [done|done| | |].
    + destruct Ha as [?|[? (op & Hop & Hle)]]; [left; lia|].
      destruct (Hqd k op Hop) as [?|?]; [right; eauto|left; lia].
    + destruct (Hdc k) as [Heq|[?|?]]; [rewrite Heq|by right; right; left|by left].
      destruct Hb as [?|[?|[?|Haw']]]; [by left|by right; left|right; right; left; auto|].
      destruct (Haw k Haw') as [?|[?|?]]; [by right; right; right|by right; right; left|left; congruence].
    + apply (reads_grow U k (mrow c k) (drow c k) _ _ (forced (c_chain c) owed k)); try done. auto.
  - rewrite Ho. apply Forall_forall. intros j Hjq%Hq. pose proof (jobs_in _ _ _ _ _ _ Hj Hjq) as Hjob.
    assert (H1 : Forall (job_ok U (c_optimistic c) (mrow c') (drow c')) [j]); [|by apply Forall_singleton].
    apply (jobs_grow U _ (mrow c) (drow c)); try done; [intros k; apply Hk| |by apply Forall_singleton].
    intros k. by rewrite Hmr.
Qed.

Lemma persist_rows c owed ops snap q :
  coherent U c owed → queue c = JPersist ops snap :: q →
  Forall U ops ∧ ∃ d res, du_apply (c_durable c) ops = (d, Ok res) ∧ du_wf d ∧
    stats res = row_stats (drow c) ops ∧
    ∀ k, good U k (du_row d k) ∧ tm (drow c k) <= tm (du_row d k) ∧
      (∀ op, op ∈ ops → op_key op = k → op_ms op <= tm (du_row d k)) ∧
      (du_row d k = drow c k ∨ ∃ op, op ∈ ops ∧ op_key op = k ∧ tm (du_row d k) = op_ms op).
Proof.
  intros [Hi Hw Hk Hj Hr] Hq. rewrite Hq in Hj. apply Forall_cons in Hj as [[HU _] _]. split; [done|].
  destruct (du_apply_ok (c_durable c) ops Hw (Forall_impl _ _ _ HU takes)) as (d & res & Hd & Hw' & Hrow & Hst).
  exists d, res. split_and!; [done|done|done|]. intros k. rewrite Hrow.
  destruct (writes_good U k (drow c k) ops (ko_d _ _ _ _ _ _ _ _ (Hk k)) HU) as (H1 & H2 & H3 & H4).
  fold (drow c k). split_and!; [done|done|done|]. destruct H4 as [H4|?]; [left|by right].
  apply (good_eq U k); [done|apply Hk|done].
Qed.

(** A row left behind by all the ops of a persist is among those it pulls. *)
Lemma persist_pulls c owed ops snap q op :
  coherent U c owed → queue c = JPersist ops snap :: q → c_optimistic c = true → op ∈ ops →
  tm (mrow c (op_key op)) < tm (drow c (op_key op)) →
  op_eid (op_head op) ∈ rejected ops (row_stats (drow c) ops).
Proof.
  intros [Hi Hw Hk Hj Hr] Hq Ho Hin Hlt. rewrite Hq, Ho in Hj. apply Forall_cons in Hj as [[HU [_ Hle]] _].
  apply (rejected_stale U); [done|intros k; apply Hk|done|].
  intros x Hx Hkx. specialize (Hle x Hx). rewrite Hkx in Hle. lia.
Qed.

Lemma rejected_in ops sts eid : eid ∈ rejected ops sts → ∃ op, op ∈ ops ∧ op_eid (op_head op) = eid.
Proof.
  revert sts. induction ops as [|op ops IH]; intros sts; cbn [rejected]; [set_solver|].
  case_bool_decide; [intros (o & ? & ?)%IH; exists o; set_solver|].
  intros [->|(o & ? & ?)%IH]%elem_of_cons; [exists op; set_solver|exists o; set_solver].
Qed.

Lemma no_pulling k snap : ¬ pulling None k snap.
Proof. intros (p & ? & _). done. Qed.

Lemma pulling_todo p k snap : pl_snap p = snap → k ∈ btob64 <$> pl_todo p → pl_seen p = [] → pulling (Some p) k snap.
Proof. intros ? ? Hs. exists p. rewrite Hs. set_solver. Qed.

(** What was due before a job is taken off the chain and after. *)
Lemma tail_forced c owed k job q :
  queue c = job :: q → ch_run (c_chain c) = None → (∀ eids, job ≠ JIngest eids) →
  forced (c_chain c) owed k → pledged q owed k.
Proof.
  unfold queue. intros Hq Hrun Hne [[?|(es & He & ?)]|Hp]; [by left| |rewrite Hrun in Hp; by apply no_pulling in Hp].
  rewrite Hq in He. apply elem_of_cons in He as [He|?]; [by destruct (Hne es)|]. right. by exists es.
Qed.

Lemma tail_awaits c k st job q :
  queue c = job :: q → ch_run (c_chain c) = None → awaits (c_chain c) k st →
  (∃ ops s op, job = JPersist ops (Some s) ∧ op ∈ ops ∧ op_key op = k ∧ map_get k s = Some st) ∨
  ∃ ops s op, JPersist ops (Some s) ∈ q ∧ op ∈ ops ∧ op_key op = k ∧ map_get k s = Some st.
Proof.
  unfold queue. intros Hq Hrun [(ops & s & op & Hin & ?)|(s & Hp & _)]; [|rewrite Hrun in Hp; by apply no_pulling in Hp].
  rewrite Hq in Hin. apply elem_of_cons in Hin as [Hin|?]; [left|right]; by exists ops, s, op.
Qed.

Lemma tail_queued c k op job q :
  queue c = job :: q → queued (queue c) k op →
  (∃ ops snap, job = JPersist ops snap ∧ op ∈ ops ∧ op_key op = k) ∨ queued q k op.
Proof.
  intros -> (ops & s & [Hin|?]%elem_of_cons & ?); [left|right]; by exists ops, s.
Qed.

Lemma start_persist c owed ops snap q d res :
  coherent U c owed → queue c = JPersist ops snap :: q → ch_run (c_chain c) = None →
  du_apply (c_durable c) ops = (d, Ok res) →
  let pull := if c_optimistic c then rejected ops (stats res) else op_eid ∘ op_head <$> ops in
  advance U c (mkCache (c_mem c) d (c_optimistic c)
    (mkChain q (Some (mkPull pull [] snap [] None (FinPersist ops (Ok res)))) (ch_inflight (c_chain c)) (ch_settled (c_chain c)))
    (c_reads c) (c_emits c)) owed.
Proof.
  intros Hc Eq Erun Hda pull. pose proof Hc as [Hi Hw Hk Hj Hr].
  destruct (persist_rows c owed ops snap q Hc Eq) as (HU & d0 & res0 & Hda' & Hw' & Hst & Hrow).
  rewrite Hda in Hda'. injection Hda' as <- <-.
  assert (Hjob := Hj). rewrite Eq in Hjob. apply Forall_cons in Hjob as [[_ Hjob] _].
  apply (coherent_chain c); unfold queue in *; cbn; try done.
  - intros k. apply Hrow.
  - intros k. apply Hrow.
  - intros j. rewrite Eq. by right.
  - intros k HF. left. by eapply (tail_forced c).
  - intros k. unfold drow at 1. cbn. destruct (Hrow k) as (_ & _ & _ & [?|(op & Hin & Hko & Heq)]); [by left|right].
    subst pull. destruct (c_optimistic c).
    + right. destruct Hjob as [_ Hjob]. specialize (Hjob op Hin). subst k. unfold drow. cbn. rewrite Heq. lia.
    + left. right. apply pulling_todo; [done| |done]. cbn. rewrite <-list_fmap_compose.
      apply list_elem_of_fmap. by exists op.
  - intros k op [(ops' & s' & [= <- <-] & Hop & Hko)|?]%(tail_queued c _ _ _ _ Eq); [|by left].
    right. by apply Hrow.
  - intros k [(ops' & s & op & [= <- ->] & Hop & Hko & Hs)|(ops' & s & op & H)]%(tail_awaits c _ _ _ _ Eq Erun);
      [|left; left; by exists ops', s, op].
    destruct (c_optimistic c) eqn:Ho; [|done]. destruct Hjob as [_ Hjob].
    destruct (decide (tm (du_row d k) <= tm (mrow c k))) as [?|Hlt]; [by right; right|].
    left. right. exists s. split; [|done]. apply pulling_todo; [done| |done]. cbn. subst pull.
    destruct (Hrow k) as (_ & _ & Hmax & [Heq|(x & Hx & Hkx & Heq)]).
    + apply list_elem_of_fmap. exists (op_eid (op_head op)). split; [by subst k|]. rewrite Hst.
      eapply (persist_pulls c owed); [done|exact Eq|done|done|]. subst k. rewrite <-Heq. lia.
    + specialize (Hjob x Hx). rewrite Hkx in Hjob. lia.
  - intros p [= <-]. split; [|done|done]. intros eid Hin.
    assert (∃ op, op ∈ ops ∧ op_eid (op_head op) = eid) as (op & Hop & <-).
    { subst pull. cbn in Hin. destruct (c_optimistic c); [by eapply rejected_in|].
      apply list_elem_of_fmap in Hin as (op & -> & ?). eauto. }
    unfold drow. cbn. destruct (Hrow (op_key op)) as (_ & _ & Hmax & _). specialize (Hmax op Hop eq_refl).
    assert (Hb : bot < op_ms op) by (apply op_ms_bot, w_ok; by eapply Forall_forall in HU).
    fold (op_key op). intros Hn. rewrite Hn in Hmax. cbn in Hmax. lia.
Qed.

Lemma start_ingest c owed eids q :
  coherent U c owed → queue c = JIngest eids :: q → ch_run (c_chain c) = None →
  advance U c (mkCache (c_mem c) (c_durable c) (c_optimistic c)
    (mkChain q (Some (mkPull eids [] None [] None FinIngest)) (ch_inflight (c_chain c)) (ch_settled (c_chain c)))
    (c_reads c) (c_emits c)) owed.
Proof.
  intros Hc Eq Erun. pose proof Hc as [Hi Hw Hk Hj Hr]. assert (Hjob := Hj). rewrite Eq in Hjob.
  apply Forall_cons in Hjob as [Hjob _]. apply (coherent_chain c); unfold queue in *; cbn; try done.
  - intros k. apply Hk.
  - intros j. rewrite Eq. by right.
  - intros k [[?|(es & He & ?)]|Hp]; [by left; left| |rewrite Erun in Hp; by apply no_pulling in Hp].
    rewrite Eq in He. apply elem_of_cons in He as [[= ->]|?]; [|left; right; by exists es].
    right. by apply pulling_todo.
  - by left.
  - intros k op [(? & ? & ? & _)|?]%(tail_queued c _ _ _ _ Eq); [done|by left].
  - intros k [(? & ? & ? & ? & _)|(ops' & s & op & ?)]%(tail_awaits c _ _ _ _ Eq Erun); [done|].
    left. left. by exists ops', s, op.
  - by intros p [= <-].
Qed.

Lemma start_coherent c owed : coherent U c owed → advance U c (start_job c) owed.
Proof.
  intros Hc. unfold start_job. destruct (ch_run (c_chain c)) as [p|] eqn:Erun; [by apply advance_refl|].
  destruct (ch_queue (c_chain c)) as [|job q] eqn:Eq; [by apply advance_refl|].
  destruct job as [ops snap|eids|]; cbv zeta.
  - destruct (persist_rows c owed ops snap q Hc Eq) as (_ & d & res & Hd & _). rewrite Hd.
    by eapply start_persist.
  - by apply start_ingest.
  - destruct Hc as [_ _ _ Hj _]. unfold queue in Hj. rewrite Eq in Hj. by apply Forall_cons in Hj as [[] _].
Qed.

(** *** Turns of the job that runs *)

Lemma finish_coherent c owed p :
  coherent U c owed → ch_run (c_chain c) = Some p → pl_todo p = [] → advance U c (finish_job p Success c) owed.
Proof.
  intros Hc Erun Hp. pose proof Hc as [Hi Hw Hk Hj Hr]. destruct (Hr p Erun) as [_ _ Hfin].
  assert (Hnp : ∀ k snap, ¬ pulling (ch_run (c_chain c)) k snap).
  { intros k snap (p' & Hp' & _ & Hin & _). rewrite Erun in Hp'. injection Hp' as <-. rewrite Hp in Hin. set_solver. }
  assert (Hs : ∀ ch out, advance U c (settle_job ch out p c) owed).
  { intros ch out. apply (coherent_chain c); cbn; try done.
    - intros k. apply Hk.
    - intros k [?|Hpl]; [by left|by apply Hnp in Hpl].
    - by left.
    - by left.
    - intros k [?|(s & Hpl & _)]; [by left; left|by apply Hnp in Hpl]. }
  unfold finish_job. destruct (pl_fin p) as [ops [res| |]| |]; [apply Hs..|done].
Qed.

(** Going on with the same ids to pull. *)
Lemma skip_coherent c owed p p' :
  coherent U c owed → ch_run (c_chain c) = Some p → pl_snap p' = pl_snap p →
  (∀ k, k ∈ btob64 <$> pl_todo p → k ∉ pl_seen p → k ∈ btob64 <$> pl_todo p' ∧ k ∉ pl_seen p') →
  pull_ok U (drow c) (queue c) owed p' → advance U c (with_run (c_mem c) (Some p') c) owed.
Proof.
  intros Hc Erun Hsn Hin Hok. pose proof Hc as [Hi Hw Hk Hj Hr].
  assert (Hpl : ∀ k snap, pulling (ch_run (c_chain c)) k snap → pulling (Some p') k snap).
  { intros k snap (q & Hq & Hs & H1 & H2). rewrite Erun in Hq. injection Hq as <-.
    exists p'. split; [done|]. split; [congruence|]. by apply Hin. }
  apply (coherent_chain c); cbn; try done.
  - intros k. apply Hk.
  - intros k [?|?]; [by left|right; by apply Hpl].
  - by left.
  - by left.
  - intros k [?|(s & ? & ?)]; [by left; left|left; right; exists s; split; [by apply Hpl|done]].
  - by intros ? [= <-].
Qed.

(** The chain after a merge: the id is done, the others are still to pull. *)
Definition merged (ch : Chain) (p : Pull) (key : jsstr) (todo : list bytes) (changed : list jsstr) : Chain :=
  mkChain (ch_queue ch) (Some (mkPull todo (set_add key (pl_seen p)) (pl_snap p) changed None (pl_fin p)))
    (ch_inflight ch) (ch_settled ch).

Lemma merged_pulling ch p eid todo changed k snap :
  ch_run ch = Some p → pl_todo p = eid :: todo → k ≠ btob64 eid →
  pulling (ch_run ch) k snap → pulling (ch_run (merged ch p (btob64 eid) todo changed)) k snap.
Proof.
  intros Erun Htodo Hne (q & Hq & Hs & H1 & H2). rewrite Erun in Hq. injection Hq as <-.
  eexists. split; [done|]. cbn. split_and!; [done| |].
  - rewrite Htodo in H1. cbn in H1. by apply elem_of_cons in H1 as [?|?].
  - rewrite elem_of_set_add. naive_solver.
Qed.

Lemma merged_other opt k m d ch p eid todo changed owed rd :
  ch_run ch = Some p → pl_todo p = eid :: todo → k ≠ btob64 eid →
  key_ok U opt k m d ch owed rd → key_ok U opt k m d (merged ch p (btob64 eid) todo changed) owed rd.
Proof.
  intros Erun Htodo Hne [Gm Gd Ha Hb Hro].
  assert (HF : forced ch owed k → forced (merged ch p (btob64 eid) todo changed) owed k).
  { intros [?|?]; [by left|right]. by eapply merged_pulling. }
  split; [done|done|done| |].
  - destruct Hb as [?|[?|[?|[?|(s & ? & ?)]]]]; [by left|by right; left|by right; right; left; auto|..]; right; right; right.
    + by left.
    + right. exists s. split; [|done]. by eapply merged_pulling.
  - apply (reads_grow U k m d _ _ (forced ch owed k)); try done; [auto|by left].
Qed.

(** The key merged: the memory row is the later of the two, unless it moved
    since the persist that pulls it. *)
Lemma merged_key opt m m' d ch p eid todo changed owed rd row :
  let key := btob64 eid in
  ch_run ch = Some p → good U key (Some row) → tm (Some row) <= tm d →
  Some row = d ∨ pledged (ch_queue ch) owed key →
  m' = later m (Some row) ∨
    m' = m ∧ (∃ s, pl_snap p = Some s ∧ stampEq (rowStamp m) (default None (map_get key s)) = false) →
  key_ok U opt key m d ch owed rd →
  key_ok U opt key m' d (merged ch p key todo changed) owed rd.
Proof.
  intros key Erun Hg Hle Hor Hm' [Gm Gd Ha Hb Hro].
  assert (Hle1 : later m (Some row) = m ∨ later m (Some row) = Some row) by (unfold later; destruct (_ <? _); auto).
  assert (Hle2 : tm m <= tm (later m (Some row)) ∧ tm (Some row) <= tm (later m (Some row))).
  { unfold later. destruct (Z.ltb_spec (tm m) (tm (Some row))); lia. }
  assert (HP : pledged (ch_queue ch) owed key → forced (merged ch p key todo changed) owed key) by by left.
  assert (HF : forced ch owed key → forced (merged ch p key todo changed) owed key ∨ tm d <= tm m').
  { intros [?|(q & Hq & Hs & _)]; [by left; left|]. rewrite Erun in Hq. injection Hq as <-.
    destruct Hm' as [->|[_ (s & Hs' & _)]]; [|congruence].
    destruct Hor as [<-|?]; [right; lia|by left; left]. }
  assert (Gm' : good U key m' ∧ tm m <= tm m').
  { destruct Hm' as [->|[-> _]]; [|done]. split; [by apply later_good|lia]. }
  split; [apply Gm'|done| | |].
  - destruct Hm' as [->|[-> _]]; [|done]. destruct Hle1 as [-> | ->]; [done|by left].
  - destruct Hm' as [->|[-> (s & Hs & Hst)]].
    + destruct Hor as [<-|?]; [left; lia|right; right; left; auto].
    + destruct Hb as [?|[?|[Hf|[?|(s' & (q & Hq & Hs' & _) & Hget)]]]]; [by left|by right; left| |by do 3 right; left|].
      * destruct (HF Hf) as [?|?]; [by right; right; left|by left].
      * rewrite Erun in Hq. injection Hq as <-. rewrite Hs in Hs'. injection Hs' as <-.
        rewrite Hget in Hst. cbn in Hst.
        assert (stampEq (rowStamp m) (rowStamp m) = true) by by apply (stampEq_good U key). congruence.
  - destruct Gm' as [? ?]. apply (reads_grow U key m d _ _ (forced ch owed key)); try done. by left.
Qed.

Lemma merge_coherent c owed p eid todo R :
  coherent U c owed → ch_run (c_chain c) = Some p → pl_todo p = eid :: todo → pl_read p = Some (Ok R) →
  let mc := merge_row (c_mem c) (pl_snap p) (pl_changed p) (btob64 eid) R in
  advance U c (mkCache mc.1 (c_durable c) (c_optimistic c) (merged (c_chain c) p (btob64 eid) todo mc.2)
    (c_reads c) (c_emits c)) owed.
Proof.
  intros Hc Erun Htodo Hread mc. pose proof Hc as [Hi Hw Hk Hj Hr].
  destruct (Hr p Erun) as [Hpt Hpr Hpf].
  destruct (Hpr eid todo (Ok R) Htodo Hread) as (row & [= ->] & Hg & Hle & Hor).
  destruct (merge_row_row U (c_mem c) (pl_snap p) (pl_changed p) (btob64 eid) row Hg
    (ko_m _ _ _ _ _ _ _ _ (Hk (btob64 eid)))) as [Hother Hkey].
  assert (Hk' : ∀ k, key_ok U (c_optimistic c) k (map_get k (ents mc.1)) (drow c k)
      (merged (c_chain c) p (btob64 eid) todo mc.2) owed (c_reads c)).
  { intros k. destruct (decide (k = btob64 eid)) as [->|Hne].
    - by apply (merged_key _ (mrow c (btob64 eid)) _ _ _ _ _ _ _ _ _ row).
    - subst mc. rewrite (Hother k Hne). by apply merged_other. }
  assert (Hm : ∀ k, tm (mrow c k) <= tm (map_get k (ents mc.1))).
  { intros k. destruct (decide (k = btob64 eid)) as [->|Hne]; [|subst mc; by rewrite (Hother k Hne)].
    fold (mrow c (btob64 eid)) in Hkey. subst mc. destruct Hkey as [->|[-> _]]; [|done].
    unfold later. destruct (Z.ltb_spec (tm (mrow c (btob64 eid))) (tm (Some row))); lia. }
  split; [|exact Hm]. split; [by apply merge_row_inv|done|exact Hk'| |].
  - apply (jobs_grow U _ (mrow c) (drow c)); try done; intros k; apply Hk.
  - intros q [= <-]. split; [|done|done]. intros e He. apply Hpt. rewrite Htodo. by right.
Qed.

Lemma turn_coherent c owed : coherent U c owed → advance U c (run_turn c) owed.
Proof.
  intros Hc. pose proof Hc as [Hi Hw Hk Hj Hr]. unfold run_turn.
  destruct (ch_run (c_chain c)) as [p|] eqn:Erun; [|by apply advance_refl]. destruct (Hr p eq_refl) as [Hpt Hpr Hpf].
  destruct (pl_todo p) as [|eid todo] eqn:Htodo; [by apply finish_coherent|]. cbv zeta.
  unfold set_has. case_bool_decide as Hseen.
  { apply (skip_coherent c owed p); try done.
    - intros k Hin Hns. split; [|done]. rewrite Htodo in Hin. apply elem_of_cons in Hin as [->|?]; done.
    - split; [|done|done]. intros e He. apply Hpt. by right. }
  destruct (pl_read p) as [r|] eqn:Hread.
  - destruct (Hpr eid todo r eq_refl eq_refl) as (R & -> & _).
    pose proof (merge_coherent c owed p eid todo (Some R) Hc Erun Htodo Hread) as Hm. cbv zeta in Hm.
    by destruct (merge_row _ _ _ _ _).
  - apply (skip_coherent c owed p); try done.
    + intros k. by rewrite Htodo.
    + rewrite du_getRow_ok by done. split; [exact Hpt| |done]. cbn. intros eid' todo' r [= <- <-] [= <-].
      fold (drow c (btob64 eid)). specialize (Hpt eid ltac:(left)).
      pose proof (ko_d _ _ _ _ _ _ _ _ (Hk (btob64 eid))) as Gd.
      destruct (drow c (btob64 eid)) as [R|] eqn:Ed; [|done]. exists R. split_and!; [done|exact Gd|done|by left].
Qed.

(** ** Runs *)

(** The other thread announces what it wrote, writes are of [U], and the
    database is not cleared. *)
Definition permitted (ev : Event) (c : Cache D) : Prop :=
  match ev with
  | EApply ops | EWorker ops => Forall U ops
  | EIngest eids => ∀ eid, eid ∈ eids → drow c (btob64 eid) ≠ None
  | EClear => False
  | _ => True
  end.

(** The keys written by the other thread and not yet announced. *)
Definition owe (ev : Event) (c : Cache D) (owed : gset jsstr) : gset jsstr :=
  match ev with
  | EWorker ops => owed ∪ list_to_set (written (c_durable c) ops)
  | EIngest eids => owed ∖ list_to_set (btob64 <$> eids)
  | _ => owed
  end.

Inductive runs : Cache D → gset jsstr → Cache D → gset jsstr → Prop :=
  | runs_refl c owed : runs c owed c owed
  | runs_step c owed ev c' owed' :
      permitted ev c → runs (cache_step ev c) (owe ev c owed) c' owed' → runs c owed c' owed'.

Lemma step_coherent ev c owed : permitted ev c → coherent U c owed → advance U c (cache_step ev c) (owe ev c owed).
Proof.
  destruct ev; cbn [permitted owe]; intros Hp Hc.
  - by apply apply_coherent.
  - by apply ingest_coherent.
  - done.
  - by apply start_coherent.
  - by apply turn_coherent.
  - pose proof Hc as [Hi Hw Hk Hj Hr]. by apply (coherent_same c).
  - by apply list_coherent.
  - by apply endWarm_coherent.
  - by apply beginGet_coherent.
  - by apply endGet_coherent.
  - by apply worker_coherent.
Qed.

Lemma runs_advance c owed c' owed' : runs c owed c' owed' → coherent U c owed → advance U c c' owed'.
Proof.
  induction 1 as [|c owed ev c' owed' Hp _ IH]; [apply advance_refl|]. intros Hc.
  destruct (step_coherent ev c owed Hp Hc) as [Hc1 H1]. destruct (IH Hc1) as [Hc2 H2]. split; [done|].
  intros k. etransitivity; [apply H1|apply H2].
Qed.

Lemma step_optimistic ev c : c_optimistic (cache_step ev c) = c_optimistic c.
Proof.
  destruct ev; cbn; try done; unfold cache_apply, start_job, run_turn, finish_job, list_front, ensureWarm, beginWarm,
    endWarm, beginGet, endGet; cbv zeta; repeat (case_match; cbn; try done).
Qed.

Lemma runs_optimistic c owed c' owed' : runs c owed c' owed' → c_optimistic c' = c_optimistic c.
Proof. induction 1; [done|]. by rewrite IHruns, step_optimistic. Qed.
End steps.
