(* ===== verification/CachedChain.v ===== *)
(** * The write chain of the cached entity database

    A measure that every turn of the chain decreases, and [behind]: what the
    chain still has to do, against the calls made. *)
From S2P Require Export CachedInv.
Import EntDBMemory.

Section chain.
Context {D : Type} {DU : Durable D}.
Implicit Types (c : Cache D).

(** Turns a job takes, at most. *)
Definition job_turns (j : Job) : nat :=
  match j with JPersist ops _ => 2 + 2 * length ops | JIngest eids => 2 + 2 * length eids | JClear => 2 end.
Definition pull_turns (p : Pull) : nat :=
  match pl_todo p with
  | [] => 1
  | todo => S (2 * length todo) - match pl_read p with Some _ => 1 | None => 0 end
  end.
Definition work c : nat :=
  (match ch_run (c_chain c) with Some p => pull_turns p | None => 0 end + sum_list_with job_turns (queue c))%nat.

(** What the event loop does with the chain: go on with the job that runs, or
    start the next. *)
Definition chain_turn c : Cache D := match ch_run (c_chain c) with Some _ => run_turn c | None => start_job c end.

(** Jobs not settled. *)
Definition pending c : nat := (length (queue c) + match ch_run (c_chain c) with Some _ => 1 | None => 0 end)%nat.
Definition settled c : nat := length (ch_settled (c_chain c)).

Lemma rejected_length ops sts : (length (rejected ops sts) <= length ops)%nat.
Proof. revert sts. induction ops as [|op ops IH]; intros sts; cbn [rejected]; [done|]. case_bool_decide; cbn; specialize (IH (tail sts)); lia. Qed.

Lemma pull_turns_fresh todo snap fin : (pull_turns (mkPull todo [] snap [] None fin) <= S (2 * length todo))%nat.
Proof. unfold pull_turns. cbn. destruct todo; cbn; lia. Qed.

Lemma start_turn c :
  ¬ idle c → ch_run (c_chain c) = None →
  (work (start_job c) < work c)%nat ∧ (pending (start_job c) + settled (start_job c) = pending c + settled c)%nat.
Proof.
  unfold idle, work, pending, settled, queue, start_job. intros Hni Hrun. rewrite Hrun.
  destruct (ch_queue (c_chain c)) as [|job q]; [naive_solver|]. destruct job as [ops snap|eids|].
  - destruct (du_apply _ ops) as [d res]. cbn -[pull_turns]. set (pull := match res with Ok _ => _ | _ => _ end).
    assert (length pull <= length ops)%nat.
    { subst pull. destruct res as [res| |]; [|cbn; lia..]. destruct (c_optimistic c); [apply rejected_length|by rewrite length_fmap]. }
    pose proof (pull_turns_fresh pull snap (FinPersist ops res)). lia.
  - cbn -[pull_turns]. pose proof (pull_turns_fresh eids None FinIngest). lia.
  - destruct (du_clear _) as [d st]. cbn. lia.
Qed.

Lemma settle_turn c p ch out p' :
  ch_run (c_chain c) = Some p →
  (work (settle_job ch out p' c) < work c)%nat ∧ (pending (settle_job ch out p' c) + settled (settle_job ch out p' c) = pending c + settled c)%nat.
Proof.
  intros Hrun. unfold work, pending, settled, queue. rewrite Hrun. cbn. rewrite length_app. cbn.
  assert (0 < pull_turns p)%nat by (unfold pull_turns; destruct (pl_todo p); [lia|]; destruct (pl_read p); cbn; lia). lia.
Qed.

Lemma finish_turn c p st :
  ch_run (c_chain c) = Some p →
  (work (finish_job p st c) < work c)%nat ∧ (pending (finish_job p st c) + settled (finish_job p st c) = pending c + settled c)%nat.
Proof.
  intros Hrun. unfold finish_job. destruct (pl_fin p) as [ops [res| |]| |s]; try by apply (settle_turn c p).
  case_bool_decide; [|by apply (settle_turn c p)].
  by apply (settle_turn (with_reads (EntDBMemory.clear (c_mem c)) (mkReads [] (rd_warmP (c_reads c)) (rd_gets (c_reads c))) c) p).
Qed.

Lemma run_turn_turn c :
  ch_run (c_chain c) ≠ None →
  (work (run_turn c) < work c)%nat ∧ (pending (run_turn c) + settled (run_turn c) = pending c + settled c)%nat.
Proof.
  intros Hrun. unfold run_turn. destruct (ch_run (c_chain c)) as [p|] eqn:E; [clear Hrun|done].
  destruct (pl_todo p) as [|eid todo] eqn:Ht; [by apply finish_turn|].
  assert (Hw : ∀ mem p', (pull_turns p' < pull_turns p)%nat →
      (work (with_run mem (Some p') c) < work c)%nat ∧
      (pending (with_run mem (Some p') c) + settled (with_run mem (Some p') c) = pending c + settled c)%nat).
  { intros mem p' Hlt. unfold work, pending, settled, queue. rewrite E. cbn. lia. }
  cbv zeta. destruct (set_has _ _).
  { apply Hw. unfold pull_turns. rewrite Ht. cbn. destruct todo, (pl_read p); cbn; lia. }
  destruct (pl_read p) as [[R|st|]|] eqn:Er.
  - destruct (merge_row _ _ _ _ _) as [mem ch]. apply Hw. unfold pull_turns. rewrite Ht, Er. cbn. destruct todo; cbn; lia.
  - by apply finish_turn.
  - by apply (settle_turn c p).
  - apply Hw. unfold pull_turns. rewrite Ht, Er. cbn. lia.
Qed.

Lemma idle_dec c : idle c ∨ ¬ idle c.
Proof.
  unfold idle. destruct (queue c) as [|]; [|right; naive_solver]. destruct (ch_run (c_chain c)); [right; naive_solver|by left].
Qed.

Lemma idle_turn c : idle c → chain_turn c = c.
Proof. unfold idle, chain_turn, start_job, queue. intros [Hq Hrun]. by rewrite Hrun, Hq. Qed.

Lemma chain_turn_less c :
  ¬ idle c → (work (chain_turn c) < work c)%nat ∧
  (pending (chain_turn c) + settled (chain_turn c) = pending c + settled c)%nat.
Proof.
  intros Hni. unfold chain_turn. destruct (ch_run (c_chain c)) eqn:E; [apply run_turn_turn; by rewrite E|by apply start_turn].
Qed.

(** *** The chain behind the calls *)

(** The calls that go to the durable database, as if made at once. *)
Definition durable_call (d : D) (ev : Event) : D :=
  match ev with EApply ops => (du_apply d ops).1 | EClear => (du_clear d).1 | _ => d end.
Definition durable_job (d : D) (j : Job) : D :=
  match j with JPersist ops _ => (du_apply d ops).1 | JClear => (du_clear d).1 | JIngest _ => d end.
Definition is_call (ev : Event) : bool := match ev with EApply _ | EIngest _ | EClear => true | _ => false end.
Definition is_worker (ev : Event) : bool := match ev with EWorker _ => true | _ => false end.

Definition is_persist (j : Job) : nat := match j with JPersist _ _ => 1 | _ => 0 end.

(** Persists not settled. *)
Definition persists c : Z :=
  Z.of_nat (sum_list_with is_persist (queue c) +
    match ch_run (c_chain c) with
    | Some p => match pl_fin p with FinPersist _ _ => 1 | _ => 0 end
    | None => 0
    end).

(** The state the durable database will be in once the queued jobs have run. *)
Definition durable_view c : D := fold_left durable_job (queue c) (c_durable c).

Record behind c (d : D) (n : nat) : Prop := {
  be_view : durable_view c = d;
  be_calls : (pending c + settled c)%nat = n;
  be_inflight : ch_inflight (c_chain c) = if c_optimistic c then persists c else 0;
}.

Lemma behind_same c c' d n :
  c_optimistic c' = c_optimistic c → c_durable c' = c_durable c → c_chain c' = c_chain c →
  behind c d n → behind c' d n.
Proof.
  intros Ho Hd Hch [Hv Hc Hi]. unfold durable_view, pending, settled, persists, queue in *.
  split; unfold durable_view, pending, settled, persists, queue; rewrite ?Ho, ?Hd, ?Hch; done.
Qed.

Lemma apply_behind ops c d n : behind c d n → behind (cache_apply ops c) (du_apply d ops).1 (S n).
Proof.
  intros [Hv Hc Hi]. unfold cache_apply. destruct (c_optimistic c) eqn:Ho.
  - destruct (applyOps _ _ _) as [mem types]. split.
    + unfold durable_view, queue in *. cbn. rewrite fold_left_app. cbn. by rewrite <-Hv.
    + unfold pending, settled, queue in *. cbn. rewrite length_app. cbn. lia.
    + unfold persists, queue in *. cbn. rewrite Hi, sum_list_with_app. cbn. destruct (ch_run _) as [[? ? ? ? ? []]|]; cbn; lia.
  - split.
    + unfold durable_view, queue in *. cbn. rewrite fold_left_app. cbn. by rewrite <-Hv.
    + unfold pending, settled, queue in *. cbn. rewrite length_app. cbn. lia.
    + cbn. by rewrite Ho.
Qed.

Lemma enqueue_behind j c d n :
  is_persist j = 0%nat → behind c d n → behind (enqueue j c) (durable_job d j) (S n).
Proof.
  intros Hj [Hv Hc Hi]. split.
  - unfold durable_view, queue in *. cbn. rewrite fold_left_app. cbn. by rewrite Hv.
  - unfold pending, settled, queue in *. cbn. rewrite length_app. cbn. lia.
  - unfold persists, queue in *. cbn. rewrite Hi, sum_list_with_app. cbn. rewrite Hj.
    destruct (c_optimistic c); [|done]. f_equal. lia.
Qed.

Lemma start_behind c d n : behind c d n → behind (start_job c) d n.
Proof.
  intros [Hv Hc Hi]. unfold start_job. destruct (ch_run (c_chain c)) as [p|] eqn:Er; [by split|].
  destruct (ch_queue (c_chain c)) as [|job q] eqn:Eq; [by split|].
  unfold durable_view, pending, settled, persists, queue in *. rewrite Er, Eq in *. cbv zeta.
  destruct job as [ops snap|eids|]; cbn in Hv, Hc, Hi.
  - destruct (du_apply (c_durable c) ops) as [d' res].
    split; unfold durable_view, pending, settled, persists, queue; cbn in *; [done|lia|].
    destruct (c_optimistic c); [|done]. rewrite Hi. lia.
  - split; unfold durable_view, pending, settled, persists, queue; cbn in *; [done|lia|].
    destruct (c_optimistic c); [|done]. rewrite Hi. lia.
  - destruct (du_clear (c_durable c)) as [d' st].
    split; unfold durable_view, pending, settled, persists, queue; cbn in *; [done|lia|].
    destruct (c_optimistic c); [|done]. rewrite Hi. lia.
Qed.

Lemma settle_behind ch out c p d n :
  ch_run (c_chain c) = Some p → behind c d n → behind (settle_job ch out p c) d n.
Proof.
  intros Er [Hv Hc Hi]. unfold durable_view, pending, settled, persists, queue in *. rewrite Er in *.
  split; unfold durable_view, pending, settled, persists, queue; cbn; [done|rewrite length_app; cbn; lia|].
  rewrite Hi. destruct (pl_fin p), (c_optimistic c); cbn; lia.
Qed.

Lemma turn_behind c d n : behind c d n → behind (run_turn c) d n.
Proof.
  intros Hb. unfold run_turn. destruct (ch_run (c_chain c)) as [p|] eqn:Er; [|done].
  assert (Hf : ∀ st, behind (finish_job p st c) d n).
  { intros st. unfold finish_job. destruct (pl_fin p) as [ops [res| |]| |s]; try by apply settle_behind.
    case_bool_decide; [|by apply settle_behind]. apply settle_behind; [done|]. by apply (behind_same c). }
  assert (Hr : ∀ mem p', pl_fin p' = pl_fin p → behind (with_run mem (Some p') c) d n).
  { intros mem p' Hp. destruct Hb as [Hv Hc Hi]. unfold durable_view, pending, settled, persists, queue in *.
    rewrite Er in *. split; unfold durable_view, pending, settled, persists, queue; cbn; by rewrite ?Hp. }
  destruct (pl_todo p) as [|eid todo]; [apply Hf|]. cbv zeta. destruct (set_has _ _); [by apply Hr|].
  destruct (pl_read p) as [[R|st|]|]; [|apply Hf|by apply settle_behind|by apply Hr].
  destruct (merge_row _ _ _ _ _) as [mem ch]. by apply Hr.
Qed.

Lemma reads_chain ev c :
  match ev with EPaint | EList _ | EWarmed _ | EGet _ | EGot _ => True | _ => False end →
  c_optimistic (cache_step ev c) = c_optimistic c ∧ c_durable (cache_step ev c) = c_durable c ∧
  c_chain (cache_step ev c) = c_chain c.
Proof.
  destruct ev; try done; intros _; cbn [cache_step];
    unfold list_front, ensureWarm, beginWarm, endWarm, beginGet, endGet; cbv zeta; repeat (case_match; cbn); done.
Qed.

Lemma step_behind ev c d n :
  is_worker ev = false → behind c d n →
  behind (cache_step ev c) (durable_call d ev) (n + (if is_call ev then 1 else 0))%nat.
Proof.
  intros Hw Hb. assert (Hs : ∀ c', c_optimistic c' = c_optimistic c ∧ c_durable c' = c_durable c ∧
      c_chain c' = c_chain c → behind c' d n) by (intros c' (? & ? & ?); by apply (behind_same c)).
  destruct ev as [ops|ids| | | | | | | | |]; cbn [is_call durable_call]; rewrite ?Nat.add_0_r, ?Nat.add_1_r;
    try (by apply Hs, reads_chain).
  - by apply apply_behind.
  - by apply (enqueue_behind (JIngest ids)).
  - by apply (enqueue_behind JClear).
  - by apply start_behind.
  - by apply turn_behind.
Qed.
End chain.
