(* ===== verification/CachedProps.v ===== *)
(** * Properties of the cached entity database

    Once the chain is idle memory and the durable database agree; memory never
    hides a write of the application; the chain always drains and brings the
    writes to the durable database in the order of the calls; and the two
    places where the cache goes wrong: equal times, and reads across a clear. *)
From S2P Require Import CachedChain EntProps.
Import EntDBMemory Sample.

(** ** Coherence *)

Section coherence.
Context {D : Type} {DU : Durable D} {DS : DurableSpec D}.
Context (U : IOp → Prop) {W : Writes U} {T : Takes D U}.
Implicit Types (c : Cache D) (owed : gset jsstr) (k : jsstr).

Lemma open_coherent d indexes optimistic :
  du_wf d → (∀ k, good U k (du_row d k)) → coherent U (openCache d [] indexes optimistic) ∅.
Proof.
  intros Hw Hg. split; [apply make_inv|done| |by constructor|done].
  intros k. assert (Hn : mrow (openCache d [] indexes optimistic) k = None) by done. rewrite Hn.
  split; [done|apply Hg| |by right; left|].
  - left. apply (tm_bot U k), Hg.
  - split; [by constructor|set_solver|set_solver|done].
Qed.

Lemma nothing_due c owed k : idle c → k ∉ owed → ¬ forced (c_chain c) owed k ∧ ∀ st, ¬ awaits (c_chain c) k st.
Proof.
  unfold idle, queue, forced, pledged, awaits. intros [-> ->] Hk. split.
  - intros [[?|(? & ? & _)]|Hp]; [done|set_solver|by apply no_pulling in Hp].
  - intros st [(? & ? & ? & ? & _)|(? & Hp & _)]; [set_solver|by apply no_pulling in Hp].
Qed.

Lemma idle_row c owed k :
  coherent U c owed → idle c → k ∉ owed → mrow c k = None ∨ mrow c k = drow c k.
Proof.
  intros Hc Hidle Hk. destruct (nothing_due c owed k Hidle Hk) as [Hf Ha].
  destruct (co_key _ _ _ Hc k) as [Gm Gd Hahead Hbehind _].
  destruct Hbehind as [Hle|[?|[?|Haw]]]; [|by left|done|by apply Ha in Haw]. right.
  apply (good_eq U k); [done|done|].
  destruct Hahead as [?|[_ (op & (ops & snap & Hq & _) & _)]]; [lia|].
  destruct Hidle as [Hq' _]. unfold queue in Hq'. rewrite Hq' in Hq. set_solver.
Qed.

(** Memory and the durable database agree. *)
Definition agrees c : Prop :=
  (∀ eid row, getRow (c_mem c) eid = Some row → du_row (c_durable c) (btob64 eid) = Some row) ∧
  ∀ type es, type ∈ rd_warmed (c_reads c) → du_getEntities (c_durable c) type = Ok es →
    ∃ l, cache_getEntities (QType type) c = (c, Some (Ok l)) ∧ l ≡ₚ es.

Lemma idle_agrees c : coherent U c ∅ → idle c → agrees c.
Proof.
  intros Hc Hidle. assert (Hrow : ∀ k, mrow c k = None ∨ mrow c k = drow c k) by (intros k; by eapply idle_row).
  split.
  - intros eid row Hr. destruct (Hrow (btob64 eid)) as [Hn|He]; unfold mrow, drow, getRow in *; congruence.
  - intros type es Ht Hes. destruct (type_lists (c_mem c) type (co_inv _ _ _ Hc)) as (l & Hl & Hn & Hin).
    exists l. split.
    { unfold cache_getEntities, list_front, query_type, set_has. rewrite bool_decide_eq_true_2 by done. by rewrite Hl. }
    destruct (du_getEntities_ok (c_durable c) type (co_wf _ _ _ Hc)) as (es' & Hes' & Hn' & Hin').
    rewrite Hes in Hes'. injection Hes' as <-. apply NoDup_Permutation; [done|done|]. intros e. rewrite Hin, Hin'.
    unfold live_at. split; intros [He <-]; (split; [|done]).
    + destruct (Hrow (btob64 (e_eid e))) as [Hn0|Heq]; unfold mrow, drow in *; congruence.
    + destruct (co_key _ _ _ Hc (btob64 (e_eid e))) as [_ _ _ _ Hro].
      destruct (nothing_due c ∅ (btob64 (e_eid e)) Hidle ltac:(set_solver)) as [Hf _].
      destruct (ro_warm _ _ _ _ _ _ Hro e He Ht) as [Hne|?]; [|done].
      destruct (Hrow (btob64 (e_eid e))) as [?|Heq]; [done|]. unfold mrow in Heq. by rewrite Heq.
Qed.

(** [C6] Coherence: a cache opened over a database, after any events (calls of
    [apply], ingests, lists and reads, the turns of their continuations,
    commits of another thread, in any order), once the write chain is idle and
    all that the other thread wrote has been announced: a row memory holds is
    the durable row, and a type once listed is listed from memory as the
    durable database lists it.  No two writes of an entity share a time; ids
    are announced after they are written; [clear] is not called. *)
Theorem cache_coherent d indexes optimistic c :
  du_wf d → (∀ k, good U k (du_row d k)) →
  runs U (openCache d [] indexes optimistic) ∅ c ∅ → idle c →
  agrees c.
Proof.
  intros Hw Hg Hruns Hidle.
  destruct (runs_advance U _ _ _ _ Hruns (open_coherent d indexes optimistic Hw Hg)) as [Hc _]. by apply idle_agrees.
Qed.

(** ** Own writes *)

(** [C7] No read hides a write of the application.  The writes are dated, no two
    different ones of an entity share a time (those of the rows stored at first
    included), the database takes each of them (it may answer that a row is
    newer, it does not fail), ids are ingested once their rows are there, and
    [clear] is not called.  Then an op given to [apply] of an optimistic cache is, from the moment
    of the call and through whatever applies, ingests, lists, reads, turns and
    commits of another thread follow, at least as old as the row memory holds
    for its entity: neither an ingest, nor the end of an older persist, nor rows
    loaded for a list put back an older row. *)
Theorem own_writes_stay_visible d indexes c owed ops op c' owed' :
  du_wf d → (∀ k, good U k (du_row d k)) →
  runs U (openCache d [] indexes true) ∅ c owed → Forall U ops → op ∈ ops →
  runs U (cache_apply ops c) owed c' owed' →
  ∃ row t, getRow (c_mem c') (op_eid (op_head op)) = Some row ∧ row_updatedAt row = Some t ∧ op_ms op <= t.
Proof.
  intros Hw Hg Hruns HU Hin Hruns'.
  destruct (runs_advance U _ _ _ _ Hruns (open_coherent d indexes true Hw Hg)) as [Hc _].
  destruct (apply_coherent U c owed ops Hc HU) as [Hc1 _].
  destruct (runs_advance U _ _ _ _ Hruns' Hc1) as [Hc2 Hm].
  assert (Hopt : c_optimistic c = true) by (by rewrite (runs_optimistic U _ _ _ _ Hruns)).
  assert (H1 : op_ms op <= tm (mrow (cache_apply ops c) (op_key op))).
  { unfold cache_apply, mrow. rewrite Hopt. pose proof (applyOps_row (c_mem c) [] ops (op_key op)) as Hrow.
    destruct (applyOps _ _ _) as [mem types]. cbn in Hrow |- *. rewrite Hrow.
    by apply (writes_good U (op_key op) (mrow c (op_key op)) ops (ko_m _ _ _ _ _ _ _ _ (co_key _ _ _ Hc _)) HU). }
  specialize (Hm (op_key op)). pose proof (ko_m _ _ _ _ _ _ _ _ (co_key _ _ _ Hc2 (op_key op))) as Gm.
  unfold getRow. fold (op_key op). fold (mrow c' (op_key op)).
  pose proof (op_ms_bot op (w_ok op (proj1 (Forall_forall _ _) HU op Hin))).
  destruct (mrow c' (op_key op)) as [row|]; [|cbn in Hm; lia].
  exists row, (tm (Some row)). split_and!; [done|by eapply (good_dated U)|lia].
Qed.
End coherence.

(** ** The write chain *)

Section chain.
Context {D : Type} {DU : Durable D}.
Implicit Types (c : Cache D).

(** Every job settles: whatever the durable database answers, failed and
    thrown calls included, after at most [work c] turns of the write chain no
    job is queued or running, and the outcomes grew by exactly one for each
    job that was. *)
Theorem chain_drains c :
  let c' := Nat.iter (work c) chain_turn c in
  idle c' ∧ settled c' = (settled c + pending c)%nat.
Proof.
  remember (work c) as n eqn:Hn. assert (Hle : (work c <= n)%nat) by lia. clear Hn. cbv zeta.
  revert c Hle. induction n as [|n IH]; intros c Hle.
  - destruct (idle_dec c) as [Hi|Hni]; [|apply chain_turn_less in Hni; lia]. split; [done|].
    destruct Hi as [Hq Hrun]. unfold pending. rewrite Hq, Hrun. cbn. lia.
  - rewrite Nat.iter_succ_r. destruct (idle_dec c) as [Hi|Hni].
    + rewrite idle_turn by done. apply IH. destruct Hi as [Hq Hrun]. unfold work. rewrite Hq, Hrun. cbn. lia.
    + destruct (chain_turn_less c Hni) as [Hlt Heq]. destruct (IH (chain_turn c)) as [H1 H2]; [lia|].
      split; [done|]. rewrite H2. lia.
Qed.

(** [C19] Write-behind: without writes by others, what the durable database
    holds together with what is queued is at every moment what the calls of
    [apply] and [clear] leave when each is made at once, in the order of the
    calls; every call of [apply], [clear] and [ingestFromDurable] is queued,
    running or settled once; and [inflight] counts the optimistic persists not
    settled, so that once the chain is idle lists load their type again. *)
Theorem writes_reach_durable_in_order d init indexes optimistic evs :
  Forall (λ ev, is_worker ev = false) evs →
  let c := fold_left (λ c ev, cache_step ev c) evs (openCache d init indexes optimistic) in
  durable_view c = fold_left durable_call evs d ∧
  (pending c + settled c = length (List.filter is_call evs))%nat ∧
  ch_inflight (c_chain c) = (if c_optimistic c then persists c else 0) ∧
  (idle c → c_durable c = fold_left durable_call evs d ∧ ch_inflight (c_chain c) = 0).
Proof.
  intros Hev c. assert (Hb : behind c (fold_left durable_call evs d) (length (List.filter is_call evs))).
  { subst c. revert Hev. induction evs as [|ev evs IH] using rev_ind; intros Hev.
    { split; [done|done|by destruct optimistic]. }
    apply Forall_app in Hev as [Hev Hw]. apply Forall_cons in Hw as [Hw _]. rewrite !fold_left_app, List.filter_app, length_app.
    cbn [fold_left]. pose proof (step_behind ev _ _ _ Hw (IH Hev)) as H. cbn [List.filter]. by destruct (is_call ev). }
  destruct Hb as [Hv Hc Hi]. split_and!; [done|done|done|].
  intros [Hq Hrun]. unfold durable_view in Hv. rewrite Hq in Hv. cbn in Hv. split; [done|].
  rewrite Hi. unfold persists. rewrite Hq, Hrun. by destruct (c_optimistic c).
Qed.
End chain.

(** ** Concrete runs *)

Section runs.
Context {D : Type} {DU : Durable D} (U : IOp → Prop).

Fixpoint all_permitted (evs : list Event) (c : Cache D) : Prop :=
  match evs with [] => True | ev :: evs => permitted U ev c ∧ all_permitted evs (cache_step ev c) end.

Fixpoint owe_all (evs : list Event) (c : Cache D) (owed : gset jsstr) : gset jsstr :=
  match evs with [] => owed | ev :: evs => owe_all evs (cache_step ev c) (owe ev c owed) end.

Lemma runs_events evs c owed :
  all_permitted evs c →
  runs U c owed (fold_left (λ c ev, cache_step ev c) evs c) (owe_all evs c owed).
Proof.
  revert c owed. induction evs as [|ev evs IH]; intros c owed; [intros _; constructor|].
  intros [Hp Hr]. econstructor; [exact Hp|]. by apply IH.
Qed.
End runs.

Module CacheDemo.
Definition sample (op : IOp) : Prop := op ∈ ops.

Lemma sample_writes : Writes sample.
Proof.
  split.
  - intros op Hop. pose proof sample_ok as H. by eapply Forall_forall in H.
  - intros o1 o2 H1 H2 Hk Ht. f_equal. apply sample_no_ties; [done|done| |done].
    unfold op_key in Hk. by apply (inj btob64) in Hk.
Qed.

(** The durable database holds [b]; the type is listed, an op is applied, another
    thread deletes [b], and the answers come in late. *)
Definition stored0 : db := (EntDBMemory.apply empty [note b 0 [js "x"] [x0b]]).1.
Definition early : list Event := [EList (js "note"); EApply [note a 0 [js "x"; js "y"] [x0a]]; EWorker [delete b 9]].
Definition late : list Event :=
  [EWarmed (js "note"); EStart; EIngest [b]; EApply [note a 5 [js "y"] [x0c]]; ETurn; EStart; ETurn; ETurn; ETurn;
   EStart; ETurn; EPaint].
Definition cache0 : Cache db := openCache stored0 [] true true.
Definition cache1 : Cache db := fold_left (λ c ev, cache_step ev c) (early ++ late) cache0.

Lemma stored_good k : good sample k (du_row stored0 k).
Proof.
  change (du_row stored0 k) with (map_get k (ents (EntDBMemory.apply empty [note b 0 [js "x"] [x0b]]).1)).
  rewrite apply_row. apply (@writes_good sample sample_writes k None [note b 0 [js "x"] [x0b]]); [done|].
  apply Forall_singleton. by apply (bool_decide_unpack _).
Qed.

Lemma demo_permitted : all_permitted sample (early ++ late) cache0.
Proof.
  cbn [all_permitted app early late permitted]. repeat split; try (apply Forall_singleton; by apply (bool_decide_unpack _)).
  intros eid Hin. apply list_elem_of_singleton in Hin as ->. by vm_compute.
Qed.

Lemma demo_owed : owe_all (early ++ late) cache0 ∅ = ∅.
Proof. vm_compute. reflexivity. Qed.
End CacheDemo.
Import CacheDemo.

Lemma cache_coherent_witness :
  getRow (c_mem cache1) b = Some (row_of (delete b 9)) ∧
  du_row (c_durable cache1) (btob64 b) = Some (row_of (delete b 9)) ∧
  ∃ l, cache_getEntities (QType (js "note")) cache1 = (cache1, Some (Ok l)) ∧
    l ≡ₚ match du_getEntities (c_durable cache1) (js "note") with Ok es => es | _ => [] end.
Proof.
  pose proof (runs_events sample (early ++ late) cache0 ∅ demo_permitted) as Hr. rewrite demo_owed in Hr.
  destruct (@cache_coherent db mem_durable mem_durable_spec sample sample_writes (mem_takes sample) stored0 true true cache1
    (apply_inv _ _ (make_inv _ _)) stored_good Hr ltac:(split; vm_compute; reflexivity)) as [H1 H2].
  assert (Hb : getRow (c_mem cache1) b = Some (row_of (delete b 9))) by (vm_compute; reflexivity).
  split; [exact Hb|]. split; [exact (H1 b _ Hb)|]. apply H2.
  - apply (bool_decide_unpack _). vm_compute. exact I.
  - vm_compute. reflexivity.
Defined.

Lemma own_writes_stay_visible_witness :
  ∃ row t, getRow (c_mem cache1) a = Some row ∧ row_updatedAt row = Some t ∧ 1000 <= t.
Proof.
  pose (first := note a 0 [js "x"; js "y"] [x0a]).
  assert (Hp := demo_permitted). cbn [all_permitted app early] in Hp. destruct Hp as (_ & HU & Hp).
  refine (@own_writes_stay_visible db mem_durable mem_durable_spec sample sample_writes (mem_takes sample) stored0 true
    (cache_step (EList (js "note")) cache0) ∅ [first] first cache1 _ (apply_inv _ _ (make_inv _ _)) stored_good
    (runs_step sample cache0 ∅ (EList (js "note")) _ _ I (runs_refl _ _ _)) HU ltac:(left)
    (runs_events sample (EWorker [delete b 9] :: late) _ ∅ Hp)).
Defined.

Lemma writes_reach_durable_in_order_witness :
  let evs := [EList (js "note"); EApply [note a 0 [js "x"] [x0a]]; EStart; EApply [delete a 9]; ETurn; EStart; ETurn] in
  let c := fold_left (λ c ev, cache_step ev c) evs (openCache stored0 [] true true) in
  c_durable c = (EntDBMemory.apply (EntDBMemory.apply stored0 [note a 0 [js "x"] [x0a]]).1 [delete a 9]).1.
Proof.
  intros evs c.
  apply (writes_reach_durable_in_order stored0 [] true true evs ltac:(by apply (bool_decide_unpack _))).
  split; vm_compute; reflexivity.
Defined.

(** Where the cache goes wrong: of two writes of an entity with the same
    time, the database keeps the one it has, but memory, which had not loaded
    the row, keeps the one with the higher counter: the pull of the rejected op
    does not replace a row that wins by its counter, and with the chain idle the
    two differ for good. *)
Theorem cache_keeps_losing_tie :
  let stored := (EntDBMemory.apply empty [note a 0 [js "x"] [x0a]]).1 in
  let rival := mkOp (mkOpHead a (Some 0) 2) (Some (mkMutate (js "note") None None (Some [x0d]))) in
  let c := fold_left (λ c ev, cache_step ev c) [EApply [rival]; EStart; ETurn; ETurn; ETurn] (openCache stored [] true true) in
  idle c ∧ ch_settled (c_chain c) = [Ok [NoChange]] ∧
  getRow (c_mem c) a = Some (row_of rival) ∧ du_row (c_durable c) (btob64 a) ≠ Some (row_of rival).
Proof. vm_compute. repeat split. discriminate. Qed.

(** Where the cache goes wrong: rows a list has asked for before [clear]
    and that arrive after it are put back into memory, and their type counts as
    loaded, while the database is empty. *)
Theorem clear_brings_rows_back :
  let c := fold_left (λ c ev, cache_step ev c) [EList (js "note"); EClear; EStart; ETurn; EWarmed (js "note")]
    (openCache stored0 [] true true) in
  idle c ∧ ch_settled (c_chain c) = [Ok [Success]] ∧ getRow (c_durable c) b = None ∧
  getRow (c_mem c) b = Some (row_of (note b 0 [js "x"] [x0b])) ∧ js "note" ∈ rd_warmed (c_reads c).
Proof.
  vm_compute. repeat split. by left.
Qed.
