(* ===== verification/EntIdb.v ===== *)
(** * The IndexedDB entity database ([web/src/entdb/idb.ts])

    The browser database is an object store behind the class [ObjectStore]: its
    records, keyed reads and writes, and index queries over key ranges.
    [ObjectStoreLaws] is what its specification promises.  On top of it: the
    stored form of a row, [EntIDB.apply] with its grouping of ops and its
    handling of failed requests, and the queries. *)
From S2P Require Import Stores.
From S2P Require Export CachedFacts.
Import EntDBMemory.

(** ** Keys and ranges of IndexedDB *)

(** Valid keys; a [Date] with no time is none. *)
#[warnings="-register-all"] Inductive IDBKey := KDate (t : Z) | KStr (s : jsstr) | KArr (l : list IDBKey).

(** [indexedDB.cmp]: dates, then strings, then arrays element by element. *)
Fixpoint key_cmp (a b : IDBKey) : comparison :=
  match a, b with
  | KDate x, KDate y => x ?= y
  | KDate _, _ => Lt
  | KStr _, KDate _ => Gt
  | KStr x, KStr y => if str_lt x y then Lt else if str_lt y x then Gt else Eq
  | KStr _, KArr _ => Lt
  | KArr xs, KArr ys =>
      (fix arr (xs ys : list IDBKey) : comparison :=
         match xs, ys with
         | [], [] => Eq
         | [], _ :: _ => Lt
         | _ :: _, [] => Gt
         | x :: xs, y :: ys => match key_cmp x y with Eq => arr xs ys | c => c end
         end) xs ys
  | KArr _, _ => Gt
  end.

Definition key_lt (a b : IDBKey) : bool := match key_cmp a b with Lt => true | _ => false end.

Record IDBKeyRange := mkRange { kr_lower : IDBKey; kr_upper : IDBKey; kr_lowerOpen : bool; kr_upperOpen : bool }.

Definition in_range (k : IDBKey) (r : IDBKeyRange) : bool :=
  (if kr_lowerOpen r then key_lt (kr_lower r) k else negb (key_lt k (kr_lower r))) &&
  (if kr_upperOpen r then key_lt k (kr_upper r) else negb (key_lt (kr_upper r) k)).

Definition range_only (k : IDBKey) : IDBKeyRange := mkRange k k false false.

(** ** Stored rows *)

Record IStoredEntity := mkStoredEnt {
  s_bod : option bytes; s_crd : Date; s_ctr : option Z; s_eid : jsstr; s_pid : option jsstr;
  s_rlm : option jsstr; s_tgs : option (list jsstr); s_typ : jsstr; s_upd : Date;
}.
Record IStoredTomb := mkStoredTomb { st_eid : jsstr; st_upd : Date; st_ctr : option Z }.
Inductive IStoredRow := SLive (s : IStoredEntity) | STomb (t : IStoredTomb).

Definition s_key (row : IStoredRow) : jsstr := match row with SLive s => s_eid s | STomb t => st_eid t end.

Definition put_ctr (ctr : Z) : option Z := if ctr =? 0 then None else Some ctr.

Definition entityToStored (ent : IEntity) : IStoredEntity :=
  mkStoredEnt (e_body ent) (e_createdAt ent) (put_ctr (e_ctr ent)) (btob64 (e_eid ent)) (btob64 <$> e_pid ent)
    (realmLabel (e_rlm ent)) (e_tags ent) (e_type ent) (e_updatedAt ent).

Definition rowToStored (row : IEntRow) : IStoredRow :=
  match row with
  | Tomb t => STomb (mkStoredTomb (btob64 (t_eid t)) (t_updatedAt t) (put_ctr (t_ctr t)))
  | Live e => SLive (entityToStored e)
  end.

(** [b64tob], on what [btob64] writes. *)
Definition b64tob (s : jsstr) : bytes := unb64 s.

(** An empty [pid] is falsy. *)
Definition storedToEntity (s : IStoredEntity) : IEntity :=
  mkEntity (b64tob (s_eid s)) (match s_pid s with Some [] | None => None | Some p => Some (b64tob p) end)
    (s_tgs s) (s_typ s) (s_crd s) (s_upd s) (default 0 (s_ctr s)) (s_bod s) (realmLabel (s_rlm s)).

Definition storedToRow (s : IStoredRow) : IEntRow :=
  match s with
  | SLive s => Live (storedToEntity s)
  | STomb t => Tomb (mkTomb (b64tob (st_eid t)) (st_upd t) (default 0 (st_ctr t)))
  end.

Definition toEntities (stored : list IStoredEntity) : list IEntity := storedToEntity <$> stored.

(** ** The object store and its indexes *)

Inductive IDBIndex := IxType | IxUpdatedAt | IxParent | IxTags.

(** The keys of a record in an index ([upgradeEntIdb]): none where a part of the
    key path is absent or no valid key, one per distinct tag in the multi-entry
    index. *)
Definition index_keys (ix : IDBIndex) (row : IStoredRow) : list IDBKey :=
  match row with
  | STomb _ => []
  | SLive s =>
      match ix with
      | IxType => match s_crd s with Some t => [KArr [KStr (s_typ s); KDate t]] | None => [] end
      | IxUpdatedAt => match s_upd s with Some t => [KArr [KStr (s_typ s); KDate t]] | None => [] end
      | IxParent => match s_pid s with Some p => [KArr [KStr (s_typ s); KStr p]] | None => [] end
      | IxTags => KStr <$> remove_dups (default [] (s_tgs s))
      end
  end.

Class ObjectStore (S : Type) := {
  os_get : S → jsstr → option IStoredRow;
  os_put : S → IStoredRow → S;
  os_clear : S → S;
  os_all : S → list IStoredRow;                           (* a cursor over the store *)
  os_getAll : S → IDBIndex → IDBKeyRange → list IStoredEntity;
}.

Class ObjectStoreLaws (S : Type) {OS : ObjectStore S} := {
  os_get_put s row k : os_get (os_put s row) k = if decide (k = s_key row) then Some row else os_get s k;
  os_get_clear s k : os_get (os_clear s) k = None;
  os_all_NoDup s : NoDup (s_key <$> os_all s);
  os_all_get s row : row ∈ os_all s ↔ os_get s (s_key row) = Some row;
  (** One hit for each index key in the range, in some order. *)
  os_getAll_hits s ix r :
    SLive <$> os_getAll s ix r ≡ₚ
      (os_all s ≫= λ row, (λ _, row) <$> List.filter (λ k, in_range k r) (index_keys ix row));
}.

(** ** [apply] *)

(** What may fail: the connection, the read of a key, the write of a key, the
    commit. *)
Record Faults := mkFaults { f_open : bool; f_get : jsstr → bool; f_put : jsstr → bool; f_commit : bool }.
Definition no_faults : Faults := mkFaults false (λ _, false) (λ _, false) false.

Abbreviation Group := (list (IOp * nat)).

(** Ops by entity, in order of first appearance. *)
Definition group_ops (ops : list IOp) : jsmap jsstr Group :=
  fold_left (λ groups '(op, i),
    map_set (op_key op) (default [] (map_get (op_key op) groups) ++ [(op, i)]) groups)
    (imap (λ i op, (op, i)) ops) [].

(** What a transaction has gathered; [results] is indexed by op. *)
Record Tx := mkTx { tx_results : list Status; tx_types : list jsstr; tx_eids : list bytes }.

Definition set_stat (i : nat) (st : Status) (tx : Tx) : Tx :=
  mkTx (<[i := st]> (tx_results tx)) (tx_types tx) (tx_eids tx).

(** The ops of one group, against the row read; whether any was applied. *)
Fixpoint run_group (group : Group) (curr : option IEntRow) (changed : bool) (tx : Tx)
    : option IEntRow * bool * Tx :=
  match group with
  | [] => (curr, changed, tx)
  | (op, i) :: group =>
      match applyOp curr op with
      | Ok next =>
          run_group group (Some next) true
            (mkTx (tx_results tx) (fold_left (λ ts t, set_add t ts) (typesChanged curr next) (tx_types tx)) (tx_eids tx))
      | Err st => run_group group curr changed (set_stat i st tx)
      | Throw => run_group group curr changed tx   (* never: EntMemFacts.applyOp_no_throw *)
      end
  end.

Definition fail_group (group : Group) (tx : Tx) : Tx :=
  fold_left (λ tx '(_, i), set_stat i DatabaseError tx) group tx.

Section idb.
Context {S : Type} {OS : ObjectStore S}.

(** The [onsuccess] handlers of the reads, in order, against the store as it was
    when the transaction began.  Left: the read failed, with what the
    [onerror] of the transaction then answers; right: the rows to write. *)
Fixpoint run_groups (f : Faults) (s : S) (groups : jsmap jsstr Group) (tx : Tx) (puts : list (IEntRow * Group))
    : Tx + Tx * list (IEntRow * Group) :=
  match groups with
  | [] => inr (tx, puts)
  | (eidB64, group) :: groups =>
      if f_get f eidB64 then inl (fail_group group tx)
      else
        let '(curr, changed, tx) := run_group group (storedToRow <$> os_get s eidB64) false tx in
        let tx := if changed then
                    mkTx (tx_results tx) (tx_types tx)
                      (tx_eids tx ++ match group with (op, _) :: _ => [op_eid (op_head op)] | [] => [] end)
                  else tx in
        run_groups f s groups tx (puts ++ match curr with Some row => [(row, group)] | None => [] end)
  end.

(** The writes.  A failed one marks its group and its error still reaches the
    [onerror] of the transaction, which answers at once; the others go on.  The
    answer holds the results as they are then, which is what the caller finds when
    it resumes, before the next event; the array is the same, and a later failure
    still marks it. *)
Fixpoint run_puts (f : Faults) (s : S) (tx : Tx) (puts : list (IEntRow * Group)) (answer : option Tx)
    : S * Tx * option Tx :=
  match puts with
  | [] => (s, tx, answer)
  | (row, group) :: puts =>
      if f_put f (s_key (rowToStored row)) then
        let tx := fail_group group tx in
        run_puts f s tx puts (Some (default tx answer))
      else run_puts f (os_put s (rowToStored row)) tx puts answer
  end.

Definition tx_answer (tx : Tx) : applied := mkApplied (tx_results tx) (tx_types tx) (tx_eids tx).

(** [apply]: the store it leaves and its answer, [None] where it never gives one. *)
Definition idb_apply (f : Faults) (s : S) (ops : list IOp) : S * option applied :=
  if f_open f then (s, Some (mkApplied ((λ _, DatabaseClosed) <$> ops) [] []))
  else if Nat.ltb (length ops) 1 then (s, Some (mkApplied [] [] []))
  else
    match run_groups f s (group_ops ops) (mkTx ((λ _, Success) <$> ops) [] []) [] with
    | inl tx => (s, Some (tx_answer tx))
    | inr (tx, puts) =>
        let '(s', tx, answer) := run_puts f s tx puts None in
        if f_commit f then (s, tx_answer <$> answer)
        else (s', Some (tx_answer (default tx answer)))
    end.

(** ** Reading *)

(** The request of [clear] is a write; as in [apply], an aborted commit is never
    answered. *)
Definition idb_clear (f : Faults) (s : S) : S * option Status :=
  if f_open f then (s, Some DatabaseClosed)
  else if f_put f [] then (s, Some DatabaseError)
  else if f_commit f then (s, None)
  else (os_clear s, Some Success).

Definition idb_getRow (f : Faults) (s : S) (eid : bytes) : Res (option IEntRow) :=
  if f_open f then Err DatabaseClosed
  else if f_get f (btob64 eid) then Err DatabaseError
  else Ok (storedToRow <$> os_get s (btob64 eid)).

Definition idb_getEnt (f : Faults) (s : S) (eid : bytes) : Res (option IEntity) :=
  row ← idb_getRow f s eid; Ok (match row with Some (Live e) => Some e | _ => None end).

(** [IDBKeyRange.bound]: no range from a bound that is no key, nor one whose
    upper bound comes first.  Of a single point with an open end browsers
    disagree; [strict] says it is refused. *)
Definition idb_bound (strict : bool) (lower upper : IDBKey) (lo uo : bool) : Res IDBKeyRange :=
  if key_lt upper lower then Throw
  else if strict && negb (key_lt lower upper) && (lo || uo) then Throw
  else Ok (mkRange lower upper lo uo).

Definition dateIdbRange (strict : bool) (type : jsstr) (spec : DateSpec) : Res IDBKeyRange :=
  match spec with
  | DateExact d => match d with Some t => Ok (range_only (KArr [KStr type; KDate t])) | None => Throw end
  | DateRange r =>
      match dr_start r, dr_end r with
      | Some a, Some b =>
          idb_bound strict (KArr [KStr type; KDate a]) (KArr [KStr type; KDate b]) (dr_excludeStart r) (dr_excludeEnd r)
      | _, _ => Throw
      end
  end.

Definition tagIdbRange (strict : bool) (spec : TagSpec) : Res IDBKeyRange :=
  match spec with
  | TagExact t => Ok (range_only (KStr t))
  | TagRange r => idb_bound strict (KStr (tr_start r)) (KStr (tr_end r)) (tr_excludeStart r) (tr_excludeEnd r)
  | TagPrefix p => idb_bound strict (KStr p) (KStr (p ++ [65535])) false false
  end.

Definition filter_hit (spec : TagSpec) (seen : list jsstr) (s : IStoredEntity) : bool :=
  negb (set_has (s_eid s) seen) &&
  match spec with
  | TagPrefix p => match s_tgs s with Some tgs => existsb (λ t, startsWith t p) tgs | None => false end
  | _ => true
  end.

Definition filterTagHits (stored : list IStoredEntity) (type : jsstr) (spec : TagSpec) : list IEntity :=
  match spec with
  | TagExact _ => toEntities (List.filter (λ s, bool_decide (s_typ s = type)) stored)
  | _ =>
      (fold_left (λ '(seen, out) s,
         if bool_decide (s_typ s = type) && filter_hit spec seen s
         then (set_add (s_eid s) seen, out ++ [storedToEntity s]) else (seen, out)) stored ([], [])).2
  end.

(** Index queries; [f_get] of the index name stands for a failed request. *)
Definition idb_query (f : Faults) (s : S) (ix : IDBIndex) (r : IDBKeyRange) : Res (list IStoredEntity) :=
  if f_open f then Err DatabaseClosed else if f_get f [] then Err DatabaseError else Ok (os_getAll s ix r).

Definition getAllOfType (f : Faults) (s : S) (type : jsstr) : Res (list IEntity) :=
  stored ← idb_query f s IxType (mkRange (KArr [KStr type]) (KArr [KStr type; KArr []]) false false);
  Ok (toEntities stored).

(** The connection is opened before the range is built. *)
Definition with_range {A} (f : Faults) (r : Res IDBKeyRange) (k : IDBKeyRange → Res A) : Res A :=
  if f_open f then Err DatabaseClosed else (r ← r; k r).

Definition getByUpdatedAt (strict : bool) (f : Faults) (s : S) (type : jsstr) (spec : DateSpec) : Res (list IEntity) :=
  may ← dateSpecMayMatch spec;
  if negb may then Ok []
  else with_range f (dateIdbRange strict type spec) (λ r,
    stored ← idb_query f s IxUpdatedAt r; Ok (toEntities stored)).

Definition getByTag (strict : bool) (f : Faults) (s : S) (type : jsstr) (spec : TagSpec) : Res (list IEntity) :=
  may ← tagSpecMayMatch spec;
  if negb may then Ok []
  else with_range f (tagIdbRange strict spec) (λ r,
    stored ← idb_query f s IxTags r; Ok (filterTagHits stored type spec)).

Definition idb_getEntities (strict : bool) (f : Faults) (s : S) (query : EntitiesQuery) : Res (list IEntity) :=
  match query with
  | QPid type pid =>
      stored ← idb_query f s IxParent (range_only (KArr [KStr type; KStr (btob64 pid)]));
      Ok (toEntities stored)
  | QTag type spec => getByTag strict f s type spec
  | QDate type spec => getByUpdatedAt strict f s type spec
  | QType type => getAllOfType f s type
  end.

Definition idb_countEntities (f : Faults) (s : S) (type : jsstr) : Res Z :=
  stored ← idb_query f s IxType (mkRange (KArr [KStr type]) (KArr [KStr type; KArr []]) false false);
  Ok (Z.of_nat (length stored)).

Context {C : CryptoPrims}.

Definition idb_checksum (f : Faults) (s : S) : Res bytes :=
  if f_open f then Err DatabaseClosed else if f_get f [] then Err DatabaseError
  else checksumEntRevs (revFromEntity ∘ storedToRow <$> os_all s).
End idb.
