(* ===== verification/EntIdbFacts.v ===== *)
(** * What the IndexedDB entity database stores and answers

    Rows survive their stored form; [apply], which groups the ops by entity,
    leaves and reports what folding them one by one does; index queries answer
    as scans. *)
From S2P Require Import Stores.
From S2P Require Export EntIdb.
Import EntDBMemory.

(** ** Stored rows *)

(** Rows that read back: no empty parent id, which is falsy, and no empty realm
    label. *)
Definition storable (row : IEntRow) : Prop :=
  match row with Live e => e_pid e ≠ Some [] ∧ e_rlm e ≠ Some [] | Tomb _ => True end.

Lemma b64tob_btob64 bs : b64tob (btob64 bs) = bs.
Proof. apply unb64_btob64. Qed.

Lemma put_ctr_default ctr : default 0 (put_ctr ctr) = ctr.
Proof. unfold put_ctr. by destruct (Z.eqb_spec ctr 0) as [->|]. Qed.

Lemma btob64_nil bs : btob64 bs = [] → bs = [].
Proof. intros H. rewrite <-(b64tob_btob64 bs), H. done. Qed.

Lemma row_roundtrip row : storable row → storedToRow (rowToStored row) = row.
Proof.
  destruct row as [[eid pid tags type crd upd ctr body rlm]|[eid upd ctr]]; cbn.
  - intros [Hp Hr]. unfold storedToEntity. cbn. rewrite b64tob_btob64, put_ctr_default. repeat f_equal.
    + destruct pid as [p|]; [|done]. cbn. destruct (btob64 p) as [|x l] eqn:E.
      * by apply btob64_nil in E as ->.
      * by rewrite <-E, b64tob_btob64.
    + destruct rlm as [[|x l]|]; done.
  - intros _. by rewrite b64tob_btob64, put_ctr_default.
Qed.

Lemma stored_key row : s_key (rowToStored row) = btob64 (row_eid row).
Proof. by destruct row. Qed.

(** ** Groups *)

Definition indexed (ops : list IOp) : Group := imap (λ i op, (op, i)) ops.
Definition at_key (k : jsstr) (l : Group) : Group := filter (λ p, op_key p.1 = k) l.

Lemma group_fold l (m : jsmap jsstr Group) k :
  map_get k (fold_left (λ groups '(op, i),
    map_set (op_key op) (default [] (map_get (op_key op) groups) ++ [(op, i)]) groups) l m) =
  match at_key k l with [] => map_get k m | g => Some (default [] (map_get k m) ++ g) end.
Proof.
  revert m. induction l as [|[op i] l IH]; intros m; [done|]. cbn [fold_left]. rewrite IH, map_get_set.
  unfold at_key. rewrite filter_cons. cbn [fst]. case_decide as Hk.
  - subst k. rewrite decide_True by done. cbn. destruct (filter _ l) as [|p g]; [done|]. by rewrite <-(assoc_L app).
  - rewrite decide_False by done. done.
Qed.

Lemma group_get ops k g : map_get k (group_ops ops) = Some g → g = at_key k (indexed ops) ∧ g ≠ [].
Proof.
  unfold group_ops. rewrite group_fold. fold (indexed ops). destruct (at_key k (indexed ops)); [done|].
  intros [= <-]. done.
Qed.

Lemma group_has ops k : at_key k (indexed ops) ≠ [] → map_get k (group_ops ops) = Some (at_key k (indexed ops)).
Proof. unfold group_ops. rewrite group_fold. fold (indexed ops). by destruct (at_key k (indexed ops)). Qed.

Lemma at_key_ops k ops : fst <$> at_key k (indexed ops) = ops_at k ops.
Proof.
  unfold at_key, indexed, ops_at.
  assert (H : ∀ n, fst <$> filter (λ p : IOp * nat, op_key p.1 = k) (imap (λ i op, (op, (n + i)%nat)) ops) = filter (λ op, op_key op = k) ops).
  { induction ops as [|op ops IH]; intros n; [done|]. cbn [imap]. rewrite !filter_cons. cbn [fst].
    specialize (IH (S n)). rewrite (imap_ext _ (λ i op, (op, (S n + i)%nat))) by (intros; cbn; f_equal; lia).
    case_decide; rewrite ?fmap_cons, IH; done. }
  exact (H 0%nat).
Qed.

Lemma group_keys ops k : ops_at k ops ≠ [] → k ∈ map_keys (group_ops ops).
Proof.
  intros H. assert (Hk : at_key k (indexed ops) ≠ []).
  { intros Hn. apply H. by rewrite <-at_key_ops, Hn. }
  apply group_has, map_get_Some_in in Hk. by apply (list_elem_of_fmap_2 fst) in Hk.
Qed.

Lemma group_wf ops : map_wf (group_ops ops).
Proof.
  unfold group_ops. generalize (imap (λ i op, (op, i)) ops). intros l.
  assert (H : map_wf ([] : jsmap jsstr Group)) by constructor. revert H. generalize ([] : jsmap jsstr Group).
  induction l as [|[op i] l IH]; intros m H; [done|]. cbn. by apply IH, map_set_wf.
Qed.

Lemma indexed_lookup ops op i : (op, i) ∈ indexed ops ↔ ops !! i = Some op.
Proof.
  unfold indexed. rewrite list_elem_of_lookup. setoid_rewrite list_lookup_imap. split.
  - intros [j Hj]. destruct (ops !! j) as [o|] eqn:E; [|done]. cbn in Hj. injection Hj as -> ->. done.
  - intros H. exists i. by rewrite H.
Qed.

Lemma indexed_split ops i op :
  ops !! i = Some op → ∃ rest, indexed ops = indexed (take i ops) ++ (op, i) :: rest.
Proof.
  intros H. assert (indexed ops = indexed (take i ops ++ op :: drop (S i) ops)) as -> by by rewrite take_drop_middle.
  unfold indexed. rewrite imap_app. eexists. f_equal.
  cbn [imap]. f_equal. unfold compose. f_equal. assert (i < length ops)%nat by by eapply lookup_lt_Some.
  rewrite length_take. lia.
Qed.

Lemma indexed_NoDup ops : NoDup (snd <$> indexed ops).
Proof.
  unfold indexed. rewrite fmap_imap. apply NoDup_alt. intros i j x Hi Hj.
  rewrite list_lookup_imap in Hi, Hj. apply fmap_Some in Hi as (a & Ha & ->), Hj as (b & Hb & Hx). done.
Qed.

Lemma at_key_NoDup k ops : NoDup (snd <$> at_key k (indexed ops)).
Proof. eapply sublist_NoDup; [apply (indexed_NoDup ops)|]. apply fmap_sublist, sublist_filter. Qed.

(** ** One group *)

(** What one op reports on a row. *)
Definition op_stat (curr : option IEntRow) (op : IOp) : Status :=
  match applyOp curr op with Ok _ => Success | Err s => s | Throw => Success end.

(** What op [i] of a batch reports. *)
Definition stat_at (rows : jsstr → option IEntRow) (ops : list IOp) (i : nat) (op : IOp) : Status :=
  op_stat (fold_left step_row (ops_at (op_key op) (take i ops)) (rows (op_key op))) op.

Lemma row_stats_lookup rows ops i op :
  ops !! i = Some op → row_stats rows ops !! i = Some (stat_at rows ops i op).
Proof.
  revert rows i. induction ops as [|x ops IH]; intros rows i H; [done|]. cbn [row_stats].
  assert (Hx : ∀ next, applyOp (rows (op_key x)) x = Ok next →
      ∀ j, ops !! j = Some op → stat_at (λ k, if decide (k = op_key x) then Some next else rows k) ops j op = stat_at rows (x :: ops) (S j) op).
  { intros next E j Hj. unfold stat_at. cbn [take]. unfold ops_at at 2. rewrite filter_cons. fold (ops_at (op_key op) (take j ops)).
    case_decide as Hk; case_decide as Hk'; try congruence. cbn [fold_left]. unfold step_row at 3.
    assert (op_key op = op_key x) as -> by congruence. by rewrite E. }
  destruct i as [|i]; cbn in H.
  - injection H as <-. unfold stat_at. cbn. unfold op_stat. by destruct (applyOp _ x) eqn:E; [..|apply applyOp_no_throw in E].
  - destruct (applyOp (rows (op_key x)) x) as [next|s|] eqn:E; cbn.
    + rewrite (IH _ _ H). f_equal. by apply Hx.
    + rewrite (IH _ _ H). f_equal. unfold stat_at. cbn [take]. unfold ops_at at 2. rewrite filter_cons.
      fold (ops_at (op_key op) (take i ops)). case_decide as Hk; [|done]. cbn [fold_left]. unfold step_row at 3. rewrite <-Hk. by rewrite E.
    + by apply applyOp_no_throw in E.
Qed.

Lemma row_stats_length rows ops : length (row_stats rows ops) = length ops.
Proof.
  revert rows. induction ops as [|op ops IH]; intros rows; [done|]. cbn [row_stats].
  destruct (applyOp _ op) eqn:E; cbn; [by rewrite IH..|by apply applyOp_no_throw in E].
Qed.

Lemma run_group_row group curr ch tx : (run_group group curr ch tx).1.1 = fold_left step_row (fst <$> group) curr.
Proof.
  revert curr ch tx. induction group as [|[op i] g IH]; intros curr ch tx; [done|]. cbn [run_group]. cbn [fmap list_fmap fst fold_left].
  unfold step_row at 2. destruct (applyOp curr op) eqn:E; by rewrite IH.
Qed.

Lemma run_group_flag group curr ch tx : (run_group group curr ch tx).1.2 = ch || any_applied curr (fst <$> group).
Proof.
  revert curr ch tx. induction group as [|[op i] g IH]; intros curr ch tx; [cbn; by rewrite orb_false_r|]. cbn [run_group any_applied fmap list_fmap fst].
  destruct (applyOp curr op) eqn:E; rewrite IH; cbn; [by rewrite orb_true_r|done..].
Qed.

Lemma run_group_eids group curr ch tx : tx_eids (run_group group curr ch tx).2 = tx_eids tx.
Proof.
  revert curr ch tx. induction group as [|[op i] g IH]; intros curr ch tx; [done|]. cbn [run_group].
  destruct (applyOp curr op); by rewrite IH.
Qed.

Lemma run_group_length group curr ch tx : length (tx_results (run_group group curr ch tx).2) = length (tx_results tx).
Proof.
  revert curr ch tx. induction group as [|[op i] g IH]; intros curr ch tx; [done|]. cbn [run_group].
  destruct (applyOp curr op); rewrite IH; [done|cbn; by rewrite length_insert|done].
Qed.

Lemma run_group_other group curr ch tx j :
  j ∉ snd <$> group → tx_results (run_group group curr ch tx).2 !! j = tx_results tx !! j.
Proof.
  revert curr ch tx. induction group as [|[op i] g IH]; intros curr ch tx H; [done|]. cbn [run_group].
  cbn in H. apply not_elem_of_cons in H as [Hne H]. destruct (applyOp curr op); rewrite IH by done; [done| |done].
  cbn. by rewrite list_lookup_insert_ne.
Qed.

Lemma run_group_at g1 op i g2 curr ch tx :
  NoDup (snd <$> (g1 ++ (op, i) :: g2)) → tx_results tx !! i = Some Success →
  tx_results (run_group (g1 ++ (op, i) :: g2) curr ch tx).2 !! i = Some (op_stat (fold_left step_row (fst <$> g1) curr) op).
Proof.
  revert curr ch tx. induction g1 as [|[o j] g1 IH]; intros curr ch tx Hn Hi; cbn [app run_group].
  - cbn in Hn. apply NoDup_cons in Hn as [Hni _]. cbn. unfold op_stat.
    destruct (applyOp curr op) as [next|s|] eqn:E; rewrite run_group_other by done; [done| |done].
    cbn. rewrite list_lookup_insert_eq; [done|]. by eapply lookup_lt_Some.
  - cbn in Hn. apply NoDup_cons in Hn as [Hni Hn].
    assert (i ≠ j). { intros ->. apply Hni. rewrite fmap_app. cbn. set_solver. }
    cbn [fmap list_fmap fst fold_left]. unfold step_row at 2.
    destruct (applyOp curr o) as [next|s|] eqn:E; apply IH; try done. cbn. by rewrite list_lookup_insert_ne.
Qed.

(** ** The whole batch *)

(** Rows the database holds: as [applyOp] makes them from ops it can store. *)
Definition row_kept (k : jsstr) (r : IEntRow) : Prop :=
  storable r ∧ btob64 (row_eid r) = k ∧ is_Some (row_updatedAt r) ∧
  match r with Live e => is_Some (e_createdAt e) | Tomb _ => True end.

Definition idb_takes (op : IOp) : Prop :=
  op_ok op ∧ match op_mut op with Some m => mu_pid m ≠ Some [] | None => True end.

Lemma row_of_kept op : idb_takes op → row_kept (op_key op) (row_of op).
Proof.
  intros [Hok Hp]. split; [|split; [by rewrite row_of_eid|split; [by rewrite row_of_time|]]].
  - unfold row_of, op_row. by destruct (op_mut op).
  - destruct Hok as [[d t] H]. unfold row_of, op_ts. rewrite H. unfold op_stamp in H.
    destruct (run_dec _ _) as [e| |]; [|done..]. unfold op_row. destruct (op_mut op); [|done]. cbn.
    unfold op_time in H. destruct (eid_ts e) as [z|] eqn:E; [|done].
    destruct (mkDate _); [|done]. cbn in H. by injection H as <- _.
Qed.

Lemma fold_kept k ops o :
  Forall idb_takes ops → (∀ op, op ∈ ops → op_key op = k) → (∀ r, o = Some r → row_kept k r) →
  ∀ r, fold_left step_row ops o = Some r → row_kept k r.
Proof.
  intros HU. revert o. induction HU as [|op ops Hop _ IH]; intros o Hk Ho; [done|]. cbn [fold_left].
  apply IH; [intros; apply Hk; by right|]. intros r. unfold step_row. rewrite applyOp_ok by apply Hop.
  assert (Hkept : row_kept k (row_of op)) by (rewrite <-(Hk op ltac:(left)); by apply row_of_kept).
  destruct o as [r0|]; [destruct (fle _ _)|]; intros [= <-]; auto.
Qed.

Section batch.
Context {S : Type} {OS : ObjectStore S} {OL : ObjectStoreLaws S}.
Implicit Types (s : S).

Definition idb_row s (k : jsstr) : option IEntRow := storedToRow <$> os_get s k.
Definition idb_wf s : Prop := ∀ k row, os_get s k = Some row → ∃ r, row = rowToStored r ∧ row_kept k r.

Lemma idb_row_kept s k r : idb_wf s → idb_row s k = Some r → row_kept k r ∧ os_get s k = Some (rowToStored r).
Proof.
  intros Hw. unfold idb_row. intros (row & Hg & ->)%fmap_Some. destruct (Hw k row Hg) as (r' & -> & Hk).
  rewrite row_roundtrip by apply Hk. done.
Qed.

Lemma batch_kept s ops k r :
  idb_wf s → Forall idb_takes ops → fold_left step_row (ops_at k ops) (idb_row s k) = Some r → row_kept k r.
Proof.
  intros Hw Ht. apply fold_kept.
  - apply Forall_forall. intros op [_ Hop]%list_elem_of_filter. by eapply Forall_forall in Ht.
  - by intros op [? _]%list_elem_of_filter.
  - intros r' H. by eapply idb_row_kept.
Qed.

(** The rows a batch writes, a group each. *)
Definition group_put s (ops : list IOp) (kg : jsstr * Group) : option (IEntRow * Group) :=
  (λ row, (row, kg.2)) <$> fold_left step_row (ops_at kg.1 ops) (idb_row s kg.1).

Lemma run_groups_ok s ops gs dn tx puts :
  map_wf gs → (∀ k g, (k, g) ∈ gs → g = at_key k (indexed ops)) → (∀ k, k ∈ map_keys gs → k ∉ dn) →
  length (tx_results tx) = length ops →
  (∀ i op, ops !! i = Some op → tx_results tx !! i =
    Some (if decide (op_key op ∈ dn) then stat_at (idb_row s) ops i op else Success)) →
  ∃ tx', run_groups no_faults s gs tx puts = inr (tx', puts ++ omap (group_put s ops) gs) ∧
    length (tx_results tx') = length ops ∧
    ∀ i op, ops !! i = Some op → tx_results tx' !! i =
      Some (if decide (op_key op ∈ dn ++ map_keys gs) then stat_at (idb_row s) ops i op else Success).
Proof.
  revert dn tx puts. induction gs as [|[k g] gs IH]; intros dn tx puts Hwf Hg Hd Hl Hr; cbn [run_groups].
  { exists tx. cbn. rewrite !app_nil_r. done. }
  cbn [f_get no_faults]. pose proof (Hg k g ltac:(left)) as ->.
  apply NoDup_cons in Hwf as [Hk Hwf]. fold (idb_row s k).
  pose proof (run_group_row (at_key k (indexed ops)) (idb_row s k) false tx) as Hrow.
  pose proof (run_group_length (at_key k (indexed ops)) (idb_row s k) false tx) as Hlen.
  assert (Hres : ∀ i op, ops !! i = Some op →
      tx_results (run_group (at_key k (indexed ops)) (idb_row s k) false tx).2 !! i =
      Some (if decide (op_key op ∈ dn ++ [k]) then stat_at (idb_row s) ops i op else Success)).
  { intros i op Hi. specialize (Hr i op Hi). destruct (decide (op_key op = k)) as [Hop|Hop].
    - rewrite decide_True by (rewrite Hop; set_solver). destruct (indexed_split ops i op Hi) as [rest Hsplit].
      rewrite decide_False in Hr by (rewrite Hop; apply Hd; left).
      assert (Hat : at_key k (indexed ops) = at_key k (indexed (take i ops)) ++ (op, i) :: at_key k rest).
      { rewrite Hsplit. unfold at_key. rewrite filter_app, filter_cons. by rewrite decide_True. }
      rewrite Hat, run_group_at; [|rewrite <-Hat; apply at_key_NoDup|done].
      rewrite at_key_ops. unfold stat_at. by rewrite Hop.
    - rewrite run_group_other, Hr.
      + destruct (decide (op_key op ∈ dn)) as [?|?]; [by rewrite decide_True by set_solver|by rewrite decide_False by set_solver].
      + intros ([o j] & -> & [Hko Hin]%list_elem_of_filter)%list_elem_of_fmap. cbn in *.
        apply indexed_lookup in Hin. congruence. }
  destruct (run_group _ _ _ _) as [[curr changed] tx1]. cbn [fst snd] in *.
  rewrite at_key_ops in Hrow. set (tx2 := if changed then _ else tx1).
  assert (tx_results tx2 = tx_results tx1) as Htx by (subst tx2; by destruct changed).
  destruct (IH (dn ++ [k]) tx2 (puts ++ match curr with Some row => [(row, at_key k (indexed ops))] | None => [] end))
    as (tx' & Hrun & Hlen' & Hres'); [done| | |by rewrite Htx, Hlen|by rewrite Htx|].
  - intros k' g' ?. apply Hg. by right.
  - intros k' Hk'. apply not_elem_of_app. split; [apply Hd; by right|]. intros ->%list_elem_of_singleton. done.
  - exists tx'. split; [|split; [done|]].
    + rewrite Hrun. f_equal. f_equal. rewrite <-(assoc_L app). f_equal. cbn [omap list_omap]. unfold group_put at 2. cbn [fst snd].
      rewrite <-Hrow. by destruct curr.
    + intros i op Hi. rewrite (Hres' i op Hi). cbn. rewrite <-(assoc_L app). done.
Qed.

Lemma run_puts_ok s tx puts answer :
  run_puts no_faults s tx puts answer = (fold_left (λ s p, os_put s (rowToStored p.1)) puts s, tx, answer).
Proof. revert s. induction puts as [|[row g] puts IH]; intros s; [done|]. cbn. by rewrite IH. Qed.

Lemma puts_get s puts k :
  NoDup ((λ p : IEntRow * Group, btob64 (row_eid p.1)) <$> puts) →
  (∀ row g, (row, g) ∈ puts → btob64 (row_eid row) = k →
    os_get (fold_left (λ s p, os_put s (rowToStored p.1)) puts s) k = Some (rowToStored row)) ∧
  ((∀ row g, (row, g) ∈ puts → btob64 (row_eid row) ≠ k) →
    os_get (fold_left (λ s p, os_put s (rowToStored p.1)) puts s) k = os_get s k).
Proof.
  revert s. induction puts as [|[row g] puts IH]; intros s Hn; cbn [fold_left fst]; [split; [set_solver|done]|].
  apply NoDup_cons in Hn as [Hni Hn]. cbn [fst] in Hni. destruct (IH (os_put s (rowToStored row)) Hn) as [H1 H2]. split.
  - intros row' g' [[= -> ->]|Hin]%elem_of_cons Hk; [|by eapply H1]. rewrite H2.
    + rewrite os_get_put, stored_key. by rewrite decide_True.
    + intros row'' g'' Hin Hk'. apply Hni, list_elem_of_fmap. exists (row'', g''). cbn. by rewrite Hk, Hk'.
  - intros Hne. rewrite H2; [|intros; eapply Hne; by right]. rewrite os_get_put, stored_key.
    rewrite decide_False; [done|]. intros ->. by eapply Hne; [left|].
Qed.

Lemma batch_puts s ops :
  idb_wf s → Forall idb_takes ops →
  let puts := omap (group_put s ops) (group_ops ops) in
  NoDup ((λ p : IEntRow * Group, btob64 (row_eid p.1)) <$> puts) ∧
  ∀ k row, (∃ g, (row, g) ∈ puts ∧ btob64 (row_eid row) = k) ↔
    k ∈ map_keys (group_ops ops) ∧ fold_left step_row (ops_at k ops) (idb_row s k) = Some row.
Proof.
  intros Hw Ht puts. pose proof (group_wf ops) as Hwf. unfold map_wf in Hwf. subst puts.
  generalize dependent (group_ops ops). intros gs Hwf.
  assert (Hput : ∀ k g row g', group_put s ops (k, g) = Some (row, g') → btob64 (row_eid row) = k ∧
      fold_left step_row (ops_at k ops) (idb_row s k) = Some row).
  { intros k g row g'. unfold group_put. cbn. intros (r & Hr & [= -> _])%fmap_Some. split; [|done].
    by apply (batch_kept s ops) in Hr as (_ & ? & _). }
  assert (Hiff : ∀ k row, (∃ g, (row, g) ∈ omap (group_put s ops) gs ∧ btob64 (row_eid row) = k) ↔
      k ∈ map_keys gs ∧ fold_left step_row (ops_at k ops) (idb_row s k) = Some row).
  { intros k row. split.
    - intros (g & ([k' g'] & Hin & Hp)%list_elem_of_omap & Hk). destruct (Hput _ _ _ _ Hp) as [Hk' ?].
      assert (k' = k) as -> by congruence. split; [|done]. apply list_elem_of_fmap. by exists (k, g').
    - intros [([k' g] & -> & Hin)%list_elem_of_fmap Hf]. cbn in *. exists g. split.
      + apply list_elem_of_omap. exists (k', g). split; [done|]. unfold group_put. cbn. by rewrite Hf.
      + by apply (batch_kept s ops) in Hf as (_ & ? & _). }
  split; [|exact Hiff]. clear Hiff. induction gs as [|[k g] gs IH]; [constructor|].
  apply NoDup_cons in Hwf as [Hni Hwf]. cbn [omap list_omap]. destruct (group_put s ops (k, g)) as [[row g']|] eqn:E; [|by apply IH].
  cbn. constructor; [|by apply IH]. destruct (Hput _ _ _ _ E) as [-> _].
  intros ([row' g''] & Hk & ([k' g0] & Hin & Hp)%list_elem_of_omap)%list_elem_of_fmap. cbn in Hk.
  destruct (Hput _ _ _ _ Hp) as [Hk' _]. apply Hni, list_elem_of_fmap. exists (k', g0). split; [cbn; congruence|done].
Qed.

(** The ids gathered: one for each group of which an op was applied. *)
Lemma run_groups_eids s ops gs tx puts tx' puts' k :
  map_wf gs → (∀ k g, (k, g) ∈ gs → g = at_key k (indexed ops)) →
  run_groups no_faults s gs tx puts = inr (tx', puts') →
  k ∈ btob64 <$> tx_eids tx' ↔
    k ∈ btob64 <$> tx_eids tx ∨ k ∈ map_keys gs ∧ any_applied (idb_row s k) (ops_at k ops) = true.
Proof.
  revert tx puts. induction gs as [|[k0 g] gs IH]; intros tx puts Hwf Hg; cbn [run_groups].
  { intros [= <- <-]. set_solver. }
  cbn [f_get no_faults]. pose proof (Hg k0 g ltac:(left)) as ->. apply NoDup_cons in Hwf as [Hk Hwf]. fold (idb_row s k0).
  pose proof (run_group_flag (at_key k0 (indexed ops)) (idb_row s k0) false tx) as Hflag.
  pose proof (run_group_eids (at_key k0 (indexed ops)) (idb_row s k0) false tx) as Heids.
  destruct (run_group _ _ _ _) as [[curr changed] tx1]. cbn [fst snd] in *. rewrite at_key_ops in Hflag. cbn in Hflag.
  intros Hrun. rewrite (IH _ _ Hwf ltac:(intros; apply Hg; by right) Hrun).
  change (map_keys ((k0, at_key k0 (indexed ops)) :: gs)) with (k0 :: map_keys gs). rewrite elem_of_cons.
  destruct changed; cbn [tx_eids].
  - rewrite fmap_app, elem_of_app, Heids.
    assert (Hhead : btob64 <$> match at_key k0 (indexed ops) with (op, _) :: _ => [op_eid (op_head op)] | [] => [] end = [k0]).
    { pose proof (at_key_ops k0 ops) as Hops. destruct (at_key k0 (indexed ops)) as [|[op i] g] eqn:E.
      { cbn in Hops. rewrite <-Hops in Hflag. done. }
      cbn. f_equal. assert (Hin : (op, i) ∈ at_key k0 (indexed ops)) by (rewrite E; left).
      by apply list_elem_of_filter in Hin as [<- _]. }
    rewrite Hhead, list_elem_of_singleton. split; [intros [[?| ->]|[? ?]]; auto|]. intros [?|[[-> |?] ?]]; auto.
  - rewrite Heids. split; [intros [?|[? ?]]; auto|]. intros [?|[[-> |?] Ha]]; [auto|congruence|auto].
Qed.

(** [apply] without failures: the rows and the statuses of the fold. *)
Lemma idb_apply_ok s ops :
  idb_wf s → Forall idb_takes ops →
  ∃ s' res, idb_apply no_faults s ops = (s', Some res) ∧ idb_wf s' ∧
    (∀ k, idb_row s' k = fold_left step_row (ops_at k ops) (idb_row s k)) ∧
    stats res = row_stats (idb_row s) ops.
Proof.
  intros Hw Ht. unfold idb_apply. cbn [f_open no_faults].
  destruct (Nat.ltb_spec (length ops) 1) as [Hlt|_].
  { destruct ops; [|cbn in Hlt; lia]. by eexists _, _. }
  destruct (run_groups_ok s ops (group_ops ops) [] (mkTx ((λ _, Success) <$> ops) [] []) []) as (tx & Hrun & Hlen & Hres).
  { apply group_wf. }
  { intros k g Hin. by apply map_get_in, group_get in Hin as [-> _]; [|apply group_wf]. }
  { set_solver. }
  { cbn. by rewrite length_fmap. }
  { intros i op Hi. cbn. by rewrite list_lookup_fmap, Hi. }
  rewrite Hrun, run_puts_ok. cbn [f_commit no_faults]. eexists _, _. split; [done|].
  destruct (batch_puts s ops Hw Ht) as [Hnd Hputs]. cbn [app] in *.
  set (puts := omap (group_put s ops) (group_ops ops)) in *.
  assert (Hget : ∀ k, os_get (fold_left (λ s p, os_put s (rowToStored p.1)) puts s) k =
      rowToStored <$> fold_left step_row (ops_at k ops) (idb_row s k)).
  { intros k. destruct (puts_get s puts k Hnd) as [H1 H2].
    destruct (fold_left step_row (ops_at k ops) (idb_row s k)) as [row|] eqn:E.
    - destruct (decide (k ∈ map_keys (group_ops ops))) as [Hin|Hni].
      + destruct (proj2 (Hputs k row) (conj Hin E)) as (g & ? & ?). by eapply H1.
      + rewrite H2.
        * assert (ops_at k ops = []) as Hnil.
          { destruct (ops_at k ops) eqn:Ek; [done|]. destruct Hni. apply group_keys. by rewrite Ek. }
          rewrite Hnil in E. cbn in E. by apply idb_row_kept in E as [_ ?].
        * intros row' g Hin Hk. apply Hni. by apply (proj1 (Hputs k row')); eauto.
    - rewrite H2.
      + assert (idb_row s k = None) as Hn.
        { destruct (idb_row s k) as [r|] eqn:Er; [|done]. exfalso. revert E. generalize (ops_at k ops). clear.
          intros l. revert r. induction l as [|op l IH]; intros r; [done|]. cbn. unfold step_row at 2.
          destruct (applyOp _ _); apply IH. }
        unfold idb_row in Hn. by apply fmap_None in Hn.
      + intros row' g Hin Hk. destruct (proj1 (Hputs k row') (ex_intro _ g (conj Hin Hk))) as [_ ?]. congruence. }
  split_and!.
  - intros k row. rewrite Hget. intros (r & Hr & ->)%fmap_Some. exists r. split; [done|]. by eapply batch_kept.
  - intros k. unfold idb_row at 1. rewrite Hget. destruct (fold_left _ _ _) as [r|] eqn:E; [|done]. cbn. f_equal.
    apply row_roundtrip. by eapply batch_kept.
  - apply list_eq. intros i. change (tx_results tx !! i = row_stats (idb_row s) ops !! i). destruct (ops !! i) as [op|] eqn:Ei.
    + rewrite (Hres i op Ei), (row_stats_lookup _ _ _ _ Ei). rewrite decide_True; [done|]. cbn.
      apply group_keys. apply list_elem_of_lookup_2 in Ei. intros Hn.
      assert (op ∈ ops_at (op_key op) ops) as Hat by by apply list_elem_of_filter. rewrite Hn in Hat. set_solver.
    + apply lookup_ge_None in Ei. rewrite !lookup_ge_None_2; [done|by rewrite row_stats_length|by rewrite Hlen].
Qed.

Lemma idb_eids_ok s ops s' res k :
  idb_apply no_faults s ops = (s', Some res) →
  k ∈ btob64 <$> eids res ↔ any_applied (idb_row s k) (ops_at k ops) = true.
Proof.
  unfold idb_apply. cbn [f_open no_faults].
  destruct (Nat.ltb_spec (length ops) 1) as [Hlt|_].
  { destruct ops; [|cbn in Hlt; lia]. intros [= <- <-]. cbn. by split; [set_solver|]. }
  destruct (run_groups _ _ _ _ _) as [tx|[tx puts]] eqn:Hrun.
  { exfalso. revert Hrun. generalize (mkTx ((λ _, Success) <$> ops) [] []), (@nil (IEntRow * Group)).
    induction (group_ops ops) as [|[k0 g] gs IH]; intros tx0 puts0; cbn [run_groups]; [done|]. cbn.
    destruct (run_group _ _ _ _) as [[? ?] ?]. apply IH. }
  rewrite run_puts_ok. cbn [f_commit no_faults]. intros [= <- <-]. cbn.
  rewrite (run_groups_eids _ _ _ _ _ _ _ k (group_wf ops)) by
    (done || by intros k0 g Hin; apply map_get_in, group_get in Hin as [-> _]; [|apply group_wf]).
  cbn. split; [intros [?|[_ ?]]; [set_solver|done]|]. intros Ha. right. split; [|done].
  apply group_keys. intros Hn. by rewrite Hn in Ha.
Qed.
End batch.
