(* ===== verification/EntIdbQuery.v ===== *)
(** * Index queries of the IndexedDB entity database

    What a key range selects, and that the answers list the rows a scan of the
    same rows lists. *)
From S2P Require Export EntIdbFacts.
Import EntDBMemory.

(** ** The order on keys *)

Lemma str_lt_irrefl a : str_lt a a = false.
Proof. induction a as [|x a IH]; [done|]. cbn. by rewrite Z.eqb_refl. Qed.

Lemma str_lt_asym a b : str_lt a b = true → str_lt b a = false.
Proof.
  revert b. induction a as [|x a IH]; intros [|y b]; cbn; try done.
  rewrite (Z.eqb_sym y x). destruct (Z.eqb_spec x y); [apply IH|].
  rewrite Z.ltb_lt, Z.ltb_ge. lia.
Qed.

Lemma str_lt_total a b : str_lt a b = false → str_lt b a = false → a = b.
Proof.
  revert b. induction a as [|x a IH]; intros [|y b]; cbn; try done.
  rewrite (Z.eqb_sym y x). destruct (Z.eqb_spec x y) as [->|?]; [intros; f_equal; auto|].
  rewrite !Z.ltb_ge. lia.
Qed.

Lemma key_lt_str a b : key_lt (KStr a) (KStr b) = str_lt a b.
Proof. unfold key_lt. cbn. destruct (str_lt a b); [done|]. by destruct (str_lt b a). Qed.

Lemma key_lt_date a b : key_lt (KDate a) (KDate b) = (a <? b).
Proof. unfold key_lt. cbn. by rewrite Z.ltb_compare. Qed.

(** A pair compares by its first part, then by its second. *)
Lemma key_lt_pair t t' k k' :
  key_lt (KArr [KStr t; k]) (KArr [KStr t'; k']) = str_lt t t' || bool_decide (t = t') && key_lt k k'.
Proof.
  unfold key_lt. cbn. destruct (str_lt t t') eqn:E1; [done|]. destruct (str_lt t' t) eqn:E2; cbn.
  - rewrite bool_decide_eq_false_2; [done|]. intros ->. by rewrite str_lt_irrefl in E2.
  - rewrite bool_decide_eq_true_2 by by apply str_lt_total. cbn. by destruct (key_cmp k k').
Qed.

Lemma in_range_pair t t' k lo hi a b :
  in_range (KArr [KStr t'; k]) (mkRange (KArr [KStr t; lo]) (KArr [KStr t; hi]) a b) =
  bool_decide (t' = t) && in_range k (mkRange lo hi a b).
Proof.
  unfold in_range. cbn. rewrite !key_lt_pair. destruct (decide (t' = t)) as [->|Hne].
  - rewrite !bool_decide_eq_true_2, str_lt_irrefl by done. done.
  - rewrite !bool_decide_eq_false_2, !orb_false_r by done. cbn.
    destruct (str_lt t t') eqn:E.
    + rewrite (str_lt_asym _ _ E). by destruct a, b.
    + destruct (str_lt t' t) eqn:E'; [by destruct a, b|]. destruct Hne. symmetry. by apply str_lt_total.
Qed.

Lemma in_range_type t t' z :
  in_range (KArr [KStr t'; KDate z]) (mkRange (KArr [KStr t]) (KArr [KStr t; KArr []]) false false) = bool_decide (t' = t).
Proof.
  unfold in_range. cbn. rewrite key_lt_pair. unfold key_lt at 1. cbn.
  destruct (decide (t' = t)) as [->|Hne].
  - by rewrite !bool_decide_eq_true_2, str_lt_irrefl by done.
  - rewrite !bool_decide_eq_false_2 by done. destruct (str_lt t' t) eqn:E; cbn; [done|].
    destruct (str_lt t t') eqn:E'; [done|]. destruct Hne. by apply str_lt_total.
Qed.

Lemma in_range_only_str a b : in_range (KStr b) (range_only (KStr a)) = bool_decide (b = a).
Proof.
  unfold in_range, range_only. cbn. rewrite !key_lt_str. case_bool_decide as H.
  - subst. by rewrite str_lt_irrefl.
  - destruct (str_lt b a) eqn:E1; [done|]. destruct (str_lt a b) eqn:E2; [done|]. destruct H. by apply str_lt_total.
Qed.

Lemma in_range_only_date a b : in_range (KDate b) (range_only (KDate a)) = (b =? a).
Proof.
  unfold in_range, range_only. cbn. rewrite !key_lt_date. destruct (Z.eqb_spec b a) as [->|H].
  - by rewrite Z.ltb_irrefl.
  - destruct (Z.ltb_spec b a); [done|]. destruct (Z.ltb_spec a b); [done|lia].
Qed.

(** ** Hits *)

Section query.
Context {S : Type} {OS : ObjectStore S} {OL : ObjectStoreLaws S}.
Context (s : S) (d : db) (Hd : inv d) (Hw : idb_wf s) (Hrows : ∀ k, map_get k (ents d) = idb_row s k).

Lemma hits_in ix r st :
  st ∈ os_getAll s ix r ↔
    os_get s (s_eid st) = Some (SLive st) ∧ ∃ k, k ∈ index_keys ix (SLive st) ∧ in_range k r = true.
Proof.
  transitivity (SLive st ∈ SLive <$> os_getAll s ix r).
  { rewrite list_elem_of_fmap. split; [eauto|]. by intros (? & [= ->] & ?). }
  rewrite os_getAll_hits, list_elem_of_bind. setoid_rewrite list_elem_of_fmap. split.
  - intros (row & (k & <- & Hk) & Hin). apply os_all_get in Hin. split; [exact Hin|]. exists k.
    apply list_elem_of_In, filter_In in Hk as [Hk ?]. by apply list_elem_of_In in Hk.
  - intros [Hg (k & Hk & Hr)]. exists (SLive st). split; [|by apply os_all_get].
    exists k. split; [done|]. apply list_elem_of_In, filter_In. by rewrite <-list_elem_of_In.
Qed.

(** Live rows and their stored forms. *)
Lemma live_stored e : live_at d e ↔ os_get s (btob64 (e_eid e)) = Some (SLive (entityToStored e)) ∧ row_kept (btob64 (e_eid e)) (Live e).
Proof.
  unfold live_at. rewrite Hrows. split.
  - intros H. by apply (idb_row_kept s _ _ Hw) in H as [? ?].
  - intros [H Hk]. unfold idb_row. rewrite H. cbn. f_equal. apply (row_roundtrip (Live e)). apply Hk.
Qed.

Lemma stored_live st : os_get s (s_eid st) = Some (SLive st) → live_at d (storedToEntity st) ∧ st = entityToStored (storedToEntity st).
Proof.
  intros H. destruct (Hw _ _ H) as (r & Hr & Hk). destruct r as [e|t]; [|done]. injection Hr as ->.
  assert (storedToEntity (entityToStored e) = e) as He.
  { destruct Hk as [Hs _]. pose proof (row_roundtrip (Live e) Hs) as Hrt. cbn in Hrt. congruence. }
  rewrite He. split; [|done]. apply live_stored. done.
Qed.

(** The answers of an index with at most one key a record. *)
Definition index_test (ix : IDBIndex) (r : IDBKeyRange) (e : IEntity) : bool :=
  existsb (λ k, in_range k r) (index_keys ix (SLive (entityToStored e))).

Lemma to_entity_in l e :
  (∀ st, st ∈ l → os_get s (s_eid st) = Some (SLive st)) →
  e ∈ toEntities l ↔ entityToStored e ∈ l ∧ live_at d e.
Proof.
  intros Hl. unfold toEntities. rewrite list_elem_of_fmap. split.
  - intros (st & -> & Hin). destruct (stored_live st (Hl st Hin)) as [H1 H2]. by rewrite <-H2.
  - intros [Hin Hlive]. exists (entityToStored e). split; [|done]. apply live_stored in Hlive as [_ [Hs _]].
    pose proof (row_roundtrip (Live e) Hs) as H. cbn in H. congruence.
Qed.

Lemma hits_entity ix r e : e ∈ toEntities (os_getAll s ix r) ↔ live_at d e ∧ index_test ix r e = true.
Proof.
  rewrite to_entity_in by (intros st [H _]%hits_in; done). rewrite hits_in. unfold index_test. rewrite existsb_exists.
  setoid_rewrite <-list_elem_of_In. split; [naive_solver|]. intros [Hl H]. split; [|done]. split; [|done].
  by apply live_stored in Hl as [? _].
Qed.

Lemma hits_NoDup ix r :
  (∀ row, (length (List.filter (λ k, in_range k r) (index_keys ix row)) <= 1)%nat) → NoDup (os_getAll s ix r).
Proof.
  intros Hix. apply (NoDup_fmap_1 SLive). rewrite os_getAll_hits.
  assert (Ha : NoDup (os_all s)) by (eapply NoDup_fmap_1, os_all_NoDup). revert Ha. generalize (os_all s). intros l Ha.
  induction Ha as [|row l Hni _ IH]; [constructor|]. cbn. apply NoDup_app. split; [|split; [|done]].
  - specialize (Hix row). destruct (List.filter _ _) as [|k [|? ?]]; cbn in *; [constructor|apply NoDup_singleton|lia].
  - intros x (k & -> & _)%list_elem_of_fmap (row' & (k' & -> & _)%list_elem_of_fmap & Hin)%list_elem_of_bind. done.
Qed.

Lemma to_entity_NoDup l :
  (∀ st, st ∈ l → os_get s (s_eid st) = Some (SLive st)) → NoDup l → NoDup (toEntities l).
Proof.
  intros Hl Hn. unfold toEntities. apply NoDup_fmap_2_strong; [|done].
  intros x y Hx Hy Hxy. destruct (stored_live x (Hl x Hx)) as [_ ->], (stored_live y (Hl y Hy)) as [_ ->]. by rewrite Hxy.
Qed.

Lemma index_lists ix r : ix ≠ IxTags → lists d (λ e, index_test ix r e = true) (toEntities (os_getAll s ix r)).
Proof.
  intros Hix. split; [|apply hits_entity]. apply to_entity_NoDup; [by intros st [H _]%hits_in|].
  apply hits_NoDup. intros row. etransitivity; [apply filter_length_le|]. destruct row, ix; cbn; repeat case_match; cbn; lia || done.
Qed.

Lemma lists_live_iff (P Q : IEntity → Prop) l : (∀ e, live_at d e → P e ↔ Q e) → lists d P l → lists d Q l.
Proof. intros HPQ [H1 H2]. split; [done|]. intros e. rewrite H2. naive_solver. Qed.

Lemma live_dated e : live_at d e → is_Some (e_createdAt e) ∧ is_Some (e_updatedAt e).
Proof. intros [_ (_ & _ & Hu & Hc)]%live_stored. done. Qed.

Lemma type_answer type : lists d (λ e, query_test (QType type) e = true)
  (toEntities (os_getAll s IxType (mkRange (KArr [KStr type]) (KArr [KStr type; KArr []]) false false))).
Proof.
  eapply lists_live_iff; [|by apply index_lists]. intros e [[t Ht] _]%live_dated. unfold index_test. cbn. rewrite Ht.
  cbn [existsb]. rewrite in_range_type, orb_false_r. done.
Qed.

Lemma parent_answer type pid : lists d (λ e, query_test (QPid type pid) e = true)
  (toEntities (os_getAll s IxParent (range_only (KArr [KStr type; KStr (btob64 pid)])))).
Proof.
  eapply lists_live_iff; [|by apply index_lists]. intros e _. unfold index_test, has_type. cbn.
  destruct (e_pid e) as [p|]; cbn; [|by rewrite andb_false_r].
  unfold range_only. rewrite in_range_pair, orb_false_r. fold (range_only (KStr (btob64 pid))). rewrite in_range_only_str.
  unfold has_type. f_equiv. f_equiv. apply eq_iff_eq_true. rewrite bool_decide_eq_true, bytesEqual_spec. split; [apply (inj btob64)|by intros ->].
Qed.

(** ** Dates *)

(** Ranges the browser accepts. *)
Definition date_spec_ok (strict : bool) (spec : DateSpec) : Prop :=
  match spec with
  | DateExact d => is_Some d
  | DateRange r => is_Some (dr_start r) ∧ is_Some (dr_end r) ∧
      (strict = true → dr_excludeStart r || dr_excludeEnd r = true → dr_start r ≠ dr_end r)
  end.

Lemma in_range_date u a b xs xe :
  in_range (KDate u) (mkRange (KDate a) (KDate b) xs xe) = dateInRange (Some u) (mkDateRange (Some a) (Some b) xs xe).
Proof. unfold in_range, dateInRange. cbn. rewrite !key_lt_date, !Z.leb_antisym. done. Qed.

Lemma date_answer strict type spec : date_spec_ok strict spec → dateSpecMayMatch spec = Ok true →
  ∃ r, dateIdbRange strict type spec = Ok r ∧
    lists d (λ e, query_test (QDate type spec) e = true) (toEntities (os_getAll s IxUpdatedAt r)).
Proof.
  intros Hok Hmay. assert (Htest : ∀ spec' r, (∀ e u, e_updatedAt e = Some u →
      in_range (KArr [KStr (e_type e); KDate u]) r = has_type type e && dateMatches (Some u) spec') →
      lists d (λ e, query_test (QDate type spec') e = true) (toEntities (os_getAll s IxUpdatedAt r))).
  { intros spec' r Hr. eapply lists_live_iff; [|by apply index_lists]. intros e [_ [u Hu]]%live_dated.
    unfold index_test. cbn. rewrite Hu. cbn [existsb]. rewrite (Hr e u Hu), orb_false_r. done. }
  destruct spec as [dt|r]; cbn in Hok.
  - destruct Hok as [t ->]. eexists. split; [done|]. apply Htest. intros e u _. unfold range_only.
    rewrite in_range_pair. fold (range_only (KDate t)). by rewrite in_range_only_date.
  - destruct r as [ds de xs xe]. destruct Hok as ([a Ha] & [b Hb] & Hstrict). cbn in *. subst ds de. cbn in *.
    destruct (Z.ltb_spec b a) as [|Hab]; [done|]. unfold idb_bound. rewrite !key_lt_pair, !str_lt_irrefl, !key_lt_date.
    rewrite bool_decide_eq_true_2 by done. cbn [orb andb]. rewrite (proj2 (Z.ltb_ge b a)) by done.
    assert (strict && negb (a <? b) && (xs || xe) = false) as ->.
    { destruct strict; [|done]. destruct (xs || xe) eqn:Ex; [|apply andb_false_r].
      specialize (Hstrict eq_refl eq_refl). destruct (Z.ltb_spec a b); [done|]. destruct Hstrict. f_equal. lia. }
    eexists. split; [done|]. apply (Htest (DateRange (mkDateRange (Some a) (Some b) xs xe))).
    intros e u _. by rewrite in_range_pair, in_range_date.
Qed.

(** ** Tags *)

Definition tag_spec_ok (strict : bool) (spec : TagSpec) : Prop :=
  match spec with
  | TagExact _ => True
  | TagRange r => strict = true → tr_excludeStart r || tr_excludeEnd r = true → tr_start r ≠ tr_end r
  | TagPrefix p => ∀ e t, live_at d e → t ∈ default [] (e_tags e) → startsWith t p = true → str_lt (p ++ [65535]) t = false
  end.

Lemma in_range_tag t r : in_range (KStr t) (mkRange (KStr (tr_start r)) (KStr (tr_end r)) (tr_excludeStart r) (tr_excludeEnd r)) = tagInRange t r.
Proof. unfold in_range, tagInRange. cbn. by rewrite !key_lt_str. Qed.

Lemma tag_test (f : jsstr → bool) r e :
  (∀ t, in_range (KStr t) r = f t) → index_test IxTags r e = true ↔ ∃ t, t ∈ default [] (e_tags e) ∧ f t = true.
Proof.
  intros Hf. unfold index_test. rewrite existsb_exists. setoid_rewrite <-list_elem_of_In. cbn. split.
  - intros (k & (t & -> & Ht)%list_elem_of_fmap & Hr). rewrite elem_of_remove_dups in Ht. exists t. by rewrite <-Hf.
  - intros (t & Ht & Hr). exists (KStr t). rewrite Hf. split; [|done]. apply list_elem_of_fmap. exists t.
    by rewrite elem_of_remove_dups.
Qed.

Lemma query_tag type spec e :
  query_test (QTag type spec) e = true ↔ e_type e = type ∧ ∃ t, t ∈ default [] (e_tags e) ∧ tagMatches t spec = true.
Proof.
  cbn. rewrite andb_true_iff, has_type_true. f_equiv. destruct (e_tags e) as [tags|]; cbn; [|set_solver].
  rewrite existsb_exists. by setoid_rewrite <-list_elem_of_In.
Qed.

(** The loop that drops repeated hits. *)
Lemma hits_fold type spec (test : IStoredEntity → bool) l seen out :
  (∀ sn st, filter_hit spec sn st = negb (set_has (s_eid st) sn) && test st) →
  (∀ st, st ∈ l → os_get s (s_eid st) = Some (SLive st)) →
  (∀ e, e ∈ out → live_at d e) → NoDup out → (∀ k, k ∈ seen ↔ ∃ e, e ∈ out ∧ btob64 (e_eid e) = k) →
  let out' := (fold_left (λ '(seen, out) st,
     if bool_decide (s_typ st = type) && filter_hit spec seen st
     then (set_add (s_eid st) seen, out ++ [storedToEntity st]) else (seen, out)) l (seen, out)).2 in
  NoDup out' ∧ ∀ e, e ∈ out' ↔ e ∈ out ∨ (entityToStored e ∈ l ∧ live_at d e ∧ e_type e = type ∧ test (entityToStored e) = true).
Proof.
  intros Ht. revert seen out. induction l as [|st l IH]; intros seen out Hl Hlive Hn Hs; cbn [fold_left].
  { split; [done|]. set_solver. }
  destruct (stored_live st (Hl st ltac:(left))) as [Hst Heq].
  assert (Hkey : btob64 (e_eid (storedToEntity st)) = s_eid st) by (by rewrite Heq at 2).
  assert (Htyp : s_typ st = e_type (storedToEntity st)) by (by rewrite Heq at 1).
  rewrite Ht. destruct (bool_decide (s_typ st = type) && (negb (set_has (s_eid st) seen) && test st)) eqn:E.
  - apply andb_prop in E as [E1%bool_decide_eq_true [E2 E3]%andb_prop].
    assert (Hns : s_eid st ∉ seen) by (unfold set_has in E2; by case_bool_decide).
    destruct (IH (set_add (s_eid st) seen) (out ++ [storedToEntity st])) as [H1 H2].
    + intros st' ?. apply Hl. by right.
    + intros e [?|He%list_elem_of_singleton]%elem_of_app; [by apply Hlive|by subst].
    + apply NoDup_app. split; [done|]. split; [|apply NoDup_singleton].
      intros e He Hin%list_elem_of_singleton. subst e. apply Hns, Hs. eauto.
    + intros k. rewrite elem_of_set_add, Hs. setoid_rewrite elem_of_app. setoid_rewrite list_elem_of_singleton. split.
      * intros [->|(e & ? & ?)]; [exists (storedToEntity st); auto|eauto].
      * intros (e & [?| ->] & <-); [right; eauto|by left].
    + split; [done|]. intros e. rewrite H2, elem_of_app, list_elem_of_singleton, elem_of_cons. split.
      * intros [[?| ->]|(? & ? & ? & ?)]; [by left| |right; auto].
        right. rewrite <-Heq. split_and!; [by left|done|congruence|done].
      * intros [?|([He|?] & ? & ? & ?)]; [auto| |auto]. left. right.
        destruct (stored_live st (Hl st ltac:(left))) as [_ _]. rewrite <-He.
        apply live_stored in H as [_ [Hsto _]]. pose proof (row_roundtrip (Live e) Hsto) as Hr. cbn in Hr. congruence.
  - destruct (IH seen out) as [H1 H2]; [intros st' ?; apply Hl; by right|done|done|done|].
    split; [done|]. intros e. rewrite H2, elem_of_cons. split; [naive_solver|].
    intros [?|([He|?] & He2 & He3 & He4)]; [auto| |auto]. left.
    assert (Hesto : storedToEntity (entityToStored e) = e).
    { apply live_stored in He2 as [_ [Hsto _]]. pose proof (row_roundtrip (Live e) Hsto) as Hr. cbn in Hr. congruence. }
    rewrite <-He in E. rewrite He4, andb_true_r in E. rewrite bool_decide_eq_true_2 in E by done. cbn [andb] in E.
    apply negb_false_iff in E. unfold set_has in E. apply bool_decide_eq_true in E. apply Hs in E as (e' & Hin & Hk).
    cbn in Hk. apply (inj btob64) in Hk. specialize (Hlive e' Hin) as Hl'.
    unfold live_at in Hl', He2. rewrite Hk in Hl'. rewrite He2 in Hl'. injection Hl' as ->. done.
Qed.

Lemma hits_stored ix r st : st ∈ os_getAll s ix r → os_get s (s_eid st) = Some (SLive st).
Proof. by intros [? _]%hits_in. Qed.

Lemma tag_hit_iff r e : entityToStored e ∈ os_getAll s IxTags r ∧ live_at d e ↔ live_at d e ∧ index_test IxTags r e = true.
Proof. rewrite <-(hits_entity IxTags r e), to_entity_in; [done|]. intros st. apply hits_stored. Qed.

Lemma remove_dups_only t tags :
  (length (List.filter (λ k, in_range k (range_only (KStr t))) (KStr <$> remove_dups tags)) <= 1)%nat.
Proof.
  assert (H : ∀ l, NoDup l → (length (List.filter (λ k, in_range k (range_only (KStr t))) (KStr <$> l)) <= 1)%nat ∧
      (t ∉ l → length (List.filter (λ k, in_range k (range_only (KStr t))) (KStr <$> l)) = 0%nat)).
  { induction 1 as [|x l Hx _ [IH1 IH2]]; [by split; [cbn; lia|]|]. cbn. rewrite in_range_only_str. case_bool_decide as E; cbn.
    - subst x. rewrite IH2 by done. split; [done|set_solver].
    - split; [done|]. intros Hni. apply IH2. set_solver. }
  apply H, NoDup_remove_dups.
Qed.

(** The answer of a tag query lists the entities of the type with a hit that
    passes [test]. *)
Lemma filter_lists type spec r (test : IStoredEntity → bool) :
  match spec with TagExact t => r = range_only (KStr t) ∧ ∀ st, test st = true
  | _ => ∀ sn st, filter_hit spec sn st = negb (set_has (s_eid st) sn) && test st end →
  lists d (λ e, e_type e = type ∧ index_test IxTags r e = true ∧ test (entityToStored e) = true)
    (filterTagHits (os_getAll s IxTags r) type spec).
Proof.
  intros Hspec. set (l := os_getAll s IxTags r).
  assert (Hl : ∀ st, st ∈ l → os_get s (s_eid st) = Some (SLive st)) by (intros st; apply hits_stored).
  assert (Hhit : ∀ e, entityToStored e ∈ l ∧ live_at d e ↔ live_at d e ∧ index_test IxTags r e = true) by (intros e; apply tag_hit_iff).
  destruct spec as [t|rg|p].
  - destruct Hspec as [-> Htest]. unfold filterTagHits.
    assert (Hf : ∀ st, st ∈ List.filter (λ st, bool_decide (s_typ st = type)) l ↔ st ∈ l ∧ s_typ st = type).
    { intros st. rewrite list_elem_of_In, filter_In, <-list_elem_of_In, bool_decide_eq_true. done. }
    split.
    + apply to_entity_NoDup; [intros st [H _]%Hf; by apply Hl|]. apply NoDup_ListNoDup, List.NoDup_filter, NoDup_ListNoDup.
      apply hits_NoDup. intros [st|tb]; [apply remove_dups_only|cbn; lia].
    + intros e. rewrite to_entity_in by (intros st [H _]%Hf; by apply Hl). rewrite Hf. cbn [s_typ entityToStored].
      specialize (Hhit e). rewrite Htest. tauto.
  - destruct (hits_fold type _ test l [] [] Hspec Hl) as [H1 H2]; [set_solver|constructor|set_solver|].
    split; [done|]. intros e. unfold filterTagHits. rewrite H2. specialize (Hhit e). set_solver.
  - destruct (hits_fold type _ test l [] [] Hspec Hl) as [H1 H2]; [set_solver|constructor|set_solver|].
    split; [done|]. intros e. unfold filterTagHits. rewrite H2. specialize (Hhit e). set_solver.
Qed.

(** What starts with a prefix comes after it. *)
Lemma startsWith_lt t p : startsWith t p = true → str_lt t p = false.
Proof.
  revert t. induction p as [|x p IH]; intros [|y t]; cbn; try done.
  intros [->%Z.eqb_eq H]%andb_prop. rewrite Z.eqb_refl. auto.
Qed.

Lemma tag_answer strict type spec : tag_spec_ok strict spec → tagSpecMayMatch spec = Ok true →
  ∃ r, tagIdbRange strict spec = Ok r ∧
    lists d (λ e, query_test (QTag type spec) e = true) (filterTagHits (os_getAll s IxTags r) type spec).
Proof.
  intros Hok Hmay. destruct spec as [t|r|p]; cbn [tagIdbRange tag_spec_ok] in *.
  - eexists. split; [done|]. eapply lists_live_iff; [|by apply (filter_lists type (TagExact t) _ (λ _, true))].
    intros e _. rewrite query_tag, (tag_test (λ x, bool_decide (x = t)) _ e (in_range_only_str t)). cbn. tauto.
  - cbn in Hmay. destruct (str_lt (tr_end r) (tr_start r)) eqn:Elt; [done|]. unfold idb_bound. rewrite !key_lt_str, Elt.
    assert (strict && negb (str_lt (tr_start r) (tr_end r)) && (tr_excludeStart r || tr_excludeEnd r) = false) as ->.
    { destruct strict; [|done]. destruct (_ || _) eqn:Ex; [|apply andb_false_r]. specialize (Hok eq_refl eq_refl).
      destruct (str_lt (tr_start r) (tr_end r)) eqn:E; [done|]. destruct Hok. by apply str_lt_total. }
    eexists. split; [done|]. eapply lists_live_iff; [|apply (filter_lists type (TagRange r) _ (λ _, true)); done].
    intros e _. rewrite query_tag, (tag_test (λ x, tagInRange x r) _ e (λ x, in_range_tag x r)). cbn. tauto.
  - assert (Hne : Nat.eqb (length p) 0 = false) by (destruct p; [done|done]).
    assert (Hlt : str_lt p (p ++ [65535]) = true).
    { clear. induction p as [|x p IH]; [done|]. cbn. by rewrite Z.eqb_refl. }
    unfold idb_bound. rewrite !key_lt_str, Hlt, (str_lt_asym _ _ Hlt). cbn [negb andb]. rewrite andb_false_r. cbn [andb].
    eexists. split; [done|].
    eapply lists_live_iff; [|apply (filter_lists type (TagPrefix p) _ (λ st, match s_tgs st with Some tgs => existsb (λ t, startsWith t p) tgs | None => false end)); done].
    intros e Hlive. cbn beta. rewrite query_tag. cbn [tagMatches s_tgs entityToStored]. rewrite Hne.
    rewrite (tag_test (λ t, negb (str_lt t p) && negb (str_lt (p ++ [65535]) t)) _ e) by (intros t; unfold in_range; cbn; by rewrite !key_lt_str).
    assert (Hex : match e_tags e with Some tgs => existsb (λ t, startsWith t p) tgs | None => false end = true ↔
        ∃ t, t ∈ default [] (e_tags e) ∧ startsWith t p = true).
    { destruct (e_tags e) as [tags|]; cbn; [|set_solver]. rewrite existsb_exists. by setoid_rewrite <-list_elem_of_In. }
    rewrite Hex. split; [tauto|]. intros [Ht (t & Hin & Hs)]. split; [done|]. split; [|eauto]. exists t. split; [done|].
    rewrite (startsWith_lt t p Hs), (Hok e t Hlive Hin Hs). done.
Qed.

(** ** Every query *)

Definition query_ok (strict : bool) (q : EntitiesQuery) : Prop :=
  match q with
  | QTag _ spec => tag_spec_ok strict spec
  | QDate _ spec => date_spec_ok strict spec
  | _ => True
  end.

Lemma idb_query_eq strict q :
  query_ok strict q →
  match query_may q with
  | Ok may => ∃ l, idb_getEntities strict no_faults s q = Ok l ∧ if may then lists d (λ e, query_test q e = true) l else l = []
  | Err st => idb_getEntities strict no_faults s q = Err st
  | Throw => idb_getEntities strict no_faults s q = Throw
  end.
Proof.
  intros Hok. destruct q as [type|type pid|type spec|type spec]; cbn [query_may idb_getEntities query_ok] in *.
  - eexists. split; [done|]. apply type_answer.
  - eexists. split; [done|]. apply parent_answer.
  - unfold getByTag. destruct (tagSpecMayMatch spec) as [[]| |] eqn:E; cbn -[query_test]; try done; [|eauto].
    destruct (tag_answer strict type spec Hok E) as (r & Hr & Hl). unfold with_range. cbn -[query_test].
    rewrite Hr. cbn -[query_test]. eauto.
  - unfold getByUpdatedAt. destruct (dateSpecMayMatch spec) as [[]| |] eqn:E; cbn -[query_test]; try done; [|eauto].
    destruct (date_answer strict type spec Hok E) as (r & Hr & Hl). unfold with_range. cbn -[query_test].
    rewrite Hr. cbn -[query_test]. eauto.
Qed.

Lemma idb_same_answer strict q : query_ok strict q → same_answer (idb_getEntities strict no_faults s q) (EntDBMemory.getEntities d q).
Proof.
  intros Hok. eapply same_answer_trans; [|apply same_answer_sym, query_fullScan, Hd]. rewrite fullScan_eq.
  pose proof (idb_query_eq strict q Hok) as H. destruct (query_may q) as [may|st|]; cbn.
  - destruct H as (l & -> & H). destruct may; cbn; [|by subst]. eapply lists_perm; [exact H|by apply scan_lists].
  - by rewrite H.
  - by rewrite H.
Qed.

Lemma idb_count type : idb_countEntities no_faults s type = Ok (Z.of_nat (length (scan d (has_type type)))).
Proof.
  unfold idb_countEntities. cbn. f_equal. f_equal.
  transitivity (length (toEntities (os_getAll s IxType (mkRange (KArr [KStr type]) (KArr [KStr type; KArr []]) false false)))).
  { unfold toEntities. by rewrite length_fmap. }
  apply Permutation_length. eapply lists_perm; [apply type_answer|by apply scan_lists].
Qed.

(** All rows, live or deleted. *)
Lemma idb_all_rows : storedToRow <$> os_all s ≡ₚ map_values (ents d).
Proof.
  pose proof (rows_wf d Hd) as Hwf.
  assert (Hin : ∀ row, row ∈ os_all s → rowToStored (storedToRow row) = row ∧ idb_row s (s_key row) = Some (storedToRow row)).
  { intros row Hr%os_all_get. destruct (Hw _ _ Hr) as (r & -> & Hk). unfold idb_row. rewrite Hr. cbn.
    rewrite row_roundtrip by apply Hk. done. }
  apply NoDup_Permutation.
  - apply NoDup_fmap_2_strong; [|by eapply NoDup_fmap_1, os_all_NoDup].
    intros x y Hx Hy Hxy. destruct (Hin x Hx) as [<- _], (Hin y Hy) as [<- _]. by rewrite Hxy.
  - rewrite <-(omap_Some_id (map_values (ents d))). apply (keyed_NoDup _ _ (λ r, btob64 (row_eid r))); [done|].
    intros k v r Hv [= ->]. apply map_get_in in Hv; [|done]. rewrite Hrows in Hv. by apply (idb_row_kept s _ _ Hw) in Hv as [(_ & ? & _) _].
  - intros r. rewrite list_elem_of_fmap, elem_of_map_values. split.
    + intros (row & -> & Hr). destruct (Hin row Hr) as [_ Hr2]. exists (s_key row). apply map_get_Some_in. by rewrite Hrows.
    + intros [k Hr]. apply map_get_in in Hr; [|done]. rewrite Hrows in Hr. apply (idb_row_kept s _ _ Hw) in Hr as [Hk Hg].
      exists (rowToStored r). rewrite row_roundtrip by apply Hk. split; [done|]. apply os_all_get. rewrite stored_key.
      destruct Hk as (_ & -> & _). done.
Qed.
End query.
