(* ===== verification/EntIdbProps.v ===== *)
(** * Properties of the IndexedDB entity database

    It leaves, reports and answers what the in-memory database does, and so is a
    durable database for the cache; and what it reports when the browser
    database fails. *)
From S2P Require Import EntIdbQuery EntProps.
Import EntDBMemory Sample.

Section props.
Context {S : Type} {OS : ObjectStore S} {OL : ObjectStoreLaws S}.
Implicit Types (s : S).

(** ** The same rows in memory *)

Definition mem_of s : db := fold_left put (storedToRow <$> os_all s) (mkDB [] false [] [] []).

Lemma storable_stored r : storable r → stored r = r.
Proof. destruct r as [e|t]; [|done]. cbn. intros [_ Hr]. unfold omitDefaultRealm. by destruct (e_rlm e) as [[|]|]. Qed.

Lemma fold_put_rows rows d :
  inv d → (∀ r, r ∈ rows → stored r = r) → NoDup ((λ r, btob64 (row_eid r)) <$> rows) →
  inv (fold_left put rows d) ∧
  ∀ k, map_get k (ents (fold_left put rows d)) =
    match find (λ r, bool_decide (btob64 (row_eid r) = k)) rows with Some r => Some r | None => map_get k (ents d) end.
Proof.
  revert d. induction rows as [|r rows IH]; intros d Hd Hs Hn; [done|]. cbn [fold_left find fmap list_fmap] in *.
  apply NoDup_cons in Hn as [Hni Hn]. destruct (IH (put d r)) as [H1 H2]; [by apply put_inv|intros; apply Hs; by right|done|].
  split; [done|]. intros k. rewrite H2. case_bool_decide as Hk.
  - subst k. destruct (find _ rows) as [r'|] eqn:E.
    + apply find_some in E as [Hin Hr%bool_decide_eq_true]. destruct Hni. apply list_elem_of_fmap. exists r'.
      split; [done|]. by apply list_elem_of_In.
    + rewrite put_row by (apply Hs; by left). by rewrite decide_True.
  - destruct (find _ rows); [done|]. rewrite put_row by (apply Hs; by left). by rewrite decide_False by congruence.
Qed.

Lemma mem_of_rows s : idb_wf s → inv (mem_of s) ∧ ∀ k, map_get k (ents (mem_of s)) = idb_row s k.
Proof.
  intros Hw.
  assert (Hall : ∀ row, row ∈ os_all s → ∃ r, storedToRow row = r ∧ row = rowToStored r ∧ row_kept (s_key row) r ∧ os_get s (s_key row) = Some row).
  { intros row Hr%os_all_get. destruct (Hw _ _ Hr) as (r & Hrow & Hk). exists r. split_and!; try done.
    rewrite Hrow. apply row_roundtrip, Hk. }
  destruct (fold_put_rows (storedToRow <$> os_all s) (mkDB [] false [] [] [])) as [H1 H2].
  - apply empty_inv.
  - intros r (row & -> & Hin)%list_elem_of_fmap. destruct (Hall row Hin) as (r & -> & _ & Hk & _). apply storable_stored, Hk.
  - rewrite <-list_fmap_compose. erewrite list_fmap_ext; [apply os_all_NoDup|]. intros i row Hi. cbn.
    apply list_elem_of_lookup_2 in Hi. destruct (Hall row Hi) as (r & -> & _ & Hk & _). apply Hk.
  - split; [done|]. intros k. unfold mem_of. rewrite H2. destruct (find _ _) as [r|] eqn:E.
    + apply find_some in E as [Hin Hk%bool_decide_eq_true]. apply list_elem_of_In, list_elem_of_fmap in Hin as (row & -> & Hin).
      destruct (Hall row Hin) as (r & Hr & _ & Hkept & Hg). rewrite Hr in *. destruct Hkept as (_ & Hkey & _).
      unfold idb_row. rewrite <-Hk, Hkey, Hg. cbn. by rewrite Hr.
    + unfold idb_row. cbn. destruct (os_get s k) as [row|] eqn:Eg; [|done]. exfalso.
      destruct (Hw _ _ Eg) as (r & Hr & Hkept). pose proof (find_none _ _ E r) as Hf. cbn beta in Hf.
      rewrite bool_decide_eq_true_2 in Hf by apply Hkept. discriminate Hf. apply list_elem_of_In, list_elem_of_fmap.
      exists row. rewrite Hr, row_roundtrip by apply Hkept. split; [done|]. apply os_all_get.
      rewrite stored_key. destruct Hkept as (_ & -> & _). by rewrite <-Hr.
Qed.

(** ** A durable database for the cache *)

#[export] Instance idb_durable : Durable S := {|
  du_row := idb_row;
  du_apply s ops := let '(s', r) := idb_apply no_faults s ops in (s', match r with Some a => Ok a | None => Throw end);
  du_getRow := idb_getRow no_faults;
  du_getEntities s t := idb_getEntities false no_faults s (QType t);
  du_clear s := let '(s', r) := idb_clear no_faults s in (s', default DatabaseError r);
|}.

#[export] Instance idb_durable_spec : DurableSpec S.
Proof.
  refine {| du_wf := idb_wf; du_takes := idb_takes |}.
  - intros s ops Hw Ht. destruct (idb_apply_ok s ops Hw Ht) as (s' & res & H & Hw' & Hrow & Hst).
    exists s', res. unfold du_apply, du_row, idb_durable. rewrite H. done.
  - intros s ops s' res k Hw Ht. unfold du_apply, du_row, idb_durable.
    destruct (idb_apply no_faults s ops) as [s1 [r|]] eqn:E; [|done]. intros [= <- <-]. by eapply idb_eids_ok.
  - intros s _. eexists. split; [done|]. unfold du_row, idb_durable, idb_wf, idb_row. setoid_rewrite os_get_clear. done.
  - done.
  - intros s t Hw. destruct (mem_of_rows s Hw) as [Hi Hr].
    destruct (type_answer s (mem_of s) Hw Hr t) as [Hn Hin]. eexists. split; [done|]. split; [exact Hn|].
    intros e. rewrite Hin. unfold live_at. rewrite Hr. cbn. by rewrite has_type_true.
Defined.

(** Batches one after the other, with the statuses each reports. *)
Fixpoint run_batches {A} (run : A → list IOp → A * list Status) (a : A) (batches : list (list IOp)) : A * list (list Status) :=
  match batches with
  | [] => (a, [])
  | ops :: batches =>
      let '(a, st) := run a ops in
      let '(a, sts) := run_batches run a batches in
      (a, st :: sts)
  end.

Definition idb_run s ops := match idb_apply no_faults s ops with (s', Some r) => (s', stats r) | (s', None) => (s', []) end.
Definition mem_run d ops := match EntDBMemory.apply d ops with (d', Ok r) => (d', stats r) | (d', _) => (d', []) end.

(** [C20] The IndexedDB database does what the in-memory one does: over the same
    rows [apply], which groups the ops of a batch by entity and writes each row
    once, leaves the same rows and reports the same status for every op, in
    place, as applying the ops one after the other; and so does any sequence of
    batches. *)
Theorem idb_apply_refines_memory s d batches :
  idb_wf s → (∀ k, map_get k (ents d) = idb_row s k) → Forall (Forall idb_takes) batches →
  let '(s', sts) := run_batches idb_run s batches in
  let '(d', sts') := run_batches mem_run d batches in
  idb_wf s' ∧ (∀ k, map_get k (ents d') = idb_row s' k) ∧ sts = sts'.
Proof.
  intros Hw Hrows Ht. revert s d Hw Hrows.
  induction Ht as [|ops batches Hops _ IH]; intros s d Hw Hrows; cbn [run_batches]; [done|].
  destruct (idb_apply_ok s ops Hw Hops) as (s' & res & Hrun & Hw' & Hrow & Hst).
  destruct (apply_stats d ops) as (out & Hout & Hst'). pose proof (apply_row d ops) as Hrow'.
  unfold idb_run at 1, mem_run at 1. rewrite Hrun.
  destruct (EntDBMemory.apply d ops) as [d' r]. cbn in Hout, Hrow'. subst r.
  specialize (IH s' d' Hw'). destruct (run_batches idb_run s' batches), (run_batches mem_run d' batches).
  destruct IH as (? & ? & ->); [intros k; by rewrite Hrow', Hrow, Hrows|]. split_and!; [done|done|].
  f_equal. rewrite Hst, Hst', op_stats_rows. apply row_stats_ext. intros k. by rewrite Hrows.
Qed.

(** [C21] Index queries answer as memory does: over the same rows a query by
    type, parent, tag (exact, range, prefix) or date answers the same entities
    or the same error, [countEntities] the same number, and the checksum is the
    same; for date bounds that are dates, a range of more than one point where
    the browser refuses an open end on it, and prefixes no tag extends by
    U+FFFF. *)
Theorem idb_queries_match_memory `{CryptoPrims} s d strict q type h :
  inv d → idb_wf s → (∀ k, map_get k (ents d) = idb_row s k) → query_ok d strict q →
  same_answer (idb_getEntities strict no_faults s q) (EntDBMemory.getEntities d q) ∧
  idb_countEntities no_faults s type = Ok (EntDBMemory.countEntities d type) ∧
  (checksum d = Ok h → idb_checksum no_faults s = Ok h).
Proof.
  intros Hd Hw Hrows Hq. split; [by eapply idb_same_answer|]. split.
  - rewrite (idb_count s d Hd Hw Hrows). do 2 f_equal. destruct (useIndex d) eqn:Hu; [by rewrite count_fullScan|].
    unfold EntDBMemory.countEntities. by rewrite Hu.
  - unfold checksum, checksumEntRevs, idb_checksum. cbn [f_open f_get no_faults].
    intros (recs & Hr & [= <-])%res_bind_Ok_inv. unfold checksumEntRevs.
    destruct (res_mapM_perm encodeEntRev (revFromEntity <$> map_values (ents d)) (revFromEntity ∘ storedToRow <$> os_all s) recs)
      as (recs' & -> & Hp); [|done|].
    + rewrite list_fmap_compose. apply Permutation_map. symmetry. by apply idb_all_rows.
    + simpl. unfold checksumSet. by rewrite (preimage_perm _ _ Hp).
Qed.

(** Where failures are misreported: when the read of a later entity of a
    batch fails, the browser rolls the whole transaction back, but the ops
    before it are reported as applied, with their types and ids; and when the
    commit is aborted with every request answered, [apply] never answers, which
    leaves the chain of a cache above it waiting for ever. *)
Theorem idb_failures_misreported s o1 o2 next f :
  op_key o1 ≠ op_key o2 → applyOp (idb_row s (op_key o1)) o1 = Ok next → f_open f = false →
  (f_get f (op_key o1) = false → f_get f (op_key o2) = true →
    ∃ types, idb_apply f s [o1; o2] = (s, Some (mkApplied [Success; DatabaseError] types [op_eid (op_head o1)]))) ∧
  ((∀ k, f_get f k = false) → (∀ k, f_put f k = false) → f_commit f = true →
    idb_apply f s [o1; o2] = (s, None)).
Proof.
  intros Hne Hok Hopen.
  assert (Hg : group_ops [o1; o2] = [(op_key o1, [(o1, 0%nat)]); (op_key o2, [(o2, 1%nat)])]).
  { unfold group_ops. cbn. rewrite decide_False by congruence. cbn. by rewrite decide_False by congruence. }
  unfold idb_apply. rewrite Hopen, Hg. cbn [length Nat.ltb Nat.leb run_groups]. split.
  - intros -> ->. fold (idb_row s (op_key o1)). cbn [run_group]. rewrite Hok. cbn. eexists. done.
  - intros Hget Hput ->. rewrite !Hget. fold (idb_row s (op_key o1)) (idb_row s (op_key o2)). cbn [run_group]. rewrite Hok. cbn.
    destruct (applyOp (idb_row s (op_key o2)) o2); cbn; rewrite ?Hput; cbn; try done;
      destruct (idb_row s (op_key o2)); cbn; by rewrite ?Hput.
Qed.
End props.

(** ** An object store *)

Module Shelf.
Record shelf := mkShelf { rows : list IStoredRow; rows_once : NoDup (s_key <$> rows) }.

Lemma NoDup_keys_delete l k : NoDup (s_key <$> l) → NoDup (s_key <$> filter (λ r, s_key r ≠ k) l).
Proof. intros H. eapply sublist_NoDup; [exact H|]. apply fmap_sublist, sublist_filter. Qed.

Lemma NoDup_keys_put l row : NoDup (s_key <$> l) → NoDup (s_key <$> filter (λ r, s_key r ≠ s_key row) l ++ [row]).
Proof.
  intros H. rewrite fmap_app. apply NoDup_app. split; [by apply NoDup_keys_delete|]. split; [|apply NoDup_singleton].
  intros x (r & -> & [Hr _]%list_elem_of_filter)%list_elem_of_fmap Hx%list_elem_of_singleton. done.
Qed.

Lemma NoDup_keys_nil : NoDup (s_key <$> []).
Proof. constructor. Qed.

Definition hits (l : list IStoredRow) (ix : IDBIndex) (r : IDBKeyRange) : list IStoredEntity :=
  l ≫= λ row, match row with
              | SLive st => (λ _, st) <$> List.filter (λ k, in_range k r) (index_keys ix row)
              | STomb _ => []
              end.

#[export] Instance shelf_store : ObjectStore shelf := {|
  os_get s k := find (λ r, bool_decide (s_key r = k)) (rows s);
  os_put s row := mkShelf (filter (λ r, s_key r ≠ s_key row) (rows s) ++ [row]) (NoDup_keys_put (rows s) row (rows_once s));
  os_clear _ := mkShelf [] NoDup_keys_nil;
  os_all := rows;
  os_getAll s ix r := hits (rows s) ix r;
|}.

Lemma find_in l k row :
  NoDup (s_key <$> l) → find (λ r, bool_decide (s_key r = k)) l = Some row ↔ row ∈ l ∧ s_key row = k.
Proof.
  induction l as [|x l IH]; cbn; intros Hn; [set_solver|]. apply NoDup_cons in Hn as [Hni Hn]. case_bool_decide as Hk.
  - split; [intros [= ->]; by split; [left|]|]. intros [[->|Hin]%elem_of_cons Hr]; [done|].
    destruct Hni. apply list_elem_of_fmap. exists row. split; [congruence|done].
  - rewrite IH by done. set_solver.
Qed.

#[export] Instance shelf_laws : ObjectStoreLaws shelf.
Proof.
  split.
  - intros s row k. apply option_eq. intros r. change (os_get (os_put s row) k) with (find (λ r, bool_decide (s_key r = k)) (rows (os_put s row))).
    rewrite find_in by apply rows_once. cbn. rewrite elem_of_app, list_elem_of_filter, list_elem_of_singleton.
    case_decide as Hk.
    + split; [intros [[[? ?]| ->] ?]; congruence|]. intros [= ->]. split; [by right|done].
    + rewrite find_in by apply rows_once. split; [|naive_solver]. intros [[[? ?]| ->] ?]; [done|congruence].
  - done.
  - intros s. apply rows_once.
  - intros s row. change (os_get s (s_key row)) with (find (λ r, bool_decide (s_key r = s_key row)) (rows s)).
    rewrite find_in by apply rows_once. naive_solver.
  - intros s ix r. cbn. unfold hits. induction (rows s) as [|row l IH]; [done|]. cbn. rewrite fmap_app, IH. f_equiv.
    destruct row as [st|t]; [|by destruct ix]. rewrite <-list_fmap_compose. done.
Qed.

Definition shelf0 : shelf := os_clear (mkShelf [] NoDup_keys_nil).
Definition stocked : shelf := (idb_apply no_faults shelf0 ops).1.
End Shelf.
Import Shelf Toy.

Lemma shelf0_wf : idb_wf shelf0.
Proof. intros k row H. discriminate H. Qed.

Lemma shelf0_rows k : map_get k (ents empty) = idb_row shelf0 k.
Proof. done. Qed.

Lemma sample_taken : Forall idb_takes ops.
Proof.
  apply Forall_forall. intros op Hop. pose proof sample_ok as Hok. eapply Forall_forall in Hok; [|done]. split; [done|].
  assert (H : Forall (λ op, match op_mut op with Some m => mu_pid m ≠ Some [] | None => True end) ops)
    by (repeat constructor; cbn; done).
  by eapply Forall_forall in H.
Qed.

Lemma stocked_ok : idb_wf stocked ∧ ∀ k, map_get k (ents full) = idb_row stocked k.
Proof.
  destruct (idb_apply_ok shelf0 ops shelf0_wf sample_taken) as (s' & res & Hrun & Hw & Hrow & _).
  unfold stocked. rewrite Hrun. split; [done|]. intros k. unfold full. rewrite apply_row, Hrow. done.
Qed.

Lemma idb_apply_refines_memory_witness :
  let '(s', sts) := run_batches idb_run shelf0 [ops; ops] in
  let '(d', sts') := run_batches mem_run empty [ops; ops] in
  idb_wf s' ∧ (∀ k, map_get k (ents d') = idb_row s' k) ∧ sts = sts'.
Proof.
  apply (idb_apply_refines_memory shelf0 empty [ops; ops] shelf0_wf shelf0_rows).
  apply Forall_cons; split; [apply sample_taken|]. apply Forall_singleton, sample_taken.
Defined.

Example both_report : (run_batches idb_run shelf0 [ops; ops]).2 =
  [[Success; Success; Success; Success]; [NoChange; NoChange; NoChange; NoChange]].
Proof. vm_compute. reflexivity. Qed.

Definition by_prefix : EntitiesQuery := QTag (js "note") (TagPrefix (js "y")).

Lemma full_inv : inv full.
Proof. apply apply_inv, empty_inv. Qed.

Lemma by_prefix_ok : query_ok full true by_prefix.
Proof.
  intros e t Hl Ht _.
  assert (H : Forall (λ kv, match kv.2 with
      | Live e => Forall (λ t, str_lt (js "y" ++ [65535]) t = false) (default [] (e_tags e))
      | Tomb _ => True end) (ents full)) by (vm_compute; repeat constructor).
  apply map_get_Some_in in Hl.
  eapply Forall_forall in H; [|exact Hl]. by eapply Forall_forall in H.
Qed.

Lemma full_checksum : ∃ h, checksum full = Ok h.
Proof. eexists. vm_compute. reflexivity. Qed.

Lemma idb_queries_match_memory_witness :
  same_answer (idb_getEntities true no_faults stocked by_prefix) (EntDBMemory.getEntities full by_prefix) ∧
  idb_countEntities no_faults stocked (js "note") = Ok 1 ∧
  idb_checksum no_faults stocked = checksum full.
Proof.
  destruct full_checksum as [h Hh].
  destruct (idb_queries_match_memory stocked full true by_prefix (js "note") h full_inv
    (proj1 stocked_ok) (proj2 stocked_ok) by_prefix_ok) as (H1 & H2 & H3).
  split; [exact H1|]. split; [exact H2|]. rewrite Hh. by apply H3.
Defined.

Definition lost : jsstr := btob64 b.

(** The read of [b] fails: its row is not written, and neither is [a]'s, whose
    op is reported as applied. *)
Lemma idb_failures_misreported_witness :
  ∃ types, idb_apply (mkFaults false (λ k, bool_decide (k = lost)) (λ _, false) false) shelf0
      [note a 0 [] [x0a]; note b 0 [] [x0b]] =
    (shelf0, Some (mkApplied [Success; DatabaseError] types [a])).
Proof.
  apply (idb_failures_misreported shelf0 (note a 0 [] [x0a]) (note b 0 [] [x0b]) (row_of (note a 0 [] [x0a])) _);
    [by vm_compute|by vm_compute|done|by vm_compute|by vm_compute].
Defined.

(** The upper bound of a prefix query is the prefix and U+FFFF, so a tag that
    goes on after one is missed, though memory answers it. *)
Lemma prefix_query_misses_tag :
  let ops := [note a 0 [js "y" ++ [65535; 65535]] [x0a]] in
  let s := (idb_apply no_faults shelf0 ops).1 in
  idb_getEntities false no_faults s by_prefix = Ok [] ∧
  EntDBMemory.getEntities (EntDBMemory.apply empty ops).1 by_prefix ≠ Ok [].
Proof. by vm_compute. Qed.

(** An empty parent id is falsy in the stored form and reads back as none. *)
Lemma empty_parent_lost e :
  e_pid e = Some [] → storedToEntity (entityToStored e) ≠ e.
Proof. intros H He. apply (f_equal e_pid) in He. cbn in He. rewrite H in He. discriminate He. Qed.
