(* ===== verification/Threads.v ===== *)
(** * Two threads over one entity database

    The sync worker applies messages to the durable database and posts the ids
    it changed; the main thread, whose cache stands over the same database,
    pulls those rows ([web/src/worker/{runtime,client}.ts], [web/src/state.ts],
    [web/src/entdb/manager.ts]).  A step is a turn of either thread; posts
    arrive in the order they were made. *)
From S2P Require Import State.
From S2P Require Export CachedChain.
From S2P Require Import CachedProps.
Import EntDBMemory.

Section threads.
Context {D : Type} {DU : Durable D}.

(** What the worker posts about the entity database. *)
Inductive WorkerPost := Dirty (eids : list bytes) | Wiped.

(** [unsent]: commits whose continuation, which posts, has not run. *)
Record Link := mkLink { lk_cache : Cache D; lk_unsent : list WorkerPost; lk_posts : list WorkerPost }.

Definition with_durable (d : D) (c : Cache D) : Cache D :=
  mkCache (c_mem c) d (c_optimistic c) (c_chain c) (c_reads c) (c_emits c).

(** [StateManager.apply] of the worker: no cache, nobody listening, and
    [onDirtyEids] posts. *)
Definition worker_apply (msgs : list IMessage) (l : Link) : Link :=
  let '(d, r) := sm_apply du_apply false [] (c_durable (lk_cache l)) msgs in
  mkLink (with_durable d (lk_cache l))
    (lk_unsent l ++ match r with
                    | Ok out => match sr_dirty out with Some eids => [Dirty eids] | None => [] end
                    | _ => []
                    end) (lk_posts l).

(** [state.clear] of the worker. *)
Definition worker_clear (l : Link) : Link :=
  let '(d, st) := du_clear (c_durable (lk_cache l)) in
  mkLink (with_durable d (lk_cache l)) (lk_unsent l ++ if bool_decide (st = Success) then [Wiped] else []) (lk_posts l).

Definition worker_post (l : Link) : Link :=
  match lk_unsent l with
  | [] => l
  | p :: unsent => mkLink (lk_cache l) unsent (lk_posts l ++ [p])
  end.

(** [refresh] with the [peerIngest] of [entStateManager]. *)
Definition refresh (eids : list bytes) (c : Cache D) : Cache D := ingestFromDurable eids c.

(** [onMessage] of the main thread. *)
Definition onPost (p : WorkerPost) (c : Cache D) : Cache D :=
  match p with Dirty eids => refresh eids c | Wiped => cache_clear c end.

Definition main_deliver (l : Link) : Link :=
  match lk_posts l with
  | [] => l
  | p :: posts => mkLink (onPost p (lk_cache l)) (lk_unsent l) posts
  end.

Inductive Turn :=
  | TMain (ev : Event)                            (* the main thread: calls and continuations *)
  | TDeliver                                      (* it takes the next post *)
  | TApply (msgs : list IMessage) | TClear        (* the worker: its commits *)
  | TPost.                                        (* it posts *)

Definition link_step (t : Turn) (l : Link) : Link :=
  match t with
  | TMain ev => mkLink (cache_step ev (lk_cache l)) (lk_unsent l) (lk_posts l)
  | TDeliver => main_deliver l
  | TApply msgs => worker_apply msgs l
  | TClear => worker_clear l
  | TPost => worker_post l
  end.

Definition link_run (ts : list Turn) (l : Link) : Link := fold_left (λ l t, link_step t l) ts l.

Definition openLink (d : D) (indexes optimistic : bool) : Link := mkLink (openCache d [] indexes optimistic) [] [].

(** Nothing on its way. *)
Definition quiet (l : Link) : Prop := lk_unsent l = [] ∧ lk_posts l = [] ∧ idle (lk_cache l).

(** ** Runs without a clear *)

Context {DS : DurableSpec D} (U : IOp → Prop) {W : Writes U} {T : Takes D U}.

(** The ops of these messages are of [U]. *)
Definition msgs_of (msgs : list IMessage) : Prop :=
  ∀ ops sts, parse_msgs msgs = Ok (ops, sts) → Forall U ops.

(** What the application and the worker do: writes of [U], no clears.  Ingests
    and commits of the other thread come from the posts and the worker. *)
Definition turn_ok (t : Turn) : Prop :=
  match t with
  | TMain (EApply ops) => Forall U ops
  | TMain (EIngest _ | EClear | EWorker _) => False
  | TApply msgs => msgs_of msgs
  | TClear => False
  | _ => True
  end.

(** Ids announced and not taken. *)
Definition announced (l : Link) : list WorkerPost := lk_posts l ++ lk_unsent l.

Record link_ok (l : Link) : Prop := {
  lo_cache : ∃ owed, coherent U (lk_cache l) owed ∧
    ∀ k, k ∈ owed → ∃ eids, Dirty eids ∈ announced l ∧ k ∈ btob64 <$> eids;
  lo_rows eids eid : Dirty eids ∈ announced l → eid ∈ eids → drow (lk_cache l) (btob64 eid) ≠ None;
  lo_kept : Wiped ∉ announced l;
}.

Lemma apply_keeps_rows d ops k :
  du_wf d → Forall U ops → du_row d k ≠ None → du_row (du_apply d ops).1 k ≠ None.
Proof.
  intros Hw HU Hn. destruct (du_apply_ok d ops Hw (Forall_impl _ _ _ HU takes)) as (d' & res & -> & _ & Hrow & _).
  cbn. rewrite Hrow. destruct (du_row d k) as [row|]; [|done]. destruct (fold_some row (ops_at k ops)) as [? ->]. done.
Qed.

(** No event of a coherent cache takes a durable row away. *)
Lemma step_keeps_rows ev c owed k :
  coherent U c owed → permitted U ev c → drow c k ≠ None → drow (cache_step ev c) k ≠ None.
Proof.
  intros Hc Hp Hn. pose proof Hc as [_ Hw _ Hj _].
  destruct ev; cbn [cache_step permitted] in *; try done; unfold drow in *.
  - unfold cache_apply. case_match; [|done]. by destruct (applyOps _ _ _).
  - unfold start_job. unfold queue in Hj. destruct (ch_run _), (ch_queue _) as [|[ops snap|eids|] q]; try done.
    + apply Forall_cons in Hj as [[HU _] _].
      pose proof (apply_keeps_rows (c_durable c) ops k Hw HU Hn) as Hk. by destruct (du_apply (c_durable c) ops).
    + by apply Forall_cons in Hj as [? _].
  - unfold run_turn. repeat case_match; try done; unfold finish_job; repeat case_match; done.
  - unfold list_front, ensureWarm, beginWarm. repeat case_match; done.
  - unfold endWarm. repeat case_match; done.
  - unfold beginGet. by case_match.
  - unfold endGet. by repeat case_match.
  - by apply (apply_keeps_rows (c_durable c) ops k).
Qed.

Lemma with_durable_id c : with_durable (c_durable c) c = c.
Proof. by destruct c. Qed.

(** A commit of the worker is an event of the cache, announced where it changed
    rows. *)
Lemma worker_apply_event msgs l :
  du_wf (c_durable (lk_cache l)) → msgs_of msgs →
  worker_apply msgs l = l ∨
  ∃ ops res, Forall U ops ∧ (du_apply (c_durable (lk_cache l)) ops).2 = Ok res ∧
    worker_apply msgs l = mkLink (cache_step (EWorker ops) (lk_cache l))
      (lk_unsent l ++ match eids res with [] => [] | _ => [Dirty (eids res)] end) (lk_posts l).
Proof.
  intros Hw HU. unfold worker_apply, sm_apply. destruct (parse_msgs msgs) as [[ops sts]|s|] eqn:E;
    [|left; rewrite with_durable_id, app_nil_r; by destruct l..].
  right. specialize (HU _ _ E).
  destruct (du_apply_ok _ ops Hw (Forall_impl _ _ _ HU takes)) as (d' & res & Hd & _).
  exists ops, res. rewrite Hd. split_and!; [done|done|]. unfold cache_step. rewrite Hd. cbn. f_equal. f_equal. by destruct (eids res).
Qed.

Lemma link_step_ok t l : turn_ok t → link_ok l → link_ok (link_step t l).
Proof.
  intros Ht [(owed & Hc & Ho) Hr Hk]. destruct t as [ev| |msgs| |]; cbn [link_step turn_ok] in *.
  - assert (Hp : permitted U ev (lk_cache l)) by (by destruct ev). split.
    + exists owed. split; [|done]. pose proof (step_coherent U ev _ _ Hp Hc) as [H _]. by destruct ev.
    + intros es eid Hin He. eapply step_keeps_rows; [done..|]. by eapply Hr.
    + done.
  - unfold main_deliver, announced in *. destruct (lk_posts l) as [|[es|] posts] eqn:E; [by split; [exists owed|..]; unfold announced; rewrite ?E| |].
    2: { destruct Hk. cbn. left. }
    assert (Hp : permitted U (EIngest es) (lk_cache l)) by (intros eid He; eapply Hr; [left|done]).
    split.
    + exists (owe (EIngest es) (lk_cache l) owed). split; [by apply (step_coherent U (EIngest es))|].
      cbn [owe]. intros k [Hk1 Hk2]%elem_of_difference. rewrite elem_of_list_to_set in Hk2.
      destruct (Ho k Hk1) as (es' & [[= ->]|Hin]%elem_of_cons & Hks); [done|]. by exists es'.
    + intros es' eid Hin He. eapply Hr; [by right|done].
    + intros Hin. apply Hk. by right.
  - destruct (worker_apply_event msgs l (co_wf _ _ _ Hc) Ht) as [->|(ops & res & HU & Hd & ->)]; [by split; [exists owed|..]|].
    unfold announced in *. cbn [lk_cache lk_unsent lk_posts].
    assert (Hp : permitted U (EWorker ops) (lk_cache l)) by done.
    destruct (du_apply_ok _ ops (co_wf _ _ _ Hc) (Forall_impl _ _ _ HU takes)) as (d' & res' & Hd' & _ & Hrow & _).
    assert (res' = res) as -> by (rewrite Hd' in Hd; by injection Hd).
    assert (Hwr : written (c_durable (lk_cache l)) ops = btob64 <$> eids res) by (unfold written; by rewrite Hd').
    split.
    + exists (owe (EWorker ops) (lk_cache l) owed). split; [by apply (step_coherent U (EWorker ops))|].
      intros k. cbn [owe]. rewrite Hwr, elem_of_union, elem_of_list_to_set. intros [Hin|Hin].
      * destruct (Ho k Hin) as (es & He & ?). exists es. unfold announced. cbn. set_solver.
      * exists (eids res). split; [|done]. unfold announced. cbn. destruct (eids res); set_solver.
    + intros es eid Hin He. assert (Dirty es ∈ lk_posts l ++ lk_unsent l ∨ es = eids res) as [Hold| ->].
      { unfold announced in Hin. cbn in Hin. destruct (eids res); set_solver. }
      { eapply step_keeps_rows; [done..|]. by eapply Hr. }
      unfold drow. cbn [cache_step c_durable]. rewrite Hd'. cbn [fst]. rewrite Hrow.
      assert (Hany : any_applied (du_row (c_durable (lk_cache l)) (btob64 eid)) (ops_at (btob64 eid) ops) = true).
      { eapply (du_eids_ok _ ops d' res _ (co_wf _ _ _ Hc) (Forall_impl _ _ _ HU takes) Hd'). by apply list_elem_of_fmap_2. }
      apply some_applied in Hany as [? ->]. done.
    + unfold announced. cbn. destruct (eids res); set_solver.
  - done.
  - unfold worker_post. destruct (lk_unsent l) as [|p unsent] eqn:E; [by split; [exists owed|..]|].
    assert (Ha : announced (mkLink (lk_cache l) unsent (lk_posts l ++ [p])) = announced l).
    { unfold announced. cbn. by rewrite E, <-(assoc_L app). }
    split; rewrite ?Ha; [by exists owed|done..].
Qed.

Lemma link_run_ok ts l : Forall turn_ok ts → link_ok l → link_ok (link_run ts l).
Proof.
  intros Ht. revert l. induction Ht as [|t ts Ht _ IH]; intros l Hl; [done|]. apply IH. by apply link_step_ok.
Qed.

Lemma openLink_ok d indexes optimistic :
  du_wf d → (∀ k, good U k (du_row d k)) → link_ok (openLink d indexes optimistic).
Proof.
  intros Hw Hg. split; [|set_solver..]. exists ∅. split; [by apply open_coherent|set_solver].
Qed.

Lemma quiet_owes_nothing l : link_ok l → quiet l → coherent U (lk_cache l) ∅.
Proof.
  intros [(owed & Hc & Ho) _ _] (Hu & Hp & _). unfold announced in Ho. rewrite Hu, Hp in Ho.
  assert (owed = ∅) as <-; [|done]. apply set_eq. intros k. split; [|set_solver]. intros Hk.
  destruct (Ho k Hk) as (es & ? & _). set_solver.
Qed.
End threads.
