(* ===== verification/ThreadsProps.v ===== *)
(** * Properties of two threads over one entity database

    What the worker writes reaches the main thread's cache, and what a clear
    made by the worker does to the rows written after it. *)
From S2P Require Import Threads CachedProps EntProps State.
Import EntDBMemory Sample CacheDemo.

Section threads.
Context {D : Type} {DU : Durable D} {DS : DurableSpec D}.
Implicit Types (l : Link (D := D)) (c : Cache D).

(** ** Draining *)

Lemma link_run_app ts ts' l : link_run (ts ++ ts') l = link_run ts' (link_run ts l).
Proof. apply fold_left_app. Qed.

(** The turns of the event loops alone. *)
Definition loop_turn (t : Turn) : Prop :=
  match t with TPost | TDeliver | TMain (EStart | ETurn) => True | _ => False end.

Lemma posts_sent l : ∃ ts, Forall loop_turn ts ∧ lk_unsent (link_run ts l) = [].
Proof.
  remember (lk_unsent l) as ps eqn:E. revert l E. induction ps as [|p ps IH]; intros l E; [by exists []|].
  destruct (IH (link_step TPost l)) as (ts & Ht & H).
  { cbn. unfold worker_post. by rewrite <-E. }
  exists (TPost :: ts). by split; [constructor|].
Qed.

Lemma posts_taken l :
  lk_unsent l = [] → ∃ ts, Forall loop_turn ts ∧ lk_unsent (link_run ts l) = [] ∧ lk_posts (link_run ts l) = [].
Proof.
  remember (lk_posts l) as ps eqn:E. revert l E. induction ps as [|p ps IH]; intros l E Hu; [by exists []|].
  destruct (IH (link_step TDeliver l)) as (ts & Ht & H); [cbn; unfold main_deliver; by rewrite <-E..|].
  exists (TDeliver :: ts). by split; [constructor|].
Qed.

Lemma chain_done l :
  ∃ ts, Forall loop_turn ts ∧ idle (lk_cache (link_run ts l)) ∧
    lk_unsent (link_run ts l) = lk_unsent l ∧ lk_posts (link_run ts l) = lk_posts l.
Proof.
  remember (work (lk_cache l)) as n eqn:E. revert l E. induction n as [n IH] using lt_wf_ind. intros l ->.
  destruct (idle_dec (lk_cache l)) as [Hi|Hni]; [by exists []|].
  destruct (chain_turn_less _ Hni) as [Hlt _]. unfold chain_turn in Hlt.
  destruct (ch_run (c_chain (lk_cache l))) eqn:Hr.
  - destruct (IH _ Hlt (link_step (TMain ETurn) l) eq_refl) as (ts & Ht & H). exists (TMain ETurn :: ts). by split; [constructor|].
  - destruct (IH _ Hlt (link_step (TMain EStart) l) eq_refl) as (ts & Ht & H). exists (TMain EStart :: ts). by split; [constructor|].
Qed.

Lemma link_drains l : ∃ ts, Forall loop_turn ts ∧ quiet (link_run ts l).
Proof.
  destruct (posts_sent l) as (t1 & H1 & Hu). destruct (posts_taken _ Hu) as (t2 & H2 & Hu2 & Hp2).
  destruct (chain_done (link_run t2 (link_run t1 l))) as (t3 & H3 & Hi & Hu3 & Hp3).
  exists (t1 ++ t2 ++ t3). rewrite !link_run_app. split; [by repeat apply Forall_app_2|].
  split; [by rewrite Hu3|]. split; [by rewrite Hp3|done].
Qed.

(** [C8] What either thread writes reaches the reader.  The writes of both are
    dated, no two different ones of an entity share a time (those of the rows
    stored at first included), the database takes each of them, and neither
    thread clears.  Then whatever the threads do (the
    worker applies messages and posts the ids it changed; the main thread
    writes, lists and reads), in any interleaving, the posts and the chain of
    the cache can always be drained, and whenever nothing is on its way the
    cache agrees with the database: its rows are the durable ones and a type
    once listed is listed as the database lists it.  (What a shared time or a
    clear does instead: [cache_keeps_losing_tie], [clear_brings_rows_back],
    [second_clear_erases_rebuild].) *)
Theorem worker_writes_reach_main U {W : Writes U} {T : Takes D U} d indexes optimistic ts :
  du_wf d → (∀ k, good U k (du_row d k)) → Forall (turn_ok U) ts →
  let l := link_run ts (openLink d indexes optimistic) in
  (quiet l → agrees (lk_cache l)) ∧
  ∃ rest, Forall loop_turn rest ∧ quiet (link_run rest l) ∧ agrees (lk_cache (link_run rest l)).
Proof.
  intros Hw Hg Ht l. assert (Hl : link_ok U l) by (by apply link_run_ok, openLink_ok).
  assert (Hq : ∀ l', link_ok U l' → quiet l' → agrees (lk_cache l')).
  { intros l' Hl' Hq. apply (idle_agrees U); [by apply quiet_owes_nothing|apply Hq]. }
  split; [by apply Hq|]. destruct (link_drains l) as (rest & Hr & Hq'). exists rest. split; [done|]. split; [done|].
  apply Hq; [|done]. apply (link_run_ok U); [|done]. eapply Forall_impl; [exact Hr|]. intros [[]| | | |]; done.
Qed.

(** ** After a second clear *)

Lemma run_turn_frame c : c_durable (run_turn c) = c_durable c ∧ queue (run_turn c) = queue c.
Proof. unfold run_turn, queue. repeat case_match; try done; unfold finish_job; by repeat case_match. Qed.

(** No rows, and no write on its way. *)
Definition barren l : Prop :=
  du_wf (c_durable (lk_cache l)) ∧ (∀ k, drow (lk_cache l) k = None) ∧ Forall (λ j, is_persist j = 0%nat) (queue (lk_cache l)).

Lemma loop_turn_barren t l : loop_turn t → barren l → barren (link_step t l).
Proof.
  intros Ht (Hw & Hn & Hq). destruct t as [ev| | | |]; try done.
  - destruct ev; try done; cbn [link_step cache_step]; unfold barren; cbn [lk_cache].
    + unfold start_job. pose proof Hq as Hq'. unfold queue in Hq.
      destruct (ch_run _), (ch_queue _) as [|[ops snap|eids|] q]; try done; apply Forall_cons in Hq as [? Hq]; [done..|].
      destruct (du_clear_ok _ Hw) as (d & Hd & Hw' & Hn'). rewrite Hd. by split.
    + destruct (run_turn_frame (lk_cache l)) as [Hd ->]. unfold drow. by rewrite Hd.
  - cbn. unfold main_deliver. destruct (lk_posts l) as [|[es|] posts]; [done|..]; (split; [done|]; split; [done|]);
      unfold queue; cbn; apply Forall_app; by split; [|apply Forall_singleton].
  - cbn. unfold worker_post. by destruct (lk_unsent l).
Qed.

Lemma loop_turns_barren ts l : Forall loop_turn ts → barren l → barren (link_run ts l).
Proof. intros Ht. revert l. induction Ht as [|t ts Ht _ IH]; intros l Hl; [done|]. by apply IH, loop_turn_barren. Qed.

(** Where it goes wrong: the worker clears the database and applies
    messages again, as a rebuild does, and posts both; on the first post the
    main thread clears the database once more, so the rows applied in between
    are gone from it, whatever turns of the event loops follow, though the
    worker was told that every op was applied. *)
Theorem second_clear_erases_rebuild d msgs ops sts c :
  du_wf d → c_durable c = d → idle c → parse_msgs msgs = Ok (ops, sts) → Forall du_takes ops →
  let l1 := link_run [TClear; TPost; TApply msgs; TPost] (mkLink c [] []) in
  let l2 := link_run [TDeliver; TMain EStart] l1 in
  (∀ k, drow (lk_cache l1) k = fold_left step_row (ops_at k ops) None) ∧
  (∃ res, sm_apply du_apply false [] (du_clear d).1 msgs = (c_durable (lk_cache l1), Ok res) ∧
    sr_results res = merge_stats sts (row_stats (λ _, None) ops)) ∧
  ∀ rest k, Forall loop_turn rest → drow (lk_cache (link_run rest l2)) k = None.
Proof.
  intros Hw <- [Hq Hrun] Hp Ht. unfold queue in Hq. destruct (du_clear_ok (c_durable c) Hw) as (d1 & Hd1 & Hw1 & Hn1).
  destruct (du_apply_ok d1 ops Hw1 Ht) as (d2 & res & Hd2 & Hw2 & Hrow & Hst).
  destruct (du_clear_ok d2 Hw2) as (d3 & Hd3 & Hw3 & Hn3).
  assert (Hsm : sm_apply du_apply false [] d1 msgs = (d2, Ok (mkSmResult (merge_stats sts (stats res))
      (concat (emit [] <$> types res)) (if Nat.eqb (length (eids res)) 0 then None else Some (eids res))))).
  { unfold sm_apply. by rewrite Hp, Hd2. }
  set (dirty := if Nat.eqb (length (eids res)) 0 then [] else [Dirty (eids res)]).
  assert (H1 : link_run [TClear; TPost; TApply msgs; TPost] (mkLink c [] []) = mkLink (with_durable d2 c) [] (Wiped :: dirty)).
  { unfold link_run. cbn [fold_left link_step]. unfold worker_clear. cbn [lk_cache]. rewrite Hd1.
    rewrite bool_decide_eq_true_2 by done. cbn [lk_unsent lk_posts app worker_post lk_cache].
    unfold worker_apply. cbn [lk_cache c_durable with_durable lk_unsent lk_posts app]. rewrite Hsm. cbn [sr_dirty].
    unfold worker_post, dirty. by destruct (Nat.eqb _ _). }
  cbv zeta. rewrite H1, Hd1. cbn [fst lk_cache]. split_and!.
  - intros k. unfold drow. cbn. rewrite Hrow. by rewrite Hn1.
  - eexists. split; [exact Hsm|]. cbn. rewrite Hst. f_equal. by apply row_stats_ext.
  - intros rest k Hr. apply loop_turns_barren; [done|].
    unfold link_run. cbn [fold_left link_step main_deliver lk_posts onPost lk_cache cache_step].
    unfold start_job, cache_clear, enqueue, with_chain, with_durable. cbn. rewrite Hrun, Hq. cbn. rewrite Hd3. by split.
Qed.
End threads.

(** ** Concrete runs *)

(** The message of an op. *)
Definition msg_of (op : IOp) : IMessage :=
  let h := op_head op in
  match op_mut op with
  | Some m =>
      mkMsg (mkHead (Some (mu_type m)) (op_eid h) (op_off h) (op_ctr h) 0 None)
        (match run_enc (writeStruct entCodec (mkEnt (mu_pid m) (mu_tags m) (mu_body m))) with Ok bs => Some bs | _ => None end)
  | None => mkMsg (mkHead None (op_eid h) (op_off h) (op_ctr h) 0 None) None
  end.

Module ThreadsDemo.
Definition sent : list IMessage := msg_of <$> ops.

Lemma sent_parses : parse_msgs sent = Ok (ops, replicate 4 Success).
Proof. vm_compute. reflexivity. Qed.

Lemma sent_ok : msgs_of sample sent.
Proof. intros os sts H. rewrite sent_parses in H. injection H as <- _. apply Forall_forall. done. Qed.

(** The type is listed, the worker applies the ops, the application writes one
    of them too, and the posts come in between. *)
Definition turns : list Turn :=
  [TMain (EList (js "note")); TApply sent; TMain (EApply [note a 0 [js "x"; js "y"] [x0a]]); TPost;
   TMain (EWarmed (js "note")); TDeliver].

Lemma turns_ok : Forall (turn_ok sample) turns.
Proof.
  unfold turns. repeat (apply Forall_cons; split); try done; [apply sent_ok|]. apply Forall_singleton. by apply (bool_decide_unpack _).
Qed.

Definition drained : list Turn :=
  [TMain EStart; TMain ETurn; TMain ETurn; TMain ETurn; TMain EStart; TMain ETurn; TMain ETurn; TMain ETurn; TMain ETurn;
   TMain ETurn; TMain ETurn; TMain ETurn; TMain ETurn].
End ThreadsDemo.
Import ThreadsDemo.

Lemma worker_writes_reach_main_witness :
  let l := link_run (turns ++ drained) (openLink stored0 true true) in
  agrees (lk_cache l) ∧ getRow (c_mem (lk_cache l)) b = Some (row_of (delete b 9)).
Proof.
  split; [|vm_compute; reflexivity].
  apply (@worker_writes_reach_main db mem_durable mem_durable_spec sample sample_writes (mem_takes sample) stored0 true true
    (turns ++ drained) (apply_inv _ _ (make_inv _ _)) stored_good).
  - apply Forall_app. split; [apply turns_ok|by repeat constructor].
  - split; [|split; [|split]]; vm_compute; reflexivity.
Defined.

Lemma second_clear_erases_rebuild_witness :
  let l1 := link_run [TClear; TPost; TApply sent; TPost] (mkLink (openCache full [] true true) [] []) in
  let l2 := link_run [TDeliver; TMain EStart] l1 in
  let l3 := link_run [TMain ETurn; TDeliver; TMain EStart; TMain ETurn; TMain ETurn; TMain ETurn] l2 in
  drow (lk_cache l1) (btob64 a) = Some (row_of (note a 5 [js "y"] [x0c])) ∧ drow (lk_cache l3) (btob64 a) = None.
Proof.
  destruct (@second_clear_erases_rebuild db mem_durable mem_durable_spec full sent ops (replicate 4 Success) (openCache full [] true true)
    (apply_inv _ _ (make_inv _ _)) eq_refl (conj eq_refl eq_refl) sent_parses ltac:(by apply Forall_forall)) as (H1 & _ & H2).
  split.
  - rewrite H1. vm_compute. reflexivity.
  - apply H2. by repeat constructor.
Defined.
