(* ===== verification/Worker.v ===== *)
(** * The sync worker and the client in front of it ([web/src/worker])

    Two threads over the same stores.  The worker runs a [SyncClient] behind
    [WorkerRuntime.handle] and answers each command with its id; the main
    thread's [WorkerClient] keeps a table of the calls that wait for a reply.
    Messages arrive in order.  [Sys] holds both threads, the stores and the
    world they share; [sys_step] is one turn of either event loop.  A call of a
    client runs in one piece, as in [Facade]. *)
From S2P Require Export Facade.
From S2P Require Import Js.
From S2P Require Coalesce.

(** ** Protocol ([protocol.ts], [progress.ts]) *)

Record SerializedHost := mkSerHost { sh_handle : nat; sh_label : jsstr; sh_idx : Z }.

(** Optional flags, as the caller gave them. *)
Record WipeFlags := mkWipeFlags { wf_msgs : option bool; wf_ents : option bool; wf_meta : option bool; wf_seed : option bool }.

Inductive WorkerOp :=
  | OpPing
  | OpSetSeed (seed : bytes) (persist : option bool)
  | OpBind (label data ents : jsstr)
  | OpLink (host : SerializedHost) (connect : option bool)
  | OpUnlink (label : jsstr)
  | OpConnect (listen sync : option bool)
  | OpDisconnect
  | OpSync
  | OpRebuild (checkHost : option bool)
  | OpReconcile (hostLabel : jsstr) (opts : ReconcileOpts) (sync : option bool)
  | OpMsgcheck | OpEntcheck
  | OpWipe (flags : WipeFlags)
  | OpImport (file : bytes)
  | OpExport
  | OpGetXferState.

Record WorkerCmd := mkCmd { cmd_id : Z; cmd_op : WorkerOp }.

Inductive SyncPhase := PhPeek | PhPull | PhOpen | PhExec | PhPush | PhImport | PhIdle.
Record SyncProgressEvent := mkProgress {
  pr_phase : SyncPhase; pr_host : option jsstr; pr_done : option Z; pr_total : option Z;
  pr_bytesDone : option Z; pr_bytesTotal : option Z;
}.
Definition idleProgress : SyncProgressEvent := mkProgress PhIdle None None None None None.

Record XferState := mkXfer { xs_numUploads : Z; xs_numDownloads : Z; xs_progress : SyncProgressEvent }.

(** What a reply carries when the command did not fail. *)
Inductive WorkerResult :=
  | RNone | RPong | RStatus (st : Status) | RReport (r : ReconcileResult) | RBytes (bs : bytes) | RXfer (x : XferState).

(** [ok: true] with the result, or [ok: false] with the status. *)
Definition Reply : Type := WorkerResult + Status.

Inductive WorkerEvent :=
  | EvReady | EvInitError
  | EvClientState (connected : bool)
  | EvXferState (x : XferState)
  | EvDirty (eids : list bytes)
  | EvWiped
  | EvReply (id : Z) (r : Reply).

(** ** A client over shared stores *)

(** What a [SyncClient] keeps to itself. *)
Record Fields := mkFields {
  fl_account : option OpenAccount; fl_conns : jsmap jsstr (list BagManager); fl_slots : jsmap jsstr KeyTag;
}.
Definition noFields : Fields := mkFields None [] [].

Definition on_client {W A} (m : CM (W := W) A) (fl : Fields) (s : Store) (w : W) : Res A * Fields * Store * W :=
  let '(r, (s, f)) := m (s, mkFC (fl_account fl) (fl_conns fl) (fl_slots fl) w) in
  (r, mkFields (fc_account f) (fc_conns f) (fc_slots f), s, fc_world f).

Definition wipeOpts (f : WipeFlags) : WipeOpts :=
  mkWipeOpts (default true (wf_msgs f)) (default true (wf_ents f)) (default true (wf_meta f)) (default false (wf_seed f)).

(** ** The worker ([runtime.ts], [entry.ts]) *)

Inductive Readiness := Waiting | Opened | OpenFailed.

Record Runtime := mkRuntime { rt_client : option Fields; rt_boundLabel : jsstr; rt_ready : Readiness }.
Definition newRuntime : Runtime := mkRuntime None [] Waiting.

(** What the state manager of the worker posts. *)
Inductive Post := PostDirty (eids : list bytes) | PostWiped.
Definition post_event (p : Post) : WorkerEvent := match p with PostDirty eids => EvDirty eids | PostWiped => EvWiped end.

(** The worker's part of the world: the checksum of its entity database, the
    progress of its client, and what its state manager posted. *)
Class WorkerWorld (W : Type) := {
  ww_checksum : W → Res bytes;
  ww_progress : W → SyncProgressEvent;
  ww_posted : W → list Post * W;
}.

Section worker.
Context {C : CryptoPrims} {W : Type} {AC : ClientApp W} {TR : Transports W} {WW : WorkerWorld W}.
Context (maxPushBytes maxPullBytes : Z).
(** Whether the databases of these names open; the random draws of an export. *)
Context (opens : jsstr → jsstr → bool) (nonce : bytes) (nonces : nat → bytes).

(** A call that returns a status, one that returns nothing, one that returns
    a value or a status. *)
Definition result_status (m : CM (W := W) unit) : CM (W := W) WorkerResult :=
  r ← m_settle m;
  match r with Ok _ => mret (RStatus Success) | Err st => mret (RStatus st) | Throw => m_throw end.
Definition result_none (m : CM (W := W) unit) : CM (W := W) WorkerResult := _ ← ignore_status m; mret RNone.

Definition hostFromSerialized (h : SerializedHost) : IHostConnectionInfo :=
  mkHostInfo (sh_label h) (sh_handle h) (Some (sh_idx h)).

Definition xferState : CM (W := W) XferState :=
  '(numDownloads, numUploads) ← getXferState;
  progress ← ask (λ f, ww_progress (fc_world f));
  mret (mkXfer numUploads numDownloads progress).

(** The switch of [handle]; an [Err] is a [WorkerStatusError]. *)
Definition handle_op (boundLabel : jsstr) (op : WorkerOp) : CM (W := W) WorkerResult :=
  match op with
  | OpPing => mret RPong
  | OpSetSeed seed _ =>
      enclave ← m_lift (fromBytes seed);
      _ ← adopt enclave boundLabel;
      mret RNone
  | OpBind _ _ _ => mret RNone
  | OpLink host connect => result_none (link (hostFromSerialized host) (default true connect))
  | OpUnlink label => result_none (unlink label)
  | OpConnect listen sync => result_none (connect (default true listen) (default true sync))
  | OpDisconnect => result_none disconnect
  | OpSync => result_status (doSync maxPushBytes maxPullBytes)
  | OpRebuild checkHost => result_status (rebuild maxPullBytes (default true checkHost))
  | OpReconcile label opts sync =>
      report ← reconcile maxPushBytes maxPullBytes label opts (default true sync);
      mret (RReport report)
  | OpMsgcheck => digest ← msgcheck; mret (RBytes digest)
  | OpEntcheck =>
      r ← ask (λ f, ww_checksum (fc_world f));
      digest ← m_lift r;
      mret (RBytes digest)
  | OpWipe flags => result_none (wipe_client (wipeOpts flags))
  | OpImport file => result_status (import file)
  | OpExport => bs ← exportBytes nonce nonces; mret (RBytes bs)
  | OpGetXferState => x ← xferState; mret (RXfer x)
  end.

(** [handleCmd]: the reply to an outcome. *)
Definition reply_of (r : Res WorkerResult) : Reply :=
  match r with Ok v => inl v | Err st => inr st | Throw => inr InternalError end.

(** [bindStores]. *)
Definition bindStores (label data ents : jsstr) (rt : Runtime) (s : Store) (w : W)
    : Res WorkerResult * Runtime * list WorkerEvent :=
  match rt_client rt with
  | Some _ => (Ok RNone, rt, [])
  | None =>
      if opens data ents then
        let rt := mkRuntime (Some noFields) label
                    (match rt_ready rt with Waiting => Opened | r => r end) in
        let '(x, _, _, _) := on_client xferState noFields s w in
        (Ok RNone, rt, match x with Ok x => [EvXferState x] | _ => [] end ++ [EvReady])
      else
        (Throw, mkRuntime None (rt_boundLabel rt) (match rt_ready rt with Waiting => OpenFailed | r => r end), [EvInitError])
  end.

(** [handle] runs once the databases are bound, and fails where that failed. *)
Definition run_cmd (op : WorkerOp) (rt : Runtime) (s : Store) (w : W)
    : Reply * Runtime * Store * W * list WorkerEvent :=
  match op with
  | OpBind label data ents =>
      let '(r, rt, posts) := bindStores label data ents rt s w in (reply_of r, rt, s, w, posts)
  | _ =>
      match rt_ready rt, rt_client rt with
      | Opened, Some fl =>
          let '(r, fl, s, w) := on_client (handle_op (rt_boundLabel rt) op) fl s w in
          let '(posts, w) := ww_posted w in
          (reply_of r, mkRuntime (Some fl) (rt_boundLabel rt) (rt_ready rt), s, w, post_event <$> posts)
      | _, _ => (inr InternalError, rt, s, w, [])
      end
  end.
End worker.

Definition is_bind (op : WorkerOp) : bool := match op with OpBind _ _ _ => true | _ => false end.

(** A command that waits for [whenReady]. *)
Definition runnable (rt : Runtime) (cmd : WorkerCmd) : bool :=
  is_bind (cmd_op cmd) || match rt_ready rt with Waiting => false | _ => true end.

(** The thread: messages to it, its runtime, the calls of [handle] not
    finished, the messages from it. *)
Record Thread := mkThread {
  th_in : list WorkerCmd; th_runtime : Runtime; th_running : list WorkerCmd; th_out : list WorkerEvent;
}.

(** ** The main thread ([client.ts]) *)

(** What a call waiting for a reply does when it comes: nothing more, the end
    of [setSeed], [pullRemoteXfer], the debounced sync, the rest of [wipe]. *)
Inductive Wait := WCall | WSeed | WXfer | WPass | WWipe (flags : WipeFlags) | WHydrate.

(** How a waiting call ends: a reply, or an error that fails all of them. *)
Inductive Outcome := Replied (r : Reply) | Rejected.

Record Main := mkMain {
  mn_fields : Fields; mn_nextId : Z; mn_pending : jsmap Z Wait;
  mn_state : ClientState; mn_xfer : XferState;
  mn_sync : Coalesce.debounced;        (* [scheduledSync] *)
  mn_pass : option (option Z);         (* the request its pass waits for, if any *)
  mn_flush : list WorkerOp;            (* rebuilds that wait for the debounced sync *)
  mn_settled : list (Z * Outcome);
}.

(** Both threads.  [sy_issued] and [sy_ran] keep the commands sent and the
    replies made, [sy_lost] the calls that were waiting when their worker was
    replaced. *)
Record Sys (W : Type) := mkSys {
  sy_store : Store; sy_world : W; sy_main : Main; sy_worker : option Thread;
  sy_issued : list WorkerCmd; sy_ran : list (WorkerCmd * Reply); sy_lost : list Z;
}.
Arguments mkSys {W}.
Arguments sy_store {W}.
Arguments sy_world {W}.
Arguments sy_main {W}.
Arguments sy_worker {W}.
Arguments sy_issued {W}.
Arguments sy_ran {W}.
Arguments sy_lost {W}.

(** What a call of the application gets at once. *)
Inductive CallResult := Returned (st : Status) | Done | Threw | Awaits (id : Z) | AwaitsFlush.

Inductive Api :=
  | ASetSeed (n : bytes) (e : Enclave) (label : option jsstr) (persist : option bool)
      (bound : option (Res (jsstr * jsstr))) (spawns : bool)
  | ALink (host : IHostConnectionInfo) (connect : bool)
  | AUnlink (label : jsstr)
  | AConnect (listen sync : bool)
  | ADisconnect
  | ASync
  | ARebuild (checkHost : option bool)
  | AReconcile (hostLabel : jsstr) (opts : ReconcileOpts) (sync : option bool)
  | AImport (file : bytes)
  | AExport
  | APing | AMsgcheck | AEntcheck
  | AWipe (flags : WipeFlags).

(** The main thread's part of the world: its state manager, and whether its
    client scheduled a sync. *)
Class MainWorld (W : Type) := {
  mw_refresh : list bytes → W → W;
  mw_clear : W → W;
  mw_scheduled : W → bool * W;
}.

(** [requestStatus], [reconcile] and [export]: what the outcome becomes. *)
Definition status_of (o : Outcome) : Status :=
  match o with
  | Replied (inl (RStatus st)) => st
  | Replied (inl _) => Success
  | Replied (inr st) => st
  | Rejected => InternalError
  end.

Definition report_of (o : Outcome) : Res ReconcileResult :=
  match o with
  | Replied (inl (RReport r)) => if blen (rr_msgcheck r) =? 32 then Ok r else Err InternalError
  | Replied (inr st) => if bool_decide (st = Success) then Err InternalError else Err st
  | _ => Err InternalError
  end.

Definition export_of (o : Outcome) : Res bytes :=
  match o with
  | Replied (inl (RBytes bs)) => Ok bs
  | Replied (inr st) => Err st
  | _ => Err InternalError
  end.

(** [msgcheck] and [entcheck] throw instead. *)
Definition digest_of (o : Outcome) : Res bytes :=
  match o with Replied (inl (RBytes bs)) => Ok bs | _ => Throw end.

Definition serializeHost (host : IHostConnectionInfo) : SerializedHost :=
  mkSerHost (hi_handle host) (hi_label host) (default 0 (hi_idx host)).

Section main.
Context {C : CryptoPrims} {W : Type} {AC : ClientApp W} {TR : Transports W} {MW : MainWorld W}.
Context (delayMs : Z).                 (* [syncDebounceMs] *)

Definition upd_main (m : Main) (s : Sys W) : Sys W :=
  mkSys (sy_store s) (sy_world s) m (sy_worker s) (sy_issued s) (sy_ran s) (sy_lost s).
Definition upd_both (st : Store) (w : W) (m : Main) (s : Sys W) : Sys W :=
  mkSys st w m (sy_worker s) (sy_issued s) (sy_ran s) (sy_lost s).
Definition upd_thread (th : option Thread) (s : Sys W) : Sys W :=
  mkSys (sy_store s) (sy_world s) (sy_main s) th (sy_issued s) (sy_ran s) (sy_lost s).

Definition with_fields (fl : Fields) (m : Main) : Main :=
  mkMain fl (mn_nextId m) (mn_pending m) (mn_state m) (mn_xfer m) (mn_sync m) (mn_pass m) (mn_flush m) (mn_settled m).
Definition with_calls (next : Z) (pending : jsmap Z Wait) (settled : list (Z * Outcome)) (m : Main) : Main :=
  mkMain (mn_fields m) next pending (mn_state m) (mn_xfer m) (mn_sync m) (mn_pass m) (mn_flush m) settled.
Definition with_states (cs : ClientState) (x : XferState) (m : Main) : Main :=
  mkMain (mn_fields m) (mn_nextId m) (mn_pending m) cs x (mn_sync m) (mn_pass m) (mn_flush m) (mn_settled m).
Definition with_sync (d : Coalesce.debounced) (pass : option (option Z)) (flush : list WorkerOp) (m : Main) : Main :=
  mkMain (mn_fields m) (mn_nextId m) (mn_pending m) (mn_state m) (mn_xfer m) d pass flush (mn_settled m).

(** *** The table of waiting calls *)

(** [allocId], then [request]: the id is taken even when there is no worker. *)
Definition request (op : WorkerOp) (wait : Wait) (s : Sys W) : Sys W * CallResult :=
  let m := sy_main s in
  let id := mn_nextId m in
  match sy_worker s with
  | None => (upd_main (with_calls (id + 1) (mn_pending m) (mn_settled m) m) s, Threw)
  | Some th =>
      let cmd := mkCmd id op in
      (mkSys (sy_store s) (sy_world s)
         (with_calls (id + 1) (map_set id wait (mn_pending m)) (mn_settled m) m)
         (Some (mkThread (th_in th ++ [cmd]) (th_runtime th) (th_running th) (th_out th)))
         (sy_issued s ++ [cmd]) (sy_ran s) (sy_lost s), Awaits id)
  end.

Definition settle (id : Z) (o : Outcome) (m : Main) : Main :=
  with_calls (mn_nextId m) (map_delete id (mn_pending m)) (mn_settled m ++ [(id, o)]) m.

Definition failPending (m : Main) : Main :=
  with_calls (mn_nextId m) [] (mn_settled m ++ ((λ id, (id, Rejected)) <$> map_keys (mn_pending m))) m.

(** *** The debounced sync *)

(** Its work, up to the reply. *)
Definition work (s : Sys W) : Sys W :=
  match request OpSync WPass s with
  | (s', Awaits id) => upd_main (with_sync (mn_sync (sy_main s')) (Some (Some id)) (mn_flush (sy_main s')) (sy_main s')) s'
  | _ => upd_main (with_sync (mn_sync (sy_main s)) (Some None) (mn_flush (sy_main s)) (sy_main s)) s
  end.

(** A turn of [scheduledSync]; the work starts where a pass begins. *)
Definition debounce (e : Coalesce.deb_event) (s : Sys W) : Sys W :=
  let m := sy_main s in
  let d := Coalesce.deb_step delayMs (mn_sync m) e in
  let s := upd_main (with_sync d (mn_pass m) (mn_flush m) m) s in
  if Nat.ltb (Coalesce.passes (Coalesce.dtail (mn_sync m))) (Coalesce.passes (Coalesce.dtail d)) then work s else s.

(** *** The local client *)

Definition local {A} (c : CM (W := W) A) (s : Sys W) : Sys W * Res A :=
  let m := sy_main s in
  let '(r, fl, st, w) := on_client c (mn_fields m) (sy_store s) (sy_world s) in
  let '(scheduled, w) := mw_scheduled w in
  let s := upd_both st w (with_fields fl m) s in
  (if (scheduled : bool) then debounce Coalesce.Schedule s else s, r).

Definition loadSession (connected : bool) (s : Sys W) : Sys W :=
  let m := sy_main s in
  let cs := mkClientState (match fl_account (mn_fields m) with Some _ => true | None => false end)
              (0 <? Z.of_nat (length (hosts_list (sy_store s)))) connected in
  upd_main (with_states cs (mn_xfer m) m) s.

Definition hydrateStateFromStore (s : Sys W) : Sys W :=
  let s := loadSession false s in
  let m := sy_main s in
  upd_main (with_states (mn_state m) (mkXfer (upl_count (sy_store s)) (dnl_count (sy_store s)) idleProgress) m) s.

Definition wipe_local (flags : WipeFlags) (s : Sys W) : Sys W := (local (wipe_client (wipeOpts flags)) s).1.
(** The local client's [xferState] listener. *)
Definition local_xfer (s : Sys W) : Sys W :=
  let m := sy_main s in
  upd_main (with_states (mn_state m) (mkXfer (upl_count (sy_store s)) (dnl_count (sy_store s)) (xs_progress (mn_xfer m))) m) s.

(** *** Messages from the worker *)

(** What follows the [await] of a call that got its reply. *)
Definition continue (wait : Wait) (r : Reply) (s : Sys W) : Sys W :=
  match r, wait with
  | inl _, WSeed => (request OpGetXferState WXfer s).1
  | inl (RXfer x), WXfer => upd_main (with_states (mn_state (sy_main s)) x (sy_main s)) s
  | inl _, WWipe flags => hydrateStateFromStore (wipe_local flags s)
  | inl _, WHydrate => hydrateStateFromStore s
  | _, _ => s
  end.

Definition onMessage (ev : WorkerEvent) (s : Sys W) : Sys W :=
  let m := sy_main s in
  match ev with
  | EvReady => s
  | EvInitError => upd_main (failPending m) s
  | EvClientState connected =>
      upd_main (with_states (mkClientState (cs_hasSeed (mn_state m)) (cs_hasHost (mn_state m)) connected) (mn_xfer m) m) s
  | EvXferState x => upd_main (with_states (mn_state m) x m) s
  | EvDirty eids => upd_both (sy_store s) (mw_refresh eids (sy_world s)) m s
  | EvWiped => upd_both (sy_store s) (mw_clear (sy_world s)) m s
  | EvReply id r =>
      match map_get id (mn_pending m) with
      | None => s
      | Some wait => continue wait r (upd_main (settle id (Replied r) m) s)
      end
  end.

(** *** Calls of the application *)

(** [requestStatus] and its like catch what [request] throws. *)
Definition request_caught (op : WorkerOp) (s : Sys W) : Sys W * CallResult :=
  match request op WCall s with (s, Threw) => (s, Returned InternalError) | r => r end.

(** [spawnSyncWorker], [bindWorker] and the post of the database names: the
    worker before is gone, and what it had to say. *)
Definition spawn (e : Enclave) (label : jsstr) (persist : option bool) (bound : option (jsstr * jsstr)) (s : Sys W) : Sys W :=
  let m := sy_main s in
  let id := mn_nextId m in
  let cmd := mkCmd id (OpSetSeed (seed e) persist) in
  let bind := match bound with Some (data, ents) => [mkCmd 0 (OpBind label data ents)] | None => [] end in
  mkSys (sy_store s) (sy_world s) (with_calls (id + 1) (map_set id WSeed (mn_pending m)) (mn_settled m) m)
    (Some (mkThread (cmd :: bind) newRuntime [] []))
    (sy_issued s ++ [cmd]) (sy_ran s) (sy_lost s ++ map_keys (mn_pending m)).

Definition worker_setSeed (n : bytes) (e : Enclave) (label : option jsstr) (persist : option bool)
    (bound : option (Res (jsstr * jsstr))) (spawns : bool) (s : Sys W) : Sys W * CallResult :=
  let '(s, r) := local (setSeed n e label) s in
  match r with
  | Throw => (s, Threw)
  | Err st => (s, Returned st)
  | Ok _ =>
      let s := loadSession false s in
      let opened := match fl_account (mn_fields (sy_main s)) with Some a => oa_label a | None => [] end in
      match bound with
      | Some (Err st) => (s, Returned st)
      | Some Throw => (s, Threw)
      | _ =>
          let m := sy_main s in
          let id := mn_nextId m in
          if spawns then (spawn e opened persist (match bound with Some (Ok b) => Some b | _ => None end) s, Awaits id)
          else (upd_main (with_calls (id + 1) (mn_pending m) (mn_settled m) m) s, Threw)
      end
  end.

Definition if_worker (k : Sys W → Sys W * CallResult) (s : Sys W) : Sys W * CallResult :=
  match sy_worker s with Some _ => k s | None => (s, Done) end.

Definition link_host (host : IHostConnectionInfo) (connect : bool) (s : Sys W) : Sys W * CallResult :=
  let '(s, r) := local (link host false) s in
  match r with
  | Throw => (s, Threw)
  | _ =>
      let s := loadSession (cs_connected (mn_state (sy_main s))) s in
      request (OpLink (serializeHost host) (Some connect)) WCall s
  end.

Definition unlink_host (label : jsstr) (s : Sys W) : Sys W * CallResult :=
  let '(s, r) := local (unlink label) s in
  match r with
  | Throw => (s, Threw)
  | _ => if_worker (request (OpUnlink label) WCall) (loadSession (cs_connected (mn_state (sy_main s))) s)
  end.

Definition worker_wipe (flags : WipeFlags) (s : Sys W) : Sys W * CallResult :=
  let seedToo := bool_decide (wf_seed flags = Some true) in
  match sy_worker s with
  | Some _ =>
      if seedToo then request (OpWipe flags) (WWipe flags) s
      else request (OpWipe flags) WHydrate (wipe_local flags s)
  | None => (hydrateStateFromStore (wipe_local flags s), Done)
  end.

Definition api (a : Api) (s : Sys W) : Sys W * CallResult :=
  match a with
  | ASetSeed n e label persist bound spawns => worker_setSeed n e label persist bound spawns s
  | ALink host connect => link_host host connect s
  | AUnlink label => unlink_host label s
  | AConnect listen sync => if_worker (request (OpConnect (Some listen) (Some sync)) WCall) s
  | ADisconnect => if_worker (request OpDisconnect WCall) s
  | ASync => match sy_worker s with None => (s, Returned Success) | Some _ => request_caught OpSync s end
  | ARebuild checkHost =>
      let s := debounce Coalesce.Flush (debounce Coalesce.Cancel s) in
      let m := sy_main s in
      (upd_main (with_sync (mn_sync m) (mn_pass m) (mn_flush m ++ [OpRebuild checkHost]) m) s, AwaitsFlush)
  | AReconcile label opts sync => request_caught (OpReconcile label opts sync) s
  | AImport file => request_caught (OpImport file) s
  | AExport => request_caught OpExport s
  | APing => request OpPing WCall s
  | AMsgcheck => request OpMsgcheck WCall s
  | AEntcheck => request OpEntcheck WCall s
  | AWipe flags => worker_wipe flags s
  end.

(** A rebuild goes on once nothing of the debounced sync is in flight. *)
Definition flushed (s : Sys W) : Sys W :=
  let m := sy_main s in
  match Coalesce.inflight (Coalesce.dtail (mn_sync m)), mn_flush m with
  | None, op :: ops => (request_caught op (upd_main (with_sync (mn_sync m) (mn_pass m) ops m) s)).1
  | _, _ => s
  end.

(** The debounced sync's pass ends: at once without a worker, else with its
    request. *)
Definition pass_ends (s : Sys W) : Sys W :=
  let m := sy_main s in
  let ends := match mn_pass m with
              | None => false
              | Some None => true
              | Some (Some id) => existsb (λ p, p.1 =? id) (mn_settled m)
              end in
  if ends then debounce (Coalesce.PassSettles true) (upd_main (with_sync (mn_sync m) None (mn_flush m) m) s) else s.

Definition timeout (id : Z) (s : Sys W) : Sys W :=
  match map_get id (mn_pending (sy_main s)) with
  | Some WSeed => upd_main (settle id Rejected (sy_main s)) s
  | _ => s
  end.

Definition deliver (s : Sys W) : Sys W :=
  match sy_worker s with
  | Some (mkThread ins rt running (ev :: out)) => onMessage ev (upd_thread (Some (mkThread ins rt running out)) s)
  | _ => s
  end.

Definition worker_error (s : Sys W) : Sys W :=
  match sy_worker s with Some _ => upd_main (failPending (sy_main s)) s | None => s end.

Definition terminate (s : Sys W) : Sys W :=
  let s := upd_thread None (debounce Coalesce.Cancel s) in upd_main (failPending (sy_main s)) s.
End main.

(** ** Both threads *)

Section system.
Context {C : CryptoPrims} {W : Type} {MA WA : ClientApp W} {MT WT : Transports W} {MW : MainWorld W} {WW : WorkerWorld W}.
Context (delayMs maxPushBytes maxPullBytes : Z) (opens : jsstr → jsstr → bool) (nonce : bytes) (nonces : nat → bytes).

(** The worker takes the next message: [handle] is called. *)
Definition receive (s : Sys W) : Sys W :=
  match sy_worker s with
  | Some (mkThread (cmd :: ins) rt running out) => upd_thread (Some (mkThread ins rt (running ++ [cmd]) out)) s
  | _ => s
  end.

(** One of the commands taken runs and is answered; the commands of a client
    may overtake each other. *)
Definition run_one (i : nat) (s : Sys W) : Sys W :=
  match sy_worker s with
  | None => s
  | Some th =>
      match th_running th !! i with
      | None => s
      | Some cmd =>
          if runnable (th_runtime th) cmd then
            let '(r, rt, st, w, posts) :=
              run_cmd (AC := WA) (TR := WT) maxPushBytes maxPullBytes opens nonce nonces
                (cmd_op cmd) (th_runtime th) (sy_store s) (sy_world s) in
            mkSys st w (sy_main s)
              (Some (mkThread (th_in th) rt (list_delete i (th_running th)) (th_out th ++ posts ++ [EvReply (cmd_id cmd) r])))
              (sy_issued s) (sy_ran s ++ [(cmd, r)]) (sy_lost s)
          else s
      end
  end.

(** [emitClientState] and [emitXferState], whenever the worker's client has
    news. *)
Definition emit_states (s : Sys W) : Sys W :=
  match sy_worker s with
  | Some th =>
      match rt_client (th_runtime th) with
      | Some fl =>
          let '(c, _, _, _) := on_client (getClientState (TR := WT)) fl (sy_store s) (sy_world s) in
          let '(x, _, _, _) := on_client xferState fl (sy_store s) (sy_world s) in
          let evs := match c with Ok c => [EvClientState (cs_connected c)] | _ => [] end ++
                     match x with Ok x => [EvXferState x] | _ => [] end in
          upd_thread (Some (mkThread (th_in th) (th_runtime th) (th_running th) (th_out th ++ evs))) s
      | None => s
      end
  | None => s
  end.

Inductive Step :=
  | SApi (a : Api) | SLocal (c : CM (W := W) unit) | SXfer | STimer | SPass | SFlushed
  | STimeout (id : Z) | SError | STerminate | SDeliver
  | SReceive | SRun (i : nat) | SEmit.

Definition sys_step (t : Step) (s : Sys W) : Sys W :=
  match t with
  | SApi a => (api (AC := MA) (TR := MT) delayMs a s).1
  | SLocal c => (local delayMs c s).1
  | SXfer => local_xfer s
  | STimer => debounce delayMs Coalesce.Elapse s
  | SPass => pass_ends delayMs s
  | SFlushed => flushed s
  | STimeout id => timeout id s
  | SError => worker_error s
  | STerminate => terminate delayMs s
  | SDeliver => deliver (AC := MA) (TR := MT) delayMs s
  | SReceive => receive s
  | SRun i => run_one i s
  | SEmit => emit_states s
  end.

Definition sys_run (ts : list Step) (s : Sys W) : Sys W := fold_left (λ s t, sys_step t s) ts s.

(** [open]. *)
Definition openSys (st : Store) (w : W) : Sys W :=
  hydrateStateFromStore
    (mkSys st w (mkMain noFields 1 [] (mkClientState false false false) (mkXfer 0 0 idleProgress)
                   Coalesce.newDebounced None [] []) None [] [] []).
End system.
