(* ===== verification/WorkerFacts.v ===== *)
(** * The call table as a protocol

    [Core] is what the calls and the messages depend on; [moves] is the request
    and reply protocol on it, in which any command may be asked for and any
    reply made.  Every step of the two threads is a path of [moves]
    ([sys_step_path]), so what holds of the protocol holds of them. *)
From S2P Require Export Worker.
From S2P Require Import Js.
From S2P Require Coalesce.

Record Core := mkCore {
  cr_next : Z; cr_pending : jsmap Z Wait; cr_settled : list (Z * Outcome); cr_worker : option Thread;
  cr_issued : list WorkerCmd; cr_ran : list (WorkerCmd * Reply); cr_lost : list Z;
}.

Definition core {W} (s : Sys W) : Core :=
  mkCore (mn_nextId (sy_main s)) (mn_pending (sy_main s)) (mn_settled (sy_main s)) (sy_worker s)
    (sy_issued s) (sy_ran s) (sy_lost s).

(** What a move does to the calls that wait: nothing but answer one, leave them
    to a worker that is replaced (by one told its databases or not), fail all,
    or give up one. *)
Inductive Fate := Spares | Respawns (named : bool) | FailsAll | TimesOut (id : Z).

Definition is_reply (ev : WorkerEvent) : bool := match ev with EvReply _ _ => true | _ => false end.
Definition out_th (out : list WorkerEvent) (th : Thread) : Thread :=
  mkThread (th_in th) (th_runtime th) (th_running th) out.

(** The client is there only once the databases are bound. *)
Definition sane (rt : Runtime) : Prop := rt_client rt ≠ None → rt_ready rt ≠ Waiting.

Inductive moves : Fate → Core → Core → Prop :=
  | mv_alloc c :
      moves Spares c (mkCore (cr_next c + 1) (cr_pending c) (cr_settled c) (cr_worker c) (cr_issued c) (cr_ran c) (cr_lost c))
  | mv_request c th op wait :
      cr_worker c = Some th →
      moves Spares c
        (mkCore (cr_next c + 1) (map_set (cr_next c) wait (cr_pending c)) (cr_settled c)
          (Some (mkThread (th_in th ++ [mkCmd (cr_next c) op]) (th_runtime th) (th_running th) (th_out th)))
          (cr_issued c ++ [mkCmd (cr_next c) op]) (cr_ran c) (cr_lost c))
  | mv_spawn c op bind named :
      Forall (λ cmd, cmd_id cmd = 0 ∧ is_bind (cmd_op cmd) = true) bind → (named = true → bind ≠ []) →
      moves (Respawns named) c
        (mkCore (cr_next c + 1) (map_set (cr_next c) WSeed (cr_pending c)) (cr_settled c)
          (Some (mkThread (mkCmd (cr_next c) op :: bind) newRuntime [] []))
          (cr_issued c ++ [mkCmd (cr_next c) op]) (cr_ran c) (cr_lost c ++ map_keys (cr_pending c)))
  | mv_timeout c id :
      map_get id (cr_pending c) = Some WSeed →
      moves (TimesOut id) c
        (mkCore (cr_next c) (map_delete id (cr_pending c)) (cr_settled c ++ [(id, Rejected)]) (cr_worker c)
          (cr_issued c) (cr_ran c) (cr_lost c))
  | mv_fail c worker :
      worker = cr_worker c ∨ worker = None ∨ (∃ th ev out, cr_worker c = Some th ∧ th_out th = ev :: out ∧ worker = Some (out_th out th)) →
      moves FailsAll c
        (mkCore (cr_next c) [] (cr_settled c ++ ((λ id, (id, Rejected)) <$> map_keys (cr_pending c))) worker
          (cr_issued c) (cr_ran c) (cr_lost c))
  | mv_receive c th cmd ins :
      cr_worker c = Some th → th_in th = cmd :: ins →
      moves Spares c
        (mkCore (cr_next c) (cr_pending c) (cr_settled c)
          (Some (mkThread ins (th_runtime th) (th_running th ++ [cmd]) (th_out th))) (cr_issued c) (cr_ran c) (cr_lost c))
  | mv_run c th i cmd rt posts r :
      cr_worker c = Some th → th_running th !! i = Some cmd → runnable (th_runtime th) cmd = true →
      Forall (λ ev, is_reply ev = false) posts → (sane (th_runtime th) → sane rt ∧ rt_ready rt ≠ Waiting) →
      moves Spares c
        (mkCore (cr_next c) (cr_pending c) (cr_settled c)
          (Some (mkThread (th_in th) rt (list_delete i (th_running th)) (th_out th ++ posts ++ [EvReply (cmd_id cmd) r])))
          (cr_issued c) (cr_ran c ++ [(cmd, r)]) (cr_lost c))
  | mv_emit c th evs :
      cr_worker c = Some th → Forall (λ ev, is_reply ev = false) evs →
      moves Spares c
        (mkCore (cr_next c) (cr_pending c) (cr_settled c) (Some (out_th (th_out th ++ evs) th)) (cr_issued c) (cr_ran c) (cr_lost c))
  | mv_news c th ev out :
      cr_worker c = Some th → th_out th = ev :: out →
      (is_reply ev = false ∨ ∃ id r, ev = EvReply id r ∧ map_get id (cr_pending c) = None) →
      moves Spares c
        (mkCore (cr_next c) (cr_pending c) (cr_settled c) (Some (out_th out th)) (cr_issued c) (cr_ran c) (cr_lost c))
  | mv_reply c th id r out wait :
      cr_worker c = Some th → th_out th = EvReply id r :: out → map_get id (cr_pending c) = Some wait →
      moves Spares c
        (mkCore (cr_next c) (map_delete id (cr_pending c)) (cr_settled c ++ [(id, Replied r)]) (Some (out_th out th))
          (cr_issued c) (cr_ran c) (cr_lost c)).

Inductive path (P : Fate → Prop) : Core → Core → Prop :=
  | path_refl c : path P c c
  | path_step c1 f c2 c3 : P f → moves f c1 c2 → path P c2 c3 → path P c1 c3.

Lemma path_trans P c1 c2 c3 : path P c1 c2 → path P c2 c3 → path P c1 c3.
Proof. induction 1; [done|]. intros. econstructor; eauto. Qed.

Lemma path_one (P : Fate → Prop) f c1 c2 : P f → moves f c1 c2 → path P c1 c2.
Proof. intros. econstructor; [done..|constructor]. Qed.

Lemma path_eq P c1 c2 : c2 = c1 → path P c1 c2.
Proof. intros ->. constructor. Qed.

Lemma path_impl (P Q : Fate → Prop) c1 c2 : (∀ f, P f → Q f) → path P c1 c2 → path Q c1 c2.
Proof. intros H. induction 1; [constructor|]. econstructor; eauto. Qed.

Lemma path_keeps (P : Fate → Prop) (I : Core → Prop) :
  (∀ f c c', P f → moves f c c' → I c → I c') → ∀ c c', path P c c' → I c → I c'.
Proof. intros H c c'. induction 1; eauto. Qed.

(** ** Steps are paths *)

Section paths.
Context {C : CryptoPrims} {W : Type} {WA MA : ClientApp W} {WT MT : Transports W} {MW : MainWorld W} {WW : WorkerWorld W}.
Context (delayMs maxPushBytes maxPullBytes : Z) (opens : jsstr → jsstr → bool) (nonce : bytes) (nonces : nat → bytes).
Implicit Types (s : Sys W).

Definition spares : Fate → Prop := λ f, f = Spares.

Lemma request_path op wait s : path spares (core s) (core (request op wait s).1).
Proof.
  unfold request. destruct (sy_worker s) as [th|] eqn:E.
  - eapply path_one; [done|]. cbn. by apply (mv_request (core s)).
  - eapply path_one; [done|]. apply (mv_alloc (core s)).
Qed.

Lemma work_path s : path spares (core s) (core (work s)).
Proof.
  unfold work. pose proof (request_path OpSync WPass s) as H. destruct (request OpSync WPass s) as [s' r] eqn:E. cbn in H.
  destruct r; try (by apply path_eq). exact H.
Qed.

Lemma debounce_path e s : path spares (core s) (core (debounce delayMs e s)).
Proof.
  unfold debounce. cbv zeta. set (s1 := upd_main _ _). assert (Hc : core s1 = core s) by done.
  case_match; [rewrite <-Hc; apply work_path|by apply path_eq].
Qed.

Lemma local_path {A} (c : CM (W := W) A) s : path spares (core s) (core (local delayMs c s).1).
Proof.
  unfold local. destruct (on_client _ _ _ _) as [[[r fl] st] w]. destruct (mw_scheduled w) as [b w']. cbn [fst].
  set (s1 := upd_both _ _ _ _). assert (Hc : core s1 = core s) by done. rewrite <-Hc.
  destruct b; [apply debounce_path|by apply path_eq].
Qed.

Lemma loadSession_core b s : core (loadSession b s) = core s.
Proof. done. Qed.
Lemma hydrate_core s : core (hydrateStateFromStore s) = core s.
Proof. done. Qed.

Definition named_in (bound : option (Res (jsstr * jsstr))) : bool := match bound with Some _ => true | None => false end.
Definition respawns (named : bool) : Fate → Prop := λ f, f = Spares ∨ f = Respawns named.

Lemma spawn_path e label persist bound s :
  path (respawns (match bound with Some _ => true | None => false end)) (core s) (core (spawn e label persist bound s)).
Proof.
  eapply path_one; [by right|]. unfold spawn. cbn. apply (mv_spawn (core s)); destruct bound as [[]|]; by repeat constructor.
Qed.

Lemma spares_respawns named c c' : path spares c c' → path (respawns named) c c'.
Proof. apply path_impl. by left. Qed.

Lemma setSeed_path n e label persist bound spawns s :
  path (respawns (named_in bound)) (core s) (core (worker_setSeed delayMs n e label persist bound spawns s).1).
Proof.
  unfold worker_setSeed. pose proof (local_path (setSeed n e label) s) as H. destruct (local _ _ _) as [s1 r]. cbn in H.
  apply (spares_respawns (named_in bound)) in H.
  assert (Ha : path (respawns (named_in bound)) (core s) (core (upd_main (with_calls (mn_nextId (sy_main (loadSession false s1)) + 1)
      (mn_pending (sy_main (loadSession false s1))) (mn_settled (sy_main (loadSession false s1)))
      (sy_main (loadSession false s1))) (loadSession false s1)))).
  { eapply path_trans; [exact H|]. eapply path_one; [by left|]. apply (mv_alloc (core s1)). }
  assert (Hs : ∀ l b, match b with Some _ => true | None => false end = named_in bound →
      path (respawns (named_in bound)) (core s) (core (spawn e l persist b (loadSession false s1)))).
  { intros l b Hb. eapply path_trans; [exact H|]. rewrite <-Hb, <-(loadSession_core false s1). apply spawn_path. }
  destruct r; [|done..]. destruct bound as [[b| |]|]; [destruct spawns; [by apply Hs|apply Ha]|done..|destruct spawns; [by apply Hs|apply Ha]].
Qed.

Lemma if_worker_path k s : (∀ s, path spares (core s) (core (k s).1)) → path spares (core s) (core (if_worker k s).1).
Proof. intros H. unfold if_worker. destruct (sy_worker s); [apply H|by apply path_eq]. Qed.

Lemma caught_path op s : path spares (core s) (core (request_caught op s).1).
Proof. unfold request_caught. pose proof (request_path op WCall s) as H. by destruct (request op WCall s) as [s' []]. Qed.

(** Only [setSeed] replaces the worker. *)
Definition api_respawns (a : Api) : Fate → Prop := λ f,
  match a with ASetSeed _ _ _ _ bound _ => respawns (named_in bound) f | _ => f = Spares end.

Lemma api_path a s : path (api_respawns a) (core s) (core (api (AC := MA) (TR := MT) delayMs a s).1).
Proof.
  destruct a; cbn [api]; try apply request_path; try apply caught_path; try (apply if_worker_path; intros; apply request_path).
  - apply setSeed_path.
  - unfold link_host. pose proof (local_path (link host false) s) as H. destruct (local _ _ _) as [s1 r]. cbn in H.
    destruct r; try done; (eapply path_trans; [exact H|]; apply (request_path _ _ (loadSession _ s1))).
  - unfold unlink_host. pose proof (local_path (unlink label) s) as H. destruct (local _ _ _) as [s1 r]. cbn in H.
    destruct r; try done; (eapply path_trans; [exact H|];
      apply (if_worker_path (request _ _) (loadSession _ s1)); intros; apply request_path).
  - destruct (sy_worker s); [apply caught_path|by apply path_eq].
  - cbn. eapply path_trans; [apply (debounce_path Coalesce.Cancel)|apply (debounce_path Coalesce.Flush)].
  - unfold worker_wipe, wipe_local. pose proof (local_path (wipe_client (wipeOpts flags)) s) as H.
    destruct (sy_worker s); [case_bool_decide|].
    + apply request_path.
    + eapply path_trans; [exact H|apply request_path].
    + cbn [fst]. by rewrite hydrate_core.
Qed.

Lemma continue_path wait r s : path spares (core s) (core (continue (AC := MA) (TR := MT) delayMs wait r s)).
Proof.
  destruct r as [v|st]; [|by apply path_eq].
  destruct v, wait; cbn [continue]; first [by apply path_eq|apply request_path|unfold wipe_local; apply local_path].
Qed.

(** Which waiting calls a step may fail. *)
Definition fails_all (t : Step (W := W)) s : bool :=
  match t with
  | SError | STerminate => true
  | SDeliver => match sy_worker s with Some (mkThread _ _ _ (EvInitError :: _)) => true | _ => false end
  | _ => false
  end.

Definition fate_of (t : Step (W := W)) s : Fate → Prop := λ f,
  match f with Spares => True | Respawns named => ∃ a, t = SApi a ∧ api_respawns a f | FailsAll => fails_all t s = true | TimesOut id => t = STimeout id end.

Lemma spares_fate t s c c' : path spares c c' → path (fate_of t s) c c'.
Proof. apply path_impl. by intros f ->. Qed.

Lemma deliver_path s : path (fate_of SDeliver s) (core s) (core (deliver (AC := MA) (TR := MT) delayMs s)).
Proof.
  unfold deliver. destruct (sy_worker s) as [[ins rt running [|ev out]]|] eqn:E; [by apply path_eq| |by apply path_eq].
  set (s1 := upd_thread _ s). assert (Hw : cr_worker (core s) = Some (mkThread ins rt running (ev :: out))) by done.
  assert (Hnews : (is_reply ev = false ∨ ∃ id r, ev = EvReply id r ∧ map_get id (cr_pending (core s)) = None) →
      path (fate_of SDeliver s) (core s) (core s1)).
  { intros H. eapply path_one; [|by apply (mv_news (core s) _ ev out Hw)]. done. }
  destruct ev as [| |b|x|es| |id r]; try (apply Hnews; by left).
  - eapply path_one; [|apply (mv_fail (core s) (Some (mkThread ins rt running out)))].
    + cbn. by rewrite E.
    + right. right. by eexists _, _, _.
  - cbn [onMessage]. destruct (map_get id (mn_pending (sy_main s1))) as [wait|] eqn:Ep; [|apply Hnews; right; by exists id, r].
    eapply path_step; [|by apply (mv_reply (core s) _ id r out wait Hw)|]; [done|].
    apply spares_fate, (continue_path wait r (upd_main (settle id (Replied r) (sy_main s1)) s1)).
Qed.

Lemma run_cmd_ready (op : WorkerOp) rt st (w : W) r rt' st' w' posts cmd :
  run_cmd (AC := WA) (TR := WT) maxPushBytes maxPullBytes opens nonce nonces op rt st w = (r, rt', st', w', posts) →
  cmd_op cmd = op → runnable rt cmd = true →
  Forall (λ ev, is_reply ev = false) posts ∧ (sane rt → sane rt' ∧ rt_ready rt' ≠ Waiting).
Proof.
  intros H Hop Hr. unfold runnable in Hr. rewrite Hop in Hr. revert H. unfold run_cmd.
  assert (Hcmd : match rt_ready rt, rt_client rt with
      | Opened, Some fl =>
          let '(r, fl, s, w) := on_client (handle_op (AC := WA) (TR := WT) maxPushBytes maxPullBytes nonce nonces (rt_boundLabel rt) op) fl st w in
          let '(posts, w) := ww_posted w in
          (reply_of r, mkRuntime (Some fl) (rt_boundLabel rt) (rt_ready rt), s, w, post_event <$> posts)
      | _, _ => (inr InternalError, rt, st, w, [])
      end = (r, rt', st', w', posts) → is_bind op = false →
      Forall (λ ev, is_reply ev = false) posts ∧ (sane rt → sane rt' ∧ rt_ready rt' ≠ Waiting)).
  { intros H Hb. rewrite Hb in Hr. cbn in Hr. destruct (rt_ready rt) eqn:Er; [done| |].
    - destruct (rt_client rt) as [fl|].
      + destruct (on_client _ _ _ _) as [[[? ?] ?] ?], (ww_posted _) as [ps ?]. injection H as <- <- <- <- <-.
        split; [apply Forall_fmap, Forall_true; by intros []|]. done.
      + injection H as <- <- <- <- <-. split; [constructor|]. unfold sane. by rewrite Er.
    - destruct (rt_client rt); injection H as <- <- <- <- <-; (split; [constructor|]; unfold sane; by rewrite Er). }
  destruct op; try (intros H; by apply Hcmd). unfold bindStores. destruct (rt_client rt) eqn:Ec.
  - intros [= <- <- <- <- <-]. split; [constructor|]. intros Hs. split; [done|]. apply Hs. by rewrite Ec.
  - destruct (opens data ents).
    + destruct (on_client _ _ _ _) as [[[x ?] ?] ?]. intros [= <- <- <- <- <-]. split.
      * apply Forall_app. split; [destruct x; by repeat constructor|by repeat constructor].
      * intros _. unfold sane. cbn. by destruct (rt_ready rt).
    + intros [= <- <- <- <- <-]. split; [by repeat constructor|]. intros _. unfold sane. cbn. by destruct (rt_ready rt).
Qed.

Lemma run_path i s : path spares (core s) (core (run_one (WA := WA) (WT := WT) maxPushBytes maxPullBytes opens nonce nonces i s)).
Proof.
  unfold run_one. destruct (sy_worker s) as [th|] eqn:E; [|by apply path_eq].
  destruct (th_running th !! i) as [cmd|] eqn:Ei; [|by apply path_eq].
  destruct (runnable _ _) eqn:Er; [|by apply path_eq].
  destruct (run_cmd _ _ _ _ _ _ _ _ _) as [[[[r rt] st] w] posts] eqn:Ec.
  destruct (run_cmd_ready _ _ _ _ _ _ _ _ _ cmd Ec eq_refl Er) as [Hp Hs].
  eapply path_one; [|by apply (mv_run (core s) th i cmd rt posts r)]. done.
Qed.

(** Every step of the two threads is a path of the protocol, and fails no more
    than it says. *)
Lemma sys_step_path t s :
  path (fate_of t s) (core s)
    (core (sys_step (MA := MA) (WA := WA) (MT := MT) (WT := WT) delayMs maxPushBytes maxPullBytes opens nonce nonces t s)).
Proof.
  destruct t; cbn [sys_step];
    lazymatch goal with
    | |- path (fate_of (SApi _) _) _ _ => idtac
    | |- path (fate_of (STimeout _) _) _ _ => idtac
    | |- path (fate_of SError _) _ _ => idtac
    | |- path (fate_of STerminate _) _ _ => idtac
    | |- path (fate_of SDeliver _) _ _ => idtac
    | _ => apply spares_fate
    end.
  - eapply path_impl; [|apply api_path]. intros f Hf. destruct f; cbn; [done|by exists a| |]; exfalso;
      by destruct a; cbn in Hf; unfold respawns in Hf; naive_solver.
  - apply local_path.
  - by apply path_eq.
  - apply debounce_path.
  - unfold pass_ends. case_match; [|by apply path_eq]. apply (debounce_path _ (upd_main (with_sync (mn_sync (sy_main s)) None (mn_flush (sy_main s)) (sy_main s)) s)).
  - unfold flushed. destruct (Coalesce.inflight _); [by apply path_eq|]. destruct (mn_flush _) as [|op ops]; [by apply path_eq|].
    apply (caught_path op (upd_main (with_sync (mn_sync (sy_main s)) (mn_pass (sy_main s)) ops (sy_main s)) s)).
  - unfold timeout. destruct (map_get id _) as [[]|] eqn:E; try (by apply path_eq).
    eapply path_one; [|exact (mv_timeout (core s) id E)]. done.
  - unfold worker_error. destruct (sy_worker s) eqn:E; [|by apply path_eq].
    eapply path_one; [|apply (mv_fail (core s) (sy_worker s)); by left]. done.
  - unfold terminate. eapply path_trans; [apply spares_fate, (debounce_path Coalesce.Cancel)|].
    eapply path_one; [|apply (mv_fail (core (debounce delayMs Coalesce.Cancel s)) None); right; by left]. done.
  - apply deliver_path.
  - unfold receive. destruct (sy_worker s) as [[[|cmd ins] rt running out]|] eqn:E; try (by apply path_eq).
    eapply path_one; [|by apply (mv_receive (core s) _ cmd ins E)]. done.
  - apply run_path.
  - unfold emit_states. destruct (sy_worker s) as [th|] eqn:E; [|by apply path_eq].
    destruct (rt_client _) as [fl|]; [|by apply path_eq].
    destruct (on_client getClientState _ _ _) as [[[c ?] ?] ?], (on_client xferState _ _ _) as [[[x ?] ?] ?].
    eapply path_one; [|apply (mv_emit (core s) th _ E)]; [done|]. apply Forall_app. split; [destruct c|destruct x]; by repeat constructor.
Qed.
End paths.

(** ** The invariant of the protocol *)

Definition flight (c : Core) : list WorkerCmd :=
  match cr_worker c with Some th => th_in th ++ th_running th | None => [] end.
Definition answers (c : Core) : list WorkerEvent := match cr_worker c with Some th => th_out th | None => [] end.

Definition ids (cmds : list WorkerCmd) : list Z := cmd_id <$> cmds.
Arguments ids : simpl never.

(** Commands that are answered or to be answered, but for binds. *)
Definition sent (c : Core) : list Z := filter (λ id, id ≠ 0) (ids ((fst <$> cr_ran c) ++ flight c)).

Definition issued_or_bind (c : Core) (cmd : WorkerCmd) : Prop :=
  cmd ∈ cr_issued c ∨ cmd_id cmd = 0 ∧ is_bind (cmd_op cmd) = true.

(** The reply is the one made to the command with this id. *)
Definition answered (c : Core) (id : Z) (r : Reply) : Prop := ∃ cmd, cmd ∈ cr_issued c ∧ cmd_id cmd = id ∧ (cmd, r) ∈ cr_ran c.

Record core_ok (c : Core) : Prop := {
  ok_next : 1 <= cr_next c;
  ok_wf : map_wf (cr_pending c);
  ok_issued cmd : cmd ∈ cr_issued c → 1 <= cmd_id cmd < cr_next c;
  ok_distinct : NoDup (ids (cr_issued c));
  ok_pending id : id ∈ map_keys (cr_pending c) → id ∈ ids (cr_issued c);
  ok_settled : NoDup ((cr_settled c).*1);
  ok_over id : id ∈ (cr_settled c).*1 → id ∈ ids (cr_issued c) ∧ id ∉ map_keys (cr_pending c);
  ok_got id r : (id, Replied r) ∈ cr_settled c → answered c id r;
  ok_flight cmd : cmd ∈ flight c → issued_or_bind c cmd;
  ok_ran cmd r : (cmd, r) ∈ cr_ran c → issued_or_bind c cmd;
  ok_answers id r : EvReply id r ∈ answers c → id = 0 ∨ answered c id r;
  ok_once : NoDup (sent c);
}.

Lemma ids_in cmds id : id ∈ ids cmds ↔ ∃ cmd, cmd ∈ cmds ∧ cmd_id cmd = id.
Proof. unfold ids. rewrite list_elem_of_fmap. naive_solver. Qed.

Lemma ids_cons cmd l : ids (cmd :: l) = cmd_id cmd :: ids l.
Proof. done. Qed.

Lemma ids_app l1 l2 : ids (l1 ++ l2) = ids l1 ++ ids l2.
Proof. apply fmap_app. Qed.

Lemma new_id c : core_ok c →
  (cr_next c ∉ ids (cr_issued c)) ∧ (cr_next c ∉ map_keys (cr_pending c)) ∧
  (cr_next c ∉ (cr_settled c).*1) ∧ (cr_next c ∉ sent c).
Proof.
  intros H. assert (Hi : cr_next c ∉ ids (cr_issued c)).
  { intros (cmd & Hin%(ok_issued c H) & Hid)%ids_in. lia. }
  split_and!; [done|by intros ?%(ok_pending c H)|by intros [? _]%(ok_over c H)|].
  unfold sent. rewrite list_elem_of_filter, ids_app, elem_of_app, !ids_in. intros [Hn [(cmd & Hin & Hid)|(cmd & Hin & Hid)]].
  - apply list_elem_of_fmap in Hin as ([cmd' r] & -> & Hin). apply (ok_ran c H) in Hin as [Hin|[? _]]; [|cbn in *; lia].
    apply Hi, ids_in. eauto.
  - apply (ok_flight c H) in Hin as [Hin|[? _]]; [|lia]. apply Hi, ids_in. eauto.
Qed.

Lemma map_keys_delete {V} id id' (m : jsmap Z V) :
  map_wf m → id' ∈ map_keys (map_delete id m) ↔ id' ∈ map_keys m ∧ id' ≠ id.
Proof.
  intros Hw. split.
  - intros H. split; [by eapply map_delete_keys_sub|]. intros ->.
    destruct (map_get id (map_delete id m)) eqn:E; [|by apply map_get_None in E]. rewrite map_get_delete in E by done.
    by rewrite decide_True in E.
  - intros [H Hne]. destruct (decide (id' ∈ map_keys (map_delete id m))) as [?|Hn]; [done|].
    apply map_get_None in Hn. rewrite map_get_delete, decide_False in Hn by done. by apply map_get_None in Hn.
Qed.

Lemma map_keys_set {V} id v (m : jsmap Z V) : id ∉ map_keys m → map_keys (map_set id v m) = map_keys m ++ [id].
Proof. intros H. rewrite map_set_new by done. unfold map_keys. by rewrite fmap_app. Qed.

Lemma NoDup_sub {A} (l1 l2 : list A) : l1 ⊆+ l2 → NoDup l2 → NoDup l1.
Proof. intros [k ->]%submseteq_Permutation [? _]%NoDup_app. done. Qed.

Lemma filter_sub {A} (P : A → Prop) `{∀ x, Decision (P x)} (l1 l2 : list A) : l1 ⊆+ l2 → filter P l1 ⊆+ filter P l2.
Proof. intros [k ->]%submseteq_Permutation. rewrite filter_app. by apply submseteq_inserts_r. Qed.

Lemma answered_more c c' id r :
  cr_issued c ⊆ cr_issued c' → cr_ran c ⊆ cr_ran c' → answered c id r → answered c' id r.
Proof. intros Hi Hr (cmd & H1 & H2 & H3). exists cmd. auto. Qed.

Lemma issued_more c c' cmd : cr_issued c ⊆ cr_issued c' → issued_or_bind c cmd → issued_or_bind c' cmd.
Proof. intros Hi [?|?]; [left; auto|by right]. Qed.

(** A new call. *)
Lemma ok_issue c op wait worker lost :
  core_ok c →
  (∀ cmd, cmd ∈ match worker with Some th => th_in th ++ th_running th | None => [] end →
    cmd = mkCmd (cr_next c) op ∨ cmd ∈ flight c ∨ cmd_id cmd = 0 ∧ is_bind (cmd_op cmd) = true) →
  (∀ ev, ev ∈ match worker with Some th => th_out th | None => [] end → ev ∈ answers c) →
  filter (λ id, id ≠ 0) (ids (match worker with Some th => th_in th ++ th_running th | None => [] end)) ⊆+
    cr_next c :: filter (λ id, id ≠ 0) (ids (flight c)) →
  core_ok (mkCore (cr_next c + 1) (map_set (cr_next c) wait (cr_pending c)) (cr_settled c) worker
    (cr_issued c ++ [mkCmd (cr_next c) op]) (cr_ran c) lost).
Proof.
  intros H Hfl Hout Honce. destruct (new_id c H) as (Hi & Hp & Hs & Hsent). destruct H as [H1 H2 H3 H4 H5 H6 H7 H8 H9 H10 H11 H12].
  split; unfold flight, answers; cbn [cr_next cr_pending cr_settled cr_worker cr_issued cr_ran cr_lost].
  - lia.
  - by apply map_set_wf.
  - intros cmd [Hin%H3| ->%list_elem_of_singleton]%elem_of_app; [|cbn]; lia.
  - rewrite ids_app. apply NoDup_app. split; [done|]. split; [|apply NoDup_singleton]. intros id Hin Hid%list_elem_of_singleton. by subst.
  - intros id. rewrite map_keys_set, ids_app, !elem_of_app by done. intros [?%H5|Hid]; [by left|by right].
  - done.
  - intros id [Ho Hn]%H7. rewrite map_keys_set, ids_app, !elem_of_app by done. split; [by left|].
    intros [?|Hid%list_elem_of_singleton]; [done|]. subst. by destruct Hi.
  - intros id r Hin%H8. eapply answered_more; [..|exact Hin]; cbn; set_solver.
  - intros cmd [->|[Hin%H9|?]]%Hfl; [left; cbn; set_solver|eapply issued_more; [|exact Hin]; cbn; set_solver|by right].
  - intros cmd r Hin%H10. eapply issued_more; [|exact Hin]. cbn. set_solver.
  - intros id r [?|Hin]%Hout%H11; [by left|right]. eapply answered_more; [..|exact Hin]; cbn; set_solver.
  - unfold sent in *. unfold flight at 1. cbn [cr_ran cr_worker]. rewrite ids_app, filter_app in *.
    eapply NoDup_sub; [apply submseteq_app; [reflexivity|exact Honce]|].
    rewrite <-Permutation_middle. by constructor.
Qed.

Definition flight_of (worker : option Thread) : list WorkerCmd :=
  match worker with Some th => th_in th ++ th_running th | None => [] end.
Definition answers_of (worker : option Thread) : list WorkerEvent :=
  match worker with Some th => th_out th | None => [] end.

(** Calls settle, and the thread keeps or loses what it had. *)
Lemma ok_settles c (os : list (Z * Outcome)) pending worker :
  core_ok c → map_wf pending → NoDup os.*1 →
  (∀ id, id ∈ os.*1 → id ∈ map_keys (cr_pending c)) →
  (∀ id, id ∈ map_keys pending → id ∈ map_keys (cr_pending c) ∧ id ∉ os.*1) →
  (∀ id r, (id, Replied r) ∈ os → answered c id r) →
  ids (flight_of worker) ⊆+ ids (flight c) → flight_of worker ⊆ flight c →
  (∀ id r, EvReply id r ∈ answers_of worker → EvReply id r ∈ answers c) →
  core_ok (mkCore (cr_next c) pending (cr_settled c ++ os) worker (cr_issued c) (cr_ran c) (cr_lost c)).
Proof.
  intros [H1 H2 H3 H4 H5 H6 H7 H8 H9 H10 H11 H12] Hw Hn Ho Hp Hr Hf Hf' Ha.
  split; cbn [cr_next cr_pending cr_settled cr_worker cr_issued cr_ran cr_lost]; try done.
  - intros id [Hin _]%Hp. by apply H5.
  - rewrite fmap_app. apply NoDup_app. split_and!; [done| |done]. intros id [_ Hnp]%H7 Hin%Ho. done.
  - intros id. rewrite fmap_app, elem_of_app. intros [[Hi Hnp]%H7|Hin].
    + split; [done|]. by intros [? _]%Hp.
    + split; [by apply H5, Ho|]. by intros [_ ?]%Hp.
  - intros id r [Hin%H8|Hin%Hr]%elem_of_app; done.
  - intros cmd Hin. apply H9, Hf'. done.
  - intros id r Hin. by apply H11, Ha.
  - unfold sent in *. unfold flight at 1. cbn [cr_ran cr_worker]. fold (flight_of worker).
    eapply NoDup_sub; [|exact H12]. rewrite !ids_app, !filter_app. apply submseteq_app; [done|]. by apply filter_sub.
Qed.

Lemma ok_thread c worker :
  core_ok c → ids (flight_of worker) ⊆+ ids (flight c) → flight_of worker ⊆ flight c →
  (∀ id r, EvReply id r ∈ answers_of worker → EvReply id r ∈ answers c) →
  core_ok (mkCore (cr_next c) (cr_pending c) (cr_settled c) worker (cr_issued c) (cr_ran c) (cr_lost c)).
Proof.
  intros H ? ? ?. rewrite <-(app_nil_r (cr_settled c)).
  apply ok_settles; try done; [apply H|apply NoDup_nil_2|set_solver|set_solver|set_solver].
Qed.

Lemma fmap_rejected l : ((λ id : Z, (id, Rejected)) <$> l).*1 = l.
Proof. rewrite <-list_fmap_compose. apply list_fmap_id. Qed.

Lemma moves_ok f c c' : moves f c c' → core_ok c → core_ok c'.
Proof.
  intros Hm Hc. pose proof Hc as [H1 H2 H3 H4 H5 H6 H7 H8 H9 H10 H11 H12].
  destruct Hm as [c|c th op wait Hw|c op bind named Hb _|c id Hid|c worker Hw|c th cmd ins Hw Hin|c th i cmd rt posts r Hw Hi Hr Hp Hs
                 |c th evs Hw He|c th ev out Hw Ho Hev|c th id r out wait Hw Ho Hid].
  - split; try done. cbn. lia. intros cmd Hin%H3. cbn. lia.
  - apply ok_issue; [done|..]; unfold flight, answers; rewrite Hw; cbn.
    + intros cmd. rewrite !elem_of_app, list_elem_of_singleton. naive_solver.
    + done.
    + rewrite <-(assoc_L app). cbn [app]. rewrite !ids_app, ids_cons, !filter_app, filter_cons, decide_True by (cbn; lia).
      cbn. by rewrite <-Permutation_middle.
  - apply ok_issue; [done|..]; unfold flight, answers; cbn.
    + intros cmd. rewrite app_nil_r, elem_of_cons. intros [->|Hin]; [by left|]. right. right. by eapply Forall_forall in Hb.
    + set_solver.
    + rewrite app_nil_r, ids_cons, filter_cons, decide_True by (cbn; lia). cbn.
      assert (filter (λ id, id ≠ 0) (ids bind) = []) as ->; [|apply submseteq_skip, submseteq_nil_l].
      clear -Hb. induction Hb as [|cmd bind [Hid _] _ IH]; [done|]. rewrite ids_cons, filter_cons, Hid. by rewrite decide_False by (intros Hn; by apply Hn).
  - apply map_get_Some_in in Hid as Hin.
    apply (ok_settles c [(id, Rejected)]); try done; [by apply map_delete_wf|apply NoDup_singleton|..].
    + intros id' ->%list_elem_of_singleton. apply list_elem_of_fmap. by exists (id, WSeed).
    + intros id' [? ?]%map_keys_delete; [|done]. split; [done|]. by intros ?%list_elem_of_singleton.
    + by intros id' r' [=]%list_elem_of_singleton.
  - apply (ok_settles c); try done; rewrite ?fmap_rejected; try done.
    + apply map_wf_nil.
    + intros id Hin. cbn in Hin. set_solver.
    + by intros id r (y & [=] & _)%list_elem_of_fmap.
    + destruct Hw as [->|[->|(th & ev & out & Hw & _ & ->)]]; [done|apply submseteq_nil_l|]. unfold flight. rewrite Hw. reflexivity.
    + destruct Hw as [->|[->|(th & ev & out & Hw & _ & ->)]]; [done|apply list_subseteq_nil|]. unfold flight. rewrite Hw. reflexivity.
    + destruct Hw as [->|[->|(th & ev & out & Hw & Ho & ->)]]; [done|set_solver|]. unfold answers. rewrite Hw, Ho. cbn. intros. by right.
  - apply ok_thread; [done|..].
    all: unfold flight, answers, flight_of, answers_of; rewrite Hw; cbn; rewrite ?Hin; try done.
    + rewrite (assoc_L app), ids_app, (comm app). done.
    + set_solver.
  - assert (Hperm : th_running th ≡ₚ cmd :: list_delete i (th_running th)) by exact (delete_Permutation _ _ _ Hi).
    revert Hperm. generalize (list_delete i (th_running th)) as rest. intros rest Hperm.
    assert (Hsub : ∀ x, x ∈ th_in th ++ rest → x ∈ flight c).
    { intros x. unfold flight. rewrite Hw, Hperm. set_solver. }
    assert (Hcmd : issued_or_bind c cmd) by (apply H9; unfold flight; rewrite Hw, Hperm; set_solver).
    split; unfold flight, answers; cbn [cr_next cr_pending cr_settled cr_worker cr_issued cr_ran cr_lost th_in th_running th_out]; try done.
    + intros id r' Hin%H8. eapply answered_more; [..|exact Hin]; cbn; set_solver.
    + intros x Hin. by apply H9, Hsub.
    + intros x r' [Hin%H10|[= -> ->]%list_elem_of_singleton]%elem_of_app; done.
    + intros id r' Hin. unfold answers in H11. rewrite Hw in H11. apply elem_of_app in Hin as [Hin|[Hin|Hin]%elem_of_app].
      * destruct (H11 id r' Hin) as [?|Ha]; [by left|right]. eapply answered_more; [..|exact Ha]; cbn; set_solver.
      * eapply Forall_forall in Hp; [|done]. done.
      * apply list_elem_of_singleton in Hin as [= -> ->]. destruct Hcmd as [?|[? _]]; [right|by left].
        exists cmd. cbn. set_solver.
    + unfold sent in *. unfold flight in *. cbn [cr_ran cr_worker th_in th_running]. rewrite Hw in H12.
      eapply NoDup_sub; [|exact H12]. apply filter_sub. unfold ids. apply fmap_submseteq.
      rewrite fmap_app, Hperm. cbn. rewrite <-(assoc_L app). apply submseteq_app; [done|]. cbn. by rewrite <-Permutation_middle.
  - apply ok_thread; [done|..].
    all: unfold flight, answers, flight_of, answers_of; rewrite Hw; cbn; try done.
    intros id r [?|Hin]%elem_of_app; [done|]. eapply Forall_forall in He; [|done]. done.
  - apply ok_thread; [done|..].
    all: unfold flight, answers, flight_of, answers_of; rewrite Hw; cbn; rewrite ?Ho; try done. intros. by right.
  - apply map_get_Some_in in Hid as Hin.
    apply (ok_settles c [(id, Replied r)]); try done; [by apply map_delete_wf|apply NoDup_singleton|..].
    + intros id' ->%list_elem_of_singleton. apply list_elem_of_fmap. by exists (id, wait).
    + intros id' [? ?]%map_keys_delete; [|done]. split; [done|]. by intros ?%list_elem_of_singleton.
    + intros id' r' [= -> ->]%list_elem_of_singleton. destruct (H11 id r) as [->|?]; [unfold answers; rewrite Hw, Ho; left| |done].
      assert (0 ∈ map_keys (cr_pending c)) as (cmd & ?%H3 & ?)%H5%ids_in; [|lia]. apply list_elem_of_fmap. by exists (0, wait).
    + unfold flight. rewrite Hw. reflexivity.
    + unfold flight. rewrite Hw. reflexivity.
    + intros id' r' Hin'. unfold answers. rewrite Hw, Ho. by right.
Qed.

(** * Where a waiting call is

    A call that waits is on its way to the worker, with the worker, or on its
    way back, or its worker was replaced ([fly_ok]).  The turns of the event
    loops that move messages come to an end ([loops_end]) with nothing on its
    way. *)

(** The command is not answered yet, or its reply not taken. *)
Definition flies (c : Core) (id : Z) : Prop := id ∈ ids (flight c) ∨ ∃ r, EvReply id r ∈ answers c.

Record fly_ok (c : Core) : Prop := {
  fl_ok : core_ok c;
  fl_sane th : cr_worker c = Some th → sane (th_runtime th);
  fl_pending id : id ∈ map_keys (cr_pending c) → flies c id ∨ id ∈ cr_lost c;
  fl_lost id : id ∈ cr_lost c → ¬ flies c id ∧ id ∈ ids (cr_issued c);
}.

(** The databases are open, or a bind is on its way. *)
Definition bound (c : Core) : Prop :=
  ∀ th, cr_worker c = Some th →
    rt_ready (th_runtime th) ≠ Waiting ∨ ∃ cmd, cmd ∈ flight c ∧ is_bind (cmd_op cmd) = true.

Lemma flies_issued c id : core_ok c → flies c id → id = 0 ∨ id ∈ ids (cr_issued c).
Proof.
  intros H [(cmd & Hin & <-)%ids_in|[r [?|(cmd & ? & <- & _)]%(ok_answers c H)]]; [|by left|right; apply ids_in; eauto].
  apply (ok_flight c H) in Hin as [?|[? _]]; [right; apply ids_in; eauto|by left].
Qed.

Lemma flies_thread c x ins rt running out :
  cr_worker c = Some (mkThread ins rt running out) →
  flies c x ↔ x ∈ ids ins ++ ids running ∨ ∃ r, EvReply x r ∈ out.
Proof. intros H. unfold flies, flight, answers. rewrite H. cbn. by rewrite ids_app. Qed.

Ltac by_thread th :=
  destruct th as [ins rt0 running out0]; cbn in *;
  repeat match goal with
  | H : cr_worker ?c = Some _ |- context [flies ?c _] => rewrite (flies_thread c _ _ _ _ _ H)
  | |- context [flies ?c' _] => erewrite (flies_thread c') by reflexivity
  end; rewrite ?ids_app, ?ids_cons; cbn.

Lemma sane_kept f c c' :
  moves f c c' → (∀ th, cr_worker c = Some th → sane (th_runtime th)) → ∀ th, cr_worker c' = Some th → sane (th_runtime th).
Proof.
  intros Hm Hs th Hth.
  destruct Hm as [| | | |c worker Hw| |c th0 i cmd rt posts r Hw Hi Hr Hp Hsane| | |]; cbn in Hth;
    try (injection Hth as <-); cbn; try (by eapply Hs); try done.
  - by intros ?.
  - destruct Hw as [->|[->|(th0 & ev & out & Hw & _ & ->)]]; [by eapply Hs|done|]. injection Hth as <-. exact (Hs _ Hw).
  - eapply Hsane. by eapply Hs.
Qed.

(** Nothing takes off but what is new. *)
Lemma flies_back f c c' x :
  moves f c c' → core_ok c → x ∈ ids (cr_issued c) → flies c' x → flies c x.
Proof.
  intros Hm Hc Hx. destruct (new_id c Hc) as (Hi & _). assert (Hne : x ≠ cr_next c) by (intros ->; done).
  destruct Hm as [c|c th op wait Hw|c op bind named Hb Hnb|c id Hid|c worker Hw|c th cmd ins' Hw Hin|c th i cmd rt posts r Hw Hi' Hr Hps Hs
                 |c th evs Hw He|c th ev out Hw Ho Hev|c th id r out wait Hw Ho Hid]; try done.
  - by_thread th. set_solver.
  - erewrite flies_thread by reflexivity. rewrite ids_cons. cbn. rewrite app_nil_r.
    intros [[?|Hb']%elem_of_cons|[? ?]]; [done| |set_solver]. apply ids_in in Hb' as (cmd & Hin & <-).
    eapply Forall_forall in Hb as [Hz _]; [|done]. apply ids_in in Hx as (cmd' & Hin' & Hid). apply (ok_issued c Hc) in Hin'. lia.
  - intros Hf. unfold flies, flight, answers in *. cbn in Hf.
    destruct Hw as [->|[->|(th & ev & out & Hw & Ho & ->)]]; [done|set_solver|]. rewrite Hw, Ho. cbn in Hf. set_solver.
  - by_thread th. subst ins. rewrite ids_cons. set_solver.
  - by_thread th. assert (Hr' : ids running ≡ₚ cmd_id cmd :: ids (list_delete i running)).
    { unfold ids. by rewrite (delete_Permutation _ _ _ Hi') at 1. }
    rewrite Hr'. intros [Hf|[r' [Hf|[Hf|[= -> ->]%list_elem_of_singleton]%elem_of_app]%elem_of_app]]; [set_solver..| |set_solver].
    eapply Forall_forall in Hps; [|done]. done.
  - by_thread th. intros [Hf|[r [Hf|Hf]%elem_of_app]]; [by left|right; by exists r|]. eapply Forall_forall in He; [|done]. done.
  - by_thread th. subst out0. set_solver.
  - by_thread th. subst out0. set_solver.
Qed.

(** What flies and waits goes on flying, or was left behind. *)
Lemma flies_on f c c' x :
  moves f c c' → core_ok c → x ∈ map_keys (cr_pending c') → flies c x → flies c' x ∨ x ∈ cr_lost c'.
Proof.
  intros Hm Hc Hx. destruct (new_id c Hc) as (Hi & Hn & _).
  destruct Hm as [c|c th op wait Hw|c op bind named Hb Hnb|c id Hid|c worker Hw|c th cmd ins' Hw Hin|c th i cmd rt posts r Hw Hi' Hr Hps Hs
                 |c th evs Hw He|c th ev out Hw Ho Hev|c th id r out wait Hw Ho Hid]; try (by left); cbn [cr_pending] in Hx.
  - by_thread th. set_solver.
  - cbn [cr_lost]. rewrite map_keys_set in Hx by done. apply elem_of_app in Hx as [Hx| ->%list_elem_of_singleton]; [set_solver|].
    intros _. left. erewrite flies_thread by reflexivity. rewrite ids_cons. cbn. set_solver.
  - set_solver.
  - by_thread th. subst ins. rewrite ids_cons. set_solver.
  - by_thread th. assert (Hr' : ids running ≡ₚ cmd_id cmd :: ids (list_delete i running)).
    { unfold ids. by rewrite (delete_Permutation _ _ _ Hi') at 1. }
    rewrite Hr'. intros [[Hf|[->|Hf]%elem_of_cons]%elem_of_app|[r' Hf]]; left; [set_solver| |set_solver|right; exists r'; set_solver].
    right. exists r. set_solver.
  - by_thread th. intros [Hf|[r Hf]]; left; [by left|right; exists r; set_solver].
  - by_thread th. subst out0. intros [Hf|[r Hf]]; left; [by left|]. apply elem_of_cons in Hf as [<-|Hf]; [|right; by exists r].
    destruct Hev as [?|(id & r' & [= -> ->] & Hnone)]; [done|]. by apply map_get_None in Hnone.
  - by_thread th. subst out0. apply map_keys_delete in Hx as [Hx Hne]; [|apply Hc].
    intros [Hf|[r' Hf]]; left; [by left|]. apply elem_of_cons in Hf as [[= -> ->]|Hf]; [done|right; by exists r'].
Qed.

(** Calls are lost only where a worker is replaced. *)
Lemma lost_kept f c c' x : moves f c c' → x ∈ cr_lost c' → x ∈ cr_lost c ∨ (∃ named, f = Respawns named) ∧ x ∈ map_keys (cr_pending c).
Proof. intros Hm Hx. destruct Hm; cbn in Hx; try (by left). apply elem_of_app in Hx as [?|?]; [by left|right; eauto]. Qed.

Lemma issued_kept f c c' : moves f c c' → ids (cr_issued c) ⊆ ids (cr_issued c') ∧ cr_lost c ⊆ cr_lost c'.
Proof. intros Hm. destruct Hm; cbn; rewrite ?ids_app; set_solver. Qed.

(** A new call flies. *)
Lemma pending_new f c c' x :
  moves f c c' → core_ok c → x ∈ map_keys (cr_pending c') → x ∈ map_keys (cr_pending c) ∨ flies c' x.
Proof.
  intros Hm Hc Hx. destruct (new_id c Hc) as (_ & Hn & _).
  destruct Hm as [c|c th op wait Hw|c op bind named Hb Hnb|c id Hid| | | | | |c th id r out wait Hw Ho Hid]; cbn [cr_pending] in Hx; try (by left).
  - rewrite map_keys_set in Hx by done. apply elem_of_app in Hx as [?| ->%list_elem_of_singleton]; [by left|right].
    by_thread th. set_solver.
  - rewrite map_keys_set in Hx by done. apply elem_of_app in Hx as [?| ->%list_elem_of_singleton]; [by left|right].
    erewrite flies_thread by reflexivity. rewrite ids_cons. cbn. set_solver.
  - left. by eapply map_delete_keys_sub.
  - set_solver.
  - left. by eapply map_delete_keys_sub.
Qed.

(** A replaced worker takes what flew with it. *)
Lemma respawn_grounds named c c' x :
  moves (Respawns named) c c' → core_ok c → x ∈ map_keys (cr_pending c) → ¬ flies c' x.
Proof.
  intros Hm Hc Hx. destruct (new_id c Hc) as (_ & Hn & _). inversion Hm as [| |? op bind ? Hb| | | | | | |]; subst.
  erewrite flies_thread by reflexivity. rewrite ids_cons. cbn. rewrite app_nil_r.
  intros [[->|Hb']%elem_of_cons|[? ?]]; [done| |set_solver]. apply ids_in in Hb' as (cmd & Hin & <-).
  eapply Forall_forall in Hb as [Hz _]; [|done]. apply (ok_pending c Hc), ids_in in Hx as (cmd' & Hin' & Hid). apply (ok_issued c Hc) in Hin'. lia.
Qed.

Lemma moves_fly f c c' : moves f c c' → fly_ok c → fly_ok c'.
Proof.
  intros Hm [Hc Hsane Hp Hl]. destruct (issued_kept f c c' Hm) as [Hi Hlost]. split.
  - by eapply moves_ok.
  - by eapply sane_kept.
  - intros x Hx. destruct (pending_new f c c' x Hm Hc Hx) as [Hold|?]; [|by left].
    destruct (Hp x Hold) as [Hf|?]; [by eapply flies_on|right; by apply Hlost].
  - intros x Hx. destruct (lost_kept f c c' x Hm Hx) as [Hold|[[named ->] Hpend]].
    + destruct (Hl x Hold) as [Hn ?]. split; [|by apply Hi]. intros Hf. apply Hn. by eapply flies_back.
    + split; [by eapply respawn_grounds|]. by apply Hi, (ok_pending c Hc).
Qed.

Lemma path_fly P c c' : path P c c' → fly_ok c → fly_ok c'.
Proof. apply path_keeps. intros f c1 c2 _. apply moves_fly. Qed.

(** A worker that is told its databases gets ready. *)
Definition told (f : Fate) : Prop := f ≠ Respawns false.

Lemma moves_bound f c c' : moves f c c' → told f → fly_ok c → bound c → bound c'.
Proof.
  intros Hm Hf Hc Hb th' Hth.
  destruct Hm as [c|c th op wait Hw|c op bind named Hbind Hnb|c id Hid|c worker Hw|c th cmd ins' Hw Hin|c th i cmd rt posts r Hw Hi' Hr Hps Hs
                 |c th evs Hw He|c th ev out Hw Ho Hev|c th id r out wait Hw Ho Hid]; cbn in Hth; try (by apply Hb).
  - injection Hth as <-. destruct (Hb th Hw) as [?|(cmd & Hin & ?)]; [by left|right; exists cmd]. split; [|done].
    unfold flight in *. rewrite Hw in Hin. cbn. set_solver.
  - injection Hth as <-. right. destruct named; [|done]. destruct bind as [|cmd bind]; [by destruct (Hnb eq_refl)|].
    exists cmd. apply Forall_cons in Hbind as [[_ ?] _]. split; [unfold flight; cbn; set_solver|done].
  - unfold bound, flight in *. destruct Hw as [->|[->|(th & ev & out & Hw & _ & ->)]]; [by apply Hb|done|]. injection Hth as <-. cbn.
    specialize (Hb th Hw). by rewrite Hw in Hb.
  - injection Hth as <-. destruct (Hb th Hw) as [?|(b & Hb' & ?)]; [by left|right; exists b]. split; [|done].
    unfold flight in *. rewrite Hw, Hin in Hb'. cbn. set_solver.
  - injection Hth as <-. left. cbn. apply Hs. by eapply fl_sane.
  - injection Hth as <-. unfold bound, flight in *. specialize (Hb th Hw). by rewrite Hw in Hb.
  - injection Hth as <-. unfold bound, flight in *. specialize (Hb th Hw). by rewrite Hw in Hb.
  - injection Hth as <-. unfold bound, flight in *. specialize (Hb th Hw). by rewrite Hw in Hb.
Qed.

Lemma path_bound P c c' : (∀ f, P f → told f) → path P c c' → fly_ok c → bound c → bound c'.
Proof.
  intros HP. induction 1 as [|c1 f c2 c3 Hf Hm _ IH]; [done|]. intros Hc Hb. apply IH; [by eapply moves_fly|].
  eapply moves_bound; eauto.
Qed.

(** ** The loops come to an end *)

(** Calls whose reply makes the main thread ask once more. *)
Definition asks_more (w : Wait) : bool := match w with WSeed | WWipe _ => true | _ => false end.
Definition askers (pending : list (Z * Wait)) : nat := length (filter (λ p, asks_more p.2 = true) pending).

Lemma askers_set id w pending : asks_more w = false → (askers (map_set id w pending) <= askers pending)%nat.
Proof.
  intros Hw. unfold askers. induction pending as [|[k v] m IH]; cbn [map_set].
  - rewrite filter_cons, decide_False by (cbn; congruence). cbn. lia.
  - case_decide; rewrite !filter_cons; cbn [snd]; [rewrite (decide_False (P := asks_more w = true)) by congruence|];
      repeat case_decide; cbn; lia.
Qed.

Lemma askers_delete id w pending :
  map_get id pending = Some w → (askers (map_delete id pending) + (if asks_more w then 1 else 0) <= askers pending)%nat.
Proof.
  unfold askers. induction pending as [|[k v] m IH]; cbn [map_get map_delete]; [done|]. case_decide as Hk.
  - intros [= ->]. rewrite filter_cons. cbn [snd]. destruct (asks_more w); [rewrite decide_True by done|rewrite decide_False by done]; cbn; lia.
  - intros H%IH. rewrite !filter_cons. cbn [snd]. case_decide; cbn; lia.
Qed.

Section loops.
Context {C : CryptoPrims} {W : Type} {WA MA : ClientApp W} {WT MT : Transports W} {MW : MainWorld W} {WW : WorkerWorld W}.
Context (delayMs maxPushBytes maxPullBytes : Z) (opens : jsstr → jsstr → bool) (nonce : bytes) (nonces : nat → bytes).
Implicit Types (s : Sys W).

Abbreviation step := (sys_step (MA := MA) (WA := WA) (MT := MT) (WT := WT) delayMs maxPushBytes maxPullBytes opens nonce nonces).

(** The turns that move messages, where there is one to move. *)
Definition busy (t : Step (W := W)) s : Prop :=
  match t, sy_worker s with
  | SReceive, Some th => th_in th ≠ []
  | SRun i, Some th => ∃ cmd, th_running th !! i = Some cmd ∧ runnable (th_runtime th) cmd = true
  | SDeliver, Some th => th_out th ≠ []
  | _, _ => False
  end.

Inductive loop_step : Sys W → Sys W → Prop := loop_step_intro t s : busy t s → loop_step s (step t s).

Definition waits s : nat := askers (mn_pending (sy_main s)).

Lemma request_waits op wait s : asks_more wait = false → (waits (request op wait s).1 <= waits s)%nat.
Proof. intros H. unfold request, waits. destruct (sy_worker s); cbn; [by apply askers_set|done]. Qed.

Lemma work_waits s : (waits (work s) <= waits s)%nat.
Proof.
  unfold work. pose proof (request_waits OpSync WPass s eq_refl) as H. destruct (request OpSync WPass s) as [s' r].
  destruct r; done.
Qed.

Lemma debounce_waits e s : (waits (debounce delayMs e s) <= waits s)%nat.
Proof. unfold debounce. cbv zeta. case_match; [|done]. etransitivity; [apply work_waits|done]. Qed.

Lemma local_waits {A} (c : CM (W := W) A) s : (waits (local delayMs c s).1 <= waits s)%nat.
Proof.
  unfold local. destruct (on_client _ _ _ _) as [[[r fl] st] w], (mw_scheduled w) as [b w']. cbn [fst].
  destruct b; [|done]. etransitivity; [apply debounce_waits|done].
Qed.

Lemma continue_waits wait r s : (waits (continue (AC := MA) (TR := MT) delayMs wait r s) <= waits s)%nat.
Proof.
  destruct r as [v|st]; [|done].
  destruct v, wait; cbn [continue]; first [done|by apply request_waits|unfold wipe_local; apply (local_waits (wipe_client _))].
Qed.

(** A reply that makes the main thread ask once more ends an asker. *)
Lemma continue_asks wait r s :
  asks_more wait = false → sy_worker (continue (AC := MA) (TR := MT) delayMs wait r s) = sy_worker s.
Proof. destruct r as [v|st]; [|done]. by destruct v, wait. Qed.

Definition load s : nat := match sy_worker s with Some th => 2 * length (th_in th) + length (th_running th) | None => 0 end.
Definition inbox s : nat := match sy_worker s with Some th => length (th_out th) | None => 0 end.

Lemma turn_less s s' :
  loop_step s s' →
  (waits s' < waits s ∨ waits s' = waits s ∧ (load s' < load s ∨ load s' = load s ∧ inbox s' < inbox s))%nat.
Proof.
  intros [t s0 Hb]. unfold busy in Hb.
  destruct t; try done; destruct (sy_worker s0) as [[ins rt running out]|] eqn:E; try done; cbn in Hb; cbn [sys_step].
  - unfold deliver. rewrite E. destruct out as [|ev out]; [done|]. set (s1 := upd_thread _ s0).
    assert (Hs1 : (waits s1 = waits s0 ∧ load s1 = load s0 ∧ inbox s1 < inbox s0)%nat) by (unfold load, inbox; rewrite E; cbn; split_and!; [done|done|lia]).
    destruct Hs1 as (Hs1 & Hl1 & Hi1).
    destruct ev as [| |b|x|es| |id r]; cbn [onMessage]; try (right; split; [exact Hs1|right; split; [exact Hl1|exact Hi1]]).
    + destruct (askers (mn_pending (sy_main s0))) as [|n] eqn:En; unfold waits; cbn; rewrite En; [right|left; lia].
      split; [done|right; split; [exact Hl1|exact Hi1]].
    + destruct (map_get id _) as [wait|] eqn:Ep; [|right; split; [exact Hs1|right; split; [exact Hl1|exact Hi1]]].
      set (s2 := upd_main (settle id (Replied r) (sy_main s1)) s1).
      pose proof (askers_delete id wait _ Ep) as Hd. pose proof (continue_waits wait r s2) as Hc.
      assert (Hw2 : (waits s2 + (if asks_more wait then 1 else 0) <= waits s1)%nat) by exact Hd.
      destruct (asks_more wait) eqn:Ea; [left; lia|]. pose proof (continue_asks wait r s2 Ea) as Hth.
      unfold load, inbox in *. rewrite Hth. change (sy_worker s2) with (sy_worker s1). lia.
  - unfold receive. rewrite E. destruct ins as [|cmd ins]; [done|]. right. split; [done|]. left. unfold load. rewrite E. cbn.
    rewrite length_app. cbn. lia.
  - destruct Hb as (cmd & Hi & Hr). unfold run_one. rewrite E. cbn [th_running th_runtime th_in th_out]. rewrite Hi, Hr.
    destruct (run_cmd _ _ _ _ _ _ _ _ _) as [[[[r rt'] st] w] posts]. right. split; [done|]. left. unfold load. rewrite E. cbn.
    pose proof (delete_Permutation _ _ _ Hi) as Hp. apply Permutation_length in Hp. cbn in Hp. unfold delete in Hp. lia.
Qed.

(** No run of these turns goes on for ever. *)
Lemma loops_end s : sn loop_step s.
Proof.
  remember (waits s) as a eqn:Ea. revert s Ea. induction a as [a IHa] using lt_wf_ind. intros s Ea.
  remember (load s) as b eqn:Eb. revert s Ea Eb. induction b as [b IHb] using lt_wf_ind. intros s Ea Eb.
  remember (inbox s) as c eqn:Ec. revert s Ea Eb Ec. induction c as [c IHc] using lt_wf_ind. intros s Ea Eb Ec.
  constructor. intros s' Ht. cbn in Ht. destruct (turn_less s s' Ht) as [H|[H1 [H|[H2 H]]]]; [by eapply IHa; subst|by eapply IHb; subst|by eapply IHc; subst].
Qed.

(** At rest nothing is on its way. *)
Lemma rest_grounds s id : bound (core s) → (∀ t, ¬ busy t s) → flies (core s) id → False.
Proof.
  intros Hb Hr Hf. unfold flies, flight, answers in Hf. cbn in Hf.
  destruct (sy_worker s) as [[ins rt running out]|] eqn:E; [|destruct Hf as [H|[r H]]; set_solver].
  assert (ins = []) as ->. { destruct ins; [done|]. exfalso. apply (Hr SReceive). cbn. by rewrite E. }
  assert (out = []) as ->. { destruct out; [done|]. exfalso. apply (Hr SDeliver). cbn. by rewrite E. }
  cbn in Hf. destruct Hf as [Hf|[r H]]; [|set_solver]. apply ids_in in Hf as (cmd & Hin & _).
  assert (Hrun : ∀ x, x ∈ running → runnable rt x = true → False).
  { intros x Hx Hxr. apply list_elem_of_lookup in Hx as [i Hi]. apply (Hr (SRun i)). cbn. rewrite E. by exists x. }
  destruct (Hb _ E) as [Hready|(b & Hbin & Hbind)].
  - apply (Hrun cmd Hin). unfold runnable. cbn in Hready. destruct (rt_ready rt); [done|by rewrite orb_true_r..].
  - unfold flight in Hbin. cbn in Hbin. rewrite E in Hbin. cbn in Hbin. apply (Hrun b Hbin). unfold runnable. by rewrite Hbind.
Qed.
End loops.
