(* ===== verification/WorkerProps.v ===== *)
(** * Properties of the sync worker and the client in front of it

    Every call gets the reply to its own command, once; every call that waits
    is answered, but for those whose worker was replaced, which wait for ever
    and stop the debounced sync with them. *)
From S2P Require Import WorkerFacts FacadeProps LocalApp.
From S2P Require Import Js.
From S2P Require Coalesce.

Lemma ran_once c cmd r cmd' r' :
  core_ok c → cmd_id cmd ≠ 0 → (cmd, r) ∈ cr_ran c → (cmd', r') ∈ cr_ran c → cmd_id cmd' = cmd_id cmd → cmd' = cmd ∧ r' = r.
Proof.
  intros H Hz H1 H2 Hid. pose proof (ok_once c H) as Hn. unfold sent in Hn. rewrite ids_app, filter_app in Hn.
  apply NoDup_app in Hn as [Hn _]. apply list_elem_of_split in H1 as (l1 & l2 & Hl). rewrite Hl in Hn, H2.
  rewrite fmap_app, ids_app, fmap_cons, ids_cons, filter_app, filter_cons in Hn. cbn [fst] in Hn. rewrite decide_True in Hn by done.
  rewrite <-Permutation_middle in Hn. apply NoDup_cons in Hn as [Hni _].
  apply elem_of_app in H2 as [H2|[[= -> ->]|H2]%elem_of_cons]; [|done|]; exfalso; apply Hni, elem_of_app; [left|right];
    (apply list_elem_of_filter; split; [done|]; apply ids_in; exists cmd'; split; [|done]; apply list_elem_of_fmap; by exists (cmd', r')).
Qed.

Section props.
Context {C : CryptoPrims} {W : Type} {WA MA : ClientApp W} {WT MT : Transports W} {MW : MainWorld W} {WW : WorkerWorld W}.
Context (delayMs maxPushBytes maxPullBytes : Z) (opens : jsstr → jsstr → bool) (nonce : bytes) (nonces : nat → bytes).
Implicit Types (s : Sys W).

Abbreviation step := (sys_step (MA := MA) (WA := WA) (MT := MT) (WT := WT) delayMs maxPushBytes maxPullBytes opens nonce nonces).
Abbreviation run := (sys_run (MA := MA) (WA := WA) (MT := MT) (WT := WT) delayMs maxPushBytes maxPullBytes opens nonce nonces).
Abbreviation loop_step := (loop_step (MA := MA) (WA := WA) (MT := MT) (WT := WT) delayMs maxPushBytes maxPullBytes opens nonce nonces).

Lemma open_fly st (w : W) : fly_ok (core (openSys st w)).
Proof.
  split; [split| | |]; cbn; try done; try (by intros; set_solver).
  all: try apply map_wf_nil. all: try apply NoDup_nil_2.
Qed.

Lemma step_fly t s : fly_ok (core s) → fly_ok (core (step t s)).
Proof. eapply path_fly, sys_step_path. Qed.

Lemma run_fly ts s : fly_ok (core s) → fly_ok (core (run ts s)).
Proof. revert s. induction ts as [|t ts IH]; intros s H; [done|]. by apply IH, step_fly. Qed.

(** [C9] Each call gets its own reply: whatever the application calls, in
    whatever order the worker's commands run, and however calls fail or time
    out or workers are replaced, a call settles at most once and no longer
    waits, and a call that was answered got the reply which a worker made to
    the very command it sent; that command ran only once. *)
Theorem replies_match_requests st w ts :
  let s := run ts (openSys st w) in
  let m := sy_main s in
  NoDup (mn_settled m).*1 ∧
  (∀ id, id ∈ (mn_settled m).*1 → map_get id (mn_pending m) = None) ∧
  ∀ id r, (id, Replied r) ∈ mn_settled m →
    ∃ op, mkCmd id op ∈ sy_issued s ∧ (mkCmd id op, r) ∈ sy_ran s ∧
      ∀ cmd r', (cmd, r') ∈ sy_ran s → cmd_id cmd = id → cmd = mkCmd id op ∧ r' = r.
Proof.
  intros s m. assert (H : core_ok (core s)) by apply (run_fly ts), open_fly. split; [apply (ok_settled _ H)|]. split.
  - intros id Hin. apply map_get_None. by apply (ok_over _ H).
  - intros id r Hin. destruct (ok_got _ H id r Hin) as ([id' op] & Hi & Hid & Hr). cbn in Hid. subst id'. exists op.
    split; [done|]. split; [done|]. intros cmd r' Hr' Hid.
    eapply (ran_once (core s)); [done| |exact Hr|exact Hr'|exact Hid]. apply (ok_issued _ H) in Hi. cbn in *. lia.
Qed.

(** Each new worker is told its databases. *)
Definition tells (t : Step (W := W)) : Prop :=
  match t with SApi (ASetSeed _ _ _ _ bound _) => bound ≠ None | _ => True end.

Lemma step_bound t s : tells t → fly_ok (core s) → bound (core s) → bound (core (step t s)).
Proof.
  intros Ht. eapply path_bound; [|apply sys_step_path]. intros f Hf. unfold told. intros ->.
  destruct Hf as (a & -> & Ha). destruct a as [n e label persist bd spawns| | | | | | | | | | | | |]; cbn in Ha; try done. destruct Ha as [?|[= Hb]]; [done|]. cbn in Ht. by destruct bd.
Qed.

Lemma run_bound ts s : Forall tells ts → fly_ok (core s) → bound (core s) → bound (core (run ts s)).
Proof.
  intros Ht. revert s. induction Ht as [|t ts Ht _ IH]; intros s Hf Hb; [done|]. apply IH; [by apply step_fly|by apply step_bound].
Qed.

Lemma turns_run s s' : rtc loop_step s s' → ∃ ts, Forall tells ts ∧ s' = run ts s.
Proof.
  induction 1 as [s|s1 s2 s3 [t s Hb] _ (ts & Ht & ->)]; [by exists []|]. exists (t :: ts). split; [|done].
  constructor; [|done]. by destruct t.
Qed.

(** [C10] Every waiting call ends: from any state the turns of the event loops
    (a message is taken, a command runs, an event is delivered) cannot go on
    for ever, and once none is left no call waits but those whose worker was
    replaced.  Each worker must have been told its databases, as it is when the
    store is in the browser. *)
Theorem waiting_calls_end st w ts :
  Forall tells ts →
  let s := run ts (openSys st w) in
  sn loop_step s ∧
  ∀ s', rtc loop_step s s' → (∀ t, ¬ busy t s') →
    ∀ id, map_get id (mn_pending (sy_main s')) ≠ None → id ∈ sy_lost s'.
Proof.
  intros Ht s. split; [apply loops_end|]. intros s' Hr Hrest id Hid.
  destruct (turns_run _ _ Hr) as (ts' & Ht' & Hs').
  assert (Hf : fly_ok (core s')) by (rewrite Hs'; apply run_fly, run_fly, open_fly).
  assert (Hb : bound (core s')) by (rewrite Hs'; apply run_bound; [done|apply run_fly, open_fly|apply run_bound; [done|apply open_fly|done]]).
  destruct (fl_pending _ Hf id) as [Hfl|?]; [|exfalso; by eapply rest_grounds|done].
  destruct (decide (id ∈ map_keys (mn_pending (sy_main s')))) as [?|Hn]; [done|]. by apply map_get_None in Hn.
Qed.

Definition busyb (t : Step (W := W)) s : bool :=
  match t, sy_worker s with
  | SReceive, Some (mkThread (_ :: _) _ _ _) => true
  | SRun i, Some th => match th_running th !! i with Some cmd => runnable (th_runtime th) cmd | None => false end
  | SDeliver, Some (mkThread _ _ _ (_ :: _)) => true
  | _, _ => false
  end.

Fixpoint all_busy (ts : list (Step (W := W))) s : bool :=
  match ts with [] => true | t :: ts => busyb t s && all_busy ts (step t s) end.

Lemma busy_turns ts s : all_busy ts s = true → rtc loop_step s (run ts s).
Proof.
  revert s. induction ts as [|t ts IH]; intros s; [done|]. cbn [all_busy]. intros [Hb Hr]%andb_prop.
  eapply rtc_l; [apply (loop_step_intro _ _ _ _ _ _ t)|by apply IH]. unfold busyb in Hb. unfold busy.
  destruct t; try done; destruct (sy_worker s) as [[ins rt running out]|]; try done; [by destruct out|by destruct ins|].
  destruct (_ !! _) as [cmd|]; [by exists cmd|done].
Qed.

(** ** Calls whose worker was replaced *)

(** Nothing gives the call up: no end of all waiting calls, and not its own time
    limit, which [setSeed]'s has. *)
Fixpoint spared (id : Z) (wait : Wait) (ts : list (Step (W := W))) s : bool :=
  match ts with
  | [] => true
  | t :: ts =>
      negb (fails_all t s) && match t, wait with STimeout id', WSeed => negb (id' =? id) | _, _ => true end && spared id wait ts (step t s)
  end.

Lemma moves_strand f c c' id wait :
  moves f c c' → fly_ok c → id ∈ cr_lost c → map_get id (cr_pending c) = Some wait → f ≠ FailsAll → f ≠ TimesOut id →
  map_get id (cr_pending c') = Some wait.
Proof.
  intros Hm Hc Hl Hw Hf Ht. destruct (new_id c (fl_ok c Hc)) as (Hi & Hn & _). destruct (fl_lost c Hc id Hl) as [Hnf Hid].
  assert (Hne : id ≠ cr_next c) by (intros ->; done).
  destruct Hm as [| | |c id' Hid'| | | | | |c th id' r out wait' Hw' Ho Hid']; cbn; try done;
    rewrite ?map_get_set_ne by done; rewrite ?map_get_delete, ?decide_False; try done; try apply Hc.
  - intros ->. done.
  - intros ->. apply Hnf. right. exists r. unfold answers. rewrite Hw', Ho. left.
Qed.

Lemma step_strand t s id wait :
  fly_ok (core s) → id ∈ sy_lost s → map_get id (mn_pending (sy_main s)) = Some wait → fails_all t s = false → t ≠ STimeout id →
  id ∈ sy_lost (step t s) ∧ map_get id (mn_pending (sy_main (step t s))) = Some wait.
Proof.
  intros Hf Hl Hw Hn Ht.
  destruct (path_keeps (fate_of t s) (λ c, fly_ok c ∧ id ∈ cr_lost c ∧ map_get id (cr_pending c) = Some wait)) with (c := core s) (c' := core (step t s))
    as (_ & H1 & H2); try done; [|apply sys_step_path].
  intros f c c' Hfate Hm (Hc & Hl' & Hw'). destruct (issued_kept _ _ _ Hm) as [_ Hsub]. split_and!; [by eapply moves_fly|by apply Hsub|].
  eapply moves_strand; [done..| |]; intros ->; cbn in Hfate; congruence.
Qed.

(** *** The debounced sync of a stranded pass *)

(** Its pass waits for the call; [n] passes began, and the rebuilds [fl] wait. *)
Definition stuck (id : Z) (p n : nat) (fl : list WorkerOp) s : Prop :=
  let m := sy_main s in
  mn_pass m = Some (Some id) ∧ Coalesce.passes (Coalesce.dtail (mn_sync m)) = n ∧
  Coalesce.inflight (Coalesce.dtail (mn_sync m)) = Some p ∧ ∃ more, mn_flush m = fl ++ more.

Lemma inflight_keeps d e p :
  Coalesce.inflight (Coalesce.dtail d) = Some p → (∀ ok, e ≠ Coalesce.PassSettles ok) →
  Coalesce.inflight (Coalesce.dtail (Coalesce.deb_step delayMs d e)) = Some p ∧
  Coalesce.passes (Coalesce.dtail (Coalesce.deb_step delayMs d e)) = Coalesce.passes (Coalesce.dtail d).
Proof.
  intros Hp He. destruct e as [| | | |ok]; [..|by destruct (He ok eq_refl)]; cbn; try done;
    unfold Coalesce.schedule, Coalesce.elapse, Coalesce.deb_flush, Coalesce.fire, Coalesce.tail_run; rewrite ?Hp; repeat case_match; cbn; cbn in *; simplify_eq; split; congruence.
Qed.

Lemma debounce_stuck id p n fl e s :
  (∀ ok, e ≠ Coalesce.PassSettles ok) → stuck id p n fl s → stuck id p n fl (debounce delayMs e s).
Proof.
  intros He (H1 & H2 & H3 & H4). destruct (inflight_keeps _ e p H3 He) as [Hi Hps]. unfold debounce. cbv zeta. rewrite Hps.
  rewrite (proj2 (Nat.ltb_ge _ _)) by lia. unfold stuck. cbn. by rewrite Hps.
Qed.

Lemma request_stuck id p n fl op wait s : stuck id p n fl s → stuck id p n fl (request op wait s).1.
Proof. unfold request, stuck. by destruct (sy_worker s). Qed.

Lemma caught_stuck id p n fl op s : stuck id p n fl s → stuck id p n fl (request_caught op s).1.
Proof.
  intros H. apply (request_stuck id p n fl op WCall) in H. unfold request_caught. by destruct (request op WCall s) as [s' []].
Qed.

Lemma local_stuck {A} id p n fl (c : CM (W := W) A) s : stuck id p n fl s → stuck id p n fl (local delayMs c s).1.
Proof.
  intros H. unfold local. destruct (on_client _ _ _ _) as [[[r f] st] w], (mw_scheduled w) as [b w']. cbn [fst].
  destruct b; [|done]. by apply debounce_stuck.
Qed.

Lemma continue_stuck id p n fl wait r s : stuck id p n fl s → stuck id p n fl (continue (AC := MA) (TR := MT) delayMs wait r s).
Proof.
  intros H. destruct r as [v|st]; [|done].
  destruct v, wait; cbn [continue]; first [done|by apply request_stuck|unfold wipe_local; by apply (local_stuck id p n fl (wipe_client _))].
Qed.

Lemma setSeed_stuck id p n fl nc e label persist bd spawns s :
  stuck id p n fl s → stuck id p n fl (worker_setSeed delayMs nc e label persist bd spawns s).1.
Proof.
  intros H. unfold worker_setSeed. apply (local_stuck id p n fl (setSeed nc e label)) in H. destruct (local _ _ _) as [s1 r]. cbn in H.
  destruct r; [|done..]. destruct bd as [[b| |]|]; try done; by destruct spawns.
Qed.

Lemma api_stuck id p n fl a s : stuck id p n fl s → stuck id p n fl (api (AC := MA) (TR := MT) delayMs a s).1.
Proof.
  intros H. destruct a; cbn [api]; try (by apply request_stuck); try (by apply caught_stuck);
    try (unfold if_worker; destruct (sy_worker s); [by apply request_stuck|done]).
  - by apply setSeed_stuck.
  - unfold link_host. apply (local_stuck id p n fl (link host false)) in H. destruct (local _ _ _) as [s1 r]. cbn in H.
    destruct r; try done; by apply (request_stuck id p n fl _ _ (loadSession _ s1)).
  - unfold unlink_host. apply (local_stuck id p n fl (unlink label)) in H. destruct (local _ _ _) as [s1 r]. cbn in H.
    destruct r; try done; unfold if_worker; destruct (sy_worker _); try done; by apply (request_stuck id p n fl _ _ (loadSession _ s1)).
  - destruct (sy_worker s); [by apply caught_stuck|done].
  - cbn. assert (H' : stuck id p n fl (debounce delayMs Coalesce.Flush (debounce delayMs Coalesce.Cancel s))) by (by repeat apply debounce_stuck).
    destruct H' as (H1 & H2 & H3 & more & H4). split; [done|]. split; [done|]. split; [done|]. exists (more ++ [OpRebuild checkHost]).
    cbn. by rewrite H4, (assoc_L app).
  - unfold worker_wipe, wipe_local. pose proof (local_stuck id p n fl (wipe_client (wipeOpts flags)) s H) as Hl.
    destruct (sy_worker s); [case_bool_decide|]; [by apply request_stuck..|exact Hl].
Qed.

Lemma step_stuck id p n fl t s :
  id ∉ (mn_settled (sy_main s)).*1 → stuck id p n fl s → stuck id p n fl (step t s).
Proof.
  intros Hs H. pose proof H as (H1 & H2 & H3 & H4). destruct t; cbn [sys_step]; try done.
  - by apply api_stuck.
  - by apply local_stuck.
  - by apply debounce_stuck.
  - unfold pass_ends. rewrite H1. destruct (existsb _ _) eqn:E; [|done]. exfalso. apply existsb_exists in E as ([id' o] & Hin & He).
    cbn in He. apply Z.eqb_eq in He as ->. apply Hs, list_elem_of_fmap. exists (id, o). split; [done|by apply list_elem_of_In].
  - unfold flushed. by rewrite H3.
  - unfold timeout. by destruct (map_get _ _) as [[]|].
  - unfold worker_error. by destruct (sy_worker s).
  - by apply debounce_stuck.
  - unfold deliver. destruct (sy_worker s) as [[ins rt running [|ev out]]|]; try done. destruct ev; try done.
    cbn [onMessage]. destruct (map_get _ _); [|done]. by apply continue_stuck.
  - unfold receive. by destruct (sy_worker s) as [[[] ? ? ?]|].
  - unfold run_one. destruct (sy_worker s); [|done]. destruct (_ !! _); [|done]. destruct (runnable _ _); [|done].
    by destruct (run_cmd _ _ _ _ _ _ _ _ _) as [[[[? ?] ?] ?] ?].
  - unfold emit_states. destruct (sy_worker s); [|done]. destruct (rt_client _); [|done].
    by destruct (on_client getClientState _ _ _) as [[[? ?] ?] ?], (on_client xferState _ _ _) as [[[? ?] ?] ?].
Qed.

(** A call without a time limit is not given up by a timer. *)
Lemma no_limit id wait s : map_get id (mn_pending (sy_main s)) = Some wait → wait ≠ WSeed → step (STimeout id) s = s.
Proof. intros Hw Hne. cbn [step]. unfold timeout. rewrite Hw. by destruct wait. Qed.

(** [C38] Where calls hang: [setSeed] replaces the worker without failing the
    calls that wait on the old one, and such a call is never answered: through
    whatever follows it waits, until the application terminates the client, the
    new worker fails altogether, or its own time limit passes, if the call is a
    [setSeed] (the only one that has a limit).  If it was the sync made after local
    writes, no such sync begins again, and a rebuild asked for later never
    starts. *)
Theorem replaced_worker_strands_calls st w ts0 id wait ts :
  let s := run ts0 (openSys st w) in
  id ∈ sy_lost s → map_get id (mn_pending (sy_main s)) = Some wait → spared id wait ts s = true →
  let s' := run ts s in
  (map_get id (mn_pending (sy_main s')) = Some wait ∧ id ∉ (mn_settled (sy_main s')).*1) ∧
  ∀ p n fl, stuck id p n fl s → stuck id p n fl s'.
Proof.
  intros s Hl Hw Hsp s'. assert (Hf : fly_ok (core s)) by apply run_fly, open_fly. subst s'. clearbody s.
  revert s Hl Hw Hsp Hf. induction ts as [|t ts IH]; intros s Hl Hw Hsp Hf.
  - split; [|done]. split; [done|]. intros Hin. apply (ok_over _ (fl_ok _ Hf)) in Hin as [_ Hn]. apply map_get_None in Hn. cbn in Hn. congruence.
  - cbn [spared] in Hsp. apply andb_prop in Hsp as [[Hn%negb_true_iff Ht']%andb_prop Hsp].
    assert (Hstep : t ≠ STimeout id ∨ step t s = s).
    { destruct t; try (by left). destruct (decide (id0 = id)) as [->|]; [|left; congruence]. destruct wait; try (right; by eapply no_limit).
      by rewrite Z.eqb_refl in Ht'. }
    destruct Hstep as [Ht|Hs]; [|change (run (t :: ts) s) with (run ts (step t s)); rewrite Hs in Hsp |- *; by apply IH].
    destruct (step_strand t s id wait Hf Hl Hw Hn Ht) as [Hl' Hw'].
    destruct (IH (step t s) Hl' Hw' Hsp (step_fly t s Hf)) as [H1 H2]. split; [exact H1|]. intros p n fl Hst. apply H2.
    apply step_stuck; [|done]. intros Hin. apply (ok_over _ (fl_ok _ Hf)) in Hin as [_ Hno]. apply map_get_None in Hno. cbn in Hno. congruence.
Qed.
End props.

(** ** Concrete runs *)

Module WorkerDemo.
Import Toy NoHosts.

(** The local application counts the syncs it schedules. *)
#[export] Instance local_main : MainWorld LocalApp := {|
  mw_refresh _ w := w; mw_clear w := w;
  mw_scheduled w := (Nat.ltb 0 (la_sched w), mkLocal (la_db w) (la_em w) 0);
|}.
#[export] Instance local_worker : WorkerWorld LocalApp := {|
  ww_checksum w := EntDBMemory.checksum (la_db w); ww_progress _ := idleProgress; ww_posted w := ([], w);
|}.

Definition app0 : LocalApp := mkLocal (EntDBMemory.make [] true) [] 0.
Definition seed_in : Step (W := LocalApp) :=
  SApi (ASetSeed (be_bytes 32 8) master None None (Some (Ok (js "data", js "ents"))) true).

(** The worker starts, takes its seed and its databases, and the main thread
    hears of it. *)
Definition started : list (Step (W := LocalApp)) :=
  [seed_in; SReceive; SReceive; SRun 1; SRun 0; SDeliver; SDeliver; SDeliver; SDeliver].

(** A local write schedules a sync; before it is answered the account is
    opened once more. *)
Definition reopened : list (Step (W := LocalApp)) := started ++ [SLocal (on_net app_schedule); seed_in].

Definition later : list (Step (W := LocalApp)) :=
  [SReceive; SReceive; SRun 1; SRun 0; SDeliver; SDeliver; SDeliver; SDeliver; SReceive; SRun 0; SDeliver;
   SLocal (on_net app_schedule); SPass; SApi (ARebuild None); SFlushed].

Abbreviation demo ts s :=
  (sys_run (MA := local_app) (WA := local_app) (MT := no_hosts) (WT := no_hosts) 0 100 100 (λ _ _, true) [] (λ _, []) ts s).
End WorkerDemo.
Import Toy NoHosts WorkerDemo.

Example started_ready :
  let s := demo started (openSys bare app0) in
  mn_settled (sy_main s) = [(1, Replied (inl RNone))] ∧ map_keys (mn_pending (sy_main s)) = [2] ∧ sy_lost s = [].
Proof. vm_compute. done. Qed.

Lemma waiting_calls_end_witness :
  let s := demo started (openSys bare app0) in
  let s' := demo [SReceive; SRun 0; SDeliver] s in
  sy_lost s' = [] ∧ (∀ t, ¬ busy t s') ∧ map_get 2 (mn_pending (sy_main s')) = None.
Proof.
  intros s s'. assert (Hl : sy_lost s' = []) by (vm_compute; reflexivity).
  assert (Hr : ∀ t, ¬ busy t s').
  { intros t. unfold busy. assert (Hw : ∃ rt, sy_worker s' = Some (mkThread [] rt [] [])) by (eexists; vm_compute; reflexivity).
    destruct Hw as [rt Hw]. rewrite Hw. destruct t; cbn; try (intros H; exact H); try (intros H; by apply H). intros (cmd & H & _). done. }
  split; [exact Hl|]. split; [exact Hr|].
  destruct (waiting_calls_end (MA := local_app) (WA := local_app) (MT := no_hosts) (WT := no_hosts) 0 100 100 (λ _ _, true) [] (λ _, [])
    bare app0 started ltac:(by repeat constructor)) as [_ H].
  assert (Hb : all_busy (MA := local_app) (WA := local_app) (MT := no_hosts) (WT := no_hosts) 0 100 100 (λ _ _, true) [] (λ _, [])
    [SReceive; SRun 0; SDeliver] s = true) by (vm_compute; reflexivity).
  specialize (H s' (busy_turns _ _ _ _ _ _ [SReceive; SRun 0; SDeliver] s Hb) Hr 2).
  rewrite Hl in H. destruct (map_get 2 (mn_pending (sy_main s'))) as [wait|]; [|reflexivity].
  exfalso. apply (not_elem_of_nil 2), H. discriminate.
Defined.

Lemma replaced_worker_strands_calls_witness :
  let s := demo reopened (openSys bare app0) in
  let s' := demo later s in
  map_get 3 (mn_pending (sy_main s')) = Some WPass ∧
  mn_pass (sy_main s') = Some (Some 3) ∧ Coalesce.passes (Coalesce.dtail (mn_sync (sy_main s'))) = 1%nat.
Proof.
  intros s s'.
  destruct (replaced_worker_strands_calls (MA := local_app) (WA := local_app) (MT := no_hosts) (WT := no_hosts) 0 100 100 (λ _ _, true) [] (λ _, [])
    bare app0 reopened 3 WPass later) as [[H1 _] H2].
  - apply (bool_decide_unpack _). vm_compute. exact I.
  - vm_compute. reflexivity.
  - vm_compute. reflexivity.
  - split; [exact H1|]. destruct (H2 0%nat 1%nat []) as (H3 & H4 & _); [|by split].
    repeat split; try (vm_compute; reflexivity). exists []. vm_compute. reflexivity.
Defined.
