(* ===== verification/Tables.v ===== *)
(** * Stored values and browser object stores

    What IndexedDB keeps: structured clones of JavaScript values ([jsval]), read
    back as [unknown] and checked field by field, in object stores, given as the
    class [Table] with its laws.  [gmap] is a table. *)
From S2P Require Export Js.

(** ** Untyped values *)

(** A number is integral or [NaN], as elsewhere. *)
Inductive jsval :=
  | VUndef | VNull | VBool (b : bool) | VNum (n : num) | VStr (s : jsstr) | VBytes (bs : bytes)
  | VArr (vs : list jsval) | VObj (fields : jsmap jsstr jsval).

(** [raw.name]: own fields of a plain object; bytes and arrays have none of the
    names the code asks for. *)
Definition field (name : string) (raw : jsval) : jsval :=
  match raw with VObj fields => default VUndef (map_get (js name) fields) | _ => VUndef end.

(** [v !== null && typeof v === "object"] *)
Definition isRec (raw : jsval) : bool :=
  match raw with VBytes _ | VArr _ | VObj _ => true | _ => false end.

Definition as_str (raw : jsval) : option jsstr := match raw with VStr s => Some s | _ => None end.
Definition as_bytes (raw : jsval) : option bytes := match raw with VBytes bs => Some bs | _ => None end.
(** A finite number. *)
Definition as_num (raw : jsval) : option Z := match raw with VNum n => n | _ => None end.
Definition as_arr (raw : jsval) : option (list jsval) := match raw with VArr vs => Some vs | _ => None end.

(** An optional field of a typed object: absent is [undefined]. *)
Definition opt_val {A} (f : A → jsval) (x : option A) : jsval := match x with Some a => f a | None => VUndef end.
(** The same where the code leaves the field out. *)
Definition opt_field {A} (name : string) (f : A → jsval) (x : option A) : jsmap jsstr jsval :=
  match x with Some a => [(js name, f a)] | None => [] end.

Lemma as_str_inv v s : as_str v = Some s → v = VStr s.
Proof. destruct v; cbn; congruence. Qed.
Lemma as_bytes_inv v bs : as_bytes v = Some bs → v = VBytes bs.
Proof. destruct v; cbn; congruence. Qed.

(** ** Object stores *)

Class Table (T K V : Type) := {
  tb_get : K → T → option V;
  tb_put : K → V → T → T;
  tb_delete : K → T → T;
  tb_clear : T → T;
  tb_rows : T → list (K * V);                             (* [getAll], in key order *)
}.

Class TableLaws (T K V : Type) {KD : EqDecision K} {TB : Table T K V} : Prop := {
  tb_get_put k k' (v : V) (t : T) : tb_get k' (tb_put k v t) = if decide (k' = k) then Some v else tb_get k' t;
  tb_get_delete k k' (t : T) : tb_get k' (tb_delete k t) = if decide (k' = k) then None else tb_get (V := V) k' t;
  tb_get_clear k (t : T) : tb_get (V := V) k (tb_clear t) = None;
  tb_rows_once (t : T) : NoDup (tb_rows (K := K) (V := V) t).*1;
  tb_rows_get (t : T) k (v : V) : (k, v) ∈ tb_rows t ↔ tb_get k t = Some v;
}.

Section tables.
Context {T K V : Type} {KD : EqDecision K} {TB : Table T K V} {TL : TableLaws T K V}.
Implicit Types t : T.

Lemma tb_get_put_eq k (v : V) t : tb_get k (tb_put k v t) = Some v.
Proof. rewrite tb_get_put. by rewrite decide_True. Qed.
Lemma tb_get_put_ne k k' (v : V) t : k' ≠ k → tb_get k' (tb_put k v t) = tb_get k' t.
Proof. intros. rewrite tb_get_put. by rewrite decide_False. Qed.

(** Two tables with the same rows list them alike, up to order. *)
Lemma tb_rows_perm t (m : jsmap K V) :
  map_wf m → (∀ k, tb_get k t = map_get k m) → tb_rows t ≡ₚ m.
Proof.
  intros Hm Hg. apply NoDup_Permutation.
  - eapply (NoDup_fmap_1 fst), tb_rows_once.
  - by eapply (NoDup_fmap_1 fst).
  - intros [k v]. rewrite tb_rows_get, Hg. split; [apply map_get_Some_in|by apply map_get_in].
Qed.
End tables.

#[export] Instance gmap_table {K V} `{Countable K} : Table (gmap K V) K V := {|
  tb_get k t := t !! k;
  tb_put k v t := <[k := v]> t;
  tb_delete k t := delete k t;
  tb_clear _ := ∅;
  tb_rows t := map_to_list t;
|}.

#[export] Instance gmap_table_laws {K V} `{Countable K} : TableLaws (gmap K V) K V.
Proof.
  split; cbn.
  - intros k k' v t. case_decide as E; [subst; apply lookup_insert_eq|by apply lookup_insert_ne].
  - intros k k' t. case_decide as E; [subst; apply lookup_delete_eq|by apply lookup_delete_ne].
  - intros. apply lookup_empty.
  - intros. apply NoDup_fst_map_to_list.
  - intros. apply elem_of_map_to_list.
Qed.
