(* ===== verification/Keyring.v ===== *)
(** * The keyring of passkey bindings ([web/src/passkey/prf-store.ts])

    [PrfSeedStore]: the bindings of one account in memory, what binding,
    unlocking, renaming and removing do to them, how a keyring is read back from
    storage, and what it is called in a list.  The store is told how to persist
    a keyring ([KeyringHost]).  Copies ([slice], the clones) guard against
    aliasing; of them only the checks are left in a model of values. *)
From S2P Require Export Enclave Tables Cursor.

Definition KEYRING_MAX : nat := 8.

Record KeyringEntry := mkEntry {
  ke_sealedMaster : bytes; ke_credId : bytes; ke_tag : bytes; ke_userId : option bytes; ke_nick : option jsstr;
  ke_enrolledAt : Z; ke_lastUsedAt : option Z; ke_attachment : option jsstr; ke_transports : option (list jsstr);
  ke_aaguid : option bytes; ke_enrolledOs : option jsstr;
}.
Record Keyring := mkKeyring { kr_salt : bytes; kr_entries : list KeyringEntry }.

(** A public row: an entry without its seal and tag. *)
Record KeyringRow := mkKeyringRow {
  kw_credId : bytes; kw_userId : option bytes; kw_nick : option jsstr; kw_enrolledAt : Z; kw_lastUsedAt : option Z;
  kw_attachment : option jsstr; kw_transports : option (list jsstr); kw_aaguid : option bytes; kw_enrolledOs : option jsstr;
}.

Definition toRow (e : KeyringEntry) : KeyringRow :=
  mkKeyringRow (ke_credId e) (ke_userId e) (ke_nick e) (ke_enrolledAt e) (ke_lastUsedAt e) (ke_attachment e)
    (ke_transports e) (ke_aaguid e) (ke_enrolledOs e).

(** ** Copies *)

Definition cloneEntry (e : KeyringEntry) : Res KeyringEntry :=
  sealedMaster ← asSealedMasterKey (ke_sealedMaster e);
  tag ← asChildKey (ke_tag e);
  Ok (mkEntry sealedMaster (ke_credId e) tag (ke_userId e) (ke_nick e) (ke_enrolledAt e) (ke_lastUsedAt e)
        (ke_attachment e) (ke_transports e) (ke_aaguid e) (ke_enrolledOs e)).

Fixpoint cloneEntries (entries : list KeyringEntry) : Res (list KeyringEntry) :=
  match entries with
  | [] => Ok []
  | e :: entries => c ← cloneEntry e; out ← cloneEntries entries; Ok (c :: out)
  end.

Definition cloneKeyring (r : Keyring) : Res Keyring :=
  entries ← cloneEntries (kr_entries r);
  Ok (mkKeyring (kr_salt r) entries).

(** [findIndex((e) => bytesEqual(e.credId, credId))] *)
Definition find_cred (credId : bytes) (entries : list KeyringEntry) : option (nat * KeyringEntry) :=
  list_find (λ e, bytesEqual (ke_credId e) credId = true) entries.

Definition with_nick (nick : option jsstr) (e : KeyringEntry) : KeyringEntry :=
  mkEntry (ke_sealedMaster e) (ke_credId e) (ke_tag e) (ke_userId e) nick (ke_enrolledAt e) (ke_lastUsedAt e)
    (ke_attachment e) (ke_transports e) (ke_aaguid e) (ke_enrolledOs e).
Definition with_lastUsedAt (now : Z) (e : KeyringEntry) : KeyringEntry :=
  mkEntry (ke_sealedMaster e) (ke_credId e) (ke_tag e) (ke_userId e) (ke_nick e) (ke_enrolledAt e) (Some now)
    (ke_attachment e) (ke_transports e) (ke_aaguid e) (ke_enrolledOs e).
(** [{ ...next, enrolledAt: prev.enrolledAt, nick: next.nick ?? prev.nick }] *)
Definition replacing (prev next : KeyringEntry) : KeyringEntry :=
  mkEntry (ke_sealedMaster next) (ke_credId next) (ke_tag next) (ke_userId next)
    (match ke_nick next with Some n => Some n | None => ke_nick prev end) (ke_enrolledAt prev) (ke_lastUsedAt next)
    (ke_attachment next) (ke_transports next) (ke_aaguid next) (ke_enrolledOs next).

Definition upsertEntry (ring : Keyring) (next : KeyringEntry) : Res Keyring :=
  entries ← cloneEntries (kr_entries ring);
  Ok (mkKeyring (kr_salt ring)
        match find_cred (ke_credId next) entries with
        | Some (i, prev) => <[i := replacing prev next]> entries
        | None => entries ++ [next]
        end).

Definition touchKeyring (now : Z) (ring : Keyring) (credId : bytes) : Res (option Keyring) :=
  if blen credId =? 0 then Ok None
  else
    match find_cred credId (kr_entries ring) with
    | None => Ok None
    | Some (i, _) =>
        entries ← cloneEntries (kr_entries ring);
        match entries !! i with
        | None => Err NotFound
        | Some cur => Ok (Some (mkKeyring (kr_salt ring) (<[i := with_lastUsedAt now cur]> entries)))
        end
    end.

Definition keyringCredIds (ring : option Keyring) : list bytes :=
  match ring with
  | None => []
  | Some ring => ke_credId <$> filter (λ e, (0 <? blen (ke_credId e)) = true) (kr_entries ring)
  end.

Definition trimNick (n : option jsstr) : option jsstr :=
  match n with
  | None => None
  | Some n => match js_trim n with [] => None | t => Some t end
  end.

(** ** Read back from storage *)

Definition one_of (names : list string) (raw : jsval) : option jsstr :=
  match raw with VStr s => if bool_decide (s ∈ js <$> names) then Some s else None | _ => None end.

Definition attachments : list string := ["platform"; "cross-platform"]%string.
Definition systems : list string := ["ios"; "macos"; "android"; "windows"; "linux"; "other"]%string.

(** A result that is checked for success only. *)
Definition res_opt {A} (r : Res A) : option A := match r with Ok a => Some a | _ => None end.

Definition decodeEntry (raw : jsval) : option KeyringEntry :=
  if negb (isRec raw && bool_decide (as_str (field "type" raw) = Some (js "prf"))) then None
  else
    sealed ← as_bytes (field "sealedMaster" raw);
    credId ← as_bytes (field "credId" raw);
    tagRaw ← as_bytes (field "tag" raw);
    enrolledAt ← as_num (field "enrolledAt" raw);
    sealedMaster ← res_opt (asSealedMasterKey sealed);
    tag ← res_opt (asChildKey tagRaw);
    let transports := option_map (omap (M := list) as_str) (as_arr (field "transports" raw)) in
    Some (mkEntry sealedMaster credId tag (as_bytes (field "userId" raw)) (as_str (field "nick" raw)) enrolledAt
            (as_num (field "lastUsedAt" raw)) (one_of attachments (field "attachment" raw))
            (match transports with Some [] => None | t => t end)
            (as_bytes (field "aaguid" raw)) (one_of systems (field "enrolledOs" raw))).

Definition decodeKeyring (raw : jsval) : option Keyring :=
  if negb (isRec raw) then None
  else
    salt ← as_bytes (field "salt" raw);
    rows ← as_arr (field "entries" raw);
    match omap (M := list) decodeEntry rows with
    | [] => None
    | entries => Some (mkKeyring salt entries)
    end.

(** What storing a keyring keeps of it. *)
Definition val_entry (e : KeyringEntry) : jsval :=
  VObj [(js "type", VStr (js "prf")); (js "sealedMaster", VBytes (ke_sealedMaster e)); (js "credId", VBytes (ke_credId e));
        (js "tag", VBytes (ke_tag e)); (js "userId", opt_val VBytes (ke_userId e)); (js "nick", opt_val VStr (ke_nick e));
        (js "enrolledAt", VNum (Some (ke_enrolledAt e))); (js "lastUsedAt", opt_val (λ z, VNum (Some z)) (ke_lastUsedAt e));
        (js "attachment", opt_val VStr (ke_attachment e));
        (js "transports", opt_val (λ ts, VArr (VStr <$> ts)) (ke_transports e));
        (js "aaguid", opt_val VBytes (ke_aaguid e)); (js "enrolledOs", opt_val VStr (ke_enrolledOs e))].
Definition val_keyring (r : Keyring) : jsval :=
  VObj [(js "salt", VBytes (kr_salt r)); (js "entries", VArr (val_entry <$> kr_entries r))].

(** ** Names in a list *)

(** [hex16] on the constants below. *)
Definition hex16 (h : string) : bytes := htob_loop (js h).
Definition AAGUID_APPLE : bytes := hex16 "fbfc3007154e4ecc8c0b6e020557d7bd".
Definition AAGUID_GPM : bytes := hex16 "ea9b8d664d011d213ce4b6b48cb575d4".
Definition AAGUID_HELLO : bytes := hex16 "08987058cadc4b81b6e130de50dcbe96".
Definition AAGUID_YUBI_5 : bytes := hex16 "2fc0579f811347eab116bb5a8db9202a".

Definition aaguidName (id : option bytes) : option string :=
  match id with
  | None => None
  | Some id =>
      if negb (blen id =? 16) then None
      else if bytesEqual id AAGUID_APPLE then Some "Apple Passkey"%string
      else if bytesEqual id AAGUID_GPM then Some "GPM"%string
      else if bytesEqual id AAGUID_HELLO then Some "Windows Hello"%string
      else if bytesEqual id AAGUID_YUBI_5 then Some "YubiKey"%string
      else None
  end.

Definition roaming (row : KeyringRow) : bool :=
  bool_decide (kw_attachment row = Some (js "cross-platform")) ||
  match kw_transports row with
  | None => false
  | Some ts => existsb (λ t, bool_decide (t ∈ js <$> ["usb"; "nfc"; "ble"]%string)) ts
  end.

Definition keyringKind (row : KeyringRow) : string :=
  match aaguidName (kw_aaguid row) with
  | Some name => name
  | None =>
      if roaming row then "Security key"%string
      else if bool_decide (kw_attachment row = Some (js "platform")) then
        if bool_decide (kw_enrolledOs row = Some (js "ios")) || bool_decide (kw_enrolledOs row = Some (js "macos"))
        then "Apple Passkey"%string
        else if bool_decide (kw_enrolledOs row = Some (js "android")) then "GPM"%string
        else if bool_decide (kw_enrolledOs row = Some (js "windows")) then "Windows Hello"%string
        else "Passkey"%string
      else "Passkey"%string
  end.

(** The last four bytes in hex. *)
Definition credTail (id : bytes) : jsstr := btoh (drop (length id - Nat.min 4 (length id)) id).

Definition keyringLabel (row : KeyringRow) : jsstr :=
  match kw_nick row with
  | Some ((_ :: _) as nick) => nick
  | _ =>
      let kind := js (keyringKind row) in
      match credTail (kw_credId row) with [] => kind | tail => kind ++ js " " ++ tail end
  end.

(** ** [PrfSeedStore] *)

Record PrfStore := mkPrfStore { ps_enclave : option Enclave; ps_keyring : option Keyring; ps_label : option jsstr }.

(** [persistKeyring], and [unlockAccount] where the store has one. *)
Class KeyringHost (W : Type) := {
  kh_persist : option Keyring → M W unit;
  kh_unlock : option (M W (Enclave * option Keyring));
}.

Section store.
Context {C : CryptoPrims} {K : Passkeys} {W : Type} {H : KeyringHost W}.

Definition PM (A : Type) : Type := M (PrfStore * W) A.

Definition ps_get : PM PrfStore := λ '(s, w), (Ok s, (s, w)).
Definition ps_put (s : PrfStore) : PM unit := λ '(_, w), (Ok tt, (s, w)).
Definition on_host {A} (m : M W A) : PM A := λ '(s, w), let '(r, w) := m w in (r, (s, w)).

(** [PrfSeedStore.open] *)
Definition prf_open (keyring : option Keyring) : Res PrfStore :=
  match keyring with
  | None => Ok (mkPrfStore None None None)
  | Some r => ring ← cloneKeyring r; Ok (mkPrfStore None (Some ring) None)
  end.

Definition prf_list : PM (list KeyringRow) :=
  s ← ps_get;
  mret (match ps_keyring s with None => [] | Some r => toRow <$> kr_entries r end).

Definition prf_save (e : Enclave) (raw : option jsstr) (persist : bool) : PM Enclave :=
  s ← ps_get;
  let occupied := match ps_enclave s, ps_keyring s with
                  | Some _, _ => true
                  | None, Some r => negb (Nat.eqb (length (kr_entries r)) 0)
                  | None, None => false
                  end in
  label ← (match singleAccountLabel (ps_label s) raw occupied with
           | Err _ => m_err InvalidParam
           | r => m_lift r
           end);
  if persist then m_err InvalidParam
  else _ ← ps_put (mkPrfStore (Some e) (ps_keyring s) (Some label)); mret e.

Record BindOpts := mkBindOpts {
  bo_salt : option bytes; bo_credId : CredIdOpt; bo_create : option bool; bo_nick : option jsstr;
}.

Definition known_cred (id : CredIdOpt) : bool :=
  match id with
  | NoCred => false
  | OneCred id => 0 <? blen id
  | SomeCreds ids => negb (Nat.eqb (length ids) 0)
  end.

(** The new entry; [os] is [enrolledOsHere()]. *)
Definition bound_entry (now : Z) (os nick : option jsstr) (sealed : PrfSealedMaster) (tag : bytes) : KeyringEntry :=
  let cer := sm_ceremony sealed in
  mkEntry (sm_sealed sealed) (pc_credId cer) tag (pc_userId cer) nick now (Some now) (pc_attachment cer)
    (pc_transports cer) (pc_aaguid cer) os.

Definition priors (ring : option Keyring) : list BindPrior :=
  match ring with None => [] | Some r => (λ e, mkPrior (ke_credId e) (ke_tag e)) <$> kr_entries r end.

(** What [bindAndSave] passes to the ceremony. *)
Definition bind_opts (opts : BindOpts) (ring : option Keyring) : PasskeyPrfOpts :=
  mkPrfOpts (match bo_salt opts with Some s => Some s | None => kr_salt <$> ring end) (bo_credId opts)
    (default (negb (known_cred (bo_credId opts))) (bo_create opts)).

(** [nonce] is the draw of the cipher, [now] the clock. *)
Definition bindAndSave (nonce : bytes) (now : Z) (os : option jsstr) (e : Enclave) (opts : BindOpts) : PM Enclave :=
  s ← ps_get;
  let ring := ps_keyring s in
  if negb (known_cred (bo_credId opts)) &&
     match ring with Some r => Nat.leb KEYRING_MAX (length (kr_entries r)) | None => false end
  then m_err VarLimitExceeded
  else
    '(sealed, tag) ← m_lift (bind e nonce (bind_opts opts ring) (priors ring));
    let next := bound_entry now os (trimNick (bo_nick opts)) sealed tag in
    let base := default (mkKeyring (sm_salt sealed) []) ring in
    stored ← m_lift (upsertEntry base next);
    _ ← on_host (kh_persist (Some stored));
    _ ← ps_put (mkPrfStore (Some e) (Some stored) (ps_label s));
    mret e.

Definition ring_bindings (r : Keyring) : list PrfBinding :=
  (λ e, mkBinding (ke_sealedMaster e) (ke_credId e) None) <$> kr_entries r.

Definition prf_unlock (now : Z) : PM Enclave :=
  s ← ps_get;
  match kh_unlock with
  | Some pick =>
      '(e, keyring) ← on_host pick;
      ring ← m_lift (match keyring with None => Ok None | Some r => c ← cloneKeyring r; Ok (Some c) end);
      _ ← ps_put (mkPrfStore (Some e) ring (ps_label s));
      mret e
  | None =>
      match ps_keyring s with
      | None | Some (mkKeyring _ []) => m_err MissingSeed
      | Some ring =>
          '(e, credId) ← m_lift (unsealWithPasskey (ring_bindings ring) (kr_salt ring));
          _ ← ps_put (mkPrfStore (Some e) (ps_keyring s) (ps_label s));
          next ← m_lift (touchKeyring now ring credId);
          match next with
          | None => mret e
          | Some next =>
              _ ← on_host (kh_persist (Some next));
              _ ← ps_put (mkPrfStore (Some e) (Some next) (ps_label s));
              mret e
          end
      end
  end.

Definition prf_rename (credId : bytes) (nick : jsstr) : PM unit :=
  s ← ps_get;
  match ps_keyring s with
  | None => m_err MissingSeed
  | Some ring =>
      match find_cred credId (kr_entries ring) with
      | None => m_err NotFound
      | Some (i, _) =>
          entries ← m_lift (cloneEntries (kr_entries ring));
          match entries !! i with
          | None => m_err NotFound
          | Some cur =>
              let next := mkKeyring (kr_salt ring) (<[i := with_nick (trimNick (Some nick)) cur]> entries) in
              _ ← on_host (kh_persist (Some next));
              ps_put (mkPrfStore (ps_enclave s) (Some next) (ps_label s))
          end
      end
  end.

Definition prf_remove (credId : bytes) : PM unit :=
  s ← ps_get;
  match ps_keyring s with
  | None => m_err MissingSeed
  | Some ring =>
      let entries := filter (λ e, bytesEqual (ke_credId e) credId = false) (kr_entries ring) in
      if Nat.eqb (length entries) (length (kr_entries ring)) then m_err NotFound
      else
        match entries with
        | [] =>
            _ ← on_host (kh_persist None);
            ps_put (mkPrfStore (ps_enclave s) None (ps_label s))
        | _ =>
            copied ← m_lift (cloneEntries entries);
            let next := mkKeyring (kr_salt ring) copied in
            _ ← on_host (kh_persist (Some next));
            ps_put (mkPrfStore (ps_enclave s) (Some next) (ps_label s))
        end
  end.

(** [wipe] drops the status of [persist]. *)
Definition prf_wipe : PM unit :=
  _ ← ps_put (mkPrfStore None None None);
  m_ignore (on_host (kh_persist None)).
End store.

(** ** Facts *)

Definition entry_ok (e : KeyringEntry) : Prop := blen (ke_sealedMaster e) = SEALED_MASTER_KEY_LEN ∧ blen (ke_tag e) = hashBytes.

Lemma cloneEntry_ok e : entry_ok e → cloneEntry e = Ok e.
Proof.
  intros [H1 H2]. unfold cloneEntry, asSealedMasterKey, asChildKey. rewrite H1, H2, !Z.eqb_refl. by destruct e.
Qed.

Lemma cloneEntry_inv e c : cloneEntry e = Ok c → c = e ∧ entry_ok e.
Proof.
  unfold cloneEntry, asSealedMasterKey, asChildKey, entry_ok.
  destruct (Z.eqb_spec (blen (ke_sealedMaster e)) SEALED_MASTER_KEY_LEN); [|done].
  destruct (Z.eqb_spec (blen (ke_tag e)) hashBytes); [|done]. cbn. intros [= <-]. by destruct e.
Qed.

Lemma cloneEntries_ok es : Forall entry_ok es → cloneEntries es = Ok es.
Proof. induction 1 as [|e es He _ IH]; [done|]. cbn [cloneEntries]. by rewrite cloneEntry_ok, IH. Qed.

Lemma cloneEntries_inv es cs : cloneEntries es = Ok cs → cs = es ∧ Forall entry_ok es.
Proof.
  revert cs. induction es as [|e es IH]; cbn [cloneEntries]; [by intros cs [= <-]|].
  intros cs (c & [-> He]%cloneEntry_inv & H)%res_bind_Ok_inv. apply res_bind_Ok_inv in H as (out & [-> Hes]%IH & [= <-]).
  by split; [|constructor].
Qed.

Definition ring_ok (r : Keyring) : Prop := Forall entry_ok (kr_entries r).

Lemma cloneKeyring_ok r : ring_ok r → cloneKeyring r = Ok r.
Proof. intros H. unfold cloneKeyring. rewrite cloneEntries_ok by done. by destruct r. Qed.

Lemma cloneKeyring_inv r c : cloneKeyring r = Ok c → c = r ∧ ring_ok r.
Proof. intros (es & [-> H]%cloneEntries_inv & [= <-])%res_bind_Ok_inv. by destruct r. Qed.

Lemma find_cred_Some credId es i e :
  find_cred credId es = Some (i, e) ↔ es !! i = Some e ∧ ke_credId e = credId ∧ (∀ j x, (j < i)%nat → es !! j = Some x → ke_credId x ≠ credId).
Proof.
  unfold find_cred. rewrite list_find_Some. rewrite bytesEqual_spec.
  assert (H : ∀ x, ¬ bytesEqual (ke_credId x) credId = true ↔ ke_credId x ≠ credId) by (intros x; by rewrite bytesEqual_spec).
  setoid_rewrite H. naive_solver.
Qed.

Lemma find_cred_None credId es : find_cred credId es = None ↔ credId ∉ ke_credId <$> es.
Proof.
  unfold find_cred. rewrite list_find_None, Forall_forall, list_elem_of_fmap. setoid_rewrite bytesEqual_spec. naive_solver.
Qed.

(** *** Storing and reading a keyring *)

Definition plain_entry (e : KeyringEntry) : Prop :=
  entry_ok e ∧ (∀ a, ke_attachment e = Some a → a ∈ js <$> attachments) ∧ (∀ o, ke_enrolledOs e = Some o → o ∈ js <$> systems) ∧
  ke_transports e ≠ Some [].

Lemma one_of_opt names x : (∀ a, x = Some a → a ∈ js <$> names) → one_of names (opt_val VStr x) = x.
Proof. intros H. destruct x as [a|]; [|done]. cbn. by rewrite bool_decide_eq_true_2 by (by apply H). Qed.

Lemma omap_strings (ts : list jsstr) : omap (M := list) as_str (VStr <$> ts) = ts.
Proof. induction ts as [|t ts IH]; [done|]. cbn. by f_equal. Qed.

Lemma decodeEntry_val e : plain_entry e → decodeEntry (val_entry e) = Some e.
Proof.
  intros ([H1 H2] & Ha & Ho & Ht). unfold decodeEntry.
  change (field "type" (val_entry e)) with (VStr (js "prf")).
  change (field "sealedMaster" (val_entry e)) with (VBytes (ke_sealedMaster e)).
  change (field "credId" (val_entry e)) with (VBytes (ke_credId e)).
  change (field "tag" (val_entry e)) with (VBytes (ke_tag e)).
  change (field "enrolledAt" (val_entry e)) with (VNum (Some (ke_enrolledAt e))).
  change (field "transports" (val_entry e)) with (opt_val (λ ts, VArr (VStr <$> ts)) (ke_transports e)).
  change (field "userId" (val_entry e)) with (opt_val VBytes (ke_userId e)).
  change (field "nick" (val_entry e)) with (opt_val VStr (ke_nick e)).
  change (field "lastUsedAt" (val_entry e)) with (opt_val (λ z, VNum (Some z)) (ke_lastUsedAt e)).
  change (field "attachment" (val_entry e)) with (opt_val VStr (ke_attachment e)).
  change (field "aaguid" (val_entry e)) with (opt_val VBytes (ke_aaguid e)).
  change (field "enrolledOs" (val_entry e)) with (opt_val VStr (ke_enrolledOs e)).
  rewrite !one_of_opt by done. unfold asSealedMasterKey, asChildKey. cbn [isRec val_entry as_str as_bytes as_num mbind option_bind].
  rewrite bool_decide_eq_true_2 by done. cbn [andb negb]. rewrite H1, H2, !Z.eqb_refl. cbn [negb res_opt mbind option_bind].
  destruct e as [sm cid tag uid nick ea lu att tr aa os]. cbn in *. f_equal. f_equal; [by destruct uid|by destruct nick|by destruct lu| |by destruct aa].
  destruct tr as [ts|]; [|done]. cbn. rewrite omap_strings. by destruct ts.
Qed.

Definition plain_ring (r : Keyring) : Prop := Forall plain_entry (kr_entries r) ∧ kr_entries r ≠ [].

Lemma decodeKeyring_val r : plain_ring r → decodeKeyring (val_keyring r) = Some r.
Proof.
  intros [Hp Hn]. unfold decodeKeyring. change (isRec (val_keyring r)) with true. cbn [negb].
  change (field "salt" (val_keyring r)) with (VBytes (kr_salt r)).
  change (field "entries" (val_keyring r)) with (VArr (val_entry <$> kr_entries r)). cbn [as_bytes as_arr mbind option_bind].
  assert (He : omap (M := list) decodeEntry (val_entry <$> kr_entries r) = kr_entries r).
  { clear Hn. induction Hp as [|e es He _ IH]; [done|]. cbn. rewrite decodeEntry_val by done. by f_equal. }
  rewrite He. destruct r as [salt [|e es]]; [done|]. done.
Qed.

Lemma decodeEntry_ok raw e : decodeEntry raw = Some e → entry_ok e.
Proof.
  unfold decodeEntry. destruct (negb _); [done|]. unfold asSealedMasterKey, asChildKey.
  destruct (as_bytes (field "sealedMaster" raw)) as [s|]; [|done]. destruct (as_bytes (field "credId" raw)); [|done].
  destruct (as_bytes (field "tag" raw)) as [t|]; [|done]. destruct (as_num (field "enrolledAt" raw)); [|done]. cbn [mbind option_bind].
  destruct (Z.eqb_spec (blen s) SEALED_MASTER_KEY_LEN); [|done]. destruct (Z.eqb_spec (blen t) hashBytes); [|done].
  cbn. by intros [= <-].
Qed.

Lemma decodeKeyring_ok raw r : decodeKeyring raw = Some r → ring_ok r ∧ kr_entries r ≠ [].
Proof.
  unfold decodeKeyring. destruct (negb _); [done|]. destruct (as_bytes _); [|done]. destruct (as_arr _) as [rows|]; [|done].
  cbn [mbind option_bind]. destruct (omap (M := list) decodeEntry rows) as [|e es] eqn:E; [done|]. intros [= <-]. split; [|done].
  unfold ring_ok. cbn. rewrite <-E. apply Forall_forall. intros x (raw' & _ & Hx)%list_elem_of_omap. by eapply decodeEntry_ok.
Qed.

Example label_is_nick : keyringLabel (mkKeyringRow [x01] None (Some (js "home")) 0 None None None None None) = js "home".
Proof. reflexivity. Qed.
Example label_without_nick :
  keyringLabel (mkKeyringRow [x0a; x0b; x01; x02; xff] None None 0 None (Some (js "platform")) None None (Some (js "macos"))) =
  js "Apple Passkey 0b0102ff".
Proof. vm_compute. reflexivity. Qed.
