(* ===== verification/Accounts.v ===== *)
(** * The account catalog ([web/src/stores/idb/{account,names,store}.ts])

    One row per account label: its ids and database names, the key tag that
    names its master, the keyring.  Every call is a [Task]: a sequence of catalog
    transactions with the code between them, so that calls of one page or of
    several interleave at the transactions.  Random ids and tag seeds are drawn
    from two streams. *)
From S2P Require Export Keyring.

(** ** Names ([names.ts]) *)

Definition dataDbName (acct : jsstr) : jsstr := js "data-" ++ acct.
Definition entsDbName (acct : jsstr) : jsstr := js "ents-" ++ acct.

(** A name that is there: not [undefined] and not empty. *)
Definition present (s : option jsstr) : option jsstr := match s with Some [] => None | s => s end.

(** [minted]: the id drawn if there is none. *)
Definition placeAccount (acct data : option jsstr) (minted : bytes) : jsstr * jsstr :=
  let id := default (btoh minted) (present acct) in
  (id, default (dataDbName id) (present data)).

Definition assignEnts (acct : jsstr) (current : option jsstr) : jsstr := default (entsDbName acct) (present current).

(** ** Rows *)

Record Account := mkAcctRow {
  ac_label : jsstr; ac_acct : option jsstr; ac_data : option jsstr; ac_ents : option jsstr;
  ac_keyTag : option KeyTag; ac_keyring : option Keyring;
}.

Definition strField (name : string) (raw : jsval) : option jsstr := present (as_str (field name raw)).

(** [keyTag.ts] *)
Definition decodeKeyTag (raw : jsval) : option KeyTag :=
  if negb (isRec raw) then None
  else
    n ← as_bytes (field "n" raw);
    h0 ← as_bytes (field "h" raw);
    if blen n <? 1 then None
    else h ← res_opt (asChildKey h0); Some (mkKeyTag n h).
Definition val_keyTag (t : KeyTag) : jsval := VObj [(js "n", VBytes (kt_n t)); (js "h", VBytes (kt_h t))].

Definition decodeAccount (raw : jsval) : option Account :=
  if negb (isRec raw) then None
  else
    label ← as_str (field "label" raw);
    Some (mkAcctRow label (strField "acct" raw) (strField "data" raw) (strField "ents" raw)
            (decodeKeyTag (field "keyTag" raw)) (decodeKeyring (field "keyring" raw))).

Record PasskeyCred := mkCred { cr_label : jsstr; cr_salt : bytes; cr_sealedMaster : bytes; cr_credId : bytes }.

(** One binding: kept unless its credential is listed already; listed under
    another label it is an error. *)
Definition add_cred (label : jsstr) (salt : bytes) (e : KeyringEntry) (out : list PasskeyCred) : Res (list PasskeyCred) :=
  if blen (ke_credId e) =? 0 then Ok out
  else
    match find (λ prev, bytesEqual (cr_credId prev) (ke_credId e)) out with
    | Some prev => if bool_decide (cr_label prev = label) then Ok out else Err InvalidParam
    | None => Ok (out ++ [mkCred label salt (ke_sealedMaster e) (ke_credId e)])
    end.

Fixpoint add_creds (label : jsstr) (salt : bytes) (entries : list KeyringEntry) (out : list PasskeyCred) : Res (list PasskeyCred) :=
  match entries with
  | [] => Ok out
  | e :: entries => out ← add_cred label salt e out; add_creds label salt entries out
  end.

Fixpoint passkeyCreds (accts : list Account) (out : list PasskeyCred) : Res (list PasskeyCred) :=
  match accts with
  | [] => Ok out
  | a :: accts =>
      out ← match ac_keyring a with None => Ok out | Some r => add_creds (ac_label a) (kr_salt r) (kr_entries r) out end;
      passkeyCreds accts out
  end.

(** [putAccount]: absent fields are left out. *)
Definition account_val (label : jsstr) (acct data ents : option jsstr) (keyTag keyring : option jsval) : jsval :=
  VObj ((js "label", VStr label) :: opt_field "acct" VStr acct ++ opt_field "data" VStr data ++ opt_field "ents" VStr ents ++
        opt_field "keyTag" id keyTag ++ opt_field "keyring" id keyring).

(** ** Edits

    What an editor of [#change] returns: nothing, the row it was handed, or
    another row.  The key tag and the keyring of that row are absent, the
    objects of the row handed in, or new. *)

Inductive Side (A : Type) := Gone | Same | New (a : A).
Arguments Gone {A}.
Arguments Same {A}.
Arguments New {A}.

Record Edit := mkEdit {
  ed_acct : option jsstr; ed_data : option jsstr; ed_ents : option jsstr; ed_keyTag : Side KeyTag; ed_keyring : Side Keyring;
}.
Inductive Edited := Drop | Keep | Put (e : Edit).

Definition orelse {A} (x y : option A) : option A := match x with Some _ => x | None => y end.

(** The stored side: the bytes that are there for the same object. *)
Definition side_val {A} (enc : A → jsval) (s : Side A) (cur : option A) (stored : jsval) : option jsval :=
  match s with
  | Gone => None
  | New a => Some (enc a)
  | Same => match cur with None => None | Some a => Some (match stored with VUndef => enc a | v => v end) end
  end.

(** The catalog, the databases there are, and how many random draws were
    made. *)
Record Meta (T : Type) := mkMeta { mt_accounts : T; mt_dbs : list jsstr; mt_mints : nat; mt_seeds : nat }.
Arguments mkMeta {T}.
Arguments mt_accounts {T}.
Arguments mt_dbs {T}.
Arguments mt_mints {T}.
Arguments mt_seeds {T}.

(** ** Calls as tasks *)

Inductive Task (A : Type) :=
  | Done (r : Res A)
  | Get (label : jsstr) (k : option Account → Task A)
  | ListAll (k : list Account → Task A)
  | Change (label : jsstr) (edit : option Account → Edited * bool) (k : bool → Task A)   (* the editor may set a flag *)
  | AssertKeyTag (e : Enclave) (label : jsstr) (k : Res unit → Task A)        (* a status other than [Success] is an [Err] *)
  | Mint (k : bytes → Task A)
  | DeleteDb (name : jsstr) (k : Task A)
  | ClearAll (k : Task A).
Arguments Done {A}.
Arguments Get {A}.
Arguments ListAll {A}.
Arguments Change {A}.
Arguments AssertKeyTag {A}.
Arguments Mint {A}.
Arguments DeleteDb {A}.
Arguments ClearAll {A}.

Definition plain (edit : option Account → Edited) : option Account → Edited * bool := λ cur, (edit cur, false).

Section accounts.
Context {C : CryptoPrims} {K : Passkeys} {T : Type} {TB : Table T jsstr jsval}.
Context (mint seeds : nat → bytes).
Implicit Types m : Meta T.

(** *** Transactions *)

Definition get_row (label : jsstr) m : option Account := tb_get label (mt_accounts m) ≫= decodeAccount.
Definition list_rows m : list Account := omap (M := list) (λ row, decodeAccount row.2) (tb_rows (mt_accounts m)).

Definition with_rows (t : T) m : Meta T := mkMeta t (mt_dbs m) (mt_mints m) (mt_seeds m).
Definition drew_mint m : Meta T := mkMeta (mt_accounts m) (mt_dbs m) (S (mt_mints m)) (mt_seeds m).
Definition drew_seed m : Meta T := mkMeta (mt_accounts m) (mt_dbs m) (mt_mints m) (S (mt_seeds m)).

(** [#change], what it does with the editor's row. *)
Definition change_to (label : jsstr) (e : Edit) (keep : bool) m : Meta T :=
  let stored := default VUndef (tb_get label (mt_accounts m)) in
  let cur := get_row label m in
  let acct := orelse (ed_acct e) (cur ≫= ac_acct) in
  let data := orelse (ed_data e) (cur ≫= ac_data) in
  let ents := orelse (ed_ents e) (cur ≫= ac_ents) in
  let placed := placeAccount acct data (mint (mt_mints m)) in
  let m := match present acct with Some _ => m | None => drew_mint m end in
  if keep && bool_decide (cur ≫= ac_acct = Some placed.1) && bool_decide (cur ≫= ac_data = Some placed.2) then m
  else
    with_rows (tb_put label
      (account_val label (Some placed.1) (Some placed.2) ents
         (side_val val_keyTag (ed_keyTag e) (cur ≫= ac_keyTag) (field "keyTag" stored))
         (side_val val_keyring (ed_keyring e) (cur ≫= ac_keyring) (field "keyring" stored)))
      (mt_accounts m)) m.

(** The row handed in, copied. *)
Definition same_row (cur : Account) : Edit := mkEdit (ac_acct cur) (ac_data cur) (ac_ents cur) Same Same.

Definition change (label : jsstr) (edit : Edited) m : Meta T :=
  let cur := get_row label m in
  match edit, cur with
  | Drop, Some _ => with_rows (tb_delete label (mt_accounts m)) m
  | Drop, None => m
  | Keep, Some cur => change_to label (same_row cur) true m
  | Keep, None => m
  | Put e, _ => change_to label e false m
  end.

(** *** [#assertKeyTag] *)

(** The editor that writes a tag unless one came in between. *)
Definition tag_edit (tag : KeyTag) (row : option Account) : Edited * bool :=
  match row with
  | Some row =>
      match ac_keyTag row with
      | Some _ => (Keep, true)
      | None => (Put (mkEdit None None None (New tag) Same), false)
      end
  | None => (Put (mkEdit None None None (New tag) Gone), false)
  end.

(** One turn of a task: up to and with its next transaction. *)
Definition task_step {A} (t : Task A) m : Task A * Meta T :=
  match t with
  | Done r => (Done r, m)
  | Get label k => (k (get_row label m), m)
  | ListAll k => (k (list_rows m), m)
  | Change label edit k =>
      let '(e, flag) := edit (get_row label m) in (k flag, change label e m)
  | AssertKeyTag e label k =>
      match get_row label m ≫= ac_keyTag with
      | Some tag =>
          (match keyTagMatches e tag with
           | Ok hit => k (if hit then Ok tt else Err HashMismatch)
           | _ => Done Throw
           end, m)
      | None =>
          (match makeKeyTag (seeds (mt_seeds m)) e with
           | Ok tag => Change label (tag_edit tag) (λ raced, if raced then AssertKeyTag e label k else k (Ok tt))
           | Err st => k (Err st)
           | Throw => Done Throw
           end, drew_seed m)
      end
  | Mint k => (k (mint (mt_mints m)), drew_mint m)
  | DeleteDb name k => (k, mkMeta (mt_accounts m) (filter (λ n, n ≠ name) (mt_dbs m)) (mt_mints m) (mt_seeds m))
  | ClearAll k => (k, with_rows (tb_clear (mt_accounts m)) m)
  end.

(** A call that nothing interrupts; no tag can come in between. *)
Fixpoint task_run {A} (t : Task A) m : Res A * Meta T :=
  match t with
  | Done r => (r, m)
  | Get label k => task_run (k (get_row label m)) m
  | ListAll k => task_run (k (list_rows m)) m
  | Change label edit k =>
      let '(e, flag) := edit (get_row label m) in task_run (k flag) (change label e m)
  | AssertKeyTag e label k =>
      match get_row label m ≫= ac_keyTag with
      | Some tag =>
          match keyTagMatches e tag with
          | Ok hit => task_run (k (if hit then Ok tt else Err HashMismatch)) m
          | _ => (Throw, m)
          end
      | None =>
          match makeKeyTag (seeds (mt_seeds m)) e with
          | Ok tag => task_run (k (Ok tt)) (change label (tag_edit tag (get_row label m)).1 (drew_seed m))
          | Err st => task_run (k (Err st)) (drew_seed m)
          | Throw => (Throw, drew_seed m)
          end
      end
  | Mint k => task_run (k (mint (mt_mints m))) (drew_mint m)
  | DeleteDb name k => task_run k (mkMeta (mt_accounts m) (filter (λ n, n ≠ name) (mt_dbs m)) (mt_mints m) (mt_seeds m))
  | ClearAll k => task_run k (with_rows (tb_clear (mt_accounts m)) m)
  end.

(** *** [IDBAccountStore] *)

Definition save (e : Enclave) (raw : option jsstr) : Task Enclave :=
  AssertKeyTag e (accountLabel raw) (λ r, Done (_ ← r; Ok e)).

(** [os]: the system's randomness, nothing where its generator throws.  The buffer [musec] is wiped on every
    path. *)
Definition account_create (label : jsstr) (os : option bytes) (musec : bytes) : Task Enclave * bytes :=
  let name := accountLabel (Some label) in
  (Get name (λ got,
     match got ≫= ac_keyTag with
     | Some _ => Done (Err HashMismatch)
     | None =>
         if blen musec <? MUSEC_MIN_LEN then Done (Err InvalidParam)
         else
           match (fromRandom os musec).1 with
           | Ok e => save e (Some name)
           | Err st => Done (Err st)
           | Throw => Done Throw
           end
     end), wiped musec).

Definition copy_edit (cur : option Account) : Edited :=
  match cur with None => Drop | Some cur => Put (same_row cur) end.

Definition dataName (label : jsstr) : Task (option jsstr) :=
  Get label (λ got,
    match got with
    | None => Done (Ok None)
    | Some row =>
        match present (ac_data row) with
        | Some data => Done (Ok (Some data))
        | None =>
            Change label (plain copy_edit) (λ _, Get label (λ again, Done (Ok (again ≫= ac_data))))
        end
    end).

Definition place {A} (acct data : option jsstr) (k : jsstr * jsstr → Task A) : Task A :=
  match present acct with
  | Some _ => k (placeAccount acct data [])
  | None => Mint (λ minted, k (placeAccount acct data minted))
  end.

(** The names are those of the row read first, or of no row. *)
Definition ents_edit (acct data ents : jsstr) (cur : option Account) : Edited :=
  Put (mkEdit (Some acct) (Some data) (Some ents)
         (match cur with Some _ => Same | None => Gone end) (match cur with Some _ => Same | None => Gone end)).

Definition ensureEnts (label : jsstr) : Task jsstr :=
  let name := accountLabel (Some label) in
  Get name (λ got,
    place (got ≫= ac_acct) (got ≫= ac_data) (λ '(acct, data),
      let ents := assignEnts acct (got ≫= ac_ents) in
      Change name (plain (ents_edit acct data ents)) (λ _, Done (Ok ents)))).

Definition delete_db {A} (name : option jsstr) (k : Task A) : Task A :=
  match name with None => k | Some name => DeleteDb name k end.
Fixpoint delete_dbs {A} (rows : list Account) (k : Task A) : Task A :=
  match rows with
  | [] => k
  | row :: rows => delete_db (ac_data row) (delete_db (ac_ents row) (delete_dbs rows k))
  end.

(** The open database is closed before it is deleted. *)
Definition account_wipe : Task unit :=
  ListAll (λ rows, delete_dbs rows (ClearAll (Done (Ok tt)))).

(** [#boundLabel]: an omitted label is the only account. *)
Definition boundLabel {A} (raw : option jsstr) (k : Res jsstr → Task A) : Task A :=
  match raw with
  | Some _ => k (Ok (accountLabel raw))
  | None =>
      ListAll (λ rows, k match rows with [one] => Ok (ac_label one) | [] => Err NotFound | _ => Err InvalidParam end)
  end.

Definition loadKeyring (raw : option jsstr) : Task (option Keyring) :=
  boundLabel raw (λ name,
    match name with
    | Ok name => Get name (λ got, Done (Ok (got ≫= ac_keyring)))
    | _ => Done (Ok None)
    end).

Definition ring_edit (ring : option Keyring) (cur : option Account) : Edited :=
  match ring with
  | None => match cur ≫= ac_keyTag with None => Drop | Some _ => Put (mkEdit None None None Same Gone) end
  | Some r => Put (mkEdit None None None (match cur ≫= ac_keyTag with Some _ => Same | None => Gone end) (New r))
  end.

(** A status [Success] is an [Ok]. *)
Definition persistKeyring (ring : option Keyring) (raw : option jsstr) : Task unit :=
  match (match ring with None => Ok None | Some r => copy ← cloneKeyring r; Ok (Some copy) end) with
  | Ok copy =>
      boundLabel raw (λ name,
        match name with
        | Ok name => Change name (plain (ring_edit copy)) (λ _, Done (Ok tt))
        | Err st => Done (Err st)
        | Throw => Done Throw
        end)
  | Err st => Done (Err st)
  | Throw => Done Throw
  end.

Definition hasKeyring (r : option Keyring) : bool :=
  match r with Some r => negb (Nat.eqb (length (kr_entries r)) 0) | None => false end.

Definition cred_binding (c : PasskeyCred) : PrfBinding := mkBinding (cr_sealedMaster c) (cr_credId c) (Some (cr_salt c)).

(** After the ceremony: [hit] is the account of the credential asserted. *)
Definition unlock_as (now : Z) (e : Enclave) (credId : bytes) (label : jsstr) : Task (Enclave * jsstr) :=
  Get label (λ got,
    let named := match got ≫= ac_keyTag with None => Ok true | Some tag => keyTagMatches e tag end in
    match named with
    | Ok true =>
        match got ≫= ac_keyring with
        | None => Done (Err NotFound)
        | Some ring =>
            match touchKeyring now ring credId with
            | Ok (Some next) => Change label (plain (ring_edit (Some next))) (λ _, Done (Ok (e, label)))
            | Ok None => Done (Ok (e, label))
            | Err st => Done (Err st)
            | Throw => Done Throw
            end
        end
    | Ok false => Done (Err HashMismatch)
    | _ => Done Throw
    end).

Definition unlock (now : Z) : Task (Enclave * jsstr) :=
  ListAll (λ rows,
    match passkeyCreds rows [] with
    | Ok [] => Done (Err MissingSeed)
    | Ok ((first :: _) as creds) =>
        match unsealWithPasskey (cred_binding <$> creds) (cr_salt first) with
        | Ok (e, credId) =>
            match find (λ c, bytesEqual (cr_credId c) credId) creds with
            | None => Done (Err NotFound)
            | Some hit => unlock_as now e credId (cr_label hit)
            end
        | Err st => Done (Err st)
        | Throw => Done Throw
        end
    | Err st => Done (Err st)
    | Throw => Done Throw
    end).

(** *** [openPrfStore]: the keyring of one account *)

(** [bound] is the label the store writes to. *)
#[export] Instance account_keyring (now : Z) : KeyringHost (Meta T * option jsstr) := {|
  kh_persist ring := λ '(m, bound), let '(r, m) := task_run (persistKeyring ring bound) m in (r, (m, bound));
  kh_unlock := Some (λ '(m, bound),
    let '(r, m) := task_run (unlock now) m in
    match r with
    | Ok (e, label) =>
        let '(ring, m) := task_run (loadKeyring (Some label)) m in
        (match ring with Ok ring => Ok (e, ring) | Err st => Err st | Throw => Throw end, (m, Some label))
    | Err st => (Err st, (m, bound))
    | Throw => (Throw, (m, bound))
    end);
|}.

Definition openPrfStore (raw : option jsstr) m : Res PrfStore * option jsstr * Meta T :=
  let '(name, m) := task_run (boundLabel raw Done) m in
  match name with
  | Ok name =>
      let '(ring, m) := task_run (loadKeyring (Some name)) m in
      (match ring with Ok ring => prf_open ring | Err st => Err st | Throw => Throw end, Some name, m)
  | _ => (prf_open None, None, m)
  end.

(** ** [IDBStore]: the data database of the open account *)

(** [bind], after its lookup; a database that is opened exists. *)
Definition mounted (open data : option jsstr) m : Res unit * option jsstr * Meta T :=
  match data with
  | None => (Err NotFound, open, m)
  | Some data =>
      if bool_decide (open = Some data) then (Ok tt, open, m)
      else (Ok tt, Some data, mkMeta (mt_accounts m) (if bool_decide (data ∈ mt_dbs m) then mt_dbs m else mt_dbs m ++ [data]) (mt_mints m) (mt_seeds m))
  end.

(** [prepareWorker] *)
Fixpoint task_bind {A B} (t : Task A) (f : A → Task B) : Task B :=
  match t with
  | Done (Ok a) => f a
  | Done (Err st) => Done (Err st)
  | Done Throw => Done Throw
  | Get label k => Get label (λ x, task_bind (k x) f)
  | ListAll k => ListAll (λ x, task_bind (k x) f)
  | Change label edit k => Change label edit (λ x, task_bind (k x) f)
  | AssertKeyTag e label k => AssertKeyTag e label (λ x, task_bind (k x) f)
  | Mint k => Mint (λ x, task_bind (k x) f)
  | DeleteDb name k => DeleteDb name (task_bind k f)
  | ClearAll k => ClearAll (task_bind k f)
  end.

Definition prepareWorker (label : jsstr) : Task (jsstr * jsstr) :=
  task_bind (dataName label) (λ data,
    match data with
    | None => Done (Err NotFound)
    | Some data => task_bind (ensureEnts label) (λ ents, Done (Ok (data, ents)))
    end).
End accounts.

(** ** Pages

    Calls of any number of pages over one catalog; a turn runs the next
    transaction of one of them. *)

Inductive Call :=
  | CSave (e : Enclave) (raw : option jsstr)
  | CCreate (label : jsstr) (os : option bytes) (musec : bytes)
  | CDataName (label : jsstr)
  | CEnsureEnts (label : jsstr)
  | CLoadKeyring (raw : option jsstr)
  | CPersistKeyring (ring : option Keyring) (raw : option jsstr)
  | CUnlock (now : Z)
  | CPrepareWorker (label : jsstr)
  | CWipe.

Inductive Answer :=
  | AEnclave (e : Enclave) | AName (name : option jsstr) | ANames (data ents : jsstr) | ARing (ring : option Keyring)
  | AUnlocked (e : Enclave) (label : jsstr) | ADone.

Definition answer {A} (f : A → Answer) (t : Task A) : Task Answer := task_bind t (λ a, Done (Ok (f a))).

Section pages.
Context {C : CryptoPrims} {K : Passkeys} {T : Type} {TB : Table T jsstr jsval}.
Context (mint seeds : nat → bytes).

Definition call_task (c : Call) : Task Answer :=
  match c with
  | CSave e raw => answer AEnclave (save e raw)
  | CCreate label os musec => answer AEnclave (account_create label os musec).1
  | CDataName label => answer AName (dataName label)
  | CEnsureEnts label => answer (λ ents, AName (Some ents)) (ensureEnts label)
  | CLoadKeyring raw => answer ARing (loadKeyring raw)
  | CPersistKeyring ring raw => answer (λ _, ADone) (persistKeyring ring raw)
  | CUnlock now => answer (λ r, AUnlocked r.1 r.2) (unlock now)
  | CPrepareWorker label => answer (λ r, ANames r.1 r.2) (prepareWorker label)
  | CWipe => answer (λ _, ADone) account_wipe
  end.

Record Pages := mkPages { pg_calls : list (Call * Task Answer); pg_meta : Meta T }.
Inductive PageEvent := PCall (c : Call) | PTurn (i : nat).

Definition pages_step (ev : PageEvent) (p : Pages) : Pages :=
  match ev with
  | PCall c => mkPages (pg_calls p ++ [(c, call_task c)]) (pg_meta p)
  | PTurn i =>
      match pg_calls p !! i with
      | None => p
      | Some (c, t) =>
          let '(t, m) := task_step mint seeds t (pg_meta p) in mkPages (<[i := (c, t)]> (pg_calls p)) m
      end
  end.

Definition pages_run (evs : list PageEvent) (p : Pages) : Pages := fold_left (λ p ev, pages_step ev p) evs p.
End pages.
