(* ===== verification/AccountsProps.v ===== *)
(** * Properties of the account catalog and the keyring

    An account label keeps its master whatever calls interleave; a race that
    moves its database name; the catalog does what the in-memory account store
    does; a keyring holds one master, survives storage and opens again. *)
From S2P Require Import EnclaveProps Facade Accounts.
From S2P Require Import Js.

Section rows.
Context {T : Type} {TB : Table T jsstr jsval} {TL : TableLaws T jsstr jsval}.
Context (mint : nat → bytes).
Implicit Types m : Meta T.

(** ** What a change leaves *)

Lemma decode_val label a d ents kt kr :
  decodeAccount (account_val label (Some a) (Some d) ents kt kr) =
  Some (mkAcctRow label (present (Some a)) (present (Some d)) (present ents) (kt ≫= decodeKeyTag) (kr ≫= decodeKeyring)).
Proof. by destruct ents, kt, kr. Qed.

Definition tag_ok (t : KeyTag) : Prop := 1 <= blen (kt_n t) ∧ blen (kt_h t) = hashBytes.

Lemma decode_val_keyTag t : tag_ok t → decodeKeyTag (val_keyTag t) = Some t.
Proof.
  intros [Hn Hh]. unfold decodeKeyTag. change (isRec (val_keyTag t)) with true.
  change (field "n" (val_keyTag t)) with (VBytes (kt_n t)). change (field "h" (val_keyTag t)) with (VBytes (kt_h t)).
  cbn [negb as_bytes mbind option_bind]. rewrite (proj2 (Z.ltb_ge _ _)) by done. unfold asChildKey. rewrite Hh, Z.eqb_refl. by destruct t.
Qed.

(** The side of a row after an edit, read back. *)
Definition side_after {A} (s : Side A) (cur : option A) : option A :=
  match s with Gone => None | Same => cur | New a => Some a end.

Lemma side_back {A} (enc : A → jsval) (dec : jsval → option A) s stored :
  dec VUndef = None → (∀ a, s = New a → dec (enc a) = Some a) →
  side_val enc s (dec stored) stored ≫= dec = side_after s (dec stored).
Proof.
  intros Hu Hn. destruct s as [| |a]; cbn; [done| |by apply Hn].
  destruct (dec stored) as [a|] eqn:E; [|done]. destruct stored; try done. by rewrite Hu in E.
Qed.

Definition tag_of label m : option KeyTag := get_row label m ≫= ac_keyTag.
Definition ring_of label m : option Keyring := get_row label m ≫= ac_keyring.

(** New sides survive storage. *)
Definition new_tag_ok (e : Edit) : Prop := ∀ t, ed_keyTag e = New t → tag_ok t.
Definition new_ring_ok (e : Edit) : Prop := ∀ r, ed_keyring e = New r → plain_ring r.

Lemma get_row_fields label m :
  tag_of label m = decodeKeyTag (field "keyTag" (default VUndef (tb_get label (mt_accounts m)))) ∧
  ring_of label m = decodeKeyring (field "keyring" (default VUndef (tb_get label (mt_accounts m)))) ∨ get_row label m = None.
Proof.
  unfold tag_of, ring_of, get_row. destruct (tb_get label (mt_accounts m)) as [raw|]; [|by right]. cbn.
  destruct (decodeAccount raw) as [row|] eqn:E; [|by right]. left. cbn. unfold decodeAccount in E.
  destruct (negb _); [done|]. destruct (as_str _); [|done]. by injection E as <-.
Qed.

Lemma get_row_put label row (t : T) m : get_row label (with_rows (tb_put label row t) m) = decodeAccount row.
Proof. unfold get_row. cbn. by rewrite tb_get_put_eq. Qed.

Lemma get_row_mint label m : get_row label (drew_mint m) = get_row label m.
Proof. done. Qed.

Lemma change_to_fields label e m :
  let cur := get_row label m in
  let placed := placeAccount (orelse (ed_acct e) (cur ≫= ac_acct)) (orelse (ed_data e) (cur ≫= ac_data)) (mint (mt_mints m)) in
  ∃ kt kr, get_row label (change_to mint label e false m) =
      Some (mkAcctRow label (present (Some placed.1)) (present (Some placed.2)) (present (orelse (ed_ents e) (cur ≫= ac_ents))) kt kr) ∧
    (new_tag_ok e → kt = side_after (ed_keyTag e) (tag_of label m)) ∧
    (new_ring_ok e → kr = side_after (ed_keyring e) (ring_of label m)).
Proof.
  intros cur placed. unfold change_to. cbn [andb]. set (m' := match present _ with Some _ => m | None => _ end).
  rewrite get_row_put, decode_val. eexists _, _. split; [reflexivity|].
  change (get_row label m ≫= ac_keyTag) with (tag_of label m). change (get_row label m ≫= ac_keyring) with (ring_of label m).
  destruct (get_row_fields label m) as [[Htag Hring]|Hnone].
  - split; intros Hn; [rewrite Htag|rewrite Hring]; apply side_back; try done; intros a E.
    + by apply decode_val_keyTag, Hn.
    + by apply decodeKeyring_val, Hn.
  - unfold tag_of, ring_of. rewrite Hnone. split; intros Hn.
    + destruct (ed_keyTag e) as [| |t] eqn:E; [done..|]. by apply decode_val_keyTag, Hn.
    + destruct (ed_keyring e) as [| |r] eqn:E; [done..|]. by apply decodeKeyring_val, Hn.
Qed.

Lemma change_to_tag label e m :
  new_tag_ok e → tag_of label (change_to mint label e false m) = side_after (ed_keyTag e) (tag_of label m).
Proof. intros H. destruct (change_to_fields label e m) as (kt & kr & Hr & Ht & _). unfold tag_of at 1. rewrite Hr. by apply Ht. Qed.

Lemma change_to_ring label e m :
  new_ring_ok e → ring_of label (change_to mint label e false m) = side_after (ed_keyring e) (ring_of label m).
Proof. intros H. destruct (change_to_fields label e m) as (kt & kr & Hr & _ & Hk). unfold ring_of at 1. rewrite Hr. by apply Hk. Qed.

Lemma change_to_other label e keep m l : l ≠ label → get_row l (change_to mint label e keep m) = get_row l m.
Proof.
  intros Hl. unfold change_to. destruct (present _), (keep && _ && _); try done;
    unfold get_row; cbn; by rewrite tb_get_put_ne.
Qed.

(** Keeping a row keeps its tag and keyring. *)
Lemma change_to_keep label cur m :
  get_row label m = Some cur →
  let m' := change_to mint label (same_row cur) true m in
  tag_of label m' = tag_of label m ∧ ring_of label m' = ring_of label m.
Proof.
  intros Hc m'. subst m'. unfold change_to. set (m1 := match present _ with Some _ => m | None => _ end).
  assert (Hm : mt_accounts m1 = mt_accounts m) by (unfold m1; by destruct (present _)).
  destruct (true && _ && _); [unfold tag_of, ring_of, get_row; by rewrite Hm|].
  unfold tag_of at 1, ring_of at 1. rewrite get_row_put, decode_val.
  destruct (get_row_fields label m) as [[Htag Hring]|Hn]; [|congruence].
  change (get_row label m ≫= ac_keyTag) with (tag_of label m). change (get_row label m ≫= ac_keyring) with (ring_of label m).
  rewrite Htag, Hring. split.
  - etransitivity; [|by apply (side_back val_keyTag decodeKeyTag Same)]. done.
  - etransitivity; [|by apply (side_back val_keyring decodeKeyring Same)]. done.
Qed.

Lemma change_other label e m l : l ≠ label → get_row l (change mint label e m) = get_row l m.
Proof.
  intros Hl. unfold change. destruct e, (get_row label m); try done; try by apply change_to_other.
  unfold get_row. cbn. rewrite tb_get_delete. by rewrite decide_False.
Qed.

Definition tag_kept (cur : option Account) (e : Edited) : Prop :=
  cur ≫= ac_keyTag ≠ None → match e with Drop => False | Keep => True | Put e => ed_keyTag e = Same end.
Definition new_ok (e : Edited) : Prop := match e with Put e => new_tag_ok e | _ => True end.

Lemma change_keeps_tag label e m l tag :
  new_ok e → tag_kept (get_row label m) e → tag_of l m = Some tag → tag_of l (change mint label e m) = Some tag.
Proof.
  intros Hok Hk Ht. destruct (decide (l = label)) as [->|Hl]; [|unfold tag_of; rewrite change_other by done; exact Ht].
  unfold tag_kept in Hk. unfold tag_of in Ht. specialize (Hk ltac:(by rewrite Ht)).
  unfold change. destruct e as [| |e]; [done| |].
  - destruct (get_row label m) as [cur|] eqn:E; [|done]. destruct (change_to_keep label cur m E) as [H _].
    rewrite H. unfold tag_of. by rewrite E.
  - rewrite change_to_tag by done. by rewrite Hk.
Qed.
End rows.

(** ** Labels are trimmed once *)

Lemma trim_start_suffix s : ∃ p, s = p ++ trim_start s.
Proof.
  induction s as [|c s [p IH]]; [by exists []|]. cbn. destruct (is_space c); [|by exists []].
  exists (c :: p). cbn. by rewrite <-IH.
Qed.

Lemma trim_start_head s c s' : trim_start s = c :: s' → is_space c = false.
Proof. induction s as [|c0 s IH]; [done|]. cbn. destruct (is_space c0) eqn:E; [done|]. by intros [= <- <-]. Qed.

Lemma trim_start_again s : trim_start (trim_start s) = trim_start s.
Proof. destruct (trim_start s) as [|c s'] eqn:E; [done|]. apply trim_start_head in E. cbn. by rewrite E. Qed.

Lemma js_trim_again s : js_trim (js_trim s) = js_trim s.
Proof.
  unfold js_trim. set (t := trim_start s). destruct (trim_start_suffix (reverse t)) as [p Hp].
  set (u := trim_start (reverse t)) in *. assert (Hu : trim_start (reverse u) = reverse u).
  { apply (f_equal reverse) in Hp. rewrite reverse_involutive, reverse_app in Hp.
    destruct (reverse u) as [|c u'] eqn:E; [done|]. cbn in Hp. apply trim_start_head in Hp. cbn. by rewrite Hp. }
  rewrite Hu, reverse_involutive. by rewrite (trim_start_again (reverse t) : trim_start u = u).
Qed.

Lemma accountLabel_again raw : accountLabel (Some (accountLabel raw)) = accountLabel raw.
Proof. destruct raw as [s|]; [apply js_trim_again|done]. Qed.

(** ** One label, one master *)

Section masters.
Context {C : CryptoPrims} {L : CryptoLaws C} {K : Passkeys} {T : Type} {TB : Table T jsstr jsval} {TL : TableLaws T jsstr jsval}.
Context (mint seeds : nat → bytes).
Implicit Types m : Meta T.

(** [gen256BitSecureRandomSeed] draws 32 bytes. *)
Definition seeds_ok : Prop := ∀ i, blen (seeds i) = 32.

(** A task that takes no tag away, whatever it reads. *)
Fixpoint mild {A} (t : Task A) : Prop :=
  match t with
  | Done _ => True
  | Get _ k => ∀ x, mild (k x)
  | ListAll k => ∀ x, mild (k x)
  | Change _ edit k => (∀ cur, tag_kept cur (edit cur).1 ∧ (new_ok (edit cur).1)) ∧ ∀ b, mild (k b)
  | AssertKeyTag _ _ k => ∀ st, mild (k st)
  | Mint k => ∀ x, mild (k x)
  | DeleteDb _ k => mild k
  | ClearAll _ => False
  end.

Lemma mild_bind {A B} (t : Task A) (f : A → Task B) : mild t → (∀ a, mild (f a)) → mild (task_bind t f).
Proof.
  intros Ht Hf. induction t as [[a|st|]|l k IH|k IH|l edit k IH|e l k IH|k IH|n k IH|k IH]; cbn in *; auto.
  destruct Ht as [H1 H2]. auto.
Qed.

Lemma makeKeyTag_ok n e tag : blen n = 32 → makeKeyTag n e = Ok tag → tag_ok tag ∧ keyTagMatches e tag = Ok true.
Proof.
  intros Hn (h & Hh & [= <-])%res_bind_Ok_inv. unfold keyTagMatches. cbn [kt_n kt_h]. rewrite Hh, bytesEqual_refl. split; [|done].
  unfold keyTagDigest in Hh. apply res_bind_Ok_inv in Hh as (ch & Hc%deriveKey_len & Hh). unfold asChildKey in Hh. rewrite Hc in Hh.
  injection Hh as <-. split; cbn; [lia|done].
Qed.

Lemma tag_edit_mild tag cur : tag_ok tag → tag_kept cur (tag_edit tag cur).1 ∧ new_ok (tag_edit tag cur).1.
Proof.
  intros Ht. unfold tag_kept, tag_edit. destruct cur as [row|]; cbn.
  - destruct (ac_keyTag row); cbn; [done|]. split; [done|]. by intros t [= <-].
  - split; [done|]. by intros t [= <-].
Qed.

Lemma mild_step {A} (t t' : Task A) m m' :
  seeds_ok → mild t → task_step mint seeds t m = (t', m') →
  mild t' ∧ ∀ l tag, tag_of l m = Some tag → tag_of l m' = Some tag.
Proof.
  intros Hs Ht. destruct t as [r|l k|k|l edit k|e l k|k|n k|k]; cbn in Ht |- *; try (intros [= <- <-]; by split).
  - destruct (edit (get_row l m)) as [ed fl] eqn:E. intros [= <- <-]. destruct Ht as [He Hk]. specialize (He (get_row l m)).
    rewrite E in He. destruct He. split; [apply Hk|]. intros l' tag. by apply change_keeps_tag.
  - destruct (get_row l m ≫= ac_keyTag) as [tag|].
    + intros [= <- <-]. split; [|done]. destruct (keyTagMatches e tag); [apply Ht|done..].
    + intros [= <- <-]. split; [|done]. destruct (makeKeyTag _ e) as [tag|st|] eqn:E; [|apply Ht|done].
      apply makeKeyTag_ok in E as [Htag _]; [|apply Hs]. split; [intros cur; by apply tag_edit_mild|]. intros []; [done|apply Ht].
Qed.

(** *** Every call but [wipe] *)

Definition keeps_masters (c : Call) : Prop := match c with CWipe => False | _ => True end.

Lemma ring_edit_mild ring cur : tag_kept cur (ring_edit ring cur) ∧ new_ok (ring_edit ring cur).
Proof. unfold tag_kept, ring_edit. destruct ring as [r|], (cur ≫= ac_keyTag); by split. Qed.

Lemma boundLabel_mild {A} raw (k : Res jsstr → Task A) : (∀ name, mild (k name)) → mild (boundLabel raw k).
Proof. intros Hk. by destruct raw; cbn. Qed.

Lemma dataName_mild label : mild (dataName label).
Proof.
  cbn. intros [row|]; [|done]. destruct (present (ac_data row)); [done|]. cbn. split; [|done].
  intros [cur|]; split; unfold tag_kept, new_ok, new_tag_ok; cbn; done.
Qed.

Lemma ensureEnts_mild label : mild (ensureEnts label).
Proof.
  cbn. intros got. set (k := λ p : jsstr * jsstr, _).
  assert (Hk : ∀ p, mild (k p)).
  { intros [acct data]. cbn. split; [|done]. intros [cur|]; split; unfold tag_kept, new_ok, new_tag_ok; cbn; done. }
  unfold place. destruct (present _); [apply Hk|]. intros x. apply Hk.
Qed.

Lemma unlock_mild now : mild (unlock now).
Proof.
  cbn. intros rows. destruct (passkeyCreds rows []) as [[|c cs]| |]; try done.
  destruct (unsealWithPasskey _ _) as [[e credId]| |]; try done. destruct (find _ _); [|done].
  unfold unlock_as. intros got. destruct (match got ≫= ac_keyTag with None => _ | Some _ => _ end) as [[]| |]; try done.
  destruct (got ≫= ac_keyring) as [ring|]; [|done]. destruct (touchKeyring now ring credId) as [[next|]| |]; try done.
  split; [|done]. intros cur. apply ring_edit_mild.
Qed.

Lemma call_mild c : keeps_masters c → mild (call_task c).
Proof.
  intros Hc. destruct c; try done; unfold call_task, answer; (apply mild_bind; [|done]).
  - by cbn.
  - cbn. intros got. destruct (got ≫= ac_keyTag); [done|]. destruct (_ <? _); [done|]. by destruct (mix os musec).
  - apply dataName_mild.
  - apply ensureEnts_mild.
  - apply boundLabel_mild. by intros [].
  - unfold persistKeyring. destruct (match ring with Some _ => _ | None => _ end); try done.
    apply boundLabel_mild. intros []; try done. split; [|done]. intros cur. apply ring_edit_mild.
  - apply unlock_mild.
  - apply mild_bind; [apply dataName_mild|]. intros [data|]; [|done]. apply mild_bind; [apply ensureEnts_mild|done].
Qed.

(** *** What an answered [save] saw *)

Definition closes (e : Enclave) (k : Res unit → Task Answer) : Prop :=
  ∀ r, k r = Done (_ ← r; Ok (AEnclave e)).

(** On its way to answer [e], and only if the label's tag names [e]. *)
Inductive saving (e : Enclave) (label : jsstr) : Task Answer → Meta T → Prop :=
  | saving_assert k m : closes e k → saving e label (AssertKeyTag e label k) m
  | saving_write tag k m : closes e k → tag_ok tag → keyTagMatches e tag = Ok true →
      saving e label (Change label (tag_edit tag) (λ raced, if raced then AssertKeyTag e label k else k (Ok tt))) m
  | saving_failed r m : (∀ a, r ≠ Ok a) → saving e label (Done r) m
  | saving_done tag m : tag_of label m = Some tag → keyTagMatches e tag = Ok true → saving e label (Done (Ok (AEnclave e))) m.

Lemma saving_step e label t t' m m' :
  seeds_ok → saving e label t m → task_step mint seeds t m = (t', m') → saving e label t' m'.
Proof.
  intros Hs Ht. inversion Ht as [k m0 Hk|tag k m0 Hk Hok Hm|r m0 Hr|tag m0 Htag Hm]; subst; cbn; [| |by intros [= <- <-]..].
  - destruct (get_row label m ≫= ac_keyTag) as [tag|] eqn:E.
    + intros [= <- <-]. destruct (keyTagMatches e tag) as [[]| |] eqn:Em; try (by constructor); rewrite Hk; cbn.
      * by eapply saving_done.
      * by constructor.
    + intros [= <- <-]. destruct (makeKeyTag _ e) as [tag|st|] eqn:Em; [| |by constructor].
      * apply makeKeyTag_ok in Em as [? ?]; [|apply Hs]. by constructor.
      * rewrite Hk. by constructor.
  - destruct (tag_edit tag (get_row label m)) as [ed raced] eqn:E. intros [= <- <-]. unfold tag_edit in E.
    assert (Hw : ∀ side, saving e label (k (Ok tt)) (change mint label (Put (mkEdit None None None (New tag) side)) m)).
    { intros side. rewrite Hk. eapply (saving_done _ _ tag); [|done]. cbn [change]. rewrite change_to_tag; [done|]. by intros t0 [= <-]. }
    destruct (get_row label m) as [row|] eqn:Er; [|by injection E as <- <-].
    destruct (ac_keyTag row); injection E as <- <-; [by apply saving_assert|done].
Qed.

Lemma saving_later e label t m m' :
  (∀ l tag, tag_of l m = Some tag → tag_of l m' = Some tag) → saving e label t m → saving e label t m'.
Proof. intros Hm Ht. inversion Ht; subst; try (by constructor). eapply saving_done; [by apply Hm|done]. Qed.

(** What the task of a call that opens a label may become. *)
Inductive opening (label : jsstr) : Task Answer → Meta T → Prop :=
  | opening_reads l k m : (∀ got, (∃ st, k got = Done (Err st)) ∨ k got = Done Throw ∨ ∃ e, ∀ m', saving e label (k got) m') →
      opening label (Get l k) m
  | opening_saves e t m : saving e label t m → opening label t m.

Definition opens (c : Call) : option jsstr :=
  match c with CSave _ raw => Some (accountLabel raw) | CCreate label _ _ => Some (accountLabel (Some label)) | _ => None end.

Lemma call_opening c label m : opens c = Some label → opening label (call_task c) m.
Proof.
  intros Hc. destruct c as [e raw|l os musec| | | | | | |]; try done; injection Hc as <-.
  - apply (opening_saves _ e), saving_assert. by intros [[]| |].
  - constructor. intros got. destruct (got ≫= ac_keyTag); [by left; eexists|]. destruct (_ <? _); [by left; eexists|]. cbn.
    destruct (mix os musec) as [e|st|]; [|by left; eexists|by right; left]. right; right. exists e. intros m'.
    unfold save. cbn [accountLabel]. rewrite js_trim_again. apply saving_assert. by intros [[]| |].
Qed.

Lemma opening_step label t t' m m' :
  seeds_ok → opening label t m → task_step mint seeds t m = (t', m') → opening label t' m'.
Proof.
  intros Hs [l k m0 Hk|e t0 m0 Ht] Hst.
  - injection Hst as <- <-. destruct (Hk (get_row l m0)) as [[st ->]|[->|[e He]]]; [apply (opening_saves _ (mkEnclave [])); by constructor..|].
    by apply (opening_saves _ e).
  - apply (opening_saves _ e). by eapply saving_step.
Qed.

Lemma opening_later label t m m' :
  (∀ l tag, tag_of l m = Some tag → tag_of l m' = Some tag) → opening label t m → opening label t m'.
Proof. intros Hm Ho. inversion Ho as [|e]; subst; [by constructor|]. apply (opening_saves _ e). by apply (saving_later _ _ _ m). Qed.

(** [C11] A label keeps its master: whatever calls on the catalog interleave, in
    however many pages (saves, creations, unlocks, keyrings, names; not a wipe), a
    label that has a key tag keeps that very tag, and when a [save] or a
    [create] answered with an enclave, the tag of its label names that
    enclave's master.  So two masters are never both accepted under one label
    unless the tag's digest does not tell them apart. *)
Theorem label_keeps_master m0 evs :
  seeds_ok → (∀ c, PCall c ∈ evs → keeps_masters c) →
  let p := pages_run mint seeds evs (mkPages [] m0) in
  (∀ label tag, tag_of label m0 = Some tag → tag_of label (pg_meta p) = Some tag) ∧
  ∀ i c e label, pg_calls p !! i = Some (c, Done (Ok (AEnclave e))) → opens c = Some label →
    ∃ tag, tag_of label (pg_meta p) = Some tag ∧ keyTagMatches e tag = Ok true.
Proof.
  intros Hs Hevs p.
  cut ((∀ label tag, tag_of label m0 = Some tag → tag_of label (pg_meta p) = Some tag) ∧
    Forall (λ '(c, t), mild t ∧ ∀ label, opens c = Some label → opening label t (pg_meta p)) (pg_calls p)).
  { intros [Ht Hc]. split; [done|]. intros i c e label Hi Ho. rewrite Forall_lookup in Hc. apply Hc in Hi as [_ Hi].
    specialize (Hi _ Ho). inversion Hi as [|e' t m Hsv]; subst. inversion Hsv as [| |r ? Hr|]; subst; [by destruct (Hr (AEnclave e))|eauto]. }
  unfold p. clear p. induction evs as [|ev evs IH] using rev_ind; [by split|].
  unfold pages_run in *. rewrite fold_left_app. cbn [fold_left].
  destruct IH as [Ht Hc]; [intros c ?; apply Hevs; set_solver|]. set (p := fold_left _ evs _) in *.
  destruct ev as [c|i]; cbn [pages_step].
  - split; [done|]. apply Forall_app. split; [done|]. apply Forall_singleton.
    assert (Hk : keeps_masters c) by (apply Hevs; set_solver). split; [by apply call_mild|]. intros label Ho. by apply call_opening.
  - destruct (pg_calls p !! i) as [[c t]|] eqn:Ei; [|by split].
    destruct (task_step mint seeds t (pg_meta p)) as [t' m'] eqn:Est. cbn.
    assert (Hi := Ei). rewrite Forall_lookup in Hc. apply Hc in Hi as [Hmild Hop].
    destruct (mild_step _ _ _ _ Hs Hmild Est) as [Hmild' Hkeep]. split; [by intros label tag ?%Ht%Hkeep|].
    apply Forall_insert; [|by split; [|intros; eapply opening_step; [done|by apply Hop|done]]].
    apply Forall_lookup. intros j [c' t''] Hj. destruct (Hc _ _ Hj) as [? Ho]. split; [done|].
    intros label Hl. eapply opening_later; [done|by apply Ho].
Qed.
End masters.

(** ** A race over the database name *)

Section race.
Context {C : CryptoPrims} {L : CryptoLaws C} {K : Passkeys} {T : Type} {TB : Table T jsstr jsval} {TL : TableLaws T jsstr jsval}.
Context (mint seeds : nat → bytes).
Implicit Types m : Meta T.

(** [getRandomValues] fills 16 bytes. *)
Definition mints_ok : Prop := ∀ i, blen (mint i) = 16.

Lemma present_btoh bs : blen bs = 16 → present (Some (btoh bs)) = Some (btoh bs).
Proof. intros H. pose proof (btoh_length bs). unfold blen in H. destruct (btoh bs); [cbn in *; lia|done]. Qed.

Lemma present_data acct : present (Some (dataDbName acct)) = Some (dataDbName acct).
Proof. done. Qed.

(** A row that is written where there was none. *)
Lemma new_row label e m :
  mints_ok → get_row label m = None → ed_acct e = None → ed_data e = None →
  let id := btoh (mint (mt_mints m)) in
  ∃ row, get_row label (change mint label (Put e) m) = Some row ∧
    ac_acct row = Some id ∧ ac_data row = Some (dataDbName id) ∧ ac_ents row = present (ed_ents e).
Proof.
  intros Hm Hr Ha Hd id. destruct (change_to_fields mint label e m) as (kt & kr & H & _ & _).
  rewrite Hr, Ha, Hd in H.
  change (placeAccount _ _ _) with (id, dataDbName id) in H. eexists. split; [exact H|]. cbn [ac_acct ac_data ac_ents fst snd].
  split; [apply present_btoh, Hm|]. split; [done|]. by destruct (ed_ents e).
Qed.

Lemma ents_row_placed label acct data ents m :
  present (Some acct) = Some acct → present (Some data) = Some data → present (Some ents) = Some ents →
  ∃ row, get_row label (change mint label (ents_edit acct data ents (get_row label m)) m) = Some row ∧
    ac_acct row = Some acct ∧ ac_data row = Some data ∧ ac_ents row = Some ents.
Proof.
  intros Ha Hd He. destruct (change_to_fields mint label (mkEdit (Some acct) (Some data) (Some ents)
    (match get_row label m with Some _ => Same | None => Gone end) (match get_row label m with Some _ => Same | None => Gone end)) m)
    as (kt & kr & H & _ & _).
  assert (Hp : ∀ x, placeAccount (Some acct) (Some data) x = (acct, data)) by (intros x; unfold placeAccount; by rewrite Ha, Hd).
  cbn [ed_acct ed_data ed_ents orelse] in H. rewrite Hp in H. eexists. split; [exact H|]. by split_and!.
Qed.

(** The two turns of a call that reads where the data of a label is. *)
Lemma data_name_turns name calls m row d :
  get_row name m = Some row → ac_data row = Some d → present (Some d) = Some d →
  pages_step mint seeds (PTurn (length calls)) (pages_step mint seeds (PCall (CDataName name)) (mkPages calls m))
  = mkPages (calls ++ [(CDataName name, Done (Ok (AName (Some d))))]) m.
Proof.
  intros Hg Hdd Hp. unfold pages_step at 2. cbn [pg_calls pg_meta]. unfold pages_step. cbn [pg_calls pg_meta].
  rewrite list_lookup_middle by done. cbn [call_task answer dataName task_bind task_step]. rewrite Hg, Hdd, Hp. cbn [task_bind].
  by rewrite insert_app_r_alt, Nat.sub_diag.
Qed.

(** The three turns of a call that saves an enclave under a new label. *)
Lemma save_turns label e tag t0 m :
  let name := accountLabel (Some label) in
  get_row name m = None → makeKeyTag (seeds (mt_seeds m)) e = Ok tag →
  pages_step mint seeds (PTurn 1) (pages_step mint seeds (PTurn 1)
    (pages_step mint seeds (PCall (CSave e (Some label))) (mkPages [(CEnsureEnts label, t0)] m)))
  = mkPages [(CEnsureEnts label, t0); (CSave e (Some label), Done (Ok (AEnclave e)))]
      (change mint name (Put (mkEdit None None None (New tag) Gone)) (drew_seed m)).
Proof.
  intros name Hr Htag. set (ts := CSave e (Some label)).
  set (k := λ r : Res unit, task_bind (Done (_ ← r; Ok e)) (λ a, Done (Ok (AEnclave a)))).
  change (pages_step mint seeds (PCall ts) _) with (mkPages [(CEnsureEnts label, t0); (ts, AssertKeyTag e name k)] m).
  unfold pages_step at 2. cbn [pg_calls lookup list_lookup pg_meta task_step].
  rewrite Hr. cbn [mbind option_bind]. rewrite Htag.
  unfold pages_step. cbn [insert list_insert pg_calls lookup list_lookup pg_meta task_step].
  change (get_row name (drew_seed m)) with (get_row name m). rewrite Hr. cbn. done.
Qed.

(** [C40] Where names move: [ensureEnts], which every opening of an entity
    database calls, decides on the ids before it writes.  When the account is
    saved and its data database looked up in between, the write replaces the
    names: the database that was opened belongs to no row any more, and the
    next lookup, that of the sync worker, answers another one. *)
Theorem ensureEnts_moves_data m label e tag :
  let name := accountLabel (Some label) in
  mints_ok → mint (mt_mints m) ≠ mint (S (mt_mints m)) →
  get_row name m = None → makeKeyTag (seeds (mt_seeds m)) e = Ok tag →
  let p := pages_run mint seeds
    [PCall (CEnsureEnts label); PTurn 0; PTurn 0;                              (* row read, id drawn *)
     PCall (CSave e (Some label)); PTurn 1; PTurn 1; PCall (CDataName name); PTurn 2;
     PTurn 0;                                                                   (* row written *)
     PCall (CDataName name); PTurn 3] (mkPages [] m) in
  let d1 := dataDbName (btoh (mint (S (mt_mints m)))) in
  let d2 := dataDbName (btoh (mint (mt_mints m))) in
  pg_calls p !! 1%nat = Some (CSave e (Some label), Done (Ok (AEnclave e))) ∧
  pg_calls p !! 2%nat = Some (CDataName name, Done (Ok (AName (Some d1)))) ∧
  pg_calls p !! 3%nat = Some (CDataName name, Done (Ok (AName (Some d2)))) ∧
  d1 ≠ d2 ∧
  ∀ l row, get_row l (pg_meta p) = Some row → ac_data row = Some d1 → get_row l m = Some row.
Proof.
  intros name Hm Hne Hr Htag p d1 d2. revert p. unfold pages_run. cbn [fold_left].
  set (id0 := btoh (mint (mt_mints m))).
  set (t0 := Change name (plain (ents_edit id0 d2 (entsDbName id0))) (λ _, Done (Ok (AName (Some (entsDbName id0)))))).
  assert (H0 : pages_step mint seeds (PTurn 0) (pages_step mint seeds (PTurn 0) (pages_step mint seeds (PCall (CEnsureEnts label)) (mkPages [] m)))
    = mkPages [(CEnsureEnts label, t0)] (drew_mint m)).
  { cbn. fold name. change (js_trim label) with name. rewrite Hr. done. }
  rewrite H0. clear H0. set (m1 := drew_mint m).
  set (m2 := change mint name (Put (mkEdit None None None (New tag) Gone)) (drew_seed m1)).
  set (m3 := change mint name (ents_edit id0 d2 (entsDbName id0) (get_row name m2)) m2).
  assert (Hr2 : ∃ row, get_row name m2 = Some row ∧ ac_data row = Some d1).
  { destruct (new_row name (mkEdit None None None (New tag) Gone) (drew_seed m1) Hm Hr eq_refl eq_refl) as (row & H1 & _ & H2 & _). by exists row. }
  assert (Hr3 : ∃ row, get_row name m3 = Some row ∧ ac_data row = Some d2).
  { destruct (ents_row_placed name id0 d2 (entsDbName id0) m2) as (row & H1 & _ & H2 & _); [apply present_btoh, Hm|done|done|]. by exists row. }
  rewrite (save_turns label e tag t0 m1 Hr Htag). change (change mint _ _ _) with m2.
  destruct Hr2 as (row2 & Hg2 & Hd2). destruct Hr3 as (row3 & Hg3 & Hd3).
  rewrite (data_name_turns name [_; _] m2 row2 d1 Hg2 Hd2 eq_refl). cbn [app].
  assert (H2 : ∀ rest, pages_step mint seeds (PTurn 0) (mkPages ((CEnsureEnts label, t0) :: rest) m2)
    = mkPages ((CEnsureEnts label, Done (Ok (AName (Some (entsDbName id0))))) :: rest) m3) by done.
  rewrite H2, (data_name_turns name [_; _; _] m3 row3 d2 Hg3 Hd3 eq_refl). cbn [app pg_calls pg_meta lookup list_lookup].
  assert (Hd12 : d1 ≠ d2).
  { unfold d1, d2, dataDbName. intros E%app_inv_head%(inj btoh). exact (Hne (eq_sym E)). }
  split_and!; [done..| |].
  - intros E. by apply Hd12.
  - intros l row Hl Hdl. destruct (decide (l = name)) as [->|Hln].
    + rewrite Hg3 in Hl. injection Hl as <-. exfalso. apply Hd12. congruence.
    + unfold m3, m2 in Hl. by rewrite !change_other in Hl.
Qed.
End race.

(** ** The catalog is an account store *)

Section refines.
Context {C : CryptoPrims} {L : CryptoLaws C} {K : Passkeys} {T : Type} {TB : Table T jsstr jsval} {TL : TableLaws T jsstr jsval}.
Context (mint seeds : nat → bytes).
Implicit Types m : Meta T.

(** The tags of the catalog are the slots of [MemoryAccountStore]. *)
Definition same_tags m (slots : jsmap jsstr KeyTag) : Prop := ∀ label, tag_of label m = map_get label slots.

Abbreviation turns n t m := (Nat.iter n (λ tm, task_step mint seeds tm.1 tm.2) (t, m)).

Lemma turns_S {A} n (t : Task A) m : turns (S n) t m = turns n (task_step mint seeds t m).1 (task_step mint seeds t m).2.
Proof. rewrite Nat.iter_succ_r. cbn [fst snd]. by rewrite <-surjective_pairing. Qed.

Lemma tag_edit_new tag cur : cur ≫= ac_keyTag = None → (tag_edit tag cur).2 = false.
Proof. destruct cur as [row|]; [|done]. unfold tag_edit. cbn. by intros ->. Qed.

(** Alone, a call is its turns one after the other. *)
Lemma run_is_turns {A} (t : Task A) m r m' :
  task_run mint seeds t m = (r, m') → ∃ n, turns n t m = (Done r, m').
Proof.
  revert m. induction t as [r0|l k IH|k IH|l edit k IH|e l k IH|k IH|n k IH|k IH]; cbn [task_run]; intros m H.
  - injection H as -> ->. by exists 0%nat.
  - destruct (IH _ _ H) as [n Hn]. exists (S n). by rewrite turns_S.
  - destruct (IH _ _ H) as [n Hn]. exists (S n). by rewrite turns_S.
  - destruct (edit (get_row l m)) as [ed fl] eqn:E. destruct (IH _ _ H) as [n Hn]. exists (S n).
    rewrite turns_S. cbn [task_step]. by rewrite E.
  - destruct (get_row l m ≫= ac_keyTag) as [tag|] eqn:Et.
    + destruct (keyTagMatches e tag) as [hit|st|] eqn:Em;
        [destruct (IH _ _ H) as [n Hn]; exists (S n); rewrite turns_S; cbn [task_step]; by rewrite Et, Em
        |injection H as <- <-; exists 1%nat; cbn; by rewrite Et, Em..].
    + destruct (makeKeyTag _ e) as [tag|st|] eqn:Em.
      * destruct (IH _ _ H) as [n Hn]. exists (S (S n)). rewrite !turns_S. cbn [task_step]. rewrite Et, Em. cbn [fst snd task_step].
        change (get_row l (drew_seed m)) with (get_row l m). pose proof (tag_edit_new tag _ Et) as Hf.
        destruct (tag_edit tag (get_row l m)) as [ed []]; [done|]. exact Hn.
      * destruct (IH _ _ H) as [n Hn]. exists (S n). rewrite turns_S. cbn [task_step]. by rewrite Et, Em.
      * injection H as <- <-. exists 1%nat. cbn. by rewrite Et, Em.
  - destruct (IH _ _ H) as [n Hn]. exists (S n). by rewrite turns_S.
  - destruct (IH _ H) as [n' Hn]. exists (S n'). by rewrite turns_S.
  - destruct (IH _ H) as [n' Hn]. exists (S n'). by rewrite turns_S.
Qed.

Lemma delete_dbs_run {A} rows (k : Task A) m :
  ∃ dbs, task_run mint seeds (delete_dbs rows k) m = task_run mint seeds k (mkMeta (mt_accounts m) dbs (mt_mints m) (mt_seeds m)) ∧
    (∀ d, d ∈ dbs ↔ d ∈ mt_dbs m ∧ ∀ row, row ∈ rows → ac_data row ≠ Some d ∧ ac_ents row ≠ Some d).
Proof.
  assert (Hd : ∀ name (k : Task A) m, ∃ dbs, task_run mint seeds (delete_db name k) m =
      task_run mint seeds k (mkMeta (mt_accounts m) dbs (mt_mints m) (mt_seeds m)) ∧ (∀ d, d ∈ dbs ↔ d ∈ mt_dbs m ∧ name ≠ Some d)).
  { intros [name|] k' m'.
    - eexists. split; [reflexivity|]. intros d. rewrite list_elem_of_filter. split; [intros [? ?]; split; [done|congruence]|intros [? ?]; split; [congruence|done]].
    - exists (mt_dbs m'). split; [by destruct m'|]. naive_solver. }
  revert m. induction rows as [|row rows IH]; intros m; cbn [delete_dbs].
  - exists (mt_dbs m). split; [by destruct m|]. set_solver.
  - destruct (Hd (ac_data row) (delete_db (ac_ents row) (delete_dbs rows k)) m) as (d1 & -> & H1).
    edestruct (Hd (ac_ents row) (delete_dbs rows k)) as (d2 & -> & H2). edestruct IH as (d3 & -> & H3).
    cbn [mt_accounts mt_mints mt_seeds mt_dbs] in *. exists d3. split; [done|]. intros d. rewrite H3, H2, H1. set_solver.
Qed.

(** The catalog does what the in-memory account store does: a [save] that
    nothing interrupts answers the same, for a new label, for its master and for
    another one, and leaves the same tags; it is its turns one after the other;
    a wipe leaves no account and none of the databases their rows name. *)
Theorem catalog_refines_memory {W} e raw m s (f : FC W) :
  seeds_ok seeds → same_tags m (fc_slots f) →
  (∃ r m' f', task_run mint seeds (save e raw) m = (r, m') ∧
     account_save (seeds (mt_seeds m)) e raw (s, f) = (r, (s, f')) ∧ same_tags m' (fc_slots f') ∧
     ∃ n, turns n (save e raw) m = (Done r, m')) ∧
  ∃ m', task_run mint seeds account_wipe m = (Ok tt, m') ∧ same_tags m' [] ∧
    ∀ d, d ∈ mt_dbs m' ↔ d ∈ mt_dbs m ∧ ∀ row, row ∈ list_rows m → ac_data row ≠ Some d ∧ ac_ents row ≠ Some d.
Proof.
  intros Hs Hr. split.
  - destruct (task_run mint seeds (save e raw) m) as [r m'] eqn:E. pose proof (run_is_turns _ _ _ _ E) as Hn.
    exists r, m'. unfold save in E. cbn [task_run] in E. unfold account_save. set (label := accountLabel raw) in *.
    unfold mbind, M_bind, m_bind, ask, tell, m_lift, mret, M_ret, m_ret, m_err. cbv beta iota. rewrite <-Hr.
    change (get_row label m ≫= ac_keyTag) with (tag_of label m) in E.
    destruct (tag_of label m) as [tag|] eqn:Et.
    + assert (Hsame : same_tags m (map_set label tag (fc_slots f))).
      { intros l. rewrite map_get_set. case_decide as El; [by subst|apply Hr]. }
      destruct (keyTagMatches e tag) as [[]|st|] eqn:Em; cbn in E |- *; injection E as <- <-;
        [by eexists; split_and!|by eexists; split_and!|by unfold keyTagMatches in Em; destruct (keyTagDigest _ _)|by eexists; split_and!].
    + destruct (makeKeyTag _ e) as [tag|st|] eqn:Em; cbn in E |- *; [|injection E as <- <-; eexists; by split_and!..].
      injection E as <- <-. eexists. split; [done|]. split; [done|]. split; [|done]. intros l. cbn [fc_slots upd_slots].
      apply makeKeyTag_ok in Em as [Hok _]; [|apply Hs]. change (get_row label (drew_seed m)) with (get_row label m).
      rewrite map_get_set. case_decide as El; [subst l|unfold tag_of; rewrite change_other by done; apply Hr].
      assert (Hed : ∃ side, (tag_edit tag (get_row label m)).1 = Put (mkEdit None None None (New tag) side)).
      { unfold tag_edit. unfold tag_of in Et. destruct (get_row label m) as [row|]; [|by eexists]. cbn in Et. rewrite Et. by eexists. }
      destruct Hed as [side ->]. cbn [change]. rewrite change_to_tag; [done|]. by intros t0 [= <-].
  - unfold account_wipe. cbn [task_run]. destruct (delete_dbs_run (list_rows m) (ClearAll (Done (Ok tt))) m) as (dbs & -> & Hd).
    cbn [task_run]. eexists. split; [done|]. split; [|exact Hd]. intros l. unfold tag_of, get_row. cbn. by rewrite tb_get_clear.
Qed.
End refines.

(** ** A keyring holds one master *)

Section keyring.
Context {C : CryptoPrims} {L : CryptoLaws C} {K : Passkeys} {W : Type} {H : KeyringHost W}.
Implicit Types (r : Keyring) (s : PrfStore) (w : W).

(** The tag of the entry is that of [e] for its credential, and so is that of the
    master its seal holds. *)
Definition bound_to (e : Enclave) (x : KeyringEntry) : Prop :=
  bindTag e (ke_credId x) = Ok (ke_tag x) ∧
  ∃ e' prf, inner_unseal (ke_sealedMaster x) prf = Ok e' ∧ bindTag e' (ke_credId x) = Ok (ke_tag x).

Definition one_master r : Prop :=
  (∃ e, Forall (bound_to e) (kr_entries r)) ∧ NoDup (ke_credId <$> kr_entries r) ∧ ring_ok r.

Lemma Forall_entry_insert (P : KeyringEntry → Prop) (es : list KeyringEntry) i x : Forall P es → P x → Forall P (<[i := x]> es).
Proof. intros. by apply Forall_insert. Qed.

(** An update that keeps what a binding is. *)
Definition same_binding (x y : KeyringEntry) : Prop :=
  ke_sealedMaster x = ke_sealedMaster y ∧ ke_credId x = ke_credId y ∧ ke_tag x = ke_tag y.

Lemma one_master_update r i x y :
  kr_entries r !! i = Some y → same_binding x y → one_master r → one_master (mkKeyring (kr_salt r) (<[i := x]> (kr_entries r))).
Proof.
  intros Hi (Hs & Hc & Ht) ((e & He) & Hn & Hok). unfold one_master, ring_ok. cbn [kr_entries]. split; [|split].
  - exists e. apply Forall_entry_insert; [done|]. rewrite Forall_lookup in He. specialize (He _ _ Hi). unfold bound_to in *. by rewrite Hs, Hc, Ht.
  - rewrite list_fmap_insert, Hc. rewrite list_insert_id; [done|]. by rewrite list_lookup_fmap, Hi.
  - apply Forall_entry_insert; [done|]. unfold ring_ok in Hok. rewrite Forall_lookup in Hok. specialize (Hok _ _ Hi). unfold entry_ok in *. by rewrite Hs, Ht.
Qed.

Lemma touch_same r now credId r' :
  touchKeyring now r credId = Ok (Some r') → one_master r → one_master r'.
Proof.
  unfold touchKeyring. destruct (_ =? _); [done|]. destruct (find_cred _ _) as [[i x]|] eqn:Ef; [|done].
  intros (es & [-> Hok]%cloneEntries_inv & Hr)%res_bind_Ok_inv. apply find_cred_Some in Ef as (Hi & _). rewrite Hi in Hr.
  injection Hr as <-. by eapply one_master_update.
Qed.

Lemma filter_one_master r (P : KeyringEntry → Prop) `{∀ x, Decision (P x)} :
  one_master r → one_master (mkKeyring (kr_salt r) (filter P (kr_entries r))).
Proof.
  intros ((e & He) & Hn & Hok). assert (Hf : ∀ Q : KeyringEntry → Prop, Forall Q (kr_entries r) → Forall Q (filter P (kr_entries r))).
  { intros Q HQ. rewrite Forall_forall in HQ. apply Forall_forall. intros x [_ Hx]%list_elem_of_filter. by apply HQ. }
  split; [|split; [|by apply Hf]].
  - exists e. by apply Hf.
  - eapply sublist_NoDup; [exact Hn|]. apply fmap_sublist, sublist_filter.
Qed.

Lemma upsert_one_master r next stored e :
  upsertEntry r next = Ok stored → Forall (bound_to e) (kr_entries r) → NoDup (ke_credId <$> kr_entries r) →
  bound_to e next → entry_ok next →
  one_master stored ∧ kr_salt stored = kr_salt r ∧
  (∃ x, x ∈ kr_entries stored ∧ same_binding x next) ∧
  (∀ y, y ∈ kr_entries r → ke_credId y ≠ ke_credId next → y ∈ kr_entries stored).
Proof.
  intros (es & [-> Hok]%cloneEntries_inv & [= <-])%res_bind_Ok_inv He Hn Hnext Hnok. cbn [kr_salt kr_entries].
  destruct (find_cred _ _) as [[i prev]|] eqn:Ef.
  - apply find_cred_Some in Ef as (Hi & Hc & _). set (x := replacing prev next).
    assert (Hlt : (i < length (kr_entries r))%nat) by (by eapply lookup_lt_Some). split; [|split; [done|split]].
    + split; [|split]; cbn [kr_entries].
      * exists e. by apply Forall_entry_insert.
      * rewrite list_fmap_insert. change (ke_credId x) with (ke_credId next). rewrite list_insert_id; [done|]. by rewrite list_lookup_fmap, Hi, <-Hc.
      * by apply Forall_entry_insert.
    + exists x. split; [|done]. apply list_elem_of_lookup. exists i. by apply list_lookup_insert_eq.
    + intros y (j & Hj)%list_elem_of_lookup Hy. apply list_elem_of_lookup. exists j. rewrite list_lookup_insert_ne; [done|]. intros ->. congruence.
  - apply find_cred_None in Ef. split; [|split; [done|split]].
    + split; [|split]; cbn [kr_entries].
      * exists e. apply Forall_app. split; [done|]. by apply Forall_singleton.
      * rewrite fmap_app. apply NoDup_app. split; [done|]. split; [|apply NoDup_singleton]. intros c Hc ->%list_elem_of_singleton. done.
      * apply Forall_app. split; [done|]. by apply Forall_singleton.
    + exists next. split; [|done]. set_solver.
    + intros y Hy _. set_solver.
Qed.

(** ** Every operation *)

Definition store_one_master s : Prop := ∀ r, ps_keyring s = Some r → one_master r.

Lemma priors_tagged e ring :
  check_priors e (priors ring) = Ok tt ↔ ∀ r, ring = Some r → Forall (λ x, bindTag e (ke_credId x) = Ok (ke_tag x)) (kr_entries r).
Proof.
  rewrite check_priors_spec. destruct ring as [r|]; cbn [priors]; [|by split; [|constructor]].
  rewrite Forall_fmap. split; [by intros HF r' [= <-]|]. intros HF. by apply HF.
Qed.

(** What a bind that gets past its ceremony stores. *)
Lemma bind_stored nonce now os e opts (ring : option Keyring) sealed tag stored :
  enclave_ok e → length nonce = 24%nat → (∀ r, ring = Some r → one_master r) →
  bind e nonce (bind_opts opts ring) (priors ring) = Ok (sealed, tag) →
  upsertEntry (default (mkKeyring (sm_salt sealed) []) ring) (bound_entry now os (trimNick (bo_nick opts)) sealed tag) = Ok stored →
  (∀ r, ring = Some r → Forall (bound_to e) (kr_entries r)) ∧ one_master stored ∧
  ∃ x prf, x ∈ kr_entries stored ∧ same_binding x (bound_entry now os (trimNick (bo_nick opts)) sealed (ke_tag x)) ∧
    sealPRF (bind_opts opts ring) = Ok (prf, sm_salt sealed, sm_ceremony sealed) ∧
    inner_unseal (ke_sealedMaster x) prf = Ok e ∧ kr_salt stored = default (sm_salt sealed) (kr_salt <$> ring) ∧
    ∀ r y, ring = Some r → y ∈ kr_entries r → ke_credId y ≠ ke_credId x → y ∈ kr_entries stored.
Proof.
  intros He Hn Hs Eb Eu. pose proof (bind_keeps_one_master e nonce _ _ _ _ He Hn Eb) as (Hp & Hall & prf & Hprf & Hu).
  rewrite <-check_priors_spec, priors_tagged in Hp.
  apply check_priors_spec, Forall_app in Hall as [_ Htag]. rewrite Forall_singleton in Htag. cbn [bp_credId bp_tag] in Htag.
  assert (Hb : ∀ r, ring = Some r → Forall (bound_to e) (kr_entries r)).
  { intros r Er. destruct (Hs r Er) as ((e0 & H0) & _ & _). specialize (Hp r Er). rewrite Forall_forall in H0, Hp.
    apply Forall_forall. intros x Hx. split; [by apply Hp|]. apply (H0 x Hx). }
  set (next := bound_entry now os (trimNick (bo_nick opts)) sealed tag) in *. set (base := default _ ring) in *.
  destruct (upsert_one_master base next stored e Eu) as (H1 & H2 & (x & Hx & Hxs) & H4).
  { unfold base. destruct ring as [r|]; [by apply Hb|constructor]. }
  { unfold base. destruct ring as [r|]; [by apply (Hs r)|apply NoDup_nil_2]. }
  { split; [exact Htag|]. exists e, prf. by split. }
  { unfold entry_ok, next, bound_entry. cbn [ke_sealedMaster ke_tag]. split; [|by apply deriveKey_len in Htag].
    unfold inner_unseal, asSealedMasterKey in Hu. apply res_bind_Ok_inv in Hu as (? & Hl & _). by destruct (Z.eqb_spec (blen (sm_sealed sealed)) SEALED_MASTER_KEY_LEN). }
  split; [done|]. split; [done|]. pose proof Hxs as (Hxs1 & Hxs2 & Hxs3). exists x, prf. rewrite Hxs3. split_and!; try done.
  - by rewrite Hxs1.
  - rewrite H2. unfold base. by destruct ring.
  - intros r y -> Hy Hne. apply H4; [done|by rewrite <-Hxs2].
Qed.

(** What binding does, on every outcome. *)
Lemma bind_spec nonce now os e opts s w (r : Res Enclave) s' w' :
  enclave_ok e → length nonce = 24%nat → store_one_master s →
  bindAndSave nonce now os e opts (s, w) = (r, (s', w')) →
  match r with
  | Ok e' => e' = e ∧ ps_enclave s' = Some e ∧ (∀ ring, ps_keyring s = Some ring → Forall (bound_to e) (kr_entries ring)) ∧
      ∃ stored x sealed prf, ps_keyring s' = Some stored ∧ one_master stored ∧ kh_persist (Some stored) w = (Ok tt, w') ∧
        x ∈ kr_entries stored ∧ same_binding x (bound_entry now os (trimNick (bo_nick opts)) sealed (ke_tag x)) ∧
        sealPRF (bind_opts opts (ps_keyring s)) = Ok (prf, sm_salt sealed, sm_ceremony sealed) ∧
        inner_unseal (ke_sealedMaster x) prf = Ok e ∧
        kr_salt stored = default (sm_salt sealed) (kr_salt <$> ps_keyring s) ∧
        ∀ ring y, ps_keyring s = Some ring → y ∈ kr_entries ring → ke_credId y ≠ ke_credId x → y ∈ kr_entries stored
  | _ => s' = s
  end.
Proof.
  intros He Hn Hs. unfold bindAndSave, ps_get, ps_put, on_host. unfold mbind, M_bind, m_bind, m_lift, m_err, mret, M_ret, m_ret. cbv beta iota.
  destruct (negb _ && _); [by intros [= <- <- <-]|].
  destruct (bind e nonce _ _) as [[sealed tag]|st|] eqn:Eb; [|by intros [= <- <- <-]..].
  destruct (upsertEntry _ _) as [stored|st|] eqn:Eu; [|by intros [= <- <- <-]..].
  destruct (kh_persist (Some stored) w) as [[[]|st|] w1] eqn:Ek; [|by intros [= <- <- <-]..].
  intros [= <- <- <-]. destruct (bind_stored _ _ _ _ _ _ _ _ _ He Hn Hs Eb Eu) as (Hb & H1 & x & prf & H2).
  split; [done|]. split; [done|]. split; [done|]. exists stored, x, sealed, prf. naive_solver.
Qed.

(** The host sees of it one keyring of one master, or nothing. *)
Lemma bind_host nonce now os e opts s w (r : Res Enclave) s' w' :
  enclave_ok e → length nonce = 24%nat → store_one_master s →
  bindAndSave nonce now os e opts (s, w) = (r, (s', w')) →
  w' = w ∨ ∃ stored (out : Res unit), one_master stored ∧ kh_persist (Some stored) w = (out, w').
Proof.
  intros He Hn Hs. unfold bindAndSave, ps_get, ps_put, on_host. unfold mbind, M_bind, m_bind, m_lift, m_err, mret, M_ret, m_ret. cbv beta iota.
  destruct (negb _ && _); [intros [= <- <- <-]; by left|].
  destruct (bind e nonce _ _) as [[sealed tag]|st|] eqn:Eb; [|intros [= <- <- <-]; by left..].
  destruct (upsertEntry _ _) as [stored|st|] eqn:Eu; [|intros [= <- <- <-]; by left..].
  destruct (bind_stored _ _ _ _ _ _ _ _ _ He Hn Hs Eb Eu) as (_ & H1 & _).
  destruct (kh_persist (Some stored) w) as [r1 w1] eqn:Ek. intros Hq. right. exists stored, r1. split; [done|].
  rewrite Ek. destruct r1 as [[]|st|]; by injection Hq as _ _ <-.
Qed.

(** A salt handed to a bind of a keyring that has one seals the new binding but is
    stored nowhere: the keyring keeps its own, and an unlock asks with that. *)
Lemma bind_salt_lost nonce now os e opts s w s' w' ring salt :
  enclave_ok e → length nonce = 24%nat → store_one_master s → ps_keyring s = Some ring → bo_salt opts = Some salt →
  bindAndSave nonce now os e opts (s, w) = (Ok e, (s', w')) →
  (∃ prf cer, sealPRF (bind_opts opts (Some ring)) = Ok (prf, salt, cer)) ∧ kr_salt <$> ps_keyring s' = Some (kr_salt ring).
Proof.
  intros He Hn Hs Hr Hsalt Hb.
  destruct (bind_spec _ _ _ _ _ _ _ _ _ _ He Hn Hs Hb) as (_ & _ & _ & st & x & sealed & prf & Hst & _ & _ & _ & _ & Hp & _ & Hks & _).
  rewrite Hr in Hp, Hks. rewrite Hst. cbn. split; [|by rewrite Hks]. exists prf, (sm_ceremony sealed). rewrite Hp. do 3 f_equal.
  unfold sealPRF, bind_opts in Hp. rewrite Hsalt in Hp. cbn [po_salt default] in Hp.
  apply res_bind_Ok_inv in Hp as (created & _ & Hp). destruct created as [c|]; cbn in Hp.
  - destruct (pr_prf c); [by injection Hp|]. apply res_bind_Ok_inv in Hp as ([? ?] & _ & Hp). by injection Hp.
  - apply res_bind_Ok_inv in Hp as ([? ?] & _ & Hp). by injection Hp.
Qed.

(** A host whose state keeps [I]: so does persisting a keyring of one master, and
    an unlock, whose answer is one. *)
Definition host_keeps (I : W → Prop) : Prop :=
  (∀ ring w (out : Res unit) w', I w → (∀ r, ring = Some r → one_master r) → kh_persist ring w = (out, w') → I w') ∧
  (∀ pick w (out : Res (Enclave * option Keyring)) w', kh_unlock = Some pick → I w → pick w = (out, w') →
     I w' ∧ ∀ e r, out = Ok (e, Some r) → one_master r).

Inductive PrfOp :=
  | OSave (e : Enclave) (raw : option jsstr) (persist : bool)
  | OBind (nonce : bytes) (now : Z) (os : option jsstr) (e : Enclave) (opts : BindOpts)
  | OUnlock (now : Z)
  | ORename (credId : bytes) (nick : jsstr)
  | ORemove (credId : bytes)
  | OWipe.

Definition op_sound (o : PrfOp) : Prop :=
  match o with OBind nonce _ _ e _ => enclave_ok e ∧ length nonce = 24%nat | _ => True end.

Definition prf_op (o : PrfOp) (sw : PrfStore * W) : PrfStore * W :=
  match o with
  | OSave e raw persist => (prf_save e raw persist sw).2
  | OBind nonce now os e opts => (bindAndSave nonce now os e opts sw).2
  | OUnlock now => (prf_unlock now sw).2
  | ORename credId nick => (prf_rename credId nick sw).2
  | ORemove credId => (prf_remove credId sw).2
  | OWipe => (prf_wipe sw).2
  end.

Ltac open_pm := unfold mbind, M_bind, m_bind, ps_get, ps_put, on_host, m_lift, m_err, m_ignore, mret, M_ret, m_ret; cbv beta iota.

Lemma op_one_master I o s w :
  host_keeps I → op_sound o → store_one_master s → I w →
  store_one_master (prf_op o (s, w)).1 ∧ I (prf_op o (s, w)).2.
Proof.
  intros [Hp Hu] Ho Hs Hw. destruct o as [e raw persist|nonce now os e opts|now|credId nick|credId|]; cbn [prf_op op_sound] in *.
  - unfold prf_save. open_pm. destruct (singleAccountLabel _ _ _); try done. by destruct persist.
  - destruct (bindAndSave nonce now os e opts (s, w)) as [r [s' w']] eqn:E. destruct Ho as [He Hn]. split.
    + pose proof (bind_spec _ _ _ _ _ _ _ _ _ _ He Hn Hs E) as HB. destruct r as [e'| |]; cbn; [|by rewrite HB..].
      destruct HB as (_ & _ & _ & stored & ? & ? & ? & Hk & Hm & _). intros r. rewrite Hk. by intros [= <-].
    + destruct (bind_host _ _ _ _ _ _ _ _ _ _ He Hn Hs E) as [->|(stored & out & Hm & Ek)]; [done|]. eapply (Hp (Some stored)); [exact Hw| |exact Ek]. by intros r0 [= <-].
  - unfold prf_unlock. open_pm. destruct kh_unlock as [pick|] eqn:Eh.
    + destruct (pick w) as [out w1] eqn:Ep. destruct (Hu pick w out w1 eq_refl Hw Ep) as [Hw1 Ho1].
      destruct out as [[e ring]|st|]; cbn; [|done..]. destruct ring as [r|]; cbn; [|done].
      destruct (cloneKeyring r) as [c|st|] eqn:Ec; cbn; [|done..]. apply cloneKeyring_inv in Ec as [-> _]. split; [|done]. intros r' [= <-]. by eapply Ho1.
    + destruct (ps_keyring s) as [[salt [|x es]]|] eqn:Er; [done| |done]. set (ring := mkKeyring salt (x :: es)) in *.
      assert (Hring : ∀ e, store_one_master (mkPrfStore (Some e) (Some ring) (ps_label s))) by (intros e r [= <-]; by apply Hs).
      destruct (unsealWithPasskey _ _) as [[e credId]|st|]; [|done..].
      destruct (touchKeyring _ _ _) as [[next|]|st|] eqn:Et; try (split; [apply Hring|done]).
      assert (Hn : one_master next) by (eapply touch_same; [exact Et|]; by apply Hs).
      destruct (kh_persist (Some next) w) as [out w1] eqn:Ek.
      assert (Hw1 : I w1) by (eapply (Hp (Some next)); [exact Hw| |exact Ek]; by intros r0 [= <-]).
      destruct out as [[]|st|]; (split; [|exact Hw1]); try apply Hring. by intros r [= <-].
  - unfold prf_rename. open_pm. destruct (ps_keyring s) as [ring|] eqn:Er; [|done]. destruct (find_cred _ _) as [[i x]|]; [|done].
    destruct (cloneEntries _) as [es|st|] eqn:Ec; [|done..]. apply cloneEntries_inv in Ec as [-> _].
    destruct (_ !! i) as [cur|] eqn:Ei; [|done]. set (next := mkKeyring _ _).
    assert (Hn : one_master next) by (eapply one_master_update; [exact Ei|done|]; by apply Hs).
    destruct (kh_persist (Some next) w) as [out w1] eqn:Ek.
    assert (Hw1 : I w1) by (eapply (Hp (Some next)); [exact Hw| |exact Ek]; by intros r0 [= <-]).
    destruct out as [[]|st|]; [|done..]. split; [|done]. by intros r [= <-].
  - unfold prf_remove. open_pm. destruct (ps_keyring s) as [ring|] eqn:Er; [|done]. set (es := filter _ _).
    destruct (Nat.eqb _ _); [done|]. assert (Hf : one_master (mkKeyring (kr_salt ring) es)) by (apply filter_one_master; by apply Hs).
    assert (Hpn : ∀ out w1, kh_persist None w = (out, w1) → I w1) by (intros out w1; by apply (Hp None)).
    destruct es as [|x es]; [destruct (kh_persist None w) as [[[]|st|] w1] eqn:Ek; (split; [done|by eapply Hpn])|].
    destruct (cloneEntries _) as [copied|st|] eqn:Ec; [|done..]. apply cloneEntries_inv in Ec as [-> _].
    destruct (kh_persist (Some _) w) as [out w1] eqn:Ek. assert (Hw1 : I w1) by (eapply Hp; [exact Hw| |exact Ek]; by intros r [= <-]).
    destruct out as [[]|st|]; [|done..]. split; [|done]. by intros r [= <-].
  - unfold prf_wipe. open_pm. assert (Hpn : ∀ out w1, kh_persist None w = (out, w1) → I w1) by (intros out w1; by apply (Hp None)).
    destruct (kh_persist None w) as [[[]|st|] w1] eqn:Ek; (split; [done|by eapply Hpn]).
Qed.
End keyring.

(** ** A bound passkey opens its account again *)

(** Which credentials an unlock offers. *)
Section creds.

Definition cred_of (label : jsstr) (salt : bytes) (y : KeyringEntry) : PasskeyCred := mkCred label salt (ke_sealedMaster y) (ke_credId y).

Lemma find_cred_id (out : list PasskeyCred) id :
  match find (λ c, bytesEqual (cr_credId c) id) out with
  | Some c => c ∈ out ∧ cr_credId c = id
  | None => id ∉ cr_credId <$> out
  end.
Proof.
  induction out as [|c out IH]; cbn [find]; [by intros ?%elem_of_nil|]. destruct (bytesEqual (cr_credId c) id) eqn:E.
  - apply bytesEqual_spec in E. by split; [left|].
  - apply bytesEqual_false in E. destruct (find _ out) as [c'|]; [set_solver|]. set_solver.
Qed.

Lemma add_cred_spec label salt y out out' :
  add_cred label salt y out = Ok out' → NoDup (cr_credId <$> out) →
  NoDup (cr_credId <$> out') ∧
  (out' = out ∧ (0 < blen (ke_credId y) → ∃ c, c ∈ out ∧ cr_label c = label ∧ cr_credId c = ke_credId y) ∨ out' = out ++ [cred_of label salt y]).
Proof.
  unfold add_cred. intros Ha Hn. destruct (Z.eqb_spec (blen (ke_credId y)) 0) as [Hz|Hz].
  - injection Ha as <-. split; [done|]. left. split; [done|]. lia.
  - pose proof (find_cred_id out (ke_credId y)) as Hf. destruct (find _ out) as [c|].
    + case_bool_decide; [|done]. injection Ha as <-. split; [done|]. left. split; [done|]. intros _. exists c. naive_solver.
    + injection Ha as <-. split; [|by right]. rewrite fmap_app. apply NoDup_app. split; [done|].
      split; [|apply NoDup_singleton]. intros x Hx ->%list_elem_of_singleton. done.
Qed.

(** The entries of one account, none of whose credentials is listed under its
    label before. *)
Lemma add_creds_spec label salt es out out' :
  add_creds label salt es out = Ok out' → NoDup (cr_credId <$> out) → NoDup (ke_credId <$> es) →
  (∀ c, c ∈ out → cr_label c = label → cr_credId c ∉ ke_credId <$> es) →
  NoDup (cr_credId <$> out') ∧ (∀ c, c ∈ out → c ∈ out') ∧ (∀ c, c ∈ out' → c ∈ out ∨ cr_label c = label) ∧
  ∀ y, y ∈ es → 0 < blen (ke_credId y) → cred_of label salt y ∈ out'.
Proof.
  revert out. induction es as [|y es IH]; cbn [add_creds]; intros out Ha Hn He Hd.
  - injection Ha as <-. split_and!; [done..|naive_solver|]. by intros y ?%elem_of_nil.
  - apply res_bind_Ok_inv in Ha as (out1 & H1 & Ha). rewrite fmap_cons in He. apply NoDup_cons in He as [Hy He].
    destruct (add_cred_spec _ _ _ _ _ H1 Hn) as [Hn1 Hout1]. destruct (IH out1 Ha Hn1 He) as (G1 & G2 & G3 & G4).
    { intros c Hc Hl. destruct Hout1 as [[-> _]| ->]; [set_solver|].
      apply elem_of_app in Hc as [Hc|Hc%list_elem_of_singleton]; [set_solver|]. by subst. }
    split; [done|]. split; [|split].
    + intros c Hc. apply G2. destruct Hout1 as [[-> _]| ->]; set_solver.
    + intros c [Hc|?]%G3; [|by right]. destruct Hout1 as [[-> _]| ->]; [by left|].
      apply elem_of_app in Hc as [?|Hc%list_elem_of_singleton]; [by left|right; by subst].
    + intros z [->|Hz]%elem_of_cons Hpos; [|by apply G4]. apply G2.
      destruct Hout1 as [[-> Hc]| ->]; [|set_solver]. destruct (Hc Hpos) as (c & Hc1 & Hc2 & Hc3). exfalso.
      apply (Hd c Hc1 Hc2). rewrite Hc3. set_solver.
Qed.

Lemma passkeyCreds_spec rows out creds :
  passkeyCreds rows out = Ok creds → NoDup (ac_label <$> rows) → NoDup (cr_credId <$> out) →
  (∀ c, c ∈ out → cr_label c ∉ ac_label <$> rows) → (∀ a r, a ∈ rows → ac_keyring a = Some r → NoDup (ke_credId <$> kr_entries r)) →
  NoDup (cr_credId <$> creds) ∧ (∀ c, c ∈ out → c ∈ creds) ∧
  ∀ a r y, a ∈ rows → ac_keyring a = Some r → y ∈ kr_entries r → 0 < blen (ke_credId y) → cred_of (ac_label a) (kr_salt r) y ∈ creds.
Proof.
  revert out. induction rows as [|a rows IH]; cbn [passkeyCreds]; intros out Hp Hl Hn Hd Hr.
  - injection Hp as <-. split_and!; [done..|]. by intros a r y ?%elem_of_nil.
  - apply res_bind_Ok_inv in Hp as (out1 & H1 & Hp). rewrite fmap_cons in Hl. apply NoDup_cons in Hl as [Hal Hl].
    assert (H1' : NoDup (cr_credId <$> out1) ∧ (∀ c, c ∈ out → c ∈ out1) ∧ (∀ c, c ∈ out1 → c ∈ out ∨ cr_label c = ac_label a) ∧
      ∀ r y, ac_keyring a = Some r → y ∈ kr_entries r → 0 < blen (ke_credId y) → cred_of (ac_label a) (kr_salt r) y ∈ out1).
    { destruct (ac_keyring a) as [r|] eqn:Er.
      - destruct (add_creds_spec _ _ _ _ _ H1 Hn) as (G1 & G2 & G3 & G4); [eapply Hr; [left|done]|set_solver|].
        split_and!; [done..|]. intros r' y [= <-]; apply G4.
      - injection H1 as <-. split_and!; [done..|naive_solver|done]. }
    destruct H1' as (G1 & G2 & G3 & G4). destruct (IH out1 Hp Hl G1) as (K1 & K2 & K3).
    { intros c [Hc| ->]%G3; [|done]. set_solver. }
    { intros a' r Ha' Er. eapply Hr; [by right|done]. }
    split; [done|]. split; [by intros c ?%G2%K2|]. intros a' r y [->|Ha']%elem_of_cons Er Hy Hpos; [by apply K2, (G4 r y)|by eapply K3].
Qed.
End creds.

Section reopen.
Context {C : CryptoPrims} {L : CryptoLaws C} {K : Passkeys} {T : Type} {TB : Table T jsstr jsval} {TL : TableLaws T jsstr jsval}.
Context (mint seeds : nat → bytes).
Implicit Types m : Meta T.

(** Rows are stored under their label, the key path of the store. *)
Definition keyed m : Prop := ∀ label row, get_row label m = Some row → ac_label row = label.

Lemma keyed_change label e m : keyed m → keyed (change mint label (Put e) m).
Proof.
  intros Hk l row. destruct (decide (l = label)) as [->|Hl]; [|rewrite change_other by done; apply Hk].
  destruct (change_to_fields mint label e m) as (kt & kr & H & _). cbn [change]. rewrite H. by intros [= <-].
Qed.

Lemma list_rows_get label row m : get_row label m = Some row → row ∈ list_rows m.
Proof.
  unfold get_row, list_rows. intros (raw & Hr & Hd)%bind_Some. apply list_elem_of_omap. exists (label, raw).
  split; [by apply tb_rows_get|done].
Qed.

Lemma list_rows_in row m : keyed m → row ∈ list_rows m → get_row (ac_label row) m = Some row.
Proof.
  intros Hk ([k raw] & Hin & Hd)%list_elem_of_omap. apply tb_rows_get in Hin. cbn in Hd.
  assert (Hg : get_row k m = Some row) by (unfold get_row; by rewrite Hin). by rewrite (Hk _ _ Hg).
Qed.

Lemma list_rows_labels m : keyed m → NoDup (ac_label <$> list_rows m).
Proof.
  intros Hk. unfold list_rows. pose proof (tb_rows_once (mt_accounts m)) as Hn.
  assert (Hin : ∀ k raw row, (k, raw) ∈ tb_rows (mt_accounts m) → decodeAccount raw = Some row → ac_label row = k).
  { intros k raw row Hin%tb_rows_get Hd. apply Hk. unfold get_row. by rewrite Hin. }
  induction (tb_rows (mt_accounts m)) as [|[k raw] rows IH]; [apply NoDup_nil_2|]. rewrite fmap_cons in Hn. apply NoDup_cons in Hn as [Hni Hn].
  cbn. specialize (IH Hn ltac:(intros; eapply Hin; [by right|done])). destruct (decodeAccount raw) as [row|] eqn:Ed; [|done].
  cbn. apply NoDup_cons. split; [|done]. rewrite (Hin k raw row) by (done || left).
  intros (row' & El & ([k' raw'] & Hin' & Hd')%list_elem_of_omap)%list_elem_of_fmap. apply Hni. apply list_elem_of_fmap.
  exists (k', raw'). split; [|done]. cbn. rewrite El. eapply Hin; [by right|done].
Qed.

Lemma ring_edit_after label r m :
  plain_ring r → let m' := change mint label (ring_edit (Some r) (get_row label m)) m in
  ring_of label m' = Some r ∧ tag_of label m' = tag_of label m ∧ (keyed m → keyed m') ∧ ∀ l, l ≠ label → get_row l m' = get_row l m.
Proof.
  intros Hr m'. unfold m', ring_edit. set (e := mkEdit _ _ _ _ _). split_and!.
  - cbn [change]. rewrite change_to_ring; [done|]. by intros r' [= <-].
  - cbn [change]. rewrite change_to_tag; [|unfold new_tag_ok, e; cbn; by destruct (_ ≫= ac_keyTag)]. unfold e. cbn [ed_keyTag].
    change (get_row label m ≫= ac_keyTag) with (tag_of label m). by destruct (tag_of label m).
  - apply keyed_change.
  - intros l Hl. by apply change_other.
Qed.

Lemma touch_plain now r credId r' : touchKeyring now r credId = Ok (Some r') → plain_ring r → plain_ring r'.
Proof.
  unfold touchKeyring. destruct (_ =? _); [done|]. destruct (find_cred _ _) as [[i x]|] eqn:Ef; [|done].
  intros (es & [-> Hok]%cloneEntries_inv & Hr)%res_bind_Ok_inv [Hp Hn]. apply find_cred_Some in Ef as (Hi & _). rewrite Hi in Hr.
  injection Hr as <-. split; cbn [kr_entries].
  - apply Forall_entry_insert; [done|]. rewrite Forall_lookup in Hp. exact (Hp _ _ Hi).
  - intros E. apply (f_equal length) in E. rewrite length_insert in E. by destruct (kr_entries r).
Qed.

Lemma touch_present now r credId x :
  ring_ok r → x ∈ kr_entries r → ke_credId x = credId → 0 < blen credId → ∃ r', touchKeyring now r credId = Ok (Some r').
Proof.
  intros Hok Hx Hc Hpos. unfold touchKeyring. rewrite (proj2 (Z.eqb_neq _ _)) by lia.
  destruct (find_cred credId (kr_entries r)) as [[i y]|] eqn:Ef.
  - apply find_cred_Some in Ef as (Hi & _). rewrite cloneEntries_ok by done. cbn. rewrite Hi. by eexists.
  - apply find_cred_None in Ef. exfalso. apply Ef. rewrite <-Hc. by apply list_elem_of_fmap_2.
Qed.

(** What the ceremony of an unlock is asked. *)
Definition unlock_request (creds : list PasskeyCred) : PrfEvalReq :=
  let salt := default [] (cr_salt <$> head creds) in
  let salts := prf_salts (cred_binding <$> creds) salt in
  mkEvalReq salts.*1 salt (if existsb (λ s, negb (bytesEqual s.2 salt)) salts then Some salts else None).

Lemma find_binding creds c :
  NoDup (cr_credId <$> creds) → c ∈ creds →
  (∃ i, list_find (λ w, bytesEqual (pb_credId w) (cr_credId c) = true) (cred_binding <$> creds) = Some (i, cred_binding c)) ∧
  find (λ d, bytesEqual (cr_credId d) (cr_credId c)) creds = Some c.
Proof.
  induction creds as [|d creds IH]; [by intros _ ?%elem_of_nil|]. rewrite fmap_cons. intros [Hni Hn]%NoDup_cons [<-|Hc]%elem_of_cons.
  - cbn. rewrite bytesEqual_refl. split; [|done]. exists 0%nat. by rewrite decide_True.
  - destruct (IH Hn Hc) as [[i Hi] Hf]. cbn [find list_find fmap list_fmap].
    assert (Hne : bytesEqual (cr_credId d) (cr_credId c) = false).
    { apply bytesEqual_false. intros E. apply Hni. rewrite E. by apply list_elem_of_fmap_2. }
    rewrite Hne. split; [|done]. exists (S i). cbn [list_find pb_credId cred_binding]. rewrite decide_False by (cbn; congruence). by rewrite Hi.
Qed.

(** An unlock whose ceremony answers with a credential and the key material its
    binding was sealed under. *)
Lemma unlock_answers now m label r x prf ev e creds :
  keyed m → (∀ l r, ring_of l m = Some r → NoDup (ke_credId <$> kr_entries r)) →
  ring_of label m = Some r → plain_ring r → x ∈ kr_entries r → 0 < blen (ke_credId x) →
  inner_unseal (ke_sealedMaster x) prf = Ok e → (∀ tag, tag_of label m = Some tag → keyTagMatches e tag = Ok true) →
  passkeyCreds (list_rows m) [] = Ok creds → evalPrf (unlock_request creds) = Ok (prf, ev) → pc_credId ev = ke_credId x →
  ∃ m' r', task_run mint seeds (unlock now) m = (Ok (e, label), m') ∧ ring_of label m' = Some r' ∧ plain_ring r' ∧
    tag_of label m' = tag_of label m.
Proof.
  intros Hk Hn Hr Hp Hx Hpos Hu Ht Hcr Hev Hcid. unfold ring_of in Hr. apply bind_Some in Hr as (row & Hrow & Hring).
  destruct (passkeyCreds_spec _ _ _ Hcr (list_rows_labels m Hk)) as (Hnd & _ & Hall); [apply NoDup_nil_2|by intros c ?%elem_of_nil| |].
  { intros a r' Ha Er. apply (Hn (ac_label a)). unfold ring_of. by rewrite (list_rows_in _ _ Hk Ha). }
  pose proof (Hall row r x (list_rows_get _ _ _ Hrow) Hring Hx Hpos) as Hc. rewrite (Hk _ _ Hrow) in Hc.
  destruct (find_binding _ _ Hnd Hc) as [[i Hf] Hfind].
  assert (Hun : unsealWithPasskey (cred_binding <$> creds) (default [] (cr_salt <$> head creds)) = Ok (e, ke_credId x)).
  { unfold unsealWithPasskey, unsealPRF. destruct creds as [|c0 creds]; [by apply elem_of_nil in Hc|].
    unfold unlock_request in Hev. cbn [fmap list_fmap]. cbn [fmap list_fmap] in Hev. rewrite Hev. cbn [mbind Res_bind res_bind].
    rewrite Hcid. unfold unseal_order. cbn [fmap list_fmap cr_credId cred_of] in Hf. rewrite Hf. cbn [try_unseal].
    cbn [pb_sealed cred_binding cr_sealedMaster cred_of]. by rewrite Hu. }
  assert (Hrun : task_run mint seeds (unlock now) m = task_run mint seeds (unlock_as now e (ke_credId x) label) m).
  { unfold unlock. cbn [task_run]. rewrite Hcr. destruct creds as [|c0 creds]; [by apply elem_of_nil in Hc|].
    change (default [] (cr_salt <$> head (c0 :: creds))) with (cr_salt c0) in Hun. rewrite Hun. cbn [cr_credId cred_of] in Hfind. by rewrite Hfind. }
  rewrite Hrun. unfold unlock_as. cbn [task_run]. rewrite Hrow. cbn [mbind option_bind]. rewrite Hring.
  assert (Hnamed : match ac_keyTag row with None => Ok true | Some tag => keyTagMatches e tag end = Ok true).
  { destruct (ac_keyTag row) as [tag|] eqn:E; [|done]. apply Ht. unfold tag_of. by rewrite Hrow. }
  rewrite Hnamed.
  assert (Hrok : ring_ok r) by (destruct Hp as [Hp _]; eapply Forall_impl; [exact Hp|]; by intros y [? _]).
  destruct (touch_present now r _ x Hrok Hx eq_refl Hpos) as [r' Htouch]. rewrite Htouch. cbn [task_run plain].
  pose proof (touch_plain _ _ _ _ Htouch Hp) as Hp'. destruct (ring_edit_after label r' m Hp') as (H1 & H2 & _).
  eexists _, r'. split; [reflexivity|]. done.
Qed.

(** [C13] A bound passkey opens its account again: when [bindAndSave] on the
    keyring of an account answers, the account's row holds that keyring, the
    same account opened from the catalog later finds it, and an unlock whose
    ceremony answers with the credential and the key material the binding was
    made with opens that account with the master bound, the account's tag
    permitting; no credential may be bound under two labels. *)
Theorem bound_passkey_reopens m label s nonce now os e opts s' m' bound :
  keyed m → (∀ l r, ring_of l m = Some r → NoDup (ke_credId <$> kr_entries r)) → accountLabel (Some label) = label →
  store_one_master s → enclave_ok e → length nonce = 24%nat →
  bindAndSave (H := account_keyring mint seeds now) nonce now os e opts (s, (m, Some label)) = (Ok e, (s', (m', bound))) →
  (∀ stored, ps_keyring s' = Some stored → plain_ring stored) →
  (∀ tag, tag_of label m = Some tag → keyTagMatches e tag = Ok true) →
  ∃ stored x prf salt cer,
    sealPRF (bind_opts opts (ps_keyring s)) = Ok (prf, salt, cer) ∧
    ps_keyring s' = Some stored ∧ x ∈ kr_entries stored ∧ ke_credId x = pc_credId cer ∧ bound = Some label ∧
    openPrfStore mint seeds (Some label) m' = (Ok (mkPrfStore None (Some stored) None), Some label, m') ∧
    ∀ s1 now' other creds ev,
      0 < blen (ke_credId x) → passkeyCreds (list_rows m') [] = Ok creds →
      evalPrf (unlock_request creds) = Ok (prf, ev) → pc_credId ev = ke_credId x →
      ∃ s2 m2, prf_unlock (H := account_keyring mint seeds now') now' (s1, (m', other)) = (Ok e, (s2, (m2, Some label))) ∧
        ps_enclave s2 = Some e ∧ ps_keyring s2 = ring_of label m2.
Proof.
  intros Hk Hn Hl Hs He Hnonce Hbind Hplain Ht.
  pose proof (bind_spec (H := account_keyring mint seeds now) _ _ _ _ _ _ _ _ _ _ He Hnonce Hs Hbind) as
    (_ & _ & _ & stored & x & sealed & prf & Hst & Hone & Hpersist & Hx & Hsame & Hprf & Hu & _).
  pose proof (Hplain _ Hst) as Hp. destruct Hone as (_ & Hnd & Hrok).
  exists stored, x, prf, (sm_salt sealed), (sm_ceremony sealed).
  assert (Hm' : m' = change mint label (ring_edit (Some stored) (get_row label m)) m ∧ bound = Some label).
  { cbn [kh_persist account_keyring] in Hpersist. unfold persistKeyring in Hpersist. rewrite cloneKeyring_ok in Hpersist by done.
    cbn [mbind Res_bind res_bind boundLabel] in Hpersist. rewrite Hl in Hpersist. cbn [task_run plain] in Hpersist. by injection Hpersist as <- <-. }
  destruct Hm' as [Hm' ->]. destruct (ring_edit_after label stored m Hp) as (Hring & Htag & Hkeyed & Hother). rewrite <-Hm' in Hring, Htag, Hkeyed, Hother.
  assert (Hload : task_run mint seeds (loadKeyring (Some label)) m' = (Ok (Some stored), m')).
  { unfold loadKeyring, boundLabel. rewrite Hl. cbn [task_run]. unfold ring_of in Hring. by rewrite Hring. }
  split; [exact Hprf|]. split; [done|]. split; [done|]. split; [by destruct Hsame as (_ & -> & _)|]. split; [done|]. split.
  - unfold openPrfStore, boundLabel. rewrite Hl. cbn [task_run]. rewrite Hload. cbn [prf_open]. by rewrite cloneKeyring_ok.
  - intros s1 now' other creds ev Hpos Hcr Hev Hcid.
    destruct (unlock_answers now' m' label stored x prf ev e creds) as (m2 & r2 & Hrun & Hr2 & Hp2 & _); try done.
    { by apply Hkeyed. }
    { intros l r Hlr. destruct (decide (l = label)) as [->|Hne]; [by simplify_eq|]. apply (Hn l). unfold ring_of in *. by rewrite <-Hother. }
    { intros tag. rewrite Htag. apply Ht. }
    assert (Hload2 : task_run mint seeds (loadKeyring (Some label)) m2 = (Ok (Some r2), m2)).
    { unfold loadKeyring, boundLabel. rewrite Hl. cbn [task_run]. unfold ring_of in Hr2. by rewrite Hr2. }
    eexists _, m2. split; [|split].
    + unfold prf_unlock. cbn [kh_unlock account_keyring]. unfold mbind, M_bind, m_bind, ps_get, ps_put, on_host, m_lift, mret, M_ret, m_ret.
      rewrite Hrun, Hload2. rewrite cloneKeyring_ok; [reflexivity|]. destruct Hp2 as [Hp2 _]. eapply Forall_impl; [exact Hp2|]. by intros y [? _].
    + done.
    + done.
Qed.
End reopen.

(** ** The catalog's keyrings hold one master each *)

Section catalog.
Context {C : CryptoPrims} {L : CryptoLaws C} {K : Passkeys} {T : Type} {TB : Table T jsstr jsval} {TL : TableLaws T jsstr jsval}.
Context (mint seeds : nat → bytes).
Implicit Types m : Meta T.

(** What a stored binding reads back as may lack ornaments. *)
Lemma decodeEntry_same e : entry_ok e → ∃ e', decodeEntry (val_entry e) = Some e' ∧ same_binding e' e.
Proof.
  intros [H1 H2]. unfold decodeEntry. change (field "type" (val_entry e)) with (VStr (js "prf")).
  change (field "sealedMaster" (val_entry e)) with (VBytes (ke_sealedMaster e)).
  change (field "credId" (val_entry e)) with (VBytes (ke_credId e)).
  change (field "tag" (val_entry e)) with (VBytes (ke_tag e)).
  change (field "enrolledAt" (val_entry e)) with (VNum (Some (ke_enrolledAt e))).
  unfold asSealedMasterKey, asChildKey. cbn [isRec val_entry as_str as_bytes as_num mbind option_bind].
  rewrite bool_decide_eq_true_2 by done. cbn [andb negb]. rewrite H1, H2, !Z.eqb_refl. cbn [negb res_opt mbind option_bind].
  eexists. by split.
Qed.

Lemma decodeKeyring_same r r' : decodeKeyring (val_keyring r) = Some r' → one_master r → one_master r'.
Proof.
  unfold decodeKeyring. change (isRec (val_keyring r)) with true. cbn [negb].
  change (field "salt" (val_keyring r)) with (VBytes (kr_salt r)).
  change (field "entries" (val_keyring r)) with (VArr (val_entry <$> kr_entries r)). cbn [as_bytes as_arr mbind option_bind].
  intros Hd ((e & He) & Hn & Hok). assert (Hf : Forall2 same_binding (omap (M := list) decodeEntry (val_entry <$> kr_entries r)) (kr_entries r)).
  { clear Hd He Hn. unfold ring_ok in Hok. induction Hok as [|x es Hx _ IH]; [constructor|]. cbn.
    destruct (decodeEntry_same x Hx) as (x' & -> & Hs). by constructor. }
  assert (Hr : Forall2 same_binding (kr_entries r') (kr_entries r)) by (destruct (omap _ _); [done|]; by injection Hd as <-).
  clear Hd Hf. split; [exists e|split].
  - clear Hn Hok. induction Hr as [|x y xs ys (Hs & Hc & Ht) _ IH]; [constructor|]. apply Forall_cons in He as [Hy He].
    constructor; [|by apply IH]. unfold bound_to in *. by rewrite Hs, Hc, Ht.
  - assert (ke_credId <$> kr_entries r' = ke_credId <$> kr_entries r) as ->; [|done]. clear -Hr.
    induction Hr as [|x y xs ys (_ & Hc & _) _ IH]; [done|]. cbn. by rewrite Hc, IH.
  - unfold ring_ok in *. clear He Hn. induction Hr as [|x y xs ys (Hs & _ & Ht) _ IH]; [constructor|]. apply Forall_cons in Hok as [Hy Hok].
    constructor; [|by apply IH]. unfold entry_ok in *. by rewrite Hs, Ht.
Qed.

(** Each account's keyring, read back, is of one master. *)
Definition rings_one m : Prop := ∀ l r, ring_of l m = Some r → one_master r.

Lemma rings_one_put label e m :
  rings_one m → (∀ r, ed_keyring e = New r → one_master r) → rings_one (change mint label (Put e) m).
Proof.
  intros Hm Hnew l r. destruct (decide (l = label)) as [->|Hl].
  2: { unfold ring_of. rewrite change_other by done. apply Hm. }
  cbn [change]. unfold change_to. cbn [andb]. set (m' := match present _ with Some _ => m | None => _ end).
  unfold ring_of. rewrite get_row_put, decode_val. cbn [mbind option_bind ac_keyring].
  change (get_row label m ≫= ac_keyring) with (ring_of label m). destruct (ed_keyring e) as [| |r0] eqn:Ee; cbn [side_val].
  - done.
  - destruct (ring_of label m) as [r1|] eqn:Er; [|done]. destruct (get_row_fields label m) as [[_ Hring]|Hnone]; [|unfold ring_of in Er; by rewrite Hnone in Er].
    rewrite Er in Hring. cbn [mbind option_bind]. destruct (field "keyring" _) as [| | | | | | |]; try done; rewrite <-Hring; intros [= <-]; by eapply Hm.
  - cbn [mbind option_bind]. intros Hd. eapply decodeKeyring_same; [exact Hd|]. by apply Hnew.
Qed.

Lemma rings_one_edit label ring m :
  rings_one m → (∀ r, ring = Some r → one_master r) → rings_one (change mint label (ring_edit ring (get_row label m)) m).
Proof.
  intros Hm Hr. destruct ring as [r|]; cbn [ring_edit].
  - apply rings_one_put; [done|]. intros r' [= <-]. by apply Hr.
  - destruct (get_row label m ≫= ac_keyTag) eqn:Et; [by apply rings_one_put|]. cbn [change]. destruct (get_row label m) eqn:Eg; [|done].
    intros l r'. destruct (decide (l = label)) as [->|Hl].
    + unfold ring_of, get_row. cbn. by rewrite tb_get_delete, decide_True.
    + unfold ring_of, get_row. cbn. rewrite tb_get_delete, decide_False by done. apply Hm.
Qed.

Lemma persist_rings ring raw m :
  rings_one m → (∀ r, ring = Some r → one_master r) → rings_one (task_run mint seeds (persistKeyring ring raw) m).2.
Proof.
  intros Hm Hr. unfold persistKeyring. destruct (match ring with None => _ | Some r => _ end) as [copy|st|] eqn:Ec; [|done..].
  assert (Hc : ∀ r, copy = Some r → one_master r).
  { destruct ring as [r|]; [|by injection Ec as <-]. apply res_bind_Ok_inv in Ec as (r' & [-> _]%cloneKeyring_inv & [= <-]). intros r0 [= <-]. by apply Hr. }
  assert (Hrun : ∀ name : Res jsstr, rings_one (task_run mint seeds (match name with
      Ok name => Change name (plain (ring_edit copy)) (λ _, Done (Ok tt)) | Err st => Done (Err st) | Throw => Done Throw end) m).2).
  { intros [name|st|]; [|done..]. cbn [task_run plain snd]. by apply rings_one_edit. }
  unfold boundLabel. destruct raw as [l|]; [apply (Hrun (Ok (accountLabel (Some l))))|]. cbn [task_run].
  destruct (list_rows m) as [|one [|]]; [apply (Hrun (Err NotFound))|apply (Hrun (Ok (ac_label one)))|apply (Hrun (Err InvalidParam))].
Qed.

Lemma unlock_rings now m : rings_one m → rings_one (task_run mint seeds (unlock now) m).2.
Proof.
  intros Hm. unfold unlock. cbn [task_run]. destruct (passkeyCreds _ _) as [[|first creds]|st|]; [done| |done..].
  destruct (unsealWithPasskey _ _) as [[e credId]|st|]; [|done..]. destruct (find _ _) as [hit|]; [|done].
  unfold unlock_as. cbn [task_run]. destruct (match _ with None => Ok true | Some tag => _ end) as [[]|st|]; [|done..].
  destruct (get_row (cr_label hit) m ≫= ac_keyring) as [ring|] eqn:Er; [|done].
  destruct (touchKeyring now ring credId) as [[next|]|st|] eqn:Et; [|done..]. cbn [task_run plain snd].
  apply (rings_one_edit _ (Some next)); [done|]. intros r [= <-]. eapply touch_same; [exact Et|]. by apply (Hm (cr_label hit)).
Qed.

(** The host the store has: the catalog, which persists the keyring in the
    account's row and unlocks by picking an account. *)
Lemma account_host_keeps now : host_keeps (H := account_keyring mint seeds now) (λ w, rings_one w.1).
Proof.
  split.
  - intros ring [m bound] out w' Hm Hr. cbn [kh_persist account_keyring]. pose proof (persist_rings ring bound m Hm Hr) as Hp.
    destruct (task_run mint seeds (persistKeyring ring bound) m) as [r m']. by intros [= _ <-].
  - intros pick [m bound] out w' Hpick Hm. cbn [kh_unlock account_keyring] in Hpick. pose proof (unlock_rings now m Hm) as Hu.
    remember (unlock now) as t eqn:Et. injection Hpick as <-. destruct (task_run mint seeds t m) as [[[e label]|st|] m1].
    2, 3: intros Hq; simplify_eq; by split.
    unfold loadKeyring, boundLabel. cbn [task_run]. intros Hq. simplify_eq. split; [exact Hu|]. intros e' r [= _ Hr].
    by apply (Hu (accountLabel (Some label))).
Qed.

(** [C12] One keyring, one master, through every operation of a store whose host
    is the account catalog, its only one: start from a catalog and a store whose
    keyrings, if any, hold each the tags of one master, one binding per
    credential.  After any saves, binds (with any 32-byte enclaves and 24-byte nonces, on any outcome),
    unlocks (which may pick another account), renamings, removals and wipes,
    every keyring in memory and in the catalog still does, and each seal holds
    a master with the tag of its binding.  A bind that
    succeeds was made with a master every earlier binding is tagged by, adds
    the binding of its ceremony, whose seal opens to that master, keeps the other
    bindings, and is persisted as it is in memory; one that fails leaves the
    store as it was. *)
Theorem keyring_keeps_one_master ops s0 m0 bound0 clock nonce now os e opts :
  rings_one m0 → store_one_master s0 → Forall (op_sound ∘ snd) ops → enclave_ok e → length nonce = 24%nat →
  let '(s, (m, bound)) := fold_left (λ sw '(t, o), prf_op (H := account_keyring mint seeds t) o sw) ops (s0, (m0, bound0)) in
  store_one_master s ∧ rings_one m ∧
  let '(r, (s', (m', bound'))) := bindAndSave (H := account_keyring mint seeds clock) nonce now os e opts (s, (m, bound)) in
  rings_one m' ∧ bound' = bound ∧
  match r with
  | Ok e' => e' = e ∧ ps_enclave s' = Some e ∧ (∀ ring, ps_keyring s = Some ring → Forall (bound_to e) (kr_entries ring)) ∧
      ∃ stored x sealed prf, ps_keyring s' = Some stored ∧ one_master stored ∧
        task_run mint seeds (persistKeyring (Some stored) bound) m = (Ok tt, m') ∧
        x ∈ kr_entries stored ∧ same_binding x (bound_entry now os (trimNick (bo_nick opts)) sealed (ke_tag x)) ∧
        sealPRF (bind_opts opts (ps_keyring s)) = Ok (prf, sm_salt sealed, sm_ceremony sealed) ∧
        inner_unseal (ke_sealedMaster x) prf = Ok e ∧
        kr_salt stored = default (sm_salt sealed) (kr_salt <$> ps_keyring s) ∧
        ∀ ring y, ps_keyring s = Some ring → y ∈ kr_entries ring → ke_credId y ≠ ke_credId x → y ∈ kr_entries stored
  | _ => s' = s
  end.
Proof.
  intros Hm Hs Hops He Hn. revert s0 m0 bound0 Hm Hs. induction Hops as [|[t o] ops Ho _ IH]; intros s m bound Hm Hs; cbn [fold_left].
  - split; [done|]. split; [done|]. destruct (bindAndSave _ _ _ _ _ _) as [r [s' [m' bound']]] eqn:E.
    pose proof (bind_spec (H := account_keyring mint seeds clock) _ _ _ _ _ _ _ _ _ _ He Hn Hs E) as HB.
    assert (Hh : rings_one m' ∧ bound' = bound).
    { destruct (bind_host (H := account_keyring mint seeds clock) _ _ _ _ _ _ _ _ _ _ He Hn Hs E) as [[= -> ->]|(stored & out & H1 & Hk)]; [done|].
      cbn [kh_persist account_keyring] in Hk. pose proof (persist_rings (Some stored) bound m Hm ltac:(by intros r0 [= <-])) as Hp.
      destruct (task_run _ _ _ m) as [r1 m1]. by injection Hk as _ <- <-. }
    split; [apply Hh|]. split; [apply Hh|]. destruct r as [e'|st|]; [|done..].
    destruct HB as (H1 & H2 & H3 & stored & x & sealed & prf & H4 & H5 & H6 & H7). do 3 (split; [done|]). exists stored, x, sealed, prf.
    do 2 (split; [done|]). split; [|done]. cbn [kh_persist account_keyring] in H6. destruct (task_run _ _ _ m) as [r1 m1]. by injection H6 as -> ->.
  - destruct (op_one_master (H := account_keyring mint seeds t) (λ w, rings_one w.1) o s (m, bound) (account_host_keeps t) Ho Hs Hm) as [H1 H2].
    destruct (prf_op _ _) as [s1 [m1 b1]]. by apply IH.
Qed.
End catalog.

(** ** Concrete runs *)

Module AccountsDemo.
Import Box PairDemo.

Abbreviation accounts := (gmap jsstr jsval).
Definition mint (i : nat) : bytes := be_bytes 16 (Z.of_nat i).
Definition seeds (i : nat) : bytes := be_bytes 32 (Z.of_nat i).
Definition m0 : Meta accounts := mkMeta ∅ [] 0 0.

Lemma seeds0_ok : seeds_ok seeds.
Proof. intros i. apply be_bytes_len. Qed.
Lemma mints0_ok : mints_ok mint.
Proof. intros i. apply be_bytes_len. Qed.

Definition e1 : Enclave := mkEnclave (be_bytes 32 7).

(** Two pages save under the default label at once. *)
Definition both_save : list PageEvent :=
  [PCall (CSave e0 None); PCall (CSave e1 None); PTurn 0; PTurn 1; PTurn 0; PTurn 1; PTurn 1].

Lemma label_keeps_master_witness :
  let p := pages_run mint seeds both_save (mkPages [] m0) in
  (∃ tag, tag_of [] (pg_meta p) = Some tag ∧ keyTagMatches e0 tag = Ok true) ∧
  pg_calls p !! 1%nat = Some (CSave e1 None, Done (Err HashMismatch)).
Proof.
  split; [|vm_compute; reflexivity].
  destruct (label_keeps_master mint seeds m0 both_save seeds0_ok) as [_ H].
  - intros c Hc. destruct c; try exact I. exfalso. unfold both_save in Hc.
    repeat (apply elem_of_cons in Hc as [Hc|Hc]; [discriminate Hc|]). by apply elem_of_nil in Hc.
  - apply (H 0%nat (CSave e0 None) e0 []); [vm_compute; reflexivity|reflexivity].
Defined.

Lemma ensureEnts_moves_data_witness :
  let p := pages_run mint seeds
    [PCall (CEnsureEnts []); PTurn 0; PTurn 0; PCall (CSave e0 (Some [])); PTurn 1; PTurn 1; PCall (CDataName []); PTurn 2;
     PTurn 0; PCall (CDataName []); PTurn 3] (mkPages [] m0) in
  pg_calls p !! 2%nat = Some (CDataName [], Done (Ok (AName (Some (dataDbName (btoh (mint 1))))))) ∧
  pg_calls p !! 3%nat = Some (CDataName [], Done (Ok (AName (Some (dataDbName (btoh (mint 0))))))).
Proof.
  destruct (makeKeyTag (seeds 0) e0) as [tag| |] eqn:Et; [|vm_compute in Et; discriminate Et..].
  destruct (ensureEnts_moves_data mint seeds m0 [] e0 tag mints0_ok) as (_ & H1 & H2 & _).
  - vm_compute. discriminate.
  - reflexivity.
  - exact Et.
  - split; [exact H1|exact H2].
Defined.

Definition no_rows : Store := mkStore [] [] [] [] [] [].
Definition no_client : FC unit := mkFC None [] [] tt.

Lemma catalog_refines_memory_witness :
  ∃ r m' f', task_run mint seeds (save e0 None) m0 = (r, m') ∧
    account_save (seeds 0) e0 None (no_rows, no_client) = (r, (no_rows, f')) ∧ same_tags m' (fc_slots f').
Proof.
  destruct (catalog_refines_memory mint seeds e0 None m0 no_rows no_client seeds0_ok) as [(r & m' & f' & H1 & H2 & H3 & _) _].
  - intros label. reflexivity.
  - by exists r, m', f'.
Defined.

Definition home_opts : BindOpts := mkBindOpts None NoCred None (Some (js " laptop ")).
Definition no_store : PrfStore := mkPrfStore None None None.

Lemma e0_ok : enclave_ok e0.
Proof. apply be_bytes_len. Qed.
Lemma no_store_one_master : store_one_master no_store.
Proof. by intros r [=]. Qed.

(** The default account, saved; its keyring opened and bound. *)
Definition m1 : Meta accounts := (task_run mint seeds (save e0 None) m0).2.
Definition bound1 : Res Enclave * (PrfStore * (Meta accounts * option jsstr)) :=
  bindAndSave (H := account_keyring mint seeds 1000) nonce24 1000 None e0 home_opts (no_store, (m1, Some [])).

Lemma keyed_list (m : Meta accounts) :
  forallb (λ row, match decodeAccount row.2 with Some a => bool_decide (ac_label a = row.1) | None => true end) (tb_rows (mt_accounts m)) = true →
  keyed m.
Proof.
  intros H label row (raw & Hr & Hd)%bind_Some. rewrite forallb_forall in H. specialize (H (label, raw)).
  cbn [fst snd] in H. rewrite Hd in H. eapply bool_decide_eq_true_1, H. apply list_elem_of_In. by apply tb_rows_get.
Qed.

Lemma no_rings (m : Meta accounts) l :
  forallb (λ a, match ac_keyring a with None => true | Some _ => false end) (list_rows m) = true → ring_of l m = None.
Proof.
  intros H. unfold ring_of. destruct (get_row l m) as [row|] eqn:E; [|done]. cbn. apply list_rows_get in E.
  rewrite forallb_forall in H. specialize (H row (proj1 (list_elem_of_In _ _) E)). by destruct (ac_keyring row).
Qed.

(** Bind, rename, a bind of another enclave, and an unlock that picks the
    account by its passkey: the second enclave is refused, one binding is left,
    renamed, in memory and in the account's row. *)
Definition some_ops : list (Z * PrfOp) :=
  [(1000, OBind nonce24 1000 None e0 home_opts); (1500, ORename [x01] (js "desk"));
   (2000, OBind nonce24 2000 None e1 home_opts); (3000, OUnlock 3000)].

Lemma m1_rings : rings_one m1.
Proof. intros l r Hr. rewrite no_rings in Hr by (vm_compute; reflexivity). discriminate Hr. Qed.

Lemma keyring_keeps_one_master_witness :
  let '(s, (m, bound)) := fold_left (λ sw '(t, o), prf_op (H := account_keyring mint seeds t) o sw) some_ops (no_store, (m1, Some [])) in
  store_one_master s ∧ rings_one m ∧ ps_enclave s = Some e0 ∧
  (keyringLabel ∘ toRow <$> kr_entries (default (mkKeyring [] []) (ps_keyring s))) = [js "desk"] ∧
  (keyringLabel ∘ toRow <$> kr_entries (default (mkKeyring [] []) (ring_of [] m))) = [js "desk"].
Proof.
  pose proof (keyring_keeps_one_master mint seeds some_ops no_store m1 (Some []) 4000 nonce24 4000 None e1 home_opts) as H.
  destruct (fold_left _ some_ops _) as [s [m bound]] eqn:E. split; [|split].
  1, 2: apply H; [exact m1_rings|exact no_store_one_master| |apply be_bytes_len|exact nonce24_len];
    unfold some_ops; repeat (apply Forall_cons; split); try exact I; [split; [apply be_bytes_len|exact nonce24_len]..|apply Forall_nil_2].
  vm_compute in E. injection E as <- <- <-. vm_compute. split_and!; reflexivity.
Defined.

Definition stored1 : Keyring := default (mkKeyring [] []) (ps_keyring bound1.2.1).
Lemma stored1_plain : plain_ring stored1.
Proof.
  split; [|vm_compute; discriminate]. assert (Hs : Forall (λ x, entry_ok x ∧ ke_attachment x = None ∧ ke_enrolledOs x = None ∧ ke_transports x = None) (kr_entries stored1)).
  { vm_compute. repeat constructor. }
  eapply Forall_impl; [exact Hs|]. intros x (H1 & H2 & H3 & H4). unfold plain_entry. rewrite H2, H3, H4. by split_and!.
Qed.

Lemma bound_passkey_reopens_witness :
  ∃ s2 m2, prf_unlock (H := account_keyring mint seeds 9000) 9000 (no_store, (bound1.2.2.1, None)) = (Ok e0, (s2, (m2, Some []))) ∧
    ps_enclave s2 = Some e0.
Proof.
  destruct (passkeyCreds (list_rows bound1.2.2.1) []) as [creds| |] eqn:Ec; [|vm_compute in Ec; discriminate Ec..].
  destruct (bound_passkey_reopens mint seeds m1 [] no_store nonce24 1000 None e0 home_opts bound1.2.1 bound1.2.2.1 bound1.2.2.2) as
    (stored & x & prf & salt & cer & H1 & H2 & H3 & H4 & _ & _ & H5).
  - apply keyed_list. vm_compute. reflexivity.
  - intros l r Hr. rewrite no_rings in Hr by (vm_compute; reflexivity). discriminate Hr.
  - reflexivity.
  - exact no_store_one_master.
  - apply be_bytes_len.
  - exact nonce24_len.
  - vm_compute. reflexivity.
  - intros stored Hst. assert (stored = stored1) as -> by (unfold stored1; by rewrite Hst). apply stored1_plain.
  - intros tag Ht. assert (Hm : match tag_of [] m1 with Some t => keyTagMatches e0 t = Ok true | None => True end) by (vm_compute; reflexivity).
    by rewrite Ht in Hm.
  - assert (Hp : prf = ikm0 ∧ cer = cer0) by (vm_compute in H1; by injection H1 as <- _ <-). destruct Hp as [-> ->].
    destruct (H5 no_store 9000 None creds cer0) as (s2 & m2 & H6 & H7 & _).
    + rewrite H4. vm_compute. reflexivity.
    + exact Ec.
    + reflexivity.
    + by rewrite H4.
    + exists s2, m2. by split.
Defined.
End AccountsDemo.
