(* ===== verification/StoresIdb.v ===== *)
(** * The client's IndexedDB stores ([web/src/stores/idb/])

    The same archive, queues, realm rows, host rows and cursors as [Stores], in
    six object stores of one data database: operations as transactions, the
    faults of a write, and the store a client has before its database is open.
    Both kinds of store answer one list of operations, [StoreOp]. *)
From Stdlib Require Import QArith_base.
From S2P Require Export Tables Stores.
#[local] Open Scope Z_scope.

(** ** Rows *)

Record UploadRow := mkUpload { ur_host : jsstr; ur_hash : jsstr }.

(** Host identity; the handle is the URL's text. *)
Record StoredHost := mkStoredHost {
  sh_label : jsstr; sh_handle : jsstr; sh_idx : option Z; sh_clockOffset : option Q;
  sh_subscription : option ISubscriptionMetadata;
}.

(** *** Cursor rows *)

(** [isCursor], with what it lets through. *)
Definition isCursor (raw : jsval) : option (jsstr * RealmCursor) :=
  if negb (isRec raw) then None
  else
    host ← as_str (field "host" raw);
    label ← as_str (field "label" raw);
    index ← as_num (field "index" raw);
    lastSeq ← as_num (field "lastSeq" raw);
    if 0 <=? lastSeq then Some (host, mkCursor (mkKDM label index) lastSeq) else None.

Definition cursorsOf (raw : list jsval) : list RealmCursor := omap (M := list) (λ item, snd <$> isCursor item) raw.

Definition byHost (raw : list jsval) : jsmap jsstr (list RealmCursor) :=
  fold_left (λ out item,
    match isCursor item with
    | None => out
    | Some (host, c) => map_set host (default [] (map_get host out) ++ [c]) out
    end) raw [].

Definition cursor_val (host : jsstr) (c : RealmCursor) : jsval :=
  VObj [(js "host", VStr host); (js "label", VStr (kdm_label (rc_kdm c))); (js "index", VNum (Some (kdm_index (rc_kdm c))));
        (js "lastSeq", VNum (Some (rc_lastSeq c)))].

(** *** Realm rows ([realm.ts]) *)

Definition as_index (raw : jsval) : option Z := n ← as_num raw; if isIndex n then Some n else None.

Definition decodeRealm (raw : jsval) : option IRealm :=
  if negb (isRec raw) then None
  else
    label ← as_str (field "label" raw);
    index ← as_index (field "index" raw);
    match field "prior" raw with
    | VUndef => Some (mkRealm label index None)
    | VArr ns => prior ← mapM as_index ns; Some (mkRealm label index (match prior with [] => None | _ => Some prior end))
    | _ => None
    end.

Definition realm_val (r : IRealm) : jsval :=
  VObj ((js "label", VStr (rl_label r)) :: (js "index", VNum (Some (rl_index r))) ::
        opt_field "prior" (λ ns, VArr ((λ n, VNum (Some n)) <$> ns)) (rl_prior r)).

(** ** The data database ([migrate.ts]): its object stores, by key path *)

Record DataDB (TH TS TU TD TM TR : Type) := mkDataDB {
  db_hosts : TH; db_seqs : TS; db_uploads : TU; db_downloads : TD; db_messages : TM; db_realms : TR;
}.
Arguments mkDataDB {TH TS TU TD TM TR}.
Arguments db_hosts {TH TS TU TD TM TR}.
Arguments db_seqs {TH TS TU TD TM TR}.
Arguments db_uploads {TH TS TU TD TM TR}.
Arguments db_downloads {TH TS TU TD TM TR}.
Arguments db_messages {TH TS TU TD TM TR}.
Arguments db_realms {TH TS TU TD TM TR}.

Abbreviation SeqKey := (jsstr * jsstr * Z)%type.

(** A [URL] object of the browser: its text, and an object of a text (a new one
    each time: only its text may be used). *)
Class Urls := { href : nat → jsstr; new_URL : jsstr → nat }.

(** Reads of the archive leave the body out on demand. *)
Definition omit_body (m : IStoredMessage) : IStoredMessage :=
  let h := sm_head m in
  mkStoredMsg (sm_hash m) (mkHead (mh_typ h) (mh_eid h) (mh_off h) (mh_ctr h) (mh_len h) None) None
    (sm_apld m) (sm_err m) (sm_rlm m).
Definition listed `{CryptoPrims} (body : bool) (hash : bytes) (d : IStoredMessageData) : IStoredMessage :=
  if body then toStoredMessage hash d else omit_body (toStoredMessage hash d).

Section stores.
Context {C : CryptoPrims} {U : Urls} {TH TS TU TD TM TR : Type}.
Context {HTB : Table TH jsstr StoredHost} {STB : Table TS SeqKey jsval} {UTB : Table TU (jsstr * jsstr) UploadRow}.
Context {DTB : Table TD jsstr IDownloadMessage} {MTB : Table TM jsstr IStoredMessageData} {RTB : Table TR jsstr jsval}.
Abbreviation DB := (DataDB TH TS TU TD TM TR).
Implicit Types t : DB.

Definition with_hosts t x : DB := mkDataDB x (db_seqs t) (db_uploads t) (db_downloads t) (db_messages t) (db_realms t).
Definition with_seqs t x : DB := mkDataDB (db_hosts t) x (db_uploads t) (db_downloads t) (db_messages t) (db_realms t).
Definition with_uploads t x : DB := mkDataDB (db_hosts t) (db_seqs t) x (db_downloads t) (db_messages t) (db_realms t).
Definition with_downloads t x : DB := mkDataDB (db_hosts t) (db_seqs t) (db_uploads t) x (db_messages t) (db_realms t).
Definition with_messages t x : DB := mkDataDB (db_hosts t) (db_seqs t) (db_uploads t) (db_downloads t) x (db_realms t).
Definition with_realms t x : DB := mkDataDB (db_hosts t) (db_seqs t) (db_uploads t) (db_downloads t) (db_messages t) x.

(** ** Archive ([msgs.ts]) *)

(** What goes wrong in [add]: puts, by position, and the commit. *)
Record AddFaults := mkAddFaults { af_put : nat → bool; af_commit : bool }.
Definition no_add_faults : AddFaults := mkAddFaults (λ _, false) false.

(** A failed put is kept from rolling the transaction back, but its error event
    goes on to the transaction, whose handler reports [DatabaseError] for every
    row.  A transaction that fails at its commit is aborted without an error
    event: no handler answers. *)
Definition idb_msgs_add (f : AddFaults) (msgs : list (bytes * IStoredMessageData)) t : option (list Status) * DB :=
  if Nat.eqb (length msgs) 0 then (Some [], t)
  else
    let rows := imap (λ i '(key, data), (i, btob64 key, omit_rlm data)) msgs in
    let put := fold_left (λ m '(i, key, data), if af_put f i then m else tb_put key data m) rows (db_messages t) in
    let failed := existsb (λ '(i, _, _), af_put f i) rows in
    (if failed then Some ((λ _, DatabaseError) <$> msgs) else if af_commit f then None else Some ((λ _, Success) <$> msgs),
     if af_commit f then t else with_messages t put).

Definition idb_msgs_del (keys : list bytes) t : DB :=
  with_messages t (fold_left (λ m hash, tb_delete (btob64 hash) m) keys (db_messages t)).

Definition idb_msgs_get (key : bytes) t : option IStoredMessage := toStoredMessage key <$> tb_get (btob64 key) (db_messages t).
Definition idb_msgs_has (key : bytes) t : bool := bool_decide (is_Some (idb_msgs_get key t)).

(** A cursor over the store, or over the index by apply state. *)
Definition of_apld (apld : option ApldState) (rows : list (jsstr * IStoredMessageData)) : list (jsstr * IStoredMessageData) :=
  match apld with None => rows | Some a => filter (λ row, sd_apld row.2 = a) rows end.

Definition idb_msgs_list (apld : option ApldState) (body : bool) t : list IStoredMessage :=
  (λ '(key, data), listed body (unb64 key) data) <$> of_apld apld (tb_rows (db_messages t)).

Definition idb_msgs_count (apld : option ApldState) t : Z := Z.of_nat (length (of_apld apld (tb_rows (db_messages t)))).

Definition idb_msgs_listKeys t : list bytes := (λ row, unb64 row.1) <$> tb_rows (db_messages t).

Definition idb_msgs_last (eid : bytes) t : option IStoredMessage :=
  (λ '(key, data), toStoredMessage (unb64 key) data) <$>
  fold_left (λ latest '(key, data),
    if bytesEqual eid (sd_eid data)
    then if match latest with None => true | Some (_, best) => later_row data best end then Some (key, data) else latest
    else latest) (tb_rows (db_messages t)) None.

(** Every row is read before the first is written back. *)
Definition mark_rows {A} (key : A → bytes) (f : A → IStoredMessageData → IStoredMessageData) (xs : list A) t : DB :=
  let read := omap (M := list) (λ x, d ← tb_get (btob64 (key x)) (db_messages t); Some (btob64 (key x), f x d)) xs in
  with_messages t (fold_left (λ m '(b64, data), tb_put b64 data m) read (db_messages t)).

Definition idb_markApplied (keys : list bytes) t : DB := mark_rows id (λ _ d, setApld d APLD_APPLIED None) keys t.
Definition idb_markFailed (entries : list (bytes * Status)) t : DB :=
  mark_rows fst (λ e d, setApld d APLD_ERROR (Some e.2)) entries t.

Definition idb_msgs_wipe t : DB := with_messages t (tb_clear (db_messages t)).

(** ** Queues ([uplds.ts], [dnlds.ts]) *)

Definition idb_upl_enq (host : jsstr) (hshs : list bytes) t : DB :=
  with_uploads t (fold_left (λ u h, tb_put (host, btoh h) (mkUpload host (btoh h)) u) hshs (db_uploads t)).
Definition idb_upl_deq (host : jsstr) (hshs : list bytes) t : DB :=
  with_uploads t (fold_left (λ u h, tb_delete (host, btoh h) u) hshs (db_uploads t)).
Definition idb_upl_list (host : jsstr) t : list bytes :=
  omap (M := list) (λ hex, match htob hex with Ok h => Some h | _ => None end)
    (ur_hash <$> filter (λ item, ur_host item = host) (tb_rows (db_uploads t)).*2).
Definition idb_upl_count t : Z := Z.of_nat (length (tb_rows (db_uploads t))).
Definition idb_upl_wipe t : DB := with_uploads t (tb_clear (db_uploads t)).

Definition idb_dnl_enq (msgs : list IDownloadMessage) t : DB :=
  with_downloads t (fold_left (λ d msg, tb_put (downloadKey (dl_host msg) (dl_seq msg) (dl_realm msg)) msg d) msgs (db_downloads t)).
Definition idb_dnl_deq (host : jsstr) (seqs : list Z) (realm : option IKDM) t : DB :=
  with_downloads t (fold_left (λ d seq, tb_delete (downloadKey host seq realm) d) seqs (db_downloads t)).
Definition idb_dnl_list t : list IDownloadMessage := (tb_rows (db_downloads t)).*2.
Definition idb_dnl_count t : Z := Z.of_nat (length (tb_rows (db_downloads t))).
Definition idb_dnl_wipe t : DB := with_downloads t (tb_clear (db_downloads t)).

(** ** Realms ([realms.ts]) *)

Definition idb_realms_list t : list IRealm := omap (M := list) (λ row, decodeRealm row.2) (tb_rows (db_realms t)).
Definition idb_realms_get (label : jsstr) t : option IRealm := decodeRealm (default VUndef (tb_get label (db_realms t))).
Definition idb_realms_put (label : jsstr) (index : Z) t : Res unit * DB :=
  match advanceRealm label (idb_realms_get label t) index with
  | Ok next => (Ok tt, with_realms t (tb_put (rl_label next) (realm_val next) (db_realms t)))
  | Err st => (Err st, t)
  | Throw => (Throw, t)
  end.
Definition idb_realms_wipe t : DB := with_realms t (tb_clear (db_realms t)).

(** ** Hosts and cursors ([hosts.ts]) *)

Definition idbRowToHostRow (row : StoredHost) (cursors : list RealmCursor) : IHostRow * CursorRow :=
  (mkHostRow (mkHostInfo (sh_label row) (new_URL (sh_handle row)) (sh_idx row))
     (match sh_subscription row with Some sub => Some (mkMeta sub (sh_clockOffset row)) | None => None end),
   projectCursors cursors).

Definition storedHost (info : IHostConnectionInfo) (clockOffset : option Q) (subscription : option ISubscriptionMetadata) : StoredHost :=
  mkStoredHost (hi_label info) (href (hi_handle info)) (hi_idx info) clockOffset subscription.

(** The rows an index query on [host] finds. *)
Definition seqs_of (label : jsstr) t : list (SeqKey * jsval) :=
  filter (λ row, as_str (field "host" row.2) = Some label) (tb_rows (db_seqs t)).

Definition idb_hosts_get (label : jsstr) t : option (IHostRow * CursorRow) :=
  match tb_get label (db_hosts t) with
  | None => None
  | Some row => Some (idbRowToHostRow row (cursorsOf (seqs_of label t).*2))
  end.

Definition drop_seqs (label : jsstr) t : DB :=
  with_seqs t (fold_left (λ s key, tb_delete key s) (seqs_of label t).*1 (db_seqs t)).

(** The second transaction of [add]; [prev] is what the first read. *)
Definition idb_hosts_add_with (prev : option (IHostRow * CursorRow)) (info : IHostConnectionInfo) t : DB :=
  let same := match prev with
    | Some (prev, _) => bool_decide (href (hi_handle (hr_info prev)) = href (hi_handle info)) &&
                        (default 0 (hi_idx (hr_info prev)) =? default 0 (hi_idx info))
    | None => false
    end in
  let kept := if same then prev ≫= λ p, hr_meta p.1 else None in
  let row := storedHost info (kept ≫= hm_clockOffset) (hm_subscription <$> kept) in
  let t := if same then t else drop_seqs (hi_label info) t in
  with_hosts t (tb_put (sh_label row) row (db_hosts t)).
Definition idb_hosts_add (info : IHostConnectionInfo) t : DB := idb_hosts_add_with (idb_hosts_get (hi_label info) t) info t.

Definition seq_key (label : jsstr) (r : IKDM) : SeqKey := (label, kdm_label r, kdm_index r).

Definition idb_recordSeqs (label : jsstr) (u : HostSeqsUpdate) (realm : option IKDM) t : DB :=
  let r := default nullKDM realm in
  match tb_get label (db_hosts t) with
  | None => t
  | Some _ =>
      let cur := match isCursor (default VUndef (tb_get (seq_key label r) (db_seqs t))) with Some (_, c) => rc_lastSeq c | None => 0 end in
      match nextCursor cur u with
      | None => t
      | Some next => with_seqs t (tb_put (seq_key label r) (cursor_val label (mkCursor r next)) (db_seqs t))
      end
  end.
Definition idb_touch (label : jsstr) (seq : Z) (realm : option IKDM) t : DB := idb_recordSeqs label (mkSeqs (Some seq) None) realm t.

(** The second transaction of [set]. *)
Definition idb_hosts_set_with (row : IHostRow) (meta : IHostMetadata) t : DB :=
  with_hosts t (tb_put (hi_label (hr_info row))
    (storedHost (hr_info row) (hm_clockOffset meta) (Some (hm_subscription meta))) (db_hosts t)).
Definition idb_hosts_set (label : jsstr) (meta : IHostMetadata) t : Status * DB :=
  match idb_hosts_get label t with
  | None => (NotFound, t)
  | Some (row, _) => (Success, idb_hosts_set_with row meta t)
  end.

Definition idb_hosts_del (label : jsstr) t : DB :=
  drop_seqs label (with_hosts t (tb_delete label (db_hosts t))).

Definition idb_hosts_list t : list (IHostRow * CursorRow) :=
  let grouped := byHost (tb_rows (db_seqs t)).*2 in
  (λ row, idbRowToHostRow row (default [] (map_get (sh_label row) grouped))) <$> (tb_rows (db_hosts t)).*2.

Definition idb_hosts_wipe t : DB := with_seqs (with_hosts t (tb_clear (db_hosts t))) (tb_clear (db_seqs t)).

(** [IDBStore.wipe] *)
Definition idb_wipe t : DB := idb_msgs_wipe (idb_dnl_wipe (idb_upl_wipe (idb_hosts_wipe t))).
End stores.

(** ** One interface for both kinds of store ([IStore], [types.ts]) *)

Inductive StoreOp :=
  | MsgAdd (msgs : list (bytes * IStoredMessageData)) | MsgDel (keys : list bytes) | MsgGet (key : bytes) | MsgHas (key : bytes)
  | MsgList (apld : option ApldState) (body : bool) | MsgCount (apld : option ApldState) | MsgListKeys | MsgLast (eid : bytes)
  | MsgMarkApplied (keys : list bytes) | MsgMarkFailed (entries : list (bytes * Status)) | MsgWipe
  | UplEnq (host : jsstr) (hshs : list bytes) | UplDeq (host : jsstr) (hshs : list bytes) | UplList (host : jsstr) | UplCount | UplWipe
  | DnlEnq (msgs : list IDownloadMessage) | DnlDeq (host : jsstr) (seqs : list Z) (realm : option IKDM) | DnlList | DnlCount | DnlWipe
  | RealmList | RealmGet (label : jsstr) | RealmPut (label : jsstr) (index : Z) | RealmWipe
  | HostAdd (info : IHostConnectionInfo) | HostGet (label : jsstr) | HostDel (label : jsstr) | HostSet (label : jsstr) (meta : IHostMetadata)
  | HostList | HostTouch (label : jsstr) (seq : Z) (realm : option IKDM)
  | HostRecordSeqs (label : jsstr) (u : HostSeqsUpdate) (realm : option IKDM) | HostWipe
  | StoreWipe.

Inductive StoreAnswer :=
  | Nothing | Statuses (sts : list Status) | AStatus (st : Status) | AMsg (m : option IStoredMessage) | AMsgs (ms : list IStoredMessage)
  | ALast (m : option IStoredMessage) | ABool (b : bool) | ACount (n : Z) | AHashes (hs : list bytes) | ADownloads (ds : list IDownloadMessage)
  | ARealm (r : option IRealm) | ARealms (rs : list IRealm)
  | AHost (h : option (IHostRow * CursorRow)) | AHosts (hs : list (IHostRow * CursorRow)).

Definition put_status (r : Res unit) : Status := match r with Ok _ => Success | Err st => st | Throw => InternalError end.

Definition get_host (label : jsstr) (s : Store) : option (IHostRow * CursorRow) :=
  match map_get label (st_hostRows s), hosts_get label s with Some row, Some cursors => Some (row, cursors) | _, _ => None end.

(** [MemoryStore] *)
Definition mem_call `{CryptoPrims} (op : StoreOp) (s : Store) : StoreAnswer * Store :=
  match op with
  | MsgAdd msgs => (Statuses ((λ _, Success) <$> msgs), msgs_add msgs s)
  | MsgDel keys => (Nothing, msgs_del keys s)
  | MsgGet key => (AMsg (msgs_get key s), s)
  | MsgHas key => (ABool (msgs_has key s), s)
  | MsgList apld body => (AMsgs ((if body then id else fmap omit_body) (msgs_list apld s)), s)
  | MsgCount apld => (ACount (msgs_count apld s), s)
  | MsgListKeys => (AHashes (msgs_listKeys s), s)
  | MsgLast eid => (ALast ((λ '(key, data), toStoredMessage (unb64 key) data) <$> msgs_last eid s), s)
  | MsgMarkApplied keys => (Nothing, markApplied keys s)
  | MsgMarkFailed entries => (Nothing, markFailed entries s)
  | MsgWipe => (Nothing, msgs_wipe s)
  | UplEnq host hshs => (Nothing, upl_enq host hshs s)
  | UplDeq host hshs => (Nothing, upl_deq host hshs s)
  | UplList host => (AHashes (upl_list host s), s)
  | UplCount => (ACount (upl_count s), s)
  | UplWipe => (Nothing, upl_wipe s)
  | DnlEnq msgs => (Nothing, dnl_enq msgs s)
  | DnlDeq host seqs realm => (Nothing, dnl_deq host seqs realm s)
  | DnlList => (ADownloads (dnl_list s), s)
  | DnlCount => (ACount (dnl_count s), s)
  | DnlWipe => (Nothing, dnl_wipe s)
  | RealmList => (ARealms (realms_list s), s)
  | RealmGet label => (ARealm (map_get label (st_realms s)), s)
  | RealmPut label index => let '(r, s) := realms_put label index s in (AStatus (put_status r), s)
  | RealmWipe => (Nothing, realms_wipe s)
  | HostAdd info => (Nothing, hosts_add info s)
  | HostGet label => (AHost (get_host label s), s)
  | HostDel label => (Nothing, hosts_del label s)
  | HostSet label meta => let '(st, s) := hosts_set label meta s in (AStatus st, s)
  | HostList => (AHosts (hosts_list s), s)
  | HostTouch label seq realm => (Nothing, touch label seq realm s)
  | HostRecordSeqs label u realm => (Nothing, recordSeqs label u realm s)
  | HostWipe => (Nothing, hosts_wipe s)
  | StoreWipe => (Nothing, wipe s)
  end.

(** [idleTables]: before a data database is open. *)
Definition idle_call (op : StoreOp) : StoreAnswer :=
  match op with
  | MsgAdd rows => Statuses ((λ _, DatabaseError) <$> rows)
  | MsgGet _ => AMsg None
  | MsgLast _ => ALast None
  | MsgHas _ => ABool false
  | MsgList _ _ => AMsgs []
  | MsgCount _ | UplCount | DnlCount => ACount 0
  | MsgListKeys | UplList _ => AHashes []
  | DnlList => ADownloads []
  | RealmList => ARealms []
  | RealmGet _ => ARealm None
  | RealmPut _ _ | HostSet _ _ => AStatus NotFound
  | HostGet _ => AHost None
  | HostList => AHosts []
  | MsgDel _ | MsgMarkApplied _ | MsgMarkFailed _ | MsgWipe | UplEnq _ _ | UplDeq _ _ | UplWipe | DnlEnq _ | DnlDeq _ _ _ | DnlWipe
  | RealmWipe | HostAdd _ | HostDel _ | HostTouch _ _ _ | HostRecordSeqs _ _ _ | HostWipe | StoreWipe => Nothing
  end.

Section calls.
Context {C : CryptoPrims} {U : Urls} {TH TS TU TD TM TR : Type}.
Context {HTB : Table TH jsstr StoredHost} {STB : Table TS SeqKey jsval} {UTB : Table TU (jsstr * jsstr) UploadRow}.
Context {DTB : Table TD jsstr IDownloadMessage} {MTB : Table TM jsstr IStoredMessageData} {RTB : Table TR jsstr jsval}.
Abbreviation DB := (DataDB TH TS TU TD TM TR).

(** [openTables], each call alone and without faults. *)
Definition idb_call (op : StoreOp) (t : DB) : StoreAnswer * DB :=
  match op with
  | MsgAdd msgs => let '(r, t) := idb_msgs_add no_add_faults msgs t in (Statuses (default [] r), t)
  | MsgDel keys => (Nothing, idb_msgs_del keys t)
  | MsgGet key => (AMsg (idb_msgs_get key t), t)
  | MsgHas key => (ABool (idb_msgs_has key t), t)
  | MsgList apld body => (AMsgs (idb_msgs_list apld body t), t)
  | MsgCount apld => (ACount (idb_msgs_count apld t), t)
  | MsgListKeys => (AHashes (idb_msgs_listKeys t), t)
  | MsgLast eid => (ALast (idb_msgs_last eid t), t)
  | MsgMarkApplied keys => (Nothing, idb_markApplied keys t)
  | MsgMarkFailed entries => (Nothing, idb_markFailed entries t)
  | MsgWipe => (Nothing, idb_msgs_wipe t)
  | UplEnq host hshs => (Nothing, idb_upl_enq host hshs t)
  | UplDeq host hshs => (Nothing, idb_upl_deq host hshs t)
  | UplList host => (AHashes (idb_upl_list host t), t)
  | UplCount => (ACount (idb_upl_count t), t)
  | UplWipe => (Nothing, idb_upl_wipe t)
  | DnlEnq msgs => (Nothing, idb_dnl_enq msgs t)
  | DnlDeq host seqs realm => (Nothing, idb_dnl_deq host seqs realm t)
  | DnlList => (ADownloads (idb_dnl_list t), t)
  | DnlCount => (ACount (idb_dnl_count t), t)
  | DnlWipe => (Nothing, idb_dnl_wipe t)
  | RealmList => (ARealms (idb_realms_list t), t)
  | RealmGet label => (ARealm (idb_realms_get label t), t)
  | RealmPut label index => let '(r, t) := idb_realms_put label index t in (AStatus (put_status r), t)
  | RealmWipe => (Nothing, idb_realms_wipe t)
  | HostAdd info => (Nothing, idb_hosts_add info t)
  | HostGet label => (AHost (idb_hosts_get label t), t)
  | HostDel label => (Nothing, idb_hosts_del label t)
  | HostSet label meta => let '(st, t) := idb_hosts_set label meta t in (AStatus st, t)
  | HostList => (AHosts (idb_hosts_list t), t)
  | HostTouch label seq realm => (Nothing, idb_touch label seq realm t)
  | HostRecordSeqs label u realm => (Nothing, idb_recordSeqs label u realm t)
  | HostWipe => (Nothing, idb_hosts_wipe t)
  | StoreWipe => (Nothing, idb_wipe t)
  end.

(** [IDBStore]: its tables are those of the open database, or idle. *)
Definition store_call (op : StoreOp) (open : option DB) : StoreAnswer * option DB :=
  match open with
  | Some t => let '(a, t) := idb_call op t in (a, Some t)
  | None => (idle_call op, None)
  end.
End calls.

(** A list of calls, one after the other. *)
Fixpoint run_calls {S} (call : StoreOp → S → StoreAnswer * S) (ops : list StoreOp) (s : S) : list StoreAnswer * S :=
  match ops with
  | [] => ([], s)
  | op :: ops => let '(a, s) := call op s in let '(as_, s) := run_calls call ops s in (a :: as_, s)
  end.
