(* ===== verification/StoresIdbProps.v ===== *)
(** * The IndexedDB stores do what the in-memory ones do

    A simulation between the two kinds of store, kept by every call, with equal
    answers up to the order of lists; and what a failed write reports. *)
From Stdlib Require Import QArith_base.
From S2P Require Import StoresIdb.
From S2P Require Import Js.
#[local] Open Scope Z_scope.

(** ** Folds over a table and over a [Map] *)

Section folds.
Context {T K V A : Type} {KD : EqDecision K} {TB : Table T K V} {TL : TableLaws T K V}.
Implicit Types (t : T) (m : jsmap K V).

Definition last_put (key : A → K) (val : A → V) (k : K) (xs : list A) (acc : option V) : option V :=
  fold_left (λ acc x, if decide (k = key x) then Some (val x) else acc) xs acc.

Lemma tb_get_puts key val k xs t :
  tb_get k (fold_left (λ t x, tb_put (key x) (val x) t) xs t) = last_put key val k xs (tb_get k t).
Proof. unfold last_put. revert t. induction xs as [|x xs IH]; intros t; [done|]. cbn. by rewrite IH, tb_get_put. Qed.

Lemma map_get_sets key val k xs m :
  map_get k (fold_left (λ m x, map_set (key x) (val x) m) xs m) = last_put key val k xs (map_get k m).
Proof. unfold last_put. revert m. induction xs as [|x xs IH]; intros m; [done|]. cbn. by rewrite IH, map_get_set. Qed.

Lemma tb_get_deletes (key : A → K) k xs t :
  tb_get k (fold_left (λ t x, tb_delete (key x) t) xs t) = if decide (k ∈ key <$> xs) then None else tb_get k t.
Proof.
  revert t. induction xs as [|x xs IH]; intros t; cbn [fold_left]; [by rewrite decide_False by set_solver|].
  rewrite IH, tb_get_delete. repeat case_decide; set_solver.
Qed.

Lemma map_get_deletes (key : A → K) k xs m :
  map_wf m → map_get k (fold_left (λ m x, map_delete (key x) m) xs m) = if decide (k ∈ key <$> xs) then None else map_get k m.
Proof.
  revert m. induction xs as [|x xs IH]; intros m Hm; cbn [fold_left]; [by rewrite decide_False by set_solver|].
  rewrite IH, map_get_delete by auto using map_delete_wf. repeat case_decide; set_solver.
Qed.

Lemma map_sets_wf (key : A → K) (val : A → V) xs m : map_wf m → map_wf (fold_left (λ m x, map_set (key x) (val x) m) xs m).
Proof. revert m. induction xs as [|x xs IH]; intros m ?; [done|]. by apply IH, map_set_wf. Qed.

Lemma map_deletes_wf (key : A → K) xs m : map_wf m → map_wf (fold_left (λ m x, map_delete (key x) m) xs m).
Proof. revert m. induction xs as [|x xs IH]; intros m ?; [done|]. by apply IH, map_delete_wf. Qed.

(** A table that holds the rows of a list, once each, lists them. *)
Lemma tb_rows_are t (rows : list (K * V)) :
  NoDup rows → (∀ k v, (k, v) ∈ rows ↔ tb_get k t = Some v) → tb_rows t ≡ₚ rows.
Proof.
  intros Hn Hg. apply NoDup_Permutation; [eapply (NoDup_fmap_1 fst), tb_rows_once|done|].
  intros [k v]. by rewrite tb_rows_get, Hg.
Qed.
End folds.

(** ** Answers up to order *)

(** Rows of one entity, neither later than the other. *)
Definition later_head (h best : IMessageHead) : bool :=
  (mh_ctr best <? mh_ctr h) || ((mh_ctr h =? mh_ctr best) && flt (mh_off best) (mh_off h)).
Definition same_revision (a b : IStoredMessage) : Prop :=
  mh_eid (sm_head a) = mh_eid (sm_head b) ∧
  later_head (sm_head a) (sm_head b) = false ∧ later_head (sm_head b) (sm_head a) = false.

(** A row of a host: the stored one holds the text of its URL, and answers
    another [URL] object of the same text. *)
Definition same_info `{Urls} (a b : IHostConnectionInfo) : Prop :=
  hi_label a = hi_label b ∧ href (hi_handle a) = href (hi_handle b) ∧ hi_idx a = hi_idx b.
Definition alike_row `{Urls} (a b : IHostRow) : Prop := same_info (hr_info a) (hr_info b) ∧ hr_meta a = hr_meta b.
Definition same_host `{Urls} (a b : IHostRow * CursorRow) : Prop :=
  alike_row a.1 b.1 ∧ cr_lastSeq a.2 = cr_lastSeq b.2 ∧ option_Forall2 (≡ₚ) (cr_seqs a.2) (cr_seqs b.2).

Definition same_answer `{Urls} (a b : StoreAnswer) : Prop :=
  match a, b with
  | AMsgs x, AMsgs y => x ≡ₚ y
  | ALast x, ALast y => option_Forall2 same_revision x y
  | AHashes x, AHashes y => x ≡ₚ y
  | ADownloads x, ADownloads y => x ≡ₚ y
  | ARealms x, ARealms y => x ≡ₚ y
  | AHost x, AHost y => option_Forall2 same_host x y
  | AHosts x, AHosts y => ∃ z, x ≡ₚ z ∧ Forall2 same_host z y
  | _, _ => a = b
  end.

(** ** The stores the calls make *)

Definition realm_ok (label : jsstr) (r : IRealm) : Prop :=
  rl_label r = label ∧ 0 <= rl_index r ∧ match rl_prior r with Some ps => ps ≠ [] ∧ Forall (λ n, 0 <= n) ps | None => True end.

Definition bucket_ok (b : jsmap jsstr RealmCursor) : Prop :=
  map_wf b ∧ ∀ k c, map_get k b = Some c → k = realmKey (rc_kdm c) ∧ 0 <= rc_lastSeq c.

(** [linked l h]: some call links the label [l] through the [URL] object [h]. *)
Definition row_ok (linked : jsstr → nat → Prop) (l : jsstr) (row : IHostRow) : Prop :=
  hi_label (hr_info row) = l ∧ linked l (hi_handle (hr_info row)).

Record rows_ok (linked : jsstr → nat → Prop) (s : Store) : Prop := {
  mo_msgs : map_wf (st_messages s);
  mo_dnl : map_wf (st_downloads s);
  mo_upl : map_wf (st_uploads s);
  mo_set l set : map_get l (st_uploads s) = Some set → NoDup set;
  mo_realms : map_wf (st_realms s);
  mo_realm l r : map_get l (st_realms s) = Some r → realm_ok l r;
  mo_hosts : map_wf (st_hostRows s);
  mo_host l row : map_get l (st_hostRows s) = Some row → row_ok linked l row;
  mo_cur : map_wf (st_cursors s);
  mo_bucket l b : map_get l (st_cursors s) = Some b → bucket_ok b;
}.
Arguments mo_msgs {linked} s _.
Arguments mo_dnl {linked} s _.
Arguments mo_upl {linked} s _.
Arguments mo_set {linked} s _ l set _.
Arguments mo_realms {linked} s _.
Arguments mo_realm {linked} s _ l r _.
Arguments mo_hosts {linked} s _.
Arguments mo_host {linked} s _ l row _.
Arguments mo_cur {linked} s _.
Arguments mo_bucket {linked} s _ l b _.

(** The text of a [URL] object, parsed again, is of an object with the same text. *)
Class UrlLaws {U : Urls} : Prop := href_new_URL h : href (new_URL (href h)) = href h.

Definition kept_host `{Urls} (row : IHostRow) : StoredHost :=
  storedHost (hr_info row) (hr_meta row ≫= hm_clockOffset) (hm_subscription <$> hr_meta row).

Section sim.
Context {C : CryptoPrims} {U : Urls} {UL : UrlLaws} {TH TS TU TD TM TR : Type}.
Context {HTB : Table TH jsstr StoredHost} {HTL : TableLaws TH jsstr StoredHost}.
Context {STB : Table TS SeqKey jsval} {STL : TableLaws TS SeqKey jsval}.
Context {UTB : Table TU (jsstr * jsstr) UploadRow} {UTL : TableLaws TU (jsstr * jsstr) UploadRow}.
Context {DTB : Table TD jsstr IDownloadMessage} {DTL : TableLaws TD jsstr IDownloadMessage}.
Context {MTB : Table TM jsstr IStoredMessageData} {MTL : TableLaws TM jsstr IStoredMessageData}.
Context {RTB : Table TR jsstr jsval} {RTL : TableLaws TR jsstr jsval}.
Abbreviation DB := (DataDB TH TS TU TD TM TR).
Implicit Types (t : DB) (s : Store).
(** The calls link a label and a text always through one object. *)
Context {linked : jsstr → nat → Prop} (linked_once : ∀ l h h', linked l h → linked l h' → href h = href h' → h = h').
Abbreviation mem_ok := (rows_ok linked).

Definition bucket (l : jsstr) s : jsmap jsstr RealmCursor := default [] (map_get l (st_cursors s)).
Definition queued (l : jsstr) s : list jsstr := default [] (map_get l (st_uploads s)).

Record sim t s : Prop := {
  si_msgs k : tb_get k (db_messages t) = map_get k (st_messages s);
  si_dnl k : tb_get k (db_downloads t) = map_get k (st_downloads s);
  si_upl l hex : tb_get (l, hex) (db_uploads t) = if decide (hex ∈ queued l s) then Some (mkUpload l hex) else None;
  si_realms l : tb_get l (db_realms t) = realm_val <$> map_get l (st_realms s);
  si_hosts l : tb_get l (db_hosts t) = kept_host <$> map_get l (st_hostRows s);
  si_seqs l r : tb_get (seq_key l r) (db_seqs t) = cursor_val l <$> map_get (realmKey r) (bucket l s);
}.

(** *** Archive *)

Lemma sim_messages t s x ms :
  sim t s → mem_ok s → (∀ k, tb_get k x = map_get k ms) → map_wf ms → sim (with_messages t x) (set_messages s ms) ∧ mem_ok (set_messages s ms).
Proof. intros [] [] ? ?. by split; split. Qed.

Lemma add_clean msgs t :
  idb_msgs_add no_add_faults msgs t =
  (Some ((λ _, Success) <$> msgs),
   with_messages t (fold_left (λ m x, tb_put (btob64 x.1) (omit_rlm x.2) m) msgs (db_messages t))).
Proof.
  unfold idb_msgs_add. destruct msgs as [|x msgs]; [by destruct t|]. set (ms := x :: msgs). cbn [length Nat.eqb ms]. fold ms.
  assert (Hf : ∀ (g : nat → nat) l m,
    fold_left (λ m '(i, key, data), if af_put no_add_faults i then m else tb_put key data m)
      (imap (λ i '(key, data), (g i, btob64 key, omit_rlm data)) l) m = fold_left (λ m x, tb_put (btob64 x.1) (omit_rlm x.2) m) l (m : TM)).
  { intros g l. revert g. induction l as [|[k d] l IH]; intros g m; [done|]. cbn [imap fold_left]. by rewrite <-(IH (g ∘ S)). }
  assert (He : ∀ (l : list (nat * jsstr * IStoredMessageData)), existsb (λ '(i, _, _), af_put no_add_faults i) l = false).
  { induction l as [|[[? ?] ?] l IH]; [done|exact IH]. }
  rewrite He. cbn [af_commit no_add_faults]. by rewrite <-(Hf id).
Qed.

Lemma sim_add msgs t s :
  sim t s → mem_ok s → sim (idb_msgs_add no_add_faults msgs t).2 (msgs_add msgs s) ∧ mem_ok (msgs_add msgs s).
Proof.
  intros Hs Ho. rewrite add_clean. cbn [snd]. unfold msgs_add.
  replace (fold_left _ msgs (st_messages s)) with (fold_left (λ m x, map_set (btob64 x.1) (omit_rlm x.2) m) msgs (st_messages s)).
  - apply sim_messages; [done..| |apply map_sets_wf, Ho]. intros k. rewrite tb_get_puts, map_get_sets. by rewrite (si_msgs t s).
  - generalize (st_messages s). induction msgs as [|[k d] msgs IH]; intros m; [done|]. apply IH.
Qed.

Lemma sim_del keys t s : sim t s → mem_ok s → sim (idb_msgs_del keys t) (msgs_del keys s) ∧ mem_ok (msgs_del keys s).
Proof.
  intros Hs Ho. apply sim_messages; [done..| |apply map_deletes_wf, Ho]. intros k.
  rewrite tb_get_deletes, map_get_deletes by apply Ho. by rewrite (si_msgs t s).
Qed.

(** Marks that overwrite each other. *)
Section marks.
Context {A : Type} (key : A → bytes) (f : A → IStoredMessageData → IStoredMessageData).
Context (Hf : ∀ x y d, f y (f x d) = f y d).

Definition marked (k : jsstr) (xs : list A) (d : option IStoredMessageData) : option IStoredMessageData :=
  fold_left (λ d x, if decide (k = btob64 (key x)) then f x <$> d else d) xs d.

Lemma mem_marks xs s k :
  map_get k (st_messages (fold_left (λ s x, mark (f x) (key x) s) xs s)) = marked k xs (map_get k (st_messages s)).
Proof.
  unfold marked. revert s. induction xs as [|x xs IH]; intros s; [done|]. cbn [fold_left]. rewrite IH. f_equal.
  unfold mark. case_decide as E.
  - subst. destruct (map_get _ (st_messages s)) as [d|] eqn:Ed; [cbn; by rewrite map_get_set_eq|by rewrite Ed].
  - destruct (map_get (btob64 (key x)) (st_messages s)); [cbn; by rewrite map_get_set_ne|done].
Qed.

Lemma idb_marks xs t k :
  tb_get k (db_messages (mark_rows key f xs t)) = marked k xs (tb_get k (db_messages t)).
Proof.
  unfold mark_rows. cbn [db_messages with_messages]. set (t0 := db_messages t).
  assert (H : ∀ acc m, tb_get k m = acc → (acc = tb_get k t0 ∨ ∃ x d, tb_get k t0 = Some d ∧ acc = Some (f x d)) →
    tb_get k (fold_left (λ m '(b64, data), tb_put b64 data m)
      (omap (M := list) (λ x, d ← tb_get (btob64 (key x)) t0; Some (btob64 (key x), f x d)) xs) m) = marked k xs acc);
    [|by apply H; [|left]].
  unfold marked. induction xs as [|x xs IH]; intros acc m Hm Hacc; [done|]. cbn [fold_left].
  destruct (tb_get (btob64 (key x)) t0) as [d|] eqn:Ed.
  - unfold omap at 1. cbn [list_omap]. rewrite Ed. cbn [mbind option_bind fold_left]. apply IH.
    + rewrite tb_get_put. case_decide; subst; [|done]. destruct Hacc as [->|(y & d' & E & ->)]; [by rewrite Ed|].
      rewrite Ed in E. injection E as <-. cbn. by rewrite Hf.
    + case_decide; subst; [|done]. right. exists x, d. split; [done|]. destruct Hacc as [->|(y & d' & E & ->)]; [by rewrite Ed|].
      rewrite Ed in E. injection E as <-. cbn. by rewrite Hf.
  - unfold omap at 1. cbn [list_omap]. rewrite Ed. cbn [mbind option_bind].
    assert ((if decide (k = btob64 (key x)) then f x <$> acc else acc) = acc) as ->; [|by apply IH].
    case_decide; [|done]. subst k. destruct Hacc as [->|(y & d' & E & ->)]; [by rewrite Ed|congruence].
Qed.

Lemma mark_shape (g : IStoredMessageData → IStoredMessageData) k s : ∃ ms, mark g k s = set_messages s ms ∧ (map_wf (st_messages s) → map_wf ms).
Proof.
  unfold mark. destruct (map_get (btob64 k) (st_messages s)); [eexists; split; [done|apply map_set_wf]|exists (st_messages s); by destruct s].
Qed.

Lemma marks_shape xs s : ∃ ms, fold_left (λ s x, mark (f x) (key x) s) xs s = set_messages s ms ∧ (map_wf (st_messages s) → map_wf ms).
Proof.
  revert s. induction xs as [|x xs IH]; intros s; cbn [fold_left]; [by exists (st_messages s); destruct s|].
  destruct (mark_shape (f x) (key x) s) as (ms & -> & H). destruct (IH (set_messages s ms)) as (ms' & -> & H'). eauto.
Qed.

Lemma sim_marks xs t s :
  sim t s → mem_ok s →
  sim (mark_rows key f xs t) (fold_left (λ s x, mark (f x) (key x) s) xs s) ∧ mem_ok (fold_left (λ s x, mark (f x) (key x) s) xs s).
Proof.
  intros Hs Ho. pose proof (mem_marks xs s) as Hg. destruct (marks_shape xs s) as (ms & E & Hw). rewrite E in *.
  assert (Ht : mark_rows key f xs t = with_messages t (db_messages (mark_rows key f xs t))) by done. rewrite Ht.
  apply sim_messages; [done..| |apply Hw, Ho]. intros k. rewrite idb_marks, (si_msgs t s) by done. symmetry. apply Hg.
Qed.
End marks.

Lemma sim_markApplied keys t s : sim t s → mem_ok s → sim (idb_markApplied keys t) (markApplied keys s) ∧ mem_ok (markApplied keys s).
Proof. intros. by apply (sim_marks id (λ _ d, setApld d APLD_APPLIED None)). Qed.

Lemma sim_markFailed entries t s : sim t s → mem_ok s → sim (idb_markFailed entries t) (markFailed entries s) ∧ mem_ok (markFailed entries s).
Proof.
  intros. assert (markFailed entries s = fold_left (λ s x, mark (λ d, setApld d APLD_ERROR (Some x.2)) x.1 s) entries s) as ->.
  { clear. revert s. unfold markFailed. induction entries as [|[k e] entries IH]; intros s; [done|]. apply IH. }
  by apply (sim_marks fst (λ e d, setApld d APLD_ERROR (Some e.2))).
Qed.

(** The rows of the archive, in another order. *)
Lemma archive_perm t s : sim t s → mem_ok s → tb_rows (db_messages t) ≡ₚ st_messages s.
Proof. intros [] []. by apply tb_rows_perm. Qed.

Lemma listed_perm apld body t s :
  sim t s → mem_ok s → idb_msgs_list apld body t ≡ₚ (if body then id else fmap omit_body) (msgs_list apld s).
Proof.
  intros Hs Ho. unfold idb_msgs_list, msgs_list.
  transitivity ((λ '(key, data), listed body (unb64 key) data) <$> of_apld apld (st_messages s)).
  - unfold of_apld. destruct apld as [a|]; rewrite (archive_perm t s) by done; done.
  - match goal with |- ?x ≡ₚ ?y => assert (x = y) as ->; [|done] end.
    destruct apld as [a|]; cbn [of_apld]; induction (st_messages s) as [|[k d] m IH]; [by destruct body| |by destruct body|].
    + rewrite filter_cons. unfold omap in *. cbn [list_omap snd]. case_decide as E; [rewrite bool_decide_true by done|by rewrite bool_decide_false].
      cbn [fmap list_fmap]. rewrite IH. by destruct body.
    + unfold omap in *. cbn [list_omap fmap list_fmap] in *. rewrite IH. by destruct body.
Qed.

Lemma counted apld t s : sim t s → mem_ok s → idb_msgs_count apld t = msgs_count apld s.
Proof.
  intros Hs Ho. unfold idb_msgs_count, msgs_count, of_apld. f_equal. pose proof (archive_perm t s Hs Ho) as Hp.
  destruct apld as [a|]; f_equal; rewrite Hp; [|done]. unfold map_values. clear.
  induction (st_messages s) as [|[k d] m IH]; [done|]. cbn [fmap list_fmap snd]. rewrite !filter_cons. cbn [snd].
  case_decide; cbn [length]; by rewrite IH.
Qed.

Lemma keys_perm t s : sim t s → mem_ok s → idb_msgs_listKeys t ≡ₚ msgs_listKeys s.
Proof.
  intros Hs Ho. unfold idb_msgs_listKeys, msgs_listKeys, map_keys. rewrite (archive_perm t s) by done.
  by rewrite <-list_fmap_compose.
Qed.

Lemma got key t s : sim t s → idb_msgs_get key t = msgs_get key s ∧ idb_msgs_has key t = msgs_has key s.
Proof.
  intros Hs. unfold idb_msgs_has, idb_msgs_get, msgs_get, msgs_has, map_has. rewrite (si_msgs t s) by done.
  split; [done|]. apply bool_decide_ext. by rewrite fmap_is_Some.
Qed.

(** [last] finds a row that no row of the entity is later than. *)
Definition latest_of (eid : bytes) (rows : list (jsstr * IStoredMessageData)) (r : option (jsstr * IStoredMessageData)) : Prop :=
  match r with
  | None => ∀ k d, (k, d) ∈ rows → bytesEqual eid (sd_eid d) = false
  | Some (k, d) => (k, d) ∈ rows ∧ bytesEqual eid (sd_eid d) = true ∧
      ∀ k' d', (k', d') ∈ rows → bytesEqual eid (sd_eid d') = true → later_row d' d = false
  end.

Lemma later_row_head h h' d d' : later_row d d' = later_head (sm_head (toStoredMessage h d)) (sm_head (toStoredMessage h' d')).
Proof. done. Qed.

Lemma flt_trans_not a b c : flt b c = true → flt b a = false → flt c a = false.
Proof. unfold flt. destruct a, b, c; try done. rewrite Z.ltb_lt, !Z.ltb_ge. lia. Qed.

Lemma later_row_irrefl d : later_row d d = false.
Proof. unfold later_row, flt. rewrite Z.ltb_irrefl. destruct (default (Some 0) (sd_off d)); [|by rewrite andb_false_r]. by rewrite Z.ltb_irrefl, andb_false_r. Qed.

Lemma later_row_replaced y b d : later_row y b = false → later_row d b = true → later_row y d = false.
Proof.
  unfold later_row. rewrite orb_true_iff, !orb_false_iff, !andb_true_iff, !andb_false_iff, !Z.ltb_lt, !Z.ltb_ge, !Z.eqb_eq, !Z.eqb_neq.
  intros [H1 H2] [H3|[H3 H4]]; [split; [lia|left; lia]|]. split; [lia|].
  destruct (decide (default 0 (sd_ctr y) = default 0 (sd_ctr d))) as [E|]; [right|by left].
  destruct H2 as [?|H2]; [congruence|]. by eapply flt_trans_not.
Qed.

Lemma last_latest eid s : latest_of eid (st_messages s) (msgs_last eid s).
Proof.
  unfold msgs_last. induction (st_messages s) as [|[k d] m IH] using rev_ind; [by intros ?? ?%not_elem_of_nil|].
  rewrite fold_left_app. cbn [fold_left]. destruct (fold_left _ m None) as [[k0 d0]|].
  - destruct IH as (H1 & H2 & H3). destruct (bytesEqual eid (sd_eid d)) eqn:E; cbn [negb].
    + destruct (later_row d d0) eqn:El.
      * split_and!; [set_solver|done|]. intros k' d' [Hin|Hin]%elem_of_app He.
        -- eapply later_row_replaced; [by eapply H3|done].
        -- apply list_elem_of_singleton in Hin as [= -> ->]. apply later_row_irrefl.
      * split_and!; [set_solver|done|]. intros k' d' [Hin|Hin]%elem_of_app He; [by eapply H3|].
        by apply list_elem_of_singleton in Hin as [= -> ->].
    + split_and!; [set_solver|done|]. intros k' d' [Hin|Hin]%elem_of_app He; [by eapply H3|].
      apply list_elem_of_singleton in Hin as [= -> ->]. congruence.
  - destruct (bytesEqual eid (sd_eid d)) eqn:E; cbn [negb].
    + split_and!; [set_solver|done|]. intros k' d' [Hin|Hin]%elem_of_app He; [by rewrite (IH _ _ Hin) in He|].
      apply list_elem_of_singleton in Hin as [= -> ->]. apply later_row_irrefl.
    + intros k' d' [Hin|Hin]%elem_of_app; [by eapply IH|]. by apply list_elem_of_singleton in Hin as [= -> ->].
Qed.

Lemma idb_last_mem eid t :
  idb_msgs_last eid t = (λ '(key, data), toStoredMessage (unb64 key) data) <$>
    msgs_last eid (mkStore [] [] [] [] [] (tb_rows (db_messages t))).
Proof.
  unfold idb_msgs_last, msgs_last. cbn [st_messages]. f_equal. generalize (@None (jsstr * IStoredMessageData)).
  induction (tb_rows (db_messages t)) as [|[k d] m IH]; intros acc; [done|]. cbn [fold_left]. rewrite <-IH. f_equal.
  destruct (bytesEqual eid (sd_eid d)); [|done]. cbn [negb]. by destruct acc as [[? ?]|].
Qed.

Lemma last_same eid t s :
  sim t s → mem_ok s →
  option_Forall2 same_revision (idb_msgs_last eid t) ((λ '(key, data), toStoredMessage (unb64 key) data) <$> msgs_last eid s).
Proof.
  intros Hs Ho. rewrite idb_last_mem. pose proof (archive_perm t s Hs Ho) as Hp.
  pose proof (last_latest eid (mkStore [] [] [] [] [] (tb_rows (db_messages t)))) as H1. pose proof (last_latest eid s) as H2.
  cbn [st_messages] in H1. destruct (msgs_last eid _) as [[k d]|], (msgs_last eid s) as [[k' d']|]; cbn [fmap option_fmap option_map].
  - constructor. destruct H1 as (I1 & E1 & L1), H2 as (I2 & E2 & L2). unfold same_revision. rewrite <-!later_row_head.
    apply bytesEqual_spec in E1, E2. cbn. rewrite <-E1, <-E2. split_and!; [done| |].
    + eapply L2; [by rewrite <-Hp|by apply bytesEqual_spec].
    + eapply L1; [by rewrite Hp|by apply bytesEqual_spec].
  - destruct H1 as (I1 & E1 & _). rewrite (H2 k d) in E1; [done|]. by rewrite <-Hp.
  - destruct H2 as (I1 & E1 & _). rewrite (H1 k' d') in E1; [done|]. by rewrite Hp.
  - constructor.
Qed.

Lemma sim_msgs_wipe t s : sim t s → mem_ok s → sim (idb_msgs_wipe t) (msgs_wipe s) ∧ mem_ok (msgs_wipe s).
Proof. intros Hs Ho. apply sim_messages; [done..| |apply map_wf_nil]. intros k. apply tb_get_clear. Qed.

(** *** Queues *)

Lemma sim_downloads t s x ds :
  sim t s → mem_ok s → (∀ k, tb_get k x = map_get k ds) → map_wf ds → sim (with_downloads t x) (set_downloads s ds) ∧ mem_ok (set_downloads s ds).
Proof. intros [] [] ? ?. by split; split. Qed.

Lemma sim_dnl_enq msgs t s : sim t s → mem_ok s → sim (idb_dnl_enq msgs t) (dnl_enq msgs s) ∧ mem_ok (dnl_enq msgs s).
Proof.
  intros Hs Ho. apply (sim_downloads t s); [done..| |apply (map_sets_wf dl_key id), Ho]. intros k.
  rewrite (tb_get_puts dl_key id k), (map_get_sets dl_key id k). by rewrite (si_dnl t s).
Qed.

Lemma sim_dnl_deq host seqs realm t s : sim t s → mem_ok s → sim (idb_dnl_deq host seqs realm t) (dnl_deq host seqs realm s) ∧ mem_ok (dnl_deq host seqs realm s).
Proof.
  intros Hs Ho. apply (sim_downloads t s); [done..| |apply map_deletes_wf, Ho]. intros k.
  rewrite tb_get_deletes, map_get_deletes by apply Ho. by rewrite (si_dnl t s).
Qed.

Lemma sim_dnl_wipe t s : sim t s → mem_ok s → sim (idb_dnl_wipe t) (dnl_wipe s) ∧ mem_ok (dnl_wipe s).
Proof. intros Hs Ho. apply sim_downloads; [done..| |apply map_wf_nil]. intros k. apply tb_get_clear. Qed.

Lemma downloads_perm t s : sim t s → mem_ok s → tb_rows (db_downloads t) ≡ₚ st_downloads s.
Proof. intros [] []. by apply tb_rows_perm. Qed.

Lemma sim_uploads t s x us :
  sim t s → mem_ok s → map_wf us → (∀ l set, map_get l us = Some set → NoDup set) →
  (∀ l hex, tb_get (l, hex) x = if decide (hex ∈ default [] (map_get l us)) then Some (mkUpload l hex) else None) →
  sim (with_uploads t x) (set_uploads s us) ∧ mem_ok (set_uploads s us).
Proof. intros [] [] ? ? ?. by split; split. Qed.

Lemma adds_elem hshs set hex : hex ∈ fold_left (λ set h, set_add (btoh h) set) hshs set ↔ hex ∈ btoh <$> hshs ∨ hex ∈ set.
Proof. revert set. induction hshs as [|h hshs IH]; intros set; cbn [fold_left]; [set_solver|]. rewrite IH, elem_of_set_add. set_solver. Qed.
Lemma deletes_elem hshs set hex : hex ∈ fold_left (λ set h, set_delete (btoh h) set) hshs set ↔ hex ∈ set ∧ hex ∉ btoh <$> hshs.
Proof. revert set. induction hshs as [|h hshs IH]; intros set; cbn [fold_left]; [set_solver|]. rewrite IH, elem_of_set_delete. set_solver. Qed.
Lemma adds_NoDup hshs set : NoDup set → NoDup (fold_left (λ set h, set_add (btoh h) set) hshs set).
Proof. revert set. induction hshs as [|h hshs IH]; intros set ?; [done|]. by apply IH, set_add_NoDup. Qed.
Lemma deletes_NoDup hshs (set : list jsstr) : NoDup set → NoDup (fold_left (λ set h, set_delete (btoh h) set) hshs set).
Proof. revert set. induction hshs as [|h hshs IH]; intros set ?; [done|]. by apply IH, NoDup_filter. Qed.

Lemma sim_upl_enq host hshs t s : sim t s → mem_ok s → sim (idb_upl_enq host hshs t) (upl_enq host hshs s) ∧ mem_ok (upl_enq host hshs s).
Proof.
  intros Hs Ho. apply sim_uploads; [done..|apply map_set_wf, Ho| |].
  - intros l set. rewrite map_get_set. case_decide as E; [|apply Ho]. intros [= <-]. apply adds_NoDup.
    destruct (map_get host (st_uploads s)) as [set|] eqn:Es; [by eapply Ho|constructor].
  - intros l hex. rewrite (tb_get_puts (λ h, (host, btoh h)) (λ h, mkUpload host (btoh h))), (si_upl t s), map_get_set by done.
    assert (∀ acc, last_put (λ h, (host, btoh h)) (λ h, mkUpload host (btoh h)) (l, hex) hshs acc =
      if decide (l = host ∧ hex ∈ btoh <$> hshs) then Some (mkUpload l hex) else acc) as ->.
    { unfold last_put. induction hshs as [|h hshs IH]; intros acc; cbn [fold_left]; [by rewrite decide_False by set_solver|].
      rewrite IH. repeat case_decide; try set_solver; naive_solver. }
    unfold queued. destruct (decide (l = host)) as [->|]; cbn [default from_option id]; [|by rewrite decide_False by tauto].
    repeat case_decide; try done; rewrite ?adds_elem in *; tauto.
Qed.

Lemma sim_upl_deq host hshs t s : sim t s → mem_ok s → sim (idb_upl_deq host hshs t) (upl_deq host hshs s) ∧ mem_ok (upl_deq host hshs s).
Proof.
  intros Hs Ho.
  assert (Hg : ∀ l hex, tb_get (l, hex) (fold_left (λ u h, tb_delete (host, btoh h) u) hshs (db_uploads t)) =
    if decide (l = host ∧ hex ∈ btoh <$> hshs) then None else if decide (hex ∈ queued l s) then Some (mkUpload l hex) else None).
  { intros l hex. rewrite (tb_get_deletes (λ h, (host, btoh h))), (si_upl t s) by done.
    assert ((l, hex) ∈ (λ h, (host, btoh h)) <$> hshs ↔ l = host ∧ hex ∈ btoh <$> hshs) as He by set_solver.
    destruct (decide (l = host ∧ _)) as [Hd|Hd]; [by rewrite decide_True by tauto|by rewrite decide_False by tauto]. }
  unfold upl_deq, queued in *. destruct (map_get host (st_uploads s)) as [set|] eqn:Es.
  - apply sim_uploads; [done..|apply map_set_wf, Ho| |].
    + intros l set'. rewrite map_get_set. case_decide; [|apply Ho]. intros [= <-]. by eapply deletes_NoDup, Ho.
    + intros l hex. unfold idb_upl_deq. rewrite Hg, map_get_set. destruct (decide (l = host)) as [->|].
      * rewrite Es. cbn. repeat case_decide; try done; rewrite deletes_elem in *; tauto.
      * rewrite decide_False by tauto. done.
  - assert (s = set_uploads s (st_uploads s)) as -> by (by destruct s). apply sim_uploads; [by destruct s|by destruct s|apply Ho|apply Ho|].
    intros l hex. unfold idb_upl_deq. rewrite Hg. cbn. case_decide as E; [|done]. destruct E as [-> _]. rewrite Es. cbn. by rewrite decide_False by set_solver.
Qed.

Lemma sim_upl_wipe t s : sim t s → mem_ok s → sim (idb_upl_wipe t) (upl_wipe s) ∧ mem_ok (upl_wipe s).
Proof.
  intros Hs Ho. apply sim_uploads; [done..|apply map_wf_nil|done|]. intros l hex. rewrite tb_get_clear. cbn. by rewrite decide_False by set_solver.
Qed.

(** The rows of the upload queue, host by host. *)
Definition upload_rows (us : jsmap jsstr (list jsstr)) : list (jsstr * jsstr * UploadRow) :=
  us ≫= λ u, (λ hex, (u.1, hex, mkUpload u.1 hex)) <$> u.2.

Lemma elem_of_upload_rows us k v :
  map_wf us → (k, v) ∈ upload_rows us ↔ k.2 ∈ default [] (map_get k.1 us) ∧ v = mkUpload k.1 k.2.
Proof.
  intros Hw. unfold upload_rows. rewrite list_elem_of_bind. split.
  - intros ([l set] & Hk & Hin). apply list_elem_of_fmap in Hk as (hex & [= -> ->] & Hh). cbn.
    by rewrite (map_get_in _ _ _ Hw Hin).
  - destruct k as [l hex]. cbn. destruct (map_get l us) as [set|] eqn:E; cbn; [|set_solver]. intros [Hh ->].
    exists (l, set). split; [|by apply map_get_Some_in]. apply list_elem_of_fmap. by exists hex.
Qed.

Lemma upload_rows_NoDup us : map_wf us → (∀ l set, map_get l us = Some set → NoDup set) → NoDup (upload_rows us).
Proof.
  unfold map_wf, upload_rows. induction us as [|[l set] us IH]; intros Hw Hn; [constructor|]. cbn [mbind list_bind].
  pose proof Hw as Hw'. apply NoDup_cons in Hw' as [Hni Hw']. apply NoDup_app. split_and!.
  - apply NoDup_fmap_2_strong; [by intros ???? [=]|]. apply (Hn l). cbn. by rewrite decide_True.
  - intros x (hex & -> & _)%list_elem_of_fmap ([l' set'] & Hx & Hin)%list_elem_of_bind.
    apply list_elem_of_fmap in Hx as (? & [= -> ->] & _). apply Hni. by apply (list_elem_of_fmap_2 fst) in Hin.
  - apply IH; [done|]. intros l' set' E. apply (Hn l'). cbn. rewrite decide_False; [done|]. intros <-.
    apply map_get_Some_in in E. apply Hni. by apply (list_elem_of_fmap_2 fst) in E.
Qed.

Lemma uploads_perm t s : sim t s → mem_ok s → tb_rows (db_uploads t) ≡ₚ upload_rows (st_uploads s).
Proof.
  intros Hs Ho. apply tb_rows_are; [apply upload_rows_NoDup; apply Ho|]. intros [l hex] v.
  rewrite elem_of_upload_rows, (si_upl t s) by (done || apply Ho). unfold queued. cbn. case_decide; naive_solver.
Qed.

Lemma upl_count_same t s : sim t s → mem_ok s → idb_upl_count t = upl_count s.
Proof.
  intros Hs Ho. unfold idb_upl_count, upl_count. rewrite (uploads_perm t s) by done. clear.
  assert (∀ z, fold_left (λ total (set : list jsstr), total + Z.of_nat (length set)) (map_values (st_uploads s)) z = z + Z.of_nat (length (upload_rows (st_uploads s)))) as ->; [|lia].
  unfold upload_rows. induction (st_uploads s) as [|[l set] us IH]; intros z; cbn [map_values fmap list_fmap fold_left mbind list_bind snd]; [cbn; lia|].
  unfold map_values in IH. rewrite IH, length_app, length_fmap. cbn [snd]. lia.
Qed.

Lemma upl_list_same host t s : sim t s → mem_ok s → idb_upl_list host t ≡ₚ upl_list host s.
Proof.
  intros Hs Ho. unfold idb_upl_list, upl_list. apply omap_Permutation. rewrite (uploads_perm t s) by done.
  pose proof (mo_upl s Ho) as Hw. revert Hw. unfold map_wf, upload_rows, map_keys. clear.
  assert (Hf : ∀ l (set : list jsstr), ur_hash <$> filter (λ item, ur_host item = host) ((λ hex, (l, hex, mkUpload l hex)) <$> set).*2 = if decide (l = host) then set else []).
  { intros l set. induction set as [|h set IH]; [by case_decide|]. cbn [fmap list_fmap snd]. rewrite filter_cons. cbn [ur_host].
    case_decide; cbn [fmap list_fmap ur_hash]; by rewrite IH. }
  induction (st_uploads s) as [|[l set] us IH]; intros Hw; [done|]. apply NoDup_cons in Hw as [Hni Hw]. cbn [mbind list_bind fst snd map_get].
  rewrite fmap_app, filter_app, fmap_app, Hf. destruct (decide (l = host)) as [->|]; [rewrite decide_True by done|rewrite decide_False by done; by apply IH].
  rewrite IH by done. rewrite (proj2 (map_get_None host us)) by done. cbn. by rewrite app_nil_r.
Qed.

(** *** Realms *)

Lemma decode_realm_val l r : realm_ok l r → decodeRealm (realm_val r) = Some r.
Proof.
  intros (_ & Hi & Hp). unfold decodeRealm. change (isRec (realm_val r)) with true.
  change (field "label" (realm_val r)) with (VStr (rl_label r)). change (field "index" (realm_val r)) with (VNum (Some (rl_index r))).
  assert (Hn : ∀ n, 0 <= n → as_index (VNum (Some n)) = Some n).
  { intros n ?. unfold as_index, isIndex. cbn. by rewrite (proj2 (Z.leb_le 0 n)). }
  cbn [negb as_str mbind option_bind]. rewrite Hn by done. cbn [mbind option_bind].
  destruct r as [lab i [ps|]]; cbn [rl_prior rl_label rl_index] in *; [|reflexivity].
  change (field "prior" (realm_val (mkRealm lab i (Some ps)))) with (VArr ((λ n, VNum (Some n)) <$> ps)).
  destruct Hp as [Hne Hp]. cbv iota beta.
  assert (mapM as_index ((λ n, VNum (Some n)) <$> ps) = Some ps) as ->; [|by destruct ps].
  clear Hne. induction Hp as [|n ps Hn0 _ IH]; [done|]. cbn [fmap list_fmap mapM mbind option_bind]. rewrite Hn by done.
  cbn [mbind option_bind]. by rewrite IH.
Qed.

Lemma advance_realm_ok l prev i next :
  (∀ p, prev = Some p → realm_ok l p) → advanceRealm l prev i = Ok next → realm_ok l next.
Proof.
  unfold advanceRealm, isIndex, realm_ok. destruct (Z.leb_spec 0 i); cbn [negb]; [|done]. destruct prev as [p|]; [|by intros _ [= <-]].
  intros Hp. destruct (Hp p eq_refl) as (H1 & H2 & H3). destruct (Z.ltb_spec i (rl_index p)); [done|].
  destruct (Z.ltb_spec (rl_index p) i); intros [= <-]; cbn; split_and!; try done.
  - by destruct (default [] (rl_prior p)).
  - apply Forall_app. split; [|by apply Forall_singleton]. by destruct (rl_prior p) as [ps|]; [apply H3|constructor].
Qed.

Lemma realms_get_same l t s : sim t s → mem_ok s → idb_realms_get l t = map_get l (st_realms s).
Proof.
  intros Hs Ho. unfold idb_realms_get. rewrite (si_realms t s) by done. destruct (map_get l (st_realms s)) as [r|] eqn:E; [|done].
  cbn. by eapply decode_realm_val, Ho.
Qed.

Lemma sim_realms t s x rs :
  sim t s → mem_ok s → (∀ k, tb_get k x = realm_val <$> map_get k rs) → map_wf rs → (∀ l r, map_get l rs = Some r → realm_ok l r) →
  sim (with_realms t x) (set_realms s rs) ∧ mem_ok (set_realms s rs).
Proof. intros [] [] ? ? ?. by split; split. Qed.

Lemma sim_realms_put l i t s :
  sim t s → mem_ok s →
  (idb_realms_put l i t).1 = (realms_put l i s).1 ∧ sim (idb_realms_put l i t).2 (realms_put l i s).2 ∧ mem_ok (realms_put l i s).2.
Proof.
  intros Hs Ho. unfold idb_realms_put, realms_put. rewrite (realms_get_same l t s) by done.
  destruct (advanceRealm l (map_get l (st_realms s)) i) as [next|st|] eqn:E; [|by split_and!..]. cbn [fst snd]. split; [done|].
  assert (Hn : realm_ok l next) by (eapply advance_realm_ok, E; intros p; apply Ho).
  pose proof Hn as [Hl _]. rewrite Hl. apply sim_realms; [done..| |apply map_set_wf, Ho|].
  - intros k. rewrite tb_get_put, map_get_set, (si_realms t s) by done. by case_decide.
  - intros k r. rewrite map_get_set. case_decide; [|apply Ho]. by intros [= <-]; subst.
Qed.

Lemma sim_realms_wipe t s : sim t s → mem_ok s → sim (idb_realms_wipe t) (realms_wipe s) ∧ mem_ok (realms_wipe s).
Proof. intros Hs Ho. apply sim_realms; [done..| |apply map_wf_nil|done]. intros k. by rewrite tb_get_clear. Qed.

Lemma realms_list_same t s : sim t s → mem_ok s → idb_realms_list t ≡ₚ realms_list s.
Proof.
  intros Hs Ho. unfold idb_realms_list, realms_list.
  rewrite (tb_rows_are (db_realms t) (prod_map id realm_val <$> st_realms s)).
  - pose proof (mo_realm s Ho) as Hr. pose proof (mo_realms s Ho) as Hw. revert Hr Hw. clear. unfold map_wf, map_values, map_keys.
    induction (st_realms s) as [|[l r] m IH]; intros Hr Hw; [done|]. apply NoDup_cons in Hw as [Hni Hw].
    unfold omap in *. cbn [list_omap fmap list_fmap prod_map snd]. rewrite (decode_realm_val l r) by (apply Hr; cbn; by rewrite decide_True).
    rewrite IH; [done| |done]. intros l' r' E. apply Hr. cbn. rewrite decide_False; [done|]. intros <-.
    apply Hni. apply map_get_Some_in in E. by apply (list_elem_of_fmap_2 fst) in E.
  - eapply (NoDup_fmap_1 fst). rewrite <-list_fmap_compose. change (NoDup (fst <$> st_realms s)). apply Ho.
  - intros k v. rewrite (si_realms t s), list_elem_of_fmap by done. split.
    + intros ([l r] & E & Hin). injection E as -> ->. apply map_get_in in Hin; [|apply Ho]. unfold id. by rewrite Hin.
    + intros (r & Hg & ->)%fmap_Some. exists (k, r). split; [done|]. by apply map_get_Some_in.
Qed.

(** *** Hosts *)

Lemma sim_hosts t s x hs :
  sim t s → mem_ok s → (∀ k, tb_get k x = kept_host <$> map_get k hs) → map_wf hs → (∀ l row, map_get l hs = Some row → row_ok linked l row) →
  sim (with_hosts t x) (set_hosts s hs) ∧ mem_ok (set_hosts s hs).
Proof. intros [] [] ? ? ?. by split; split. Qed.

Lemma sim_cursors t s x cs :
  sim t s → mem_ok s → map_wf cs → (∀ l b, map_get l cs = Some b → bucket_ok b) →
  (∀ l r, tb_get (seq_key l r) x = cursor_val l <$> map_get (realmKey r) (default [] (map_get l cs))) →
  sim (with_seqs t x) (set_cursors s cs) ∧ mem_ok (set_cursors s cs).
Proof. intros [] [] ? ? ?. by split; split. Qed.

Lemma isCursor_val l c : 0 <= rc_lastSeq c → isCursor (cursor_val l c) = Some (l, c).
Proof.
  intros Hc. unfold isCursor. change (isRec (cursor_val l c)) with true. change (field "host" (cursor_val l c)) with (VStr l).
  change (field "label" (cursor_val l c)) with (VStr (kdm_label (rc_kdm c))). change (field "index" (cursor_val l c)) with (VNum (Some (kdm_index (rc_kdm c)))).
  change (field "lastSeq" (cursor_val l c)) with (VNum (Some (rc_lastSeq c))). cbn [negb as_str as_num mbind option_bind].
  rewrite (proj2 (Z.leb_le _ _)) by done. by destruct c as [[]].
Qed.

Lemma bucket_is_ok l s : mem_ok s → bucket_ok (bucket l s).
Proof. intros Ho. unfold bucket. destruct (map_get l (st_cursors s)) as [b|] eqn:E; [by eapply Ho|]. split; [apply map_wf_nil|done]. Qed.

(** The cursor rows an index query finds are the host's bucket. *)
Lemma seqs_of_perm l t s :
  sim t s → mem_ok s → seqs_of l t ≡ₚ (λ c, (seq_key l (rc_kdm c), cursor_val l c)) <$> map_values (bucket l s).
Proof.
  intros Hs Ho. pose proof (bucket_is_ok l s Ho) as [Hw Hk]. apply NoDup_Permutation.
  - apply NoDup_filter. eapply (NoDup_fmap_1 fst), tb_rows_once.
  - eapply (NoDup_fmap_1 (λ x : SeqKey * jsval, mkKDM x.1.1.2 x.1.2)). rewrite <-list_fmap_compose.
    erewrite list_fmap_ext; [apply bucket_kdms; [done|intros; by eapply Hk]|]. by intros i [[] ?] _.
  - intros [[[l' rl] i] v]. unfold seqs_of. rewrite list_elem_of_filter, tb_rows_get.
    change (l', rl, i) with (seq_key l' (mkKDM rl i)). rewrite (si_seqs t s) by done. cbn [snd]. rewrite list_elem_of_fmap. split.
    + intros [Hh (c & Hc & ->)%fmap_Some]. change (Some l' = Some l) in Hh. injection Hh as ->.
      destruct (Hk _ _ Hc) as [E _]. apply realmKey_inj in E. exists c. rewrite <-E. split; [done|].
      apply map_get_Some_in in Hc. by apply (list_elem_of_fmap_2 snd) in Hc.
    + intros (c & E & Hin). assert (l' = l ∧ mkKDM rl i = rc_kdm c ∧ v = cursor_val l c) as (-> & Er & ->).
      { injection E as -> -> -> ->. by destruct (rc_kdm c). }
      split; [done|]. rewrite Er. apply list_elem_of_fmap in Hin as ([k c'] & E' & Hin). cbn in E'. subst c'.
      apply map_get_in in Hin; [|done]. destruct (Hk _ _ Hin) as [-> _]. by rewrite Hin.
Qed.

Lemma cursorsOf_perm l t s : sim t s → mem_ok s → cursorsOf (seqs_of l t).*2 ≡ₚ map_values (bucket l s).
Proof.
  intros Hs Ho. unfold cursorsOf. rewrite (seqs_of_perm l t s) by done. pose proof (bucket_is_ok l s Ho) as [Hw Hk].
  assert (Hv : ∀ c, c ∈ map_values (bucket l s) → 0 <= rc_lastSeq c).
  { intros c ([k c'] & -> & Hin)%list_elem_of_fmap. by eapply Hk, map_get_in. }
  revert Hv. clear. induction (map_values (bucket l s)) as [|c cs IH]; intros Hv; [done|].
  unfold omap in *. cbn [fmap list_fmap list_omap snd]. rewrite isCursor_val by (apply Hv; set_solver). cbn [fmap option_fmap option_map snd].
  rewrite IH; [done|]. intros. apply Hv. set_solver.
Qed.

Lemma project_perm cs cs' :
  NoDup (rc_kdm <$> cs) → cs ≡ₚ cs' →
  cr_lastSeq (projectCursors cs) = cr_lastSeq (projectCursors cs') ∧ option_Forall2 (≡ₚ) (cr_seqs (projectCursors cs)) (cr_seqs (projectCursors cs')).
Proof.
  intros Hn Hp. assert (Hn' : NoDup (rc_kdm <$> cs')) by (by rewrite <-Hp). split.
  - change (cursorOf (projectCursors cs) nullKDM = cursorOf (projectCursors cs') nullKDM).
    destruct (decide (nullKDM ∈ rc_kdm <$> cs)) as [Hin|Hni].
    + apply list_elem_of_fmap in Hin as (c & -> & Hin). rewrite (project_hit cs) by done. symmetry. apply project_hit; [done|]. by rewrite <-Hp.
    + rewrite project_miss by done. symmetry. apply project_miss. by rewrite <-Hp.
  - unfold projectCursors. rewrite !project_fold. cbn.
    assert (Hf : filter (λ c, other_cursor c = true) cs ≡ₚ filter (λ c, other_cursor c = true) cs') by (by rewrite Hp).
    destruct (filter _ cs) as [|c l]; [apply Permutation_nil_l in Hf; rewrite <-Hf; constructor|].
    destruct (filter _ cs') as [|c' l']; [by apply Permutation_nil_r in Hf|]. by constructor.
Qed.

Lemma host_back l row cs cs' :
  hi_label (hr_info row) = l → NoDup (rc_kdm <$> cs) → cs ≡ₚ cs' → same_host (idbRowToHostRow (kept_host row) cs) (row, projectCursors cs').
Proof.
  intros <- Hn Hp. destruct (project_perm cs cs' Hn Hp) as [H1 H2]. split_and!; [|done..]. destruct row as [[l h i] meta].
  split; [|by destruct meta as [[sub off]|]]. split_and!; [done| |done]. apply href_new_URL.
Qed.

Lemma cursors_kdms l t s : sim t s → mem_ok s → NoDup (rc_kdm <$> cursorsOf (seqs_of l t).*2).
Proof.
  intros Hs Ho. rewrite (cursorsOf_perm l t s) by done. destruct (bucket_is_ok l s Ho) as [Hw Hk]. apply bucket_kdms; [done|]. intros. by eapply Hk.
Qed.

Lemma hosts_get_same l t s : sim t s → mem_ok s → option_Forall2 same_host (idb_hosts_get l t) (get_host l s).
Proof.
  intros Hs Ho. unfold idb_hosts_get, get_host, hosts_get, st_hosts. rewrite (si_hosts t s) by done.
  destruct (map_get l (st_hostRows s)) as [row|] eqn:E; [|constructor]. cbn [fmap option_fmap option_map].
  rewrite bool_decide_true by (apply map_get_Some_in in E; by apply (list_elem_of_fmap_2 fst) in E).
  constructor. eapply host_back; [by eapply Ho|by eapply cursors_kdms|by apply cursorsOf_perm].
Qed.

Lemma byHost_get l raw :
  default [] (map_get l (byHost raw)) = omap (M := list) (λ v, match isCursor v with Some (h, c) => if decide (h = l) then Some c else None | None => None end) raw.
Proof.
  unfold byHost. induction raw as [|v raw IH] using rev_ind; [done|]. rewrite fold_left_app, omap_app. cbn [fold_left].
  rewrite <-IH. unfold omap at 1. cbn [list_omap]. destruct (isCursor v) as [[h c]|]; [|by rewrite app_nil_r].
  rewrite map_get_set. destruct (decide (h = l)) as [->|]; [by rewrite decide_True|by rewrite decide_False, app_nil_r].
Qed.

Lemma byHost_cursors l (rows : list (SeqKey * jsval)) :
  default [] (map_get l (byHost rows.*2)) = cursorsOf (filter (λ row, as_str (field "host" row.2) = Some l) rows).*2.
Proof.
  rewrite byHost_get. unfold cursorsOf. induction rows as [|[k v] rows IH]; [done|]. rewrite filter_cons. cbn [snd].
  unfold omap in *. cbn [fmap list_fmap list_omap snd]. rewrite IH.
  assert (Hh : ∀ h c, isCursor v = Some (h, c) → as_str (field "host" v) = Some h).
  { unfold isCursor, mbind, option_bind. intros h c. repeat case_match; congruence. }
  destruct (isCursor v) as [[h c]|] eqn:E.
  - rewrite (Hh _ _ eq_refl). destruct (decide (h = l)) as [->|].
    + rewrite decide_True by done. cbn [fmap list_fmap list_omap snd]. by rewrite E.
    + by rewrite decide_False by congruence.
  - case_decide; [|done]. cbn [fmap list_fmap list_omap snd]. by rewrite E.
Qed.

Lemma hosts_list_same t s : sim t s → mem_ok s → ∃ z, idb_hosts_list t ≡ₚ z ∧ Forall2 same_host z (hosts_list s).
Proof.
  intros Hs Ho.
  exists ((λ x, idbRowToHostRow (kept_host x.2) (cursorsOf (seqs_of x.1 t).*2)) <$> st_hostRows s). split.
  - unfold idb_hosts_list. rewrite (tb_rows_are (db_hosts t) (prod_map id kept_host <$> st_hostRows s)).
    + rewrite <-!list_fmap_compose. match goal with |- ?x ≡ₚ ?y => assert (x = y) as ->; [|done] end.
      apply list_fmap_ext. intros i [l row] Hi%list_elem_of_lookup_2. cbn [compose prod_map snd fst id].
      apply map_get_in, (mo_host s Ho), proj1 in Hi; [|apply Ho]. change (sh_label (kept_host row)) with (hi_label (hr_info row)).
      rewrite Hi, byHost_cursors. done.
    + eapply (NoDup_fmap_1 fst). rewrite <-list_fmap_compose. change (NoDup (fst <$> st_hostRows s)). apply Ho.
    + intros k v. rewrite (si_hosts t s), list_elem_of_fmap by done. split.
      * intros ([l r] & E & Hin). injection E as -> ->. apply map_get_in in Hin; [|apply Ho]. unfold id. by rewrite Hin.
      * intros (r & Hg & ->)%fmap_Some. exists (k, r). split; [done|]. by apply map_get_Some_in.
  - unfold hosts_list. apply Forall2_fmap_2. apply Forall_Forall2_diag, Forall_forall. intros [l row] Hin. cbn [fst snd].
    apply host_back with l; [eapply (mo_host s Ho), map_get_in; [apply Ho|done]|by eapply cursors_kdms|by apply cursorsOf_perm].
Qed.

Lemma sim_drop l t s :
  sim t s → mem_ok s →
  sim (drop_seqs l t) (set_cursors s (map_delete l (st_cursors s))) ∧ mem_ok (set_cursors s (map_delete l (st_cursors s))).
Proof.
  intros Hs Ho.
  assert (Hin : ∀ k, k ∈ (seqs_of l t).*1 ↔ k ∈ (λ c, seq_key l (rc_kdm c)) <$> map_values (bucket l s)).
  { intros k. by rewrite (seqs_of_perm l t s), <-list_fmap_compose. }
  apply sim_cursors; [done..|apply map_delete_wf, Ho| |].
  - intros l' b. rewrite map_get_delete by apply Ho. case_decide; [done|apply Ho].
  - intros l' r. rewrite tb_get_deletes, list_fmap_id, map_get_delete by apply Ho.
    destruct (decide (l' = l)) as [->|Hne].
    + cbn [default from_option map_get]. case_decide as Hd; [done|]. rewrite (si_seqs t s) by done.
      destruct (map_get (realmKey r) (bucket l s)) as [c|] eqn:E; [|done]. exfalso. apply Hd, Hin.
      destruct (bucket_is_ok l s Ho) as [_ Hk]. destruct (Hk _ _ E) as [Hr _]. apply realmKey_inj in Hr as ->.
      apply (list_elem_of_fmap_2 (λ c, seq_key l (rc_kdm c))). apply map_get_Some_in in E. by apply (list_elem_of_fmap_2 snd) in E.
    + rewrite decide_False; [by apply (si_seqs t s)|]. rewrite Hin. intros (c & E & _)%list_elem_of_fmap. injection E. congruence.
Qed.

Lemma sim_put_host l row t s :
  sim t s → mem_ok s → row_ok linked l row →
  sim (with_hosts t (tb_put l (kept_host row) (db_hosts t))) (set_hosts s (map_set l row (st_hostRows s))) ∧
  mem_ok (set_hosts s (map_set l row (st_hostRows s))).
Proof.
  intros Hs Ho Hl. apply sim_hosts; [done..| |apply map_set_wf, Ho|].
  - intros k. rewrite tb_get_put, map_get_set, (si_hosts t s) by done. by case_decide.
  - intros k row'. rewrite map_get_set. case_decide; [|apply Ho]. by intros [= <-]; subst.
Qed.

Lemma hosts_get_row l t s row : sim t s → mem_ok s → map_get l (st_hostRows s) = Some row →
  ∃ row' cs, idb_hosts_get l t = Some (row', cs) ∧ alike_row row' row.
Proof.
  intros Hs Ho E. pose proof (hosts_get_same l t s Hs Ho) as H. unfold get_host in H. rewrite E in H.
  destruct (hosts_get l s) eqn:Eh.
  - inversion H as [[row' cs] b [H1 _]|]; subst. cbn in H1. by exists row', cs.
  - unfold hosts_get, st_hosts in Eh. rewrite bool_decide_true in Eh; [done|]. apply map_get_Some_in in E. by apply (list_elem_of_fmap_2 fst) in E.
Qed.

Lemma hosts_get_none l t s : sim t s → map_get l (st_hostRows s) = None → idb_hosts_get l t = None.
Proof. intros Hs E. unfold idb_hosts_get. by rewrite (si_hosts t s), E. Qed.

(** The database has the same text for two rows alike. *)
Lemma storedHost_same a b off sub : same_info a b → storedHost a off sub = storedHost b off sub.
Proof. intros (Hl & Hh & Hi). unfold storedHost. by rewrite Hl, Hh, Hi. Qed.

Lemma sim_hosts_add info t s :
  sim t s → mem_ok s → linked (hi_label info) (hi_handle info) → sim (idb_hosts_add info t) (hosts_add info s) ∧ mem_ok (hosts_add info s).
Proof.
  intros Hs Ho Hli. unfold idb_hosts_add, hosts_add. set (l := hi_label info).
  assert (Hfresh : sim (with_hosts (drop_seqs l t) (tb_put l (kept_host (mkHostRow info None)) (db_hosts t)))
    (set_hosts (set_cursors s (map_delete l (st_cursors s))) (map_set l (mkHostRow info None) (st_hostRows s))) ∧
    mem_ok (set_hosts (set_cursors s (map_delete l (st_cursors s))) (map_set l (mkHostRow info None) (st_hostRows s)))).
  { destruct (sim_drop l t s Hs Ho) as [Hs' Ho']. by apply (sim_put_host l (mkHostRow info None) (drop_seqs l t) _ Hs' Ho'). }
  destruct (map_get l (st_hostRows s)) as [prev|] eqn:E.
  - destruct (hosts_get_row l t s prev Hs Ho E) as (prev' & cs & -> & (_ & Hh & Hi) & Hm). unfold idb_hosts_add_with, same_link.
    destruct (mo_host s Ho _ _ E) as [_ Hlp]. cbn [mbind option_bind fst]. rewrite Hh, Hi, Hm.
    assert (bool_decide (href (hi_handle (hr_info prev)) = href (hi_handle info)) = Nat.eqb (hi_handle (hr_info prev)) (hi_handle info)) as ->.
    { destruct (Nat.eqb_spec (hi_handle (hr_info prev)) (hi_handle info)) as [->|Hne]; [by apply bool_decide_true|].
      apply bool_decide_false. intros Eh. by eapply Hne, linked_once. }
    destruct (_ && _); [|exact Hfresh]. by apply (sim_put_host l (mkHostRow info (hr_meta prev))).
  - rewrite (hosts_get_none l t s) by done. exact Hfresh.
Qed.

Lemma sim_hosts_set l meta t s :
  sim t s → mem_ok s →
  (idb_hosts_set l meta t).1 = (hosts_set l meta s).1 ∧ sim (idb_hosts_set l meta t).2 (hosts_set l meta s).2 ∧ mem_ok (hosts_set l meta s).2.
Proof.
  intros Hs Ho. unfold idb_hosts_set, hosts_set. destruct (map_get l (st_hostRows s)) as [row|] eqn:E.
  - destruct (hosts_get_row l t s row Hs Ho E) as (row' & cs & -> & Hi & _). cbn [fst snd]. split; [done|]. unfold idb_hosts_set_with.
    rewrite (storedHost_same _ _ _ _ Hi), (proj1 Hi), (proj1 (mo_host s Ho _ _ E)). exact (sim_put_host l (mkHostRow (hr_info row) (Some meta)) t s Hs Ho (mo_host s Ho _ _ E)).
  - by rewrite (hosts_get_none l t s).
Qed.

Lemma sim_hosts_del l t s : sim t s → mem_ok s → sim (idb_hosts_del l t) (hosts_del l s) ∧ mem_ok (hosts_del l s).
Proof.
  intros Hs Ho. destruct (sim_hosts t s (tb_delete l (db_hosts t)) (map_delete l (st_hostRows s))) as [Hs' Ho']; [done..| |apply map_delete_wf, Ho| |].
  - intros k. rewrite tb_get_delete, map_get_delete, (si_hosts t s) by (done || apply Ho). by case_decide.
  - intros k row. rewrite map_get_delete by apply Ho. case_decide; [done|apply Ho].
  - exact (sim_drop l _ _ Hs' Ho').
Qed.

Lemma sim_hosts_wipe t s : sim t s → mem_ok s → sim (idb_hosts_wipe t) (hosts_wipe s) ∧ mem_ok (hosts_wipe s).
Proof.
  intros Hs Ho. destruct (sim_hosts t s (tb_clear (db_hosts t)) []) as [Hs' Ho']; [done..| |apply map_wf_nil|done|].
  - intros k. by rewrite tb_get_clear.
  - apply (sim_cursors _ _ (tb_clear (db_seqs t)) [] Hs' Ho'); [apply map_wf_nil|done|]. intros l r. by rewrite tb_get_clear.
Qed.

Definition update_ok (u : HostSeqsUpdate) : Prop := match hs_setLastSeq u with Some n => 0 <= n | None => True end.

Lemma nextCursor_nonneg cur u next : 0 <= cur → update_ok u → nextCursor cur u = Some next → 0 <= next.
Proof.
  unfold nextCursor, update_ok. destruct (hs_setLastSeq u); [by intros ?? [= <-]|]. destruct (hs_lastSeq u) as [n|]; [|done].
  destruct (Z.ltb_spec cur n); [|done]. intros ? _ [= <-]. lia.
Qed.

Lemma sim_recordSeqs l u realm t s :
  sim t s → mem_ok s → update_ok u → sim (idb_recordSeqs l u realm t) (recordSeqs l u realm s) ∧ mem_ok (recordSeqs l u realm s).
Proof.
  intros Hs Ho Hu. unfold idb_recordSeqs, recordSeqs, st_hosts. set (r := default nullKDM realm). rewrite (si_hosts t s) by done.
  pose proof (map_get_None l (st_hostRows s)) as Hn. destruct (map_get l (st_hostRows s)) as [row|] eqn:E; cbn [fmap option_fmap option_map].
  2: { rewrite bool_decide_false by (by apply Hn). done. }
  rewrite bool_decide_true by (destruct (decide (l ∈ map_keys (st_hostRows s))) as [|Hni]; [done|by apply Hn in Hni]). cbn [negb].
  rewrite (si_seqs t s) by done. destruct (bucket_is_ok l s Ho) as [Hw Hk]. unfold bucket in *.
  set (b := default [] (map_get l (st_cursors s))) in *.
  assert (match map_get l (st_cursors s) with Some b => match map_get (realmKey r) b with Some c => rc_lastSeq c | None => 0 end | None => 0 end =
    match map_get (realmKey r) b with Some c => rc_lastSeq c | None => 0 end) as ->.
  { unfold b. by destruct (map_get l (st_cursors s)). }
  assert (match isCursor (default VUndef (cursor_val l <$> map_get (realmKey r) b)) with Some (_, c) => rc_lastSeq c | None => 0 end =
    match map_get (realmKey r) b with Some c => rc_lastSeq c | None => 0 end) as ->.
  { destruct (map_get (realmKey r) b) as [c|] eqn:Ec; [|done]. cbn [fmap option_fmap option_map default from_option id].
    rewrite isCursor_val; [done|]. by eapply Hk. }
  destruct (nextCursor _ u) as [next|] eqn:En; [|done].
  assert (0 <= next).
  { eapply nextCursor_nonneg, En; [|done]. destruct (map_get (realmKey r) b) as [c|] eqn:Ec; [by eapply Hk|lia]. }
  apply sim_cursors; [done..|apply map_set_wf, Ho| |].
  - intros l' b'. rewrite map_get_set. case_decide; [|apply Ho]. intros [= <-]. split; [by apply map_set_wf|].
    intros k c. rewrite map_get_set. case_decide; [|apply Hk]. intros [= <-]. by subst.
  - intros l' r'. rewrite tb_get_put, map_get_set, (si_seqs t s) by done. unfold bucket. destruct (decide (l' = l)) as [->|Hne].
    + cbn [default from_option id]. rewrite map_get_set. fold b. destruct (decide (r' = r)) as [->|Hr].
      * by rewrite !decide_True.
      * rewrite decide_False by (intros [= ? ?]; apply Hr; destruct r', r; cbn in *; congruence).
        by rewrite decide_False by (by intros ?%realmKey_inj).
    + by rewrite decide_False by (intros [= ? ?]; congruence).
Qed.

(** *** All calls *)

Definition op_ok (op : StoreOp) : Prop := match op with
  | HostRecordSeqs _ u _ => update_ok u
  | HostAdd info => linked (hi_label info) (hi_handle info)
  | _ => True
  end.

Lemma call_sim op t s :
  sim t s → mem_ok s → op_ok op →
  let '(a, t') := idb_call op t in let '(b, s') := mem_call op s in same_answer a b ∧ sim t' s' ∧ mem_ok s'.
Proof.
  intros Hs Ho Hop. destruct op; cbn [idb_call mem_call].
  - rewrite add_clean. cbn [default from_option id]. split; [done|]. pose proof (sim_add msgs t s Hs Ho) as H. by rewrite add_clean in H.
  - split; [done|]. by apply sim_del.
  - destruct (got key t s Hs) as [-> _]. done.
  - destruct (got key t s Hs) as [_ ->]. done.
  - split; [|done]. by apply listed_perm.
  - by rewrite (counted apld t s).
  - split; [|done]. by apply keys_perm.
  - split; [|done]. by apply last_same.
  - split; [done|]. by apply sim_markApplied.
  - split; [done|]. by apply sim_markFailed.
  - split; [done|]. by apply sim_msgs_wipe.
  - split; [done|]. by apply sim_upl_enq.
  - split; [done|]. by apply sim_upl_deq.
  - split; [|done]. by apply upl_list_same.
  - by rewrite (upl_count_same t s).
  - split; [done|]. by apply sim_upl_wipe.
  - split; [done|]. by apply sim_dnl_enq.
  - split; [done|]. by apply sim_dnl_deq.
  - split; [|done]. cbn. unfold idb_dnl_list, dnl_list. by rewrite (downloads_perm t s).
  - split; [|done]. cbn. unfold idb_dnl_count, dnl_count. by rewrite (downloads_perm t s).
  - split; [done|]. by apply sim_dnl_wipe.
  - split; [|done]. by apply realms_list_same.
  - by rewrite (realms_get_same label t s).
  - pose proof (sim_realms_put label index t s Hs Ho) as (H1 & H2 & H3).
    destruct (idb_realms_put label index t), (realms_put label index s). cbn in *. by subst.
  - split; [done|]. by apply sim_realms_wipe.
  - split; [done|]. by apply sim_hosts_add.
  - split; [|done]. by apply hosts_get_same.
  - split; [done|]. by apply sim_hosts_del.
  - pose proof (sim_hosts_set label meta t s Hs Ho) as (H1 & H2 & H3).
    destruct (idb_hosts_set label meta t), (hosts_set label meta s). cbn in *. by subst.
  - split; [|done]. by apply hosts_list_same.
  - split; [done|]. by apply sim_recordSeqs.
  - split; [done|]. by apply sim_recordSeqs.
  - split; [done|]. by apply sim_hosts_wipe.
  - split; [done|]. destruct (sim_hosts_wipe t s Hs Ho) as [H1 O1]. destruct (sim_upl_wipe _ _ H1 O1) as [H2 O2].
    destruct (sim_dnl_wipe _ _ H2 O2) as [H3 O3]. by apply sim_msgs_wipe.
Qed.

Lemma run_sim ops t s :
  sim t s → mem_ok s → Forall op_ok ops →
  Forall2 same_answer (run_calls idb_call ops t).1 (run_calls mem_call ops s).1 ∧
  sim (run_calls idb_call ops t).2 (run_calls mem_call ops s).2 ∧ mem_ok (run_calls mem_call ops s).2.
Proof.
  intros Hs Ho Hops. revert t s Hs Ho. induction Hops as [|op ops Hop _ IH]; intros t s Hs Ho; [by split; [constructor|]|].
  cbn [run_calls]. pose proof (call_sim op t s Hs Ho Hop) as H. destruct (idb_call op t) as [a t'], (mem_call op s) as [b s'].
  destruct H as (Ha & Hs' & Ho'). destruct (IH t' s' Hs' Ho') as (Has & H).
  destruct (run_calls idb_call ops t') as [as1 t1], (run_calls mem_call ops s') as [as2 s1]. split; [by constructor|done].
Qed.

(** A database with no row, and the in-memory store with none. *)
Record fresh t : Prop := {
  fr_hosts k : tb_get k (db_hosts t) = None; fr_seqs k : tb_get k (db_seqs t) = None; fr_uploads k : tb_get k (db_uploads t) = None;
  fr_downloads k : tb_get k (db_downloads t) = None; fr_messages k : tb_get k (db_messages t) = None; fr_realms k : tb_get k (db_realms t) = None;
}.
Definition no_rows : Store := mkStore [] [] [] [] [] [].

Lemma fresh_sim t : fresh t → sim t no_rows ∧ mem_ok no_rows.
Proof.
  intros []. split; split; try done; try apply map_wf_nil; intros; rewrite ?fr_seqs0, ?fr_uploads0, ?fr_realms0, ?fr_hosts0; done.
Qed.

(** Before a database is open, reads answer like a store without rows, writes are
    refused or do nothing, and the store stays closed. *)
Definition is_read (op : StoreOp) : bool :=
  match op with
  | MsgGet _ | MsgHas _ | MsgList _ _ | MsgCount _ | MsgListKeys | MsgLast _ | UplList _ | UplCount | DnlList | DnlCount
  | RealmList | RealmGet _ | HostGet _ | HostList => true
  | _ => false
  end.

Lemma idle_answers_empty op : store_call (TH := TH) (TS := TS) (TU := TU) (TD := TD) (TM := TM) (TR := TR) op None = (idle_call op, None) ∧
  (is_read op = true → same_answer (idle_call op) (mem_call op no_rows).1).
Proof.
  split; [done|]. destruct op; try done; intros _; try by constructor.
  all: first [by destruct body; constructor|by destruct apld|exists []; by split; [|constructor]].
Qed.

(** *** When a transaction fails *)

(** The puts of [add], some of which fail; [g] numbers them. *)
Definition faulty_puts (f : AddFaults) (g : nat → nat) (msgs : list (bytes * IStoredMessageData)) (m : TM) : TM :=
  fold_left (λ m '(i, key, data), if af_put f i then m else tb_put key data m)
    (imap (λ i '(key, data), (g i, btob64 key, omit_rlm data)) msgs) m.

Lemma faulty_puts_get f g msgs m :
  NoDup msgs.*1 →
  (∀ i key data, msgs !! i = Some (key, data) →
    tb_get (btob64 key) (faulty_puts f g msgs m) = if af_put f (g i) then tb_get (btob64 key) m else Some (omit_rlm data)) ∧
  ∀ key, key ∉ msgs.*1 → tb_get (btob64 key) (faulty_puts f g msgs m) = tb_get (btob64 key) m.
Proof.
  revert g m. induction msgs as [|[k0 d0] msgs IH]; intros g m Hn; [done|]. apply NoDup_cons in Hn as [Hni Hn].
  set (m1 := if af_put f (g 0%nat) then m else tb_put (btob64 k0) (omit_rlm d0) m).
  change (faulty_puts f g ((k0, d0) :: msgs) m) with (faulty_puts f (g ∘ S) msgs m1). destruct (IH (g ∘ S) m1 Hn) as [H1 H2].
  assert (Hm1 : ∀ k, k ≠ k0 → tb_get (btob64 k) m1 = tb_get (btob64 k) m).
  { intros k Hk. unfold m1. destruct (af_put f (g 0%nat)); [done|]. apply tb_get_put_ne. by intros ->%(inj btob64). }
  split.
  - intros [|i] k d; cbn [lookup list_lookup].
    + intros [= -> ->]. rewrite H2 by done. unfold m1. destruct (af_put f (g 0%nat)); [done|]. apply tb_get_put_eq.
    + intros Hi. rewrite (H1 i k d) by done. cbn [compose]. rewrite Hm1; [done|]. intros ->.
      apply Hni. apply list_elem_of_lookup_2 in Hi. by apply (list_elem_of_fmap_2 fst) in Hi.
  - intros k [Hk Hk']%not_elem_of_cons. rewrite H2 by done. by apply Hm1.
Qed.

Lemma some_put_fails f (msgs : list (bytes * IStoredMessageData)) :
  existsb (λ '(i, _, _), af_put f i) (imap (λ i '(key, data), (i, btob64 key, omit_rlm data)) msgs) = true ↔
  ∃ i, (i < length msgs)%nat ∧ af_put f i = true.
Proof.
  rewrite existsb_exists. split.
  - intros ([[i k] d] & Hin%list_elem_of_In & Hf). apply elem_of_lookup_imap in Hin as (j & [k' d'] & [= -> -> ->] & Hj).
    exists j. split; [by eapply lookup_lt_Some|done].
  - intros (i & Hi & Hf). destruct (lookup_lt_is_Some_2 _ _ Hi) as [[k d] Hl]. exists (i, btob64 k, omit_rlm d). split; [|done].
    apply list_elem_of_In, elem_of_lookup_imap. by exists i, (k, d).
Qed.

(** One put that fails makes [add] report every row as failed, although the
    others are stored; a commit that fails is never answered. *)
Lemma add_misreports f msgs t :
  msgs ≠ [] → NoDup msgs.*1 →
  let '(r, t') := idb_msgs_add f msgs t in
  (af_commit f = true → t' = t ∧ ((∀ i, (i < length msgs)%nat → af_put f i = false) → r = None)) ∧
  (af_commit f = false → (∃ i, (i < length msgs)%nat ∧ af_put f i = true) →
    r = Some ((λ _, DatabaseError) <$> msgs) ∧
    ∀ i key data, msgs !! i = Some (key, data) →
      tb_get (btob64 key) (db_messages t') = if af_put f i then tb_get (btob64 key) (db_messages t) else Some (omit_rlm data)).
Proof.
  intros Hne Hnd. unfold idb_msgs_add. destruct (Nat.eqb_spec (length msgs) 0) as [E|_]; [by destruct msgs|].
  pose proof (some_put_fails f msgs) as He. set (rows := imap _ msgs) in *. split; intros Hc; rewrite Hc.
  - split; [done|]. intros Hall. destruct (existsb _ rows) eqn:Ex; [|done].
    destruct (proj1 He eq_refl) as (i & Hi & Hf). by rewrite Hall in Hf.
  - intros Hex. rewrite (proj2 He Hex). split; [done|]. exact (proj1 (faulty_puts_get f id msgs (db_messages t) Hnd)).
Qed.

(** [set] reads the row in a transaction of its own: a link to another handle or
    an unlink that comes in between is undone by its write. *)
Definition links_to (l : jsstr) t (info : IHostConnectionInfo) : Prop :=
  ∃ row cs, idb_hosts_get l t = Some (row, cs) ∧ same_info (hr_info row) info.

Lemma links_sim l t s row : sim t s → mem_ok s → map_get l (st_hostRows s) = Some row → links_to l t (hr_info row).
Proof. intros Hs Ho E. destruct (hosts_get_row l t s row Hs Ho E) as (row' & cs & H & Hi & _). by exists row', cs. Qed.

Lemma set_undoes_link l meta info t s row cs :
  sim t s → mem_ok s → idb_hosts_get l t = Some (row, cs) → hi_label info = l → linked l (hi_handle info) →
  let relinked := idb_hosts_add info t in
  let unlinked := idb_hosts_del l t in
  links_to l relinked info ∧ links_to l (idb_hosts_set_with row meta relinked) (hr_info row) ∧
  idb_hosts_get l unlinked = None ∧ links_to l (idb_hosts_set_with row meta unlinked) (hr_info row).
Proof.
  intros Hs Ho Eg Hl Hli relinked unlinked. rewrite <-Hl in Hli. destruct (sim_hosts_add info t s Hs Ho Hli) as [Hs1 Ho1].
  destruct (sim_hosts_del l t s Hs Ho) as [Hs2 Ho2]. fold relinked in Hs1. fold unlinked in Hs2.
  destruct (map_get l (st_hostRows s)) as [row0|] eqn:E; [|by rewrite (hosts_get_none l t s) in Eg].
  destruct (hosts_get_row l t s row0 Hs Ho E) as (row' & cs' & Eg' & Hi & _). rewrite Eg in Eg'. injection Eg' as <- <-.
  pose proof (mo_host s Ho _ _ E) as Hr.
  assert (Hset : ∀ t' s', sim t' s' → mem_ok s' → links_to l (idb_hosts_set_with row meta t') (hr_info row)).
  { intros t' s' Hs' Ho'. destruct (sim_put_host l (mkHostRow (hr_info row0) (Some meta)) t' s' Hs' Ho' Hr) as [H1 H2].
    unfold idb_hosts_set_with. rewrite (storedHost_same _ _ _ _ Hi), (proj1 Hi), (proj1 Hr).
    destruct (links_sim l _ _ (mkHostRow (hr_info row0) (Some meta)) H1 H2) as (r & c & Hg & Hri); [by cbn; rewrite map_get_set_eq|].
    exists r, c. split; [exact Hg|]. destruct Hi as (E1 & E2 & E3), Hri as (E4 & E5 & E6). cbn in *. unfold same_info. by rewrite E1, E2, E3. }
  split_and!; [|by eapply Hset| |by eapply Hset].
  - destruct (map_get l (st_hostRows (hosts_add info s))) as [r|] eqn:Er.
    + pose proof (links_sim l _ _ r Hs1 Ho1 Er) as H. assert (hr_info r = info) as <-; [|done].
      revert Er. unfold hosts_add. rewrite Hl, E. case_match; cbn; rewrite map_get_set_eq; by intros [= <-].
    + revert Er. unfold hosts_add. rewrite Hl, E. case_match; cbn; by rewrite map_get_set_eq.
  - apply (hosts_get_none l _ _ Hs2). cbn. rewrite map_get_delete by apply Ho. by rewrite decide_True.
Qed.
End sim.

(** ** Any list of calls *)

Definition update_fine (op : StoreOp) : Prop := match op with HostRecordSeqs _ u _ => update_ok u | _ => True end.

(** The objects the calls of a list link a label through. *)
Definition linked_by (ops : list StoreOp) (l : jsstr) (h : nat) : Prop :=
  ∃ info, HostAdd info ∈ ops ∧ hi_label info = l ∧ hi_handle info = h.
Definition one_object `{Urls} (ops : list StoreOp) : Prop :=
  ∀ l h h', linked_by ops l h → linked_by ops l h' → href h = href h' → h = h'.

Lemma ops_linked ops : Forall update_fine ops → Forall (op_ok (linked := linked_by ops)) ops.
Proof.
  intros H. apply Forall_forall. intros op Hin. rewrite Forall_forall in H. specialize (H op Hin).
  destruct op; try done. by exists info.
Qed.

Section refinement.
Context {C : CryptoPrims} {U : Urls} {UL : UrlLaws} {TH TS TU TD TM TR : Type}.
Context {HTB : Table TH jsstr StoredHost} {HTL : TableLaws TH jsstr StoredHost}.
Context {STB : Table TS SeqKey jsval} {STL : TableLaws TS SeqKey jsval}.
Context {UTB : Table TU (jsstr * jsstr) UploadRow} {UTL : TableLaws TU (jsstr * jsstr) UploadRow}.
Context {DTB : Table TD jsstr IDownloadMessage} {DTL : TableLaws TD jsstr IDownloadMessage}.
Context {MTB : Table TM jsstr IStoredMessageData} {MTL : TableLaws TM jsstr IStoredMessageData}.
Context {RTB : Table TR jsstr jsval} {RTL : TableLaws TR jsstr jsval}.
Implicit Types (t : DataDB TH TS TU TD TM TR).

(** [C22] The IndexedDB stores do what the in-memory ones do: from no rows, any
    list of calls on archive, queues, realms, hosts and cursors is answered alike
    by both, up to the order of lists (and, where two revisions of an entity
    have the same counter and offset, which of them [last] answers), and leaves
    the six object stores holding exactly the rows of the six maps.  The handle
    of a host is stored, and answered, by the text of its URL, so handles are
    alike that have the same text.  The list links a label to one text
    always through the same [URL] object (the in-memory store, which compares
    objects, takes another object for another host), and sets no cursor to a
    negative number. *)
Theorem idb_stores_refine_memory ops t :
  fresh t → Forall update_fine ops → one_object ops →
  Forall2 same_answer (run_calls idb_call ops t).1 (run_calls mem_call ops no_rows).1 ∧
  sim (run_calls idb_call ops t).2 (run_calls mem_call ops no_rows).2.
Proof.
  intros Ht Hu Ho. destruct (fresh_sim (linked := linked_by ops) t Ht) as [Hs Hm].
  destruct (run_sim (linked := linked_by ops) Ho ops t no_rows Hs Hm (ops_linked ops Hu)) as (? & ? & _). by split.
Qed.

End refinement.

(** Linking a host again through another [URL] object with the same text keeps
    its cursors here; the in-memory store, which compares objects, drops them. *)
Lemma relink_other_object s info prev :
  map_get (hi_label info) (st_hostRows s) = Some prev → hi_handle (hr_info prev) ≠ hi_handle info →
  map_wf (st_cursors s) → map_get (hi_label info) (st_cursors (hosts_add info s)) = None.
Proof.
  intros E Hne Hw. unfold hosts_add, same_link. rewrite E, (proj2 (Nat.eqb_neq _ _)) by done. cbn. rewrite map_get_delete by done. by rewrite decide_True.
Qed.

(** ** Concrete runs *)

Module StoresIdbDemo.
Import Toy.

(** A URL object by number; two objects in eight have the same text. *)
#[local] Instance urls : Urls := {| href n := replicate (n mod 8) 47; new_URL s := length s |}.
#[local] Instance urls_laws : UrlLaws.
Proof. intros n. cbn [href new_URL urls]. by rewrite length_replicate, Nat.Div0.mod_mod. Qed.

Abbreviation Data := (DataDB (gmap jsstr StoredHost) (gmap SeqKey jsval) (gmap (jsstr * jsstr) UploadRow)
  (gmap jsstr IDownloadMessage) (gmap jsstr IStoredMessageData) (gmap jsstr jsval)).
Definition data0 : Data := mkDataDB ∅ ∅ ∅ ∅ ∅ ∅.

Definition row1 : IStoredMessageData := mkStored [x01] None (Some 1) None (Some [x05]) APLD_PENDING None (Some []).
Definition row2 : IStoredMessageData := mkStored [x01] (Some (Some 7)) (Some 1) None None APLD_PENDING None (Some (js "work")).
Definition host1 : IHostConnectionInfo := mkHostInfo (js "home") 3 None.

Definition ops : list StoreOp :=
  [MsgAdd [([x02], row1); ([x01], row2)]; MsgMarkFailed [([x02], NotFound); ([x02], InvalidParam)]; MsgList None true; MsgCount (Some APLD_ERROR);
   MsgLast [x01]; UplEnq (js "home") [[x02]; [x01]]; UplDeq (js "home") [[x02]]; UplList (js "home"); RealmPut (js "work") 1; RealmPut (js "work") 3;
   RealmPut (js "work") 2; RealmGet (js "work"); HostAdd host1; HostTouch (js "home") 9 None; HostTouch (js "home") 4 (Some (mkKDM (js "work") 1));
   HostRecordSeqs (js "home") (mkSeqs None (Some 2)) None; HostList; HostAdd host1; HostGet (js "home"); StoreWipe; HostList; RealmList].

Lemma data0_fresh : fresh data0.
Proof. by split. Qed.
Lemma ops_ok : Forall update_fine ops.
Proof. repeat constructor. cbn. lia. Qed.
Lemma ops_one_object : one_object ops.
Proof.
  assert (Hl : ∀ l h, linked_by ops l h → h = 3%nat).
  { intros l h (info & Hin & _ & <-). unfold ops in Hin. repeat (apply elem_of_cons in Hin as [Hin|Hin]; [try discriminate Hin; by injection Hin as ->|]).
    by apply elem_of_nil in Hin. }
  intros l h h' Hh Hh' _. by rewrite (Hl _ _ Hh), (Hl _ _ Hh').
Qed.

Example ops_host : last (take 19 (run_calls idb_call ops data0).1) =
  Some (AHost (Some (mkHostRow host1 None, mkRow 2 (Some [mkCursor (mkKDM (js "work") 1) 4])))).
Proof. vm_compute. reflexivity. Qed.

Lemma idb_stores_refine_memory_witness :
  Forall2 same_answer (run_calls idb_call ops data0).1 (run_calls mem_call ops no_rows).1 ∧
  sim (run_calls idb_call ops data0).2 (run_calls mem_call ops no_rows).2.
Proof. apply (idb_stores_refine_memory ops data0); [exact data0_fresh|exact ops_ok|exact ops_one_object]. Defined.

(** The same text through another object: the stores answer differently. *)
Example relinked_elsewhere :
  let ops := [HostAdd host1; HostTouch (js "home") 9 None; HostAdd (mkHostInfo (js "home") 11 None); HostGet (js "home")] in
  (λ a, match a with AHost (Some (_, c)) => cr_lastSeq c | _ => 0 end) <$>
    [default Nothing (last (run_calls idb_call ops data0).1); default Nothing (last (run_calls mem_call ops no_rows).1)] = [9; 0].
Proof. vm_compute. reflexivity. Qed.
End StoresIdbDemo.
