(* ===== verification/SqlStorage.v ===== *)
(** * The SQL storages of the hosts

    [bun/src/storage/sqlite.ts], [deno/src/storage/sqlite.ts] and the D1 storage
    of [hosts/cloudflare/src/index.ts]: the same two tables, [users] and [bags],
    under the same statements.  A statement is what SQL says of it over the rows
    of a [Table]; the order in which a query without ORDER BY lists rows is the
    table's. *)
From S2P Require Export Tables Storage.

(** ** The database *)

(** PRIMARY KEY (userPubKey, rlm, seq); the other columns are an [Entry]. *)
Abbreviation BagKey := (jsstr * bytes * Z)%type.

Record SqlDb (TU TB : Type) := mkSql { sq_users : TU; sq_bags : TB }.
Arguments mkSql {TU TB}.
Arguments sq_users {TU TB}.
Arguments sq_bags {TU TB}.

(** What a JavaScript condition makes of a value. *)
Definition truthy (v : jsval) : bool :=
  match v with
  | VUndef | VNull | VBool false | VNum None | VNum (Some 0) | VStr [] => false
  | _ => true
  end.

(** [MAX] of a column: NULL without rows. *)
Definition sql_max (ns : list Z) : option Z :=
  match ns with [] => None | n :: ns => Some (fold_left Z.max ns n) end.

(** Batches of at most [n], in order; [fuel] of one per element is enough. *)
Fixpoint chunks_fuel {A} (fuel n : nat) (l : list A) : list (list A) :=
  match fuel, l with
  | 0%nat, _ | _, [] => []
  | S fuel, _ => take n l :: chunks_fuel fuel n (drop n l)
  end.
Definition chunks {A} (n : nat) (l : list A) : list (list A) := chunks_fuel (length l) n l.

(** The encoder's bytes; the status of [writeStruct] is not looked at. *)
Definition head_blob (bag : IBag) : option bytes :=
  match writeStruct peekItemHeadCodec (bag_peekHead bag) newEncoder with
  | (Throw, _) => None
  | (_, enc) => Some (enc_result enc)
  end.

Section sql.
Context {TU TB : Type} {UT : Table TU jsstr unit} {BT : Table TB BagKey Entry}.
Abbreviation DB := (SqlDb TU TB).
Implicit Types db : DB.

(** *** Statements *)

Definition rows_of (pubKeyHex : jsstr) (rlm : bytes) db : list (Z * Entry) :=
  omap (M := list) (λ '((h, r, seq), e), if bool_decide (h = pubKeyHex ∧ r = rlm) then Some (seq, e) else None) (tb_rows (sq_bags db)).

(** SELECT MAX(seq) FROM bags WHERE userPubKey = ? AND rlm = ? *)
Definition select_max (pubKeyHex : jsstr) (rlm : bytes) db : option Z := sql_max (rows_of pubKeyHex rlm db).*1.

(** INSERT INTO bags: a row with the same key makes it fail. *)
Definition insert_bag (pubKeyHex : jsstr) (rlm : bytes) (seq : Z) (e : Entry) db : option DB :=
  match tb_get (pubKeyHex, rlm, seq) (sq_bags db) with
  | Some _ => None
  | None => Some (mkSql (sq_users db) (tb_put (pubKeyHex, rlm, seq) e (sq_bags db)))
  end.

(** SELECT seq, bodyCph ... AND seq IN (...) *)
Definition select_in (pubKeyHex : jsstr) (rlm : bytes) (part : list Z) db : list (Z * bytes) :=
  (λ row, (row.1, en_bodyCph row.2)) <$> filter (λ row, row.1 ∈ part) (rows_of pubKeyHex rlm db).

(** SELECT seq, headCph ... AND seq > ? ORDER BY seq *)
Definition select_above (pubKeyHex : jsstr) (rlm : bytes) (minSeq : Z) db : list IBagPeekItem :=
  js_sort (by_key pk_seq) ((λ row, mkPeekItem row.1 (en_headCph row.2)) <$> filter (λ row, minSeq < row.1) (rows_of pubKeyHex rlm db)).

(** INSERT INTO users ... ON CONFLICT DO NOTHING *)
Definition insert_user (pubKeyHex : jsstr) db : DB :=
  match tb_get pubKeyHex (sq_users db) with
  | Some _ => db
  | None => mkSql (tb_put pubKeyHex tt (sq_users db)) (sq_bags db)
  end.

(** SELECT EXISTS (SELECT 1 FROM users WHERE pubKey = ?): one row, 0 or 1. *)
Definition select_exists (pubKeyHex : jsstr) db : Z :=
  match tb_get pubKeyHex (sq_users db) with Some _ => 1 | None => 0 end.

(** *** SQLite, on Bun and Deno *)

Definition sql_addUser (pubKey : bytes) : M DB unit := λ db, (Ok tt, insert_user (btoh pubKey) db).

(** [Boolean(row?.ok)] *)
Definition bun_hasUser (pubKey : bytes) : M DB bool := λ db,
  (Ok (truthy (VNum (Some (select_exists (btoh pubKey) db)))), db).
(** [row ? row[0] : false], which callers take for a boolean. *)
Definition deno_hasUser (pubKey : bytes) : M DB bool := λ db,
  let row := [select_exists (btoh pubKey) db] in
  (Ok (match row with has :: _ => truthy (VNum (Some has)) | [] => false end), db).

Definition sql_subMeta (_ : bytes) : M DB ISubscriptionMetadata := mret nullSubMeta.

(** [row?.m || 0] *)
Definition bun_max (m : option Z) : Z := match m with Some 0 | None => 0 | Some m => m end.
(** [typeof n === "number" ? n : 0] *)
Definition deno_max (m : option Z) : Z := match m with Some n => n | None => 0 end.

Definition good_idx (bags : list IBag) : list nat :=
  omap (M := list) (λ '(i, bag), if blen (bag_rlm bag) =? hashBytes then Some i else None) (imap pair bags).

(** The transaction: [None] is an exception, on which it is rolled back;
    [fails] are statements the database refuses, by bag. *)
Fixpoint set_loop (max : option Z → Z) (fails : nat → bool) (pubKeyHex : jsstr) (bags : list IBag) (good : list nat)
    (maxBy : jsmap jsstr Z) (seqByIdx : jsmap nat Z) db : option (jsmap nat Z * DB) :=
  match good with
  | [] => Some (seqByIdx, db)
  | i :: good =>
      bag ← bags !! i;
      let key := btoh (bag_rlm bag) in
      let mx := match map_get key maxBy with Some mx => mx | None => max (select_max pubKeyHex (bag_rlm bag) db) end + 1 in
      enc ← head_blob bag;
      if fails i then None
      else
        db ← insert_bag pubKeyHex (bag_rlm bag) mx (mkEntry enc (bag_bodyCph bag)) db;
        set_loop max fails pubKeyHex bags good (map_set key mx maxBy) (map_set i mx seqByIdx) db
  end.

(** One result per bag; an index without a number fails the call. *)
Fixpoint set_out (seqByIdx : jsmap nat Z) (i : nat) (bags : list IBag) : option (list ISetBagResult) :=
  match bags with
  | [] => Some []
  | bag :: bags =>
      if negb (blen (bag_rlm bag) =? hashBytes) then rest ← set_out seqByIdx (S i) bags; Some (SetFailed InvalidParam :: rest)
      else
        seq ← map_get i seqByIdx;
        rest ← set_out seqByIdx (S i) bags;
        Some (SetStored seq :: rest)
  end.

Definition setBags_with (max : option Z → Z) (fails : nat → bool) (pubKey : bytes) (bags : list IBag) : M DB (list ISetBagResult) := λ db,
  if Nat.ltb (length bags) 1 then (Ok [], db)
  else
    let good := good_idx bags in
    match (if Nat.ltb 0 (length good) then set_loop max fails (btoh pubKey) bags good [] [] db else Some ([], db)) with
    | None => (Err StorageError, db)
    | Some (seqByIdx, db) =>
        (match set_out seqByIdx 0 bags with Some out => Ok out | None => Err StorageError end, db)
    end.

Definition bun_setBags := setBags_with bun_max.
Definition deno_setBags := setBags_with deno_max.

(** Each query has at most 100 parameters. *)
Definition bind_chunk : nat := 98.

Definition sql_getBodies (pubKey rlm : bytes) (seqs : list Z) : M DB (list (Z * bytes)) := λ db,
  if negb (blen rlm =? hashBytes) then (Err InvalidParam, db)
  else if Nat.ltb (length seqs) 1 then (Ok [], db)
  else (Ok (chunks bind_chunk seqs ≫= λ part, select_in (btoh pubKey) rlm part db), db).

Definition sql_listHeads (pubKey rlm : bytes) (minSeq : Z) : M DB (list IBagPeekItem) := λ db,
  if negb (blen rlm =? hashBytes) then (Err InvalidParam, db) else (Ok (select_above (btoh pubKey) rlm minSeq db), db).

(** *** D1, on Cloudflare *)

(** The one row of the query, by column. *)
Definition exists_row (pubKeyHex : jsstr) db : list (jsstr * jsval) :=
  [(js "EXISTS (SELECT 1 FROM users WHERE pubKey = ?)", VNum (Some (select_exists pubKeyHex db)))].
(** [has ?? false]; the handlers test [!has].  [first] is what the statement's
    method of that name answers for its first row when no column is named. *)
Definition d1_hasUser (first : list (jsstr * jsval) → jsval) (pubKey : bytes) : M DB bool := λ db,
  (Ok (match first (exists_row (btoh pubKey) db) with VNull | VUndef => false | has => truthy has end), db).

(** INSERT ... (SELECT COALESCE(MAX(seq), 0) + 1 ...) RETURNING seq *)
Definition insert_next (pubKeyHex : jsstr) (rlm : bytes) (e : Entry) db : option (Z * DB) :=
  let seq := default 0 (select_max pubKeyHex rlm db) + 1 in
  db ← insert_bag pubKeyHex rlm seq e db;
  Some (seq, db).

(** One prepared statement. *)
Record Stmt := mkStmt { stm_rlm : bytes; stm_headCph : bytes; stm_bodyCph : bytes }.

Fixpoint prepare (bags : list IBag) : option (list Stmt) :=
  match bags with
  | [] => Some []
  | bag :: bags =>
      if blen (bag_rlm bag) =? hashBytes then
        enc ← head_blob bag;
        rest ← prepare bags;
        Some (mkStmt (bag_rlm bag) enc (bag_bodyCph bag) :: rest)
      else prepare bags
  end.

(** [batch]: one transaction. *)
Fixpoint d1_batch (pubKeyHex : jsstr) (stmts : list Stmt) db : option (list Z * DB) :=
  match stmts with
  | [] => Some ([], db)
  | s :: stmts =>
      '(seq, db) ← insert_next pubKeyHex (stm_rlm s) (mkEntry (stm_headCph s) (stm_bodyCph s)) db;
      '(seqs, db) ← d1_batch pubKeyHex stmts db;
      Some (seq :: seqs, db)
  end.

Fixpoint d1_out (seqs : list Z) (bags : list IBag) : option (list ISetBagResult) :=
  match bags with
  | [] => Some []
  | bag :: bags =>
      if negb (blen (bag_rlm bag) =? hashBytes) then rest ← d1_out seqs bags; Some (SetFailed InvalidParam :: rest)
      else
        match seqs with
        | [] => None
        | seq :: seqs => rest ← d1_out seqs bags; Some (SetStored seq :: rest)
        end
  end.

Definition batch_chunk : nat := 500.

(** A call of [setBags]: the batches still to run and the numbers returned, or
    its result.  Other calls run between its batches. *)
Inductive D1Call := D1Running (pubKey : bytes) (bags : list IBag) (todo : list (list Stmt)) (seqs : list Z) | D1Done (r : Res (list ISetBagResult)).

Definition d1_finish (bags : list IBag) (seqs : list Z) : D1Call :=
  D1Done (match d1_out seqs bags with Some out => Ok out | None => Err StorageError end).

Definition d1_start (pubKey : bytes) (bags : list IBag) : D1Call :=
  if Nat.ltb (length bags) 1 then D1Done (Ok [])
  else if Nat.ltb (length (good_idx bags)) 1 then D1Done (Ok ((λ _, SetFailed InvalidParam) <$> bags))
  else
    match prepare bags with
    | None => D1Done (Err StorageError)
    | Some stmts => D1Running pubKey bags (chunks batch_chunk stmts) []
    end.

(** The next batch, which the database may refuse; after the last one the call
    returns. *)
Definition d1_step (fails : bool) (c : D1Call) db : D1Call * DB :=
  match c with
  | D1Done r => (c, db)
  | D1Running pubKey bags [] seqs => (d1_finish bags seqs, db)
  | D1Running pubKey bags (stmts :: todo) seqs =>
      if fails then (D1Done (Err StorageError), db)
      else
        match d1_batch (btoh pubKey) stmts db with
        | None => (D1Done (Err StorageError), db)
        | Some (new, db) =>
            (match todo with [] => d1_finish bags (seqs ++ new) | _ => D1Running pubKey bags todo (seqs ++ new) end, db)
        end
  end.

(** A call alone: [fails] by batch. *)
Fixpoint d1_run (fails : nat → bool) (fuel : nat) (c : D1Call) db : D1Call * DB :=
  match fuel with
  | 0%nat => (c, db)
  | S fuel => let '(c, db) := d1_step (fails 0%nat) c db in d1_run (fails ∘ S) fuel c db
  end.

Definition d1_setBags (fails : nat → bool) (pubKey : bytes) (bags : list IBag) : M DB (list ISetBagResult) := λ db,
  match d1_run fails (S (length bags)) (d1_start pubKey bags) db with
  | (D1Done r, db) => (r, db)
  | (_, db) => (Err StorageError, db)                     (* not reached: a batch takes a statement *)
  end.

(** *** The three storages *)

Definition bun_storage : IStorage DB := {|
  addUser := sql_addUser; hasUser := bun_hasUser; subMeta := sql_subMeta; setBags := bun_setBags (λ _, false);
  getBodies := sql_getBodies; listHeads := sql_listHeads |}.
Definition deno_storage : IStorage DB := {|
  addUser := sql_addUser; hasUser := deno_hasUser; subMeta := sql_subMeta; setBags := deno_setBags (λ _, false);
  getBodies := sql_getBodies; listHeads := sql_listHeads |}.
Definition d1_storage (first : list (jsstr * jsval) → jsval) : IStorage DB := {|
  addUser := sql_addUser; hasUser := d1_hasUser first; subMeta := sql_subMeta; setBags := d1_setBags (λ _, false);
  getBodies := sql_getBodies; listHeads := sql_listHeads |}.

(** ** Many writers on one D1 database *)

Record D1Pages := mkD1 { d1_calls : list D1Call; d1_db : DB }.
Inductive D1Event := D1Call_ (pubKey : bytes) (bags : list IBag) | D1Batch (i : nat) (fails : bool).

Definition d1_event (ev : D1Event) (p : D1Pages) : D1Pages :=
  match ev with
  | D1Call_ pubKey bags => mkD1 (d1_calls p ++ [d1_start pubKey bags]) (d1_db p)
  | D1Batch i fails =>
      match d1_calls p !! i with
      | None => p
      | Some c => let '(c, db) := d1_step fails c (d1_db p) in mkD1 (<[i := c]> (d1_calls p)) db
      end
  end.
Definition d1_events (evs : list D1Event) (p : D1Pages) : D1Pages := fold_left (λ p ev, d1_event ev p) evs p.
End sql.
