(* ===== verification/SqlStorageProps.v ===== *)
(** * The SQL storages keep the log

    Each storage of [SqlStorage] does to the abstract log of [Storage] what the
    contract says, up to the order in which bodies are listed; a call that fails
    on SQLite leaves no row, one on D1 the batches before; writers of a D1
    database that interleave lose no bag; D1 takes every key for a user. *)
From stdpp Require sorting.
From S2P Require Import SqlStorage ServerFacts.
From S2P Require Import Js.

(** ** Lists *)

Lemma sql_max_spec ns n : n ∈ ns → (∀ m, m ∈ ns → m <= n) → sql_max ns = Some n.
Proof.
  destruct ns as [|a ns]; [by intros ?%not_elem_of_nil|]. intros Hin Hle. cbn. f_equal.
  assert (Hin' : n = a ∨ n ∈ ns) by (by apply elem_of_cons in Hin). assert (Ha : a <= n) by (apply Hle; by left).
  assert (Hns : ∀ m, m ∈ ns → m <= n) by (intros; apply Hle; by right). clear Hin Hle. revert a Ha Hin'.
  induction ns as [|b ns IH]; intros a Ha Hin; cbn; [destruct Hin as [->|?%not_elem_of_nil]; done|].
  assert (b <= n) by (apply Hns; by left). apply IH; [intros; apply Hns; by right|lia|].
  destruct Hin as [->|[->|?]%elem_of_cons]; [left; lia|left; lia|by right].
Qed.

Lemma chunks_concat {A} n (l : list A) : (0 < n)%nat → concat (chunks n l) = l.
Proof.
  intros Hn. unfold chunks. assert (H : ∀ fuel (l : list A), (length l <= fuel)%nat → concat (chunks_fuel fuel n l) = l); [|by apply H].
  clear l. induction fuel as [|fuel IH]; intros [|x l] Hl; cbn [length] in *; try done; [lia|]. cbn [chunks_fuel concat].
  rewrite IH; [apply take_drop|]. rewrite length_drop. cbn [length]. lia.
Qed.

Lemma chunks_nonempty {A} n (l : list A) : (0 < n)%nat → Forall (λ c, c ≠ []) (chunks n l).
Proof.
  intros Hn. unfold chunks. generalize (length l) as fuel. intros fuel. revert l.
  induction fuel as [|fuel IH]; intros [|x l]; try constructor; [|apply IH]. by destruct n; [lia|].
Qed.

Lemma list_heads_sorted n log : Sorted.StronglySorted (λ a b, pk_seq a < pk_seq b) (log_items n log).
Proof.
  revert n. induction log as [|e log IH]; intros n; constructor; [done|]. eapply Forall_impl; [apply log_items_seqs|]. cbn. lia.
Qed.

Lemma zip_with_prefix {A B D} (f : A → B → D) l1 l2 k : length k = length l1 → zip_with f (l1 ++ l2) k = zip_with f l1 k.
Proof. revert k. induction l1 as [|x l1 IH]; intros [|y k]; cbn; intros Hl; [by destruct l2|done|done|]. by rewrite IH by lia. Qed.

Lemma filter_keys_NoDup {K V} (P : K * V → Prop) `{∀ x, Decision (P x)} (rows : list (K * V)) : NoDup rows.*1 → NoDup (filter P rows).*1.
Proof.
  induction rows as [|[k v] rows IH]; [done|]. intros [Hni Hn]%NoDup_cons. rewrite filter_cons. case_decide; [|by apply IH].
  constructor; [|by apply IH]. intros ([k' v'] & Hk & [_ Hin]%list_elem_of_filter)%list_elem_of_fmap. cbn in Hk. subst k'.
  apply Hni. by apply (list_elem_of_fmap_2 fst) in Hin.
Qed.

(** ** What a database holds *)

(** The entries of a log under their numbers. *)
Definition log_rows (log : list Entry) : list (Z * Entry) := imap (λ i e, (Z.of_nat i + 1, e)) log.

Lemma elem_of_log_rows log seq e : (seq, e) ∈ log_rows log ↔ log_at log seq = Some e.
Proof.
  unfold log_rows, log_at. rewrite elem_of_lookup_imap. split.
  - intros (i & x & [= -> ->] & Hi). rewrite (proj2 (Z.ltb_ge _ _)) by lia. by replace (Z.to_nat (Z.of_nat i + 1 - 1)) with i by lia.
  - destruct (Z.ltb_spec seq 1); [done|]. intros Hs. exists (Z.to_nat (seq - 1)), e. split; [f_equal; lia|done].
Qed.

Lemma log_rows_NoDup log : NoDup (log_rows log).*1.
Proof.
  apply NoDup_alt. intros i j z Hi Hj. unfold log_rows in *. rewrite list_lookup_fmap, list_lookup_imap in Hi, Hj.
  destruct (log !! i), (log !! j); cbn in *; try done. injection Hi as <-. injection Hj as ?. lia.
Qed.

Definition Logs : Type := bytes → bytes → list Entry.

(** The logs after a bag of [pk] in [rlm], and after a list of them. *)
Definition push_log (pk rlm : bytes) (e : Entry) (L : Logs) : Logs :=
  λ pk' rlm', L pk' rlm' ++ if decide (pk' = pk ∧ rlm' = rlm) then [e] else [].
Definition push_bags (pk : bytes) (bags : list IBag) (L : Logs) : Logs :=
  λ pk' rlm', L pk' rlm' ++ if decide (pk' = pk) then bag_entries rlm' bags else [].
Definition len_at (L : Logs) (pk rlm : bytes) : Z := Z.of_nat (length (L pk rlm)).

Section sql.
Context {TU TB : Type} {UT : Table TU jsstr unit} {UL : TableLaws TU jsstr unit}.
Context {BT : Table TB BagKey Entry} {BL : TableLaws TB BagKey Entry}.
Abbreviation DB := (SqlDb TU TB).
Implicit Types (db : DB) (L : Logs) (U : bytes → bool).

(** The rows are the entries of the logs, numbered from 1, and the users. *)
Record sql_rep db L U : Prop := {
  sr_bags pk rlm seq : tb_get (btoh pk, rlm, seq) (sq_bags db) = log_at (L pk rlm) seq;
  sr_users pk : tb_get (btoh pk) (sq_users db) = if U pk then Some tt else None;
}.

Lemma elem_of_rows_of h rlm db seq e : (seq, e) ∈ rows_of h rlm db ↔ tb_get (h, rlm, seq) (sq_bags db) = Some e.
Proof.
  unfold rows_of. rewrite <-tb_rows_get, list_elem_of_omap. split.
  - intros ([[[h' r'] s'] e'] & Hin & H). case_bool_decide as E; [|done]. destruct E as [-> ->]. by injection H as -> ->.
  - intros Hin. exists (h, rlm, seq, e). split; [done|]. by rewrite bool_decide_true.
Qed.

Lemma rows_of_NoDup h rlm db : NoDup (rows_of h rlm db).*1.
Proof.
  unfold rows_of. pose proof (tb_rows_once (K := BagKey) (V := Entry) (sq_bags db)) as Hn.
  induction (tb_rows (sq_bags db)) as [|[[[h' r'] s'] e'] rows IH]; [constructor|]. apply NoDup_cons in Hn as [Hni Hn].
  unfold omap in *. cbn [list_omap]. case_bool_decide as E; [|by apply IH]. destruct E as [-> ->]. cbn [fmap list_fmap fst]. constructor; [|by apply IH].
  intros ([s e] & Hs & Hin)%list_elem_of_fmap. cbn in Hs. subst s. apply Hni. apply list_elem_of_omap in Hin as ([[[h2 r2] s2] e2] & Hin & H).
  case_bool_decide as E2; [|done]. destruct E2 as [-> ->]. injection H as -> ->. by apply (list_elem_of_fmap_2 fst) in Hin.
Qed.

Section rep.
Context (db : DB) (L : Logs) (U : bytes → bool) (HR : sql_rep db L U).

Lemma rows_of_log pk rlm : rows_of (btoh pk) rlm db ≡ₚ log_rows (L pk rlm).
Proof.
  apply NoDup_Permutation; [eapply (NoDup_fmap_1 fst), rows_of_NoDup|eapply (NoDup_fmap_1 fst), log_rows_NoDup|].
  intros [seq e]. by rewrite elem_of_rows_of, elem_of_log_rows, (sr_bags _ _ _ HR).
Qed.

Lemma select_max_log pk rlm : default 0 (select_max (btoh pk) rlm db) = len_at L pk rlm.
Proof.
  unfold select_max, len_at. destruct (L pk rlm) as [|e0 log] eqn:E.
  - pose proof (rows_of_log pk rlm) as Hp. rewrite E in Hp. apply Permutation_nil_r in Hp. by rewrite Hp.
  - assert (Hmem : ∀ seq, seq ∈ (rows_of (btoh pk) rlm db).*1 ↔ 1 <= seq <= Z.of_nat (length (e0 :: log))).
    { intros seq. rewrite list_elem_of_fmap. split.
      - intros ([s e] & -> & Hin). rewrite elem_of_rows_of, (sr_bags _ _ _ HR), E in Hin. unfold log_at in Hin. cbn [fst].
        destruct (Z.ltb_spec s 1); [done|]. apply lookup_lt_Some in Hin. lia.
      - intros Hs. destruct (lookup_lt_is_Some_2 (e0 :: log) (Z.to_nat (seq - 1))) as [e He]; [lia|]. exists (seq, e). split; [done|].
        rewrite elem_of_rows_of, (sr_bags _ _ _ HR), E. unfold log_at. by rewrite (proj2 (Z.ltb_ge _ _)) by lia. }
    erewrite sql_max_spec; [done|apply Hmem; cbn [length]; lia|]. intros m Hm%Hmem. lia.
Qed.

(** A row with the next number is new, and extends the log. *)
Lemma insert_log pk rlm e :
  ∃ db', insert_bag (btoh pk) rlm (len_at L pk rlm + 1) e db = Some db' ∧ sql_rep db' (push_log pk rlm e L) U.
Proof.
  unfold insert_bag. rewrite (sr_bags _ _ _ HR). unfold len_at.
  assert (log_at (L pk rlm) (Z.of_nat (length (L pk rlm)) + 1) = None) as ->.
  { unfold log_at. destruct (_ <? 1); [done|]. apply lookup_ge_None_2. lia. }
  eexists. split; [done|]. split; cbn [sq_bags sq_users]; [|apply HR]. intros pk' rlm' seq. rewrite tb_get_put, (sr_bags _ _ _ HR). unfold push_log.
  destruct (decide (pk' = pk ∧ rlm' = rlm)) as [[-> ->]|Hne].
  - destruct (decide (seq = Z.of_nat (length (L pk rlm)) + 1)) as [->|Hs]; [by rewrite decide_True, log_at_end|].
    rewrite decide_False by congruence. unfold log_at. destruct (Z.ltb_spec seq 1); [done|].
    destruct (decide (Z.to_nat (seq - 1) < length (L pk rlm))%nat); [by rewrite lookup_app_l|].
    rewrite lookup_ge_None_2 by lia. symmetry. apply lookup_ge_None_2. rewrite length_app. cbn. lia.
  - rewrite app_nil_r, decide_False; [done|]. intros [= ->%(inj btoh) -> _]. tauto.
Qed.

Lemma user_log pk :
  sql_rep (insert_user (btoh pk) db) L (λ pk', bool_decide (pk' = pk) || U pk') ∧ select_exists (btoh pk) db = if U pk then 1 else 0.
Proof.
  unfold insert_user, select_exists. pose proof (sr_users _ _ _ HR) as Hu. rewrite (Hu pk). split; [|by destruct (U pk)].
  destruct (U pk) eqn:E.
  - split; [apply HR|]. intros pk'. rewrite Hu. case_bool_decide; [by subst; rewrite E|done].
  - split; [apply HR|]. intros pk'. cbn [sq_users]. rewrite tb_get_put, Hu. case_bool_decide as Ep; [subst; by rewrite decide_True|].
    rewrite decide_False; [done|]. by intros ?%(inj btoh).
Qed.

(** *** Reading *)

Lemma select_above_log pk rlm minSeq : select_above (btoh pk) rlm minSeq db = log_heads (L pk rlm) minSeq.
Proof.
  unfold select_above, log_heads.
  assert (Hp : (λ row : Z * Entry, mkPeekItem row.1 (en_headCph row.2)) <$> filter (λ row, minSeq < row.1) (rows_of (btoh pk) rlm db) ≡ₚ
    filter (λ i, minSeq < pk_seq i) (log_items 1 (L pk rlm))).
  { rewrite rows_of_log. unfold log_rows. match goal with |- ?x ≡ₚ ?y => assert (x = y) as ->; [|done] end.
    assert (H : ∀ log n, (λ row : Z * Entry, mkPeekItem row.1 (en_headCph row.2)) <$> filter (λ row, minSeq < row.1) (imap (λ i e, (Z.of_nat (n + i) + 1, e)) log) =
      filter (λ i, minSeq < pk_seq i) (log_items (Z.of_nat n + 1) log)); [|exact (H _ 0%nat)].
    induction log as [|e log IH]; intros n; [done|]. cbn [imap log_items]. rewrite !filter_cons. cbn [fst pk_seq]. rewrite Nat.add_0_r.
    replace (Z.of_nat n + 1 + 1) with (Z.of_nat (S n) + 1) by lia. rewrite <-IH.
    rewrite (imap_ext ((λ i e, (Z.of_nat (n + i) + 1, e)) ∘ S) (λ i e, (Z.of_nat (S n + i) + 1, e))) by (intros; cbn; do 2 f_equal; lia).
    by case_decide. }
  pose proof (Mem.filter_sorted _ (λ i, minSeq < pk_seq i) _ (list_heads_sorted 1 (L pk rlm))) as Hs.
  apply (sorting.StronglySorted_unique_strong (cmp_le (by_key pk_seq))).
  - intros x y Hx Hy. rewrite js_sort_perm, Hp in Hx. revert Hs Hx Hy. generalize (filter (λ i, minSeq < pk_seq i) (log_items 1 (L pk rlm))).
    unfold cmp_le, by_key. induction 1 as [|z l Hl IH Hz]; [by intros ?%not_elem_of_nil|]. rewrite Forall_forall in Hz.
    intros [->|Hx]%elem_of_cons [->|Hy]%elem_of_cons ??; [done| | |by apply IH].
    + apply Hz in Hy. lia.
    + apply Hz in Hx. lia.
  - apply (js_sort_sorted (by_key pk_seq)); apply _.
  - clear -Hs. induction Hs as [|x l _ IH Hx]; constructor; [done|]. eapply Forall_impl; [exact Hx|]. unfold cmp_le, by_key. cbn. lia.
  - by rewrite js_sort_perm.
Qed.

(** The bodies of distinct numbers, in some order. *)
Lemma select_in_bodies pk rlm part :
  NoDup (select_in (btoh pk) rlm part db).*1 ∧
  ∀ seq body, (seq, body) ∈ select_in (btoh pk) rlm part db ↔ seq ∈ part ∧ ∃ e, log_at (L pk rlm) seq = Some e ∧ body = en_bodyCph e.
Proof.
  unfold select_in. split.
  - rewrite <-list_fmap_compose. change (NoDup (filter (λ row, row.1 ∈ part) (rows_of (btoh pk) rlm db)).*1).
    apply filter_keys_NoDup, rows_of_NoDup.
  - intros seq body. rewrite list_elem_of_fmap. split.
    + intros ([s e] & [= -> ->] & [Hs Hin]%list_elem_of_filter). split; [done|]. exists e. split; [|done].
      by rewrite elem_of_rows_of, (sr_bags _ _ _ HR) in Hin.
    + intros (Hs & e & He & ->). exists (seq, e). split; [done|]. rewrite list_elem_of_filter, elem_of_rows_of, (sr_bags _ _ _ HR). done.
Qed.

Lemma bodies_log pk rlm seqs :
  (∀ x, x ∈ (chunks bind_chunk seqs ≫= λ part, select_in (btoh pk) rlm part db) ↔ x ∈ log_bodies (L pk rlm) seqs) ∧
  (NoDup seqs → (chunks bind_chunk seqs ≫= λ part, select_in (btoh pk) rlm part db) ≡ₚ log_bodies (L pk rlm) seqs).
Proof.
  assert (Hc : concat (chunks bind_chunk seqs) = seqs) by (apply chunks_concat; unfold bind_chunk; lia).
  assert (Hin : ∀ x, x ∈ (chunks bind_chunk seqs ≫= λ part, select_in (btoh pk) rlm part db) ↔ x ∈ log_bodies (L pk rlm) seqs).
  { intros [seq body]. rewrite <-Hc at 2. rewrite list_elem_of_bind. unfold log_bodies. rewrite list_elem_of_omap. split.
    - intros (part & Hs & Hp). apply (proj2 (select_in_bodies pk rlm part)) in Hs as (Hs & e & He & ->).
      exists seq. split; [|by rewrite He]. apply list_elem_of_In, in_concat. exists part. by rewrite <-!list_elem_of_In.
    - intros (s & Hs & Hb). destruct (log_at (L pk rlm) s) as [e|] eqn:He; [|done]. injection Hb as -> <-.
      apply list_elem_of_In, in_concat in Hs as (part & Hp & Hs). rewrite <-!list_elem_of_In in *. exists part. split; [|done].
      apply (proj2 (select_in_bodies pk rlm part)). eauto. }
  split; [done|]. intros Hn. apply NoDup_Permutation; [| |done].
  - rewrite <-Hc in Hn. clear Hin. revert Hn. clear Hc. induction (chunks bind_chunk seqs) as [|part cs IH]; intros Hn; [constructor|].
    cbn [concat mbind list_bind] in *. apply NoDup_app in Hn as (Hn1 & Hd & Hn2). apply NoDup_app. split_and!; [|intros [seq body] Hin|by apply IH].
    + eapply (NoDup_fmap_1 fst), (select_in_bodies pk rlm part).
    + rewrite list_elem_of_bind. intros (part' & Hin' & Hp'). apply (proj2 (select_in_bodies pk rlm part)) in Hin as [Hs _].
      apply (proj2 (select_in_bodies pk rlm part')) in Hin' as [Hs' _]. apply (Hd seq); [done|].
      apply list_elem_of_In, in_concat. exists part'. by rewrite <-!list_elem_of_In.
  - unfold log_bodies. clear -Hn. induction Hn as [|s seqs Hni _ IH]; [constructor|]. unfold omap in *. cbn [list_omap].
    destruct (log_at (L pk rlm) s) as [e|]; [|done]. cbn [mbind option_bind]. constructor; [|done].
    intros (s' & Hs & Hb)%list_elem_of_omap. destruct (log_at (L pk rlm) s'); [|done]. by injection Hb as ->.
Qed.
End rep.

(** ** [setBags] of SQLite *)

Lemma head_blob_wire b : storable b → head_blob b = Some (peekItemHead_wire (bag_peekHead b)).
Proof.
  intros Hb. pose proof (Mem.encode_entry b Hb) as He. unfold run_enc in He. unfold head_blob.
  destruct (writeStruct peekItemHeadCodec (bag_peekHead b) newEncoder) as [[?|?|] e]; try done. by injection He as ->.
Qed.

Definition good_from (n : nat) (bags : list IBag) : list nat :=
  omap (M := list) (λ '(i, bag), if blen (bag_rlm bag) =? hashBytes then Some i else None) (imap (λ j bag, ((n + j)%nat, bag)) bags).

Lemma good_from_cons n b bags :
  good_from n (b :: bags) = (if blen (bag_rlm b) =? hashBytes then [n] else []) ++ good_from (S n) bags.
Proof.
  unfold good_from, omap. cbn [imap list_omap]. rewrite Nat.add_0_r.
  rewrite (imap_ext ((λ j bag, ((n + j)%nat, bag)) ∘ S) (λ j bag, ((S n + j)%nat, bag))) by (intros; cbn; f_equal; lia).
  by destruct (blen (bag_rlm b) =? hashBytes).
Qed.

Definition max_known (maxBy : jsmap jsstr Z) (pk : bytes) L : Prop :=
  ∀ rlm mx, map_get (btoh rlm) maxBy = Some mx → mx = len_at L pk rlm.
(** How a storage reads the answer of [MAX]. *)
Definition reads_max (max : option Z → Z) : Prop := ∀ m, max m = default 0 m.

Lemma bun_reads : reads_max bun_max.
Proof. by intros [[]|]. Qed.
Lemma deno_reads : reads_max deno_max.
Proof. by intros []. Qed.

Lemma sql_rep_ext db L L' U : (∀ pk rlm, L pk rlm = L' pk rlm) → sql_rep db L U → sql_rep db L' U.
Proof. intros HL [Hb Hu]. split; [|done]. intros. by rewrite <-HL. Qed.

Lemma push_bags_cons pk b bags L pk' rlm' :
  push_bags pk (b :: bags) L pk' rlm' =
  push_bags pk bags (if rlm_valid (bag_rlm b) then push_log pk (bag_rlm b) (entry_of b) L else L) pk' rlm'.
Proof.
  unfold push_bags, push_log. cbn [bag_entries]. destruct (rlm_valid (bag_rlm b)); cbn [andb]; [|done].
  destruct (decide (pk' = pk)) as [->|]; [|rewrite decide_False by tauto; by rewrite !app_nil_r].
  case_bool_decide; [rewrite decide_True by done|rewrite decide_False by naive_solver; by rewrite app_nil_r]. by rewrite <-(assoc_L app).
Qed.

Lemma len_push pk rlm e L r : len_at (push_log pk rlm e L) pk r = len_at L pk r + (if decide (r = rlm) then 1 else 0).
Proof.
  unfold len_at, push_log. rewrite length_app. destruct (decide (r = rlm)) as [->|]; [rewrite decide_True by done|rewrite decide_False by naive_solver]; cbn [length]; lia.
Qed.

Lemma max_known_push pk rlm e L maxBy :
  max_known maxBy pk L → max_known (map_set (btoh rlm) (len_at L pk rlm + 1) maxBy) pk (push_log pk rlm e L).
Proof.
  intros Hm r mx. rewrite map_get_set, len_push. destruct (decide (r = rlm)) as [->|Hne]; [rewrite decide_True by done; by intros [= <-]|].
  rewrite decide_False by (by intros ?%(inj btoh)). intros ->%Hm. lia.
Qed.

Lemma set_loop_log max pk pre bags maxBy sbi db L U :
  reads_max max → sql_rep db L U → max_known maxBy pk L → Forall storable bags →
  ∃ sbi' db', set_loop max (λ _, false) (btoh pk) (pre ++ bags) (good_from (length pre) bags) maxBy sbi db = Some (sbi', db') ∧
    sql_rep db' (push_bags pk bags L) U ∧ set_out sbi' (length pre) bags = Some (set_results (len_at L pk) bags) ∧
    ∀ i, (i < length pre)%nat → map_get i sbi' = map_get i sbi.
Proof.
  intros Hmax HR Hm Hs. revert pre maxBy sbi db L HR Hm. induction Hs as [|b bags Hb _ IH]; intros pre maxBy sbi db L HR Hm.
  { exists sbi, db. split_and!; try done. eapply sql_rep_ext, HR. intros. unfold push_bags. case_decide; by rewrite app_nil_r. }
  rewrite good_from_cons. cbn [set_results set_out]. unfold rlm_valid.
  assert (Hpre : pre ++ b :: bags = (pre ++ [b]) ++ bags) by by rewrite <-(assoc_L app).
  assert (Hlen : S (length pre) = length (pre ++ [b])) by (rewrite length_app; cbn; lia).
  pose proof (λ p r, eq_sym (push_bags_cons pk b bags L p r)) as Hpush. unfold rlm_valid in Hpush.
  destruct (blen (bag_rlm b) =? hashBytes) eqn:Ev; cbn [negb app].
  - cbn [set_loop]. rewrite list_lookup_middle by done. cbn [mbind option_bind].
    assert (match map_get (btoh (bag_rlm b)) maxBy with Some mx => mx | None => max (select_max (btoh pk) (bag_rlm b) db) end = len_at L pk (bag_rlm b)) as ->.
    { destruct (map_get (btoh (bag_rlm b)) maxBy) eqn:E; [by apply Hm|]. rewrite Hmax. by eapply select_max_log. }
    rewrite head_blob_wire by done. cbn [mbind option_bind]. change (mkEntry _ _) with (entry_of b).
    destruct (insert_log db L U HR pk (bag_rlm b) (entry_of b)) as (db1 & -> & HR1). cbn [mbind option_bind].
    rewrite Hpre, Hlen. destruct (IH (pre ++ [b]) (map_set (btoh (bag_rlm b)) (len_at L pk (bag_rlm b) + 1) maxBy)
      (map_set (length pre) (len_at L pk (bag_rlm b) + 1) sbi) db1 _ HR1) as (sbi' & db' & E & HR' & Ho & Hk); [by apply max_known_push|].
    exists sbi', db'. split; [exact E|]. split; [by eapply sql_rep_ext, HR'|]. rewrite <-Hlen in Hk. split.
    + rewrite Hk, map_get_set_eq by lia. cbn [mbind option_bind]. rewrite Ho. cbn [mbind option_bind]. do 2 f_equal. apply set_results_ext. intros r. apply len_push.
    + intros i Hi. rewrite Hk by lia. apply map_get_set_ne. lia.
  - rewrite Hpre, Hlen. destruct (IH (pre ++ [b]) maxBy sbi db L HR Hm) as (sbi' & db' & E & HR' & Ho & Hk).
    exists sbi', db'. split; [exact E|]. split; [by eapply sql_rep_ext, HR'|]. rewrite Ho. split; [done|]. intros i Hi. apply Hk. lia.
Qed.

Lemma no_good_bags bags : good_idx bags = [] → (∀ rlm, bag_entries rlm bags = []) ∧ (∀ len, set_results len bags = (λ _, SetFailed InvalidParam) <$> bags) ∧
  ∀ sbi n, set_out sbi n bags = Some ((λ _, SetFailed InvalidParam) <$> bags).
Proof.
  change (good_idx bags) with (good_from 0 bags). generalize 0%nat. induction bags as [|b bags IH]; intros n; [done|]. rewrite good_from_cons.
  unfold rlm_valid in *. cbn [bag_entries set_results set_out]. unfold rlm_valid. destruct (blen (bag_rlm b) =? hashBytes); [done|]. intros (H1 & H2 & H3)%IH. cbn [negb andb app].
  split_and!; [done|intros; by rewrite H2|intros; by rewrite H3].
Qed.

Lemma push_nothing pk bags L : (∀ rlm, bag_entries rlm bags = []) → ∀ pk' rlm', L pk' rlm' = push_bags pk bags L pk' rlm'.
Proof. intros H pk' rlm'. unfold push_bags. rewrite H. case_decide; by rewrite app_nil_r. Qed.

Lemma sqlite_setBags_log max pk bags db L U :
  reads_max max → sql_rep db L U → Forall storable bags →
  ∃ db', setBags_with max (λ _, false) pk bags db = (Ok (set_results (len_at L pk) bags), db') ∧ sql_rep db' (push_bags pk bags L) U.
Proof.
  intros Hmax HR Hs. unfold setBags_with. destruct bags as [|b bags]; [exists db; split; [done|eapply sql_rep_ext, HR; by apply push_nothing]|].
  set (bs := b :: bags) in *. change (Nat.ltb (length bs) 1) with false. cbv iota.
  destruct (Nat.ltb_spec 0 (length (good_idx bs))) as [Hg|Hg].
  - destruct (set_loop_log max pk [] bs [] [] db L U Hmax HR) as (sbi' & db' & E & HR' & Ho & _); [done|done|].
    cbn [app length] in E, Ho. change (good_from 0 bs) with (good_idx bs) in E. rewrite E, Ho. by eexists.
  - destruct (good_idx bs) eqn:E; [|cbn in Hg; lia]. destruct (no_good_bags bs E) as (H1 & H2 & H3). rewrite H3, H2. eexists. split; [done|].
    eapply sql_rep_ext, HR. by apply push_nothing.
Qed.

(** A statement that fails takes the whole call back. *)
Lemma sqlite_setBags_atomic max fails pk bags db :
  setBags_with max fails pk bags db = (Err StorageError, db) ∨ setBags_with max fails pk bags db = setBags_with max (λ _, false) pk bags db.
Proof.
  unfold setBags_with. destruct (Nat.ltb (length bags) 1); [by right|]. destruct (Nat.ltb 0 (length (good_idx bags))); [|by right].
  assert (H : ∀ good maxBy sbi db', set_loop max fails (btoh pk) bags good maxBy sbi db' = None ∨
    set_loop max fails (btoh pk) bags good maxBy sbi db' = set_loop max (λ _, false) (btoh pk) bags good maxBy sbi db').
  { induction good as [|i good IH]; intros maxBy sbi db'; [by right|]. cbn [set_loop]. destruct (bags !! i) as [bag|]; [|by left]. cbn [mbind option_bind].
    destruct (head_blob bag); [|by left]. cbn [mbind option_bind]. destruct (fails i); [by left|]. destruct (insert_bag _ _ _ _ db'); [|by left]. apply IH. }
  destruct (H (good_idx bags) [] [] db) as [E|E]; rewrite E; [by left|by right].
Qed.

(** ** [setBags] of D1 *)

Definition stmt_of (b : IBag) : Stmt := mkStmt (bag_rlm b) (peekItemHead_wire (bag_peekHead b)) (bag_bodyCph b).
Definition stmts_of (bags : list IBag) : list Stmt := stmt_of <$> filter (λ b, rlm_valid (bag_rlm b) = true) bags.
Definition stmt_entry (s : Stmt) : Entry := mkEntry (stm_headCph s) (stm_bodyCph s).
Definition push_stmts (pk : bytes) (stmts : list Stmt) L : Logs := fold_left (λ L s, push_log pk (stm_rlm s) (stmt_entry s) L) stmts L.

Lemma stmts_of_cons b bags : stmts_of (b :: bags) = (if rlm_valid (bag_rlm b) then [stmt_of b] else []) ++ stmts_of bags.
Proof. unfold stmts_of. rewrite filter_cons. destruct (rlm_valid (bag_rlm b)); [by rewrite decide_True|by rewrite decide_False]. Qed.

Lemma prepare_all bags : Forall storable bags → prepare bags = Some (stmts_of bags).
Proof.
  induction 1 as [|b bags Hb _ IH]; [done|]. rewrite stmts_of_cons. cbn [prepare]. unfold rlm_valid. rewrite IH.
  destruct (blen (bag_rlm b) =? hashBytes); [|done]. by rewrite head_blob_wire.
Qed.

Lemma push_stmts_bags pk bags L pk' rlm' : push_stmts pk (stmts_of bags) L pk' rlm' = push_bags pk bags L pk' rlm'.
Proof.
  revert L. induction bags as [|b bags IH]; intros L; [unfold push_bags; case_decide; by rewrite app_nil_r|].
  rewrite push_bags_cons, stmts_of_cons, <-IH. unfold push_stmts. rewrite fold_left_app. by destruct (rlm_valid (bag_rlm b)).
Qed.

Lemma push_stmts_prefix pk stmts L pk' rlm' : L pk' rlm' `prefix_of` push_stmts pk stmts L pk' rlm'.
Proof.
  revert L. induction stmts as [|s stmts IH]; intros L; [done|]. etransitivity; [|apply IH]. unfold push_log. by apply prefix_app_r.
Qed.

(** What a call's statements claim: each its number in the log of its realm. *)
Definition Claim : Type := bytes * bytes * Z * Entry.
Definition claims (pk : bytes) (stmts : list Stmt) (seqs : list Z) : list Claim :=
  zip_with (λ s q, (pk, stm_rlm s, q, stmt_entry s)) stmts seqs.
Definition holds L (c : Claim) : Prop := let '(pk, rlm, q, e) := c in log_at (L pk rlm) q = Some e.

Lemma log_at_prefix l l' q e : l `prefix_of` l' → log_at l q = Some e → log_at l' q = Some e.
Proof. intros [k ->]. apply log_at_app_l. Qed.

Lemma batch_log pk stmts db L U :
  sql_rep db L U →
  ∃ seqs db', d1_batch (btoh pk) stmts db = Some (seqs, db') ∧ sql_rep db' (push_stmts pk stmts L) U ∧ length seqs = length stmts ∧
    Forall (holds (push_stmts pk stmts L)) (claims pk stmts seqs) ∧
    Forall (λ c : Claim, len_at L c.1.1.1 c.1.1.2 < c.1.2) (claims pk stmts seqs) ∧ NoDup (claims pk stmts seqs).*1.
Proof.
  revert db L. induction stmts as [|s stmts IH]; intros db L HR; [exists [], db; cbn; split_and!; done || constructor|]. cbn [d1_batch].
  unfold insert_next. rewrite (select_max_log db L U HR). destruct (insert_log db L U HR pk (stm_rlm s) (stmt_entry s)) as (db1 & E & HR1).
  unfold stmt_entry in E at 1. rewrite E. cbn [mbind option_bind]. destruct (IH db1 _ HR1) as (seqs & db' & -> & HR' & Hl & Hh & Hlt & Hn).
  cbn [mbind option_bind]. exists (len_at L pk (stm_rlm s) + 1 :: seqs), db'. set (L1 := push_log pk (stm_rlm s) (stmt_entry s) L) in *.
  assert (Hle : ∀ c : Claim, c ∈ claims pk stmts seqs → len_at L c.1.1.1 c.1.1.2 < c.1.2 ∧ (c.1.1 = (pk, stm_rlm s) → len_at L pk (stm_rlm s) + 1 < c.1.2)).
  { intros c Hc. rewrite Forall_forall in Hlt. specialize (Hlt c Hc). apply elem_of_lookup_zip_with in Hc as (i & s' & q & -> & _ & _). cbn in *.
    unfold L1 in Hlt. rewrite len_push in Hlt. split; [destruct (decide (stm_rlm s' = stm_rlm s)); lia|]. intros [= Hr]. rewrite Hr, decide_True in Hlt by done. lia. }
  split; [done|]. split; [exact HR'|]. split; [by cbn; rewrite Hl|]. cbn [claims zip_with]. split_and!.
  - constructor; [|exact Hh]. cbn. eapply log_at_prefix; [apply push_stmts_prefix|]. unfold push_log. rewrite decide_True by done. apply log_at_end.
  - constructor; [cbn; lia|]. apply Forall_forall. intros c Hc. by apply Hle.
  - cbn [fmap list_fmap]. constructor; [|exact Hn]. cbn [fst]. intros (c & Hc & Hin)%list_elem_of_fmap. destruct (Hle c Hin) as [_ H].
    rewrite <-Hc in H. cbn in H. specialize (H eq_refl). lia.
Qed.

(** *** A call alone *)

Lemma batch_results pk bags db L U :
  sql_rep db L U →
  ∃ seqs db', d1_batch (btoh pk) (stmts_of bags) db = Some (seqs, db') ∧ sql_rep db' (push_bags pk bags L) U ∧
    d1_out seqs bags = Some (set_results (len_at L pk) bags).
Proof.
  revert db L. induction bags as [|b bags IH]; intros db L HR.
  { exists [], db. split_and!; [done| |done]. eapply sql_rep_ext, HR. intros. unfold push_bags. case_decide; by rewrite app_nil_r. }
  pose proof (λ p r, eq_sym (push_bags_cons pk b bags L p r)) as Hpush. rewrite stmts_of_cons. cbn [d1_out set_results].
  unfold rlm_valid in *. destruct (blen (bag_rlm b) =? hashBytes); cbn [app negb] in *.
  - cbn [d1_batch stmt_of stm_rlm stm_headCph stm_bodyCph]. unfold insert_next. rewrite (select_max_log db L U HR). change (mkEntry _ _) with (entry_of b).
    destruct (insert_log db L U HR pk (bag_rlm b) (entry_of b)) as (db1 & -> & HR1). cbn [mbind option_bind].
    destruct (IH db1 _ HR1) as (seqs & db' & -> & HR' & Ho). cbn [mbind option_bind]. exists (len_at L pk (bag_rlm b) + 1 :: seqs), db'. split; [done|].
    split; [by eapply sql_rep_ext, HR'|]. rewrite Ho. cbn [mbind option_bind]. do 2 f_equal. apply set_results_ext. intros r. apply len_push.
  - destruct (IH db L HR) as (seqs & db' & -> & HR' & Ho). exists seqs, db'. split; [done|]. split; [by eapply sql_rep_ext, HR'|by rewrite Ho].
Qed.

Lemma batch_app h s1 s2 db :
  d1_batch h (s1 ++ s2) db = ('(q1, db) ← d1_batch h s1 db; '(q2, db) ← d1_batch h s2 db; Some (q1 ++ q2, db)).
Proof.
  revert db. induction s1 as [|s s1 IH]; intros db; cbn [app d1_batch]; [cbn; by destruct (d1_batch h s2 db) as [[? ?]|]|].
  destruct (insert_next _ _ _ db) as [[q db1]|]; [|done]. cbn [mbind option_bind]. rewrite IH.
  destruct (d1_batch h s1 db1) as [[q1 db2]|]; [|done]. cbn [mbind option_bind]. by destruct (d1_batch h s2 db2) as [[? ?]|].
Qed.

Lemma d1_run_done fails fuel r db : d1_run fails fuel (D1Done r) db = (D1Done r, db).
Proof. revert fails. induction fuel as [|fuel IH]; intros fails; [done|]. apply IH. Qed.

Lemma d1_run_batches pk bags todo seqs db new db' fuel :
  d1_batch (btoh pk) (concat todo) db = Some (new, db') → (length todo <= fuel)%nat →
  d1_run (λ _, false) (S fuel) (D1Running pk bags todo seqs) db = (d1_finish bags (seqs ++ new), db').
Proof.
  revert seqs db new fuel. induction todo as [|stmts todo IH]; intros seqs db new fuel Hb Hf.
  { cbn in Hb. injection Hb as <- <-. rewrite app_nil_r. apply d1_run_done. }
  cbn [concat] in Hb. rewrite batch_app in Hb. destruct (d1_batch (btoh pk) stmts db) as [[q1 db1]|] eqn:E1; [|done]. cbn [mbind option_bind] in Hb.
  destruct (d1_batch (btoh pk) (concat todo) db1) as [[q2 db2]|] eqn:E2; [|done]. injection Hb as <- <-.
  destruct fuel as [|fuel]; [cbn in Hf; lia|]. change (d1_run (λ _, false) (S (S fuel)) (D1Running pk bags (stmts :: todo) seqs) db) with
    (let '(c, db) := d1_step false (D1Running pk bags (stmts :: todo) seqs) db in d1_run (λ _, false) (S fuel) c db).
  cbn [d1_step]. rewrite E1. destruct todo as [|t todo].
  - cbn in E2. injection E2 as <- <-. rewrite app_nil_r. apply d1_run_done.
  - rewrite (assoc_L app). apply IH; [done|]. cbn in Hf |- *. lia.
Qed.

Lemma chunks_length {A} n (l : list A) : (0 < n)%nat → (length (chunks n l) <= length l)%nat.
Proof.
  intros Hn. rewrite <-(chunks_concat n l) at 2 by done. pose proof (chunks_nonempty n l Hn) as Hne.
  induction Hne as [|c cs Hc _ IH]; [done|]. cbn [concat length]. rewrite length_app. destruct c; [done|]. cbn [length]. lia.
Qed.

Lemma good_idx_stmts bags : length (good_idx bags) = length (stmts_of bags).
Proof.
  change (good_idx bags) with (good_from 0 bags). generalize 0%nat. induction bags as [|b bags IH]; intros n; [done|].
  rewrite good_from_cons, stmts_of_cons, !length_app, IH. unfold rlm_valid. by destruct (blen (bag_rlm b) =? hashBytes).
Qed.

Lemma d1_setBags_log pk bags db L U :
  sql_rep db L U → Forall storable bags →
  ∃ db', d1_setBags (λ _, false) pk bags db = (Ok (set_results (len_at L pk) bags), db') ∧ sql_rep db' (push_bags pk bags L) U.
Proof.
  intros HR Hs. unfold d1_setBags, d1_start. destruct bags as [|b bags]; [exists db; split; [done|eapply sql_rep_ext, HR; by apply push_nothing]|].
  set (bs := b :: bags) in *. change (Nat.ltb (length bs) 1) with false. cbv iota.
  destruct (Nat.ltb_spec (length (good_idx bs)) 1) as [Hg|Hg].
  - destruct (good_idx bs) eqn:E; [|cbn in Hg; lia]. destruct (no_good_bags bs E) as (H1 & H2 & _). rewrite d1_run_done, H2. exists db. split; [done|].
    eapply sql_rep_ext, HR. by apply push_nothing.
  - rewrite prepare_all by done. destruct (batch_results pk bs db L U HR) as (seqs & db' & Hb & HR' & Ho).
    assert (Hc : concat (chunks batch_chunk (stmts_of bs)) = stmts_of bs) by (apply chunks_concat; unfold batch_chunk; lia).
    rewrite <-Hc in Hb. erewrite (d1_run_batches pk bs _ [] db seqs db'); [|exact Hb|].
    + cbn [app d1_finish]. unfold d1_finish. rewrite Ho. by exists db'.
    + etransitivity; [apply chunks_length; unfold batch_chunk; lia|]. unfold stmts_of. rewrite length_fmap. apply length_filter.
Qed.

(** *** Calls that interleave *)

(** The call an event starts, and what its answer claims. *)
Definition call_of (ev : D1Event) : option (bytes * list IBag) := match ev with D1Call_ pk bags => Some (pk, bags) | _ => None end.
Definition calls_of (evs : list D1Event) : list (bytes * list IBag) := omap (M := list) call_of evs.

Fixpoint answered (pk : bytes) (bags : list IBag) (results : list ISetBagResult) : list Claim :=
  match bags, results with
  | b :: bags, SetStored q :: results => (pk, bag_rlm b, q, entry_of b) :: answered pk bags results
  | _ :: bags, _ :: results => answered pk bags results
  | _, _ => []
  end.
Definition result_for (b : IBag) (r : ISetBagResult) : Prop :=
  match r with SetStored _ => rlm_valid (bag_rlm b) = true | SetFailed st => st = InvalidParam ∧ rlm_valid (bag_rlm b) = false end.
(** The bags a call has answered for. *)
Definition stored_by (call : bytes * list IBag) (c : D1Call) : list Claim :=
  match c with D1Done (Ok results) => answered call.1 call.2 results | _ => [] end.

Definition claimed_by (call : bytes * list IBag) (c : D1Call) : list Claim :=
  match c with D1Running _ _ _ seqs => claims call.1 (stmts_of call.2) seqs | _ => stored_by call c end.
Definition call_ok (call : bytes * list IBag) (c : D1Call) : Prop :=
  match c with
  | D1Running pk bags todo seqs => (pk, bags) = call ∧ ∃ ran, stmts_of bags = ran ++ concat todo ∧ length seqs = length ran
  | D1Done (Ok results) => Forall2 result_for call.2 results
  | D1Done _ => True
  end.

Lemma d1_finish_ok pk bags seqs :
  length seqs = length (stmts_of bags) →
  call_ok (pk, bags) (d1_finish bags seqs) ∧ claimed_by (pk, bags) (d1_finish bags seqs) = claims pk (stmts_of bags) seqs.
Proof.
  intros Hl. assert (∃ out, d1_out seqs bags = Some out ∧ Forall2 result_for bags out ∧ answered pk bags out = claims pk (stmts_of bags) seqs)
    as (out & Ho & Hr & Ha); [|unfold d1_finish; by rewrite Ho].
  revert seqs Hl. induction bags as [|b bags IH]; intros seqs Hl; [destruct seqs; [|done]; by exists []|].
  rewrite stmts_of_cons in *. cbn [d1_out]. unfold rlm_valid in *. destruct (blen (bag_rlm b) =? hashBytes) eqn:E; cbn [negb app] in *.
  - destruct seqs as [|q seqs]; [done|]. destruct (IH seqs) as (out & -> & Hr & Ha); [by injection Hl|]. eexists. split; [done|].
    split; [by constructor|]. cbn [answered claims zip_with]. by rewrite Ha.
  - destruct (IH seqs Hl) as (out & -> & Hr & Ha). eexists. split; [done|]. split; [by constructor|done].
Qed.

Lemma d1_start_ok pk bags : Forall storable bags → call_ok (pk, bags) (d1_start pk bags) ∧ claimed_by (pk, bags) (d1_start pk bags) = [].
Proof.
  intros Hs. unfold d1_start. destruct (Nat.ltb_spec (length bags) 1); [destruct bags; [by split; [constructor|]|cbn in *; lia]|]. destruct (Nat.ltb_spec (length (good_idx bags)) 1) as [Hg|Hg].
  - rewrite good_idx_stmts in Hg. destruct (stmts_of bags) eqn:E; [|cbn in Hg; lia]. clear -E. cbn. induction bags as [|b bags IH]; [done|].
    rewrite stmts_of_cons in E. cbn. destruct (rlm_valid (bag_rlm b)) eqn:Ev; [done|]. destruct (IH E) as [H1 H2]. split; [by constructor|done].
  - rewrite prepare_all by done. split; [|unfold claimed_by, claims; by destruct (stmts_of (pk, bags).2)]. split; [done|]. exists []. split; [|done].
    symmetry. apply chunks_concat. unfold batch_chunk. lia.
Qed.

Lemma holds_below L c : holds L c → c.1.2 <= len_at L c.1.1.1 c.1.1.2.
Proof. destruct c as [[[pk rlm] q] e]. cbn. unfold log_at, len_at. destruct (Z.ltb_spec q 1); [done|]. intros ?%lookup_lt_Some. lia. Qed.

Lemma holds_later L L' c : (∀ pk rlm, L pk rlm `prefix_of` L' pk rlm) → holds L c → holds L' c.
Proof. destruct c as [[[pk rlm] q] e]. cbn. intros HL. by apply log_at_prefix. Qed.

(** One turn of a call: its claims stay or grow by rows that are new, or it fails
    and claims nothing. *)
Lemma d1_step_ok call fails c db L U :
  sql_rep db L U → call_ok call c →
  let '(c', db') := d1_step fails c db in
  call_ok call c' ∧ ∃ L', sql_rep db' L' U ∧ (∀ pk rlm, L pk rlm `prefix_of` L' pk rlm) ∧
    (claimed_by call c' = [] ∨ ∃ new, claimed_by call c' = claimed_by call c ++ new ∧
      Forall (holds L') new ∧ Forall (λ c : Claim, len_at L c.1.1.1 c.1.1.2 < c.1.2) new ∧ NoDup new.*1).
Proof.
  intros HR Hc. assert (Hsame : ∀ c', claimed_by call c' = claimed_by call c → ∃ L', sql_rep db L' U ∧ (∀ pk rlm, L pk rlm `prefix_of` L' pk rlm) ∧
    (claimed_by call c' = [] ∨ ∃ new, claimed_by call c' = claimed_by call c ++ new ∧
      Forall (holds L') new ∧ Forall (λ c : Claim, len_at L c.1.1.1 c.1.1.2 < c.1.2) new ∧ NoDup new.*1)).
  { intros c' E. exists L. split_and!; try done. right. exists []. rewrite E, app_nil_r. split_and!; constructor. }
  assert (Hfail : ∃ L', sql_rep db L' U ∧ (∀ pk rlm, L pk rlm `prefix_of` L' pk rlm) ∧ (claimed_by call (D1Done (Err StorageError)) = [] ∨ ∃ new, claimed_by call (D1Done (Err StorageError)) = claimed_by call c ++ new ∧
      Forall (holds L') new ∧ Forall (λ c : Claim, len_at L c.1.1.1 c.1.1.2 < c.1.2) new ∧ NoDup new.*1)).
  { exists L. split_and!; try done. by left. }
  destruct c as [pk bags [|stmts todo] seqs|r]; cbn [d1_step].
  - destruct Hc as [<- (ran & Hr & Hl)]. cbn [concat] in Hr. rewrite app_nil_r in Hr. destruct (d1_finish_ok pk bags seqs) as [H1 H2]; [by rewrite Hr|].
    split; [done|]. by apply Hsame.
  - destruct Hc as [<- (ran & Hr & Hl)]. destruct fails; [by split|]. destruct (batch_log pk stmts db L U HR) as (new & db' & -> & HR' & Hln & Hh & Hlt & Hn).
    cbn [concat] in Hr.
    assert (Hcl : claims pk (stmts_of bags) (seqs ++ new) = claims pk (stmts_of bags) seqs ++ claims pk stmts new).
    { unfold claims. rewrite Hr, zip_with_app by done. by rewrite (zip_with_prefix _ stmts), (zip_with_prefix _ ran). }
    set (c' := match todo with [] => d1_finish bags (seqs ++ new) | _ => D1Running pk bags todo (seqs ++ new) end).
    assert (Hc' : call_ok (pk, bags) c' ∧ claimed_by (pk, bags) c' = claims pk (stmts_of bags) (seqs ++ new)).
    { unfold c'. destruct todo as [|t todo].
      - apply d1_finish_ok. rewrite Hr, !length_app. cbn. lia.
      - split; [|done]. split; [done|]. exists (ran ++ stmts). split; [by rewrite Hr, (assoc_L app)|]. rewrite !length_app. lia. }
    destruct Hc' as [H1 H2]. split; [done|]. exists (push_stmts pk stmts L). split; [done|]. split; [intros; apply push_stmts_prefix|].
    right. exists (claims pk stmts new). by rewrite H2, Hcl.
  - split; [done|]. by apply Hsame.
Qed.

Lemma concat_insert {A} (l : list (list A)) i x z :
  l !! i = Some x → ∃ rest, concat l ≡ₚ x ++ rest ∧ concat (<[i:=z]> l) ≡ₚ z ++ rest.
Proof.
  intros Hi. exists (concat (take i l ++ drop (S i) l)). pose proof (lookup_lt_Some _ _ _ Hi) as Hlt.
  rewrite insert_take_drop by done. rewrite <-(take_drop_middle l i x Hi) at 1. rewrite !concat_app. cbn [concat].
  split; by rewrite !(assoc_L app), (Permutation_app_comm (concat (take i l))).
Qed.

(** Claims that hold, above what a start held, no number of a log twice. *)
Definition claims_ok L0 L (cl : list Claim) : Prop :=
  Forall (holds L) cl ∧ Forall (λ c : Claim, len_at L0 c.1.1.1 c.1.1.2 < c.1.2) cl ∧ NoDup cl.*1.

#[local] Instance claims_ok_perm L0 L : Proper ((≡ₚ) ==> iff) (claims_ok L0 L).
Proof.
  cut (∀ cl cl', cl ≡ₚ cl' → claims_ok L0 L cl → claims_ok L0 L cl'); [by intros H cl cl' Hp; split; apply H|].
  intros cl cl' Hp (Hh & Hlt & Hn). rewrite Forall_forall in Hh, Hlt. split_and!; [apply Forall_forall; intros c Hc; rewrite <-Hp in Hc; auto..|].
  assert (Hf : cl.*1 ≡ₚ cl'.*1) by by apply fmap_Permutation. by rewrite <-Hf.
Qed.

Lemma claims_ok_sublist L0 L cl cl' : cl' `sublist_of` cl → claims_ok L0 L cl → claims_ok L0 L cl'.
Proof.
  intros Hsub (Hh & Hlt & Hn). rewrite Forall_forall in Hh, Hlt. split_and!; [apply Forall_forall..|].
  - intros c Hc. apply Hh. by eapply elem_of_sublist.
  - intros c Hc. apply Hlt. by eapply elem_of_sublist.
  - eapply sublist_NoDup; [exact Hn|]. by apply fmap_sublist.
Qed.

(** Claims on rows added since join the others. *)
Lemma claims_ok_new L0 L L' cl new :
  (∀ pk rlm, L0 pk rlm `prefix_of` L pk rlm) → (∀ pk rlm, L pk rlm `prefix_of` L' pk rlm) →
  claims_ok L0 L cl → claims_ok L L' new → claims_ok L0 L' (new ++ cl).
Proof.
  intros H0 HL (Hh & Hlt & Hn) (Hh' & Hlt' & Hn'). rewrite Forall_forall in Hh, Hlt, Hlt'. split_and!.
  - apply Forall_app. split; [done|]. apply Forall_forall. intros c Hc. eapply holds_later, Hh, Hc. done.
  - apply Forall_app. split; apply Forall_forall; intros c Hc; [|by apply Hlt]. apply Hlt' in Hc. pose proof (prefix_length _ _ (H0 c.1.1.1 c.1.1.2)).
    unfold len_at in *. lia.
  - rewrite fmap_app. apply NoDup_app. split_and!; [done| |done].
    intros k (x & -> & Hx)%list_elem_of_fmap (y & Hxy & Hy)%list_elem_of_fmap. apply Hlt' in Hx. apply Hh, holds_below in Hy. rewrite Hxy in Hx. lia.
Qed.

Lemma d1_events_inv evs db0 L0 U :
  sql_rep db0 L0 U → (∀ pk bags, D1Call_ pk bags ∈ evs → Forall storable bags) →
  let p := d1_events evs (mkD1 [] db0) in
  ∃ L, sql_rep (d1_db p) L U ∧ (∀ pk rlm, L0 pk rlm `prefix_of` L pk rlm) ∧ Forall2 call_ok (calls_of evs) (d1_calls p) ∧
    claims_ok L0 L (concat (zip_with claimed_by (calls_of evs) (d1_calls p))).
Proof.
  intros HR. induction evs as [|ev evs IH] using rev_ind; intros Hs; cbv zeta; [exists L0; split_and!; try done; split_and!; constructor|].
  destruct IH as (L & HL & Hp & Hok & Hcl); [intros pk bags Hin; apply (Hs pk); set_solver|]. unfold d1_events in *. rewrite fold_left_app. cbn [fold_left].
  set (p := fold_left _ evs _) in *. unfold calls_of in *. rewrite omap_app. set (cs := omap (M := list) call_of evs) in *.
  destruct ev as [pk bags|i fails]; cbn [d1_event d1_db d1_calls].
  - change (omap call_of [D1Call_ pk bags]) with [(pk, bags)]. destruct (d1_start_ok pk bags) as [H1 H2]; [apply (Hs pk); set_solver|].
    exists L. split_and!; [done|done|apply Forall2_app; [done|by constructor]|].
    rewrite zip_with_app by (by eapply Forall2_length). rewrite concat_app. cbn [zip_with concat]. by rewrite H2, !app_nil_r.
  - change (omap call_of [D1Batch i fails]) with (@nil (bytes * list IBag)). rewrite app_nil_r. destruct (d1_calls p !! i) as [c|] eqn:Ei; [|by exists L].
    destruct (Forall2_lookup_r _ _ _ _ _ Hok Ei) as (call & Eo & Hc). pose proof (d1_step_ok call fails c (d1_db p) L U HL Hc) as Hstep.
    destruct (d1_step fails c (d1_db p)) as [c' db']. cbn [d1_calls d1_db]. destruct Hstep as (Hc' & L' & HR' & HLL & Hnew).
    exists L'. split; [done|]. split; [intros pk' rlm'; etransitivity; [apply Hp|apply HLL]|].
    rewrite <-(list_insert_id cs i call Eo) at 1 2. split; [by apply Forall2_insert|]. rewrite <-insert_zip_with.
    assert (Hx : zip_with claimed_by cs (d1_calls p) !! i = Some (claimed_by call c)) by (apply lookup_zip_with_Some; eauto).
    destruct (concat_insert _ i _ (claimed_by call c') Hx) as (rest & P1 & P2). apply (claims_ok_perm L0 L' _ _ P2). apply (claims_ok_perm L0 L _ _ P1) in Hcl.
    destruct Hnew as [->|(new & -> & Hnew)].
    + apply (claims_ok_new L0 L L' rest []); [done|done| |split_and!; constructor]. eapply claims_ok_sublist, Hcl. by apply sublist_inserts_l.
    + rewrite (Permutation_app_comm (claimed_by call c)), <-(assoc_L app). by apply (claims_ok_new L0 L L').
Qed.

(** The answered claims of a call are among its claims. *)
Lemma stored_claimed calls cs :
  concat (zip_with stored_by calls cs) `sublist_of` concat (zip_with claimed_by calls cs).
Proof.
  revert cs. induction calls as [|call calls IH]; intros [|c cs]; cbn; try done. apply sublist_app; [|apply IH].
  destruct c; [apply sublist_nil_l|done].
Qed.

(** *** Batches that fail *)

Lemma chunks_take {A} n k (l : list A) : (0 < n)%nat →
  concat (take k (chunks n l)) = take (k * n) l ∧ ((k * n < length l)%nat → (k < length (chunks n l))%nat).
Proof.
  intros Hn. unfold chunks. assert (H : ∀ fuel k (l : list A), (length l <= fuel)%nat →
    concat (take k (chunks_fuel fuel n l)) = take (k * n) l ∧ ((k * n < length l)%nat → (k < length (chunks_fuel fuel n l))%nat)); [|by apply H].
  clear l k. induction fuel as [|fuel IH]; intros k [|x l] Hl; cbn [length chunks_fuel] in *; try lia; try (by rewrite !take_nil; split; [|lia]).
  destruct k as [|k]; [split; [done|cbn; lia]|]. destruct (IH k (drop n (x :: l))) as [H1 H2]; [rewrite length_drop; cbn; lia|].
  rewrite length_drop in H2. split.
  - cbn [take concat]. rewrite H1. by rewrite Nat.mul_succ_l, Nat.add_comm, take_take_drop.
  - cbn [length] in *. intros Hk. rewrite <-Nat.succ_lt_mono. apply H2. lia.
Qed.

Lemma d1_run_fails fails k pk bags todo seqs db L U fuel :
  sql_rep db L U → (∀ i, (i < k)%nat → fails i = false) → fails k = true → (k < length todo)%nat → (k < fuel)%nat →
  ∃ db', d1_run fails fuel (D1Running pk bags todo seqs) db = (D1Done (Err StorageError), db') ∧
    sql_rep db' (push_stmts pk (concat (take k todo)) L) U.
Proof.
  intros HR Hok Hk. revert fails k todo seqs db L HR Hok Hk. induction fuel as [|fuel IH]; intros fails k todo seqs db L HR Hok Hk Hlt Hf; [lia|].
  destruct todo as [|stmts todo]; [cbn in Hlt; lia|]. destruct k as [|k]; cbn [d1_run].
  - rewrite Hk. cbn [d1_step]. rewrite d1_run_done. by exists db.
  - rewrite Hok by lia. cbn [d1_step]. destruct (batch_log pk stmts db L U HR) as (new & db1 & -> & HR1 & _).
    destruct todo as [|t todo]; [cbn in Hlt; lia|]. cbn [length] in *.
    destruct (IH (fails ∘ S) k (t :: todo) (seqs ++ new) db1 _ HR1) as (db' & E & HR'); [intros; apply Hok; lia|done|cbn; lia|lia|].
    exists db'. cbn [take concat]. unfold push_stmts in *. rewrite fold_left_app. by split.
Qed.

Lemma stmts_take n bags : take n (stmts_of bags) = stmts_of (take n (filter (λ b, rlm_valid (bag_rlm b) = true) bags)).
Proof.
  unfold stmts_of. rewrite <-fmap_take. f_equal. symmetry. apply list_filter_all. intros b Hb.
  pose proof (elem_of_sublist _ _ _ Hb (sublist_take _ _)) as Hb'. by apply list_elem_of_filter in Hb' as [? _].
Qed.

(** ** The properties *)

(** What a storage promises, with the bodies of a query in any order. *)
Record keeps_log (I : IStorage DB) : Prop := {
  kl_addUser db L U pk : sql_rep db L U →
    ∃ db', addUser pk db = (Ok tt, db') ∧ sql_rep db' L (λ pk', bool_decide (pk' = pk) || U pk');
  kl_setBags db L U pk bags : sql_rep db L U → Forall storable bags →
    ∃ db', setBags pk bags db = (Ok (set_results (len_at L pk) bags), db') ∧ sql_rep db' (push_bags pk bags L) U;
  kl_getBodies db L U pk rlm seqs : sql_rep db L U →
    ∃ bodies, getBodies pk rlm seqs db = (if rlm_valid rlm then Ok bodies else Err InvalidParam, db) ∧
      (∀ x, x ∈ bodies ↔ x ∈ log_bodies (L pk rlm) seqs) ∧ (NoDup seqs → bodies ≡ₚ log_bodies (L pk rlm) seqs);
  kl_listHeads db L U pk rlm minSeq : sql_rep db L U →
    listHeads pk rlm minSeq db = (if rlm_valid rlm then Ok (log_heads (L pk rlm) minSeq) else Err InvalidParam, db);
}.
Definition knows_users (I : IStorage DB) : Prop := ∀ db L U pk, sql_rep db L U → hasUser pk db = (Ok (U pk), db).

Lemma addUser_log db L U pk : sql_rep db L U →
  ∃ db', sql_addUser pk db = (Ok tt, db') ∧ sql_rep db' L (λ pk', bool_decide (pk' = pk) || U pk').
Proof. intros HR. exists (insert_user (btoh pk) db). split; [done|]. by apply (user_log db L U HR). Qed.

Lemma getBodies_log db L U pk rlm seqs : sql_rep db L U →
  ∃ bodies, sql_getBodies pk rlm seqs db = (if rlm_valid rlm then Ok bodies else Err InvalidParam, db) ∧
    (∀ x, x ∈ bodies ↔ x ∈ log_bodies (L pk rlm) seqs) ∧ (NoDup seqs → bodies ≡ₚ log_bodies (L pk rlm) seqs).
Proof.
  intros HR. exists (chunks bind_chunk seqs ≫= λ part, select_in (btoh pk) rlm part db). split; [|by apply (bodies_log db L U HR)].
  unfold sql_getBodies, rlm_valid. destruct (blen rlm =? hashBytes); [|done]. by destruct seqs.
Qed.

Lemma listHeads_log db L U pk rlm minSeq : sql_rep db L U →
  sql_listHeads pk rlm minSeq db = (if rlm_valid rlm then Ok (log_heads (L pk rlm) minSeq) else Err InvalidParam, db).
Proof. intros HR. unfold sql_listHeads, rlm_valid. rewrite (select_above_log db L U HR). by destruct (blen rlm =? hashBytes). Qed.

(** [C23] The storages on SQLite (Bun, Deno) and D1 (Cloudflare) keep the log the
    contract describes: [addUser], [setBags], [getBodies] and [listHeads] take a
    database that holds the logs [L] to one that holds the contract's, with the
    contract's answers, bodies in any order; a realm of the wrong length is
    refused. On SQLite [hasUser] answers who is registered. *)
Theorem sql_storages_refine_log first :
  keeps_log bun_storage ∧ knows_users bun_storage ∧ keeps_log deno_storage ∧ knows_users deno_storage ∧ keeps_log (d1_storage first).
Proof.
  assert (Hs : ∀ max, reads_max max → keeps_log {| addUser := sql_addUser; hasUser := bun_hasUser; subMeta := sql_subMeta;
    setBags := setBags_with max (λ _, false); getBodies := sql_getBodies; listHeads := sql_listHeads |}).
  { intros max Hmax. split; [apply addUser_log| |apply getBodies_log|apply listHeads_log]. intros. by apply sqlite_setBags_log. }
  assert (Hu : ∀ db L U pk, sql_rep db L U → truthy (VNum (Some (select_exists (btoh pk) db))) = U pk).
  { intros db L U pk HR. rewrite (proj2 (user_log db L U HR pk)). by destruct (U pk). }
  split_and!.
  - apply (Hs _ bun_reads).
  - intros db L U pk HR. cbn. unfold bun_hasUser. by rewrite (Hu db L U).
  - destruct (Hs _ deno_reads) as [H1 H2 H3 H4]. by split.
  - intros db L U pk HR. cbn. unfold deno_hasUser. by rewrite (Hu db L U).
  - split; [apply addUser_log|intros; by apply d1_setBags_log|apply getBodies_log|apply listHeads_log].
Qed.

(** [C24] Calls of [setBags] on one D1 database that interleave, batch by batch,
    some batches failing, lose no bag: the logs only grow; each call that
    succeeds answers for all its bags, refusing those whose realm has the wrong
    length; every bag answered as stored is in its log under the number answered,
    above all earlier ones, and no two answers, of one call or of several, name
    the same number of a log. *)
Theorem d1_writers_keep_bags evs db0 L0 U :
  sql_rep db0 L0 U → (∀ pk bags, D1Call_ pk bags ∈ evs → Forall storable bags) →
  let p := d1_events evs (mkD1 [] db0) in
  let stored := concat (zip_with stored_by (calls_of evs) (d1_calls p)) in
  ∃ L, sql_rep (d1_db p) L U ∧ (∀ pk rlm, L0 pk rlm `prefix_of` L pk rlm) ∧ Forall2 call_ok (calls_of evs) (d1_calls p) ∧
    Forall (holds L) stored ∧ Forall (λ c : Claim, len_at L0 c.1.1.1 c.1.1.2 < c.1.2) stored ∧ NoDup stored.*1.
Proof.
  intros HR Hs. destruct (d1_events_inv evs db0 L0 U HR Hs) as (L & HL & Hp & Hok & Hcl). exists L. split_and!; [done..| | |].
  all: apply (claims_ok_sublist L0 L _ _ (stored_claimed _ _) Hcl).
Qed.

(** [C39] When the database refuses a statement: a call of [setBags] on SQLite
    answers a storage error and leaves the database as it was (or never reached
    the statement); on D1, where every 500 bags are a transaction of their own,
    it answers the same error and the bags of the batches before stay stored. *)
Theorem failed_setBags_leave_batches pk bags db L U :
  sql_rep db L U → Forall storable bags →
  (∀ max fails, setBags_with max fails pk bags db = (Err StorageError, db) ∨
    setBags_with max fails pk bags db = setBags_with max (λ _, false) pk bags db) ∧
  ∀ fails k, (∀ i, (i < k)%nat → fails i = false) → fails k = true →
    (k * batch_chunk < length (filter (λ b, rlm_valid (bag_rlm b) = true) bags))%nat →
    ∃ db', d1_setBags fails pk bags db = (Err StorageError, db') ∧
      sql_rep db' (push_bags pk (take (k * batch_chunk) (filter (λ b, rlm_valid (bag_rlm b) = true) bags)) L) U.
Proof.
  intros HR Hs. split; [intros; apply sqlite_setBags_atomic|]. intros fails k Hok Hk Hlt.
  assert (Hlt' : (k * batch_chunk < length (stmts_of bags))%nat) by (unfold stmts_of; by rewrite length_fmap).
  destruct (chunks_take batch_chunk k (stmts_of bags)) as [Hc Hl]; [unfold batch_chunk; lia|]. apply Hl in Hlt'.
  assert (Hb : (length (stmts_of bags) <= length bags)%nat) by (unfold stmts_of; rewrite length_fmap; apply length_filter).
  pose proof (chunks_length batch_chunk (stmts_of bags) ltac:(unfold batch_chunk; lia)) as Hcl.
  unfold d1_setBags, d1_start. rewrite (proj2 (Nat.ltb_ge _ _)) by lia. rewrite good_idx_stmts, (proj2 (Nat.ltb_ge _ _)) by lia.
  rewrite prepare_all by done. destruct (d1_run_fails fails k pk bags (chunks batch_chunk (stmts_of bags)) [] db L U (S (length bags))) as (db' & -> & HR'); [done..|lia|].
  exists db'. split; [done|]. rewrite Hc, stmts_take in HR'. eapply sql_rep_ext, HR'. intros. apply push_stmts_bags.
Qed.
(** ** Who is registered on D1 *)

Section strangers.
Context {C : CryptoPrims} {N : Type} {PN : IPushNotifier N} (first : list (jsstr * jsval) → jsval) (Hfirst : ∀ row, first row = VObj row).

(** A row is an object, and so a truthy answer. *)
Lemma d1_hasUser_any pk db : d1_hasUser first pk db = (Ok true, db).
Proof. unfold d1_hasUser. by rewrite Hfirst. Qed.

(** A key that never registered may ask what the other hosts refuse it. *)
Lemma d1_peek_serves_strangers a cur now (h : Host (S := DB) (N := N)) L U :
  authTS_ok a → validateAuthTimestamp a now = Ok tt → peekCursor_ok cur →
  sql_rep (h_sto h) L U → U (at_pubKey a) = false → log_fits (L (at_pubKey a) (pc_rlm cur)) →
  let req := start (authTS_wire a ++ peekCursor_wire cur) h in
  (∃ c', peek_handleReq (I := d1_storage first) now req = (Ok tt, c') ∧
    enc_result (rq_enc c') = concat (peekItem_wire <$> log_heads (L (at_pubKey a) (pc_rlm cur)) (pc_seq cur))) ∧
  (peek_handleReq (I := bun_storage) now req).1 = Err UserNotRegistered.
Proof.
  intros Ha Hv Hc HR Hu Hf req. unfold req, peek_handleReq. split.
  - rewrite (auth_prefix_ok a (peekCursor_wire cur)) by done. cbn [rq_enc rq_sto rq_ntf start]. unfold mbind at 1, M_bind, m_bind, on_sto at 1.
    cbn [rq_sto hasUser d1_storage]. rewrite d1_hasUser_any. cbn [negb rq_dec rq_enc rq_ntf]. unfold mbind at 1, M_bind, m_bind.
    rewrite (on_dec_end _ (authTS_wire a) (peekCursor_wire cur) cur); [|apply decodes_to_end; by apply (lawful_dec (norm := id) (ok := peekCursor_ok))|done].
    cbn [rq_enc rq_sto rq_ntf]. unfold reqDone. unfold mbind at 1, M_bind, m_bind. unfold dec_done. cbn [rq_dec data pos]. rewrite blen_app, Z.leb_refl. cbn [negb].
    unfold on_sto. unfold mbind, M_bind, m_bind. cbn [rq_sto listHeads d1_storage]. rewrite (listHeads_log (h_sto h) L U) by done. destruct Hc as [Hr _].
    unfold rlm_valid. rewrite Hr, Z.eqb_refl.
    edestruct (on_enc_spec (S := DB) (N := N) (writeStructs peekItemCodec (log_heads (L (at_pubKey a) (pc_rlm cur)) (pc_seq cur)))) as (c' & -> & _ & _ & _ & H4).
    { apply (writeStructs_encodes peekItemCodec peekItem_ok id peekItem_wire). by apply log_heads_ok. }
    exists c'. split; [done|]. by rewrite H4.
  - rewrite (auth_prefix_ok a (peekCursor_wire cur)) by done. cbn [rq_enc rq_sto rq_ntf start]. unfold mbind at 1, M_bind, m_bind, on_sto at 1.
    cbn [rq_sto hasUser bun_storage]. unfold bun_hasUser. by rewrite (proj2 (user_log (h_sto h) L U HR (at_pubKey a))), Hu.
Qed.
End strangers.
End sql.

(** ** Concrete runs *)

Module SqlDemo.

Abbreviation Db := (SqlDb (gmap jsstr unit) (gmap BagKey Entry)).
Definition db0 : Db := mkSql ∅ ∅.
Definition no_logs : Logs := λ _ _, [].

Lemma db0_rep : sql_rep db0 no_logs (λ _, false).
Proof.
  split; [|done]. intros pk rlm seq. unfold no_logs, log_at. cbn. by destruct (seq <? 1).
Qed.

Definition pk : bytes := replicate 32 x07.
Definition rlm : bytes := replicate 32 x01.
Definition bag (r : bytes) (body : bytes) : IBag := mkBag r (replicate 64 x02) (be_bytes 8 1) [x05] body.
Definition bags : list IBag := [bag rlm [x61]; bag [x01] [x62]; bag rlm [x63]].

Lemma storable_bag r body : storable (bag r body).
Proof. by vm_compute. Qed.
Lemma bags_storable : Forall storable bags.
Proof. repeat constructor. Qed.

(** A row of the query is an object. *)
Definition first_row (row : list (jsstr * jsval)) : jsval := VObj row.

Example bun_answers :
  (setBags (IStorage := bun_storage (TU := gmap jsstr unit) (TB := gmap BagKey Entry)) pk bags db0).1 = Ok [SetStored 1; SetFailed InvalidParam; SetStored 2].
Proof. vm_compute. reflexivity. Qed.

Lemma sql_storages_refine_log_witness :
  let stored := (setBags (IStorage := d1_storage first_row) pk bags db0).2 in
  setBags (IStorage := d1_storage first_row) pk bags db0 = (Ok (set_results (len_at no_logs pk) bags), stored) ∧
  sql_rep stored (push_bags pk bags no_logs) (λ _, false).
Proof.
  destruct (sql_storages_refine_log (TU := gmap jsstr unit) (TB := gmap BagKey Entry) first_row) as (_ & _ & _ & _ & [_ Hset _ _]).
  destruct (Hset db0 no_logs (λ _, false) pk bags db0_rep bags_storable) as (db' & E & HR).
  cbv zeta. rewrite E. split; [reflexivity|exact HR].
Defined.

(** Two calls whose batches alternate; one of a third call fails. *)
Definition evs : list D1Event :=
  [D1Call_ pk bags; D1Call_ pk [bag rlm [x64]]; D1Call_ pk bags; D1Batch 2 true; D1Batch 1 false; D1Batch 0 false].

Lemma evs_storable pk' bags' : D1Call_ pk' bags' ∈ evs → Forall storable bags'.
Proof.
  unfold evs. rewrite !elem_of_cons. intros [[= _ ->]|[[= _ ->]|[[= _ ->]|H]]]; [apply bags_storable|repeat constructor|apply bags_storable|].
  by destruct H as [?|[?|[?|?%not_elem_of_nil]]].
Qed.

Example evs_answers :
  d1_calls (d1_events evs (mkD1 [] db0)) =
  [D1Done (Ok [SetStored 2; SetFailed InvalidParam; SetStored 3]); D1Done (Ok [SetStored 1]); D1Done (Err StorageError)].
Proof. vm_compute. reflexivity. Qed.

Lemma d1_writers_keep_bags_witness :
  let p := d1_events evs (mkD1 [] db0) in
  let stored := concat (zip_with stored_by (calls_of evs) (d1_calls p)) in
  stored.*1 = [(pk, rlm, 2); (pk, rlm, 3); (pk, rlm, 1)] ∧ ∃ L, sql_rep (d1_db p) L (λ _, false) ∧ Forall (holds L) stored.
Proof.
  split; [vm_compute; reflexivity|].
  destruct (d1_writers_keep_bags evs db0 no_logs (λ _, false) db0_rep evs_storable) as (L & HL & _ & _ & Hh & _). exists L. split; [exact HL|exact Hh].
Defined.

Definition many : list IBag := replicate 501 (bag rlm [x61]).
Lemma many_storable : Forall storable many.
Proof. apply Forall_replicate. apply storable_bag. Qed.

(** The second batch of a call of 501 bags fails. *)
Lemma failed_setBags_leave_batches_witness :
  (1 * batch_chunk < length (filter (λ b, rlm_valid (bag_rlm b) = true) many))%nat ∧
  ∃ db', d1_setBags (λ i, bool_decide (i = 1%nat)) pk many db0 = (Err StorageError, db') ∧
    sql_rep db' (push_bags pk (take (1 * batch_chunk) (filter (λ b, rlm_valid (bag_rlm b) = true) many)) no_logs) (λ _, false).
Proof.
  assert (H : (1 * batch_chunk < length (filter (λ b, rlm_valid (bag_rlm b) = true) many))%nat) by (apply Nat.ltb_lt; vm_compute; reflexivity).
  split; [exact H|]. apply (failed_setBags_leave_batches pk many db0 no_logs (λ _, false) db0_rep many_storable); [|reflexivity|exact H].
  intros i Hi. apply bool_decide_false. lia.
Defined.
End SqlDemo.
